(* ===== verification/_CoqProject ===== *)
-Q . S2P
Prelude.v
Strings.v
PathMap.v
OutputText.v
RustcArgs.v
SubsetSum.v
Pressure.v
Admission.v
Pool.v
Registrar.v
TestHistory.v
Ledger.v
Protocol.v
Naming.v
Manifest.v
ActionSlot.v
Depfile.v
Uploads.v
CriticalPath.v
Profile.v
Policy.v
Flights.v
UnitGraph.v
Walk.v
Cas.v
Housekeeping.v
Collector.v
Sweep.v
Compilers.v
FileDigest.v
RustcAction.v
DepInfo.v
RustcPrediction.v
Rediscovery.v
HardLinks.v
TreeRemoval.v
Incremental.v
IncrementalLedger.v
IncrementalSteps.v
IncrementalAccount.v
DiskUsage.v
DiskUsageLedger.v
DiskUsageMerge.v
CcArgs.v
CcReading.v
CcAction.v
CcKeys.v
CcInputs.v
CcDirectives.v
CcShadow.v
