(* ===== verification/Prelude.v ===== *)
(** * mr-boxington: a verification library

    [mbx] is a build cache for Rust and C.  A command wraps a build: shims take
    the place of the compilers, ask whether the action was already run, restore
    its outputs or run the real compiler and publish what it made.  This library
    models the parts whose correctness is a matter of logic, from the Rust
    sources under [src/crates/], and proves what makes them correct.

    ** The program and the files that model it

    - The scheduler ([mbx/src/scheduler.rs], [pressure.rs], [config.rs],
      [scheduler_decisions.rs]).  Every build on a machine shares one pool
      directory.  A compilation asks for a share of cores and memory; under the
      registrar lock it either writes a lease file or a numbered waiter file, and
      both are locked for as long as their process lives.
      [SubsetSum.v] is [pass_quantized], the test that lets a request overtake
      older waiters without delaying any of them, with its bitset of subset sums
      held in 64-bit words.  [Admission.v] is [admission_decision_traced] and the
      records it reads.  [Pressure.v] is the sampled memory-pressure state.
      [Pool.v] is how a pool is built from the configuration or from a session's
      environment, what it withholds while yielding, and how a demand becomes a
      charge.  [Registrar.v] is the attempt itself ([try_admit_state],
      [try_admit_inner]) over the two directories, and the transition system of
      all processes that attempt, release, crash and start.
    - What the scheduler remembers.  [Ledger.v] is the peak-memory ledger,
      [TestHistory.v] the binary history of nextest tests with its on-disk binary
      search, [Profile.v] the [Demand] constructors and the keys by which work is
      remembered ([link_profile], [compile_profile]).
    - [Flights.v]: one compilation of an invocation at a time, and the handoff
      of its prediction to the builds that waited ([flight_at_inner], [Flight],
      [prune_flights]).
    - The cache protocol ([mbx-cache-protocol/src/lib.rs]).  [Protocol.v] is
      digests and the validation of wire records.
    - The cache agent ([mbx-cache-core/src/]).  [Manifest.v] is the bounded
      history of predictions of a task and the merge of two snapshots
      ([agent/manifest.rs]); [ActionSlot.v] the claims on local action records
      by file identity ([action_slot.rs]); [Uploads.v] the deferred publication
      queue ([uploads.rs]).
    - C compilations ([mbx-cache-cc/src/]).  [Depfile.v] is the make dependency
      lists of compilers ([depfile.rs]).  [CcArgs.v] is the two command-line
      parsers of [lib.rs], that of gcc-style drivers and that of [cl.exe], with
      the environment a key has; [CcReading.v] proves what a reading keeps.
      [CcAction.v] is the [ActionBuilder] of a C action's key with the prediction
      of its inputs, and [CcKeys.v] what equal keys and predictions mean.
      [CcInputs.v] is the rest of [depfile.rs] with the checks of
      [mbx/src/cc.rs] before publication: the inputs of a compilation, the
      manifests of the directories it searched, and the scan for directives of
      the assembler, about which [CcDirectives.v] and [CcShadow.v] are.
    - [CriticalPath.v]: the analysis of a recorded build
      ([mbx/src/analyze/critical_path.rs]).
    - [Policy.v]: who may write to the remote cache ([mbx/src/policy.rs]).
    - The local store.  [Cas.v] is [mbx-cache-core/src/local.rs]: objects stored
      under their digests, action records published with first-writer semantics,
      the integrity of an output tree and the recorded use of a result's closure.
      The collection of [mbx-cache-store/src/lib.rs] is in three files:
      [Housekeeping.v] has the passes beside the cache (checkout claims, task
      manifests, session streams, import staging), [Collector.v] reachability,
      eviction, the dangling-result sweep and [gc_with_mode], and [Compilers.v]
      the removal of unused compilers with its preview.  [Sweep.v] states what a
      collection guarantees.  The store is a record of maps from paths to files;
      what other processes do while an operation runs is an argument of it.
    - Rust compilations ([mbx-cache-rustc/src/lib.rs]).  [PathMap.v] gives files
      names that hold on every machine ([mbx-cache-core/src/path_mapping.rs]),
      over a disk with symbolic links and the memo of directories already
      resolved.  [RustcArgs.v] is the command-line parser with its response
      files, the classification of what is cacheable, native libraries and the
      outputs of an invocation; [RustcAction.v] the [ActionBuilder] that turns an
      invocation and its inputs into the key of the cache.  [FileDigest.v] is the
      digest of a file with the identity it may be reused under
      ([mbx-cache-core/src/agent/file_digest.rs]), where every system call may see
      a later world; [DepInfo.v] the discovery of a compilation's inputs from
      rustc's dep-info and its native directories, and the checks that nothing
      changed meanwhile ([dep_info.rs]).  [RustcPrediction.v] is the compact form
      in which the inputs of a finished compilation predict those of the next,
      and [Rediscovery.v] the proof that discovery from it repeats the first.
    - What builds leave on disk.  [HardLinks.v] is a Unix filesystem whose files
      may have several names, with what the operating system decides as the
      class [Os].  [TreeRemoval.v] is the listing and removal of a tree of
      [mbx/src/disk_usage.rs], whose removal may stop half way.  [Incremental.v]
      is the collection of rustc's incremental state ([mbx/src/incremental.rs]
      with [retired.rs]): the measurement of sessions, units and records,
      retirement by rename, trimming, the hot floor and the backstop.
      [IncrementalLedger.v], [IncrementalSteps.v] and [IncrementalAccount.v] have
      its invariant, that each step keeps it, and what a collection reports.
      [DiskUsage.v] is the general ledger of disk usage, by which target
      directories and views are weighed, with its previews;
      [DiskUsageLedger.v] and [DiskUsageMerge.v] have its invariant and what
      removals and merges report.
    - [OutputText.v]: the paths in what compilers and build scripts print,
      written as placeholders for storage and written back on restoring
      ([mbx/src/materialize.rs]).
    - [UnitGraph.v]: the names by which units of a build depend on one another
      ([mbx/src/unit_graph.rs]).
    - [Naming.v] is the monad of the builders of keys, which memoize resolved
      directories, and [Walk.v] the graph traversals the store uses (a worklist, a search that
      stops at a failure, a search that remembers verdicts), and [Strings.v] the
      [str] and [Path] operations on byte strings.
    - [Prelude.v], this file: machine integers, options, the result monad,
      ordered maps, tactics and the lemmas the components share.

    [Admission] calls [SubsetSum]; [Pool] builds on [Admission]; [Registrar] uses
    [Pressure], [Admission] and [Pool]; [TestHistory], [Ledger] and [Profile] use
    the measurements of [Pool]; [Manifest], [Uploads] and the store use the
    digests of [Protocol]; [Profile], [UnitGraph] and the store use [Strings];
    [Cas] and [Collector] run on [Walk].  [RustcArgs] uses the paths of
    [PathMap], [RustcAction] the invocations of [RustcArgs], the memo of
    [PathMap] and the digests of [Protocol]; [CcArgs] and [CcAction] are built the
    same way, and both builders run in [Naming]; [CcInputs] makes the system calls
    of [FileDigest] and [DepInfo]; [DepInfo] hashes with [FileDigest]
    what [RustcArgs] requires, and [RustcPrediction] and [Rediscovery] use all of
    them.  [TreeRemoval] works on [HardLinks], and [Incremental] and [DiskUsage] on
    both.  The other files stand alone.

    The interfaces are classes: [Hashes] (the two hash functions, in [Protocol])
    and [Codec] (what the store reads and writes as JSON) with its law
    [CodecLaws], against which [Cas] is proved; [StoreCodec] adds what the collector reads.  [Disk] is
    the part of the filesystem that resolves paths, with its laws [DiskLaws], and
    [Serializer] the canonical JSON of action descriptors, with [SerializerLaws];
    [CcSerializer] and [CcSerializerLaws] are those of C actions, and [Developer]
    the developer tools a machine selected.  [Links] is the metadata of a name
    that may be a link, with [LinksLaws] about listings and [..], and [TextHash] a
    hash without collisions; [FolderDemo] of [CcShadow] implements them.
    [JsonStrings] is how JSON writes a character, with [JsonStringLaws], which
    [TextDemo] of [OutputText] proves of an instance.
    [Kernel] is the system calls about files, with the laws [KernelLaws] of file
    identity and change times, [Directories] the calls a walk makes and
    [DigestCache] the session's ledger of digests; the [Memory] module of
    [FileDigest] implements them and proves the laws.  [Os] is the order of a
    listing, what renames are refused and what a failed removal leaves, with the
    laws [OsLaws], which the module [PlainDisk] of [HardLinks] implements and
    proves; [Machine] what else decides a collection of incremental state: JSON,
    workspaces, locks that do not open and what other processes do.

    ** How code becomes definitions

    A [u64] is a [Z] with its range in the hypotheses and its checked,
    saturating and wrapping operators written out below; 64-bit words of bitsets
    use [Z.land], [Z.shiftl] and [Z.testbit].  A float is a primitive float.  A
    struct is a record, an enum an inductive type, [Option] and [Result] are
    [option] and [result] with their monads, a [BTreeMap] a [gmap] listed in key
    order, a byte string a list of [Z].  A loop is a [Fixpoint], structural where
    it consumes a list and otherwise on fuel; what shared state a handler changes
    is passed and returned.  Concurrency is a step relation: each registrar-locked
    section, file operation or remote answer is one step, steps interleave freely,
    a crash can follow any step, and a property of all reachable states is proved
    by induction on the steps.

    A definition carries the source's name.  Where the source closes over local
    state the closure's captured values are section variables or arguments.
    Outside code is an argument: the hash functions, JSON parsing and canonical
    length, the clock, random identities, what the operating system and the
    server answer.

    ** What the theorems show

    - Admission ([SubsetSum], [Admission], [Registrar]): no request starts over a
      budget; running work never exceeds the largest pool, except one single
      demand that alone is larger; queue places are unique; a request that starts
      in order leaves nobody older behind; one that overtakes leaves every older
      waiter, on each axis and in each scope, room once any subset of the running
      work that would have sufficed without it completes; with quantum one the
      fast test is exactly the exhaustive one; an idle machine admits its oldest
      demand; tracing changes nothing.
    - Pressure: it takes two bad samples in a row to gate and five healthy
      seconds to lift.
    - Pools and plans: a yielding pool keeps some capacity; a shim of a session
      and a standalone wrapper resolve the same limits; the scalar weight old
      readers see covers the charge.
    - Memory: peaks and core counts only rise, files stay bounded and consistent,
      the test history round-trips and its binary search is a scan; keys of
      different work differ; profiles depend on what flags say, not on how they
      are spelled.
    - Sharing: at most one process flies an invocation while no sweep runs; a
      handed-over prediction is the predecessor's; waiting ends at its limit; a
      claimed action record is the one at its path and only its holder changes
      it; an action result is published only after its blobs, a batch never
      deadlocks, and packs partition the blobs within the server's limits.
    - Data: updates and merges of prediction histories keep the newest, the
      protected and the bounds; depfiles are read back as written; storage keys
      are injective; untrusted builds never publish; the critical path is a chain
      of dependencies whose spans add up, and solo time is counted exactly; the
      units of a build find each other's names however their flags are spelled.
    - The store ([Cas], [Housekeeping], [Collector], [Sweep], [Compilers]): what
      lands under a digest has it, and a source that changes is refused when it had
      been left alone for a grain of the clock before; a record is written only
      where no record that stands was read; integrity and recorded use cover
      exactly what is reachable; claims end only on evidence, history is bounded
      and running sessions keep theirs; eviction takes what nothing needs first,
      then the oldest, and stops at the budget; no result is left without its
      action, metadata and outputs, though its captured output may be gone; a
      dry run predicts the real run and makes nothing but lock files; dropping a
      compiler costs no other result an object.
    - Rust compilations: a portable name belongs to one file and leads back to it;
      what the parser learns besides the source is all in the arguments it keeps;
      an action key says exactly what it must and the linker it was given, the order of discovery is not in it, and equal keys
      are the same compilation; outputs lie together in one directory.
    - C compilations ([CcReading], [CcKeys]): the kept arguments, written back,
      parse to the invocation they came from; the dependency-list flags of a
      caller change only the list, but for the key of a preprocessor run; equal keys are the same compiler, environment,
      arguments and inputs; a prediction names the files it was made from.  When
      quiet snapshots around a compilation agree, no directory went away and no
      name has a line break, no header appeared beneath a
      searched directory ([CcShadow]), and the scan for directives is a search of
      the whole file ([CcDirectives]).
    - Inputs ([FileDigest], [DepInfo], [RustcPrediction], [Rediscovery]), where
      nothing lies on NFS: a digest offered for reuse is that of the file while its identity holds; reading in
      pieces finds a timestamp macro as a search of the whole would; an input that
      passes the check was keyed by what the compiler read; a prediction reads
      back, and finds again the inputs it was made from.
    - Output text ([OutputText]): on the machine that stored it, text is restored
      byte for byte, however the mapped roots lie in one another.
    - Disk usage ([TreeRemoval], [IncrementalAccount], [DiskUsageLedger],
      [DiskUsageMerge]): a collection of incremental state reports as reclaimed
      exactly the bytes of the files whose last name went, and as left exactly
      those of the others it measured, though files are shared between sessions
      and a removal may fail half way; the general ledger does the same for any
      sequence of measured trees, and ledgers built apart merge into the one
      that measuring in turn would have built.

    ** Bounds and fuel

    The bitset has at most 2^16 bits ([MAX_BITS]).  Fuel is always enough, as the
    theorems show: the history search has the record count, eviction loops the
    size of the map, the critical path's walk the number of recorded units, the
    flight's wait loop one round per initial delay; a traversal of the store one
    round per pending node and per reference of an object not seen yet
    ([walk_total], [search_total], [verdict_total_universe]).  Reading a file has
    one round per chunk, which the length of a file that does not grow bounds
    ([timestamp_scan_exact]); the walk of a native directory one per directory,
    and its exhaustion is an error like the others, so that theorems about
    discovery that succeeds do not depend on it; so does the walk of an include
    manifest.  A walk over a tree of [HardLinks]
    has a round per node of the filesystem ([rounds]), and visits each node once.
    An exhausted fuel is never the
    reason a theorem holds: the theorems state the result.

    ** What is not modelled

    The shims around the modelled parser, builder and discovery
    ([mbx/src/rustc.rs], [cc.rs], [ar.rs], [linker.rs]); the probe of [cl.exe]
    ([msvc_identity]) and its JSON dependency lists; exports and imports of the store, the HTTP client and its
    wire framing, the agent's socket protocol and prefetching, sandboxing,
    cgroups and supervision, the command-line interface and reports.  Of the
    incremental state: seeding a new checkout, the registrar and lock files of
    leases (a lease is a set in [World]), last-use stamps beyond their place in
    the tree, the copy epoch, [stats], [remove_workspace] and [touch]; other
    processes act before the collection turns to a unit and not between the calls
    of one removal; files have neither modes nor Windows identities, and all that
    is measured together fits in 64 bits.  The previews of [DiskUsage] are
    definitions without theorems.  Of the other
    modelled parts: the floating-point estimators of [scheduler_memory.rs], the
    decision log's events, and the report of [mbx scheduler]; the polling loop of
    [Pool::admit] around one attempt; filesystem errors other than those an
    operation's argument names. *)

From stdpp Require Import base list gmap strings sorting.
From Stdlib Require Import ZArith Lia.

Declare Scope mbx_scope.
Delimit Scope mbx_scope with mbx.
Local Open Scope Z_scope.

(** ** Machine integers

    A Rust [u64] (and [usize], on the 64-bit targets the project ships) is a
    [Z] with the range written out.  The operators below are the checked,
    saturating and rounding-up operators the sources call by the same names. *)

Definition u64_max : Z := 18446744073709551615.

Definition is_u64 (x : Z) : Prop := 0 <= x <= u64_max.

#[export] Instance is_u64_dec x : Decision (is_u64 x).
Proof. unfold is_u64. apply _. Defined.

Definition saturating_add (a b : Z) : Z := Z.min u64_max (a + b).
Definition saturating_sub (a b : Z) : Z := Z.max 0 (a - b).
Definition saturating_mul (a b : Z) : Z := Z.min u64_max (a * b).

Definition checked_add (a b : Z) : option Z :=
  if a + b <=? u64_max then Some (a + b) else None.
Definition checked_sub (a b : Z) : option Z :=
  if b <=? a then Some (a - b) else None.
Definition checked_mul (a b : Z) : option Z :=
  if a * b <=? u64_max then Some (a * b) else None.

(** [u64::div_ceil]; every caller has a positive divisor. *)
Definition div_ceil (a b : Z) : Z :=
  if 0 <? a mod b then a / b + 1 else a / b.

(** [Ord::clamp]. *)
Definition clamp (x lo hi : Z) : Z := Z.min hi (Z.max lo x).

(** A left shift of a [u64] drops the bits shifted out. *)
Definition shl64 (x s : Z) : Z := Z.land (Z.shiftl x s) u64_max.

(** ** Options and results *)

Definition is_some_and {A} (p : A -> bool) (o : option A) : bool :=
  match o with Some a => p a | None => false end.
Definition is_none_or {A} (p : A -> bool) (o : option A) : bool :=
  match o with Some a => p a | None => true end.
Definition unwrap_or {A} (d : A) (o : option A) : A := default d o.
Definition option_or {A} (o p : option A) : option A :=
  match o with Some _ => o | None => p end.
Definition is_some {A} (o : option A) : bool :=
  match o with Some _ => true | None => false end.
Definition is_none {A} (o : option A) : bool :=
  match o with Some _ => false | None => true end.
Definition option_filter {A} (p : A -> bool) (o : option A) : option A :=
  match o with Some a => if p a then Some a else None | None => None end.

(** [bool::then_some]. *)
Definition then_some {A} (b : bool) (a : A) : option A := if b then Some a else None.

Inductive result (E A : Type) : Type :=
| Ok (a : A)
| Err (e : E).
Arguments Ok {E A} _.
Arguments Err {E A} _.

#[export] Instance result_eq_dec {E A} `{EqDecision E} `{EqDecision A} : EqDecision (result E A).
Proof. solve_decision. Defined.

#[export] Instance result_ret {E} : MRet (result E) := fun _ a => Ok a.
#[export] Instance result_bind {E} : MBind (result E) :=
  fun _ _ f r => match r with Ok a => f a | Err e => Err e end.
#[export] Instance result_fmap {E} : FMap (result E) :=
  fun _ _ f r => match r with Ok a => Ok (f a) | Err e => Err e end.

Definition is_ok {E A} (r : result E A) : bool :=
  match r with Ok _ => true | Err _ => false end.
Definition is_err {E A} (r : result E A) : bool := negb (is_ok r).

(** [Option::ok_or]. *)
Definition ok_or {E A} (e : E) (o : option A) : result E A :=
  match o with Some a => Ok a | None => Err e end.

(** ** Lists of numbers *)

Fixpoint sumZ (l : list Z) : Z :=
  match l with [] => 0 | x :: l => x + sumZ l end.

(** ** Ordered maps

    A [BTreeMap] is a [gmap] whose iteration is by key order. *)

Definition by_key {A} (a b : string * A) : Prop := String.leb a.1 b.1 = true.
#[export] Instance by_key_dec {A} : RelDecision (@by_key A).
Proof. intros a b. unfold by_key. apply _. Defined.

(** [BTreeMap::iter]. *)
Definition entries {A} (m : gmap string A) : list (string * A) := merge_sort by_key (map_to_list m).

(** ** Tactics *)

(** Case analysis on every test the goal or a hypothesis is stuck on. *)
Ltac simp_bool :=
  repeat match goal with
  | H : (_ && _)%bool = true |- _ => apply andb_prop in H; destruct H
  | H : (_ || _)%bool = false |- _ => apply orb_false_elim in H; destruct H
  | H : negb _ = true |- _ => apply negb_true_iff in H
  | H : negb _ = false |- _ => apply negb_false_iff in H
  | H : (_ <=? _) = true |- _ => apply Z.leb_le in H
  | H : (_ <=? _) = false |- _ => apply Z.leb_gt in H
  | H : (_ <? _) = true |- _ => apply Z.ltb_lt in H
  | H : (_ <? _) = false |- _ => apply Z.ltb_ge in H
  | H : (_ =? _) = true |- _ => apply Z.eqb_eq in H
  | H : (_ =? _) = false |- _ => apply Z.eqb_neq in H
  | H : bool_decide _ = true |- _ => apply bool_decide_eq_true in H
  | H : bool_decide _ = false |- _ => apply bool_decide_eq_false in H
  end.

(** Take every stuck match apart and turn the tests into propositions. *)
Ltac split_matches := repeat (case_match; simplify_eq/=); simp_bool.

(** Arithmetic on the machine operators: unfold them and split the tests. *)
Ltac unfold_u64 :=
  unfold saturating_add, saturating_sub, saturating_mul, checked_add,
    checked_sub, checked_mul, clamp, is_u64, u64_max in *.
Ltac u64_solve := unfold_u64; repeat case_match; simp_bool; simplify_eq; try lia.

(** ** Lemmas *)

Lemma div_ceil_bounds (a b : Z) :
  0 < b -> 0 <= a -> (div_ceil a b - 1) * b < a <= div_ceil a b * b.
Proof.
  intros Hb Ha. unfold div_ceil.
  pose proof (Z.div_mod a b ltac:(lia)) as Hdm.
  pose proof (Z.mod_pos_bound a b Hb).
  destruct (0 <? a mod b) eqn:E; simp_bool; nia.
Qed.

Lemma div_ceil_nonneg a b : 0 < b -> 0 <= a -> 0 <= div_ceil a b.
Proof. intros Hb Ha. pose proof (div_ceil_bounds a b Hb Ha). nia. Qed.

Lemma div_ceil_le a b k : 0 < b -> 0 <= a -> a <= k * b -> div_ceil a b <= k.
Proof. intros Hb Ha Hk. pose proof (div_ceil_bounds a b Hb Ha). nia. Qed.

Lemma div_ceil_1 a : 0 <= a -> div_ceil a 1 = a.
Proof. intros Ha. pose proof (div_ceil_bounds a 1 ltac:(lia) Ha). lia. Qed.

Lemma sumZ_app l k : sumZ (l ++ k) = sumZ l + sumZ k.
Proof. induction l as [|x l IH]; simpl; lia. Qed.

#[export] Instance sumZ_Permutation : Proper (Permutation ==> eq) sumZ.
Proof. induction 1; simpl; lia. Qed.

Lemma sumZ_nonneg l : Forall (fun x => 0 <= x) l -> 0 <= sumZ l.
Proof. induction 1; simpl; lia. Qed.

Lemma sumZ_sublist l k :
  Forall (fun x => 0 <= x) k -> sublist l k -> sumZ l <= sumZ k.
Proof.
  intros Hk Hs. induction Hs; simpl in *; [lia| |];
    apply Forall_cons in Hk as [? Hk]; specialize (IHHs Hk); lia.
Qed.

Lemma Forall_sublist {A} (P : A -> Prop) l k : Forall P k -> sublist l k -> Forall P l.
Proof.
  intros Hk Hs. induction Hs; [done| |]; apply Forall_cons in Hk as [? Hk]; auto.
Qed.

Lemma sublist_In {A} (x : A) l k : sublist l k -> In x l -> In x k.
Proof. intros Hs. induction Hs; simpl; [done|intros [->|?]; auto|auto]. Qed.

Lemma StronglySorted_weaken {A} (R R' : A -> A -> Prop) l :
  (forall a b, R a b -> R' a b) -> StronglySorted R l -> StronglySorted R' l.
Proof.
  intros HR. induction 1 as [|x l Hs IH Hf]; constructor; [done|].
  eapply Forall_impl; [exact Hf|]. simpl. auto.
Qed.

Lemma StronglySorted_sublist {A} (R : A -> A -> Prop) l k :
  StronglySorted R k -> sublist l k -> StronglySorted R l.
Proof.
  intros Hk Hs. induction Hs as [|x l k Hs IH|x l k Hs IH];
    [constructor| |]; apply StronglySorted_inv in Hk as [Hk Hf]; [constructor|]; auto.
  by eapply Forall_sublist.
Qed.

Lemma string_leb_trans a b c : String.leb a b = true -> String.leb b c = true -> String.leb a c = true.
Proof.
  revert b c. induction a as [|x a IH]; intros [|y b] [|z c]; try done.
  specialize (IH b c). unfold String.leb in *. simpl. unfold Ascii.compare.
  destruct (N.compare_spec (Ascii.N_of_ascii x) (Ascii.N_of_ascii y)),
    (N.compare_spec (Ascii.N_of_ascii y) (Ascii.N_of_ascii z)),
    (N.compare_spec (Ascii.N_of_ascii x) (Ascii.N_of_ascii z)); try done; try lia.
Qed.

Lemma string_leb_total a b : String.leb a b = true \/ String.leb b a = true.
Proof. apply String.leb_total. Qed.

Lemma In_entries {A} (m : gmap string A) k v : In (k, v) (entries m) <-> m !! k = Some v.
Proof.
  unfold entries. rewrite <- list_elem_of_In, merge_sort_Permutation. apply elem_of_map_to_list.
Qed.

Lemma length_entries {A} (m : gmap string A) : length (entries m) = size m.
Proof. unfold entries. by rewrite merge_sort_Permutation, length_map_to_list. Qed.

Lemma NoDup_entries {A} (m : gmap string A) : NoDup (entries m).*1.
Proof. unfold entries. rewrite merge_sort_Permutation. apply NoDup_fst_map_to_list. Qed.

Create HintDb mbx discriminated.
Create Rewrite HintDb mbx.
#[export] Hint Resolve sumZ_nonneg div_ceil_nonneg : mbx.
#[export] Hint Rewrite sumZ_app : mbx.
