(* ===== verification/Strings.v ===== *)
(** * Strings and paths of the standard library

    What the name-reading components use of [str], [OsStr] and [Path]: splits,
    prefixes, UTF-8 validity and the components of a Unix path.  A string is
    its bytes.  The lemmas say how the splits read back a name that was put
    together from its parts. *)

From stdpp Require Import base list gmap strings sorting.
From Stdlib Require Import ZArith Lia Ascii.
From S2P Require Import Prelude.
Local Open Scope string_scope.

(** ** Splits *)

Fixpoint strip_prefix (p s : string) : option string :=
  match p, s with
  | EmptyString, _ => Some s
  | String a p, String b s => if Ascii.eqb a b then strip_prefix p s else None
  | _, EmptyString => None
  end.

Fixpoint split_once (c : Ascii.ascii) (s : string) : option (string * string) :=
  match s with
  | EmptyString => None
  | String a s =>
      if Ascii.eqb a c then Some ("", s)
      else match split_once c s with Some (l, r) => Some (String a l, r) | None => None end
  end.

(** [str::split] on one character: never empty. *)
Fixpoint split (c : Ascii.ascii) (s : string) : list string :=
  match s with
  | EmptyString => [""]
  | String a s =>
      if Ascii.eqb a c then "" :: split c s
      else match split c s with w :: ws => String a w :: ws | [] => [String a ""] end
  end.

Definition head_of_split (c : Ascii.ascii) (s : string) : string :=
  match split_once c s with Some (l, _) => l | None => s end.

Fixpoint join (sep : string) (ws : list string) : string :=
  match ws with [] => "" | [w] => w | w :: ws => w ++ sep ++ join sep ws end.

Definition string_le (a b : string) : Prop := String.leb a b = true.
#[export] Instance string_le_dec : RelDecision string_le.
Proof. intros a b. unfold string_le. apply _. Defined.

(** A [BTreeSet] as a list. *)
Definition sorted_set (s : gset string) : list string := merge_sort string_le (elements s).

(** [str::rsplit_once] on one character. *)
Fixpoint rsplit_once (c : Ascii.ascii) (s : string) : option (string * string) :=
  match s with
  | EmptyString => None
  | String a s =>
      match rsplit_once c s with
      | Some (l, r) => Some (String a l, r)
      | None => if Ascii.eqb a c then Some ("", s) else None
      end
  end.

(** [str::rsplit_once] on a string. *)
Fixpoint rsplit_str (p s : string) : option (string * string) :=
  match s with
  | EmptyString => (fun r => ("", r)) <$> strip_prefix p s
  | String a s' =>
      match rsplit_str p s' with
      | Some (l, r) => Some (String a l, r)
      | None => (fun r => ("", r)) <$> strip_prefix p s
      end
  end.

(** [str::trim_start_matches] on one character. *)
Fixpoint trim_start (c : Ascii.ascii) (s : string) : string :=
  match s with
  | String a s' => if Ascii.eqb a c then trim_start c s' else s
  | EmptyString => s
  end.

Fixpoint all_chars (p : Ascii.ascii -> bool) (s : string) : bool :=
  match s with EmptyString => true | String a s => p a && all_chars p s end.

Definition in_range (lo hi : Ascii.ascii) (a : Ascii.ascii) : bool :=
  ((N_of_ascii lo <=? N_of_ascii a) && (N_of_ascii a <=? N_of_ascii hi))%N.

Definition is_ascii_digit : Ascii.ascii -> bool := in_range "0" "9".
Definition is_ascii_hexdigit (a : Ascii.ascii) : bool :=
  is_ascii_digit a || in_range "a" "f" a || in_range "A" "F" a.
Definition is_ascii_alphanumeric (a : Ascii.ascii) : bool :=
  is_ascii_digit a || in_range "a" "z" a || in_range "A" "Z" a.

(** [str::trim_end_matches] on one character. *)
Fixpoint trim_end (c : Ascii.ascii) (s : string) : string :=
  match s with
  | EmptyString => ""
  | String a s =>
      match trim_end c s with
      | EmptyString => if Ascii.eqb a c then "" else String a ""
      | t => String a t
      end
  end.

(** [str::contains], of a character and of a string. *)
Fixpoint contains_char (c : Ascii.ascii) (s : string) : bool :=
  match s with EmptyString => false | String a s => Ascii.eqb a c || contains_char c s end.
Fixpoint contains (needle s : string) : bool :=
  is_some (strip_prefix needle s) ||
  match s with EmptyString => false | String _ s => contains needle s end.

Fixpoint ends_in (suffix s : string) : bool :=
  String.eqb s suffix || match s with EmptyString => false | String _ s => ends_in suffix s end.

(** [str::replace] of one character by another. *)
Fixpoint replace_char (c d : Ascii.ascii) (s : string) : string :=
  match s with EmptyString => "" | String a s => String (if Ascii.eqb a c then d else a) (replace_char c d s) end.

Definition lower_char (a : Ascii.ascii) : Ascii.ascii :=
  let n := N_of_ascii a in
  if ((65 <=? n) && (n <=? 90))%N then ascii_of_N (n + 32) else a.
Fixpoint to_ascii_lowercase (s : string) : string :=
  match s with EmptyString => "" | String a s => String (lower_char a) (to_ascii_lowercase s) end.
Definition eq_ignore_ascii_case (a b : string) : bool :=
  String.eqb (to_ascii_lowercase a) (to_ascii_lowercase b).

Definition is_ascii_whitespace (a : Ascii.ascii) : bool :=
  bool_decide (N_of_ascii a ∈ [32; 9; 10; 12; 13]%N).

(** [str::split_ascii_whitespace]. *)
Fixpoint ascii_words (s : string) : list string :=
  match s with
  | EmptyString => []
  | String a s' =>
      if is_ascii_whitespace a then ascii_words s'
      else
        let words := ascii_words s' in
        match s', words with
        | String b _, w :: ws => if is_ascii_whitespace b then String a "" :: words else String a w :: ws
        | _, _ => String a "" :: words
        end
  end.

(** [str::lines]: a line ends at a line feed with the carriage return before
    it; what follows the last is a line when there is something. *)
Definition line_feed : Ascii.ascii := ascii_of_N 10.
Definition carriage_return : string := String (ascii_of_N 13) "".
Definition drop_return (s : string) : string :=
  match rsplit_str carriage_return s with Some (l, "") => l | _ => s end.
Definition text_lines (s : string) : list string :=
  let pieces := split line_feed s in
  (map drop_return (removelast pieces) ++
   match last pieces with Some "" | None => [] | Some l => [l] end)%list.

(** [str::parse::<usize>]: digits after an optional sign that fit. *)
Fixpoint digits_value (acc : Z) (s : string) : option Z :=
  match s with
  | EmptyString => Some acc
  | String a s =>
      if is_ascii_digit a then
        match checked_mul acc 10 with
        | Some acc =>
            match checked_add acc (Z.of_N (N_of_ascii a) - 48) with
            | Some acc => digits_value acc s
            | None => None
            end
        | None => None
        end
      else None
  end.
Definition parse_usize (s : string) : option Z :=
  match s with
  | EmptyString => None
  | String a rest =>
      if Ascii.eqb a "+" then (if String.eqb rest "" then None else digits_value 0 rest)
      else digits_value 0 s
  end.

(** ** UTF-8 *)

(** The ranges the bytes after a first byte must lie in. *)
Definition continuation (b : N) : option (list (N * N)) :=
  let tail := (0x80, 0xBF)%N in
  let within (lo hi : N) := ((lo <=? b) && (b <=? hi))%N in
  if within 0x00%N 0x7F%N then Some []
  else if within 0xC2%N 0xDF%N then Some [tail]
  else if within 0xE0%N 0xE0%N then Some [(0xA0, 0xBF)%N; tail]
  else if within 0xE1%N 0xEC%N || within 0xEE%N 0xEF%N then Some [tail; tail]
  else if within 0xED%N 0xED%N then Some [(0x80, 0x9F)%N; tail]
  else if within 0xF0%N 0xF0%N then Some [(0x90, 0xBF)%N; tail; tail]
  else if within 0xF1%N 0xF3%N then Some [tail; tail; tail]
  else if within 0xF4%N 0xF4%N then Some [(0x80, 0x8F)%N; tail; tail]
  else None.

Fixpoint utf8_from (pending : list (N * N)) (s : string) : bool :=
  match s, pending with
  | EmptyString, [] => true
  | EmptyString, _ => false
  | String a s, [] =>
      match continuation (N_of_ascii a) with Some p => utf8_from p s | None => false end
  | String a s, (lo, hi) :: pending =>
      ((lo <=? N_of_ascii a) && (N_of_ascii a <=? hi))%N && utf8_from pending s
  end.

(** [OsStr::to_str]. *)
Definition to_str (s : string) : option string := if utf8_from [] s then Some s else None.

(** ** Paths *)

Inductive Component := RootDir | CurDir | ParentDir | Normal (name : string).

Definition Path : Type := list Component.

(** One piece between separators; a [.] counts only at the start. *)
Definition piece (first : bool) (p : string) : Path :=
  if String.eqb p "" then []
  else if String.eqb p "." then (if first then [CurDir] else [])
  else if String.eqb p ".." then [ParentDir]
  else [Normal p].

(** [Path::components] of a Unix path. *)
Definition path_of (s : string) : Path :=
  match split "/" s with
  | [] => []
  | first :: rest =>
      ((match s with String "/" _ => [RootDir] | _ => piece true first end)
        ++ flat_map (piece false) rest)%list
  end.

Definition file_name (p : Path) : option string :=
  match last p with Some (Normal n) => Some n | _ => None end.

Definition parent (p : Path) : option Path :=
  match last p with None | Some RootDir => None | Some _ => Some (removelast p) end.

(** [rsplit_file_at_dot]: the stem and the extension of a file name. *)
Definition at_dot (name : string) : option string * option string :=
  if String.eqb name ".." then (Some name, None)
  else match rsplit_once "." name with
       | None => (Some name, None)
       | Some (before, after) =>
           if String.eqb before "" then (Some name, None) else (Some before, Some after)
       end.

Definition file_stem (p : Path) : option string := n ← file_name p; (at_dot n).1.
Definition extension (p : Path) : option string := n ← file_name p; (at_dot n).2.

(** ** Command-line arguments *)

(** A value or an argument no option starts with. *)
Definition plain (s : string) : bool := match s with String a _ => negb (Ascii.eqb a "-"%char) | _ => true end.

(** ** Lemmas *)

Lemma app_assoc_string (a b c : string) : (a ++ b) ++ c = a ++ (b ++ c).
Proof. induction a as [|x a IH]; [done|]. exact (f_equal (String x) IH). Qed.

Lemma app_nil_string (a : string) : a ++ "" = a.
Proof. induction a as [|x a IH]; [done|]. exact (f_equal (String x) IH). Qed.

Lemma length_app_string (a b : string) : String.length (a ++ b) = (String.length a + String.length b)%nat.
Proof. induction a as [|x a IH]; [done|]. exact (f_equal S IH). Qed.

Lemma app_inv_tail_string (a b c : string) : a ++ c = b ++ c -> a = b.
Proof.
  revert b. induction a as [|x a IH]; intros [|y b] He; [done|..].
  1, 2: apply (f_equal String.length) in He; rewrite ?length_app_string in He; simpl in He;
    rewrite ?length_app_string in He; lia.
  injection He as -> He. f_equal. by apply IH.
Qed.

Lemma strip_prefix_app p s : strip_prefix p (p ++ s) = Some s.
Proof. induction p as [|a p IH]; [done|]. simpl. by rewrite Ascii.eqb_refl. Qed.

Lemma strip_prefix_inv p s r : strip_prefix p s = Some r -> s = p ++ r.
Proof.
  revert s. induction p as [|a p IH]; intros s H; simpl in *; [by simplify_eq|].
  destruct s as [|b s]; [done|]. destruct (Ascii.eqb_spec a b); [|done]. subst.
  by rewrite (IH s H).
Qed.

Lemma all_chars_app p a b : all_chars p (a ++ b) = all_chars p a && all_chars p b.
Proof. induction a as [|x a IH]; simpl; [done|]. by rewrite IH, andb_assoc. Qed.

Lemma all_chars_impl (p q : Ascii.ascii -> bool) s :
  (forall a, p a = true -> q a = true) -> all_chars p s = true -> all_chars q s = true.
Proof.
  intros Hpq. induction s as [|a s IH]; simpl; [done|]. intros [? ?]%andb_prop.
  by rewrite Hpq, IH.
Qed.

(** No [c] in the string. *)
Definition without (c : Ascii.ascii) (s : string) : bool := all_chars (fun a => negb (Ascii.eqb a c)) s.

Lemma without_of (p : Ascii.ascii -> bool) c s :
  p c = false -> all_chars p s = true -> without c s = true.
Proof.
  intros Hc. apply all_chars_impl. intros a Ha. destruct (Ascii.eqb_spec a c); [subst; congruence|done].
Qed.

Lemma rsplit_once_without c s : without c s = true -> rsplit_once c s = None.
Proof.
  unfold without. induction s as [|a s IH]; simpl; [done|]. intros [Ha Hs]%andb_prop.
  rewrite (IH Hs). apply negb_true_iff in Ha. by rewrite Ha.
Qed.

Lemma rsplit_once_app c l r : without c r = true -> rsplit_once c (l ++ String c r) = Some (l, r).
Proof.
  intros Hr. induction l as [|a l IH]; simpl.
  - by rewrite (rsplit_once_without _ _ Hr), Ascii.eqb_refl.
  - by rewrite IH.
Qed.

Lemma split_once_app c l r : without c l = true -> split_once c (l ++ String c r) = Some (l, r).
Proof.
  unfold without. induction l as [|a l IH]; simpl; [by rewrite Ascii.eqb_refl|].
  intros [Ha Hl]%andb_prop. rewrite (IH Hl). apply negb_true_iff in Ha. by rewrite Ha.
Qed.

Lemma split_nonempty c s : split c s <> [].
Proof. destruct s as [|a s]; simpl; [done|]. repeat case_match; done. Qed.

Lemma split_without c s : without c s = true -> split c s = [s].
Proof.
  unfold without. induction s as [|a s IH]; simpl; [done|]. intros [Ha Hs]%andb_prop.
  rewrite (IH Hs). apply negb_true_iff in Ha. by rewrite Ha.
Qed.

Lemma split_app c l r : split c (l ++ String c r) = (split c l ++ split c r)%list.
Proof.
  induction l as [|a l IH]; simpl; [by rewrite Ascii.eqb_refl|].
  destruct (Ascii.eqb a c); [by rewrite IH|]. rewrite IH.
  pose proof (split_nonempty c l). by destruct (split c l).
Qed.

Lemma utf8_ascii s : all_chars (fun a => (N_of_ascii a <=? 127)%N) s = true -> to_str s = Some s.
Proof.
  intros H. unfold to_str. enough (utf8_from [] s = true) as -> by done.
  induction s as [|a s IH]; simpl in *; [done|]. apply andb_prop in H as [Ha Hs].
  assert (continuation (N_of_ascii a) = Some []) as ->; [|by apply IH].
  unfold continuation. rewrite Ha. by destruct (N_of_ascii a).
Qed.

(** Appending a piece that is a name appends it to the path. *)
Lemma path_of_join s n :
  s <> "" -> without "/" n = true -> piece false n = [Normal n] ->
  path_of (s ++ String "/" n) = (path_of s ++ [Normal n])%list.
Proof.
  intros Hs Hn Hp. unfold path_of. rewrite split_app, (split_without _ n) by done.
  pose proof (split_nonempty "/" s) as Hne. destruct (split "/" s) as [|first rest]; [done|].
  change (((first :: rest) ++ [n])%list) with (first :: (rest ++ [n])%list).
  destruct s as [|a s]; [done|].
  rewrite flat_map_app. simpl flat_map at 2. rewrite Hp, app_nil_r, <- app_assoc.
  f_equal.
Qed.

Lemma file_name_app p n : file_name (p ++ [Normal n])%list = Some n.
Proof. unfold file_name. by rewrite last_snoc. Qed.

Lemma parent_app p n : parent (p ++ [Normal n])%list = Some p.
Proof. unfold parent. by rewrite last_snoc, removelast_last. Qed.

Lemma at_dot_app stem ext :
  stem <> "" -> ext <> "" -> without "." ext = true -> at_dot (stem ++ String "." ext) = (Some stem, Some ext).
Proof.
  intros Hs He Hd. unfold at_dot. rewrite rsplit_once_app by done.
  destruct (String.eqb_spec (stem ++ String "." ext) "..") as [H|].
  - destruct stem as [|a [|b [|c stem]]]; try done; injection H; intros; subst; done.
  - by apply String.eqb_neq in Hs as ->.
Qed.

(** No option's name starts a plain argument. *)
Lemma plain_strip p s : plain s = true -> strip_prefix (String "-" p) s = None.
Proof.
  intros Hs. destruct s as [|b s]; [done|]. cbn [strip_prefix plain] in *.
  apply negb_true_iff in Hs. rewrite Ascii.eqb_sym in Hs. by rewrite Hs.
Qed.

Lemma plain_eqb p s : plain s = true -> String.eqb s (String "-" p) = false.
Proof. intros Hs. apply String.eqb_neq. by intros ->. Qed.
