(* ===== verification/PathMap.v ===== *)
(** * Portable names of paths

    Models [src/crates/mbx-cache-core/src/path_mapping.rs] and the reverse
    mapping of [mbx-cache-rustc/src/lib.rs] ([denormalize_path]).  A key names
    a file by the root it lies under, [${WORKSPACE}/src/lib.rs], so that two
    checkouts agree on it.  A path is the list of its components, which is what
    Rust compares; [path_of] reads one from text and [render] writes it.

    What the operating system answers about the disk is an argument ([Disk]);
    [DiskLaws] is what [realpath], [readdir] and [lstat] promise one another
    while nothing changes.

    The theorems: a name determines the file, whatever links lead to it; the
    name leads back to the file; and the memo of resolved directories gives the
    answers [realpath] would have given. *)

From stdpp Require Import base list gmap strings sorting.
From Stdlib Require Import ZArith Lia Ascii.
From S2P Require Import Prelude Strings.
Local Open Scope string_scope.

(** ** Paths *)

#[export] Instance Component_eq_dec : EqDecision Component.
Proof. solve_decision. Defined.

#[export] Instance Component_countable : Countable Component.
Proof.
  refine (inj_countable'
    (fun c => match c with
              | RootDir => inl (inl ()) | CurDir => inl (inr ())
              | ParentDir => inr (inl ()) | Normal n => inr (inr n) end)
    (fun s => match s with
              | inl (inl _) => RootDir | inl (inr _) => CurDir
              | inr (inl _) => ParentDir | inr (inr n) => Normal n end) _).
  by intros [].
Defined.

(** [Path::is_absolute]. *)
Definition is_absolute (p : Path) : bool := match p with RootDir :: _ => true | _ => false end.

(** [PathBuf::push] and [Path::join]: an absolute path replaces what it is
    pushed on, and a leading [.] is not a component further in. *)
Definition push (p q : Path) : Path :=
  if is_absolute q then q
  else match p with
       | [] => q
       | _ => (p ++ match q with CurDir :: q => q | _ => q end)%list
       end.

(** [PathBuf::pop]. *)
Definition pop (p : Path) : Path := default p (parent p).

(** [Path::strip_prefix]. *)
Fixpoint strip_path (base p : Path) : option Path :=
  match base, p with
  | [], _ => Some p
  | c :: base, d :: p => if bool_decide (c = d) then strip_path base p else None
  | _, [] => None
  end.

Definition starts_with (p base : Path) : bool := is_some (strip_path base p).

Definition component_text (c : Component) : string :=
  match c with RootDir => "" | CurDir => "." | ParentDir => ".." | Normal n => n end.

(** [Path::display], of the components. *)
Definition render (p : Path) : string :=
  match p with [RootDir] => "/" | _ => join "/" (map component_text p) end.

Definition normalize_components (p : Path) : Path :=
  fold_left
    (fun normalized component =>
       match component with
       | CurDir => normalized
       | ParentDir => pop normalized
       | component => push normalized [component]
       end) p [].

(** ** Mappings *)

Record PathMapping := mkMapping { root : Path; placeholder : string }.

#[export] Instance PathMapping_eq_dec : EqDecision PathMapping.
Proof. solve_decision. Defined.

Inductive PathNormalizationError :=
| UnmappedAbsolutePath (path : Path)
| NonUtf8Path (path : Path).

#[export] Instance PathNormalizationError_eq_dec : EqDecision PathNormalizationError.
Proof. solve_decision. Defined.

(** One step of the stable [sort_by_key], deepest root first. *)
Fixpoint insert_deeper (m : PathMapping) (ms : list PathMapping) : list PathMapping :=
  match ms with
  | [] => [m]
  | m' :: ms' =>
      if (length (root m) <? length (root m'))%nat then m' :: insert_deeper m ms' else m :: ms
  end.

Definition ordered (mappings : list PathMapping) : list PathMapping :=
  foldr insert_deeper [] mappings.

Fixpoint slash_names (whole : Path) (p : Path) : result PathNormalizationError (list string) :=
  match p with
  | [] => Ok []
  | Normal value :: p =>
      value ← ok_or (NonUtf8Path whole) (to_str value);
      values ← slash_names whole p;
      Ok (value :: values)
  | _ :: p => slash_names whole p
  end.

Definition slash_path (p : Path) : result PathNormalizationError string :=
  names ← slash_names p p; Ok (join "/" names).

Definition placeholder_text (m : PathMapping) : string := "${" ++ placeholder m ++ "}".

(** The first mapping a resolved path lies under names it. *)
Fixpoint name_under (mappings : list PathMapping) (absolute resolved : Path)
    : result PathNormalizationError string :=
  match mappings with
  | [] => Err (UnmappedAbsolutePath absolute)
  | m :: mappings =>
      match strip_path (root m) resolved with
      | Some relative =>
          suffix ← slash_path relative;
          Ok (if String.eqb suffix "" then placeholder_text m
              else placeholder_text m ++ "/" ++ suffix)
      | None => name_under mappings absolute resolved
      end
  end.

(** ** The disk *)

Class Disk := {
  realpath : Path -> option Path;
  read_dir : Path -> option (list (option string));
  is_symlink : Path -> option bool;
  is_file : Path -> bool;
  read_to_string : string -> result string string;
}.

Definition MAX_DIRECTORY_ENTRIES : nat := 256.

Record ResolvedDirectory := mkResolved { path : Path; dir_entries : gset string }.

(** The directories a caller has already resolved. *)
Definition PathAliases : Type := gmap Path ResolvedDirectory.

Section Aliases.
Context `{Disk}.

(** The names remembered of a directory; a listing that cannot be read is an
    empty one. *)
Definition listed (directory : Path) : gset string :=
  match read_dir directory with
  | Some listing => list_to_set (omap id (take MAX_DIRECTORY_ENTRIES listing))
  | None => ∅
  end.

Definition resolved_directory (aliases : PathAliases) (directory : Path)
    : option ResolvedDirectory * PathAliases :=
  match aliases !! directory with
  | Some resolved => (Some resolved, aliases)
  | None =>
      match realpath directory with
      | None => (None, aliases)
      | Some resolved =>
          let resolved := mkResolved resolved (listed resolved) in
          (Some resolved, <[directory := resolved]> aliases)
      end
  end.

Definition canonicalize (aliases : PathAliases) (p : Path) : option Path * PathAliases :=
  match parent p, file_name p with
  | Some directory, Some name =>
      if bool_decide (directory = []) then (realpath p, aliases)
      else
        match resolved_directory aliases directory with
        | (None, aliases) => (None, aliases)
        | (Some resolved, aliases) =>
            let candidate := push (path resolved) [Normal name] in
            (if bool_decide (name ∈ dir_entries resolved) then
               match is_symlink candidate with
               | None => None
               | Some false => Some candidate
               | Some true => realpath candidate
               end
             else realpath candidate, aliases)
        end
  | _, _ => (realpath p, aliases)
  end.

(** The longest ancestor that resolves, and the rest as it is written. *)
Fixpoint resolve_loop (fuel : nat) (aliases : PathAliases) (whole existing : Path)
    (missing : list string) : Path * PathAliases :=
  match fuel with
  | O => (whole, aliases)
  | S fuel =>
      match canonicalize aliases existing with
      | (Some resolved, aliases) =>
          (normalize_components (fold_left (fun p name => push p [Normal name]) missing resolved),
           aliases)
      | (None, aliases) =>
          match file_name existing, parent existing with
          | Some name, Some directory => resolve_loop fuel aliases whole directory (name :: missing)
          | _, _ => (whole, aliases)
          end
      end
  end.

Definition resolve_path_aliases_with (aliases : PathAliases) (p : Path) : Path * PathAliases :=
  resolve_loop (S (length p)) aliases p p [].

Definition resolve_path_aliases (p : Path) : Path := fst (resolve_path_aliases_with ∅ p).

Definition resolve_mapping_root (r : Path) : Path :=
  let r := normalize_components r in
  if is_absolute r then resolve_path_aliases r else r.

Definition resolve_path_mappings (mappings : list PathMapping) : list PathMapping :=
  map (fun m => mkMapping (resolve_mapping_root (root m)) (placeholder m)) mappings.

(** [absolute_path] of the adapter is the same expression. *)
Definition absolute_path (p working_dir : Path) : Path :=
  if is_absolute p then normalize_components p else normalize_components (push working_dir p).

Definition normalize_resolved_mapped_path_with (aliases : PathAliases) (p working_dir : Path)
    (mappings : list PathMapping) : result PathNormalizationError string * PathAliases :=
  let absolute := absolute_path p working_dir in
  let '(resolved, aliases) :=
    if is_absolute absolute then resolve_path_aliases_with aliases absolute
    else (absolute, aliases) in
  (name_under mappings absolute resolved, aliases).

Definition normalize_resolved_mapped_path (p working_dir : Path) (mappings : list PathMapping)
    : result PathNormalizationError string :=
  fst (normalize_resolved_mapped_path_with ∅ p working_dir mappings).

Definition normalize_mapped_path (p working_dir : Path) (mappings : list PathMapping)
    : result PathNormalizationError string :=
  normalize_resolved_mapped_path p working_dir (resolve_path_mappings mappings).

End Aliases.

(** ** Names back to paths *)

Definition bad_component (component : string) : bool :=
  String.eqb component "" || String.eqb component "." || String.eqb component ".." ||
  negb (without "\" component).

Fixpoint denormalize_path (value : string) (mappings : list PathMapping) : option Path :=
  match mappings with
  | [] => None
  | m :: mappings =>
      let prefix := placeholder_text m in
      match (if String.eqb value prefix then Some "" else strip_prefix (prefix ++ "/") value) with
      | None => denormalize_path value mappings
      | Some suffix =>
          if negb (is_absolute (root m)) ||
             (negb (String.eqb suffix "") && existsb bad_component (split "/" suffix))
          then None
          else Some (fold_left push
                 (map path_of (List.filter (fun c => negb (String.eqb c "")) (split "/" suffix)))
                 (normalize_components (root m)))
      end
  end.

(** ** What the disk promises *)

Definition good_name (n : string) : bool :=
  negb (String.eqb n "") && negb (String.eqb n ".") && negb (String.eqb n "..") && without "/" n.

Definition good_component (c : Component) : bool :=
  match c with Normal n => good_name n | _ => true end.

(** What [path_of] can answer. *)
Definition well_formed (p : Path) : bool :=
  forallb good_component p && negb (existsb (fun c => bool_decide (c = RootDir)) (tail p)).

(** An absolute path without [.], [..] or a name no file has. *)
Definition canonical (p : Path) : bool :=
  match p with
  | RootDir :: q => forallb (fun c => match c with Normal n => good_name n | _ => false end) q
  | _ => false
  end.

Definition under_root (names : list string) : Path := RootDir :: map Normal names.

(** While nothing on the disk changes: the root is itself, an answer of [realpath] is canonical and
    its own, a child of a directory is a child of what the directory resolves
    to, nothing lies under what does not resolve, an entry as it is listed that
    is no link is itself, and what has no metadata does not resolve. *)
Class DiskLaws `{Disk} : Prop := {
  realpath_root : realpath [RootDir] = Some [RootDir];
  realpath_canonical p c : realpath p = Some c -> canonical c = true;
  realpath_fixed p c : realpath p = Some c -> realpath c = Some c;
  realpath_child p c n :
    is_absolute p = true -> realpath p = Some c ->
    realpath (p ++ [Normal n])%list = realpath (c ++ [Normal n])%list;
  realpath_orphan p n :
    is_absolute p = true -> realpath p = None -> realpath (p ++ [Normal n])%list = None;
  entry_is_itself c n listing :
    realpath c = Some c -> read_dir c = Some listing -> Some n ∈ listing ->
    is_symlink (c ++ [Normal n])%list = Some false ->
    realpath (c ++ [Normal n])%list = Some (c ++ [Normal n])%list;
  missing_entry p : is_symlink p = None -> realpath p = None;
}.

(** ** Lemmas on paths *)

Lemma canonical_names p :
  canonical p = true <-> exists names, p = under_root names /\ Forall (fun n => good_name n = true) names.
Proof.
  unfold canonical, under_root. split.
  - destruct p as [|[] p]; try done. intros Hp.
    induction p as [|[| | |n] p IH]; simpl in Hp; try done; [by exists []|].
    apply andb_prop in Hp as [Hn Hp]. destruct (IH Hp) as (names & He & Hf).
    injection He as ->. exists (n :: names). split; [done|by constructor].
  - intros (names & -> & Hf). induction Hf as [|n names Hn Hf IH]; [done|]. simpl in *. by rewrite Hn.
Qed.

Lemma canonical_absolute p : canonical p = true -> is_absolute p = true.
Proof. by destruct p as [|[] p]. Qed.

Lemma canonical_app p n : canonical p = true -> good_name n = true -> canonical (p ++ [Normal n])%list = true.
Proof.
  destruct p as [|[] p]; try done. simpl. intros Hp Hn. by rewrite forallb_app, Hp; simpl; rewrite Hn.
Qed.

Lemma canonical_snoc p q :
  canonical (p ++ q)%list = true -> p <> [] ->
  canonical p = true /\ forallb (fun c => match c with Normal n => good_name n | _ => false end) q = true.
Proof.
  destruct p as [|[] p]; try done. simpl. rewrite forallb_app. intros [? ?]%andb_prop _. done.
Qed.

Lemma push_normal p n : p <> [] -> push p [Normal n] = (p ++ [Normal n])%list.
Proof. by destruct p. Qed.

Lemma fold_push_names p names :
  p <> [] -> fold_left (fun p n => push p [Normal n]) names p = (p ++ map Normal names)%list.
Proof.
  revert p. induction names as [|n names IH]; intros p Hp; simpl; [by rewrite app_nil_r|].
  rewrite push_normal, IH by (done || by destruct p). by rewrite <- app_assoc.
Qed.

Lemma under_root_snoc names n : under_root (names ++ [n]) = (under_root names ++ [Normal n])%list.
Proof. unfold under_root. by rewrite map_app. Qed.

Lemma file_name_under_root names :
  file_name (under_root names) = last names.
Proof.
  destruct names as [|n names _] using rev_ind; [done|].
  by rewrite under_root_snoc, file_name_app, last_snoc.
Qed.

Lemma normalize_canonical p : canonical p = true -> normalize_components p = p.
Proof.
  intros (names & -> & _)%canonical_names. unfold normalize_components, under_root. cbn [fold_left].
  change (push [] [RootDir]) with [RootDir]. change (RootDir :: map Normal names) with ([RootDir] ++ map Normal names)%list.
  generalize [RootDir]%list (eq_refl : is_absolute [RootDir] = true).
  induction names as [|n names IH]; intros p Hp; simpl; [by rewrite app_nil_r|].
  rewrite push_normal by (by destruct p). rewrite IH by (by destruct p). by rewrite <- app_assoc.
Qed.

Lemma canonical_pop p : canonical p = true -> canonical (pop p) = true.
Proof.
  intros (names & -> & Hf)%canonical_names. unfold pop.
  destruct names as [|n names _] using rev_ind; [done|].
  rewrite under_root_snoc, parent_app. apply canonical_names. exists names.
  by apply Forall_app in Hf as [Hf _].
Qed.

Lemma canonical_normalize p :
  well_formed p = true -> is_absolute p = true -> canonical (normalize_components p) = true.
Proof.
  unfold well_formed, normalize_components. destruct p as [|[] p]; try done. simpl.
  intros [Hg Hr]%andb_prop _. change (push [] [RootDir]) with [RootDir].
  assert (Hc : canonical [RootDir] = true) by done. revert Hc Hg Hr. generalize [RootDir]%list.
  induction p as [|c p IH]; intros acc Hc Hg Hr; simpl in *; [done|].
  apply andb_prop in Hg as [Hn Hg]. apply negb_true_iff, orb_false_elim in Hr as [Hr1 Hr].
  apply IH; [|done|by rewrite Hr]. destruct c as [| | |n]; [done|done|by apply canonical_pop|].
  rewrite push_normal by (by destruct acc). by apply canonical_app.
Qed.

Lemma strip_path_app base p : strip_path base (base ++ p)%list = Some p.
Proof. induction base as [|c base IH]; simpl; [by destruct p|]. by rewrite bool_decide_true. Qed.

Lemma strip_path_inv base p q : strip_path base p = Some q -> p = (base ++ q)%list.
Proof.
  revert p. induction base as [|c base IH]; intros p H; simpl in *; [by simplify_eq|].
  destruct p as [|d p]; [done|]. case_bool_decide; [|done]. subst. by rewrite (IH p H).
Qed.

Definition no_root (p : Path) : bool :=
  forallb good_component p && negb (existsb (fun c => bool_decide (c = RootDir)) p).

Lemma no_root_app p q : no_root (p ++ q)%list = no_root p && no_root q.
Proof.
  unfold no_root. rewrite forallb_app, existsb_app, negb_orb.
  destruct (forallb good_component p), (forallb good_component q), (negb (existsb _ p)); done.
Qed.

Lemma no_root_well_formed p : no_root p = true -> well_formed p = true.
Proof.
  unfold no_root, well_formed. intros [-> H]%andb_prop. destruct p as [|c p]; [done|]. simpl in *.
  by destruct (existsb _ p); [rewrite orb_true_r in H|].
Qed.

Lemma split_pieces s : Forall (fun w => without "/" w = true) (split "/" s).
Proof.
  unfold without. induction s as [|a s IH]; simpl; [by repeat constructor|].
  destruct (Ascii.eqb a "/") eqn:E; [by constructor|].
  destruct (split "/" s) as [|w ws]; [by repeat constructor; simpl; rewrite E|].
  apply Forall_cons in IH as [Hw Hws]. constructor; [simpl; by rewrite E|done].
Qed.

Lemma piece_no_root b w : without "/" w = true -> no_root (piece b w) = true.
Proof.
  intros Hw. unfold piece, no_root, good_component, good_name.
  destruct (String.eqb w "") eqn:E1; [done|]. destruct (String.eqb w ".") eqn:E2; [by destruct b|].
  destruct (String.eqb w "..") eqn:E3; [done|]. simpl. by rewrite E1, E2, E3, Hw.
Qed.

Lemma pieces_no_root ws : Forall (fun w => without "/" w = true) ws -> no_root (flat_map (piece false) ws) = true.
Proof.
  induction 1 as [|w ws Hw Hws IH]; [done|]. cbn [flat_map]. by rewrite no_root_app, IH, piece_no_root.
Qed.

Lemma well_formed_path_of s : well_formed (path_of s) = true.
Proof.
  unfold path_of. pose proof (split_pieces s) as Hw. destruct (split "/" s) as [|first rest]; [done|].
  apply Forall_cons in Hw as [Hf Hr]. pose proof (pieces_no_root _ Hr) as Hps.
  assert (Hrel : well_formed (piece true first ++ flat_map (piece false) rest)%list = true).
  { apply no_root_well_formed. by rewrite no_root_app, Hps, piece_no_root. }
  assert (Habs : well_formed ([RootDir] ++ flat_map (piece false) rest)%list = true) by exact Hps.
  destruct s as [|[[] [] [] [] [] [] [] []] s]; done.
Qed.

(** ** Resolving with and without the memo *)

(** What [name_of] needs of its arguments: they are paths, and the working
    directory is absolute. *)
Definition paths_ok (p working_dir : Path) : Prop :=
  well_formed p = true /\ well_formed working_dir = true /\ is_absolute working_dir = true.

Lemma canonical_well_formed p : canonical p = true -> well_formed p = true.
Proof.
  intros (names & -> & Hn)%canonical_names. unfold well_formed, under_root. simpl.
  induction Hn as [|n names Hn _ IH]; [done|]. simpl. by rewrite Hn.
Qed.

Section Resolve.
Context `{DiskLaws}.

(** Every remembered directory is what [realpath] says it is. *)
Definition consistent (aliases : PathAliases) : Prop :=
  forall d r, aliases !! d = Some r -> realpath d = Some (path r) /\ dir_entries r = listed (path r).

Lemma consistent_empty : consistent ∅.
Proof. by intros d r Hd%lookup_empty_Some. Qed.

Lemma listed_entry c n :
  realpath c = Some c -> n ∈ listed c -> is_symlink (c ++ [Normal n])%list = Some false ->
  realpath (c ++ [Normal n])%list = Some (c ++ [Normal n])%list.
Proof.
  intros Hc Hn Hl. unfold listed in Hn. destruct (read_dir c) as [listing|] eqn:Hd; [|set_solver].
  apply elem_of_list_to_set, list_elem_of_omap in Hn as (o & Ho & He). simpl in He. subst o.
  eapply entry_is_itself; [done..| |done]. apply elem_of_take in Ho as (i & Hi & _).
  by eapply list_elem_of_lookup_2.
Qed.

Lemma resolved_directory_spec aliases d :
  consistent aliases ->
  match resolved_directory aliases d with
  | (Some r, aliases') => realpath d = Some (path r) /\ dir_entries r = listed (path r) /\ consistent aliases'
  | (None, aliases') => realpath d = None /\ consistent aliases'
  end.
Proof.
  intros Hc. unfold resolved_directory. destruct (aliases !! d) as [r|] eqn:Hl.
  { by destruct (Hc d r Hl). }
  destruct (realpath d) as [c|] eqn:Hr; [|done]. split; [done|]. split; [done|].
  intros d' r' [[<- <-]|[_ Hd]]%lookup_insert_Some; [done|by apply Hc].
Qed.

Lemma canonicalize_is_realpath aliases names :
  consistent aliases ->
  fst (canonicalize aliases (under_root names)) = realpath (under_root names) /\
  consistent (snd (canonicalize aliases (under_root names))).
Proof.
  intros Hc. destruct names as [|n names _] using rev_ind; [done|].
  rewrite under_root_snoc. unfold canonicalize. rewrite parent_app, file_name_app.
  rewrite bool_decide_false by done.
  pose proof (resolved_directory_spec aliases (under_root names) Hc) as Hd.
  destruct (resolved_directory aliases (under_root names)) as [[r|] aliases'].
  - destruct Hd as (Hr & He & Hc'). split; [|done]. cbn [fst].
    pose proof (realpath_fixed _ _ Hr) as Hf.
    assert (Hne : path r <> []) by (apply realpath_canonical in Hr; by destruct (path r)).
    rewrite (realpath_child (under_root names) _ n eq_refl Hr), push_normal, He by done.
    case_bool_decide as Hn; [|done].
    destruct (is_symlink (path r ++ [Normal n])%list) as [[]|] eqn:Hl; [done| |].
    + symmetry. by apply listed_entry.
    + symmetry. by apply missing_entry.
  - destruct Hd as [Hr Hc']. split; [|done]. symmetry. by apply realpath_orphan.
Qed.

(** The longest ancestor of a canonical path that resolves, by [realpath]
    alone; the names are given last first. *)
Fixpoint resolve_names (whole : Path) (names missing : list string) : Path :=
  match realpath (under_root (rev names)) with
  | Some resolved => (resolved ++ map Normal missing)%list
  | None =>
      match names with
      | n :: names => resolve_names whole names (n :: missing)
      | [] => whole
      end
  end.

Definition names_of (p : Path) : list string :=
  omap (fun c => match c with Normal n => Some n | _ => None end) p.

Definition resolved (p : Path) : Path := resolve_names p (rev (names_of p)) [].

Lemma names_of_under_root names : names_of (under_root names) = names.
Proof. unfold names_of, under_root. simpl. induction names as [|n names IH]; simpl; by f_equal. Qed.

Lemma canonical_extend c names :
  canonical c = true -> Forall (fun n => good_name n = true) names ->
  canonical (c ++ map Normal names)%list = true.
Proof.
  intros Hc Hn. revert c Hc. induction Hn as [|n names Hn _ IH]; intros c Hc; simpl; [by rewrite app_nil_r|].
  change (Normal n :: map Normal names)%list with ([Normal n] ++ map Normal names)%list.
  rewrite app_assoc. by apply IH, canonical_app.
Qed.

Lemma resolve_loop_spec fuel aliases whole names missing :
  consistent aliases -> (length names < fuel)%nat ->
  Forall (fun n => good_name n = true) names -> Forall (fun n => good_name n = true) missing ->
  fst (resolve_loop fuel aliases whole (under_root names) missing) =
    resolve_names whole (rev names) missing /\
  consistent (snd (resolve_loop fuel aliases whole (under_root names) missing)).
Proof.
  revert aliases names missing. induction fuel as [|fuel IH]; intros aliases names missing Hc Hf Hn Hm; [lia|].
  cbn [resolve_loop]. pose proof (canonicalize_is_realpath aliases names Hc) as [Hr Hc'].
  destruct (canonicalize aliases (under_root names)) as [[c|] aliases'] eqn:E; cbn [fst snd] in *.
  - assert (Hcan : canonical c = true) by (by eapply realpath_canonical).
    assert (Hne : c <> []) by (by destruct c). rewrite fold_push_names by done.
    rewrite normalize_canonical by (by apply canonical_extend).
    split; [|done]. destruct (rev names) as [|n l] eqn:Hl; cbn [resolve_names];
      rewrite <- Hl, rev_involutive, <- Hr; done.
  - destruct names as [|n names _] using rev_ind.
    + cbn. by rewrite <- Hr.
    + rewrite file_name_under_root, last_snoc, under_root_snoc, parent_app, rev_unit.
      cbn [resolve_names rev]. rewrite rev_involutive, under_root_snoc in *. rewrite <- Hr.
      apply Forall_app in Hn as [Hn [Hlast _]%Forall_cons].
      rewrite length_app in Hf. simpl in Hf.
      apply IH; [done|lia|done|]. by constructor.
Qed.

(** Resolving through a consistent memo is resolving by [realpath] alone. *)
Lemma resolve_path_aliases_with_spec aliases p :
  consistent aliases -> canonical p = true ->
  fst (resolve_path_aliases_with aliases p) = resolved p /\
  consistent (snd (resolve_path_aliases_with aliases p)).
Proof.
  intros Hc (names & -> & Hn)%canonical_names. unfold resolve_path_aliases_with, resolved.
  rewrite names_of_under_root. apply resolve_loop_spec; [done| |done|constructor].
  unfold under_root. simpl. rewrite length_map. lia.
Qed.

Lemma canonical_resolve_names whole names missing :
  canonical whole = true -> Forall (fun n => good_name n = true) names ->
  Forall (fun n => good_name n = true) missing ->
  canonical (resolve_names whole names missing) = true.
Proof.
  intros Hw Hn. revert missing. induction Hn as [|n names Hn _ IH]; intros missing Hm; cbn [resolve_names];
    (destruct (realpath _) eqn:Hr; [by apply canonical_extend; [by eapply realpath_canonical|]|]); [done|].
  apply IH. by constructor.
Qed.

Lemma canonical_resolved p : canonical p = true -> canonical (resolved p) = true.
Proof.
  intros Hp. unfold resolved. apply canonical_resolve_names; [done| |constructor].
  apply Forall_rev. apply canonical_names in Hp as (names & -> & Hn). by rewrite names_of_under_root.
Qed.

(** What exists resolves to what [realpath] answers. *)
Lemma resolved_realpath p c : canonical p = true -> realpath p = Some c -> resolved p = c.
Proof.
  intros (names & -> & _)%canonical_names Hr. unfold resolved. rewrite names_of_under_root.
  rewrite <- (rev_involutive names) in Hr.
  destruct (rev names) as [|n l]; cbn [resolve_names]; rewrite Hr; apply app_nil_r.
Qed.

(** The key's name of a path, without the memo. *)
Definition name_of (p working_dir : Path) (mappings : list PathMapping)
    : result PathNormalizationError string :=
  let absolute := absolute_path p working_dir in
  name_under mappings absolute (if is_absolute absolute then resolved absolute else absolute).

Lemma well_formed_push p q :
  well_formed p = true -> well_formed q = true -> well_formed (push p q) = true.
Proof.
  unfold well_formed, push. intros [Hg Hr]%andb_prop [Hg' Hr']%andb_prop.
  destruct (is_absolute q) eqn:Ha; [by rewrite Hg', Hr'|]. destruct p as [|c p]; [by rewrite Hg', Hr'|].
  simpl in *. apply andb_prop in Hg as [Hc Hg]. rewrite negb_true_iff in *.
  destruct q as [|[] q]; simpl in *; try done; rewrite ?app_nil_r, ?Hc, ?forallb_app, ?existsb_app; simpl;
    rewrite ?Hg, ?Hg', ?Hr, ?Hr'; try done.
Qed.

Lemma absolute_path_canonical p working_dir :
  well_formed p = true -> well_formed working_dir = true -> is_absolute working_dir = true ->
  canonical (absolute_path p working_dir) = true.
Proof.
  intros Hp Hw Ha. unfold absolute_path. destruct (is_absolute p) eqn:Hpa; [by apply canonical_normalize|].
  apply canonical_normalize; [by apply well_formed_push|].
  unfold push. rewrite Hpa. by destruct working_dir as [|[] ?].
Qed.

(** Resolving directories once and remembering them never changes the
    name of a path: through any memo that earlier paths left, the name is the
    one [realpath] alone would have given, links and files that do not exist
    yet included. *)
Lemma memo_gives_plain_names aliases p working_dir mappings :
  consistent aliases -> paths_ok p working_dir ->
  fst (normalize_resolved_mapped_path_with aliases p working_dir mappings) = name_of p working_dir mappings /\
  consistent (snd (normalize_resolved_mapped_path_with aliases p working_dir mappings)).
Proof.
  intros Hc (Hp & Hw & Ha). pose proof (absolute_path_canonical p working_dir Hp Hw Ha) as Hcan.
  unfold normalize_resolved_mapped_path_with, name_of. rewrite (canonical_absolute _ Hcan).
  pose proof (resolve_path_aliases_with_spec aliases _ Hc Hcan) as [Hr Hc'].
  destruct (resolve_path_aliases_with aliases (absolute_path p working_dir)). simpl in *. by rewrite Hr.
Qed.

(** The names after a directory that resolves to [c], followed as far as they
    resolve. *)
Fixpoint walk (c : Path) (names : list string) : Path :=
  match names with
  | [] => c
  | n :: rest =>
      match realpath (c ++ [Normal n])%list with
      | Some c' => walk c' rest
      | None => (c ++ map Normal names)%list
      end
  end.

Lemma resolve_names_climbs whole pre xs ys :
  (forall z, z <> [] -> prefix z xs -> realpath (under_root (pre ++ z)) = None) ->
  resolve_names whole (rev (pre ++ xs)) ys = resolve_names whole (rev pre) (xs ++ ys).
Proof.
  revert ys. induction xs as [|x xs IH] using rev_ind; intros ys Hz; [by rewrite app_nil_r|].
  rewrite app_assoc, rev_unit. cbn [resolve_names rev].
  assert (Hx : realpath (under_root (pre ++ (xs ++ [x]))) = None) by (apply Hz; [by destruct xs|done]).
  rewrite rev_involutive, <- app_assoc, Hx, IH; [by rewrite <- app_assoc|].
  intros z Hne Hp. apply Hz; [done|by apply prefix_app_r].
Qed.

Lemma realpath_orphans p names : is_absolute p = true -> realpath p = None -> realpath (p ++ map Normal names)%list = None.
Proof.
  intros Ha Hp. induction names as [|n names IH] using rev_ind; [by rewrite app_nil_r|].
  rewrite map_app, app_assoc. apply realpath_orphan; [by destruct p as [|[] p]|done].
Qed.

Lemma resolved_walk pre c post :
  realpath (under_root pre) = Some c -> Forall (fun n => good_name n = true) (pre ++ post) ->
  resolved (under_root (pre ++ post)) = walk c post.
Proof.
  revert pre c. induction post as [|n post IH]; intros pre c Hr Hn.
  - apply resolved_realpath; [|by rewrite app_nil_r]. apply canonical_names. by eexists.
  - cbn [walk]. pose proof (realpath_child (under_root pre) c n eq_refl Hr) as Hc.
    destruct (realpath (c ++ [Normal n])%list) as [c'|] eqn:Hc'; rewrite <- under_root_snoc in Hc.
    + rewrite <- (IH (pre ++ [n])%list c' Hc); [by rewrite <- app_assoc|by rewrite <- app_assoc].
    + unfold resolved. rewrite names_of_under_root, resolve_names_climbs.
      * rewrite app_nil_r. destruct (rev pre) as [|x l] eqn:Hl; cbn [resolve_names]; rewrite <- Hl, rev_involutive, Hr; done.
      * intros [|m z] Hne Hp; [done|]. apply prefix_cons_inv_1 in Hp. subst m.
        change (pre ++ n :: z)%list with (pre ++ [n] ++ z)%list. unfold under_root.
        rewrite app_assoc, map_app. change (RootDir :: map Normal (pre ++ [n]) ++ map Normal z)%list
          with (under_root (pre ++ [n]) ++ map Normal z)%list. by apply realpath_orphans.
Qed.

Lemma resolved_from_root names :
  Forall (fun n => good_name n = true) names -> resolved (under_root names) = walk [RootDir] names.
Proof. intros Hn. exact (resolved_walk [] [RootDir] names realpath_root Hn). Qed.

Lemma resolved_fixed c post :
  realpath c = Some c -> canonical (c ++ map Normal post)%list = true ->
  resolved (c ++ map Normal post)%list = walk c post.
Proof.
  intros Hc Hcan. pose proof (realpath_canonical _ _ Hc) as (names & -> & _)%canonical_names.
  replace (under_root names ++ map Normal post)%list with (under_root (names ++ post)) in *
    by (unfold under_root; by rewrite map_app).
  apply resolved_walk; [done|]. apply canonical_names in Hcan as (l & He & Hl).
  apply (f_equal names_of) in He. rewrite !names_of_under_root in He. by subst.
Qed.

Lemma walk_app c xs ys :
  realpath c = Some c -> Forall (fun n => good_name n = true) (xs ++ ys) ->
  walk c (xs ++ ys) = resolved (walk c xs ++ map Normal ys)%list.
Proof.
  revert c. induction xs as [|n xs IH]; intros c Hc Hn; cbn [walk app].
  - symmetry. apply resolved_fixed; [done|]. apply canonical_extend; [by eapply realpath_canonical|done].
  - destruct (realpath (c ++ [Normal n])%list) as [c'|] eqn:Hr.
    + apply IH; [by eapply realpath_fixed|]. by inversion Hn.
    + rewrite <- app_assoc. change (n :: xs ++ ys)%list with ((n :: xs) ++ ys)%list.
      rewrite <- map_app, resolved_fixed; [|done|apply canonical_extend; [by eapply realpath_canonical|done]].
      cbn [app walk]. by rewrite Hr.
Qed.

(** A path resolves as its resolved ancestors and the rest do. *)
Lemma resolved_app p names :
  canonical (p ++ map Normal names)%list = true -> p <> [] ->
  resolved (p ++ map Normal names)%list = resolved (resolved p ++ map Normal names)%list.
Proof.
  intros Hc Hp. pose proof (canonical_snoc _ _ Hc Hp) as [(xs & -> & _)%canonical_names _].
  replace (under_root xs ++ map Normal names)%list with (under_root (xs ++ names)) in *
    by (unfold under_root; by rewrite map_app).
  apply canonical_names in Hc as (l & He & Hl). apply (f_equal names_of) in He.
  rewrite !names_of_under_root in He. subst l.
  rewrite !resolved_from_root by (done || by apply Forall_app in Hl as [? _]).
  apply walk_app; [apply realpath_root|done].
Qed.

Lemma resolved_idem p : canonical p = true -> resolved (resolved p) = resolved p.
Proof.
  intros Hp. pose proof (resolved_app p []) as H'. rewrite !app_nil_r in H'. symmetry. apply H'; [done|by destruct p].
Qed.

End Resolve.

(** ** Names *)

(** What [validate_mappings] asks of a placeholder. *)
Definition valid_placeholder (s : string) : bool :=
  negb (String.eqb s "") && all_chars (fun a => is_ascii_alphanumeric a || Ascii.eqb a "_") s.

Definition usable (m : PathMapping) : bool := valid_placeholder (placeholder m) && is_absolute (root m).

(** The text of a name: its placeholder, and the names under the root. *)
Definition name_text (m : PathMapping) (names : list string) : string :=
  placeholder_text m ++ match names with [] => "" | _ => "/" ++ join "/" names end.

Lemma valid_placeholder_without s : valid_placeholder s = true -> without "}" s = true.
Proof. intros [_ H]%andb_prop. by apply (without_of _ "}"%char) in H. Qed.

Lemma placeholder_text_head m m' x y :
  usable m = true -> usable m' = true ->
  placeholder_text m ++ x = placeholder_text m' ++ y -> placeholder m = placeholder m' /\ x = y.
Proof.
  intros [Hm%valid_placeholder_without _]%andb_prop [Hm'%valid_placeholder_without _]%andb_prop He.
  unfold placeholder_text in He. rewrite !app_assoc_string in He. apply (inj (String.append "${")) in He.
  apply (f_equal (split_once "}")) in He. change ("}" ++ x) with (String "}" x) in He.
  change ("}" ++ y) with (String "}" y) in He. rewrite !split_once_app in He by done. by simplify_eq.
Qed.

Lemma good_name_parts n :
  good_name n = true -> n <> "" /\ n <> "." /\ n <> ".." /\ without "/" n = true.
Proof.
  intros [[[H1 H2]%andb_prop H3]%andb_prop H4]%andb_prop.
  rewrite negb_true_iff, String.eqb_neq in H1, H2, H3. done.
Qed.

Lemma split_join c names :
  names <> [] -> Forall (fun n => without c n = true) names -> split c (join (String c "") names) = names.
Proof.
  intros Hne Hn. induction Hn as [|n names Hw Hn IH]; [done|].
  destruct names as [|n' names]; [by apply split_without|].
  change (join (String c "") (n :: n' :: names)) with (n ++ String c (join (String c "") (n' :: names))).
  rewrite split_app, IH by done. by rewrite split_without.
Qed.

Lemma join_nonempty names :
  names <> [] -> Forall (fun n => good_name n = true) names -> join "/" names <> "".
Proof.
  intros Hne Hn. destruct Hn as [|n names (Hn & _)%good_name_parts _]; [done|].
  destruct names; [done|]. by destruct n.
Qed.

Lemma name_text_inj m m' names names' :
  usable m = true -> usable m' = true ->
  Forall (fun n => good_name n = true) names -> Forall (fun n => good_name n = true) names' ->
  name_text m names = name_text m' names' -> placeholder m = placeholder m' /\ names = names'.
Proof.
  intros Hm Hm' Hn Hn' [Hp He]%placeholder_text_head; [|done..]. split; [done|].
  assert (Hs : forall l, Forall (fun n => good_name n = true) l -> Forall (fun n => without "/" n = true) l)
    by (intros l Hl; eapply Forall_impl; [exact Hl|]; by intros n (_ & _ & _ & ?)%good_name_parts).
  destruct names as [|n names], names' as [|n' names']; [done..|].
  assert (Hj : join "/" (n :: names) = join "/" (n' :: names')) by (by injection He).
  apply (f_equal (split "/")) in Hj. by rewrite !split_join in Hj by (done || by apply Hs).
Qed.

Lemma slash_names_ok whole names l : slash_names whole (map Normal names) = Ok l -> l = names.
Proof.
  revert l. induction names as [|n names IH]; intros l H; simpl in H; [by simplify_eq|].
  unfold to_str in H. destruct (utf8_from [] n); [|done]. simpl in H.
  destruct (slash_names whole (map Normal names)) as [l'|] eqn:E; [|done]. simpl in H. simplify_eq.
  by rewrite (IH l').
Qed.

(** A path with a name lies under the root of a mapping, and the name says
    which and where. *)
Lemma name_under_ok mappings absolute p s :
  forallb usable mappings = true -> canonical p = true -> name_under mappings absolute p = Ok s ->
  exists m names, In m mappings /\ Forall (fun n => good_name n = true) names /\
    p = (root m ++ map Normal names)%list /\ s = name_text m names /\
    name_under mappings absolute p = Ok (name_text m names).
Proof.
  intros Hu Hc Hs. assert (Hs' := Hs). revert Hs. induction mappings as [|m mappings IH]; [done|].
  simpl in Hu. apply andb_prop in Hu as [Hm Hu]. cbn [name_under] in *.
  destruct (strip_path (root m) p) as [rel|] eqn:Hp.
  - intros Hs. pose proof (strip_path_inv _ _ _ Hp) as He. subst p.
    assert (Hr : root m <> []) by (unfold usable in Hm; apply andb_prop in Hm as [_ Hm]; by destruct (root m)).
    destruct (canonical_snoc _ _ Hc Hr) as [_ Hf].
    assert (exists names, rel = map Normal names /\ Forall (fun n => good_name n = true) names) as (names & -> & Hn).
    { pose proof (proj1 (canonical_names (RootDir :: rel)) Hf) as (names & He & Hn). exists names. by injection He. }
    unfold slash_path in Hs. destruct (slash_names _ _) as [l|] eqn:Hl; [|done]. simpl in Hs.
    apply slash_names_ok in Hl. subst l. exists m, names. split; [by left|]. split; [done|]. split; [done|].
    enough (s = name_text m names) as -> by (split; [done|]; by rewrite Hs').
    unfold name_text. destruct names as [|n names]; [simpl in Hs; simplify_eq; by rewrite app_nil_string|].
    pose proof (join_nonempty (n :: names) ltac:(done) Hn) as Hj%String.eqb_neq. rewrite Hj in Hs. by simplify_eq.
  - intros Hs. destruct (IH Hu Hs' Hs) as (m' & names & Hin & Hrest). exists m', names. split; [by right|done].
Qed.

Lemma path_of_good_name n : good_name n = true -> path_of n = [Normal n].
Proof.
  intros (H1 & H2 & H3 & H4)%good_name_parts. unfold path_of. rewrite split_without by done. simpl.
  rewrite app_nil_r. assert (piece true n = [Normal n]) as Hp.
  { unfold piece. apply String.eqb_neq in H1, H2, H3. by rewrite H1, H2, H3. }
  rewrite Hp. destruct n as [|[[] [] [] [] [] [] [] []] n]; done.
Qed.

Lemma bad_component_good n : good_name n = true -> without "\" n = true -> bad_component n = false.
Proof.
  intros (H1 & H2 & H3 & _)%good_name_parts Hb. unfold bad_component.
  apply String.eqb_neq in H1, H2, H3. by rewrite H1, H2, H3, Hb.
Qed.

Lemma fold_push_pieces p names :
  Forall (fun n => good_name n = true) names -> p <> [] ->
  fold_left push (map path_of (List.filter (fun c => negb (String.eqb c "")) names)) p = (p ++ map Normal names)%list.
Proof.
  intros Hn. revert p. induction Hn as [|n names Hn _ IH]; intros p Hp; simpl; [by rewrite app_nil_r|].
  pose proof (good_name_parts n Hn) as [Hne%String.eqb_neq _]. rewrite Hne. simpl.
  rewrite path_of_good_name, push_normal, IH by (done || by destruct p). by rewrite <- app_assoc.
Qed.

Lemma denormalize_name mappings m names :
  forallb usable mappings = true -> NoDup (map placeholder mappings) -> In m mappings ->
  well_formed (root m) = true ->
  Forall (fun n => good_name n = true) names -> Forall (fun n => without "\" n = true) names ->
  denormalize_path (name_text m names) mappings = Some (normalize_components (root m) ++ map Normal names)%list.
Proof.
  intros Hu Hd Hin Hw Hn Hb. assert (Hum : usable m = true) by (by eapply forallb_forall in Hu).
  induction mappings as [|m' mappings IH]; [done|]. simpl in Hu. apply andb_prop in Hu as [Hu' Hu].
  simpl in Hd. apply NoDup_cons in Hd as [Hni Hd]. cbn [denormalize_path].
  destruct (decide (placeholder m = placeholder m')) as [Hp|Hp].
  - assert (m' = m) as ->.
    { destruct Hin as [<-|Hin]; [done|]. exfalso. apply Hni. rewrite <- Hp. by apply list_elem_of_In, in_map. }
    apply andb_prop in Hum as [_ Ha]. rewrite Ha. cbn [negb orb].
    assert (Hnr : normalize_components (root m) <> []).
    { pose proof (canonical_normalize _ Hw Ha). by destruct (normalize_components (root m)). }
    unfold name_text. destruct names as [|n names].
    + rewrite app_nil_string, String.eqb_refl. simpl. by rewrite app_nil_r.
    + assert (String.eqb (placeholder_text m ++ "/" ++ join "/" (n :: names)) (placeholder_text m) = false) as ->.
      { apply String.eqb_neq. intros He. apply (f_equal String.length) in He. rewrite length_app_string in He.
        simpl in He. lia. }
      rewrite <- app_assoc_string, strip_prefix_app.
      rewrite split_join; [|done|eapply Forall_impl; [exact Hn|]; by intros ? (_ & _ & _ & ?)%good_name_parts].
      assert (existsb bad_component (n :: names) = false) as ->.
      { apply not_true_iff_false. intros (c & Hc & Hbad)%existsb_exists.
        rewrite Forall_forall in Hn, Hb. apply list_elem_of_In in Hc.
        by rewrite bad_component_good in Hbad by auto. }
      rewrite andb_false_r. by rewrite fold_push_pieces.
  - assert (String.eqb (name_text m names) (placeholder_text m') = false) as ->.
    { apply String.eqb_neq. rewrite <- (app_nil_string (placeholder_text m')).
      intros [? _]%placeholder_text_head; done. }
    destruct (strip_prefix _ _) as [r|] eqn:Hs.
    { apply strip_prefix_inv in Hs. rewrite app_assoc_string in Hs.
      by apply placeholder_text_head in Hs as [? _]. }
    apply IH; [done..|]. destruct Hin as [<-|Hin]; done.
Qed.

Lemma ordered_permutation mappings : Permutation (ordered mappings) mappings.
Proof.
  unfold ordered. induction mappings as [|m l IH]; [done|]. simpl.
  assert (Hins : forall l, Permutation (insert_deeper m l) (m :: l)).
  { clear. intros l. induction l as [|m' l IH]; simpl; [done|]. destruct (_ <? _)%nat; [|done]. rewrite IH. apply perm_swap. }
  rewrite Hins. by constructor.
Qed.

Lemma placeholder_inj mappings m m' :
  NoDup (map placeholder mappings) -> In m mappings -> In m' mappings -> placeholder m = placeholder m' -> m = m'.
Proof.
  intros Hd Hin Hin' He. induction mappings as [|x l IH]; [done|]. simpl in Hd. apply NoDup_cons in Hd as [Hx Hd].
  destruct Hin as [->|Hin], Hin' as [->|Hin']; auto;
    exfalso; apply Hx; [rewrite He|rewrite <- He]; by apply list_elem_of_In, in_map.
Qed.

Section Names.
Context `{DiskLaws}.

Lemma name_of_ok p working_dir mappings s :
  paths_ok p working_dir -> forallb usable mappings = true -> name_of p working_dir mappings = Ok s ->
  exists m names, In m mappings /\ Forall (fun n => good_name n = true) names /\
    resolved (absolute_path p working_dir) = (root m ++ map Normal names)%list /\ s = name_text m names.
Proof.
  intros (Hp & Hw & Ha) Hu Hs. pose proof (absolute_path_canonical p working_dir Hp Hw Ha) as Hc.
  unfold name_of in Hs. rewrite (canonical_absolute _ Hc) in Hs.
  apply name_under_ok in Hs as (m & names & ? & ? & ? & ? & _); [|done|by apply canonical_resolved].
  by exists m, names.
Qed.

Lemma name_of_determines mappings s p working_dir q working_dir' :
  forallb usable mappings = true -> NoDup (map placeholder mappings) ->
  paths_ok p working_dir -> paths_ok q working_dir' ->
  name_of p working_dir mappings = Ok s -> name_of q working_dir' mappings = Ok s ->
  resolved (absolute_path p working_dir) = resolved (absolute_path q working_dir').
Proof.
  intros Hu Hd Hp Hq Hs Hs'.
  destruct (name_of_ok _ _ _ _ Hp Hu Hs) as (m & names & Hin & Hn & -> & ->).
  destruct (name_of_ok _ _ _ _ Hq Hu Hs') as (m' & names' & Hin' & Hn' & -> & He).
  assert (usable m = true /\ usable m' = true) as [Hm Hm'] by (by split; eapply forallb_forall in Hu).
  apply name_text_inj in He as [He ->]; [|done..].
  by rewrite (placeholder_inj mappings m m').
Qed.

Lemma resolve_mapping_root_spec r :
  well_formed r = true -> is_absolute r = true -> resolve_mapping_root r = resolved (normalize_components r).
Proof.
  intros Hw Ha. pose proof (canonical_normalize r Hw Ha) as Hc. unfold resolve_mapping_root, resolve_path_aliases.
  rewrite (canonical_absolute _ Hc). by apply resolve_path_aliases_with_spec; [apply consistent_empty|].
Qed.

Lemma usable_resolved mappings :
  forallb usable mappings = true -> Forall (fun m => well_formed (root m) = true) mappings ->
  forallb usable (resolve_path_mappings mappings) = true.
Proof.
  intros Hu Hw. induction Hw as [|m mappings Hm Hw IH]; [done|]. simpl in *.
  apply andb_prop in Hu as [[Hp Ha]%andb_prop Hu]. rewrite IH by done. unfold usable. simpl. rewrite Hp.
  rewrite resolve_mapping_root_spec by done.
  by rewrite (canonical_absolute _ (canonical_resolved _ (canonical_normalize _ Hm Ha))).
Qed.

Lemma placeholders_resolved mappings : map placeholder (resolve_path_mappings mappings) = map placeholder mappings.
Proof. unfold resolve_path_mappings. by rewrite map_map. Qed.

(** A name says nothing but where its path resolves to. *)
Lemma name_under_resolved mappings a a' resolved s :
  name_under mappings a resolved = Ok s -> name_under mappings a' resolved = Ok s.
Proof.
  induction mappings as [|m mappings IH]; [done|]. cbn [name_under]. by destruct (strip_path (root m) resolved).
Qed.

Lemma normalize_mapped_path_name_of p working_dir mappings :
  paths_ok p working_dir -> normalize_mapped_path p working_dir mappings = name_of p working_dir (resolve_path_mappings mappings).
Proof. intros Hp. by apply memo_gives_plain_names; [apply consistent_empty|]. Qed.

(** C8: A name in a key belongs to one file.  When [normalize_mapped_path] names a
    path, another path has that name exactly when the two resolve to the same
    place, links followed, after each was made absolute and its [..] and [.]
    were taken out of the text, as the code does before it asks the disk.  The
    memo of resolved directories that a builder carries does not change it. *)
Theorem names_determine_files mappings s p working_dir q working_dir' :
  forallb usable mappings = true -> NoDup (map placeholder mappings) ->
  Forall (fun m => well_formed (root m) = true) mappings ->
  paths_ok p working_dir -> paths_ok q working_dir' ->
  normalize_mapped_path p working_dir mappings = Ok s ->
  (normalize_mapped_path q working_dir' mappings = Ok s <->
   resolved (absolute_path p working_dir) = resolved (absolute_path q working_dir')) /\
  forall aliases, consistent aliases ->
    fst (normalize_resolved_mapped_path_with aliases p working_dir (resolve_path_mappings mappings)) = Ok s.
Proof.
  intros Hu Hd Hw Hp Hq. rewrite !normalize_mapped_path_name_of by done. intros Hs. split.
  - split.
    + intros Hs'. eapply name_of_determines; [by apply usable_resolved|by rewrite placeholders_resolved|done..].
    + destruct Hp as (Hp1 & Hp2 & Hp3), Hq as (Hq1 & Hq2 & Hq3). unfold name_of in *.
      rewrite (canonical_absolute _ (absolute_path_canonical p working_dir Hp1 Hp2 Hp3)) in Hs.
      rewrite (canonical_absolute _ (absolute_path_canonical q working_dir' Hq1 Hq2 Hq3)).
      intros He. rewrite <- He. by eapply name_under_resolved.
  - intros aliases Hc. by rewrite (proj1 (memo_gives_plain_names aliases p working_dir _ Hc Hp)).
Qed.

(** A name says which root it was made with and where beneath it the file is. *)
Lemma named_path_leads_back mappings s p working_dir :
  forallb usable mappings = true -> Forall (fun m => well_formed (root m) = true) mappings -> paths_ok p working_dir ->
  name_of p working_dir (resolve_path_mappings mappings) = Ok s ->
  exists m names, In m mappings /\ well_formed (root m) = true /\ s = name_text m names /\
    Forall (fun n => good_name n = true) names /\ (exists top, names_of (resolved (absolute_path p working_dir)) = (top ++ names)%list) /\
    resolved (normalize_components (root m) ++ map Normal names)%list = resolved (absolute_path p working_dir).
Proof.
  intros Hu Hw Hp Hs.
  destruct (name_of_ok _ _ _ _ Hp (usable_resolved _ Hu Hw) Hs) as (m' & names & Hin & Hn & He & ->).
  apply in_map_iff in Hin as (m & <- & Hin). simpl in He.
  assert (Hum : usable m = true) by (by eapply forallb_forall in Hu). apply andb_prop in Hum as [_ Ha].
  assert (Hwm : well_formed (root m) = true) by (rewrite Forall_forall in Hw; by apply Hw, list_elem_of_In).
  pose proof (canonical_normalize _ Hwm Ha) as Hc.
  rewrite resolve_mapping_root_spec in He by done.
  exists m, names. split; [done|]. split; [done|]. split; [done|]. split; [done|]. split.
  - exists (names_of (resolved (normalize_components (root m)))). rewrite He. unfold names_of. rewrite omap_app. f_equal.
    apply (names_of_under_root names).
  - pose proof Hp as (Hp1 & Hp2 & Hp3).
    rewrite resolved_app; [|apply canonical_extend; [done|done]|by destruct (normalize_components (root m))].
    rewrite <- He. by apply resolved_idem, absolute_path_canonical.
Qed.

(** The name of a file leads back to it: mapping the name through the
    same roots gives a path that resolves to where the file does, although the
    roots the name was made with had their links resolved and these have not. *)
Lemma names_lead_back mappings s p working_dir :
  forallb usable mappings = true -> NoDup (map placeholder mappings) ->
  Forall (fun m => well_formed (root m) = true) mappings ->
  paths_ok p working_dir ->
  name_of p working_dir (resolve_path_mappings mappings) = Ok s ->
  Forall (fun n => without "\" n = true) (names_of (resolved (absolute_path p working_dir))) ->
  exists q, denormalize_path s mappings = Some q /\ resolved q = resolved (absolute_path p working_dir).
Proof.
  intros Hu Hd Hw Hp Hs Hb.
  destruct (named_path_leads_back _ _ _ _ Hu Hw Hp Hs) as (m & names & Hin & Hwm & -> & Hn & [top Ht] & He).
  rewrite Ht in Hb. apply Forall_app in Hb as [_ Hb].
  eexists. split; [apply (denormalize_name mappings m names); done|]. exact He.
Qed.

End Names.

(** ** A disk *)

(** A tree of directories, files and links, whose links lead to what is no
    link; it answers about absolute paths without [..]. *)
Record Tree := mkTree {
  nodes : list Path;
  links : list (Path * Path);
  contents : list (string * string);
}.

Section TreeDisk.
Context (t : Tree).

Definition link_target (p : Path) : option Path :=
  snd <$> find (fun l => bool_decide (fst l = p)) (links t).

Definition is_node (p : Path) : bool := bool_decide (p = [RootDir]) || bool_decide (p ∈ nodes t).

Definition enter (c : option Path) (component : Component) : option Path :=
  match c, component with
  | Some c, Normal n =>
      let candidate := (c ++ [Normal n])%list in
      match link_target candidate with
      | Some target => Some target
      | None => if is_node candidate then Some candidate else None
      end
  | _, _ => None
  end.

Definition tree_realpath (p : Path) : option Path :=
  match p with RootDir :: p => fold_left enter p (Some [RootDir]) | _ => None end.

Definition tree_is_symlink (p : Path) : option bool :=
  match parent p, file_name p with
  | Some d, Some n =>
      c ← tree_realpath d;
      let candidate := (c ++ [Normal n])%list in
      if is_some (link_target candidate) then Some true
      else if is_node candidate then Some false else None
  | _, _ => if is_some (tree_realpath p) then Some false else None
  end.

Definition tree_read_dir (p : Path) : option (list (option string)) :=
  if is_node p then
    Some (map file_name (List.filter (fun q => bool_decide (parent q = Some p)) (nodes t ++ map fst (links t))))
  else None.

Definition tree_disk : Disk := {|
  realpath := tree_realpath;
  read_dir := tree_read_dir;
  is_symlink := tree_is_symlink;
  is_file p := is_some (find (fun f => bool_decide (path_of (fst f) = p)) (contents t));
  read_to_string p :=
    match find (fun f => String.eqb (fst f) p) (contents t) with
    | Some f => Ok (snd f)
    | None => Err "No such file or directory (os error 2)"
    end;
|}.

Definition tree_ok : bool :=
  forallb canonical (nodes t) &&
  forallb (fun l => is_node (snd l) && canonical (snd l) &&
                    bool_decide (tree_realpath (snd l) = Some (snd l))) (links t) &&
  forallb (fun p => is_some (link_target p) || bool_decide (tree_realpath p = Some p)) (nodes t).

Lemma link_target_in p q : link_target p = Some q -> In q (map snd (links t)).
Proof.
  unfold link_target. destruct (find _ (links t)) as [l|] eqn:E; [|done]. intros [= <-].
  apply find_some in E as [? _]. by apply in_map.
Qed.

Lemma tree_realpath_snoc p n :
  is_absolute p = true -> tree_realpath (p ++ [Normal n])%list = enter (tree_realpath p) (Normal n).
Proof. destruct p as [|[] p]; try done. intros _. simpl. by rewrite fold_left_app. Qed.

Hypothesis Hok : tree_ok = true.

Lemma tree_answers p c : tree_realpath p = Some c -> canonical c = true /\ tree_realpath c = Some c.
Proof.
  unfold tree_ok in Hok. apply andb_prop in Hok as [[Hn Hl]%andb_prop Hf].
  rewrite forallb_forall in Hn, Hl, Hf. destruct p as [|[] p]; try done.
  destruct p as [|x p _] using rev_ind; [by intros [= <-]|]. simpl. rewrite fold_left_app. simpl.
  destruct (fold_left enter p (Some [RootDir])) as [d|]; [|done]. destruct x as [| | |n]; try done. simpl.
  destruct (link_target _) as [q|] eqn:E.
  - intros [= <-]. apply link_target_in, in_map_iff in E as ([l q'] & <- & Hin).
    specialize (Hl _ Hin). simpl in *. by apply andb_prop in Hl as [[_ ?]%andb_prop ?%bool_decide_eq_true].
  - destruct (is_node (d ++ [Normal n])%list) eqn:Er; [|done]. intros [= <-].
    apply orb_prop in Er as [Er%bool_decide_eq_true|Er%bool_decide_eq_true%list_elem_of_In].
    + by destruct d as [|? []].
    + split; [by apply Hn|]. specialize (Hf _ Er). rewrite E in Hf. by apply bool_decide_eq_true in Hf.
Qed.

#[export] Instance tree_laws : @DiskLaws tree_disk.
Proof.
  constructor; simpl.
  - done.
  - intros p c Hp. apply (tree_answers _ _ Hp).
  - intros p c Hp. apply (tree_answers _ _ Hp).
  - intros p c n Ha Hp. pose proof (tree_answers _ _ Hp) as [Hc Hf].
    by rewrite !tree_realpath_snoc, Hp, Hf by (done || by apply canonical_absolute).
  - intros p n Ha Hp. by rewrite tree_realpath_snoc, Hp.
  - intros c n listing Hc _ _ Hl. pose proof (tree_answers _ _ Hc) as [Hcan _].
    unfold tree_is_symlink in Hl. rewrite parent_app, file_name_app, Hc in Hl. simpl in Hl.
    rewrite tree_realpath_snoc, Hc by (by apply canonical_absolute). unfold enter.
    destruct (link_target _); [done|]. simpl in Hl. by destruct (is_node _).
  - intros p Hl. unfold tree_is_symlink in Hl. destruct (tree_realpath p) as [c|] eqn:Hp; [|done].
    destruct p as [|[] p]; try done. destruct p as [|x p _] using rev_ind; [done|].
    destruct x as [| | |n]; try (simpl in Hp; rewrite fold_left_app in Hp; simpl in Hp; by destruct (fold_left _ _ _)).
    change (RootDir :: p ++ [Normal n])%list with ((RootDir :: p) ++ [Normal n])%list in *.
    rewrite parent_app, file_name_app in Hl. rewrite tree_realpath_snoc in Hp by done.
    destruct (tree_realpath (RootDir :: p)); [|done]. simpl in *.
    destruct (link_target _); [done|]. by destruct (is_node _).
Qed.

End TreeDisk.

(** A workspace reached through a link, beside the toolchain. *)
Module PathDemo.

Definition tree : Tree := mkTree
  (map path_of ["/home"; "/home/me"; "/home/me/src"; "/home/me/src/lib.rs"; "/opt"; "/opt/rust"; "/opt/rust/lib.rs"])
  [(path_of "/work", path_of "/home/me")] [].

#[export] Instance disk : Disk := tree_disk tree.
#[export] Instance laws : DiskLaws := tree_laws tree eq_refl.

Definition mappings : list PathMapping :=
  [mkMapping (path_of "/opt/rust") "RUST"; mkMapping (path_of "/work") "WORKSPACE"].

(** The second path is answered from the memo the first one left. *)
Example memo_is_used :
  let aliases := snd (normalize_resolved_mapped_path_with ∅ (path_of "src/lib.rs") (path_of "/work")
                        (resolve_path_mappings mappings)) in
  fst (normalize_resolved_mapped_path_with aliases (path_of "src/../src/lib.rs") (path_of "/work")
         (resolve_path_mappings mappings)) = Ok "${WORKSPACE}/src/lib.rs".
Proof. vm_compute. reflexivity. Qed.

Lemma names_determine_files_witness :
  normalize_mapped_path (path_of "/work/src/lib.rs") (path_of "/") mappings = Ok "${WORKSPACE}/src/lib.rs" /\
  resolved (absolute_path (path_of "/work/src/lib.rs") (path_of "/")) =
  resolved (absolute_path (path_of "me/./src/lib.rs") (path_of "/home")).
Proof.
  split; [vm_compute; reflexivity|].
  apply (names_determine_files mappings "${WORKSPACE}/src/lib.rs").
  - reflexivity.
  - apply (bool_decide_eq_true_1 _). vm_compute. reflexivity.
  - repeat constructor.
  - by split.
  - by split.
  - vm_compute. reflexivity.
  - vm_compute. reflexivity.
Defined.

Lemma names_lead_back_witness :
  exists q, denormalize_path "${WORKSPACE}/src/new.rs" mappings = Some q /\
            resolved q = resolved (absolute_path (path_of "/work/src/new.rs") (path_of "/")).
Proof.
  apply names_lead_back.
  - reflexivity.
  - apply (bool_decide_eq_true_1 _). vm_compute. reflexivity.
  - repeat constructor.
  - by split.
  - vm_compute. reflexivity.
  - assert (Hn : names_of (resolved (absolute_path (path_of "/work/src/new.rs") (path_of "/"))) = ["home"; "me"; "src"; "new.rs"])
      by (vm_compute; reflexivity).
    rewrite Hn. repeat constructor.
Defined.

End PathDemo.
