(* ===== verification/OutputText.v ===== *)
(** * Paths in the text a compilation writes

    Models the text rewriting of [src/crates/mbx/src/materialize.rs].  What a
    compiler or a build script prints names the directories it ran in.  Before
    it is stored, every spelling of a mapped root becomes a placeholder
    ([normalize_output_text]); when it is restored, every placeholder becomes the
    root of the machine at hand ([denormalize_output_text]).

    The theorem: on one machine the two give back the very text, whatever roots
    lie in one another.  A JSON string's characters are an argument
    ([JsonStrings]); text is its bytes. *)

From stdpp Require Import base list gmap strings sorting.
From Stdlib Require Import ZArith Lia Ascii.
From S2P Require Import Prelude Strings PathMap.
Local Open Scope string_scope.

(** How JSON writes a character inside a string. *)
Class JsonStrings := json_char : Ascii.ascii -> string.

Fixpoint flat_map_string (f : Ascii.ascii -> string) (s : string) : string :=
  match s with EmptyString => "" | String a s => f a ++ flat_map_string f s end.

Definition json_escaped `{JsonStrings} (text : string) : string := flat_map_string json_char text.

(** ** Replacing *)

Definition is_name_byte (a : Ascii.ascii) : bool :=
  is_ascii_alphanumeric a || Ascii.eqb a "-" || Ascii.eqb a "_" || Ascii.eqb a ".".

(** Whether what follows a match does not carry its last name on. *)
Definition ends_at_boundary (rest : string) : bool :=
  match rest with EmptyString => true | String a _ => negb (is_name_byte a) end.

(** The loop of [replace_bytes] over what is left of the haystack; [consumed]
    bytes of it belong to the last match. *)
Fixpoint replace_from (needle replacement : string) (consumed : nat) (haystack : string) : string :=
  match haystack with
  | EmptyString => ""
  | String a rest =>
      match consumed with
      | S consumed => replace_from needle replacement consumed rest
      | O =>
          match strip_prefix needle haystack with
          | Some after =>
              if ends_at_boundary after then replacement ++ replace_from needle replacement (String.length needle - 1) rest
              else String a (replace_from needle replacement 0 rest)
          | None => String a (replace_from needle replacement 0 rest)
          end
      end
  end.

Definition replace_bytes (haystack needle replacement : string) : string :=
  if String.eqb needle "" then haystack else replace_from needle replacement 0 haystack.

(** ** Spellings of the roots *)

Definition is_separator (a : Ascii.ascii) : bool := Ascii.eqb a "/" || Ascii.eqb a "\".

(** [trim_end_matches] of both separators. *)
Fixpoint trim_separators (s : string) : string :=
  match s with
  | EmptyString => ""
  | String a s =>
      match trim_separators s with
      | EmptyString => if is_separator a then "" else String a ""
      | t => String a t
      end
  end.

Definition replace_backslash (replacement : string) (s : string) : string :=
  flat_map_string (fun a => if Ascii.eqb a "\" then replacement else String a "") s.

Section Text.
Context `{JsonStrings}.

(** The spellings of a root, each with the suffix of its placeholder. *)
Definition spellings_of (root : string) : list (string * string) :=
  [(root, ""); (replace_backslash "\\" root, ":escaped"); (replace_backslash "/" root, ":slash"); (json_escaped root, ":json")].

Definition push_new (spellings : list (string * string)) (x : string * string) : list (string * string) :=
  if bool_decide (x ∈ spellings) then spellings else (spellings ++ [x])%list.

Definition push_spellings (spellings : list (string * string)) (mapping : PathMapping) : list (string * string) :=
  match to_str (render (root mapping)) with
  | None => spellings
  | Some text =>
      let root := trim_separators text in
      if String.eqb root "" then spellings
      else fold_left push_new
             (map (fun x => (x.1, "${" ++ placeholder mapping ++ x.2 ++ "}")) (spellings_of root)) spellings
  end.

(** One step of the stable [sort_by_key], longest spelling first. *)
Fixpoint insert_longer (x : string * string) (l : list (string * string)) : list (string * string) :=
  match l with
  | [] => [x]
  | y :: l' => if (String.length x.1 <? String.length y.1)%nat then y :: insert_longer x l' else x :: l
  end.

Definition root_spellings (mappings : list PathMapping) : list (string * string) :=
  foldr insert_longer [] (fold_left push_spellings (ordered mappings) []).

Definition normalize_output_text (text : string) (mappings : list PathMapping) : string :=
  fold_left (fun text x => replace_bytes text x.1 x.2) (root_spellings mappings) text.

Definition denormalize_output_text (text : string) (mappings : list PathMapping) : string :=
  fold_left (fun text x => replace_bytes text x.2 x.1) (root_spellings mappings) text.

(** [str::replace] of two backslashes by one. *)
Fixpoint single_backslashes (s : string) : string :=
  match s with
  | String a (String b rest as s') =>
      if Ascii.eqb a "\" && Ascii.eqb b "\" then String "\" (single_backslashes rest) else String a (single_backslashes s')
  | s => s
  end.

Definition json_spelling (x : string * string) : string :=
  if ends_in ":json}" x.2 then x.1
  else if ends_in ":escaped}" x.2 then json_escaped (single_backslashes x.1)
  else json_escaped x.1.

Definition denormalize_output_json (text : string) (mappings : list PathMapping) : string :=
  fold_left (fun text x => replace_bytes text x.2 (json_spelling x)) (root_spellings mappings) text.

Definition resolved_alias `{Disk} (mapping : PathMapping) : option PathMapping :=
  match realpath (root mapping) with
  | Some resolved => if bool_decide (resolved = root mapping) then None else Some (mkMapping resolved (placeholder mapping))
  | None => None
  end.

Definition with_resolved_root_aliases `{Disk} (mappings : list PathMapping) : list PathMapping :=
  (mappings ++ omap resolved_alias mappings)%list.

Definition normalize_output_text_with_aliases `{Disk} (text : string) (mappings : list PathMapping) : string :=
  normalize_output_text text (with_resolved_root_aliases mappings).

End Text.

(** ** Texts with holes *)

(** JSON escapes quotes, backslashes and control characters, and nothing else. *)
Class JsonStringLaws `{JsonStrings} : Prop := {
  json_plain a : (32 <= N_of_ascii a)%N -> a <> ascii_of_N 34 -> a <> "\"%char -> json_char a = String a "";
  json_escape a : a <> "$"%char -> without "$" (json_char a) = true;
}.

(** The same text with some roots written as their placeholders. *)
Inductive reads (holes : list (string * string)) : string -> string -> Prop :=
| reads_end : reads holes "" ""
| reads_char a s t : a <> "$"%char -> reads holes s t -> reads holes (String a s) (String a t)
| reads_hole r p s t : In (r, p) holes -> ends_at_boundary s = true -> reads holes s t -> reads holes (p ++ s) (r ++ t).

(** A root begins at the root of the disk, and a placeholder names one. *)
Definition rooted (r : string) : Prop := without "$" r = true /\ exists r', r = String "/" r'.
Definition hole (p : string) : Prop :=
  exists n, p = String "$" ("{" ++ n ++ "}") /\ without "$" n = true /\ without "/" n = true /\ without "}" n = true.

(** Each placeholder stands for one root. *)
Definition functional (holes : list (string * string)) : Prop :=
  (forall r p, In (r, p) holes -> rooted r /\ hole p) /\
  forall r r' p, In (r, p) holes -> In (r', p) holes -> r = r'.

Lemma replace_match n r a s : ends_at_boundary s = true ->
  replace_from (String a n) r 0 (String a n ++ s) = r ++ replace_from (String a n) r 0 s.
Proof.
  intros Hs. change (String a n ++ s) with (String a (n ++ s)). cbn [replace_from].
  change (String a (n ++ s)) with (String a n ++ s). rewrite strip_prefix_app, Hs. f_equal.
  change (String.length (String a n) - 1)%nat with (String.length n - 0)%nat. rewrite Nat.sub_0_r.
  generalize (String a n) as needle. intros needle. clear Hs. induction n as [|b n IH]; [done|]. exact IH.
Qed.

Lemma replace_no_match n r a s :
  (forall after, String a s = n ++ after -> ends_at_boundary after = false) ->
  replace_from n r 0 (String a s) = String a (replace_from n r 0 s).
Proof.
  intros Hn. cbn [replace_from]. destruct (strip_prefix n (String a s)) as [after|] eqn:E; [|done].
  apply strip_prefix_inv in E. by rewrite (Hn _ E).
Qed.

(** A needle is not found in bytes that lack its first one. *)
Lemma replace_past c n r b s : without c b = true ->
  replace_from (String c n) r 0 (b ++ s) = b ++ replace_from (String c n) r 0 s.
Proof.
  induction b as [|a b IH]; [done|]. intros [Ha Hb]%andb_prop. apply negb_true_iff, Ascii.eqb_neq in Ha.
  change (String a b ++ s) with (String a (b ++ s)). rewrite replace_no_match; [by rewrite IH|]. intros after [=]. congruence.
Qed.

Lemma replace_boundary c n d r s : is_name_byte d = false -> ends_at_boundary s = true ->
  ends_at_boundary (replace_from (String c n) (String d r) 0 s) = true.
Proof.
  intros Hd Hs. destruct s as [|a s]; [done|]. cbn [replace_from].
  destruct (strip_prefix _ _) as [after|]; [|exact Hs]. destruct (ends_at_boundary after); [|exact Hs].
  change (negb (is_name_byte d) = true). by rewrite Hd.
Qed.

Lemma reads_app holes a s t : without "$" a = true -> reads holes s t -> reads holes (a ++ s) (a ++ t).
Proof.
  intros Ha Hr. induction a as [|c a IH]; [done|]. apply andb_prop in Ha as [Hc Ha].
  apply negb_true_iff, Ascii.eqb_neq in Hc. apply (reads_char holes c); auto.
Qed.

Lemma reads_plain t : without "$" t = true -> reads [] t t.
Proof. intros Ht. rewrite <- (app_nil_string t). apply reads_app; [done|constructor]. Qed.

Lemma reads_none s t : reads [] s t -> s = t.
Proof. induction 1 as [| |? ? ? ? []]; [done|by f_equal]. Qed.

Lemma reads_app_inv holes a s t : functional holes -> without "$" a = true -> reads holes (a ++ s) t ->
  exists t', t = a ++ t' /\ reads holes s t'.
Proof.
  intros Hf. revert t. induction a as [|c a IH]; intros t Ha Hr; [by exists t|].
  apply andb_prop in Ha as [Hc Ha]. apply negb_true_iff, Ascii.eqb_neq in Hc.
  change (String c a ++ s) with (String c (a ++ s)) in Hr. inversion Hr as [|? ? t1 _ Hr'|r p s1 t1 Hin _ _ He]; subst.
  - destruct (IH _ Ha Hr') as (t' & -> & Ht'). by exists t'.
  - destruct (proj1 Hf _ _ Hin) as [_ (n & -> & _)]. injection He as <- _. done.
Qed.

Lemma reads_more holes x s t : reads holes s t -> reads (x :: holes) s t.
Proof. induction 1; [constructor|by constructor|]. apply reads_hole; [by right|done|done]. Qed.

Lemma app_cancel (a b c : string) : a ++ b = a ++ c -> b = c.
Proof. induction a as [|x a IH]; [done|]. intros [=]. by apply IH. Qed.

(** Writing a root as its placeholder. *)
Lemma replace_root_reads holes r p s t : functional holes -> rooted r -> hole p ->
  reads holes s t -> reads ((r, p) :: holes) (replace_from r p 0 s) t.
Proof.
  intros Hf (Hr & r' & ->) (n & -> & Hn). remember (String.length s) as k eqn:Hk. assert (Hle : (String.length s <= k)%nat) by lia.
  clear Hk. revert s t Hle. induction k as [|k IH]; intros s t Hle Hs.
  { destruct s; [|simpl in Hle; lia]. by apply (reads_more holes _ ""). }
  destruct (strip_prefix (String "/" r') s) as [after|] eqn:E.
  - apply strip_prefix_inv in E as ->. destruct (ends_at_boundary after) eqn:Hb.
    + rewrite replace_match by done. destruct (reads_app_inv _ _ _ _ Hf Hr Hs) as (t' & -> & Ht').
      rewrite length_app_string in Hle. apply reads_hole; [by left|by apply replace_boundary|]. apply IH; [simpl in Hle; lia|done].
    + change (String "/" r' ++ after) with (String "/" (r' ++ after)) in *. rewrite replace_no_match.
      2:{ intros after' He. change (String "/" (r' ++ after)) with (String "/" r' ++ after) in He. by apply app_cancel in He as <-. }
      inversion Hs as [|? ? t1 Hc Hs'|? ? ? ? Hin _ _ He]; subst.
      * apply reads_char; [done|]. apply IH; [simpl in Hle; lia|done].
      * destruct (proj1 Hf _ _ Hin) as [_ (m & -> & _)]. discriminate He.
  - destruct Hs as [|a s t Ha Hs|q p s t Hin Hb Hs]; [constructor|..].
    + rewrite replace_no_match by (intros after He; rewrite He in E; by rewrite strip_prefix_app in E).
      apply reads_char; [done|]. apply IH; [simpl in Hle; lia|done].
    + destruct (proj1 Hf _ _ Hin) as [_ (m & Hp & Hm1 & Hm2 & Hm3)].
      assert (Hw : without "/" p = true) by (subst p; unfold without in *; cbn [all_chars]; by rewrite !all_chars_app, Hm2).
      rewrite replace_past by done. apply reads_hole; [by right|by apply replace_boundary|].
      apply IH; [rewrite length_app_string in Hle; subst p; simpl in Hle; lia|done].
Qed.

Definition other_than (p : string) (x : string * string) : bool := negb (String.eqb x.2 p).

Lemma holes_differ p p' s after : hole p -> hole p' -> p ++ s = p' ++ after -> p = p' /\ s = after.
Proof.
  intros (n & -> & _ & _ & Hn) (n' & -> & _ & _ & Hn') He. injection He as He.
  rewrite !app_assoc_string in He. apply app_cancel, (f_equal (split_once "}")) in He.
  change ("}" ++ s) with (String "}" s) in He. change ("}" ++ after) with (String "}" after) in He.
  rewrite !split_once_app in He by done. by simplify_eq.
Qed.

(** Writing a placeholder back as its root. *)
Lemma replace_hole_reads holes r p s t : functional holes -> rooted r -> hole p ->
  (forall r', In (r', p) holes -> r' = r) -> reads holes s t ->
  reads (List.filter (other_than p) holes) (replace_from p r 0 s) t.
Proof.
  intros Hf Hr Hp Hu. destruct Hr as (Hr & r' & Hr'). pose proof Hp as (n & Hn & Hn1 & _).
  assert (Hd : exists b, p = String "$" b /\ without "$" b = true).
  { exists ("{" ++ n ++ "}"). split; [done|]. unfold without in *. by rewrite !all_chars_app, Hn1. }
  destruct Hd as (b & Hb & Hbw). induction 1 as [|a s t Ha Hs IH|q p1 s t Hin Hbd Hs IH]; [subst p; constructor|..].
  - rewrite replace_no_match; [by constructor|]. intros after He. rewrite Hb in He. injection He as ->. done.
  - destruct (decide (p1 = p)) as [->|Hne].
    + rewrite (Hu _ Hin). rewrite Hb at 2 3. rewrite replace_match by done. rewrite <- Hb. by apply reads_app.
    + pose proof (proj2 (proj1 Hf _ _ Hin)) as Hp1. destruct Hp1 as (n1 & Hn1' & Hw & Hrest).
      assert (Hp1 : exists b1, p1 = String "$" b1 /\ without "$" b1 = true).
      { exists ("{" ++ n1 ++ "}"). split; [done|]. unfold without in *. by rewrite !all_chars_app, Hw. }
      destruct Hp1 as (b1 & Hb1 & Hbw1).
      assert (Hstep : replace_from p r 0 (p1 ++ s) = p1 ++ replace_from p r 0 s).
      { rewrite Hb1. change (String "$" b1 ++ s) with (String "$" (b1 ++ s)). rewrite replace_no_match.
        - rewrite Hb at 1. rewrite replace_past by done. by rewrite <- Hb.
        - intros after He. change (String "$" (b1 ++ s)) with (String "$" b1 ++ s) in He. rewrite <- Hb1 in He.
          apply holes_differ in He as [? _]; [done|by exists n1|done]. }
      rewrite Hstep. apply reads_hole; [apply filter_In; split; [done|]|rewrite Hb, Hr'; by apply replace_boundary|done].
      unfold other_than. cbn. by apply negb_true_iff, String.eqb_neq.
Qed.

(** Both directions, through all the spellings. *)
Lemma normalized_reads l holes s t : functional (rev l ++ holes)%list -> reads holes s t ->
  reads (rev l ++ holes)%list (fold_left (fun text x => replace_bytes text x.1 x.2) l s) t.
Proof.
  revert holes s. induction l as [|[r p] l IH]; intros holes s Hf Hs; [done|]. cbn [rev fold_left] in *.
  rewrite <- app_assoc in *. cbn [app] in *. apply IH; [done|].
  assert (Hsub : functional ((r, p) :: holes)).
  { split; [intros r1 p1 Hin; apply (proj1 Hf), in_or_app; by right|]. intros r1 r2 p1 H1 H2.
    apply (proj2 Hf r1 r2 p1); apply in_or_app; by right. }
  destruct (proj1 Hsub r p (or_introl eq_refl)) as [Hr Hp]. unfold replace_bytes. cbn [fst snd].
  assert (Hne : String.eqb r "" = false) by (destruct Hr as [_ (r' & ->)]; done). rewrite Hne.
  apply replace_root_reads; [|done..]. split; [intros r1 p1 Hin; apply (proj1 Hsub); by right|].
  intros r1 r2 p1 H1 H2. apply (proj2 Hsub r1 r2 p1); by right.
Qed.

Lemma denormalized_reads l holes s t : functional holes -> (forall x, In x l -> In x holes) -> reads holes s t ->
  reads (List.filter (fun x => forallb (fun y => other_than y.2 x) l) holes)
    (fold_left (fun text x => replace_bytes text x.2 x.1) l s) t.
Proof.
  intros Hf. assert (Hgen : forall holes' s, (forall x, In x holes' -> In x holes) -> (forall x, In x l -> In x holes) ->
    reads holes' s t -> reads (List.filter (fun x => forallb (fun y => other_than y.2 x) l) holes')
      (fold_left (fun text x => replace_bytes text x.2 x.1) l s) t); [|by auto].
  clear s. induction l as [|[r p] l IH]; intros holes' s Hsub Hl Hs; cbn [fold_left forallb].
  { assert (He : List.filter (fun _ => true) holes' = holes') by (clear; induction holes' as [|x l IH]; [done|]; cbn; by rewrite IH).
    by rewrite He. }
  destruct (proj1 Hf r p (Hl _ (or_introl eq_refl))) as [Hr Hp]. unfold replace_bytes at 2. cbn [fst snd].
  assert (Hne : String.eqb p "" = false) by (destruct Hp as (n & -> & _); done). rewrite Hne.
  assert (Hf' : functional holes').
  { split; [intros r1 p1 Hin; by apply (proj1 Hf), Hsub|]. intros r1 r2 p1 H1 H2. apply (proj2 Hf r1 r2 p1); by apply Hsub. }
  assert (Hone : reads (List.filter (other_than p) holes') (replace_from p r 0 s) t).
  { apply replace_hole_reads; [done..| |done]. intros r1 Hin. apply (proj2 Hf r1 r p); [by apply Hsub|]. apply Hl. by left. }
  apply IH in Hone; [|intros x [Hx _]%filter_In; by apply Hsub|intros x Hx; apply Hl; by right].
  assert (He : List.filter (fun x => other_than p x && forallb (fun y => other_than y.2 x) l) holes' =
    List.filter (fun x => forallb (fun y => other_than y.2 x) l) (List.filter (other_than p) holes')).
  { clear. induction holes' as [|x h IH]; [done|]. cbn. destruct (other_than p x); cbn; by rewrite IH. }
  by rewrite He.
Qed.

Lemma round_trip l t : functional l -> without "$" t = true ->
  fold_left (fun text x => replace_bytes text x.2 x.1) l (fold_left (fun text x => replace_bytes text x.1 x.2) l t) = t.
Proof.
  intros Hf Ht. assert (Hfr : functional (rev l ++ [])%list).
  { rewrite app_nil_r. split; [intros r p Hin%in_rev; by apply (proj1 Hf)|].
    intros r r' p H1%in_rev H2%in_rev. by apply (proj2 Hf r r' p). }
  pose proof (normalized_reads l [] t t Hfr (reads_plain t Ht)) as Hn. rewrite app_nil_r in *.
  apply (denormalized_reads l) in Hn; [|done|by intros x Hx; apply in_rev in Hx].
  assert (He : List.filter (fun x => forallb (fun y => other_than y.2 x) l) (rev l) = []).
  { assert (Hin : forall x, In x (rev l) -> forallb (fun y => other_than y.2 x) l = false).
    { intros x Hx%in_rev. destruct (forallb _ l) eqn:E; [|done]. rewrite forallb_forall in E. specialize (E x Hx).
      unfold other_than in E. by rewrite String.eqb_refl in E. }
    revert Hin. generalize (rev l) as k. induction k as [|x k IH]; [done|]. intros Hin. cbn. rewrite Hin by (by left).
    apply IH. intros y Hy. apply Hin. by right. }
  rewrite He in Hn. by apply reads_none in Hn.
Qed.

(** ** The spellings *)

(** A root a text can name: absolute, under a valid placeholder, without the
    sign placeholders begin with. *)
Definition nameable (m : PathMapping) : bool := usable m && without "$" (render (root m)).

Lemma in_insert_longer x y l : In y (insert_longer x l) <-> y = x \/ In y l.
Proof.
  induction l as [|z l IH]; cbn [insert_longer]; [cbn; naive_solver|].
  destruct (_ <? _)%nat; cbn [In]; [rewrite IH|]; naive_solver.
Qed.

Section Spellings.
Context `{JsonStringLaws}.

Definition spelling_of (m : PathMapping) (x : string * string) : Prop :=
  exists text spelling suffix, to_str (render (root m)) = Some text /\ trim_separators text <> "" /\
    In (spelling, suffix) (spellings_of (trim_separators text)) /\ x = (spelling, "${" ++ placeholder m ++ suffix ++ "}").

Lemma in_push_new l k x : In x (fold_left push_new l k) -> In x k \/ In x l.
Proof.
  revert k. induction l as [|y l IH]; intros k Hin; [by left|]. apply IH in Hin as [Hin|Hin]; [|by right; right].
  unfold push_new in Hin. destruct (bool_decide _); [by left|]. apply in_app_or in Hin as [|[<-|[]]]; [by left|by right; left].
Qed.

Lemma in_push_spellings ms k x : In x (fold_left push_spellings ms k) -> In x k \/ exists m, In m ms /\ spelling_of m x.
Proof.
  revert k. induction ms as [|m ms IH]; intros k Hin; [by left|].
  apply IH in Hin as [Hin|(m' & Hm' & Hx)]; [|right; exists m'; by split; [right|]].
  unfold push_spellings in Hin. destruct (to_str _) as [text|] eqn:Ht; [|by left].
  destruct (String.eqb_spec (trim_separators text) ""); [by left|]. apply in_push_new in Hin as [|Hin]; [by left|].
  apply in_map_iff in Hin as ([spelling suffix] & <- & Hin). right. exists m. split; [by left|]. by exists text, spelling, suffix.
Qed.

Lemma in_root_spellings ms x : In x (root_spellings ms) -> exists m, In m ms /\ spelling_of m x.
Proof.
  unfold root_spellings. intros Hin.
  assert (Hf : In x (fold_left push_spellings (ordered ms) [])).
  { revert Hin. generalize (fold_left push_spellings (ordered ms) []). intros l. induction l as [|y l IH]; [done|].
    cbn [foldr]. rewrite in_insert_longer. intros [->|Hin]; [by left|right; by apply IH]. }
  apply in_push_spellings in Hf as [[]|(m & Hm & Hx)]. exists m. split; [|done].
  rewrite <- list_elem_of_In, <- (ordered_permutation ms), list_elem_of_In. exact Hm.
Qed.

Lemma flat_map_string_without f s : (forall a, a <> "$"%char -> without "$" (f a) = true) ->
  without "$" s = true -> without "$" (flat_map_string f s) = true.
Proof.
  intros Hf. induction s as [|a s IH]; [done|]. intros [Ha Hs]%andb_prop. apply negb_true_iff, Ascii.eqb_neq in Ha.
  cbn [flat_map_string]. unfold without in *. by rewrite all_chars_app, (Hf a Ha), IH.
Qed.

Lemma trim_separators_without s : without "$" s = true -> without "$" (trim_separators s) = true.
Proof.
  induction s as [|a s IH]; [done|]. intros [Ha Hs]%andb_prop. cbn [trim_separators]. specialize (IH Hs).
  destruct (trim_separators s); [destruct (is_separator a); [done|]|]; by apply andb_true_intro.
Qed.

Lemma render_absolute p : is_absolute p = true -> exists r, render p = String "/" r.
Proof. destruct p as [|[] [|c p]]; try done; intros _; by eexists. Qed.

Lemma to_str_some s t : to_str s = Some t -> t = s.
Proof. unfold to_str. destruct (utf8_from [] s); [by intros [= ->]|done]. Qed.

Lemma spellings_rooted r spelling suffix : rooted r -> In (spelling, suffix) (spellings_of r) -> rooted spelling.
Proof.
  intros [Hr (r' & ->)].
  assert (Hb : forall t a, without "$" t = true -> a <> "$"%char -> without "$" (if Ascii.eqb a "\" then t else String a "") = true).
  { intros t a Ht Ha. destruct (Ascii.eqb a "\"); [done|]. cbn. apply Ascii.eqb_neq in Ha. by rewrite Ha. }
  cbn [spellings_of In]. intros [[= <- <-]|[[= <- <-]|[[= <- <-]|[[= <- <-]|[]]]]]; split.
  - done.
  - by eexists.
  - apply flat_map_string_without; [|done]. intros a. by apply (Hb "\\").
  - by eexists.
  - apply flat_map_string_without; [|done]. intros a. by apply (Hb "/").
  - by eexists.
  - apply flat_map_string_without; [|done]. apply json_escape.
  - unfold json_escaped. cbn [flat_map_string]. rewrite (json_plain "/"); [by eexists|done..].
Qed.

Lemma suffix_without c r spelling suffix : c = "$"%char \/ c = "/"%char \/ c = "}"%char ->
  In (spelling, suffix) (spellings_of r) -> without c suffix = true.
Proof. intros Hc [[= <- <-]|[[= <- <-]|[[= <- <-]|[[= <- <-]|[]]]]]; by destruct Hc as [->|[->| ->]]. Qed.

Lemma spelling_shape m x : nameable m = true -> spelling_of m x -> rooted x.1 /\ hole x.2.
Proof.
  intros [[Hv Ha]%andb_prop Hw]%andb_prop (text & spelling & suffix & ->%to_str_some & Hne & Hin & ->). split.
  - eapply spellings_rooted; [|exact Hin]. split; [by apply trim_separators_without|].
    destruct (render_absolute _ Ha) as (r & Hr). rewrite Hr in Hne |- *. cbn [trim_separators] in *.
    destruct (trim_separators r); [by destruct (is_separator "/") eqn:E|]. by eexists.
  - apply andb_prop in Hv as [_ Hv]. exists (placeholder m ++ suffix). split; [by rewrite app_assoc_string|].
    assert (Hp : forall c, is_ascii_alphanumeric c || Ascii.eqb c "_" = false -> without c (placeholder m) = true)
      by (intros c Hc; by apply (without_of _ c) in Hv).
    split; [|split]; (unfold without in *; rewrite all_chars_app; apply andb_true_intro; split; [by apply Hp|]);
      eapply suffix_without; eauto.
Qed.

Lemma head_of_app p s r spelling : without ":" p = true -> In (spelling, s) (spellings_of r) -> head_of_split ":" (p ++ s) = p.
Proof.
  intros Hp Hin. unfold head_of_split. assert (Hn : split_once ":" p = None).
  { clear Hin. induction p as [|a p IH]; [done|]. apply andb_prop in Hp as [Ha Hp]. apply negb_true_iff in Ha. cbn. by rewrite Ha, IH. }
  destruct Hin as [[= <- <-]|[[= <- <-]|[[= <- <-]|[[= <- <-]|[]]]]]; [by rewrite app_nil_string, Hn|..].
  - change (p ++ ":escaped") with (p ++ String ":" "escaped"). by rewrite split_once_app.
  - change (p ++ ":slash") with (p ++ String ":" "slash"). by rewrite split_once_app.
  - change (p ++ ":json") with (p ++ String ":" "json"). by rewrite split_once_app.
Qed.

Lemma root_spellings_functional ms : forallb nameable ms = true -> NoDup (map placeholder ms) -> functional (root_spellings ms).
Proof.
  intros Hms Hd. rewrite forallb_forall in Hms. split.
  { intros r p (m & Hm & Hx)%in_root_spellings. by apply (spelling_shape m (r, p)); [apply Hms|]. }
  intros r r' p (m & Hm & Hx)%in_root_spellings (m' & Hm' & Hx')%in_root_spellings.
  destruct Hx as (text & s & suffix & Ht & _ & Hin & [= -> Hp]), Hx' as (text' & s' & suffix' & Ht' & _ & Hin' & [= -> Hp']).
  rewrite Hp in Hp'. rewrite <- !(app_assoc_string (placeholder _)) in Hp'.
  change ("${" ++ ?x) with ("${" ++ x) in Hp'. apply app_cancel, app_inv_tail_string in Hp'.
  assert (Hv : forall m, In m ms -> without ":" (placeholder m) = true).
  { intros n Hn. specialize (Hms n Hn). apply andb_prop in Hms as [[[_ Hv]%andb_prop _]%andb_prop _].
    by apply (without_of _ ":"%char) in Hv. }
  assert (Hpl : placeholder m = placeholder m').
  { rewrite <- (head_of_app _ _ _ _ (Hv m Hm) Hin), <- (head_of_app _ _ _ _ (Hv m' Hm') Hin'). by rewrite Hp'. }
  assert (m = m') as <- by (by apply (placeholder_inj ms)). apply app_cancel in Hp' as <-.
  rewrite Ht in Ht'. injection Ht' as <-.
  destruct Hin as [[= <- <-]|[[= <- <-]|[[= <- <-]|[[= <- <-]|[]]]]], Hin' as [[= <-]|[[= <-]|[[= <-]|[[= <-]|[]]]]]; done.
Qed.

End Spellings.

(** On the machine that stored it, a text is restored as it was written: with
    distinct valid placeholders and absolute roots, however the roots lie in one
    another and whatever spellings they take, denormalizing what normalizing
    left gives the text back, for every text and roots without a dollar sign. *)
Lemma output_text_round_trip `{JsonStringLaws} (mappings : list PathMapping) (text : string) :
  forallb nameable mappings = true -> NoDup (map placeholder mappings) -> without "$" text = true ->
  denormalize_output_text (normalize_output_text text mappings) mappings = text.
Proof. intros Hm Hd Ht. apply round_trip; [by apply root_spellings_functional|done]. Qed.

(** ** A build script's output *)

Module TextDemo.

Definition hex_digit (n : N) : Ascii.ascii := ascii_of_N (if (n <? 10)%N then n + 48 else n + 87).

#[export] Instance json_strings : JsonStrings := fun a =>
  let n := N_of_ascii a in
  if (n =? 34)%N || (n =? 92)%N then String "\" (String a "")
  else if (n <? 32)%N then "\u00" ++ String (hex_digit (n / 16)) (String (hex_digit (n mod 16)) "")
  else String a "".

#[export] Instance json_laws : JsonStringLaws.
Proof.
  split.
  - intros a Ha Hq Hb. unfold json_char, json_strings.
    destruct (N.eqb_spec (N_of_ascii a) 34) as [He|]; [destruct Hq; by rewrite <- (ascii_N_embedding a), He|].
    destruct (N.eqb_spec (N_of_ascii a) 92) as [He|]; [destruct Hb; by rewrite <- (ascii_N_embedding a), He|].
    cbn [orb]. by rewrite (proj2 (N.ltb_ge _ _) Ha).
  - intros a Ha. unfold json_char, json_strings. apply Ascii.eqb_neq in Ha.
    destruct a as [[] [] [] [] [] [] [] []]; vm_compute in Ha |- *; congruence.
Qed.

(** The output directory lies in the target directory, and that in the
    workspace; the workspace's name begins that of its backup. *)
Definition roots : list PathMapping :=
  [mkMapping (path_of "/w") "workspace"; mkMapping (path_of "/w/target") "target";
   mkMapping (path_of "/w/target/out") "build_script_out_dir"].
Definition printed : string := "-L/w/target/out/lib:/w/target/lib /w/src /w-backup/src {/w}/w".

Example stored :
  normalize_output_text printed roots = "-L${build_script_out_dir}/lib:${target}/lib ${workspace}/src /w-backup/src {${workspace}}${workspace}".
Proof. vm_compute. reflexivity. Qed.

Lemma output_text_round_trip_witness :
  denormalize_output_text (normalize_output_text printed roots) roots = printed.
Proof.
  apply (output_text_round_trip roots printed).
  - vm_compute. reflexivity.
  - apply (bool_decide_eq_true_1 _). vm_compute. reflexivity.
  - vm_compute. reflexivity.
Defined.

End TextDemo.
