(* ===== verification/RustcArgs.v ===== *)
(** * The rustc command line

    Models the parser of [src/crates/mbx-cache-rustc/src/lib.rs]: response
    files, every flag the adapter knows, what makes an invocation cacheable, and
    the files it leaves.  The platform the adapter was built for ([cfg!]) and
    the splitting of shell words (the [shlex] crate) are arguments, as is the
    disk of [PathMap]; paths follow the Unix rules.

    The theorems: the arguments an invocation keeps for its key determine, with
    its source, everything else it says, so nothing that decides the outputs
    escapes the key; and its outputs lie in one directory, programs told apart
    from libraries by their names. *)

From stdpp Require Import base list gmap strings sorting.
From Stdlib Require Import ZArith Lia Ascii.
From S2P Require Import Prelude Strings PathMap.
Local Open Scope string_scope.

(** ** Data *)

Inductive BypassReason :=
| NonUtf8Argument (index : nat)
| ResponseFile (message : string)
| UnknownFlag (flag : string)
| UnknownCodegenOption (option : string)
| MissingValue (flag : string)
| CompilerQuery | StandardInput | MissingInput | MultipleInputs | Incremental
| UnsupportedCrateType (crate_type : string)
| UnsupportedEmit (kind : string)
| NoCacheableOutput | NoDepInfo | SplitOutputDirectories
| InvalidOutputPath (path : Path)
| ImplicitEmitWithOutputFile (path : Path)
| NativeLibrary (library : string)
| MissingNativeLibrary (library : string)
| CustomTargetNativeLibrary (library : string)
| AmbiguousOutputName (path : Path)
| UnportableNativeLink (detail : string)
| UnmodeledLinkArgument (option : string)
| UnsupportedSearchPath (kind : string)
| UnresolvedExtern (name : string)
| BypassUnmappedAbsolutePath (path : Path)
| BypassNonUtf8Path (path : Path)
| RelativeWorkingDirectory (path : Path)
| RelativePathMapping (path : Path)
| InvalidPathPlaceholder (placeholder : string)
| MissingRequiredInput (name : string)
| InvalidInputDigest (path : string)
| ConflictingInput (name : string)
| MalformedDepInfo (message : string)
| DepInfoRead (path : Path) (message : string)
| RelativeDepInfoPath (path : Path)
| UnsafeDepInfoPath (path : Path)
| InputRead (path : Path) (message : string)
| BuildScriptInputOverlapsOutputs (path : Path)
| BuildScriptDeclarationsPending (path : Path)
| BuildScriptInputsChanged (path : Path)
| InputChanged (path : Path)
| InputModifiedDuringCompilation (path : Path)
| InputMetadataChangedDuringCompilation (path : Path)
| DiscoveryWorkingDirectory
| ConflictingEnvironment (name : string)
| Serialization (message : string)
| UnsupportedPrediction
| InvalidPredictedInput (value : string).

Record Emit := mkEmit { kind : string; emit_path : option Path }.

Inductive Argument :=
| Plain (value : string)
| PathArgument (flag : string) (path : Path)
| SearchPath (kind : string) (path : Path)
| Extern (name : string) (path : option Path)
| EmitArgument (emits : list Emit)
| RemapPath (from : Path) (to : string)
| InstallName (name : string)
| OsoPrefix (path : Path) (trailing_slash : bool)
| FuseLd (selection : string).

#[export] Instance Emit_eq_dec : EqDecision Emit.
Proof. solve_decision. Defined.
#[export] Instance Argument_eq_dec : EqDecision Argument.
Proof. solve_decision. Defined.

Inductive LinkOutput :=
| Library | WasmExecutable | NativeExecutable | NativeProcMacro | NativeSharedLibrary.

#[export] Instance LinkOutput_eq_dec : EqDecision LinkOutput.
Proof. solve_decision. Defined.

Record ParseOptions := mkOptions { cache_native_links : bool; custom_target_search : bool }.

Record RustcInvocation := mkInvocation {
  arguments : list Argument;
  source : Path;
  required_inputs : list Path;
  crate_name : string;
  extra_filename : string;
  out_dir : option Path;
  explicit_output : option Path;
  emits : list Emit;
  target : option string;
  link_output : LinkOutput;
}.

(** What [cfg!] and [std::env::consts] answer on the platform. *)
Class Platform := {
  windows : bool;
  macos : bool;
  linux : bool;
  msvc : bool;
  uefi : bool;
  EXE_EXTENSION : string;
  DLL_PREFIX : string;
  DLL_SUFFIX : string;
}.

(** [shlex::split]. *)
Class Shlex := shlex_split : string -> option (list string).

Definition one_of (s : string) (choices : list string) : bool := existsb (String.eqb s) choices.

Definition SUPPORTED_CODEGEN_OPTIONS : list string :=
  ["codegen-units"; "control-flow-guard"; "debug-assertions"; "debuginfo";
   "default-linker-libraries"; "embed-bitcode"; "extra-filename"; "force-frame-pointers";
   "force-unwind-tables"; "instrument-coverage"; "link-arg"; "link-args"; "link-dead-code";
   "link-self-contained"; "linker-plugin-lto"; "lto"; "metadata"; "no-prepopulate-passes";
   "opt-level"; "overflow-checks"; "panic"; "prefer-dynamic"; "relocation-model"; "rpath";
   "save-temps"; "soft-float"; "split-debuginfo"; "split-dwarf-kind"; "strip";
   "symbol-mangling-version"; "target-cpu"; "target-feature"; "tls-model"].

Definition COMPILER_BUNDLED_WASM_TARGETS : list string :=
  ["wasm32-unknown-unknown"; "wasm32-wasip1"; "wasm32-wasip1-threads"; "wasm32-wasip2";
   "wasm32v1-none"; "wasm64-unknown-unknown"].

(** ** Response files *)

Record ResponseExpander := mkExpander {
  shell_argfiles : bool;
  next_is_unstable_option : bool;
  expanded : list string;
}.

Definition push_expanded (e : ResponseExpander) (argument : string) : ResponseExpander :=
  let '(shell, next) :=
    if next_is_unstable_option e then
      (shell_argfiles e || String.eqb argument "shell-argfiles", false)
    else match strip_prefix "-Z" argument with
         | Some option =>
             if String.eqb option "" then (shell_argfiles e, true)
             else (shell_argfiles e || String.eqb option "shell-argfiles", next_is_unstable_option e)
         | None => (shell_argfiles e, next_is_unstable_option e)
         end in
  mkExpander shell next (expanded e ++ [argument]).

Section Expand.
Context `{Disk} `{Shlex}.

Fixpoint expand_from (index : nat) (arguments : list string) (e : ResponseExpander)
    : result BypassReason ResponseExpander :=
  match arguments with
  | [] => Ok e
  | argument :: arguments =>
      argument ← ok_or (NonUtf8Argument index) (to_str argument);
      e ← match strip_prefix "@" argument with
          | None => Ok (push_expanded e argument)
          | Some argfile =>
              let '(path, shell) :=
                match split_once ":" argfile with
                | Some (scheme, path) =>
                    if String.eqb scheme "shell" && shell_argfiles e then (path, true)
                    else (argfile, false)
                | None => (argfile, false)
                end in
              match read_to_string path with
              | Err error => Err (ResponseFile (path ++ ": " ++ error))
              | Ok contents =>
                  if shell then
                    arguments ← ok_or (ResponseFile ("invalid shell-style arguments in " ++ path))
                                      (shlex_split contents);
                    Ok (fold_left push_expanded arguments e)
                  else Ok (fold_left push_expanded (text_lines contents) e)
              end
          end;
      expand_from (S index) arguments e
  end.

Definition expand_response_files (arguments : list string) : result BypassReason (list string) :=
  expanded <$> expand_from 0 arguments (mkExpander false false []).

End Expand.

(** ** The parser's state *)

Record Parser := mkParser {
  p_arguments : list string;
  p_index : nat;
  p_parsed : list Argument;
  p_source : option Path;
  p_crate_types : list string;
  p_emits : list Emit;
  p_required_inputs : list Path;
  p_native_libraries : list string;
  p_test : bool;
  p_crate_name : option string;
  p_extra_filename : string;
  p_out_dir : option Path;
  p_explicit_output : option Path;
  p_target : option string;
  p_sysroot_backend : option string;
  p_options : ParseOptions;
}.

(** The arguments not read yet are the tail from [index]. *)
Definition parser_new (arguments : list string) (options : ParseOptions) : Parser :=
  mkParser arguments 0 [] None [] [] [] [] false None "" None None None None options.

Definition advance (p : Parser) : Parser :=
  let '(mkParser a i ps s ct em ri nl t cn ef od eo ta sb o) := p in
  mkParser (tail a) (S i) ps s ct em ri nl t cn ef od eo ta sb o.
Definition push_parsed (x : Argument) (p : Parser) : Parser :=
  let '(mkParser a i ps s ct em ri nl t cn ef od eo ta sb o) := p in
  mkParser a i (ps ++ [x]) s ct em ri nl t cn ef od eo ta sb o.
Definition set_parsed (ps : list Argument) (p : Parser) : Parser :=
  let '(mkParser a i _ s ct em ri nl t cn ef od eo ta sb o) := p in
  mkParser a i ps s ct em ri nl t cn ef od eo ta sb o.
Definition set_source (s : Path) (p : Parser) : Parser :=
  let '(mkParser a i ps _ ct em ri nl t cn ef od eo ta sb o) := p in
  mkParser a i ps (Some s) ct em ri nl t cn ef od eo ta sb o.
Definition extend_crate_types (x : list string) (p : Parser) : Parser :=
  let '(mkParser a i ps s ct em ri nl t cn ef od eo ta sb o) := p in
  mkParser a i ps s (ct ++ x) em ri nl t cn ef od eo ta sb o.
Definition extend_emits (x : list Emit) (p : Parser) : Parser :=
  let '(mkParser a i ps s ct em ri nl t cn ef od eo ta sb o) := p in
  mkParser a i ps s ct (em ++ x) ri nl t cn ef od eo ta sb o.
Definition push_required (x : Path) (p : Parser) : Parser :=
  let '(mkParser a i ps s ct em ri nl t cn ef od eo ta sb o) := p in
  mkParser a i ps s ct em (ri ++ [x]) nl t cn ef od eo ta sb o.
Definition push_library (x : string) (p : Parser) : Parser :=
  let '(mkParser a i ps s ct em ri nl t cn ef od eo ta sb o) := p in
  mkParser a i ps s ct em ri (nl ++ [x]) t cn ef od eo ta sb o.
Definition set_test (p : Parser) : Parser :=
  let '(mkParser a i ps s ct em ri nl _ cn ef od eo ta sb o) := p in
  mkParser a i ps s ct em ri nl true cn ef od eo ta sb o.
Definition set_crate_name (x : string) (p : Parser) : Parser :=
  let '(mkParser a i ps s ct em ri nl t _ ef od eo ta sb o) := p in
  mkParser a i ps s ct em ri nl t (Some x) ef od eo ta sb o.
Definition set_extra_filename (x : string) (p : Parser) : Parser :=
  let '(mkParser a i ps s ct em ri nl t cn _ od eo ta sb o) := p in
  mkParser a i ps s ct em ri nl t cn x od eo ta sb o.
Definition set_out_dir (x : Path) (p : Parser) : Parser :=
  let '(mkParser a i ps s ct em ri nl t cn ef _ eo ta sb o) := p in
  mkParser a i ps s ct em ri nl t cn ef (Some x) eo ta sb o.
Definition set_explicit_output (x : Path) (p : Parser) : Parser :=
  let '(mkParser a i ps s ct em ri nl t cn ef od _ ta sb o) := p in
  mkParser a i ps s ct em ri nl t cn ef od (Some x) ta sb o.
Definition set_target (x : string) (p : Parser) : Parser :=
  let '(mkParser a i ps s ct em ri nl t cn ef od eo _ sb o) := p in
  mkParser a i ps s ct em ri nl t cn ef od eo (Some x) sb o.
Definition set_sysroot_backend (x : string) (p : Parser) : Parser :=
  let '(mkParser a i ps s ct em ri nl t cn ef od eo ta _ o) := p in
  mkParser a i ps s ct em ri nl t cn ef od eo ta (Some x) o.

(** What a handler does: fail, or answer and leave a state. *)
Definition Parse (A : Type) : Type := Parser -> result BypassReason (A * Parser).

#[export] Instance Parse_ret : MRet Parse := fun _ a p => Ok (a, p).
#[export] Instance Parse_bind : MBind Parse :=
  fun _ _ f m p => match m p with Ok (a, p) => f a p | Err e => Err e end.
Definition fail {A} (e : BypassReason) : Parse A := fun _ => Err e.
Definition modify (f : Parser -> Parser) : Parse unit := fun p => Ok ((), f p).
Definition get : Parse Parser := fun p => Ok (p, p).

Definition current : Parse string :=
  fun p => match p_arguments p with
           | value :: _ => value ← ok_or (NonUtf8Argument (p_index p)) (to_str value); Ok (value, p)
           | [] => Err (NonUtf8Argument (p_index p))
           end.

Definition take_value (flag : string) (inline : option string) : Parse string :=
  match inline with
  | Some value => if String.eqb value "" then fail (MissingValue flag) else mret value
  | None =>
      p ← get;
      match p_arguments p with
      | [] => fail (MissingValue flag)
      | _ => value ← current; _ ← modify advance; mret value
      end
  end.

(** A value attached to a short flag. *)
Definition attached_value (attached : string) : option string :=
  if String.eqb attached "" then None else Some attached.

(** ** Flags *)

Definition plain_flag (flag value : string) : Parse unit :=
  modify (push_parsed (Plain (flag ++ "=" ++ value))).

(** A target that names a specification file. *)
Definition is_specification (value : string) : bool :=
  ends_in ".json" value || contains_char "/" value || contains_char "\" value.

Definition parse_emits (value : string) : list Emit :=
  map (fun emit =>
         match split_once "=" emit with
         | Some (kind, path) => mkEmit kind (Some (path_of path))
         | None => mkEmit emit None
         end)
    (split "," value).

Definition safe_install_name (name : string) : bool :=
  negb (String.eqb name "") &&
  all_chars (fun byte => is_ascii_alphanumeric byte || contains_char byte "._-") name.

Definition is_fuse (test : string -> bool) (argument : Argument) : bool :=
  match argument with FuseLd existing => test existing | _ => false end.

(** The value of a [link-arg] that selects a linker the parser models: it
    contradicts no selection before it. *)
Definition fuse_selection (p : Parser) (name value : string) : option string :=
  if String.eqb name "link-arg" then
    '(_, option) ← split_once "=" value;
    selection ← strip_prefix "-fuse-ld=" option;
    if negb (String.eqb selection "") && negb (contains_char "," selection) &&
       negb (existsb (is_fuse (fun existing => negb (String.eqb existing selection))) (p_parsed p))
    then Some selection else None
  else None.

Definition install_name (name value : string) : option string :=
  if String.eqb name "link-arg" then
    option ← strip_prefix "link-arg=-Wl,-install_name,@rpath/" value;
    if safe_install_name option then Some option else None
  else None.

Definition oso_prefix (name value : string) : option string :=
  if String.eqb name "link-arg" || String.eqb name "link-args" then
    '(_, option) ← split_once "=" value;
    prefix ← strip_prefix "-Wl,-oso_prefix," option;
    if negb (String.eqb (trim_end "/" prefix) "") && negb (contains_char "," prefix)
    then Some prefix else None
  else None.

Definition lto_plugin (name value : string) : option string :=
  if String.eqb name "linker-plugin-lto" then
    '(_, selection) ← split_once "=" value;
    if one_of selection [""; "y"; "yes"; "on"; "true"; "n"; "no"; "off"; "false"] then None
    else Some selection
  else None.

Definition parse_codegen (value : string) : Parse unit :=
  let name := head_of_split "=" value in
  if String.eqb name "incremental" then fail Incremental
  else if String.eqb name "profile-use" then
    match split_once "=" value with
    | None => fail (MissingValue "-Cprofile-use")
    | Some (_, profile) =>
        if String.eqb profile "" then fail (MissingValue "-Cprofile-use")
        else
          let path := path_of profile in
          _ ← modify (push_required path);
          modify (push_parsed (PathArgument "-Cprofile-use" path))
    end
  else if negb (one_of name SUPPORTED_CODEGEN_OPTIONS) && negb (one_of name ["linker"; "linker-flavor"]) then
    fail (UnknownCodegenOption name)
  else
    match lto_plugin name value with
    | Some selection => fail (UnknownCodegenOption ("linker-plugin-lto=" ++ selection))
    | None =>
        p ← get;
        match fuse_selection p name value with
        | Some selection =>
            if existsb (is_fuse (String.eqb selection)) (p_parsed p) then mret ()
            else modify (push_parsed (FuseLd selection))
        | None =>
            match install_name name value with
            | Some option => modify (push_parsed (InstallName option))
            | None =>
                match oso_prefix name value with
                | Some prefix =>
                    modify (push_parsed
                      (OsoPrefix (path_of (trim_end "/" prefix)) (ends_in "/" prefix)))
                | None =>
                    _ ← modify (push_parsed (Plain ("--codegen=" ++ value)));
                    if String.eqb name "extra-filename" then
                      modify (set_extra_filename
                        match split_once "=" value with Some (_, value) => value | None => "" end)
                    else mret ()
                end
            end
        end
    end.

Definition parse_long (value : string) : Parse unit :=
  let '(flag, inline) :=
    match split_once "=" value with
    | Some (flag, value) => (flag, Some value)
    | None => (value, None)
    end in
  let rendered_flag := "--" ++ flag in
  if one_of flag ["help"; "version"; "explain"; "print"] then fail CompilerQuery
  else if String.eqb flag "test" then
    _ ← modify set_test; modify (push_parsed (Plain rendered_flag))
  else if String.eqb flag "verbose" then modify (push_parsed (Plain rendered_flag))
  else if String.eqb flag "crate-name" then
    value ← take_value rendered_flag inline;
    _ ← modify (set_crate_name value);
    plain_flag rendered_flag value
  else if one_of flag ["cfg"; "check-cfg"; "edition"; "error-format"; "json"; "color";
      "diagnostic-width"; "remap-path-scope"; "allow"; "warn"; "force-warn"; "deny"; "forbid";
      "cap-lints"] then
    value ← take_value rendered_flag inline;
    plain_flag rendered_flag value
  else if String.eqb flag "target" then
    value ← take_value rendered_flag inline;
    p ← get;
    let effective := is_none (p_target p) in
    _ ← (if effective then modify (set_target value) else mret ());
    if is_specification value then
      let path := path_of value in
      _ ← (if effective then modify (push_required path) else mret ());
      modify (push_parsed (PathArgument rendered_flag path))
    else plain_flag rendered_flag value
  else if String.eqb flag "crate-type" then
    value ← take_value rendered_flag inline;
    _ ← modify (extend_crate_types (split "," value));
    plain_flag rendered_flag value
  else if String.eqb flag "emit" then
    value ← take_value rendered_flag inline;
    let emits := parse_emits value in
    _ ← modify (extend_emits emits);
    modify (push_parsed (EmitArgument emits))
  else if String.eqb flag "out-dir" then
    value ← take_value rendered_flag inline;
    let path := path_of value in
    _ ← modify (set_out_dir path);
    modify (push_parsed (PathArgument rendered_flag path))
  else if String.eqb flag "sysroot" then
    path ← take_value rendered_flag inline;
    modify (push_parsed (PathArgument rendered_flag (path_of path)))
  else if String.eqb flag "extern" then
    value ← take_value rendered_flag inline;
    let '(name, path) :=
      match split_once "=" value with
      | Some (name, path) => (name, Some (path_of path))
      | None => (value, None)
      end in
    _ ← match path with Some path => modify (push_required path) | None => mret () end;
    modify (push_parsed (Extern name path))
  else if String.eqb flag "remap-path-prefix" then
    value ← take_value rendered_flag inline;
    match split_once "=" value with
    | None => fail (MissingValue rendered_flag)
    | Some (from, to) => modify (push_parsed (RemapPath (path_of from) to))
    end
  else if String.eqb flag "codegen" then
    value ← take_value rendered_flag inline;
    parse_codegen value
  else if String.eqb flag "jobs-frontend" then
    value ← take_value rendered_flag inline;
    plain_flag rendered_flag value
  else fail (UnknownFlag rendered_flag).

Definition keep_unstable (option : string) : Parse unit := modify (push_parsed (Plain ("-Z" ++ option))).

Definition parse_unstable (option : string) : Parse unit :=
  if one_of option ["embed-metadata=no"; "embed-metadata=yes"; "force-unstable-if-unmarked";
      "shell-argfiles"; "unstable-options"; "use-sync-unwind=yes"; "use-sync-unwind=no"] then
    keep_unstable option
  else if one_of option ["threads"; "threads="] then fail (MissingValue "-Zthreads")
  else if one_of option ["remap-cwd-prefix"; "remap-cwd-prefix="] then
    fail (MissingValue "-Zremap-cwd-prefix")
  else if is_some (strip_prefix "remap-cwd-prefix=" option) then keep_unstable option
  else if String.eqb option "share-generics" then fail (MissingValue "-Zshare-generics")
  else
    match strip_prefix "share-generics=" option with
    | Some value =>
        if one_of value ["y"; "yes"; "on"; "true"; "n"; "no"; "off"; "false"] then keep_unstable option
        else if String.eqb value "" then fail (MissingValue "-Zshare-generics")
        else fail (UnknownFlag ("-Z" ++ option))
    | None =>
        if is_some (strip_prefix "threads=" option) then keep_unstable option
        else
          match strip_prefix "codegen-backend=" option with
          | Some backend =>
              if negb (String.eqb backend "") &&
                 negb (contains_char "." backend || contains_char "/" backend || contains_char "\" backend)
              then
                _ ← modify (set_sysroot_backend ("-Z" ++ option));
                keep_unstable option
              else fail (UnknownFlag ("-Z" ++ option))
          | None => fail (UnknownFlag ("-Z" ++ option))
          end
    end.

Fixpoint find_map {A B} (f : A -> option B) (l : list A) : option B :=
  match l with [] => None | x :: l => match f x with Some y => Some y | None => find_map f l end end.

(** The lint flags with their long names. *)
Definition lint_flag (value : string) : option (string * string * string) :=
  find_map (fun '(short, long) => (fun attached => (short, long, attached)) <$> strip_prefix short value)
    [("-A", "--allow"); ("-W", "--warn"); ("-D", "--deny"); ("-F", "--forbid")].

Definition parse_search (search : string) : Parse unit :=
  let '(kind, path) := match split_once "=" search with Some kp => kp | None => ("all", search) end in
  if one_of kind ["dependency"; "native"] then modify (push_parsed (SearchPath kind (path_of path)))
  else fail (UnsupportedSearchPath kind).

Definition parse_short (value : string) : Parse unit :=
  match strip_prefix "-Z" value with
  | Some attached =>
      option ← take_value "-Z" (attached_value attached);
      parse_unstable option
  | None =>
  if one_of value ["-h"; "-V"; "-vV"] then fail CompilerQuery
  else if one_of value ["-g"; "-O"; "-v"] then modify (push_parsed (Plain value))
  else
  match lint_flag value with
  | Some (short, long, attached) =>
      lint ← take_value short (attached_value attached);
      plain_flag long lint
  | None =>
  match strip_prefix "-C" value with
  | Some attached =>
      option ← take_value "-C" (attached_value attached);
      parse_codegen option
  | None =>
  match strip_prefix "-L" value with
  | Some attached =>
      search ← take_value "-L" (attached_value attached);
      parse_search search
  | None =>
  match strip_prefix "-l" value with
  | Some attached =>
      library ← take_value "-l" (attached_value attached);
      _ ← modify (push_parsed (Plain ("-l" ++ library)));
      modify (push_library library)
  | None =>
  match strip_prefix "-o" value with
  | Some attached =>
      path ← take_value "-o" (attached_value attached);
      _ ← modify (set_explicit_output (path_of path));
      modify (push_parsed (PathArgument "-o" (path_of path)))
  | None => fail (UnknownFlag value)
  end end end end end end.

Definition parse_input (value : string) : Parse unit :=
  if String.eqb value "-" then fail StandardInput
  else
    p ← get;
    if is_some (p_source p) then fail MultipleInputs else modify (set_source (path_of value)).

Definition parse_one : Parse unit :=
  value ← current;
  _ ← modify advance;
  match strip_prefix "--" value with
  | Some long => parse_long long
  | None =>
      if is_some (strip_prefix "-" value) && negb (String.eqb value "-") then parse_short value
      else parse_input value
  end.

(** The loop over the command line; every round reads an argument. *)
Fixpoint parse_loop (fuel : nat) : Parse unit :=
  match fuel with
  | O => mret ()
  | S fuel =>
      p ← get;
      match p_arguments p with
      | [] => mret ()
      | _ => _ ← parse_one; parse_loop fuel
      end
  end.

(** ** What an invocation links *)

Definition compiler_bundled_wasm_target (target : string) : bool :=
  one_of target COMPILER_BUNDLED_WASM_TARGETS.

(** Whether a boolean codegen option asks for its enabled form. *)
Definition is_enabled (value : option string) : bool :=
  match value with None => true | Some value => one_of value ["y"; "yes"; "on"; "true"] end.

Definition is_native (output : LinkOutput) : bool :=
  match output with NativeExecutable | NativeProcMacro | NativeSharedLibrary => true | _ => false end.

(** A numeric size of an MSVC option. *)
Definition is_size (size : string) : bool :=
  match option_or (strip_prefix "0x" size) (strip_prefix "0X" size) with
  | Some hex => negb (String.eqb hex "") && all_chars is_ascii_hexdigit hex
  | None => negb (String.eqb size "") && all_chars is_ascii_digit size
  end.

Definition msvc_option_reads_no_file (option : string) : bool :=
  match option_or (strip_prefix "/" option) (strip_prefix "-" option) with
  | None => false
  | Some option =>
      if eq_ignore_ascii_case option "brepro" then true
      else match split_once ":" option with
           | None => false
           | Some (name, sizes) =>
               eq_ignore_ascii_case name "stack" &&
               (length (split "," sizes) <=? 2)%nat && forallb is_size (split "," sizes)
           end
  end.

(** The one [crate_type] of a slice of one. *)
Definition single_type (crate_types : list string) (choices : list string) : bool :=
  match crate_types with [kind] => one_of kind choices | _ => false end.

Definition plain_value (argument : Argument) : option string :=
  match argument with Plain value => Some value | _ => None end.

(** [-C name[=value]] as [parse_codegen] keeps it. *)
Definition codegen_option (argument : Argument) : option (string * option string) :=
  value ← plain_value argument;
  option ← strip_prefix "--codegen=" value;
  Some match split_once "=" option with Some (name, value) => (name, Some value) | None => (option, None) end.

Definition is_emit (kinds : list string) (e : Emit) : bool := one_of (kind e) kinds.

Section Classify.
Context `{Platform} `{Disk}.

Definition elf_keyword_is_modeled (output : LinkOutput) (value : string) : bool :=
  linux && is_native output &&
  is_some_and (fun keyword => one_of keyword
      ["defs"; "lazy"; "nodelete"; "nodlopen"; "noexecstack"; "norelro"; "now"; "origin"; "relro"])
    (strip_prefix "-Wl,-z," value).

Definition msvc_options_are_modeled (output : LinkOutput) (name value : string) : bool :=
  msvc && is_native output &&
  if String.eqb name "link-arg" then msvc_option_reads_no_file value
  else if String.eqb name "link-args" then
    match ascii_words value with [] => false | options => forallb msvc_option_reads_no_file options end
  else false.

Definition first_link_argument (parsed : list Argument) (output : LinkOutput) : option string :=
  find_map (fun argument =>
    value ← plain_value argument;
    option ← strip_prefix "--codegen=" value;
    let '(name, value) := match split_once "=" option with Some nv => nv | None => (option, "") end in
    then_some (one_of name ["link-arg"; "link-args"] &&
        negb (String.eqb name "link-arg" && elf_keyword_is_modeled output value) &&
        negb (msvc_options_are_modeled output name value)) option) parsed.

Definition oso_prefix_covers_outputs (p : Parser) : bool :=
  match option_or (p_out_dir p) (p_explicit_output p ≫= parent) with
  | None => false
  | Some directory =>
      is_absolute directory &&
      let directory := normalize_components directory in
      existsb (fun argument =>
        match argument with
        | OsoPrefix path _ =>
            is_absolute path &&
            (starts_with directory (normalize_components path) ||
             match realpath directory, realpath path with
             | Some directory, Some prefix => starts_with directory prefix
             | _, _ => false
             end)
        | _ => false
        end) (p_parsed p)
  end.

Definition links_a_native_artifact (p : Parser) : bool :=
  is_none (p_target p) &&
  existsb (is_emit ["link"]) (p_emits p) &&
  ((p_test p && match p_crate_types p with [] => true | _ => false end) ||
   single_type (p_crate_types p) ["bin"; "proc-macro"] ||
   (linux && single_type (p_crate_types p) ["cdylib"])).

(** What an argument names that no other checkout can reproduce. *)
Definition unportable (p : Parser) (argument : Argument) : option string :=
  '(name, value) ← match argument with
                    | Plain value =>
                        if String.eqb value "-g" then Some ("debuginfo", Some "2")
                        else codegen_option argument
                    | _ => None
                    end;
  let covered := oso_prefix_covers_outputs p in
  let bad :=
    if String.eqb name "split-debuginfo" then
      match value with
      | Some value =>
          if String.eqb value "off" then false
          else if String.eqb value "unpacked" && macos then negb covered
          else true
      | None => true
      end
    else if String.eqb name "debuginfo" && macos then
      negb (is_some_and (fun value => one_of value ["0"; "none"]) value) && negb covered
    else if String.eqb name "rpath" then is_enabled value
    else if String.eqb name "prefer-dynamic" then
      is_enabled value && negb (single_type (p_crate_types p) ["proc-macro"])
    else String.eqb name "link-self-contained" in
  then_some bad (match value with Some value => name ++ "=" ++ value | None => name end).

Definition check_native_link_is_portable (p : Parser) : result BypassReason unit :=
  match find_map (unportable p) (p_parsed p) with
  | Some detail => Err (UnportableNativeLink detail)
  | None => Ok ()
  end.

Definition is_plain_with (test : string -> bool) (argument : Argument) : bool :=
  match argument with Plain value => test value | _ => false end.

(** [link-self-contained] asked for in a form that turns it off. *)
Definition not_self_contained (value : string) : bool :=
  if String.eqb value "--codegen=link-self-contained" then false
  else if is_some (strip_prefix "--codegen=link-self-contained=" value) then
    negb (is_some_and (fun '(_, value) => one_of value ["y"; "yes"; "on"; "true"]) (rsplit_once "=" value))
  else false.

Definition drops_static_crt (value : string) : bool :=
  is_some_and (fun features => existsb (String.eqb "-crt-static") (split "," features))
    (strip_prefix "--codegen=target-feature=" value).

(** The first half of [classify]: what the crate types and the target ask for. *)
Definition requested_output (p : Parser) : result BypassReason LinkOutput :=
  let parsed := p_parsed p in
  let never_links := negb (existsb (is_emit ["link"]) (p_emits p)) in
  let builds_a_library :=
    negb (p_test p) && match p_crate_types p with [] => false | _ => true end &&
    forallb (fun t => one_of t ["lib"; "rlib"]) (p_crate_types p) in
  if never_links || builds_a_library then Ok Library
  else if is_some_and compiler_bundled_wasm_target (p_target p) &&
          ((p_test p && match p_crate_types p with [] => true | _ => false end) ||
           single_type (p_crate_types p) ["bin"; "cdylib"]) then
    if existsb (is_plain_with not_self_contained) parsed then Err (UnknownCodegenOption "link-self-contained")
    else if is_some_and (contains "wasi") (p_target p) && existsb (is_plain_with drops_static_crt) parsed then
      Err (UnknownCodegenOption "target-feature=-crt-static")
    else Ok WasmExecutable
  else if cache_native_links (p_options p) && links_a_native_artifact p then
    _ ← check_native_link_is_portable p;
    Ok (if single_type (p_crate_types p) ["proc-macro"] then NativeProcMacro
        else if single_type (p_crate_types p) ["cdylib"] then NativeSharedLibrary
        else NativeExecutable)
  else if p_test p then Err (UnsupportedCrateType "test")
  else Err (UnsupportedCrateType
              (unwrap_or "bin" (find (fun t => negb (one_of t ["lib"; "rlib"])) (p_crate_types p)))).

Definition library_or_native (output : LinkOutput) : bool :=
  match output with Library => true | output => is_native output end.

Definition is_library (output : LinkOutput) : bool := match output with Library => true | _ => false end.

Definition classify (p : Parser) : result BypassReason LinkOutput :=
  link_output ← requested_output p;
  let parsed := p_parsed p in
  _ ← match (if is_library link_output then None else first_link_argument parsed link_output) with
      | Some option => Err (UnmodeledLinkArgument option)
      | None => Ok ()
      end;
  _ ← (if existsb (fun a => match a with InstallName _ => true | _ => false end) parsed &&
          negb (macos && bool_decide (link_output = NativeProcMacro))
       then Err (UnmodeledLinkArgument "link-arg=-Wl,-install_name") else Ok ());
  _ ← match find_map (fun a => match a with FuseLd selection => Some selection | _ => None end) parsed with
      | Some selection =>
          if library_or_native link_output then Ok ()
          else Err (UnmodeledLinkArgument ("link-arg=-fuse-ld=" ++ selection))
      | None => Ok ()
      end;
  _ ← (if existsb (is_plain_with (fun value => is_some (strip_prefix "--codegen=linker=" value))) parsed &&
          negb (library_or_native link_output)
       then Err (UnknownCodegenOption "linker") else Ok ());
  _ ← (if negb (is_library link_output) &&
          existsb (is_plain_with (fun value => is_some (strip_prefix "--codegen=linker-flavor=" value))) parsed
       then Err (UnknownCodegenOption "linker-flavor") else Ok ());
  _ ← (if negb (library_or_native link_output) &&
          existsb (fun a => match a with OsoPrefix _ _ => true | _ => false end) parsed
       then Err (UnmodeledLinkArgument "link-arg=-Wl,-oso_prefix") else Ok ());
  _ ← match find_map (fun a => match a with
                               | Extern name None => if String.eqb name "proc_macro" then None else Some name
                               | _ => None end) parsed with
      | Some name => Err (UnresolvedExtern name)
      | None => Ok ()
      end;
  _ ← match find (fun e => negb (is_emit ["dep-info"; "link"; "metadata"] e)) (p_emits p) with
      | Some emit => Err (UnsupportedEmit (kind emit))
      | None => Ok ()
      end;
  if existsb (is_emit ["link"; "metadata"]) (p_emits p) then Ok link_output else Err NoCacheableOutput.

(** ** Native libraries *)

Inductive StaticLibraryNaming := Msvc | Unix.

Definition static_library_naming (p : Parser) : option StaticLibraryNaming :=
  match p_target p with
  | None => Some (if msvc || uefi then Msvc else Unix)
  | Some target =>
      if is_specification target || custom_target_search (p_options p) then None
      else Some (if contains "msvc" target || ends_in "-uefi" target then Msvc else Unix)
  end.

(** [None] is the [Err] of a custom target, [Some None] an archive not found. *)
Definition find_native_static_library (p : Parser) (name : string) (verbatim : bool) : option (option Path) :=
  file_names ← (if verbatim then Some [name]
                else match static_library_naming p with
                     | Some Msvc => Some [name ++ ".lib"; "lib" ++ name ++ ".a"]
                     | Some Unix => Some ["lib" ++ name ++ ".a"]
                     | None => None
                     end);
  Some (find is_file
    (flat_map (fun argument =>
       match argument with
       | SearchPath kind directory =>
           if String.eqb kind "native" then map (fun file_name => push directory (path_of file_name)) file_names
           else []
       | _ => []
       end) (p_parsed p))).

Fixpoint read_modifiers (modifiers : list string) (verbatim bundle : bool) : bool * bool :=
  match modifiers with
  | [] => (verbatim, bundle)
  | m :: modifiers =>
      if String.eqb m "+verbatim" then read_modifiers modifiers true bundle
      else if String.eqb m "-verbatim" then read_modifiers modifiers false bundle
      else if String.eqb m "+bundle" then read_modifiers modifiers verbatim true
      else if String.eqb m "-bundle" then read_modifiers modifiers verbatim false
      else read_modifiers modifiers verbatim bundle
  end.

(** The archive one [-l] bundles, where it bundles one. *)
Definition native_archive (p : Parser) (link_output : LinkOutput) (library : string)
    : result BypassReason (option Path) :=
  if negb (is_library link_output) then Err (NativeLibrary library)
  else
    match split_once "=" library with
    | None => Ok None
    | Some (kind, name) =>
        let '(kind, modifiers) := match split_once ":" kind with Some km => km | None => (kind, "") end in
        if String.eqb kind "static" then
          let name := match split_once ":" name with Some (_, renamed) => renamed | None => name end in
          let '(verbatim, bundle) := read_modifiers (split "," modifiers) false true in
          if negb bundle then Ok None
          else
            match find_native_static_library p name verbatim with
            | None => Err (CustomTargetNativeLibrary library)
            | Some None => Err (MissingNativeLibrary library)
            | Some (Some archive) => Ok (Some archive)
            end
        else if one_of kind ["dylib"; "framework"; "link-arg"] then Ok None
        else Err (UnknownFlag ("-l" ++ library))
    end.

Fixpoint native_archives (p : Parser) (link_output : LinkOutput) (libraries : list string)
    : result BypassReason (list Path) :=
  match libraries with
  | [] => Ok []
  | library :: libraries =>
      archive ← native_archive p link_output library;
      archives ← native_archives p link_output libraries;
      Ok (option_list archive ++ archives)%list
  end.

Definition require_native_libraries (p : Parser) (link_output : LinkOutput) : result BypassReason Parser :=
  archives ← native_archives p link_output (p_native_libraries p);
  Ok (fold_left (fun p archive => push_required archive p) archives p).

(** ** The whole parser *)

Definition diagnostic_width (argument : Argument) : option string :=
  value ← plain_value argument; strip_prefix "--diagnostic-width=" value.

Definition drop_unobservable_diagnostic_width (parsed : list Argument) : list Argument :=
  match omap diagnostic_width parsed with
  | [width] =>
      if is_some (parse_usize width)
      then List.filter (fun argument => is_none (diagnostic_width argument)) parsed
      else parsed
  | _ => parsed
  end.

(** An explicit sysroot is searched for the backend first. *)
Definition check_sysroot_backend (p : Parser) : result BypassReason unit :=
  match p_sysroot_backend p with
  | Some backend =>
      if existsb (fun a => match a with PathArgument flag _ => String.eqb flag "--sysroot" | _ => false end)
           (p_parsed p)
      then Err (UnknownFlag backend) else Ok ()
  | None => Ok ()
  end.

Definition parse (arguments : list string) (options : ParseOptions) : result BypassReason RustcInvocation :=
  '(_, p) ← parse_loop (length arguments) (parser_new arguments options);
  _ ← check_sysroot_backend p;
  source ← ok_or MissingInput (p_source p);
  link_output ← classify p;
  p ← require_native_libraries p link_output;
  crate_name ← match p_crate_name p with
               | Some crate_name => Ok crate_name
               | None =>
                   ok_or (BypassNonUtf8Path source)
                     ((fun name => replace_char "-" "_" name) <$> (file_stem source ≫= to_str))
               end;
  Ok (mkInvocation (drop_unobservable_diagnostic_width (p_parsed p)) source
        (p_required_inputs p ++ [source])%list crate_name (p_extra_filename p) (p_out_dir p)
        (p_explicit_output p) (p_emits p) (p_target p) link_output).

Definition parse_with `{Shlex} (arguments : list string) (options : ParseOptions)
    : result BypassReason RustcInvocation :=
  arguments ← expand_response_files arguments;
  parse arguments options.

End Classify.

(** ** Outputs *)

Record RustcOutputs := mkOutputs { directory : Path; files : list Path; dep_info : Path }.

(** The order of [Path]: by components. *)
Definition component_compare (c d : Component) : comparison :=
  match c, d with
  | RootDir, RootDir | CurDir, CurDir | ParentDir, ParentDir => Eq
  | RootDir, _ => Lt | _, RootDir => Gt
  | CurDir, _ => Lt | _, CurDir => Gt
  | ParentDir, _ => Lt | _, ParentDir => Gt
  | Normal a, Normal b => String.compare a b
  end.

Fixpoint path_le (p q : Path) : bool :=
  match p, q with
  | [], _ => true
  | _, [] => false
  | c :: p, d :: q =>
      match component_compare c d with Lt => true | Gt => false | Eq => path_le p q end
  end.

Definition path_before (p q : Path) : Prop := path_le p q = true.
#[export] Instance path_before_dec : RelDecision path_before.
Proof. intros p q. unfold path_before. apply _. Defined.

(** A [BTreeSet<PathBuf>] as a list. *)
Definition sorted_paths (s : gset Path) : list Path := merge_sort path_before (elements s).

(** [Path::with_extension]. *)
Definition with_extension (p : Path) (ext : string) : Path :=
  match file_stem p with
  | None => p
  | Some stem => (removelast p ++ [Normal (if String.eqb ext "" then stem else stem ++ "." ++ ext)])%list
  end.

Definition extension_text (p : Path) : option string := extension p ≫= to_str.

Definition library_extension (ext : string) : bool := one_of ext ["rlib"; "rmeta"].

Section Outputs.
Context `{Platform}.

Definition links_natively (i : RustcInvocation) : bool := is_native (link_output i).

Fixpoint pdb_enabled (arguments : list Argument) (enabled : bool) : bool :=
  match arguments with
  | [] => enabled
  | Plain value :: arguments =>
      if String.eqb value "-g" then pdb_enabled arguments true
      else match strip_prefix "--codegen=debuginfo=" value with
           | Some value => pdb_enabled arguments (negb (one_of value ["0"; "none"]))
           | None => pdb_enabled arguments enabled
           end
  | _ :: arguments => pdb_enabled arguments enabled
  end.

Definition emits_windows_pdb (i : RustcInvocation) : bool :=
  windows && links_natively i && pdb_enabled (arguments i) false.

(** The prefix and the extension of an emit's default file name; [None] is an
    emit that leaves nothing. *)
Definition default_name (i : RustcInvocation) (e : Emit) : option (string * string) :=
  if String.eqb (kind e) "link" then
    Some match link_output i with
         | Library => ("lib", "rlib")
         | WasmExecutable => ("", "wasm")
         | NativeExecutable => ("", EXE_EXTENSION)
         | NativeProcMacro | NativeSharedLibrary => (DLL_PREFIX, trim_start "." DLL_SUFFIX)
         end
  else if String.eqb (kind e) "metadata" then Some ("lib", "rmeta")
  else None.

Definition explicit_path (i : RustcInvocation) (working_dir : Path) : option Path :=
  (fun path => absolute_path path working_dir) <$> explicit_output i.

Definition output_directory (i : RustcInvocation) (working_dir : Path) : Path :=
  match explicit_path i working_dir ≫= parent with
  | Some directory => directory
  | None =>
      match out_dir i with
      | Some path => absolute_path path working_dir
      | None => normalize_components working_dir
      end
  end.

Definition has_library_extension (p : Path) : bool :=
  is_some_and library_extension (extension_text p) ||
  (windows && is_some_and library_extension
     (((fun stem => path_of stem) <$> file_stem p) ≫= extension_text)).

Definition dep_info_path (i : RustcInvocation) (working_dir : Path) (e : Emit) : Path :=
  match emit_path e with
  | Some path => absolute_path path working_dir
  | None =>
      match explicit_path i working_dir with
      | Some path => with_extension path "d"
      | None => push (output_directory i working_dir) (path_of (crate_name i ++ extra_filename i ++ ".d"))
      end
  end.

(** The file an emit other than dep-info is written to. *)
Definition emit_target (i : RustcInvocation) (working_dir : Path) (e : Emit) (prefix extension : string) : Path :=
  match emit_path e with
  | Some path => absolute_path path working_dir
  | None =>
      let name := prefix ++ crate_name i ++ extra_filename i in
      push (output_directory i working_dir)
        (path_of (if String.eqb extension "" then name else name ++ "." ++ extension))
  end.

(** What one emit other than dep-info leaves. *)
Definition emit_files (i : RustcInvocation) (working_dir : Path) (e : Emit) (prefix extension : string)
    : result BypassReason (list Path) :=
  let dir := output_directory i working_dir in
  let path := emit_target i working_dir e prefix extension in
  if is_none (file_name path) then Err (InvalidOutputPath path)
  else if negb (bool_decide (parent path = Some dir)) then Err SplitOutputDirectories
  else if String.eqb (kind e) "link" && negb (is_library (link_output i)) && has_library_extension path then
    Err (AmbiguousOutputName path)
  else Ok (if String.eqb (kind e) "link" && emits_windows_pdb i then [with_extension path "pdb"; path] else [path]).

Fixpoint collect_outputs (i : RustcInvocation) (working_dir : Path) (es : list Emit)
    (files : gset Path) (dep_info : option Path) : result BypassReason (gset Path * option Path) :=
  match es with
  | [] => Ok (files, dep_info)
  | e :: es =>
      if String.eqb (kind e) "dep-info" then
        let path := dep_info_path i working_dir e in
        if is_none (file_name path) then Err (InvalidOutputPath path)
        else collect_outputs i working_dir es files (Some path)
      else
        match default_name i e with
        | None => collect_outputs i working_dir es files dep_info
        | Some (prefix, extension) =>
            paths ← emit_files i working_dir e prefix extension;
            collect_outputs i working_dir es (files ∪ list_to_set paths) dep_info
        end
  end.

Definition outputs (i : RustcInvocation) (working_dir : Path) : result BypassReason RustcOutputs :=
  if negb (is_absolute working_dir) then Err (RelativeWorkingDirectory working_dir)
  else
    _ ← match explicit_path i working_dir with
        | Some output =>
            if existsb (fun e => is_none (emit_path e) && is_emit ["dep-info"; "link"; "metadata"] e) (emits i)
            then Err (ImplicitEmitWithOutputFile output) else Ok ()
        | None => Ok ()
        end;
    '(files, dep) ← collect_outputs i working_dir (emits i) ∅ None;
    dep_info ← ok_or NoDepInfo dep;
    if negb (bool_decide (parent dep_info = Some (output_directory i working_dir))) then
      Err SplitOutputDirectories
    else Ok (mkOutputs (output_directory i working_dir) (sorted_paths files) dep_info).

(** [RustcOutputs::is_executable]. *)
Definition is_executable (o : RustcOutputs) (p : Path) : bool :=
  bool_decide (p ∈ files o) && negb (is_some_and library_extension (extension_text p)).

Definition is_build_script_crate_name (name : string) : bool :=
  is_some_and (fun stem => negb (String.eqb stem "")) (strip_prefix "build_script_" name).

Definition build_script_executable (o : RustcOutputs) (name : string) : option Path :=
  if is_build_script_crate_name name then find (is_executable o) (files o) else None.

(** [RustcInvocation::portable_install_name]. *)
Definition portable_install_name (i : RustcInvocation) (o : RustcOutputs) : option string :=
  if negb macos || negb (bool_decide (link_output i = NativeProcMacro)) ||
     existsb (fun a => match a with InstallName _ => true | _ => false end) (arguments i)
  then None
  else
    file ← find (fun p => bool_decide (extension p = Some "dylib")) (files o);
    name ← file_name file;
    name ← to_str name;
    if safe_install_name name then Some ("-Clink-arg=-Wl,-install_name,@rpath/" ++ name) else None.

End Outputs.

Definition linker_override (i : RustcInvocation) : option Path :=
  find_map (fun a => value ← plain_value a; path_of <$> strip_prefix "--codegen=linker=" value) (arguments i).

Definition fuse_ld (i : RustcInvocation) : option string :=
  find_map (fun a => match a with FuseLd selection => Some selection | _ => None end) (arguments i).

Definition native_search_paths (i : RustcInvocation) : list Path :=
  omap (fun a => match a with
                 | SearchPath kind path => if String.eqb kind "native" then Some path else None
                 | _ => None end) (arguments i).

Definition remaps_working_directory (i : RustcInvocation) : bool :=
  existsb (fun a => match a with Plain flag => is_some (strip_prefix "-Zremap-cwd-prefix=" flag) | _ => false end)
    (arguments i).

Definition required_inputs_in (i : RustcInvocation) (working_dir : Path) : list Path :=
  map (fun path => absolute_path path working_dir) (required_inputs i).

(** ** The kept arguments say everything *)

(** What the parser's fields hold, apart from the arguments. *)
Record View := mkView {
  v_crate_types : list string;
  v_emits : list Emit;
  v_required : list Path;
  v_libraries : list string;
  v_test : bool;
  v_crate_name : option string;
  v_extra_filename : string;
  v_out_dir : option Path;
  v_explicit_output : option Path;
  v_target : option (string + Path);
}.

(** A target by its name, or a specification by its path. *)
Definition target_view (value : string) : string + Path :=
  if is_specification value then inr (path_of value) else inl value.

Definition view_of (p : Parser) : View :=
  mkView (p_crate_types p) (p_emits p) (p_required_inputs p) (p_native_libraries p) (p_test p)
    (p_crate_name p) (p_extra_filename p) (p_out_dir p) (p_explicit_output p) (target_view <$> p_target p).

Definition note_target (x : string + Path) (v : View) : View :=
  match v_target v with
  | Some _ => v
  | None =>
      let '(mkView ct em ri nl t cn ef od eo _) := v in
      mkView ct em (ri ++ match x with inr path => [path] | inl _ => [] end) nl t cn ef od eo (Some x)
  end.

(** What a kept flag says. *)
Definition note_plain (text : string) (v : View) : View :=
  let '(mkView ct em ri nl t cn ef od eo ta) := v in
  if String.eqb text "--test" then mkView ct em ri nl true cn ef od eo ta
  else match strip_prefix "--crate-name=" text with
  | Some name => mkView ct em ri nl t (Some name) ef od eo ta
  | None => match strip_prefix "--target=" text with
  | Some name => note_target (inl name) v
  | None => match strip_prefix "--crate-type=" text with
  | Some types => mkView (ct ++ split "," types) em ri nl t cn ef od eo ta
  | None => match strip_prefix "-l" text with
  | Some library => mkView ct em ri (nl ++ [library]) t cn ef od eo ta
  | None => match strip_prefix "--codegen=" text with
  | Some option =>
      if String.eqb (head_of_split "=" option) "extra-filename" then
        mkView ct em ri nl t cn (match split_once "=" option with Some (_, value) => value | None => "" end) od eo ta
      else v
  | None => v
  end end end end end.

Definition note_path (flag : string) (path : Path) (v : View) : View :=
  let '(mkView ct em ri nl t cn ef od eo ta) := v in
  if String.eqb flag "--out-dir" then mkView ct em ri nl t cn ef (Some path) eo ta
  else if String.eqb flag "-o" then mkView ct em ri nl t cn ef od (Some path) ta
  else if String.eqb flag "--target" then note_target (inr path) v
  else if String.eqb flag "-Cprofile-use" then mkView ct em (ri ++ [path]) nl t cn ef od eo ta
  else v.

(** What a kept argument says. *)
Definition note (v : View) (a : Argument) : View :=
  let '(mkView ct em ri nl t cn ef od eo ta) := v in
  match a with
  | Plain text => note_plain text v
  | PathArgument flag path => note_path flag path v
  | Extern _ (Some path) => mkView ct em (ri ++ [path]) nl t cn ef od eo ta
  | EmitArgument es => mkView ct (em ++ es) ri nl t cn ef od eo ta
  | _ => v
  end.

(** A handler adds arguments that say what it changed. *)
Definition adds (p p' : Parser) : Prop :=
  exists xs, p_parsed p' = (p_parsed p ++ xs)%list /\ view_of p' = fold_left note xs (view_of p) /\
    p_options p' = p_options p.

#[export] Instance adds_preorder : PreOrder adds.
Proof.
  split.
  - intros p. exists []. by rewrite app_nil_r.
  - intros p q r (xs & Hx & Hv & Ho) (ys & Hy & Hw & Hoo). exists (xs ++ ys)%list.
    rewrite Hy, Hx, Hw, Hv, fold_left_app, app_assoc. split; [done|]. split; [done|]. congruence.
Qed.

Lemma adds_none p p' :
  p_parsed p' = p_parsed p -> view_of p' = view_of p -> p_options p' = p_options p -> adds p p'.
Proof. intros Hp Hv Ho. exists []. by rewrite app_nil_r. Qed.

Lemma adds_one a p p' :
  p_parsed p' = (p_parsed p ++ [a])%list -> view_of p' = note (view_of p) a -> p_options p' = p_options p -> adds p p'.
Proof. intros Hp Hv Ho. by exists [a]. Qed.

Lemma adds_quiet a p : note (view_of p) a = view_of p -> adds p (push_parsed a p).
Proof. intros Hn. apply (adds_one a); destruct p; [done|symmetry; exact Hn|done]. Qed.

Definition keeps {A} (m : Parse A) : Prop := forall p a p', m p = Ok (a, p') -> adds p p'.

Lemma keeps_fail {A} e : keeps (@fail A e).
Proof. by intros p a p'. Qed.

Lemma keeps_ret {A} (a : A) : keeps (mret a).
Proof. intros p b p' [= -> ->]. reflexivity. Qed.

Lemma keeps_bind {A B} (m : Parse A) (f : A -> Parse B) : keeps m -> (forall a, keeps (f a)) -> keeps (m ≫= f).
Proof.
  intros Hm Hf p b p' H. unfold mbind, Parse_bind in H. destruct (m p) as [[a q]|] eqn:E; [|done].
  transitivity q; [by eapply Hm|by eapply Hf].
Qed.

Lemma keeps_modify f : (forall p, adds p (f p)) -> keeps (modify f).
Proof. intros Hf p a p' [= <- <-]. apply Hf. Qed.

Lemma keeps_two f g : (forall p, adds p (g (f p))) -> keeps (_ ← modify f; modify g).
Proof. intros Hf p a p' [= <- <-]. apply Hf. Qed.

Lemma keeps_get {B} (f : Parser -> Parse B) : (forall q p a p', f q p = Ok (a, p') -> q = p -> adds p p') -> keeps (p ← get; f p).
Proof. intros Hf p b p' H. exact (Hf p p b p' H eq_refl). Qed.

Lemma adds_advance p : adds p (advance p).
Proof. apply adds_none; by destruct p. Qed.

Lemma keeps_current : keeps current.
Proof.
  intros p a p' H. unfold current in H. destruct (p_arguments p); [done|].
  destruct (to_str _); [|done]. simpl in H. injection H as _ ->. reflexivity.
Qed.

Lemma keeps_take_value flag inline : keeps (take_value flag inline).
Proof.
  unfold take_value. destruct inline as [v|].
  - destruct (String.eqb v ""); [apply keeps_fail|apply keeps_ret].
  - apply keeps_get. intros q p a p' H ->. destruct (p_arguments p); [done|]. revert H. clear. revert p a p'.
    apply keeps_bind; [apply keeps_current|]. intros v. apply keeps_bind; [|intros; apply keeps_ret].
    apply keeps_modify. apply adds_advance.
Qed.

Lemma keeps_get_any {B} (f : Parser -> Parse B) : (forall q, keeps (f q)) -> keeps (p ← get; f p).
Proof. intros Hf. apply keeps_get. intros q p b p' H _. by eapply Hf. Qed.

(** A kept argument that says nothing more. *)
Definition quiet (a : Argument) : Prop := forall v, note v a = v.

Lemma keeps_quiet a : quiet a -> keeps (modify (push_parsed a)).
Proof. intros Ha. apply keeps_modify. intros p. apply adds_quiet, Ha. Qed.

(** A setter with the argument that says it. *)
Ltac says p a := apply (adds_one a); destruct p; reflexivity.

Lemma one_of_In s l : one_of s l = true -> In s l.
Proof. intros (x & Hx & <-%String.eqb_eq)%existsb_exists. done. Qed.

(** Case analysis on which of a list of texts a flag is. *)
Ltac which_of H :=
  apply one_of_In in H; simpl in H;
  repeat (destruct H as [<-|H]; [|]); [..|destruct H].

Lemma note_codegen value p :
  note (view_of p) (Plain ("--codegen=" ++ value)) =
  if String.eqb (head_of_split "=" value) "extra-filename" then
    view_of (set_extra_filename match split_once "=" value with Some (_, value) => value | None => "" end p)
  else view_of p.
Proof. destruct p. reflexivity. Qed.

Lemma keeps_codegen value : keeps (parse_codegen value).
Proof.
  unfold parse_codegen. destruct (String.eqb (head_of_split "=" value) "incremental"); [apply keeps_fail|].
  destruct (String.eqb (head_of_split "=" value) "profile-use").
  { destruct (split_once "=" value) as [[n profile]|]; [|apply keeps_fail].
    destruct (String.eqb profile ""); [apply keeps_fail|]. apply keeps_two. intros p.
    says p (PathArgument "-Cprofile-use" (path_of profile)). }
  destruct (_ && _); [apply keeps_fail|]. destruct (lto_plugin _ _); [apply keeps_fail|].
  apply keeps_get_any. intros q. destruct (fuse_selection q _ value) as [selection|].
  { destruct (existsb _ _); [apply keeps_ret|]. by apply keeps_quiet; intros []. }
  destruct (install_name _ value); [by apply keeps_quiet; intros []|].
  destruct (oso_prefix _ value); [by apply keeps_quiet; intros []|].
  intros p a p' H. apply (adds_one (Plain ("--codegen=" ++ value))); rewrite ?note_codegen;
    unfold mbind, Parse_bind, modify, mret, Parse_ret in H;
    destruct (String.eqb (head_of_split "=" value) "extra-filename"); injection H as _ <-; by destruct p.
Qed.

Lemma keeps_unstable option : keeps (parse_unstable option).
Proof.
  assert (Hk : keeps (keep_unstable option)) by (apply keeps_quiet; by intros []).
  unfold parse_unstable. repeat case_match; try apply keeps_fail; try exact Hk.
  apply keeps_bind; [|intros; exact Hk]. apply keeps_modify. intros p. apply adds_none; by destruct p.
Qed.

Lemma keeps_take_plain flag inline :
  (forall v, quiet (Plain (flag ++ "=" ++ v))) ->
  keeps (value ← take_value flag inline; plain_flag flag value).
Proof. intros Hq. apply keeps_bind; [apply keeps_take_value|]. intros v. apply keeps_quiet, Hq. Qed.

Lemma keeps_target flag inline :
  flag = "--target" ->
  keeps (value ← take_value flag inline;
         p ← get;
         let effective := is_none (p_target p) in
         _ ← (if effective then modify (set_target value) else mret ());
         if is_specification value then
           let path := path_of value in
           _ ← (if effective then modify (push_required path) else mret ());
           modify (push_parsed (PathArgument flag path))
         else plain_flag flag value).
Proof.
  intros ->. apply keeps_bind; [apply keeps_take_value|]. intros v. apply keeps_get.
  intros q p a p' H ->. cbv zeta in H. unfold mbind, Parse_bind, modify, mret, Parse_ret, plain_flag in H.
  destruct (is_specification v) eqn:Hs.
  - apply (adds_one (PathArgument "--target" (path_of v)));
      destruct p as [? ? ? ? ? ? ? ? ? ? ? ? ? [t|] ? ?]; simpl in H; injection H as _ <-; try done.
    unfold view_of, note, note_path, note_target, target_view; simpl; by rewrite Hs.
  - apply (adds_one (Plain ("--target=" ++ v)));
      destruct p as [? ? ? ? ? ? ? ? ? ? ? ? ? [t|] ? ?]; simpl in H; injection H as _ <-; try done.
    unfold view_of, note, note_plain, note_target, target_view; simpl. by rewrite Hs, app_nil_r.
Qed.

Lemma keeps_long value : keeps (parse_long value).
Proof.
  unfold parse_long. destruct (match split_once "=" value with Some _ => _ | None => _ end) as [flag inline].
  cbv zeta. destruct (one_of flag ["help"; _; _; _]); [apply keeps_fail|].
  destruct (String.eqb_spec flag "test") as [->|_].
  { apply keeps_two. intros p. says p (Plain "--test"). }
  destruct (String.eqb_spec flag "verbose") as [->|_]; [apply keeps_quiet; by intros []|].
  destruct (String.eqb_spec flag "crate-name") as [->|_].
  { apply keeps_bind; [apply keeps_take_value|]. intros v. apply keeps_two. intros p.
    says p (Plain ("--crate-name" ++ "=" ++ v)). }
  destruct (one_of flag _) eqn:Hf; [which_of Hf; apply keeps_take_plain; by intros v []|].
  destruct (String.eqb_spec flag "target") as [->|_]; [by apply keeps_target|].
  destruct (String.eqb_spec flag "crate-type") as [->|_].
  { apply keeps_bind; [apply keeps_take_value|]. intros v. apply keeps_two. intros p.
    says p (Plain ("--crate-type" ++ "=" ++ v)). }
  destruct (String.eqb_spec flag "emit") as [->|_].
  { apply keeps_bind; [apply keeps_take_value|]. intros v. apply keeps_two. intros p.
    says p (EmitArgument (parse_emits v)). }
  destruct (String.eqb_spec flag "out-dir") as [->|_].
  { apply keeps_bind; [apply keeps_take_value|]. intros v. apply keeps_two. intros p.
    says p (PathArgument "--out-dir" (path_of v)). }
  destruct (String.eqb_spec flag "sysroot") as [->|_].
  { apply keeps_bind; [apply keeps_take_value|]. intros v. apply keeps_quiet. by intros []. }
  destruct (String.eqb_spec flag "extern") as [->|_].
  { apply keeps_bind; [apply keeps_take_value|]. intros v.
    destruct (match split_once "=" v with Some _ => _ | None => _ end) as [name [path|]].
    - apply keeps_two. intros p. says p (Extern name (Some path)).
    - apply keeps_bind; [apply keeps_ret|]. intros _. apply keeps_quiet. by intros []. }
  destruct (String.eqb_spec flag "remap-path-prefix") as [->|_].
  { apply keeps_bind; [apply keeps_take_value|]. intros v.
    destruct (split_once "=" v) as [[from to]|]; [apply keeps_quiet; by intros []|apply keeps_fail]. }
  destruct (String.eqb_spec flag "codegen") as [->|_].
  { apply keeps_bind; [apply keeps_take_value|]. apply keeps_codegen. }
  destruct (String.eqb_spec flag "jobs-frontend") as [->|_]; [apply keeps_take_plain; by intros v []|].
  apply keeps_fail.
Qed.

Lemma find_map_Some {A B} (f : A -> option B) l y : find_map f l = Some y -> exists x, In x l /\ f x = Some y.
Proof.
  induction l as [|x l IH]; [done|]. simpl. destruct (f x) eqn:E; [intros [= ->]; eauto|].
  intros H. destruct (IH H) as (x' & ? & ?). eauto.
Qed.

Lemma lint_flag_long value short long attached :
  lint_flag value = Some (short, long, attached) -> one_of long ["--allow"; "--warn"; "--deny"; "--forbid"] = true.
Proof.
  intros ([s l] & Hin & Hl)%find_map_Some. destruct (strip_prefix s value); [|done].
  injection Hl as <- <- _. simpl in Hin. repeat (destruct Hin as [[= <- <-]|Hin]; [done|]). done.
Qed.

Lemma keeps_short value : keeps (parse_short value).
Proof.
  unfold parse_short. destruct (strip_prefix "-Z" value) as [attached|].
  { apply keeps_bind; [apply keeps_take_value|apply keeps_unstable]. }
  destruct (one_of value ["-h"; _; _]); [apply keeps_fail|].
  destruct (one_of value ["-g"; _; _]) eqn:Hg; [which_of Hg; apply keeps_quiet; by intros []|].
  destruct (lint_flag value) as [[[short long] attached]|] eqn:Hl.
  { apply lint_flag_long in Hl. apply keeps_bind; [apply keeps_take_value|]. intros v.
    which_of Hl; apply keeps_quiet; by intros []. }
  destruct (strip_prefix "-C" value) as [attached|].
  { apply keeps_bind; [apply keeps_take_value|apply keeps_codegen]. }
  destruct (strip_prefix "-L" value) as [attached|].
  { apply keeps_bind; [apply keeps_take_value|]. intros v. unfold parse_search.
    destruct (match split_once "=" v with Some _ => _ | None => _ end) as [kind path].
    destruct (one_of kind _); [apply keeps_quiet; by intros []|apply keeps_fail]. }
  destruct (strip_prefix "-l" value) as [attached|].
  { apply keeps_bind; [apply keeps_take_value|]. intros v. apply keeps_two. intros p.
    says p (Plain ("-l" ++ v)). }
  destruct (strip_prefix "-o" value) as [attached|]; [|apply keeps_fail].
  apply keeps_bind; [apply keeps_take_value|]. intros v. apply keeps_two. intros p.
  says p (PathArgument "-o" (path_of v)).
Qed.

Lemma keeps_input value : keeps (parse_input value).
Proof.
  unfold parse_input. destruct (String.eqb value "-"); [apply keeps_fail|]. apply keeps_get_any. intros q.
  destruct (is_some _); [apply keeps_fail|]. apply keeps_modify. intros p. apply adds_none; by destruct p.
Qed.

Lemma keeps_one : keeps parse_one.
Proof.
  unfold parse_one. apply keeps_bind; [apply keeps_current|]. intros value.
  apply keeps_bind; [apply keeps_modify, adds_advance|]. intros _.
  destruct (strip_prefix "--" value); [apply keeps_long|].
  destruct (_ && _); [apply keeps_short|apply keeps_input].
Qed.

Lemma keeps_loop fuel : keeps (parse_loop fuel).
Proof.
  induction fuel as [|fuel IH]; [apply keeps_ret|]. cbn [parse_loop]. apply keeps_get_any. intros q.
  destruct (p_arguments q); [apply keeps_ret|]. apply keeps_bind; [apply keeps_one|]. intros _. apply IH.
Qed.

(** ** Widths decide nothing *)

Definition kept (parsed : list Argument) : list Argument :=
  List.filter (fun a => is_none (diagnostic_width a)) parsed.

Lemma kept_drop parsed : kept (drop_unobservable_diagnostic_width parsed) = kept parsed.
Proof.
  unfold drop_unobservable_diagnostic_width, kept. repeat case_match; try done.
  clear. induction parsed as [|a parsed IH]; [done|]. simpl.
  destruct (is_none (diagnostic_width a)) eqn:E; simpl; [by rewrite E, IH|exact IH].
Qed.

Lemma width_text a w : diagnostic_width a = Some w -> a = Plain ("--diagnostic-width=" ++ w).
Proof.
  unfold diagnostic_width. destruct a as [value| | | | | | | |]; try done.
  change (strip_prefix "--diagnostic-width=" value = Some w -> Plain value = Plain ("--diagnostic-width=" ++ w)).
  by intros ->%strip_prefix_inv.
Qed.

Lemma note_width v a w : diagnostic_width a = Some w -> note v a = v.
Proof. intros ->%width_text. by destruct v. Qed.

Lemma note_kept parsed v : fold_left note (kept parsed) v = fold_left note parsed v.
Proof.
  revert v. induction parsed as [|a parsed IH]; intros v; [done|]. simpl.
  destruct (diagnostic_width a) eqn:E; simpl; [by rewrite (note_width _ _ _ E)|done].
Qed.

(** What no width answers is asked of the kept arguments alone. *)
Lemma find_map_kept {B} (f : Argument -> option B) parsed :
  (forall w, f (Plain ("--diagnostic-width=" ++ w)) = None) -> find_map f (kept parsed) = find_map f parsed.
Proof.
  intros Hf. induction parsed as [|a parsed IH]; [done|]. simpl.
  destruct (diagnostic_width a) as [w|] eqn:E; simpl; [|by rewrite IH].
  rewrite (width_text _ _ E), Hf. exact IH.
Qed.

Lemma existsb_kept (f : Argument -> bool) parsed :
  (forall w, f (Plain ("--diagnostic-width=" ++ w)) = false) -> existsb f (kept parsed) = existsb f parsed.
Proof.
  intros Hf. induction parsed as [|a parsed IH]; [done|]. simpl.
  destruct (diagnostic_width a) as [w|] eqn:E; simpl; [|by rewrite IH].
  rewrite (width_text _ _ E), Hf. exact IH.
Qed.

Lemma flat_map_kept {B} (f : Argument -> list B) parsed :
  (forall w, f (Plain ("--diagnostic-width=" ++ w)) = []) -> flat_map f (kept parsed) = flat_map f parsed.
Proof.
  intros Hf. induction parsed as [|a parsed IH]; [done|]. simpl.
  destruct (diagnostic_width a) as [w|] eqn:E; simpl; [|by rewrite IH].
  rewrite (width_text _ _ E), Hf. exact IH.
Qed.

(** ** What the decisions read *)

Section Determined.
Context `{Platform} `{Disk}.

(** A target as the decisions see it: which specification file it is makes no
    difference to them. *)
Definition plain_target (value : string) : string := if is_specification value then "/" else value.

(** A parser with nothing left but what the decisions read. *)
Definition decided (p : Parser) : Parser :=
  let '(mkParser _ _ ps _ ct em _ nl t cn ef od eo ta _ o) := p in
  mkParser [] 0 (kept ps) None ct em [] nl t cn ef od eo (plain_target <$> ta) None o.

Lemma specification_wasm value : is_specification value = true -> compiler_bundled_wasm_target value = false.
Proof.
  intros Hs. destruct (compiler_bundled_wasm_target value) eqn:E; [|done].
  unfold compiler_bundled_wasm_target in E. which_of E; done.
Qed.

Lemma plain_target_wasm ta :
  is_some_and compiler_bundled_wasm_target (plain_target <$> ta) = is_some_and compiler_bundled_wasm_target ta.
Proof.
  destruct ta as [v|]; [|done].
  change (compiler_bundled_wasm_target (plain_target v) = compiler_bundled_wasm_target v).
  unfold plain_target. destruct (is_specification v) eqn:E; [|done].
  by rewrite (specification_wasm v).
Qed.

Lemma oso_decided p : oso_prefix_covers_outputs (decided p) = oso_prefix_covers_outputs p.
Proof.
  destruct p. unfold oso_prefix_covers_outputs. simpl. destruct (option_or _ _); [|done].
  by rewrite existsb_kept.
Qed.

Lemma find_map_ext {A B} (f g : A -> option B) l : (forall x, f x = g x) -> find_map f l = find_map g l.
Proof. intros Hf. induction l as [|x l IH]; [done|]. simpl. by rewrite Hf, IH. Qed.

Lemma portable_decided p : check_native_link_is_portable (decided p) = check_native_link_is_portable p.
Proof.
  unfold check_native_link_is_portable.
  assert (find_map (unportable (decided p)) (p_parsed (decided p)) = find_map (unportable p) (p_parsed p)) as ->; [|done].
  rewrite (find_map_ext _ (unportable p)).
  - destruct p. simpl. by rewrite find_map_kept.
  - intros a. unfold unportable. rewrite oso_decided. by destruct p.
Qed.

Lemma requested_decided p : requested_output (decided p) = requested_output p.
Proof.
  unfold requested_output. rewrite portable_decided.
  assert (links_a_native_artifact (decided p) = links_a_native_artifact p) as ->.
  { destruct p as [? ? ? ? ? ? ? ? ? ? ? ? ? [] ? ?]; done. }
  assert (Hw : is_some_and compiler_bundled_wasm_target (p_target (decided p)) =
    is_some_and compiler_bundled_wasm_target (p_target p)) by (destruct p; apply plain_target_wasm).
  rewrite Hw. destruct (is_some_and compiler_bundled_wasm_target (p_target p)) eqn:E.
  - assert (p_target (decided p) = p_target p) as ->.
    { destruct p as [? ? ? ? ? ? ? ? ? ? ? ? ? [v|] ? ?]; [|done]. simpl in *. unfold plain_target.
      destruct (is_specification v) eqn:Hs; [|done]. by rewrite (specification_wasm v) in E. }
    destruct p. simpl. by rewrite !existsb_kept.
  - by destruct p.
Qed.

Lemma classify_decided p : classify (decided p) = classify p.
Proof.
  unfold classify. rewrite requested_decided. destruct (requested_output p) as [output|]; [|done]. simpl.
  assert (first_link_argument (p_parsed (decided p)) output = first_link_argument (p_parsed p) output) as ->.
  { destruct p. unfold first_link_argument. simpl. by apply find_map_kept. }
  assert (p_emits (decided p) = p_emits p) as -> by (by destruct p).
  assert (p_parsed (decided p) = kept (p_parsed p)) as -> by (by destruct p).
  by rewrite !existsb_kept, !find_map_kept.
Qed.

Lemma archives_decided p output libraries :
  native_archives (decided p) output libraries = native_archives p output libraries.
Proof.
  induction libraries as [|l ls IH]; [done|]. cbn [native_archives]. rewrite IH. f_equal.
  unfold native_archive. assert (forall n v, find_native_static_library (decided p) n v = find_native_static_library p n v) as Hf.
  { intros n v. unfold find_native_static_library.
    assert (static_library_naming (decided p) = static_library_naming p) as ->.
    { destruct p as [? ? ? ? ? ? ? ? ? ? ? ? ? [t|] ? ?]; [|done]. unfold static_library_naming. simpl.
      unfold plain_target. by destruct (is_specification t) eqn:E; [rewrite ?E|rewrite E]. }
    destruct p. simpl. destruct (if v then _ else _); [|done]. simpl. by rewrite flat_map_kept. }
  repeat (case_match; try done); congruence.
Qed.

End Determined.

Section Invocation.
Context `{Platform} `{Disk}.

Definition empty_view : View := mkView [] [] [] [] false None "" None None None.

Definition named (cn : option string) (source : Path) : option string :=
  match cn with
  | Some name => Some name
  | None => (fun name => replace_char "-" "_" name) <$> (file_stem source ≫= to_str)
  end.

Lemma push_required_fold archives p :
  let p' := fold_left (fun p archive => push_required archive p) archives p in
  p_parsed p' = p_parsed p /\ p_required_inputs p' = (p_required_inputs p ++ archives)%list /\
  p_crate_name p' = p_crate_name p /\ p_extra_filename p' = p_extra_filename p /\
  p_out_dir p' = p_out_dir p /\ p_explicit_output p' = p_explicit_output p /\
  p_emits p' = p_emits p /\ p_target p' = p_target p.
Proof.
  revert p. induction archives as [|a archives IH]; intros p; [simpl; by rewrite app_nil_r|].
  cbn [fold_left]. destruct (IH (push_required a p)) as (H1 & H2 & H3). cbv zeta. rewrite H1, H2.
  destruct H3 as (-> & -> & -> & -> & -> & ->). destruct p. simpl. by rewrite <- app_assoc.
Qed.

(** The state a successful parse ends in, and what becomes of it. *)
Lemma parse_parts args options i :
  parse args options = Ok i ->
  exists p output archives,
    view_of p = fold_left note (p_parsed p) empty_view /\ p_options p = options /\
    classify p = Ok output /\ native_archives p output (p_native_libraries p) = Ok archives /\
    named (p_crate_name p) (source i) = Some (crate_name i) /\
    arguments i = drop_unobservable_diagnostic_width (p_parsed p) /\
    required_inputs i = (p_required_inputs p ++ archives ++ [source i])%list /\
    extra_filename i = p_extra_filename p /\ out_dir i = p_out_dir p /\
    explicit_output i = p_explicit_output p /\ emits i = p_emits p /\ target i = p_target p /\
    link_output i = output.
Proof.
  unfold parse. intros Hp.
  destruct (parse_loop _ _) as [[[] p]|] eqn:Hl; [|done]. cbn [mbind result_bind] in Hp.
  apply keeps_loop in Hl as (xs & Hx & Hv & Ho). simpl in Hx, Ho. subst xs.
  destruct (check_sysroot_backend p) as [[]|]; [|done]. cbn [mbind result_bind] in Hp.
  destruct (p_source p) as [s|]; [|done]. cbn [ok_or mbind result_bind] in Hp.
  destruct (classify p) as [output|] eqn:Hc; [|done]. unfold require_native_libraries in Hp.
  cbn [mbind result_bind] in Hp.
  destruct (native_archives p output (p_native_libraries p)) as [archives|] eqn:Ha; [|done].
  cbn [mbind result_bind] in Hp.
  destruct (push_required_fold archives p) as (H1 & H2 & H3 & H4 & H5 & H6 & H7 & H8).
  rewrite H1, H2, H3, H4, H5, H6, H7, H8 in Hp.
  assert (Hn : exists name, named (p_crate_name p) s = Some name /\
    @Ok BypassReason _ (mkInvocation (drop_unobservable_diagnostic_width (p_parsed p)) s
      ((p_required_inputs p ++ archives) ++ [s])%list name (p_extra_filename p) (p_out_dir p)
      (p_explicit_output p) (p_emits p) (p_target p) output) = Ok i).
  { unfold named. destruct (p_crate_name p); [by eexists|].
    destruct (file_stem s ≫= to_str); [by eexists|done]. }
  destruct Hn as (name & Hn & [= <-]). exists p, output, archives. simpl.
  rewrite <- app_assoc. repeat split; try done.
Qed.

Lemma target_view_plain v w : target_view v = target_view w -> plain_target v = plain_target w.
Proof. unfold target_view, plain_target. by repeat case_match; intros [=]; subst. Qed.

Lemma decided_equal p q :
  view_of p = view_of q -> kept (p_parsed p) = kept (p_parsed q) -> p_options p = p_options q -> decided p = decided q.
Proof.
  destruct p as [? ? ? ? ? ? ? ? ? ? ? ? ? ta ? ?], q as [? ? ? ? ? ? ? ? ? ? ? ? ? ta' ? ?].
  unfold view_of. simpl. intros [= -> -> -> -> -> -> -> -> -> Ht] -> ->. f_equal.
  destruct ta, ta'; simpl in *; try done. f_equal. apply target_view_plain. congruence.
Qed.

(** C7: The arguments an invocation keeps for its key say everything the parser
    found out but its source file, which is not among them.  Two command lines,
    however their flags are spelled and whatever response files or terminal
    widths they came with, that keep the same arguments have the same emits,
    output names, kind of link and target (a target specification by its path),
    require the same inputs besides their sources, and have one crate name when
    they have one source. *)
Theorem arguments_determine_invocation `{Shlex} args args' options i i' :
  parse_with args options = Ok i -> parse_with args' options = Ok i' -> arguments i = arguments i' ->
  (exists required, required_inputs i = (required ++ [source i])%list /\ required_inputs i' = (required ++ [source i'])%list) /\
  (source i = source i' -> crate_name i = crate_name i') /\
  extra_filename i = extra_filename i' /\ out_dir i = out_dir i' /\
  explicit_output i = explicit_output i' /\ emits i = emits i' /\
  target_view <$> target i = target_view <$> target i' /\ link_output i = link_output i'.
Proof.
  unfold parse_with. destruct (expand_response_files args) as [x|], (expand_response_files args') as [x'|]; try done.
  cbn [mbind result_bind].
  intros (p & o & ar & Hv & Ho & Hc & Har & Hn & Ha & Hr & He & Hd & Hx & Hm & Ht & Hl)%parse_parts
    (q & o' & ar' & Hv' & Ho' & Hc' & Har' & Hn' & Ha' & Hr' & He' & Hd' & Hx' & Hm' & Ht' & Hl')%parse_parts Hargs.
  assert (Hk : kept (p_parsed p) = kept (p_parsed q)).
  { rewrite <- (kept_drop (p_parsed p)), <- (kept_drop (p_parsed q)). congruence. }
  assert (Hview : view_of p = view_of q).
  { rewrite Hv, Hv', <- (note_kept (p_parsed p)), <- (note_kept (p_parsed q)). by rewrite Hk. }
  assert (Hdec : decided p = decided q) by (apply decided_equal; congruence).
  rewrite <- classify_decided in Hc, Hc'. rewrite <- archives_decided in Har, Har'.
  unfold view_of in Hview. injection Hview as V1 V2 V3 V4 V5 V6 V7 V8 V9 V10.
  assert (o = o') as -> by congruence. assert (ar = ar') as -> by congruence.
  rewrite Hr, Hr', He, He', Hd, Hd', Hx, Hx', Hm, Hm', Ht, Ht', Hl, Hl'.
  split; [exists (p_required_inputs q ++ ar')%list; rewrite V3; split; by rewrite app_assoc|].
  split; [intros Hs; rewrite V6, Hs in Hn; congruence|]. repeat split; congruence.
Qed.

End Invocation.

(** ** The loop ends *)

(** A handler reads at least so many arguments and puts none back. *)
Definition reads (k : nat) {A} (m : Parse A) : Prop :=
  forall p a p', m p = Ok (a, p') -> (k + length (p_arguments p') <= length (p_arguments p))%nat.

Lemma reads_bind {A B} (m : Parse A) (f : A -> Parse B) : reads 0 m -> (forall a, reads 0 (f a)) -> reads 0 (m ≫= f).
Proof.
  intros Hm Hf p b p' H. unfold mbind, Parse_bind in H. destruct (m p) as [[a q]|] eqn:E; [|done].
  apply Hm in E. apply Hf in H. simpl in *. lia.
Qed.

Lemma reads_fail {A} e : reads 0 (@fail A e).
Proof. by intros p a p'. Qed.
Lemma reads_ret {A} (a : A) : reads 0 (mret a).
Proof. intros p b p' [= _ ->]. simpl. lia. Qed.
Lemma reads_get : reads 0 get.
Proof. intros p b p' [= _ ->]. simpl. lia. Qed.
Lemma reads_modify f : (forall p, p_arguments (f p) = p_arguments p) -> reads 0 (modify f).
Proof. intros Hf p b p' [= _ <-]. rewrite Hf. simpl. lia. Qed.
Lemma reads_advance : reads 0 (modify advance).
Proof. intros p b q [= _ <-]. destruct p as [[|x l]]; simpl; auto. Qed.
Lemma reads_current : reads 0 current.
Proof.
  intros p a p' H. assert (p' = p) as ->; [|simpl; lia]. unfold current in H.
  destruct (p_arguments p); [done|]. destruct (to_str _); [|done]. simpl in H. by injection H as _ ->.
Qed.

Create HintDb reads discriminated.
#[local] Hint Resolve reads_fail reads_ret reads_get reads_advance reads_current : reads.
#[local] Hint Extern 1 (reads 0 (modify _)) => (apply reads_modify; by intros []) : reads.

Ltac read_all :=
  repeat first
    [ solve [eauto with reads]
    | apply reads_bind; [|intros ?]
    | match goal with |- reads _ (match ?x with _ => _ end) => destruct x end
    | progress cbv zeta ].

Lemma reads_take_value flag inline : reads 0 (take_value flag inline).
Proof. unfold take_value. read_all. Qed.
#[local] Hint Resolve reads_take_value : reads.

Lemma reads_codegen value : reads 0 (parse_codegen value).
Proof. unfold parse_codegen. read_all. Qed.
#[local] Hint Resolve reads_codegen : reads.

Lemma reads_long value : reads 0 (parse_long value).
Proof. unfold parse_long, plain_flag. read_all. Qed.

Lemma reads_short value : reads 0 (parse_short value).
Proof. unfold parse_short, parse_unstable, parse_search, keep_unstable, plain_flag. read_all. Qed.

Lemma reads_input value : reads 0 (parse_input value).
Proof. unfold parse_input. read_all. Qed.
#[local] Hint Resolve reads_long reads_short reads_input : reads.

Lemma reads_one : reads 1 parse_one.
Proof.
  intros p a p' H. unfold parse_one, mbind, Parse_bind in H.
  destruct (current p) as [[value q]|] eqn:E; [|done]. unfold modify in H.
  assert (Hq : q = p /\ p_arguments p <> []).
  { unfold current in E. destruct (p_arguments p); [done|]. destruct (to_str _); [|done].
    simpl in E. by injection E as _ ->. }
  destruct Hq as [-> Hne]. assert (Hl : length (p_arguments p) = S (length (p_arguments (advance p)))).
  { destruct p as [[] ]; simpl in *; [done|lia]. }
  match type of H with ?m (advance p) = _ => enough (reads 0 m) as Hr by (apply Hr in H; simpl in *; lia) end.
  read_all.
Qed.

(** The parser reads the whole command line. *)
Lemma parse_loop_reads_all fuel p u p' :
  (length (p_arguments p) <= fuel)%nat -> parse_loop fuel p = Ok (u, p') -> p_arguments p' = [].
Proof.
  revert p. induction fuel as [|fuel IH]; intros p Hf H.
  - injection H as _ <-. destruct (p_arguments p); [done|simpl in Hf; lia].
  - cbn [parse_loop] in H. unfold mbind, Parse_bind, get in H.
    destruct (p_arguments p) as [|a l] eqn:E; [by injection H as _ <-|].
    destruct (parse_one p) as [[[] q]|] eqn:Ho; [|done]. apply reads_one in Ho.
    apply (IH q); [|done]. rewrite E in Ho. simpl in *. lia.
Qed.

(** ** Where outputs lie *)

Section OutputLemmas.
Context `{Platform}.

Lemma file_name_last p n : file_name p = Some n -> exists q, p = (q ++ [Normal n])%list.
Proof.
  unfold file_name. destruct p as [|c p _] using rev_ind; [done|]. rewrite last_snoc.
  destruct c; try done. intros [= ->]. eauto.
Qed.

Lemma parent_with_extension p n ext : file_name p = Some n -> parent (with_extension p ext) = parent p.
Proof.
  intros (q & ->)%file_name_last. unfold with_extension, file_stem. rewrite file_name_app. simpl.
  destruct (at_dot n) as [[stem|] e] eqn:E; simpl; [|done]. by rewrite removelast_last, !parent_app.
Qed.

Lemma emit_files_spec i working_dir e prefix ext paths :
  emit_files i working_dir e prefix ext = Ok paths ->
  In (emit_target i working_dir e prefix ext) paths /\
  (forall p, In p paths -> parent p = Some (output_directory i working_dir)) /\
  (kind e = "link" -> link_output i <> Library ->
   is_some_and library_extension (extension_text (emit_target i working_dir e prefix ext)) = false).
Proof.
  unfold emit_files. intros Hp. destruct (file_name _) as [n|] eqn:Hn; [|done]. simpl in Hp.
  case_bool_decide as Hd; [|done]. simpl in Hp.
  destruct (String.eqb (kind e) "link" && negb (is_library (link_output i)) && _) eqn:Ha; [done|].
  injection Hp as <-. split; [|split].
  - destruct (_ && emits_windows_pdb i); simpl; auto.
  - intros p. destruct (_ && emits_windows_pdb i); simpl.
    + intros [<-|[<-|[]]]; [|done]. by rewrite (parent_with_extension _ n).
    + by intros [<-|[]].
  - intros Hk Hl. rewrite Hk in Ha. destruct (link_output i); [done|..]; simpl in Ha;
      by apply orb_false_elim in Ha as [Ha _].
Qed.

Lemma collect_outputs_spec i working_dir es files dep files' dep' :
  collect_outputs i working_dir es files dep = Ok (files', dep') ->
  files ⊆ files' /\
  (forall p, p ∈ files' -> p ∈ files \/ parent p = Some (output_directory i working_dir)) /\
  (forall e prefix ext, In e es -> kind e <> "dep-info" -> default_name i e = Some (prefix, ext) ->
    exists paths, emit_files i working_dir e prefix ext = Ok paths /\ list_to_set paths ⊆ files').
Proof.
  revert files dep. induction es as [|e es IH]; intros files dep He.
  - injection He as -> ->. split; [done|]. split; [auto|]. by intros.
  - cbn [collect_outputs] in He. destruct (String.eqb_spec (kind e) "dep-info") as [Hk|Hk].
    { destruct (is_none _); [done|]. apply IH in He as (H1 & H2 & H3). split; [done|]. split; [done|].
      intros e' prefix ext [<-|Hin] Hd; [done|by apply H3]. }
    destruct (default_name i e) as [[prefix ext]|] eqn:Hdn.
    + destruct (emit_files _ _ _ _ _) as [paths|] eqn:Hf; [|done]. cbn [mbind result_bind] in He.
      apply IH in He as (H1 & H2 & H3). split; [set_solver|]. split.
      * intros p Hp. destruct (H2 p Hp) as [Hu|Hu]; [|by right].
        apply elem_of_union in Hu as [Hu|Hu%elem_of_list_to_set]; [by left|]. right.
        apply emit_files_spec in Hf as (_ & Hf & _). by apply Hf, list_elem_of_In.
      * intros e' prefix' ext' [<-|Hin] Hd Hn; [|by apply H3]. rewrite Hdn in Hn. injection Hn as <- <-.
        exists paths. split; [done|]. set_solver.
    + apply IH in He as (H1 & H2 & H3). split; [done|]. split; [done|].
      intros e' prefix ext [<-|Hin] Hd Hn; [congruence|by apply H3].
Qed.

Lemma elem_of_sorted_paths p s : p ∈ sorted_paths s <-> p ∈ s.
Proof. unfold sorted_paths. by rewrite merge_sort_Permutation, elem_of_elements. Qed.

Lemma outputs_parts i working_dir o :
  outputs i working_dir = Ok o ->
  directory o = output_directory i working_dir /\ parent (dep_info o) = Some (directory o) /\
  exists fs dep, collect_outputs i working_dir (emits i) ∅ None = Ok (fs, dep) /\ files o = sorted_paths fs.
Proof.
  unfold outputs. intros Ho. destruct (is_absolute working_dir); [|done]. simpl in Ho.
  match type of Ho with context [match explicit_path ?i ?w with _ => _ end] => destruct (explicit_path i w) as [x|] end;
    [destruct (existsb _ _); [done|]|]; cbn [mbind result_bind] in Ho;
    (destruct (collect_outputs _ _ _ _ _) as [[fs dep]|] eqn:Hc; [|done]; cbn [mbind result_bind] in Ho;
     destruct dep as [d|]; [|done]; cbn [ok_or mbind result_bind] in Ho; case_bool_decide as Hd; [|done];
     injection Ho as <-; split; [done|]; split; [done|]; eauto).
Qed.

Lemma library_name_extension i working_dir e ext :
  emit_path e = None -> without "/" (crate_name i ++ extra_filename i) = true ->
  one_of ext ["rlib"; "rmeta"] = true ->
  extension_text (emit_target i working_dir e "lib" ext) = Some ext.
Proof.
  intros He Hw Hx. unfold emit_target. rewrite He. set (n := crate_name i ++ extra_filename i) in *.
  assert (Hg : good_name (("lib" ++ n) ++ "." ++ ext) = true).
  { unfold good_name. assert (without "/" (("lib" ++ n) ++ "." ++ ext) = true) as ->.
    { unfold without in *. rewrite !all_chars_app. rewrite Hw. by which_of Hx. }
    by rewrite app_assoc_string. }
  assert (String.eqb ext "" = false) as -> by (by which_of Hx).
  rewrite path_of_good_name by done. unfold extension_text, extension.
  assert (Hf : forall d m, file_name (push d [Normal m]) = Some m).
  { intros [|c d] m; [done|]. by rewrite push_normal, file_name_app. }
  rewrite Hf. cbn [mbind option_bind]. change ("." ++ ext) with (String "." ext).
  rewrite at_dot_app; [by which_of Hx|by destruct n|by which_of Hx|by which_of Hx].
Qed.

(** The outputs of an invocation can be restored as one directory: every
    file and the dep-info lie directly in it; each linked program is among the
    files and is restored executable; and no library or metadata file that rustc
    names itself is. *)
Lemma outputs_lie_together i working_dir o :
  outputs i working_dir = Ok o ->
  parent (dep_info o) = Some (directory o) /\
  (forall p, p ∈ files o -> parent p = Some (directory o)) /\
  (forall e prefix ext, In e (emits i) -> kind e = "link" -> link_output i <> Library ->
    default_name i e = Some (prefix, ext) -> is_executable o (emit_target i working_dir e prefix ext) = true) /\
  (forall e prefix ext, In e (emits i) -> emit_path e = None ->
    kind e = "metadata" \/ kind e = "link" /\ link_output i = Library ->
    without "/" (crate_name i ++ extra_filename i) = true ->
    default_name i e = Some (prefix, ext) ->
    emit_target i working_dir e prefix ext ∈ files o /\
    is_executable o (emit_target i working_dir e prefix ext) = false).
Proof.
  intros (Hdir & Hdep & fs & dep & Hc & Hf)%outputs_parts. apply collect_outputs_spec in Hc as (_ & Hp & He).
  split; [done|]. split; [|split].
  - intros p. rewrite Hf, elem_of_sorted_paths, Hdir. intros Hin. by destruct (Hp p Hin) as [?%elem_of_empty|].
  - intros e prefix ext Hin Hk Hl Hd. destruct (He e prefix ext Hin ltac:(by rewrite Hk) Hd) as (paths & Hpaths & Hs).
    apply emit_files_spec in Hpaths as (Hi & _ & Hx). unfold is_executable. rewrite Hx by done.
    rewrite bool_decide_true; [done|]. rewrite Hf, elem_of_sorted_paths. by apply Hs, elem_of_list_to_set, list_elem_of_In.
  - intros e prefix ext Hin Hnone Hk Hw Hd.
    assert (Hnd : kind e <> "dep-info") by (by destruct Hk as [->|[-> _]]).
    destruct (He e prefix ext Hin Hnd Hd) as (paths & Hpaths & Hs).
    apply emit_files_spec in Hpaths as (Hi & _ & _).
    split; [rewrite Hf, elem_of_sorted_paths; by apply Hs, elem_of_list_to_set, list_elem_of_In|].
    assert (Hx : prefix = "lib" /\ one_of ext ["rlib"; "rmeta"] = true).
    { unfold default_name in Hd. destruct Hk as [Hk|[Hk Hl]]; rewrite Hk in Hd; [|rewrite Hl in Hd];
        by injection Hd as <- <-. }
    destruct Hx as [-> Hx]. unfold is_executable. rewrite (library_name_extension i working_dir e ext) by done.
    simpl. unfold library_extension. by rewrite Hx, andb_false_r.
Qed.

End OutputLemmas.

(** ** A compilation *)

Module RustcDemo.

#[export] Instance platform : Platform := {|
  windows := false; macos := false; linux := true; msvc := false; uefi := false;
  EXE_EXTENSION := ""; DLL_PREFIX := "lib"; DLL_SUFFIX := ".so" |}.

(** The workspace of [PathDemo] with a native archive in it. *)
Definition tree : Tree := mkTree
  (map path_of ["/home"; "/home/me"; "/home/me/src"; "/home/me/src/lib.rs"; "/home/me/native";
                "/home/me/native/libz.a"; "/home/me/libdep.rlib"; "/opt"; "/opt/rust"])
  [(path_of "/work", path_of "/home/me")]
  [("/work/native/libz.a", "!<arch>"); ("/work/src/lib.rs", ""); ("args", "--crate-type=lib
--emit=dep-info,metadata,link")].

#[export] Instance disk : Disk := tree_disk tree.
#[export] Instance laws : DiskLaws := tree_laws tree eq_refl.
#[export] Instance words : Shlex := fun _ => None.

Definition options : ParseOptions := mkOptions true false.

(** One compilation, spelled as Cargo does on a terminal and by hand. *)
Definition on_terminal : list string :=
  ["--crate-name"; "demo"; "/work/src/lib.rs"; "--crate-type"; "lib"; "--emit=dep-info,metadata,link";
   "--diagnostic-width=80"; "-C"; "opt-level=3"; "-C"; "extra-filename=-1f"; "--out-dir"; "/work/target";
   "-L"; "native=/work/native"; "-l"; "static=z"; "--extern"; "dep=/work/libdep.rlib"].
Definition by_hand : list string :=
  ["--crate-name=demo"; "--crate-type=lib"; "--emit"; "dep-info,metadata,link"; "-Copt-level=3";
   "--codegen=extra-filename=-1f"; "--out-dir=/work/./target"; "-Lnative=/work/native"; "-lstatic=z";
   "--extern=dep=/work//libdep.rlib"; "/work/src/lib.rs"].

Definition parsed (args : list string) : RustcInvocation :=
  match parse args options with
  | Ok i => i
  | Err _ => mkInvocation [] [] [] "" "" None None [] None Library
  end.

(** The kinds and emits in a response file, another root. *)
Definition from_file : list string :=
  ["--crate-name=demo"; "@args"; "-Copt-level=3"; "--codegen=extra-filename=-1f"; "--out-dir=/work/./target";
   "-Lnative=/work/native"; "-lstatic=z"; "--extern=dep=/work//libdep.rlib"; "/work/src/main.rs"].
Definition read (args : list string) : RustcInvocation :=
  match parse_with args options with
  | Ok i => i
  | Err _ => mkInvocation [] [] [] "" "" None None [] None Library
  end.

Lemma arguments_determine_invocation_witness :
  required_inputs (read on_terminal) = map path_of ["/work/libdep.rlib"; "/work/native/libz.a"; "/work/src/lib.rs"] /\
  source (read from_file) = path_of "/work/src/main.rs" /\
  out_dir (read on_terminal) = out_dir (read from_file) /\ emits (read on_terminal) = emits (read from_file) /\
  link_output (read on_terminal) = link_output (read from_file).
Proof.
  split; [vm_compute; reflexivity|]. split; [vm_compute; reflexivity|].
  destruct (arguments_determine_invocation on_terminal from_file options (read on_terminal) (read from_file))
    as (_ & _ & _ & Ho & _ & He & _ & Hl); [vm_compute; reflexivity..|]. by split_and!.
Defined.

Definition proc_macro : RustcInvocation :=
  parsed ["--crate-name=macros"; "src/lib.rs"; "--crate-type=proc-macro"; "--emit=dep-info,link"; "--out-dir=target"].

Definition proc_macro_outputs : RustcOutputs :=
  mkOutputs (path_of "/work/target") [path_of "/work/target/libmacros.so"] (path_of "/work/target/macros.d").

Lemma outputs_lie_together_witness :
  is_executable proc_macro_outputs (path_of "/work/target/libmacros.so") = true.
Proof.
  destruct (outputs_lie_together proc_macro (path_of "/work") proc_macro_outputs) as (_ & _ & Hx & _);
    [vm_compute; reflexivity|].
  exact (Hx (mkEmit "link" None) "lib" "so" ltac:(vm_compute; auto) eq_refl ltac:(vm_compute; discriminate) eq_refl).
Defined.

Example response_files_are_expanded :
  expand_response_files ["@args"; "--test"] = Ok ["--crate-type=lib"; "--emit=dep-info,metadata,link"; "--test"].
Proof. vm_compute. reflexivity. Qed.

End RustcDemo.
