(* ===== verification/SubsetSum.v ===== *)
(** * The safe-passing test of the scheduler queue

    Models [pass_quantized] and [add_subset_weight] of
    [src/crates/mbx/src/scheduler.rs]: a younger request may pass older waiters
    only when, whichever subset of the running work finishes first, every
    prefix of the older queue that would then fit still fits beside the
    request.  The source answers this with a bitset of reachable completion
    sums over quantised charges; this file proves that answer sound for every
    quantum and exact for quantum one. *)

From stdpp Require Import base list sorting.
From Stdlib Require Import ZArith Lia.
From S2P Require Import Prelude.
Local Open Scope Z_scope.

(** ** The bitset *)

(** [sums[index]]; every index of the source is in range. *)
Definition word_at (sums : list Z) (index : nat) : Z := default 0 (sums !! index).

(** The value or-ed into [sums[index]] by one iteration of [add_subset_weight]. *)
Definition shifted_word (sums : list Z) (words : nat) (shift : Z) (index : nat) : Z :=
  let shifted := shl64 (word_at sums (index - words)) shift in
  if negb (shift =? 0) && (words <? index)%nat
  then Z.lor shifted (Z.shiftr (word_at sums (index - words - 1)) (64 - shift))
  else shifted.

(** [for index in (words..sums.len()).rev()]: [n] indices are left, the next
    one is [words + n - 1].  The update is in place, as in the source. *)
Fixpoint add_loop (words : nat) (shift : Z) (n : nat) (sums : list Z) : list Z :=
  match n with
  | O => sums
  | S n' =>
      let index := (words + n')%nat in
      add_loop words shift n'
        (<[index := Z.lor (word_at sums index) (shifted_word sums words shift index)]> sums)
  end.

Definition add_subset_weight (sums : list Z) (weight : Z) : list Z :=
  let words := Z.to_nat (weight / 64) in
  let shift := weight mod 64 in
  add_loop words shift (length sums - words) sums.

(** [u64::trailing_zeros]. *)
Fixpoint pos_trailing_zeros (p : positive) : Z :=
  match p with xO p => 1 + pos_trailing_zeros p | _ => 0 end.

Definition trailing_zeros (x : Z) : Z :=
  match x with Zpos p => pos_trailing_zeros p | _ => 64 end.

(** [(first_word..sums.len()).find_map(..)]: [n] words are left to inspect. *)
Fixpoint find_sum (sums : list Z) (first_word : nat) (q : Z) (index n : nat) : option Z :=
  match n with
  | O => None
  | S n' =>
      let bits :=
        if (index =? first_word)%nat
        then Z.land (word_at sums index) (shl64 u64_max (q mod 64))
        else word_at sums index in
      if negb (bits =? 0)
      then Some (Z.of_nat index * 64 + trailing_zeros bits)
      else find_sum sums first_word q (S index) n'
  end.

(** The smallest recorded sum that is at least [q].  A start past the end is
    an empty range, so the start is cut at the length before it becomes a
    list index. *)
Definition min_sum_from (sums : list Z) (q : Z) : option Z :=
  let first_word := Z.to_nat (Z.min (q / 64) (Z.of_nat (length sums))) in
  find_sum sums first_word q first_word (length sums - first_word).

(** ** [pass_quantized] *)

Definition MAX_BITS : Z := 65536.

(** [try_fold] of the rounded-up charges, refused at [MAX_BITS]. *)
Fixpoint quantized_total (unit sum : Z) (ws : list Z) : option Z :=
  match ws with
  | [] => Some sum
  | w :: ws =>
      match option_filter (fun sum => sum <? MAX_BITS) (checked_add sum (div_ceil w unit)) with
      | Some sum => quantized_total unit sum ws
      | None => None
      end
  end.

(** [try_fold] of the exact charges. *)
Fixpoint checked_total (sum : Z) (ws : list Z) : option Z :=
  match ws with
  | [] => Some sum
  | w :: ws =>
      match checked_add sum w with
      | Some sum => checked_total sum ws
      | None => None
      end
  end.

(** The slack of one older prefix: what may be added without delaying it.
    [count] is the number of items the bitset covers. *)
Definition prefix_slack (sums : list Z) (count free unit prefix : Z) : option Z :=
  if prefix <=? free then Some (free - prefix)
  else
    let threshold := prefix - free in
    sum ← min_sum_from sums (div_ceil threshold unit);
    error ← checked_mul count (unit - 1);
    scaled ← checked_mul sum unit;
    lower ← checked_sub scaled error;
    checked_sub lower threshold.

(** The loop over the older waiters.  The second component is the log of
    [record(index, slack)] calls, in call order. *)
Fixpoint older_loop (live_len : nat) (free charge unit : Z)
    (index : nat) (prefix : Z) (sums : list Z) (older : list Z) : bool * list (nat * Z) :=
  match older with
  | [] => (true, [])
  | h :: older =>
      match checked_add prefix h with
      | None => (false, [])
      | Some prefix =>
          match prefix_slack sums (Z.of_nat (live_len + index)) free unit prefix with
          | None => (false, [])
          | Some slack =>
              if slack <? charge then (false, [(index, slack)])
              else
                let '(ok, log) :=
                  older_loop live_len free charge unit (S index) prefix
                    (add_subset_weight sums (div_ceil h unit)) older in
                (ok, (index, slack) :: log)
          end
      end
  end.

Definition initial_sums (total : Z) : list Z :=
  <[0%nat := 1]> (replicate (Z.to_nat (div_ceil (total + 1) 64)) 0).

(** The completion sums of the running items. *)
Definition live_sums (total unit : Z) (live : list Z) : list Z :=
  foldl (fun sums w => add_subset_weight sums (div_ceil w unit)) (initial_sums total) live.

Definition pass_quantized (capacity : Z) (live older : list Z) (charge unit : Z)
    : bool * list (nat * Z) :=
  match older with
  | [] => (true, [])
  | _ =>
      match quantized_total unit 0 (live ++ older) with
      | None => (false, [])
      | Some total =>
          match checked_total 0 live with
          | None => (false, [])
          | Some used =>
              match checked_sub capacity used with
              | None => (false, [])
              | Some free =>
                  if free <? charge then (false, [])
                  else
                    older_loop (length live) free charge unit 0 0
                      (live_sums total unit live) older
              end
          end
      end
  end.

(** The answer alone, which is what every caller decides on. *)
Definition passes (capacity : Z) (live older : list Z) (charge unit : Z) : bool :=
  (pass_quantized capacity live older charge unit).1.

(** ** Reference definitions *)

(** [k] is the total of some set of items of [l]. *)
Definition subset_sum (l : list Z) (k : Z) : Prop :=
  exists s, sublist s l /\ sumZ s = k.

(** The bit of the bitset that stands for the sum [k]. *)
Definition bit (sums : list Z) (k : Z) : bool :=
  Z.testbit (word_at sums (Z.to_nat (k / 64))) (k mod 64).

(** The bitset records exactly the subset sums of [l] below its size. *)
Definition represents (sums : list Z) (l : list Z) : Prop :=
  forall k, 0 <= k < 64 * Z.of_nat (length sums) -> bit sums k = true <-> subset_sum l k.

(** Admitting [charge] now delays no prefix of [older]: take any prefix and
    any set of running items and earlier waiters whose completion makes room
    for the prefix; then there is room for the prefix and [charge] together. *)
Definition never_delays (capacity : Z) (live older : list Z) (charge : Z) : Prop :=
  forall before h after completed,
    older = before ++ h :: after ->
    sublist completed (live ++ before) ->
    sumZ (before ++ [h]) <= capacity - sumZ live + sumZ completed ->
    sumZ (before ++ [h]) + charge <= capacity - sumZ live + sumZ completed.

(** ** Lemmas on the bitset *)

Lemma length_add_loop words shift n sums :
  length (add_loop words shift n sums) = length sums.
Proof.
  revert sums. induction n as [|n IH]; intros sums; simpl; [done|].
  by rewrite IH, length_insert.
Qed.

Lemma length_add_subset_weight sums w : length (add_subset_weight sums w) = length sums.
Proof. apply length_add_loop. Qed.

Lemma word_at_insert_ne sums i j x : i <> j -> word_at (<[i:=x]> sums) j = word_at sums j.
Proof. intros H. unfold word_at. by rewrite list_lookup_insert_ne. Qed.

Lemma word_at_insert_eq sums i x :
  (i < length sums)%nat -> word_at (<[i:=x]> sums) i = x.
Proof. intros H. unfold word_at. by rewrite list_lookup_insert_eq. Qed.

Lemma shifted_word_insert sums words shift i j x :
  (i < j)%nat -> shifted_word (<[j:=x]> sums) words shift i = shifted_word sums words shift i.
Proof.
  intros H. unfold shifted_word. rewrite word_at_insert_ne by lia.
  case_match; [|done]. by rewrite word_at_insert_ne by lia.
Qed.

Lemma word_at_add_loop words shift n sums i :
  (words + n <= length sums)%nat ->
  word_at (add_loop words shift n sums) i =
    if (words <=? i)%nat && (i <? words + n)%nat
    then Z.lor (word_at sums i) (shifted_word sums words shift i)
    else word_at sums i.
Proof.
  revert sums. induction n as [|n IH]; intros sums Hlen; simpl.
  { case_match; [|done]. apply andb_prop in H as [?%Nat.leb_le ?%Nat.ltb_lt]. lia. }
  rewrite IH by (rewrite length_insert; lia).
  destruct (Nat.leb_spec words i), (Nat.ltb_spec i (words + n)),
    (Nat.ltb_spec i (words + S n)); simpl; try lia;
    rewrite ?word_at_insert_ne by lia; [by rewrite shifted_word_insert by lia| |done..].
  replace (words + n)%nat with i by lia. by rewrite word_at_insert_eq by lia.
Qed.

Lemma word_at_add_subset_weight sums w i :
  0 <= w -> (i < length sums)%nat ->
  word_at (add_subset_weight sums w) i =
    if (Z.to_nat (w / 64) <=? i)%nat
    then Z.lor (word_at sums i) (shifted_word sums (Z.to_nat (w / 64)) (w mod 64) i)
    else word_at sums i.
Proof.
  intros Hw Hi. unfold add_subset_weight.
  destruct (decide (Z.to_nat (w / 64) <= length sums)%nat) as [Hle|Hgt].
  - rewrite word_at_add_loop by lia.
    replace (Z.to_nat (w / 64) + (length sums - Z.to_nat (w / 64)))%nat with (length sums) by lia.
    destruct (Nat.ltb_spec i (length sums)); [|lia]. by rewrite andb_true_r.
  - replace (length sums - Z.to_nat (w / 64))%nat with 0%nat by lia. simpl.
    destruct (Nat.leb_spec (Z.to_nat (w / 64)) i); [lia|done].
Qed.

Lemma log2_lt_64 x : 0 <= x -> Z.log2 x < 64 <-> x < 2 ^ 64.
Proof.
  intros Hx. destruct (decide (x = 0)) as [->|]; [simpl; lia|].
  symmetry. apply Z.log2_lt_pow2. lia.
Qed.

(** Every word is a [u64]. *)
Definition words_ok (sums : list Z) : Prop := forall i, 0 <= word_at sums i < 2 ^ 64.

Lemma word_testbit_high sums i k : words_ok sums -> 64 <= k -> Z.testbit (word_at sums i) k = false.
Proof.
  intros Hok Hk. specialize (Hok i). apply (Z.bits_above_log2 _ k); [lia|].
  apply Z.lt_le_trans with 64; [apply log2_lt_64; lia|done].
Qed.

Lemma testbit_shl64 x s k :
  0 <= s -> 0 <= k -> Z.testbit (shl64 x s) k = (k <? 64) && Z.testbit x (k - s).
Proof.
  intros Hs Hk. unfold shl64. change u64_max with (Z.ones 64).
  rewrite Z.land_spec, Z.shiftl_spec, Z.testbit_ones_nonneg by lia.
  by rewrite andb_comm.
Qed.

Lemma shl64_range x s : 0 <= shl64 x s < 2 ^ 64.
Proof.
  unfold shl64. change u64_max with (Z.ones 64). rewrite Z.land_ones by lia.
  apply Z.mod_pos_bound. lia.
Qed.

Lemma lor_range a b : 0 <= a < 2 ^ 64 -> 0 <= b < 2 ^ 64 -> 0 <= Z.lor a b < 2 ^ 64.
Proof.
  intros Ha Hb. assert (0 <= Z.lor a b) by (apply Z.lor_nonneg; lia). split; [done|].
  apply log2_lt_64; [done|]. rewrite Z.log2_lor by lia.
  apply Z.max_lub_lt; apply log2_lt_64; lia.
Qed.

Lemma shifted_word_range sums words shift i :
  words_ok sums -> 0 <= shift < 64 -> 0 <= shifted_word sums words shift i < 2 ^ 64.
Proof.
  intros Hok Hs. unfold shifted_word. pose proof shl64_range as Hr.
  case_match; [|apply Hr]. apply lor_range; [apply Hr|].
  specialize (Hok (i - words - 1)%nat). rewrite Z.shiftr_div_pow2 by lia.
  split; [apply Z.div_pos; lia|].
  apply Z.div_lt_upper_bound; [lia|]. nia.
Qed.

Lemma words_ok_add sums w : 0 <= w -> words_ok sums -> words_ok (add_subset_weight sums w).
Proof.
  intros Hw Hok i. destruct (decide (i < length sums)%nat) as [Hi|Hi].
  - rewrite word_at_add_subset_weight by done. case_match; [|done].
    apply lor_range; [done|]. apply shifted_word_range; [done|].
    apply Z.mod_pos_bound. lia.
  - unfold word_at. rewrite (proj2 (lookup_ge_None _ _)); [simpl; lia|].
    rewrite length_add_subset_weight. lia.
Qed.

Lemma testbit_shifted_word sums words shift i j :
  words_ok sums -> 0 <= shift < 64 -> 0 <= j < 64 -> (words <= i)%nat ->
  Z.testbit (shifted_word sums words shift i) j =
    if shift <=? j then Z.testbit (word_at sums (i - words)) (j - shift)
    else (words <? i)%nat && Z.testbit (word_at sums (i - words - 1)) (j + 64 - shift).
Proof.
  intros Hok Hs Hj Hi. unfold shifted_word.
  destruct (Z.leb_spec shift j).
  - assert (Hlow : Z.testbit (shl64 (word_at sums (i - words)) shift) j =
      Z.testbit (word_at sums (i - words)) (j - shift)).
    { rewrite testbit_shl64 by lia. destruct (Z.ltb_spec j 64); [done|lia]. }
    case_match; [|done]. rewrite Z.lor_spec, Z.shiftr_spec by lia.
    rewrite (word_testbit_high _ _ (j + (64 - shift))) by (done || lia).
    by rewrite orb_false_r.
  - destruct (Z.eqb_spec shift 0); [lia|]. simpl.
    assert (Hlow : Z.testbit (shl64 (word_at sums (i - words)) shift) j = false).
    { rewrite testbit_shl64 by lia. rewrite (Z.testbit_neg_r _ (j - shift)) by lia.
      by rewrite andb_false_r. }
    case_match; [|done]. rewrite Z.lor_spec, Z.shiftr_spec, Hlow by lia.
    simpl. f_equal. lia.
Qed.

Lemma div_mod_64 a q r : 0 <= r < 64 -> a = 64 * q + r -> a / 64 = q /\ a mod 64 = r.
Proof. intros ? ->. split; [symmetry; apply (Z.div_unique_pos _ _ _ r)|symmetry; apply (Z.mod_unique_pos _ _ q)]; lia. Qed.

(** One step of the bitset is the set step: a sum is reachable afterwards iff
    it was reachable before, with or without the new item. *)
Lemma bit_add_subset_weight sums w k :
  words_ok sums -> 0 <= w -> 0 <= k < 64 * Z.of_nat (length sums) ->
  bit (add_subset_weight sums w) k = bit sums k || ((w <=? k) && bit sums (k - w)).
Proof.
  intros Hok Hw Hk. unfold bit.
  pose proof (Z.div_mod k 64 ltac:(lia)) as Hkd. pose proof (Z.mod_pos_bound k 64 ltac:(lia)).
  pose proof (Z.div_mod w 64 ltac:(lia)) as Hwd. pose proof (Z.mod_pos_bound w 64 ltac:(lia)).
  assert (Hwq : 0 <= w / 64) by (apply Z.div_pos; lia).
  assert (Hkq : 0 <= k / 64 < Z.of_nat (length sums)) by nia.
  set (i := k / 64) in *. set (j := k mod 64) in *.
  set (W := w / 64) in *. set (S := w mod 64) in *.
  rewrite word_at_add_subset_weight by lia. fold W S.
  destruct (Nat.leb_spec (Z.to_nat W) (Z.to_nat i)).
  - rewrite Z.lor_spec. f_equal. rewrite testbit_shifted_word by (done || lia).
    destruct (Z.leb_spec S j).
    + destruct (Z.leb_spec w k); [|nia].
      destruct (div_mod_64 (k - w) (i - W) (j - S)) as [-> ->]; [lia..|].
      simpl. do 2 f_equal. lia.
    + destruct (Nat.ltb_spec (Z.to_nat W) (Z.to_nat i)); destruct (Z.leb_spec w k); simpl; [|nia..|done].
      destruct (div_mod_64 (k - w) (i - W - 1) (j + 64 - S)) as [-> ->]; [lia..|].
      do 2 f_equal. lia.
  - destruct (Z.leb_spec w k); [nia|]. by rewrite orb_false_r.
Qed.

(** ** Subset sums *)

Lemma subset_sum_nonneg l k : Forall (fun x => 0 <= x) l -> subset_sum l k -> 0 <= k.
Proof.
  intros Hl (s & Hs & <-). apply sumZ_nonneg. eapply Forall_sublist; eauto.
Qed.

Lemma subset_sum_snoc l w k :
  subset_sum (l ++ [w]) k <-> subset_sum l k \/ subset_sum l (k - w).
Proof.
  split.
  - intros (s & Hs & <-). apply sublist_app_r in Hs as (s1 & s2 & -> & H1 & H2).
    rewrite sumZ_app. inversion H2 as [|? ? ? H3|? ? ? H3]; subst;
      apply sublist_nil_r in H3; subst; simpl.
    + right. exists s1. split; [done|lia].
    + left. exists s1. split; [done|lia].
  - intros [(s & Hs & <-)|(s & Hs & Hk)].
    + exists s. split; [|done]. by apply sublist_inserts_r.
    + exists (s ++ [w]). split; [by apply sublist_app|]. rewrite sumZ_app. simpl. lia.
Qed.

Lemma represents_add sums l w :
  words_ok sums -> 0 <= w -> Forall (fun x => 0 <= x) l ->
  represents sums l -> represents (add_subset_weight sums w) (l ++ [w]).
Proof.
  intros Hok Hw Hl Hr k Hk. rewrite length_add_subset_weight in Hk.
  rewrite bit_add_subset_weight, subset_sum_snoc, orb_true_iff, andb_true_iff by done.
  rewrite (Hr k) by done. destruct (Z.leb_spec w k) as [Hwk|Hwk].
  - rewrite (Hr (k - w)) by lia. tauto.
  - split; [intros [?|[? _]]; [by left|done]|].
    intros [?|?%subset_sum_nonneg]; [by left|lia|done].
Qed.

(** ** The search for the smallest sufficient sum *)

Lemma pos_trailing_zeros_spec p :
  0 <= pos_trailing_zeros p /\
  Z.testbit (Zpos p) (pos_trailing_zeros p) = true /\
  forall j, 0 <= j < pos_trailing_zeros p -> Z.testbit (Zpos p) j = false.
Proof.
  induction p as [p IH|p IH|]; simpl; [repeat split; intros; lia| |repeat split; intros; lia].
  destruct IH as (H0 & H1 & H2). split; [lia|]. change (Zpos p~0) with (2 * Zpos p). split.
  - rewrite Z.add_1_l, Z.double_bits_succ. done.
  - intros j Hj. destruct (decide (j = 0)) as [->|Hne]; [done|].
    replace j with (Z.succ (Z.pred j)) by lia. rewrite Z.double_bits_succ. apply H2. lia.
Qed.

Lemma trailing_zeros_spec x :
  0 < x < 2 ^ 64 ->
  0 <= trailing_zeros x < 64 /\ Z.testbit x (trailing_zeros x) = true /\
  forall j, 0 <= j < trailing_zeros x -> Z.testbit x j = false.
Proof.
  intros Hx. destruct x as [|p|p]; try lia. simpl.
  destruct (pos_trailing_zeros_spec p) as (H0 & H1 & H2). repeat split; [done| |done..].
  destruct (decide (pos_trailing_zeros p < 64)); [done|]. exfalso.
  rewrite (Z.bits_above_log2 (Zpos p)) in H1; [done|lia|].
  assert (Z.log2 (Zpos p) < 64) by (apply Z.log2_lt_pow2; lia). lia.
Qed.

(** What one inspected word contributes, as sums. *)
Lemma testbit_masked sums first_word q index j :
  words_ok sums -> 0 <= q -> (first_word <= index)%nat -> Z.of_nat first_word = q / 64 ->
  0 <= j < 64 ->
  Z.testbit (if (index =? first_word)%nat
             then Z.land (word_at sums index) (shl64 u64_max (q mod 64))
             else word_at sums index) j
  = bit sums (64 * Z.of_nat index + j) && (q <=? 64 * Z.of_nat index + j).
Proof.
  intros Hok Hq Hle Hfw Hj. unfold bit.
  destruct (div_mod_64 (64 * Z.of_nat index + j) (Z.of_nat index) j) as [-> ->]; [lia..|].
  rewrite Nat2Z.id.
  pose proof (Z.div_mod q 64 ltac:(lia)). pose proof (Z.mod_pos_bound q 64 ltac:(lia)).
  destruct (Nat.eqb_spec index first_word) as [->|].
  - rewrite Z.land_spec, testbit_shl64 by lia. f_equal.
    destruct (Z.ltb_spec j 64); [simpl|lia]. change u64_max with (Z.ones 64).
    destruct (Z.leb_spec q (64 * Z.of_nat first_word + j)).
    + apply Z.ones_spec_low. lia.
    + apply Z.testbit_neg_r. lia.
  - destruct (Z.leb_spec q (64 * Z.of_nat index + j)); [by rewrite andb_true_r|nia].
Qed.

Definition smallest_from (sums : list Z) (q lo hi : Z) (r : option Z) : Prop :=
  match r with
  | Some s => lo <= s < hi /\ q <= s /\ bit sums s = true /\
      forall k, lo <= k < s -> q <= k -> bit sums k = false
  | None => forall k, lo <= k < hi -> q <= k -> bit sums k = false
  end.

Lemma masked_range sums first_word q index :
  words_ok sums ->
  0 <= (if (index =? first_word)%nat
        then Z.land (word_at sums index) (shl64 u64_max (q mod 64))
        else word_at sums index) < 2 ^ 64.
Proof.
  intros Hok. case_match; [|apply Hok]. specialize (Hok index).
  pose proof (shl64_range u64_max (q mod 64)) as Hr.
  split; [apply Z.land_nonneg; lia|].
  apply log2_lt_64; [apply Z.land_nonneg; lia|].
  assert (Z.log2 (word_at sums index) < 64) by (apply log2_lt_64; lia).
  pose proof (Z.log2_land (word_at sums index) (shl64 u64_max (q mod 64)) ltac:(lia) ltac:(lia)). lia.
Qed.

Lemma word_zero_bits sums first_word q index k :
  words_ok sums -> 0 <= q -> (first_word <= index)%nat -> Z.of_nat first_word = q / 64 ->
  (if (index =? first_word)%nat
   then Z.land (word_at sums index) (shl64 u64_max (q mod 64))
   else word_at sums index) = 0 ->
  64 * Z.of_nat index <= k < 64 * Z.of_nat (S index) -> q <= k -> bit sums k = false.
Proof.
  intros Hok Hq Hle Hfw Hz Hk Hqk.
  pose proof (testbit_masked sums first_word q index (k - 64 * Z.of_nat index)
    Hok Hq Hle Hfw ltac:(lia)) as Hb.
  rewrite Hz, Z.testbit_0_l in Hb.
  replace (64 * Z.of_nat index + (k - 64 * Z.of_nat index)) with k in Hb by lia.
  destruct (Z.leb_spec q k); [|lia]. by rewrite andb_true_r in Hb.
Qed.

Lemma find_sum_spec sums first_word q index n :
  words_ok sums -> 0 <= q -> (first_word <= index)%nat -> Z.of_nat first_word = q / 64 ->
  smallest_from sums q (64 * Z.of_nat index) (64 * Z.of_nat (index + n))
    (find_sum sums first_word q index n).
Proof.
  intros Hok Hq. revert index. induction n as [|n IH]; intros index Hle Hfw; simpl.
  { intros k. lia. }
  pose proof (testbit_masked sums first_word q index) as Hbits.
  pose proof (word_zero_bits sums first_word q index) as Hzero.
  pose proof (masked_range sums first_word q index Hok) as Hrng.
  set (bits := if (index =? first_word)%nat then _ else _) in *.
  destruct (Z.eqb_spec bits 0) as [Hz|Hnz]; simpl.
  - specialize (IH (S index) ltac:(lia) Hfw).
    replace (index + S n)%nat with (S index + n)%nat by lia.
    destruct (find_sum sums first_word q (S index) n) as [s|]; simpl in *.
    + destruct IH as (Hs & Hqs & Hb & Hmin). repeat split; [lia..|done|].
      intros k Hk Hqk. destruct (decide (k < 64 * Z.of_nat (S index)));
        [eapply Hzero; eauto; lia|apply Hmin; lia].
    + intros k Hk Hqk. destruct (decide (k < 64 * Z.of_nat (S index)));
        [eapply Hzero; eauto; lia|apply IH; lia].
  - destruct (trailing_zeros_spec bits ltac:(lia)) as (Ht & Hb & Hlow).
    rewrite Hbits in Hb by (done || lia). apply andb_prop in Hb as [Hb Hqb]. simp_bool.
    replace (Z.of_nat index * 64) with (64 * Z.of_nat index) by lia.
    repeat split; [lia..|done|]. intros k Hk Hqk.
    specialize (Hlow (k - 64 * Z.of_nat index) ltac:(lia)).
    rewrite Hbits in Hlow by (done || lia).
    replace (64 * Z.of_nat index + (k - 64 * Z.of_nat index)) with k in Hlow by lia.
    destruct (Z.leb_spec q k); [by rewrite andb_true_r in Hlow|lia].
Qed.

Lemma min_sum_from_spec sums q :
  words_ok sums -> 0 <= q ->
  smallest_from sums q (64 * (q / 64)) (64 * Z.of_nat (length sums)) (min_sum_from sums q).
Proof.
  intros Hok Hq. unfold min_sum_from. assert (0 <= q / 64) by (apply Z.div_pos; lia).
  destruct (decide (q / 64 <= Z.of_nat (length sums))) as [Hle|Hgt].
  - rewrite Z.min_l by done. set (fw := Z.to_nat (q / 64)).
    pose proof (find_sum_spec sums fw q fw (length sums - fw) Hok Hq ltac:(lia) ltac:(lia)) as Hf.
    replace (fw + (length sums - fw))%nat with (length sums) in Hf by lia.
    replace (Z.of_nat fw) with (q / 64) in Hf by lia. done.
  - rewrite Z.min_r by lia. rewrite Nat2Z.id, Nat.sub_diag. simpl. intros k. lia.
Qed.

(** ** Quantised charges *)

Abbreviation nonneg := (Forall (fun x : Z => 0 <= x)).

Section quantum.
Context (unit : Z) (Hunit : 0 < unit).

Definition quantize (l : list Z) : list Z := (fun w => div_ceil w unit) <$> l.

Lemma quantize_nonneg l : nonneg l -> nonneg (quantize l).
Proof. intros Hl. unfold quantize. apply Forall_fmap. eapply Forall_impl; [exact Hl|]. simpl. intros. by apply div_ceil_nonneg. Qed.

Lemma quantize_app l k : quantize (l ++ k) = quantize l ++ quantize k.
Proof. apply fmap_app. Qed.

(** Rounding up loses less than one unit per item. *)
Lemma quantize_sum l :
  nonneg l ->
  sumZ l <= sumZ (quantize l) * unit <= sumZ l + Z.of_nat (length l) * (unit - 1).
Proof.
  induction 1 as [|x l Hx Hl IH]; simpl; [lia|].
  pose proof (div_ceil_bounds x unit Hunit Hx) as Hb. change (div_ceil x unit :: _)
    with (div_ceil x unit :: quantize l). simpl.
  rewrite !Z.mul_add_distr_r. rewrite Z.mul_sub_distr_r in Hb. fold (quantize l).
  set (a := sumZ (quantize l) * unit) in *. set (b := div_ceil x unit * unit) in *.
  replace (Z.of_nat (S (length l)) * (unit - 1))
    with (Z.of_nat (length l) * (unit - 1) + (unit - 1)) by lia. lia.
Qed.

Lemma quantized_total_spec sum ws :
  nonneg ws -> 0 <= sum < MAX_BITS ->
  quantized_total unit sum ws =
    if sum + sumZ (quantize ws) <? MAX_BITS then Some (sum + sumZ (quantize ws)) else None.
Proof.
  intros Hws. revert sum. induction Hws as [|w ws Hw Hws IH]; intros sum Hsum; simpl.
  { rewrite Z.add_0_r. destruct (Z.ltb_spec sum MAX_BITS); [done|lia]. }
  pose proof (div_ceil_nonneg w unit Hunit Hw) as Hq.
  pose proof (sumZ_nonneg _ (quantize_nonneg ws Hws)) as Hs. unfold quantize in Hs, IH |- *.
  unfold checked_add, option_filter.
  destruct (Z.leb_spec (sum + div_ceil w unit) u64_max) as [Hle|Hgt].
  - destruct (Z.ltb_spec (sum + div_ceil w unit) MAX_BITS).
    + rewrite IH by lia. simpl. by rewrite Z.add_assoc.
    + case_match; simp_bool; [lia|done].
  - case_match; simp_bool; [unfold MAX_BITS, u64_max in *; lia|done].
Qed.

Lemma checked_total_spec sum ws :
  nonneg ws -> 0 <= sum <= u64_max ->
  checked_total sum ws = if sum + sumZ ws <=? u64_max then Some (sum + sumZ ws) else None.
Proof.
  intros Hws. revert sum. induction Hws as [|w ws Hw Hws IH]; intros sum Hsum; simpl.
  { rewrite Z.add_0_r. destruct (Z.leb_spec sum u64_max); [done|lia]. }
  pose proof (sumZ_nonneg ws Hws). unfold checked_add.
  destruct (Z.leb_spec (sum + w) u64_max).
  - rewrite IH by lia. by rewrite Z.add_assoc.
  - case_match; simp_bool; [lia|done].
Qed.

Lemma sublist_quantize s l : sublist s l -> sublist (quantize s) (quantize l).
Proof. apply fmap_sublist. Qed.

(** Every subset sum of the quantised items comes from a set of items. *)
Lemma subset_sum_quantize l k :
  subset_sum (quantize l) k -> exists s, sublist s l /\ sumZ (quantize s) = k.
Proof.
  intros (s & Hs & <-). revert s Hs. induction l as [|x l IH]; intros s Hs.
  { apply sublist_nil_r in Hs as ->. by exists []. }
  simpl in Hs. apply sublist_cons_r in Hs as [Hs|(s' & -> & Hs)].
  - destruct (IH s Hs) as (t & Ht & <-). exists t. split; [by constructor|done].
  - destruct (IH s' Hs) as (t & Ht & Hk). exists (x :: t). split; [by constructor|].
    simpl. unfold quantize in Hk |- *. simpl. lia.
Qed.

(** One older prefix is safe: some completion makes room for it, and every
    completion that does also leaves room for [charge]. *)
Definition prefix_safe (free charge : Z) (items : list Z) (prefix : Z) : Prop :=
  (exists s, sublist s items /\ prefix <= free + sumZ s) /\
  (forall s, sublist s items -> prefix <= free + sumZ s -> prefix + charge <= free + sumZ s).

Section slack.
Context (sums items : list Z) (free : Z).
Context (Hitems : nonneg items) (Hok : words_ok sums).
Context (Hrep : represents sums (quantize items)).
Context (Hsize : sumZ (quantize items) < 64 * Z.of_nat (length sums)).

Lemma completed_bit s :
  sublist s items ->
  0 <= sumZ (quantize s) < 64 * Z.of_nat (length sums) /\ bit sums (sumZ (quantize s)) = true.
Proof.
  intros Hs. pose proof (sublist_quantize _ _ Hs) as Hq.
  pose proof (quantize_nonneg _ Hitems) as Hn.
  pose proof (sumZ_sublist _ _ Hn Hq).
  pose proof (sumZ_nonneg _ (Forall_sublist _ _ _ Hn Hq)).
  split; [lia|]. apply Hrep; [lia|]. by exists (quantize s).
Qed.

(** The slack is a lower bound on the room every sufficient completion leaves. *)
Lemma prefix_slack_sound prefix slack s :
  prefix_slack sums (Z.of_nat (length items)) free unit prefix = Some slack ->
  sublist s items -> prefix <= free + sumZ s -> slack <= free + sumZ s - prefix.
Proof.
  unfold prefix_slack. intros Hslack Hs Hfit.
  pose proof (Forall_sublist _ _ _ Hitems Hs) as Hsn.
  pose proof (sumZ_nonneg _ Hsn). destruct (Z.leb_spec prefix free); [simplify_eq; lia|].
  set (threshold := prefix - free) in *. assert (0 < threshold <= sumZ s) by lia.
  pose proof (div_ceil_bounds threshold unit Hunit ltac:(lia)) as Hth.
  pose proof (div_ceil_nonneg threshold unit Hunit ltac:(lia)) as Hq0.
  pose proof (quantize_sum s Hsn) as Hqs. pose proof (sublist_length _ _ Hs) as Hlen.
  pose proof (min_sum_from_spec sums _ Hok Hq0) as Hmin.
  destruct (min_sum_from sums (div_ceil threshold unit)) as [m|]; simpl in Hslack; [|done].
  destruct Hmin as (_ & _ & _ & Hleast). destruct (completed_bit s Hs) as (Hr & Hb).
  assert (div_ceil threshold unit <= sumZ (quantize s)) by (apply div_ceil_le; lia).
  assert (m <= sumZ (quantize s)).
  { destruct (decide (m <= sumZ (quantize s))) as [|Hgt]; [done|].
    rewrite Hleast in Hb; [done| |done].
    pose proof (Z.mul_div_le (div_ceil threshold unit) 64 ltac:(lia)). lia. }
  assert (m * unit <= sumZ (quantize s) * unit) by nia.
  assert (Z.of_nat (length s) * (unit - 1) <= Z.of_nat (length items) * (unit - 1)) by nia.
  unfold checked_mul, checked_sub in Hslack. split_matches. lia.
Qed.
Lemma prefix_slack_attained prefix slack :
  prefix_slack sums (Z.of_nat (length items)) free unit prefix = Some slack ->
  exists s, sublist s items /\ prefix <= free + sumZ s.
Proof.
  unfold prefix_slack. intros Hslack.
  destruct (Z.leb_spec prefix free); [exists []; split; [apply sublist_nil_l|simpl; lia]|].
  set (threshold := prefix - free) in *.
  pose proof (div_ceil_nonneg threshold unit Hunit ltac:(lia)) as Hq0.
  pose proof (min_sum_from_spec sums _ Hok Hq0) as Hmin.
  destruct (min_sum_from sums (div_ceil threshold unit)) as [m|]; simpl in Hslack; [|done].
  destruct Hmin as (Hm & _ & Hb & _).
  assert (0 <= div_ceil threshold unit / 64) by (apply Z.div_pos; lia).
  apply Hrep in Hb; [|lia]. apply subset_sum_quantize in Hb as (s & Hs & Hsm).
  exists s. split; [done|]. pose proof (Forall_sublist _ _ _ Hitems Hs) as Hsn.
  pose proof (quantize_sum s Hsn) as Hqs. pose proof (sublist_length _ _ Hs) as Hlen.
  assert (Z.of_nat (length s) * (unit - 1) <= Z.of_nat (length items) * (unit - 1)) by nia.
  rewrite Hsm in Hqs. unfold checked_mul, checked_sub in Hslack. split_matches. lia.
Qed.

Lemma prefix_slack_safe prefix slack charge :
  prefix_slack sums (Z.of_nat (length items)) free unit prefix = Some slack ->
  charge <= slack -> prefix_safe free charge items prefix.
Proof.
  intros Hslack Hle. split; [by eapply prefix_slack_attained|].
  intros s Hs Hfit. pose proof (prefix_slack_sound _ _ _ Hslack Hs Hfit). lia.
Qed.
End slack.
End quantum.

Lemma quantize_1 l : nonneg l -> quantize 1 l = l.
Proof.
  induction 1 as [|x l Hx Hl IH]; [done|]. unfold quantize in *. simpl.
  rewrite div_ceil_1 by done. f_equal. exact IH.
Qed.

(** With quantum one the slack is exact. *)
Lemma prefix_slack_exact sums items free charge prefix :
  nonneg items -> words_ok sums -> represents sums items ->
  sumZ items < 64 * Z.of_nat (length sums) -> sumZ items <= u64_max ->
  prefix_safe free charge items prefix ->
  exists slack, prefix_slack sums (Z.of_nat (length items)) free 1 prefix = Some slack /\
    charge <= slack.
Proof.
  intros Hn Hok Hrep Hsize Hmax [(s & Hs & Hfit) Hall]. unfold prefix_slack.
  destruct (Z.leb_spec prefix free).
  { eexists. split; [done|]. specialize (Hall [] (sublist_nil_l _)). simpl in Hall. lia. }
  rewrite div_ceil_1 by lia.
  pose proof (min_sum_from_spec sums (prefix - free) Hok ltac:(lia)) as Hmin.
  pose proof (sumZ_sublist _ _ Hn Hs) as Hle.
  assert (Hb : bit sums (sumZ s) = true) by (apply Hrep; [lia|by exists s]).
  pose proof (Z.mul_div_le (prefix - free) 64 ltac:(lia)).
  destruct (min_sum_from sums (prefix - free)) as [m|]; simpl in Hmin; cycle 1.
  { rewrite Hmin in Hb; [done|lia|lia]. }
  destruct Hmin as (Hm & Hqm & Hbm & _).
  assert (0 <= (prefix - free) / 64) by (apply Z.div_pos; lia).
  apply Hrep in Hbm as (t & Ht & Hsum); [|lia].
  pose proof (sumZ_sublist _ _ Hn Ht). specialize (Hall t Ht ltac:(lia)).
  exists (m - (prefix - free)). split; [|lia]. unfold checked_mul, checked_sub.
  assert (0 <= u64_max) by (unfold u64_max; lia).
  simpl. rewrite Z.mul_0_r, Z.mul_1_r. rewrite (proj2 (Z.leb_le 0 _)) by lia. simpl.
  rewrite (proj2 (Z.leb_le m _)) by lia. simpl.
  rewrite (proj2 (Z.leb_le 0 m)) by lia. simpl.
  rewrite (proj2 (Z.leb_le (prefix - free) _)) by lia. f_equal. lia.
Qed.

(** ** Soundness of the loop *)

Lemma initial_sums_length total : 0 <= total -> total < 64 * Z.of_nat (length (initial_sums total)).
Proof.
  intros Ht. unfold initial_sums. rewrite length_insert, length_replicate.
  pose proof (div_ceil_bounds (total + 1) 64 ltac:(lia) ltac:(lia)). lia.
Qed.

Lemma word_at_initial total i :
  0 <= total -> word_at (initial_sums total) i = if (i =? 0)%nat then 1 else 0.
Proof.
  intros Ht. unfold initial_sums.
  pose proof (div_ceil_bounds (total + 1) 64 ltac:(lia) ltac:(lia)).
  destruct (Nat.eqb_spec i 0) as [->|Hi].
  - rewrite word_at_insert_eq; [done|]. rewrite length_replicate. lia.
  - rewrite word_at_insert_ne by done. unfold word_at.
    destruct (_ !! i) as [x|] eqn:E; [|done]. by apply lookup_replicate in E as [-> _].
Qed.

Lemma initial_sums_ok total : 0 <= total -> words_ok (initial_sums total).
Proof. intros Ht i. rewrite word_at_initial by done. case_match; lia. Qed.

Lemma initial_sums_represents total : 0 <= total -> represents (initial_sums total) [].
Proof.
  intros Ht k Hk. unfold bit. rewrite word_at_initial by done.
  assert (Hempty : subset_sum [] k <-> k = 0).
  { split; [intros (s & ->%sublist_nil_r & <-); done|intros ->; by exists []]. }
  rewrite Hempty. pose proof (Z.div_mod k 64 ltac:(lia)).
  pose proof (Z.mod_pos_bound k 64 ltac:(lia)).
  destruct (Nat.eqb_spec (Z.to_nat (k / 64)) 0) as [E|E].
  - assert (0 <= k / 64) by (apply Z.div_pos; lia).
    replace (k mod 64) with k by lia. destruct (decide (k = 0)) as [->|Hne]; [done|].
    rewrite (Z.bits_above_log2 1) by (simpl; lia). done.
  - rewrite Z.testbit_0_l. split; [done|intros ->]. done.
Qed.

Section loop.
Context (unit : Z) (Hunit : 0 < unit).

(** The bitset and the items it covers, while the loops run. *)
Definition covers (sums items : list Z) (size : Z) : Prop :=
  nonneg items /\ words_ok sums /\ represents sums (quantize unit items) /\
  size <= 64 * Z.of_nat (length sums).

Lemma covers_add sums items size w :
  0 <= w -> covers sums items size ->
  covers (add_subset_weight sums (div_ceil w unit)) (items ++ [w]) size.
Proof.
  intros Hw (Hn & Hok & Hrep & Hsz). pose proof (div_ceil_nonneg w unit Hunit Hw).
  split_and!.
  - apply Forall_app. split; [done|]. by constructor.
  - by apply words_ok_add.
  - rewrite quantize_app. apply represents_add; [done..| |done]. by apply quantize_nonneg.
  - by rewrite length_add_subset_weight.
Qed.

Lemma covers_fold sums items size ws :
  nonneg ws -> covers sums items size ->
  covers (foldl (fun sums w => add_subset_weight sums (div_ceil w unit)) sums ws)
    (items ++ ws) size.
Proof.
  intros Hws. revert sums items. induction Hws as [|w ws Hw Hws IH]; intros sums items Hc; simpl.
  { by rewrite app_nil_r. }
  rewrite cons_middle, app_assoc. apply IH. by apply covers_add.
Qed.

Lemma covers_initial total : 0 <= total -> covers (initial_sums total) [] (total + 1).
Proof.
  intros Ht. pose proof (initial_sums_length total Ht).
  split_and!; [done|by apply initial_sums_ok|by apply initial_sums_represents|lia].
Qed.

Lemma older_loop_sound live_len free charge sums items passed older size :
  (live_len + length passed)%nat = length items ->
  nonneg older -> covers sums items size ->
  sumZ (quantize unit (items ++ older)) < size ->
  (older_loop live_len free charge unit (length passed) (sumZ passed) sums older).1 = true ->
  forall before h after, older = before ++ h :: after ->
    prefix_safe free charge (items ++ before) (sumZ (passed ++ before ++ [h])).
Proof.
  revert sums items passed. induction older as [|x older IH];
    intros sums items passed Hlen Hn Hc Hsz Hok before h after Heq; [by destruct before|].
  apply Forall_cons in Hn as [Hx Hn]. simpl in Hok. unfold checked_add in Hok.
  destruct (Z.leb_spec (sumZ passed + x) u64_max); [|done].
  rewrite Hlen in Hok.
  destruct (prefix_slack _ _ _ _ _) as [slack|] eqn:Hslack; [|done].
  destruct (Z.ltb_spec slack charge); [done|].
  destruct (older_loop _ _ _ _ _ _ _ older) as [ok log] eqn:Hrest; simpl in Hok. subst ok.
  destruct Hc as (Hni & Hwok & Hrep & Hsize).
  assert (Hq : sumZ (quantize unit items) < 64 * Z.of_nat (length sums)).
  { rewrite quantize_app, sumZ_app in Hsz.
    pose proof (sumZ_nonneg _ (quantize_nonneg unit Hunit (x :: older) ltac:(by constructor))). lia. }
  destruct before as [|b before]; simplify_eq/=.
  - rewrite app_nil_r, sumZ_app. simpl. rewrite Z.add_0_r. by eapply prefix_slack_safe.
  - replace (passed ++ b :: before ++ [h]) with ((passed ++ [b]) ++ before ++ [h])
      by (by rewrite <- app_assoc).
    rewrite cons_middle, app_assoc. eapply (IH _ (items ++ [b]) (passed ++ [b])); eauto.
    + rewrite !length_app. simpl. lia.
    + apply covers_add; [done|]. split_and!; done.
    + by rewrite <- app_assoc.
    + rewrite length_app, sumZ_app. simpl. rewrite Z.add_0_r, Nat.add_1_r. by rewrite Hrest.
Qed.
End loop.

Lemma older_loop_complete live_len free charge sums items passed older size :
  (live_len + length passed)%nat = length items ->
  nonneg older -> covers 1 sums items size ->
  sumZ (items ++ older) < size -> sumZ (items ++ older) <= u64_max ->
  sumZ (passed ++ older) <= u64_max ->
  (forall before h after, older = before ++ h :: after ->
    prefix_safe free charge (items ++ before) (sumZ (passed ++ before ++ [h]))) ->
  (older_loop live_len free charge 1 (length passed) (sumZ passed) sums older).1 = true.
Proof.
  revert sums items passed. induction older as [|x older IH];
    intros sums items passed Hlen Hn Hc Hsz Hmax Hpm Hall; [done|].
  apply Forall_cons in Hn as [Hx Hn]. pose proof (sumZ_nonneg _ Hn). simpl.
  pose proof Hc as (Hni & Hwok & Hrep & Hsize). rewrite quantize_1 in Hrep by done.
  rewrite !sumZ_app in *. simpl in *. unfold checked_add.
  destruct (Z.leb_spec (sumZ passed + x) u64_max); [|lia].
  destruct (prefix_slack_exact sums items free charge (sumZ passed + x)) as (slack & Hs & Hle);
    [done..|lia|lia| |].
  { specialize (Hall [] x older eq_refl). rewrite app_nil_r, sumZ_app in Hall.
    simpl in Hall. by rewrite Z.add_0_r in Hall. }
  rewrite Hlen, Hs. destruct (Z.ltb_spec slack charge); [lia|].
  specialize (IH (add_subset_weight sums (div_ceil x 1)) (items ++ [x]) (passed ++ [x])).
  rewrite !length_app, !sumZ_app in IH. simpl in IH. rewrite Z.add_0_r, Nat.add_1_r in IH.
  destruct (older_loop _ _ _ _ _ _ _ older) as [ok log]; simpl in *.
  apply IH; [lia|done|by apply covers_add|lia..|].
  intros before h after ->. specialize (Hall (x :: before) h after eq_refl).
  by rewrite <- !app_assoc.
Qed.

Lemma covers_live_sums unit live total :
  0 < unit -> nonneg live -> 0 <= total -> covers unit (live_sums total unit live) live (total + 1).
Proof.
  intros Hu Hl Ht. exact (covers_fold unit Hu _ [] _ live Hl (covers_initial unit total Ht)).
Qed.

(** The early exits of [pass_quantized], once and for all. *)
Lemma passes_unfold capacity live older charge unit :
  0 < unit -> nonneg live -> nonneg older ->
  let total := sumZ (quantize unit (live ++ older)) in
  passes capacity live older charge unit = true <->
  older = [] \/
  total < MAX_BITS /\ sumZ live <= u64_max /\ sumZ live <= capacity /\
  charge <= capacity - sumZ live /\
  (older_loop (length live) (capacity - sumZ live) charge unit 0 0
    (live_sums total unit live) older).1 = true.
Proof.
  intros Hunit Hlive Holder total. unfold passes, pass_quantized.
  destruct older as [|o older]; [split; auto|].
  assert (Hall : nonneg (live ++ o :: older)) by (apply Forall_app; split; done).
  pose proof (sumZ_nonneg _ (quantize_nonneg unit Hunit _ Hall)) as Hq0.
  rewrite quantized_total_spec by (done || unfold MAX_BITS; lia).
  rewrite checked_total_spec by (done || unfold u64_max; lia).
  rewrite !Z.add_0_l. fold total. unfold checked_sub.
  destruct (Z.ltb_spec total MAX_BITS); simpl; [|split; [done|intros [?|?]; [done|lia]]].
  destruct (Z.leb_spec (sumZ live) u64_max); simpl; [|split; [done|intros [?|?]; [done|lia]]].
  destruct (Z.leb_spec (sumZ live) capacity); simpl; [|split; [done|intros [?|?]; [done|lia]]].
  destruct (Z.ltb_spec (capacity - sumZ live) charge); [split; [done|intros [?|?]; [done|lia]]|].
  split; [intros Hl; right; split_and!; done|intros [?|(_ & _ & _ & _ & Hl)]; done].
Qed.

Lemma passes_prefix_safe capacity live older charge unit :
  0 < unit -> nonneg live -> nonneg older ->
  passes capacity live older charge unit = true ->
  forall before h after, older = before ++ h :: after ->
    prefix_safe (capacity - sumZ live) charge (live ++ before) (sumZ (before ++ [h])).
Proof.
  intros Hunit Hlive Holder Hp before h after Heq.
  apply passes_unfold in Hp as [->|(_ & _ & _ & _ & Hp)]; [by destruct before| |done..].
  pose proof (sumZ_nonneg _ (quantize_nonneg unit Hunit (live ++ older)
    ltac:(apply Forall_app; split; done))) as Hq0.
  eapply (older_loop_sound unit Hunit (length live) _ _ _ live [] older _ (Nat.add_0_r _)
    Holder (covers_live_sums unit live _ Hunit Hlive Hq0)); [lia|done..].
Qed.

(** C2: passing is safe.  When [pass_quantized] lets a request of [charge]
    pass the older queue, then for every prefix of that queue and every set of
    running items and earlier waiters whose completion would make room for the
    prefix, there is room for the prefix and the request together.  This holds
    for every quantum, so rounding charges up to [MEMORY_QUANTUM] never lets a
    request delay an older waiter. *)
Theorem pass_quantized_safe capacity live older charge unit :
  0 < unit -> nonneg live -> nonneg older ->
  passes capacity live older charge unit = true ->
  never_delays capacity live older charge.
Proof.
  intros Hunit Hlive Holder Hp before h after completed Heq.
  by apply (passes_prefix_safe _ _ _ _ _ Hunit Hlive Holder Hp before h after).
Qed.

(** Two running items and two older waiters, at a quantum that does not divide
    the charges. *)
Lemma pass_quantized_safe_witness :
  passes 60 [17; 19] [30; 2] 3 4 = true /\ never_delays 60 [17; 19] [30; 2] 3.
Proof.
  split; [vm_compute; reflexivity|].
  apply (pass_quantized_safe 60 [17; 19] [30; 2] 3 4); [lia|repeat constructor; lia..|].
  vm_compute; reflexivity.
Defined.

(** C32: with quantum one, which is how cores and legacy weights are checked,
    the test is exact.  A request passes iff the queue is empty, or the
    charges stay below the bitset's size, the request fits the free capacity,
    no older waiter is larger than the whole capacity, and no prefix of the
    queue can be delayed. *)
Theorem pass_quantized_exact capacity live older charge :
  nonneg live -> nonneg older -> 0 <= charge ->
  passes capacity live older charge 1 = true <->
  older = [] \/
  sumZ (live ++ older) < MAX_BITS /\ sumZ live + charge <= capacity /\
  Forall (fun h => h <= capacity) older /\ never_delays capacity live older charge.
Proof.
  intros Hlive Holder Hcharge.
  assert (Hall : nonneg (live ++ older)) by (apply Forall_app; split; done).
  pose proof (sumZ_nonneg _ Hall) as H0.
  rewrite passes_unfold by (done || lia). rewrite quantize_1 by done.
  split; (intros [->|H]; [by left|right]).
  - destruct H as (Hmax & _ & Hcap & Hfree & Hl).
    assert (Hp : passes capacity live older charge 1 = true).
    { apply passes_unfold; [lia|done..|]. rewrite quantize_1 by done. right. split_and!; auto.
      rewrite sumZ_app in Hmax. pose proof (sumZ_nonneg _ Holder). unfold MAX_BITS, u64_max in *. lia. }
    pose proof (passes_prefix_safe capacity live older charge 1 ltac:(lia) Hlive Holder Hp) as Hsafe.
    split_and!; [done|lia| |intros before h after completed Heq; by apply (Hsafe before h after)].
    apply Forall_forall. intros h Hh. apply list_elem_of_split in Hh as (before & after & Heq).
    destruct (Hsafe before h after Heq) as [(s & Hs & Hfit) _].
    assert (Hsub : nonneg (live ++ before)).
    { subst older. apply Forall_app in Holder as [? _]. apply Forall_app; split; done. }
    pose proof (sumZ_sublist _ _ Hsub Hs). rewrite !sumZ_app in *. simpl in *. lia.
  - destruct H as (Hmax & Hfree & Hheads & Hnd).
    rewrite sumZ_app in Hmax. pose proof (sumZ_nonneg _ Holder). pose proof (sumZ_nonneg _ Hlive).
    rewrite sumZ_app. split_and!; [done|unfold MAX_BITS, u64_max in *; lia|lia|lia|].
    rewrite <- sumZ_app.
    eapply (older_loop_complete (length live) _ _ _ live [] older _ (Nat.add_0_r _) Holder
      (covers_live_sums 1 live _ ltac:(lia) Hlive H0)); rewrite ?sumZ_app; simpl;
      [unfold MAX_BITS, u64_max in *; lia..|].
    intros before h after ->. split; [|intros c Hc Hr; by apply (Hnd before h after c eq_refl)].
    exists (live ++ before). split; [done|]. rewrite !sumZ_app. simpl.
    apply Forall_app in Hheads as [_ [Hh _]%Forall_cons]. lia.
Qed.

Lemma pass_quantized_exact_witness :
  passes 8 [4; 2] [5] 1 1 = true /\ Forall (fun h => h <= 8) [5].
Proof.
  assert (H : passes 8 [4; 2] [5] 1 1 = true) by (vm_compute; reflexivity).
  split; [exact H|].
  destruct (proj1 (pass_quantized_exact 8 [4; 2] [5] 1
    ltac:(repeat constructor; lia) ltac:(repeat constructor; lia) ltac:(lia)) H)
    as [?|(_ & _ & Hf & _)]; [discriminate|exact Hf].
Defined.
