(* ===== verification/Pressure.v ===== *)
(** * Memory-pressure hysteresis

    Models [src/crates/mbx/src/pressure.rs]: the sampled state of one memory
    domain ([State]), its [update], the file-backed [sample] with its unsaved
    copy, and the parsing of a kernel pressure file.  Ratios are IEEE doubles,
    computed with the Standard Library's executable [SpecFloat] at binary64
    precision, as the [f64] expressions of the source are.

    The theorems show the hysteresis: pressure is declared only on two bad
    samples in a row, and is lifted only by five seconds of samples that are
    all healthy or by evidence going stale; recovery spacing expires. *)

From stdpp Require Import base list gmap strings sorting.
From Stdlib Require Import ZArith Lia Floats.SpecFloat.
From S2P Require Import Prelude.
Local Open Scope Z_scope.

(** ** Doubles *)

Definition f64 : Type := spec_float.
(** [as f64] on a [u64]: round to nearest, ties to even. *)
Definition f64_of (x : Z) : f64 := binary_normalize 53 1024 x 0 false.
Definition f64_div (a b : f64) : f64 := SFdiv 53 1024 a b.
Definition f64_mul (a b : f64) : f64 := SFmul 53 1024 a b.
Definition f64_lt (a b : f64) : bool := SFltb a b.
Definition f64_le (a b : f64) : bool := SFleb a b.
(** [f64::max] on numbers. *)
Definition f64_max (a b : f64) : f64 := if f64_lt a b then b else a.

(** The literals [0.05] and [0.10]: the nearest doubles. *)
Definition f64_0_05 : f64 := S754_finite false 7205759403792794 (-57).
Definition f64_0_10 : f64 := S754_finite false 7205759403792794 (-56).

(** ** State *)

Definition INTERVAL_MS : Z := 500.
Definition STALE_MS : Z := 3000.
Definition VERSION : Z := 1.

Record Reading := mkReading {
  mem_total : option Z;
  mem_available : option Z;
  stalls : gmap string Z
}.

Record State := mkState {
  state_version : Z;
  sampled_ms : Z;
  reading : Reading;
  bad_samples : Z;
  healthy_since : option Z;
  pressured : bool;
  state_valid : bool;
  recovered_ms : option Z;
  last_admission_ms : option Z
}.

Definition no_reading : Reading := mkReading None None ∅.
Definition default_state : State := mkState 0 0 no_reading 0 None false false None None.

(** ** One update *)

(** The time since the last sample, when it is usable. *)
Definition elapsed (s : State) (now : Z) : option Z :=
  option_filter (fun n => (0 <? n) && (n <=? STALE_MS)) (checked_sub now (sampled_ms s)).

Definition comparable (s : State) (now : Z) : bool :=
  (state_version s =? VERSION) && is_some (elapsed s now).

(** [delta as f64 / (elapsed as f64 * 10.0)] for each source present in both
    readings whose counter did not go back. *)
Definition stall_ratios (s : State) (e : Z) (r : Reading) : list f64 :=
  omap (fun '(source, value) =>
    old ← stalls (reading s) !! source;
    delta ← checked_sub value old;
    Some (f64_div (f64_of delta) (f64_mul (f64_of e) (f64_of 10))))
    (map_to_list (stalls r)).

Definition reduce {A} (f : A -> A -> A) (l : list A) : option A :=
  match l with [] => None | a :: l => Some (foldl f a l) end.

Definition stall_percent (s : State) (now : Z) (r : Reading) : option f64 :=
  if comparable s now
  then e ← elapsed s now; reduce f64_max (stall_ratios s e r)
  else None.

Definition headroom (r : Reading) : option f64 :=
  t ← option_filter (fun n => 0 <? n) (mem_total r);
  a ← mem_available r;
  Some (f64_div (f64_of a) (f64_of t)).

Definition is_bad (h p : option f64) : bool :=
  is_some_and (fun v => f64_lt v f64_0_05) h || is_some_and (fun v => f64_le (f64_of 10) v) p.

Definition is_valid (h p : option f64) : bool := is_some h || is_some p.

Definition is_healthy (h p : option f64) : bool :=
  is_valid h p && is_none_or (fun v => f64_lt f64_0_10 v) h &&
  is_none_or (fun v => f64_lt v (f64_of 2)) p.

(** What survives a gap: nothing but the recovery spacing, and that only when
    the clock moved forward. *)
Definition reset_if_stale (s : State) (now : Z) : State :=
  if comparable s now then s
  else if (state_version s =? VERSION) && (sampled_ms s <? now)
  then mkState 0 0 no_reading 0 None false false (recovered_ms s) (last_admission_ms s)
  else default_state.

(** The hysteresis proper, on the classified sample. *)
Definition classify (s : State) (now : Z) (is_valid bad healthy : bool) : State :=
  let 'mkState v t r b h p _ rec adm := s in
  if negb is_valid then mkState v t r 0 None false is_valid None adm
  else if bad then
    let b := Z.min 255 (b + 1) in
    if 2 <=? b then mkState v t r b None true is_valid None adm
    else mkState v t r b None p is_valid rec adm
  else if p && healthy then
    let start := unwrap_or now h in
    if 5000 <=? saturating_sub now start
    then mkState v t r 0 None false is_valid (Some now) adm
    else mkState v t r 0 (Some start) p is_valid rec adm
  else mkState v t r 0 None p is_valid rec adm.

(** Recovery spacing ends five seconds after it began. *)
Definition expire_recovery (s : State) (now : Z) : State :=
  if is_some_and (fun start => 5000 <=? saturating_sub now start) (recovered_ms s)
  then mkState (state_version s) (sampled_ms s) (reading s) (bad_samples s) (healthy_since s)
         (pressured s) (state_valid s) None (last_admission_ms s)
  else s.

Definition update (s : State) (now : Z) (r : Reading) : State :=
  let p := stall_percent s now r in
  let h := headroom r in
  let s := reset_if_stale s now in
  let s := classify s now (is_valid h p) (is_bad h p) (is_healthy h p) in
  let s := expire_recovery s now in
  mkState VERSION now r (bad_samples s) (healthy_since s) (pressured s) (state_valid s)
    (recovered_ms s) (last_admission_ms s).

(** ** Sampling through the state file *)

(** The file's decoded content, the copy this process could not save, and
    whether a save succeeds. *)
Record Store := mkStore { state_file : option State; unsaved : option State }.

Definition current_state (st : Store) : State :=
  let s := unwrap_or default_state (state_file st) in
  match unsaved st with
  | Some kept =>
      if negb (state_version s =? VERSION) || (sampled_ms s <? sampled_ms kept) then kept else s
  | None => s
  end.

Definition is_recent (s : State) (now : Z) : bool :=
  (state_version s =? VERSION) &&
  is_some_and (fun age => age <? INTERVAL_MS) (checked_sub now (sampled_ms s)).

(** [sample]: [None] is the error of a failed save, which callers treat as no
    sample. *)
Definition sample (st : Store) (now : Z) (r : Reading) (saves : bool) : option State * Store :=
  let s := current_state st in
  if is_recent s now then (Some s, st)
  else
    let s := update s now r in
    if saves then (Some s, mkStore (Some s) None) else (None, mkStore (state_file st) (Some s)).

(** ** The gate of an admission attempt *)

(** While pressured nothing new starts beside running work; after recovery
    starts are spaced by [INTERVAL_MS]. *)
Definition pressure_gates (s : State) (now : Z) : bool :=
  state_valid s &&
  (pressured s ||
   (is_some (recovered_ms s) &&
    is_some_and (fun last => saturating_sub now last <? INTERVAL_MS) (last_admission_ms s))).

Definition note_admission (s : State) (now : Z) : State :=
  mkState (state_version s) (sampled_ms s) (reading s) (bad_samples s) (healthy_since s)
    (pressured s) (state_valid s) (recovered_ms s) (Some now).

(** ** Histories of samples *)

Definition bad_at (s : State) (now : Z) (r : Reading) : bool :=
  is_bad (headroom r) (stall_percent s now r).
Definition healthy_at (s : State) (now : Z) (r : Reading) : bool :=
  is_healthy (headroom r) (stall_percent s now r).
Definition valid_at (s : State) (now : Z) (r : Reading) : bool :=
  is_valid (headroom r) (stall_percent s now r).

(** The state after sampling [l] in order. *)
Definition run_samples (s : State) (l : list (Z * Reading)) : State :=
  foldl (fun s '(now, r) => update s now r) s l.

(** Every sample of [l] is healthy and in time, starting from [s]. *)
Fixpoint all_healthy (s : State) (l : list (Z * Reading)) : Prop :=
  match l with
  | [] => True
  | (now, r) :: l =>
      comparable s now = true /\ healthy_at s now r = true /\ all_healthy (update s now r) l
  end.

Lemma run_snoc s l now r : run_samples s (l ++ [(now, r)]) = update (run_samples s l) now r.
Proof. unfold run_samples. by rewrite foldl_app. Qed.

Lemma all_healthy_snoc s l now r :
  all_healthy s l -> comparable (run_samples s l) now = true -> healthy_at (run_samples s l) now r = true ->
  all_healthy s (l ++ [(now, r)]).
Proof.
  revert s. induction l as [|[t r'] l IH]; intros s; simpl; [done|].
  intros (? & ? & ?) Hc Hh. split_and!; [done..|]. by apply IH.
Qed.

Lemma bad_not_healthy h p : is_bad h p = true -> is_valid h p = true.
Proof. unfold is_bad, is_valid. destruct h, p; done. Qed.

(** The fields of an update that the hysteresis is about. *)
Lemma update_fields s now r :
  let s0 := reset_if_stale s now in
  let c := classify s0 now (valid_at s now r) (bad_at s now r) (healthy_at s now r) in
  sampled_ms (update s now r) = now /\ state_version (update s now r) = VERSION /\
  bad_samples (update s now r) = bad_samples c /\
  healthy_since (update s now r) = healthy_since c /\
  pressured (update s now r) = pressured c.
Proof.
  intros s0 c. unfold update. fold s0. unfold valid_at, bad_at, healthy_at in c. fold c.
  unfold expire_recovery. by destruct (is_some_and _ _).
Qed.

Lemma reset_if_stale_cases s now :
  comparable s now = true /\ reset_if_stale s now = s \/
  comparable s now = false /\ bad_samples (reset_if_stale s now) = 0 /\
    healthy_since (reset_if_stale s now) = None /\ pressured (reset_if_stale s now) = false.
Proof.
  unfold reset_if_stale. destruct (comparable s now); [by left|right].
  by destruct (_ && _).
Qed.

Lemma update_bad_samples s now r :
  0 < bad_samples (update s now r) -> bad_at s now r = true.
Proof.
  pose proof (update_fields s now r) as (_ & _ & -> & _). simpl.
  destruct (reset_if_stale s now); unfold classify. repeat (case_match; simpl; try done); lia.
Qed.

(** A sample that turns pressure on is bad, in time, and follows a bad one. *)
Lemma update_turns_on s now r :
  0 <= bad_samples s -> pressured s = false -> pressured (update s now r) = true ->
  bad_at s now r = true /\ comparable s now = true /\ 0 < bad_samples s.
Proof.
  intros Hb Hp. pose proof (update_fields s now r) as (_ & _ & _ & _ & ->). simpl.
  destruct (reset_if_stale_cases s now) as [[Hc ->]|(Hc & Hb0 & _ & Hp0)].
  - destruct s; simpl in *; subst. unfold classify.
    repeat (case_match; simpl; try done); simp_bool; intros; split_and!; done || lia.
  - destruct (reset_if_stale s now); simpl in *; subst. unfold classify.
    repeat (case_match; simpl; try done).
Qed.

Lemma bad_samples_nonneg l : 0 <= bad_samples (run_samples default_state l).
Proof.
  induction l as [|[now r] l IH] using rev_ind; [done|]. rewrite run_snoc.
  pose proof (update_fields (run_samples default_state l) now r) as (_ & _ & -> & _).
  destruct (reset_if_stale_cases (run_samples default_state l) now) as [[_ ->]|(_ & Hb & _)].
  - destruct (run_samples default_state l); unfold classify in *; simpl in *.
    repeat (case_match; simpl; try done); lia.
  - destruct (reset_if_stale _ _); unfold classify in *; simpl in *; subst.
    repeat (case_match; simpl; try done); lia.
Qed.

Lemma comparable_bounds s now :
  comparable s now = true -> 0 < now - sampled_ms s <= STALE_MS.
Proof.
  unfold comparable, elapsed, checked_sub. intros [_ H]%andb_prop.
  destruct (sampled_ms s <=? now); simpl in *; [|done].
  destruct (_ && _) eqn:E; [|done]. simp_bool. lia.
Qed.

(** Pressure needs two bad samples in a row.  Whatever was sampled before,
    a sample that declares pressure is bad and comes within [STALE_MS] of a
    sample that was bad too; one bad reading never stops the machine. *)
Lemma pressure_needs_two_bad_samples history now r :
  pressured (run_samples default_state history) = false ->
  pressured (run_samples default_state (history ++ [(now, r)])) = true ->
  exists earlier now' r',
    history = earlier ++ [(now', r')] /\ 0 < now - now' <= STALE_MS /\
    bad_at (run_samples default_state earlier) now' r' = true /\
    bad_at (run_samples default_state history) now r = true.
Proof.
  intros Hoff Hon. rewrite run_snoc in Hon.
  apply update_turns_on in Hon as (Hbad & Hc & Hb); [|apply bad_samples_nonneg|done].
  destruct history as [|[now' r'] earlier _] using rev_ind; [done|].
  apply comparable_bounds in Hc.
  rewrite run_snoc in Hb, Hc.
  pose proof (update_fields (run_samples default_state earlier) now' r') as (Hs & _). rewrite Hs in Hc.
  exists earlier, now', r'. split_and!; [done|lia|lia|by apply update_bad_samples|done].
Qed.

(** While [healthy_since] is set, the samples since then were all healthy. *)
Lemma healthy_since_run l t0 :
  healthy_since (run_samples default_state l) = Some t0 ->
  exists pre r0 rest, l = pre ++ (t0, r0) :: rest /\
    all_healthy (run_samples default_state pre) ((t0, r0) :: rest).
Proof.
  revert t0. induction l as [|[now r] l IH] using rev_ind; intros t0; [done|].
  rewrite run_snoc. pose proof (update_fields (run_samples default_state l) now r) as (_ & _ & _ & -> & _).
  destruct (reset_if_stale_cases (run_samples default_state l) now) as [[Hc ->]|(_ & _ & Hh & Hp)].
  2: { destruct (reset_if_stale _ _); unfold classify in *; simpl in *; subst.
       repeat (case_match; simpl; try done). }
  assert (Hnew : forall h, healthy_at (run_samples default_state l) now r = true ->
    healthy_since (run_samples default_state l) = h -> Some (unwrap_or now h) = Some t0 ->
    exists pre r0 rest, l ++ [(now, r)] = pre ++ (t0, r0) :: rest /\
      all_healthy (run_samples default_state pre) ((t0, r0) :: rest)).
  { intros [t|] Hhealthy Hs [= <-]; simpl.
    - destruct (IH t Hs) as (pre & r0 & rest & Hl & Hall).
      exists pre, r0, (rest ++ [(now, r)]). split; [by rewrite Hl, <- app_assoc|].
      assert (Hrun : run_samples default_state l = run_samples (run_samples default_state pre) ((t, r0) :: rest))
        by (rewrite Hl; unfold run_samples; by rewrite foldl_app).
      rewrite Hrun in Hc, Hhealthy.
      exact (all_healthy_snoc _ _ _ _ Hall Hc Hhealthy).
    - exists l, r, []. simpl. done. }
  destruct (run_samples default_state l) as [v t rd b h p va rec adm] eqn:E. unfold classify.
  destruct (valid_at _ _ _); simpl; [|done]. destruct (bad_at _ _ _); [by case_match|].
  destruct p; simpl; [|done]. destruct (healthy_at _ _ _) eqn:Eh; [|done].
  destruct (5000 <=? _); simpl; [done|]. intros Ht. by apply (Hnew h).
Qed.

(** Pressure lifts only on evidence.  When a sample lifts it, either the
    evidence ran out (a gap of more than [STALE_MS], a clock step, a sample
    with no usable figure), or that sample and every sample of the five
    seconds before it were healthy and in time. *)
Lemma pressure_lifts_after_healthy_window history now r :
  let s := run_samples default_state history in
  pressured s = true ->
  pressured (run_samples default_state (history ++ [(now, r)])) = false ->
  comparable s now = false \/ valid_at s now r = false \/
  exists pre t0 r0 rest,
    history = pre ++ (t0, r0) :: rest /\ 5000 <= now - t0 /\
    all_healthy (run_samples default_state pre) ((t0, r0) :: rest ++ [(now, r)]).
Proof.
  intros s Hp. rewrite run_snoc. fold s.
  pose proof (update_fields s now r) as (_ & _ & _ & _ & ->).
  destruct (reset_if_stale_cases s now) as [[Hc ->]|(Hc & _)]; [|by left].
  destruct (valid_at s now r) eqn:Ev; [|by right; left].
  intros Hoff. right; right.
  assert (Hcl : healthy_at s now r = true /\ exists t0, healthy_since s = Some t0 /\ 5000 <= now - t0).
  { destruct s as [v t rd b h p va rec adm]; simpl in *; subst. unfold classify in Hoff.
    destruct (bad_at _ _ _); simpl in Hoff; [by case_match|].
    destruct (healthy_at _ _ _); simpl in Hoff; [|done]. split; [done|].
    destruct (Z.leb_spec 5000 (saturating_sub now (unwrap_or now h))); [|done].
    unfold saturating_sub in *. destruct h as [t0|]; simpl in *; [exists t0; split; [done|lia]|lia]. }
  destruct Hcl as [Hh (t0 & Hs & Hge)].
  destruct (healthy_since_run history t0 Hs) as (pre & r0 & rest & Hl & Hall).
  exists pre, t0, r0, rest. split_and!; [done|done|].
  assert (Hrun : s = run_samples (run_samples default_state pre) ((t0, r0) :: rest))
    by (subst s; rewrite Hl; unfold run_samples; by rewrite foldl_app).
  rewrite Hrun in Hc, Hh. exact (all_healthy_snoc _ _ _ _ Hall Hc Hh).
Qed.

(** A failed save loses nothing.  The state that could not be written is
    what the next attempt of the same process sees, so a broken state file
    neither probes on every poll nor resets the hysteresis. *)
Lemma failed_save_keeps_state st now r now' r' saves :
  is_recent (current_state st) now = false ->
  sampled_ms (unwrap_or default_state (state_file st)) < now ->
  now <= now' < now + INTERVAL_MS ->
  let '(answer, st') := sample st now r false in
  answer = None /\
  sample st' now' r' saves = (Some (update (current_state st) now r), st').
Proof.
  intros Hr Hold Hnow. unfold sample. rewrite Hr. split; [done|].
  set (s := update (current_state st) now r).
  pose proof (update_fields (current_state st) now r) as (Hs & Hv & _). fold s in Hs, Hv.
  clearbody s.
  assert (Hcur : current_state (mkStore (state_file st) (Some s)) = s).
  { unfold current_state. simpl. rewrite Hs.
    destruct (Z.ltb_spec (sampled_ms (unwrap_or default_state (state_file st))) now); [|lia].
    by rewrite orb_true_r. }
  rewrite Hcur. unfold is_recent. rewrite Hs, Hv. unfold checked_sub, INTERVAL_MS in *.
  destruct (Z.leb_spec now now'); [|lia]. simpl.
  destruct (Z.ltb_spec (now' - now) 500); [done|lia].
Qed.

(** ** Instances *)

Definition memory_reading (a : Z) : Reading := mkReading (Some 100) (Some a) ∅.

Lemma pressure_needs_two_bad_samples_witness :
  exists now' r', [(1000, memory_reading 4)] = [] ++ [(now', r')] /\ 0 < 1500 - now' <= STALE_MS.
Proof.
  destruct (pressure_needs_two_bad_samples [(1000, memory_reading 4)] 1500 (memory_reading 4))
    as ([|? earlier] & now' & r' & Heq & Ht & _).
  - vm_compute. reflexivity.
  - vm_compute. reflexivity.
  - exists now', r'. split; [exact Heq|exact Ht].
  - destruct earlier; discriminate Heq.
Defined.

(** Two bad samples, then healthy ones until recovery. *)
Definition recovery_history : list (Z * Reading) :=
  [(1000, memory_reading 4); (1500, memory_reading 4); (2000, memory_reading 11);
   (4000, memory_reading 11); (6000, memory_reading 11)].

Lemma pressure_lifts_after_healthy_window_witness :
  exists pre t0 r0 rest, recovery_history = pre ++ (t0, r0) :: rest /\ 5000 <= 7000 - t0.
Proof.
  destruct (pressure_lifts_after_healthy_window recovery_history 7000 (memory_reading 11))
    as [H|[H|(pre & t0 & r0 & rest & Heq & Ht & _)]].
  - vm_compute. reflexivity.
  - vm_compute. reflexivity.
  - vm_compute in H. discriminate H.
  - vm_compute in H. discriminate H.
  - exists pre, t0, r0, rest. split; [exact Heq|exact Ht].
Defined.

Lemma failed_save_keeps_state_witness :
  let st := (sample (mkStore None None) 1000 (memory_reading 4) false).2 in
  (sample st 1400 (memory_reading 50) true).1 =
    Some (update default_state 1000 (memory_reading 4)).
Proof.
  assert (H := failed_save_keeps_state (mkStore None None) 1000 (memory_reading 4) 1400
    (memory_reading 50) true eq_refl ltac:(vm_compute; reflexivity)
    ltac:(unfold INTERVAL_MS; lia)).
  destruct H as [_ H]. exact (f_equal fst H).
Defined.
