(* ===== verification/Admission.v ===== *)
(** * Admission decisions of the machine-wide scheduler

    Models, from [src/crates/mbx/src/scheduler.rs], the lease and waiter
    records, the resource arithmetic over them and [admission_decision_traced]:
    whether a request starts now in queue order ([Ordered]), starts now ahead
    of older waiters it cannot delay ([Passing]), or waits ([Waiting]).

    The theorems show that a request never starts beyond a budget it is charged
    to, that it only ever starts ahead of an older waiter which is exempt or
    provably not delayed on either axis, that the head of an idle pool always
    starts, and that tracing a decision does not change it. *)

From stdpp Require Import base list gmap strings sorting.
From Stdlib Require Import ZArith Lia.
From S2P Require Import Prelude SubsetSum.
Local Open Scope Z_scope.

(** ** Records *)

Record Resources := mkResources { cpu : Z; memory_bytes : Z }.

Record Lease := mkLease {
  lease_version : Z;
  lease_name : option string;
  lease_mode_key : option string;
  lease_weight : Z;
  lease_cpu : option Z;
  lease_memory_bytes : option Z;
  lease_priority : string;
  lease_build_id : option string;
  lease_domain : option string;
  lease_bytes_per_permit : Z
}.

Record Waiting := mkWaiting {
  pid : option Z;
  first_arrival_ms : option Z;
  wait_name : option string;
  wait_mode_key : option string;
  ticket : Z;
  weight : Z;
  wait_cpu : option Z;
  wait_memory_bytes : option Z;
  priority : string;
  domain : string;
  domain_capacity : Z;
  global_capacity : option Z;
  cpu_cap : option Z;
  mem_cap : option Z;
  domain_memory_cap : option Z;
  domain_cpu_cap : option Z;
  bytes_per_permit : Z;
  build : option (string * Z)
}.

#[export] Instance Resources_eq_dec : EqDecision Resources.
Proof. solve_decision. Defined.
#[export] Instance Lease_eq_dec : EqDecision Lease.
Proof. solve_decision. Defined.
#[export] Instance Waiting_eq_dec : EqDecision Waiting.
Proof. solve_decision. Defined.

(** ** Resource arithmetic *)

Definition fits (used weight capacity : Z) : bool :=
  (used =? 0) || is_some_and (fun total => total <=? capacity) (checked_add used weight).

(** [Resources::default]. *)
Definition no_resources : Resources := mkResources 0 0.

(** [Resources::fits]: a zero memory ceiling is no ceiling. *)
Definition resources_fit (self used request : Resources) : bool :=
  fits (cpu used) (cpu request) (cpu self) &&
  ((memory_bytes self =? 0) ||
   fits (memory_bytes used) (memory_bytes request) (memory_bytes self)).

Definition record_resources (c memory : option Z) (weight unit : Z) : Resources :=
  mkResources (unwrap_or weight c) (unwrap_or (saturating_mul weight unit) memory).

Definition lease_resources (l : Lease) : Resources :=
  record_resources (lease_cpu l) (lease_memory_bytes l) (lease_weight l)
    (lease_bytes_per_permit l).

Definition wait_resources (w : Waiting) : Resources :=
  record_resources (wait_cpu w) (wait_memory_bytes w) (weight w) (bytes_per_permit w).

Definition global_budget (w : Waiting) (fallback : Resources) : Resources :=
  mkResources
    (unwrap_or (cpu fallback) (option_or (cpu_cap w) (global_capacity w)))
    (match mem_cap w with
     | Some cap => cap
     | None =>
         match global_capacity w with
         | Some cap => saturating_mul cap (bytes_per_permit w)
         | None => memory_bytes fallback
         end
     end).

Definition domain_budget (w : Waiting) : Resources :=
  mkResources
    (unwrap_or (domain_capacity w) (domain_cpu_cap w))
    (unwrap_or (saturating_mul (domain_capacity w) (bytes_per_permit w)) (domain_memory_cap w)).

Definition MEMORY_QUANTUM : Z := 16 * 1024 * 1024.

Definition weight_in_units (weight original_unit unit : Z) : Z :=
  if unit =? 0 then weight
  else Z.max weight (div_ceil (saturating_mul weight original_unit) unit).

(** [scope_used]: a saturating fold over the charges of the leases. *)
Definition add_charge (used charge : Resources) : Resources :=
  mkResources (saturating_add (cpu used) (cpu charge))
    (saturating_add (memory_bytes used) (memory_bytes charge)).

Definition scope_used (leases : list Lease) : Resources :=
  foldl (fun used l => add_charge used (lease_resources l)) no_resources leases.

Definition in_domain (d : string) (l : Lease) : bool :=
  is_none_or (fun id => bool_decide (id = d)) (lease_domain l).

Definition in_build (b : string) (l : Lease) : bool :=
  bool_decide (lease_build_id l = Some b).

Definition domain_used (live : list Lease) (d : string) : Resources :=
  scope_used (List.filter (in_domain d) live).

Definition build_fits (live : list Lease) (b : option (string * Z)) (c : Z) : bool :=
  is_none_or (fun '(id, capacity) =>
    fits (cpu (scope_used (List.filter (in_build id) live))) c capacity) b.

(** ** The decision *)

Inductive AdmissionDecision := Ordered | Passing | WaitingDecision.

#[export] Instance AdmissionDecision_eq_dec : EqDecision AdmissionDecision.
Proof. solve_decision. Defined.

Definition priority_exception (older request : Waiting) : bool :=
  bool_decide (priority older = "low"%string) && bool_decide (priority request = "normal"%string).

Inductive Exception := ExceptionPriority | ExceptionBuild | ExceptionDomain.

Definition build_name (w : Waiting) : option string := fst <$> build w.

Definition older_exception (live : list Lease) (older request : Waiting) : option Exception :=
  if priority_exception older request then Some ExceptionPriority
  else if negb (build_fits live (build older) (cpu (wait_resources older)))
  then then_some (bool_decide (build_name older <> build_name request)) ExceptionBuild
  else if negb (resources_fit (domain_budget older) (domain_used live (domain older))
                  (wait_resources older))
  then then_some (bool_decide (domain older <> domain request)) ExceptionDomain
  else None.

(** A scope is a build, a domain, or the whole machine. *)
Definition lease_in_scope (b d : option string) (l : Lease) : bool :=
  is_none_or (fun id => in_build id l) b && is_none_or (fun id => in_domain id l) d.

Definition waiter_in_scope (b d : option string) (w : Waiting) : bool :=
  is_none_or (fun id => bool_decide (build_name w = Some id)) b &&
  is_none_or (fun id => bool_decide (domain w = id)) d.

Definition by_ticket (a b : Waiting) : Prop := ticket a <= ticket b.

#[export] Instance by_ticket_dec : RelDecision by_ticket.
Proof. intros a b. unfold by_ticket. apply _. Defined.

(** The older queue a decision looks at.  A traced decision collects all older
    waiters first and drops the priority exceptions afterwards.  The source
    sorts with an unstable sort; the ticket allocator keeps tickets distinct. *)
Definition older_queue (traced : bool) (waiting : list Waiting) (request : Waiting)
    : list Waiting :=
  merge_sort by_ticket
    (if traced
     then List.filter (fun o => negb (priority_exception o request))
            (List.filter (fun o => ticket o <? ticket request) waiting)
     else List.filter (fun o => (ticket o <? ticket request) &&
                                negb (priority_exception o request)) waiting).

(** [set.insert(key) && !allowed] behind a [guard]: [None] when the key is new
    and its scope refuses, otherwise the set with the key. *)
Definition check_once {K} `{Countable K} (guard : bool) (key : K) (checked : gset K)
    (allowed : bool) : option (gset K) :=
  if guard then
    if negb (bool_decide (key ∈ checked)) && negb allowed then None
    else Some ({[ key ]} ∪ checked)
  else Some checked.

(** [for waiter in &older], with the early return. *)
Fixpoint each_waiter {S} (step : Waiting -> S -> option S) (s : S) (ws : list Waiting)
    : option S :=
  match ws with
  | [] => Some s
  | w :: ws => s ← step w s; each_waiter step s ws
  end.

Section decision.
Context (live : list Lease) (older : list Waiting) (request : Waiting).

(** The closure [scope_allows]. *)
Definition scope_allows (budget : Resources) (b d : option string) : bool :=
  let live := map lease_resources (List.filter (lease_in_scope b d) live) in
  let heads := map wait_resources (List.filter (waiter_in_scope b d) older) in
  let charge := wait_resources request in
  passes (cpu budget) (map cpu live) (map cpu heads) (cpu charge) 1 &&
  ((memory_bytes budget =? 0) ||
   passes (memory_bytes budget) (map memory_bytes live) (map memory_bytes heads)
     (memory_bytes charge) MEMORY_QUANTUM).

(** The closure [scalar_scope_allows]. *)
Definition scalar_scope_allows (capacity unit : Z) (b d : option string) : bool :=
  passes capacity
    (map (fun l => weight_in_units (lease_weight l) (lease_bytes_per_permit l) unit)
      (List.filter (lease_in_scope b d) live))
    (map (fun w => weight_in_units (weight w) (bytes_per_permit w) unit)
      (List.filter (waiter_in_scope b d) older))
    (weight_in_units (weight request) (bytes_per_permit request) unit) 1.

(** One waiter of the first loop: every distinct physical ceiling is
    evaluated once.  [None] is the early return of [Waiting]. *)
Definition vector_step (budget : Resources) (w : Waiting)
    (sets : gset (Z * Z) * gset (bool * Z * Z)) : option (gset (Z * Z) * gset (bool * Z * Z)) :=
  let global := global_budget w budget in
  checked_global ← check_once true (cpu global, memory_bytes global) sets.1
    (scope_allows global None None);
  let dom := domain_budget w in
  checked ← check_once (bool_decide (domain w = domain request))
    (false, cpu dom, memory_bytes dom) sets.2 (scope_allows dom None (Some (domain w)));
  checked ← match build w, build request with
    | Some (id, ceiling), Some (request_id, _) =>
        check_once (bool_decide (id = request_id)) (true, ceiling, 0) checked
          (scope_allows (mkResources ceiling 0) (Some id) None)
    | _, _ => Some checked
    end;
  Some (checked_global, checked).

(** One waiter of the second loop: records of versions that know only
    weights are protected by the scalar arithmetic those versions use. *)
Definition scalar_step (capacity : Z) (w : Waiting) (scalar_checked : gset (Z * Z * Z))
    : option (gset (Z * Z * Z)) :=
  if is_some (wait_cpu w) && is_some (wait_memory_bytes w) then Some scalar_checked
  else
    let unit := bytes_per_permit w in
    let global := unwrap_or capacity (global_capacity w) in
    scalar_checked ← check_once true (0, global, unit) scalar_checked
      (scalar_scope_allows global unit None None);
    scalar_checked ← check_once (bool_decide (domain w = domain request))
      (1, domain_capacity w, unit) scalar_checked
      (scalar_scope_allows (domain_capacity w) unit None (Some (domain w)));
    match build w, build request with
    | Some (id, ceiling), Some (request_id, _) =>
        check_once (bool_decide (id = request_id)) (2, ceiling, unit) scalar_checked
          (scalar_scope_allows ceiling unit (Some id) None)
    | _, _ => Some scalar_checked
    end.

End decision.

(** The physical budget the request itself is charged to. *)
Definition request_budget (capacity : Z) (request : Waiting) : Resources :=
  global_budget request
    (mkResources capacity (saturating_mul capacity (bytes_per_permit request))).

Definition admission_decision_traced (traced : bool) (capacity : Z) (live : list Lease)
    (waiting : list Waiting) (request : Waiting) : AdmissionDecision :=
  let budget := request_budget capacity request in
  let charge := wait_resources request in
  if negb (build_fits live (build request) (cpu charge)) ||
     negb (resources_fit (domain_budget request) (domain_used live (domain request)) charge) ||
     negb (resources_fit budget (scope_used live) charge)
  then WaitingDecision
  else
    let older := older_queue traced waiting request in
    if negb (existsb (fun o => is_none (older_exception live o request)) older)
    then Ordered
    else if negb (scope_allows live older request budget None None) then WaitingDecision
    else if is_none (each_waiter (vector_step live older request budget)
                       ({[ (cpu budget, memory_bytes budget) ]}, ∅) older) then WaitingDecision
    else if is_none (each_waiter (scalar_step live older request capacity) ∅ older)
    then WaitingDecision
    else Passing.

Abbreviation admission_decision := (admission_decision_traced false).

#[global] Opaque lease_resources wait_resources global_budget domain_budget.

(** ** Well-formed records: every number is a [u64] *)

Definition opt_u64 (o : option Z) : Prop := forall x, o = Some x -> is_u64 x.

Definition lease_wf (l : Lease) : Prop :=
  is_u64 (lease_weight l) /\ opt_u64 (lease_cpu l) /\ opt_u64 (lease_memory_bytes l) /\
  is_u64 (lease_bytes_per_permit l).

Definition waiter_wf (w : Waiting) : Prop :=
  is_u64 (weight w) /\ opt_u64 (wait_cpu w) /\ opt_u64 (wait_memory_bytes w) /\
  is_u64 (bytes_per_permit w).

Definition resources_wf (r : Resources) : Prop := is_u64 (cpu r) /\ is_u64 (memory_bytes r).

Lemma is_u64_saturating_mul a b : 0 <= a -> 0 <= b -> is_u64 (saturating_mul a b).
Proof. intros. unfold is_u64, saturating_mul. pose proof (Z.mul_nonneg_nonneg a b). u64_solve. Qed.

Lemma is_u64_saturating_add a b : 0 <= a -> 0 <= b -> is_u64 (saturating_add a b).
Proof. intros. u64_solve. Qed.

Lemma is_u64_unwrap_or o d : opt_u64 o -> is_u64 d -> is_u64 (unwrap_or d o).
Proof. destruct o; simpl; auto. Qed.

Lemma record_resources_wf c m w u :
  is_u64 w -> opt_u64 c -> opt_u64 m -> is_u64 u -> resources_wf (record_resources c m w u).
Proof.
  intros Hw Hc Hm Hu. split; apply is_u64_unwrap_or; try done.
  apply is_u64_saturating_mul; [apply Hw|apply Hu].
Qed.

Lemma lease_resources_wf l : lease_wf l -> resources_wf (lease_resources l).
Proof. intros (? & ? & ? & ?). by apply record_resources_wf. Qed.

Lemma wait_resources_wf w : waiter_wf w -> resources_wf (wait_resources w).
Proof. intros (? & ? & ? & ?). by apply record_resources_wf. Qed.

#[export] Hint Resolve lease_resources_wf wait_resources_wf is_u64_saturating_mul
  is_u64_saturating_add is_u64_unwrap_or : mbx.

(** Whether a record is well-formed is decidable, for concrete queues. *)
#[export] Instance opt_u64_dec o : Decision (opt_u64 o).
Proof.
  destruct o as [x|]; [|by left].
  destruct (decide (is_u64 x)) as [H|H]; [left|right]; [by intros ? [= <-]|].
  intros Ho. by apply H, Ho.
Defined.
#[export] Instance lease_wf_dec l : Decision (lease_wf l).
Proof. unfold lease_wf. apply _. Defined.
#[export] Instance waiter_wf_dec w : Decision (waiter_wf w).
Proof. unfold waiter_wf. apply _. Defined.

(** ** Exact totals *)

Definition total (rs : list Resources) : Resources :=
  mkResources (sumZ (map cpu rs)) (sumZ (map memory_bytes rs)).

Lemma sumZ_map_nonneg {A} (f : A -> Z) l : Forall (fun a => 0 <= f a) l -> nonneg (map f l).
Proof. intros H. by apply Forall_map. Qed.

Lemma foldl_add_charge used leases :
  resources_wf used -> Forall lease_wf leases ->
  let t := total (map lease_resources leases) in
  foldl (fun used l => add_charge used (lease_resources l)) used leases =
    mkResources (saturating_add (cpu used) (cpu t))
      (saturating_add (memory_bytes used) (memory_bytes t)).
Proof.
  intros Hu Hl t. subst t. revert used Hu.
  induction Hl as [|l leases Hwf Hl IH]; intros [uc um] [Huc Hum]; simpl in *.
  { f_equal; u64_solve. }
  pose proof (lease_resources_wf l Hwf) as [Hc Hm].
  assert (Hn : 0 <= sumZ (map cpu (map lease_resources leases)) /\
               0 <= sumZ (map memory_bytes (map lease_resources leases))).
  { split; apply sumZ_nonneg, sumZ_map_nonneg, Forall_map; (eapply Forall_impl; [exact Hl|]);
      intros x Hx; by apply (lease_resources_wf x Hx). }
  rewrite IH by (split; simpl; apply is_u64_saturating_add; unfold is_u64 in *; lia).
  simpl. f_equal; unfold is_u64, saturating_add in *; lia.
Qed.

(** The saturating fold computes the exact totals, cut at [u64::MAX]. *)
Lemma scope_used_spec leases :
  Forall lease_wf leases ->
  let t := total (map lease_resources leases) in
  scope_used leases = mkResources (Z.min u64_max (cpu t)) (Z.min u64_max (memory_bytes t)).
Proof.
  intros Hl t. unfold scope_used. rewrite foldl_add_charge; [done|split; done|done].
Qed.

(** One axis of one scope: empty, or within its ceiling after the charge. *)
Definition axis_ok (used charge ceiling : Z) : Prop := used = 0 \/ used + charge <= ceiling.

Lemma fits_exact used charge ceiling :
  0 <= used -> 0 <= charge -> ceiling < u64_max ->
  fits (Z.min u64_max used) charge ceiling = true <-> axis_ok used charge ceiling.
Proof.
  intros Hu Hc Hm. unfold fits, axis_ok, checked_add, u64_max in *.
  rewrite orb_true_iff, Z.eqb_eq.
  destruct (Z.leb_spec (Z.min 18446744073709551615 used + charge) 18446744073709551615); simpl;
    rewrite ?Z.leb_le; split; intros [?|?]; try done; lia.
Qed.

(** Both axes of one scope; a zero memory ceiling is none. *)
Definition scope_ok (budget : Resources) (leases : list Lease) (charge : Resources) : Prop :=
  let t := total (map lease_resources leases) in
  axis_ok (cpu t) (cpu charge) (cpu budget) /\
  (memory_bytes budget = 0 \/ axis_ok (memory_bytes t) (memory_bytes charge) (memory_bytes budget)).

Lemma total_nonneg leases :
  Forall lease_wf leases ->
  0 <= cpu (total (map lease_resources leases)) /\
  0 <= memory_bytes (total (map lease_resources leases)).
Proof.
  intros Hl. split; apply sumZ_nonneg, sumZ_map_nonneg, Forall_map;
    (eapply Forall_impl; [exact Hl|]); intros x Hx; by apply (lease_resources_wf x Hx).
Qed.

Lemma resources_fit_exact budget leases charge :
  Forall lease_wf leases -> resources_wf charge ->
  cpu budget < u64_max -> memory_bytes budget < u64_max ->
  resources_fit budget (scope_used leases) charge = true <-> scope_ok budget leases charge.
Proof.
  intros Hl [Hc Hm] Hbc Hbm. pose proof (total_nonneg _ Hl) as [? ?].
  unfold resources_fit, scope_ok. rewrite scope_used_spec by done. simpl cpu. simpl memory_bytes.
  unfold is_u64 in *. rewrite andb_true_iff, orb_true_iff, Z.eqb_eq.
  rewrite !fits_exact by (simpl in *; lia). done.
Qed.

Lemma Forall_filter_bool {A} (P : A -> Prop) (p : A -> bool) l :
  Forall P l -> Forall P (List.filter p l).
Proof. induction 1; simpl; [constructor|]. case_match; [by constructor|done]. Qed.

Lemma build_fits_exact live b c :
  Forall lease_wf live -> 0 <= c -> (forall id cap, b = Some (id, cap) -> cap < u64_max) ->
  build_fits live b c = true <->
  forall id cap, b = Some (id, cap) ->
    axis_ok (cpu (total (map lease_resources (List.filter (in_build id) live)))) c cap.
Proof.
  intros Hl Hc Hcap. unfold build_fits. destruct b as [[id cap]|]; simpl; [|split; [done|done]].
  assert (Hf : Forall lease_wf (List.filter (in_build id) live)) by by apply Forall_filter_bool.
  pose proof (total_nonneg _ Hf) as [? _].
  rewrite scope_used_spec by done. simpl cpu.
  rewrite fits_exact; [|done|done|by eapply Hcap].
  split; [intros H1 ? ? [= <- <-]; done|intros H1; by apply (H1 id cap)].
Qed.

(** ** The older queue *)

Lemma filter_filter_bool {A} (p q : A -> bool) l :
  List.filter q (List.filter p l) = List.filter (fun a => p a && q a) l.
Proof.
  induction l as [|a l IH]; simpl; [done|]. destruct (p a); simpl; [by rewrite IH|done].
Qed.

Lemma older_queue_traced traced waiting request :
  older_queue traced waiting request = older_queue false waiting request.
Proof. unfold older_queue. destruct traced; [|done]. by rewrite filter_filter_bool. Qed.

Lemma elem_of_older_queue traced waiting request o :
  In o (older_queue traced waiting request) <->
  In o waiting /\ ticket o < ticket request /\ priority_exception o request = false.
Proof.
  rewrite older_queue_traced. unfold older_queue.
  rewrite <- list_elem_of_In, merge_sort_Permutation, list_elem_of_In, filter_In.
  rewrite andb_true_iff, Z.ltb_lt, negb_true_iff. tauto.
Qed.

(** ** What the loops establish *)

#[global] Arguments check_once : simpl never.
#[global] Arguments scope_allows : simpl never.

Lemma check_once_sound {K} `{Countable K} (P : K -> Prop) guard key checked checked' allowed :
  check_once guard key checked allowed = Some checked' ->
  (guard = true -> allowed = true -> P key) -> (forall k, k ∈ checked -> P k) ->
  (guard = true -> P key) /\ (forall k, k ∈ checked' -> P k).
Proof.
  unfold check_once. intros Hc Hok Hin. destruct guard; simplify_eq; [|done].
  destruct (negb _ && negb allowed) eqn:E; simplify_eq.
  assert (HP : P key).
  { destruct allowed; [by apply Hok|]. rewrite andb_true_r in E. simp_bool. by apply Hin. }
  split; [done|]. intros k [->%elem_of_singleton|Hk]%elem_of_union; auto.
Qed.

(** An invariant of the state and a fact per waiter. *)
Lemma each_waiter_sound {S} (step : Waiting -> S -> option S) (I : S -> Prop) (P : Waiting -> Prop)
    s s' ws :
  (forall w s s', I s -> step w s = Some s' -> I s' /\ P w) ->
  I s -> each_waiter step s ws = Some s' -> Forall P ws.
Proof.
  intros Hstep. revert s. induction ws as [|w ws IH]; intros s Hs Hl; simpl in Hl; [constructor|].
  destruct (step w s) as [s1|] eqn:E; simpl in Hl; [|done].
  apply Hstep in E as [? ?]; [|done]. constructor; eauto.
Qed.

Section loops.
Context (live : list Lease) (older : list Waiting) (request : Waiting).

(** Every vector ceiling of waiter [w] that also binds the request allows it. *)
Definition vector_allows (budget : Resources) (w : Waiting) : Prop :=
  scope_allows live older request (global_budget w budget) None None = true /\
  (domain w = domain request ->
   scope_allows live older request (domain_budget w) None (Some (domain request)) = true) /\
  (forall id cap cap', build w = Some (id, cap) -> build request = Some (id, cap') ->
   scope_allows live older request (mkResources cap 0) (Some id) None = true).

(** What a key of [checked_global] or [checked] stands for. *)
Definition global_key_ok (k : Z * Z) : Prop :=
  scope_allows live older request (mkResources k.1 k.2) None None = true.
Definition scope_key_ok (k : bool * Z * Z) : Prop :=
  if k.1.1
  then forall id cap, build request = Some (id, cap) ->
    scope_allows live older request (mkResources k.1.2 k.2) (Some id) None = true
  else scope_allows live older request (mkResources k.1.2 k.2) None (Some (domain request)) = true.

Lemma vector_step_sound budget w sets sets' :
  (forall k, k ∈ sets.1 -> global_key_ok k) /\ (forall k, k ∈ sets.2 -> scope_key_ok k) ->
  vector_step live older request budget w sets = Some sets' ->
  ((forall k, k ∈ sets'.1 -> global_key_ok k) /\ (forall k, k ∈ sets'.2 -> scope_key_ok k)) /\
  vector_allows budget w.
Proof.
  intros [Hg Hs]. unfold vector_step, vector_allows.
  destruct (global_budget w budget) as [gc gm], (domain_budget w) as [dc dm]; simpl.
  intros (cg & E1 & (ch & E2 & (ch' & E3 & [= <-])%bind_Some)%bind_Some)%bind_Some.
  apply (check_once_sound global_key_ok) in E1 as [HG Hcg]; [|done|done].
  apply (check_once_sound scope_key_ok) in E2 as [HD Hch];
    [|intros Hd%bool_decide_eq_true; unfold scope_key_ok; simpl; by rewrite Hd|done].
  assert (H3 : (forall k, k ∈ ch' -> scope_key_ok k) /\
    forall id cap cap', build w = Some (id, cap) -> build request = Some (id, cap') ->
      scope_key_ok (true, cap, 0)).
  { destruct (build w) as [[id cap]|], (build request) as [[rid rcap]|] eqn:Er; simplify_eq; try done.
    apply (check_once_sound scope_key_ok) in E3 as [HB Hch']; [|clear E3|done].
    - split; [done|]. intros ? ? ? [= <- <-] [= -> ->]. apply HB. by apply bool_decide_eq_true.
    - intros <-%bool_decide_eq_true Hok ? ? Hr. by simplify_eq. }
  destruct H3 as [Hch' HB]. simpl. split_and!; [done|done|by apply HG| |].
  - intros Heq. by apply HD, bool_decide_eq_true.
  - intros id cap cap' Hw Hr. exact (HB id cap cap' Hw Hr id cap' Hr).
Qed.

(** Every scalar ceiling of a weights-only waiter that binds the request. *)
Definition scalar_allows (capacity : Z) (w : Waiting) : Prop :=
  wait_cpu w = None \/ wait_memory_bytes w = None ->
  let unit := bytes_per_permit w in
  scalar_scope_allows live older request (unwrap_or capacity (global_capacity w)) unit None None
    = true /\
  (domain w = domain request ->
   scalar_scope_allows live older request (domain_capacity w) unit None (Some (domain request))
     = true) /\
  (forall id cap cap', build w = Some (id, cap) -> build request = Some (id, cap') ->
   scalar_scope_allows live older request cap unit (Some id) None = true).

Definition scalar_key_ok (k : Z * Z * Z) : Prop :=
  let '(scope, cap, unit) := k in
  if scope =? 0 then scalar_scope_allows live older request cap unit None None = true
  else if scope =? 1
  then scalar_scope_allows live older request cap unit None (Some (domain request)) = true
  else forall id rcap, build request = Some (id, rcap) ->
    scalar_scope_allows live older request cap unit (Some id) None = true.

Lemma scalar_step_sound capacity w checked checked' :
  (forall k, k ∈ checked -> scalar_key_ok k) ->
  scalar_step live older request capacity w checked = Some checked' ->
  (forall k, k ∈ checked' -> scalar_key_ok k) /\ scalar_allows capacity w.
Proof.
  intros Hs. unfold scalar_step, scalar_allows.
  destruct (is_some (wait_cpu w) && is_some (wait_memory_bytes w)) eqn:En.
  { intros [= <-]. split; [done|].
    destruct (wait_cpu w), (wait_memory_bytes w); simpl in *; by intros [?|?]. }
  clear En. intros (c1 & E1 & (c2 & E2 & E3)%bind_Some)%bind_Some.
  apply (check_once_sound scalar_key_ok) in E1 as [HG Hc1]; [|done|done].
  apply (check_once_sound scalar_key_ok) in E2 as [HD Hc2];
    [|intros Hd%bool_decide_eq_true; simpl; by rewrite Hd|done].
  assert (H3 : (forall k, k ∈ checked' -> scalar_key_ok k) /\
    forall id cap cap', build w = Some (id, cap) -> build request = Some (id, cap') ->
      scalar_key_ok (2, cap, bytes_per_permit w)).
  { destruct (build w) as [[id cap]|], (build request) as [[rid rcap]|] eqn:Er; simplify_eq; try done.
    apply (check_once_sound scalar_key_ok) in E3 as [HB Hch']; [|clear E3|done].
    - split; [done|]. intros ? ? ? [= <- <-] [= -> ->]. apply HB. by apply bool_decide_eq_true.
    - intros <-%bool_decide_eq_true Hok ? ? Hr. by simplify_eq. }
  destruct H3 as [Hc3 HB]. split; [done|]. intros _. split_and!; [by apply HG| |].
  - intros Heq. by apply HD, bool_decide_eq_true.
  - intros id cap cap' Hw Hr. exact (HB id cap cap' Hw Hr id cap' Hr).
Qed.
End loops.

(** ** Protection of older waiters on both axes at once *)

(** Once [completed] of the items charged to [budget] have finished, [need]
    fits beside what is left of [live]. *)
Definition has_room (budget : Resources) (live completed : list Resources) (need : Resources)
    : Prop :=
  cpu need <= cpu budget - cpu (total live) + cpu (total completed) /\
  (memory_bytes budget = 0 \/
   memory_bytes need <=
     memory_bytes budget - memory_bytes (total live) + memory_bytes (total completed)).

(** Starting [charge] now delays no prefix of [older] under [budget]: any set
    of completions of running items and earlier waiters that makes room for
    the prefix makes room for the prefix and the charge together. *)
Definition protected (budget : Resources) (live older : list Resources) (charge : Resources)
    : Prop :=
  forall before h after completed,
    older = before ++ h :: after ->
    sublist completed (live ++ before) ->
    has_room budget live completed (total (before ++ [h])) ->
    has_room budget live completed (total (before ++ [h; charge])).

Lemma never_delays_map (f : Resources -> Z) capacity live older charge before h after completed :
  never_delays capacity (map f live) (map f older) charge ->
  older = before ++ h :: after -> sublist completed (live ++ before) ->
  sumZ (map f (before ++ [h])) <= capacity - sumZ (map f live) + sumZ (map f completed) ->
  sumZ (map f (before ++ [h])) + charge <=
    capacity - sumZ (map f live) + sumZ (map f completed).
Proof.
  intros Hn -> Hs. rewrite map_app. apply (Hn (map f before) (f h) (map f after)).
  - by rewrite map_app.
  - rewrite <- map_app. by apply fmap_sublist.
Qed.

Lemma protected_of_axes budget live older charge :
  never_delays (cpu budget) (map cpu live) (map cpu older) (cpu charge) ->
  memory_bytes budget = 0 \/
  never_delays (memory_bytes budget) (map memory_bytes live) (map memory_bytes older)
    (memory_bytes charge) ->
  protected budget live older charge.
Proof.
  intros Hc Hm before h after completed Heq Hs [Hrc Hrm]. unfold has_room, total in *.
  simpl in *.
  assert (Hsplit : forall f : Resources -> Z,
    sumZ (map f (before ++ [h; charge])) = sumZ (map f (before ++ [h])) + f charge).
  { intros f. rewrite !map_app, !sumZ_app. simpl. lia. }
  rewrite !Hsplit. split; [by eapply never_delays_map|].
  destruct Hm as [Hm|Hm]; [by left|]. destruct Hrm as [?|Hrm]; [by left|right].
  by eapply never_delays_map.
Qed.

Definition scope_leases (live : list Lease) (b d : option string) : list Resources :=
  map lease_resources (List.filter (lease_in_scope b d) live).
Definition scope_waiters (older : list Waiting) (b d : option string) : list Resources :=
  map wait_resources (List.filter (waiter_in_scope b d) older).

Lemma nonneg_scope_leases live b d :
  Forall lease_wf live ->
  nonneg (map cpu (scope_leases live b d)) /\ nonneg (map memory_bytes (scope_leases live b d)).
Proof.
  intros Hl. apply (Forall_filter_bool _ (lease_in_scope b d)) in Hl.
  split; apply Forall_map, Forall_map; (eapply Forall_impl; [exact Hl|]);
    intros l Hw; by apply (lease_resources_wf l Hw).
Qed.

Lemma nonneg_scope_waiters older b d :
  Forall waiter_wf older ->
  nonneg (map cpu (scope_waiters older b d)) /\ nonneg (map memory_bytes (scope_waiters older b d)).
Proof.
  intros Hl. apply (Forall_filter_bool _ (waiter_in_scope b d)) in Hl.
  split; apply Forall_map, Forall_map; (eapply Forall_impl; [exact Hl|]);
    intros l Hw; by apply (wait_resources_wf l Hw).
Qed.

Lemma passes_never_delays capacity live older charge unit :
  0 < unit -> nonneg live -> nonneg older ->
  passes capacity live older charge unit = true -> never_delays capacity live older charge.
Proof.
  intros Hu Hl Ho Hp before h after completed Heq.
  by apply (passes_prefix_safe _ _ _ _ _ Hu Hl Ho Hp before h after).
Qed.

Lemma scope_allows_protected live older request budget b d :
  Forall lease_wf live -> Forall waiter_wf older ->
  scope_allows live older request budget b d = true ->
  protected budget (scope_leases live b d) (scope_waiters older b d) (wait_resources request).
Proof.
  intros Hl Ho. unfold scope_allows. intros [Hc Hm]%andb_prop.
  pose proof (nonneg_scope_leases live b d Hl) as [? ?].
  pose proof (nonneg_scope_waiters older b d Ho) as [? ?].
  apply protected_of_axes; [apply (passes_never_delays _ _ _ _ 1); [lia|done..]|].
  apply orb_prop in Hm as [?%Z.eqb_eq|Hm]; [by left|right].
  apply (passes_never_delays _ _ _ _ MEMORY_QUANTUM); [unfold MEMORY_QUANTUM; lia|done..].
Qed.

(** The scopes of waiter [w] the request would draw on too: the machine, the
    shared domain and the shared build, each with the ceilings [w] sees. *)
Definition waiter_protected (live : list Lease) (older : list Waiting) (request w : Waiting)
    (budget : Resources) : Prop :=
  let charge := wait_resources request in
  protected (global_budget w budget)
    (scope_leases live None None) (scope_waiters older None None) charge /\
  (domain w = domain request ->
   protected (domain_budget w) (scope_leases live None (Some (domain request)))
     (scope_waiters older None (Some (domain request))) charge) /\
  (forall id cap cap', build w = Some (id, cap) -> build request = Some (id, cap') ->
   protected (mkResources cap 0) (scope_leases live (Some id) None)
     (scope_waiters older (Some id) None) charge).

(** The same for a record that carries only a weight, in its own units. *)
Definition waiter_protected_scalar (live : list Lease) (older : list Waiting)
    (request w : Waiting) (capacity : Z) : Prop :=
  let unit := bytes_per_permit w in
  let ok cap b d :=
    never_delays cap
      (map (fun l => weight_in_units (lease_weight l) (lease_bytes_per_permit l) unit)
        (List.filter (lease_in_scope b d) live))
      (map (fun v => weight_in_units (weight v) (bytes_per_permit v) unit)
        (List.filter (waiter_in_scope b d) older))
      (weight_in_units (weight request) (bytes_per_permit request) unit) in
  wait_cpu w = None \/ wait_memory_bytes w = None ->
  ok (unwrap_or capacity (global_capacity w)) None None /\
  (domain w = domain request -> ok (domain_capacity w) None (Some (domain request))) /\
  (forall id cap cap', build w = Some (id, cap) -> build request = Some (id, cap') ->
   ok cap (Some id) None).

Lemma weight_in_units_nonneg w u unit :
  0 <= w -> 0 <= u -> 0 <= unit -> 0 <= weight_in_units w u unit.
Proof. intros. unfold weight_in_units. case_match; lia. Qed.

Lemma scalar_scope_allows_protected live older request capacity unit b d :
  Forall lease_wf live -> Forall waiter_wf older -> 0 <= unit ->
  scalar_scope_allows live older request capacity unit b d = true ->
  never_delays capacity
    (map (fun l => weight_in_units (lease_weight l) (lease_bytes_per_permit l) unit)
      (List.filter (lease_in_scope b d) live))
    (map (fun v => weight_in_units (weight v) (bytes_per_permit v) unit)
      (List.filter (waiter_in_scope b d) older))
    (weight_in_units (weight request) (bytes_per_permit request) unit).
Proof.
  intros Hl Ho Hu. apply passes_never_delays; [lia| |]; apply Forall_map.
  - apply Forall_filter_bool. eapply Forall_impl; [exact Hl|]. intros l Hw.
    destruct Hw as ([? ?] & _ & _ & [? ?]). by apply weight_in_units_nonneg.
  - apply Forall_filter_bool. eapply Forall_impl; [exact Ho|]. intros l Hw.
    destruct Hw as ([? ?] & _ & _ & [? ?]). by apply weight_in_units_nonneg.
Qed.

(** ** Properties of the decision *)

Lemma decision_cases traced capacity live waiting request :
  let d := admission_decision_traced traced capacity live waiting request in
  let charge := wait_resources request in
  d <> WaitingDecision ->
  build_fits live (build request) (cpu charge) = true /\
  resources_fit (domain_budget request) (domain_used live (domain request)) charge = true /\
  resources_fit (request_budget capacity request) (scope_used live) charge = true.
Proof.
  intros d charge Hd. subst d. unfold admission_decision_traced in Hd. fold charge in Hd.
  destruct (build_fits _ _ _), (resources_fit (domain_budget _) _ _),
    (resources_fit (request_budget _ _) _ _); simpl in Hd; done.
Qed.

(** The ceilings the request is charged to are below [u64::MAX]. *)
Definition finite_budgets (capacity : Z) (request : Waiting) : Prop :=
  cpu (request_budget capacity request) < u64_max /\
  memory_bytes (request_budget capacity request) < u64_max /\
  cpu (domain_budget request) < u64_max /\ memory_bytes (domain_budget request) < u64_max /\
  (forall id cap, build request = Some (id, cap) -> cap < u64_max).

(** C4: no admission exceeds a budget.  A request that starts, in order or
    passing, fits the machine, its domain and its build on both axes, where
    each axis of a scope is exempt only while nothing is charged to it.  The
    totals are exact: the saturating arithmetic of the source loses nothing. *)
Theorem admission_within_budgets traced capacity live waiting request :
  Forall lease_wf live -> waiter_wf request -> finite_budgets capacity request ->
  admission_decision_traced traced capacity live waiting request <> WaitingDecision ->
  let charge := wait_resources request in
  scope_ok (request_budget capacity request) live charge /\
  scope_ok (domain_budget request) (List.filter (in_domain (domain request)) live) charge /\
  (forall id cap, build request = Some (id, cap) ->
    axis_ok (cpu (total (map lease_resources (List.filter (in_build id) live))))
      (cpu charge) cap).
Proof.
  intros Hl Hr (Hgc & Hgm & Hdc & Hdm & Hb) (Hbf & Hdf & Hgf)%decision_cases charge.
  pose proof (wait_resources_wf request Hr) as Hch. split_and!.
  - by apply resources_fit_exact.
  - apply resources_fit_exact; [by apply Forall_filter_bool|done..].
  - apply build_fits_exact; [done|by apply Hch|done|done].
Qed.

(** Queue order.  A request that starts in order leaves behind no older
    waiter that could start: each one is of lower priority, or is blocked by
    its own full build or full domain, which the request does not share. *)
Lemma ordered_respects_queue traced capacity live waiting request :
  admission_decision_traced traced capacity live waiting request = Ordered ->
  forall o, In o waiting -> ticket o < ticket request ->
    priority o = "low"%string /\ priority request = "normal"%string \/
    build_fits live (build o) (cpu (wait_resources o)) = false /\
      build_name o <> build_name request \/
    resources_fit (domain_budget o) (domain_used live (domain o)) (wait_resources o) = false /\
      domain o <> domain request.
Proof.
  intros Hd o Ho Ht. unfold admission_decision_traced in Hd.
  destruct (_ || _ || _); [done|].
  destruct (existsb _ _) eqn:He; simpl in Hd.
  { repeat (case_match; try done). }
  destruct (priority_exception o request) eqn:Ep; unfold priority_exception in Ep.
  { left. simp_bool. done. }
  right. apply not_true_iff_false in He. rewrite existsb_exists in He.
  destruct (older_exception live o request) as [e|] eqn:Ee.
  - unfold older_exception, priority_exception in Ee. rewrite Ep in Ee.
    destruct (build_fits _ _ _); [right|left]; simpl in Ee; unfold then_some in Ee;
      repeat case_match; simp_bool; done.
  - destruct He. exists o. rewrite Ee. split; [|done]. by apply elem_of_older_queue.
Qed.

(** C3: safe passing.  A request that starts ahead of blocked older waiters
    delays none of them: for every older waiter that is not outranked, and for
    each scope the two share, any completions that would make room for a
    prefix of that scope's queue still do with the request running.  A waiter
    the request outranks by the exception for priorities is not protected.
    Records written without separate axes are protected in their own scalar units. *)
Theorem passing_protects_older traced capacity live waiting request :
  Forall lease_wf live -> Forall waiter_wf waiting ->
  admission_decision_traced traced capacity live waiting request = Passing ->
  let older := older_queue false waiting request in
  forall w, In w waiting -> ticket w < ticket request -> priority_exception w request = false ->
    waiter_protected live older request w (request_budget capacity request) /\
    waiter_protected_scalar live older request w capacity.
Proof.
  intros Hl Hw Hd older w Hin Ht Hp. unfold admission_decision_traced in Hd.
  rewrite older_queue_traced in Hd. fold older in Hd.
  destruct (_ || _ || _); [done|]. destruct (negb (existsb _ _)); [done|].
  set (budget := request_budget capacity request) in *.
  destruct (scope_allows live older request budget None None) eqn:Eg; simpl in Hd; [|done].
  destruct (each_waiter (vector_step _ _ _ _) _ _) as [s|] eqn:Ev; simpl in Hd; [|done].
  destruct (each_waiter (scalar_step _ _ _ _) _ _) as [s'|] eqn:Es; simpl in Hd; [|done].
  assert (Ho : Forall waiter_wf older).
  { apply Forall_forall. intros o Ho%list_elem_of_In.
    apply elem_of_older_queue in Ho as [Ho%list_elem_of_In _].
    rewrite Forall_forall in Hw. by apply Hw. }
  assert (Hmem : w ∈ older) by (by apply list_elem_of_In, elem_of_older_queue).
  eapply (each_waiter_sound _ _ _ _ _ _ (vector_step_sound live older request budget)) in Ev.
  2: { simpl. split; [|set_solver]. intros k ->%elem_of_singleton. unfold global_key_ok. simpl.
       by destruct budget. }
  eapply (each_waiter_sound _ _ _ _ _ _ (scalar_step_sound live older request capacity)) in Es;
    [|set_solver].
  rewrite Forall_forall in Ev, Es. specialize (Ev w Hmem) as (Hg & Hdm & Hb).
  specialize (Es w Hmem). rewrite Forall_forall in Hw. specialize (Hw w (proj2 (list_elem_of_In _ _) Hin)).
  split.
  - split_and!; [|intros Heq|intros id cap cap' Hbw Hbr]; apply scope_allows_protected; eauto.
  - intros Hs. destruct (Es Hs) as (Hsg & Hsd & Hsb). assert (0 <= bytes_per_permit w) by apply Hw.
    split_and!; [|intros Heq|intros id cap cap' Hbw Hbr];
      apply scalar_scope_allows_protected; eauto.
Qed.

Lemma idle_head_ordered traced capacity waiting request :
  (forall o, In o waiting -> ticket o < ticket request -> priority_exception o request = true) ->
  admission_decision_traced traced capacity [] waiting request = Ordered.
Proof.
  intros Hw. unfold admission_decision_traced.
  assert (Hq : older_queue traced waiting request = []).
  { destruct (older_queue traced waiting request) as [|o l] eqn:E; [done|].
    assert (Ho : In o (older_queue traced waiting request)) by (rewrite E; by left).
    apply elem_of_older_queue in Ho as (Hi & Ht & Hp). by rewrite (Hw o Hi Ht) in Hp. }
  rewrite Hq. unfold build_fits, resources_fit, domain_used, scope_used. simpl.
  rewrite !orb_true_r. destruct (build request) as [[id cap]|]; done.
Qed.

(** Tracing a decision for the log does not change it. *)
Lemma tracing_is_transparent capacity live waiting request :
  admission_decision_traced true capacity live waiting request =
  admission_decision_traced false capacity live waiting request.
Proof. unfold admission_decision_traced. by rewrite older_queue_traced. Qed.

(** ** Instances *)

(** Two leases and two waiters on an eight-core machine without a memory
    ceiling. *)
Definition demo_lease (c : Z) : Lease :=
  mkLease 1 (Some "crate"%string) None c (Some c) (Some 0) "normal" None (Some "d"%string) 0.
Definition demo_waiter (t c : Z) (pr : string) : Waiting :=
  mkWaiting None None (Some "crate"%string) None t c (Some c) (Some 0) pr "d" 8 (Some 8)
    (Some 8) (Some 0) (Some 0) (Some 8) 0 None.
Definition demo_live : list Lease := [demo_lease 4; demo_lease 2].

Lemma admission_within_budgets_witness :
  scope_ok (mkResources 8 0) demo_live (mkResources 1 0).
Proof.
  destruct (admission_within_budgets false 8 demo_live [demo_waiter 1 5 "normal"]
    (demo_waiter 2 1 "normal")) as [H _].
  - apply (bool_decide_eq_true_1 _). vm_compute. reflexivity.
  - apply (bool_decide_eq_true_1 _). vm_compute. reflexivity.
  - split_and!; [vm_compute; reflexivity..|]. intros id cap H. discriminate H.
  - vm_compute. congruence.
  - exact H.
Defined.

Lemma ordered_respects_queue_witness :
  priority_exception (demo_waiter 1 5 "low") (demo_waiter 2 1 "normal") = true.
Proof.
  destruct (ordered_respects_queue false 8 demo_live [demo_waiter 1 5 "low"]
    (demo_waiter 2 1 "normal") eq_refl (demo_waiter 1 5 "low")) as [[H1 H2]|[[H _]|[_ H]]].
  - by left.
  - vm_compute. reflexivity.
  - reflexivity.
  - discriminate H.
  - by destruct H.
Defined.

Lemma passing_protects_older_witness :
  admission_decision 8 demo_live [demo_waiter 1 5 "normal"] (demo_waiter 2 1 "normal") = Passing /\
  protected (mkResources 8 0) [mkResources 4 0; mkResources 2 0] [mkResources 5 0] (mkResources 1 0).
Proof.
  split; [vm_compute; reflexivity|].
  refine (proj1 (proj1 (passing_protects_older false 8 demo_live [demo_waiter 1 5 "normal"]
    (demo_waiter 2 1 "normal") _ _ _ (demo_waiter 1 5 "normal") _ _ _))).
  - apply (bool_decide_eq_true_1 _). vm_compute. reflexivity.
  - apply (bool_decide_eq_true_1 _). vm_compute. reflexivity.
  - vm_compute. reflexivity.
  - by left.
  - vm_compute. reflexivity.
  - vm_compute. reflexivity.
Defined.
