(* ===== verification/Pool.v ===== *)
(** * Pools: sizes, budgets and charges

    Models, from [src/crates/mbx/src/scheduler.rs] and
    [src/crates/mbx/src/config.rs], how a process sizes the machine-wide pool
    it draws from (from configuration, from the session's environment, or for
    [mbx reserve]), the headroom a low-priority build leaves, the local
    ceilings of a memory domain, and the projection of a memory prediction
    onto the charge an admission asks for.

    Figures of the machine ([available_parallelism], total memory) are
    arguments, [Machine]. *)

From stdpp Require Import base list gmap strings sorting.
From Stdlib Require Import ZArith Lia.
From S2P Require Import Prelude SubsetSum Pressure Admission.
Local Open Scope Z_scope.

(** ** Configuration *)

Inductive SchedulerPriority := Low | Normal.

#[export] Instance SchedulerPriority_eq_dec : EqDecision SchedulerPriority.
Proof. solve_decision. Defined.

Definition priority_str (p : SchedulerPriority) : string :=
  match p with Low => "low" | Normal => "normal" end.

Record SchedulerSettings := mkSettings {
  enabled : bool;
  cpus : Z;
  reserve_cpus : Z;
  settings_memory : option Z;
  settings_priority : SchedulerPriority;
  settings_pressure : bool
}.

(** [SchedulerSettings::permits]. *)
Definition permits (s : SchedulerSettings) : Z :=
  Z.max (saturating_sub (cpus s) (reserve_cpus s)) 1.

(** [bytes_per_permit] of the source. *)
Definition permit_bytes (memory : option Z) (cpus : Z) : Z :=
  match memory with Some m => m / Z.max cpus 1 | None => 0 end.

Record Machine := mkMachine { default_capacity : Z; memory_total : option Z }.

(** ** Local ceilings *)

Definition local_memory_ceiling (budget : Z) (local : option Z) : Z :=
  match local with
  | Some bytes => if bytes <? budget then bytes / 100 * 85 else budget
  | None => budget
  end.

Definition legacy_local_ceiling (capacity bpp cpus : Z) (memory : option Z) : Z :=
  let memory :=
    if bpp =? 0 then capacity
    else
      match memory with
      | Some bytes =>
          let budget := saturating_mul capacity bpp in
          if bytes <? budget then (bytes / 100 * 85) / bpp else capacity
      | None => capacity
      end in
  Z.max (Z.min (Z.min capacity cpus) memory) 1.

Definition local_ceiling (c memory local_cpus : Z) (local_memory : option Z) : Resources :=
  mkResources (Z.max (Z.min c local_cpus) 1) (local_memory_ceiling memory local_memory).

(** ** The pool *)

Record Pool := mkPool {
  capacity : Z;
  pool_domain_capacity : Z;
  legacy_domain_capacity : Z;
  memory_capacity : Z;
  domain_memory_capacity : Z;
  pool_build : option (string * Z);
  pool_bytes_per_permit : Z;
  events : bool;
  pool_priority : SchedulerPriority;
  pressure : bool;
  pressure_domain : string
}.

(** [Pool::new]. *)
Definition pool_new (m : Machine) (dom : string) (capacity bpp : Z) (p : SchedulerPriority) : Pool :=
  {| capacity := Z.max capacity 1;
     pool_domain_capacity := cpu (local_ceiling capacity 0 (default_capacity m) None);
     legacy_domain_capacity :=
       legacy_local_ceiling capacity bpp (default_capacity m) (memory_total m);
     memory_capacity := saturating_mul capacity bpp;
     domain_memory_capacity :=
       local_memory_ceiling (saturating_mul capacity bpp) (memory_total m);
     pool_build := None;
     pool_bytes_per_permit := bpp;
     events := true;
     pool_priority := p;
     pressure := true;
     pressure_domain := dom |}.

(** The assignments callers make to a fresh pool. *)
Definition set_memory_capacity (m : Machine) (p : Pool) (memory : Z) : Pool :=
  {| capacity := capacity p; pool_domain_capacity := pool_domain_capacity p;
     legacy_domain_capacity := legacy_domain_capacity p;
     memory_capacity := memory;
     domain_memory_capacity := local_memory_ceiling memory (memory_total m);
     pool_build := pool_build p; pool_bytes_per_permit := pool_bytes_per_permit p;
     events := events p; pool_priority := pool_priority p; pressure := pressure p;
     pressure_domain := pressure_domain p |}.

Definition set_limits (p : Pool) (dom_cap : Z) (ev pr : bool) (b : option (string * Z)) : Pool :=
  {| capacity := capacity p; pool_domain_capacity := dom_cap;
     legacy_domain_capacity := legacy_domain_capacity p;
     memory_capacity := memory_capacity p; domain_memory_capacity := domain_memory_capacity p;
     pool_build := b; pool_bytes_per_permit := pool_bytes_per_permit p;
     events := ev; pool_priority := pool_priority p; pressure := pr;
     pressure_domain := pressure_domain p |}.

(** [reservation_pool]: a pool whose priority the command line chooses. *)
Definition reservation_pool (m : Machine) (dom : string) (s : SchedulerSettings) (ev : bool)
    (p : SchedulerPriority) : option Pool :=
  if enabled s then
    let pool := pool_new m dom (permits s) (permit_bytes (settings_memory s) (permits s)) p in
    let pool := set_memory_capacity m pool (unwrap_or 0 (settings_memory s)) in
    Some (set_limits pool (Z.max (Z.min (cpus s) (default_capacity m)) 1) ev
            (settings_pressure s) None)
  else None.

(** [Pool::from_config]. *)
Definition from_config (m : Machine) (dom : string) (s : SchedulerSettings) (ev : bool)
    : option Pool :=
  if enabled s then
    let pool := pool_new m dom (permits s) (permit_bytes (settings_memory s) (permits s))
                  (settings_priority s) in
    let pool := set_memory_capacity m pool (unwrap_or 0 (settings_memory s)) in
    Some (set_limits pool (Z.max (Z.min (cpus s) (default_capacity m)) 1) ev
            (settings_pressure s) None)
  else None.

(** ** The session's environment

    The numeric variables a session exports and a shim reads back; [None] is
    an absent or unparsable variable.  Numbers print and parse as decimal, so
    the variables are modelled by their values. *)
Record SessionEnv := mkEnv {
  env_dir_empty : bool;
  env_events : option Z;
  env_slots : option Z;
  env_cpus : option Z;
  env_memory_bytes : option Z;
  env_pressure : option Z;
  env_slot_bytes : option Z;
  env_priority : option SchedulerPriority;
  env_build_id : option string;
  env_build_slots : option Z
}.

Definition disabled_env : SessionEnv :=
  mkEnv true None None None None None None None None None.

Definition bool_number (b : bool) : Z := if b then 1 else 0.

(** [session_environment_with_jobs]; [build_id] is the random build name, and
    [disabled] whether [MBX_SCHED_DISABLE] is set. *)
Definition session_environment_with_jobs (s : SchedulerSettings) (ev disabled : bool)
    (build_id : string) (cargo_jobs : option Z) : SessionEnv :=
  if negb (enabled s) || disabled then disabled_env
  else
    let n := permits s in
    let build_permits :=
      match cargo_jobs with Some jobs => Z.min n (Z.max jobs 1) | None => n end in
    mkEnv false (Some (bool_number ev)) (Some n) (Some (cpus s))
      (Some (unwrap_or 0 (settings_memory s))) (Some (bool_number (settings_pressure s)))
      (Some (permit_bytes (settings_memory s) n)) (Some (settings_priority s))
      (Some build_id) (Some build_permits).

(** [resolve_pool], when the directory variable is set. *)
Definition resolve_pool (m : Machine) (dom : string) (e : SessionEnv) : option Pool :=
  if env_dir_empty e then None
  else
    let cap := unwrap_or (default_capacity m) (env_slots e) in
    let pool := pool_new m dom cap (unwrap_or 0 (env_slot_bytes e))
                  (unwrap_or Normal (env_priority e)) in
    let dom_cap := Z.max (Z.min (unwrap_or cap (env_cpus e)) (default_capacity m)) 1 in
    let pool := set_memory_capacity m pool
      (unwrap_or (saturating_mul cap (pool_bytes_per_permit pool)) (env_memory_bytes e)) in
    let b :=
      match option_filter (fun id => negb (bool_decide (id = ""%string))) (env_build_id e) with
      | Some id =>
          Some (id, clamp (unwrap_or cap (env_build_slots e)) 1 (Z.max cap 1))
      | None => None
      end in
    Some (set_limits pool dom_cap (negb (bool_decide (env_events e = Some 0)))
            (bool_decide (env_pressure e = Some 1)) b).

(** ** Yielding *)

(** [fresh]: [priority_wait_is_fresh]. *)
Definition reserved (p : Pool) (fresh : bool) : Z :=
  if bool_decide (pool_priority p = Low) && fresh
  then Z.min (Z.max (capacity p / 4) 1) (capacity p - 1)
  else 0.

Definition effective_budget (p : Pool) (fresh : bool) : Resources :=
  let yielding := bool_decide (pool_priority p = Low) && fresh in
  let memory_headroom :=
    if yielding && (0 <? memory_capacity p)
    then Z.min (Z.max (memory_capacity p / 4) 1) (memory_capacity p - 1)
    else 0 in
  mkResources (capacity p - reserved p fresh) (memory_capacity p - memory_headroom).

(** ** Charges *)

Inductive ReserveError := MemoryNotConfigured | NothingRequested.

Definition reservation_weight (p : Pool) (c memory : option Z) : result ReserveError Z :=
  let cpu_weight := unwrap_or 0 c in
  memory_weight ← match memory with
    | Some m =>
        if pool_bytes_per_permit p =? 0 then Err MemoryNotConfigured
        else Ok (div_ceil m (pool_bytes_per_permit p))
    | None => Ok 0
    end;
  let weight := Z.max cpu_weight memory_weight in
  if weight =? 0 then Err NothingRequested else Ok weight.

Record Plan := mkPlan {
  plan_resources : Resources;
  plan_weight : Z;
  predicted : option Z;
  source : string
}.

Definition LINK_WEIGHT : Z := 2.
Definition UNMEASURED_TEST_WEIGHT : Z := 2.

Record TestMeasurement := mkMeasurement { peak : option Z; cores : option Z }.

Definition plan_cores (measurement : option TestMeasurement) : Z :=
  Z.max (unwrap_or 1 (m ← measurement; cores m)) 1.

(** A nextest test: what its history says, else the largest of its binary. *)
Definition test_plan (p : Pool) (measurement : option TestMeasurement) : Plan :=
  let cores := plan_cores measurement in
  let bpp := pool_bytes_per_permit p in
  if bpp =? 0
  then mkPlan (mkResources cores 0) (Z.min cores (capacity p)) None "unmeasured"
  else
    let known_peak := m ← measurement; peak m in
    let predicted := unwrap_or (saturating_mul UNMEASURED_TEST_WEIGHT bpp) known_peak in
    let weight := clamp (Z.max (div_ceil predicted bpp) cores) 1 (capacity p) in
    mkPlan
      (mkResources cores
        (if is_some known_peak then predicted else Z.max predicted (saturating_mul weight bpp)))
      weight (Some predicted)
      (if is_some known_peak then "test-history" else "unmeasured").

(** Threads of a compiler or a test binary: measured, stated, or half the pool. *)
Definition plan_threads (p : Pool) (learned stated : option Z) : Z :=
  Z.max (unwrap_or (div_ceil (capacity p) 2) (option_or learned stated)) 1.

(** A plan without memory scheduling. *)
Definition cpu_plan (p : Pool) (links : bool) (threads : Z) : Plan :=
  let link_floor := then_some links LINK_WEIGHT in
  let c := Z.max (unwrap_or 1 link_floor) threads in
  mkPlan (mkResources c 0) (Z.min c (capacity p)) None "unmeasured".

Definition is_floor (source : string) : bool :=
  bool_decide (source = "unmeasured"%string) || bool_decide (source = "default"%string) ||
  bool_decide (source = "link-floor"%string).

(** The projection of a prediction onto the two axes and the legacy weight. *)
Definition predicted_plan (p : Pool) (threads : Z) (prediction : option Z) (source : string) : Plan :=
  let bpp := pool_bytes_per_permit p in
  let weight :=
    clamp (Z.max (match prediction with Some bytes => div_ceil bytes bpp | None => 1 end) threads)
      1 (capacity p) in
  let memory :=
    if is_none prediction || is_floor source
    then Z.max (unwrap_or 0 prediction) (saturating_mul weight bpp)
    else unwrap_or 0 prediction in
  mkPlan (mkResources threads memory) weight prediction source.

(** ** Well-formed pools *)

Definition pool_wf (p : Pool) : Prop :=
  1 <= capacity p <= u64_max /\ is_u64 (memory_capacity p) /\ is_u64 (pool_bytes_per_permit p).

Definition settings_wf (s : SchedulerSettings) : Prop :=
  1 <= cpus s <= u64_max /\ 0 <= reserve_cpus s <= u64_max /\ opt_u64 (settings_memory s).

Lemma permits_bounds s : settings_wf s -> 1 <= permits s <= cpus s.
Proof. intros (? & ? & _). unfold permits, saturating_sub. lia. Qed.

Lemma permit_bytes_u64 memory n : opt_u64 memory -> is_u64 (permit_bytes memory n).
Proof.
  intros Hm. destruct memory as [x|]; simpl; [|done]. specialize (Hm x eq_refl).
  unfold is_u64 in *. split; [apply Z.div_pos; lia|].
  apply Z.div_le_upper_bound; [lia|]. nia.
Qed.

(** The bounds of the budget a pool offers right now. *)
Lemma effective_bounds p fresh :
  pool_wf p ->
  let b := effective_budget p fresh in
  1 <= cpu b <= capacity p /\ 0 <= memory_bytes b <= memory_capacity p /\
  (memory_bytes b = 0 <-> memory_capacity p = 0).
Proof.
  intros (Hc & Hm & _) b. subst b. unfold effective_budget, reserved, is_u64 in *. simpl.
  pose proof (Z.div_mod (capacity p) 4 ltac:(lia)). pose proof (Z.mod_pos_bound (capacity p) 4 ltac:(lia)).
  pose proof (Z.div_mod (memory_capacity p) 4 ltac:(lia)).
  pose proof (Z.mod_pos_bound (memory_capacity p) 4 ltac:(lia)).
  repeat case_match; simp_bool; lia.
Qed.

(** Yielding is partial.  The headroom a low-priority build leaves is
    never the whole pool and never turns a memory ceiling into none: at least
    one core is left, the CPU budget stays within the capacity and strictly
    below it when another build waits and there is more than one core, and the
    memory budget is zero, which means unlimited, only where the configured
    one is. *)
Lemma yielding_keeps_some_capacity p fresh :
  pool_wf p ->
  let b := effective_budget p fresh in
  1 <= cpu b <= capacity p /\
  0 <= memory_bytes b <= memory_capacity p /\
  (memory_bytes b = 0 <-> memory_capacity p = 0) /\
  (pool_priority p = Low -> fresh = true -> 1 < capacity p -> cpu b < capacity p) /\
  (pool_priority p = Normal \/ fresh = false ->
   b = mkResources (capacity p) (memory_capacity p)).
Proof.
  intros Hp b. pose proof (effective_bounds p fresh Hp) as (Hc & Hm & Hz). fold b in Hc, Hm, Hz.
  split_and!; [apply Hc|apply Hc|apply Hm|apply Hm|exact Hz| |]; subst b; unfold effective_budget, reserved; simpl.
  - intros -> -> Hcap. rewrite bool_decide_eq_true_2 by done. simpl. lia.
  - intros Hn. assert (bool_decide (pool_priority p = Low) && fresh = false) as ->.
    { destruct Hn as [->| ->]; [done|apply andb_false_r]. }
    simpl. f_equal; lia.
Qed.

(** A session's shims and a standalone wrapper agree.  The pool a shim
    resolves from the environment its session exported is the pool the same
    configuration gives a wrapper without a session, except for the ceiling of
    its own build, which lies between one core and the machine's permits. *)
Lemma session_pool_agrees m dom s ev build_id jobs :
  settings_wf s -> enabled s = true -> build_id <> ""%string ->
  exists p standalone slots,
    resolve_pool m dom (session_environment_with_jobs s ev false build_id jobs) = Some p /\
    from_config m dom s ev = Some standalone /\
    pool_build p = Some (build_id, slots) /\ 1 <= slots <= permits s /\
    set_limits p (pool_domain_capacity p) (events p) (pressure p) None = standalone.
Proof.
  intros Hwf He Hid. pose proof (permits_bounds s Hwf) as Hp.
  unfold session_environment_with_jobs, resolve_pool, from_config. rewrite He. simpl.
  rewrite (bool_decide_eq_false_2 (build_id = ""%string)) by done. simpl.
  eexists _, _, _. split_and!; try reflexivity; try (unfold clamp; lia).
  destruct ev, (settings_pressure s); reflexivity.
Qed.

(** Legacy weights are conservative.  A plan's scalar weight, which is all
    an older reader sees, lies within the pool and, unless the demand is larger
    than the pool, covers both axes of the charge. *)
Lemma plan_weight_covers_charge p threads prediction src :
  pool_wf p -> 0 < pool_bytes_per_permit p -> 1 <= threads -> opt_u64 prediction ->
  capacity p * pool_bytes_per_permit p <= u64_max ->
  let plan := predicted_plan p threads prediction src in
  1 <= plan_weight plan <= capacity p /\
  (forall bytes, prediction = Some bytes -> bytes <= memory_bytes (plan_resources plan)) /\
  (threads <= capacity p ->
   (forall bytes, prediction = Some bytes -> bytes <= capacity p * pool_bytes_per_permit p) ->
   cpu (plan_resources plan) <= plan_weight plan /\
   memory_bytes (plan_resources plan) <= plan_weight plan * pool_bytes_per_permit p).
Proof.
  intros (Hc & Hm & Hb) Hbpp Hth Hpred Hmax. simpl.
  set (bpp := pool_bytes_per_permit p) in *. set (cap := capacity p) in *.
  set (need := match prediction with Some bytes => div_ceil bytes bpp | None => 1 end).
  set (w := clamp (Z.max need threads) 1 cap).
  assert (Hw : 1 <= w <= cap) by (unfold w, clamp; lia).
  assert (Hsat : saturating_mul w bpp = w * bpp) by (unfold saturating_mul; nia).
  rewrite Hsat. split_and!; [lia|lia| |].
  - intros bytes ->. simpl. case_match; lia.
  - intros Hle Hfit. split; [unfold w, clamp; lia|].
    destruct prediction as [bytes|]; simpl; [|nia].
    specialize (Hpred bytes eq_refl) as [? ?]. specialize (Hfit bytes eq_refl).
    pose proof (div_ceil_bounds bytes bpp Hbpp ltac:(lia)) as Hd.
    assert (need <= cap) by (unfold need; apply div_ceil_le; lia).
    assert (bytes <= w * bpp) by (unfold w, clamp, need in *; nia).
    destruct (is_floor src); lia.
Qed.

(** What [mbx reserve] holds.  It refuses exactly an empty request and a
    memory request without configured memory; otherwise the weight covers the
    cores asked for and, in permits, the memory asked for. *)
Lemma reservation_weight_spec p c memory :
  pool_wf p -> opt_u64 c -> opt_u64 memory ->
  match reservation_weight p c memory with
  | Ok w =>
      0 < w /\ unwrap_or 0 c <= w /\
      unwrap_or 0 memory <= w * pool_bytes_per_permit p
  | Err MemoryNotConfigured => is_some memory = true /\ pool_bytes_per_permit p = 0
  | Err NothingRequested => unwrap_or 0 c = 0 /\ unwrap_or 0 memory = 0
  end.
Proof.
  intros (Hc & Hm & [Hb ?]) Hcpu Hmem. unfold reservation_weight.
  assert (H0 : 0 <= unwrap_or 0 c) by (destruct c as [x|]; simpl; [apply (Hcpu x eq_refl)|lia]).
  destruct memory as [m|]; simpl.
  - destruct (Z.eqb_spec (pool_bytes_per_permit p) 0); simpl; [done|].
    specialize (Hmem m eq_refl) as [? ?].
    pose proof (div_ceil_bounds m (pool_bytes_per_permit p) ltac:(lia) ltac:(lia)).
    pose proof (div_ceil_nonneg m (pool_bytes_per_permit p) ltac:(lia) ltac:(lia)).
    destruct (Z.eqb_spec (Z.max (unwrap_or 0 c) (div_ceil m (pool_bytes_per_permit p))) 0);
      simpl; [split; nia|split_and!; nia].
  - destruct (Z.eqb_spec (Z.max (unwrap_or 0 c) 0) 0); simpl; [lia|split_and!; nia].
Qed.

(** ** Instances *)

Definition demo_machine : Machine := mkMachine 16 (Some 68719476736).
Definition demo_settings : SchedulerSettings :=
  mkSettings true 16 2 (Some 34359738368) Low true.
Definition demo_pool : Pool :=
  set_memory_capacity demo_machine
    (pool_new demo_machine "host" 14 2454267026 Low) 34359738368.

Lemma demo_pool_wf : pool_wf demo_pool.
Proof. unfold pool_wf, is_u64, u64_max. simpl. lia. Qed.

Lemma yielding_keeps_some_capacity_witness :
  let b := effective_budget demo_pool true in 1 <= cpu b <= 14.
Proof. apply (yielding_keeps_some_capacity demo_pool true demo_pool_wf). Defined.

Lemma session_pool_agrees_witness :
  exists p slots,
    resolve_pool demo_machine "host"
      (session_environment_with_jobs demo_settings true false "b" (Some 4)) = Some p /\
    pool_build p = Some ("b"%string, slots).
Proof.
  destruct (session_pool_agrees demo_machine "host" demo_settings true "b" (Some 4))
    as (p & q & slots & H1 & _ & H2 & _).
  - apply (bool_decide_eq_true_1 (1 <= 16 <= u64_max /\ 0 <= 2 <= u64_max /\ opt_u64 (Some 34359738368))).
    vm_compute. reflexivity.
  - reflexivity.
  - discriminate.
  - exists p, slots. split; [exact H1|exact H2].
Defined.

Lemma plan_weight_covers_charge_witness :
  1 <= plan_weight (predicted_plan demo_pool 1 (Some 5000000000) "sibling") <= 14.
Proof.
  refine (proj1 (plan_weight_covers_charge demo_pool 1 (Some 5000000000) "sibling"
    demo_pool_wf _ _ _ _)).
  - reflexivity.
  - lia.
  - intros x [= <-]. unfold is_u64, u64_max. lia.
  - vm_compute. discriminate.
Defined.

Lemma reservation_weight_spec_witness :
  reservation_weight demo_pool (Some 2) (Some 5000000000) = Ok 3 /\ 0 < 3.
Proof.
  assert (H := reservation_weight_spec demo_pool (Some 2) (Some 5000000000) demo_pool_wf
    ltac:(intros x [= <-]; unfold is_u64, u64_max; lia)
    ltac:(intros x [= <-]; unfold is_u64, u64_max; lia)).
  split; [vm_compute; reflexivity|exact (proj1 H)].
Defined.
