(* ===== verification/Registrar.v ===== *)
(** * The registrar: admission attempts over the shared pool directory

    Models [try_admit_inner] and what it calls in
    [src/crates/mbx/src/scheduler.rs] ([scan_leases], [scan_waiters_logged],
    [read_waiter], [waiting_record], [grant], [lock_record], the gates of
    [scheduler_decisions.rs]) over an explicit pool directory: files with a
    content and the process holding their lock, if any.  An attempt runs under
    the registrar lock, so it is one atomic transition; processes release,
    crash and attempt in any order ([step]).

    The theorems are about every reachable state of any number of processes
    sharing one directory: capacity is never oversubscribed, and no two queued
    processes hold the same ticket.  The decision log is not modelled; record
    serialisation is injective, so records stand for their bytes. *)

From stdpp Require Import base list gmap strings sorting pretty.
From Stdlib Require Import ZArith Lia.
From S2P Require Import Prelude SubsetSum Pressure Admission Pool.
Local Open Scope Z_scope.

(** ** The directory *)

Inductive Content (A : Type) := Written (a : A) | Emptied | Unreadable.
Arguments Written {A} _.
Arguments Emptied {A}.
Arguments Unreadable {A}.

(** A file: its name, the process that holds its lock, its content and its
    modification time. *)
Record Entry (A : Type) := mkEntry {
  path : string;
  owner : option nat;
  content : Content A;
  mtime_ms : option Z
}.
Arguments mkEntry {A} _ _ _ _.
Arguments path {A} _.
Arguments owner {A} _.
Arguments content {A} _.
Arguments mtime_ms {A} _.

Record World := mkWorld { leases : list (Entry Lease); waiters : list (Entry Waiting) }.

Definition locked {A} (e : Entry A) : bool := is_some (owner e).

Definition remove_path {A} (p : string) (dir : list (Entry A)) : list (Entry A) :=
  List.filter (fun e => negb (bool_decide (path e = p))) dir.

(** ** Scans *)

Definition LEASE_VERSION : Z := 1.

(** A live lease that cannot be read counts as the smallest one. *)
Definition unreadable_lease : Lease :=
  mkLease LEASE_VERSION None None 1 None None "normal" None None 0.

Definition read_lease (c : Content Lease) : Lease :=
  match c with
  | Written l =>
      mkLease (lease_version l) (lease_name l) (lease_mode_key l) (Z.max (lease_weight l) 1)
        (lease_cpu l) (lease_memory_bytes l) (lease_priority l) (lease_build_id l)
        (lease_domain l) (lease_bytes_per_permit l)
  | _ => unreadable_lease
  end.

(** The live leases, and the directory without the files nobody holds. *)
Definition scan_leases (dir : list (Entry Lease)) : list Lease * list (Entry Lease) :=
  let dir := List.filter locked dir in
  (map (fun e => read_lease (content e)) dir, dir).

Inductive SchedError := BadRecord | QueueExhausted | NamesTaken.

Definition read_waiter (c : Content Waiting) : result SchedError (option Waiting) :=
  match c with
  | Written w => Ok (Some w)
  | Emptied => Ok None
  | Unreadable => Err BadRecord
  end.

Definition set_first_arrival (w : Waiting) (ms : option Z) : Waiting :=
  mkWaiting (pid w) ms (wait_name w) (wait_mode_key w) (ticket w) (weight w) (wait_cpu w)
    (wait_memory_bytes w) (priority w) (domain w) (domain_capacity w) (global_capacity w)
    (cpu_cap w) (mem_cap w) (domain_memory_cap w) (domain_cpu_cap w) (bytes_per_permit w)
    (build w).

Definition fill_arrival (ev : bool) (e : Entry Waiting) (w : Waiting) : Waiting :=
  if ev && is_none (first_arrival_ms w) then set_first_arrival w (mtime_ms e) else w.

(** Unlocked files are removed as the scan meets them; an unreadable live
    record stops the scan with an error. *)
Fixpoint scan_waiters (ev : bool) (dir : list (Entry Waiting))
    : result SchedError (list Waiting) * list (Entry Waiting) :=
  match dir with
  | [] => (Ok [], [])
  | e :: dir =>
      if locked e then
        match read_waiter (content e) with
        | Err err => (Err err, e :: dir)
        | Ok record =>
            let '(rest, dir) := scan_waiters ev dir in
            (match rest, record with
             | Ok ws, Some w => Ok (fill_arrival ev e w :: ws)
             | _, _ => rest
             end, e :: dir)
        end
      else scan_waiters ev dir
  end.

(** ** Records a process writes *)

Record QueueEntry := mkQueueEntry { q_ticket : Z; q_path : string; q_record : Waiting }.

Inductive Gate := ResumesPending | PressureGate | AvailableMemory.

(** One waiting process: its pool, the name source of its files and its
    [AdmissionState]. *)
Record Client := mkClient {
  client_id : nat;
  client_pool : Pool;
  file_name : Z -> string;
  nonce : Z;
  demand_name : option string;
  demand_key : option string;
  arrival_ms : Z;
  process_pid : Z;
  queued : option QueueEntry;
  last_gate : option Gate
}.

Definition set_queue (c : Client) (q : option QueueEntry) (g : option Gate) (n : Z) : Client :=
  mkClient (client_id c) (client_pool c) (file_name c) n (demand_name c) (demand_key c)
    (arrival_ms c) (process_pid c) q g.

Definition waiting_record (c : Client) (r : Resources) (weight ticket : Z) : Waiting :=
  let p := client_pool c in
  {| pid := then_some (events p) (process_pid c);
     first_arrival_ms := then_some (events p) (arrival_ms c);
     wait_name := demand_name c;
     wait_mode_key := demand_key c;
     ticket := ticket;
     weight := weight;
     wait_cpu := Some (cpu r);
     wait_memory_bytes := Some (memory_bytes r);
     priority := priority_str (pool_priority p);
     domain := pressure_domain p;
     domain_capacity := legacy_domain_capacity p;
     global_capacity := Some (capacity p);
     cpu_cap := Some (capacity p);
     mem_cap := Some (memory_capacity p);
     domain_memory_cap := Some (domain_memory_capacity p);
     domain_cpu_cap := Some (pool_domain_capacity p);
     bytes_per_permit := pool_bytes_per_permit p;
     build := pool_build p |}.

(** The request of one attempt: the record under the current budget. *)
Definition attempt_request (c : Client) (r : Resources) (weight ticket : Z) (budget : Resources)
    : Waiting :=
  let w := waiting_record c r weight ticket in
  mkWaiting (pid w) (first_arrival_ms w) (wait_name w) (wait_mode_key w) (Admission.ticket w)
    (Admission.weight w) (wait_cpu w) (wait_memory_bytes w) (priority w) (domain w)
    (domain_capacity w) (Some (cpu budget)) (Some (cpu budget)) (Some (memory_bytes budget))
    (domain_memory_cap w) (domain_cpu_cap w) (bytes_per_permit w) (build w).

Definition set_ticket (w : Waiting) (t : Z) : Waiting :=
  mkWaiting (pid w) (first_arrival_ms w) (wait_name w) (wait_mode_key w) t (weight w)
    (wait_cpu w) (wait_memory_bytes w) (priority w) (domain w) (domain_capacity w)
    (global_capacity w) (cpu_cap w) (mem_cap w) (domain_memory_cap w) (domain_cpu_cap w)
    (bytes_per_permit w) (build w).

Definition granted_lease (c : Client) (r : Resources) (weight : Z) : Lease :=
  let p := client_pool c in
  {| lease_version := LEASE_VERSION;
     lease_name := demand_name c;
     lease_mode_key := demand_key c;
     lease_weight := weight;
     lease_cpu := Some (cpu r);
     lease_memory_bytes := Some (memory_bytes r);
     lease_priority := priority_str (pool_priority p);
     lease_build_id := fst <$> pool_build p;
     lease_domain := Some (pressure_domain p);
     lease_bytes_per_permit := pool_bytes_per_permit p |}.

Definition LEASE_NAME_ATTEMPTS : nat := 8.

(** [lock_record]: create a file of an unused name and lock it.  Returns the
    name with the next counter value, and the directory. *)
Fixpoint lock_record {A} (attempts : nat) (c : Client) (n : Z) (now : Z) (a : A)
    (dir : list (Entry A)) : result SchedError (string * Z) * list (Entry A) :=
  match attempts with
  | O => (Err NamesTaken, dir)
  | S attempts =>
      let p := file_name c n in
      if existsb (fun e => bool_decide (path e = p)) dir
      then lock_record attempts c (n + 1) now a dir
      else (Ok (p, n + 1), dir ++ [mkEntry p (Some (client_id c)) (Written a) (Some now)])
  end.

(** ** One attempt *)

(** What an attempt asks for and what it reads from the machine: the time, the
    sampled pressure state (absent when sampling is off or failed), suspended
    processes due to resume, available memory, and a fresh priority stamp. *)
Record Attempt := mkAttempt {
  ask : Resources;
  ask_weight : Z;
  gate_bytes : option Z;
  now : Z;
  pressure_sample : option Pressure.State;
  resumes_pending : bool;
  available : option Z;
  fresh : bool
}.

(** Leave the queue: the entry's file is emptied, unlocked and removed. *)
Definition dequeue (q : option QueueEntry) (dir : list (Entry Waiting)) : list (Entry Waiting) :=
  match q with Some q => remove_path (q_path q) dir | None => dir end.

Definition gated (g : Gate) (w : World) (c : Client)
    : result SchedError (option string) * World * Client :=
  (Ok None, mkWorld (leases w) (dequeue (queued c) (waiters w)),
   set_queue c None (Some g) (nonce c)).

(** The gates, in the order they are tried; they apply only beside running
    work. *)
Definition attempt_gate (p : Pool) (live : list Lease) (a : Attempt) : option Gate :=
  let sensing := pressure p && (0 <? pool_bytes_per_permit p) in
  let busy := negb (bool_decide (live = [])) in
  if sensing && busy && resumes_pending a then Some ResumesPending
  else if busy && is_some_and (fun s => sensing && pressure_gates s (now a)) (pressure_sample a)
  then Some PressureGate
  else if busy && is_some_and (fun needed =>
            is_some_and (fun av => av <? needed) (available a)) (gate_bytes a)
  then Some AvailableMemory
  else None.

(** The next ticket, one past every queued one. *)
Definition next_ticket (waiting : list Waiting) : result SchedError Z :=
  ok_or QueueExhausted
    (checked_add (foldr Z.max 0 (map ticket waiting)) 1).

(** Join the queue, or refresh the record when the request changed. *)
Definition enqueue (c : Client) (a : Attempt) (request : Waiting) (waiting : list Waiting)
    (w : World) : result SchedError (option string) * World * Client :=
  match queued c with
  | Some q =>
      if bool_decide (q_record q = request)
      then (Ok None, w, c)
      else
        match lock_record LEASE_NAME_ATTEMPTS c (nonce c) (now a) request (waiters w) with
        | (Ok (p, n), dir) =>
            (Ok None, mkWorld (leases w) (remove_path (q_path q) dir),
             set_queue c (Some (mkQueueEntry (q_ticket q) p request)) (last_gate c) n)
        | (Err e, dir) => (Err e, mkWorld (leases w) dir, c)
        end
  | None =>
      match next_ticket waiting with
      | Err e => (Err e, w, c)
      | Ok t =>
          let record := set_ticket request t in
          match lock_record LEASE_NAME_ATTEMPTS c (nonce c) (now a) record (waiters w) with
          | (Ok (p, n), dir) =>
              (Ok None, mkWorld (leases w) dir,
               set_queue c (Some (mkQueueEntry t p record)) None n)
          | (Err e, dir) => (Err e, mkWorld (leases w) dir, c)
          end
      end
  end.

Definition try_admit_inner (w : World) (c : Client) (a : Attempt)
    : result SchedError (option string) * World * Client :=
  let p := client_pool c in
  let '(live, dir) := scan_leases (leases w) in
  let w := mkWorld dir (waiters w) in
  match attempt_gate p live a with
  | Some g => gated g w c
  | None =>
      let budget := effective_budget p (fresh a) in
      match scan_waiters (events p) (waiters w) with
      | (Err e, dir) => (Err e, mkWorld (leases w) dir, c)
      | (Ok waiting, dir) =>
          let w := mkWorld (leases w) dir in
          let t := match queued c with Some q => q_ticket q | None => u64_max end in
          let request := attempt_request c (ask a) (ask_weight a) t budget in
          match admission_decision_traced (events p) (cpu budget) live waiting request with
          | WaitingDecision => enqueue c a request waiting w
          | _ =>
              match lock_record LEASE_NAME_ATTEMPTS c (nonce c) (now a)
                      (granted_lease c (ask a) (ask_weight a)) (leases w) with
              | (Err e, dir) => (Err e, mkWorld dir (waiters w), c)
              | (Ok (path, n), dir) =>
                  (Ok (Some path), mkWorld dir (dequeue (queued c) (waiters w)),
                   set_queue c None None n)
              end
          end
      end
  end.

(** [try_admit_state]: an error leaves the queue. *)
Definition try_admit_state (w : World) (c : Client) (a : Attempt)
    : result SchedError (option string) * World * Client :=
  match try_admit_inner w c a with
  | (Err e, w, c) =>
      (Err e, mkWorld (leases w) (dequeue (queued c) (waiters w)),
       set_queue c None (last_gate c) (nonce c))
  | done => done
  end.

(** The pressure state an admission saves: the sample, stamped with the
    admission. *)
Definition saved_pressure (c : Client) (a : Attempt) (r : result SchedError (option string))
    : option Pressure.State :=
  match r with
  | Ok (Some _) =>
      if pressure (client_pool c) && (0 <? pool_bytes_per_permit (client_pool c))
      then (fun s => note_admission s (now a)) <$> pressure_sample a else None
  | _ => None
  end.

(** ** The system *)

Inductive Process :=
| Seeking (c : Client)
| Running (lease_path : string)
| Unscheduled
| Finished
| Dead.

Record System := mkSystem { world : World; processes : gmap nat Process }.

(** A dead process's locks are gone, its files are not. *)
Definition unlock_all {A} (i : nat) (dir : list (Entry A)) : list (Entry A) :=
  map (fun e => if bool_decide (owner e = Some i)
                then mkEntry (path e) None (content e) (mtime_ms e) else e) dir.

Definition after_attempt (r : result SchedError (option string)) (c : Client) : Process :=
  match r with
  | Ok (Some p) => Running p
  | Ok None => Seeking c
  | Err _ => Unscheduled
  end.

(** Every number an attempt carries is a [u64]. *)
Definition attempt_wf (a : Attempt) : Prop := resources_wf (ask a) /\ is_u64 (ask_weight a).

(** The largest pool on the machine: no process sees more than [max_cpu] cores
    or, when [max_memory] is not zero, more than [max_memory] bytes. *)
Definition client_ok (max_cpu max_memory : Z) (c : Client) : Prop :=
  pool_wf (client_pool c) /\ capacity (client_pool c) <= max_cpu /\
  (max_memory = 0 \/ 0 < memory_capacity (client_pool c) <= max_memory).

Section system.
Context (max_cpu max_memory : Z).

Inductive step : System -> System -> Prop :=
| step_attempt s i c a r w c' :
    processes s !! i = Some (Seeking c) -> attempt_wf a ->
    try_admit_state (world s) c a = (r, w, c') ->
    step s (mkSystem w (<[i := after_attempt r c']> (processes s)))
| step_release s i p :
    processes s !! i = Some (Running p) ->
    step s (mkSystem (mkWorld (remove_path p (leases (world s))) (waiters (world s)))
              (<[i := Finished]> (processes s)))
| step_crash s i pr :
    processes s !! i = Some pr ->
    step s (mkSystem (mkWorld (unlock_all i (leases (world s))) (unlock_all i (waiters (world s))))
              (<[i := Dead]> (processes s)))
| step_start s i c :
    processes s !! i = None -> client_id c = i -> queued c = None ->
    client_ok max_cpu max_memory c ->
    step s (mkSystem (world s) (<[i := Seeking c]> (processes s))).

Definition initial : System := mkSystem (mkWorld [] []) ∅.

Definition reachable (s : System) : Prop := rtc step initial s.
End system.

(** ** Capacity *)

#[local] Transparent lease_resources wait_resources global_budget domain_budget.

Definition live_leases (w : World) : list Lease := (scan_leases (leases w)).1.

(** One axis of the running work: within the ceiling, or a single item that
    alone exceeds it. *)
Definition axis_inv (cap : Z) (charges : list Z) : Prop :=
  sumZ charges <= cap \/
  exists before x after, charges = before ++ x :: after /\ sumZ (before ++ after) = 0.

Lemma axis_inv_snoc cap cap' charges x :
  nonneg charges -> cap' <= cap ->
  axis_ok (sumZ charges) x cap' -> axis_inv cap (charges ++ [x]).
Proof.
  intros Hn Hc [H0|Hle]; [right|left].
  - exists charges, x, []. by rewrite app_nil_r.
  - rewrite sumZ_app. simpl. lia.
Qed.

Lemma sumZ_zero l : nonneg l -> sumZ l = 0 -> Forall (fun x => x = 0) l.
Proof.
  induction 1 as [|x l Hx Hl IH]; simpl; [constructor|].
  pose proof (sumZ_nonneg l Hl). intros H0. constructor; [lia|apply IH; lia].
Qed.

Lemma sumZ_all_zero l : Forall (fun x => x = 0) l -> sumZ l = 0.
Proof. induction 1; simpl; lia. Qed.

(** Finishing work keeps the invariant. *)
Lemma axis_inv_sublist cap l k :
  0 <= cap -> nonneg k -> sublist l k -> axis_inv cap k -> axis_inv cap l.
Proof.
  intros Hcap Hk Hs [Hle|(before & x & after & -> & H0)].
  - left. pose proof (sumZ_sublist l k Hk Hs). lia.
  - apply sublist_app_r in Hs as (l1 & l2 & -> & Hs1 & Hs2).
    apply Forall_app in Hk as [Hb [Hx Ha]%Forall_cons].
    assert (Hz : Forall (fun x => x = 0) (before ++ after))
      by (apply sumZ_zero; [apply Forall_app; by split|done]).
    apply Forall_app in Hz as [Hzb Hza].
    apply sublist_cons_r in Hs2 as [Hs2|(l2' & -> & Hs2)].
    + left. rewrite sumZ_app, (sumZ_all_zero l1), (sumZ_all_zero l2); 
        [lia|exact (Forall_sublist _ _ _ Hza Hs2)|exact (Forall_sublist _ _ _ Hzb Hs1)].
    + right. exists l1, x, l2'. split; [done|]. rewrite sumZ_app.
      rewrite (sumZ_all_zero l1), (sumZ_all_zero l2'); 
        [lia|exact (Forall_sublist _ _ _ Hza Hs2)|exact (Forall_sublist _ _ _ Hzb Hs1)].
Qed.

(** A scanned lease is always a well-formed record. *)
Definition entry_wf (e : Entry Lease) : Prop :=
  match content e with Written l => lease_wf l | _ => True end.

Lemma read_lease_wf e : entry_wf e -> lease_wf (read_lease (content e)).
Proof.
  unfold entry_wf. destruct (content e) as [l| |]; simpl.
  - intros ([? ?] & ? & ? & ?). unfold lease_wf. simpl. split_and!; try done;
      unfold is_u64, u64_max in *; lia.
  - intros _. unfold lease_wf, is_u64, u64_max. simpl. split_and!; try lia; done.
  - intros _. unfold lease_wf, is_u64, u64_max. simpl. split_and!; try lia; done.
Qed.

Lemma granted_resources c r wt : lease_resources (read_lease (Written (granted_lease c r wt))) = r.
Proof. by destruct r. Qed.

Lemma granted_lease_wf c r wt :
  pool_wf (client_pool c) -> resources_wf r -> is_u64 wt -> lease_wf (granted_lease c r wt).
Proof.
  intros (_ & _ & ?) [? ?] ?. unfold lease_wf. simpl. split_and!; [done| | |done];
    by intros ? [= <-].
Qed.

(** Both axes of the running work. *)
Definition capacity_inv (max_cpu max_memory : Z) (w : World) : Prop :=
  let rs := map lease_resources (live_leases w) in
  Forall entry_wf (leases w) /\ axis_inv max_cpu (map cpu rs) /\
  (max_memory = 0 \/ axis_inv max_memory (map memory_bytes rs)).

(** What an attempt does to the leases: it sweeps, and on admission adds one. *)
Lemma lock_record_ok {A} n c k t (a : A) dir p k' dir' :
  lock_record n c k t a dir = (Ok (p, k'), dir') ->
  dir' = dir ++ [mkEntry p (Some (client_id c)) (Written a) (Some t)] /\ ~ In p (map path dir).
Proof.
  revert k. induction n as [|n IH]; intros k; simpl; [done|].
  destruct (existsb _ dir) eqn:E; [apply IH|]. intros [= <- <- <-]. split; [done|].
  intros (e & Hp & He)%in_map_iff. apply not_true_iff_false in E. apply E, existsb_exists.
  exists e. split; [done|]. by apply bool_decide_eq_true.
Qed.

Lemma lock_record_err {A} n c k t (a : A) dir e dir' :
  lock_record n c k t a dir = (Err e, dir') -> dir' = dir.
Proof.
  revert k. induction n as [|n IH]; intros k; simpl; [by intros [= _ <-]|].
  destruct (existsb _ dir); [apply IH|done].
Qed.

Ltac destruct_lock El p n :=
  match goal with
  | |- context [lock_record ?m ?c ?k ?t ?a ?d] =>
      destruct (lock_record m c k t a d) as [[[p n]|?] ?] eqn:El
  end.

Lemma try_admit_leases w c a r w' c' :
  try_admit_state w c a = (r, w', c') ->
  let dir := List.filter locked (leases w) in
  leases w' = dir \/
  exists p waiting t,
    leases w' = dir ++ [mkEntry p (Some (client_id c))
      (Written (granted_lease c (ask a) (ask_weight a))) (Some (now a))] /\
    admission_decision_traced (events (client_pool c)) (cpu (effective_budget (client_pool c) (fresh a)))
      (live_leases w) waiting
      (attempt_request c (ask a) (ask_weight a) t (effective_budget (client_pool c) (fresh a)))
    <> WaitingDecision.
Proof.
  unfold try_admit_state, try_admit_inner.
  assert (Hscan : scan_leases (leases w) = (live_leases w, List.filter locked (leases w))) by done.
  rewrite Hscan. cbn [leases waiters].
  destruct (attempt_gate _ _ _) as [g|]; [intros [= <- <- <-]; by left|].
  destruct (scan_waiters _ _) as [[waiting|e] dw]; [|intros [= <- <- <-]; by left].
  set (t := match queued c with Some q => q_ticket q | None => u64_max end).
  destruct (admission_decision_traced _ _ _ _ _) eqn:Ed.
  3: { unfold enqueue. repeat (case_match; simplify_eq/=; try (by left)); intros; simplify_eq/=; by left. }
  all: destruct_lock El p n; intros [= <- <- <-]; cbn [leases];
    [right|apply lock_record_err in El as ->; by left].
  all: apply lock_record_ok in El as [-> _]; exists p, waiting, t; split; [done|]; by rewrite Ed.
Qed.

Lemma try_admit_client w c a r w' c' :
  try_admit_state w c a = (r, w', c') ->
  client_id c' = client_id c /\ client_pool c' = client_pool c.
Proof.
  unfold try_admit_state, try_admit_inner, gated, enqueue.
  destruct (scan_leases _). repeat case_match; intros; simplify_eq/=; done.
Qed.

Lemma attempt_request_budget c r wt t b cap : request_budget cap (attempt_request c r wt t b) = b.
Proof. by destruct b. Qed.

Lemma attempt_request_resources c r wt t b : wait_resources (attempt_request c r wt t b) = r.
Proof. by destruct r. Qed.

(** Monotone facts about filtered directories. *)
Lemma sublist_filter {A} (p : A -> bool) l : sublist (List.filter p l) l.
Proof.
  induction l as [|a l IH]; simpl; [done|]. destruct (p a); [by constructor|by constructor].
Qed.

Lemma filter_sublist {A} (p : A -> bool) l k :
  sublist l k -> sublist (List.filter p l) (List.filter p k).
Proof. induction 1; simpl; try case_match; by try constructor. Qed.

Lemma filter_idem {A} (p : A -> bool) l : List.filter p (List.filter p l) = List.filter p l.
Proof. induction l as [|a l IH]; simpl; [done|]. destruct (p a) eqn:E; simpl; [rewrite E, IH|]; done. Qed.

Definition live_resources (w : World) : list Resources := map lease_resources (live_leases w).

Lemma live_resources_sublist w w' :
  sublist (leases w') (leases w) -> sublist (live_resources w') (live_resources w).
Proof. intros Hs. by apply fmap_sublist, fmap_sublist, filter_sublist. Qed.

Lemma live_nonneg w (f : Resources -> Z) :
  (forall r, resources_wf r -> 0 <= f r) ->
  Forall entry_wf (leases w) -> nonneg (map f (live_resources w)).
Proof.
  intros Hf Hw. apply Forall_map, Forall_map, Forall_map.
  eapply Forall_impl; [by apply (Forall_filter_bool _ locked), Hw|].
  intros e He. by apply Hf, lease_resources_wf, read_lease_wf.
Qed.

Lemma live_leases_wf w : Forall entry_wf (leases w) -> Forall lease_wf (live_leases w).
Proof.
  intros Hw. apply Forall_map. eapply Forall_impl; [by apply (Forall_filter_bool _ locked), Hw|].
  intros e He. by apply read_lease_wf.
Qed.

Section capacity.
Context (max_cpu max_memory : Z).
Context (Hcpu : 0 <= max_cpu < u64_max) (Hmemory : 0 <= max_memory < u64_max).

(** Dropping lease files, or only their locks, keeps the invariant. *)
Lemma capacity_inv_sublist w w' :
  Forall entry_wf (leases w') -> sublist (live_resources w') (live_resources w) ->
  capacity_inv max_cpu max_memory w -> capacity_inv max_cpu max_memory w'.
Proof.
  intros Hw' Hs (Hw & Hc & Hm). fold (live_resources w) in *.
  split_and!; [done|..]; fold (live_resources w').
  - eapply axis_inv_sublist; [lia| |by apply fmap_sublist|exact Hc].
    apply live_nonneg; [|done]. by intros r [[? ?] _].
  - destruct Hm as [?|Hm]; [by left|right].
    eapply axis_inv_sublist; [lia| |by apply fmap_sublist|exact Hm].
    apply live_nonneg; [|done]. by intros r [_ [? ?]].
Qed.

(** The axes of an admitted request, against its effective budget. *)
Lemma admitted_axes w c a t waiting traced cap :
  Forall entry_wf (leases w) -> client_ok max_cpu max_memory c -> attempt_wf a ->
  let b := effective_budget (client_pool c) (fresh a) in
  admission_decision_traced traced cap (live_leases w) waiting
    (attempt_request c (ask a) (ask_weight a) t b) <> WaitingDecision ->
  axis_ok (sumZ (map cpu (live_resources w))) (cpu (ask a)) (cpu b) /\
  (max_memory = 0 \/
   axis_ok (sumZ (map memory_bytes (live_resources w))) (memory_bytes (ask a)) (memory_bytes b)).
Proof.
  intros Hw (Hp & Hpc & Hpm) [Hask _] b (_ & _ & Hg)%decision_cases.
  rewrite attempt_request_budget, attempt_request_resources in Hg.
  apply live_leases_wf in Hw as Hlw. pose proof (total_nonneg _ Hlw) as [? ?].
  destruct Hp as (Hcap & Hmc & Hbpp). unfold is_u64 in *.
  pose proof (effective_bounds (client_pool c) (fresh a) (conj Hcap (conj Hmc Hbpp))) as Hb.
  fold b in Hb. cbv zeta in Hb.
  unfold resources_fit in Hg. rewrite scope_used_spec in Hg by done. simpl cpu in Hg at 1.
  simpl memory_bytes in Hg at 2. apply andb_prop in Hg as [Hgc Hgm]. destruct Hask as [[? ?] [? ?]].
  split; [by apply fits_exact in Hgc; try lia|].
  destruct Hpm as [->|Hpm]; [by left|right].
  apply orb_prop in Hgm as [Hz%Z.eqb_eq|Hgm]; [lia|]. by apply fits_exact in Hgm; try lia.
Qed.

Lemma capacity_inv_attempt w c a r w' c' :
  client_ok max_cpu max_memory c -> attempt_wf a ->
  try_admit_state w c a = (r, w', c') ->
  capacity_inv max_cpu max_memory w -> capacity_inv max_cpu max_memory w'.
Proof.
  intros Hc Ha Htry Hinv. pose proof Hinv as (Hw & _ & _).
  assert (Hsweep : Forall entry_wf (List.filter locked (leases w))) by by apply Forall_filter_bool.
  apply try_admit_leases in Htry as [Hl|(p & waiting & t & Hl & Hd)].
  { apply (capacity_inv_sublist w); [by rewrite Hl| |done].
    apply live_resources_sublist. rewrite Hl. apply sublist_filter. }
  pose proof (admitted_axes w c a t waiting _ _ Hw Hc Ha Hd) as [Hxc Hxm].
  assert (Hlive : live_resources w' = live_resources w ++ [ask a]).
  { unfold live_resources, live_leases, scan_leases. rewrite Hl. cbn [fst].
    rewrite List.filter_app, filter_idem. cbn [List.filter locked owner is_some].
    rewrite !map_app. cbn [map content]. by rewrite granted_resources. }
  destruct Hc as (Hp & Hpc & Hpm). destruct Ha as [Hask Hwt].
  pose proof (effective_bounds (client_pool c) (fresh a) Hp) as (Hbc & Hbm & _).
  split_and!; fold (live_resources w'); rewrite ?Hlive, ?map_app.
  - rewrite Hl. apply Forall_app. split; [done|]. constructor; [|done].
    by apply granted_lease_wf.
  - eapply axis_inv_snoc; [| |exact Hxc]; [apply live_nonneg; [by intros r0 [[? ?] _]|done]|lia].
  - destruct Hxm as [?|Hxm]; [by left|]. destruct Hpm as [?|Hpm]; [by left|right].
    eapply axis_inv_snoc; [| |exact Hxm]; [apply live_nonneg; [by intros r0 [_ [? ?]]|done]|lia].
Qed.
(** Every seeking process has a pool within the machine. *)
Definition clients_ok (ps : gmap nat Process) : Prop :=
  forall i c, ps !! i = Some (Seeking c) -> client_id c = i /\ client_ok max_cpu max_memory c.

Lemma clients_ok_insert ps i pr :
  clients_ok ps ->
  (forall c, pr = Seeking c -> client_id c = i /\ client_ok max_cpu max_memory c) ->
  clients_ok (<[i := pr]> ps).
Proof.
  intros Hok Hpr j c [[<- Hj]|[_ Hj]]%lookup_insert_Some; [by apply Hpr|by apply Hok].
Qed.

Lemma clients_ok_step s s' :
  clients_ok (processes s) -> step max_cpu max_memory s s' -> clients_ok (processes s').
Proof.
  intros Hok. destruct 1 as [s i c a r w c' Hi Ha Htry|s i p Hi|s i pr Hi|s i c Hi Hid Hq Hc];
    apply clients_ok_insert; try done.
  - intros c0 Heq. destruct (Hok i c Hi) as [Hid Hc].
    apply try_admit_client in Htry as [Hid' Hp].
    assert (c0 = c') as -> by (unfold after_attempt in Heq; by repeat case_match; simplify_eq).
    unfold client_ok in *. rewrite Hid', Hp. done.
  - by intros c0 [= <-].
Qed.

Lemma live_resources_unlock i w :
  sublist (live_resources (mkWorld (unlock_all i (leases w)) (unlock_all i (waiters w))))
    (live_resources w).
Proof.
  unfold live_resources, live_leases, scan_leases. cbn [fst leases]. apply fmap_sublist.
  induction (leases w) as [|e dir IH]; simpl; [done|].
  destruct (bool_decide_reflect (owner e = Some i)) as [He|He]; simpl.
  - assert (locked e = true) as -> by (unfold locked; by rewrite He). simpl. by constructor.
  - destruct (locked e); simpl; [by constructor|done].
Qed.

Lemma entry_wf_unlock i dir : Forall entry_wf dir -> Forall entry_wf (unlock_all i dir).
Proof.
  intros H. apply Forall_map. eapply Forall_impl; [exact H|]. intros e He.
  unfold entry_wf in *. by case_bool_decide.
Qed.

Lemma capacity_inv_step s s' :
  clients_ok (processes s) -> step max_cpu max_memory s s' ->
  capacity_inv max_cpu max_memory (world s) -> capacity_inv max_cpu max_memory (world s').
Proof.
  intros Hok. destruct 1 as [s i c a r w c' Hi Ha Htry|s i p Hi|s i pr Hi|s i c Hi Hid Hq Hc];
    intros Hinv; cbn [world]; pose proof Hinv as (Hw & _).
  - eapply capacity_inv_attempt; [apply (Hok i c Hi)|done..].
  - apply (capacity_inv_sublist (world s)); [by apply Forall_filter_bool| |done].
    apply live_resources_sublist, sublist_filter.
  - apply (capacity_inv_sublist (world s)); [by apply entry_wf_unlock| |done].
    apply live_resources_unlock.
  - done.
Qed.

Lemma capacity_inv_reachable s :
  reachable max_cpu max_memory s ->
  capacity_inv max_cpu max_memory (world s) /\ clients_ok (processes s).
Proof.
  unfold reachable. revert s. apply rtc_ind_r.
  - split; [split_and!; [constructor|left; simpl; lia|right; left; simpl; lia]|].
    intros i c. unfold initial. simpl. by rewrite lookup_empty.
  - intros s1 s2 _ Hs [Hinv Hok]. split; [by eapply capacity_inv_step|by eapply clients_ok_step].
Qed.
End capacity.

(** C1: the machine is never oversubscribed.  However many processes share a
    pool directory and in whatever order they attempt, release and crash, the
    work running at any time stays within the largest pool on each axis, or
    consists on that axis of one single demand that alone is larger (every
    other running item charges nothing there). *)
Theorem never_oversubscribed max_cpu max_memory s :
  0 <= max_cpu < u64_max -> 0 < max_memory < u64_max ->
  reachable max_cpu max_memory s ->
  axis_inv max_cpu (map cpu (live_resources (world s))) /\
  axis_inv max_memory (map memory_bytes (live_resources (world s))).
Proof.
  intros Hc Hm Hr. apply capacity_inv_reachable in Hr as [(_ & Hxc & Hxm) _]; [|lia..].
  split; [done|]. destruct Hxm as [?|?]; [lia|done].
Qed.

(** ** The queue *)

(** A scan drops only files nobody holds. *)
Definition swept {A} (dir dir' : list (Entry A)) : Prop :=
  sublist dir' dir /\ forall e, In e dir -> locked e = true -> In e dir'.

Lemma swept_refl {A} (dir : list (Entry A)) : swept dir dir.
Proof. by split. Qed.

Lemma scan_waiters_swept ev dir : swept dir (scan_waiters ev dir).2.
Proof.
  induction dir as [|e dir IH]; simpl; [apply swept_refl|]. destruct IH as [Hs Hk].
  destruct (locked e) eqn:El.
  - destruct (read_waiter (content e)); simpl; [|apply swept_refl].
    destruct (scan_waiters ev dir) as [rest dir']; simpl in *.
    split; [by constructor|]. intros e' [<-|Hin] Hl; [by left|right; auto].
  - split; [by constructor|]. intros e' [<-|Hin] Hl; [congruence|auto].
Qed.

(** A scan that succeeds reports the ticket of every live record. *)
Lemma scan_waiters_tickets ev dir ws e w :
  (scan_waiters ev dir).1 = Ok ws -> In e dir -> locked e = true -> content e = Written w ->
  In (ticket w) (map ticket ws).
Proof.
  revert ws. induction dir as [|e0 dir IH]; intros ws Hok Hin Hl Hc; [done|]. simpl in Hok.
  destruct (locked e0) eqn:El.
  - destruct (read_waiter (content e0)) as [rec|] eqn:Er; [|done].
    destruct (scan_waiters ev dir) as [[rest|] dir'] eqn:Es; simpl in *; [|by destruct rec].
    destruct Hin as [->|Hin].
    + rewrite Hc in Er. simpl in Er. simplify_eq. left. unfold fill_arrival. by case_match.
    + specialize (IH rest eq_refl Hin Hl Hc). destruct rec; simplify_eq; [by right|done].
  - destruct Hin as [->|Hin]; [congruence|auto].
Qed.

Lemma next_ticket_above ws t x : next_ticket ws = Ok t -> In x (map ticket ws) -> x < t.
Proof.
  unfold next_ticket, checked_add. case_match; simpl; [|done]. intros [= <-] Hin.
  assert (x <= foldr Z.max 0 (map ticket ws)); [|lia].
  clear -Hin. induction (map ticket ws) as [|y l IH]; simpl in *; [done|].
  destruct Hin as [->|Hin]; [lia|]. specialize (IH Hin). lia.
Qed.

(** What an attempt does to the queue: leave it, keep the place, refresh the
    record under the same ticket, or join behind everyone. *)
Inductive queue_effect (c : Client) (mid : list (Entry Waiting)) :
    list (Entry Waiting) -> result SchedError (option string) -> option QueueEntry -> Prop :=
| effect_leave r : queue_effect c mid (dequeue (queued c) mid) r None
| effect_keep : queue_effect c mid mid (Ok None) (queued c)
| effect_refresh q p rec t :
    queued c = Some q -> ~ In p (map path mid) -> ticket rec = q_ticket q ->
    queue_effect c mid
      (remove_path (q_path q) (mid ++ [mkEntry p (Some (client_id c)) (Written rec) t]))
      (Ok None) (Some (mkQueueEntry (q_ticket q) p rec))
| effect_join p rec t :
    queued c = None -> ~ In p (map path mid) ->
    (forall e w, In e mid -> locked e = true -> content e = Written w -> ticket w < ticket rec) ->
    queue_effect c mid (mid ++ [mkEntry p (Some (client_id c)) (Written rec) t]) (Ok None)
      (Some (mkQueueEntry (ticket rec) p rec)).

Lemma try_admit_queue w c a r w' c' :
  try_admit_state w c a = (r, w', c') ->
  exists mid, swept (waiters w) mid /\ queue_effect c mid (waiters w') r (queued c').
Proof.
  unfold try_admit_state, try_admit_inner. destruct (scan_leases (leases w)) as [live dl].
  cbn [leases waiters].
  destruct (attempt_gate _ _ _) as [g|].
  { intros [= <- <- <-]. exists (waiters w). split; [apply swept_refl|apply effect_leave]. }
  pose proof (scan_waiters_swept (events (client_pool c)) (waiters w)) as Hsw.
  destruct (scan_waiters (events (client_pool c)) (waiters w)) as [[ws|e] mid] eqn:Es.
  2: { intros [= <- <- <-]. exists mid. split; [done|apply effect_leave]. }
  set (t := match queued c with Some q => q_ticket q | None => u64_max end).
  destruct (admission_decision_traced _ _ _ _ _); intros Heq; exists mid; (split; [done|]).
  1,2: revert Heq; destruct_lock El p n; intros [= <- <- <-]; cbn [waiters queued set_queue];
    apply effect_leave.
  revert Heq. unfold enqueue. destruct (queued c) as [q|] eqn:Eq.
  - destruct (bool_decide _); [intros [= <- <- <-]; apply effect_keep|].
    destruct_lock El p n; intros [= <- <- <-]; cbn [waiters queued set_queue leases].
    + apply lock_record_ok in El as [-> Hp]. apply effect_refresh; done.
    + apply lock_record_err in El as ->. apply effect_leave.
  - destruct (next_ticket ws) as [tk|] eqn:En; [|intros [= <- <- <-]; apply effect_leave].
    destruct_lock El p n; intros [= <- <- <-]; cbn [waiters queued set_queue leases].
    + apply lock_record_ok in El as [-> Hp]. apply effect_join; [done..|].
      intros e0 w0 Hin Hl Hc. apply (next_ticket_above ws); [done|].
      eapply scan_waiters_tickets; [by rewrite Es| |done|done].
      destruct Hsw as [Hsub _]. by apply (sublist_In _ _ _ Hsub).
    + apply lock_record_err in El as ->. apply effect_leave.
Qed.

(** Process [i] is in the queue with entry [q]. *)
Definition queues (ps : gmap nat Process) (i : nat) (q : QueueEntry) : Prop :=
  exists c, ps !! i = Some (Seeking c) /\ queued c = Some q.

(** The file of queue entry [q] of process [i]. *)
Definition entry_of (i : nat) (q : QueueEntry) (e : Entry Waiting) : Prop :=
  owner e = Some i /\ path e = q_path q /\ content e = Written (q_record q) /\
  ticket (q_record q) = q_ticket q.

(** Live queue files and queued processes correspond, one to one, and tickets
    are distinct. *)
Record queue_inv (dir : list (Entry Waiting)) (ps : gmap nat Process) : Prop := {
  inv_paths : NoDup (map path dir);
  inv_owned : forall e i, In e dir -> owner e = Some i -> exists q, queues ps i q /\ entry_of i q e;
  inv_held : forall i q, queues ps i q -> exists e, In e dir /\ entry_of i q e;
  inv_tickets : forall i j q q', queues ps i q -> queues ps j q' ->
    q_ticket q = q_ticket q' -> i = j
}.

Lemma queues_fun ps i q q' : queues ps i q -> queues ps i q' -> q = q'.
Proof. intros (c & Hc & Hq) (c' & Hc' & Hq'). congruence. Qed.

Lemma queues_insert ps i pr j q :
  queues (<[i := pr]> ps) j q <->
  (i = j /\ exists c, pr = Seeking c /\ queued c = Some q) \/ (i <> j /\ queues ps j q).
Proof.
  unfold queues. destruct (decide (i = j)) as [->|Hne].
  - rewrite lookup_insert_eq. split.
    + intros (c & [= ->] & Hq). left. eauto.
    + intros [[_ (c & -> & Hq)]|[? _]]; [eauto|done].
  - rewrite lookup_insert_ne by done. split; [by right|]. intros [[? _]|[_ ?]]; done.
Qed.

Lemma in_remove_path {A} p (dir : list (Entry A)) e :
  In e (remove_path p dir) <-> In e dir /\ path e <> p.
Proof.
  unfold remove_path. rewrite filter_In, negb_true_iff, bool_decide_eq_false. done.
Qed.

Lemma path_inj {A} (dir : list (Entry A)) e e' :
  NoDup (map path dir) -> In e dir -> In e' dir -> path e = path e' -> e = e'.
Proof.
  induction dir as [|x dir IH]; simpl; [done|]. intros [Hx Hn]%NoDup_cons.
  assert (Hnot : forall y, In y dir -> path y <> path x).
  { intros y Hy Heq. apply Hx. rewrite <- Heq. apply list_elem_of_In. by apply in_map. }
  intros [->|He] [->|He'] Hp; auto; exfalso; eapply Hnot; eauto.
Qed.

Lemma NoDup_sublist {A} (l k : list A) : sublist l k -> NoDup k -> NoDup l.
Proof. intros Hs Hk. by eapply sublist_NoDup. Qed.

Lemma NoDup_paths_snoc {A} (dir : list (Entry A)) e :
  NoDup (map path dir) -> ~ In (path e) (map path dir) -> NoDup (map path (dir ++ [e])).
Proof.
  intros Hn He. rewrite map_app. apply NoDup_app. split_and!; [done| |apply NoDup_singleton].
  intros x Hx%list_elem_of_In Hx2%list_elem_of_singleton. simpl in Hx2. congruence.
Qed.

(** Sweeping unlocked files keeps the invariant. *)
Lemma queue_inv_swept dir mid ps : swept dir mid -> queue_inv dir ps -> queue_inv mid ps.
Proof.
  intros [Hs Hk] [Hp Ho Hh Ht]. split; [| | |exact Ht].
  - eapply NoDup_sublist; [by apply fmap_sublist|done].
  - intros e i He. apply Ho. by eapply sublist_In.
  - intros i q Hq. destruct (Hh i q Hq) as (e & He & Hof). exists e. split; [|done].
    apply Hk; [done|]. unfold locked. by destruct Hof as [-> _].
Qed.

(** Leaving the queue. *)
Lemma queue_inv_leave dir ps i c pr :
  ps !! i = Some (Seeking c) ->
  (forall c', pr = Seeking c' -> queued c' = None) ->
  queue_inv dir ps -> queue_inv (dequeue (queued c) dir) (<[i := pr]> ps).
Proof.
  intros Hi Hpr [Hp Ho Hh Ht]. split.
  - destruct (queued c); simpl; [|done]. eapply NoDup_sublist; [|exact Hp].
    apply fmap_sublist, sublist_filter.
  - intros e j He Hj.
    assert (Hin : In e dir) by (destruct (queued c); [by apply in_remove_path in He as [? _]|done]).
    destruct (Ho e j Hin Hj) as (q & Hq & Hof). exists q. split; [|done].
    apply queues_insert. destruct (decide (i = j)) as [->|Hne]; [exfalso|by right].
    destruct Hq as (c0 & Hc0 & Hq0). simplify_eq. rewrite Hq0 in He.
    apply in_remove_path in He as [_ He]. by apply He, Hof.
  - intros j q [[-> (c' & Hc' & Hq)]|[Hne Hq]]%queues_insert.
    { apply Hpr in Hc'. congruence. }
    destruct (Hh j q Hq) as (e & He & Hof). exists e. split; [|done].
    destruct (queued c) as [qi|] eqn:Eq; [|done]. apply in_remove_path. split; [done|].
    intros Heq. destruct (Hh i qi) as (ei & Hei & Hofi); [by exists c|].
    assert (e = ei) as -> by (apply (path_inj dir); [done..|]; rewrite Heq; symmetry; apply Hofi).
    destruct Hof as [Hoj _], Hofi as [Hoi _]. congruence.
  - intros j k q q' [[-> (c' & Hc' & Hq)]|[Hne Hq]]%queues_insert
      [[-> (c'' & Hc'' & Hq')]|[Hne' Hq']]%queues_insert; [done| | |by apply Ht].
    + apply Hpr in Hc'. congruence.
    + apply Hpr in Hc''. congruence.
Qed.

(** Entering the queue with a fresh file and a fresh ticket. *)
Lemma queue_inv_join dir ps i c p rec t :
  ~ In p (map path dir) -> queued c = Some (mkQueueEntry (ticket rec) p rec) ->
  (forall q, ~ queues ps i q) ->
  (forall j q, queues ps j q -> q_ticket q <> ticket rec) ->
  queue_inv dir ps ->
  queue_inv (dir ++ [mkEntry p (Some i) (Written rec) t]) (<[i := Seeking c]> ps).
Proof.
  intros Hfresh Hc Hnot Htk [Hp Ho Hh Ht]. split.
  - by apply NoDup_paths_snoc.
  - intros e j [He|[<-|[]]]%in_app_iff Hj.
    + destruct (Ho e j He Hj) as (q & Hq & Hof). exists q. split; [|done].
      apply queues_insert. right. split; [|done]. intros ->. by eapply Hnot.
    + simpl in Hj. simplify_eq. eexists. split; [apply queues_insert; left; eauto|done].
  - intros j q [[<- (c' & [= <-] & Hq)]|[Hne Hq]]%queues_insert.
    + rewrite Hc in Hq. simplify_eq. eexists. split; [apply in_app_iff; right; by left|done].
    + destruct (Hh j q Hq) as (e & He & Hof). exists e. split; [apply in_app_iff; by left|done].
  - intros j k q q' [[<- (c' & [= <-] & Hq)]|[Hne Hq]]%queues_insert
      [[<- (c'' & [= <-] & Hq')]|[Hne' Hq']]%queues_insert; [done| | |by apply Ht];
      rewrite Hc in *; simplify_eq/=; intros Heq; exfalso; by eapply Htk.
Qed.

Lemma remove_path_snoc {A} p (dir : list (Entry A)) e :
  path e <> p -> remove_path p (dir ++ [e]) = remove_path p dir ++ [e].
Proof.
  intros Hne. unfold remove_path. rewrite List.filter_app. simpl.
  by rewrite bool_decide_eq_false_2.
Qed.

Lemma queue_inv_attempt dir ps i c mid dir' r c' :
  ps !! i = Some (Seeking c) -> client_id c = i -> swept dir mid ->
  queue_effect c mid dir' r (queued c') -> queue_inv dir ps ->
  queue_inv dir' (<[i := after_attempt r c']> ps).
Proof.
  intros Hi Hid Hsw Heff Hinv. apply (queue_inv_swept _ _ _ Hsw) in Hinv. clear Hsw dir.
  inversion Heff as [r0 Hd Hr Hq|Hd Hr Hq|q p rec t Hqc Hp Htk Hd Hr Hq|p rec t Hqc Hp Htk Hd Hr Hq];
    subst r dir'; simpl.
  - apply queue_inv_leave; [done| |done]. intros c0 Heq.
    assert (c0 = c') as -> by (unfold after_attempt in Heq; by repeat case_match; simplify_eq). done.
  - assert (Hsame : forall j q, queues (<[i := Seeking c']> ps) j q <-> queues ps j q).
    { intros j q. rewrite queues_insert. unfold queues. destruct (decide (i = j)) as [->|Hne].
      - rewrite Hi. split; [intros [[_ (c0 & [= <-] & H)]|[? _]]; [|done]|intros (c0 & [= <-] & H)].
        + exists c. by rewrite Hq.
        + left. split; [done|]. exists c'. by rewrite <- Hq.
      - split; [intros [[? _]|[_ ?]]; done|by right]. }
    destruct Hinv as [Hp Ho Hh Ht]. split; [done| | |].
    + intros e j He Hj. destruct (Ho e j He Hj) as (q & H1 & H2). exists q. by rewrite Hsame.
    + intros j q Hjq%Hsame. by apply Hh.
    + intros j k q q' Hjq%Hsame Hkq%Hsame. by apply Ht.
  - assert (Hown : queues ps i q) by (by exists c).
    destruct (inv_held _ _ Hinv i q Hown) as (e & He & Hof).
    assert (Hpne : p <> q_path q).
    { intros ->. apply Hp. replace (q_path q) with (path e) by apply Hof. by apply in_map. }
    rewrite remove_path_snoc by done.
    pose proof (queue_inv_leave mid ps i c Unscheduled Hi ltac:(done) Hinv) as Hleft.
    rewrite Hqc in Hleft. simpl in Hleft. rewrite Hid, <- (insert_insert_eq ps i _ Unscheduled).
    apply queue_inv_join; [| | | |exact Hleft].
    + intros Hin. apply Hp. eapply sublist_In; [|exact Hin]. apply fmap_sublist, sublist_filter.
    + by rewrite <- Hq, Htk.
    + intros q0 [[_ (c0 & ? & _)]|[? _]]%queues_insert; done.
    + intros j q0 [[_ (c0 & ? & _)]|[Hne Hq0]]%queues_insert; [done|]. rewrite Htk. intros Heq.
      apply Hne. by eapply (inv_tickets _ _ Hinv).
  - rewrite Hid. apply queue_inv_join; [done|by rewrite <- Hq| | |done].
    + intros q (c0 & Hc0 & Hq0). congruence.
    + intros j q Hjq Heq. destruct (inv_held _ _ Hinv j q Hjq) as (e & He & Ho & _ & Hc & Htq).
      assert (ticket (q_record q) < ticket rec); [|lia].
      apply (Htk e); [done| |done]. unfold locked. by rewrite Ho.
Qed.

(** Leaves no trace in the queue: a process that was not queued. *)
Lemma queue_inv_other dir ps i pr :
  (forall q, ~ queues ps i q) -> (forall c, pr = Seeking c -> queued c = None) ->
  queue_inv dir ps -> queue_inv dir (<[i := pr]> ps).
Proof.
  intros Hnot Hpr [Hp Ho Hh Ht].
  assert (Hsame : forall j q, queues (<[i := pr]> ps) j q <-> queues ps j q).
  { intros j q. rewrite queues_insert. split.
    - intros [[_ (c & Hc & Hq)]|[_ ?]]; [|done]. apply Hpr in Hc. congruence.
    - intros Hq. right. split; [|done]. intros ->. by eapply Hnot. }
  split; [done| | |].
  - intros e j He Hj. destruct (Ho e j He Hj) as (q & H1 & H2). exists q. by rewrite Hsame.
  - intros j q Hjq%Hsame. by apply Hh.
  - intros j k q q' Hjq%Hsame Hkq%Hsame. by apply Ht.
Qed.

Lemma in_unlock_all {A} i (dir : list (Entry A)) e j :
  In e (unlock_all i dir) -> owner e = Some j -> In e dir /\ i <> j.
Proof.
  unfold unlock_all. intros (x & Hx & Hin)%in_map_iff Hj.
  case_bool_decide as Hi; subst; [done|]. split; [done|]. congruence.
Qed.

Lemma unlock_all_keeps {A} i (dir : list (Entry A)) e j :
  In e dir -> owner e = Some j -> i <> j -> In e (unlock_all i dir).
Proof.
  intros He Hj Hne. unfold unlock_all. apply in_map_iff. exists e. split; [|done].
  by rewrite bool_decide_eq_false_2 by congruence.
Qed.

Lemma map_path_unlock_all {A} i (dir : list (Entry A)) : map path (unlock_all i dir) = map path dir.
Proof.
  unfold unlock_all. rewrite map_map. apply map_ext. intros e. by case_bool_decide.
Qed.

Lemma queue_inv_crash dir ps i :
  queue_inv dir ps -> queue_inv (unlock_all i dir) (<[i := Dead]> ps).
Proof.
  intros [Hp Ho Hh Ht]. split.
  - by rewrite map_path_unlock_all.
  - intros e j He Hj. destruct (in_unlock_all i dir e j He Hj) as [Hin Hne].
    destruct (Ho e j Hin Hj) as (q & Hq & Hof). exists q. split; [|done].
    apply queues_insert. by right.
  - intros j q [[_ (c & ? & _)]|[Hne Hq]]%queues_insert; [done|].
    destruct (Hh j q Hq) as (e & He & Hof). exists e. split; [|done].
    eapply unlock_all_keeps; [done|apply Hof|done].
  - intros j k q q' [[_ (c & ? & _)]|[Hne Hq]]%queues_insert
      [[_ (c' & ? & _)]|[Hne' Hq']]%queues_insert; try done. by apply Ht.
Qed.

Section queue.
Context (max_cpu max_memory : Z).

Lemma queue_inv_reachable s :
  reachable max_cpu max_memory s ->
  queue_inv (waiters (world s)) (processes s) /\ clients_ok max_cpu max_memory (processes s).
Proof.
  unfold reachable. revert s. apply rtc_ind_r.
  - assert (Hnone : forall i q, ~ queues (processes initial) i q)
      by (intros i q (c & Hc & _); simpl in Hc; by rewrite lookup_empty in Hc).
    split; [split; simpl; [constructor|done|..]|].
    + intros i q Hq. by apply Hnone in Hq.
    + intros i j q q' Hq. by apply Hnone in Hq.
    + intros i c. simpl. by rewrite lookup_empty.
  - intros s s' _ Hstep [Hinv Hok]. split; [|by eapply clients_ok_step].
    destruct Hstep as [s i c a r w c' Hi Ha Htry|s i p Hi|s i pr Hi|s i c Hi Hid Hq Hc];
      cbn [world processes waiters].
    + destruct (Hok i c Hi) as [Hid _].
      apply try_admit_queue in Htry as (mid & Hsw & Heff). by eapply queue_inv_attempt.
    + apply queue_inv_other; [|done|done]. intros q (c & Hc & _). congruence.
    + by apply queue_inv_crash.
    + apply queue_inv_other; [|by intros c0 [= <-]|done]. intros q (c0 & Hc0 & _). congruence.
Qed.
End queue.

(** C33: queue places are real and unique.  In every reachable state, each
    queued process has exactly one live queue file, which holds the record it
    last wrote under its ticket, no live file belongs to anyone else, and no
    two processes hold the same ticket, so a queue position has one owner. *)
Theorem queue_places_are_unique max_cpu max_memory s :
  reachable max_cpu max_memory s ->
  (forall i q, queues (processes s) i q ->
    exists e, In e (waiters (world s)) /\ entry_of i q e) /\
  (forall e i, In e (waiters (world s)) -> owner e = Some i ->
    exists q, queues (processes s) i q /\ entry_of i q e) /\
  (forall i j q q', queues (processes s) i q -> queues (processes s) j q' ->
    q_ticket q = q_ticket q' -> i = j).
Proof.
  intros Hr. apply queue_inv_reachable in Hr as [[Hp Ho Hh Ht] _]. split_and!; [apply Hh|apply Ho|apply Ht].
Qed.

(** C34: no standstill.  When nothing is running, an attempt by the process at
    the head of the queue starts its work at once, however much it asks for
    and whatever the pressure and memory gates would say beside running work:
    an idle machine never leaves the oldest demand waiting. *)
Theorem idle_pool_admits_head w c a ws dir :
  live_leases w = [] ->
  scan_waiters (events (client_pool c)) (waiters w) = (Ok ws, dir) ->
  (forall o, In o ws -> match queued c with Some q => q_ticket q | None => u64_max end <= ticket o) ->
  ~ In (file_name c (nonce c)) (map path (List.filter locked (leases w))) ->
  let '(r, w', c') := try_admit_state w c a in
  r = Ok (Some (file_name c (nonce c))) /\
  live_resources w' = [ask a] /\ queued c' = None.
Proof.
  intros Hidle Hscan Hhead Hname. unfold try_admit_state, try_admit_inner.
  assert (Hdir : List.filter locked (leases w) = []).
  { unfold live_leases, scan_leases in Hidle. simpl in Hidle. by apply map_eq_nil in Hidle. }
  unfold scan_leases. rewrite Hdir. cbn [map]. cbn [leases waiters].
  assert (attempt_gate (client_pool c) [] a = None) as ->
    by (unfold attempt_gate; rewrite andb_false_r; done).
  rewrite Hscan, idle_head_ordered.
  2: { intros o Ho Ht. specialize (Hhead o Ho). simpl in Ht. lia. }
  simpl. split_and!; [done| |done].
  unfold live_resources, live_leases, scan_leases. simpl. by destruct (ask a).
Qed.

(** ** Instances *)

(** Processes [i] on a machine of four cores. *)
Definition demo_client (i : nat) : Client :=
  mkClient i
    (set_memory_capacity (mkMachine 4 None) (pool_new (mkMachine 4 None) "host" 4 250 Normal) 1000)
    (fun n => String.append (pretty i) (String.append "-token-" (pretty n))) 0 None None 0 7 None None.
Definition demo_attempt : Attempt :=
  mkAttempt (mkResources 3 300) 3 None 10 None false None false.

(** Process [i] starts and attempts at once. *)
Definition demo_enter (s : System) (i : nat) : System :=
  let '(r, w, c) := try_admit_state (world s) (demo_client i) demo_attempt in
  mkSystem w (<[i := after_attempt r c]> (<[i := Seeking (demo_client i)]> (processes s))).

Definition demo_system : System := demo_enter initial 0.
(** Two more processes queue behind the one that runs. *)
Definition demo_queue : System := demo_enter (demo_enter demo_system 1) 2.

Lemma demo_client_ok i : client_ok 4 1000 (demo_client i).
Proof. unfold client_ok, pool_wf, is_u64, u64_max. simpl. split_and!; lia. Qed.

Lemma demo_enter_reachable s i :
  reachable 4 1000 s -> processes s !! i = None -> reachable 4 1000 (demo_enter s i).
Proof.
  intros Hs Hi. unfold demo_enter.
  destruct (try_admit_state (world s) (demo_client i) demo_attempt) as [[r w] c] eqn:E.
  eapply rtc_r; [eapply rtc_r; [exact Hs|]|].
  - by apply (step_start 4 1000 s i (demo_client i)), demo_client_ok.
  - pose proof (step_attempt 4 1000 (mkSystem (world s) (<[i := Seeking (demo_client i)]> (processes s)))
      i (demo_client i) demo_attempt r w c) as Hstep. cbn [world processes] in Hstep.
    apply Hstep; [apply lookup_insert_eq| |done].
    unfold attempt_wf, resources_wf, is_u64, u64_max. simpl. lia.
Qed.

Lemma demo_system_reachable : reachable 4 1000 demo_system.
Proof. by apply demo_enter_reachable; [apply rtc_refl|]. Qed.

Lemma demo_queue_reachable : reachable 4 1000 demo_queue.
Proof.
  apply demo_enter_reachable; [apply demo_enter_reachable; [apply demo_system_reachable|]|];
    vm_compute; reflexivity.
Qed.

Lemma never_oversubscribed_witness :
  live_resources (world demo_system) = [mkResources 3 300] /\
  axis_inv 4 (map cpu (live_resources (world demo_system))).
Proof.
  split; [vm_compute; reflexivity|].
  apply (never_oversubscribed 4 1000 demo_system).
  - unfold u64_max. lia.
  - unfold u64_max. lia.
  - exact demo_system_reachable.
Defined.

Lemma queue_places_are_unique_witness :
  exists q1 q2 e1 e2, queues (processes demo_queue) 1 q1 /\ queues (processes demo_queue) 2 q2 /\
    q_ticket q1 = 1 /\ q_ticket q2 = 2 /\ In e1 (waiters (world demo_queue)) /\ entry_of 1 q1 e1 /\
    In e2 (waiters (world demo_queue)) /\ entry_of 2 q2 e2.
Proof.
  destruct (queue_places_are_unique 4 1000 demo_queue demo_queue_reachable) as (Hfile & _ & _).
  assert (Hq : exists q1 q2, queues (processes demo_queue) 1 q1 /\ queues (processes demo_queue) 2 q2 /\
    q_ticket q1 = 1 /\ q_ticket q2 = 2).
  { eexists _, _. split_and!; [eexists; split; vm_compute; reflexivity|
      eexists; split; vm_compute; reflexivity|reflexivity|reflexivity]. }
  destruct Hq as (q1 & q2 & H1 & H2 & Ht1 & Ht2).
  destruct (Hfile _ _ H1) as (e1 & Hin1 & He1). destruct (Hfile _ _ H2) as (e2 & Hin2 & He2).
  by exists q1, q2, e1, e2.
Defined.

(** When the running process has gone, the first of the two in the queue asks
    for more than the machine has. *)
Definition demo_idle : World := mkWorld [] (waiters (world demo_queue)).
Definition demo_head : Client :=
  match processes demo_queue !! 1%nat with Some (Seeking c) => c | _ => demo_client 1 end.
Definition demo_oversized : Attempt :=
  mkAttempt (mkResources 9 3000) 9 None 10 None false None false.
Definition demo_scan := Eval vm_compute in scan_waiters (events (client_pool demo_head)) (waiters demo_idle).

Lemma idle_pool_admits_head_witness :
  let '(r, w, _) := try_admit_state demo_idle demo_head demo_oversized in
  r = Ok (Some (file_name demo_head (nonce demo_head))) /\ live_resources w = [mkResources 9 3000] /\ length (waiters w) = 1%nat.
Proof.
  pose proof (idle_pool_admits_head demo_idle demo_head demo_oversized
    match demo_scan.1 with Ok ws => ws | Err _ => [] end demo_scan.2) as H.
  assert (Hw : length (waiters (try_admit_state demo_idle demo_head demo_oversized).1.2) = 1%nat) by (vm_compute; reflexivity).
  destruct (try_admit_state demo_idle demo_head demo_oversized) as [[r w'] c'].
  destruct H as (Hr & Hl & _); [reflexivity|vm_compute; reflexivity| |intros []|done].
  intros o Ho. vm_compute in Ho. destruct Ho as [<-|[<-|[]]]; vm_compute; discriminate.
Defined.
