(* ===== verification/TestHistory.v ===== *)
(** * Per-test history files

    Models the compact per-test history of [src/crates/mbx/src/scheduler.rs]:
    the little-endian file format ([encode_test_history],
    [parse_test_history_header], [decode_test_history_record]), the reader that
    sorts and merges records, the binary search on the file itself
    ([lookup_test_history]), and the writer [record_test_history] with its cap.

    The two SHA-256 prefixes, of a test's and of a binary's name, are
    arguments.  A file is its list of bytes.  The theorems: reading what was
    written gives it back, the binary search answers as a linear lookup, and an
    update only raises measurements, keeps the file sorted without duplicates
    and within its cap. *)

From stdpp Require Import base list gmap strings sorting.
From Stdlib Require Import ZArith Lia.
From S2P Require Import Prelude SubsetSum Pressure Admission Pool.
Local Open Scope Z_scope.

(** ** Bytes *)

(** [to_le_bytes] of an [n]-byte integer, and back. *)
Fixpoint le_bytes (n : nat) (x : Z) : list Z :=
  match n with O => [] | S n => x mod 256 :: le_bytes n (x / 256) end.

Fixpoint of_le_bytes (l : list Z) : Z :=
  match l with [] => 0 | b :: l => b + 256 * of_le_bytes l end.

Definition read_u64 (bytes : list Z) : Z := of_le_bytes bytes.
Definition to_le_bytes (x : Z) : list Z := le_bytes 8 x.

(** [bytes[from..to]]. *)
Definition slice (from to : nat) (bytes : list Z) : list Z := take (to - from) (drop from bytes).

Definition nonzero (value : Z) : option Z := then_some (negb (value =? 0)) value.

(** ** Records *)

Definition TEST_HISTORY_MAGIC : list Z := [109; 98; 120; 116; 101; 115; 116; 1].
Definition TEST_HISTORY_HEADER_LEN : Z := 32.
Definition TEST_HISTORY_RECORD_LEN : Z := 24.
Definition MAX_TEST_HISTORY_ENTRIES : nat := Z.to_nat 16384.

#[export] Instance TestMeasurement_eq_dec : EqDecision TestMeasurement.
Proof. solve_decision. Defined.

Definition no_measurement : TestMeasurement := mkMeasurement None None.

Record TestHistoryRecord := mkRecord { hash : Z; measurement : TestMeasurement }.
Record TestHistoryHeader := mkHeader { count : Z; maximum : TestMeasurement }.
Record TestHistoryLookup := mkLookup { found : option TestMeasurement; header : TestHistoryHeader }.

Definition raise_option (current incoming : option Z) : option Z :=
  match current, incoming with
  | Some c, Some i => Some (Z.max c i)
  | current, incoming => option_or current incoming
  end.

Definition raise_measurement (current incoming : TestMeasurement) : TestMeasurement :=
  mkMeasurement (raise_option (peak current) (peak incoming))
    (raise_option (cores current) (cores incoming)).

Definition decode_test_history_record (bytes : list Z) : TestHistoryRecord :=
  mkRecord (read_u64 (slice 0 8 bytes))
    (mkMeasurement (nonzero (read_u64 (slice 8 16 bytes)))
      (nonzero (read_u64 (slice 16 24 bytes)))).

Definition encode_record (r : TestHistoryRecord) : list Z :=
  to_le_bytes (hash r) ++ to_le_bytes (unwrap_or 0 (peak (measurement r))) ++
  to_le_bytes (unwrap_or 0 (cores (measurement r))).

Definition history_maximum (records : list TestHistoryRecord) : TestMeasurement :=
  foldl (fun m r => raise_measurement m (measurement r)) no_measurement records.

(** [as_chunks::<24>]: the complete chunks; [n] bounds their number. *)
Fixpoint chunks (n : nat) (bytes : list Z) : list (list Z) :=
  match n with
  | O => []
  | S n =>
      if (24 <=? length bytes)%nat then take 24 bytes :: chunks n (drop 24 bytes) else []
  end.

Definition by_hash (a b : TestHistoryRecord) : Prop := hash a <= hash b.
#[export] Instance by_hash_dec : RelDecision by_hash.
Proof. intros a b. unfold by_hash. apply _. Defined.

(** The merge of equal hashes: [last] is the last record pushed. *)
Fixpoint merge_runs (last : TestHistoryRecord) (records : list TestHistoryRecord)
    : list TestHistoryRecord :=
  match records with
  | [] => [last]
  | r :: records =>
      if hash last =? hash r
      then merge_runs (mkRecord (hash last) (raise_measurement (measurement last) (measurement r)))
             records
      else last :: merge_runs r records
  end.

Definition merge_duplicates (records : list TestHistoryRecord) : list TestHistoryRecord :=
  match records with [] => [] | r :: records => merge_runs r records end.

(** [binary_search_by_key] on records sorted by hash: the index of the hash,
    or where it belongs. *)
Fixpoint search (h : Z) (records : list TestHistoryRecord) : result nat nat :=
  match records with
  | [] => Err O
  | r :: records =>
      if hash r =? h then Ok O
      else if h <? hash r then Err O
      else match search h records with Ok i => Ok (S i) | Err i => Err (S i) end
  end.

(** The order in which an overfull history loses records. *)
Definition weaker (a b : TestHistoryRecord) : bool :=
  let pa := unwrap_or 0 (peak (measurement a)) in
  let pb := unwrap_or 0 (peak (measurement b)) in
  let ca := unwrap_or 0 (cores (measurement a)) in
  let cb := unwrap_or 0 (cores (measurement b)) in
  if pa =? pb then if ca =? cb then hash a <? hash b else ca <? cb else pa <? pb.

(** [min_by]: the index of the first least record. *)
Fixpoint weakest (best : nat) (bestr : TestHistoryRecord) (i : nat)
    (records : list TestHistoryRecord) : nat :=
  match records with
  | [] => best
  | r :: records =>
      if weaker r bestr then weakest i r (S i) records else weakest best bestr (S i) records
  end.

(** [Vec::remove]. *)
Definition remove_at {A} (i : nat) (l : list A) : list A := take i l ++ drop (S i) l.

(** [while records.len() > limit]; each round removes one record, so [fuel]
    rounds are enough when [fuel] is the length. *)
Fixpoint enforce_cap (fuel limit : nat) (records : list TestHistoryRecord)
    : list TestHistoryRecord :=
  match fuel, records with
  | S fuel, r :: rest =>
      if (limit <? length records)%nat
      then enforce_cap fuel limit (remove_at (weakest 0 r 1 rest) records)
      else records
  | _, _ => records
  end.

Definition enforce_test_history_cap (limit : nat) (records : list TestHistoryRecord)
    : list TestHistoryRecord :=
  enforce_cap (length records) limit records.

Section history.
(** Prefixes of the SHA-256 of a test's name and of a binary's name. *)
Context (test_history_hash test_history_binary_tag : string -> Z).

Definition encode_test_history (binary : string) (records : list TestHistoryRecord) : list Z :=
  let m := history_maximum records in
  TEST_HISTORY_MAGIC ++ to_le_bytes (test_history_binary_tag binary) ++
  to_le_bytes (unwrap_or 0 (peak m)) ++ to_le_bytes (unwrap_or 0 (cores m)) ++
  concat (map encode_record records).

Definition parse_test_history_header (bytes : list Z) (file_len : Z) (binary : string)
    : option TestHistoryHeader :=
  if negb (Z.of_nat (length bytes) =? TEST_HISTORY_HEADER_LEN) ||
     (file_len <? TEST_HISTORY_HEADER_LEN) ||
     negb (bool_decide (slice 0 8 bytes = TEST_HISTORY_MAGIC)) ||
     negb (read_u64 (slice 8 16 bytes) =? test_history_binary_tag binary)
  then None
  else
    Some (mkHeader ((file_len - TEST_HISTORY_HEADER_LEN) / TEST_HISTORY_RECORD_LEN)
      (mkMeasurement (nonzero (read_u64 (slice 16 24 bytes)))
        (nonzero (read_u64 (slice 24 32 bytes))))).

(** [read_exact_at]: [len] bytes at [offset], or an error past the end. *)
Definition read_exact_at (file : list Z) (len : nat) (offset : Z) : option (list Z) :=
  let bytes := take len (drop (Z.to_nat offset) file) in
  if (length bytes =? len)%nat then Some bytes else None.

Definition read_test_history_header (file : list Z) (binary : string) : option TestHistoryHeader :=
  let file_len := Z.of_nat (length file) in
  if file_len <? TEST_HISTORY_HEADER_LEN then None
  else bytes ← read_exact_at file 32 0; parse_test_history_header bytes file_len binary.

(** The binary search over the records on disk. *)
Fixpoint lookup_loop (fuel : nat) (file : list Z) (h low high : Z) : option TestMeasurement :=
  match fuel with
  | O => None
  | S fuel =>
      if low <? high then
        let middle := low + (high - low) / 2 in
        let offset := TEST_HISTORY_HEADER_LEN + middle * TEST_HISTORY_RECORD_LEN in
        match read_exact_at file 24 offset with
        | None => None
        | Some bytes =>
            let record := decode_test_history_record bytes in
            if hash record <? h then lookup_loop fuel file h (middle + 1) high
            else if h <? hash record then lookup_loop fuel file h low middle
            else Some (measurement record)
        end
      else None
  end.

Definition lookup_default : TestHistoryLookup := mkLookup None (mkHeader 0 no_measurement).

Definition lookup_test_history (file : option (list Z)) (binary test : string)
    : TestHistoryLookup :=
  match file with
  | None => lookup_default
  | Some file =>
      match read_test_history_header file binary with
      | None => lookup_default
      | Some header =>
          let h := test_history_hash test in
          mkLookup (lookup_loop (S (Z.to_nat (count header))) file h 0 (count header)) header
      end
  end.

Definition read_test_history_records (file : option (list Z)) (binary : string)
    : list TestHistoryRecord :=
  match file with
  | None => []
  | Some contents =>
      match (if (32 <=? length contents)%nat
             then parse_test_history_header (take 32 contents) (Z.of_nat (length contents)) binary
             else None) with
      | None => []
      | Some header =>
          let bytes := drop 32 contents in
          let records :=
            map decode_test_history_record
              (take (Z.to_nat (count header)) (chunks (length bytes) bytes)) in
          merge_duplicates (merge_sort by_hash records)
      end
  end.

(** [record_test_history]: the new content, or [None] when nothing rises. *)
Definition record_test_history (file : option (list Z)) (binary test : string)
    (new_peak new_cores : option Z) : option (list Z) :=
  let h := test_history_hash test in
  let records := read_test_history_records file binary in
  let position := search h records in
  let current :=
    match position with
    | Ok i => unwrap_or no_measurement (measurement <$> records !! i)
    | Err _ => no_measurement
    end in
  let updated :=
    raise_measurement current
      (mkMeasurement (option_filter (fun v => 0 <? v) new_peak)
        (option_filter (fun v => 0 <? v) new_cores)) in
  if bool_decide (updated = current) then None
  else
    let records :=
      match position with
      | Ok i => alter (fun r => mkRecord (hash r) updated) i records
      | Err i => take i records ++ mkRecord h updated :: drop i records
      end in
    Some (encode_test_history binary
      (enforce_test_history_cap MAX_TEST_HISTORY_ENTRIES records)).

(** [record_test_measurement]: skip what planning already knew. *)
Definition raises (value known : option Z) : bool :=
  is_some_and (fun v => is_none_or (fun k => k <? v) known) value.

Definition record_test_measurement (known : option TestMeasurement) (file : option (list Z))
    (binary test : string) (new_peak new_cores : option Z) : option (list Z) :=
  if is_some_and (fun k => negb (raises new_peak (peak k)) && negb (raises new_cores (cores k))) known
  then None
  else record_test_history file binary test new_peak new_cores.
End history.

(** ** Bytes: round trip *)

Lemma length_le_bytes n x : length (le_bytes n x) = n.
Proof. revert x. induction n as [|n IH]; intros x; simpl; [done|]. by rewrite IH. Qed.

Lemma of_le_bytes_le_bytes n x : 0 <= x < 256 ^ Z.of_nat n -> of_le_bytes (le_bytes n x) = x.
Proof.
  revert x. induction n as [|n IH]; intros x Hx; simpl; [simpl in Hx; lia|].
  rewrite Nat2Z.inj_succ, Z.pow_succ_r in Hx by lia.
  pose proof (Z.div_mod x 256 ltac:(lia)). pose proof (Z.mod_pos_bound x 256 ltac:(lia)).
  rewrite IH; [lia|]. split; [apply Z.div_pos; lia|apply Z.div_lt_upper_bound; lia].
Qed.

Lemma length_to_le_bytes x : length (to_le_bytes x) = 8%nat.
Proof. apply length_le_bytes. Qed.

Lemma read_u64_to_le x : is_u64 x -> read_u64 (to_le_bytes x) = x.
Proof. intros Hx. apply of_le_bytes_le_bytes. unfold is_u64, u64_max in *. simpl. lia. Qed.

Definition is_byte (b : Z) : Prop := 0 <= b < 256.

Lemma of_le_bytes_bound l : Forall is_byte l -> 0 <= of_le_bytes l < 256 ^ Z.of_nat (length l).
Proof.
  induction 1 as [|b l Hb Hl IH]; [simpl; lia|]. unfold is_byte in Hb.
  cbn [of_le_bytes length]. rewrite Nat2Z.inj_succ, Z.pow_succ_r by lia. lia.
Qed.

Lemma read_u64_bound l : Forall is_byte l -> (length l <= 8)%nat -> is_u64 (read_u64 l).
Proof.
  intros Hl Hlen. pose proof (of_le_bytes_bound l Hl). unfold is_u64, read_u64.
  assert (256 ^ Z.of_nat (length l) <= 256 ^ 8) by (apply Z.pow_le_mono_r; lia).
  unfold u64_max. lia.
Qed.

(** ** Well-formed records *)

(** A stored figure is a positive [u64]; zero on disk means none. *)
Definition opt_positive (o : option Z) : Prop := forall x, o = Some x -> 0 < x <= u64_max.

Definition measurement_wf (m : TestMeasurement) : Prop :=
  opt_positive (peak m) /\ opt_positive (cores m).

Definition record_wf (r : TestHistoryRecord) : Prop :=
  is_u64 (hash r) /\ measurement_wf (measurement r).

(** Sorted by hash, without duplicates. *)
Definition strictly_sorted (l : list TestHistoryRecord) : Prop :=
  StronglySorted (fun a b => hash a < hash b) l.

Lemma nonzero_unwrap o : opt_positive o -> nonzero (unwrap_or 0 o) = o.
Proof.
  intros Ho. destruct o as [x|]; [|done]. specialize (Ho x eq_refl). unfold nonzero. simpl.
  destruct (Z.eqb_spec x 0); [lia|done].
Qed.

Lemma unwrap_u64 o : opt_positive o -> is_u64 (unwrap_or 0 o).
Proof.
  intros Ho. destruct o as [x|]; [specialize (Ho x eq_refl)|]; unfold is_u64, u64_max in *; simpl; lia.
Qed.

Lemma nonzero_positive x : is_u64 x -> opt_positive (nonzero x).
Proof.
  intros Hx y. unfold nonzero. destruct (Z.eqb_spec x 0); simpl; [done|]. intros [= <-].
  unfold is_u64 in Hx. lia.
Qed.

Lemma raise_option_positive a b : opt_positive a -> opt_positive b -> opt_positive (raise_option a b).
Proof.
  intros Ha Hb x. destruct a as [a|], b as [b|]; simpl; [|auto..].
  intros [= <-]. specialize (Ha a eq_refl). specialize (Hb b eq_refl). lia.
Qed.

Lemma raise_measurement_wf a b :
  measurement_wf a -> measurement_wf b -> measurement_wf (raise_measurement a b).
Proof. intros [? ?] [? ?]. split; by apply raise_option_positive. Qed.

Lemma no_measurement_wf : measurement_wf no_measurement.
Proof. by split. Qed.
#[export] Hint Resolve raise_measurement_wf no_measurement_wf nonzero_positive : mbx.

Lemma length_encode_record r : length (encode_record r) = 24%nat.
Proof. unfold encode_record, to_le_bytes. by rewrite !length_app, !length_le_bytes. Qed.

(** Slices of a concatenation of eight-byte fields. *)
Lemma slice_app_l a b k : length a = k -> slice 0 k (a ++ b) = a.
Proof. intros <-. unfold slice. rewrite drop_0, Nat.sub_0_r. apply take_app_length. Qed.

Lemma slice_app_r a b i j :
  (length a <= i)%nat -> slice i j (a ++ b) = slice (i - length a) (j - length a) b.
Proof.
  intros Hi. unfold slice. rewrite drop_app_ge by done. f_equal. lia.
Qed.

Lemma slice_all a k : length a = k -> slice 0 k a = a.
Proof. intros <-. unfold slice. rewrite drop_0, Nat.sub_0_r. apply firstn_all. Qed.

Lemma decode_encode_record r :
  record_wf r -> decode_test_history_record (encode_record r) = r.
Proof.
  intros [Hh [Hp Hc]]. unfold decode_test_history_record, encode_record.
  rewrite slice_app_l by apply length_to_le_bytes.
  rewrite !slice_app_r by (rewrite ?length_to_le_bytes; lia).
  rewrite !length_to_le_bytes. simpl Nat.sub.
  rewrite slice_app_l by apply length_to_le_bytes.
  rewrite !slice_app_r by (rewrite ?length_to_le_bytes; lia).
  rewrite !length_to_le_bytes. simpl Nat.sub.
  rewrite slice_all by apply length_to_le_bytes.
  rewrite !read_u64_to_le by (done || by apply unwrap_u64). rewrite !nonzero_unwrap by done.
  by destruct r as [h [p c]].
Qed.

Lemma chunks_encode n records :
  (length records <= n)%nat ->
  chunks n (concat (map encode_record records)) = map encode_record records.
Proof.
  revert n. induction records as [|r records IH]; intros n Hn; [by destruct n|].
  destruct n as [|n]; [simpl in Hn; lia|]. simpl in Hn. cbn [map concat chunks].
  rewrite length_app, length_encode_record.
  assert ((24 <=? 24 + length (concat (map encode_record records)))%nat = true) as ->
    by (apply Nat.leb_le; lia).
  rewrite take_app_length' by (by rewrite length_encode_record).
  rewrite drop_app_length' by (by rewrite length_encode_record).
  by rewrite IH by lia.
Qed.

Lemma length_concat_encode records :
  length (concat (map encode_record records)) = (24 * length records)%nat.
Proof.
  induction records as [|r records IH]; [done|]. cbn [map concat length].
  rewrite length_app, length_encode_record, IH. lia.
Qed.

Lemma decode_encode_all records :
  Forall record_wf records ->
  map decode_test_history_record (map encode_record records) = records.
Proof.
  induction 1 as [|r records Hr Hl IH]; simpl; [done|]. by rewrite decode_encode_record, IH.
Qed.

(** ** Sorting and merging *)

Lemma merge_runs_sorted last records :
  Forall (fun r => hash last < hash r) records -> strictly_sorted records ->
  merge_runs last records = last :: records.
Proof.
  revert last. induction records as [|r records IH]; intros last Hlt Hs; simpl; [done|].
  apply Forall_cons in Hlt as [Hr _]. apply StronglySorted_inv in Hs as [Hs Hf].
  destruct (Z.eqb_spec (hash last) (hash r)); [lia|]. by rewrite IH.
Qed.

Lemma merge_duplicates_sorted records :
  strictly_sorted records -> merge_duplicates records = records.
Proof.
  destruct records as [|r records]; [done|]. intros [Hs Hf]%StronglySorted_inv.
  by apply merge_runs_sorted.
Qed.

Lemma by_hash_total : Total by_hash.
Proof. intros a b. unfold by_hash. lia. Qed.
Lemma by_hash_trans : Transitive by_hash.
Proof. intros a b c. unfold by_hash. lia. Qed.
#[export] Existing Instances by_hash_total by_hash_trans.

Lemma strictly_sorted_unique l a b :
  strictly_sorted l -> a ∈ l -> b ∈ l -> hash a = hash b -> a = b.
Proof.
  induction 1 as [|x l Hs IH Hf]; [intros []%not_elem_of_nil|].
  rewrite Forall_forall in Hf.
  intros [->|Ha]%elem_of_cons [->|Hb]%elem_of_cons Heq; auto.
  - specialize (Hf b Hb). lia.
  - specialize (Hf a Ha). lia.
Qed.

Lemma merge_sort_sorted records : strictly_sorted records -> merge_sort by_hash records = records.
Proof.
  intros Hs. apply (StronglySorted_unique_strong by_hash).
  - intros a b Ha Hb H1 H2. rewrite merge_sort_Permutation in Ha.
    apply (strictly_sorted_unique records); [done..|]. unfold by_hash in *. lia.
  - apply StronglySorted_merge_sort; apply _.
  - eapply StronglySorted_weaken; [|exact Hs]. intros a b. unfold by_hash. lia.
  - apply merge_sort_Permutation.
Qed.

(** Merging runs of a sorted list leaves no two records with one hash. *)
Lemma merge_runs_spec last records :
  Forall (fun r => hash last <= hash r) records -> StronglySorted by_hash records ->
  record_wf last -> Forall record_wf records ->
  strictly_sorted (merge_runs last records) /\ Forall record_wf (merge_runs last records) /\
  Forall (fun r => hash last <= hash r) (merge_runs last records).
Proof.
  revert last. induction records as [|r records IH]; intros last Hle Hs Hw Hws; simpl.
  { split_and!; [by repeat constructor|by constructor|constructor; [lia|constructor]]. }
  apply Forall_cons in Hle as [Hr Hle]. apply StronglySorted_inv in Hs as [Hs Hf].
  apply Forall_cons in Hws as [Hwr Hws].
  destruct (Z.eqb_spec (hash last) (hash r)).
  - apply (IH (mkRecord (hash last) _)); [done|done| |done].
    destruct Hw as [? ?], Hwr as [? ?]. split; simpl; auto with mbx.
  - destruct (IH r) as (H1 & H2 & H3); [done..|].
    assert (Hlt : Forall (fun x => hash last < hash x) (merge_runs r records))
      by (eapply Forall_impl; [exact H3|]; simpl; intros; lia).
    split_and!; [by constructor|by constructor|].
    constructor; [lia|]. eapply Forall_impl; [exact Hlt|]. simpl. intros. lia.
Qed.

Lemma read_records_wf_aux (bs : list (list Z)) :
  Forall (Forall is_byte) bs -> Forall record_wf (map decode_test_history_record bs).
Proof.
  intros Hb. apply Forall_map. eapply Forall_impl; [exact Hb|]. intros b Hbytes.
  assert (Hs : forall i j, (j - i <= 8)%nat -> is_u64 (read_u64 (slice i j b))).
  { intros i j Hij. apply read_u64_bound; [by apply Forall_take, Forall_drop|].
    unfold slice. rewrite length_take. lia. }
  split; [apply Hs; lia|split; apply nonzero_positive, Hs; lia].
Qed.

Lemma chunks_bytes n bs : Forall is_byte bs -> Forall (Forall is_byte) (chunks n bs).
Proof.
  revert bs. induction n as [|n IH]; intros bs Hb; cbn [chunks]; [constructor|].
  destruct (24 <=? length bs)%nat; [|constructor].
  constructor; [by apply Forall_take|apply IH; by apply Forall_drop].
Qed.

(** ** The weakest record and the cap *)

Lemma length_remove_at {A} i (l : list A) :
  (i < length l)%nat -> S (length (remove_at i l)) = length l.
Proof. intros Hi. unfold remove_at. rewrite length_app, length_take, length_drop. lia. Qed.

Lemma remove_at_sublist {A} i (l : list A) : sublist (remove_at i l) l.
Proof.
  unfold remove_at. revert i. induction l as [|a l IH]; intros i; [by destruct i|].
  destruct i; simpl; [rewrite drop_0; by constructor|]. constructor. apply IH.
Qed.

Lemma weakest_bound best br i l :
  (best < i)%nat -> (weakest best br i l < i + length l)%nat.
Proof.
  revert best br i. induction l as [|r l IH]; intros best br i Hb; simpl; [lia|].
  destruct (weaker r br); [specialize (IH i r (S i))|specialize (IH best br (S i))]; lia.
Qed.

Lemma enforce_cap_sublist fuel limit l : sublist (enforce_cap fuel limit l) l.
Proof.
  revert l. induction fuel as [|fuel IH]; intros l; [done|]. destruct l as [|r l]; [done|].
  cbn [enforce_cap]. destruct (limit <? _)%nat; [|done].
  etrans; [apply IH|apply remove_at_sublist].
Qed.

Lemma enforce_cap_spec fuel limit l :
  (length l <= fuel)%nat ->
  sublist (enforce_cap fuel limit l) l /\ (length (enforce_cap fuel limit l) <= limit)%nat /\
  ((length l <= limit)%nat -> enforce_cap fuel limit l = l).
Proof.
  revert l. induction fuel as [|fuel IH]; intros l Hl; simpl.
  { destruct l; simpl in *; [|lia]. split_and!; [done|lia|done]. }
  destruct l as [|r l]; [split_and!; [done|simpl; lia|done]|].
  destruct (Nat.ltb_spec limit (length (r :: l))) as [Hlt|Hge].
  2: { split_and!; [done|done|done]. }
  pose proof (weakest_bound 0 r 1 l ltac:(lia)) as Hw.
  pose proof (length_remove_at (weakest 0 r 1 l) (r :: l) ltac:(simpl; lia)) as Hrm.
  destruct (IH (remove_at (weakest 0 r 1 l) (r :: l))) as (H1 & H2 & H3); [lia|].
  split_and!; [etrans; [exact H1|apply remove_at_sublist]|done|lia].
Qed.

(** ** Searching *)

Lemma search_ok h l i : search h l = Ok i -> exists r, l !! i = Some r /\ hash r = h.
Proof.
  revert i. induction l as [|r l IH]; intros i; simpl; [done|].
  destruct (Z.eqb_spec (hash r) h); [intros [= <-]; by exists r|].
  destruct (h <? hash r); [done|]. destruct (search h l) as [j|j]; [|done].
  intros [= <-]. by apply IH.
Qed.

(** Where a missing hash belongs. *)
Lemma search_err h l i :
  search h l = Err i -> strictly_sorted l ->
  Forall (fun r => hash r < h) (take i l) /\ Forall (fun r => h < hash r) (drop i l).
Proof.
  revert i. induction l as [|r l IH]; intros i; simpl; [intros [= <-] _; by split|].
  destruct (Z.eqb_spec (hash r) h); [done|]. intros Hi [Hs Hf]%StronglySorted_inv.
  destruct (Z.ltb_spec h (hash r)).
  - simplify_eq. simpl. split; [constructor|]. constructor; [done|].
    eapply Forall_impl; [exact Hf|]. simpl. intros. lia.
  - destruct (search h l) as [j|j]; [done|]. simplify_eq. simpl.
    destruct (IH j eq_refl Hs) as [H1 H2]. split; [|done]. constructor; [lia|done].
Qed.

(** [weaker] is a strict total order on the triple it compares. *)
Lemma weaker_trans a b c : weaker a b = false -> weaker b c = false -> weaker a c = false.
Proof.
  unfold weaker. intros.
  repeat match goal with
  | H : context [?x =? ?y] |- _ => destruct (Z.eqb_spec x y)
  | |- context [?x =? ?y] => destruct (Z.eqb_spec x y)
  end; simp_bool; try apply Z.ltb_ge; lia.
Qed.

Lemma weaker_asym a b : weaker a b = true -> weaker b a = false.
Proof.
  unfold weaker. intros.
  repeat match goal with
  | H : context [?x =? ?y] |- _ => destruct (Z.eqb_spec x y)
  | |- context [?x =? ?y] => destruct (Z.eqb_spec x y)
  end; simp_bool; try apply Z.ltb_ge; lia.
Qed.

Lemma weaker_irrefl a : weaker a a = false.
Proof. unfold weaker. rewrite !Z.eqb_refl. by apply Z.ltb_ge. Qed.

(** [weakest] finds a record no other is weaker than. *)
Lemma weakest_least pre best br i l :
  length pre = i -> pre !! best = Some br -> (forall y, y ∈ pre -> weaker y br = false) ->
  exists r, (pre ++ l) !! weakest best br i l = Some r /\
    forall y, y ∈ pre ++ l -> weaker y r = false.
Proof.
  revert pre best br i. induction l as [|x l IH]; intros pre best br i Hi Hb Hmin; simpl.
  { rewrite app_nil_r. eauto. }
  rewrite cons_middle, app_assoc. destruct (weaker x br) eqn:E.
  - apply IH.
    + rewrite length_app. simpl. lia.
    + rewrite lookup_app_r by lia. by rewrite Hi, Nat.sub_diag.
    + intros y [Hy| ->%list_elem_of_singleton]%elem_of_app; [|apply weaker_irrefl].
      eapply weaker_trans; [by apply Hmin|by apply weaker_asym].
  - apply IH.
    + rewrite length_app. simpl. lia.
    + by apply lookup_app_l_Some.
    + intros y [Hy| ->%list_elem_of_singleton]%elem_of_app; [by apply Hmin|done].
Qed.

Lemma elem_of_remove_at {A} i (l : list A) x r :
  l !! i = Some r -> x ∈ l -> x = r \/ x ∈ remove_at i l.
Proof.
  intros Hi Hx. rewrite <- (take_drop_middle l i r Hi) in Hx. unfold remove_at.
  apply elem_of_app in Hx as [Hx|[->|Hx]%elem_of_cons]; [right|by left|right];
    apply elem_of_app; auto.
Qed.

(** The cap only ever drops records weaker than all it keeps. *)
Lemma enforce_cap_keeps_strongest fuel limit l x y :
  x ∈ l -> x ∉ enforce_cap fuel limit l -> y ∈ enforce_cap fuel limit l -> weaker y x = false.
Proof.
  revert l. induction fuel as [|fuel IH]; intros l Hx Hnot Hy; [done|].
  destruct l as [|r l]; [done|]. cbn [enforce_cap] in *.
  destruct (limit <? length (r :: l))%nat; [|done].
  destruct (weakest_least [r] 0 r 1 l eq_refl eq_refl) as (m & Hm & Hmin).
  { intros z ->%list_elem_of_singleton. apply weaker_irrefl. }
  simpl app in *. destruct (elem_of_remove_at _ _ x m Hm Hx) as [->|Hx'].
  - apply Hmin. eapply list_elem_of_In, sublist_In; [|apply list_elem_of_In, Hy].
    etrans; [apply enforce_cap_sublist|apply remove_at_sublist].
  - by eapply IH.
Qed.

Section theorems.
Context (test_history_hash test_history_binary_tag : string -> Z).
Context (Htag : forall b, is_u64 (test_history_binary_tag b)).
Context (Hhash : forall t, is_u64 (test_history_hash t)).

Abbreviation encode := (encode_test_history test_history_binary_tag).
Abbreviation read := (read_test_history_records test_history_binary_tag).

Lemma history_maximum_wf records m :
  measurement_wf m -> Forall record_wf records ->
  measurement_wf (foldl (fun m r => raise_measurement m (measurement r)) m records).
Proof.
  intros Hm Hr. revert m Hm. induction Hr as [|r records [_ Hr] _ IH]; intros m Hm; simpl; auto with mbx.
Qed.

(** The header of an encoded history. *)
Definition header_bytes (binary : string) (records : list TestHistoryRecord) : list Z :=
  TEST_HISTORY_MAGIC ++ to_le_bytes (test_history_binary_tag binary) ++
  to_le_bytes (unwrap_or 0 (peak (history_maximum records))) ++
  to_le_bytes (unwrap_or 0 (cores (history_maximum records))).

Lemma encode_split binary records :
  encode binary records = header_bytes binary records ++ concat (map encode_record records).
Proof. unfold encode_test_history, header_bytes. by rewrite <- !app_assoc. Qed.

Lemma length_header_bytes binary records : length (header_bytes binary records) = 32%nat.
Proof. unfold header_bytes, to_le_bytes. by rewrite !length_app, !length_le_bytes. Qed.

Lemma parse_header binary records :
  Forall record_wf records ->
  parse_test_history_header test_history_binary_tag (header_bytes binary records)
    (Z.of_nat (length (encode binary records))) binary =
  Some (mkHeader (Z.of_nat (length records)) (history_maximum records)).
Proof.
  intros Hw. assert (Hm : measurement_wf (history_maximum records))
    by (apply history_maximum_wf; [apply no_measurement_wf|done]).
  destruct Hm as [Hp Hc]. unfold parse_test_history_header.
  rewrite length_header_bytes, encode_split, length_app, length_header_bytes, length_concat_encode.
  unfold TEST_HISTORY_HEADER_LEN, TEST_HISTORY_RECORD_LEN.
  assert ((Z.of_nat (32 + 24 * length records) <? 32) = false) as -> by (apply Z.ltb_ge; lia).
  assert ((Z.of_nat (32 + 24 * length records) - 32) / 24 = Z.of_nat (length records)) as ->.
  { replace (Z.of_nat (32 + 24 * length records) - 32) with (Z.of_nat (length records) * 24) by lia.
    apply Z.div_mul. lia. }
  unfold header_bytes. rewrite slice_app_l by done.
  rewrite !(slice_app_r TEST_HISTORY_MAGIC) by (simpl; lia).
  change (length TEST_HISTORY_MAGIC) with 8%nat. simpl Nat.sub.
  rewrite slice_app_l by apply length_to_le_bytes.
  rewrite !slice_app_r by (rewrite ?length_to_le_bytes; lia).
  rewrite !length_to_le_bytes. simpl Nat.sub.
  rewrite slice_app_l by apply length_to_le_bytes.
  rewrite !slice_app_r by (rewrite ?length_to_le_bytes; lia).
  rewrite !length_to_le_bytes. simpl Nat.sub. rewrite slice_all by apply length_to_le_bytes.
  rewrite (bool_decide_eq_true_2 (TEST_HISTORY_MAGIC = _)) by done.
  rewrite !read_u64_to_le by (done || by apply unwrap_u64). rewrite Z.eqb_refl. simpl.
  rewrite !nonzero_unwrap, Z.eqb_refl by done. simpl. by destruct (history_maximum records).
Qed.

Lemma take_header binary records : take 32 (encode binary records) = header_bytes binary records.
Proof.
  rewrite encode_split. apply take_app_length'. by rewrite length_header_bytes.
Qed.

Lemma drop_header binary records :
  drop 32 (encode binary records) = concat (map encode_record records).
Proof.
  rewrite encode_split. apply drop_app_length'. by rewrite length_header_bytes.
Qed.

Lemma read_encode binary records :
  Forall record_wf records -> strictly_sorted records ->
  read (Some (encode binary records)) binary = records.
Proof.
  intros Hw Hs. unfold read_test_history_records.
  assert ((32 <=? length (encode binary records))%nat = true) as ->.
  { apply Nat.leb_le. rewrite encode_split, length_app, length_header_bytes. lia. }
  rewrite take_header, parse_header by done. cbn [count].
  rewrite drop_header, chunks_encode by (rewrite length_concat_encode; lia).
  rewrite Nat2Z.id, firstn_all2 by (by rewrite length_map).
  by rewrite decode_encode_all, merge_sort_sorted, merge_duplicates_sorted.
Qed.

(** The record at index [i] of the file. *)
Lemma read_record_at binary records i r :
  records !! i = Some r ->
  read_exact_at (encode binary records) 24
    (TEST_HISTORY_HEADER_LEN + Z.of_nat i * TEST_HISTORY_RECORD_LEN) = Some (encode_record r).
Proof.
  intros Hi. unfold read_exact_at, TEST_HISTORY_HEADER_LEN, TEST_HISTORY_RECORD_LEN.
  replace (Z.to_nat (32 + Z.of_nat i * 24)) with (32 + 24 * i)%nat by lia.
  rewrite <- drop_drop, drop_header.
  rewrite <- (take_drop_middle records i r Hi), map_app. cbn [map]. rewrite concat_app. cbn [concat].
  rewrite drop_app_length'.
  2: { rewrite length_concat_encode, length_take. apply lookup_lt_Some in Hi. lia. }
  rewrite take_app_length' by (by rewrite length_encode_record).
  by rewrite length_encode_record.
Qed.

(** What the history says of a hash. *)
Definition lookup_hash (h : Z) (records : list TestHistoryRecord) : option TestMeasurement :=
  measurement <$> List.find (fun r => hash r =? h) records.

Lemma lookup_hash_some h records i r :
  strictly_sorted records -> records !! i = Some r -> hash r = h ->
  lookup_hash h records = Some (measurement r).
Proof.
  intros Hs Hi Hh. unfold lookup_hash.
  destruct (List.find _ records) as [r'|] eqn:E.
  - apply find_some in E as [Hin Heq%Z.eqb_eq]. simpl. f_equal. f_equal.
    apply (strictly_sorted_unique records); [done|by apply list_elem_of_In| |congruence].
    by eapply list_elem_of_lookup_2.
  - exfalso. apply find_none with (x := r) in E.
    + by apply Z.eqb_neq in E.
    + apply list_elem_of_In. by eapply list_elem_of_lookup_2.
Qed.

Lemma lookup_hash_none h records :
  (forall i r, records !! i = Some r -> hash r <> h) -> lookup_hash h records = None.
Proof.
  intros Hn. unfold lookup_hash. destruct (List.find _ records) as [r|] eqn:E; [|done].
  apply find_some in E as [[i Hi]%list_elem_of_In%list_elem_of_lookup Heq%Z.eqb_eq].
  by apply Hn in Hi.
Qed.

Lemma sorted_lookup_lt records i j a b :
  strictly_sorted records -> records !! i = Some a -> records !! j = Some b -> (i < j)%nat ->
  hash a < hash b.
Proof.
  intros Hs. revert i j. induction Hs as [|x l Hs IH Hf]; intros i j Ha Hb Hij; [done|].
  destruct i as [|i], j as [|j]; simpl in *; [lia| |lia|eapply IH; eauto; lia].
  simplify_eq. rewrite Forall_forall in Hf. by eapply Hf, list_elem_of_lookup_2.
Qed.

Lemma lookup_loop_correct binary records h fuel low high :
  Forall record_wf records -> strictly_sorted records ->
  0 <= low <= high -> high <= Z.of_nat (length records) -> high - low < Z.of_nat fuel ->
  (forall i r, records !! i = Some r -> hash r = h -> low <= Z.of_nat i < high) ->
  lookup_loop fuel (encode binary records) h low high = lookup_hash h records.
Proof.
  intros Hw Hs. revert low high. induction fuel as [|fuel IH]; intros low high Hl Hh Hf Hin; [lia|].
  cbn [lookup_loop]. destruct (Z.ltb_spec low high) as [Hlt|Hge].
  2: { symmetry. apply lookup_hash_none. intros i r Hi Heq. specialize (Hin i r Hi Heq). lia. }
  pose proof (Z.div_mod (high - low) 2 ltac:(lia)).
  pose proof (Z.mod_pos_bound (high - low) 2 ltac:(lia)).
  set (m := low + (high - low) / 2) in *.
  destruct (lookup_lt_is_Some_2 records (Z.to_nat m)) as [r Hr]; [lia|].
  replace m with (Z.of_nat (Z.to_nat m)) at 1 by lia. rewrite (read_record_at binary _ _ r Hr).
  rewrite decode_encode_record by (by eapply (Forall_lookup_1 _ _ _ _ Hw)).
  destruct (Z.ltb_spec (hash r) h) as [H1|H1]; [|destruct (Z.ltb_spec h (hash r)) as [H2|H2]].
  - apply IH; [lia..|]. intros i x Hi Hx. specialize (Hin i x Hi Hx).
    destruct (decide (m < Z.of_nat i)) as [?|Hle]; [lia|].
    destruct (decide (Z.to_nat m = i)) as [<-|Hne]; [simplify_eq; lia|].
    pose proof (sorted_lookup_lt records i (Z.to_nat m) x r Hs Hi Hr ltac:(lia)). lia.
  - apply IH; [lia..|]. intros i x Hi Hx. specialize (Hin i x Hi Hx).
    destruct (decide (Z.of_nat i < m)) as [?|Hle]; [lia|].
    destruct (decide (Z.to_nat m = i)) as [<-|Hne]; [simplify_eq; lia|].
    pose proof (sorted_lookup_lt records (Z.to_nat m) i r x Hs Hr Hi ltac:(lia)). lia.
  - symmetry. eapply lookup_hash_some; [done|exact Hr|lia].
Qed.

Lemma lookup_encode binary records test :
  Forall record_wf records -> strictly_sorted records ->
  lookup_test_history test_history_hash test_history_binary_tag
    (Some (encode binary records)) binary test =
  mkLookup (lookup_hash (test_history_hash test) records)
    (mkHeader (Z.of_nat (length records)) (history_maximum records)).
Proof.
  intros Hw Hs. unfold lookup_test_history, read_test_history_header.
  assert ((Z.of_nat (length (encode binary records)) <? TEST_HISTORY_HEADER_LEN) = false) as ->.
  { apply Z.ltb_ge. rewrite encode_split, length_app, length_header_bytes.
    unfold TEST_HISTORY_HEADER_LEN. lia. }
  unfold read_exact_at. simpl Z.to_nat. rewrite drop_0, take_header, length_header_bytes.
  cbn [Nat.eqb]. cbn [mbind option_bind]. rewrite parse_header by done. cbn [count].
  rewrite lookup_loop_correct; [done..|lia|lia|lia|].
  intros i r Hi _. apply lookup_lt_Some in Hi. lia.
Qed.

Lemma read_wf file binary :
  Forall is_byte (unwrap_or [] file) ->
  strictly_sorted (read file binary) /\ Forall record_wf (read file binary).
Proof.
  intros Hb. unfold read_test_history_records.
  assert (Hnil : strictly_sorted [] /\ Forall record_wf []) by (split; constructor).
  destruct file as [bytes|]; [simpl in Hb|done]. case_match; [|done].
  set (l := map decode_test_history_record _).
  assert (Hw : Forall record_wf l)
    by (by apply read_records_wf_aux, Forall_take, chunks_bytes, Forall_drop).
  rewrite <- (merge_sort_Permutation by_hash l) in Hw.
  assert (Hs : StronglySorted by_hash (merge_sort by_hash l)) by (apply StronglySorted_merge_sort; apply _).
  destruct (merge_sort by_hash l) as [|r rest]; [done|]. simpl.
  apply StronglySorted_inv in Hs as [Hs Hf]. apply Forall_cons in Hw as [Hwr Hw].
  destruct (merge_runs_spec r rest) as (H1 & H2 & _); done.
Qed.

(** The records after setting [h] to [m], before the cap. *)
Definition set_record (h : Z) (m : TestMeasurement) (records : list TestHistoryRecord)
    : list TestHistoryRecord :=
  match search h records with
  | Ok i => alter (fun r => mkRecord (hash r) m) i records
  | Err i => take i records ++ mkRecord h m :: drop i records
  end.

Lemma strictly_sorted_app l k :
  strictly_sorted (l ++ k) <->
  strictly_sorted l /\ strictly_sorted k /\
  Forall (fun a => Forall (fun b => hash a < hash b) k) l.
Proof.
  unfold strictly_sorted. induction l as [|x l IH]; simpl.
  { split; [intros Hk; split_and!; [constructor|done|constructor]|by intros (_ & ? & _)]. }
  split.
  - intros [Hs Hf]%StronglySorted_inv. apply IH in Hs as (H1 & H2 & H3).
    apply Forall_app in Hf as [Hf1 Hf2]. split_and!; [by constructor|done|by constructor].
  - intros ([H1 Hf]%StronglySorted_inv & H2 & [H3 H4]%Forall_cons).
    constructor; [by apply IH|]. apply Forall_app. by split.
Qed.

(** A sorted history around a hash: what is below, its record if any, what is
    above. *)
Lemma set_record_split h records :
  strictly_sorted records ->
  exists a mid b, records = a ++ mid ++ b /\
    Forall (fun r => hash r < h) a /\ Forall (fun r => h < hash r) b /\
    Forall (fun r => hash r = h) mid /\ (length mid <= 1)%nat /\
    forall m, set_record h m records = a ++ mkRecord h m :: b.
Proof.
  induction 1 as [|r l Hs IH Hf]; [by exists [], [], []; split_and!; [..|simpl; lia|]|].
  unfold set_record. simpl. destruct (Z.eqb_spec (hash r) h) as [<-|Hne].
  { exists [], [r], l. split_and!; try done. by repeat constructor. }
  destruct (Z.ltb_spec h (hash r)).
  { exists [], [], (r :: l). split_and!; try done; [|simpl; lia]. constructor; [done|].
    eapply Forall_impl; [exact Hf|]. simpl. intros. lia. }
  destruct IH as (a & mid & b & -> & Ha & Hb & Hm & Hlen & Hset).
  exists (r :: a), mid, b. split_and!; try done; [constructor; [lia|done]|].
  intros m. specialize (Hset m). unfold set_record in Hset. simpl. rewrite <- Hset.
  by destruct (search h _).
Qed.

Lemma set_record_spec h m records :
  strictly_sorted records -> Forall record_wf records -> is_u64 h -> measurement_wf m ->
  let l := set_record h m records in
  strictly_sorted l /\ Forall record_wf l /\ (length l <= S (length records))%nat /\ (length records <= length l)%nat /\
  (forall r, r ∈ l <-> (r ∈ records /\ hash r <> h) \/ r = mkRecord h m).
Proof.
  intros Hs Hw Hh Hm l. subst l.
  destruct (set_record_split h records Hs) as (a & mid & b & -> & Ha & Hb & Hmid & Hlen & Hset).
  rewrite Hset. rewrite !strictly_sorted_app in Hs. destruct Hs as (Hsa & (_ & Hsb & _) & _).
  rewrite !Forall_app in Hw. destruct Hw as (Hwa & _ & Hwb).
  split_and!.
  - apply strictly_sorted_app. split_and!; [done|by constructor|].
    eapply Forall_impl; [exact Ha|]. simpl. intros x Hx. constructor; [done|].
    eapply Forall_impl; [exact Hb|]. simpl. intros. lia.
  - apply Forall_app. split; [done|]. constructor; [by split|done].
  - rewrite !length_app. simpl. lia.
  - rewrite !length_app. simpl. lia.
  - rewrite Forall_forall in Ha, Hb, Hmid. intros r. rewrite !elem_of_app, elem_of_cons. split.
    + intros [Hr|[->|Hr]]; [left|by right|left]; (split; [tauto|]).
      * specialize (Ha r Hr). lia.
      * specialize (Hb r Hr). lia.
    + intros [[[Hr|[Hr|Hr]] Hne]| ->]; [by left| |by right; right|by right; left].
      by apply Hmid in Hr.
Qed.
End theorems.

(** The figures of a run that an update may record. *)
Definition positive_run (new_peak new_cores : option Z) : TestMeasurement :=
  mkMeasurement (option_filter (fun v => 0 <? v) new_peak)
    (option_filter (fun v => 0 <? v) new_cores).

(** An update, in terms of the records it reads and writes. *)
Lemma searched_measurement h old : strictly_sorted old ->
  match search h old with
  | Ok i => unwrap_or no_measurement (measurement <$> old !! i)
  | Err _ => no_measurement end = unwrap_or no_measurement (lookup_hash h old).
Proof.
  intros Hs. destruct (search h old) as [i|i] eqn:E.
  - apply search_ok in E as (r & Hi & Hh). rewrite Hi. by rewrite (lookup_hash_some _ _ _ _ Hs Hi Hh).
  - apply search_err in E as [Ha Hb]; [|done]. rewrite lookup_hash_none; [done|].
    intros j r Hj Heq. rewrite <- (take_drop i old) in Hj.
    apply list_elem_of_lookup_2, elem_of_app in Hj. rewrite Forall_forall in Ha, Hb.
    destruct Hj as [Hj|Hj]; [apply Ha in Hj|apply Hb in Hj]; lia.
Qed.

Lemma record_test_history_some hf tag file binary test p c file' :
  record_test_history hf tag file binary test p c = Some file' ->
  let old := read_test_history_records tag file binary in
  let current := unwrap_or no_measurement (lookup_hash (hf test) old) in
  let m := raise_measurement current (positive_run p c) in
  strictly_sorted old ->
  current <> m /\
  file' = encode_test_history tag binary
    (enforce_test_history_cap MAX_TEST_HISTORY_ENTRIES (set_record (hf test) m old)).
Proof.
  intros Hr old current m Hs. unfold record_test_history in Hr. fold old in Hr.
  rewrite searched_measurement in Hr by done. fold current (positive_run p c) m in Hr. case_bool_decide; [done|].
  injection Hr as <-. by split.
Qed.

Lemma positive_run_wf p c : opt_u64 p -> opt_u64 c -> measurement_wf (positive_run p c).
Proof.
  intros Hp Hc. split; intros x; simpl.
  - destruct p as [v|]; simpl; [|done]. destruct (Z.ltb_spec 0 v); [|done]. intros [= <-].
    specialize (Hp v eq_refl). unfold is_u64 in *. lia.
  - destruct c as [v|]; simpl; [|done]. destruct (Z.ltb_spec 0 v); [|done]. intros [= <-].
    specialize (Hc v eq_refl). unfold is_u64 in *. lia.
Qed.

Lemma lookup_hash_wf h records m :
  Forall record_wf records -> lookup_hash h records = Some m -> measurement_wf m.
Proof.
  unfold lookup_hash. destruct (List.find _ records) as [r|] eqn:E; [|done]. intros Hw [= <-].
  apply find_some in E as [Hin _]. rewrite Forall_forall in Hw. by apply Hw, list_elem_of_In.
Qed.

(** What is written is read back: decoding an encoded history gives the
    same records, for every list of well-formed records in hash order. *)
Lemma history_round_trip tag binary records :
  (forall b, is_u64 (tag b)) -> Forall record_wf records -> strictly_sorted records ->
  read_test_history_records tag (Some (encode_test_history tag binary records)) binary = records.
Proof. intros Ht. by apply read_encode. Qed.

(** C35: the binary search on the file finds exactly what a scan of the
    records would, terminates within its fuel, and reports the number of
    records and their maximum. *)
Theorem history_lookup_correct hf tag binary records test :
  (forall b, is_u64 (tag b)) -> Forall record_wf records -> strictly_sorted records ->
  lookup_test_history hf tag (Some (encode_test_history tag binary records)) binary test =
  mkLookup (lookup_hash (hf test) records)
    (mkHeader (Z.of_nat (length records)) (history_maximum records)).
Proof. intros Ht. by apply lookup_encode. Qed.

(** The figures known of a test: the recorded one and a run's, when positive. *)
Definition figure (recorded given : option Z) (x : Z) : Prop := recorded = Some x \/ (given = Some x /\ 0 < x).

Definition highest (known : Z -> Prop) (o : option Z) : Prop :=
  match o with
  | Some x => known x /\ forall y, known y -> y <= x
  | None => forall y, ~ known y
  end.

(** The figures by which a record outlives another: peak, then cores, then hash. *)
Definition outlives (kept lost : TestHistoryRecord) : Prop :=
  let rank (o : option Z) := unwrap_or 0 o in
  let pk := rank (peak (measurement kept)) in let pl := rank (peak (measurement lost)) in
  let ck := rank (cores (measurement kept)) in let cl := rank (cores (measurement lost)) in
  pl < pk \/ (pl = pk /\ (cl < ck \/ (cl = ck /\ hash lost <= hash kept))).

Lemma raise_option_highest recorded given :
  highest (figure recorded given) (raise_option recorded (option_filter (fun v => 0 <? v) given)).
Proof.
  unfold highest, figure.
  destruct recorded as [r|], given as [g|]; cbn [raise_option option_filter option_or]; try destruct (Z.ltb_spec 0 g); cbn.
  1: destruct (Z.max_spec r g) as [[? ->]|[? ->]]. all: split || idtac; try (intros y); intros; naive_solver lia.
Qed.

Lemma weaker_outlives kept lost : weaker kept lost = false -> outlives kept lost.
Proof.
  unfold weaker, outlives. cbv zeta.
  repeat match goal with |- context [?a =? ?b] => destruct (Z.eqb_spec a b) end; intros ?%Z.ltb_ge; lia.
Qed.

Lemma enforce_cap_fills fuel limit l :
  (length l <= fuel)%nat -> (Nat.min limit (length l) <= length (enforce_cap fuel limit l))%nat.
Proof.
  revert l. induction fuel as [|fuel IH]; intros l Hl; simpl; [lia|].
  destruct l as [|r l]; [simpl; lia|]. destruct (Nat.ltb_spec limit (length (r :: l))) as [Hlt|Hge]; [|lia].
  pose proof (weakest_bound 0 r 1 l ltac:(lia)) as Hw.
  pose proof (length_remove_at (weakest 0 r 1 l) (r :: l) ltac:(simpl; lia)) as Hrm.
  specialize (IH (remove_at (weakest 0 r 1 l) (r :: l)) ltac:(lia)). lia.
Qed.

Lemma record_test_history_none hf tag file binary test p c :
  let old := read_test_history_records tag file binary in
  let m := raise_measurement (unwrap_or no_measurement (lookup_hash (hf test) old)) (positive_run p c) in
  strictly_sorted old -> record_test_history hf tag file binary test p c = None ->
  unwrap_or no_measurement (lookup_hash (hf test) old) = m.
Proof.
  intros old m Hs. unfold record_test_history. fold old. rewrite searched_measurement by done.
  fold (positive_run p c) m. by case_bool_decide.
Qed.

(** C36: A test's figures are raised.  Whatever the history file holds, damaged or
    not, the test's new figures are the highest of the recorded ones and the
    positive ones of this run.  When these are recorded already, nothing is
    written.  Otherwise the file written reads as a sorted history without
    duplicates and within its cap that holds those figures and the other records
    as they were; while there is room nothing is lost, and what the cap
    drops, the least first, makes room only for records that outlive it. *)
Theorem history_update_raises hf tag file binary test p c :
  (forall b, is_u64 (tag b)) -> (forall t, is_u64 (hf t)) ->
  Forall is_byte (unwrap_or [] file) -> opt_u64 p -> opt_u64 c ->
  let h := hf test in
  let old := read_test_history_records tag file binary in
  exists m,
    highest (figure (lookup_hash h old ≫= peak) p) (peak m) /\ highest (figure (lookup_hash h old ≫= cores) c) (cores m) /\
    match record_test_history hf tag file binary test p c with
    | None => unwrap_or no_measurement (lookup_hash h old) = m
    | Some file' =>
        let new := read_test_history_records tag (Some file') binary in
        let due (r : TestHistoryRecord) := (r ∈ old /\ hash r <> h) \/ r = mkRecord h m in
        unwrap_or no_measurement (lookup_hash h old) <> m /\
        strictly_sorted new /\ (length new <= MAX_TEST_HISTORY_ENTRIES)%nat /\
        (Nat.min MAX_TEST_HISTORY_ENTRIES (length old) <= length new)%nat /\
        (forall r, r ∈ new -> due r) /\
        ((length old < MAX_TEST_HISTORY_ENTRIES)%nat -> forall r, due r -> r ∈ new) /\
        (forall lost kept, due lost -> lost ∉ new -> kept ∈ new -> outlives kept lost)
    end.
Proof.
  intros Ht Hh Hb Hp Hc h old. exists (raise_measurement (unwrap_or no_measurement (lookup_hash h old)) (positive_run p c)).
  set (m := raise_measurement _ _). split; [|split].
  1,2: destruct (lookup_hash h old) as [[] |]; apply raise_option_highest.
  destruct (read_wf tag file binary Hb) as [Hs Hw]. fold old in Hs, Hw.
  destruct (record_test_history hf tag file binary test p c) as [file'|] eqn:Hr; [|by apply record_test_history_none in Hr].
  intros new due.
  assert (Hm : measurement_wf m).
  { apply raise_measurement_wf; [|by apply positive_run_wf].
    destruct (lookup_hash h old) as [x|] eqn:E; [by eapply lookup_hash_wf|apply no_measurement_wf]. }
  apply record_test_history_some in Hr as [Hch Hr]; [|done]. fold old h m in Hr, Hch. split; [done|].
  destruct (set_record_spec h m old Hs Hw (Hh test) Hm) as (Hs' & Hw' & Hlen & Hmore & Hin).
  destruct (enforce_cap_spec (length (set_record h m old)) MAX_TEST_HISTORY_ENTRIES
    (set_record h m old)) as (Hsub & Hcap & Hsame); [done|].
  pose proof (enforce_cap_fills (length (set_record h m old)) MAX_TEST_HISTORY_ENTRIES (set_record h m old) ltac:(done)) as Hfill.
  fold (enforce_test_history_cap MAX_TEST_HISTORY_ENTRIES (set_record h m old)) in *.
  assert (Hnew : new = enforce_test_history_cap MAX_TEST_HISTORY_ENTRIES (set_record h m old)).
  { unfold new. rewrite Hr. apply read_encode; [done|by eapply Forall_sublist|].
    by eapply StronglySorted_sublist. }
  rewrite Hnew. split_and!; [by eapply StronglySorted_sublist|done|etrans; [by apply Nat.min_le_compat_l|exact Hfill]| | |].
  - intros r Hrin. apply Hin. eapply list_elem_of_In, sublist_In; [exact Hsub|by apply list_elem_of_In].
  - intros Hroom r Hrin. rewrite Hsame by lia. by apply Hin.
  - intros lost kept Hl Hnl Hk. eapply weaker_outlives, enforce_cap_keeps_strongest; [by apply Hin|exact Hnl|exact Hk].
Qed.

(** ** Instances *)

Definition demo_hash (s : string) : Z := Z.of_nat (String.length s) * 1000.
Definition demo_records : list TestHistoryRecord :=
  [mkRecord 1000 (mkMeasurement (Some 5) None); mkRecord 3000 (mkMeasurement (Some 70000) (Some 2))].

(** A constant tag, and records in order. *)
Lemma demo_records_ok : Forall record_wf demo_records /\ strictly_sorted demo_records.
Proof.
  split.
  - repeat apply Forall_cons_2; [| |apply Forall_nil_2]; unfold record_wf, measurement_wf,
      opt_positive, is_u64, u64_max; simpl; split_and!; try lia; intros x H; simplify_eq; lia.
  - repeat constructor.
Qed.

Definition demo_tag (b : string) : Z := 77.
Lemma demo_tag_u64 b : is_u64 (demo_tag b).
Proof. unfold demo_tag, is_u64, u64_max. lia. Qed.

Lemma history_round_trip_witness :
  read_test_history_records demo_tag (Some (encode_test_history demo_tag "bin" demo_records)) "bin"
  = demo_records.
Proof.
  apply (history_round_trip demo_tag "bin" demo_records demo_tag_u64); apply demo_records_ok.
Defined.

Lemma history_lookup_correct_witness :
  found (lookup_test_history demo_hash demo_tag
    (Some (encode_test_history demo_tag "bin" demo_records)) "bin" "abc")
  = Some (mkMeasurement (Some 70000) (Some 2)).
Proof.
  rewrite (history_lookup_correct demo_hash demo_tag "bin" demo_records "abc" demo_tag_u64);
    [reflexivity|apply demo_records_ok..].
Defined.

Definition demo_file : list Z := encode_test_history demo_tag "bin" demo_records.
(** Every test has the hash of the second record. *)
Definition second (_ : string) : Z := 3000.

Lemma history_update_raises_witness :
  exists m file', record_test_history second demo_tag (Some demo_file) "bin" "abc" (Some 90000) None = Some file' /\
    peak m = Some 90000 /\ mkRecord 3000 m ∈ read_test_history_records demo_tag (Some file') "bin".
Proof.
  destruct (history_update_raises second demo_tag (Some demo_file) "bin" "abc" (Some 90000) None demo_tag_u64) as (m & Hp & _ & H).
  - intros t. unfold second, is_u64, u64_max. lia.
  - apply (bool_decide_eq_true_1 (Forall (fun b => 0 <= b < 256) _)). vm_compute. reflexivity.
  - intros x [= <-]. unfold is_u64, u64_max. lia.
  - intros x [=].
  - destruct (record_test_history _ _ _ _ _ _ _) as [file'|] eqn:E; [|vm_compute in E; discriminate E].
    exists m, file'. split; [reflexivity|]. split.
    + change (highest (figure (Some 70000) (Some 90000)) (peak m)) in Hp. destruct (peak m) as [x|]; [destruct Hp as [Hx Hmax]|destruct (Hp 70000); by left].
      f_equal. specialize (Hmax 90000 (or_intror (conj eq_refl eq_refl))). destruct Hx as [[= <-]|[[= <-] _]]; lia.
    + apply (proj1 (proj2 (proj2 (proj2 (proj2 (proj2 H)))))); [|by right].
      apply (bool_decide_eq_true_1 _). vm_compute. reflexivity.
Defined.
