(* ===== verification/Ledger.v ===== *)
(** * The peak-memory ledger

    Models, from [src/crates/mbx/src/scheduler.rs], what a finished compilation
    or test leaves for the next admission: [ledger_peak], [ledger_key],
    [update_legacy_link], [update_legacy_compile], [trim_compile_ledger] and
    [record_cpu].  A [BTreeMap] is a [gmap] whose iteration is by key order.
    The floating-point windows of [scheduler_memory.rs] are not in this model;
    the functions here never touch them.

    The theorems: a recorded peak is never lowered, an out-of-memory kill is
    always recorded heavier than one permit, the ledger stays within its size,
    and evicting a crate evicts its modes and sample counts with it. *)

From stdpp Require Import base list gmap strings sorting pretty.
From Stdlib Require Import ZArith Lia.
From S2P Require Import Prelude SubsetSum Pressure Admission Pool.
Local Open Scope Z_scope.

Definition MAX_LEDGER_ENTRIES : nat := Z.to_nat 1024.
Definition MAX_LINK_SAMPLES : nat := 16.
Definition LEDGER_VERSION : Z := 1.

Record MemoryLedger := mkLedger {
  ledger_version : Z;
  crates : gmap string Z;
  link_peaks : list Z;
  cpus_by_name : gmap string Z;
  profile_link_peaks : gmap string (list Z);
  compile_samples : gmap string Z
}.

(** ** What to remember *)

Definition ledger_peak (measured : Z) (oom_killed links succeeded : bool) (bpp : Z) : option Z :=
  if oom_killed then Some (Z.max (saturating_mul measured 2) (saturating_add bpp 1))
  else if links && succeeded then Some measured
  else then_some (bpp <? measured) measured.

Definition ledger_key (name : string) (links : bool) : string :=
  if links then (name ++ " [link]")%string else name.

(** ** The least entry *)

(** [min_by_key(|(_, value)| value)]: the first least entry. *)
Fixpoint min_entry (best : string * Z) (l : list (string * Z)) : string * Z :=
  match l with
  | [] => best
  | e :: l => if e.2 <? best.2 then min_entry e l else min_entry best l
  end.

Definition smallest_key (m : gmap string Z) : option string :=
  match entries m with [] => None | e :: l => Some (min_entry e l).1 end.

(** [BTreeMap::pop_first]. *)
Definition pop_first {A} (m : gmap string A) : gmap string A :=
  match entries m with [] => m | e :: _ => delete e.1 m end.

Fixpoint pop_surplus {A} (fuel : nat) (m : gmap string A) : gmap string A :=
  match fuel with
  | O => m
  | S fuel => if (MAX_LEDGER_ENTRIES <? size m)%nat then pop_surplus fuel (pop_first m) else m
  end.

(** ** Links *)

(** [push] and [drain] of the surplus at the front. *)
Definition push_window (window : list Z) (peak : Z) : list Z :=
  let window := window ++ [peak] in
  drop (length window - MAX_LINK_SAMPLES) window.

Definition update_legacy_link (l : MemoryLedger) (name : string) (peak : Z) (links : bool)
    (profile : option string) : MemoryLedger * bool :=
  let l :=
    if links then
      match profile with
      | Some p =>
          let m := <[p := push_window (unwrap_or [] (profile_link_peaks l !! p)) peak]>
                     (profile_link_peaks l) in
          mkLedger (ledger_version l) (crates l) (link_peaks l) (cpus_by_name l)
            (pop_surplus (size m) m) (compile_samples l)
      | None =>
          mkLedger (ledger_version l) (crates l) (push_window (link_peaks l) peak)
            (cpus_by_name l) (pop_surplus (size (profile_link_peaks l)) (profile_link_peaks l))
            (compile_samples l)
      end
    else l in
  let known := is_some_and (fun known => peak <=? known) (crates l !! name) in
  if known && negb links then (l, false)
  else if negb known
  then (mkLedger (ledger_version l) (<[name := peak]> (crates l)) (link_peaks l)
          (cpus_by_name l) (profile_link_peaks l) (compile_samples l), true)
  else (l, true).

(** ** Compilations *)

Definition mode_prefix (name : string) : string := (name ++ " [compile ")%string.
Definition starts_with (prefix s : string) : bool := String.prefix prefix s.

(** The largest peak among the retained modes of a crate. *)
Definition retained_peak (m : gmap string Z) (name : string) : Z :=
  foldr Z.max 0
    (map snd (List.filter (fun e => starts_with (mode_prefix name) e.1) (map_to_list m))).

Definition update_legacy_compile (l : MemoryLedger) (name key : string) (measured : Z)
    (peak : option Z) (succeeded oom : bool) : MemoryLedger * bool :=
  if is_none peak && is_none (crates l !! name) then (l, false)
  else
    let mode_peak := unwrap_or measured peak in
    let bare_known := crates l !! name in
    let mode_known := crates l !! key in
    let count := unwrap_or 0 (compile_samples l !! key) in
    if is_some_and (fun bare => is_none_or (fun peak => peak <=? bare) peak) bare_known &&
       is_some_and (fun known => mode_peak <=? known) mode_known &&
       (negb succeeded || oom || (3 <=? count))
    then (l, false)
    else
      let m :=
        match peak with
        | Some peak =>
            let retained := if is_none bare_known then retained_peak (crates l) name else 0 in
            <[name := Z.max (Z.max (unwrap_or 0 bare_known) peak) retained]> (crates l)
        | None => crates l
        end in
      if is_none (m !! name)
      then (mkLedger (ledger_version l) m (link_peaks l) (cpus_by_name l) (profile_link_peaks l)
              (compile_samples l), false)
      else
        let m := <[key := Z.max (unwrap_or 0 (m !! key)) mode_peak]> m in
        let samples :=
          if succeeded && negb oom
          then <[key := Z.min (Z.min 255 (unwrap_or 0 (compile_samples l !! key) + 1)) 3]>
                 (compile_samples l)
          else compile_samples l in
        (mkLedger (ledger_version l) m (link_peaks l) (cpus_by_name l) (profile_link_peaks l)
           samples, true).

(** ** Trimming *)

(** One round of the loop: the smallest entry goes, with its modes. *)
Definition evict (m samples : gmap string Z) (smallest : string) : gmap string Z * gmap string Z :=
  (filter (fun e => starts_with (mode_prefix smallest) e.1 = false) (delete smallest m),
   delete smallest samples).

Fixpoint trim_loop (fuel : nat) (m samples : gmap string Z) : gmap string Z * gmap string Z :=
  match fuel with
  | O => (m, samples)
  | S fuel =>
      if (MAX_LEDGER_ENTRIES <? size m)%nat then
        match smallest_key m with
        | Some k => let '(m, samples) := evict m samples k in trim_loop fuel m samples
        | None => (m, samples)
        end
      else (m, samples)
  end.

Definition trim_compile_ledger (l : MemoryLedger) : MemoryLedger :=
  let '(m, samples) := trim_loop (size (crates l)) (crates l) (compile_samples l) in
  mkLedger (ledger_version l) m (link_peaks l) (cpus_by_name l) (profile_link_peaks l)
    (filter (fun e => is_some (m !! e.1) = true) samples).

(** ** Cores *)

Fixpoint evict_smallest (fuel : nat) (m : gmap string Z) : gmap string Z :=
  match fuel with
  | O => m
  | S fuel =>
      if (MAX_LEDGER_ENTRIES <? size m)%nat then
        match smallest_key m with
        | Some k => evict_smallest fuel (delete k m)
        | None => m
        end
      else m
  end.

(** [record_cpu]: [None] when the file is left as it is. *)
Definition record_cpu (l : MemoryLedger) (name : string) (cores : Z) : option MemoryLedger :=
  if is_some_and (fun known => cores <=? known) (cpus_by_name l !! name) then None
  else
    let m := <[name := cores]> (cpus_by_name l) in
    Some (mkLedger LEDGER_VERSION (crates l) (link_peaks l) (evict_smallest (size m) m)
            (profile_link_peaks l) (compile_samples l)).

(** ** Lemmas on ordered maps *)

Lemma min_entry_spec best l :
  (min_entry best l = best \/ In (min_entry best l) l) /\
  (min_entry best l).2 <= best.2 /\ forall e, In e l -> (min_entry best l).2 <= e.2.
Proof.
  revert best. induction l as [|e l IH]; intros best; simpl.
  { split_and!; [by left|lia|done]. }
  destruct (Z.ltb_spec e.2 best.2).
  - destruct (IH e) as (H1 & H2 & H3). split_and!; [destruct H1; auto|lia|].
    intros e' [<-|He]; auto.
  - destruct (IH best) as (H1 & H2 & H3). split_and!; [destruct H1; auto|lia|].
    intros e' [<-|He]; [lia|auto].
Qed.

(** The smallest key is present, and nothing is smaller. *)
Lemma smallest_key_spec m k :
  smallest_key m = Some k ->
  exists v, m !! k = Some v /\ forall k' v', m !! k' = Some v' -> v <= v'.
Proof.
  unfold smallest_key. destruct (entries m) as [|e l] eqn:E; [done|]. intros [= <-].
  destruct (min_entry_spec e l) as (Hin & Hle & Hall). exists (min_entry e l).2. split.
  - apply In_entries. rewrite <- surjective_pairing, E. destruct Hin as [->|?]; [by left|by right].
  - intros k' v' Hk. apply In_entries in Hk. rewrite E in Hk. destruct Hk as [Heq|Hk]; [subst e; exact Hle|].
    exact (Hall (k', v') Hk).
Qed.

Lemma smallest_key_exists m : (0 < size m)%nat -> exists k, smallest_key m = Some k.
Proof.
  intros Hs. unfold smallest_key. destruct (entries m) as [|e l] eqn:E; [|eauto].
  exfalso. pose proof (length_entries m) as Hl.
  rewrite E in Hl. simpl in Hl. lia.
Qed.

Lemma size_delete_present {A} (m : gmap string A) k v :
  m !! k = Some v -> S (size (delete k m)) = size m.
Proof.
  intros Hk. pose proof (map_size_delete_Some k m (mk_is_Some _ _ Hk)) as H.
  assert (size m <> 0)%nat; [|lia]. intros Hz%map_size_empty_inv. by rewrite Hz, lookup_empty in Hk.
Qed.

(** ** Trimming *)

(** A key of one of [name]'s compile modes. *)
Definition is_mode_of (name key : string) : Prop := starts_with (mode_prefix name) key = true.

Lemma prefix_app_iff p s : String.prefix p s = true <-> exists t, s = (p ++ t)%string.
Proof.
  revert s. induction p as [|a p IH]; intros s; simpl.
  { split; [intros _; by exists s|by destruct s]. }
  destruct s as [|b s]; [split; [done|by intros [t ?]]|].
  change (String.prefix (String a p) (String b s)) with
    (if Ascii.ascii_dec a b then String.prefix p s else false).
  change (fun t => String b s = (String a p ++ t)%string) with
    (fun t => String b s = String a (p ++ t)).
  destruct (Ascii.ascii_dec a b) as [->|Hne].
  - rewrite IH. split; intros [t Ht]; exists t; congruence.
  - split; [done|]. intros [t Ht]. congruence.
Qed.

Lemma string_app_assoc a b c : ((a ++ b) ++ c)%string = (a ++ b ++ c)%string.
Proof. induction a as [|x a IH]; [done|]. exact (f_equal (String x) IH). Qed.

(** A mode of a mode of [name] is a mode of [name]. *)
Lemma is_mode_trans a b c : is_mode_of a b -> is_mode_of b c -> is_mode_of a c.
Proof.
  unfold is_mode_of, starts_with. rewrite !prefix_app_iff. intros [t ->] [u ->].
  unfold mode_prefix. exists (t ++ " [compile " ++ u)%string. by rewrite !string_app_assoc.
Qed.

(** What a run of the loop keeps: a part of the map that is closed under
    "a kept mode's crate was not evicted", dropping only the least first. *)
Definition trimmed (m m' : gmap string Z) : Prop :=
  m' ⊆ m /\ forall name key, is_Some (m !! name) -> m' !! name = None ->
    is_mode_of name key -> m' !! key = None.

Lemma trimmed_refl m : trimmed m m.
Proof. split; [done|]. intros name key [v Hv] Hn. congruence. Qed.

Lemma trimmed_trans m1 m2 m3 : trimmed m1 m2 -> trimmed m2 m3 -> trimmed m1 m3.
Proof.
  intros [Hs1 H1] [Hs2 H2]. split; [by etrans|].
  intros name key Hin Hn Hm. destruct (m2 !! name) as [v|] eqn:E; [by eapply H2; eauto|].
  specialize (H1 name key Hin E Hm). destruct (m3 !! key) as [w|] eqn:E3; [|done].
  rewrite (lookup_weaken _ _ _ _ E3 Hs2) in H1. done.
Qed.

Lemma evict_trimmed m samples k v :
  m !! k = Some v ->
  trimmed m (evict m samples k).1 /\ (size (evict m samples k).1 < size m)%nat.
Proof.
  intros Hk. simpl. set (m' := filter _ (delete k m)).
  assert (Hlk : forall x w, m' !! x = Some w <->
    m !! x = Some w /\ x <> k /\ starts_with (mode_prefix k) x = false).
  { intros x w. unfold m'. rewrite map_lookup_filter_Some, lookup_delete_Some. simpl.
    split; [intros [[? ?] ?]|intros (? & ? & ?)]; done. }
  split; [split|].
  - apply map_subseteq_spec. intros x w Hx. by apply Hlk in Hx as [? _].
  - intros name key [w Hw] Hn Hm. destruct (m' !! key) as [u|] eqn:E; [|done]. exfalso.
    apply Hlk in E as (Hku & Hkk & Hst).
    assert (Hcase : name = k \/ is_mode_of k name).
    { destruct (decide (name = k)); [by left|right]. unfold is_mode_of.
      destruct (starts_with (mode_prefix k) name) eqn:Es; [done|].
      rewrite (proj2 (Hlk name w)) in Hn; done. }
    destruct Hcase as [->|Hkn]; unfold is_mode_of in *; [congruence|].
    pose proof (is_mode_trans k name key Hkn Hm). unfold is_mode_of in *. congruence.
  - pose proof (size_delete_present m k v Hk).
    assert (size m' <= size (delete k m))%nat by (apply map_subseteq_size, map_filter_subseteq). lia.
Qed.

Lemma trim_loop_spec fuel m samples :
  (size m <= fuel)%nat ->
  let r := trim_loop fuel m samples in
  trimmed m r.1 /\ (size r.1 <= MAX_LEDGER_ENTRIES)%nat /\ r.2 ⊆ samples /\
  ((size m <= MAX_LEDGER_ENTRIES)%nat -> r = (m, samples)).
Proof.
  revert m samples. induction fuel as [|fuel IH]; intros m samples Hf; cbn [trim_loop].
  { split_and!; [apply trimmed_refl|simpl; lia|done|done]. }
  destruct (Nat.ltb_spec MAX_LEDGER_ENTRIES (size m)) as [Hlt|Hge].
  2: { split_and!; [apply trimmed_refl|simpl; lia|done|done]. }
  destruct (smallest_key_exists m) as [k Hk]; [lia|]. rewrite Hk.
  destruct (smallest_key_spec m k Hk) as (v & Hv & _).
  destruct (evict_trimmed m samples k v Hv) as [Ht Hsz].
  destruct (evict m samples k) as [m1 s1] eqn:Ee. simpl in Ht, Hsz.
  destruct (IH m1 s1) as (H1 & H2 & H3 & _); [lia|].
  assert (Hs1 : s1 ⊆ samples).
  { unfold evict in Ee. simplify_eq. apply delete_subseteq. }
  split_and!; [by eapply trimmed_trans|done|by etrans|lia].
Qed.

(** ** Properties *)

(** No entry of [m] is lowered in [m']. *)
Definition never_lower (m m' : gmap string Z) : Prop :=
  forall k v, m !! k = Some v -> exists v', m' !! k = Some v' /\ v <= v'.

Lemma never_lower_refl m : never_lower m m.
Proof. intros k v Hk. exists v. split; [done|lia]. Qed.

Lemma never_lower_insert m m' k x :
  never_lower m m' -> (forall v, m' !! k = Some v -> v <= x) -> never_lower m (<[k := x]> m').
Proof.
  intros Hm Hx k0 v Hk. destruct (Hm k0 v Hk) as (v' & Hv' & Hle).
  destruct (decide (k = k0)) as [<-|Hne].
  - exists x. rewrite lookup_insert_eq. split; [done|]. specialize (Hx v' Hv'). lia.
  - exists v'. by rewrite lookup_insert_ne.
Qed.

Lemma push_window_spec w peak :
  (length (push_window w peak) <= MAX_LINK_SAMPLES)%nat /\ last (push_window w peak) = Some peak.
Proof.
  unfold push_window. rewrite length_drop. split; [lia|].
  rewrite drop_app_le; [by rewrite last_snoc|]. rewrite length_app. unfold MAX_LINK_SAMPLES. simpl. lia.
Qed.

(** A link's measurement is remembered and lowers nothing.  The crate's
    entry ends at least as high as the measurement, no entry falls, and a link
    also ends its window, which never outgrows its size. *)
Lemma link_peaks_never_lowered l name peak links profile :
  let '(l', changed) := update_legacy_link l name peak links profile in
  never_lower (crates l) (crates l') /\
  (exists v, crates l' !! name = Some v /\ peak <= v) /\
  compile_samples l' = compile_samples l /\
  (changed = false -> l' = l /\ links = false) /\
  (links = true -> profile = None ->
   last (link_peaks l') = Some peak /\ (length (link_peaks l') <= MAX_LINK_SAMPLES)%nat).
Proof.
  unfold update_legacy_link.
  set (l1 := if links then _ else l).
  assert (Hcr : crates l1 = crates l /\ compile_samples l1 = compile_samples l).
  { subst l1. destruct links, profile; done. }
  assert (Hwin : links = true -> profile = None -> link_peaks l1 = push_window (link_peaks l) peak).
  { by intros -> ->. }
  assert (Hoff : links = false -> l1 = l) by (by intros ->).
  destruct Hcr as [Hcr Hsm]. pose proof (push_window_spec (link_peaks l) peak) as [Hlen Hlast].
  rewrite Hcr. destruct (crates l !! name) as [v|] eqn:E; simpl.
  - destruct (Z.leb_spec peak v); simpl.
    + assert (Hv : never_lower (crates l) (crates l1) /\ exists w, crates l1 !! name = Some w /\ peak <= w).
      { rewrite Hcr. split; [apply never_lower_refl|]. by exists v. }
      destruct Hv as [Hnl Hv]. destruct links; simpl; (split; [done|]; split; [done|]);
        (split; [done|]; split); [done| |intros _; by split; [apply Hoff|]|done].
      intros _ Hp. by rewrite Hwin.
    + split_and!; try done; [|exists peak; rewrite lookup_insert_eq; split; [done|lia]|].
      * apply never_lower_insert; [apply never_lower_refl|]. intros w Hw. simplify_eq. lia.
      * intros Hl Hp. by rewrite Hwin.
  - split_and!; try done; [|exists peak; rewrite lookup_insert_eq; split; [done|lia]|].
    + apply never_lower_insert; [apply never_lower_refl|]. intros w Hw. congruence.
    + intros Hl Hp. by rewrite Hwin.
Qed.

Lemma retained_peak_ge m name key v :
  m !! key = Some v -> is_mode_of name key -> v <= retained_peak m name.
Proof.
  intros Hk Hm. unfold retained_peak.
  assert (Hin : In v (map snd (List.filter (fun e => starts_with (mode_prefix name) e.1) (map_to_list m)))).
  { apply in_map_iff. exists (key, v). split; [done|]. apply filter_In. split; [|done].
    apply list_elem_of_In. by apply elem_of_map_to_list. }
  induction (map snd _) as [|x xs IH]; simpl in *; [done|]. destruct Hin as [->|Hin]; [lia|].
  specialize (IH Hin). lia.
Qed.

(** A compilation's measurement lowers nothing either, and its fallback
    covers its modes: when a crate-wide entry is recreated it is at least as
    high as every retained mode of the crate, and an update that reports a
    change has recorded the measurement for the mode. *)
Lemma compile_peaks_never_lowered l name key measured peak succeeded oom :
  let '(l', changed) := update_legacy_compile l name key measured peak succeeded oom in
  never_lower (crates l) (crates l') /\
  (changed = false -> l' = l) /\
  (changed = true ->
   (exists v, crates l' !! key = Some v /\ unwrap_or measured peak <= v) /\
   (forall p, peak = Some p -> exists v, crates l' !! name = Some v /\ p <= v) /\
   (name <> key -> crates l !! name = None -> forall mode v, is_mode_of name mode ->
      crates l !! mode = Some v ->
      exists bare, crates l' !! name = Some bare /\ v <= bare)).
Proof.
  unfold update_legacy_compile.
  destruct (is_none peak && is_none (crates l !! name)) eqn:E0.
  { split_and!; [apply never_lower_refl|done|done]. }
  destruct (_ && _ && _); [split_and!; [apply never_lower_refl|done|done]|].
  set (retained := if is_none (crates l !! name) then retained_peak (crates l) name else 0).
  set (m := match peak with Some p => _ | None => crates l end).
  assert (Hm : never_lower (crates l) m).
  { subst m. destruct peak; [|apply never_lower_refl].
    apply never_lower_insert; [apply never_lower_refl|]. intros v ->. simpl. lia. }
  assert (Hname : exists v, m !! name = Some v /\ (forall p, peak = Some p -> p <= v) /\
    (crates l !! name = None -> retained_peak (crates l) name <= v)).
  { subst m. destruct peak as [p|].
    - eexists. rewrite lookup_insert_eq. split_and!; [done|intros ? [= <-]; lia|].
      intros Hn. subst retained. rewrite Hn. simpl. lia.
    - simpl in E0. destruct (crates l !! name) as [v|]; [|done]. by exists v. }
  destruct Hname as (bare & Hbare & Hp & Hr). rewrite Hbare. simpl.
  assert (Hm' : never_lower m (<[key := Z.max (unwrap_or 0 (m !! key)) (unwrap_or measured peak)]> m)).
  { apply never_lower_insert; [apply never_lower_refl|]. intros v ->. simpl. lia. }
  split_and!; [|done|].
  - intros k v Hk. destruct (Hm k v Hk) as (v1 & Hv1 & ?). destruct (Hm' k v1 Hv1) as (v2 & Hv2 & ?).
    exists v2. split; [done|lia].
  - intros _. split_and!.
    + eexists. rewrite lookup_insert_eq. split; [done|lia].
    + intros p Hpk. destruct (Hm' name bare Hbare) as (v2 & Hv2 & ?). exists v2. split; [done|].
      specialize (Hp p Hpk). lia.
    + intros Hne Hnone mode v Hmode Hv. exists bare. rewrite lookup_insert_ne by done.
      split; [done|]. pose proof (retained_peak_ge _ _ _ _ Hv Hmode). specialize (Hr Hnone). lia.
Qed.

(** Trimming keeps the ledger small and consistent.  At most
    [MAX_LEDGER_ENTRIES] entries remain, unchanged; nothing is dropped from a
    ledger within that size; when a crate's entry goes, none of its compile
    modes stays; and no sample count survives the peak it belongs to. *)
Lemma trim_keeps_ledger_consistent l :
  let l' := trim_compile_ledger l in
  (size (crates l') <= MAX_LEDGER_ENTRIES)%nat /\
  crates l' ⊆ crates l /\
  ((size (crates l) <= MAX_LEDGER_ENTRIES)%nat -> crates l' = crates l) /\
  (forall name key, is_Some (crates l !! name) -> crates l' !! name = None ->
     is_mode_of name key -> crates l' !! key = None) /\
  (forall key c, compile_samples l' !! key = Some c ->
     compile_samples l !! key = Some c /\ is_Some (crates l' !! key)).
Proof.
  unfold trim_compile_ledger.
  destruct (trim_loop_spec (size (crates l)) (crates l) (compile_samples l)) as ([Hs Hm] & Hsz & Hsam & Hid);
    [done|].
  destruct (trim_loop _ _ _) as [m samples]. simpl in *. split_and!; [done|done| |done|].
  - intros Hle. by injection (Hid Hle).
  - intros key c [Hc Hsome]%map_lookup_filter_Some. split; [by eapply lookup_weaken|].
    simpl in Hsome. destruct (m !! key); [by eexists|done].
Qed.

Lemma evict_smallest_spec fuel m :
  (size m <= fuel)%nat ->
  (size (evict_smallest fuel m) <= MAX_LEDGER_ENTRIES)%nat /\ evict_smallest fuel m ⊆ m.
Proof.
  revert m. induction fuel as [|fuel IH]; intros m Hf; cbn [evict_smallest].
  { split; [lia|done]. }
  destruct (Nat.ltb_spec MAX_LEDGER_ENTRIES (size m)); [|done].
  destruct (smallest_key_exists m) as [k Hk]; [lia|]. rewrite Hk.
  destruct (smallest_key_spec m k Hk) as (v & Hv & _). pose proof (size_delete_present m k v Hv).
  destruct (IH (delete k m)) as [H1 H2]; [lia|]. split; [done|].
  etrans; [exact H2|]. apply delete_subseteq.
Qed.

(** Recorded core counts only rise, within the size of the ledger: when
    nothing is written the known count is at least the new one, and what is
    written holds only the new count and counts that were there. *)
Lemma recorded_cores_only_rise l name cores :
  match record_cpu l name cores with
  | None => exists known, cpus_by_name l !! name = Some known /\ cores <= known
  | Some l' =>
      (forall known, cpus_by_name l !! name = Some known -> known < cores) /\
      (size (cpus_by_name l') <= MAX_LEDGER_ENTRIES)%nat /\
      cpus_by_name l' ⊆ <[name := cores]> (cpus_by_name l) /\
      crates l' = crates l /\ compile_samples l' = compile_samples l
  end.
Proof.
  unfold record_cpu. destruct (cpus_by_name l !! name) as [known|] eqn:E; simpl.
  - destruct (Z.leb_spec cores known); [by exists known|].
    destruct (evict_smallest_spec (size (<[name := cores]> (cpus_by_name l)))
      (<[name := cores]> (cpus_by_name l))) as [H1 H2]; [done|].
    split_and!; try done. intros k [= <-]. lia.
  - destruct (evict_smallest_spec (size (<[name := cores]> (cpus_by_name l)))
      (<[name := cores]> (cpus_by_name l))) as [H1 H2]; [done|].
    split_and!; done.
Qed.

(** An out-of-memory kill teaches.  Its recorded peak is larger than one
    permit, and no smaller than what was measured, so the retry is charged at
    least two permits; without a kill only a successful link may record a peak
    that fits one permit, and a failure never argues that anything is light. *)
Lemma ledger_peak_spec measured oom links succeeded bpp :
  is_u64 measured -> 0 < bpp < u64_max ->
  match ledger_peak measured oom links succeeded bpp with
  | Some p =>
      measured <= p /\
      (oom = true -> 2 <= div_ceil p bpp) /\
      (p <= bpp -> oom = false /\ links = true /\ succeeded = true)
  | None => oom = false /\ measured <= bpp /\ (links = false \/ succeeded = false)
  end.
Proof.
  intros [Hm Hm'] Hb. unfold ledger_peak, saturating_mul, saturating_add, then_some.
  destruct oom.
  - set (p := Z.max _ _). assert (Hp : bpp + 1 <= p /\ measured <= p) by (unfold p; lia).
    split_and!; [lia| |lia]. intros _.
    pose proof (div_ceil_bounds p bpp ltac:(lia) ltac:(lia)). nia.
  - destruct links, succeeded; simpl; destruct (Z.ltb_spec bpp measured); split_and!; try done;
      try lia; auto.
Qed.

Lemma ledger_peak_spec_witness :
  ledger_peak 100 true false false 250 = Some 251 /\ 2 <= div_ceil 251 250.
Proof.
  split; [vm_compute; reflexivity|].
  refine (proj1 (proj2 (ledger_peak_spec 100 true false false 250 _ _)) eq_refl).
  - unfold is_u64, u64_max. lia.
  - unfold u64_max. lia.
Defined.
