(* ===== verification/Protocol.v ===== *)
(** * Wire records of the remote cache protocol

    Models the records and validity rules of
    [src/crates/mbx-cache-protocol/src/lib.rs]: digests and their storage keys,
    adapter metadata, action predictions, compilation promises and task
    manifests.  The hash functions and the JSON syntax check come from other
    crates and are arguments.

    The theorems: a storage key names one digest, a digest accepts exactly the
    bytes it describes, and manifest validation is what its rules say. *)

From stdpp Require Import base list gmap strings sorting pretty.
From Stdlib Require Import ZArith Lia.
From S2P Require Import Prelude.
Local Open Scope Z_scope.

(** ** Digests *)

Inductive DigestAlgorithm := Blake3 | Sha256.

#[export] Instance DigestAlgorithm_eq_dec : EqDecision DigestAlgorithm.
Proof. solve_decision. Defined.

Definition algorithm_str (a : DigestAlgorithm) : string :=
  match a with Blake3 => "blake3" | Sha256 => "sha256" end.

Inductive ProtocolError :=
| UnsupportedAlgorithm | InvalidDigest | InvalidAdapter | InvalidClaim | InvalidPrediction
| InvalidTask.

(** [FromStr for DigestAlgorithm]. *)
Definition parse_algorithm (s : string) : result ProtocolError DigestAlgorithm :=
  if bool_decide (s = "blake3"%string) then Ok Blake3
  else if bool_decide (s = "sha256"%string) then Ok Sha256
  else Err UnsupportedAlgorithm.

Record Digest := mkDigest { algorithm : string; hash : string; size : Z }.

#[export] Instance Digest_eq_dec : EqDecision Digest.
Proof. solve_decision. Defined.
#[export] Instance Digest_countable : Countable Digest.
Proof.
  refine (inj_countable' (fun d => (algorithm d, hash d, size d))
    (fun t => mkDigest t.1.1 t.1.2 t.2) _). by intros [].
Defined.

(** [u8] tests of the sources, on bytes. *)
Definition in_range (lo hi : Z) (c : Ascii.ascii) : bool :=
  let n := Z.of_N (Ascii.N_of_ascii c) in (lo <=? n) && (n <=? hi).
Definition is_ascii_digit (c : Ascii.ascii) : bool := in_range 48 57 c.
Definition is_lower_hex (c : Ascii.ascii) : bool := is_ascii_digit c || in_range 97 102 c.
Definition is_ascii_alphanumeric (c : Ascii.ascii) : bool :=
  is_ascii_digit c || in_range 65 90 c || in_range 97 122 c.
Definition is_adapter_byte (c : Ascii.ascii) : bool :=
  is_ascii_alphanumeric c || in_range 45 45 c || in_range 95 95 c.

Fixpoint all_bytes (p : Ascii.ascii -> bool) (s : string) : bool :=
  match s with EmptyString => true | String c s => p c && all_bytes p s end.

(** [str::len]. *)
Definition len (s : string) : Z := Z.of_nat (String.length s).

(** [valid_task_identity], and the test of a digest's hash. *)
Definition is_hex64 (s : string) : bool := (len s =? 64) && all_bytes is_lower_hex s.

Definition validate_digest (d : Digest) : result ProtocolError unit :=
  _ ← parse_algorithm (algorithm d);
  if negb (is_hex64 (hash d)) then Err InvalidDigest else Ok ().

(** [Digest::key]. *)
Definition digest_key (d : Digest) : string :=
  (algorithm d ++ "/" ++ hash d ++ "/" ++ pretty (size d))%string.

(** ** Records *)

Record Metadata := mkMetadata { md_version : Z; kind : string; stdout : Digest; stderr : Digest }.

(** [RustcMetadata::validate] and [CcMetadata::validate], by adapter name. *)
Definition validate_metadata (adapter : string) (m : Metadata) : bool :=
  (md_version m =? 1) && bool_decide (kind m = adapter) &&
  is_ok (validate_digest (stdout m)) && is_ok (validate_digest (stderr m)).

Record ActionPrediction := mkPrediction {
  invocation : Digest;
  action : Digest;
  adapter : string;
  payload : string
}.

#[export] Instance ActionPrediction_eq_dec : EqDecision ActionPrediction.
Proof. solve_decision. Defined.

Definition valid_adapter_name (s : string) : bool :=
  negb (bool_decide (s = ""%string)) && all_bytes is_adapter_byte s.

Definition MAX_TASK_ACTION_PREDICTIONS : Z := 16 * 1024.
Definition MAX_ACTION_PREDICTION_PAYLOAD : Z := 256 * 1024.
Definition MAX_ACTION_PROMISE_CLAIM_BYTES : Z := 256.

Inductive Violation :=
| BadAction | BadInvocation | EmptyAdapter | BadAdapter | LargePayload | PayloadNotJson.

Record TaskActionManifest := mkManifest {
  manifest_version : Z;
  task : string;
  predictions : list ActionPrediction
}.

Inductive ActionPromiseState :=
| Claimed (claim : string)
| Pending (retry_after_ms : Z)
| Complete (prediction : ActionPrediction).

(** The two hash functions, printed as lowercase hexadecimal. *)
Class Hashes := { blake3_hex : list Z -> string; sha256_hex : list Z -> string }.

Section external.
(** The hash functions, printed as lowercase hexadecimal, and whether a string
    is JSON. *)
Context (blake3_hex sha256_hex : list Z -> string) (is_json : string -> bool).

(** [Digest::blake3]. *)
Definition blake3 (bytes : list Z) : Digest :=
  mkDigest (algorithm_str Blake3) (blake3_hex bytes) (Z.of_nat (length bytes)).

Definition matches_bytes (d : Digest) (bytes : list Z) : result ProtocolError bool :=
  _ ← validate_digest d;
  if negb (size d =? Z.of_nat (length bytes)) then Ok false
  else
    a ← parse_algorithm (algorithm d);
    match a with
    | Blake3 => Ok (bool_decide (hash d = blake3_hex bytes))
    | Sha256 => Ok (bool_decide (hash d = sha256_hex bytes))
    end.

Definition is_blake3 (d : Digest) : bool :=
  bool_decide (algorithm d = algorithm_str Blake3) && is_ok (validate_digest d).

Definition constraint_violation (p : ActionPrediction) : option Violation :=
  if negb (is_blake3 (action p)) then Some BadAction
  else if negb (is_blake3 (invocation p)) then Some BadInvocation
  else if bool_decide (adapter p = ""%string) then Some EmptyAdapter
  else if negb (valid_adapter_name (adapter p)) then Some BadAdapter
  else if MAX_ACTION_PREDICTION_PAYLOAD <? len (payload p) then Some LargePayload
  else if negb (is_json (payload p)) then Some PayloadNotJson
  else None.

Definition validate_prediction (p : ActionPrediction) : result ProtocolError unit :=
  match constraint_violation p with Some _ => Err InvalidPrediction | None => Ok () end.

Definition valid_claim (claim : string) : bool :=
  negb (bool_decide (claim = ""%string)) && (len claim <=? MAX_ACTION_PROMISE_CLAIM_BYTES).

(** [ActionPromiseJoin::validate], [ActionPromiseState::validate] and
    [ActionPromiseCompletion::validate]. *)
Definition validate_join (adapter : string) : result ProtocolError unit :=
  if negb (valid_adapter_name adapter) then Err InvalidAdapter else Ok ().

Definition validate_state (s : ActionPromiseState) : result ProtocolError unit :=
  match s with
  | Claimed claim => if negb (valid_claim claim) then Err InvalidClaim else Ok ()
  | Complete prediction => validate_prediction prediction
  | Pending _ => Ok ()
  end.

Definition validate_completion (claim : string) (p : ActionPrediction) : result ProtocolError unit :=
  if negb (valid_claim claim) then Err InvalidClaim else validate_prediction p.

(** The [all] of [TaskActionManifest::validate], inserting invocations. *)
Fixpoint valid_predictions (seen : gset Digest) (l : list ActionPrediction) : bool :=
  match l with
  | [] => true
  | p :: l =>
      is_ok (validate_prediction p) && negb (bool_decide (invocation p ∈ seen)) &&
      valid_predictions ({[ invocation p ]} ∪ seen) l
  end.

Definition validate_manifest (m : TaskActionManifest) : bool :=
  (manifest_version m =? 1) && is_hex64 (task m) &&
  (Z.of_nat (length (predictions m)) <=? MAX_TASK_ACTION_PREDICTIONS) &&
  valid_predictions ∅ (predictions m).
End external.

(** ** Strings *)

Lemma append_inj a b c d :
  String.length a = String.length c -> (a ++ b)%string = (c ++ d)%string -> a = c /\ b = d.
Proof.
  revert c. induction a as [|x a IH]; intros [|y c] Hl Heq; simpl in Hl; try done.
  injection Heq as -> Heq. injection Hl as Hl. by destruct (IH c Hl Heq) as [-> ->].
Qed.

Lemma validate_digest_ok d :
  is_ok (validate_digest d) = true <->
  (algorithm d = "blake3"%string \/ algorithm d = "sha256"%string) /\ is_hex64 (hash d) = true.
Proof.
  unfold validate_digest, parse_algorithm.
  destruct (bool_decide_reflect (algorithm d = "blake3"%string)) as [E|E]; [|
    destruct (bool_decide_reflect (algorithm d = "sha256"%string)) as [E'|E']]; simpl;
    [destruct (is_hex64 _); simpl; split; [auto|by intros []|done|by intros []]..|].
  split; [done|]. intros [[?|?] _]; done.
Qed.

(** ** Properties *)

(** Storage keys are unique.  Two valid digests with the same key are the
    same digest, so no two objects can meet under one key. *)
Lemma digest_key_injective d e :
  is_ok (validate_digest d) = true -> is_ok (validate_digest e) = true ->
  digest_key d = digest_key e -> d = e.
Proof.
  intros [Ha Hh]%validate_digest_ok [Ha' Hh']%validate_digest_ok Heq.
  unfold digest_key in Heq. unfold is_hex64, len in *. simp_bool.
  apply append_inj in Heq as [Halg Heq].
  2: { destruct Ha as [-> | ->], Ha' as [-> | ->]; done. }
  apply (append_inj "/" _ "/") in Heq as [_ Heq]; [|done].
  apply append_inj in Heq as [Hhash Heq]; [|lia].
  apply (append_inj "/" _ "/") in Heq as [_ Heq]; [|done].
  apply (inj pretty) in Heq. destruct d, e; simpl in *; congruence.
Qed.

(** A digest accepts exactly the bytes it describes: those of the stated
    length whose hash under the stated algorithm is the stated one.  An
    ill-formed digest accepts nothing and is an error. *)
Lemma matches_bytes_exact blake3_hex sha256_hex d bytes :
  match matches_bytes blake3_hex sha256_hex d bytes with
  | Ok b =>
      is_ok (validate_digest d) = true /\
      (b = true <->
       size d = Z.of_nat (length bytes) /\
       (algorithm d = "blake3"%string /\ hash d = blake3_hex bytes \/
        algorithm d = "sha256"%string /\ hash d = sha256_hex bytes))
  | Err _ => is_ok (validate_digest d) = false
  end.
Proof.
  unfold matches_bytes. destruct (validate_digest d) as [[]|] eqn:E; [|done]. cbn [mbind result_bind].
  assert (Hv : is_ok (validate_digest d) = true) by (by rewrite E).
  apply validate_digest_ok in Hv as [Ha _].
  destruct (Z.eqb_spec (size d) (Z.of_nat (length bytes))); simpl.
  2: { split; [done|]. split; [done|]. intros [? _]. done. }
  destruct Ha as [Ha|Ha]; unfold parse_algorithm; rewrite Ha; simpl;
    (split; [done|]); rewrite bool_decide_eq_true; split; [auto| |auto|];
    intros [_ [[? ?]|[? ?]]]; done.
Qed.

(** The bytes of a fresh BLAKE3 digest match it, for any 64-digit hash. *)
Lemma blake3_matches blake3_hex sha256_hex bytes :
  is_hex64 (blake3_hex bytes) = true ->
  matches_bytes blake3_hex sha256_hex (blake3 blake3_hex bytes) bytes = Ok true.
Proof.
  intros Hh. unfold matches_bytes, validate_digest, blake3. simpl. rewrite Hh. simpl.
  rewrite Z.eqb_refl. simpl. by rewrite bool_decide_eq_true_2.
Qed.

Lemma valid_predictions_spec is_json seen l :
  valid_predictions is_json seen l = true <->
  Forall (fun p => constraint_violation is_json p = None) l /\
  NoDup (map invocation l) /\ Forall (fun p => invocation p ∉ seen) l.
Proof.
  revert seen. induction l as [|p l IH]; intros seen; simpl.
  { split; [|done]. intros _. split_and!; constructor. }
  rewrite !andb_true_iff, IH, negb_true_iff, bool_decide_eq_false, NoDup_cons, !Forall_cons.
  unfold validate_prediction. rewrite !Forall_forall.
  split.
  - intros [[Hv Hn] (H1 & H2 & H3)]. split_and!; try done.
    + by destruct (constraint_violation is_json p).
    + intros (q & Hq & Hin)%list_elem_of_In%in_map_iff. apply list_elem_of_In in Hin.
      apply H3 in Hin. set_solver.
    + intros q Hq. apply H3 in Hq. set_solver.
  - intros ([Hv H1] & [Hn Hnd] & [Hs H3]). rewrite Hv. split_and!; try done.
    intros q Hq Hin. apply elem_of_union in Hin as [Heq%elem_of_singleton|Hin].
    + apply Hn. rewrite <- Heq. apply list_elem_of_In, in_map. by apply list_elem_of_In.
    + by eapply H3.
Qed.

(** Manifest validation means its rules: the version and task identity
    are well-formed, there are at most [MAX_TASK_ACTION_PREDICTIONS]
    predictions, each is valid on its own, and no invocation repeats. *)
Lemma validate_manifest_spec is_json m :
  validate_manifest is_json m = true <->
  manifest_version m = 1 /\ is_hex64 (task m) = true /\
  Z.of_nat (length (predictions m)) <= MAX_TASK_ACTION_PREDICTIONS /\
  Forall (fun p => constraint_violation is_json p = None) (predictions m) /\
  NoDup (map invocation (predictions m)).
Proof.
  unfold validate_manifest. rewrite !andb_true_iff, Z.eqb_eq, Z.leb_le, valid_predictions_spec.
  split; [tauto|]. intros (? & ? & ? & ? & ?). split_and!; try done.
  apply Forall_forall. set_solver.
Qed.

(** A digest of 64 zeros. *)
Definition zeros : string := "0000000000000000000000000000000000000000000000000000000000000000".

Lemma digest_key_injective_witness :
  mkDigest "blake3" zeros 5 = mkDigest "blake3" zeros 5.
Proof. apply digest_key_injective; vm_compute; reflexivity. Defined.
