(* ===== verification/Naming.v ===== *)
(** * Methods that name files

    A builder of keys remembers the directories it has resolved while it names
    files ([PathMap]); its methods pass that memo along.  Both builders, of
    rustc and of C actions, are written with it.  [returns] says what a method
    answers whatever consistent memo it starts from. *)

From stdpp Require Import base list gmap strings sorting.
From Stdlib Require Import ZArith Lia Ascii.
From S2P Require Import Prelude Protocol Strings PathMap.
Local Open Scope string_scope.

(** A method: what it answers, and the memo it leaves. *)
Definition Build (E A : Type) : Type := PathAliases -> result E A * PathAliases.

#[export] Instance Build_ret {E} : MRet (Build E) := fun _ a aliases => (Ok a, aliases).
#[export] Instance Build_bind {E} : MBind (Build E) :=
  fun _ _ f m aliases =>
    match m aliases with
    | (Ok a, aliases) => f a aliases
    | (Err e, aliases) => (Err e, aliases)
    end.
Definition lift {E A} (r : result E A) : Build E A := fun aliases => (r, aliases).

Fixpoint each {E A B} (f : A -> Build E B) (l : list A) : Build E (list B) :=
  match l with
  | [] => mret []
  | x :: l => y ← f x; ys ← each f l; mret (y :: ys)
  end.

Definition map_err {E E' A} (f : E -> E') (r : result E A) : result E' A :=
  match r with Ok a => Ok a | Err e => Err (f e) end.

(** A [BTreeSet<String>] collected from a list. *)
Definition string_set (l : list string) : list string := sorted_set (list_to_set l).

(** The loop over the inputs of an action: each has a digest and a name, and one
    name never has two contents. *)
Fixpoint collect_into {E I} (name : I -> Build E string) (digest : I -> Digest) (invalid : I -> E) (conflict : string -> E)
    (l : list I) (collected : gmap string Digest) : Build E (gmap string Digest) :=
  match l with
  | [] => mret collected
  | input :: l =>
      _ ← lift (map_err (fun _ => invalid input) (validate_digest (digest input)));
      path ← name input;
      if is_some_and (fun existing => negb (bool_decide (existing = digest input))) (collected !! path) then
        lift (Err (conflict path))
      else collect_into name digest invalid conflict l (<[path := digest input]> collected)
  end.

(** ** What a method returns *)

Section Returns.
Context `{DiskLaws}.

(** Whatever consistent memo it starts from, a method leaves one, and answers
    exactly the values that satisfy the postcondition. *)
Definition returns {E A} (m : Build E A) (Q : A -> Prop) : Prop :=
  forall aliases, consistent aliases ->
    consistent (snd (m aliases)) /\ forall a, fst (m aliases) = Ok a <-> Q a.

Lemma returns_ret {E A} (a : A) : returns (mret (M := Build E) a) (fun b => b = a).
Proof. intros aliases Hc. split; [done|]. intros b. simpl. split; [by intros [= ->]|by intros ->]. Qed.

Lemma returns_lift {E A} (r : result E A) : returns (lift r) (fun a => r = Ok a).
Proof. intros aliases Hc. by split. Qed.

Lemma returns_bind {E A B} (m : Build E A) (f : A -> Build E B) Q R :
  returns m Q -> (forall a, Q a -> returns (f a) (R a)) ->
  returns (m ≫= f) (fun b => exists a, Q a /\ R a b).
Proof.
  intros Hm Hf aliases Hc. destruct (Hm aliases Hc) as [Hc' Hq]. unfold mbind, Build_bind.
  destruct (m aliases) as [[a|e] aliases']; simpl in *.
  - assert (Ha : Q a) by (by apply Hq). destruct (Hf a Ha aliases' Hc') as [Hc'' Hr]. split; [done|].
    intros b. rewrite Hr. split; [eauto|]. intros (a' & Ha' & Hb). apply Hq in Ha'. by injection Ha' as <-.
  - split; [done|]. intros b. split; [done|]. intros (a & Ha & _). by apply Hq in Ha.
Qed.

Lemma returns_weaken {E A} (m : Build E A) Q Q' : returns m Q -> (forall a, Q a <-> Q' a) -> returns m Q'.
Proof.
  intros Hm Hq aliases Hc. destruct (Hm aliases Hc) as [Hc' Hr]. split; [done|]. intros a. by rewrite Hr.
Qed.

Lemma returns_ext {E A} (m m' : Build E A) Q : (forall aliases, m aliases = m' aliases) -> returns m' Q -> returns m Q.
Proof. intros He Hm aliases Hc. rewrite He. by apply Hm. Qed.

(** A method whose answer is a function of one before it. *)
Lemma returns_map {E A B} (m : Build E A) (f : A -> B) Q :
  returns m Q -> returns (a ← m; mret (f a)) (fun b => exists a, Q a /\ b = f a).
Proof. intros Hm. eapply returns_bind; [done|]. intros a _. apply returns_ret. Qed.

Lemma returns_each {E A B} (f : A -> Build E B) (Q : A -> B -> Prop) l :
  (forall x, In x l -> returns (f x) (Q x)) -> returns (each f l) (Forall2 Q l).
Proof.
  induction l as [|x l IH]; intros Hf; cbn [each].
  - eapply returns_weaken; [apply returns_ret|]. intros ys. split; [by intros ->|by inversion 1].
  - eapply returns_weaken.
    + eapply returns_bind; [apply Hf; by left|]. intros y _. eapply returns_map. apply IH. intros x' Hx. apply Hf. by right.
    + intros ys. split; [intros (y & Hy & ys' & Hys & ->); by constructor|]. inversion 1; subst. eauto.
Qed.

(** What collecting the inputs of a list into a map makes of it. *)
Definition collects {I} (digest : I -> Digest) (Q : I -> string -> Prop) (l : list I) (collected m : gmap string Digest) : Prop :=
  (forall input, In input l ->
     is_ok (validate_digest (digest input)) = true /\ exists name, Q input name /\ m !! name = Some (digest input)) /\
  (forall name d, m !! name = Some d -> collected !! name = Some d \/ exists input, In input l /\ Q input name) /\
  collected ⊆ m.

Section Collecting.
Context {E I} (name : I -> Build E string) (digest : I -> Digest) (invalid : I -> E) (conflict : string -> E).
Context (Q : I -> string -> Prop) (Hfun : forall input s s', Q input s -> Q input s' -> s = s').

Definition clashes (collected : gmap string Digest) (input : I) (path : string) : bool :=
  is_some_and (fun existing => negb (bool_decide (existing = digest input))) (collected !! path).

Lemma collects_cons input l collected m path :
  is_ok (validate_digest (digest input)) = true -> Q input path -> clashes collected input path = false ->
  collects digest Q l (<[path := digest input]> collected) m <-> collects digest Q (input :: l) collected m.
Proof.
  intros Hd Hn He. unfold clashes in He. assert (Hsub : collected ⊆ <[path := digest input]> collected).
  { destruct (collected !! path) as [e|] eqn:E0; [|by apply insert_subseteq].
    simpl in He. apply negb_false_iff, bool_decide_eq_true in He. subst e. by rewrite insert_id. }
  unfold collects. split.
  - intros (H1 & H2 & H3). assert (Hm : m !! path = Some (digest input)).
    { eapply lookup_weaken; [|done]. by rewrite lookup_insert_eq. }
    split; [|split].
    + intros x [<-|Hx]; [|by apply H1]. split; [done|]. eauto.
    + intros n d Hmn. destruct (H2 n d Hmn) as [Hl|(x & Hx & Hnx)]; [|right; exists x; split; [by right|done]].
      apply lookup_insert_Some in Hl as [[<- _]|[_ Hl]]; [|by left]. right. exists input. split; [by left|done].
    + by transitivity (<[path := digest input]> collected).
  - intros (H1 & H2 & H3). destruct (H1 input ltac:(by left)) as (_ & n' & Hn' & Hm).
    pose proof (Hfun _ _ _ Hn Hn') as <-. split; [|split].
    + intros x Hx. apply H1. by right.
    + intros n d Hmn. destruct (decide (n = path)) as [->|Hne].
      * left. rewrite lookup_insert_eq. congruence.
      * rewrite lookup_insert_ne by done. destruct (H2 n d Hmn) as [|(x & [<-|Hx] & Hnx)]; [by left| |right; eauto].
        by pose proof (Hfun _ _ _ Hn Hnx).
    + apply insert_subseteq_l; done.
Qed.

Lemma returns_collect_into l collected :
  (forall input, In input l -> returns (name input) (Q input)) ->
  returns (collect_into name digest invalid conflict l collected) (collects digest Q l collected).
Proof.
  revert collected. induction l as [|input l IH]; intros collected Hl; cbn [collect_into].
  - eapply returns_weaken; [apply returns_ret|]. intros m. split.
    + intros ->. split; [by intros|]. split; [auto|done].
    + intros (_ & H2 & H3). apply map_eq. intros path. destruct (m !! path) as [d|] eqn:Hm.
      * destruct (H2 path d Hm) as [|(x & [] & _)]; done.
      * destruct (collected !! path) eqn:Hc; [|done]. by rewrite (lookup_weaken _ _ _ _ Hc H3) in Hm.
  - eapply returns_weaken.
    + eapply (returns_bind _ _ _ (fun _ m => exists path, Q input path /\
        clashes collected input path = false /\ collects digest Q (input :: l) collected m)); [apply returns_lift|]. intros u Hd.
      eapply (returns_bind _ _ _ (fun path m => clashes collected input path = false /\ collects digest Q (input :: l) collected m));
        [by apply Hl; left|].
      intros path Hn. fold (clashes collected input path).
      assert (Hdig : is_ok (validate_digest (digest input)) = true) by (by destruct (validate_digest _)).
      destruct (clashes collected input path) eqn:Ec.
      * eapply returns_weaken; [apply returns_lift|]. by intros m; split; [|intros [? _]].
      * eapply returns_weaken; [apply IH; intros x Hx; apply Hl; by right|]. intros m. rewrite collects_cons by done. naive_solver.
    + intros m. split; [intros (? & ? & path & ? & ? & ?); done|].
      intros Hc. pose proof (proj1 Hc input (or_introl eq_refl)) as (Hd & path & Hn & Hm). pose proof Hc as (_ & _ & Hs).
      exists (). destruct (validate_digest _) as [[]|]; [|done]. split; [done|]. exists path. split; [done|]. split; [|done].
      unfold clashes. destruct (collected !! path) as [e|] eqn:Ee; [|done]. simpl. rewrite (lookup_weaken _ _ _ _ Ee Hs) in Hm.
      injection Hm as ->. by rewrite bool_decide_true.
Qed.
End Collecting.

End Returns.

Lemma Forall2_total {A B} (R : A -> B -> Prop) l : (forall x, In x l -> exists y, R x y) -> exists k, Forall2 R l k.
Proof.
  induction l as [|x l IH]; intros Hl; [by exists []|].
  destruct (Hl x ltac:(by left)) as [y Hy]. destruct IH as [k Hk]; [intros z Hz; apply Hl; by right|].
  exists (y :: k). by constructor.
Qed.

Lemma Forall2_answer {A B} (R : A -> B -> Prop) l k x : Forall2 R l k -> In x l -> exists y, R x y /\ In y k.
Proof.
  induction 1 as [|x' y l k Hr _ IH]; [done|]. intros [<-|Hx]; [exists y; simpl; auto|].
  destruct (IH Hx) as (y' & ? & ?). exists y'. simpl. auto.
Qed.

Lemma In_string_set s l : In s (string_set l) <-> In s l.
Proof.
  unfold string_set, sorted_set. rewrite <- list_elem_of_In, merge_sort_Permutation, elem_of_elements, elem_of_list_to_set.
  by rewrite list_elem_of_In.
Qed.

