(* ===== verification/Manifest.v ===== *)
(** * Task prediction manifests

    Models [src/crates/mbx-cache-core/src/agent/manifest.rs]: the bounded,
    least-recently-used list of predictions a task keeps
    ([update_task_predictions_in_order]) and the merge of two snapshots of it
    ([merge_task_manifests]).  The length of a prediction's canonical JSON comes
    from another crate and is an argument, as is the JSON check of [Protocol].

    The theorems: the result is within both bounds, retires oldest-first and
    never a protected entry, keeps the newest value per invocation, and fails
    only when the protected entries alone do not fit; a merge of valid
    manifests is valid and keeps every required update. *)

From stdpp Require Import base list gmap strings sorting pretty.
From Stdlib Require Import ZArith Lia.
From S2P Require Import Prelude Protocol.
Local Open Scope Z_scope.

Definition MAX_TASK_MANIFEST_BYTES : Z := 15 * 1024 * 1024.
Definition TASK_MANIFEST_OVERHEAD_BYTES : Z := 256.
Definition TASK_ACTION_MANIFEST_VERSION : Z := 1.

Inductive ManifestError := TooManyPredictions | NotSerializable | InvalidManifest.

(** The reversed [filter] with [insert]: the first occurrence of each
    invocation, and all invocations met. *)
Fixpoint dedup_first (seen : gset Digest) (l : list ActionPrediction)
    : list ActionPrediction * gset Digest :=
  match l with
  | [] => ([], seen)
  | p :: l =>
      if bool_decide (invocation p ∈ seen) then dedup_first seen l
      else let '(l, seen) := dedup_first ({[ invocation p ]} ∪ seen) l in (p :: l, seen)
  end.

(** [for prediction in predictions], retiring the oldest unprotected. *)
Fixpoint retire_count (protected : gset Digest) (excess : Z) (l : list ActionPrediction)
    : list ActionPrediction :=
  match l with
  | [] => []
  | p :: l =>
      if (0 <? excess) && negb (bool_decide (invocation p ∈ protected))
      then retire_count protected (excess - 1) l
      else p :: retire_count protected excess l
  end.

(** The second loop, over entries with their sizes; returns the retained
    entries and the total that is left. *)
Fixpoint retire_bytes (protected : gset Digest) (total : Z) (l : list (ActionPrediction * Z))
    : list ActionPrediction * Z :=
  match l with
  | [] => ([], total)
  | (p, sz) :: l =>
      if (MAX_TASK_MANIFEST_BYTES <? total) && negb (bool_decide (invocation p ∈ protected))
      then retire_bytes protected (total - sz) l
      else let '(l, total) := retire_bytes protected total l in (p :: l, total)
  end.

Section manifest.
Context (canonical_len : ActionPrediction -> option Z) (is_json : string -> bool).

(** [canonical_json(prediction)?.len() + 1], for each. *)
Fixpoint sizes_of (l : list ActionPrediction) : result ManifestError (list Z) :=
  match l with
  | [] => Ok []
  | p :: l =>
      n ← ok_or NotSerializable (canonical_len p);
      ns ← sizes_of l;
      Ok (n + 1 :: ns)
  end.

Definition bound_bytes (protected : gset Digest) (kept : list ActionPrediction)
    : result ManifestError (list ActionPrediction) :=
  sizes ← sizes_of kept;
  let total := TASK_MANIFEST_OVERHEAD_BYTES + sumZ sizes in
  if MAX_TASK_MANIFEST_BYTES <? total then
    let '(retained, total) := retire_bytes protected total (zip kept sizes) in
    if MAX_TASK_MANIFEST_BYTES <? total then Err TooManyPredictions else Ok retained
  else Ok kept.

(** Old values that no update replaces, then the updates. *)
Definition combined (old updates : list ActionPrediction) : list ActionPrediction :=
  let '(updates, seen) := dedup_first ∅ (rev updates) in
  List.filter (fun p => negb (bool_decide (invocation p ∈ seen))) old ++ rev updates.

Definition update_task_predictions_in_order (old updates : list ActionPrediction)
    (protected : gset Digest) : result ManifestError (list ActionPrediction) :=
  if MAX_TASK_ACTION_PREDICTIONS <? Z.of_nat (base.size protected) then Err TooManyPredictions
  else
    let l := combined old updates in
    let excess := saturating_sub (Z.of_nat (length l)) MAX_TASK_ACTION_PREDICTIONS in
    bound_bytes protected (retire_count protected excess l).

Definition validate_task_manifest (m : TaskActionManifest) (t : string)
    : result ManifestError unit :=
  if bool_decide (task m = t) && validate_manifest is_json m then Ok () else Err InvalidManifest.

(** The base's value of an invocation. *)
Definition base_value (base : list ActionPrediction) (d : Digest) : option ActionPrediction :=
  List.find (fun p => bool_decide (invocation p = d)) base.

(** Update values that win over the base. *)
Definition winning_updates (base update : list ActionPrediction) (required fallbacks : gset Digest)
    : list ActionPrediction :=
  List.filter (fun p =>
    bool_decide (invocation p ∈ required) ||
    (bool_decide (invocation p ∈ fallbacks) &&
     is_none_or (fun b => bool_decide (b = p)) (base_value base (invocation p)))) update.

Definition merge_task_manifests (t : string) (base update : TaskActionManifest)
    (required fallbacks : gset Digest) : result ManifestError TaskActionManifest :=
  _ ← validate_task_manifest base t;
  _ ← validate_task_manifest update t;
  let updates := winning_updates (predictions base) (predictions update) required fallbacks in
  let protected := required ∪ list_to_set (map invocation updates) in
  let old :=
    List.filter (fun p => is_none (base_value (predictions base) (invocation p)))
      (predictions update) ++ predictions base in
  l ← update_task_predictions_in_order old updates protected;
  let m := mkManifest TASK_ACTION_MANIFEST_VERSION t l in
  _ ← validate_task_manifest m t;
  Ok m.
End manifest.

(** ** Retirement *)

Definition is_protected (protected : gset Digest) (p : ActionPrediction) : bool :=
  bool_decide (invocation p ∈ protected).

(** [k] is [l] after retiring the unprotected part of some oldest prefix. *)
Definition retires_oldest (protected : gset Digest) (l k : list ActionPrediction) : Prop :=
  exists old recent, l = old ++ recent /\
    k = List.filter (is_protected protected) old ++ recent.

Lemma retires_refl protected l : retires_oldest protected l l.
Proof. by exists [], l. Qed.

Lemma retires_drop protected p l k :
  is_protected protected p = false -> retires_oldest protected l k ->
  retires_oldest protected (p :: l) k.
Proof.
  intros Hp (old & recent & -> & ->). exists (p :: old), recent. split; [done|]. simpl. by rewrite Hp.
Qed.

Lemma retires_keep protected p l k :
  is_protected protected p = true -> retires_oldest protected l k ->
  retires_oldest protected (p :: l) (p :: k).
Proof.
  intros Hp (old & recent & -> & ->). exists (p :: old), recent. split; [done|]. simpl. by rewrite Hp.
Qed.

Lemma filter_protected_idem protected l :
  List.filter (is_protected protected) (List.filter (is_protected protected) l) =
  List.filter (is_protected protected) l.
Proof. induction l as [|p l IH]; simpl; [done|]. destruct (is_protected _ p) eqn:E; simpl; rewrite ?E, ?IH; done. Qed.

Lemma retires_trans protected l k j :
  retires_oldest protected l k -> retires_oldest protected k j -> retires_oldest protected l j.
Proof.
  intros (o1 & r1 & -> & ->) (o2 & r2 & Heq & ->).
  apply app_eq_app in Heq as (x & [[H1 H2]|[H1 H2]]).
  - (* the second cut is inside the first *)
    exists o1, r1. split; [done|]. rewrite H2, app_assoc. f_equal.
    assert (List.filter (is_protected protected) o2 = o2) as ->; [|by rewrite H1].
    assert (Hf := filter_protected_idem protected o1). rewrite H1, List.filter_app in Hf.
    apply app_inj_1 in Hf as [? _]; [done|].
    pose proof (List.filter_length_le (is_protected protected) o2).
    pose proof (List.filter_length_le (is_protected protected) x).
    apply (f_equal length) in Hf. rewrite !length_app in Hf. lia.
  - exists (o1 ++ x), r2. split; [by rewrite H2, app_assoc|].
    by rewrite H1, !List.filter_app, filter_protected_idem.
Qed.

Lemma retires_sublist protected l k : retires_oldest protected l k -> sublist k l.
Proof.
  intros (old & recent & -> & ->). apply sublist_app; [|done].
  induction old as [|p old IH]; simpl; [done|]. destruct (is_protected _ p); by constructor.
Qed.

Lemma retires_protected protected l k p :
  retires_oldest protected l k -> In p l -> is_protected protected p = true -> In p k.
Proof.
  intros (old & recent & -> & ->) [Hin|Hin]%in_app_iff Hp; apply in_app_iff; [left|by right].
  by apply filter_In.
Qed.

Lemma retire_count_nonpos protected e l : e <= 0 -> retire_count protected e l = l.
Proof.
  intros He. induction l as [|p l IH]; simpl; [done|].
  destruct (Z.ltb_spec 0 e); [lia|]. simpl. by rewrite IH.
Qed.

Lemma retire_count_spec protected e l :
  retires_oldest protected l (retire_count protected e l) /\
  (Z.of_nat (length (retire_count protected e l)) <= Z.of_nat (length l) - e \/
   Forall (fun p => is_protected protected p = true) (retire_count protected e l)).
Proof.
  revert e. induction l as [|p l IH]; intros e; simpl.
  { split; [apply retires_refl|]. right. constructor. }
  fold (is_protected protected p). destruct (Z.ltb_spec 0 e) as [He|He]; simpl.
  2: { rewrite retire_count_nonpos by lia. split; [apply retires_refl|]. left. simpl. lia. }
  destruct (is_protected protected p) eqn:Ep; simpl.
  - destruct (IH e) as [H1 H2]. split; [by apply retires_keep|].
    destruct H2 as [H2|H2]; [left; lia|right; by constructor].
  - destruct (IH (e - 1)) as [H1 H2]. split; [by apply retires_drop|].
    destruct H2 as [H2|H2]; [left; lia|by right].
Qed.

(** The bytes of a list under a size function. *)
Definition bytes_of (f : ActionPrediction -> Z) (l : list ActionPrediction) : Z := sumZ (map f l).

Lemma retire_bytes_spec protected f rest total l :
  Forall (fun p => 0 <= f p) l ->
  total = rest + bytes_of f l ->
  let '(k, total') := retire_bytes protected total (zip l (map f l)) in
  retires_oldest protected l k /\ total' = rest + bytes_of f k /\
  (total' <= MAX_TASK_MANIFEST_BYTES \/ Forall (fun p => is_protected protected p = true) k).
Proof.
  intros Hf. revert rest total. induction Hf as [|p l Hp Hf IH]; intros rest total Ht; simpl.
  { split_and!; [apply retires_refl|done|right; constructor]. }
  fold (is_protected protected p). unfold bytes_of in *. simpl in Ht.
  destruct (Z.ltb_spec MAX_TASK_MANIFEST_BYTES total) as [Hlt|Hge]; simpl.
  - destruct (is_protected protected p) eqn:Ep; simpl.
    + specialize (IH (rest + f p) total ltac:(lia)).
      destruct (retire_bytes _ _ _) as [k t]. destruct IH as (H1 & H2 & H3).
      split_and!; [by apply retires_keep|simpl; lia|]. destruct H3; [by left|right; by constructor].
    + specialize (IH rest (total - f p) ltac:(lia)).
      destruct (retire_bytes _ _ _) as [k t]. destruct IH as (H1 & H2 & H3).
      split_and!; [by apply retires_drop|done|done].
  - assert (Hsame : forall j, Forall (fun p => 0 <= f p) j ->
      retire_bytes protected total (zip j (map f j)) = (j, total)).
    { intros j. clear -Hge. induction 1 as [|q j Hq Hj IHj]; simpl; [done|].
      destruct (Z.ltb_spec MAX_TASK_MANIFEST_BYTES total); [lia|]. simpl. by rewrite IHj. }
    rewrite Hsame by done. split_and!; [apply retires_refl|simpl; lia|by left].
Qed.

(** ** Deduplication *)

Lemma dedup_first_spec seen l :
  let '(k, seen') := dedup_first seen l in
  seen' = list_to_set (map invocation l) ∪ seen /\
  NoDup (map invocation k) /\
  (forall p, In p k <-> exists pre post, l = pre ++ p :: post /\
    invocation p ∉ seen /\ ~ In (invocation p) (map invocation pre)).
Proof.
  revert seen. induction l as [|x l IH]; intros seen; simpl.
  { split_and!; [set_solver|constructor|]. intros p. split; [done|].
    intros (pre & post & H & _). by destruct pre. }
  case_bool_decide as Hx.
  - specialize (IH seen). destruct (dedup_first seen l) as [k s]. destruct IH as (H1 & H2 & H3).
    split_and!; [set_solver|done|]. intros p. rewrite H3. split.
    + intros (pre & post & -> & Hp & Hn). exists (x :: pre), post. split_and!; [done|done|].
      intros [Heq|?]; [congruence|done].
    + intros ([|y pre] & post & Heq & Hp & Hn); simplify_eq/=; [done|].
      exists pre, post. split_and!; [done|done|]. intros ?. apply Hn. by right.
  - specialize (IH ({[invocation x]} ∪ seen)).
    destruct (dedup_first ({[invocation x]} ∪ seen) l) as [k s]. destruct IH as (H1 & H2 & H3).
    split_and!; [set_solver| |].
    + simpl. apply NoDup_cons. split; [|done].
      intros (q & Hq & Hin)%list_elem_of_In%in_map_iff.
      apply H3 in Hin as (pre & post & -> & Hp & _). set_solver.
    + intros p. simpl. rewrite H3. split.
      * intros [->|(pre & post & -> & Hp & Hn)].
        -- exists [], l. split_and!; [done|done|]. intros [].
        -- exists (x :: pre), post. split_and!; [done|set_solver|].
           intros [Heq|?]; [|done]. apply Hp. apply elem_of_union_l, elem_of_singleton. done.
      * intros ([|y pre] & post & Heq & Hp & Hn); simplify_eq/=; [by left|right].
        exists pre, post. split_and!; [done| |intros ?; apply Hn; by right].
        intros [Hq%elem_of_singleton|?]%elem_of_union; [|done]. apply Hn. by left.
Qed.

(** The values of a history after ordered updates: the last update of an
    invocation, else its old value. *)
Definition newest (old updates : list ActionPrediction) (p : ActionPrediction) : Prop :=
  (exists before later, updates = before ++ p :: later /\
     ~ In (invocation p) (map invocation later)) \/
  (In p old /\ ~ In (invocation p) (map invocation updates)).

Lemma combined_spec old updates :
  NoDup (map invocation old) ->
  NoDup (map invocation (combined old updates)) /\
  forall p, In p (combined old updates) <-> newest old updates p.
Proof.
  intros Hold. unfold combined. pose proof (dedup_first_spec ∅ (rev updates)) as Hd.
  destruct (dedup_first ∅ (rev updates)) as [k seen]. destruct Hd as (Hseen & Hnd & Hk).
  assert (Hs : forall d, d ∈ seen <-> In d (map invocation updates)).
  { intros d. rewrite Hseen, elem_of_union, elem_of_list_to_set, map_rev, list_elem_of_In, <- in_rev.
    set_solver. }
  assert (Hup : forall p, In p (rev k) <-> exists before later, updates = before ++ p :: later /\
     ~ In (invocation p) (map invocation later)).
  { intros p. rewrite <- in_rev, Hk. split.
    - intros (pre & post & Heq & _ & Hn). exists (rev post), (rev pre).
      apply (f_equal (@rev ActionPrediction)) in Heq. rewrite rev_involutive, rev_app_distr in Heq. simpl in Heq.
      rewrite <- app_assoc in Heq. split; [done|]. by rewrite map_rev, <- in_rev.
    - intros (before & later & -> & Hn). exists (rev later), (rev before).
      rewrite rev_app_distr. simpl. rewrite <- app_assoc. split_and!; [done|set_solver|].
      by rewrite map_rev, <- in_rev. }
  split.
  - rewrite map_app. apply NoDup_app. split_and!.
    + eapply sublist_NoDup; [exact Hold|]. apply fmap_sublist.
      induction old as [|p old IH]; simpl; [done|]. apply NoDup_cons in Hold as [_ Hold].
      case_match; [constructor|constructor]; auto.
    + intros d (p & <- & Hp)%list_elem_of_In%in_map_iff Hd.
      apply filter_In in Hp as [_ Hp]. rewrite negb_true_iff, bool_decide_eq_false in Hp.
      apply Hp, Hs. apply list_elem_of_In, in_map_iff in Hd as (q & <- & Hq).
      apply Hup in Hq as (b & l & -> & _). rewrite map_app. apply in_app_iff. right. by left.
    + rewrite map_rev. by rewrite <- Permutation_rev.
  - intros p. unfold newest. rewrite in_app_iff, Hup, filter_In, negb_true_iff, bool_decide_eq_false, Hs.
    tauto.
Qed.

(** The reference: of each invocation the last value, in the order of those. *)
Fixpoint keep_last (l : list ActionPrediction) : list ActionPrediction :=
  match l with
  | [] => []
  | p :: later => if bool_decide (invocation p ∈ map invocation later) then keep_last later else p :: keep_last later
  end.

Lemma dedup_first_snoc seen l p :
  dedup_first seen (l ++ [p]) =
  let '(k, s) := dedup_first seen l in
  if bool_decide (invocation p ∈ s) then (k, s) else (k ++ [p], {[ invocation p ]} ∪ s).
Proof.
  revert seen. induction l as [|x l IH]; intros seen; simpl; [by case_bool_decide|].
  case_bool_decide; [done|]. rewrite IH. destruct (dedup_first _ l) as [k s]. by case_bool_decide.
Qed.

Lemma dedup_keeps_last updates : rev (dedup_first ∅ (rev updates)).1 = keep_last updates.
Proof.
  induction updates as [|p later IH]; [done|]. simpl. rewrite dedup_first_snoc.
  pose proof (dedup_first_spec ∅ (rev later)) as Hd. destruct (dedup_first ∅ (rev later)) as [k s]. destruct Hd as [Hs _].
  assert (Hin : invocation p ∈ s <-> invocation p ∈ map invocation later).
  { rewrite Hs, elem_of_union, elem_of_list_to_set, map_rev, !list_elem_of_In, <- in_rev. set_solver. }
  rewrite <- (bool_decide_ext _ _ Hin). case_bool_decide; [done|]. simpl. by rewrite rev_app_distr, <- IH.
Qed.

Lemma keep_last_app old updates : NoDup (map invocation old) ->
  keep_last (old ++ updates) =
  List.filter (fun p => negb (bool_decide (invocation p ∈ map invocation updates))) old ++ keep_last updates.
Proof.
  induction old as [|p old IH]; [done|]. intros [Hp Hold]%NoDup_cons. simpl. rewrite IH by done.
  assert (Hin : invocation p ∈ map invocation (old ++ updates) <-> invocation p ∈ map invocation updates).
  { rewrite map_app, elem_of_app. tauto. }
  rewrite (bool_decide_ext _ _ Hin). by case_bool_decide.
Qed.

Lemma combined_keeps_last old updates : NoDup (map invocation old) -> combined old updates = keep_last (old ++ updates).
Proof.
  intros Hold. rewrite keep_last_app by done. unfold combined. rewrite <- dedup_keeps_last.
  pose proof (dedup_first_spec ∅ (rev updates)) as Hd. destruct (dedup_first ∅ (rev updates)) as [k s]. destruct Hd as [Hs _].
  f_equal. apply filter_ext. intros p. f_equal. apply bool_decide_ext.
  rewrite Hs, elem_of_union, elem_of_list_to_set, map_rev, !list_elem_of_In, <- in_rev. set_solver.
Qed.

(** ** Properties *)

Section properties.
Context (canonical_len : ActionPrediction -> option Z) (is_json : string -> bool).
Context (Hlen : forall p n, canonical_len p = Some n -> 0 <= n).

(** The bytes an entry adds to the manifest. *)
Definition entry_bytes (p : ActionPrediction) : Z := unwrap_or 0 (canonical_len p) + 1.

Lemma entry_bytes_nonneg p : 0 <= entry_bytes p.
Proof.
  unfold entry_bytes. destruct (canonical_len p) as [n|] eqn:E; simpl; [|lia].
  pose proof (Hlen p n E). lia.
Qed.

Lemma sizes_of_spec l :
  match sizes_of canonical_len l with
  | Ok ns => ns = map entry_bytes l
  | Err e => e = NotSerializable /\ Exists (fun p => canonical_len p = None) l
  end.
Proof.
  induction l as [|p l IH]; simpl; [done|]. unfold entry_bytes at 1.
  destruct (canonical_len p) as [n|] eqn:E; simpl; [|split; [done|by constructor]].
  destruct (sizes_of canonical_len l) as [ns|e]; simpl.
  - by rewrite IH.
  - destruct IH as [-> ?]. split; [done|by constructor].
Qed.

Lemma bound_bytes_spec protected kept :
  match bound_bytes canonical_len protected kept with
  | Ok l =>
      retires_oldest protected kept l /\
      TASK_MANIFEST_OVERHEAD_BYTES + bytes_of entry_bytes l <= MAX_TASK_MANIFEST_BYTES
  | Err NotSerializable => Exists (fun p => canonical_len p = None) kept
  | Err _ =>
      MAX_TASK_MANIFEST_BYTES <
        TASK_MANIFEST_OVERHEAD_BYTES + bytes_of entry_bytes (List.filter (is_protected protected) kept)
  end.
Proof.
  unfold bound_bytes. pose proof (sizes_of_spec kept) as Hs.
  destruct (sizes_of canonical_len kept) as [ns|e]; [|by destruct Hs as [-> ?]]. subst ns. simpl.
  destruct (Z.ltb_spec MAX_TASK_MANIFEST_BYTES
    (TASK_MANIFEST_OVERHEAD_BYTES + sumZ (map entry_bytes kept))) as [Hlt|Hge].
  2: { split; [apply retires_refl|done]. }
  pose proof (retire_bytes_spec protected entry_bytes TASK_MANIFEST_OVERHEAD_BYTES _ kept
    (Forall_true _ _ entry_bytes_nonneg) eq_refl) as Hr. unfold bytes_of in Hr.
  destruct (retire_bytes _ _ _) as [l t]. destruct Hr as (H1 & -> & H2).
  destruct (Z.ltb_spec MAX_TASK_MANIFEST_BYTES
    (TASK_MANIFEST_OVERHEAD_BYTES + sumZ (map entry_bytes l))); [|done].
  destruct H2 as [?|H2]; [lia|].
  replace (List.filter (is_protected protected) kept) with l; [done|].
  destruct H1 as (old & recent & -> & ->). rewrite List.filter_app. f_equal.
  apply Forall_app in H2 as [_ H2]. symmetry. clear -H2.
  induction H2 as [|p r Hp Hr IH]; simpl; [done|]. by rewrite Hp, IH.
Qed.

(** At most [protected] distinct entries are protected. *)
Lemma length_protected protected l :
  NoDup (map invocation l) -> Forall (fun p => is_protected protected p = true) l ->
  (length l <= base.size protected)%nat.
Proof.
  intros Hnd Hp. rewrite <- (length_map invocation l).
  rewrite <- (size_list_to_set (C := gset Digest) (map invocation l)) by done.
  apply subseteq_size. intros d Hd. apply elem_of_list_to_set, list_elem_of_In, in_map_iff in Hd as (p & <- & Hin).
  rewrite Forall_forall in Hp. apply list_elem_of_In, Hp in Hin. unfold is_protected in Hin. by simp_bool.
Qed.

Lemma NoDup_map_sublist (l k : list ActionPrediction) :
  sublist k l -> NoDup (map invocation l) -> NoDup (map invocation k).
Proof. intros Hs Hn. eapply sublist_NoDup; [exact Hn|]. by apply fmap_sublist. Qed.

Lemma update_spec old updates protected :
  NoDup (map invocation old) ->
  match update_task_predictions_in_order canonical_len old updates protected with
  | Ok l =>
      NoDup (map invocation l) /\
      Z.of_nat (length l) <= MAX_TASK_ACTION_PREDICTIONS /\
      TASK_MANIFEST_OVERHEAD_BYTES + bytes_of entry_bytes l <= MAX_TASK_MANIFEST_BYTES /\
      retires_oldest protected (combined old updates) l
  | Err NotSerializable => exists p, newest old updates p /\ canonical_len p = None
  | Err _ =>
      MAX_TASK_ACTION_PREDICTIONS < Z.of_nat (base.size protected) \/
      MAX_TASK_MANIFEST_BYTES < TASK_MANIFEST_OVERHEAD_BYTES +
        bytes_of entry_bytes (List.filter (is_protected protected) (combined old updates))
  end.
Proof.
  intros Hold. unfold update_task_predictions_in_order.
  destruct (Z.ltb_spec MAX_TASK_ACTION_PREDICTIONS (Z.of_nat (base.size protected))) as [|Hsz]; [by left|].
  destruct (combined_spec old updates Hold) as [Hnd Hnew].
  set (l := combined old updates) in *.
  destruct (retire_count_spec protected
    (saturating_sub (Z.of_nat (length l)) MAX_TASK_ACTION_PREDICTIONS) l) as [Hret Hcount].
  set (kept := retire_count _ _ l) in *. pose proof (retires_sublist _ _ _ Hret) as Hsub.
  assert (Hk : Z.of_nat (length kept) <= MAX_TASK_ACTION_PREDICTIONS).
  { destruct Hcount as [Hc|Hc]; [unfold saturating_sub in Hc; lia|].
    pose proof (length_protected protected kept (NoDup_map_sublist _ _ Hsub Hnd) Hc). lia. }
  pose proof (bound_bytes_spec protected kept) as Hb.
  destruct (bound_bytes canonical_len protected kept) as [r|[]].
  - destruct Hb as [Hr Hbytes]. pose proof (retires_sublist _ _ _ Hr) as Hs.
    pose proof (sublist_length _ _ Hs).
    split_and!; [by eapply NoDup_map_sublist; [exact Hs|eapply NoDup_map_sublist]|lia|done|].
    by eapply retires_trans.
  - right. replace (List.filter (is_protected protected) l)
      with (List.filter (is_protected protected) kept); [done|].
    destruct Hret as (a & b & -> & ->). by rewrite !List.filter_app, filter_protected_idem.
  - apply Exists_exists in Hb as (p & Hp & Hn). exists p. split; [|done]. apply Hnew.
    eapply sublist_In; [exact Hsub|]. by apply list_elem_of_In.
  - right. replace (List.filter (is_protected protected) l)
      with (List.filter (is_protected protected) kept); [done|].
    destruct Hret as (a & b & -> & ->). by rewrite !List.filter_app, filter_protected_idem.
Qed.
End properties.

Lemma update_fits canonical_len old updates protected l :
  update_task_predictions_in_order canonical_len old updates protected = Ok l ->
  Z.of_nat (length (combined old updates)) <= MAX_TASK_ACTION_PREDICTIONS ->
  TASK_MANIFEST_OVERHEAD_BYTES + bytes_of (entry_bytes canonical_len) (combined old updates) <= MAX_TASK_MANIFEST_BYTES ->
  l = combined old updates.
Proof.
  unfold update_task_predictions_in_order. destruct (_ <? _); [done|]. intros Hl Hn Hb.
  rewrite retire_count_nonpos in Hl by (unfold saturating_sub; lia). unfold bound_bytes in Hl.
  pose proof (sizes_of_spec canonical_len (combined old updates)) as Hs.
  destruct (sizes_of canonical_len _) as [ns|]; [|done]. subst ns. cbn [mbind result_bind] in Hl.
  unfold bytes_of in Hb. destruct (Z.ltb_spec MAX_TASK_MANIFEST_BYTES (TASK_MANIFEST_OVERHEAD_BYTES + sumZ (map (entry_bytes canonical_len) (combined old updates)))); [lia|].
  by injection Hl.
Qed.

(** C37: The bounded history.  Updating a history without repeated invocations
    gives the last value of each invocation, in the order in which those values
    were last given, old ones first, less what the bounds of entries and bytes
    retire: the oldest first, never a protected one, and nothing when all of it
    fits.  It fails only when an entry does not serialise, or the protected
    entries alone exceed a limit. *)
Theorem predictions_update_correct canonical_len old updates protected :
  (forall p n, canonical_len p = Some n -> 0 <= n) ->
  NoDup (map invocation old) ->
  let all := keep_last (old ++ updates) in
  match update_task_predictions_in_order canonical_len old updates protected with
  | Ok l =>
      NoDup (map invocation l) /\
      Z.of_nat (length l) <= MAX_TASK_ACTION_PREDICTIONS /\
      TASK_MANIFEST_OVERHEAD_BYTES + bytes_of (entry_bytes canonical_len) l
        <= MAX_TASK_MANIFEST_BYTES /\
      retires_oldest protected all l /\
      (Z.of_nat (length all) <= MAX_TASK_ACTION_PREDICTIONS ->
       TASK_MANIFEST_OVERHEAD_BYTES + bytes_of (entry_bytes canonical_len) all <= MAX_TASK_MANIFEST_BYTES -> l = all) /\
      (forall p, In p l -> newest old updates p) /\
      (forall p, newest old updates p -> invocation p ∈ protected -> In p l)
  | Err NotSerializable => exists p, newest old updates p /\ canonical_len p = None
  | Err _ =>
      MAX_TASK_ACTION_PREDICTIONS < Z.of_nat (base.size protected) \/
      MAX_TASK_MANIFEST_BYTES < TASK_MANIFEST_OVERHEAD_BYTES +
        bytes_of (entry_bytes canonical_len)
          (List.filter (is_protected protected) all)
  end.
Proof.
  intros Hlen Hold all. unfold all. rewrite <- combined_keeps_last by done.
  pose proof (update_spec canonical_len Hlen old updates protected Hold) as Hu.
  pose proof (update_fits canonical_len old updates protected) as Hf.
  destruct (update_task_predictions_in_order _ _ _ _) as [l|[]]; try done.
  destruct Hu as (H1 & H2 & H3 & H4). destruct (combined_spec old updates Hold) as [_ Hnew].
  split_and!; try done; [by apply Hf|..].
  - intros p Hp. apply Hnew. eapply sublist_In; [by eapply retires_sublist|done].
  - intros p Hp Hin. eapply retires_protected; [exact H4|by apply Hnew|].
    by apply bool_decide_eq_true.
Qed.

Lemma base_value_some base d p :
  base_value base d = Some p -> In p base /\ invocation p = d.
Proof. unfold base_value. intros [H1 H2]%find_some. by simp_bool. Qed.

Lemma base_value_none base d : base_value base d = None -> ~ In d (map invocation base).
Proof.
  unfold base_value. intros Hn (p & <- & Hp)%in_map_iff. apply find_none with (x := p) in Hn; [|done].
  by simp_bool.
Qed.

Lemma base_value_in base p : NoDup (map invocation base) -> In p base -> base_value base (invocation p) = Some p.
Proof.
  unfold base_value. induction base as [|q base IH]; simpl; [done|]. intros [Hq Hn]%NoDup_cons [->|Hin].
  - by rewrite bool_decide_eq_true_2.
  - case_bool_decide as Heq; [|by apply IH]. exfalso. apply Hq. rewrite Heq.
    apply list_elem_of_In. by apply in_map.
Qed.

Lemma validate_task_manifest_ok is_json m t :
  validate_task_manifest is_json m t = Ok () <->
  task m = t /\ validate_manifest is_json m = true.
Proof.
  unfold validate_task_manifest. destruct (bool_decide_reflect (task m = t)); simpl.
  - destruct (validate_manifest is_json m); split; try done. by intros [? ?].
  - split; [done|]. by intros [? ?].
Qed.

Section merge.
Context (canonical_len : ActionPrediction -> option Z) (is_json : string -> bool).
Context (Hlen : forall p n, canonical_len p = Some n -> 0 <= n).
Context (base update : list ActionPrediction) (required fallbacks : gset Digest).
Context (Hb : NoDup (map invocation base)) (Hu : NoDup (map invocation update)).

Let updates := winning_updates base update required fallbacks.
Let old := List.filter (fun p => is_none (base_value base (invocation p))) update ++ base.

Lemma merge_old_nodup : NoDup (map invocation old).
Proof.
  unfold old. rewrite map_app. apply NoDup_app. split_and!; [| |done].
  - eapply NoDup_map_sublist; [|exact Hu].
    induction update as [|p l IH]; simpl; [done|]. apply NoDup_cons in Hu as [_ Hu'].
    case_match; constructor; auto.
  - intros d (p & <- & Hp)%list_elem_of_In%in_map_iff Hd. apply filter_In in Hp as [_ Hp].
    destruct (base_value base (invocation p)) eqn:E; [done|].
    apply base_value_none in E. apply E. by apply list_elem_of_In.
Qed.

Lemma merge_updates_nodup : NoDup (map invocation updates).
Proof.
  eapply NoDup_map_sublist; [|exact Hu]. unfold updates, winning_updates. clear.
  induction update as [|p l IH]; simpl; [done|]. case_match; by constructor.
Qed.

Lemma newest_update p : In p updates -> newest old updates p.
Proof.
  intros Hp. left. apply in_split in Hp as (before & later & Heq). exists before, later.
  split; [done|]. pose proof merge_updates_nodup as Hn. rewrite Heq, map_app in Hn.
  apply NoDup_app in Hn as (_ & _ & Hn). simpl in Hn. apply NoDup_cons in Hn as [Hn _].
  intros Hin. apply Hn. by apply list_elem_of_In.
Qed.

Lemma newest_origin p : newest old updates p -> In p base \/ In p update.
Proof.
  intros [(b & l & Heq & _)|[Hin _]].
  - right. assert (Hp : In p updates) by (rewrite Heq; apply in_app_iff; right; by left).
    by apply filter_In in Hp as [? _].
  - apply in_app_iff in Hin as [Hin|Hin]; [right|by left]. by apply filter_In in Hin as [? _].
Qed.

(** An invocation that is not required keeps the base's value. *)
Lemma newest_base p q :
  newest old updates p -> In q base -> invocation p = invocation q ->
  invocation q ∉ required -> p = q.
Proof.
  intros Hp Hq Heq Hr. pose proof (base_value_in base q Hb Hq) as Hv.
  destruct Hp as [(b & l & Hl & _)|[Hin _]].
  - assert (Hp : In p updates) by (rewrite Hl; apply in_app_iff; right; by left).
    apply filter_In in Hp as [_ Hp]. rewrite Heq, Hv in Hp.
    rewrite bool_decide_eq_false_2 in Hp by done. simpl in Hp. simp_bool. done.
  - apply in_app_iff in Hin as [Hin|Hin].
    + apply filter_In in Hin as [_ Hin]. by rewrite Heq, Hv in Hin.
    + pose proof (base_value_in base p Hb Hin) as Hv'. rewrite Heq in Hv'. congruence.
Qed.
End merge.

Lemma update_not_invalid canonical_len old updates protected :
  update_task_predictions_in_order canonical_len old updates protected <> Err InvalidManifest.
Proof.
  unfold update_task_predictions_in_order, bound_bytes.
  destruct (MAX_TASK_ACTION_PREDICTIONS <? _); [done|].
  set (l := retire_count _ _ _). pose proof (sizes_of_spec canonical_len l) as Hs.
  destruct (sizes_of canonical_len l) as [ns|e]; cbn [mbind result_bind].
  - repeat case_match; done.
  - destruct Hs as [-> _]. done.
Qed.

(** Merging two valid snapshots of one task never yields an invalid
    manifest: the result, when the bounds allow one, is valid for the task,
    holds only values of the two inputs, keeps every required value of the
    update side, and for every other invocation the base's value wins over
    whatever the update side has. *)
Lemma manifest_merge_correct canonical_len is_json t base update required fallbacks :
  (forall p n, canonical_len p = Some n -> 0 <= n) ->
  validate_task_manifest is_json base t = Ok () ->
  validate_task_manifest is_json update t = Ok () ->
  match merge_task_manifests canonical_len is_json t base update required fallbacks with
  | Ok m =>
      task m = t /\ validate_manifest is_json m = true /\
      (forall p, In p (predictions m) -> In p (predictions base) \/ In p (predictions update)) /\
      (forall p, In p (predictions update) -> invocation p ∈ required -> In p (predictions m)) /\
      (forall p q, In p (predictions m) -> In q (predictions base) ->
         invocation p = invocation q -> invocation q ∉ required -> p = q)
  | Err e => e <> InvalidManifest
  end.
Proof.
  intros Hlen Hbv Huv. unfold merge_task_manifests. rewrite Hbv, Huv. cbn [mbind result_bind].
  apply validate_task_manifest_ok in Hbv as [Hbt Hbm]. apply validate_task_manifest_ok in Huv as [Hut Hum].
  apply validate_manifest_spec in Hbm as (_ & Hid & _ & Hbf & Hbn).
  apply validate_manifest_spec in Hum as (_ & _ & _ & Huf & Hun).
  set (updates := winning_updates _ _ _ _). set (old := _ ++ predictions base).
  set (protected := required ∪ _).
  pose proof (update_spec canonical_len Hlen old updates protected
    (merge_old_nodup _ _ required fallbacks Hbn Hun)) as Hs.
  destruct (update_task_predictions_in_order _ _ _ _) as [l|e] eqn:Eu; cbn [mbind result_bind].
  2: { intros ->. by eapply update_not_invalid. }
  destruct Hs as (Hnd & Hcount & _ & Hret).
  destruct (combined_spec old updates (merge_old_nodup _ _ required fallbacks Hbn Hun)) as [_ Hnew].
  assert (Hl : forall p, In p l -> newest old updates p).
  { intros p Hp. apply Hnew. eapply sublist_In; [by eapply retires_sublist|done]. }
  assert (Horigin : forall p, In p l -> In p (predictions base) \/ In p (predictions update)).
  { intros p Hp. apply (newest_origin _ _ required fallbacks). by apply Hl. }
  assert (Hvalid : validate_manifest is_json (mkManifest TASK_ACTION_MANIFEST_VERSION t l) = true).
  { apply validate_manifest_spec. simpl. rewrite Forall_forall in Hbf, Huf. split_and!; try done.
    - by rewrite <- Hbt.
    - apply Forall_forall. intros p Hp. apply list_elem_of_In, Horigin in Hp as [Hp|Hp];
        apply list_elem_of_In in Hp; auto. }
  rewrite (proj2 (validate_task_manifest_ok is_json _ t)) by done. cbn [mbind result_bind].
  split_and!; try done.
  - intros p Hp Hr. assert (Hup : In p updates).
    { apply filter_In. split; [done|]. by rewrite bool_decide_eq_true_2. }
    eapply retires_protected; [exact Hret| |].
    + apply Hnew. apply (newest_update _ _ _ _ Hun). done.
    + apply bool_decide_eq_true. unfold protected. by apply elem_of_union_l.
  - intros p q Hp Hq Heq Hr. eapply (newest_base (predictions base) (predictions update)); eauto.
Qed.

(** ** Instances *)

Definition demo_digest (n : Z) : Digest := mkDigest "blake3" zeros n.
Definition demo_prediction (n m : Z) : ActionPrediction :=
  mkPrediction (demo_digest n) (demo_digest m) "rustc" "{}".
Definition demo_manifest (l : list ActionPrediction) : TaskActionManifest := mkManifest 1 zeros l.

Lemma predictions_update_correct_witness :
  update_task_predictions_in_order (fun _ => Some 100)
    [demo_prediction 1 1; demo_prediction 2 1] [demo_prediction 3 1; demo_prediction 1 2] ∅ =
    Ok (keep_last [demo_prediction 1 1; demo_prediction 2 1; demo_prediction 3 1; demo_prediction 1 2]) /\
  keep_last [demo_prediction 1 1; demo_prediction 2 1; demo_prediction 3 1; demo_prediction 1 2] =
    [demo_prediction 2 1; demo_prediction 3 1; demo_prediction 1 2].
Proof.
  pose proof (predictions_update_correct (fun _ => Some 100)
    [demo_prediction 1 1; demo_prediction 2 1] [demo_prediction 3 1; demo_prediction 1 2] ∅) as H.
  split; [|vm_compute; reflexivity].
  destruct (update_task_predictions_in_order _ _ _ _) as [l|e] eqn:E.
  - f_equal. apply H; [| |vm_compute; discriminate..].
    + intros p n [= <-]. lia.
    + apply (bool_decide_eq_true_1 _). vm_compute. reflexivity.
  - vm_compute in E. discriminate E.
Defined.

Lemma manifest_merge_correct_witness :
  exists m, merge_task_manifests (fun _ => Some 100) (fun _ => true) zeros
      (demo_manifest [demo_prediction 1 1; demo_prediction 2 1])
      (demo_manifest [demo_prediction 1 2; demo_prediction 3 1])
      {[ demo_digest 1 ]} ∅ = Ok m /\
    In (demo_prediction 1 2) (predictions m).
Proof.
  pose proof (manifest_merge_correct (fun _ => Some 100) (fun _ => true) zeros
    (demo_manifest [demo_prediction 1 1; demo_prediction 2 1])
    (demo_manifest [demo_prediction 1 2; demo_prediction 3 1])
    {[ demo_digest 1 ]} ∅) as H.
  destruct (merge_task_manifests _ _ _ _ _ _ _) as [m|e] eqn:E.
  - exists m. split; [reflexivity|].
    refine (proj1 (proj2 (proj2 (proj2 (H _ _ _)))) (demo_prediction 1 2) _ _).
    + intros p n [= <-]. lia.
    + vm_compute. reflexivity.
    + vm_compute. reflexivity.
    + by left.
    + by apply elem_of_singleton.
  - vm_compute in E. discriminate E.
Defined.
