(* ===== verification/ActionSlot.v ===== *)
(** * Claiming, replacing and removing action records

    Models [src/crates/mbx-cache-core/src/action_slot.rs] as a transition
    system of any number of processes over one action record: opening the
    current file, locking it, checking that the pathname still names it, and
    then replacing, removing, publishing or releasing.  A pathname names at
    most one file (inode); files have contents and at most one lock holder.

    The theorems: while a process holds an occupied slot, the pathname names
    the very file it locked and checked, nobody else holds it, and no step of
    anyone but the holder takes a record away or replaces it. *)

From stdpp Require Import base list gmap strings sorting.
From Stdlib Require Import ZArith Lia.
From S2P Require Import Prelude.
Local Open Scope Z_scope.

Definition CLAIM_ATTEMPTS : nat := 64.

(** Where a process is in [claim_inner] and after it.  [Claiming n]: [n]
    rounds of the loop are left.  A process that is between the [open] and the
    check holds the file it opened. *)
Inductive Slot :=
| Claiming (nonblocking : bool) (rounds : nat)
| Opened (nonblocking : bool) (file : positive) (rounds : nat)
| Locked (nonblocking : bool) (file : positive) (rounds : nat)
| Occupied (file : positive)
| Vacant
| WouldBlock
| KeptChanging.

Record Store := mkStore {
  record_file : option positive;
  contents : gmap positive (list Z);
  lock_of : gmap positive nat;
  slots : gmap nat Slot
}.

(** What one round of [claim_inner] does with the lookup of the pathname. *)
Definition open_record (s : Store) (nonblocking : bool) (rounds : nat) : Slot :=
  match rounds with
  | O => KeptChanging
  | S rounds =>
      match record_file s with
      | None => Vacant
      | Some f => Opened nonblocking f rounds
      end
  end.

(** [file.lock()] or [file.try_lock()]; [None] while a blocking lock waits. *)
Definition lock_file (s : Store) (p : nat) (nonblocking : bool) (f : positive) (rounds : nat)
    : option (gmap positive nat * Slot) :=
  match lock_of s !! f with
  | None => Some (<[f := p]> (lock_of s), Locked nonblocking f rounds)
  | Some _ => if nonblocking then Some (lock_of s, WouldBlock) else None
  end.

(** The identity check under the lock; on a mismatch the handle is dropped. *)
Definition check_record (s : Store) (nonblocking : bool) (f : positive) (rounds : nat)
    : gmap positive nat * Slot :=
  if bool_decide (record_file s = Some f) then (lock_of s, Occupied f)
  else (delete f (lock_of s), Claiming nonblocking rounds).

(** [is_vacant] and [read]. *)
Definition is_vacant (sl : Slot) : bool := match sl with Vacant => true | _ => false end.

Definition read_slot (s : Store) (sl : Slot) : option (list Z) :=
  match sl with Occupied f => contents s !! f | _ => None end.

(** A staged file is new: nothing names it and nobody has it open. *)
Definition fresh_file (s : Store) (f : positive) : Prop :=
  contents s !! f = None.

Inductive Publish := Stored | Taken.

(** [replace], [publish] and [remove] on a claimed slot; [None] is the error
    of calling it on a slot of the other kind.  The slot is consumed, which
    unlocks its file. *)
Definition replace (s : Store) (sl : Slot) (staged : positive) (bytes : list Z)
    : option Store :=
  match sl with
  | Occupied f =>
      Some (mkStore (Some staged) (<[staged := bytes]> (contents s)) (delete f (lock_of s)) (slots s))
  | _ => None
  end.

Definition publish (s : Store) (sl : Slot) (staged : positive) (bytes : list Z)
    : option (Publish * Store) :=
  match sl with
  | Vacant =>
      match record_file s with
      | None =>
          Some (Stored, mkStore (Some staged) (<[staged := bytes]> (contents s)) (lock_of s) (slots s))
      | Some _ => Some (Taken, s)
      end
  | _ => None
  end.

Definition remove (s : Store) (sl : Slot) : option (bool * Store) :=
  match sl with
  | Occupied f =>
      Some (is_some (record_file s),
            mkStore None (contents s) (delete f (lock_of s)) (slots s))
  | _ => None
  end.

(** Dropping a slot, or dying at any point, unlocks what it locked. *)
Definition held_file (sl : Slot) : option positive :=
  match sl with Locked _ f _ => Some f | Occupied f => Some f | _ => None end.

Definition unlock (sl : Slot) (locks : gmap positive nat) : gmap positive nat :=
  match held_file sl with Some f => delete f locks | None => locks end.

Definition set_slots (s : Store) (m : gmap nat Slot) : Store :=
  mkStore (record_file s) (contents s) (lock_of s) m.

Inductive step : Store -> Store -> Prop :=
| step_claim s p nonblocking :
    slots s !! p = None ->
    step s (set_slots s (<[p := Claiming nonblocking CLAIM_ATTEMPTS]> (slots s)))
| step_open s p nb n :
    slots s !! p = Some (Claiming nb n) ->
    step s (set_slots s (<[p := open_record s nb n]> (slots s)))
| step_lock s p nb f n locks sl :
    slots s !! p = Some (Opened nb f n) ->
    lock_file s p nb f n = Some (locks, sl) ->
    step s (mkStore (record_file s) (contents s) locks (<[p := sl]> (slots s)))
| step_check s p nb f n locks sl :
    slots s !! p = Some (Locked nb f n) ->
    check_record s nb f n = (locks, sl) ->
    step s (mkStore (record_file s) (contents s) locks (<[p := sl]> (slots s)))
| step_replace s p sl staged bytes s' :
    slots s !! p = Some sl -> fresh_file s staged -> replace s sl staged bytes = Some s' ->
    step s (set_slots s' (delete p (slots s')))
| step_publish s p sl staged bytes r s' :
    slots s !! p = Some sl -> fresh_file s staged -> publish s sl staged bytes = Some (r, s') ->
    step s (set_slots s' (delete p (slots s')))
| step_remove s p sl b s' :
    slots s !! p = Some sl -> remove s sl = Some (b, s') ->
    step s (set_slots s' (delete p (slots s')))
| step_drop s p sl :
    slots s !! p = Some sl ->
    step s (mkStore (record_file s) (contents s) (unlock sl (lock_of s)) (delete p (slots s))).

(** A store with at most one record and no process at work. *)
Definition initial (s : Store) : Prop :=
  lock_of s = ∅ /\ slots s = ∅ /\ (forall f, record_file s = Some f -> is_Some (contents s !! f)).

Definition reachable (s : Store) : Prop := exists s0, initial s0 /\ rtc step s0 s.

(** Every process that locked a file is its lock holder, a held slot's file is
    the record, and the record has contents. *)
Record slot_inv (s : Store) : Prop := {
  inv_lock : forall p sl f, slots s !! p = Some sl -> held_file sl = Some f -> lock_of s !! f = Some p;
  inv_current : forall p f, slots s !! p = Some (Occupied f) -> record_file s = Some f;
  inv_known : forall f, record_file s = Some f -> is_Some (contents s !! f);
  inv_opened : forall p nb f n, slots s !! p = Some (Opened nb f n) -> is_Some (contents s !! f)
}.

Lemma inv_exclusive s p q sl sl' f :
  slot_inv s -> slots s !! p = Some sl -> slots s !! q = Some sl' ->
  held_file sl = Some f -> held_file sl' = Some f -> p = q.
Proof.
  intros Hi Hp Hq Hf Hf'. pose proof (inv_lock s Hi p sl f Hp Hf).
  pose proof (inv_lock s Hi q sl' f Hq Hf'). congruence.
Qed.

(** Putting a slot that holds nothing, with locks that keep every other
    holder's. *)
Lemma slot_inv_update s locks m :
  slot_inv s ->
  (forall p sl f, m !! p = Some sl -> held_file sl = Some f -> locks !! f = Some p) ->
  (forall p f, m !! p = Some (Occupied f) -> record_file s = Some f) ->
  (forall p nb f n, m !! p = Some (Opened nb f n) -> is_Some (contents s !! f)) ->
  slot_inv (mkStore (record_file s) (contents s) locks m).
Proof. intros [H1 H2 H3 H4] Hl Hc Ho. by split. Qed.

Lemma contents_insert_some s staged bytes f :
  is_Some (contents s !! f) -> is_Some (<[staged := bytes]> (contents s) !! f).
Proof.
  intros Hf. destruct (decide (staged = f)) as [->|Hne].
  - rewrite lookup_insert_eq. by eexists.
  - by rewrite lookup_insert_ne.
Qed.

(** Another process's held file is not the one [p] holds. *)
Lemma other_held s p sl f q sl' f' :
  slot_inv s -> slots s !! p = Some sl -> held_file sl = Some f ->
  q <> p -> slots s !! q = Some sl' -> held_file sl' = Some f' -> f' <> f.
Proof. intros Hi Hp Hf Hne Hq Hf' ->. apply Hne. by eapply inv_exclusive. Qed.

Lemma slot_inv_lock s p nb f n locks sl :
  slot_inv s -> slots s !! p = Some (Opened nb f n) -> lock_file s p nb f n = Some (locks, sl) ->
  slot_inv (mkStore (record_file s) (contents s) locks (<[p := sl]> (slots s))).
Proof.
  intros Hi Hp Hl. pose proof Hi as [H1 H2 H3 H4]. unfold lock_file in Hl.
  destruct (lock_of s !! f) as [h|] eqn:Ef; [destruct nb; [|done]|]; simplify_eq;
    apply slot_inv_update; try done.
  - intros q sl' f' [[<- <-]|[Hne Hq]]%lookup_insert_Some; [done|eauto].
  - intros q f' [[<- ?]|[Hne Hq]]%lookup_insert_Some; [done|eauto].
  - intros q nb' f' n' [[<- ?]|[Hne Hq]]%lookup_insert_Some; [done|eauto].
  - intros q sl' f' [[<- <-]|[Hne Hq]]%lookup_insert_Some Hf'.
    + simpl in Hf'. simplify_eq. by rewrite lookup_insert_eq.
    + rewrite lookup_insert_ne; [eauto|]. intros <-. specialize (H1 q sl' f Hq Hf'). congruence.
  - intros q f' [[<- ?]|[Hne Hq]]%lookup_insert_Some; [done|eauto].
  - intros q nb' f' n' [[<- ?]|[Hne Hq]]%lookup_insert_Some; [done|eauto].
Qed.

Lemma slot_inv_check s p nb f n locks sl :
  slot_inv s -> slots s !! p = Some (Locked nb f n) -> check_record s nb f n = (locks, sl) ->
  slot_inv (mkStore (record_file s) (contents s) locks (<[p := sl]> (slots s))).
Proof.
  intros Hi Hp Hc. pose proof Hi as [H1 H2 H3 H4]. unfold check_record in Hc.
  case_bool_decide as Hr; simplify_eq; apply slot_inv_update; try done.
  - intros q sl' f' [[<- <-]|[Hne Hq]]%lookup_insert_Some Hf'; [|eauto].
    simpl in Hf'. simplify_eq. by eapply H1.
  - intros q f' [[<- ?]|[Hne Hq]]%lookup_insert_Some; [by simplify_eq|eauto].
  - intros q nb' f' n' [[<- ?]|[Hne Hq]]%lookup_insert_Some; [done|eauto].
  - intros q sl' f' [[<- <-]|[Hne Hq]]%lookup_insert_Some Hf'; [done|].
    rewrite lookup_delete_ne; [eauto|]. symmetry.
    by eapply (other_held s p _ f q sl' f' Hi Hp eq_refl).
  - intros q f' [[<- ?]|[Hne Hq]]%lookup_insert_Some; [done|eauto].
  - intros q nb' f' n' [[<- ?]|[Hne Hq]]%lookup_insert_Some; [done|eauto].
Qed.

(** Consuming an occupied slot: nobody else holds one. *)
Lemma slot_inv_consume s p f rec cs :
  slot_inv s -> slots s !! p = Some (Occupied f) ->
  (forall g, is_Some (contents s !! g) -> is_Some (cs !! g)) ->
  (forall g, rec = Some g -> is_Some (cs !! g)) ->
  slot_inv (mkStore rec cs (delete f (lock_of s)) (delete p (slots s))).
Proof.
  intros Hi Hp Hcs Hrec. pose proof Hi as [H1 H2 H3 H4]. split; simpl.
  - intros q sl' f' [Hne Hq]%lookup_delete_Some Hf'. rewrite lookup_delete_ne; [eauto|].
    symmetry. by eapply (other_held s p _ f q sl' f' Hi Hp eq_refl).
  - intros q f' [Hne Hq]%lookup_delete_Some. exfalso. apply Hne.
    assert (f' = f) as -> by (pose proof (H2 q f' Hq); pose proof (H2 p f Hp); congruence).
    by eapply inv_exclusive.
  - done.
  - intros q nb f' n [Hne Hq]%lookup_delete_Some. apply Hcs. by eapply H4.
Qed.

Lemma slot_inv_step s s' : slot_inv s -> step s s' -> slot_inv s'.
Proof.
  intros Hi Hstep. pose proof Hi as [H1 H2 H3 H4].
  destruct Hstep as [s p nb Hp|s p nb n Hp|s p nb f n locks sl Hp Hl|s p nb f n locks sl Hp Hc
    |s p sl staged bytes s' Hp Hf Hr|s p sl staged bytes r s' Hp Hf Hr|s p sl b s' Hp Hr|s p sl Hp].
  - apply slot_inv_update; [done|..].
    + intros q sl f [[<- <-]|[Hne Hq]]%lookup_insert_Some; [done|eauto].
    + intros q f [[<- ?]|[Hne Hq]]%lookup_insert_Some; [done|eauto].
    + intros q nb' f n [[<- ?]|[Hne Hq]]%lookup_insert_Some; [done|eauto].
  - assert (Ho : forall f, held_file (open_record s nb n) = Some f -> False).
    { intros f. unfold open_record. by repeat case_match. }
    apply slot_inv_update; [done|..].
    + intros q sl f [[<- <-]|[Hne Hq]]%lookup_insert_Some Hf; [by apply Ho in Hf|eauto].
    + intros q f [[<- He]|[Hne Hq]]%lookup_insert_Some; [|eauto].
      exfalso. apply (Ho f). by rewrite He.
    + intros q nb' f n' [[<- He]|[Hne Hq]]%lookup_insert_Some; [|eauto].
      unfold open_record in He. repeat case_match; simplify_eq. by apply H3.
  - by eapply slot_inv_lock.
  - by eapply slot_inv_check.
  - destruct sl as [| | |f| | |]; simplify_eq/=. eapply slot_inv_consume; [done|done| |].
    + intros g Hg. by apply contents_insert_some.
    + simpl. intros g [= <-]. rewrite lookup_insert_eq. by eexists.
  - destruct sl as [| | | | | |]; simplify_eq/=.
    destruct (record_file s) as [f|] eqn:Er; simplify_eq/=.
    + unfold set_slots. apply slot_inv_update; [done|..].
      * intros q sl' f' [Hne Hq]%lookup_delete_Some. eauto.
      * intros q f' [Hne Hq]%lookup_delete_Some. by apply (inv_current _ Hi) in Hq.
      * intros q nb f' n [Hne Hq]%lookup_delete_Some. eauto.
    + split; simpl.
      * intros q sl' f' [Hne Hq]%lookup_delete_Some. eauto.
      * intros q f' [Hne Hq]%lookup_delete_Some. apply H2 in Hq. done.
      * intros g [= <-]. rewrite lookup_insert_eq. by eexists.
      * intros q nb f' n [Hne Hq]%lookup_delete_Some. apply contents_insert_some. eauto.
  - destruct sl as [| | |f| | |]; simplify_eq/=. by eapply slot_inv_consume.
  - apply slot_inv_update; [done|..].
    + intros q sl' f' [Hne Hq]%lookup_delete_Some Hf'. unfold unlock.
      destruct (held_file sl) as [f|] eqn:Ef; [|eauto]. rewrite lookup_delete_ne; [eauto|].
      symmetry. by eapply (other_held s p _ f q sl' f' Hi Hp Ef).
    + intros q f' [Hne Hq]%lookup_delete_Some. eauto.
    + intros q nb f' n [Hne Hq]%lookup_delete_Some. eauto.
Qed.

Lemma slot_inv_reachable s : reachable s -> slot_inv s.
Proof.
  intros (s0 & (Hl & Hs & Hk) & Hr). revert s Hr. apply rtc_ind_r.
  - split; rewrite ?Hs; try (intros; by rewrite lookup_empty in *); done.
  - intros s s' _ Hstep Hi. by eapply slot_inv_step.
Qed.

(** C19: a held slot is the record.  In every reachable state, if a process
    holds an occupied slot then the pathname names the very file it holds,
    that process alone has it locked, and reading the slot reads the record. *)
Theorem held_slot_is_current s p f :
  reachable s -> slots s !! p = Some (Occupied f) ->
  record_file s = Some f /\ lock_of s !! f = Some p /\
  (forall q g, slots s !! q = Some (Occupied g) -> q = p) /\
  exists bytes, contents s !! f = Some bytes /\ read_slot s (Occupied f) = Some bytes.
Proof.
  intros Hi%slot_inv_reachable Hp. pose proof Hi as [H1 H2 H3 H4].
  destruct (H3 f (H2 p f Hp)) as [bytes Hb]. split_and!; [by eapply H2|by eapply H1| |by exists bytes].
  intros q g Hq. assert (g = f) as -> by (pose proof (H2 q g Hq); pose proof (H2 p f Hp); congruence).
  by eapply inv_exclusive.
Qed.

(** Nothing is overwritten behind a holder's back.  A step that takes the
    record away from its pathname, or puts another in its place, is a step of
    the one process that held it; in particular publishing never overwrites a
    record, and a published or replaced record keeps its contents. *)
Lemma only_holder_changes_record s s' f :
  reachable s -> step s s' -> record_file s = Some f ->
  (record_file s' = Some f /\ contents s' !! f = contents s !! f) \/
  (exists p, slots s !! p = Some (Occupied f) /\ slots s' !! p = None).
Proof.
  intros Hi%slot_inv_reachable Hstep Hf. pose proof Hi as [H1 H2 H3 H4].
  destruct Hstep as [s p nb Hp|s p nb n Hp|s p nb g n locks sl Hp Hl|s p nb g n locks sl Hp Hc
    |s p sl staged bytes s' Hp Hfr Hr|s p sl staged bytes r s' Hp Hfr Hr|s p sl b s' Hp Hr|s p sl Hp];
    try (by left).
  - right. exists p. destruct sl as [| | |g| | |]; simplify_eq/=.
    rewrite lookup_delete_eq. split; [|done]. pose proof (H2 p g Hp). congruence.
  - left. destruct sl as [| | | | | |]; simplify_eq/=. rewrite Hf in Hr. by simplify_eq/=.
  - right. exists p. destruct sl as [| | |g| | |]; simplify_eq/=.
    rewrite lookup_delete_eq. split; [|done]. pose proof (H2 p g Hp). congruence.
Qed.

(** ** Instances *)

(** A record, claimed by process 0. *)
Definition demo_store : Store := mkStore (Some 1%positive) {[ 1%positive := [7] ]} ∅ ∅.
Definition demo_held : Store :=
  mkStore (Some 1%positive) {[ 1%positive := [7] ]} {[ 1%positive := 0%nat ]}
    {[ 0%nat := Occupied 1 ]}.

Lemma demo_held_reachable : reachable demo_held.
Proof.
  exists demo_store. split.
  - split_and!; [done|done|]. intros f [= <-]. by eexists.
  - eapply rtc_l; [by apply (step_claim _ 0 false)|].
    eapply rtc_l; [by apply (step_open _ 0 false 64)|].
    eapply rtc_l; [by eapply (step_lock _ 0 false 1 63)|].
    eapply rtc_l; [by eapply (step_check _ 0 false 1 63)|].
    match goal with |- rtc step ?a ?b => replace a with b by (vm_compute; reflexivity) end.
    apply rtc_refl.
Qed.

Lemma held_slot_is_current_witness :
  record_file demo_held = Some 1%positive /\ lock_of demo_held !! 1%positive = Some 0%nat.
Proof.
  destruct (held_slot_is_current demo_held 0 1 demo_held_reachable eq_refl) as (H1 & H2 & _).
  split; [exact H1|exact H2].
Defined.

Lemma only_holder_changes_record_witness :
  exists p, slots demo_held !! p = Some (Occupied 1).
Proof.
  destruct (only_holder_changes_record demo_held
    (mkStore None (contents demo_held) ∅ ∅) 1 demo_held_reachable) as [[H _]|(p & Hp & _)].
  - apply (step_remove demo_held 0 (Occupied 1) true (mkStore None (contents demo_held) ∅ (slots demo_held))).
    + reflexivity.
    + reflexivity.
  - reflexivity.
  - discriminate H.
  - exists p. exact Hp.
Defined.
