(* ===== verification/Depfile.v ===== *)
(** * Dependency lists of C and C++ compilers

    Models the GNU-style part of [src/crates/mbx-cache-cc/src/depfile.rs]:
    joining continued lines, finding the first rule, splitting prerequisites
    with make's escapes (with its escape-free fast path), and rendering a
    dependency list.  Text is a list of Unicode code points.

    The theorems: the fast path agrees with the general one, and parsing what
    [render] wrote gives back exactly the files, for every path whose
    characters make can express.  A dropped prerequisite would drop an input
    from a cache key. *)

From stdpp Require Import base list gmap strings sorting.
From Stdlib Require Import ZArith Lia.
From S2P Require Import Prelude.
Local Open Scope Z_scope.

Definition text : Type := list Z.
Definition TAB : Z := 9.
Definition NL : Z := 10.
Definition CR : Z := 13.
Definition SP : Z := 32.
Definition HASH : Z := 35.
Definition DOLLAR : Z := 36.
Definition COLON : Z := 58.
Definition BACKSLASH : Z := 92.

Inductive Malformed :=
| NoDependencyRule | UnterminatedContinuation | UnmodeledEscape | TrailingEscape
| UnmodeledVariable | TrailingVariable.

(** ** Standard-library text functions *)

(** [str::strip_suffix] of one character. *)
Fixpoint strip_suffix (c : Z) (l : text) : option text :=
  match l with
  | [] => None
  | [x] => if x =? c then Some [] else None
  | x :: l => (fun t => x :: t) <$> strip_suffix c l
  end.

(** [str::lines]: a line ends at a line feed, with the carriage return before
    it; [acc] is the line so far. *)
Fixpoint lines_from (acc : text) (l : text) : list text :=
  match l with
  | [] => match acc with [] => [] | _ => [acc] end
  | c :: l =>
      if c =? NL then unwrap_or acc (strip_suffix CR acc) :: lines_from [] l
      else lines_from (acc ++ [c]) l
  end.
Definition lines (l : text) : list text := lines_from [] l.

(** [str::split_once(": ")]. *)
Fixpoint split_rule (l : text) : option (text * text) :=
  match l with
  | [] => None
  | c :: l' =>
      match l' with
      | s :: rest =>
          if (c =? COLON) && (s =? SP) then Some ([], rest)
          else (fun '(a, b) => (c :: a, b)) <$> split_rule l'
      | [] => None
      end
  end.

(** [trim_end_matches(['\t'])]. *)
Fixpoint trim_end_tabs (l : text) : text :=
  match l with
  | [] => []
  | c :: l =>
      match trim_end_tabs l with
      | [] => if c =? TAB then [] else [c]
      | t => c :: t
      end
  end.

(** [value.split([' ', '\t'])], without the empty words. *)
Fixpoint split_words (cur : text) (l : text) : list text :=
  let flush rest := match cur with [] => rest | _ => cur :: rest end in
  match l with
  | [] => flush []
  | c :: l =>
      if (c =? SP) || (c =? TAB) then flush (split_words [] l) else split_words (cur ++ [c]) l
  end.

(** ** Parsing *)

Fixpoint join_loop (continued : bool) (ls : list text) : result Malformed text :=
  match ls with
  | [] => if continued then Err UnterminatedContinuation else Ok []
  | line :: ls =>
      let trimmed := unwrap_or line (strip_suffix CR line) in
      let '(t, continues) :=
        match strip_suffix BACKSLASH trimmed with
        | Some t => (t, true)
        | None => (trimmed, false)
        end in
      rest ← join_loop continues ls;
      Ok ((if continued then [SP] else []) ++ trim_end_tabs t ++
          (if continues then [] else [NL]) ++ rest)
  end.

Definition join_continuations (contents : text) : result Malformed text :=
  join_loop false (lines contents).

Fixpoint split_escaped (cur : text) (l : text) : result Malformed (list text) :=
  let flush rest := match cur with [] => rest | _ => cur :: rest end in
  match l with
  | [] => Ok (flush [])
  | c :: l =>
      if (c =? SP) || (c =? TAB) then flush <$> split_escaped [] l
      else if c =? BACKSLASH then
        match l with
        | [] => Err TrailingEscape
        | d :: l =>
            if (d =? SP) || (d =? HASH) then split_escaped (cur ++ [d]) l else Err UnmodeledEscape
        end
      else if c =? DOLLAR then
        match l with
        | [] => Err TrailingVariable
        | d :: l => if d =? DOLLAR then split_escaped (cur ++ [d]) l else Err UnmodeledVariable
        end
      else split_escaped (cur ++ [c]) l
  end.

Definition split_escaped_prerequisites (value : text) : result Malformed (list text) :=
  split_escaped [] value.

Definition split_prerequisites (value : text) : result Malformed (list text) :=
  if existsb (fun c => (c =? BACKSLASH) || (c =? DOLLAR)) value
  then split_escaped_prerequisites value
  else Ok (split_words [] value).

(** [lines().find_map(split_once)]. *)
Fixpoint first_rule (ls : list text) : option text :=
  match ls with
  | [] => None
  | l :: ls => match split_rule l with Some (_, rest) => Some rest | None => first_rule ls end
  end.

Definition parse (contents : text) : result Malformed (list text) :=
  joined ← join_continuations contents;
  prerequisites ← ok_or NoDependencyRule (first_rule (lines joined));
  split_prerequisites prerequisites.

(** ** Rendering *)

Record DepfileTarget := mkTarget { target_name : text; quoted : bool }.

Definition escape_char (c : Z) : text :=
  if c =? SP then [BACKSLASH; SP]
  else if c =? HASH then [BACKSLASH; HASH]
  else if c =? DOLLAR then [DOLLAR; DOLLAR]
  else [c].

Definition escape_make_word (w : text) : text := concat (map escape_char w).

Definition render_target (t : DepfileTarget) : text :=
  if quoted t then escape_make_word (target_name t) else target_name t.

Fixpoint render_targets (ts : list DepfileTarget) : text :=
  match ts with
  | [] => []
  | [t] => render_target t
  | t :: ts => render_target t ++ [SP] ++ render_targets ts
  end.

Definition render_file (f : text) : text := [SP; BACKSLASH; NL; SP] ++ escape_make_word f.

Definition render_phony (source : text) (files : list text) : text :=
  concat (map (fun f => escape_make_word f ++ [COLON; NL])
    (List.filter (fun f => negb (bool_decide (f = source))) files)).

Definition render (targets : list DepfileTarget) (files : list text) (source : text)
    (phony_targets : bool) : text :=
  render_targets targets ++ [COLON] ++ concat (map render_file files) ++ [NL] ++
  (if phony_targets then render_phony source files else []).

(** ** Lemmas *)

(** On a prerequisite list without escapes, copying whole words gives what the
    character machine gives. *)
Lemma split_words_escaped cur value :
  Forall (fun c => c <> BACKSLASH /\ c <> DOLLAR) value ->
  split_escaped cur value = Ok (split_words cur value).
Proof.
  intros Hv. revert cur. induction Hv as [|c l [Hb Hd] Hl IH]; intros cur; simpl; [done|].
  destruct ((c =? SP) || (c =? TAB)); [by rewrite IH|].
  destruct (Z.eqb_spec c BACKSLASH); [done|]. destruct (Z.eqb_spec c DOLLAR); [done|]. apply IH.
Qed.

(** A character make can express in a path. *)
Definition path_char (c : Z) : Prop := c <> NL /\ c <> CR /\ c <> TAB /\ c <> BACKSLASH.
Definition path_ok (f : text) : Prop := f <> [] /\ Forall path_char f.

Lemma split_escape cur f rest :
  Forall path_char f ->
  split_escaped cur (escape_make_word f ++ rest) = split_escaped (cur ++ f) rest.
Proof.
  intros Hf. revert cur. induction Hf as [|c f (Hn & Hc & Ht & Hb) Hf IH]; intros cur.
  { by rewrite app_nil_r. }
  unfold escape_make_word in *. simpl. unfold escape_char.
  replace (cur ++ c :: f) with ((cur ++ [c]) ++ f) by (by rewrite <- app_assoc).
  destruct (Z.eqb_spec c SP) as [->|Hsp]; [simpl; by rewrite IH|].
  destruct (Z.eqb_spec c HASH) as [->|Hh]; [simpl; by rewrite IH|].
  destruct (Z.eqb_spec c DOLLAR) as [->|Hd]; [simpl; by rewrite IH|].
  simpl. destruct (Z.eqb_spec c SP); [done|]. destruct (Z.eqb_spec c TAB); [done|]. simpl.
  destruct (Z.eqb_spec c BACKSLASH); [done|]. destruct (Z.eqb_spec c DOLLAR); [done|]. by rewrite IH.
Qed.

(** The prerequisite list as it looks after joining. *)
Fixpoint joined_files (files : list text) : text :=
  match files with
  | [] => []
  | [f] => [SP; SP] ++ escape_make_word f
  | f :: files => [SP; SP] ++ escape_make_word f ++ [SP] ++ joined_files files
  end.

Lemma split_joined files :
  Forall path_ok files -> split_escaped [] (joined_files files) = Ok files.
Proof.
  induction 1 as [|f files [Hne Hf] Hfs IH]; [done|].
  assert (Hflush : forall rest, match f with [] => rest | _ => f :: rest end = f :: rest)
    by (by destruct f).
  destruct files as [|g files].
  - cbn [joined_files app split_escaped]. simpl orb.
    rewrite <- (app_nil_r (escape_make_word f)), split_escape by done. simpl. by rewrite Hflush.
  - change (joined_files (f :: g :: files)) with
      ([SP; SP] ++ escape_make_word f ++ [SP] ++ joined_files (g :: files)).
    cbn [app split_escaped]. simpl orb. rewrite split_escape by done.
    cbn [app]. cbn [split_escaped]. simpl orb. rewrite IH. simpl. by rewrite Hflush.
Qed.

Lemma split_prerequisites_escaped value :
  split_prerequisites value = split_escaped_prerequisites value.
Proof.
  unfold split_prerequisites, split_escaped_prerequisites.
  destruct (existsb _ value) eqn:E; [done|]. symmetry. apply split_words_escaped.
  apply Forall_forall. intros c Hc%list_elem_of_In.
  apply not_true_iff_false in E. rewrite existsb_exists in E.
  split; intros ->; apply E; [exists BACKSLASH|exists DOLLAR]; done.
Qed.

(** Characters that stay on one line. *)
Definition line_chars (l : text) : Prop := Forall (fun c => c <> NL /\ c <> CR) l.

Lemma strip_suffix_snoc c l x : strip_suffix c (l ++ [x]) = if x =? c then Some l else None.
Proof.
  induction l as [|y l IH]; simpl; [done|]. rewrite IH.
  destruct (l ++ [x]) eqn:E; [by destruct l|]. by destruct (x =? c).
Qed.

Lemma strip_suffix_cr l : line_chars l -> strip_suffix CR l = None.
Proof.
  intros Hl. destruct l as [|x l _] using rev_ind; [done|]. rewrite strip_suffix_snoc.
  apply Forall_app in Hl as [_ [[_ Hx] _]%Forall_cons]. by destruct (Z.eqb_spec x CR).
Qed.

Lemma trim_end_tabs_snoc l x : x <> TAB -> trim_end_tabs (l ++ [x]) = l ++ [x].
Proof.
  intros Hx. induction l as [|y l IH]; simpl; [by destruct (Z.eqb_spec x TAB)|].
  rewrite IH. by destruct l.
Qed.

Lemma lines_from_app acc l rest :
  line_chars (acc ++ l) -> lines_from acc (l ++ NL :: rest) = (acc ++ l) :: lines_from [] rest.
Proof.
  revert acc. induction l as [|c l IH]; intros acc Hl; simpl.
  - rewrite app_nil_r in *. by rewrite strip_suffix_cr.
  - pose proof Hl as Hl'. apply Forall_app in Hl' as [_ [[Hc _] _]%Forall_cons].
    destruct (Z.eqb_spec c NL); [done|].
    replace (acc ++ c :: l) with ((acc ++ [c]) ++ l) in * by (by rewrite <- app_assoc).
    by apply IH.
Qed.

Lemma lines_app l rest : line_chars l -> lines (l ++ NL :: rest) = l :: lines rest.
Proof. intros Hl. exact (lines_from_app [] l rest Hl). Qed.

Lemma escape_line_chars f : Forall path_char f -> line_chars (escape_make_word f).
Proof.
  intros Hf. unfold escape_make_word, line_chars. induction Hf as [|c f (Hn & Hc & _) Hf IH]; simpl;
    [constructor|]. apply Forall_app. split; [|done]. unfold escape_char.
  repeat case_match; repeat constructor; done.
Qed.

(** A rendered path ends in a character that no trimming touches. *)
Lemma escape_last f :
  path_ok f -> exists l x, escape_make_word f = l ++ [x] /\ x <> TAB /\ x <> BACKSLASH.
Proof.
  intros [Hne Hf]. destruct f as [|c f _] using rev_ind; [done|]. clear Hne.
  apply Forall_app in Hf as [_ [(Hn & Hc & Ht & Hb) _]%Forall_cons].
  unfold escape_make_word. rewrite map_app, concat_app. simpl. rewrite app_nil_r. unfold escape_char.
  destruct (Z.eqb_spec c SP); [|destruct (Z.eqb_spec c HASH); [|destruct (Z.eqb_spec c DOLLAR)]].
  - exists (concat (map escape_char f) ++ [BACKSLASH]), SP. by rewrite <- app_assoc.
  - exists (concat (map escape_char f) ++ [BACKSLASH]), HASH. by rewrite <- app_assoc.
  - exists (concat (map escape_char f) ++ [DOLLAR]), DOLLAR. by rewrite <- app_assoc.
  - by exists (concat (map escape_char f)), c.
Qed.

(** The physical lines of the rule's prerequisites. *)
Fixpoint file_lines (files : list text) : list text :=
  match files with
  | [] => []
  | [f] => [[SP] ++ escape_make_word f]
  | f :: files => ([SP] ++ escape_make_word f ++ [SP; BACKSLASH]) :: file_lines files
  end.

Lemma Forall_line_app l k : line_chars l -> line_chars k -> line_chars (l ++ k).
Proof. intros. apply Forall_app. by split. Qed.

Lemma lines_files pre files rest :
  line_chars pre -> files <> [] -> Forall path_ok files ->
  lines (pre ++ concat (map render_file files) ++ NL :: rest) =
  (pre ++ [SP; BACKSLASH]) :: file_lines files ++ lines rest.
Proof.
  intros Hpre Hne Hf. revert pre Hpre Hne.
  induction Hf as [|f files [Hfne Hf] Hfs IH]; intros pre Hpre Hne; [done|].
  assert (Hsb : line_chars [SP; BACKSLASH]) by (repeat constructor; done).
  assert (Hsp : line_chars [SP]) by (repeat constructor; done).
  cbn [map concat]. unfold render_file at 1.
  replace (pre ++ (([SP; BACKSLASH; NL; SP] ++ escape_make_word f) ++ concat (map render_file files)) ++ NL :: rest)
    with ((pre ++ [SP; BACKSLASH]) ++ NL :: (([SP] ++ escape_make_word f) ++
      concat (map render_file files) ++ NL :: rest)) by (by rewrite <- !app_assoc).
  rewrite lines_app by (by apply Forall_line_app). f_equal.
  assert (Hline : line_chars ([SP] ++ escape_make_word f))
    by (apply Forall_line_app; [done|by apply escape_line_chars]).
  destruct files as [|g files].
  - cbn [map concat app]. by apply (lines_app ([SP] ++ escape_make_word f)).
  - rewrite IH by done. by rewrite <- !app_assoc.
Qed.

(** One line that ends the logical line, and one that continues it. *)
Lemma join_end continued l x rest :
  line_chars (l ++ [x]) -> x <> TAB -> x <> BACKSLASH ->
  join_loop continued ((l ++ [x]) :: rest) =
  (fun t => (if continued then [SP] else []) ++ (l ++ [x]) ++ NL :: t) <$> join_loop false rest.
Proof.
  intros Hl Ht Hb. cbn [join_loop]. rewrite strip_suffix_cr by done. simpl unwrap_or.
  rewrite strip_suffix_snoc. destruct (Z.eqb_spec x BACKSLASH); [done|].
  rewrite trim_end_tabs_snoc by done. by destruct (join_loop false rest).
Qed.

Lemma join_continue continued l x rest :
  line_chars ((l ++ [x]) ++ [BACKSLASH]) -> x <> TAB ->
  join_loop continued (((l ++ [x]) ++ [BACKSLASH]) :: rest) =
  (fun t => (if continued then [SP] else []) ++ (l ++ [x]) ++ t) <$> join_loop true rest.
Proof.
  intros Hl Ht. cbn [join_loop]. rewrite strip_suffix_cr by done. simpl unwrap_or.
  rewrite strip_suffix_snoc. rewrite Z.eqb_refl. rewrite trim_end_tabs_snoc by done.
  by destruct (join_loop true rest).
Qed.

Lemma join_files files rest :
  files <> [] -> Forall path_ok files ->
  join_loop true (file_lines files ++ rest) =
  (fun t => joined_files files ++ NL :: t) <$> join_loop false rest.
Proof.
  intros Hne Hf. induction Hf as [|f files Hok Hfs IH]; [done|].
  pose proof Hok as [_ Hc]. apply escape_line_chars in Hc.
  assert (Hsb : line_chars [SP; BACKSLASH]) by (repeat constructor; done).
  assert (Hsp : line_chars [SP]) by (repeat constructor; done).
  destruct files as [|g files].
  - destruct (escape_last f Hok) as (l & x & He & Ht & Hb).
    change (file_lines [f] ++ rest) with (([SP] ++ escape_make_word f) :: rest).
    assert (Hl : line_chars ([SP] ++ escape_make_word f)) by (by apply Forall_line_app).
    rewrite He in *. rewrite app_assoc in *. rewrite join_end by done.
    change (joined_files [f]) with ([SP; SP] ++ escape_make_word f). rewrite He.
    destruct (join_loop false rest) as [t|e]; [|done]. cbn [fmap result_fmap].
    by rewrite <- !app_assoc.
  - change (file_lines (f :: g :: files) ++ rest) with
      (([SP] ++ escape_make_word f ++ [SP; BACKSLASH]) :: (file_lines (g :: files) ++ rest)).
    replace ([SP] ++ escape_make_word f ++ [SP; BACKSLASH])
      with ((([SP] ++ escape_make_word f) ++ [SP]) ++ [BACKSLASH]) by (by rewrite <- !app_assoc).
    rewrite join_continue; [|repeat apply Forall_line_app; try done; repeat constructor; done|done].
    rewrite IH by done.
    change (joined_files (f :: g :: files)) with
      ([SP; SP] ++ escape_make_word f ++ [SP] ++ joined_files (g :: files)).
    destruct (join_loop false rest) as [t|e]; [|done]. cbn [fmap result_fmap].
    by rewrite <- !app_assoc.
Qed.

Lemma joined_line_chars files : Forall path_ok files -> line_chars (joined_files files).
Proof.
  induction 1 as [|f files [_ Hf] Hfs IH]; [constructor|]. apply escape_line_chars in Hf.
  assert (Hsp : line_chars [SP; SP]) by (repeat constructor; done).
  assert (Hs : line_chars [SP]) by (repeat constructor; done).
  destruct files as [|g files]; [by apply (Forall_line_app [SP; SP])|].
  change (joined_files (f :: g :: files)) with
    ([SP; SP] ++ escape_make_word f ++ [SP] ++ joined_files (g :: files)).
  by repeat apply Forall_line_app.
Qed.

(** Phony rules join to themselves. *)
Lemma join_phony fs :
  Forall path_ok fs ->
  exists t, join_loop false (lines (concat (map (fun f => escape_make_word f ++ [COLON; NL]) fs))) = Ok t.
Proof.
  induction 1 as [|f fs [_ Hf] Hfs [t IH]]; [by eexists|]. cbn [map concat].
  replace ((escape_make_word f ++ [COLON; NL]) ++ concat (map (fun f => escape_make_word f ++ [COLON; NL]) fs))
    with ((escape_make_word f ++ [COLON]) ++ NL :: concat (map (fun f => escape_make_word f ++ [COLON; NL]) fs))
    by (by rewrite <- !app_assoc).
  assert (Hl : line_chars (escape_make_word f ++ [COLON])).
  { apply Forall_line_app; [by apply escape_line_chars|repeat constructor; done]. }
  rewrite lines_app, join_end by done. rewrite IH. by eexists.
Qed.

Lemma split_rule_app t rest :
  split_rule t = None -> split_rule (t ++ COLON :: SP :: rest) = Some (t, rest).
Proof.
  induction t as [|c t IH]; intros Hn; [done|].
  destruct t as [|s t].
  - simpl. destruct (Z.eqb_spec c COLON); done.
  - assert (Hstep : forall u, split_rule (c :: s :: u) =
      if (c =? COLON) && (s =? SP) then Some ([], u)
      else (fun '(a, b) => (c :: a, b)) <$> split_rule (s :: u)) by done.
    rewrite Hstep in Hn. cbn [app]. rewrite Hstep. destruct ((c =? COLON) && (s =? SP)); [done|].
    assert (Hs : split_rule (s :: t) = None) by (by destruct (split_rule (s :: t)) as [[? ?]|]).
    specialize (IH Hs). cbn [app] in IH. by rewrite IH.
Qed.

(** The fast path is the general path: on every prerequisite list, the
    splitter that copies whole words where no escape occurs gives exactly what
    the character-by-character splitter gives, errors included. *)
Lemma fast_split_agrees value :
  split_prerequisites value = split_escaped_prerequisites value.
Proof. apply split_prerequisites_escaped. Qed.

(** What is rendered is read back.  For targets that fit on a line and
    contain no rule separator, and files whose paths make can express (no line
    break, tab or backslash), parsing the rendered list gives exactly the
    files, in order, whether or not phony rules follow. *)
Lemma parse_render targets files source phony :
  line_chars (render_targets targets) -> split_rule (render_targets targets) = None ->
  files <> [] -> Forall path_ok files ->
  parse (render targets files source phony) = Ok files.
Proof.
  intros Ht Hsep Hne Hf. set (rest := if phony then render_phony source files else []).
  assert (Hrest : exists t, join_loop false (lines rest) = Ok t).
  { subst rest. destruct phony; [|by exists []]. apply join_phony.
    apply Forall_forall. intros f [Hin _]%list_elem_of_In%filter_In.
    rewrite Forall_forall in Hf. by apply Hf, list_elem_of_In. }
  destruct Hrest as [t Hrest].
  assert (Hr : render targets files source phony =
    (render_targets targets ++ [COLON]) ++ concat (map render_file files) ++ NL :: rest)
    by (unfold render; by rewrite <- !app_assoc).
  unfold parse, join_continuations. rewrite Hr.
  assert (Hcolon : line_chars (render_targets targets ++ [COLON]))
    by (apply Forall_line_app; [done|repeat constructor; done]).
  rewrite lines_files by done.
  replace ((render_targets targets ++ [COLON]) ++ [SP; BACKSLASH])
    with (((render_targets targets ++ [COLON]) ++ [SP]) ++ [BACKSLASH]) by (by rewrite <- !app_assoc).
  rewrite join_continue; [|repeat apply Forall_line_app; try done; repeat constructor; done|done].
  rewrite join_files, Hrest by done. cbn [fmap result_fmap mbind result_bind app].
  replace (((render_targets targets ++ [COLON]) ++ [SP]) ++ joined_files files ++ NL :: t)
    with ((render_targets targets ++ COLON :: SP :: joined_files files) ++ NL :: t)
    by (by rewrite <- !app_assoc).
  rewrite lines_app; [|apply Forall_line_app; [done|]; constructor; [done|constructor; [done|]];
    by apply joined_line_chars].
  cbn [first_rule]. rewrite split_rule_app by done. cbn [ok_or mbind result_bind].
  rewrite split_prerequisites_escaped. by apply split_joined.
Qed.

Lemma parse_render_witness :
  parse (render [mkTarget [97; 46; 111] true] [[97; 32; 36; 46; 99]; [98; 46; 104]] [97] true)
  = Ok [[97; 32; 36; 46; 99]; [98; 46; 104]].
Proof.
  apply parse_render.
  - repeat constructor; done.
  - vm_compute. reflexivity.
  - discriminate.
  - repeat constructor; try done; unfold path_ok, path_char; try discriminate.
Defined.
