(* ===== verification/Uploads.v ===== *)
(** * Deferred remote publication

    Models [src/crates/mbx-cache-core/src/uploads.rs]: grouping blobs into
    packs, the outcomes of single uploads, and the upload queue as a transition
    system: connections queue blobs and action results, the worker takes the
    whole queue as a batch, publishes the batch's blobs in any order and only
    then its action results.  Tickets are numbers with at most one outcome; what
    the server answers, whether a local object still exists and whether the
    transfer semaphores are open are arguments of each step.

    The theorems: packs are a partition within the server's limits, an action
    result is published only when every blob its connection stored is visible
    remotely, and a batch's action results never wait for anything that has not
    already run. *)

From stdpp Require Import base list gmap strings sorting.
From Stdlib Require Import ZArith Lia.
From S2P Require Import Prelude Protocol.
Local Open Scope Z_scope.

Inductive UploadOutcome := Uploaded | Skipped | Failed.

#[export] Instance UploadOutcome_eq_dec : EqDecision UploadOutcome.
Proof. solve_decision. Defined.

Definition published (o : UploadOutcome) : bool :=
  match o with Uploaded => true | _ => false end.

(** ** Packs *)

Record PackMember := mkMember { member_digest : Digest; member_ticket : nat }.
Record BlobPackLimits := mkLimits { max_items : Z; max_bytes : Z }.

Definition member_size (m : PackMember) : Z := Protocol.size (member_digest m).

(** [close_pack], on the accumulated packs and singles. *)
Definition close_pack (pack : list PackMember)
    (acc : list (list PackMember) * list PackMember) : list (list PackMember) * list PackMember :=
  if (length pack <? 2)%nat then (acc.1, acc.2 ++ pack) else (acc.1 ++ [pack], acc.2).

Fixpoint pack_loop (limits : BlobPackLimits) (members current : list PackMember)
    (current_bytes : Z) (acc : list (list PackMember) * list PackMember)
    : list (list PackMember) * list PackMember :=
  match members with
  | [] => close_pack current acc
  | m :: members =>
      if max_bytes limits <? member_size m
      then pack_loop limits members current current_bytes (acc.1, acc.2 ++ [m])
      else
        let would_exceed :=
          (max_items limits <=? Z.of_nat (length current)) ||
          (max_bytes limits <? saturating_add current_bytes (member_size m)) in
        if would_exceed && negb (bool_decide (length current = 0%nat))
        then pack_loop limits members [m] (saturating_add 0 (member_size m)) (close_pack current acc)
        else
          pack_loop limits members (current ++ [m])
            (saturating_add current_bytes (member_size m)) acc
  end.

Definition group_into_packs (members : list PackMember) (limits : BlobPackLimits)
    : list (list PackMember) * list PackMember :=
  pack_loop limits members [] 0 ([], []).

(** ** One upload *)

Inductive PutResult := PutOk | PutMissingSource | PutError.

(** [upload_blob]: whether the object still exists, whether both semaphores
    are open, and the server's answer. *)
Definition upload_blob (present permits : bool) (answer : PutResult) : UploadOutcome :=
  if negb present then Skipped
  else if negb permits then Failed
  else match answer with PutOk => Uploaded | PutMissingSource => Skipped | PutError => Failed end.

(** [upload_action_result], given the outcomes of the prerequisites. *)
Definition upload_action_result (prerequisites : list UploadOutcome) (permits : bool)
    (answer : PutResult) : UploadOutcome :=
  if negb (forallb published prerequisites) then Skipped
  else if negb permits then Failed
  else match answer with PutOk => Uploaded | _ => Failed end.

(** [upload_pack]: the outcome of each member.  [receipt] is the server's
    answer to the framed request: accepted, refused or failed; a member that
    falls back is sent alone. *)
Inductive Receipt := Accepted | NotServed | PackFailed.

Definition upload_pack (present : PackMember -> bool) (permits : bool) (receipt : Receipt)
    (alone : PackMember -> UploadOutcome) (pack : list PackMember)
    : list (PackMember * UploadOutcome) :=
  let gone := List.filter (fun m => negb (present m)) pack in
  let here := List.filter present pack in
  map (fun m => (m, Skipped)) gone ++
  (if (length here <? 2)%nat then map (fun m => (m, alone m)) here
   else if negb permits then map (fun m => (m, Failed)) here
   else match receipt with
        | Accepted => map (fun m => (m, Uploaded)) here
        | _ => map (fun m => (m, alone m)) here
        end).

(** ** The queue *)

Inductive QueuedUpload :=
| Blob (digest : Digest) (done : nat)
| ActionResult (action : Digest) (prerequisites : list nat) (done : nat).

Definition is_blob (u : QueuedUpload) : bool := match u with Blob _ _ => true | _ => false end.

Record Queue := mkQueue {
  next : nat;
  outcomes : gmap nat UploadOutcome;
  digest_of : gmap nat Digest;
  blob_tickets : gmap Digest nat;
  action_tickets : gmap Digest nat;
  pending : list QueuedUpload;
  batch_blobs : list QueuedUpload;
  batch_results : list QueuedUpload;
  remote_blobs : gset Digest;
  remote_results : list (Digest * list nat)
}.

Definition empty_queue : Queue := mkQueue 0 ∅ ∅ ∅ ∅ [] [] [] ∅ [].

(** [queue_blob]: the existing ticket while it is in flight or published,
    else a new one; returns the ticket the connection records.  [peek] shows an
    outcome only once somebody has polled a clone of the ticket since it was
    sent; whether somebody has is [polled]. *)
Definition queue_blob (polled : nat -> bool) (q : Queue) (d : Digest) : Queue * nat :=
  let fresh :=
    (mkQueue (S (next q)) (outcomes q) (<[next q := d]> (digest_of q))
       (<[d := next q]> (blob_tickets q)) (action_tickets q) (pending q ++ [Blob d (next q)])
       (batch_blobs q) (batch_results q) (remote_blobs q) (remote_results q), next q) in
  match blob_tickets q !! d with
  | Some t =>
      match (if polled t then outcomes q !! t else None) with
      | None | Some Uploaded => (q, t)
      | _ => fresh
      end
  | None => fresh
  end.

(** [queue_action_result], with the connection's tickets. *)
Definition queue_action_result (q : Queue) (a : Digest) (connection : list nat) : Queue :=
  let prerequisites :=
    if bool_decide (connection = []) then (map_to_list (blob_tickets q)).*2 else connection in
  mkQueue (S (next q)) (outcomes q) (digest_of q) (blob_tickets q)
    (<[a := next q]> (action_tickets q))
    (pending q ++ [ActionResult a prerequisites (next q)])
    (batch_blobs q) (batch_results q) (remote_blobs q) (remote_results q).

(** [run]: take the whole queue; [run_batch] partitions it. *)
Definition take_batch (q : Queue) : Queue :=
  mkQueue (next q) (outcomes q) (digest_of q) (blob_tickets q) (action_tickets q) []
    (List.filter is_blob (pending q)) (List.filter (fun u => negb (is_blob u)) (pending q))
    (remote_blobs q) (remote_results q).

(** One blob of the batch reports an outcome.  The server has the blob if it
    accepted it; it may also have it although the answer was lost. *)
Definition settle_blob (q : Queue) (d : Digest) (t : nat) (rest : list QueuedUpload)
    (o : UploadOutcome) (stored : bool) : Queue :=
  mkQueue (next q) (<[t := o]> (outcomes q)) (digest_of q) (blob_tickets q) (action_tickets q)
    (pending q) rest (batch_results q)
    (if published o || stored then {[ d ]} ∪ remote_blobs q else remote_blobs q)
    (remote_results q).

(** One action result of the batch reports an outcome. *)
Definition settle_result (q : Queue) (a : Digest) (prerequisites : list nat) (t : nat)
    (rest : list QueuedUpload) (o : UploadOutcome) : Queue :=
  mkQueue (next q) (<[t := o]> (outcomes q)) (digest_of q) (blob_tickets q) (action_tickets q)
    (pending q) (batch_blobs q) rest (remote_blobs q)
    (if published o then (a, prerequisites) :: remote_results q else remote_results q).

(** The outcomes a result waits for, once all have one. *)
Definition awaited (q : Queue) (prerequisites : list nat) : option (list UploadOutcome) :=
  mapM (fun t => outcomes q !! t) prerequisites.

(** Every ticket a connection holds was handed out for a blob. *)
Definition blob_ticket (q : Queue) (t : nat) : Prop := is_Some (digest_of q !! t).

(** The outcome a blob of the batch may report: sent alone, or as a member of
    a pack whose members fall back to being sent alone. *)
Definition blob_report (d : Digest) (t : nat) (o : UploadOutcome) : Prop :=
  (exists present permits answer, o = upload_blob present permits answer) \/
  (exists present permits receipt answer pack,
     In (mkMember d t, o)
       (upload_pack present permits receipt
          (fun m => upload_blob (present m) permits (answer m)) pack)).

Inductive step : Queue -> Queue -> Prop :=
| step_queue_blob polled q d : step q (queue_blob polled q d).1
| step_queue_action q a connection :
    Forall (blob_ticket q) connection -> step q (queue_action_result q a connection)
| step_take q : batch_blobs q = [] -> batch_results q = [] -> step q (take_batch q)
| step_blob q before d t after o stored :
    batch_blobs q = before ++ Blob d t :: after -> blob_report d t o ->
    step q (settle_blob q d t (before ++ after) o stored)
| step_result q before a prerequisites t after permits answer os :
    batch_blobs q = [] ->
    batch_results q = before ++ ActionResult a prerequisites t :: after ->
    awaited q prerequisites = Some os ->
    step q (settle_result q a prerequisites t (before ++ after)
              (upload_action_result os permits answer)).

Definition reachable (q : Queue) : Prop := rtc step empty_queue q.

(** ** Packs: proofs *)

Definition pack_bytes (pack : list PackMember) : Z := sumZ (map member_size pack).

(** A pack the server accepts. *)
Definition pack_ok (limits : BlobPackLimits) (pack : list PackMember) : Prop :=
  (2 <= length pack)%nat /\ Z.of_nat (length pack) <= max_items limits /\
  pack_bytes pack <= max_bytes limits.

(** The pack being filled. *)
Definition filling (limits : BlobPackLimits) (current : list PackMember) (bytes : Z) : Prop :=
  bytes = pack_bytes current /\ bytes <= max_bytes limits /\
  ((length current <= 1)%nat \/ Z.of_nat (length current) <= max_items limits).

Lemma close_pack_spec limits current bytes acc :
  filling limits current bytes -> Forall (pack_ok limits) acc.1 ->
  Forall (pack_ok limits) (close_pack current acc).1 /\
  concat (close_pack current acc).1 ++ (close_pack current acc).2 ≡ₚ
    (concat acc.1 ++ acc.2) ++ current.
Proof.
  intros (Hb & Hle & Hn) Hacc. unfold close_pack. destruct (Nat.ltb_spec (length current) 2); simpl.
  - split; [done|]. by rewrite app_assoc.
  - split.
    + apply Forall_app. split; [done|]. constructor; [|done]. split_and!; [done|lia|lia].
    + rewrite concat_app. simpl. rewrite app_nil_r, <- !app_assoc. apply Permutation_app_head.
      apply Permutation_app_comm.
Qed.

Lemma pack_loop_spec limits members current bytes acc :
  0 <= max_bytes limits < u64_max -> Forall (fun m => is_u64 (member_size m)) members ->
  filling limits current bytes -> Forall (pack_ok limits) acc.1 ->
  Forall (pack_ok limits) (pack_loop limits members current bytes acc).1 /\
  concat (pack_loop limits members current bytes acc).1 ++
    (pack_loop limits members current bytes acc).2 ≡ₚ
    (concat acc.1 ++ acc.2) ++ current ++ members.
Proof.
  intros Hmax Hm. revert current bytes acc.
  induction Hm as [|m members [Hs0 Hs1] Hm IH]; intros current bytes acc Hf Hacc; cbn [pack_loop].
  { rewrite app_nil_r. by eapply close_pack_spec. }
  destruct (Z.ltb_spec (max_bytes limits) (member_size m)) as [Hbig|Hfit].
  { destruct (IH current bytes (acc.1, acc.2 ++ [m]) Hf Hacc) as [H1 H2]. split; [done|].
    rewrite H2. simpl. rewrite <- !app_assoc. do 2 apply Permutation_app_head. simpl.
    apply Permutation_middle. }
  assert (Hone : filling limits [m] (saturating_add 0 (member_size m))).
  { unfold filling, pack_bytes, saturating_add. simpl. unfold is_u64 in *. lia. }
  destruct Hf as (Hb & Hle & Hn).
  destruct (Z.leb_spec (max_items limits) (Z.of_nat (length current))) as [Hi|Hi]; simpl.
  - case_bool_decide as Hz; simpl.
    + destruct current; [|done]. destruct (IH [m] (saturating_add bytes (member_size m)) acc) as [H1 H2];
        [|done|by split; [|rewrite H2]]. rewrite Hb. exact Hone.
    + destruct (close_pack_spec limits current bytes acc) as [H1 H2]; [done..|].
      destruct (IH [m] (saturating_add 0 (member_size m)) (close_pack current acc)) as [H3 H4];
        [done..|]. split; [done|]. rewrite H4, H2. by rewrite <- !app_assoc.
  - destruct (Z.ltb_spec (max_bytes limits) (saturating_add bytes (member_size m))) as [Ho|Ho]; simpl.
    + case_bool_decide as Hz; simpl.
      * destruct current; [|done]. exfalso. unfold pack_bytes in Hb. simpl in Hb. subst bytes.
        unfold saturating_add in Ho. lia.
      * destruct (close_pack_spec limits current bytes acc) as [H1 H2]; [done..|].
        destruct (IH [m] (saturating_add 0 (member_size m)) (close_pack current acc)) as [H3 H4];
          [done..|]. split; [done|]. rewrite H4, H2. by rewrite <- !app_assoc.
    + destruct (IH (current ++ [m]) (saturating_add bytes (member_size m)) acc) as [H1 H2].
      * unfold saturating_add in *. unfold filling, pack_bytes. rewrite map_app, sumZ_app, length_app. simpl.
        unfold pack_bytes in Hb. split_and!; [lia|lia|right; lia].
      * done.
      * split; [done|]. rewrite H2. by rewrite <- !app_assoc.
Qed.

(** C39: packs respect the server.  Grouping loses and duplicates no blob, and
    every pack holds at least two blobs, at most the advertised number of items
    and at most the advertised bytes. *)
Theorem packs_partition_within_limits members limits :
  0 <= max_bytes limits < u64_max -> Forall (fun m => is_u64 (member_size m)) members ->
  let '(packs, singles) := group_into_packs members limits in
  concat packs ++ singles ≡ₚ members /\ Forall (pack_ok limits) packs.
Proof.
  intros Hmax Hm. unfold group_into_packs.
  destruct (pack_loop_spec limits members [] 0 ([], [])) as [H1 H2]; [done|done| |constructor|].
  { unfold filling, pack_bytes. simpl. split_and!; [done|lia|left; lia]. }
  destruct (pack_loop limits members [] 0 ([], [])) as [packs singles]. split; [|done]. done.
Qed.

(** ** The queue: proofs *)

Definition done_of (u : QueuedUpload) : nat := match u with Blob _ t => t | ActionResult _ _ t => t end.
Definition all_queued (q : Queue) : list QueuedUpload := pending q ++ batch_blobs q ++ batch_results q.

(** A prerequisite that has an outcome, or will get one from [blobs]. *)
Definition covered (q : Queue) (blobs : list QueuedUpload) (t : nat) : Prop :=
  is_Some (outcomes q !! t) \/ exists d, In (Blob d t) blobs.

Record queue_inv (q : Queue) : Prop := {
  qi_next : forall t, is_Some (digest_of q !! t) \/ is_Some (outcomes q !! t) \/
    In t (map done_of (all_queued q)) -> (t < next q)%nat;
  qi_nodup : NoDup (map done_of (all_queued q));
  qi_unsettled : forall u, In u (all_queued q) -> outcomes q !! done_of u = None;
  qi_digest : forall d t, In (Blob d t) (all_queued q) -> digest_of q !! t = Some d;
  qi_tickets : forall d t, blob_tickets q !! d = Some t -> digest_of q !! t = Some d;
  qi_waiting : forall t d, digest_of q !! t = Some d -> outcomes q !! t = None ->
    In (Blob d t) (pending q ++ batch_blobs q);
  qi_results : forall a ps t, In (ActionResult a ps t) (all_queued q) ->
    Forall (blob_ticket q) ps /\ digest_of q !! t = None;
  qi_batch : forall a ps t, In (ActionResult a ps t) (batch_results q) ->
    Forall (covered q (batch_blobs q)) ps;
  qi_kind : (forall u, In u (batch_blobs q) -> is_blob u = true) /\
    (forall u, In u (batch_results q) -> is_blob u = false);
  qi_visible : forall t d, digest_of q !! t = Some d -> outcomes q !! t = Some Uploaded ->
    d ∈ remote_blobs q;
  qi_published : forall a ps, In (a, ps) (remote_results q) ->
    Forall (fun t => blob_ticket q t /\ outcomes q !! t = Some Uploaded) ps
}.

Lemma queue_inv_empty : queue_inv empty_queue.
Proof.
  split; unfold all_queued; simpl; try done; try (intros *; by rewrite lookup_empty).
  - intros t [[? H]|[[? H]|[]]]; by rewrite lookup_empty in H.
  - constructor.
Qed.

Lemma fresh_ticket q :
  queue_inv q -> digest_of q !! next q = None /\ outcomes q !! next q = None /\
  ~ In (next q) (map done_of (all_queued q)).
Proof.
  intros Hi. split_and!.
  - destruct (digest_of q !! next q) eqn:E; [|done].
    pose proof (qi_next q Hi (next q) (or_introl (mk_is_Some _ _ E))). lia.
  - destruct (outcomes q !! next q) eqn:E; [|done].
    pose proof (qi_next q Hi (next q) (or_intror (or_introl (mk_is_Some _ _ E)))). lia.
  - intros Hin. pose proof (qi_next q Hi (next q) (or_intror (or_intror Hin))). lia.
Qed.

Lemma all_queued_push q u n os ds bt at_ :
  all_queued (mkQueue n os ds bt at_ (pending q ++ [u]) (batch_blobs q) (batch_results q)
    (remote_blobs q) (remote_results q)) ≡ₚ u :: all_queued q.
Proof.
  unfold all_queued. simpl. rewrite <- app_assoc. simpl. symmetry. apply Permutation_middle.
Qed.

Lemma In_perm {A} (x : A) l k : l ≡ₚ k -> In x l <-> In x k.
Proof. intros Hp. split; apply Permutation_in; [done|by symmetry]. Qed.

Lemma queue_inv_blob polled q d : queue_inv q -> queue_inv (queue_blob polled q d).1.
Proof.
  intros Hi. unfold queue_blob.
  set (fresh := mkQueue _ _ _ _ _ _ _ _ _ _).
  assert (Hf : queue_inv fresh).
  2: { repeat case_match; done. }
  destruct (fresh_ticket q Hi) as (Hnd & Hno & Hnt).
  assert (Hp : all_queued fresh ≡ₚ Blob d (next q) :: all_queued q) by apply all_queued_push.
  assert (Hin : forall u, In u (all_queued fresh) <-> u = Blob d (next q) \/ In u (all_queued q)).
  { intros u. rewrite (In_perm u _ _ Hp). simpl. split; intros [?|?]; auto. }
  pose proof Hi as [H1 H2 H3 H4 H5 H6 H7 H8 H9 H10 H11].
  assert (Hds : forall t e, digest_of fresh !! t = Some e <->
    (t = next q /\ e = d) \/ (t <> next q /\ digest_of q !! t = Some e)).
  { intros t e. simpl. rewrite lookup_insert_Some. split; intros [[? ?]|[? ?]]; auto. }
  assert (Hbt : forall t, blob_ticket q t -> blob_ticket fresh t).
  { intros t [e He]. destruct (decide (t = next q)) as [->|Hne]; [congruence|].
    exists e. apply Hds. auto. }
  split.
  - intros t Ht. simpl. cut (t = next q \/ (t < next q)%nat); [lia|].
    destruct Ht as [[e He]|[Ht|Ht]].
    + apply Hds in He as [[-> _]|[_ He]]; [by left|right]. apply H1. left. by exists e.
    + right. apply H1. right. by left.
    + apply in_map_iff in Ht as (u & <- & Hu). apply Hin in Hu as [->|Hu]; [by left|right].
      apply H1. right. right. by apply in_map.
  - rewrite (Permutation_map done_of Hp). simpl. apply NoDup_cons. split; [|done].
    intros Hc%list_elem_of_In. done.
  - intros u Hu. apply Hin in Hu as [->|Hu]; [done|by apply H3].
  - intros e t Hu. apply Hds. apply Hin in Hu as [[= -> ->]|Hu]; [by left|right].
    split; [|by apply H4]. intros ->. apply H4 in Hu. congruence.
  - intros e t. simpl. rewrite lookup_insert_Some. intros [[<- <-]|[Hne He]].
    + by rewrite lookup_insert_eq.
    + apply H5 in He. rewrite lookup_insert_ne; [done|]. congruence.
  - intros t e He Ho. simpl. rewrite !in_app_iff. apply Hds in He as [[-> ->]|[_ He]].
    + left. right. by left.
    + apply H6 in He; [|done]. apply in_app_iff in He as [?|?]; auto.
  - intros a ps t Hu. apply Hin in Hu as [?|Hu]; [done|].
    pose proof (H7 _ _ _ Hu) as [Hps Ht]. split; [eapply Forall_impl; [exact Hps|done]|].
    destruct (digest_of fresh !! t) eqn:E; [|done]. apply Hds in E as [[-> _]|[_ E]]; [|congruence].
    exfalso. apply Hnt. by apply (in_map done_of _ _ Hu).
  - done.
  - done.
  - intros t e He Ho. apply Hds in He as [[-> _]|[_ He]]; [simpl in Ho; congruence|by eapply H10].
  - intros a ps Hu. eapply Forall_impl; [by eapply H11|]. intros t [Ht Ho]. split; [by apply Hbt|done].
Qed.

Lemma queue_inv_action q a connection :
  Forall (blob_ticket q) connection -> queue_inv q ->
  queue_inv (queue_action_result q a connection).
Proof.
  intros Hc Hi. unfold queue_action_result.
  set (ps := if bool_decide (connection = []) then _ else connection).
  assert (Hps : Forall (blob_ticket q) ps).
  { subst ps. case_bool_decide; [|done]. apply Forall_forall.
    intros t ([d t'] & -> & Ht)%list_elem_of_fmap. apply elem_of_map_to_list in Ht.
    exists d. by eapply (qi_tickets q Hi). }
  destruct (fresh_ticket q Hi) as (Hnd & Hno & Hnt). set (fresh := mkQueue _ _ _ _ _ _ _ _ _ _).
  assert (Hp : all_queued fresh ≡ₚ ActionResult a ps (next q) :: all_queued q) by apply all_queued_push.
  assert (Hin : forall u, In u (all_queued fresh) <-> u = ActionResult a ps (next q) \/ In u (all_queued q)).
  { intros u. rewrite (In_perm u _ _ Hp). simpl. split; intros [?|?]; auto. }
  pose proof Hi as [H1 H2 H3 H4 H5 H6 H7 H8 H9 H10 H11].
  split; try done.
  - intros t Ht. simpl. cut (t = next q \/ (t < next q)%nat); [lia|].
    destruct Ht as [Ht|[Ht|Ht]]; [right; apply H1; by left|right; apply H1; right; by left|].
    apply in_map_iff in Ht as (u & <- & Hu). apply Hin in Hu as [->|Hu]; [by left|right].
    apply H1. right. right. by apply in_map.
  - rewrite (Permutation_map done_of Hp). simpl. apply NoDup_cons. split; [|done].
    intros Hx%list_elem_of_In. done.
  - intros u Hu. apply Hin in Hu as [->|Hu]; [done|by apply H3].
  - intros d t Hu. apply Hin in Hu as [?|Hu]; [done|by apply H4].
  - intros t d Hd Ho. specialize (H6 t d Hd Ho). simpl. rewrite !in_app_iff in *. tauto.
  - intros b ps' t Hu. apply Hin in Hu as [[= -> -> ->]|Hu]; [done|by eapply H7].
Qed.

Lemma filter_partition {A} (p : A -> bool) l :
  List.filter p l ++ List.filter (fun a => negb (p a)) l ≡ₚ l.
Proof.
  induction l as [|a l IH]; simpl; [done|]. destruct (p a); simpl; [by rewrite IH|].
  rewrite <- Permutation_middle. by rewrite IH.
Qed.

Lemma queue_inv_take q :
  batch_blobs q = [] -> batch_results q = [] -> queue_inv q -> queue_inv (take_batch q).
Proof.
  intros Hb Hr Hi. pose proof Hi as [H1 H2 H3 H4 H5 H6 H7 H8 H9 H10 H11].
  assert (Hold : all_queued q = pending q) by (unfold all_queued; by rewrite Hb, Hr, !app_nil_r).
  assert (Hp : all_queued (take_batch q) ≡ₚ all_queued q).
  { rewrite Hold. unfold all_queued. simpl. apply filter_partition. }
  assert (Hin : forall u, In u (all_queued (take_batch q)) <-> In u (all_queued q))
    by (intros u; by apply In_perm).
  split; try done.
  - intros t Ht. apply H1. destruct Ht as [?|[?|Ht]]; [by left|right; by left|right; right].
    by rewrite <- (In_perm _ _ _ (Permutation_map done_of Hp)).
  - by rewrite (Permutation_map done_of Hp).
  - intros u Hu. apply H3. by apply Hin.
  - intros d t Hu. apply H4. by apply Hin.
  - intros t d Hd Ho. specialize (H6 t d Hd Ho). rewrite Hb, app_nil_r in H6. simpl.
    by apply filter_In.
  - intros a ps t Hu. apply (H7 a ps t). by apply Hin.
  - intros a ps t [Hu _]%filter_In. assert (Hq : In (ActionResult a ps t) (all_queued q)) by (by rewrite Hold).
    apply H7 in Hq as [Hps _]. eapply Forall_impl; [exact Hps|]. intros t' [d Hd].
    destruct (outcomes q !! t') eqn:Ho; [left; by eexists|right]. exists d. simpl. apply filter_In.
    specialize (H6 t' d Hd Ho). rewrite Hb, app_nil_r in H6. done.
  - split; intros u [_ Hu]%filter_In; [done|]. by apply negb_true_iff in Hu.
Qed.

(** Settling the ticket of one queued upload [u]. *)
Lemma settle_facts q u rest :
  queue_inv q -> all_queued q ≡ₚ u :: rest ->
  (forall v, In v rest -> In v (all_queued q) /\ done_of v <> done_of u) /\
  NoDup (map done_of rest) /\ outcomes q !! done_of u = None.
Proof.
  intros Hi Hp. pose proof (qi_nodup q Hi) as Hn. rewrite (Permutation_map done_of Hp) in Hn.
  simpl in Hn. apply NoDup_cons in Hn as [Hu Hn]. split_and!; [|done|].
  - intros v Hv. split; [apply (In_perm v _ _ Hp); by right|].
    intros Heq. apply Hu. rewrite <- Heq. apply list_elem_of_In. by apply in_map.
  - apply (qi_unsettled q Hi). apply (In_perm u _ _ Hp). by left.
Qed.

Lemma covered_settle q blobs blobs' t o n ds bt at_ pe bb br rb rr t' :
  (forall d, In (Blob d t') blobs -> t' = t \/ In (Blob d t') blobs') ->
  covered q blobs t' ->
  covered (mkQueue n (<[t := o]> (outcomes q)) ds bt at_ pe bb br rb rr) blobs' t'.
Proof.
  intros Hb [[x Hx]|(d & Hd)].
  - left. simpl. destruct (decide (t = t')) as [<-|Hne].
    + rewrite lookup_insert_eq. by eexists.
    + rewrite lookup_insert_ne by done. by eexists.
  - destruct (Hb d Hd) as [->|Hd']; [left|right; by exists d]. simpl. rewrite lookup_insert_eq. by eexists.
Qed.

Lemma queue_inv_settle_blob q before d t after o stored :
  queue_inv q -> batch_blobs q = before ++ Blob d t :: after ->
  queue_inv (settle_blob q d t (before ++ after) o stored).
Proof.
  intros Hi Hb. set (q' := settle_blob _ _ _ _ _ _).
  assert (Hp : all_queued q ≡ₚ Blob d t :: all_queued q').
  { unfold all_queued. rewrite Hb. simpl. rewrite <- !app_assoc. simpl.
    rewrite <- !Permutation_middle. done. }
  destruct (settle_facts q _ _ Hi Hp) as (Hrest & Hnd & Hnone). simpl in Hnone.
  pose proof Hi as [H1 H2 H3 H4 H5 H6 H7 H8 H9 H10 H11].
  assert (Hd : digest_of q !! t = Some d).
  { apply H4. apply (In_perm _ _ _ Hp). by left. }
  assert (Hsplit : forall u, In u (batch_blobs q) -> u = Blob d t \/ In u (before ++ after)).
  { intros u Hu. rewrite Hb in Hu. apply in_app_iff in Hu as [Hu|[<-|Hu]]; rewrite in_app_iff; auto. }
  split; try done.
  - intros t' [Ht|[Ht|Ht]]; [apply H1; by left| |].
    + simpl in Ht. destruct (decide (t = t')) as [<-|Hne]; [apply H1; left; by exists d|].
      rewrite lookup_insert_ne in Ht by done. apply H1. right. by left.
    + apply in_map_iff in Ht as (u & <- & Hu). apply H1. right. right. apply in_map. by apply Hrest.
  - intros u Hu. apply Hrest in Hu as [Hu Hne]. simpl. rewrite lookup_insert_ne by done. by apply H3.
  - intros e t' Hu. apply H4. by apply Hrest.
  - intros t' e He Ho. simpl in *. apply lookup_insert_None in Ho as [Ho Hne].
    specialize (H6 t' e He Ho). rewrite in_app_iff in *. destruct H6 as [?|Hu]; [by left|right].
    apply Hsplit in Hu as [[= -> ->]|?]; done.
  - intros a ps t' Hu. apply (H7 a ps t'). by apply Hrest.
  - intros a ps t' Hu. eapply Forall_impl; [by eapply H8|]. intros x Hx.
    eapply covered_settle; [|exact Hx]. intros e He. apply Hsplit in He as [[= -> ->]|?]; auto.
  - destruct H9 as [Hk1 Hk2]. split; [|done]. simpl. intros u Hu. apply Hk1. rewrite Hb.
    rewrite in_app_iff in *. simpl. tauto.
  - intros t' e He Ho. simpl in *. apply lookup_insert_Some in Ho as [[<- ->]|[Hne Ho]].
    + simpl. rewrite Hd in He. injection He as ->. set_solver.
    + specialize (H10 t' e He Ho). destruct (published o || stored); set_solver.
  - intros a ps Hu. eapply Forall_impl; [by eapply H11|]. intros x [Hx Ho]. split; [done|]. simpl.
    rewrite lookup_insert_ne; [done|]. intros ->. congruence.
Qed.

Lemma awaited_published q ps os :
  awaited q ps = Some os -> forallb published os = true ->
  Forall (fun t => outcomes q !! t = Some Uploaded) ps.
Proof.
  unfold awaited. revert os. induction ps as [|t ps IH]; intros os Ha Hf; [constructor|].
  simpl in Ha. destruct (outcomes q !! t) as [o|] eqn:Ho; [|done]. simpl in Ha.
  destruct (mapM _ ps) as [os'|] eqn:Hm; [|done]. simpl in Ha. injection Ha as <-. simpl in Hf.
  apply andb_true_iff in Hf as [Hp Hf]. constructor; [|by eapply IH].
  destruct o; [done|done|done].
Qed.

Lemma queue_inv_settle_result q before a ps t after permits answer os :
  queue_inv q -> batch_results q = before ++ ActionResult a ps t :: after ->
  awaited q ps = Some os ->
  queue_inv (settle_result q a ps t (before ++ after) (upload_action_result os permits answer)).
Proof.
  intros Hi Hb Hos. set (o := upload_action_result _ _ _). set (q' := settle_result _ _ _ _ _ _).
  assert (Hp : all_queued q ≡ₚ ActionResult a ps t :: all_queued q').
  { unfold all_queued. rewrite Hb. simpl. rewrite <- !Permutation_middle. done. }
  destruct (settle_facts q _ _ Hi Hp) as (Hrest & Hnd & Hnone). simpl in Hnone.
  pose proof Hi as [H1 H2 H3 H4 H5 H6 H7 H8 H9 H10 H11].
  assert (Hself : In (ActionResult a ps t) (all_queued q)).
  { apply (In_perm _ _ _ Hp). by left. }
  destruct (H7 _ _ _ Hself) as [Hps Hnt].
  split; try done.
  - intros t' [Ht|[Ht|Ht]]; [apply H1; by left| |].
    + simpl in Ht. destruct (decide (t = t')) as [<-|Hne].
      * apply H1. right. right. by apply (in_map done_of _ _ Hself).
      * rewrite lookup_insert_ne in Ht by done. apply H1. right. by left.
    + apply in_map_iff in Ht as (u & <- & Hu). apply H1. right. right. apply in_map. by apply Hrest.
  - intros u Hu. apply Hrest in Hu as [Hu Hne]. simpl. rewrite lookup_insert_ne by done. by apply H3.
  - intros e t' Hu. apply H4. by apply Hrest.
  - intros t' e He Ho. simpl in *. apply lookup_insert_None in Ho as [Ho Hne]. by apply H6.
  - intros b ps' t' Hu. apply (H7 b ps' t'). by apply Hrest.
  - intros b ps' t' Hu. eapply Forall_impl; [apply (H8 b ps' t')|].
    + rewrite Hb. simpl in Hu. rewrite in_app_iff in *. simpl. tauto.
    + intros x Hx. eapply covered_settle; [|exact Hx]. intros e He. by right.
  - destruct H9 as [Hk1 Hk2]. split; [done|]. simpl. intros u Hu. apply Hk2. rewrite Hb.
    rewrite in_app_iff in *. simpl. tauto.
  - intros t' e He Ho. simpl in *. apply lookup_insert_Some in Ho as [[<- _]|[Hne Ho]]; [congruence|].
    by eapply H10.
  - assert (Hkeep : forall x, outcomes q !! x = Some Uploaded -> outcomes q' !! x = Some Uploaded).
    { intros x Hx. simpl. rewrite lookup_insert_ne; [done|]. intros ->. congruence. }
    intros b ps' Hu. simpl in Hu.
    assert (Hnew : published o = true -> Forall (fun x => outcomes q !! x = Some Uploaded) ps).
    { unfold o, upload_action_result. destruct (forallb published os) eqn:Hf; [|done]. intros _.
      by eapply awaited_published. }
    destruct (published o); [destruct Hu as [[= -> ->]|Hu]|].
    + apply Forall_and. split; [done|]. eapply Forall_impl; [by apply Hnew|]. auto.
    + eapply Forall_impl; [by eapply H11|]. intros x [? ?]; auto.
    + eapply Forall_impl; [by eapply H11|]. intros x [? ?]; auto.
Qed.

Lemma upload_inv_reachable q : reachable q -> queue_inv q.
Proof.
  apply (rtc_ind_r (fun q => queue_inv q)); [apply queue_inv_empty|].
  intros q1 q2 _ Hstep Hi. destruct Hstep.
  - by apply queue_inv_blob.
  - by apply queue_inv_action.
  - by apply queue_inv_take.
  - by apply queue_inv_settle_blob.
  - by eapply queue_inv_settle_result.
Qed.

(** C18: an action result is never visible before its blobs.  In every reachable
    state of the upload queue, whatever the server answers, however the packs
    fall back and in whichever order uploads finish, each published action
    result's prerequisites are tickets of blobs the server holds. *)
Theorem published_results_are_complete q a ps :
  reachable q -> In (a, ps) (remote_results q) ->
  Forall (fun t => exists d, digest_of q !! t = Some d /\ d ∈ remote_blobs q) ps.
Proof.
  intros Hi%upload_inv_reachable Hin. eapply Forall_impl; [by eapply (qi_published q Hi)|].
  intros t [[d Hd] Ho]. exists d. split; [done|]. by eapply (qi_visible q Hi).
Qed.

(** C38: publication does not deadlock.  Once a batch's blobs have reported,
    every action result of the batch has the outcome of all its prerequisites,
    so the worker always has a step to take. *)
Theorem batch_never_deadlocks q u :
  reachable q -> batch_blobs q = [] -> In u (batch_results q) ->
  exists a ps t os, u = ActionResult a ps t /\ awaited q ps = Some os.
Proof.
  intros Hi%upload_inv_reachable Hb Hin. destruct (qi_kind q Hi) as [_ Hk].
  destruct u as [d t|a ps t]; [by apply Hk in Hin|]. exists a, ps, t.
  pose proof (qi_batch q Hi _ _ _ Hin) as Hc. rewrite Hb in Hc.
  assert (exists os, awaited q ps = Some os) as [os Hos]; [|by exists os].
  unfold awaited. clear Hin. induction Hc as [|x ps [[o Ho]|[d []]] Hc [os IH]]; [by exists []|].
  exists (o :: os). simpl. rewrite Ho. simpl. by rewrite IH.
Qed.

(** ** Witnesses *)

Definition demo_blob (n : Z) : Digest := mkDigest "blake3" "" n.
Definition demo_limits : BlobPackLimits := mkLimits 2 100.
Definition demo_members : list PackMember :=
  [mkMember (demo_blob 40) 0; mkMember (demo_blob 50) 1; mkMember (demo_blob 30) 2;
   mkMember (demo_blob 200) 3; mkMember (demo_blob 60) 4].

Lemma packs_partition_within_limits_witness :
  exists packs singles, group_into_packs demo_members demo_limits = (packs, singles) /\
  length packs = 2%nat /\ length singles = 1%nat /\
  concat packs ++ singles ≡ₚ demo_members /\ Forall (pack_ok demo_limits) packs.
Proof.
  pose proof (packs_partition_within_limits demo_members demo_limits) as H.
  destruct (group_into_packs demo_members demo_limits) as [packs singles] eqn:E.
  exists packs, singles. split; [done|].
  assert (length packs = 2%nat /\ length singles = 1%nat) as [H1 H2]
    by (vm_compute in E; injection E as <- <-; done).
  split; [done|]. split; [done|]. apply H.
  - vm_compute. done.
  - apply (bool_decide_eq_true_1 _). vm_compute. done.
Defined.

(** Two blobs are stored, then an action result that needs both, while a third
    blob fails together with the result that needs it; nobody has polled a
    ticket yet. *)
Definition unpolled (t : nat) : bool := false.
Definition demo_q1 : Queue :=
  queue_action_result
    (queue_blob unpolled (queue_action_result
       (queue_blob unpolled (queue_blob unpolled empty_queue (demo_blob 1)).1 (demo_blob 2)).1
       (demo_blob 9) [0; 1]%nat) (demo_blob 3)).1 (demo_blob 8) [0; 3]%nat.
Definition demo_q2 : Queue :=
  settle_blob (settle_blob (settle_blob (take_batch demo_q1) (demo_blob 2) 1
    [Blob (demo_blob 1) 0; Blob (demo_blob 3) 3] Uploaded true)
    (demo_blob 1) 0 [Blob (demo_blob 3) 3] Uploaded true)
    (demo_blob 3) 3 [] Failed false.
Definition demo_q3 : Queue :=
  settle_result demo_q2 (demo_blob 9) [0; 1]%nat 2
    [ActionResult (demo_blob 8) [0; 3]%nat 4] Uploaded.

Lemma demo_q2_reachable : reachable demo_q2.
Proof.
  assert (Hsent : forall d t, blob_report d t Uploaded)
    by (intros; left; by exists true, true, PutOk).
  assert (Hq1 : reachable demo_q1).
  { unfold demo_q1, reachable. eapply rtc_r; [|apply step_queue_action; 
      apply (bool_decide_eq_true_1 (Forall (fun t => is_Some (digest_of _ !! t)) _)); vm_compute; done].
    eapply rtc_r; [|apply step_queue_blob].
    eapply rtc_r; [|apply step_queue_action; 
      apply (bool_decide_eq_true_1 (Forall (fun t => is_Some (digest_of _ !! t)) _)); vm_compute; done].
    eapply rtc_r; [|apply step_queue_blob]. eapply rtc_r; [|apply step_queue_blob]. apply rtc_refl. }
  unfold demo_q2, reachable.
  eapply rtc_r; [|eapply (step_blob _ [] (demo_blob 3) 3 [] Failed false); [done|]].
  - eapply rtc_r; [|eapply (step_blob _ [] (demo_blob 1) 0 [Blob (demo_blob 3) 3] Uploaded true); done].
    eapply rtc_r; [|eapply (step_blob _ [Blob (demo_blob 1) 0] (demo_blob 2) 1
      [Blob (demo_blob 3) 3] Uploaded true); done].
    eapply rtc_r; [exact Hq1|]. by apply step_take.
  - left. by exists true, true, PutError.
Qed.

Lemma demo_q3_reachable : reachable demo_q3.
Proof.
  eapply rtc_r; [apply demo_q2_reachable|].
  apply (step_result demo_q2 [] (demo_blob 9) [0; 1]%nat 2 [ActionResult (demo_blob 8) [0; 3]%nat 4]
    true PutOk [Uploaded; Uploaded]); done.
Qed.

Lemma published_results_are_complete_witness :
  Forall (fun t => exists d, digest_of demo_q3 !! t = Some d /\ d ∈ remote_blobs demo_q3) [0; 1]%nat.
Proof.
  apply (published_results_are_complete demo_q3 (demo_blob 9) [0; 1]%nat).
  - apply demo_q3_reachable.
  - vm_compute. by left.
Defined.

Lemma batch_never_deadlocks_witness :
  exists a ps t os, ActionResult (demo_blob 8) [0; 3]%nat 4 = ActionResult a ps t /\
    awaited demo_q3 ps = Some os.
Proof.
  apply (batch_never_deadlocks demo_q3).
  - apply demo_q3_reachable.
  - done.
  - vm_compute. by left.
Defined.
