(* ===== verification/CriticalPath.v ===== *)
(** * The critical path of a recorded build

    Models [src/crates/mbx/src/analyze/critical_path.rs]: the units a session
    recorded ([nodes]), the walk back from the unit that finished last
    ([CriticalPath::of]) and the sweep that charges time with one unit running
    ([alone]).  Unit ids are strings in byte order, times are [u64]
    microseconds.  The walk has the number of recorded units as fuel, one
    more than the steps it can take since every step visits a new unit.

    The theorems: the walk always ends and is a chain of dependencies without
    repetition, each the one that was ready last; its spans add up to the path
    when no dependency starts after its dependent; and the sweep's charges are
    exactly the instants at which one unit was running. *)

From stdpp Require Import base list list_numbers gmap strings sorting.
From Stdlib Require Import ZArith Lia.
From S2P Require Import Prelude.
Local Open Scope Z_scope.

(** ** Events and units *)

Record WrapperTiming := mkTiming {
  adapter : string;
  timing_unit : option string;
  unit_id : option string;
  timing_start_us : Z;
  duration_ns : Z;
  timing_dependencies : list string
}.

Inductive SessionEvent := WrapperTimed (timing : WrapperTiming) | OtherEvent.

Record Node := mkNode {
  label : string;
  start_us : Z;
  end_us : Z;
  dependencies : list string
}.

Definition node_of (t : WrapperTiming) : Node :=
  mkNode (default (adapter t) (timing_unit t)) (timing_start_us t)
    (saturating_add (timing_start_us t) (duration_ns t / 1000)) (timing_dependencies t).

Definition insert_event (m : gmap string Node) (e : SessionEvent) : gmap string Node :=
  match e with
  | WrapperTimed t => match unit_id t with Some i => <[i := node_of t]> m | None => m end
  | OtherEvent => m
  end.

Definition ends_with (suffix s : string) : bool :=
  (String.length suffix <=? String.length s)%nat &&
  bool_decide (String.substring (String.length s - String.length suffix) (String.length suffix) s = suffix).

Definition renames (m : gmap string Node) : list (string * string) :=
  List.flat_map (fun e =>
    if ends_with " build script" (label e.2)
    then map (fun d => (d, (label e.2 ++ " (compile)")%string)) (dependencies e.2)
    else []) (entries m).

Definition rename (m : gmap string Node) (r : string * string) : gmap string Node :=
  match m !! r.1 with
  | Some n =>
      if String.prefix "build_script_" (label n)
      then <[r.1 := mkNode r.2 (start_us n) (end_us n) (dependencies n)]> m else m
  | None => m
  end.

Definition nodes (events : list SessionEvent) : gmap string Node :=
  let m := fold_left insert_event events ∅ in
  fold_left rename (renames m) m.

(** ** The walk *)

(** [Iterator::max] and [max_by_key]: the last greatest element. *)
Definition max_of {A} (le : A -> A -> bool) (l : list A) : option A :=
  match l with
  | [] => None
  | a :: l => Some (fold_left (fun best b => if le best b then b else best) l a)
  end.

Definition candidate : Type := Z * Z * string.

Definition candidate_le (a b : candidate) : bool :=
  match a.1.1 ?= b.1.1 with
  | Lt => true
  | Gt => false
  | Eq =>
      match a.1.2 ?= b.1.2 with Lt => true | Gt => false | Eq => String.leb a.2 b.2 end
  end.

Definition last_le (a b : string * Node) : bool :=
  match end_us a.2 ?= end_us b.2 with Lt => true | Gt => false | Eq => String.leb a.1 b.1 end.

Definition ready (m : gmap string Node) (seen : gset string) (current : Node) : list candidate :=
  omap (fun d =>
    match m !! d with
    | Some n =>
        if bool_decide (d ∈ seen) then None
        else Some (Z.min (end_us n) (start_us current), end_us n, d)
    | None => None
    end) (dependencies current).

(** One unit of [chain] with its entry of [handoffs]. *)
Record Visit := mkVisit { visit_id : string; visit_node : Node; handoff : Z }.

Fixpoint walk (fuel : nat) (m : gmap string Node) (seen : gset string) (id : string) (current : Node)
    : option (list Visit) :=
  match fuel with
  | O => None
  | S fuel =>
      match max_of candidate_le (ready m seen current) with
      | None => Some [mkVisit id current (start_us current)]
      | Some c =>
          match m !! c.2 with
          | None => None
          | Some n =>
              match walk fuel m ({[ c.2 ]} ∪ seen) c.2 n with
              | Some rest => Some (mkVisit id current c.1.1 :: rest)
              | None => None
              end
          end
      end
  end.

Record Step := mkStep { step_label : string; step_span_us : Z; waited_us : Z }.

(** The loop over [chain.zip(handoffs)]: the steps, and the last boundary. *)
Fixpoint steps_of (boundary : Z) (visits : list Visit) : list Step * Z :=
  match visits with
  | [] => ([], boundary)
  | v :: visits =>
      let '(steps, last) := steps_of (handoff v) visits in
      (mkStep (label (visit_node v)) (saturating_sub boundary (handoff v))
         (saturating_sub (start_us (visit_node v)) (handoff v)) :: steps, last)
  end.

(** ** The sweep *)

Definition Edge : Type := Z * bool * string.

Definition edge_le (a b : Edge) : Prop :=
  a.1.1 < b.1.1 \/
  (a.1.1 = b.1.1 /\ ((a.1.2 = false /\ b.1.2 = true) \/ (a.1.2 = b.1.2 /\ String.leb a.2 b.2 = true))).

#[export] Instance edge_le_dec : RelDecision edge_le.
Proof. intros a b. unfold edge_le. apply _. Defined.

Definition edges (m : gmap string Node) : list Edge :=
  merge_sort edge_le
    (List.flat_map (fun e => [(start_us e.2, false, e.1); (end_us e.2, true, e.1)]) (entries m)).

Definition add_to (m : gmap string Z) (k : string) (d : Z) : gmap string Z :=
  <[k := default 0 (m !! k) + d]> m.

(** The unit running alone. *)
Definition only (running : gset string) : option string :=
  match elements running with [id] => Some id | _ => None end.

Fixpoint sweep (es : list Edge) (running : gset string) (charged : gmap string Z) (previous : Z)
    : gmap string Z :=
  match es with
  | [] => charged
  | e :: es =>
      let charged :=
        match only running with
        | Some id => add_to charged id (saturating_sub e.1.1 previous)
        | None => charged
        end in
      let running := if e.1.2 then running ∖ {[ e.2 ]} else {[ e.2 ]} ∪ running in
      sweep es running charged e.1.1
  end.

Definition charges (m : gmap string Node) : gmap string Z :=
  sweep (edges m) ∅ ∅ match edges m with e :: _ => e.1.1 | [] => 0 end.

Definition label_of (m : gmap string Node) (id : string) : string :=
  match m !! id with Some n => label n | None => "" end.

Definition ranks_before (a b : string * Z) : Prop :=
  b.2 < a.2 \/ (a.2 = b.2 /\ String.leb a.1 b.1 = true).
#[export] Instance ranks_before_dec : RelDecision ranks_before.
Proof. intros a b. unfold ranks_before. apply _. Defined.

Definition by_label (m : gmap string Node) : gmap string Z :=
  fold_left (fun acc e => add_to acc (label_of m e.1) e.2) (entries (charges m)) ∅.

Definition alone (m : gmap string Node) : list (string * Z) * Z :=
  (merge_sort ranks_before (List.filter (fun e => 0 <? e.2) (entries (by_label m))),
   sumZ (entries (charges m)).*2).

(** ** The whole analysis *)

Record CriticalPath := mkPath {
  steps : list Step;
  path_us : Z;
  span_us : Z;
  alone_units : list (string * Z);
  alone_us : Z
}.

Definition min_start (m : gmap string Node) : option Z :=
  match entries m with
  | [] => None
  | e :: l => Some (fold_left (fun best f => Z.min best (start_us f.2)) l (start_us e.2))
  end.

Definition critical_path_of (events : list SessionEvent) : option CriticalPath :=
  let m := nodes events in
  match max_of last_le (entries m) with
  | None => None
  | Some (id, last) =>
      match walk (size m) m {[ id ]} id last with
      | None => None
      | Some visits =>
          let '(steps, boundary) := steps_of (end_us last) visits in
          match min_start m with
          | None => None
          | Some first =>
              Some (mkPath (rev steps) (saturating_sub (end_us last) boundary)
                      (saturating_sub (end_us last) first) (alone m).1 (alone m).2)
          end
      end
  end.

(** ** The walk: proofs *)

Lemma max_of_Some {A} (le : A -> A -> bool) a l : exists c, max_of le (a :: l) = Some c /\ In c (a :: l).
Proof.
  simpl. revert a. induction l as [|b l IH]; intros a; simpl.
  { exists a. auto. }
  destruct (IH (if le a b then b else a)) as (c & Hc & Hin). exists c. split; [done|].
  destruct (le a b); destruct Hin as [<-|Hin]; auto.
Qed.

Lemma max_of_In {A} (le : A -> A -> bool) l c : max_of le l = Some c -> In c l.
Proof.
  destruct l as [|a l]; [done|]. destruct (max_of_Some le a l) as (c' & Hc & Hin). congruence.
Qed.

Lemma max_of_None {A} (le : A -> A -> bool) l : max_of le l = None <-> l = [].
Proof. destruct l as [|a l]; [done|]. destruct (max_of_Some le a l) as (c & -> & _). done. Qed.

(** A measure [f] that [le] respects is maximal at the maximum. *)
Lemma max_of_measure {A} (le : A -> A -> bool) (f : A -> Z) l c :
  (forall a b, if le a b then f a <= f b else f b <= f a) -> max_of le l = Some c ->
  Forall (fun a => f a <= f c) l.
Proof.
  intros Hle. destruct l as [|a l]; [done|]. simpl. intros [= <-]. revert a.
  induction l as [|b l IH]; intros a; simpl.
  { constructor; [lia|constructor]. }
  specialize (IH (if le a b then b else a)). specialize (Hle a b).
  destruct (le a b); apply Forall_cons in IH as [H1 H2]; repeat constructor; try done; try lia.
Qed.

Lemma candidate_le_handoff a b : if candidate_le a b then a.1.1 <= b.1.1 else b.1.1 <= a.1.1.
Proof. unfold candidate_le. destruct (Z.compare_spec a.1.1 b.1.1); repeat case_match; lia. Qed.

Lemma last_le_end a b : if last_le a b then end_us a.2 <= end_us b.2 else end_us b.2 <= end_us a.2.
Proof. unfold last_le. destruct (Z.compare_spec (end_us a.2) (end_us b.2)); repeat case_match; lia. Qed.

Lemma In_ready m seen current h e d :
  In (h, e, d) (ready m seen current) <->
  exists n, In d (dependencies current) /\ m !! d = Some n /\ d ∉ seen /\
    h = Z.min (end_us n) (start_us current) /\ e = end_us n.
Proof.
  unfold ready. rewrite <- list_elem_of_In, list_elem_of_omap. split.
  - intros (d' & Hin & Hd). destruct (m !! d') as [n|] eqn:Hn; [|done]. case_bool_decide; [done|].
    injection Hd as <- <- <-. exists n. split_and!; try done. by apply list_elem_of_In.
  - intros (n & Hin & Hn & Hs & -> & ->). exists d. split; [by apply list_elem_of_In|].
    rewrite Hn. by rewrite bool_decide_eq_false_2.
Qed.

(** The chain the walk builds from [id]. *)
Inductive chain (m : gmap string Node) : gset string -> list Visit -> Prop :=
| chain_last seen id n :
    m !! id = Some n -> id ∈ seen ->
    Forall (fun d => d ∈ seen \/ m !! d = None) (dependencies n) ->
    chain m seen [mkVisit id n (start_us n)]
| chain_step seen id n id' n' h v rest :
    m !! id = Some n -> id ∈ seen -> id' ∉ seen -> In id' (dependencies n) -> m !! id' = Some n' ->
    v = mkVisit id' n' h ->
    Forall (fun d => forall n'', m !! d = Some n'' -> d ∉ seen ->
      Z.min (end_us n'') (start_us n) <= Z.min (end_us n') (start_us n)) (dependencies n) ->
    chain m ({[ id' ]} ∪ seen) (v :: rest) ->
    chain m seen (mkVisit id n (Z.min (end_us n') (start_us n)) :: v :: rest).

Lemma walk_chain m fuel seen id n :
  m !! id = Some n -> id ∈ seen -> seen ⊆ dom m -> (base.size m < fuel + base.size seen)%nat ->
  exists h rest, walk fuel m seen id n = Some (mkVisit id n h :: rest) /\
    chain m seen (mkVisit id n h :: rest).
Proof.
  revert seen id n. induction fuel as [|fuel IH]; intros seen id n Hid Hseen Hsub Hfuel.
  { exfalso. apply subseteq_size in Hsub. rewrite size_dom in Hsub. simpl in Hfuel. lia. }
  cbn [walk]. destruct (max_of candidate_le (ready m seen n)) as [[[h e] d]|] eqn:Hmax.
  - pose proof (max_of_In _ _ _ Hmax) as (n' & Hd & Hn' & Hns & -> & ->)%In_ready. cbn [snd fst].
    rewrite Hn'. destruct (IH ({[ d ]} ∪ seen) d n') as (h & rest & -> & Hc).
    + done.
    + set_solver.
    + apply union_subseteq. split; [|done]. apply singleton_subseteq_l. by apply elem_of_dom_2 in Hn'.
    + rewrite size_union by set_solver. rewrite size_singleton. lia.
    + eexists _, _. split; [done|]. eapply chain_step; try done.
      apply Forall_forall. intros d' Hd'%list_elem_of_In n'' Hn'' Hns'.
      pose proof (max_of_measure _ (fun c => c.1.1) _ _ candidate_le_handoff Hmax) as Hle.
      rewrite Forall_forall in Hle.
      apply (Hle (Z.min (end_us n'') (start_us n), end_us n'', d')). apply list_elem_of_In, In_ready.
      by exists n''.
  - apply max_of_None in Hmax. eexists _, []. split; [done|]. apply chain_last; [done..|].
    apply Forall_forall. intros d Hd%list_elem_of_In. destruct (m !! d) as [n'|] eqn:Hn'; [|by right].
    left. destruct (decide (d ∈ seen)) as [|Hns]; [done|exfalso].
    assert (Hin : In (Z.min (end_us n') (start_us n), end_us n', d) (ready m seen n))
      by (apply In_ready; by exists n').
    by rewrite Hmax in Hin.
Qed.

(** Units come in order: no dependency starts after its dependent. *)
Definition started_in_order (m : gmap string Node) : Prop :=
  forall id n d n', m !! id = Some n -> In d (dependencies n) -> m !! d = Some n' ->
    start_us n' <= start_us n.

Definition node_wf (n : Node) : Prop := 0 <= start_us n <= end_us n /\ end_us n <= u64_max.

Lemma chain_nonempty m seen v rest : chain m seen (v :: rest) ->
  m !! visit_id v = Some (visit_node v) /\ visit_id v ∈ seen.
Proof. intros Hc. by inversion Hc. Qed.

Lemma steps_spans m seen v rest boundary :
  chain m seen (v :: rest) -> map_Forall (fun _ n => node_wf n) m ->
  let r := steps_of boundary (v :: rest) in
  boundary - r.2 <= sumZ (map step_span_us r.1) /\
  (exists id n, m !! id = Some n /\ r.2 = start_us n) /\
  (started_in_order m -> start_us (visit_node v) <= boundary ->
   boundary - r.2 = sumZ (map step_span_us r.1) /\ r.2 <= boundary).
Proof.
  intros Hc Hwf. revert boundary. remember (v :: rest) as l eqn:Hl. revert v rest Hl.
  induction Hc as [seen id n Hid Hs Hdeps|seen id n id' n' h v rest Hid Hs Hns Hin Hid' Hv Hmax Hc IH];
    intros v0 rest0 Hl boundary; injection Hl as <- <-.
  - simpl. split_and!; [unfold saturating_sub; lia|by exists id, n|]. intros _ Hb.
    unfold saturating_sub. simpl in Hb. lia.
  - specialize (IH v rest eq_refl (Z.min (end_us n') (start_us n))). subst v. cbn zeta in *.
    cbn [steps_of] in *. cbn [handoff visit_node] in *.
    destruct (steps_of h rest) as [steps last]. simpl in *.
    destruct IH as (H1 & H2 & H3). pose proof (Hwf _ _ Hid') as [Hw _].
    split_and!; [unfold saturating_sub in *; lia|done|]. intros Ho Hb.
    pose proof (Ho _ _ _ _ Hid Hin Hid') as Hst.
    destruct (H3 Ho) as [H4 H5]; [lia|]. unfold saturating_sub in *. lia.
Qed.

(** ** Recorded units: proofs *)

Definition event_wf (e : SessionEvent) : Prop :=
  match e with
  | WrapperTimed t => is_u64 (timing_start_us t) /\ is_u64 (duration_ns t)
  | OtherEvent => True
  end.

Lemma nodes_wf events : Forall event_wf events -> map_Forall (fun _ n => node_wf n) (nodes events).
Proof.
  intros Hev. unfold nodes. set (m := fold_left insert_event events ∅).
  assert (Hm : map_Forall (fun _ n => node_wf n) m).
  { subst m. assert (He : map_Forall (fun _ n => node_wf n) (∅ : gmap string Node)) by apply map_Forall_empty.
    revert He. generalize (∅ : gmap string Node). induction Hev as [|e events He Hev IH]; intros m Hm; [done|].
    simpl. apply IH. destruct e as [t|]; simpl; [|done]. destruct (unit_id t); [|done].
    apply map_Forall_insert_2; [|done]. destruct He as [Hs Hd]. unfold node_wf, node_of. simpl.
    pose proof (Z.div_pos (duration_ns t) 1000). u64_solve. }
  clearbody m. generalize (renames m). intros rs. revert m Hm.
  induction rs as [|r rs IH]; intros m Hm; simpl; [done|]. apply IH. unfold rename.
  destruct (m !! r.1) as [n|] eqn:Hn; [|done]. destruct (String.prefix _ _); [|done].
  apply map_Forall_insert_2; [|done]. exact (Hm _ _ Hn).
Qed.

(** ** The sweep: proofs *)

Lemma edge_of_id a b : edge_le a b -> a.1.1 <= b.1.1.
Proof. intros [?|[? _]]; lia. Qed.

#[export] Instance edge_le_trans : Transitive edge_le.
Proof.
  intros [[a b] c] [[a' b'] c'] [[a'' b''] c'']. unfold edge_le. simpl.
  intros [?|(-> & H1)] [?|(-> & H2)]; try (left; lia). right. split; [done|].
  destruct H1 as [[-> ->]|[-> H1]], H2 as [[? ?]|[-> H2]]; simplify_eq; eauto using string_leb_trans.
Qed.

#[export] Instance edge_le_total : Total edge_le.
Proof.
  intros [[a b] c] [[a' b'] c']. unfold edge_le. simpl.
  destruct (Z.lt_trichotomy a a') as [?|[->|?]]; [by left; left| |by right; left].
  destruct b, b'; try (by auto 6); destruct (string_leb_total c c'); auto 6.
Qed.

Lemma sorted_edges m : StronglySorted edge_le (edges m).
Proof. apply StronglySorted_merge_sort; apply _. Qed.

Lemma In_edges m t b id :
  In (t, b, id) (edges m) <-> exists n, m !! id = Some n /\ t = if b then end_us n else start_us n.
Proof.
  unfold edges. rewrite <- list_elem_of_In, merge_sort_Permutation, list_elem_of_In, in_flat_map. split.
  - intros ([k n] & Hin%In_entries & [Heq|[Heq|[]]]); injection Heq as <- <- <-; by exists n.
  - intros (n & Hn & ->). exists (id, n). split; [by apply In_entries|]. destruct b; simpl; auto.
Qed.

Lemma NoDup_edges m : NoDup (edges m).
Proof.
  unfold edges. rewrite merge_sort_Permutation.
  pose proof (NoDup_entries m) as Hn. induction (entries m) as [|[k n] l IH]; [constructor|].
  simpl in *. apply NoDup_cons in Hn as [Hk Hn].
  assert (Hno : forall t b, (t, b, k) ∉ List.flat_map
    (fun e : string * Node => [(start_us e.2, false, e.1); (end_us e.2, true, e.1)]) l).
  { intros t b (e & He & Hin)%list_elem_of_In%in_flat_map. apply Hk. apply list_elem_of_fmap.
    exists e. split; [|by apply list_elem_of_In]. destruct Hin as [Heq|[Heq|[]]]; by injection Heq. }
  apply NoDup_cons. split; [|apply NoDup_cons; split; [apply Hno|by apply IH]].
  rewrite elem_of_cons. intros [?|?]; [done|by eapply Hno].
Qed.

(** The units running at instant [t], and the one running alone. *)
Definition running_at (m : gmap string Node) (t : Z) : gset string :=
  dom (filter (fun e => start_us e.2 <= t < end_us e.2) m).
Definition solo (m : gmap string Node) (t : Z) : option string := only (running_at m t).

Lemma elem_of_running_at m t id :
  id ∈ running_at m t <-> exists n, m !! id = Some n /\ start_us n <= t < end_us n.
Proof.
  unfold running_at. rewrite elem_of_dom. split.
  - intros [n (Hn & Ht)%map_lookup_filter_Some]. by exists n.
  - intros (n & Hn & Ht). exists n. by apply map_lookup_filter_Some.
Qed.

(** A weighted total of charges; [g] is 1 for the total, an indicator for one label. *)
Definition weighted (g : string -> Z) (m : gmap string Z) : Z :=
  sumZ (map (fun e => e.2 * g e.1) (map_to_list m)).

Lemma sumZ_perm l k : l ≡ₚ k -> sumZ l = sumZ k.
Proof. induction 1; simpl; lia. Qed.

Lemma weighted_insert g m k v :
  m !! k = None -> weighted g (<[k := v]> m) = v * g k + weighted g m.
Proof.
  intros Hk. unfold weighted.
  by rewrite (sumZ_perm _ _ (Permutation_map _ (map_to_list_insert m k v Hk))).
Qed.

Lemma weighted_add g m k d : weighted g (add_to m k d) = weighted g m + d * g k.
Proof.
  unfold add_to. destruct (m !! k) as [v|] eqn:Hk; simpl.
  - pose proof (lookup_delete_eq m k) as Hd.
    assert (weighted g m = v * g k + weighted g (delete k m)) as ->.
    { rewrite <- weighted_insert by done. by rewrite insert_delete_id. }
    rewrite <- insert_delete_eq, weighted_insert by done. lia.
  - rewrite weighted_insert by done. lia.
Qed.

Definition over (f : Z -> Z) (lo hi : Z) : Z := sumZ (map f (seqZ lo (hi - lo))).

Lemma over_split f lo mid hi : lo <= mid <= hi -> over f lo hi = over f lo mid + over f mid hi.
Proof.
  intros [? ?]. unfold over. replace (hi - lo) with ((mid - lo) + (hi - mid)) by lia.
  rewrite seqZ_app by lia. rewrite map_app, sumZ_app. by replace (lo + (mid - lo)) with mid by lia.
Qed.

Lemma over_const f lo hi c : lo <= hi -> (forall t, lo <= t < hi -> f t = c) -> over f lo hi = (hi - lo) * c.
Proof.
  intros Hle Hf. unfold over.
  assert (Forall (fun t => f t = c) (seqZ lo (hi - lo))) as Hall.
  { apply Forall_seqZ. intros t Ht. apply Hf. lia. }
  assert (Hlen : Z.of_nat (length (seqZ lo (hi - lo))) = hi - lo) by (rewrite length_seqZ; lia).
  revert Hall Hlen. generalize (seqZ lo (hi - lo)). intros l Hall <-. clear -Hall.
  induction Hall as [|t l Ht Hall IH]; simpl; [lia|]. rewrite IH. lia.
Qed.

Definition solo_weight (g : string -> Z) (m : gmap string Node) (t : Z) : Z :=
  match solo m t with Some id => g id | None => 0 end.

Definition running_after (m : gmap string Node) (pre es : list Edge) (running : gset string) : Prop :=
  forall id, id ∈ running <-> exists n, m !! id = Some n /\ In (start_us n, false, id) pre /\
    In (end_us n, true, id) es.

Lemma running_between m pre es running prev at_ t :
  edges m = pre ++ es -> Forall (fun e => e.1.1 <= prev) pre -> Forall (fun e => at_ <= e.1.1) es ->
  running_after m pre es running -> prev <= t < at_ -> running_at m t = running.
Proof.
  intros He Hpre Hes Hr Ht. apply set_eq. intros id. rewrite elem_of_running_at, (Hr id).
  rewrite Forall_forall in Hpre, Hes.
  assert (Hin : forall x y z, In (x, y, z) (edges m) -> In (x, y, z) pre \/ In (x, y, z) es)
    by (intros *; rewrite He; apply in_app_or).
  split; intros (n & Hn & H1 & H2); exists n; (split; [done|]).
  - split.
    + destruct (Hin (start_us n) false id) as [|Hx]; [apply In_edges; by exists n|done|].
      apply list_elem_of_In, Hes in Hx. simpl in Hx. lia.
    + destruct (Hin (end_us n) true id) as [Hx|]; [apply In_edges; by exists n| |done].
      apply list_elem_of_In, Hpre in Hx. simpl in Hx. lia.
  - apply list_elem_of_In, Hpre in H1. apply list_elem_of_In, Hes in H2. simpl in *. lia.
Qed.

Lemma running_step m pre e es running :
  map_Forall (fun _ n => node_wf n) m -> edges m = pre ++ e :: es ->
  running_after m pre (e :: es) running ->
  running_after m (pre ++ [e]) es (if e.1.2 then running ∖ {[ e.2 ]} else {[ e.2 ]} ∪ running).
Proof.
  intros Hwf He Hr id. pose proof (NoDup_edges m) as Hnd. rewrite He in Hnd.
  pose proof (sorted_edges m) as Hs. rewrite He in Hs.
  assert (Hin : In e (edges m)) by (rewrite He; apply in_elt).
  destruct e as [[t b] k]. apply In_edges in Hin as (n & Hn & ->). simpl.
  apply NoDup_app in Hnd as (_ & Hdis & Hnd). apply NoDup_cons in Hnd as [Hnes _].
  setoid_rewrite in_app_iff. simpl. destruct b; cbn iota in He, Hnes, Hs, Hr.
  - rewrite elem_of_difference, elem_of_singleton, (Hr id). simpl. split.
    + intros ((n' & Hn' & H1 & [H2|H2]) & Hne); [congruence|]. exists n'. auto.
    + intros (n' & Hn' & [H1|[H1|[]]] & H2); [|congruence]. split; [by exists n'; auto|].
      intros ->. replace n' with n in * by congruence. apply Hnes. by apply list_elem_of_In.
  - rewrite elem_of_union, elem_of_singleton, (Hr id). simpl. split.
    + intros [->|(n' & Hn' & H1 & [H2|H2])]; [|congruence|exists n'; by auto].
      exists n. split; [done|]. split; [by auto|].
      assert (Hend : In (end_us n, true, k) (pre ++ (start_us n, false, k) :: es)).
      { assert (Hx : In (end_us n, true, k) (edges m)) by (apply In_edges; by exists n).
        by rewrite He in Hx. }
      apply in_app_or in Hend as [Hpre|[?|?]]; [exfalso|congruence|done].
      eapply (StronglySorted_app_1_elem_of _ pre _ (end_us n, true, k) (start_us n, false, k)) in Hs.
      * pose proof (Hwf _ _ Hn) as [? _]. unfold edge_le in Hs. simpl in Hs.
        destruct Hs as [?|[? [[? ?]|[? ?]]]]; [lia|done|done].
      * by apply list_elem_of_In.
      * by left.
    + intros (n' & Hn' & [H1|[H1|[]]] & H2); [right; by exists n'; auto|]. left. congruence.
Qed.

Lemma sweep_spec g m es pre running charged prev hi :
  map_Forall (fun _ n => node_wf n) m -> edges m = pre ++ es ->
  Forall (fun e => e.1.1 <= prev) pre -> Forall (fun e => prev <= e.1.1 <= hi) es -> prev <= hi ->
  running_after m pre es running ->
  weighted g (sweep es running charged prev) = weighted g charged + over (solo_weight g m) prev hi.
Proof.
  intros Hwf. revert pre running charged prev.
  induction es as [|e es IH]; intros pre running charged prev He Hpre Hes Hhi Hr; cbn [sweep].
  - rewrite (over_const _ _ _ 0); [lia|done|]. intros t Ht. unfold solo_weight, solo.
    rewrite (running_between m pre [] running prev hi); try done.
    assert (Hempty : running = ∅).
    { apply set_eq. intros id. rewrite (Hr id). split; [intros (n & _ & _ & [])|set_solver]. }
    subst running. unfold only. by rewrite elements_empty.
  - pose proof (sorted_edges m) as Hs. rewrite He in Hs.
    assert (Hfrom : Forall (fun e' => e.1.1 <= e'.1.1) (e :: es)).
    { constructor; [done|]. apply StronglySorted_app in Hs as (_ & _ & Hs).
      apply StronglySorted_inv in Hs as [_ Hs]. eapply Forall_impl; [exact Hs|]. intros e'. apply edge_of_id. }
    apply Forall_cons in Hes as [[He1 He2] Hes].
    rewrite (IH (pre ++ [e])).
    + rewrite (over_split _ prev e.1.1 hi) by lia.
      rewrite (over_const _ prev e.1.1 (match only running with Some id => g id | None => 0 end)); [|lia|].
      2: { intros t Ht. unfold solo_weight, solo. by rewrite (running_between m pre (e :: es) running prev e.1.1). }
      destruct (only running) as [id|]; [rewrite weighted_add|]; [|lia].
      unfold saturating_sub. rewrite Z.max_r by lia. lia.
    + rewrite He. by rewrite <- app_assoc.
    + apply Forall_app. split; [|by repeat constructor]. eapply Forall_impl; [exact Hpre|]. simpl. lia.
    + apply Forall_cons in Hfrom as [_ Hfrom]. rewrite Forall_forall in *. intros e' He'.
      specialize (Hfrom e' He'). specialize (Hes e' He'). simpl in *. lia.
    + done.
    + by apply running_step.
Qed.

(** ** What the sweep charges *)

(** How many instants satisfy a test, over all of [u64]. *)
Definition instants (f : Z -> bool) : Z := over (fun t => if f t then 1 else 0) 0 u64_max.

Lemma over_ext f g lo hi : (forall t, f t = g t) -> over f lo hi = over g lo hi.
Proof. intros Hfg. unfold over. f_equal. apply map_ext. auto. Qed.

Lemma charges_weighted g m :
  map_Forall (fun _ n => node_wf n) m -> weighted g (charges m) = over (solo_weight g m) 0 u64_max.
Proof.
  intros Hwf. unfold charges.
  assert (Hb : Forall (fun e => 0 <= e.1.1 <= u64_max) (edges m)).
  { apply Forall_forall. intros [[t b] id] (n & Hn & ->)%list_elem_of_In%In_edges. simpl.
    pose proof (Hwf _ _ Hn). unfold node_wf in *. destruct b; lia. }
  assert (Hr : running_after m [] (edges m) ∅).
  { intros id. split; [set_solver|]. by intros (n & _ & [] & _). }
  pose proof (sweep_spec g m (edges m) [] ∅ ∅ 0 u64_max Hwf eq_refl ltac:(constructor) Hb
    ltac:(unfold u64_max; lia) Hr) as Hs.
  replace (weighted g ∅) with 0 in Hs by done. rewrite Z.add_0_l in Hs. rewrite <- Hs.
  destruct (edges m) as [|e es]; [done|]. cbn [sweep]. unfold only. by rewrite elements_empty.
Qed.

Lemma by_label_lookup m l :
  default 0 (by_label m !! l) =
  weighted (fun id => if bool_decide (label_of m id = l) then 1 else 0) (charges m).
Proof.
  unfold by_label, weighted.
  rewrite <- (sumZ_perm _ _ (Permutation_map _ (merge_sort_Permutation by_key (map_to_list (charges m))))).
  fold (entries (charges m)). set (g := fun e : string * Z => e.2 * _).
  enough (forall es acc, default 0 (fold_left (fun acc e => add_to acc (label_of m e.1) e.2) es acc !! l) =
    default 0 (acc !! l) + sumZ (map g es)) as ->; [by rewrite lookup_empty|].
  induction es as [|e es IH]; intros acc; simpl; [lia|]. rewrite IH. unfold add_to, g. simpl.
  case_bool_decide as Hl; [rewrite Hl, lookup_insert_eq; simpl; lia|].
  rewrite lookup_insert_ne by done. lia.
Qed.

(** Time alone is measured exactly.  The sweep's total is the number of
    microseconds during which exactly one recorded unit was running, and the
    ranking lists exactly the labels with such time, each with the number of
    microseconds during which a unit of that label was the only one. *)
Lemma alone_is_exact events :
  Forall event_wf events ->
  let m := nodes events in
  (alone m).2 = instants (fun t => is_some (solo m t)) /\
  forall l us, In (l, us) (alone m).1 <->
    0 < us /\ us = instants (fun t => bool_decide (label_of m <$> solo m t = Some l)).
Proof.
  intros Hev%nodes_wf m. split.
  - transitivity (weighted (fun _ => 1) (charges m)).
    + unfold alone, weighted, entries. simpl.
      rewrite (sumZ_perm _ _ (fmap_Permutation snd _ _ (merge_sort_Permutation by_key _))).
      f_equal. apply map_ext. intros e. lia.
    + rewrite charges_weighted by done. apply over_ext. intros t. unfold solo_weight. by destruct (solo m t).
  - intros l us. unfold alone. simpl.
    rewrite <- list_elem_of_In, merge_sort_Permutation, list_elem_of_In, filter_In. simpl.
    rewrite Z.ltb_lt.
    assert (Hi : instants (fun t => bool_decide (label_of m <$> solo m t = Some l)) =
      default 0 (by_label m !! l)).
    { rewrite by_label_lookup, charges_weighted by done. apply over_ext. intros t. unfold solo_weight.
      destruct (solo m t) as [id|]; simpl; [|done]. repeat case_bool_decide; congruence. }
    rewrite Hi, In_entries. destruct (by_label m !! l) as [v|]; simpl.
    2: { split; [by intros [? _]|intros [? ?]; lia]. }
    split; [intros [[= ->] ?]; done|intros [? ->]; done].
Qed.

(** ** The path *)

Lemma chain_nodup m seen v rest :
  chain m seen (v :: rest) ->
  visit_id v ∈ seen /\ Forall (fun w => visit_id w ∉ seen) rest /\ NoDup (map visit_id (v :: rest)).
Proof.
  remember (v :: rest) as l eqn:Hl. intros Hc. revert v rest Hl.
  induction Hc as [seen id n Hid Hs Hdeps|seen id n id' n' h w rest Hid Hs Hns Hin Hid' Hv Hmax Hc IH];
    intros v0 rest0 Hl; injection Hl as <- <-.
  - split_and!; [done|constructor|]. simpl. apply NoDup_singleton.
  - destruct (IH _ _ eq_refl) as (_ & H2 & H3). subst w. cbn [visit_id] in *.
    assert (Hrest : Forall (fun w => visit_id w ∉ seen) (mkVisit id' n' h :: rest)).
    { constructor; [done|]. eapply Forall_impl; [exact H2|]. set_solver. }
    split_and!; [done|done|]. simpl. apply NoDup_cons. split; [|done].
    change (id ∉ map visit_id (mkVisit id' n' h :: rest)).
    intros (w & -> & Hw)%list_elem_of_fmap. rewrite Forall_forall in Hrest. by apply (Hrest w Hw).
Qed.

Lemma min_start_spec m s :
  min_start m = Some s -> map_Forall (fun _ n => s <= start_us n) m.
Proof.
  unfold min_start. intros Hs id n Hn. apply In_entries in Hn. destruct (entries m) as [|e l]; [done|].
  injection Hs as <-.
  assert (Hmin : forall l b, fold_left (fun best f => Z.min best (start_us (f : string * Node).2)) l b <= b /\
    Forall (fun f => fold_left (fun best f => Z.min best (start_us (f : string * Node).2)) l b <= start_us f.2) l).
  { clear. induction l as [|f l IH]; intros b; simpl; [split; [lia|constructor]|].
    destruct (IH (Z.min b (start_us f.2))) as [H1 H2]. split; [lia|]. constructor; [lia|done]. }
  destruct (Hmin l (start_us e.2)) as [H1 H2]. destruct Hn as [->|Hn]; [done|].
  rewrite Forall_forall in H2. by apply list_elem_of_In, H2 in Hn.
Qed.

(** The visits behind a reported path. *)
Lemma critical_path_visits events :
  match critical_path_of events with
  | None => nodes events = ∅
  | Some p =>
      exists id last h rest first,
        let visits := mkVisit id last h :: rest in
        nodes events !! id = Some last /\
        map_Forall (fun _ n => end_us n <= end_us last) (nodes events) /\
        chain (nodes events) {[ id ]} visits /\ min_start (nodes events) = Some first /\
        p = mkPath (rev (steps_of (end_us last) visits).1)
              (saturating_sub (end_us last) (steps_of (end_us last) visits).2)
              (saturating_sub (end_us last) first)
              (alone (nodes events)).1 (alone (nodes events)).2
  end.
Proof.
  unfold critical_path_of. cbn zeta. set (m := nodes events). clearbody m.
  destruct (max_of last_le (entries m)) as [[id last]|] eqn:Hmax.
  2: { apply max_of_None in Hmax. apply map_eq. intros i. rewrite lookup_empty.
       destruct (m !! i) as [n|] eqn:Hn; [|done]. apply In_entries in Hn. by rewrite Hmax in Hn. }
  pose proof (max_of_In _ _ _ Hmax) as Hid%In_entries.
  pose proof (max_of_measure _ (fun e => end_us e.2) _ _ last_le_end Hmax) as Hend.
  destruct (walk_chain m (base.size m) {[ id ]} id last) as (h & rest & -> & Hc); [done|set_solver| | |].
  { apply singleton_subseteq_l. by apply elem_of_dom_2 in Hid. }
  { rewrite size_singleton. lia. }
  destruct (steps_of (end_us last) (mkVisit id last h :: rest)) as [ss boundary] eqn:Hsteps.
  destruct (min_start m) as [first|] eqn:Hmin.
  - exists id, last, h, rest, first. cbn zeta. rewrite Hsteps. split_and!; try done.
    intros i n Hn. rewrite Forall_forall in Hend. apply (Hend (i, n)). by apply list_elem_of_In, In_entries.
  - exfalso. unfold min_start in Hmin. apply In_entries in Hid. by destruct (entries m).
Qed.

(** C40: the path is a chain of dependencies.  The analysis gives no path only
    when no unit was recorded.  Otherwise the steps are, from last to first, the
    units of a chain without repetition that begins with a unit nothing
    finished after; each next unit is an unvisited dependency of the one before
    that became ready last, and the chain ends where every dependency was
    visited or not recorded. *)
Theorem critical_path_follows_dependencies events :
  match critical_path_of events with
  | None => nodes events = ∅
  | Some p =>
      exists v rest,
        chain (nodes events) {[ visit_id v ]} (v :: rest) /\
        NoDup (map visit_id (v :: rest)) /\
        map_Forall (fun _ n => end_us n <= end_us (visit_node v)) (nodes events) /\
        map step_label (rev (steps p)) = map (fun w => label (visit_node w)) (v :: rest)
  end.
Proof.
  pose proof (critical_path_visits events) as Hv. destruct (critical_path_of events) as [p|]; [|done].
  destruct Hv as (id & last & h & rest & first & Hid & Hend & Hc & Hmin & ->).
  exists (mkVisit id last h), rest. pose proof (chain_nodup _ _ _ _ Hc) as (_ & _ & Hn).
  split_and!; try done. cbn [steps]. rewrite rev_involutive. clear.
  generalize (mkVisit id last h :: rest) as vs, (end_us last) as b.
  induction vs as [|v vs IH]; intros b; [done|]. cbn [steps_of]. specialize (IH (handoff v)).
  destruct (steps_of (handoff v) vs). simpl in *. by rewrite IH.
Qed.

(** The spans account for the path.  The spans of the steps cover the path,
    which lies within the build, and when no recorded unit starts before one of
    its dependencies they add up to it exactly. *)
Lemma critical_path_spans_add_up events p :
  Forall event_wf events -> critical_path_of events = Some p ->
  path_us p <= sumZ (map step_span_us (steps p)) /\ path_us p <= span_us p /\
  (started_in_order (nodes events) -> path_us p = sumZ (map step_span_us (steps p))).
Proof.
  intros Hev%nodes_wf Hp. pose proof (critical_path_visits events) as Hv. rewrite Hp in Hv.
  destruct Hv as (id & last & h & rest & first & Hid & Hend & Hc & Hmin & ->). cbn [path_us span_us steps].
  rewrite map_rev, (sumZ_perm _ _ (Permutation_sym (Permutation_rev _))).
  destruct (steps_spans _ _ _ _ (end_us last) Hc Hev) as (H1 & (i & n & Hn & Hb) & H3).
  cbn zeta in *. pose proof (min_start_spec _ _ Hmin _ _ Hn) as Hle. simpl in Hle.
  pose proof (Hev _ _ Hn) as [Hn1 _]. pose proof (Hend _ _ Hn) as Hn2. simpl in Hn2.
  pose proof (Hev _ _ Hid) as [Hl _]. set (b := (steps_of _ _).2) in *. clearbody b. cbn [visit_node] in H3.
  set (total := sumZ _) in *. clearbody total. unfold saturating_sub. split_and!; [lia|lia|].
  intros Ho. destruct (H3 Ho) as [H4 H5]; lia.
Qed.

(** ** Witnesses *)

Definition demo_unit (l id : string) (from to : Z) (deps : list string) : SessionEvent :=
  WrapperTimed (mkTiming "rustc" (Some l) (Some id) from ((to - from) * 1000) deps).

Definition demo_build : list SessionEvent :=
  [demo_unit "engine" "a1" 0 500 []; demo_unit "other" "b2" 0 200 [];
   demo_unit "app" "c3" 600 800 ["a1"; "b2"]].

Lemma demo_build_wf : Forall event_wf demo_build.
Proof. repeat constructor; unfold is_u64, u64_max; simpl; lia. Qed.

Lemma alone_is_exact_witness :
  alone (nodes demo_build) = ([("engine", 300); ("app", 200)], 500) /\
  (alone (nodes demo_build)).2 = instants (fun t => is_some (solo (nodes demo_build) t)).
Proof. split; [by vm_compute|]. exact (proj1 (alone_is_exact demo_build demo_build_wf)). Defined.

Lemma critical_path_spans_add_up_witness :
  exists p, critical_path_of demo_build = Some p /\ path_us p = 800 /\ length (steps p) = 2%nat /\
  path_us p = sumZ (map step_span_us (steps p)).
Proof.
  destruct (critical_path_of demo_build) as [p|] eqn:E; [|by vm_compute in E].
  exists p. pose proof (critical_path_spans_add_up demo_build p demo_build_wf E) as (_ & _ & H).
  split; [done|]. split; [vm_compute in E; by injection E as <-|].
  split; [vm_compute in E; by injection E as <-|]. apply H.
  intros id n d n' Hn Hd Hn'.
  assert (Ha : map_Forall (fun _ n => Forall (fun d =>
    is_none_or (fun n' => start_us n' <=? start_us n) (nodes demo_build !! d) = true)
    (dependencies n)) (nodes demo_build)).
  { apply (bool_decide_eq_true_1 _). by vm_compute. }
  pose proof (Ha _ _ Hn) as Hf. rewrite Forall_forall in Hf. apply list_elem_of_In, Hf in Hd.
  rewrite Hn' in Hd. by apply Z.leb_le.
Defined.

(** A unit recorded again after its dependent started: the spans no longer add
    up to the path. *)
Lemma spans_can_exceed_the_path :
  exists p, critical_path_of
    [demo_unit "engine" "a1" 400 500 ["c3"]; demo_unit "other" "c3" 300 350 [];
     demo_unit "app" "b2" 100 600 ["a1"]] = Some p /\
  path_us p = 300 /\ sumZ (map step_span_us (steps p)) = 550.
Proof. eexists. split; [vm_compute; reflexivity|]. split; reflexivity. Qed.
