(* ===== verification/Profile.v ===== *)
(** * Demands and the keys they are remembered under

    Models, from [src/crates/mbx/src/scheduler.rs], the constructors of
    [Demand] and the two functions that name a compilation by its flags:
    [link_profile] and [compile_profile].  Arguments that are not UTF-8 are
    [None]; a [BTreeSet] of strings is a [gset] listed in byte order.  Debug
    formatting of a string is the standard library's on ASCII and leaves other
    bytes alone.

    The theorems: a profile does not depend on how its options are spelled and
    the last setting of each key wins, and the keys of different kinds of work
    never collide. *)

From stdpp Require Import base list gmap strings sorting pretty.
From Stdlib Require Import ZArith Lia Ascii.
From S2P Require Import Prelude Strings SubsetSum Pressure Admission Pool Ledger.
Local Open Scope Z_scope.
Local Open Scope string_scope.

(** ** Arguments *)

(** Arguments that are UTF-8. *)
Definition texts (arguments : list (option string)) : list string := omap id arguments.

(** ** Link profiles *)

Record LinkFlags := mkFlags {
  opt : option string; lto : option string; units : option string; debug : option string }.

Definition no_flags : LinkFlags := mkFlags None None None None.

Definition lto_value (value : string) : string :=
  if bool_decide (value ∈ [""; "yes"; "y"; "on"; "true"; "fat"]) then "fat"
  else if bool_decide (value ∈ ["no"; "n"; "off"; "false"]) then "off"
  else value.

Definition set_opt (f : LinkFlags) (v : string) : LinkFlags := mkFlags (Some v) (lto f) (units f) (debug f).
Definition set_debug (f : LinkFlags) (v : string) : LinkFlags := mkFlags (opt f) (lto f) (units f) (Some v).

(** The [match] on one setting's key. *)
Definition apply_setting (f : LinkFlags) (setting : string) : LinkFlags :=
  let '(key, value) := default (setting, "") (split_once "="%char setting) in
  if String.eqb key "opt-level" then set_opt f value
  else if String.eqb key "lto" then mkFlags (opt f) (Some (lto_value value)) (units f) (debug f)
  else if String.eqb key "codegen-units" then mkFlags (opt f) (lto f) (Some value) (debug f)
  else if String.eqb key "debuginfo" then set_debug f value
  else f.

Definition takes_next (arg : string) : bool := String.eqb arg "-C" || String.eqb arg "--codegen".

Fixpoint link_loop (args : list string) (f : LinkFlags) : LinkFlags :=
  match args with
  | [] => f
  | arg :: args =>
      if takes_next arg then
        match args with
        | [] => f
        | setting :: args => link_loop args (apply_setting f setting)
        end
      else if String.eqb arg "-O" then link_loop args (set_opt f "3")
      else if String.eqb arg "-g" then link_loop args (set_debug f "2")
      else
        match option_or (strip_prefix "--codegen=" arg) (strip_prefix "-C" arg) with
        | Some setting => link_loop args (apply_setting f setting)
        | None => link_loop args f
        end
  end.

Definition format_flags (f : LinkFlags) : string :=
  "opt" ++ default "0" (opt f) ++ " lto-" ++ default "default" (lto f) ++
  " cgu" ++ default "-" (units f) ++ " debug" ++ default "0" (debug f).

Definition link_profile (arguments : list (option string)) : string :=
  format_flags (link_loop (texts arguments) no_flags).

(** ** Compile profiles *)

Record CompileFlags := mkCompile {
  emits : gset string;
  saw_emit : bool;
  crate_types : gset string;
  targets : list string;
  is_test : bool;
  incremental : bool;
  threads_flag : option string
}.

Definition no_compile_flags : CompileFlags := mkCompile ∅ false ∅ [] false false None.

Definition add_emit (f : CompileFlags) (value : string) : CompileFlags :=
  let kinds := filter (fun k => k <> "dep-info") (map (head_of_split "="%char) (split ","%char value)) in
  mkCompile (emits f ∪ list_to_set kinds) true (crate_types f) (targets f) (is_test f)
    (incremental f) (threads_flag f).
Definition add_types (f : CompileFlags) (value : string) : CompileFlags :=
  mkCompile (emits f) (saw_emit f) (crate_types f ∪ list_to_set (split ","%char value)) (targets f)
    (is_test f) (incremental f) (threads_flag f).
Definition add_target (f : CompileFlags) (value : string) : CompileFlags :=
  mkCompile (emits f) (saw_emit f) (crate_types f) (targets f ++ [value]) (is_test f)
    (incremental f) (threads_flag f).
Definition set_test (f : CompileFlags) : CompileFlags :=
  mkCompile (emits f) (saw_emit f) (crate_types f) (targets f) true (incremental f) (threads_flag f).
Definition add_setting (f : CompileFlags) (setting : option string) : CompileFlags :=
  match mbind (strip_prefix "incremental=") setting with
  | Some value =>
      mkCompile (emits f) (saw_emit f) (crate_types f) (targets f) (is_test f)
        (negb (String.eqb value "")) (threads_flag f)
  | None => f
  end.
Definition add_unstable (f : CompileFlags) (unstable : option string) : CompileFlags :=
  match mbind (strip_prefix "threads=") unstable with
  | Some value =>
      mkCompile (emits f) (saw_emit f) (crate_types f) (targets f) (is_test f) (incremental f) (Some value)
  | None => f
  end.

Fixpoint compile_loop (args : list string) (f : CompileFlags) : CompileFlags :=
  match args with
  | [] => f
  | arg :: args =>
      if String.eqb arg "--test" then compile_loop args (set_test f)
      else if String.eqb arg "--emit" then
        match args with v :: args => compile_loop args (add_emit f v) | [] => f end
      else if String.eqb arg "--crate-type" then
        match args with v :: args => compile_loop args (add_types f v) | [] => f end
      else if String.eqb arg "--target" then
        match args with v :: args => compile_loop args (add_target f v) | [] => f end
      else
        match strip_prefix "--emit=" arg with
        | Some v => compile_loop args (add_emit f v)
        | None =>
        match strip_prefix "--crate-type=" arg with
        | Some v => compile_loop args (add_types f v)
        | None =>
        match strip_prefix "--target=" arg with
        | Some v => compile_loop args (add_target f v)
        | None =>
            if takes_next arg then
              match args with
              | setting :: args => compile_loop args (add_setting f (Some setting))
              | [] => f
              end
            else
              let f := add_setting f (option_or (strip_prefix "-C" arg) (strip_prefix "--codegen=" arg)) in
              if String.eqb arg "-Z" then
                match args with v :: args => compile_loop args (add_unstable f (Some v)) | [] => f end
              else compile_loop args (add_unstable f (strip_prefix "-Z" arg))
        end end end
  end.

(** [{:?}] of an ASCII string. *)
Definition hex_digit (n : N) : Ascii.ascii :=
  Ascii.ascii_of_N (if (n <? 10)%N then 48 + n else 87 + n).
Definition debug_char (a : Ascii.ascii) : string :=
  let n := Ascii.N_of_ascii a in
  match n with
  | 34%N => "\" ++ String a ""
  | 92%N => "\\"
  | 9%N => "\t"
  | 10%N => "\n"
  | 13%N => "\r"
  | 0%N => "\0"
  | _ =>
      if ((n <? 32) || (n =? 127))%N then
        "\u{" ++ (if (n <? 16)%N then "" else String (hex_digit (n / 16)) "") ++
        String (hex_digit (n mod 16)) "" ++ "}"
      else String a ""
  end.
Definition quote : string := String (Ascii.ascii_of_N 34) "".
Fixpoint debug_body (s : string) : string :=
  match s with EmptyString => "" | String a s => debug_char a ++ debug_body s end.
Definition debug_str (s : string) : string := quote ++ debug_body s ++ quote.
Definition debug_list (l : list string) : string := "[" ++ join ", " (map debug_str l) ++ "]".

Definition format_targets (targets : list string) : string :=
  match targets with
  | [] => ""
  | [target] => " target=" ++ debug_str target
  | targets => " targets=" ++ debug_list targets
  end.

Definition format_compile (f : CompileFlags) (link : string) : string :=
  let emits := if saw_emit f then emits f else {[ "link" ]} ∪ emits f in
  "emit=" ++ join "," (sorted_set emits) ++
  " crate-type=" ++ join "," (sorted_set (crate_types f)) ++
  format_targets (targets f) ++
  (if is_test f then " test" else "") ++ " " ++ link ++
  " incremental-" ++ (if incremental f then "on" else "off") ++
  match threads_flag f with Some n => " threads=" ++ n | None => "" end.

Definition compile_profile (arguments : list (option string)) : string :=
  format_compile (compile_loop (texts arguments) no_compile_flags) (link_profile arguments).

(** ** Demands *)

Record TestIdentity := mkIdentity { binary : string; test_name : string; known : option TestMeasurement }.

Record Demand := mkDemand {
  name : string;
  links : bool;
  threads : option Z;
  learns_cpu : bool;
  profile : option string;
  per_test : option TestIdentity;
  compile_mode : option string;
  count_compile_samples : bool
}.

Definition new (n : string) (links : bool) : Demand :=
  mkDemand n links (Some 1) false None None None true.

Definition with_link_profile (d : Demand) (arguments : list (option string)) : Demand :=
  if links d then
    let profile := link_profile arguments in
    mkDemand (name d ++ " [" ++ profile ++ "]") (links d) (threads d) (learns_cpu d) (Some profile)
      (per_test d) (compile_mode d) (count_compile_samples d)
  else
    mkDemand (name d) (links d) (threads d) (learns_cpu d) (profile d) (per_test d)
      (Some (name d ++ " [compile " ++ compile_profile arguments ++ "]")) (count_compile_samples d).

Definition with_compiler_execution (d : Demand) (arguments : list (option string))
    (appended_flag : option (option string)) (wrapped clippy : bool) : Demand :=
  let effective := (arguments ++ match appended_flag with Some flag => [flag] | None => [] end)%list in
  let counted := mkDemand (name d) (links d) (threads d) (learns_cpu d) (profile d) (per_test d)
    (compile_mode d) (negb wrapped) in
  let demand := with_link_profile counted effective in
  if clippy && is_some (compile_mode demand) then
    mkDemand (name demand) (links demand) (threads demand) (learns_cpu demand) (profile demand)
      (per_test demand)
      (Some (name demand ++ " [compile clippy " ++ compile_profile effective ++ "]"))
      (count_compile_samples demand)
  else demand.

Definition test (n : string) (threads : option Z) : Demand :=
  mkDemand
    match threads with
    | Some threads => n ++ " [test, " ++ pretty threads ++ " threads]"
    | None => n ++ " [test]"
    end false threads true None None None true.

Definition nextest (binary test : string) : Demand :=
  mkDemand (binary ++ " " ++ test ++ " [nextest]") false (Some 1) true None
    (Some (mkIdentity binary test None)) None true.

(** What the ledger remembers the demand under. *)
Definition demand_key (d : Demand) : string :=
  match compile_mode d with Some mode => mode | None => ledger_key (name d) (links d) end.

(** ** Spelling *)

(** What a rustc command line says, however it is spelled. *)
Inductive Flag :=
| Emit (value : string)
| CrateType (value : string)
| Target (value : string)
| Test
| Codegen (setting : string)
| Optimize
| DebugInfo
| Unstable (value : string)
| Ordinary (arg : string).

Inductive spells : Flag -> list string -> Prop :=
| emit_separate v : plain v = true -> spells (Emit v) ["--emit"; v]
| emit_joined v : spells (Emit v) ["--emit=" ++ v]
| type_separate v : plain v = true -> spells (CrateType v) ["--crate-type"; v]
| type_joined v : spells (CrateType v) ["--crate-type=" ++ v]
| target_separate v : plain v = true -> spells (Target v) ["--target"; v]
| target_joined v : spells (Target v) ["--target=" ++ v]
| test_alone : spells Test ["--test"]
| codegen_short s : spells (Codegen s) ["-C"; s]
| codegen_long s : spells (Codegen s) ["--codegen"; s]
| codegen_short_joined s : s <> "" -> spells (Codegen s) ["-C" ++ s]
| codegen_long_joined s : spells (Codegen s) ["--codegen=" ++ s]
| optimize : spells Optimize ["-O"]
| debug_info : spells DebugInfo ["-g"]
| unstable_separate v : plain v = true -> spells (Unstable v) ["-Z"; v]
| unstable_joined v : v <> "" -> spells (Unstable v) ["-Z" ++ v]
| ordinary_arg a : plain a = true -> spells (Ordinary a) [a].

(** What each key of a setting is set to. *)
Definition setting_key (s : string) : string := (default (s, "") (split_once "="%char s)).1.
Definition setting_value (s : string) : string := (default (s, "") (split_once "="%char s)).2.

Definition keyed (key : string) (f : Flag) : option string :=
  match f with
  | Codegen s => if String.eqb (setting_key s) key then Some (setting_value s) else None
  | _ => None
  end.

Definition opt_of (f : Flag) : option string :=
  match f with Optimize => Some "3" | _ => keyed "opt-level" f end.
Definition debug_of (f : Flag) : option string :=
  match f with DebugInfo => Some "2" | _ => keyed "debuginfo" f end.

Definition flags_of (flags : list Flag) : LinkFlags :=
  mkFlags (last (omap opt_of flags)) (lto_value <$> last (omap (keyed "lto") flags))
    (last (omap (keyed "codegen-units") flags)) (last (omap debug_of flags)).

(** Later flags override. *)
Definition override (f g : LinkFlags) : LinkFlags :=
  mkFlags (option_or (opt g) (opt f)) (option_or (lto g) (lto f)) (option_or (units g) (units f))
    (option_or (debug g) (debug f)).

Lemma last_omap_cons {B} (f : Flag -> option B) x l :
  last (omap f (x :: l)) = option_or (last (omap f l)) (f x).
Proof.
  change (omap f (x :: l)) with (match f x with Some b => b :: omap f l | None => omap f l end).
  destruct (f x) as [b|]; [rewrite last_cons|]; by destruct (last (omap f l)).
Qed.

Lemma flags_of_cons x l : flags_of (x :: l) = override (flags_of [x]) (flags_of l).
Proof.
  unfold flags_of, override. simpl opt. simpl lto. simpl units. simpl debug.
  rewrite !last_omap_cons. f_equal.
  - by destruct (opt_of x).
  - by destruct (last (omap (keyed "lto") l)), (keyed "lto" x).
  - by destruct (keyed "codegen-units" x).
  - by destruct (debug_of x).
Qed.

Lemma override_assoc f g h : override (override f g) h = override f (override g h).
Proof.
  unfold override. simpl. f_equal; [by destruct (opt h)|by destruct (lto h)|by destruct (units h)|by destruct (debug h)].
Qed.

Lemma apply_setting_override f s : apply_setting f s = override f (flags_of [Codegen s]).
Proof.
  unfold apply_setting, flags_of, setting_key, setting_value, override. simpl.
  destruct (default (s, "") (split_once "="%char s)) as [key value] eqn:E. unfold opt_of, debug_of, keyed,
    setting_key, setting_value, set_opt, set_debug. rewrite E. cbn [fst snd].
  destruct (String.eqb_spec key "opt-level"); [by subst key|].
  destruct (String.eqb_spec key "lto"); [by subst key|].
  destruct (String.eqb_spec key "codegen-units"); [by subst key|].
  destruct (String.eqb_spec key "debuginfo"); [by subst key|]. by destruct f.
Qed.

Lemma app_String a s t : String a s ++ t = String a (s ++ t).
Proof. reflexivity. Qed.

Lemma app_EmptyString t : "" ++ t = t.
Proof. reflexivity. Qed.

Lemma link_loop_cons arg args f :
  link_loop (arg :: args) f =
      if takes_next arg then
        match args with
        | [] => f
        | setting :: args => link_loop args (apply_setting f setting)
        end
      else if String.eqb arg "-O" then link_loop args (set_opt f "3")
      else if String.eqb arg "-g" then link_loop args (set_debug f "2")
      else
        match option_or (strip_prefix "--codegen=" arg) (strip_prefix "-C" arg) with
        | Some setting => link_loop args (apply_setting f setting)
        | None => link_loop args f
        end.
Proof. reflexivity. Qed.

Lemma link_plain s args f : plain s = true -> link_loop (s :: args) f = link_loop args f.
Proof.
  intros Hs. rewrite link_loop_cons. unfold takes_next. rewrite !plain_eqb by done. cbn [orb].
  by rewrite !plain_strip.
Qed.

Lemma link_loop_piece x piece args f :
  spells x piece -> link_loop (piece ++ args) f = link_loop args (override f (flags_of [x])).
Proof.
  intros Hx.
  assert (Hno : opt_of x = None -> keyed "lto" x = None -> keyed "codegen-units" x = None ->
    debug_of x = None -> override f (flags_of [x]) = f).
  { intros H1 H2 H3 H4. unfold flags_of. simpl. rewrite H1, H2, H3, H4. by destruct f. }
  destruct Hx; cbn [app]; rewrite ?app_String, ?app_EmptyString.
  all: try (rewrite Hno by done; rewrite link_loop_cons; cbn -[link_loop]; rewrite ?link_plain by done; done).
  - rewrite link_loop_cons. cbn -[link_loop apply_setting]. by rewrite apply_setting_override.
  - rewrite link_loop_cons. cbn -[link_loop apply_setting]. by rewrite apply_setting_override.
  - rewrite link_loop_cons. destruct s as [|a s]; [done|].
    cbn -[link_loop apply_setting]. by rewrite apply_setting_override.
  - rewrite link_loop_cons. cbn -[link_loop apply_setting]. by rewrite apply_setting_override.
  - rewrite link_loop_cons. by destruct f.
  - rewrite link_loop_cons. by destruct f.
  - by rewrite Hno, link_plain.
Qed.

Lemma link_loop_pieces flags pieces f :
  Forall2 spells flags pieces -> link_loop (concat pieces) f = override f (flags_of flags).
Proof.
  intros Hp. revert f. induction Hp as [|x piece flags pieces Hx Hp IH]; intros f.
  - by destruct f.
  - cbn [concat]. rewrite (link_loop_piece x), IH, (flags_of_cons x flags) by done. by rewrite override_assoc.
Qed.

Lemma texts_some args : texts (map Some args) = args.
Proof.
  induction args as [|a args IH]; [done|].
  change (texts (map Some (a :: args))) with (a :: texts (map Some args)). by rewrite IH.
Qed.

(** The last setting wins, however it is spelled.  The link profile of a
    command line is the one of its settings: for each of the four keys the last
    value given by [-C], [--codegen], either joined or separate, with [-O]
    standing for [opt-level=3] and [-g] for [debuginfo=2], and nothing else on
    the line counts. *)
Lemma link_profile_last_wins flags pieces :
  Forall2 spells flags pieces ->
  link_profile (map Some (concat pieces)) = format_flags (flags_of flags).
Proof.
  intros Hp. unfold link_profile. rewrite texts_some, (link_loop_pieces flags) by done.
  f_equal. unfold override, no_flags. destruct (flags_of flags) as [[?|] [?|] [?|] [?|]]; done.
Qed.

(** The compile mode of a command line, read off its flags. *)
Definition emit_of (f : Flag) : list string :=
  match f with
  | Emit v => filter (fun k => k <> "dep-info") (map (head_of_split "="%char) (split ","%char v))
  | _ => []
  end.
Definition types_of (f : Flag) : list string :=
  match f with CrateType v => split ","%char v | _ => [] end.
Definition target_of (f : Flag) : option string := match f with Target v => Some v | _ => None end.
Definition is_emit (f : Flag) : bool := match f with Emit _ => true | _ => false end.
Definition is_test_flag (f : Flag) : bool := match f with Test => true | _ => false end.
Definition incremental_of (f : Flag) : option bool :=
  match f with
  | Codegen s => (fun v => negb (String.eqb v "")) <$> strip_prefix "incremental=" s
  | _ => None
  end.
Definition threads_of (f : Flag) : option string :=
  match f with Unstable v => strip_prefix "threads=" v | _ => None end.

Definition apply_flag (f : CompileFlags) (x : Flag) : CompileFlags :=
  match x with
  | Emit v => add_emit f v
  | CrateType v => add_types f v
  | Target v => add_target f v
  | Test => set_test f
  | Codegen s => add_setting f (Some s)
  | Unstable v => add_unstable f (Some v)
  | _ => f
  end.

Lemma compile_loop_cons arg args f :
  compile_loop (arg :: args) f =
      if String.eqb arg "--test" then compile_loop args (set_test f)
      else if String.eqb arg "--emit" then
        match args with v :: args => compile_loop args (add_emit f v) | [] => f end
      else if String.eqb arg "--crate-type" then
        match args with v :: args => compile_loop args (add_types f v) | [] => f end
      else if String.eqb arg "--target" then
        match args with v :: args => compile_loop args (add_target f v) | [] => f end
      else
        match strip_prefix "--emit=" arg with
        | Some v => compile_loop args (add_emit f v)
        | None =>
        match strip_prefix "--crate-type=" arg with
        | Some v => compile_loop args (add_types f v)
        | None =>
        match strip_prefix "--target=" arg with
        | Some v => compile_loop args (add_target f v)
        | None =>
            if takes_next arg then
              match args with
              | setting :: args => compile_loop args (add_setting f (Some setting))
              | [] => f
              end
            else
              let f := add_setting f (option_or (strip_prefix "-C" arg) (strip_prefix "--codegen=" arg)) in
              if String.eqb arg "-Z" then
                match args with v :: args => compile_loop args (add_unstable f (Some v)) | [] => f end
              else compile_loop args (add_unstable f (strip_prefix "-Z" arg))
        end end end.
Proof. reflexivity. Qed.

Lemma compile_plain s args f : plain s = true -> compile_loop (s :: args) f = compile_loop args f.
Proof.
  intros Hs. rewrite compile_loop_cons. unfold takes_next. rewrite !plain_eqb by done. cbn [orb].
  by rewrite !plain_strip.
Qed.

Lemma compile_loop_piece x piece args f :
  spells x piece -> compile_loop (piece ++ args) f = compile_loop args (apply_flag f x).
Proof.
  intros Hx. destruct Hx; cbn [app apply_flag]; rewrite ?app_String, ?app_EmptyString.
  all: try (rewrite compile_plain by done; done).
  all: try (destruct s as [|a s]; [done|]); try (destruct v as [|a v]; [done|]);
    rewrite compile_loop_cons; cbn -[compile_loop add_emit add_types add_target add_setting add_unstable]; done.
Qed.

#[local] Arguments strip_prefix : simpl never.

Definition compile_of (flags : list Flag) : CompileFlags :=
  mkCompile (list_to_set (concat (map emit_of flags))) (existsb is_emit flags)
    (list_to_set (concat (map types_of flags))) (omap target_of flags)
    (existsb is_test_flag flags) (default false (last (omap incremental_of flags)))
    (last (omap threads_of flags)).

(** Where incremental mode is not mentioned the earlier setting stays. *)
Definition extend (f : CompileFlags) (flags : list Flag) : CompileFlags :=
  let g := compile_of flags in
  mkCompile (emits f ∪ emits g) (saw_emit f || saw_emit g) (crate_types f ∪ crate_types g)
    (targets f ++ targets g)%list (is_test f || is_test g)
    (default (incremental f) (last (omap incremental_of flags)))
    (option_or (threads_flag g) (threads_flag f)).

Lemma CompileFlags_eq f g :
  emits f = emits g -> saw_emit f = saw_emit g -> crate_types f = crate_types g ->
  targets f = targets g -> is_test f = is_test g -> incremental f = incremental g ->
  threads_flag f = threads_flag g -> f = g.
Proof. destruct f, g. simpl. by intros -> -> -> -> -> -> ->. Qed.

Lemma extend_nil f : extend f [] = f.
Proof.
  apply CompileFlags_eq; simpl; [apply (right_id_L ∅ (∪))|apply orb_false_r|apply (right_id_L ∅ (∪))
    |apply app_nil_r|apply orb_false_r|done|done].
Qed.

Lemma apply_flag_extend f x : apply_flag f x = extend f [x].
Proof.
  destruct f as [e s c t i n th].
  destruct x; unfold apply_flag, add_emit, add_types, add_target, set_test, add_setting, add_unstable;
    try (unfold extend; simpl; destruct (strip_prefix _ _));
    apply CompileFlags_eq; simpl;
    rewrite ?app_nil_r, ?orb_false_r, ?orb_true_r, ?(right_id_L ∅ (∪)); done.
Qed.

Lemma extend_cons f x flags : extend f (x :: flags) = extend (extend f [x]) flags.
Proof.
  apply CompileFlags_eq; cbn [extend compile_of emits saw_emit crate_types targets is_test incremental threads_flag map concat existsb];
    rewrite ?last_omap_cons, ?app_nil_r, ?orb_false_r, ?list_to_set_app_L, ?(assoc_L (∪)), ?orb_assoc; try done.
  - rewrite <- app_assoc. f_equal. simpl. by destruct (target_of x).
  - by destruct (last (omap incremental_of flags)), (incremental_of x).
  - by destruct (last (omap threads_of flags)), (threads_of x).
Qed.

Lemma compile_loop_pieces flags pieces f :
  Forall2 spells flags pieces -> compile_loop (concat pieces) f = extend f flags.
Proof.
  intros Hp. revert f. induction Hp as [|x piece flags pieces Hx Hp IH]; intros f.
  - by rewrite extend_nil.
  - cbn [concat]. by rewrite (compile_loop_piece x), IH, apply_flag_extend, <- extend_cons.
Qed.

(** The compile mode is read off the flags.  However a command line spells
    its options, its mode is made of the set of emitted kinds other than
    dep-info ([link] when none is named), the set of crate types, every target
    in order, whether it builds tests, the last [incremental] setting, the last
    [threads] value and the link profile; the order of the options it does not
    list, and of the names inside a set, does not matter. *)
Lemma compile_profile_reads_flags flags pieces :
  Forall2 spells flags pieces ->
  compile_profile (map Some (concat pieces)) =
  format_compile (compile_of flags) (format_flags (flags_of flags)).
Proof.
  intros Hp. unfold compile_profile, link_profile.
  rewrite texts_some, (compile_loop_pieces flags), (link_loop_pieces flags) by done.
  f_equal.
  - apply CompileFlags_eq; simpl; rewrite ?(left_id_L ∅ (∪)); try done. by destruct (last _).
  - f_equal. unfold override, no_flags. destruct (flags_of flags) as [[?|] [?|] [?|] [?|]]; done.
Qed.

(** ** Keys *)

(** A Rust identifier: neither spaces nor brackets. *)
Fixpoint identifier (s : string) : bool :=
  match s with
  | EmptyString => true
  | String a s => negb (Ascii.eqb a " "%char || Ascii.eqb a "["%char || Ascii.eqb a "]"%char) && identifier s
  end.

Lemma identifier_split n n' r r' :
  identifier n = true -> identifier n' = true -> n ++ String " " r = n' ++ String " " r' -> n = n' /\ r = r'.
Proof.
  revert n'. induction n as [|a n IH]; intros [|a' n'] Hn Hn' He; rewrite ?app_String, ?app_EmptyString in He.
  - by injection He as ->.
  - injection He as <- _. done.
  - injection He as -> _. done.
  - injection He as <- He. cbn [identifier] in *. apply andb_prop in Hn as [_ Hn].
    apply andb_prop in Hn' as [_ Hn']. by destruct (IH n' Hn Hn' He) as [-> ->].
Qed.

(** One piece of scheduled work. *)
Inductive Work :=
| Compiler (crate : string) (links : bool) (arguments : list (option string))
    (appended_flag : option (option string)) (wrapped clippy : bool)
| Suite (crate : string) (threads : option Z)
| NextTest (binary test : string).

Definition demand_of (w : Work) : Demand :=
  match w with
  | Compiler n links arguments appended wrapped clippy =>
      with_compiler_execution (new n links) arguments appended wrapped clippy
  | Suite n threads => test n threads
  | NextTest b t => nextest b t
  end.

Inductive Kind := Linking | Compiling | Linting | Testing | TestingWith (threads : Z) | OneTest.

(** What distinguishes two pieces of work: kind, crate and profile. *)
Definition identity (w : Work) : Kind * string * string :=
  match w with
  | Compiler n links arguments appended _ clippy =>
      let effective := (arguments ++ match appended with Some flag => [flag] | None => [] end)%list in
      if links then (Linking, n, link_profile effective)
      else ((if clippy then Linting else Compiling), n, compile_profile effective)
  | Suite n None => (Testing, n, "")
  | Suite n (Some k) => (TestingWith k, n, "")
  | NextTest b t => (OneTest, b, t)
  end.

Definition work_ok (w : Work) : bool :=
  match w with
  | Compiler n _ _ _ _ _ => identifier n
  | Suite n _ => identifier n
  | NextTest b t => identifier b && identifier t
  end.

(** The part of a key after the crate. *)
Definition key_rest (i : Kind * string * string) : string :=
  match i with
  | (Linking, _, p) => "[" ++ p ++ "] [link]"
  | (Compiling, _, p) => "[compile " ++ p ++ "]"
  | (Linting, _, p) => "[compile clippy " ++ p ++ "]"
  | (Testing, _, _) => "[test]"
  | (TestingWith k, _, _) => "[test, " ++ pretty k ++ " threads]"
  | (OneTest, _, t) => t ++ " [nextest]"
  end.

Lemma demand_key_parts w : demand_key (demand_of w) = (identity w).1.2 ++ String " " (key_rest (identity w)).
Proof.
  destruct w as [n links args app wr cl|n [k|]|b t]; simpl.
  - destruct links, cl; unfold with_compiler_execution, with_link_profile, demand_key, ledger_key, new;
      cbn -[link_profile compile_profile String.append]; rewrite ?app_assoc_string; reflexivity.
  - unfold demand_key, test. cbn -[String.append pretty]. by rewrite ?app_assoc_string.
  - reflexivity.
  - unfold demand_key, nextest, ledger_key. cbn -[String.append]. by rewrite ?app_assoc_string.
Qed.

(** No identifier starts with a bracket. *)
Lemma identifier_bracket t r s : identifier t = true -> t ++ String " " r = String "[" s -> False.
Proof.
  intros Ht He. destruct t as [|a t]; rewrite ?app_String, ?app_EmptyString in He.
  - discriminate He.
  - injection He as -> _. discriminate Ht.
Qed.

Lemma link_profile_opt args : exists r, link_profile args = "opt" ++ r.
Proof. unfold link_profile, format_flags. by eexists. Qed.

Lemma compile_profile_emit args : exists r, compile_profile args = "emit=" ++ r.
Proof. unfold compile_profile, format_compile. by eexists. Qed.

(** Walk down two strings that start alike, until their literals differ. *)
Ltac peel H :=
  rewrite ?app_String, ?app_EmptyString in H;
  first [discriminate H | done | injection H; clear H; intros H; peel H | idtac].

(** The profile each kind of work has. *)
Definition profile_ok (k : Kind) (p : string) : Prop :=
  match k with
  | Linking => exists r, p = "opt" ++ r
  | Compiling | Linting => exists r, p = "emit=" ++ r
  | Testing | TestingWith _ => p = ""
  | OneTest => identifier p = true
  end.

Lemma key_rest_inj k k' n n' p p' :
  profile_ok k p -> profile_ok k' p' -> key_rest (k, n, p) = key_rest (k', n', p') -> k = k' /\ p = p'.
Proof.
  intros Hk Hk' He. destruct k, k'; cbn [profile_ok key_rest] in *;
    repeat match goal with H : exists _, _ |- _ => destruct H as [? ?] end;
    subst; rewrite ?app_String, ?app_EmptyString in *;
    try discriminate He;
    try (by destruct (identifier_bracket _ _ _ Hk He));
    try (by destruct (identifier_bracket _ _ _ Hk' (eq_sym He))); split; try done.
  all: repeat match goal with H : String _ _ = String _ _ |- _ => injection H as H end.
  all: apply app_inv_tail_string in He; try (apply (inj pretty) in He); by subst.
Qed.

Lemma identity_ok w : work_ok w = true -> profile_ok (identity w).1.1 (identity w).2.
Proof.
  destruct w as [n links args app wr cl|n [k|]|b t]; cbn [identity work_ok]; intros Hw.
  - destruct links, cl; cbn [fst snd profile_ok]; auto using link_profile_opt, compile_profile_emit.
  - done.
  - done.
  - by apply andb_prop in Hw as [_ Hw].
Qed.

(** Keys do not collide.  The ledger remembers two pieces of work under the
    same key only when they are of the same kind, for the same crate or test
    binary, with the same profile, thread count or test name. *)
Lemma demand_keys_are_distinct w w' :
  work_ok w = true -> work_ok w' = true ->
  demand_key (demand_of w) = demand_key (demand_of w') -> identity w = identity w'.
Proof.
  intros Hw Hw' He. rewrite !demand_key_parts in He.
  assert (Hn : identifier (identity w).1.2 = true /\ identifier (identity w').1.2 = true).
  { split; [destruct w as [? [] ? ? ? []|? []|]|destruct w' as [? [] ? ? ? []|? []|]]; simpl in *;
      repeat match goal with H : (_ && _)%bool = true |- _ => apply andb_prop in H; destruct H end; done. }
  destruct Hn as [Hn Hn'].
  apply identifier_split in He as [Hname Hrest]; [|done|done].
  pose proof (identity_ok w Hw) as Hk. pose proof (identity_ok w' Hw') as Hk'.
  destruct (identity w) as [[k n] p], (identity w') as [[k' n'] p']. cbn [fst snd] in *.
  destruct (key_rest_inj _ _ _ _ _ _ Hk Hk' Hrest) as [-> ->]. by subst.
Qed.

(** ** Witnesses *)

Definition demo_flags : list Flag :=
  [Codegen "opt-level=1"; Emit "metadata,dep-info"; Optimize; Codegen "lto"; Target "wasm32"].
Definition demo_pieces : list (list string) :=
  [["-C"; "opt-level=1"]; ["--emit=metadata,dep-info"]; ["-O"]; ["-Clto"]; ["--target"; "wasm32"]].

Lemma demo_spells : Forall2 spells demo_flags demo_pieces.
Proof.
  repeat (constructor; [first [apply codegen_short|apply (emit_joined "metadata,dep-info")|apply optimize
    |by apply (codegen_short_joined "lto")|by apply target_separate]|]). constructor.
Qed.

Lemma link_profile_last_wins_witness :
  link_profile (map Some (concat demo_pieces)) = "opt3 lto-fat cgu- debug0" /\
  link_profile (map Some (concat demo_pieces)) = format_flags (flags_of demo_flags).
Proof. split; [by vm_compute|]. apply (link_profile_last_wins _ _ demo_spells). Defined.

Lemma compile_profile_reads_flags_witness :
  compile_profile (map Some (concat demo_pieces)) =
  format_compile (compile_of demo_flags) (format_flags (flags_of demo_flags)).
Proof. apply (compile_profile_reads_flags _ _ demo_spells). Defined.

Lemma demand_keys_are_distinct_witness :
  identity (Compiler "serde" true (map Some ["-O"]) None false false) =
  identity (Compiler "serde" true (map Some ["-Copt-level=3"]) None true true).
Proof. apply demand_keys_are_distinct; vm_compute; reflexivity. Defined.
