(* ===== verification/Policy.v ===== *)
(** * Who may write to the remote cache

    Models [src/crates/mbx/src/policy.rs] and the [RemoteCacheMode] predicates
    of [src/crates/mbx-cache-core/src/lib.rs].  The environment is an argument:
    the value of each variable, where it is set.

    The theorems: a build no operator vouches for publishes only from a push to
    a protected branch, whatever else the environment says, and the policy never
    adds a permission the configuration lacks nor takes reading away. *)

From stdpp Require Import base list strings.
From Stdlib Require Import ZArith Ascii.
From S2P Require Import Prelude Strings.
Local Open Scope string_scope.

Inductive RemoteCacheMode := ReadWrite | ReadOnly | WriteOnly.

Definition reads (m : RemoteCacheMode) : bool :=
  match m with ReadWrite | ReadOnly => true | WriteOnly => false end.
Definition writes (m : RemoteCacheMode) : bool :=
  match m with ReadWrite | WriteOnly => true | ReadOnly => false end.

Definition Environment : Type := string -> option string.

Definition env_truthy (value : option string) : bool :=
  is_some_and (fun v => bool_decide (to_ascii_lowercase v ∈ ["1"; "true"; "yes"])) value.

Definition trusted_cache_writer (get_env : Environment) : bool :=
  if env_truthy (get_env "GITHUB_ACTIONS") then
    bool_decide (get_env "GITHUB_EVENT_NAME" = Some "push") &&
    bool_decide (get_env "GITHUB_REF_TYPE" = Some "branch") &&
    env_truthy (get_env "GITHUB_REF_PROTECTED")
  else if env_truthy (get_env "GITLAB_CI") then
    bool_decide (get_env "CI_PIPELINE_SOURCE" = Some "push") &&
    is_none (get_env "CI_COMMIT_TAG") &&
    is_none (get_env "CI_MERGE_REQUEST_IID") &&
    env_truthy (get_env "CI_COMMIT_REF_PROTECTED")
  else false.

Definition effective_remote_cache_mode_with (configured : RemoteCacheMode) (trust_writes : bool)
    (get_env : Environment) : option RemoteCacheMode :=
  if trust_writes || trusted_cache_writer get_env then Some configured
  else match configured with
       | ReadWrite | ReadOnly => Some ReadOnly
       | WriteOnly => None
       end.

Definition incremental_allowed_with (configured : bool) (get_env : Environment) : bool :=
  configured && negb (env_truthy (get_env "CI")).

Definition learned_incremental_allowed_with (configured : bool) (get_env : Environment) : bool :=
  configured && negb (env_truthy (get_env "CI")).

Definition is_ci (get_env : Environment) : bool :=
  env_truthy (get_env "CI") || env_truthy (get_env "GITHUB_ACTIONS").

(** What the resolved mode lets a build do. *)
Definition may (permission : RemoteCacheMode -> bool) (m : option RemoteCacheMode) : bool :=
  is_some_and permission m.

(** A push of a protected branch, as each system tells it: nothing a pull or
    merge request, or a tag, can look like. *)
Definition protected_branch_push (get_env : Environment) : Prop :=
  (env_truthy (get_env "GITHUB_ACTIONS") = true /\ get_env "GITHUB_EVENT_NAME" = Some "push" /\
   get_env "GITHUB_REF_TYPE" = Some "branch" /\ env_truthy (get_env "GITHUB_REF_PROTECTED") = true) \/
  (env_truthy (get_env "GITHUB_ACTIONS") = false /\ env_truthy (get_env "GITLAB_CI") = true /\
   get_env "CI_PIPELINE_SOURCE" = Some "push" /\ get_env "CI_COMMIT_TAG" = None /\
   get_env "CI_MERGE_REQUEST_IID" = None /\ env_truthy (get_env "CI_COMMIT_REF_PROTECTED") = true).

Lemma trusted_iff get_env : trusted_cache_writer get_env = true <-> protected_branch_push get_env.
Proof.
  unfold trusted_cache_writer, protected_branch_push.
  destruct (env_truthy (get_env "GITHUB_ACTIONS")), (env_truthy (get_env "GITLAB_CI"));
    rewrite ?andb_true_iff, ?bool_decide_eq_true;
    destruct (get_env "CI_COMMIT_TAG"), (get_env "CI_MERGE_REQUEST_IID"); simpl; intuition congruence.
Qed.

(** Untrusted builds never publish.  Without the operator's statement a build
    may write to the remote cache only if the configuration asks for writes and
    its environment is a push of a protected branch; a GitHub job of any other
    event never may, whatever GitLab variables it sets.  Reading is permitted
    exactly when configured, and a mode is refused altogether only when it is
    write-only and untrusted. *)
Lemma untrusted_builds_never_publish configured trust_writes get_env :
  let mode := effective_remote_cache_mode_with configured trust_writes get_env in
  (may writes mode = true <->
    writes configured = true /\ (trust_writes = true \/ protected_branch_push get_env)) /\
  may reads mode = reads configured /\
  (mode = None <-> configured = WriteOnly /\ trust_writes = false /\ ~ protected_branch_push get_env) /\
  (trust_writes = false -> env_truthy (get_env "GITHUB_ACTIONS") = true ->
   get_env "GITHUB_EVENT_NAME" <> Some "push" -> may writes mode = false).
Proof.
  unfold effective_remote_cache_mode_with. pose proof (trusted_iff get_env) as Ht. cbn zeta.
  assert (Hevent : env_truthy (get_env "GITHUB_ACTIONS") = true ->
    get_env "GITHUB_EVENT_NAME" <> Some "push" -> trusted_cache_writer get_env = false).
  { intros Hg He. destruct (trusted_cache_writer get_env) eqn:E; [|done]. exfalso.
    destruct Ht as [Ht _]. destruct (Ht eq_refl) as [(_ & ? & _)|(? & _)]; congruence. }
  destruct trust_writes, (trusted_cache_writer get_env), configured; simpl;
    intuition (try congruence); try (by destruct Hevent).
Qed.
