(* ===== verification/Flights.v ===== *)
(** * Flights: one compilation of an invocation at a time

    Models the flights of [src/crates/mbx/src/scheduler.rs]: [flight_at_inner]
    with its wait loop, [Flight] and its operations, [flight_wait_limit] and the
    sweep [prune_flights], as a transition system over the three files of one
    invocation.  A path names an inode, which a sweep may unlink while a process
    still has it open; locks belong to inodes.  The files next to the lock are
    written atomically.  Attempt identities are drawn at random and taken to be
    fresh; parsing a prediction's JSON payload is a parameter.

    The theorems: while no sweep runs at most one process occupies an
    invocation; a flight that was handed a prediction was handed the one its
    immediate predecessor published; and waiting is bounded. *)

From stdpp Require Import base list gmap strings relations.
From Stdlib Require Import ZArith Lia.
From S2P Require Import Prelude.
Local Open Scope Z_scope.

Definition FLIGHT_VERSION : Z := 1.
Definition MAX_FLIGHT_PAYLOAD : Z := 4 * 1024 * 1024.
(** Nanoseconds, as [Duration] counts them. *)
Definition FLIGHT_POLL_MAX : Z := 100 * 1000000.
Definition FLIGHT_WAIT_MIN : Z := 10 * 60 * 1000000000.
Definition POLL_INITIAL : Z := 2 * 1000000.

Record FlightRecord := mkRecord {
  version : Z;
  adapter : string;
  invocation : string;
  payload : string;
  attempt : option string
}.

Record Flight := mkFlight {
  lock : option nat;
  flight_adapter : string;
  flight_invocation : string;
  waited : bool;
  inherited : option string;
  published_while_waiting : bool;
  flight_attempt : string
}.

Definition released (f : Flight) : bool := is_none (lock f).

(** ** Waiting *)

Section Waiting.
(** [payload.get("compiler_duration_ns")] of a prediction's JSON, a [u64]. *)
Context (compiler_duration_ns : string -> option Z).

Definition flight_wait_limit (record : option FlightRecord) : Z :=
  match mbind (fun r => compiler_duration_ns (payload r)) record with
  | Some ns => Z.max (ns * 4) FLIGHT_WAIT_MIN
  | None => FLIGHT_WAIT_MIN
  end.
End Waiting.

(** One round of the wait loop, [elapsed] after its start: give up, or sleep
    and carry on with the next delay.  [jitter] is the jittered delay. *)
Inductive Round := GiveUp | Sleep (duration next_delay : Z).

Definition wait_round (limit elapsed delay jitter : Z) : Round :=
  if limit <=? elapsed then GiveUp
  else Sleep (Z.min (Z.min jitter FLIGHT_POLL_MAX) (saturating_sub limit elapsed))
         (Z.min (delay * 2) FLIGHT_POLL_MAX).

(** The wait loop while the lock stays taken; round [n] sleeps and then takes
    [overhead n] more until the next round reads the clock. *)
Fixpoint wait_loop (jittered : nat -> Z -> Z) (overhead : nat -> Z) (fuel n : nat)
    (limit elapsed delay : Z) : option Z :=
  match fuel with
  | O => None
  | S fuel =>
      match wait_round limit elapsed delay (jittered n delay) with
      | GiveUp => Some elapsed
      | Sleep d delay =>
          wait_loop jittered overhead fuel (S n) limit (elapsed + d + overhead n) delay
      end
  end.

(** ** The files of one invocation *)

Record World := mkWorld {
  path : option nat;
  next_inode : nat;
  locks : gmap nat nat;
  attempt_file : option string;
  record_file : option (option FlightRecord)
}.

(** What a process is doing about the invocation. *)
Inductive Process :=
| Opened (inode : nat) (waited : bool)
| Locked (inode : nat) (waited : bool)
| Flying (f : Flight)
| Pruning (inode : nat) (stage : nat)
| Gone.

(** [LockFile::open]. *)
Definition open (w : World) : World * nat :=
  match path w with
  | Some i => (w, i)
  | None =>
      (mkWorld (Some (next_inode w)) (S (next_inode w)) (locks w) (attempt_file w) (record_file w),
       next_inode w)
  end.

Definition set_locks (w : World) (l : gmap nat nat) : World :=
  mkWorld (path w) (next_inode w) l (attempt_file w) (record_file w).
Definition set_attempt (w : World) (a : option string) : World :=
  mkWorld (path w) (next_inode w) (locks w) a (record_file w).
Definition set_record (w : World) (r : option (option FlightRecord)) : World :=
  mkWorld (path w) (next_inode w) (locks w) (attempt_file w) r.
Definition set_path (w : World) (p : option nat) : World :=
  mkWorld p (next_inode w) (locks w) (attempt_file w) (record_file w).

(** [try_lock] by process [p]. *)
Definition try_lock (w : World) (p inode : nat) : World * bool :=
  match locks w !! inode with
  | None => (set_locks w (<[inode := p]> (locks w)), true)
  | Some _ => (w, false)
  end.

Definition unlock (w : World) (inode : nat) : World := set_locks w (delete inode (locks w)).

(** The attempt at the lock: the first one decides [waited]. *)
Definition try_enter (w : World) (p inode : nat) (already_waited : bool) : World * Process :=
  let '(w, taken) := try_lock w p inode in
  (w, if taken then Locked inode already_waited else Opened inode true).

(** The record found under the lock, when it describes this invocation. *)
Definition find_record (w : World) (a inv : string) : option FlightRecord :=
  option_filter (fun r =>
    (version r =? FLIGHT_VERSION) && bool_decide (adapter r = a) && bool_decide (invocation r = inv))
    (mjoin (record_file w)).

(** The reads under the lock, and the write of this attempt's identity. *)
Definition establish (w : World) (inode : nat) (waited : bool) (a inv fresh : string) (writes : bool)
    : World * Process :=
  let record := find_record w a inv in
  let published :=
    waited && is_some_and (fun at_ => bool_decide (mbind attempt record = Some at_)) (attempt_file w) in
  if writes then
    (set_attempt w (Some fresh),
     Flying (mkFlight (Some inode) a inv waited (payload <$> record) published fresh))
  else (unlock w inode, Gone).

(** [Flight::release]. *)
Definition release (w : World) (f : Flight) : World * Flight :=
  (match lock f with Some i => unlock w i | None => w end,
   mkFlight None (flight_adapter f) (flight_invocation f) (waited f) (inherited f)
     (published_while_waiting f) (flight_attempt f)).

Definition finish_restore (w : World) (f : Flight) (hit : bool) : World * Flight :=
  if negb (waited f) then (w, f)
  else if hit then (w, f)
  else if published_while_waiting f then release w f
  else (w, f).

Definition leave (w : World) (f : Flight) (text : string) (writes : bool) : World :=
  if MAX_FLIGHT_PAYLOAD <? Z.of_nat (String.length text) then w
  else if writes then
    set_record w (Some (Some (mkRecord FLIGHT_VERSION (flight_adapter f) (flight_invocation f) text
      (Some (flight_attempt f)))))
  else w.

(** The locks a process holds end with it. *)
Definition drop_locks (w : World) (p : nat) : World :=
  set_locks w (filter (fun e => e.2 <> p) (locks w)).

(** One removal of [prune_flights], in order: the record, the attempt, the
    lock, the lock file. *)
Definition prune_stage (w : World) (inode stage : nat) : World * Process :=
  match stage with
  | 0%nat => (set_record w None, Pruning inode 1)
  | 1%nat => (set_attempt w None, Pruning inode 2)
  | 2%nat => (unlock w inode, Pruning inode 3)
  | _ => (set_path w None, Gone)
  end.

(** ** The transition system *)

Record System := mkSystem {
  world : World;
  processes : gmap nat Process;
  (** Ghost: who established which attempt, newest first. *)
  established : list (string * nat);
  (** Ghost: what each attempt left behind. *)
  published : list (string * string)
}.

Definition set_process (s : System) (w : World) (p : nat) (st : Process) : System :=
  mkSystem w (<[p := st]> (processes s)) (established s) (published s).

Section Flights.
(** Which adapter and invocation the files are named after, and whether a
    sweep may run. *)
Context (the_adapter the_invocation : string) (sweeps : bool).

(** [step_sweep_leftover] is the sweep's removal of a record or an attempt
    without a lock file; its check may be out of date when it removes. *)
Inductive step (s : System) : System -> Prop :=
| step_open p w i :
    processes s !! p = None -> open (world s) = (w, i) ->
    step s (set_process s w p (Opened i false))
| step_try p i b w st :
    processes s !! p = Some (Opened i b) -> try_enter (world s) p i b = (w, st) ->
    step s (set_process s w p st)
| step_timeout p i :
    processes s !! p = Some (Opened i true) -> step s (set_process s (world s) p Gone)
| step_establish p i b fresh w f :
    processes s !! p = Some (Locked i b) -> fresh ∉ (established s).*1 ->
    establish (world s) i b the_adapter the_invocation fresh true = (w, Flying f) ->
    step s (mkSystem w (<[p := Flying f]> (processes s)) ((fresh, p) :: established s) (published s))
| step_no_attempt p i b fresh w :
    processes s !! p = Some (Locked i b) ->
    establish (world s) i b the_adapter the_invocation fresh false = (w, Gone) ->
    step s (set_process s w p Gone)
| step_restore p f hit w f' :
    processes s !! p = Some (Flying f) -> finish_restore (world s) f hit = (w, f') ->
    step s (set_process s w p (Flying f'))
| step_leave p f text :
    processes s !! p = Some (Flying f) -> Z.of_nat (String.length text) <= MAX_FLIGHT_PAYLOAD ->
    step s (mkSystem (leave (world s) f text true) (processes s) (established s)
              ((flight_attempt f, text) :: published s))
| step_not_left p f text writes :
    processes s !! p = Some (Flying f) -> leave (world s) f text writes = world s -> step s s
| step_drop p f :
    processes s !! p = Some (Flying f) ->
    step s (set_process s (release (world s) f).1 p Gone)
| step_death p st :
    processes s !! p = Some st -> step s (set_process s (drop_locks (world s) p) p Gone)
| step_sweep_lock p w i w' :
    sweeps = true -> processes s !! p = None -> open (world s) = (w, i) ->
    try_lock w p i = (w', true) -> step s (set_process s w' p (Pruning i 0))
| step_sweep p i stage w st :
    processes s !! p = Some (Pruning i stage) -> prune_stage (world s) i stage = (w, st) ->
    step s (set_process s w p st)
| step_sweep_leftover w :
    sweeps = true ->
    w = set_record (world s) None \/ w = set_attempt (world s) None ->
    step s (mkSystem w (processes s) (established s) (published s)).

Definition initial : System := mkSystem (mkWorld None 0 ∅ None None) ∅ [] [].
Definition reachable (s : System) : Prop := rtc step initial s.

(** The processes that occupy the invocation: they hold a lock and compile. *)
Definition occupies (s : System) (p : nat) : Prop :=
  match processes s !! p with
  | Some (Flying f) => lock f <> None
  | Some (Locked _ _) => True
  | _ => False
  end.
End Flights.

(** ** Waiting: proofs *)

Lemma wait_loop_ends jittered overhead most fuel n limit elapsed delay :
  (forall n d, POLL_INITIAL <= d -> d <= jittered n d) ->
  (forall n, 0 <= overhead n <= most) ->
  POLL_INITIAL <= delay -> 0 <= elapsed <= limit + most -> 0 <= limit ->
  limit - elapsed <= POLL_INITIAL * (Z.of_nat fuel - 1) -> (0 < fuel)%nat ->
  exists stopped, wait_loop jittered overhead fuel n limit elapsed delay = Some stopped /\
    limit <= stopped <= limit + most.
Proof.
  intros Hj Ho. revert n elapsed delay. unfold POLL_INITIAL in *.
  induction fuel as [|fuel IH]; intros n elapsed delay Hd He Hl Hf H0; [lia|].
  cbn [wait_loop]. unfold wait_round. destruct (Z.leb_spec limit elapsed).
  - eexists. split; [done|lia].
  - specialize (Hj n delay Hd). specialize (Ho n). unfold saturating_sub, FLIGHT_POLL_MAX.
    apply IH; lia.
Qed.

(** Waiting behind another build is bounded.  The limit is four times the
    compile time the last prediction recorded, and at least ten minutes; while
    the lock stays taken the wait loop gives up after at most one round per
    initial delay, not before the limit, and later only by what one round takes
    besides its sleep, since no sleep reaches past the limit. *)
Lemma waiting_is_bounded compiler_duration_ns record jittered overhead most :
  (forall n d, POLL_INITIAL <= d -> d <= jittered n d) ->
  (forall n, 0 <= overhead n <= most) ->
  let limit := flight_wait_limit compiler_duration_ns record in
  FLIGHT_WAIT_MIN <= limit /\
  (forall ns, mbind (fun r => compiler_duration_ns (payload r)) record = Some ns ->
    limit = Z.max (ns * 4) FLIGHT_WAIT_MIN) /\
  exists stopped,
    wait_loop jittered overhead (Z.to_nat (limit / POLL_INITIAL) + 2) 0 limit 0 POLL_INITIAL
      = Some stopped /\ limit <= stopped <= limit + most.
Proof.
  intros Hj Ho limit.
  assert (Hmin : FLIGHT_WAIT_MIN <= limit).
  { unfold limit, flight_wait_limit. destruct (mbind _ record); lia. }
  split_and!; [done| |].
  - intros ns Hns. unfold limit, flight_wait_limit. by rewrite Hns.
  - assert (0 <= limit) by (unfold FLIGHT_WAIT_MIN in Hmin; lia).
    pose proof (Z.div_mod limit POLL_INITIAL ltac:(done)).
    pose proof (Z.mod_pos_bound limit POLL_INITIAL ltac:(done)).
    pose proof (Z.div_pos limit POLL_INITIAL ltac:(lia) ltac:(done)). specialize (Ho 0%nat) as Ho0.
    apply wait_loop_ends; [done|done|lia|lia|lia| |lia]. unfold POLL_INITIAL in *. lia.
Qed.

(** ** Locks: proofs *)

(** The inode a process has open, and the one it holds locked. *)
Definition mentions (st : Process) : option nat :=
  match st with
  | Opened i _ | Locked i _ | Pruning i _ => Some i
  | Flying f => lock f
  | Gone => None
  end.
Definition held (st : Process) : option nat :=
  match st with
  | Opened _ _ | Gone => None
  | Locked i _ => Some i
  | Flying f => lock f
  | Pruning i stage => if (stage <? 3)%nat then Some i else None
  end.

Definition locks_inv (s : System) : Prop :=
  forall p st i, processes s !! p = Some st -> held st = Some i -> locks (world s) !! i = Some p.

(** A step of [p] alone: it keeps the locks others hold. *)
Lemma locks_inv_update s p st w es ps :
  locks_inv s ->
  (forall i q, q <> p -> locks (world s) !! i = Some q -> locks w !! i = Some q) ->
  (forall i, held st = Some i -> locks w !! i = Some p) ->
  locks_inv (mkSystem w (<[p := st]> (processes s)) es ps).
Proof.
  intros Hi Hothers Hown q st' i Hq Hh. simpl in *. apply lookup_insert_Some in Hq as [[<- <-]|[Hne Hq]].
  - by apply Hown.
  - apply Hothers; [done|]. by eapply Hi.
Qed.

Lemma unlock_others w p i j q :
  locks w !! i = Some p -> q <> p -> locks w !! j = Some q -> locks (unlock w i) !! j = Some q.
Proof. intros Hp Hne Hq. simpl. rewrite lookup_delete_ne; [done|]. intros ->. congruence. Qed.

Lemma try_lock_spec w p i w' b :
  try_lock w p i = (w', b) ->
  (forall j q, locks w !! j = Some q -> locks w' !! j = Some q) /\
  (b = true -> locks w' !! i = Some p) /\ path w' = path w /\ next_inode w' = next_inode w /\
  attempt_file w' = attempt_file w /\ record_file w' = record_file w.
Proof.
  unfold try_lock. destruct (locks w !! i) as [x|] eqn:E; intros [= <- <-]; simpl.
  - by split_and!.
  - split_and!; try done.
    + intros j q Hj. rewrite lookup_insert_ne; [done|]. intros ->. congruence.
    + intros _. apply lookup_insert_eq.
Qed.

Lemma open_locks w w' i : open w = (w', i) ->
  locks w' = locks w /\ path w' = Some i /\ attempt_file w' = attempt_file w /\
  record_file w' = record_file w /\ (path w = None \/ path w = Some i).
Proof. unfold open. destruct (path w) as [j|] eqn:E; intros [= <- <-]; simpl; split_and!; auto. Qed.

Lemma drop_locks_others w p j q :
  q <> p -> locks w !! j = Some q -> locks (drop_locks w p) !! j = Some q.
Proof. intros Hne Hq. simpl. by apply map_lookup_filter_Some. Qed.

Lemma locks_inv_step a inv sweeps s s' : step a inv sweeps s s' -> locks_inv s -> locks_inv s'.
Proof.
  intros Hstep Hi. destruct Hstep as
    [p w i Hp Ho|p i b w st Hp Ht|p i Hp|p i b fresh w f Hp Hf He|p i b fresh w Hp He|p f hit w f' Hp Hf
    |p f text Hp Hl|p f text wr Hp Hl|p f Hp|p st Hp|p w i w' Hs Hp Ho Ht|p i stage w st Hp Hst|w Hs Hw];
    unfold set_process; try (apply locks_inv_update; [done| |]).
  - intros j q _. destruct (open_locks _ _ _ Ho) as (Hl & _). by rewrite Hl.
  - done.
  - intros j q _. unfold try_enter in Ht. destruct (try_lock _ _ _) as [w' t] eqn:E.
    injection Ht as <- _. apply try_lock_spec in E as [E _]. apply E.
  - unfold try_enter in Ht. destruct (try_lock _ _ _) as [w' t] eqn:E. injection Ht as <- <-.
    apply try_lock_spec in E as (_ & E & _). destruct t; simpl; [|done]. intros j [= <-]. by apply E.
  - done.
  - done.
  - by injection He as <- <-.
  - injection He as <- <-. simpl. intros j [= <-]. by eapply Hi.
  - injection He as <-. intros j q Hne Hq. eapply unlock_others; [|done|done]. by eapply Hi.
  - done.
  - unfold finish_restore, release in Hf. intros j q Hne Hq.
    destruct (waited f), hit, (published_while_waiting f), (lock f) eqn:El; injection Hf as <- <-; try done.
    eapply unlock_others; [|done|done]. by eapply Hi.
  - unfold finish_restore, release in Hf. intros j Hj.
    destruct (waited f), hit, (published_while_waiting f); injection Hf as <- <-; try done; by eapply Hi.
  - intros q st i Hq Hh. simpl in *. unfold leave. destruct (_ <? _); simpl; by eapply Hi.
  - done.
  - intros j q Hne Hq. simpl. destruct (lock f) eqn:El; [|done].
    eapply unlock_others; [|done|done]. by eapply Hi.
  - done.
  - intros j q Hne Hq. by apply drop_locks_others.
  - done.
  - intros j q _ Hq. apply open_locks in Ho as (Ho & _). apply try_lock_spec in Ht as [Ht _].
    apply Ht. by rewrite Ho.
  - simpl. intros j [= <-]. apply try_lock_spec in Ht as (_ & Ht & _). by apply Ht.
  - intros j q Hne Hq. destruct stage as [|[|[|stage]]]; injection Hst as <- <-; try done.
    eapply unlock_others; [|done|done]. by eapply Hi.
  - intros j Hj. destruct stage as [|[|[|stage]]]; injection Hst as <- <-; simpl in Hj; try done;
      injection Hj as <-; simpl; by eapply Hi.
  - intros q st i Hq Hh. simpl in *. destruct Hw as [-> | ->]; simpl; by eapply Hi.
Qed.

Lemma locks_inv_reachable a inv sweeps s : reachable a inv sweeps s -> locks_inv s.
Proof.
  apply (rtc_ind_r (fun s => locks_inv s)).
  - intros p st i Hp. simpl in Hp. by rewrite lookup_empty in Hp.
  - intros s1 s2 _ Hstep Hi. by eapply locks_inv_step.
Qed.

(** Without a sweep the path keeps its inode, and nothing else is open. *)
Definition path_inv (s : System) : Prop :=
  forall p st, processes s !! p = Some st ->
    (forall i, mentions st = Some i -> path (world s) = Some i) /\
    match st with Pruning _ _ => False | _ => True end.

Lemma path_inv_update s p st w es ps :
  path_inv s -> (forall i, path (world s) = Some i -> path w = Some i) ->
  (forall i, mentions st = Some i -> path w = Some i) ->
  match st with Pruning _ _ => False | _ => True end ->
  path_inv (mkSystem w (<[p := st]> (processes s)) es ps).
Proof.
  intros Hi Hw Hst Hnp q st' Hq. simpl in *. apply lookup_insert_Some in Hq as [[<- <-]|[Hne Hq]]; [done|].
  destruct (Hi _ _ Hq) as [Hm Hp]. split; [|done]. intros i Hj. by apply Hw, Hm.
Qed.

Lemma path_inv_step a inv s s' : step a inv false s s' -> path_inv s -> path_inv s'.
Proof.
  intros Hstep Hi. destruct Hstep as
    [p w i Hp Ho|p i b w st Hp Ht|p i Hp|p i b fresh w f Hp Hf He|p i b fresh w Hp He|p f hit w f' Hp Hf
    |p f text Hp Hl|p f text wr Hp Hl|p f Hp|p st Hp|p w i w' Hs Hp Ho Ht|p i stage w st Hp Hst|w Hs Hw];
    try discriminate Hs; unfold set_process;
    try (pose proof (Hi _ _ Hp) as [Hm _]; apply path_inv_update; simpl in *; try done).
  - destruct (open_locks _ _ _ Ho) as (_ & Hpath & _ & _ & Hold). apply path_inv_update; try done.
    + intros j Hj. destruct Hold; congruence.
    + by intros j [= <-].
  - unfold try_enter in Ht. destruct (try_lock _ _ _) as [w' t] eqn:E. injection Ht as <- _.
    apply try_lock_spec in E as (_ & _ & E & _). intros j. by rewrite E.
  - unfold try_enter in Ht. destruct (try_lock _ _ _) as [w' t] eqn:E. injection Ht as <- <-.
    apply try_lock_spec in E as (_ & _ & E & _). intros j Hj. rewrite E. apply Hm. by destruct t.
  - unfold try_enter in Ht. destruct (try_lock _ _ _) as [w' t]. injection Ht as _ <-. by destruct t.
  - by injection He as <- <-.
  - injection He as <- <-. intros j Hj. by apply Hm.
  - by injection He as <-.
  - unfold finish_restore, release in Hf.
    destruct (waited f), hit, (published_while_waiting f), (lock f); by injection Hf as <- <-.
  - unfold finish_restore, release in Hf. intros j Hj.
    destruct (waited f), hit, (published_while_waiting f), (lock f) eqn:El; injection Hf as <- <-;
      simpl in *; try congruence; apply Hm; congruence.
  - intros q st Hq. simpl in *. destruct (Hi _ _ Hq) as [Hmq Hnp]. split; [|done]. intros j Hj.
    unfold leave. destruct (_ <? _); simpl; by apply Hmq.
  - done.
  - by destruct (lock f).
  - by destruct (Hi _ _ Hp) as [_ []].
  - by destruct (Hi _ _ Hp) as [_ []].
  - by destruct (Hi _ _ Hp) as [_ []].
Qed.

Lemma path_inv_reachable a inv s : reachable a inv false s -> path_inv s.
Proof.
  apply (rtc_ind_r (fun s => path_inv s)).
  - intros p st Hp. simpl in Hp. by rewrite lookup_empty in Hp.
  - intros s1 s2 _ Hstep Hi. by eapply path_inv_step.
Qed.

Lemma occupies_held s p : occupies s p ->
  exists st i, processes s !! p = Some st /\ held st = Some i /\ mentions st = Some i.
Proof.
  unfold occupies. destruct (processes s !! p) as [[i b|i b|f|i n|]|] eqn:E; try done; intros Ho.
  - by exists (Locked i b), i.
  - exists (Flying f). simpl. destruct (lock f) as [i|]; [by exists i|done].
Qed.

(** C20: one compilation of an invocation at a time.  As long as no sweep removes
    files, no two processes ever hold the flight of an invocation together,
    whichever of them crash, time out or fail to write. *)
Theorem flights_are_exclusive a inv s p q :
  reachable a inv false s -> occupies s p -> occupies s q -> p = q.
Proof.
  intros Hr Hp Hq. pose proof (locks_inv_reachable _ _ _ _ Hr) as Hl.
  pose proof (path_inv_reachable _ _ _ Hr) as Hpath.
  apply occupies_held in Hp as (st & i & Hp & Hhp & Hmp).
  apply occupies_held in Hq as (st' & j & Hq & Hhq & Hmq).
  apply (Hpath _ _ Hp) in Hmp. apply (Hpath _ _ Hq) in Hmq.
  pose proof (Hl _ _ _ Hp Hhp). pose proof (Hl _ _ _ Hq Hhq). congruence.
Qed.

(** ** The handoff: proofs *)

Definition published_by (s : System) (r : FlightRecord) : Prop :=
  exists a, attempt r = Some a /\ In (a, payload r) (published s).

(** What a handed-over prediction is. *)
Definition handed_over (s : System) (p : nat) (f : Flight) : Prop :=
  exists newer a j older text,
    established s = newer ++ (flight_attempt f, p) :: (a, j) :: older /\
    In (a, text) (published s) /\ inherited f = Some text.

Record handoff_inv (s : System) : Prop := {
  hi_attempt : forall a, attempt_file (world s) = Some a ->
    exists j older, established s = (a, j) :: older;
  hi_record : forall r, record_file (world s) = Some (Some r) -> published_by s r;
  hi_flight : forall p f, processes s !! p = Some (Flying f) ->
    published_while_waiting f = true -> handed_over s p f
}.

Lemma handoff_inv_same s w p st :
  handoff_inv s -> attempt_file w = attempt_file (world s) -> record_file w = record_file (world s) ->
  (forall f, st = Flying f -> published_while_waiting f = true -> handed_over s p f) ->
  handoff_inv (set_process s w p st).
Proof.
  intros [H1 H2 H3] Ha Hr Hf. split; simpl.
  - rewrite Ha. apply H1.
  - rewrite Hr. apply H2.
  - intros q f Hq Hpub. apply lookup_insert_Some in Hq as [[<- Hq]|[Hne Hq]]; [by apply Hf|by apply H3].
Qed.

Lemma handed_over_weaken s p f es ps newer :
  handed_over s p f -> es = newer ++ established s ->
  (forall x, In x (published s) -> In x ps) ->
  handed_over (mkSystem (world s) (processes s) es ps) p f.
Proof.
  intros (n & a & j & older & text & He & Hp & Hi) -> Hps.
  exists (newer ++ n), a, j, older, text. simpl. split_and!; [|by apply Hps|done].
  rewrite He. by rewrite app_assoc.
Qed.

Lemma handed_over_world s w pr p f es ps :
  handed_over (mkSystem (world s) (processes s) es ps) p f -> handed_over (mkSystem w pr es ps) p f.
Proof. done. Qed.

Lemma establish_handoff s p i b a inv fresh w f :
  handoff_inv s -> establish (world s) i b a inv fresh true = (w, Flying f) ->
  handoff_inv (mkSystem w (<[p := Flying f]> (processes s)) ((fresh, p) :: established s) (published s)).
Proof.
  intros [H1 H2 H3] [= <- <-]. split; simpl.
  - intros at_ [= <-]. by exists p, (established s).
  - exact H2.
  - intros q f Hq Hpub. apply lookup_insert_Some in Hq as [[<- [= <-]]|[Hne Hq]].
    + simpl in Hpub. apply andb_prop in Hpub as [_ Hpub].
      destruct (attempt_file (world s)) as [at_|] eqn:Hat; [|done]. simpl in Hpub.
      apply bool_decide_eq_true in Hpub. destruct (H1 _ eq_refl) as (j & older & He).
      unfold find_record, option_filter in *.
      destruct (record_file (world s)) as [[r|]|]; simpl in Hpub; try done.
      destruct (_ && _)%bool eqn:Ematch; simpl in Hpub; [|done].
      destruct (H2 r eq_refl) as (a' & Ha & Hin). exists [], at_, j, older, (payload r). simpl.
      rewrite He, Ematch. simpl. split_and!; [done| |done]. congruence.
    + eapply handed_over_world, (handed_over_weaken _ _ _ _ _ [(fresh, p)]); [by apply H3|done|done].
Qed.

Lemma leave_handoff s f text :
  handoff_inv s ->
  handoff_inv (mkSystem (leave (world s) f text true) (processes s) (established s)
    ((flight_attempt f, text) :: published s)).
Proof.
  intros [H1 H2 H3]. split; simpl.
  - unfold leave. by destruct (_ <? _).
  - unfold leave. destruct (_ <? _); simpl.
    + intros r Hr. destruct (H2 r Hr) as (a & Ha & Hin). exists a. split; [done|]. by right.
    + intros r [= <-]. exists (flight_attempt f). split; [done|]. by left.
  - intros q g Hq Hpub. eapply handed_over_world, (handed_over_weaken _ _ _ _ _ []); [by apply H3|done|].
    intros x Hx. by right.
Qed.

Lemma handoff_inv_step a inv sweeps s s' : step a inv sweeps s s' -> handoff_inv s -> handoff_inv s'.
Proof.
  intros Hstep Hi. destruct Hstep as
    [p w i Hp Ho|p i b w st Hp Ht|p i Hp|p i b fresh w f Hp Hf He|p i b fresh w Hp He|p f hit w f' Hp Hf
    |p f text Hp Hl|p f text wr Hp Hl|p f Hp|p st Hp|p w i w' Hs Hp Ho Ht|p i stage w st Hp Hst|w Hs Hw].
  - destruct (open_locks _ _ _ Ho) as (_ & _ & Ha & Hr & _). by apply handoff_inv_same.
  - unfold try_enter in Ht. destruct (try_lock _ _ _) as [w' t] eqn:E. injection Ht as <- <-.
    apply try_lock_spec in E as (_ & _ & _ & _ & Ea & Er). apply handoff_inv_same; try done. by destruct t.
  - by apply handoff_inv_same.
  - by eapply establish_handoff.
  - injection He as <-. by apply handoff_inv_same.
  - pose proof (hi_flight s Hi _ _ Hp) as Hf0. unfold finish_restore, release in Hf.
    destruct (waited f), hit, (published_while_waiting f) eqn:Epub, (lock f); injection Hf as <- <-;
      (apply handoff_inv_same; [done|done|done|]); intros g [= <-] Hg; try congruence;
      by apply Hf0.
  - by apply leave_handoff.
  - done.
  - apply handoff_inv_same; [done| | |done]; simpl; by destruct (lock f).
  - by apply handoff_inv_same.
  - destruct (open_locks _ _ _ Ho) as (_ & _ & Ha & Hr & _).
    apply try_lock_spec in Ht as (_ & _ & _ & _ & Ea & Er). apply handoff_inv_same; congruence.
  - destruct stage as [|[|[|stage]]]; injection Hst as <- <-; try (by apply handoff_inv_same);
      destruct Hi as [H1 H2 H3]; split; simpl; try done;
      intros q f Hq Hpub; apply lookup_insert_Some in Hq as [[_ ?]|[_ Hq]]; try done; by apply H3.
  - destruct Hi as [H1 H2 H3]. destruct Hw as [-> | ->]; split; simpl; done.
Qed.

Lemma handoff_inv_reachable a inv sweeps s : reachable a inv sweeps s -> handoff_inv s.
Proof.
  apply (rtc_ind_r (fun s => handoff_inv s)).
  - by split.
  - intros s1 s2 _ Hstep Hi. by eapply handoff_inv_step.
Qed.

(** C21: the handoff is from the predecessor.  A flight that reports that its
    prediction was published while it waited inherits exactly a prediction left
    by the attempt established immediately before its own, whatever crashes,
    failed writes, late publications and sweeps came in between. *)
Theorem handoff_is_from_predecessor a inv sweeps s p f :
  reachable a inv sweeps s -> processes s !! p = Some (Flying f) ->
  published_while_waiting f = true ->
  exists newer previous holder older text,
    established s = newer ++ (flight_attempt f, p) :: (previous, holder) :: older /\
    In (previous, text) (published s) /\ inherited f = Some text.
Proof. intros Hr Hp Hpub. by apply (hi_flight s (handoff_inv_reachable _ _ _ _ Hr)). Qed.

(** ** Witnesses *)

(** Take one step and compute the state it leads to. *)
Ltac take r :=
  eapply rtc_l; [r|];
  match goal with |- rtc _ ?s _ => let t := eval vm_compute in s in change s with t end.
Ltac opens p := take ltac:(eapply (step_open _ _ _ _ p); vm_compute; reflexivity).
Ltac tries p := take ltac:(eapply (step_try _ _ _ _ p); vm_compute; reflexivity).
Ltac sweeps p := take ltac:(eapply (step_sweep _ _ _ _ p); vm_compute; reflexivity).
Ltac establishes p fresh :=
  take ltac:(eapply (step_establish _ _ _ _ p _ _ fresh);
    [vm_compute; reflexivity|apply (bool_decide_eq_true_1 _); vm_compute; reflexivity
    |vm_compute; reflexivity]).

(** Two builds meet: the second waits, the first leaves its prediction. *)
Lemma demo_handoff : exists s, reachable "rustc" "i" false s /\ exists f,
  processes s !! 1%nat = Some (Flying f) /\ published_while_waiting f = true /\
  inherited f = Some "prediction"%string /\ lock f = Some 0%nat.
Proof.
  eexists. split.
  - unfold reachable, initial. opens 0%nat. tries 0%nat. opens 1%nat. tries 1%nat.
    establishes 0%nat "A"%string.
    take ltac:(eapply (step_leave _ _ _ _ 0 _ "prediction"); [vm_compute; reflexivity|done]).
    take ltac:(eapply (step_drop _ _ _ _ 0); vm_compute; reflexivity).
    tries 1%nat. establishes 1%nat "B"%string. apply rtc_refl.
  - eexists. split; [vm_compute; reflexivity|]. done.
Qed.

Lemma waiting_is_bounded_witness :
  let limit := flight_wait_limit (fun _ => Some (1000 * 1000000000))
    (Some (mkRecord 1 "rustc" "i" "{}" None)) in
  limit = 4000 * 1000000000 /\
  exists stopped,
    wait_loop (fun _ d => d) (fun _ => 5) (Z.to_nat (limit / POLL_INITIAL) + 2) 0 limit 0 POLL_INITIAL
      = Some stopped /\ limit <= stopped <= limit + 5.
Proof.
  split; [by vm_compute|].
  pose proof (waiting_is_bounded (fun _ => Some (1000 * 1000000000))
    (Some (mkRecord 1 "rustc" "i" "{}" None)) (fun _ d => d) (fun _ => 5) 5
    (fun _ d _ => Z.le_refl d) (fun _ => ltac:(lia))) as H.
  exact (proj2 (proj2 H)).
Defined.

Lemma flights_are_exclusive_witness :
  exists s, reachable "rustc" "i" false s /\ occupies s 1%nat /\
  forall p, occupies s p -> p = 1%nat.
Proof.
  destruct demo_handoff as (s & Hr & f & Hp & _ & _ & Hl). exists s.
  assert (Ho : occupies s 1%nat) by (unfold occupies; rewrite Hp; congruence).
  split; [done|]. split; [done|]. intros p Hp'. by apply (flights_are_exclusive "rustc" "i" s).
Defined.

Lemma handoff_is_from_predecessor_witness :
  exists s f previous text, reachable "rustc" "i" false s /\ processes s !! 1%nat = Some (Flying f) /\
  In (previous, text) (published s) /\ inherited f = Some text.
Proof.
  destruct demo_handoff as (s & Hr & f & Hp & Hpub & _ & _).
  destruct (handoff_is_from_predecessor "rustc" "i" false s 1 f Hr Hp Hpub) as (n & a & j & o & t & _ & Ha & Hi).
  by exists s, f, a, t.
Defined.

(** A sweep unlinks the lock file after it released the lock: a build that
    takes the lock in between keeps the unlinked file, and the next build makes
    a new one. *)
Lemma sweep_admits_two_builds :
  exists s p q, reachable "rustc" "i" true s /\ occupies s p /\ occupies s q /\ p <> q.
Proof.
  eexists _, 1%nat, 2%nat. split_and!.
  - unfold reachable, initial.
    take ltac:(eapply (step_sweep_lock _ _ _ _ 0); vm_compute; reflexivity).
    do 3 sweeps 0%nat.
    opens 1%nat. tries 1%nat. establishes 1%nat "A"%string.
    sweeps 0%nat.
    opens 2%nat. tries 2%nat. establishes 2%nat "B"%string. apply rtc_refl.
  - vm_compute. done.
  - vm_compute. done.
  - done.
Qed.
