(* ===== verification/UnitGraph.v ===== *)
(** * Unit identities

    Models [src/crates/mbx/src/unit_graph.rs]: the unit a rustc invocation
    produces and the units it reads, taken from the names Cargo gives files
    and directories in its two layouts.  Arguments and paths are byte strings;
    an argument or a name that is not UTF-8 is skipped as the code skips it.

    The theorems: whatever spelling the options have, the unit is the last
    hash given and the dependencies are exactly the hashes of the [--extern]
    artifacts and of the build script run, each once and in order; and the
    name a build script's run gets is the one its readers are recorded with,
    in both layouts. *)

From stdpp Require Import base list gmap strings sorting.
From Stdlib Require Import ZArith Lia Ascii.
From S2P Require Import Prelude Strings.
Local Open Scope string_scope.

(** ** Names *)

Definition is_hash (value : string) : bool :=
  negb (String.eqb value "") && all_chars is_ascii_hexdigit value.

Definition is_unit_hash (text : string) : bool :=
  (String.length text =? 16)%nat && all_chars is_ascii_hexdigit text.

(** The hash in a [<package>-<hash>] name. *)
Definition directory_hash (name : string) : option string :=
  '(_, hash) ← rsplit_once "-" name;
  if is_hash hash then Some hash else None.

Definition names (p : option Path) (n : string) : bool :=
  bool_decide (p ≫= file_name = Some n).

(** The hash naming a unit's directory, in either layout. *)
Definition unit_directory_hash (directory : Path) : option string :=
  name ← file_name directory;
  directory ← (if String.eqb name "out" then parent directory else Some directory);
  name ← file_name directory;
  name ← to_str name;
  if is_hash name && names (parent directory ≫= parent) "build" then Some name
  else directory_hash name.

(** The run a build script's [OUT_DIR] belongs to. *)
Definition build_script_run (out_dir : Path) : option string :=
  name ← file_name out_dir;
  if negb (String.eqb name "out") then None
  else (fun hash => "run-" ++ hash) <$> unit_directory_hash out_dir.

(** Whether a directory is the output directory a unit owns alone. *)
Definition is_unit_out_dir (directory : Path) : bool :=
  names (Some directory) "out" &&
  is_some_and is_unit_hash ((parent directory ≫= file_name) ≫= to_str) &&
  names ((parent directory ≫= parent) ≫= parent) "build".

(** The hash in a compiler artifact's file name. *)
Definition artifact_hash (path : Path) : option string :=
  ext ← extension path;
  ext ← to_str ext;
  if negb (bool_decide (ext ∈ ["rlib"; "rmeta"; "so"; "dylib"; "dll"])) then None
  else
    stem ← file_stem path;
    stem ← to_str stem;
    directory_hash stem.

Definition build_script_run_unit (out_dir : option Path) (script : Path)
    : option string * list string :=
  let unit := out_dir ≫= build_script_run in
  let compilation := parent script ≫= unit_directory_hash in
  (unit, option_list compilation).

(** ** Invocations *)

(** The codegen options of a command line, however each is spelled. *)
Fixpoint codegen_options_of (arguments : list string) : list string :=
  match arguments with
  | [] => []
  | argument :: arguments =>
      if String.eqb argument "-C" || String.eqb argument "--codegen" then
        match arguments with
        | [] => []
        | option :: arguments => option :: codegen_options_of arguments
        end
      else
        match option_or (strip_prefix "-C" argument) (strip_prefix "--codegen=" argument) with
        | Some option =>
            if negb (String.eqb option "") then option :: codegen_options_of arguments
            else codegen_options_of arguments
        | None => codegen_options_of arguments
        end
  end.

Definition codegen_options (arguments : list string) : list string :=
  codegen_options_of (omap to_str arguments).

(** The hash of an [--extern] value. *)
Definition extern_hash (value : string) : option string :=
  '(_, path) ← split_once "=" value;
  artifact_hash (path_of path).

(** The scan for [--out-dir] and [--extern]. *)
Fixpoint scan_arguments (arguments : list string) (out_directory : option string)
    (dependencies : list string) : option string * list string :=
  match arguments with
  | [] => (out_directory, dependencies)
  | argument :: arguments =>
      if String.eqb argument "--out-dir" then
        match arguments with
        | [] => (out_directory, dependencies)
        | output :: arguments =>
            scan_arguments arguments (unit_directory_hash (path_of output)) dependencies
        end
      else
        match strip_prefix "--out-dir=" argument with
        | Some output =>
            scan_arguments arguments (unit_directory_hash (path_of output)) dependencies
        | None =>
            if String.eqb argument "--extern" then
              match arguments with
              | [] => (out_directory, dependencies)
              | value :: arguments =>
                  scan_arguments arguments out_directory
                    (dependencies ++ option_list (extern_hash value))%list
              end
            else
              scan_arguments arguments out_directory
                (dependencies ++ option_list (strip_prefix "--extern=" argument ≫= extern_hash))%list
        end
  end.

(** [Vec::dedup]: drop repeated neighbours. *)
Fixpoint dedup (l : list string) : list string :=
  match l with
  | a :: (b :: _) as rest => if String.eqb a b then dedup rest else a :: dedup rest
  | _ => l
  end.

(** The hash an option names the unit with. *)
Definition option_hash (setting : string) : option string :=
  value ← strip_prefix "extra-filename=" setting;
  let hash := trim_start "-" value in
  if is_hash hash then Some hash else None.

Definition rustc_unit (arguments : list string) (out_dir : option Path)
    : option string * list string :=
  let unit := last (omap option_hash (codegen_options arguments)) in
  let '(out_directory, dependencies) := scan_arguments (omap to_str arguments) None [] in
  let dependencies := (dependencies ++ option_list (out_dir ≫= build_script_run))%list in
  (option_or unit out_directory, dedup (merge_sort string_le dependencies)).

Example rustc_unit_example :
  rustc_unit ["--crate-name"; "app"; "-C"; "metadata=0123"; "-C"; "extra-filename=-5d4c3b2a";
      "--extern"; "engine=/t/debug/deps/libengine-aa11.rmeta";
      "--extern=serde_derive=/t/debug/deps/libserde_derive-bb22.so";
      "--extern"; "noprelude:alloc=/t/debug/deps/liballoc-cc33.rlib"; "--extern"; "proc_macro"]
    (Some (path_of "/t/debug/build/app-dd44/out"))
  = (Some "5d4c3b2a", ["aa11"; "bb22"; "cc33"; "run-dd44"]).
Proof. vm_compute. reflexivity. Qed.

Example cargo_1_100_example :
  rustc_unit ["-C"; "extra-filename=-9d3b46aad32ac5c9";
      "--out-dir"; "/t/debug/build/api/9d3b46aad32ac5c9/out"; "--extern";
      "engine=/t/debug/build/engine/4bf0fb4dd59f0179/out/libengine-4bf0fb4dd59f0179.rmeta"]
    (Some (path_of "/t/debug/build/api/ba26dbedf7b267d9/out"))
  = (Some "9d3b46aad32ac5c9", ["4bf0fb4dd59f0179"; "run-ba26dbedf7b267d9"]) /\
  build_script_run_unit (Some (path_of "/t/debug/build/api/ba26dbedf7b267d9/out"))
    (path_of "/t/debug/build/api/b08ebe71fd39a343/out/build-script-build")
  = (Some "run-ba26dbedf7b267d9", ["b08ebe71fd39a343"]) /\
  rustc_unit ["--out-dir"; "/t/debug/deps"] None = (None, []) /\
  rustc_unit ["-C"; "extra-filename=custom"; "--extern"; "engine=/elsewhere/engine.rlib"]
    (Some (path_of "/generated")) = (None, []).
Proof. vm_compute. auto. Qed.

(** ** What an invocation says *)

(** The flags the scans look for, and the rest. *)
Inductive Flag := Setting (s : string) | OutDir (d : string) | Extern (v : string) | Other (a : string).

(** An argument neither scan reads. *)
Definition unread (a : string) : bool :=
  bool_decide (a ∉ ["-C"; "--codegen"; "--out-dir"; "--extern"]) &&
  forallb (fun p => is_none (strip_prefix p a)) ["-C"; "--codegen="; "--out-dir="; "--extern="].

(** The spellings of a flag; a value that is an argument of its own does not
    look like a flag. *)
Inductive spells : Flag -> list string -> Prop :=
| setting_short s : plain s = true -> spells (Setting s) ["-C"; s]
| setting_long s : plain s = true -> spells (Setting s) ["--codegen"; s]
| setting_short_joined s : s <> "" -> spells (Setting s) ["-C" ++ s]
| setting_long_joined s : s <> "" -> spells (Setting s) ["--codegen=" ++ s]
| out_dir_separate d : plain d = true -> spells (OutDir d) ["--out-dir"; d]
| out_dir_joined d : spells (OutDir d) ["--out-dir=" ++ d]
| extern_separate v : plain v = true -> spells (Extern v) ["--extern"; v]
| extern_joined v : spells (Extern v) ["--extern=" ++ v]
| other a : unread a = true -> spells (Other a) [a].

Inductive spells_all : list Flag -> list string -> Prop :=
| spells_nil : spells_all [] []
| spells_cons f fs a args : spells f a -> spells_all fs args -> spells_all (f :: fs) (a ++ args)%list.

Definition setting_of (f : Flag) : option string := match f with Setting s => Some s | _ => None end.
Definition out_dir_of (f : Flag) : option string := match f with OutDir d => Some d | _ => None end.
Definition extern_of (f : Flag) : option string := match f with Extern v => Some v | _ => None end.

(** ** Lemmas on the scans *)

Lemma unread_codegen a args : unread a = true -> codegen_options_of (a :: args) = codegen_options_of args.
Proof.
  unfold unread. intros [Ha Hp]%andb_prop. simp_bool. cbn [forallb] in Hp.
  repeat (rewrite not_elem_of_cons in Ha). destruct Ha as (H1 & H2 & _).
  apply andb_prop in Hp as [P1 [P2 _]%andb_prop].
  cbn [codegen_options_of]. apply String.eqb_neq in H1 as ->. apply String.eqb_neq in H2 as ->.
  simpl orb. cbv iota. revert P1 P2.
  by destruct (strip_prefix "-C" a), (strip_prefix "--codegen=" a).
Qed.

Lemma unread_scan a args o d : unread a = true -> scan_arguments (a :: args) o d = scan_arguments args o d.
Proof.
  unfold unread. intros [Ha Hp]%andb_prop. simp_bool. cbn [forallb] in Hp.
  repeat (rewrite not_elem_of_cons in Ha). destruct Ha as (_ & _ & H3 & H4 & _).
  apply andb_prop in Hp as [_ [_ [P3 [P4 _]%andb_prop]%andb_prop]%andb_prop].
  cbn [scan_arguments]. apply String.eqb_neq in H3 as ->. apply String.eqb_neq in H4 as ->.
  revert P3 P4. destruct (strip_prefix "--out-dir=" a), (strip_prefix "--extern=" a); try done.
  simpl. by rewrite app_nil_r.
Qed.

Lemma plain_unread a : plain a = true -> unread a = true.
Proof.
  intros Ha. unfold unread. cbn [forallb]. rewrite !plain_strip by done. simpl. rewrite andb_true_r.
  apply bool_decide_eq_true. rewrite !not_elem_of_cons. repeat split; try (by intros ->). apply not_elem_of_nil.
Qed.

Lemma spells_codegen f a args :
  spells f a ->
  codegen_options_of (a ++ args)%list = (option_list (setting_of f) ++ codegen_options_of args)%list.
Proof.
  destruct 1 as [s Hs|s Hs|s Hs|s Hs|d Hd|d|v Hv|v|a Ha]; try done;
    cbn [app setting_of option_list];
    try (by rewrite unread_codegen by done); try (by destruct s);
    [set (rest := d :: args)|set (rest := v :: args)];
    (transitivity (codegen_options_of rest); [done|apply unread_codegen; by apply plain_unread]).
Qed.

Lemma spells_scan f a args o d :
  spells f a ->
  scan_arguments (a ++ args)%list o d =
  scan_arguments args (match out_dir_of f with Some x => unit_directory_hash (path_of x) | None => o end)
    (d ++ option_list (extern_of f ≫= extern_hash))%list.
Proof.
  destruct 1 as [s Hs|s Hs|s Hs|s Hs|x Hd|x|v Hv|v|a Ha]; cbn [app];
    cbn [out_dir_of extern_of]; try done; try (simpl; by rewrite ?app_nil_r).
  1,2: transitivity (scan_arguments (s :: args) o (d ++ [])%list); [done|];
    rewrite unread_scan by (by apply plain_unread); done.
  rewrite unread_scan by done. by rewrite app_nil_r.
Qed.

Lemma spells_all_codegen fs args :
  spells_all fs args -> codegen_options_of args = omap setting_of fs.
Proof.
  induction 1 as [|f fs a args Hf _ IH]; [done|]. rewrite (spells_codegen f) by done.
  rewrite IH. by destruct f.
Qed.

Lemma spells_all_scan fs args o d :
  spells_all fs args ->
  scan_arguments args o d =
  (match last (omap out_dir_of fs) with Some x => unit_directory_hash (path_of x) | None => o end,
   (d ++ omap extern_hash (omap extern_of fs))%list).
Proof.
  intros Hs. revert o d. induction Hs as [|f fs a args Hf _ IH]; intros o d.
  - simpl. by rewrite app_nil_r.
  - rewrite (spells_scan f), IH by done. destruct f; simpl; rewrite ?app_nil_r; try done.
    + rewrite last_cons. by destruct (last _).
    + rewrite <- app_assoc. by destruct (extern_hash _).
Qed.

Lemma omap_to_str args : Forall (fun a => to_str a = Some a) args -> omap to_str args = args.
Proof. induction 1 as [|a args Ha _ IH]; [done|]. simpl. rewrite Ha. by f_equal. Qed.

(** ** Sorting *)

Definition string_lt (a b : string) : Prop := string_le a b /\ a <> b.

#[export] Instance string_le_trans : Transitive string_le.
Proof. intros a b c. apply string_leb_trans. Qed.
#[export] Instance string_le_total : Total string_le.
Proof. intros a b. apply string_leb_total. Qed.

Lemma elem_of_dedup x l : x ∈ dedup l <-> x ∈ l.
Proof.
  induction l as [|a [|b l] IH]; [done|done|]. change (dedup (a :: b :: l)) with
    (if String.eqb a b then dedup (b :: l) else a :: dedup (b :: l)).
  destruct (String.eqb_spec a b); [subst|]; rewrite ?elem_of_cons, IH, ?elem_of_cons; naive_solver.
Qed.

Lemma dedup_strict l : StronglySorted string_le l -> StronglySorted string_lt (dedup l).
Proof.
  induction l as [|a [|b l] IH]; intros Hs; [constructor|repeat constructor|].
  apply StronglySorted_inv in Hs as [Hs Hf]. specialize (IH Hs).
  change (dedup (a :: b :: l)) with (if String.eqb a b then dedup (b :: l) else a :: dedup (b :: l)).
  destruct (String.eqb_spec a b) as [->|Hne]; [done|]. constructor; [done|].
  apply Forall_forall. intros x Hx. rewrite elem_of_dedup in Hx. rewrite Forall_forall in Hf.
  split; [by apply Hf|]. intros ->. apply StronglySorted_inv in Hs as [_ Hb].
  apply elem_of_cons in Hx as [->|Hx]; [done|]. rewrite Forall_forall in Hb.
  apply Hne. apply String.leb_antisym; [apply Hf; left|by apply Hb].
Qed.

(** Whatever the spelling of its options, an invocation's unit is the hash
    of its last [extra-filename] that has one and otherwise the one its last
    [--out-dir] names, and its dependencies are exactly the hashes of its
    [--extern] artifacts and of the build script run it reads, each once and
    in order. *)
Lemma rustc_unit_reads_flags fs arguments out_dir :
  Forall (fun a => to_str a = Some a) arguments -> spells_all fs arguments ->
  let '(unit, dependencies) := rustc_unit arguments out_dir in
  unit = option_or (last (omap option_hash (omap setting_of fs)))
           (last (omap out_dir_of fs) ≫= fun d => unit_directory_hash (path_of d)) /\
  StronglySorted string_lt dependencies /\
  forall hash, hash ∈ dependencies <->
    hash ∈ omap extern_hash (omap extern_of fs) \/ out_dir ≫= build_script_run = Some hash.
Proof.
  intros Hu Hs. unfold rustc_unit, codegen_options. rewrite omap_to_str, (spells_all_codegen fs),
    (spells_all_scan fs) by done. split; [by destruct (last (omap out_dir_of fs))|].
  split; [apply dedup_strict, StronglySorted_merge_sort; apply _|].
  intros hash. rewrite elem_of_dedup, merge_sort_Permutation, elem_of_app. simpl app.
  destruct (out_dir ≫= build_script_run); simpl; rewrite ?elem_of_nil, ?list_elem_of_singleton; naive_solver.
Qed.

(** ** Cargo's names *)

Inductive Layout := Cargo_1_99 | Cargo_1_100.

Definition sub (dir name : string) : string := dir ++ String "/" name.

(** The directory a unit's outputs go to, and the [OUT_DIR] of a run. *)
Definition unit_dir (l : Layout) (root package hash : string) : string :=
  match l with
  | Cargo_1_99 => sub (sub root "build") (package ++ String "-" hash)
  | Cargo_1_100 => sub (sub (sub (sub root "build") package) hash) "out"
  end.
Definition run_dir (l : Layout) (root package hash : string) : string :=
  match l with
  | Cargo_1_99 => sub (unit_dir l root package hash) "out"
  | Cargo_1_100 => unit_dir l root package hash
  end.
Definition artifact (dir crate hash ext : string) : string :=
  sub dir ("lib" ++ crate ++ String "-" (hash ++ String "." ext)).

(** A package or crate name: ASCII, and no path of its own. *)
Definition ascii_char (a : Ascii.ascii) : bool := (N_of_ascii a <=? 127)%N.
Definition name_ok (n : string) : bool :=
  all_chars ascii_char n && without "/" n && negb (bool_decide (n ∈ [""; "."; ".."])).

Lemma hex_no_char c h : is_ascii_hexdigit c = false -> is_hash h = true -> without c h = true.
Proof. intros Hc [_ Hh]%andb_prop. by apply (without_of is_ascii_hexdigit). Qed.

Lemma hex_ascii h : is_hash h = true -> all_chars ascii_char h = true.
Proof.
  intros [_ Hh]%andb_prop. revert Hh. apply all_chars_impl. intros a.
  unfold is_ascii_hexdigit, is_ascii_digit, in_range, ascii_char. simpl N_of_ascii.
  rewrite !orb_true_iff, !andb_true_iff, !N.leb_le. lia.
Qed.

Lemma name_piece n : name_ok n = true -> without "/" n = true /\ piece false n = [Normal n].
Proof.
  intros [[_ Hw]%andb_prop Hn]%andb_prop. simp_bool. split; [done|].
  rewrite !not_elem_of_cons in Hn. destruct Hn as (H1 & H2 & H3 & _). unfold piece.
  apply String.eqb_neq in H1 as ->. apply String.eqb_neq in H2 as ->. by apply String.eqb_neq in H3 as ->.
Qed.

Lemma path_of_sub dir n : dir <> "" -> name_ok n = true -> path_of (sub dir n) = (path_of dir ++ [Normal n])%list.
Proof. intros Hd [? ?]%name_piece. by apply path_of_join. Qed.

Lemma sub_nonempty dir n : dir <> "" -> sub dir n <> "".
Proof. by destruct dir. Qed.

Lemma hash_name h : is_hash h = true -> name_ok h = true.
Proof.
  intros Hh. unfold name_ok. rewrite hex_ascii, hex_no_char by done. simpl.
  apply negb_true_iff, bool_decide_eq_false. rewrite !elem_of_cons, elem_of_nil.
  intros [->|[->|[->|[]]]]; done.
Qed.

Lemma joined_name p h : all_chars ascii_char p = true -> without "/" p = true -> is_hash h = true ->
  name_ok (p ++ String "-" h) = true.
Proof.
  intros Hp Hw Hh. unfold name_ok, without in *. rewrite !all_chars_app, Hp, Hw.
  cbn [all_chars]. rewrite hex_ascii by done. fold (without "/" h). rewrite hex_no_char by done. simpl.
  apply negb_true_iff, bool_decide_eq_false. rewrite !elem_of_cons, elem_of_nil.
  apply andb_prop in Hh as [Hh _]. destruct h as [|x h]; [done|].
  destruct p as [|a [|b [|c p]]]; intros [H|[H|[H|[]]]]; simplify_eq/=.
Qed.

Lemma directory_hash_joined p h : is_hash h = true -> directory_hash (p ++ String "-" h) = Some h.
Proof.
  intros Hh. unfold directory_hash. rewrite rsplit_once_app by (by apply hex_no_char). simpl. by rewrite Hh.
Qed.

Lemma name_to_str n : name_ok n = true -> to_str n = Some n.
Proof. intros [[Ha _]%andb_prop _]%andb_prop. by apply utf8_ascii. Qed.

Lemma not_hash_joined p h : is_hash (p ++ String "-" h) = false.
Proof.
  unfold is_hash. rewrite all_chars_app. cbn [all_chars].
  replace (is_ascii_hexdigit "-") with false by done. simpl. by rewrite !andb_false_r.
Qed.

Lemma joined_not_out p h : String.eqb (p ++ String "-" h) "out" = false.
Proof. apply String.eqb_neq. destruct p as [|a [|b [|c [|d p]]]]; intros H; simplify_eq/=. Qed.

Lemma hash_not_out h : is_hash h = true -> String.eqb h "out" = false.
Proof. intros Hh. apply String.eqb_neq. by intros ->. Qed.

(** The directory hash of [<package>-<hash>] and of [build/<package>/<hash>],
    with or without [out]. *)
Lemma joined_directory p q h : name_ok (q ++ String "-" h) = true -> is_hash h = true ->
  unit_directory_hash (p ++ [Normal (q ++ String "-" h)])%list = Some h.
Proof.
  intros Hn Hh. unfold unit_directory_hash. rewrite file_name_app. cbn [mbind option_bind].
  rewrite joined_not_out. cbn [mbind option_bind]. rewrite file_name_app. cbn [mbind option_bind].
  rewrite name_to_str by done. cbn [mbind option_bind]. rewrite not_hash_joined. by apply directory_hash_joined.
Qed.

Lemma nested_directory p q h : is_hash h = true ->
  unit_directory_hash (p ++ [Normal "build"; Normal q; Normal h])%list = Some h.
Proof.
  intros Hh. unfold unit_directory_hash.
  replace (p ++ [Normal "build"; Normal q; Normal h])%list with (((p ++ [Normal "build"]) ++ [Normal q]) ++ [Normal h])%list
    by (by rewrite <- !app_assoc).
  rewrite file_name_app. cbn [mbind option_bind]. rewrite hash_not_out by done. cbn [mbind option_bind].
  rewrite file_name_app. cbn [mbind option_bind]. rewrite name_to_str by (by apply hash_name).
  cbn [mbind option_bind]. rewrite Hh, parent_app. cbn [mbind option_bind]. rewrite parent_app.
  unfold names. cbn [mbind option_bind]. by rewrite file_name_app.
Qed.

Lemma out_directory p n :
  String.eqb n "out" = false -> 
  unit_directory_hash ((p ++ [Normal n]) ++ [Normal "out"])%list = unit_directory_hash (p ++ [Normal n])%list.
Proof.
  intros Hn. unfold unit_directory_hash. rewrite !file_name_app, !parent_app.
  cbn [mbind option_bind]. rewrite Hn. simpl String.eqb. cbv iota. cbn [mbind option_bind].
  by rewrite file_name_app.
Qed.

Lemma run_of_out p h : unit_directory_hash (p ++ [Normal "out"])%list = Some h ->
  build_script_run (p ++ [Normal "out"])%list = Some ("run-" ++ h).
Proof. intros H. unfold build_script_run. by rewrite file_name_app, H. Qed.

(** A Cargo unit directory, and its [OUT_DIR], as paths. *)
Lemma unit_dir_hash l root package hash :
  root <> "" -> name_ok package = true -> is_hash hash = true ->
  unit_directory_hash (path_of (unit_dir l root package hash)) = Some hash /\
  build_script_run (path_of (run_dir l root package hash)) = Some ("run-" ++ hash).
Proof.
  intros Hr Hp Hh. pose proof (hash_name _ Hh).
  assert (name_ok (package ++ String "-" hash) = true) as Hj
    by (apply andb_prop in Hp as [[? ?]%andb_prop _]; by apply joined_name).
  destruct l; cbn [unit_dir run_dir]; rewrite !path_of_sub by (try done; repeat apply sub_nonempty; done).
  - split; [by apply joined_directory|]. apply run_of_out. rewrite out_directory by apply joined_not_out.
    by apply joined_directory.
  - assert (unit_directory_hash (((((path_of root ++ [Normal "build"]) ++ [Normal package])
      ++ [Normal hash]) ++ [Normal "out"])%list) = Some hash) as E; [|split; [done|by apply run_of_out]].
    rewrite out_directory by (by apply hash_not_out). rewrite <- !app_assoc. by apply nested_directory.
Qed.

Lemma rustc_unit_name fs arguments out_dir :
  Forall (fun a => to_str a = Some a) arguments -> spells_all fs arguments ->
  (rustc_unit arguments out_dir).1 =
  option_or (last (omap option_hash (omap setting_of fs)))
    (last (omap out_dir_of fs) ≫= fun d => unit_directory_hash (path_of d)).
Proof.
  intros Hu Hs. unfold rustc_unit, codegen_options. rewrite omap_to_str, (spells_all_codegen fs),
    (spells_all_scan fs) by done. by destruct (last (omap out_dir_of fs)).
Qed.

Lemma rustc_unit_reads_run arguments out_dir r :
  out_dir ≫= build_script_run = Some r -> r ∈ (rustc_unit arguments out_dir).2.
Proof.
  intros Hr. unfold rustc_unit. destruct (scan_arguments _ _ _) as [o d]. rewrite Hr. simpl.
  rewrite elem_of_dedup, merge_sort_Permutation, elem_of_app. right. by apply list_elem_of_singleton.
Qed.

Lemma rustc_unit_reads_extern fs arguments out_dir value hash :
  Forall (fun a => to_str a = Some a) arguments -> spells_all fs arguments ->
  Extern value ∈ fs -> extern_hash value = Some hash -> hash ∈ (rustc_unit arguments out_dir).2.
Proof.
  intros Hu Hs Hin Hh. unfold rustc_unit. rewrite omap_to_str, (spells_all_scan fs) by done. simpl.
  rewrite elem_of_dedup, merge_sort_Permutation, elem_of_app. left.
  apply list_elem_of_omap. exists value. split; [|done]. apply list_elem_of_omap. by exists (Extern value).
Qed.

(** A build script's run is recorded under the name its readers are given
    as a dependency, and it depends on the unit that compiled the script, in
    both of Cargo's directory layouts and when the compilation is given no
    [extra-filename]. *)
Lemma build_script_edges_join l root package compiled ran fs compile_arguments reader_arguments :
  root <> "" -> name_ok package = true -> is_hash compiled = true -> is_hash ran = true ->
  Forall (fun a => to_str a = Some a) compile_arguments -> spells_all fs compile_arguments ->
  omap option_hash (omap setting_of fs) = [] ->
  last (omap out_dir_of fs) = Some (unit_dir l root package compiled) ->
  let out_dir := Some (path_of (run_dir l root package ran)) in
  let script := path_of (sub (unit_dir l root package compiled) "build-script-build") in
  exists compilation run,
    (rustc_unit compile_arguments None).1 = Some compilation /\
    build_script_run_unit out_dir script = (Some run, [compilation]) /\
    run ∈ (rustc_unit reader_arguments out_dir).2.
Proof.
  intros Hr Hp Hc Hh Hu Hs Hn Hl out_dir script.
  destruct (unit_dir_hash l root package compiled) as [Hd _]; [done..|].
  destruct (unit_dir_hash l root package ran) as [_ Hb]; [done..|].
  assert (unit_dir l root package compiled <> "") as Hne by (by destruct l, root).
  exists compiled, ("run-" ++ ran). split; [|split; [|by apply rustc_unit_reads_run]].
  - rewrite (rustc_unit_name fs), Hn, Hl by done. simpl. by rewrite Hd.
  - unfold build_script_run_unit, out_dir, script. rewrite path_of_sub by done.
    rewrite parent_app. cbn [mbind option_bind]. by rewrite Hd, Hb.
Qed.

Lemma last_omap_some {A B} (f : A -> option B) l x y :
  last l = Some x -> f x = Some y -> last (omap f l) = Some y.
Proof.
  intros Hl Hf. apply last_Some in Hl as [k ->]. rewrite omap_app. simpl. rewrite Hf. apply last_snoc.
Qed.

Lemma trim_start_without c h : without c h = true -> trim_start c h = h.
Proof. destruct h as [|a h]; [done|]. unfold without. simpl. by destruct (Ascii.eqb a c). Qed.

Lemma option_hash_named h : is_hash h = true -> option_hash ("extra-filename=-" ++ h) = Some h.
Proof.
  intros Hh. change (option_hash ("extra-filename=-" ++ h)) with
    (if is_hash (trim_start "-" h) then Some (trim_start "-" h) else None).
  rewrite trim_start_without by (by apply hex_no_char). by rewrite Hh.
Qed.

Lemma without_app c a b : without c (a ++ b) = without c a && without c b.
Proof. apply all_chars_app. Qed.

Lemma artifact_name crate hash ext :
  name_ok crate = true -> is_hash hash = true -> ext ∈ ["rlib"; "rmeta"; "so"; "dylib"; "dll"] ->
  without "." ext = true /\ to_str ext = Some ext /\
  name_ok ("lib" ++ crate ++ String "-" (hash ++ String "." ext)) = true.
Proof.
  intros [[Ha Hw]%andb_prop _]%andb_prop Hh He.
  assert (without "." ext = true /\ to_str ext = Some ext /\ all_chars ascii_char ext = true /\
    without "/" ext = true) as (H1 & H2 & H3 & H4)
    by (rewrite !elem_of_cons, elem_of_nil in He; naive_solver).
  split; [done|split; [done|]]. unfold name_ok.
  change (String "-" (hash ++ String "." ext)) with ("-" ++ hash ++ "." ++ ext).
  rewrite !all_chars_app, !without_app, Ha, Hw, H3, H4, (hex_ascii hash), (hex_no_char "/" hash) by done.
  reflexivity.
Qed.

(** An artifact's file name gives the hash of the unit that wrote it. *)
Lemma artifact_hash_artifact dir crate hash ext :
  dir <> "" -> name_ok crate = true -> is_hash hash = true ->
  ext ∈ ["rlib"; "rmeta"; "so"; "dylib"; "dll"] ->
  artifact_hash (path_of (artifact dir crate hash ext)) = Some hash.
Proof.
  intros Hd Hc Hh He. destruct (artifact_name crate hash ext Hc Hh He) as (Hdot & Hs & Hn).
  assert (name_ok ("lib" ++ crate ++ String "-" hash) = true) as Hstem.
  { rewrite <- app_assoc_string. apply andb_prop in Hc as [[? ?]%andb_prop _].
    apply joined_name; [by rewrite all_chars_app|by rewrite without_app|done]. }
  unfold artifact. rewrite path_of_sub by done. unfold artifact_hash, extension, file_stem.
  rewrite file_name_app. cbn [mbind option_bind].
  replace ("lib" ++ crate ++ String "-" (hash ++ String "." ext))
    with (("lib" ++ crate ++ String "-" hash) ++ String "." ext) by (by rewrite !app_assoc_string).
  rewrite at_dot_app; [|done|by intros ->; rewrite !elem_of_cons, elem_of_nil in He; naive_solver|done].
  cbn [mbind option_bind fst snd]. rewrite Hs. cbn [mbind option_bind].
  rewrite bool_decide_true by done. cbn [negb mbind option_bind]. rewrite name_to_str by done.
  cbn [mbind option_bind]. rewrite <- app_assoc_string. by apply directory_hash_joined.
Qed.

(** A unit compiled with [extra-filename=-<hash>] is recorded under the name
    its dependents are given: whoever receives one of its artifacts by
    [--extern] has it among its dependencies. *)
Lemma extern_edges_join dir crate hash ext name compiled compile_arguments reader fs arguments out_dir :
  dir <> "" -> name_ok crate = true -> is_hash hash = true ->
  ext ∈ ["rlib"; "rmeta"; "so"; "dylib"; "dll"] -> without "=" name = true ->
  Forall (fun a => to_str a = Some a) compile_arguments -> spells_all compiled compile_arguments ->
  last (omap setting_of compiled) = Some ("extra-filename=-" ++ hash) ->
  Forall (fun a => to_str a = Some a) arguments -> spells_all fs arguments ->
  Extern (name ++ String "=" (artifact dir crate hash ext)) ∈ fs ->
  exists unit, (rustc_unit compile_arguments reader).1 = Some unit /\ unit ∈ (rustc_unit arguments out_dir).2.
Proof.
  intros Hd Hc Hh He Hn Hu Hs Hl Hu' Hs' Hin. exists hash. split.
  - rewrite (rustc_unit_name compiled) by done.
    by rewrite (last_omap_some option_hash _ _ hash Hl (option_hash_named _ Hh)).
  - apply (rustc_unit_reads_extern fs _ _ (name ++ String "=" (artifact dir crate hash ext))); [done..|].
    unfold extern_hash. rewrite split_once_app by done. by apply artifact_hash_artifact.
Qed.

(** ** Witnesses *)

Definition demo_flags : list Flag :=
  [Other "--crate-name"; Other "app"; Setting "extra-filename=-5d4c3b2a"; OutDir "/t/debug/deps";
   Extern "engine=/t/debug/deps/libengine-aa11.rmeta"].
Definition demo_arguments : list string :=
  ["--crate-name"; "app"; "-C"; "extra-filename=-5d4c3b2a"; "--out-dir"; "/t/debug/deps";
   "--extern=engine=/t/debug/deps/libengine-aa11.rmeta"].

Lemma demo_flags_spelled : spells_all demo_flags demo_arguments.
Proof.
  unfold demo_flags, demo_arguments.
  repeat first [apply spells_nil
    |apply (spells_cons _ _ ["--crate-name"])|apply (spells_cons _ _ ["app"])
    |apply (spells_cons _ _ ["-C"; _])|apply (spells_cons _ _ ["--out-dir"; _])
    |apply (spells_cons _ _ [_])].
  all: first [by apply other|by apply setting_short|by apply out_dir_separate|apply extern_joined].
Qed.

Lemma rustc_unit_reads_flags_witness :
  let '(unit, dependencies) := rustc_unit demo_arguments (Some (path_of "/t/build/app-dd44/out")) in
  unit = Some "5d4c3b2a" /\ "aa11" ∈ dependencies /\ "run-dd44" ∈ dependencies.
Proof.
  pose proof (rustc_unit_reads_flags demo_flags demo_arguments (Some (path_of "/t/build/app-dd44/out"))
    ltac:(repeat constructor) demo_flags_spelled) as H.
  destruct (rustc_unit _ _) as [unit dependencies]. destruct H as (-> & _ & H).
  split; [vm_compute; reflexivity|].
  split; apply H; [left; vm_compute; constructor|right; vm_compute; reflexivity].
Defined.

Lemma build_script_edges_join_witness :
  exists compilation run,
    (rustc_unit ["--out-dir"; "/t/build/api/b08ebe71fd39a343/out"] None).1 = Some compilation /\
    build_script_run_unit (Some (path_of "/t/build/api/ba26dbedf7b267d9/out"))
      (path_of "/t/build/api/b08ebe71fd39a343/out/build-script-build") = (Some run, [compilation]) /\
    run ∈ (rustc_unit demo_arguments (Some (path_of "/t/build/api/ba26dbedf7b267d9/out"))).2.
Proof.
  apply (build_script_edges_join Cargo_1_100 "/t" "api" "b08ebe71fd39a343" "ba26dbedf7b267d9"
    [OutDir "/t/build/api/b08ebe71fd39a343/out"]); try done.
  - repeat constructor.
  - apply (spells_cons _ _ ["--out-dir"; _] []); [by apply out_dir_separate|apply spells_nil].
Defined.

Lemma extern_edges_join_witness :
  exists unit, (rustc_unit ["-C"; "extra-filename=-aa11"] None).1 = Some unit /\
    unit ∈ (rustc_unit demo_arguments None).2.
Proof.
  apply (extern_edges_join "/t/debug/deps" "engine" "aa11" "rmeta" "engine" [Setting "extra-filename=-aa11"]
    _ _ demo_flags); try done.
  - set_solver.
  - repeat constructor.
  - apply (spells_cons _ _ ["-C"; _] []); [by apply setting_short|apply spells_nil].
  - repeat constructor.
  - apply demo_flags_spelled.
  - unfold demo_flags. set_solver.
Defined.
