(* ===== verification/Walk.v ===== *)
(** * Graph traversals

    The loops with which the store follows references between objects: a
    worklist with a visited set, a recursive search that stops at the first
    failure, and a search that remembers its verdicts.  Nodes are any
    countable type; the graph is given by what each node pushes.

    The lemmas: enough fuel is a number that can be read off the graph, the
    worklist visits exactly what is reachable, and the searches decide whether
    everything reachable is sound. *)

From stdpp Require Import base list gmap sets relations.
From Stdlib Require Import Lia.
From S2P Require Import Prelude.

(** ** The worklist *)

(** The references of a set of nodes. *)
Section weight.
Context {A : Type} `{Countable A} (children : A -> list A).

Definition weight (X : gset A) : nat := sum_list_with (fun a => length (children a)) (elements X).

Lemma weight_remove X a : a ∈ X -> weight X = length (children a) + weight (X ∖ {[ a ]}).
Proof.
  intros Ha. unfold weight.
  rewrite (union_difference_L {[ a ]} X) at 1 by set_solver.
  by rewrite elements_union_singleton by set_solver.
Qed.

Lemma weight_mono X Y : X ⊆ Y -> weight X <= weight Y.
Proof.
  intros HXY. unfold weight. rewrite (union_difference_L X Y) by done.
  rewrite elements_disj_union by set_solver. rewrite sum_list_with_app. lia.
Qed.
End weight.

Section walk.
Context {A S : Type} `{Countable A}.
(** What the loop does with a node it meets first: the new state, and what it
    pushes, in the order it pushes it. *)
Context (visit : A -> S -> S * list A).

(** [pending] is the [Vec] from its last element on. *)
Fixpoint walk (fuel : nat) (pending : list A) (seen : gset A) (s : S) : option (gset A * S) :=
  match pending with
  | [] => Some (seen, s)
  | a :: pending =>
      match fuel with
      | O => None
      | Datatypes.S fuel =>
          if decide (a ∈ seen) then walk fuel pending seen s
          else
            let '(s, pushed) := visit a s in
            walk fuel (reverse pushed ++ pending) ({[ a ]} ∪ seen) s
      end
  end.

(** A property of what is pending, seen and accumulated that every round keeps
    holds at the end. *)
Lemma walk_ind (P : list A -> gset A -> S -> Prop) fuel pending seen s seen' s' :
  (forall a pending seen s, P (a :: pending) seen s -> a ∈ seen -> P pending seen s) ->
  (forall a pending seen s, P (a :: pending) seen s -> a ∉ seen ->
     P (reverse (visit a s).2 ++ pending) ({[ a ]} ∪ seen) (visit a s).1) ->
  P pending seen s -> walk fuel pending seen s = Some (seen', s') -> P [] seen' s'.
Proof.
  intros Hskip Hvisit. revert pending seen s.
  induction fuel as [|fuel IH]; intros [|a pending] seen s HP Hw; simpl in Hw; simplify_eq; try done.
  destruct (decide (a ∈ seen)) as [Ha|Ha]; [by eapply IH, Hw; eapply Hskip|].
  pose proof (Hvisit a pending seen s HP Ha) as HP'. destruct (visit a s) as [s1 pushed].
  by eapply IH, Hw.
Qed.

Context (children : A -> list A) (Hchildren : forall a s, (visit a s).2 = children a).

Definition edge (a b : A) : Prop := b ∈ children a.

(** Enough rounds: one for each pending node and one for each push of a node
    not seen yet. *)
Lemma walk_total universe fuel pending seen s :
  (forall a b, edge a b -> b ∈ universe) -> (forall a, a ∈ pending -> a ∈ universe) ->
  length pending + weight children (universe ∖ seen) <= fuel ->
  is_Some (walk fuel pending seen s).
Proof.
  intros Hu. revert pending seen s.
  induction fuel as [|fuel IH]; intros [|a pending] seen s Hp Hf; simpl in *; try (by eexists); [lia|].
  destruct (decide (a ∈ seen)) as [Ha|Ha]; [apply IH; [set_solver|lia]|].
  pose proof (Hchildren a s) as Hv. destruct (visit a s) as [s1 pushed]. simpl in Hv. subst pushed.
  apply IH.
  - intros b Hb. rewrite elem_of_app, elem_of_reverse in Hb.
    destruct Hb as [Hb|Hb]; [by apply (Hu a)|set_solver].
  - rewrite length_app, length_reverse.
    replace (universe ∖ ({[a]} ∪ seen)) with ((universe ∖ seen) ∖ {[a]}) by set_solver.
    rewrite (weight_remove children (universe ∖ seen) a) in Hf by set_solver. lia.
Qed.

(** From a closed visited set the loop adds exactly what its roots reach, and
    leaves it closed. *)
Definition closed (X : gset A) : Prop := forall a b, a ∈ X -> edge a b -> b ∈ X.

Lemma closed_reaches X a b : closed X -> a ∈ X -> rtc edge a b -> b ∈ X.
Proof. intros HX Ha. induction 1 as [|a b c Hab _ IH]; [done|]. apply IH. by eapply HX. Qed.

Lemma walk_reaches fuel pending seen s seen' s' :
  closed seen -> walk fuel pending seen s = Some (seen', s') ->
  closed seen' /\ forall a, a ∈ seen' <-> a ∈ seen \/ exists r, r ∈ pending /\ rtc edge r a.
Proof.
  intros Hc Hw.
  set (P := fun (todo : list A) (X : gset A) (_ : S) =>
    seen ⊆ X /\ (forall r, r ∈ pending -> r ∈ X \/ r ∈ todo) /\
    (forall a b, a ∈ X -> edge a b -> b ∈ X \/ b ∈ todo) /\
    (forall a, a ∈ X \/ a ∈ todo -> a ∈ seen \/ exists r, r ∈ pending /\ rtc edge r a)).
  assert (P [] seen' s') as (H1 & H2 & H3 & H4).
  { apply (walk_ind P fuel pending seen s); [| | |done].
    - intros a todo X t (H1 & H2 & H3 & H4) Ha. split_and!; [done| | |].
      + intros r [?|[->|?]%elem_of_cons]%H2; auto.
      + intros x y Hx [?|[->|?]%elem_of_cons]%(H3 x y Hx); auto.
      + intros x [?|?]; apply H4; [by left|right; by right].
    - intros a todo X t (H1 & H2 & H3 & H4) Ha. rewrite Hchildren.
      split_and!; [set_solver| | |].
      + intros r [?|[->|?]%elem_of_cons]%H2; set_solver.
      + intros x y [->%elem_of_singleton|Hx]%elem_of_union Hxy.
        * right. apply elem_of_app. left. by apply elem_of_reverse.
        * destruct (H3 x y Hx Hxy) as [?|[->|?]%elem_of_cons]; set_solver.
      + intros x Hx. assert (edge a x \/ x ∈ X \/ x ∈ a :: todo) as [Hax|Hx'].
        { rewrite elem_of_union, elem_of_app, elem_of_reverse in Hx. unfold edge. set_solver. }
        * destruct (H4 a) as [Hs|(r & Hr & Hra)]; [right; left| |].
          -- left. by eapply Hc.
          -- right. exists r. split; [done|]. by eapply rtc_r.
        * by apply H4.
    - split_and!; [done|auto|intros a b Ha Hab; left; by eapply Hc|].
      intros a [?|?]; [by left|right; exists a; by split]. }
  split.
  - intros a b Ha Hab. destruct (H3 a b Ha Hab) as [?|?%elem_of_nil]; done.
  - intros a. split; [intros Ha; apply H4; by left|]. intros [Ha|(r & Hr & Hra)]; [set_solver|].
    eapply (closed_reaches seen'); [|..|exact Hra].
    + intros x y Hx Hxy. destruct (H3 x y Hx Hxy) as [?|?%elem_of_nil]; done.
    + destruct (H2 r Hr) as [?|?%elem_of_nil]; done.
Qed.
End walk.

(** ** A search that stops at the first failure *)

Section search.
Context {A : Type} `{Countable A}.
(** A node that is sound on its own, with what it refers to. *)
Context (check : A -> option (list A)).

Fixpoint all_of (f : A -> gset A -> option (bool * gset A)) (l : list A) (seen : gset A)
    : option (bool * gset A) :=
  match l with
  | [] => Some (true, seen)
  | a :: l => match f a seen with Some (true, seen) => all_of f l seen | r => r end
  end.

Fixpoint search (fuel : nat) (a : A) (seen : gset A) : option (bool * gset A) :=
  match fuel with
  | O => None
  | S fuel =>
      if decide (a ∈ seen) then Some (true, seen)
      else
        match check a with
        | None => Some (false, {[ a ]} ∪ seen)
        | Some next => all_of (search fuel) next ({[ a ]} ∪ seen)
        end
  end.

Definition refers (a b : A) : Prop := exists next, check a = Some next /\ b ∈ next.

(** What a search from [roots] leaves behind. *)
Definition searched (roots : list A) (seen : gset A) (r : bool * gset A) : Prop :=
  seen ⊆ r.2 /\
  (r.1 = true -> (forall a, a ∈ roots -> a ∈ r.2) /\
     forall x, x ∈ r.2 -> x ∉ seen -> is_Some (check x) /\ forall y, refers x y -> y ∈ r.2) /\
  (r.1 = false -> exists a x, a ∈ roots /\ rtc refers a x /\ check x = None).

Lemma all_of_searched f l seen r :
  (forall a seen r, a ∈ l -> f a seen = Some r -> searched [a] seen r) ->
  all_of f l seen = Some r -> searched l seen r.
Proof.
  revert seen. induction l as [|a l IH]; intros seen Hf Hr; simpl in Hr.
  { simplify_eq. split_and!; [done|set_solver|done]. }
  destruct (f a seen) as [[[] seen1]|] eqn:Ea; simplify_eq.
  - apply Hf in Ea as (H1 & H2 & _); [|set_solver]. destruct (H2 eq_refl) as [H3 H4].
    apply IH in Hr as (H5 & H6 & H7); [|set_solver]. simpl in *. split_and!; [set_solver| |].
    + intros Ht. destruct (H6 Ht) as [H8 H9]. split; [set_solver|].
      intros x Hx Hns. destruct (decide (x ∈ seen1)) as [Hx1|]; [|by apply H9].
      destruct (H4 x Hx1 Hns) as [? Hy]. split; [done|]. set_solver.
    + intros (b & x & ? & ? & ?)%H7. exists b, x. set_solver.
  - apply Hf in Ea as (H1 & _ & H3); [|set_solver]. split_and!; [done|done|].
    intros (b & x & ? & ? & ?)%H3. exists b, x. set_solver.
Qed.

Lemma search_searched fuel a seen r : search fuel a seen = Some r -> searched [a] seen r.
Proof.
  revert a seen r. induction fuel as [|fuel IH]; intros a seen r Hr; simpl in Hr; [done|].
  destruct (decide (a ∈ seen)); simplify_eq; [split_and!; set_solver|].
  destruct (check a) as [next|] eqn:Ea; simplify_eq.
  - apply all_of_searched in Hr as (H1 & H2 & H3); [|intros; by apply IH].
    split_and!; [set_solver| |].
    + intros Ht. destruct (H2 Ht) as [H4 H5]. split; [set_solver|]. intros x Hx Hns.
      destruct (decide (x = a)) as [->|Hne]; [|apply H5; set_solver].
      split; [by eexists|]. intros y (next' & Hn & Hy). simplify_eq. by apply H4.
    + intros (b & x & Hb & Hbx & Hx)%H3. exists a, x. split_and!; [set_solver| |done].
      eapply rtc_l, Hbx. by exists next.
  - split_and!; [set_solver|done|]. intros _. exists a, a. split_and!; [set_solver|done|done].
Qed.

Lemma all_of_total f l seen :
  (forall a seen', a ∈ l -> seen ⊆ seen' -> exists r, f a seen' = Some r /\ searched [a] seen' r) ->
  is_Some (all_of f l seen).
Proof.
  revert seen. induction l as [|a l IH]; intros seen Hf; simpl; [by eexists|].
  destruct (Hf a seen) as [[b seen1] [-> (H1 & _)]]; [set_solver|done|].
  destruct b; [|by eexists]. apply IH. intros a' seen' Ha Hs. apply Hf; set_solver.
Qed.

(** A search goes no deeper than there are nodes to refer to. *)
Lemma search_total universe fuel a seen :
  (forall a b, refers a b -> b ∈ universe) -> a ∈ universe ->
  size (universe ∖ seen) < fuel -> is_Some (search fuel a seen).
Proof.
  intros Hu. revert a seen. induction fuel as [|fuel IH]; intros a seen Ha Hf; [lia|]. simpl.
  destruct (decide (a ∈ seen)); [by eexists|]. destruct (check a) as [next|] eqn:Ea; [|by eexists].
  assert (size (universe ∖ ({[a]} ∪ seen)) < size (universe ∖ seen)) by (apply subset_size; set_solver).
  apply all_of_total. intros b seen' Hb Hs. destruct (IH b seen') as [r Hr].
  - apply (Hu a). by exists next.
  - assert (size (universe ∖ seen') <= size (universe ∖ ({[a]} ∪ seen))) by (apply subseteq_size; set_solver). lia.
  - exists r. split; [done|]. by eapply search_searched.
Qed.

(** The verdict: everything reachable is sound on its own. *)
Lemma search_exact fuel a b seen' :
  search fuel a ∅ = Some (b, seen') -> (b = true <-> forall x, rtc refers a x -> is_Some (check x)).
Proof.
  intros (H1 & H2 & H3)%search_searched. simpl in *. split.
  - intros Hb x Hx. destruct (H2 Hb) as [H4 H5].
    assert (x ∈ seen') as Hin; [|by apply H5].
    assert (a ∈ seen') as Ha by (apply H4; set_solver). clear - Hx Ha H5.
    induction Hx as [|a y z Hay _ IH]; [done|]. apply IH. by destruct (H5 a Ha) as [_ ?]; auto.
  - intros Hall. destruct b; [done|]. destruct (H3 eq_refl) as (r & x & Hr & Hx & Hn).
    apply list_elem_of_singleton in Hr as ->. destruct (Hall x Hx). congruence.
Qed.
End search.

(** ** A search that remembers its verdicts *)

Section verdicts.
Context {A : Type} `{Countable A}.
Context (present : A -> bool) (check : A -> option (list A)).

Fixpoint all_present (f : A -> gmap A bool -> option (bool * gmap A bool)) (l : list A)
    (memo : gmap A bool) : option (bool * gmap A bool) :=
  match l with
  | [] => Some (true, memo)
  | a :: l =>
      if present a then
        match f a memo with Some (true, memo) => all_present f l memo | r => r end
      else Some (false, memo)
  end.

(** A node counts as sound while its own verdict is being found. *)
Fixpoint verdict (fuel : nat) (a : A) (memo : gmap A bool) : option (bool * gmap A bool) :=
  match fuel with
  | O => None
  | S fuel =>
      match memo !! a with
      | Some b => Some (b, memo)
      | None =>
          let memo := <[ a := true ]> memo in
          match
            match check a with
            | None => Some (false, memo)
            | Some next => all_present (verdict fuel) next memo
            end
          with
          | Some (b, memo) => Some (b, <[ a := b ]> memo)
          | None => None
          end
      end
  end.

(** More fuel finds the same verdict. *)
Lemma all_present_mono f g l memo r :
  (forall a memo r, f a memo = Some r -> g a memo = Some r) ->
  all_present f l memo = Some r -> all_present g l memo = Some r.
Proof.
  intros Hfg. revert memo. induction l as [|a l IH]; intros memo; simpl; [done|].
  destruct (present a); [|done]. destruct (f a memo) as [[b memo1]|] eqn:E; [|done].
  apply Hfg in E as ->. destruct b; [apply IH|done].
Qed.

Lemma verdict_mono fuel fuel' a memo r :
  fuel <= fuel' -> verdict fuel a memo = Some r -> verdict fuel' a memo = Some r.
Proof.
  revert fuel' a memo r. induction fuel as [|fuel IH]; intros fuel' a memo r Hle Hv; [done|].
  destruct fuel' as [|fuel']; [lia|]. simpl in *. destruct (memo !! a); [done|].
  destruct (check a) as [next|]; [|done].
  destruct (all_present (verdict fuel) next _) as [[b m]|] eqn:E; [|done].
  rewrite (all_present_mono (verdict fuel) (verdict fuel') _ _ (b, m)); [done| |done].
  intros c memo' r' Hr. apply IH; [lia|done].
Qed.

(** What is remembered stays remembered, and a search goes no deeper than there
    are nodes to remember. *)
Lemma all_present_dom f l memo r :
  (forall a memo r, a ∈ l -> f a memo = Some r -> dom memo ⊆ dom r.2) ->
  all_present f l memo = Some r -> dom memo ⊆ dom r.2.
Proof.
  revert memo. induction l as [|a l IH]; intros memo Hf; simpl; [by intros [= <-]|].
  destruct (present a); [|by intros [= <-]]. destruct (f a memo) as [[b memo1]|] eqn:E; [|done].
  apply Hf in E; [|left]. destruct b; [|by intros [= <-]]. intros Hr. etrans; [exact E|].
  apply IH in Hr; [done|]. intros c m s Hc. apply Hf. by right.
Qed.

Lemma verdict_dom fuel a memo r : verdict fuel a memo = Some r -> dom memo ⊆ dom r.2.
Proof.
  revert a memo r. induction fuel as [|fuel IH]; intros a memo r Hv; simpl in Hv; [done|].
  destruct (memo !! a); [by simplify_eq|].
  destruct (check a) as [next|]; [|simplify_eq; simpl; set_solver].
  destruct (all_present _ _ _) as [[b m]|] eqn:E; [|done]. simplify_eq. simpl.
  apply all_present_dom in E; [|intros; by eapply IH]. simpl in E. set_solver.
Qed.

Lemma verdict_total_universe (universe : gset A) fuel a memo :
  (forall a b, refers check a b -> b ∈ universe) -> a ∈ universe ->
  base.size (universe ∖ dom memo) < fuel -> is_Some (verdict fuel a memo).
Proof.
  intros Hu. revert a memo. induction fuel as [|fuel IH]; intros a memo Ha Hf; [lia|]. simpl.
  destruct (memo !! a) eqn:Em; [by eexists|]. destruct (check a) as [next|] eqn:Ec; [|by eexists].
  enough (is_Some (all_present (verdict fuel) next (<[a:=true]> memo))) as [[b m] ->] by (by eexists).
  apply not_elem_of_dom in Em.
  assert (base.size (universe ∖ dom (<[a:=true]> memo)) < base.size (universe ∖ dom memo)) as Hlt
    by (apply subset_size; set_solver).
  assert (forall c, c ∈ next -> c ∈ universe) as Hn by (intros c Hc; apply (Hu a); by exists next).
  clear Ec. generalize dependent (<[a:=true]> memo). induction next as [|c next IHn]; intros m Hm; simpl; [by eexists|].
  destruct (present c); [|by eexists]. destruct (IH c m) as [[b m'] Hv]; [apply Hn; left|lia|]. rewrite Hv.
  destruct b; [|by eexists]. apply IHn; [intros; apply Hn; by right|].
  apply verdict_dom in Hv. simpl in Hv.
  assert (base.size (universe ∖ dom m') <= base.size (universe ∖ dom m)) by (apply subseteq_size; set_solver). lia.
Qed.

(** Everything reachable is sound on its own and refers to what is present. *)
Definition sound (a : A) : Prop :=
  forall x, rtc (refers check) a x -> exists next, check x = Some next /\ Forall (fun y => present y = true) next.

Lemma sound_step a :
  sound a <-> exists next, check a = Some next /\ Forall (fun y => present y = true /\ sound y) next.
Proof.
  split.
  - intros Hs. destruct (Hs a) as (next & Hn & Hp); [done|]. exists next. split; [done|].
    rewrite Forall_forall in *. intros y Hy. split; [by apply Hp|]. intros x Hx. apply Hs.
    eapply rtc_l, Hx. by exists next.
  - intros (next & Hn & Hp) x Hx. rewrite Forall_forall in Hp.
    destruct (rtc_inv _ _ Hx) as [->|(y & (next' & Hn' & Hy) & Hyx)].
    + exists next. split; [done|]. apply Forall_forall. intros y Hy. by apply Hp.
    + simplify_eq. by apply (Hp y Hy).
Qed.

(** References go down: no node reaches itself. *)
Context (rank : A -> nat) (Hrank : forall a b, refers check a b -> rank b < rank a).

(** The remembered verdicts of nodes below a rank are right. *)
Definition memo_ok (n : nat) (memo : gmap A bool) : Prop :=
  forall a b, rank a < n -> memo !! a = Some b -> (b = true <-> sound a).

Definition verdict_ok (a : A) (memo : gmap A bool) (r : bool * gmap A bool) : Prop :=
  (r.1 = true <-> sound a) /\ memo_ok (S (rank a)) r.2 /\
  forall x, x <> a -> rank a <= rank x -> r.2 !! x = memo !! x.

Lemma all_present_ok f l memo r n :
  (forall a memo r, a ∈ l -> memo_ok n memo -> f a memo = Some r -> verdict_ok a memo r) ->
  (forall a, a ∈ l -> rank a < n) ->
  memo_ok n memo -> all_present f l memo = Some r ->
  (r.1 = true <-> Forall (fun a => present a = true /\ sound a) l) /\ memo_ok n r.2 /\
  forall x, n <= rank x -> r.2 !! x = memo !! x.
Proof.
  intros Hf Hl. revert memo. induction l as [|a l IH]; intros memo Hm Hr; simpl in Hr.
  { simplify_eq. simpl. split_and!; [by rewrite Forall_nil|done|done]. }
  rewrite Forall_cons. destruct (present a) eqn:Ep; [|simplify_eq; simpl; naive_solver].
  destruct (f a memo) as [[b memo1]|] eqn:Ea; [|done].
  apply Hf in Ea as (H1 & H2 & H3); [|set_solver|done]. simpl in *.
  assert (memo_ok n memo1) as Hm1.
  { intros x c Hx Hc. destruct (decide (rank x < S (rank a))) as [Hlt|Hge]; [by apply (H2 x)|].
    apply (Hm x); [done|]. rewrite <- H3; [done| |lia]. intros ->. lia. }
  assert (forall x, n <= rank x -> memo1 !! x = memo !! x) as Hfr.
  { intros x Hx. pose proof (Hl a ltac:(set_solver)). apply H3; [intros ->; lia|lia]. }
  destruct b; simplify_eq; simpl.
  - apply IH in Hr as (H4 & H5 & H6); [|set_solver..|done]. split_and!; [naive_solver|done|].
    intros x Hx. rewrite H6, Hfr by done. done.
  - split_and!; [naive_solver|done|done].
Qed.

Lemma verdict_exact fuel a memo r :
  memo_ok (S (rank a)) memo -> verdict fuel a memo = Some r -> verdict_ok a memo r.
Proof.
  revert a memo r. induction fuel as [|fuel IH]; intros a memo r Hm Hr; simpl in Hr; [done|].
  destruct (memo !! a) as [b|] eqn:Ea.
  { simplify_eq. split_and!; simpl; [apply (Hm a); [lia|done]|done|done]. }
  assert (memo_ok (rank a) (<[a:=true]> memo)) as Hm1.
  { intros x b Hx Hb. rewrite lookup_insert_ne in Hb by (intros ->; lia). by apply (Hm x); [lia|]. }
  assert (exists b memo1, r = (b, <[a:=b]> memo1) /\ (b = true <-> sound a) /\ memo_ok (rank a) memo1 /\
    forall x, rank a <= rank x -> memo1 !! x = <[a:=true]> memo !! x) as (b & memo1 & -> & H1 & H2 & H3).
  { destruct (check a) as [next|] eqn:Ec.
    - destruct (all_present _ _ _) as [[b memo1]|] eqn:Eall; [|done]. simplify_eq. exists b, memo1.
      apply (all_present_ok _ _ _ _ (rank a)) in Eall as (H1 & H2 & H3); try done.
      + split_and!; try done. rewrite H1, sound_step, Ec. naive_solver.
      + intros c memo' r' Hc Hmc Hr'. apply (IH c memo' r'); [|done].
        assert (rank c < rank a) by (apply Hrank; by exists next). intros x b' Hx. apply Hmc. lia.
      + intros c Hc. apply Hrank. by exists next.
    - simplify_eq. exists false, (<[a:=true]> memo). split_and!; try done. rewrite sound_step, Ec. naive_solver. }
  split_and!; simpl; [done| |].
  - intros x c Hx. destruct (decide (x = a)) as [->|Hne]; [rewrite lookup_insert_eq; by intros [= <-]|].
    rewrite lookup_insert_ne by done. intros Hc. destruct (decide (rank x < rank a)); [by apply (H2 x)|].
    rewrite H3, lookup_insert_ne in Hc by (done || lia). by apply (Hm x).
  - intros x Hne Hx. rewrite lookup_insert_ne, H3, lookup_insert_ne by done. done.
Qed.

Lemma all_present_total f l memo :
  (forall a memo, a ∈ l -> is_Some (f a memo)) -> is_Some (all_present f l memo).
Proof.
  revert memo. induction l as [|a l IH]; intros memo Hf; simpl; [by eexists|].
  destruct (present a); [|by eexists]. destruct (Hf a memo) as [[[] memo1] ->]; [set_solver| |by eexists].
  apply IH. set_solver.
Qed.

Lemma verdict_total fuel a memo : rank a < fuel -> is_Some (verdict fuel a memo).
Proof.
  revert a memo. induction fuel as [|fuel IH]; intros a memo Hf; [lia|]. simpl.
  destruct (memo !! a); [by eexists|]. destruct (check a) as [next|] eqn:Ec; [|by eexists].
  destruct (all_present_total (verdict fuel) next (<[a:=true]> memo)) as [[b m] ->]; [|by eexists].
  intros c memo' Hc. apply IH. assert (rank c < rank a) by (apply Hrank; by exists next). lia.
Qed.

(** Remembered verdicts that are all right stay so. *)
Lemma verdict_keeps fuel a memo b memo' :
  (forall n, memo_ok n memo) -> verdict fuel a memo = Some (b, memo') ->
  (b = true <-> sound a) /\ forall n, memo_ok n memo'.
Proof.
  intros Hm Hv. destruct (verdict_exact fuel a memo (b, memo') (Hm _) Hv) as (H1 & H2 & H3).
  split; [done|]. intros n x c Hx Hc. simpl in *. destruct (decide (rank x < S (rank a))); [by apply (H2 x)|].
  rewrite H3 in Hc; [by apply (Hm n x)| |lia]. intros ->. lia.
Qed.
End verdicts.

(** The verdict depends on what is reachable only through what is present. *)
Section verdict_ext.
Context {A : Type} `{Countable A} (present : A -> bool) (check check' : A -> option (list A)).
Context (Hext : forall a, present a = true -> check a = check' a).

Lemma verdict_ext fuel a memo :
  present a = true -> verdict present check fuel a memo = verdict present check' fuel a memo.
Proof.
  revert a memo. induction fuel as [|fuel IH]; intros a memo Ha; simpl; [done|].
  destruct (memo !! a); [done|]. rewrite Hext by done. destruct (check' a) as [next|]; [|done].
  enough (forall m, all_present present (verdict present check fuel) next m =
    all_present present (verdict present check' fuel) next m) as -> by done.
  induction next as [|c next IHn]; intros m; simpl; [done|]. destruct (present c) eqn:Ep; [|done].
  rewrite (IH c m Ep). destruct (verdict present check' fuel c m) as [[[] m']|]; [apply IHn|done|done].
Qed.
End verdict_ext.
