(* ===== verification/Cas.v ===== *)
(** * The local object store and action index

    Models [src/crates/mbx-cache-core/src/local.rs]: the content-addressed
    store ([LocalCas]), the index from actions to results
    ([LocalActionCache]) and the recording of uses.  A disk is two maps from
    paths below [cas/v1] and [action-results/v1] to files.  An operation that
    looks at the disk more than once takes a disk for each look, so that what
    other processes do in between is any change at all; a rename is atomic.
    The hash functions and the JSON syntax come from other crates and are
    parameters ([Codec], with its law [CodecLaws]).  I/O errors other than a
    missing or an existing file are not modelled.

    The theorems: a stored object is found and is the one its digest
    describes, also when the destination changes during the store or the source
    does after a grain of its clock; the integrity search is exact on any object graph; publishing a
    result keeps the first intact writer; and recording a use reaches the whole
    closure of a result. *)

From stdpp Require Import base list gmap sets strings relations pretty.
From Stdlib Require Import ZArith Lia.
From S2P Require Import Prelude Protocol Walk.
Local Open Scope Z_scope.

(** ** Records in the store *)

Record FileNode := mkFileNode { file_digest : Digest; executable : bool; file_mode : Z; node_name : string }.
Record DirectoryNode := mkDirectoryNode { dir_digest : Digest; dir_mode : Z; dir_name : string }.
Record SymlinkNode := mkSymlinkNode { link_mode : Z; link_name : string; link_target : string }.

Record Directory := mkDirectory {
  directories : list DirectoryNode;
  files : list FileNode;
  symlinks : list SymlinkNode;
  dir_version : Z
}.

Record ActionResult := mkResult {
  res_action : Digest;
  res_metadata : option Digest;
  res_output_root : option Digest;
  res_version : Z
}.

#[export] Instance ActionResult_eq_dec : EqDecision ActionResult.
Proof. solve_decision. Defined.

(** The captured compiler output an action's metadata names. *)
Record CapturedOutput := mkCaptured { captured_stdout : Digest; captured_stderr : Digest }.

(** What the store uses of the JSON library. *)
Class Codec := {
  parse_result : list Z -> option ActionResult;
  canonical_json : ActionResult -> list Z;
  parse_directory : list Z -> option Directory;
  parse_captured : list Z -> option CapturedOutput
}.

(** A canonical record reads back. *)
Class CodecLaws `{Codec} : Prop := {
  parse_canonical : forall r, parse_result (canonical_json r) = Some r
}.

(** ** The disk *)

Record File := mkFile { bytes : list Z; accessed : option Z; modified : option Z }.

Record Disk := mkDisk { cas : gmap string File; results : gmap string File }.

Definition set_cas (k : Disk) (m : gmap string File) : Disk := mkDisk m (results k).
Definition set_results (k : Disk) (m : gmap string File) : Disk := mkDisk (cas k) m.

(** A file written at [now]. *)
Definition written (b : list Z) (now : Z) : File := mkFile b (Some now) (Some now).

Inductive CasError :=
| BadDigest | Corrupt | Mismatch | SourceChanged | LostRace
| NotBlake3 | BadRecord | BadVersion | MissingBlob | Conflict | KeptChanging.

Definition lift {A} (r : result ProtocolError A) : result CasError A :=
  match r with Ok a => Ok a | Err _ => Err BadDigest end.

Definition key_path (d : Digest) (suffix : string) : string :=
  (algorithm d ++ "/" ++ String.substring 0 2 (hash d) ++ "/" ++ hash d ++ "-" ++ pretty (size d) ++ suffix)%string.

(** ** [LocalCas] *)

Definition path_for (d : Digest) : result CasError string :=
  _ ← lift (validate_digest d);
  Ok (key_path d "").

Section store.
Context `{Hashes}.

(** [Digest::matches_file] on a file's bytes. *)
Definition matches_file (d : Digest) (b : list Z) : result CasError bool :=
  _ ← lift (validate_digest d);
  a ← lift (parse_algorithm (algorithm d));
  let h := match a with Blake3 => blake3_hex b | Sha256 => sha256_hex b end in
  Ok ((size d =? Z.of_nat (length b)) && bool_decide (hash d = h)).

Definition find (k : Disk) (d : Digest) : result CasError (option string) :=
  path ← path_for d;
  match cas k !! path with
  | None => Ok None
  | Some f =>
      m ← matches_file d (bytes f);
      if negb m then Err Corrupt else Ok (Some path)
  end.

Definition is_found (r : result CasError (option string)) : bool :=
  match r with Ok (Some _) => true | _ => false end.

Definition present (k : Disk) (d : Digest) : bool := is_found (find k d).

(** The end of both store operations: rename the staged bytes over the
    destination, or beside no other. *)
Definition persist (meanwhile : Disk) (d : Digest) (destination : string) (replace_invalid : bool)
    (b : list Z) (now : Z) : result CasError string * Disk :=
  let stored := set_cas meanwhile (<[ destination := written b now ]> (cas meanwhile)) in
  if replace_invalid then (Ok destination, stored)
  else
    match cas meanwhile !! destination with
    | None => (Ok destination, stored)
    | Some _ =>
        (match find meanwhile d with
         | Ok (Some p) => Ok p
         | Ok None => Err LostRace
         | Err e => Err e
         end, meanwhile)
    end.

(** [store_with], with the bytes the callback writes. *)
Definition store_with (before : Disk) (d : Digest) (b : list Z) (meanwhile : Disk) (now : Z)
    : result CasError string * Disk :=
  match path_for d with
  | Err e => (Err e, meanwhile)
  | Ok destination =>
      match find before d with
      | Ok (Some existing) => (Ok existing, meanwhile)
      | found =>
          match matches_file d b with
          | Err e => (Err e, meanwhile)
          | Ok false => (Err Mismatch, meanwhile)
          | Ok true => persist meanwhile d destination (is_err found) b now
          end
      end
  end.

Definition store_bytes (before : Disk) (d : Digest) (b : list Z) (meanwhile : Disk) (now : Z)
    : result CasError string * Disk :=
  match lift (matches_bytes blake3_hex sha256_hex d b) with
  | Err e => (Err e, meanwhile)
  | Ok false => (Err Mismatch, meanwhile)
  | Ok true => store_with before d b meanwhile now
  end.

(** What a stat of the source reports. *)
Record Meta := mkMeta {
  meta_len : Z; meta_modified : option Z; dev : Z; ino : Z; ctime : Z; ctime_nsec : Z }.

Definition same_identity (before after : Meta) : bool :=
  (meta_len before =? meta_len after) && bool_decide (meta_modified before = meta_modified after) &&
  (dev before =? dev after) && (ino before =? ino after) && (ctime before =? ctime after) &&
  (ctime_nsec before =? ctime_nsec after).

(** A source as it was when hashed, when copied and when looked at again. *)
Record Source := mkSource {
  hashed_bytes : list Z; hashed_meta : Meta; copied_bytes : list Z; copied_meta : Meta }.

Definition store_file_inner (before : Disk) (d : Digest) (source : Source) (verify : bool)
    (meanwhile : Disk) (now : Z) : result CasError string * Disk :=
  match path_for d with
  | Err e => (Err e, meanwhile)
  | Ok destination =>
      match find before d with
      | Ok (Some existing) => (Ok existing, meanwhile)
      | found =>
          match (if verify then matches_file d (hashed_bytes source) else Ok true) with
          | Err e => (Err e, meanwhile)
          | Ok false => (Err Mismatch, meanwhile)
          | Ok true =>
              if verify && negb (same_identity (hashed_meta source) (copied_meta source))
              then (Err SourceChanged, meanwhile)
              else if negb (Z.of_nat (length (copied_bytes source)) =? size d)
              then (Err Mismatch, meanwhile)
              else persist meanwhile d destination (is_err found) (copied_bytes source) now
          end
      end
  end.

Definition store_file (before : Disk) (d : Digest) (source : Source) (meanwhile : Disk) (now : Z) :=
  store_file_inner before d source true meanwhile now.

Definition store_verified_file (before : Disk) (d : Digest) (source : Source) (meanwhile : Disk)
    (now : Z) :=
  store_file_inner before d source false meanwhile now.

(** How the rename of a staged file ends. *)
Inductive Rename := Renamed | AlreadyExists | Failed.

Definition adopt_verified_file (before : Disk) (d : Digest) (source : Source) (rename : Rename)
    (meanwhile : Disk) (now : Z) : result CasError string * Disk :=
  if negb (Z.of_nat (length (copied_bytes source)) =? size d) then (Err Mismatch, meanwhile)
  else
    match path_for d with
    | Err e => (Err e, meanwhile)
    | Ok destination =>
        match find before d with
        | Ok (Some existing) => (Ok existing, meanwhile)
        | Err _ => store_file_inner before d source false meanwhile now
        | Ok None =>
            match rename with
            | Renamed =>
                (Ok destination,
                 set_cas meanwhile (<[ destination := written (copied_bytes source) now ]> (cas meanwhile)))
            | AlreadyExists =>
                (match find meanwhile d with
                 | Ok (Some p) => Ok p
                 | Ok None => Err LostRace
                 | Err e => Err e
                 end, meanwhile)
            | Failed => store_file_inner before d source false meanwhile now
            end
        end
    end.

(** ** Uses *)

Definition USE_REFRESH : Z := 24 * 60 * 60 * 1000000000.

(** [record_file_use]: a use within the refresh window is not written again.
    A missing file is an error the callers log. *)
Definition record_file_use (m : gmap string File) (path : string) (now : Z) : gmap string File :=
  match m !! path with
  | None => m
  | Some f =>
      if is_some_and (fun a => now - USE_REFRESH <? a) (accessed f) then m
      else <[ path := mkFile (bytes f) (Some now) (modified f) ]> m
  end.

(** [LocalCas::record_use]. *)
Definition record_use (k : Disk) (d : Digest) (now : Z) : Disk :=
  match path_for d with
  | Ok path => set_cas k (record_file_use (cas k) path now)
  | Err _ => k
  end.

(** ** [LocalActionCache] *)

Context `{Codec}.

Definition action_path (a : Digest) : result CasError string :=
  _ ← lift (validate_digest a);
  if negb (bool_decide (algorithm a = "blake3"%string)) then Err NotBlake3
  else Ok (key_path a ".json").

Definition parse_record (b : list Z) (a : Digest) : result CasError ActionResult :=
  match parse_result b with
  | None => Err BadRecord
  | Some r =>
      if negb (res_version r =? 1) || negb (bool_decide (res_action r = a)) ||
         negb (bool_decide (canonical_json r = b))
      then Err BadRecord else Ok r
  end.

Definition find_result (k : Disk) (a : Digest) : result CasError (option ActionResult) :=
  path ← action_path a;
  match results k !! path with
  | None => Ok None
  | Some f => r ← parse_record (bytes f) a; Ok (Some r)
  end.

(** The bytes of an object, whether or not they match its digest. *)
Definition read_object (k : Disk) (d : Digest) : option (list Z) :=
  match path_for d with Ok path => bytes <$> cas k !! path | Err _ => None end.

Definition child_digests (d : Directory) : list Digest := map dir_digest (directories d).

(** One level of [directory_is_intact]: the directory and its files are present
    and verified. *)
Definition intact_directory (k : Disk) (d : Digest) : option (list Digest) :=
  if present k d then
    dir ← read_object k d ≫= parse_directory;
    if forallb (fun f => present k (file_digest f)) (files dir) then Some (child_digests dir) else None
  else None.

(** Every digest some directory object refers to. *)
Definition referenced (k : Disk) : gset Digest :=
  list_to_set (concat (map (fun f => default [] (child_digests <$> parse_directory (bytes f.2)))
    (map_to_list (cas k)))).

Definition directory_is_intact (k : Disk) (d : Digest) : bool :=
  match search (intact_directory k) (S (base.size ({[ d ]} ∪ referenced k))) d ∅ with
  | Some (b, _) => b
  | None => false
  end.

Definition none_or {A} (p : A -> bool) (o : option A) : bool :=
  match o with None => true | Some a => p a end.

Definition is_intact (k : Disk) (r : ActionResult) : bool :=
  present k (res_action r) && none_or (present k) (res_metadata r) &&
  none_or (directory_is_intact k) (res_output_root r).

(** One round of the walk of [named_objects]. *)
Definition name_directory (k : Disk) (d : Digest) (objects : list Digest) : list Digest * list Digest :=
  match read_object k d ≫= parse_directory with
  | None => (objects ++ [d], [])
  | Some dir => (objects ++ [d] ++ map file_digest (files dir), child_digests dir)
  end.

(** The most rounds the walk of a disk can take from [roots]. *)
Definition walk_fuel (k : Disk) (roots : list Digest) : nat :=
  let children d := default [] (child_digests <$> (read_object k d ≫= parse_directory)) in
  length roots + weight children (list_to_set roots ∪ referenced k).

Definition named_objects (k : Disk) (r : ActionResult) : list Digest :=
  let objects := [res_action r] in
  let objects :=
    match res_metadata r with
    | None => objects
    | Some m =>
        objects ++ [m] ++
        match read_object k m ≫= parse_captured with
        | None => []
        | Some c => [captured_stdout c; captured_stderr c]
        end
    end in
  let pending := option_list (res_output_root r) in
  match walk (name_directory k) (walk_fuel k pending) pending ∅ objects with
  | Some (_, objects) => objects
  | None => objects
  end.

Definition record_closure_use (k : Disk) (record : string) (r : ActionResult) (now : Z) : Disk :=
  let k := fold_left (fun k d => record_use k d now) (named_objects k r) k in
  set_results k (alter (fun f => mkFile (bytes f) (Some now) (modified f)) record (results k)).

(** [LocalActionCache::record_use] and [record_use_of_stored]. *)
Definition record_result_use (k : Disk) (r : ActionResult) (now : Z) : Disk :=
  match action_path (res_action r) with
  | Err _ => k
  | Ok record =>
      if is_some_and (fun f => is_some_and (fun a => now - USE_REFRESH <? a) (accessed f))
           (results k !! record)
      then k else record_closure_use k record r now
  end.

Definition record_use_of_stored (k : Disk) (r : ActionResult) (now : Z) : Disk :=
  match action_path (res_action r) with
  | Err _ => k
  | Ok record => record_closure_use k record r now
  end.

(** ** Publishing a result *)

Inductive ActionStoreOutcome := Stored | Unchanged | KeptExisting.

(** What to do about an existing record; [Ok None] is to repair it. *)
Definition decide_existing (k : Disk) (keep_existing : bool) (is_restorable : ActionResult -> bool)
    (r existing : ActionResult) : result CasError (option ActionStoreOutcome) :=
  if bool_decide (existing = r) then Ok (Some Unchanged)
  else if is_intact k existing then
    if negb keep_existing then Err Conflict
    else if is_restorable existing then Ok (Some KeptExisting) else Ok None
  else Ok None.

(** One round: the disk of the lock-free read, the disk under the slot's lock
    and the disk at the rename of a vacant slot. *)
Record Round := mkRound { unlocked : Disk; claimed : Disk; at_rename : Disk }.

(** The [find] of a decision, with nothing to say about a missing or invalid
    record. *)
Definition decide_read (k : Disk) (keep_existing : bool) (is_restorable : ActionResult -> bool)
    (r : ActionResult) (read : result CasError (option ActionResult))
    : result CasError (option ActionStoreOutcome) :=
  match read with
  | Ok (Some existing) => decide_existing k keep_existing is_restorable r existing
  | _ => Ok None
  end.

Fixpoint store_rounds (keep_existing : bool) (is_restorable : ActionResult -> bool) (r : ActionResult)
    (destination : string) (now : Z) (rounds : list Round)
    : result CasError ActionStoreOutcome * option Disk :=
  match rounds with
  | [] => (Err KeptChanging, None)
  | round :: rounds =>
      match decide_read (unlocked round) keep_existing is_restorable r
              (find_result (unlocked round) (res_action r)) with
      | Err e => (Err e, None)
      | Ok (Some outcome) => (Ok outcome, None)
      | Ok None =>
          let record := results (claimed round) !! destination in
          let read :=
            match record with
            | None => Ok None
            | Some f => Some <$> parse_record (bytes f) (res_action r)
            end in
          match decide_read (claimed round) keep_existing is_restorable r read with
          | Err e => (Err e, None)
          | Ok (Some outcome) => (Ok outcome, None)
          | Ok None =>
              let store (k : Disk) :=
                set_results k (<[ destination := written (canonical_json r) now ]> (results k)) in
              match record with
              | Some _ => (Ok Stored, Some (store (claimed round)))
              | None =>
                  match results (at_rename round) !! destination with
                  | None => (Ok Stored, Some (store (at_rename round)))
                  | Some _ => store_rounds keep_existing is_restorable r destination now rounds
                  end
              end
          end
      end
  end.

Definition STORE_ROUNDS : nat := 8.

Definition required_blobs (r : ActionResult) : list Digest :=
  res_action r :: option_list (res_metadata r) ++ option_list (res_output_root r).

Fixpoint require_blobs (k : Disk) (l : list Digest) : result CasError unit :=
  match l with
  | [] => Ok ()
  | d :: l =>
      found ← find k d;
      match found with None => Err MissingBlob | Some _ => require_blobs k l end
  end.

(** [store_inner]; the disk it leaves is [None] when it writes nothing. *)
Definition store_inner (before : Disk) (r : ActionResult) (keep_existing : bool)
    (is_restorable : ActionResult -> bool) (now : Z) (rounds : list Round)
    : result CasError ActionStoreOutcome * option Disk :=
  if negb (res_version r =? 1) then (Err BadVersion, None)
  else
    match require_blobs before (required_blobs r) with
    | Err e => (Err e, None)
    | Ok _ =>
        match action_path (res_action r) with
        | Err e => (Err e, None)
        | Ok destination =>
            store_rounds keep_existing is_restorable r destination now (take STORE_ROUNDS rounds)
        end
    end.

(** [store] and [store_unless_restorable]. *)
Definition store_result (before : Disk) (r : ActionResult) (now : Z) (rounds : list Round) :=
  store_inner before r false (fun _ => true) now rounds.
Definition store_unless_restorable (before : Disk) (r : ActionResult)
    (is_restorable : ActionResult -> bool) (now : Z) (rounds : list Round) :=
  store_inner before r true is_restorable now rounds.
End store.

(** ** Paths *)

Lemma lift_ok {A} (r : result ProtocolError A) a : lift r = Ok a <-> r = Ok a.
Proof. destruct r; simpl; split; congruence. Qed.

Lemma validate_unit d u : validate_digest d = Ok u <-> is_ok (validate_digest d) = true.
Proof. destruct u, (validate_digest d) as [[]|]; simpl; split; congruence. Qed.

Lemma path_for_ok d p : path_for d = Ok p <-> is_ok (validate_digest d) = true /\ p = key_path d "".
Proof.
  unfold path_for. destruct (validate_digest d) as [[]|]; simpl; split; [|intros [_ ->]|..]; try done.
  - by intros [= <-].
  - by intros [].
Qed.

Lemma substring_2 s : String.length s = 64%nat -> String.length (String.substring 0 2 s) = 2%nat.
Proof. by destruct s as [|a [|b [|c s]]]. Qed.

Lemma append_nil s : (s ++ "")%string = s.
Proof. induction s as [|a s IH]; [done|]. exact (f_equal (String a) IH). Qed.

(** No two digests meet under one path. *)
Lemma key_path_inj d e p : path_for d = Ok p -> path_for e = Ok p -> d = e.
Proof.
  intros [[Ha Hh]%validate_digest_ok ->]%path_for_ok [[Ha' Hh']%validate_digest_ok Heq]%path_for_ok.
  unfold key_path in Heq. rewrite !append_nil in Heq. unfold is_hex64, len in *. simp_bool.
  assert (String.length (hash d) = 64%nat) by lia. assert (String.length (hash e) = 64%nat) by lia.
  apply append_inj in Heq as [Halg Heq].
  2: { destruct Ha as [Ha | Ha], Ha' as [Ha' | Ha']; by rewrite Ha, Ha'. }
  apply (append_inj "/" _ "/") in Heq as [_ Heq]; [|done].
  apply append_inj in Heq as [_ Heq]; [|by rewrite !substring_2].
  apply (append_inj "/" _ "/") in Heq as [_ Heq]; [|done].
  apply append_inj in Heq as [Hhash Heq]; [|lia].
  apply (append_inj "-" _ "-") in Heq as [_ Heq]; [|done].
  apply (inj pretty) in Heq. destruct d, e; simpl in *; congruence.
Qed.

Section stored.
Context `{Hashes}.

(** ** Stored objects *)

Definition describes (d : Digest) (b : list Z) : Prop := matches_file d b = Ok true.

Lemma find_found k d p :
  find k d = Ok (Some p) <->
  path_for d = Ok p /\ exists f, cas k !! p = Some f /\ describes d (bytes f).
Proof.
  unfold find, describes. destruct (path_for d) as [q|]; simpl; [|split; [done|by intros []]].
  destruct (cas k !! q) as [f|] eqn:E; simpl.
  - destruct (matches_file d (bytes f)) as [[]|] eqn:Em; simpl; split;
      try (intros (? & ? & ? & ?); simplify_eq; congruence); intros; simplify_eq; eauto.
  - split; [done|]. intros (? & ? & ? & ?). by simplify_eq.
Qed.

Lemma present_found k d :
  present k d = true <-> exists p f, path_for d = Ok p /\ cas k !! p = Some f /\ describes d (bytes f).
Proof.
  unfold present. split.
  - intros Hp. destruct (find k d) as [[p|]|] eqn:E; try done.
    apply find_found in E as (? & f & ? & ?). by exists p, f.
  - intros (p & f & Hp & Hf & Hd). assert (find k d = Ok (Some p)) as ->; [|done].
    apply find_found. eauto.
Qed.

(** Every file under a digest's path is what the digest describes. *)
Definition clean (k : Disk) : Prop :=
  forall d p f, path_for d = Ok p -> cas k !! p = Some f -> describes d (bytes f).

(** What a store may do to the disk it finds at the rename. *)
Definition store_effect (d : Digest) (meanwhile k : Disk) : Prop :=
  k = meanwhile \/ exists b p now, path_for d = Ok p /\ describes d b /\
    k = set_cas meanwhile (<[ p := written b now ]> (cas meanwhile)).

Lemma store_effect_keeps d meanwhile k :
  store_effect d meanwhile k ->
  (forall e, present meanwhile e = true -> present k e = true) /\
  (clean meanwhile -> clean k) /\ results k = results meanwhile.
Proof.
  intros [->|(b & p & now & Hp & Hd & ->)]; [done|]. split_and!; [| |done].
  - intros e (q & f & Hq & Hf & He)%present_found. apply present_found. simpl.
    destruct (decide (p = q)) as [->|Hne].
    + rewrite (key_path_inj e d q) by done. exists q, (written b now).
      split_and!; [done|by rewrite lookup_insert_eq|done].
    + exists q, f. split_and!; [done|by rewrite lookup_insert_ne|done].
  - intros Hc e q f Hq. simpl. intros [[<- <-]|[Hne Hf]]%lookup_insert_Some; [|by eapply Hc].
    by rewrite (key_path_inj e d p).
Qed.

(** What a store answers. *)
Definition store_answer (before : Disk) (d : Digest) (meanwhile : Disk) (out : result CasError string * Disk)
    : Prop :=
  match out.1 with
  | Ok p => path_for d = Ok p /\ (present out.2 d = true \/ present before d = true /\ out.2 = meanwhile)
  | Err _ => out.2 = meanwhile
  end.

Lemma persist_sound before meanwhile d p invalid b now :
  path_for d = Ok p -> describes d b ->
  store_effect d meanwhile (persist meanwhile d p invalid b now).2 /\
  store_answer before d meanwhile (persist meanwhile d p invalid b now).
Proof.
  intros Hp Hd.
  set (stored := set_cas meanwhile (<[ p := written b now ]> (cas meanwhile))).
  assert (store_effect d meanwhile stored /\ store_answer before d meanwhile (Ok p, stored)) as [He Ha].
  { split; [right; by exists b, p, now|]. split; [done|]. left. apply present_found.
    exists p, (written b now). simpl. by rewrite lookup_insert_eq. }
  unfold persist. destruct invalid; [done|]. destruct (cas meanwhile !! p); [|done].
  simpl. split; [by left|]. unfold store_answer. simpl.
  destruct (find meanwhile d) as [[q|]|] eqn:E; [|done|done].
  split; [by apply find_found in E as []|left]. unfold present. by rewrite E.
Qed.

Lemma store_refused before d meanwhile e :
  store_effect d meanwhile meanwhile /\ store_answer before d meanwhile (Err e, meanwhile).
Proof. split; [by left|done]. Qed.

Lemma store_existing before d meanwhile p :
  find before d = Ok (Some p) ->
  store_effect d meanwhile meanwhile /\ store_answer before d meanwhile (Ok p, meanwhile).
Proof.
  intros E. split; [by left|]. split; [by apply find_found in E as []|right].
  unfold present. by rewrite E.
Qed.

Lemma store_with_sound before d b meanwhile now :
  store_effect d meanwhile (store_with before d b meanwhile now).2 /\
  store_answer before d meanwhile (store_with before d b meanwhile now).
Proof.
  unfold store_with. destruct (path_for d) as [p|] eqn:Ep; [|apply store_refused].
  destruct (find before d) as [[q|]|] eqn:Ef; [by apply store_existing|..];
    (destruct (matches_file d b) as [[]|] eqn:Em; [|apply store_refused..]); by apply persist_sound.
Qed.

Definition change_time (m : Meta) : Z := ctime m * 1000000000 + ctime_nsec m.

(** How the kernel keeps change times: a file written after [looked_at] has one
    no older than that, rounded down to the filesystem's grain. *)
Definition changes_stamp (looked_at grain : Z) (s : Source) : Prop :=
  copied_bytes s <> hashed_bytes s -> dev (hashed_meta s) = dev (copied_meta s) -> ino (hashed_meta s) = ino (copied_meta s) ->
  looked_at < change_time (copied_meta s) + grain.

(** The source had been left alone for a grain when it was looked at. *)
Definition settled (looked_at grain : Z) (s : Source) : Prop := change_time (hashed_meta s) + grain <= looked_at.

Lemma settled_identity looked_at grain s :
  changes_stamp looked_at grain s -> settled looked_at grain s ->
  same_identity (hashed_meta s) (copied_meta s) = true -> copied_bytes s = hashed_bytes s.
Proof.
  unfold changes_stamp, settled, change_time, same_identity. intros Hc Hs Hi. simp_bool.
  destruct (decide (copied_bytes s = hashed_bytes s)) as [|Hne]; [done|]. specialize (Hc Hne). lia.
Qed.

Lemma store_file_sound looked_at grain before d source meanwhile now :
  changes_stamp looked_at grain source -> settled looked_at grain source ->
  store_effect d meanwhile (store_file before d source meanwhile now).2 /\
  store_answer before d meanwhile (store_file before d source meanwhile now) /\
  (copied_bytes source <> hashed_bytes source -> is_ok (store_file before d source meanwhile now).1 = true ->
   present before d = true /\ (store_file before d source meanwhile now).2 = meanwhile).
Proof.
  intros Hc Hs. pose proof (settled_identity _ _ _ Hc Hs) as Hh. unfold store_file, store_file_inner.
  assert (Hno : forall e, store_effect d meanwhile (@Err CasError string e, meanwhile).2 /\
    store_answer before d meanwhile (Err e, meanwhile) /\
    (copied_bytes source <> hashed_bytes source -> is_ok (@Err CasError string e) = true -> present before d = true /\ meanwhile = meanwhile)).
  { intros e. destruct (store_refused before d meanwhile e). by split_and!. }
  destruct (path_for d) as [p|] eqn:Ep; [|apply Hno].
  destruct (find before d) as [[q|]|] eqn:Ef.
  1: { destruct (store_existing before d meanwhile q Ef). split_and!; [done..|]. split; [unfold present; by rewrite Ef|done]. }
  all: destruct (matches_file d (hashed_bytes source)) as [[]|] eqn:Em; [|apply Hno..];
    destruct (same_identity _ _) eqn:Es; [|apply Hno]; cbn [negb andb]; destruct (negb _); [apply Hno|];
    rewrite <- (Hh eq_refl) in Em; split_and!; [by eapply persist_sound|by eapply persist_sound|intros Hne; by rewrite Hh in Hne].
Qed.

(** Storing bytes is sound whatever other processes do meanwhile: no object
    that was good is lost, a clean store stays clean, and success means the
    object is under its path now or was found there to begin with; failure
    changes nothing, and bytes that do not match are refused. *)
Lemma store_bytes_is_sound before d b meanwhile now :
  let '(r, k) := store_bytes before d b meanwhile now in
  (forall e, present meanwhile e = true -> present k e = true) /\
  (clean meanwhile -> clean k) /\ results k = results meanwhile /\
  match r with
  | Ok p => matches_bytes blake3_hex sha256_hex d b = Ok true /\ path_for d = Ok p /\
            (present k d = true \/ present before d = true /\ k = meanwhile)
  | Err _ => k = meanwhile
  end.
Proof.
  unfold store_bytes. destruct (matches_bytes _ _ d b) as [[]|]; simpl; try done.
  destruct (store_with_sound before d b meanwhile now) as [He Ha].
  destruct (store_with _ _ _ _ _) as [r k]. destruct (store_effect_keeps _ _ _ He) as (H1 & H2 & H3).
  split_and!; try done. unfold store_answer in Ha. simpl in Ha. by destruct r.
Qed.

(** C30: Storing a file is sound although the source is hashed before it is
    copied, when the source was left alone for a grain of its filesystem's clock
    before it was looked at: under its digest lands only what was hashed, and a
    source rewritten or replaced since is refused, because that shows in its
    change time or its inode.  No other object is lost and a refusal changes
    nothing. *)
Theorem store_file_is_sound looked_at grain before d source meanwhile now :
  changes_stamp looked_at grain source -> settled looked_at grain source ->
  let '(r, k) := store_file before d source meanwhile now in
  (forall e, present meanwhile e = true -> present k e = true) /\
  (clean meanwhile -> clean k) /\ results k = results meanwhile /\
  (copied_bytes source <> hashed_bytes source -> is_ok r = true -> present before d = true /\ k = meanwhile) /\
  match r with
  | Ok p => path_for d = Ok p /\ (present k d = true \/ present before d = true /\ k = meanwhile)
  | Err _ => k = meanwhile
  end.
Proof.
  intros Hc Hs. destruct (store_file_sound _ _ before d source meanwhile now Hc Hs) as (He & Ha & Hn).
  destruct (store_file _ _ _ _ _) as [r k]. destruct (store_effect_keeps _ _ _ He) as (H1 & H2 & H3).
  split_and!; done.
Qed.
End stored.

(** ** The object graph *)

Section graph.
Context `{Hashes} `{Codec}.

(** A stored directory object refers to its subdirectories. *)
Definition directory_at (k : Disk) (d : Digest) : option Directory := read_object k d ≫= parse_directory.

Definition child (k : Disk) (d e : Digest) : Prop :=
  exists dir, directory_at k d = Some dir /\ e ∈ child_digests dir.

Definition children_of (k : Disk) (d : Digest) : list Digest :=
  default [] (child_digests <$> directory_at k d).

Lemma child_children k d e : child k d e <-> e ∈ children_of k d.
Proof.
  unfold child, children_of. destruct (directory_at k d) as [dir|]; simpl; [naive_solver|].
  rewrite elem_of_nil. naive_solver.
Qed.

Lemma child_referenced k d e : child k d e -> e ∈ referenced k.
Proof.
  intros (dir & Hd & He). unfold directory_at, read_object in Hd.
  destruct (path_for d) as [p|]; [|done]. destruct (cas k !! p) as [f|] eqn:Ef; [|done]. simpl in Hd.
  unfold referenced. rewrite elem_of_list_to_set. apply list_elem_of_In, in_concat.
  exists (child_digests dir). split; [|by apply list_elem_of_In]. apply in_map_iff. exists (p, f).
  split; [simpl; by rewrite Hd|]. by apply list_elem_of_In, elem_of_map_to_list.
Qed.

(** A directory object that can be restored: present, verified, and listing
    only files that are. *)
Definition restorable_directory (k : Disk) (d : Digest) : Prop :=
  present k d = true /\ exists dir, directory_at k d = Some dir /\
  forall f, f ∈ files dir -> present k (file_digest f) = true.

Lemma intact_directory_some k d next :
  intact_directory k d = Some next <-> restorable_directory k d /\ next = children_of k d.
Proof.
  unfold intact_directory, restorable_directory, children_of. fold (directory_at k d).
  destruct (present k d); [|split; [done|by intros [[] _]]].
  destruct (directory_at k d) as [dir|] eqn:Ed; simpl; [|split; [done|by intros [(_ & ? & ? & _) _]]].
  destruct (forallb _ _) eqn:Ef.
  - rewrite forallb_forall in Ef. split; [intros [= <-]|by intros [_ ->]].
    split; [|done]. split; [done|]. exists dir. split; [done|]. intros f Hf. by apply Ef, list_elem_of_In.
  - split; [done|]. intros [(_ & dir' & [= <-] & Hall) _].
    assert (forallb (fun f => present k (file_digest f)) (files dir) = true) as Ht; [|congruence].
    apply forallb_forall. intros f Hf. by apply Hall, list_elem_of_In.
Qed.

Lemma refers_child k d e : refers (intact_directory k) d e -> child k d e.
Proof.
  intros (next & [_ ->]%intact_directory_some & He). by apply child_children.
Qed.

(** The integrity search of an output tree is exact: it succeeds if and only
    if every directory reachable from the root, through a graph of any shape,
    is present, verified and readable and lists only files that are present
    and verified. *)
Lemma directory_is_intact_exact k d :
  directory_is_intact k d = true <-> forall x, rtc (child k) d x -> restorable_directory k x.
Proof.
  unfold directory_is_intact.
  destruct (search_total (intact_directory k) ({[ d ]} ∪ referenced k)
    (S (base.size ({[ d ]} ∪ referenced k))) d ∅) as [[b seen] Hs].
  - intros x y Hxy. apply elem_of_union_r. by eapply child_referenced, refers_child.
  - set_solver.
  - rewrite difference_empty_L. lia.
  - rewrite Hs, (search_exact _ _ _ _ _ Hs). split.
    + intros Hall x Hx.
      assert (rtc (refers (intact_directory k)) d x) as Hr.
      { clear Hs. revert Hall. induction Hx as [|d y z Hdy _ IH]; intros Hall; [done|].
        destruct (Hall d) as [next Hn]; [done|].
        assert (refers (intact_directory k) d y) as Hr.
        { exists next. split; [done|]. apply intact_directory_some in Hn as [_ ->]. by apply child_children. }
        eapply rtc_l; [exact Hr|]. apply IH. intros w Hw. apply Hall. by eapply rtc_l. }
      destruct (Hall x Hr) as [next Hn]. by apply intact_directory_some in Hn as [? _].
    + intros Hall x Hx. exists (children_of k x). apply intact_directory_some. split; [|done].
      apply Hall. clear - Hx. induction Hx; [done|]. by eapply rtc_l; [apply refers_child|].
Qed.

(** ** The objects a result names *)

(** Reachable from a root, or listed by something that is. *)
Definition under (k : Disk) (root x : Digest) : Prop :=
  rtc (child k) root x \/
  exists d dir f, rtc (child k) root d /\ directory_at k d = Some dir /\ f ∈ files dir /\ x = file_digest f.

Lemma name_directory_pushes k d objects : (name_directory k d objects).2 = children_of k d.
Proof. unfold name_directory, children_of. fold (directory_at k d). by destruct (directory_at k d). Qed.

Lemma name_directory_adds k d objects x :
  x ∈ (name_directory k d objects).1 <->
  x ∈ objects \/ x = d \/ exists dir f, directory_at k d = Some dir /\ f ∈ files dir /\ x = file_digest f.
Proof.
  unfold name_directory. fold (directory_at k d). destruct (directory_at k d) as [dir|]; simpl;
    rewrite elem_of_app, ?elem_of_cons, ?elem_of_nil.
  - rewrite list_elem_of_fmap. naive_solver.
  - naive_solver.
Qed.

Lemma walk_fuel_enough k roots objects :
  is_Some (walk (name_directory k) (walk_fuel k roots) roots ∅ objects).
Proof.
  apply (walk_total _ (children_of k) (name_directory_pushes k) (list_to_set roots ∪ referenced k)).
  - intros a b Hab. apply elem_of_union_r, (child_referenced k a). by apply child_children.
  - intros a Ha. apply elem_of_union_l. by apply elem_of_list_to_set.
  - rewrite difference_empty_L. done.
Qed.

Lemma walk_names k roots objects seen objects' :
  walk (name_directory k) (walk_fuel k roots) roots ∅ objects = Some (seen, objects') ->
  forall x, x ∈ objects' <-> x ∈ objects \/ exists r, r ∈ roots /\ under k r x.
Proof.
  intros Hw.
  destruct (walk_reaches _ (children_of k) (name_directory_pushes k) _ _ _ _ _ _
    (fun a b Ha => match not_elem_of_empty a Ha with end) Hw) as [_ Hseen].
  set (P := fun (_ : list Digest) (X : gset Digest) (l : list Digest) =>
    forall x, x ∈ l <-> x ∈ objects \/ exists d, d ∈ X /\
      (x = d \/ exists dir f, directory_at k d = Some dir /\ f ∈ files dir /\ x = file_digest f)).
  assert (P [] seen objects') as HP.
  { eapply (walk_ind _ P); [..|exact Hw].
    - intros a todo X l HP _. exact HP.
    - intros a todo X l HP _ x. rewrite name_directory_adds, (HP x). set_solver.
    - intros x. set_solver. }
  assert (forall a b, rtc (edge (children_of k)) a b <-> rtc (child k) a b) as Hrtc.
  { intros a b. split; apply rtc_subrel; intros y z; rewrite child_children; done. }
  intros x. rewrite (HP x). unfold under. setoid_rewrite Hseen. setoid_rewrite Hrtc. set_solver.
Qed.

(** What a result names: its action, its metadata, the output that records, and
    everything under its output root. *)
Definition names (k : Disk) (r : ActionResult) (x : Digest) : Prop :=
  x = res_action r \/ res_metadata r = Some x \/
  (exists m c, res_metadata r = Some m /\ read_object k m ≫= parse_captured = Some c /\
     (x = captured_stdout c \/ x = captured_stderr c)) \/
  exists root, res_output_root r = Some root /\ under k root x.

Lemma named_objects_names k r x : x ∈ named_objects k r <-> names k r x.
Proof.
  unfold named_objects. set (objects := match res_metadata r with None => _ | Some m => _ end).
  destruct (walk_fuel_enough k (option_list (res_output_root r)) objects) as [[seen objects'] Hw].
  rewrite Hw, (walk_names _ _ _ _ _ Hw). unfold names, objects.
  assert ((exists r0, r0 ∈ option_list (res_output_root r) /\ under k r0 x) <->
    exists root, res_output_root r = Some root /\ under k root x) as ->.
  { destruct (res_output_root r) as [root|]; simpl; [|set_solver]. split.
    - intros (r0 & ->%list_elem_of_singleton & ?). eauto.
    - intros (r0 & [= ->] & ?). exists r0. split; [by apply list_elem_of_singleton|done]. }
  destruct (res_metadata r) as [m|]; [destruct (read_object k m ≫= parse_captured) as [c|] eqn:Ec|];
    rewrite ?elem_of_app, ?elem_of_cons, ?elem_of_nil; naive_solver.
Qed.
End graph.

Section publishing.
Context `{Hashes} `{Codec} `{!CodecLaws}.

(** ** Publishing *)

Lemma find_result_claimed k a p :
  action_path a = Ok p ->
  find_result k a =
  match results k !! p with None => Ok None | Some f => Some <$> parse_record (bytes f) a end.
Proof. intros Hp. unfold find_result. rewrite Hp. simpl. by destruct (results k !! p) as [f|]; [destruct (parse_record _ _)|]. Qed.

Lemma canonical_record_reads r :
  res_version r = 1 -> parse_record (canonical_json r) (res_action r) = Ok r.
Proof.
  intros Hv. unfold parse_record. rewrite parse_canonical, Hv, !bool_decide_true by done. done.
Qed.

(** The record that stops a writer: valid, and intact on the disk it was read
    from. *)
Definition standing (k : Disk) (r existing : ActionResult) : Prop :=
  find_result k (res_action r) = Ok (Some existing) /\ existing <> r /\ is_intact k existing = true.

(** The record a round decides by: the one of its lock-free read or the one
    under the slot's lock. *)
Definition consulted (rounds : list Round) (k : Disk) : Prop :=
  exists round, round ∈ rounds /\ (k = unlocked round \/ k = claimed round).

(** Nothing a writer has to keep: whatever stands may be replaced. *)
Definition replaceable (keep_existing : bool) (is_restorable : ActionResult -> bool) (r : ActionResult) (k : Disk) : Prop :=
  forall existing, standing k r existing -> keep_existing = true /\ is_restorable existing = false.

(** The disk a round's write goes to: that of the lock when the slot holds a
    record, which is replaced, and that of the rename when it is vacant. *)
Definition written_over (destination : string) (round : Round) (k : Disk) : Prop :=
  match results (claimed round) !! destination with
  | Some _ => k = claimed round
  | None => k = at_rename round /\ results k !! destination = None
  end.

(** What publishing [r] did, by its outcome. *)
Definition published (keep_existing : bool) (is_restorable : ActionResult -> bool) (r : ActionResult)
    (now : Z) (rounds : list Round) (out : result CasError ActionStoreOutcome * option Disk) : Prop :=
  match out with
  | (Ok Stored, Some k) =>
      find_result k (res_action r) = Ok (Some r) /\
      exists round destination k0, round ∈ rounds /\ action_path (res_action r) = Ok destination /\
        replaceable keep_existing is_restorable r (unlocked round) /\
        replaceable keep_existing is_restorable r (claimed round) /\
        written_over destination round k0 /\
        k = set_results k0 (<[ destination := written (canonical_json r) now ]> (results k0))
  | (Ok Unchanged, None) => exists k, consulted rounds k /\ find_result k (res_action r) = Ok (Some r)
  | (Ok KeptExisting, None) =>
      keep_existing = true /\ exists k existing, consulted rounds k /\ standing k r existing /\ is_restorable existing = true
  | (Err Conflict, None) => keep_existing = false /\ exists k existing, consulted rounds k /\ standing k r existing
  | (Err _, None) => True
  | _ => False
  end.

(** Every round found the slot vacant under the lock and filled at the rename. *)
Definition contested (destination : string) (rounds : list Round) : Prop :=
  Forall (fun round => results (claimed round) !! destination = None /\ is_Some (results (at_rename round) !! destination)) rounds.

(** Why publishing [r] is refused before any round. *)
Inductive refused (before : Disk) (r : ActionResult) : CasError -> Prop :=
| refused_version : res_version r <> 1 -> refused before r BadVersion
| refused_blob e : require_blobs before (required_blobs r) = Err e -> refused before r e
| refused_path e : action_path (res_action r) = Err e -> refused before r e.

Lemma decide_read_spec k keep restorable r now rounds :
  consulted rounds k ->
  match decide_read k keep restorable r (find_result k (res_action r)) with
  | Ok None => replaceable keep restorable r k
  | Ok (Some outcome) => published keep restorable r now rounds (Ok outcome, None)
  | Err e => published keep restorable r now rounds (Err e, None)
  end.
Proof.
  intros Hk. unfold decide_read, replaceable, standing.
  destruct (find_result k (res_action r)) as [[existing|]|] eqn:Ef; [|naive_solver..].
  unfold decide_existing. case_bool_decide as He; [subst; by exists k|].
  destruct (is_intact k existing) eqn:Ei; [|intros x (? & ? & ?); simplify_eq; congruence].
  destruct keep; simpl; [destruct (restorable existing) eqn:Er; simpl|].
  - split; [done|]. by exists k, existing.
  - intros x (? & ? & ?). by simplify_eq.
  - split; [done|]. by exists k, existing.
Qed.

Lemma published_later keep restorable r now round rounds out :
  published keep restorable r now rounds out -> published keep restorable r now (round :: rounds) out.
Proof.
  assert (Hc : forall k, consulted rounds k -> consulted (round :: rounds) k).
  { intros k (x & Hx & ?). exists x. split; [by right|done]. }
  destruct out as [[[]|[]] [k|]]; simpl; try done; try naive_solver.
  intros (Hf & x & p & k0 & Hx & ?). split; [done|]. exists x, p, k0. split; [by right|done].
Qed.

Lemma store_rounds_published keep restorable r destination now rounds :
  res_version r = 1 -> action_path (res_action r) = Ok destination ->
  published keep restorable r now rounds (store_rounds keep restorable r destination now rounds).
Proof.
  intros Hv Hp. induction rounds as [|round rounds IH]; simpl; [done|].
  assert (Hhere : forall k, k = unlocked round \/ k = claimed round -> consulted (round :: rounds) k)
    by (intros k Hk; exists round; split; [apply list_elem_of_here|done]).
  pose proof (decide_read_spec (unlocked round) keep restorable r now _ (Hhere _ (or_introl eq_refl))) as Hd1.
  destruct (decide_read (unlocked round) _ _ _ _) as [[]|]; [done| |done].
  pose proof (decide_read_spec (claimed round) keep restorable r now _ (Hhere _ (or_intror eq_refl))) as Hd2.
  rewrite (find_result_claimed _ _ _ Hp) in Hd2.
  destruct (decide_read (claimed round) _ _ _ _) as [[]|]; [done| |done].
  assert (forall k, find_result (set_results k (<[destination:=written (canonical_json r) now]> (results k)))
    (res_action r) = Ok (Some r)) as Hfind.
  { intros k. rewrite (find_result_claimed _ _ _ Hp). simpl. rewrite lookup_insert_eq. simpl.
    by rewrite canonical_record_reads. }
  destruct (results (claimed round) !! destination) eqn:Ec.
  - split; [apply Hfind|]. exists round, destination, (claimed round). unfold written_over. rewrite Ec.
    split_and!; try done. apply list_elem_of_here.
  - destruct (results (at_rename round) !! destination) eqn:Er; [by apply published_later|]. split; [apply Hfind|].
    exists round, destination, (at_rename round). unfold written_over. rewrite Ec. split_and!; try done. apply list_elem_of_here.
Qed.

Lemma require_blobs_present k l : require_blobs k l = Ok () -> Forall (fun d => present k d = true) l.
Proof.
  induction l as [|d l IH]; intros Hl; [constructor|]. simpl in Hl.
  destruct (find k d) as [[p|]|] eqn:E; try done. constructor; [unfold present; by rewrite E|by apply IH].
Qed.

Lemma require_blobs_refusal k l e : require_blobs k l = Err e -> e <> Conflict /\ e <> KeptChanging.
Proof.
  induction l as [|d l IH]; simpl; [done|]. unfold find, path_for, matches_file.
  destruct (validate_digest d) as [[]|]; simpl; [|by intros [= <-]].
  destruct (cas k !! _); simpl; [|by intros [= <-]]. destruct (parse_algorithm _); simpl; [|by intros [= <-]].
  destruct (_ && _); simpl; [done|by intros [= <-]].
Qed.

Lemma action_path_refusal a e : action_path a = Err e -> e <> Conflict /\ e <> KeptChanging.
Proof. unfold action_path. destruct (validate_digest a); simpl; [case_match|]; by intros [= <-]. Qed.

Lemma decide_read_error k keep restorable r read e : decide_read k keep restorable r read = Err e -> e = Conflict.
Proof. unfold decide_read, decide_existing. destruct read as [[existing|]|]; [|done..]. repeat case_match; by intros [= <-]. Qed.

Lemma store_rounds_error keep restorable r p now rounds e :
  (store_rounds keep restorable r p now rounds).1 = Err e -> e = Conflict \/ e = KeptChanging /\ contested p rounds.
Proof.
  induction rounds as [|round rounds IH]; simpl; [intros [= <-]; right; by split; [|constructor]|].
  destruct (decide_read (unlocked round) _ _ _ _) as [[]|] eqn:E1;
    [done| |intros [= <-]; left; by eapply decide_read_error].
  destruct (decide_read (claimed round) _ _ _ _) as [[]|] eqn:E2;
    [done| |intros [= <-]; left; by eapply decide_read_error].
  destruct (results (claimed round) !! p) eqn:Ec; [done|]. destruct (results (at_rename round) !! p) eqn:Er; [|done].
  intros He. destruct (IH He) as [|[-> Hc]]; [by left|]. right. split; [done|]. constructor; [by eauto|done].
Qed.

(** C29: Publishing keeps the first intact writer, whatever other processes do
    between the steps of its eight rounds.  A result is written only after every
    object it requires was found, and only in a round in which neither the
    lock-free read nor the one under the slot's lock met a record that stands,
    unless the caller keeps existing ones and this one cannot be restored.  The
    write replaces the record that was under the lock or fills a slot that is
    vacant at the rename, changes nothing else, and reads back as it was given.
    Every other outcome writes nothing: it names a record that one of the rounds
    read, or an object that is missing, an action or a version that is invalid,
    or says that in every round somebody filled the slot first.  When nothing
    else writes, the first round decides. *)
Theorem publishing_keeps_first_writer before r keep_existing is_restorable now rounds :
  let out := store_inner before r keep_existing is_restorable now rounds in
  published keep_existing is_restorable r now (take STORE_ROUNDS rounds) out /\
  (out.2 <> None -> Forall (fun d => present before d = true) (required_blobs r)) /\
  (forall e, out.1 = Err e -> e = Conflict \/ refused before r e \/
     e = KeptChanging /\ exists destination, action_path (res_action r) = Ok destination /\
       contested destination (take STORE_ROUNDS rounds)) /\
  (forall k rest, rounds = mkRound k k k :: rest -> out.1 <> Err KeptChanging).
Proof.
  intros out. unfold out, store_inner. destruct (Z.eqb_spec (res_version r) 1) as [Hv|Hv].
  2: { split; [done|]. split; [done|]. split; [|done]. intros e [= <-]. right. left. by constructor. }
  simpl negb. cbv iota. destruct (require_blobs before (required_blobs r)) as [[]|e] eqn:Eb.
  2: { pose proof (require_blobs_refusal _ _ _ Eb) as [Ec Ek]. split; [by destruct e|]. split; [done|].
       split; [intros e' [= <-]; right; left; by constructor 2|]. intros _ _ _ [= ?]. done. }
  apply require_blobs_present in Eb. destruct (action_path (res_action r)) as [p|e] eqn:Ep.
  2: { pose proof (action_path_refusal _ _ Ep) as [Ec Ek]. split; [by destruct e|]. split; [done|].
       split; [intros e' [= <-]; right; left; by constructor 3|]. intros _ _ _ [= ?]. done. }
  split; [by apply store_rounds_published|]. split; [done|]. split.
  - intros e He. destruct (store_rounds_error _ _ _ _ _ _ _ He) as [|[]]; eauto 6.
  - intros k rest -> He. destruct (store_rounds_error _ _ _ _ _ _ _ He) as [|[_ Hc]]; [done|].
    inversion Hc as [|? ? [Hn [f Hf]] _]. simpl in *. congruence.
Qed.
End publishing.

(** ** Uses *)

Section uses.
Context `{Hashes} `{Codec}.

(** The file counts as used at [now]. *)
Definition used_at (now : Z) (f : File) : Prop := exists a, accessed f = Some a /\ now - USE_REFRESH < a.

(** Recording uses at [now] changes access times only, and only to [now]. *)
Definition touched (now : Z) (f f' : File) : Prop :=
  bytes f' = bytes f /\ modified f' = modified f /\
  (accessed f' = accessed f \/ accessed f' = Some now).

Definition touches (now : Z) (m m' : gmap string File) : Prop :=
  forall p, match m !! p, m' !! p with
            | Some f, Some f' => touched now f f' /\ (used_at now f -> used_at now f')
            | None, None => True
            | _, _ => False
            end.

Lemma used_now now f : accessed f = Some now -> used_at now f.
Proof. intros Ha. exists now. split; [done|]. unfold USE_REFRESH. lia. Qed.

Lemma touches_refl now m : touches now m m.
Proof. intros p. destruct (m !! p); [|done]. split; [|done]. split_and!; auto. Qed.

Lemma touches_trans now m1 m2 m3 : touches now m1 m2 -> touches now m2 m3 -> touches now m1 m3.
Proof.
  intros H12 H23 p. specialize (H12 p). specialize (H23 p).
  destruct (m1 !! p), (m2 !! p), (m3 !! p); try done.
  destruct H12 as [(? & ? & Ha) ?], H23 as [(? & ? & Hb) ?]. split; [|auto]. split_and!; [congruence..|].
  destruct Hb as [->|]; auto.
Qed.

Lemma record_file_use_touches m p now :
  touches now m (record_file_use m p now) /\
  forall f, record_file_use m p now !! p = Some f -> used_at now f.
Proof.
  unfold record_file_use. destruct (m !! p) as [g|] eqn:Eg; [|split; [apply touches_refl|by rewrite Eg]].
  destruct (is_some_and _ _) eqn:Eu.
  - split; [apply touches_refl|]. intros f. rewrite Eg. intros [= <-]. unfold used_at.
    destruct (accessed g) as [a|]; simpl in Eu; [|done]. simp_bool. by exists a.
  - split.
    + intros q. destruct (decide (p = q)) as [->|Hne].
      * rewrite Eg, lookup_insert_eq. split; [split_and!; auto|]. intros _. by apply used_now.
      * rewrite lookup_insert_ne by done. apply (touches_refl now m q).
    + intros f. rewrite lookup_insert_eq. intros [= <-]. by apply used_now.
Qed.

(** An object, if it is there, counts as used. *)
Definition used_object (now : Z) (k : Disk) (d : Digest) : Prop :=
  forall p f, path_for d = Ok p -> cas k !! p = Some f -> used_at now f.

Lemma used_object_touches now k k' d :
  touches now (cas k) (cas k') -> used_object now k d -> used_object now k' d.
Proof.
  intros Ht Hu p f Hp Hf. specialize (Ht p). rewrite Hf in Ht.
  destruct (cas k !! p) as [g|] eqn:Eg; [|done]. apply Ht. by eapply Hu.
Qed.

Lemma record_uses now l k :
  let k' := fold_left (fun k d => record_use k d now) l k in
  touches now (cas k) (cas k') /\ results k' = results k /\ forall d, d ∈ l -> used_object now k' d.
Proof.
  revert k. induction l as [|d l IH]; intros k; simpl; [split_and!; [apply touches_refl|done|set_solver]|].
  destruct (IH (record_use k d now)) as (H1' & H2' & H3').
  assert (touches now (cas k) (cas (record_use k d now)) /\ results (record_use k d now) = results k /\
    used_object now (record_use k d now) d) as (Ht & Hr & Hu).
  { unfold record_use, used_object. destruct (path_for d) as [p|] eqn:Ep.
    - destruct (record_file_use_touches (cas k) p now) as [Ht Hu]. simpl. split_and!; [done|done|].
      intros q f [= <-]. apply Hu.
    - split_and!; [apply touches_refl|done|done]. }
  split_and!; [by eapply touches_trans|congruence|].
  intros e [->|He]%elem_of_cons; [by eapply used_object_touches|by apply H3'].
Qed.

(** A recorded use reaches everything: after a build used a result, either
    its record already counted as used within the last day, or the record and
    every object the result names -- action, metadata, captured output, and
    every directory and file under the output root -- do now; contents and
    modification times never change. *)
Lemma use_reaches_closure k r now record f :
  action_path (res_action r) = Ok record -> results k !! record = Some f ->
  let k' := record_result_use k r now in
  touches now (cas k) (cas k') /\ touches now (results k) (results k') /\
  (exists f', results k' !! record = Some f' /\ used_at now f') /\
  (k' = k \/ forall d, names k r d -> used_object now k' d).
Proof.
  intros Hp Hf. unfold record_result_use. rewrite Hp, Hf. simpl.
  destruct (is_some_and _ (accessed f)) eqn:Eu.
  { split_and!; [apply touches_refl..| |by left]. exists f. split; [done|]. unfold used_at.
    destruct (accessed f) as [a|]; simpl in Eu; [|done]. simp_bool. by exists a. }
  unfold record_closure_use. destruct (record_uses now (named_objects k r) k) as (Ht & Hr & Hu). simpl.
  rewrite Hr. split_and!; [done| | |right].
  - intros p. destruct (decide (record = p)) as [->|Hne]; [rewrite lookup_alter_eq|rewrite lookup_alter_ne by done].
    + rewrite Hf. simpl. split; [split_and!; auto|]. intros _. by apply used_now.
    + apply (touches_refl now (results k) p).
  - rewrite lookup_alter_eq, Hf. simpl. eexists. split; [done|]. by apply used_now.
  - intros d Hd. apply Hu. by apply named_objects_names.
Qed.
End uses.

(** ** Witnesses *)

#[export] Instance ActionResult_countable : Countable ActionResult.
Proof.
  refine (inj_countable' (fun r => (res_action r, res_metadata r, res_output_root r, res_version r))
    (fun t => mkResult t.1.1.1 t.1.1.2 t.1.2 t.2) _). by intros [].
Defined.

Module Demo.
(** A hash that always says zero and a codec that numbers its records. *)
#[export] Instance hashes : Hashes := {| blake3_hex := fun _ => zeros; sha256_hex := fun _ => zeros |}.

Definition digest (n : Z) : Digest := mkDigest "blake3" zeros n.

#[export] Instance codec : Codec := {|
  parse_result := fun b => match b with [Zpos p] => decode p | _ => None end;
  canonical_json := fun r => [Zpos (encode r)];
  parse_directory := fun b =>
    match b with [7] => Some (mkDirectory [] [mkFileNode (digest 2) false 420 "a"] [] 1) | _ => None end;
  parse_captured := fun _ => None
|}.

#[export] Instance codec_laws : CodecLaws.
Proof. split. intros r. simpl. apply decode_encode. Qed.

Definition path (n : Z) : string := key_path (digest n) "".
Definition old (b : list Z) : File := mkFile b (Some 0) (Some 0).
Definition the_result : ActionResult := mkResult (digest 0) None (Some (digest 1)) 1.
Definition record : string := key_path (digest 0) ".json".
Definition disk : Disk :=
  mkDisk (<[ path 0 := old [] ]> (<[ path 1 := old [7] ]> {[ path 2 := old [1; 2] ]})) ∅.
Definition stored_disk : Disk :=
  set_results disk {[ record := old (canonical_json the_result) ]}.
Definition meta (t : Z) : Meta := mkMeta 2 (Some 5) 1 1 t 0.
(** A source rewritten after it was hashed. *)
Definition rewritten : Source := mkSource [1; 2] (meta 6) [3; 4] (meta 7).
End Demo.

#[local] Existing Instances Demo.hashes Demo.codec Demo.codec_laws.

Lemma store_file_is_sound_witness :
  let '(r, k) := store_file (mkDisk ∅ ∅) (Demo.digest 2) Demo.rewritten Demo.disk 9 in
  r = Err SourceChanged /\ present k (Demo.digest 2) = true /\ k = Demo.disk.
Proof.
  pose proof (store_file_is_sound 6500000000 4000000 (mkDisk ∅ ∅) (Demo.digest 2) Demo.rewritten Demo.disk 9) as Hs.
  destruct (store_file _ _ _ _ _) as [r k] eqn:E.
  assert (r = Err SourceChanged) as -> by (vm_compute in E; congruence).
  destruct Hs as (Hp & _ & _ & _ & ->).
  - intros _ _ _. vm_compute. reflexivity.
  - vm_compute. discriminate.
  - split; [done|]. split; [|done]. apply Hp. vm_compute. reflexivity.
Defined.

(** A source written again within the same tick of its clock is taken for
    unchanged, and what is copied lands under the digest of what was hashed. *)
Example unsettled_rewrite_is_stored :
  let source := mkSource [1; 2] (Demo.meta 6) [3; 4] (Demo.meta 6) in
  changes_stamp 6001000000 4000000 source /\
  exists p k, store_file (mkDisk ∅ ∅) (Demo.digest 2) source (mkDisk ∅ ∅) 9 = (Ok p, k) /\
    bytes <$> cas k !! p = Some [3; 4].
Proof.
  split; [intros _ _ _; vm_compute; reflexivity|]. eexists _, _. split; vm_compute; reflexivity.
Qed.

Lemma publishing_keeps_first_writer_witness :
  let other := mkResult (Demo.digest 0) None None 1 in
  let out := store_inner Demo.disk other false (fun _ => true) 9 [mkRound Demo.disk Demo.stored_disk Demo.stored_disk] in
  out = (Err Conflict, None) /\ published false (fun _ => true) other 9 [mkRound Demo.disk Demo.stored_disk Demo.stored_disk] out.
Proof.
  split; [vm_compute; reflexivity|].
  exact (proj1 (publishing_keeps_first_writer Demo.disk (mkResult (Demo.digest 0) None None 1) false (fun _ => true) 9
    [mkRound Demo.disk Demo.stored_disk Demo.stored_disk])).
Defined.

Lemma use_reaches_closure_witness :
  let now := 10 * USE_REFRESH in
  used_object now (record_result_use Demo.stored_disk Demo.the_result now) (Demo.digest 2).
Proof.
  intros now.
  destruct (use_reaches_closure Demo.stored_disk Demo.the_result now Demo.record
    (Demo.old (canonical_json Demo.the_result))) as (_ & _ & _ & [Hk|Hu]).
  - vm_compute. reflexivity.
  - vm_compute. reflexivity.
  - exfalso. apply (f_equal (fun k => accessed <$> results k !! Demo.record)) in Hk.
    vm_compute in Hk. congruence.
  - apply Hu. right. right. right. exists (Demo.digest 1). split; [done|]. right.
    exists (Demo.digest 1), (mkDirectory [] [mkFileNode (Demo.digest 2) false 420 "a"] [] 1),
      (mkFileNode (Demo.digest 2) false 420 "a").
    split_and!; [done|vm_compute; reflexivity|apply list_elem_of_here|done].
Defined.

Example demo_tree_intact :
  directory_is_intact Demo.disk (Demo.digest 1) = true /\
  directory_is_intact (set_cas Demo.disk (delete (Demo.path 2) (cas Demo.disk))) (Demo.digest 1) = false.
Proof. split; vm_compute; reflexivity. Qed.
