(* ===== verification/Housekeeping.v ===== *)
(** * What a collection tidies beside the cache

    Models, from [src/crates/mbx-cache-store/src/lib.rs] and its [events.rs],
    the passes [gc_with_mode] runs around the eviction: which checkout claims
    are live ([scan_checkouts]), and the pruning of task manifests and their
    locks, of session event streams, and of abandoned import staging.  Each
    directory is a map from file names to what a stat says; a lock file says
    whether another process holds it, and opening one creates it.  Removals
    that the operating system refuses are given by [access].

    The theorems: a claim is given up only on evidence, a manifest that is
    claimed, young or locked is never removed and a live session's stream
    neither, finished streams are bounded by the retention, and a dry run
    reports what a real run removes. *)

From stdpp Require Import base list gmap sets strings sorting.
From Stdlib Require Import ZArith Lia.
From S2P Require Import Prelude Strings Protocol.
Local Open Scope Z_scope.

(** ** Removal *)

Inductive Removal := Removed | Missing | Blocked.

#[export] Instance Removal_eq_dec : EqDecision Removal.
Proof. solve_decision. Defined.

(** Whether the operating system lets a file go: yes, not while another process
    has it open, or with an unexpected error. *)
Inductive Access := Free | Held | Broken.

Inductive GcError := RemoveFailed (path : string).

(** [remove]. *)
Definition remove {A} (access : string -> Access) (path : string) (m : gmap string A)
    : result GcError (Removal * gmap string A) :=
  match m !! path with
  | None => Ok (Missing, m)
  | Some _ =>
      match access path with
      | Free => Ok (Removed, delete path m)
      | Held => Ok (Blocked, m)
      | Broken => Err (RemoveFailed path)
      end
  end.

(** [SystemTime::duration_since]: [None] for a time in the future. *)
Definition age (now : Z) (at_ : option Z) : option Z :=
  t ← at_; if t <=? now then Some (now - t) else None.

Definition seconds (n : Z) : Z := n * 1000000000.

(** ** Checkout claims *)

Record CheckoutRecord := mkCheckout {
  chk_version : Z; workspace_root : string; target_dir : string; updated_secs : Z }.

Definition CHECKOUT_RECORD_VERSION : Z := 1.
Definition CHECKOUT_RETENTION_SECS : Z := 30 * 24 * 60 * 60.

Inductive Stat := Found (dev : Z) | NotFound | Failed.

(** What the filesystem says about a checkout: whether it exists, if that could
    be told; the store; and the checkout's ancestors from its parent up. *)
Record Probes := mkProbes { root_exists : option bool; store_stat : Stat; ancestors : list Stat }.

Fixpoint nearest_ancestor_keeps (store_dev : Z) (l : list Stat) : bool :=
  match l with
  | [] => true
  | Found dev :: _ => negb (store_dev =? dev)
  | NotFound :: l => nearest_ancestor_keeps store_dev l
  | Failed :: _ => true
  end.

Definition checkout_is_live_on (p : Probes) : bool :=
  if negb (bool_decide (root_exists p = Some false)) then true
  else
    match store_stat p with
    | Found dev => nearest_ancestor_keeps dev (ancestors p)
    | _ => true
    end.

(** [now_secs] is [None] when the clock is before 1970. *)
Definition claim_has_expired (now_secs : option Z) (c : CheckoutRecord) : bool :=
  match now_secs with
  | None => false
  | Some now => CHECKOUT_RETENTION_SECS <? saturating_sub now (updated_secs c)
  end.

Definition claim_is_live (probe : string -> Probes) (now_secs : option Z) (c : CheckoutRecord) : bool :=
  checkout_is_live_on (probe (workspace_root c)) && negb (claim_has_expired now_secs c).

(** [read_checkout_record] on a record that parsed. *)
Definition read_checkout_record (c : option CheckoutRecord) : option CheckoutRecord :=
  r ← c; if chk_version r =? CHECKOUT_RECORD_VERSION then Some r else None.

(** An entry of the checkouts directory, with the records below it. *)
Record CheckoutDir := mkCheckoutDir {
  dir_identity : string; checkout_is_dir : bool; records : list (string * option CheckoutRecord) }.

Definition is_task_identity (s : string) : bool := is_hex64 s.

Record CheckoutScan := mkScan {
  live_identities : gset string; live_records : Z; stale_records : list string }.

Definition scan_record (probe : string -> Probes) (now_secs : option Z) (identity : string)
    (s : CheckoutScan) (r : string * option CheckoutRecord) : CheckoutScan :=
  match read_checkout_record r.2 with
  | Some c =>
      if claim_is_live probe now_secs c
      then mkScan ({[ identity ]} ∪ live_identities s) (live_records s + 1) (stale_records s)
      else mkScan (live_identities s) (live_records s) (stale_records s ++ [r.1])
  | None => s
  end.

Definition scan_dir (probe : string -> Probes) (now_secs : option Z) (s : CheckoutScan) (d : CheckoutDir)
    : CheckoutScan :=
  if negb (is_task_identity (dir_identity d)) || negb (checkout_is_dir d) then s
  else fold_left (scan_record probe now_secs (dir_identity d)) (records d) s.

Definition scan_checkouts (probe : string -> Probes) (now_secs : option Z) (dirs : list CheckoutDir)
    : CheckoutScan :=
  fold_left (scan_dir probe now_secs) dirs (mkScan ∅ 0 []).

(** ** Task manifests *)

Record Listed := mkListed { is_file : bool; file_len : Z; mtime : option Z }.
Record LockFile := mkLock { lock_is_file : bool; lock_mtime : option Z; lock_held : bool }.

Record Manifests := mkManifests { manifests : gmap string Listed; manifest_locks : gmap string LockFile }.

Definition TASK_MANIFEST_GRACE : Z := seconds (24 * 60 * 60).

Definition task_manifest_is_idle (now : Z) (modified : option Z) : bool :=
  is_some_and (fun a => TASK_MANIFEST_GRACE <? a) (age now modified).

(** [LockFile::open] and [try_lock]: whether the lock was free, and the
    directory with the lock file in it. *)
Definition claim_lock (now : Z) (path : string) (locks : gmap string LockFile)
    : bool * gmap string LockFile :=
  match locks !! path with
  | Some l => (negb (lock_held l), locks)
  | None => (true, <[ path := mkLock true (Some now) false ]> locks)
  end.

Record ManifestPrune := mkManifestPrune { removed_manifests : Z; pruned_bytes : Z }.

Fixpoint strip_suffix (suffix s : string) : option string :=
  if String.eqb s suffix then Some ""%string
  else match s with
       | EmptyString => None
       | String a s => String a <$> strip_suffix suffix s
       end.

Section passes.
Context (access : string -> Access) (now : Z).

(** The file is one the pass may remove. *)
Definition prunable_manifest (live : gset string) (name : string) (e : Listed) : option string :=
  identity ← strip_suffix ".json" name;
  if negb (is_task_identity identity) || bool_decide (identity ∈ live) then None
  else if negb (is_file e) || negb (task_manifest_is_idle now (mtime e)) then None
  else Some identity.

Definition count_manifest (p : ManifestPrune) (e : Listed) : ManifestPrune :=
  mkManifestPrune (removed_manifests p + 1) (pruned_bytes p + file_len e).

Definition prune_manifest (live : gset string) (dry_run : bool) (s : Manifests * ManifestPrune)
    (entry : string * Listed) : Manifests * ManifestPrune :=
  let '(m, p) := s in
  let '(name, e) := entry in
  match prunable_manifest live name e with
  | None => s
  | Some identity =>
      let lock_path := (identity ++ ".lock")%string in
      if dry_run then
        if is_some_and lock_held (manifest_locks m !! lock_path) then s else (m, count_manifest p e)
      else
        let '(free, locks) := claim_lock now lock_path (manifest_locks m) in
        if negb free then (mkManifests (manifests m) locks, p)
        else
          match manifests m !! name with
          | None => (mkManifests (manifests m) locks, p)
          | Some e =>
              if negb (is_file e) || negb (task_manifest_is_idle now (mtime e))
              then (mkManifests (manifests m) locks, p)
              else
                match remove access name (manifests m) with
                | Ok (Removed, rest) => (mkManifests rest (delete lock_path locks), count_manifest p e)
                | _ => (mkManifests (manifests m) locks, p)
                end
          end
  end.

Definition prune_lock (live : gset string) (m : Manifests) (entry : string * LockFile) : Manifests :=
  let '(name, l) := entry in
  match strip_suffix ".lock" name with
  | None => m
  | Some identity =>
      if negb (is_task_identity identity) || bool_decide (identity ∈ live) ||
         is_some (manifests m !! (identity ++ ".json")%string)
      then m
      else if lock_is_file l && task_manifest_is_idle now (lock_mtime l) &&
              (claim_lock now name (manifest_locks m)).1
      then mkManifests (manifests m) (delete name (manifest_locks m))
      else m
  end.

Definition prune_task_manifests (live : gset string) (dry_run : bool) (m : Manifests)
    : Manifests * ManifestPrune :=
  let '(m, p) :=
    fold_left (prune_manifest live dry_run) (map_to_list (manifests m)) (m, mkManifestPrune 0 0) in
  if dry_run then (m, p)
  else (fold_left (prune_lock live) (map_to_list (manifest_locks m)) m, p).

(** ** Sessions *)

Record SessionRetention := mkRetention { max_age : option Z; max_sessions : option nat }.

Record Sessions := mkSessions { streams : gmap string Listed; session_locks : gmap string bool }.

(** The names of the [.jsonl] files, in order. *)
Definition session_ids (s : Sessions) : list string := map fst (entries (streams s)).

(** [session_is_live]: opening the lock creates it. *)
Definition session_is_live (id : string) (s : Sessions) : bool * Sessions :=
  match session_locks s !! id with
  | Some held => (held, s)
  | None => (false, mkSessions (streams s) (<[ id := false ]> (session_locks s)))
  end.

Record SessionPrune := mkSessionPrune { removed_streams : Z; session_bytes : Z }.

Definition stale_session (r : SessionRetention) (e : Listed) : bool :=
  is_some_and (fun a => is_some_and (fun limit => limit <? a) (max_age r)) (age now (mtime e)).

Definition surplus (r : SessionRetention) (ids : list string) : nat :=
  match max_sessions r with None => 0 | Some limit => length ids - limit end.

Fixpoint prune_session_loop (r : SessionRetention) (dry_run : bool) (extra : nat) (ids : list string)
    (s : Sessions) (p : SessionPrune) : result GcError (Sessions * SessionPrune) :=
  match ids with
  | [] => Ok (s, p)
  | id :: ids =>
      let extra' := pred extra in
      match streams s !! id with
      | None => prune_session_loop r dry_run extra' ids s p
      | Some e =>
          if (extra =? 0)%nat && negb (stale_session r e) then prune_session_loop r dry_run extra' ids s p
          else
            let '(live, s) := session_is_live id s in
            if live then prune_session_loop r dry_run extra' ids s p
            else
              let counted := mkSessionPrune (removed_streams p + 1) (session_bytes p + file_len e) in
              if dry_run then prune_session_loop r dry_run extra' ids s counted
              else
                match remove access id (streams s) with
                | Err err => Err err
                | Ok (Removed, rest) =>
                    prune_session_loop r dry_run extra' ids
                      (mkSessions rest (delete id (session_locks s))) counted
                | Ok (_, _) => prune_session_loop r dry_run extra' ids s p
                end
      end
  end.

(** Locks without a stream that nobody holds. *)
Definition drop_orphaned_locks (s : Sessions) : Sessions :=
  mkSessions (streams s)
    (filter (fun l => is_Some (streams s !! l.1) \/ l.2 = true) (session_locks s)).

Definition prune_sessions (dry_run : bool) (r : SessionRetention) (s : Sessions)
    : result GcError (Sessions * SessionPrune) :=
  let ids := session_ids s in
  match prune_session_loop r dry_run (surplus r ids) ids s (mkSessionPrune 0 0) with
  | Err e => Err e
  | Ok (s, p) => Ok (if dry_run then s else drop_orphaned_locks s, p)
  end.

(** ** Import staging *)

Record Staged := mkStaged { staged_is_dir : bool; staged_mtime : option Z; staged_held : bool }.

Definition IMPORT_STAGING_RETENTION : Z := seconds (24 * 60 * 60).

Definition import_staging_lock_path (staging : string) : string := (staging ++ ".lock")%string.

(** [claimed_staging_path]: the name without its extension. *)
Definition claimed_staging_path (lock : string) : string := default lock (at_dot lock).1.

Definition prune_staged (m : gmap string Staged) (entry : string * Staged) : gmap string Staged :=
  let '(name, e) := entry in
  if negb (is_some_and (fun a => IMPORT_STAGING_RETENTION <=? a) (age now (staged_mtime e))) then m
  else if negb (staged_is_dir e) then
    if bool_decide ((at_dot name).2 = Some "lock"%string) && negb (is_some (m !! claimed_staging_path name))
    then delete name m else m
  else
    let lock_path := import_staging_lock_path name in
    let m :=
      match m !! lock_path with
      | Some _ => m
      | None => <[ lock_path := mkStaged false (Some now) false ]> m
      end in
    if is_some_and staged_held (m !! lock_path) then m
    else
      match access name with
      | Free => delete lock_path (delete name m)
      | _ => m
      end.

Definition prune_import_staging (dry_run : bool) (m : gmap string Staged) : gmap string Staged :=
  if dry_run then m else fold_left prune_staged (map_to_list m) m.
End passes.

(** ** Claims *)

(** The checkout is known to be gone: it is absent, and its nearest existing
    ancestor is on the store's filesystem. *)
Definition known_gone (p : Probes) : Prop :=
  root_exists p = Some false /\
  exists dev n above, store_stat p = Found dev /\ ancestors p = replicate n NotFound ++ Found dev :: above.

Lemma nearest_ancestor_spec dev l :
  nearest_ancestor_keeps dev l = false <-> exists n above, l = replicate n NotFound ++ Found dev :: above.
Proof.
  induction l as [|s l IH]; simpl.
  { split; [done|]. by intros ([] & ? & ?). }
  destruct s as [d| |].
  - rewrite negb_false_iff, Z.eqb_eq. split.
    + intros <-. by exists 0%nat, l.
    + intros ([] & above & ?); by simplify_eq/=.
  - rewrite IH. split.
    + intros (n & above & ->). by exists (S n), above.
    + intros ([|n] & above & ?); simplify_eq/=. by exists n, above.
  - split; [done|]. intros ([] & ? & ?); by simplify_eq/=.
Qed.

Lemma checkout_is_live_on_spec p : checkout_is_live_on p = false <-> known_gone p.
Proof.
  unfold checkout_is_live_on, known_gone. case_bool_decide as Hr; simpl.
  - destruct (store_stat p) as [dev| |]; [rewrite nearest_ancestor_spec|..]; split.
    + intros (n & above & ->). eauto 10.
    + intros (_ & d & n & above & [= <-] & ->). eauto.
    + done.
    + by intros (_ & ? & ? & ? & ? & _).
    + done.
    + by intros (_ & ? & ? & ? & ? & _).
  - split; [done|]. by intros [? _].
Qed.

(** A readable claim of an identity, with the path of its record. *)
Definition claims_in (d : CheckoutDir) (identity path : string) (c : CheckoutRecord) : Prop :=
  dir_identity d = identity /\ is_task_identity identity = true /\ checkout_is_dir d = true /\
  (path, Some c) ∈ records d /\ chk_version c = CHECKOUT_RECORD_VERSION.

Definition claims (dirs : list CheckoutDir) (identity path : string) (c : CheckoutRecord) : Prop :=
  exists d, d ∈ dirs /\ claims_in d identity path c.

Lemma claims_cons d dirs i p c : claims (d :: dirs) i p c <-> claims_in d i p c \/ claims dirs i p c.
Proof.
  unfold claims. setoid_rewrite elem_of_cons. split.
  - intros (x & [->|?] & ?); eauto.
  - intros [?|(x & ? & ?)]; eauto.
Qed.

Section claims.
Context (probe : string -> Probes) (now_secs : option Z).

(** What one record adds to a scan. *)
Definition reads (o : option CheckoutRecord) (live : bool) : Prop :=
  exists c, o = Some c /\ chk_version c = CHECKOUT_RECORD_VERSION /\ claim_is_live probe now_secs c = live.

Lemma scan_record_spec identity s r :
  let s' := scan_record probe now_secs identity s r in
  (forall i, i ∈ live_identities s' <-> i ∈ live_identities s \/ i = identity /\ reads r.2 true) /\
  (forall p, p ∈ stale_records s' <-> p ∈ stale_records s \/ p = r.1 /\ reads r.2 false).
Proof.
  destruct r as [p o]. unfold scan_record, reads. simpl. destruct o as [c|]; simpl.
  2: { split; intros; split; auto; intros [?|(_ & ? & ? & _)]; done. }
  destruct (Z.eqb_spec (chk_version c) CHECKOUT_RECORD_VERSION); simpl.
  2: { split; intros; split; auto; intros [?|(_ & ? & [= <-] & ? & _)]; done. }
  destruct (claim_is_live probe now_secs c) eqn:E; simpl; split; intros q.
  - rewrite elem_of_union, elem_of_singleton. split; [intros [->|?]; eauto 10|intros [?|[-> _]]; auto].
  - split; [auto|]. intros [?|(_ & ? & [= <-] & _ & ?)]; [done|congruence].
  - split; [auto|]. intros [?|(_ & ? & [= <-] & _ & ?)]; [done|congruence].
  - rewrite elem_of_app, list_elem_of_singleton. split; [intros [?| ->]; eauto 10|intros [?|[-> _]]; auto].
Qed.

Lemma scan_records_spec identity rs s :
  let s' := fold_left (scan_record probe now_secs identity) rs s in
  (forall i, i ∈ live_identities s' <->
     i ∈ live_identities s \/ i = identity /\ exists p o, (p, o) ∈ rs /\ reads o true) /\
  (forall p, p ∈ stale_records s' <-> p ∈ stale_records s \/ exists o, (p, o) ∈ rs /\ reads o false).
Proof.
  revert s. induction rs as [|[p o] rs IH]; intros s; simpl.
  { split; intros; split; auto; [intros [?|(_ & ? & ? & Hin & _)]|intros [?|(? & Hin & _)]]; try done;
      by apply elem_of_nil in Hin. }
  destruct (IH (scan_record probe now_secs identity s (p, o))) as [H1 H2].
  destruct (scan_record_spec identity s (p, o)) as [H3 H4]. simpl in *.
  split; intros q; rewrite ?H1, ?H2, ?H3, ?H4; setoid_rewrite elem_of_cons; split.
  - intros [[?|[-> ?]]|(-> & p' & o' & ? & ?)]; [auto|right; eauto 10..].
  - intros [?|(-> & p' & o' & [[= -> ->]|?] & ?)]; eauto 10.
  - intros [[?|[-> ?]]|(o' & ? & ?)]; eauto 10.
  - intros [?|(o' & [[= -> ->]|?] & ?)]; eauto 10.
Qed.

Lemma scan_dir_spec s d :
  let s' := scan_dir probe now_secs s d in
  (forall i, i ∈ live_identities s' <-> i ∈ live_identities s \/
     exists p c, claims_in d i p c /\ claim_is_live probe now_secs c = true) /\
  (forall p, p ∈ stale_records s' <-> p ∈ stale_records s \/
     exists i c, claims_in d i p c /\ claim_is_live probe now_secs c = false).
Proof.
  unfold scan_dir, claims_in.
  destruct (is_task_identity (dir_identity d)) eqn:Et, (checkout_is_dir d) eqn:Ed; simpl;
    try (split; intros; split; auto; intros [?|(? & ? & (? & ? & ? & _) & _)]; congruence).
  destruct (scan_records_spec (dir_identity d) (records d) s) as [H3 H4].
  split; intros q; rewrite ?H3, ?H4; unfold reads; split.
  - intros [?|(-> & p & o & ? & c & -> & ? & ?)]; [auto|right; exists p, c; auto 10].
  - intros [?|(p & c & (<- & ? & ? & ? & ?) & ?)]; [auto|right; split; [done|]; eauto 10].
  - intros [?|(o & ? & c & -> & ? & ?)]; [auto|right; exists (dir_identity d), c; auto 10].
  - intros [?|(i & c & (<- & ? & ? & ? & ?) & ?)]; [auto|right; eauto 10].
Qed.

Lemma scan_dirs_spec dirs s :
  let s' := fold_left (scan_dir probe now_secs) dirs s in
  (forall i, i ∈ live_identities s' <-> i ∈ live_identities s \/
     exists p c, claims dirs i p c /\ claim_is_live probe now_secs c = true) /\
  (forall p, p ∈ stale_records s' <-> p ∈ stale_records s \/
     exists i c, claims dirs i p c /\ claim_is_live probe now_secs c = false).
Proof.
  revert s. induction dirs as [|d dirs IH]; intros s; simpl.
  { split; intros; split; auto; intros [?|(? & ? & (? & Hin & _) & _)]; try done; by apply elem_of_nil in Hin. }
  destruct (IH (scan_dir probe now_secs s d)) as [H1 H2]. destruct (scan_dir_spec s d) as [H3 H4].
  split; intros q; rewrite ?H1, ?H2, ?H3, ?H4; setoid_rewrite claims_cons; split;
    try (intros [[?|(? & ? & ? & ?)]|(? & ? & ? & ?)]; eauto 10);
    intros [?|(? & ? & [?|?] & ?)]; eauto 10.
Qed.

(** A checkout's claim ends only on evidence: a scan calls a record stale if
    and only if it is a readable record of a checkout that is known to be gone
    -- absent, with its nearest existing ancestor on the store's own
    filesystem -- or whose claim was not renewed for thirty days; every other
    readable claim keeps its identity live. *)
Lemma claims_end_on_evidence dirs :
  let scan := scan_checkouts probe now_secs dirs in
  let ended c := known_gone (probe (workspace_root c)) \/
    exists now, now_secs = Some now /\ CHECKOUT_RETENTION_SECS < saturating_sub now (updated_secs c) in
  (forall p, p ∈ stale_records scan <-> exists i c, claims dirs i p c /\ ended c) /\
  (forall i, i ∈ live_identities scan <-> exists p c, claims dirs i p c /\ ~ ended c).
Proof.
  destruct (scan_dirs_spec dirs (mkScan ∅ 0 [])) as [H1 H2]. simpl in *.
  assert (forall c, claim_is_live probe now_secs c = false <->
    known_gone (probe (workspace_root c)) \/
    exists now, now_secs = Some now /\ CHECKOUT_RETENTION_SECS < saturating_sub now (updated_secs c)) as Hl.
  { intros c. unfold claim_is_live. rewrite andb_false_iff, checkout_is_live_on_spec, negb_false_iff.
    unfold claim_has_expired. destruct now_secs as [now|]; [rewrite Z.ltb_lt|].
    - split; (intros [?|H]; [by left|right]); [by exists now|by destruct H as (? & [= <-] & ?)].
    - split; (intros [?|H]; [by left|]); [done|by destruct H as (? & ? & ?)]. }
  split.
  - intros p. unfold scan_checkouts. rewrite H2, elem_of_nil. setoid_rewrite Hl.
    split; [by intros [[]|?]|by right].
  - intros i. unfold scan_checkouts. rewrite H1, elem_of_empty. setoid_rewrite <- Hl.
    setoid_rewrite not_false_iff_true. split; [by intros [[]|?]|by right].
Qed.
End claims.

(** ** Manifests *)

Lemma strip_suffix_inv suffix s i : strip_suffix suffix s = Some i -> s = (i ++ suffix)%string.
Proof.
  revert i. induction s as [|a s IH]; intros i; cbn [strip_suffix].
  - destruct (String.eqb_spec "" suffix) as [<-|]; [by intros [= <-]|done].
  - destruct (String.eqb_spec (String a s) suffix) as [<-|]; [by intros [= <-]|].
    destruct (strip_suffix suffix s) as [j|] eqn:E; [|done]. intros [= <-].
    by rewrite (IH j eq_refl).
Qed.

Section manifests.
Context (access : string -> Access) (now : Z) (live : gset string).

(** The manifest goes: it may be removed and nobody holds its lock. *)
Definition goes (locks : gmap string LockFile) (x : string * Listed) : bool :=
  match prunable_manifest now live x.1 x.2 with
  | None => false
  | Some identity => negb (is_some_and lock_held (locks !! (identity ++ ".lock")%string))
  end.

Definition count (locks : gmap string LockFile) (p : ManifestPrune) (x : string * Listed) : ManifestPrune :=
  if goes locks x then count_manifest p x.2 else p.

Lemma prune_manifest_dry m p x : prune_manifest access now live true (m, p) x = (m, count (manifest_locks m) p x).
Proof.
  destruct x as [name e]. unfold prune_manifest, count, goes. simpl.
  destruct (prunable_manifest now live name e) as [i|]; [|done]. by destruct (manifest_locks m !! _) as [[? ? []]|].
Qed.

Lemma prunable_identity name name' e e' i :
  prunable_manifest now live name e = Some i -> prunable_manifest now live name' e' = Some i -> name = name'.
Proof.
  unfold prunable_manifest. intros H1 H2.
  destruct (strip_suffix ".json" name) as [j|] eqn:E1; [|done].
  destruct (strip_suffix ".json" name') as [j'|] eqn:E2; [|done]. simpl in *.
  apply strip_suffix_inv in E1, E2. repeat case_match; congruence.
Qed.

(** One manifest of a real run: it goes only if it may, and no other manifest's
    lock is touched. *)
Lemma prune_manifest_real m p name e m' p' :
  manifests m !! name = Some e ->
  prune_manifest access now live false (m, p) (name, e) = (m', p') ->
  (manifests m' = manifests m \/
     goes (manifest_locks m) (name, e) = true /\ access name = Free /\ manifests m' = delete name (manifests m)) /\
  (access name = Free -> p' = count (manifest_locks m) p (name, e)) /\
  forall x, x.1 <> name -> goes (manifest_locks m') x = goes (manifest_locks m) x.
Proof.
  intros Hm. unfold prune_manifest, count, goes. simpl.
  destruct (prunable_manifest now live name e) as [i|] eqn:Ep; [|intros [= <- <-]; by split; [left|]].
  assert (negb (is_file e) || negb (task_manifest_is_idle now (mtime e)) = false) as Hidle.
  { unfold prunable_manifest in Ep. destruct (strip_suffix _ _); [|done]. simpl in Ep.
    destruct (negb (is_task_identity _) || _); [done|]. by destruct (_ || _). }
  assert (forall locks x, x.1 <> name -> (forall q, q <> (i ++ ".lock")%string -> locks !! q = manifest_locks m !! q) ->
    goes locks x = goes (manifest_locks m) x) as Hother.
  { intros locks [n2 e2] Hne Hq. unfold goes. simpl in *.
    destruct (prunable_manifest now live n2 e2) as [i2|] eqn:E2; [|done].
    rewrite Hq; [done|]. intros ->%app_inv_tail_string. apply Hne. by eapply prunable_identity. }
  unfold claim_lock, goes in *.
  destruct (manifest_locks m !! (i ++ ".lock")%string) as [l|] eqn:El; cbn [fst snd];
    [destruct (lock_held l) eqn:Eh|]; cbn [negb is_some_and].
  - rewrite Eh. intros [= <- <-]. simpl. by split; [left|].
  - rewrite Hm, Hidle, Eh. unfold remove. rewrite Hm.
    destruct (access name) eqn:Ea; intros [= <- <-]; simpl; (split; [auto|split; [done|]]);
      intros x Hx; try done; apply Hother; try done; intros q Hq. by rewrite lookup_delete_ne.
  - rewrite Hm, Hidle. unfold remove. rewrite Hm.
    destruct (access name) eqn:Ea; intros [= <- <-]; simpl; (split; [auto|split; [done|]]);
      intros x Hx; apply Hother; try done; intros q Hq; rewrite ?lookup_delete_ne, ?lookup_insert_ne by done; done.
Qed.

Lemma prune_manifests_dry l m p :
  fold_left (prune_manifest access now live true) l (m, p) = (m, fold_left (count (manifest_locks m)) l p).
Proof.
  revert p. induction l as [|x l IH]; intros p; [done|]. cbn [fold_left].
  rewrite prune_manifest_dry. apply IH.
Qed.

Lemma count_ext locks locks' l p :
  (forall x, x ∈ l -> goes locks x = goes locks' x) ->
  fold_left (count locks) l p = fold_left (count locks') l p.
Proof.
  revert p. induction l as [|x l IH]; intros p Hg; [done|]. cbn [fold_left].
  replace (count locks p x) with (count locks' p x) by (unfold count; rewrite Hg; [done|left]).
  apply IH. intros y Hy. apply Hg. by right.
Qed.

Lemma prune_manifests_real l m p m' p' :
  NoDup l.*1 -> (forall x, x ∈ l -> manifests m !! x.1 = Some x.2) ->
  fold_left (prune_manifest access now live false) l (m, p) = (m', p') ->
  (forall n, manifests m' !! n = manifests m !! n \/
     manifests m' !! n = None /\ exists e, (n, e) ∈ l /\ goes (manifest_locks m) (n, e) = true) /\
  ((forall n, access n = Free) -> p' = fold_left (count (manifest_locks m)) l p).
Proof.
  revert m p. induction l as [|[n e] l IH]; intros m p Hnd Hl Hf; cbn [fold_left] in Hf.
  { simplify_eq. split; [auto|done]. }
  destruct (prune_manifest access now live false (m, p) (n, e)) as [m1 p1] eqn:E.
  apply NoDup_cons in Hnd as [Hn Hnd].
  apply prune_manifest_real in E as (H1 & H2 & H3); [|apply (Hl (n, e)); left].
  assert (forall x, x ∈ l -> goes (manifest_locks m1) x = goes (manifest_locks m) x) as Hg.
  { intros x Hx. apply H3. intros Heq. by apply Hn, (list_elem_of_fmap_2' fst l x). }
  assert (forall q, q <> n -> manifests m1 !! q = manifests m !! q) as Hm1.
  { intros q Hq. destruct H1 as [->|(_ & _ & ->)]; [done|]. by rewrite lookup_delete_ne. }
  destruct (IH m1 p1 Hnd) as [H4 H5]; [|exact Hf|].
  { intros x Hx. rewrite Hm1; [apply Hl; by right|]. intros Heq. by apply Hn, (list_elem_of_fmap_2' fst l x). }
  split.
  - intros q. destruct (H4 q) as [Heq|(Hq & e' & Hin & Hgo)].
    + destruct (decide (q = n)) as [->|Hne]; [|left; by rewrite Heq, Hm1].
      destruct H1 as [Hm|(Hgo & _ & Hm)]; rewrite Hm in Heq; [by left|right].
      rewrite lookup_delete_eq in Heq. split; [done|]. exists e. split; [left|done].
    + right. split; [done|]. exists e'. split; [by right|]. by rewrite <- Hg.
  - intros Hfree. rewrite (H5 Hfree), H2 by done. cbn [fold_left]. by apply count_ext.
Qed.

Lemma prune_locks_manifests l m : manifests (fold_left (prune_lock now live) l m) = manifests m.
Proof.
  revert m. induction l as [|[n k] l IH]; intros m; [done|]. cbn [fold_left]. rewrite IH. unfold prune_lock.
  destruct (strip_suffix ".lock" n); [|done]. by repeat case_match.
Qed.

Lemma prune_task_manifests_eq dry m :
  prune_task_manifests access now live dry m =
  let r := fold_left (prune_manifest access now live dry) (map_to_list (manifests m)) (m, mkManifestPrune 0 0) in
  (if dry then r.1 else fold_left (prune_lock now live) (map_to_list (manifest_locks r.1)) r.1, r.2).
Proof. unfold prune_task_manifests. destruct (fold_left _ _ _). by destruct dry. Qed.

(** Pruning manifests is safe and previewed exactly: a manifest disappears
    only if it is a manifest file of an identity no live checkout claims, not
    modified for more than a day, with its lock free; and where nothing is
    held open a dry run changes nothing and counts exactly what a real run
    removes. *)
Lemma manifest_pruning_is_safe m :
  (forall name e,
     manifests m !! name = Some e ->
     manifests (prune_task_manifests access now live false m).1 !! name = None ->
     exists identity, name = (identity ++ ".json")%string /\ identity ∉ live /\
       is_file e = true /\ task_manifest_is_idle now (mtime e) = true /\
       is_some_and lock_held (manifest_locks m !! (identity ++ ".lock")%string) = false) /\
  (prune_task_manifests access now live true m).1 = m /\
  ((forall n, access n = Free) ->
   (prune_task_manifests access now live true m).2 = (prune_task_manifests access now live false m).2).
Proof.
  rewrite !prune_task_manifests_eq. cbv zeta. cbn [fst snd]. rewrite prune_locks_manifests, prune_manifests_dry.
  destruct (fold_left (prune_manifest access now live false) _ _) as [m' p'] eqn:E.
  apply prune_manifests_real in E as [H1 H2];
    [|apply NoDup_fst_map_to_list|by intros [n e] ?%elem_of_map_to_list].
  split_and!; [|done|intros Hf; symmetry; by apply H2].
  intros name e Hm Hn. simpl in Hn. destruct (H1 name) as [Heq|(_ & e' & Hin & Hg)]; [congruence|].
  apply elem_of_map_to_list in Hin. simplify_eq. unfold goes in Hg. simpl in Hg.
  destruct (prunable_manifest now live name e) as [i|] eqn:Ep; [|done]. simp_bool. exists i.
  unfold prunable_manifest in Ep. destruct (strip_suffix ".json" name) as [j|] eqn:Es; [|done]. simpl in Ep.
  apply strip_suffix_inv in Es. repeat case_match; simplify_eq. simp_bool.
  by split_and!.
Qed.
End manifests.

(** ** Sessions *)

Lemma foldr_delete_lookup {A} (m : gmap string A) l id :
  foldr delete m l !! id = if decide (id ∈ l) then None else m !! id.
Proof.
  induction l as [|x l IH]; simpl; [done|]. destruct (decide (id = x)) as [->|Hne].
  - rewrite lookup_delete_eq, decide_True by left. done.
  - rewrite lookup_delete_ne, IH by done. destruct (decide (id ∈ l)).
    + rewrite decide_True by (by right). done.
    + rewrite decide_False by (by apply not_elem_of_cons). done.
Qed.

Lemma foldr_delete_delete {A} (m : gmap string A) l x : foldr delete (delete x m) l = delete x (foldr delete m l).
Proof. induction l as [|y l IH]; simpl; [done|]. rewrite IH. apply delete_delete. Qed.

Section sessions.
Context (access : string -> Access) (now : Z) (r : SessionRetention).

Definition held (s : Sessions) (id : string) : bool := default false (session_locks s !! id).

(** The streams that go, with what they count for. *)
Fixpoint doomed (s : Sessions) (extra : nat) (ids : list string) : list (string * Listed) :=
  match ids with
  | [] => []
  | id :: ids =>
      match streams s !! id with
      | Some e =>
          if ((extra =? 0)%nat && negb (stale_session now r e)) || held s id then doomed s (pred extra) ids
          else (id, e) :: doomed s (pred extra) ids
      | None => doomed s (pred extra) ids
      end
  end.

Definition tally (p : SessionPrune) (l : list (string * Listed)) : SessionPrune :=
  fold_left (fun p x => mkSessionPrune (removed_streams p + 1) (session_bytes p + file_len x.2)) l p.

(** Two states say the same about some streams. *)
Definition agree (s s' : Sessions) (ids : list string) : Prop :=
  forall id, id ∈ ids -> streams s !! id = streams s' !! id /\ held s id = held s' id.

Lemma doomed_agree s s' extra ids : agree s s' ids -> doomed s extra ids = doomed s' extra ids.
Proof.
  revert extra. induction ids as [|id ids IH]; intros extra Ha; [done|]. cbn [doomed].
  destruct (Ha id) as [-> ->]; [left|]. rewrite IH; [done|]. intros x Hx. apply Ha. by right.
Qed.

Lemma session_is_live_held id s :
  (session_is_live id s).1 = held s id /\ streams (session_is_live id s).2 = streams s /\
  forall x, held (session_is_live id s).2 x = held s x.
Proof.
  unfold session_is_live, held. destruct (session_locks s !! id) eqn:E; simpl; [done|].
  split_and!; [done..|]. intros x. destruct (decide (id = x)) as [->|Hne].
  - by rewrite lookup_insert_eq, E.
  - by rewrite lookup_insert_ne.
Qed.

Lemma prune_session_loop_spec dry extra ids s p :
  NoDup ids -> (forall n, access n = Free) ->
  exists s', prune_session_loop access now r dry extra ids s p = Ok (s', tally p (doomed s extra ids)) /\
    streams s' = (if dry then streams s else foldr delete (streams s) (doomed s extra ids).*1) /\
    (forall id, is_Some (streams s' !! id) -> held s' id = held s id).
Proof.
  intros Hnd Hfree. revert extra s p. induction Hnd as [|id ids Hid Hnd IH]; intros extra s p.
  { exists s. by destruct dry. }
  cbn [prune_session_loop doomed]. destruct (streams s !! id) as [e|] eqn:Ee; [|apply IH].
  destruct ((extra =? 0)%nat && negb (stale_session now r e)) eqn:Ek; [apply IH|]. simpl orb.
  destruct (session_is_live_held id s) as (H1 & H2 & H3).
  destruct (session_is_live id s) as [live s1]. simpl in H1, H2, H3. subst live.
  assert (doomed s1 (pred extra) ids = doomed s (pred extra) ids) as Hd1
    by (apply doomed_agree; intros x _; by rewrite H2, H3).
  destruct (held s id) eqn:Eh.
  { destruct (IH (pred extra) s1 p) as (s' & -> & Hs & Hh). exists s'. rewrite Hd1, H2 in Hs. rewrite Hd1.
    split_and!; [done|done|]. intros x Hx. by rewrite Hh, H3. }
  destruct dry.
  { destruct (IH (pred extra) s1 (mkSessionPrune (removed_streams p + 1) (session_bytes p + file_len e)))
      as (s' & -> & Hs & Hh). exists s'. rewrite H2 in Hs. rewrite Hd1. split_and!; [done|done|].
    intros x Hx. by rewrite Hh, H3. }
  unfold remove. rewrite H2, Ee, Hfree.
  set (s2 := mkSessions (delete id (streams s)) (delete id (session_locks s1))).
  assert (agree s2 s ids) as Ha.
  { intros x Hx. assert (id <> x) by (intros ->; done). unfold held. simpl.
    rewrite !lookup_delete_ne by done. split; [done|]. apply H3. }
  destruct (IH (pred extra) s2 (mkSessionPrune (removed_streams p + 1) (session_bytes p + file_len e)))
    as (s' & -> & Hs & Hh). exists s'. rewrite (doomed_agree _ _ _ _ Ha) in *. split_and!; [done| |].
  - rewrite Hs. apply foldr_delete_delete.
  - intros x Hx. rewrite Hh by done. unfold held. simpl.
    assert (id <> x) as Hne.
    { intros <-. rewrite Hs in Hx. simpl in Hx. rewrite foldr_delete_delete, lookup_delete_eq in Hx.
      by destruct Hx. }
    rewrite lookup_delete_ne by done. apply H3.
Qed.

(** What looking at the locks of a state's streams leaves: the same streams, and
    lock files that were not there, which nobody holds. *)
Definition opens_locks (s s' : Sessions) : Prop :=
  streams s' = streams s /\
  forall id, session_locks s' !! id = session_locks s !! id \/
    (session_locks s !! id = None /\ session_locks s' !! id = Some false /\ is_Some (streams s !! id)).

Lemma opens_locks_trans s1 s2 s3 : opens_locks s1 s2 -> opens_locks s2 s3 -> opens_locks s1 s3.
Proof.
  intros [H1 Hl1] [H2 Hl2]. split; [congruence|]. intros id. rewrite <- H1.
  destruct (Hl1 id) as [<-|(? & ? & ?)], (Hl2 id) as [->|(? & ? & ?)]; rewrite ?H1 in *; [by left|by right|right|congruence].
  split_and!; congruence.
Qed.

Lemma session_is_live_opens id s : is_Some (streams s !! id) -> opens_locks s (session_is_live id s).2.
Proof.
  intros Hs. unfold session_is_live. destruct (session_locks s !! id) eqn:E; simpl; [by split; [|left]|]. split; [done|].
  intros x. simpl. destruct (decide (id = x)) as [<-|]; [right; by rewrite lookup_insert_eq|left; by rewrite lookup_insert_ne].
Qed.

Lemma dry_run_opens_locks extra ids s p s' q :
  prune_session_loop access now r true extra ids s p = Ok (s', q) -> opens_locks s s'.
Proof.
  revert extra s p. induction ids as [|id ids IH]; intros extra s p; cbn [prune_session_loop].
  { intros [= <- _]. by split; [|left]. }
  destruct (streams s !! id) as [e|] eqn:Ee; [|apply IH]. destruct (_ && _); [apply IH|].
  pose proof (session_is_live_opens id s ltac:(by rewrite Ee)) as Ho. destruct (session_is_live id s) as [live s1].
  intros Hl. eapply opens_locks_trans; [exact Ho|]. destruct live; by eapply IH.
Qed.

Lemma doomed_spec s extra ids id e :
  (id, e) ∈ doomed s extra ids -> id ∈ ids /\ streams s !! id = Some e /\ held s id = false.
Proof.
  revert extra. induction ids as [|x ids IH]; intros extra; cbn [doomed]; [by intros ?%elem_of_nil|].
  assert (forall n, (id, e) ∈ doomed s n ids -> id ∈ x :: ids /\ streams s !! id = Some e /\ held s id = false) as Hr.
  { intros n (? & ? & ?)%IH. split_and!; [by right|done|done]. }
  destruct (streams s !! x) as [ex|] eqn:Ex; [|apply Hr].
  destruct (_ && _); [apply Hr|]. simpl. destruct (held s x) eqn:Eh; [apply Hr|].
  intros [[= -> ->]|?]%elem_of_cons; [|by eapply Hr]. split_and!; [left|done|done].
Qed.

(** What stays is live, or recent and among the newest. *)
Lemma doomed_complete s extra ids id e :
  id ∈ ids -> streams s !! id = Some e -> held s id = false -> id ∉ (doomed s extra ids).*1 ->
  stale_session now r e = false /\ id ∈ drop extra ids.
Proof.
  revert extra. induction ids as [|x ids IH]; intros extra Hin He Hh Hd; [by apply elem_of_nil in Hin|].
  cbn [doomed] in Hd. apply elem_of_cons in Hin as [->|Hin].
  - rewrite He, Hh, orb_false_r in Hd. destruct ((extra =? 0)%nat && negb (stale_session now r e)) eqn:E.
    + apply andb_prop in E as [->%Nat.eqb_eq Hs]. simp_bool. split; [done|left].
    + exfalso. apply Hd. left.
  - assert (id ∉ (doomed s (pred extra) ids).*1) as Hd'.
    { intros Hx. apply Hd. destruct (streams s !! x); [|done]. destruct (_ || _); [done|by right]. }
    destruct (IH (pred extra) Hin He Hh Hd') as [? Hdrop]. split; [done|]. by destruct extra; [right|].
Qed.
End sessions.

Section retention.
Context (access : string -> Access) (now : Z) (r : SessionRetention).

Lemma NoDup_session_ids s : NoDup (session_ids s).
Proof. apply NoDup_entries. Qed.

Lemma elem_of_session_ids s id : id ∈ session_ids s <-> is_Some (streams s !! id).
Proof.
  unfold session_ids. rewrite list_elem_of_In, in_map_iff. split.
  - intros ([i e] & <- & ?%In_entries). by eexists.
  - intros [e ?%In_entries]. by exists (id, e).
Qed.

(** Session history is bounded and a running session keeps its stream: after
    a collection no stream of a session that holds its lock is gone, no
    finished stream older than the age limit is left and at most
    [max_sessions] finished streams are; a dry run reports exactly what the
    real run removes and removes nothing. *)
Lemma session_pruning_is_bounded s :
  (forall n, access n = Free) ->
  exists s' p dry,
    prune_sessions access now false r s = Ok (s', p) /\
    prune_sessions access now true r s = Ok (dry, p) /\ streams dry = streams s /\
    (forall id, held s id = true -> streams s' !! id = streams s !! id) /\
    (forall id e, streams s' !! id = Some e -> held s id = false -> stale_session now r e = false) /\
    forall limit, max_sessions r = Some limit ->
      (base.size (filter (fun id => held s id = false) (dom (streams s'))) <= limit)%nat.
Proof.
  intros Hfree. unfold prune_sessions. pose proof (NoDup_session_ids s) as Hnd.
  set (ids := session_ids s) in *. set (extra := surplus r ids).
  destruct (prune_session_loop_spec access now r false extra ids s (mkSessionPrune 0 0) Hnd Hfree)
    as (s1 & E1 & Hs1 & _).
  destruct (prune_session_loop_spec access now r true extra ids s (mkSessionPrune 0 0) Hnd Hfree)
    as (s2 & E2 & Hs2 & _).
  rewrite E1, E2. do 3 eexists. split; [done|]. split; [done|]. split; [done|]. simpl. rewrite Hs1.
  assert (forall id e, foldr delete (streams s) (doomed now r s extra ids).*1 !! id = Some e ->
    held s id = false -> stale_session now r e = false /\ id ∈ drop extra ids) as Hstay.
  { intros id e. rewrite foldr_delete_lookup. destruct (decide _) as [|Hd]; [done|]. intros He Hh.
    apply (doomed_complete now r s extra ids id e); try done. apply elem_of_session_ids. by eexists. }
  split_and!.
  - intros id Hh. rewrite foldr_delete_lookup. destruct (decide _) as [Hd|]; [|done].
    apply list_elem_of_fmap in Hd as ([i e] & -> & Hd). apply doomed_spec in Hd as (_ & _ & ?). simpl in *. congruence.
  - intros id e He Hh. by apply (Hstay id e).
  - intros limit Hl. trans (base.size (list_to_set (drop extra ids) : gset string)).
    + apply subseteq_size. intros id [Hh [e He]%elem_of_dom]%elem_of_filter.
      apply elem_of_list_to_set. by apply (Hstay id e).
    + rewrite size_list_to_set by (eapply sublist_NoDup; [exact Hnd|apply sublist_drop]). rewrite length_drop. unfold extra, surplus. rewrite Hl. lia.
Qed.
End retention.

(** ** Concrete directories *)

Module TidyDemo.
Definition free (_ : string) : Access := Free.
Definition name (identity : string) : string := (identity ++ ".json")%string.
(** A manifest two days old that no checkout claims. *)
Definition manifest_dir : Manifests := mkManifests {[ name zeros := mkListed true 7 (Some 0) ]} ∅.
(** A finished stream, a running one and a recent one. *)
Definition session_dir : Sessions :=
  mkSessions (<[ "a"%string := mkListed true 5 (Some 0) ]> (<[ "b"%string := mkListed true 5 (Some 0) ]>
    {[ "c"%string := mkListed true 5 (Some 99) ]})) {[ "b"%string := true ]}.
Definition retention : SessionRetention := mkRetention (Some 10) (Some 2%nat).
End TidyDemo.

Lemma manifest_pruning_is_safe_witness :
  let now := seconds (2 * 24 * 60 * 60) in
  manifests (prune_task_manifests TidyDemo.free now ∅ false TidyDemo.manifest_dir).1 !! TidyDemo.name zeros = None /\
  (exists identity, TidyDemo.name zeros = TidyDemo.name identity /\ identity ∉ (∅ : gset string)) /\
  removed_manifests (prune_task_manifests TidyDemo.free now ∅ true TidyDemo.manifest_dir).2 = 1.
Proof.
  intros now. destruct (manifest_pruning_is_safe TidyDemo.free now ∅ TidyDemo.manifest_dir) as (Hsafe & _ & Hdry).
  split_and!.
  - vm_compute. reflexivity.
  - destruct (Hsafe (TidyDemo.name zeros) (mkListed true 7 (Some 0))) as (i & Hi & Hl & _);
      [vm_compute; reflexivity..|]. exists i. split; [exact Hi|exact Hl].
  - rewrite (Hdry (fun _ => eq_refl)). vm_compute. reflexivity.
Defined.

Lemma session_pruning_is_bounded_witness :
  exists s' p, prune_sessions TidyDemo.free 100 false TidyDemo.retention TidyDemo.session_dir = Ok (s', p) /\
    streams s' !! "b"%string = Some (mkListed true 5 (Some 0)) /\ removed_streams p = 1.
Proof.
  destruct (session_pruning_is_bounded TidyDemo.free 100 TidyDemo.retention TidyDemo.session_dir
    (fun _ => eq_refl)) as (s' & p & dry & H1 & _ & _ & Hheld & _).
  exists s', p. split_and!; [done| |].
  - rewrite Hheld; [vm_compute; reflexivity|]. vm_compute. reflexivity.
  - apply (f_equal (fun r => match r with Ok (_, p) => removed_streams p | Err _ => 0 end)) in H1.
    cbv beta iota in H1. rewrite <- H1. vm_compute. reflexivity.
Defined.
