(* ===== verification/Collector.v ===== *)
(** * Collection of the local store

    Models, from [src/crates/mbx-cache-store/src/lib.rs], what a sweep decides
    and does: reachability from live checkouts and pending exports
    ([rooted_objects], [rooted_action_objects], [root_tree]), eviction in least
    recently used order ([evict_objects]), the removal of results that lost an
    object ([action_result_bytes_are_dangling], [tree_is_complete]) and the
    whole of [gc_with_mode] with its dry run.  The store is a record of
    directories; the order of a directory listing, the clock and the removals
    the operating system refuses are an environment.  One process collects;
    that an action record changes between being read and claimed is the
    subject of [ActionSlot].

    The lemmas say what each part computes: what a set of actions reaches,
    which objects an eviction takes, which records a sweep finds dangling.
    [Sweep] proves from them what a collection guarantees, and [Compilers] what
    dropping a compiler does. *)

From stdpp Require Import base list gmap sets strings sorting relations.
From Stdlib Require Import ZArith Lia.
From S2P Require Import Prelude Strings Protocol Walk Cas Housekeeping.
Local Open Scope Z_scope.

(** ** The store *)

(** What the collector reads of records other components write. *)
Class StoreCodec := {
  parse_metadata : list Z -> option Metadata;
  (** The [kind] and [/compiler/rustc_version] strings of an action descriptor. *)
  parse_descriptor : list Z -> option (option string * option string)
}.

Record BuildReceipt := mkReceipt {
  receipt_version : Z;
  receipt_root : string;
  receipt_identity : string;
  completed_nanos : Z;
  receipt_group : option string;
  receipt_restored : option string;
  receipt_predictions : list ActionPrediction
}.

Definition BUILD_RECEIPT_VERSION : Z := 1.

Record Store := mkStore {
  disk : Disk;
  checkout_dirs : list CheckoutDir;
  manifest_files : Manifests;
  (** What parses in the manifest file of an identity. *)
  manifest_contents : gmap string TaskActionManifest;
  group_receipts : list (option BuildReceipt);
  sessions : Sessions;
  staging : gmap string Staged
}.

Record Env := mkEnv {
  env_now : Z;
  env_now_secs : option Z;
  env_probe : string -> Probes;
  env_access : string -> Access;
  env_listing : gmap string File -> list (string * File)
}.

Record Entry := mkEntry { entry_path : string; entry_size : Z; entry_used : Z }.

(** The last use a listing shows: access time, else modification time. *)
Definition last_used (f : File) : Z := default 0 (option_or (accessed f) (modified f)).

Definition to_entry (x : string * File) : Entry :=
  mkEntry x.1 (Z.of_nat (length (bytes x.2))) (last_used x.2).

Definition walk_files (env : Env) (m : gmap string File) : list Entry := map to_entry (env_listing env m).

Record GcOutcome := mkOutcome {
  removed_objects : Z;
  removed_action_results : Z;
  removed_checkout_records : Z;
  removed_task_manifests : Z;
  removed_session_streams : Z;
  removed_bytes : Z;
  remaining_bytes : Z
}.

Definition no_outcome : GcOutcome := mkOutcome 0 0 0 0 0 0 0.

Section collector.
Context `{Hashes} `{Codec} `{StoreCodec} (is_json : string -> bool) (env : Env).

(** ** Reachability *)

Definition root_digest (rooted : gset string) (d : Digest) : gset string :=
  match path_for d with Ok p => {[ p ]} ∪ rooted | Err _ => rooted end.

(** One round of [root_tree]. *)
Definition root_directory (k : Disk) (d : Digest) (rooted : gset string) : gset string * list Digest :=
  match directory_at k d with
  | None => (rooted, [])
  | Some dir =>
      (fold_left root_digest (child_digests dir)
         (fold_left root_digest (map file_digest (files dir)) rooted),
       child_digests dir)
  end.

Definition root_tree (k : Disk) (root : Digest) (rooted : gset string) (visited : gset Digest)
    : gset string * gset Digest :=
  match walk (root_directory k) (walk_fuel k [root]) [root] visited rooted with
  | Some (visited, rooted) => (rooted, visited)
  | None => (rooted, visited)
  end.

Definition read_action_result (k : Disk) (a : Digest) : option ActionResult :=
  match action_path a with
  | Ok p => f ← results k !! p; parse_result (bytes f)
  | Err _ => None
  end.

(** What the loop of [rooted_action_objects] does with one action. *)
Definition root_action (k : Disk) (s : gset string * gset Digest) (a : Digest)
    : gset string * gset Digest :=
  let '(rooted, visited) := s in
  match read_action_result k a with
  | None => s
  | Some r =>
      let rooted := root_digest rooted (res_action r) in
      let rooted :=
        match res_metadata r with
        | None => rooted
        | Some m =>
            let rooted := root_digest rooted m in
            match read_object k m ≫= parse_metadata with
            | None => rooted
            | Some c => root_digest (root_digest rooted (stdout c)) (stderr c)
            end
        end in
      match res_output_root r with
      | None => (rooted, visited)
      | Some root => root_tree k root (root_digest rooted root) visited
      end
  end.

Definition rooted_action_objects (k : Disk) (actions : list Digest) : gset string :=
  (fold_left (root_action k) actions (∅, ∅)).1.

Definition task_manifest_actions (s : Store) (identity : string) : result unit (list Digest) :=
  if negb (is_task_identity identity) then Err ()
  else
    match manifests (manifest_files s) !! (identity ++ ".json")%string with
    | None => Ok []
    | Some _ =>
        match manifest_contents s !! identity with
        | Some m =>
            if bool_decide (task m = identity) && validate_manifest is_json m
            then Ok (map action (predictions m)) else Ok []
        | None => Ok []
        end
    end.

Definition rooted_objects (s : Store) (identities : gset string) : gset string :=
  let actions : gset Digest :=
    list_to_set (concat (map (fun i => match task_manifest_actions s i with Ok l => l | Err _ => [] end)
      (elements identities))) in
  rooted_action_objects (disk s) (elements actions).

Definition read_build_receipt (r : option BuildReceipt) : option BuildReceipt :=
  r ← r;
  if (receipt_version r =? BUILD_RECEIPT_VERSION) &&
     validate_manifest is_json (mkManifest 1 (receipt_identity r) (receipt_predictions r))
  then Some r else None.

Definition grouped_receipt_actions (s : Store) : gset Digest :=
  list_to_set (concat (map (fun r => map action (receipt_predictions r))
    (omap read_build_receipt (group_receipts s)))).

(** ** Eviction *)

Record ObjectEvictions := mkEvictions { ev_objects : Z; ev_bytes : Z; ev_remaining : Z }.

(** [evict_objects], with the removal's own state. *)
Fixpoint evict_loop {St} (remove_file : string -> St -> result GcError (Removal * St)) (rooted : gset string)
    (max_bytes : Z) (objects : list Entry) (live_bytes : Z) (blocked_unrooted : bool)
    (removed : Z * Z) (st : St) : result GcError (ObjectEvictions * St) :=
  let done := Ok (mkEvictions removed.1 removed.2 live_bytes, st) in
  match objects with
  | [] => done
  | entry :: objects =>
      if live_bytes <=? max_bytes then done
      else
        let is_rooted := bool_decide (entry_path entry ∈ rooted) in
        if is_rooted && blocked_unrooted then done
        else
          match remove_file (entry_path entry) st with
          | Err e => Err e
          | Ok (Removed, st) =>
              evict_loop remove_file rooted max_bytes objects
                (saturating_sub live_bytes (entry_size entry)) blocked_unrooted
                (removed.1 + 1, removed.2 + entry_size entry) st
          | Ok (Missing, st) =>
              evict_loop remove_file rooted max_bytes objects
                (saturating_sub live_bytes (entry_size entry)) blocked_unrooted removed st
          | Ok (Blocked, st) =>
              evict_loop remove_file rooted max_bytes objects live_bytes
                (blocked_unrooted || negb is_rooted) removed st
          end
  end.

Definition evict_objects {St} (remove_file : string -> St -> result GcError (Removal * St))
    (objects : list Entry) (rooted : gset string) (live_bytes max_bytes : Z) (st : St)
    : result GcError (ObjectEvictions * St) :=
  evict_loop remove_file rooted max_bytes objects live_bytes false (0, 0) st.

(** Unrooted before rooted, then oldest first. *)
Definition evict_before (rooted : gset string) (a b : Entry) : Prop :=
  let ra := bool_decide (entry_path a ∈ rooted) in
  let rb := bool_decide (entry_path b ∈ rooted) in
  (ra = false /\ rb = true) \/ (ra = rb /\ entry_used a <= entry_used b).

#[export] Instance evict_before_dec rooted : RelDecision (evict_before rooted).
Proof. intros a b. unfold evict_before. apply _. Defined.

(** ** Dangling results *)

Definition missing (k : Disk) (gone : gset string) (d : Digest) : bool :=
  match path_for d with
  | Ok p => bool_decide (p ∈ gone) || negb (is_some (cas k !! p))
  | Err _ => true
  end.

(** One level of [tree_is_complete]: the files of a directory, if it can be
    read. *)
Definition complete_directory (k : Disk) (gone : gset string) (d : Digest) : option (list Digest) :=
  match directory_at k d with
  | None => Some []
  | Some dir =>
      if forallb (fun f => negb (missing k gone (file_digest f))) (files dir)
      then Some (child_digests dir) else None
  end.

Definition tree_is_complete (k : Disk) (gone : gset string) (d : Digest) (trees : gmap Digest bool)
    : bool * gmap Digest bool :=
  match verdict (fun d => negb (missing k gone d)) (complete_directory k gone)
          (S (base.size ({[ d ]} ∪ referenced k))) d trees with
  | Some r => r
  | None => (false, trees)
  end.

Definition action_result_bytes_are_dangling (k : Disk) (b : list Z) (gone : gset string) (walk_tree : bool)
    (trees : gmap Digest bool) : bool * gmap Digest bool :=
  match parse_result b with
  | None => (false, trees)
  | Some r =>
      if existsb (missing k gone) (required_blobs r) then (true, trees)
      else
        match walk_tree, res_output_root r with
        | true, Some root =>
            let '(complete, trees) := tree_is_complete k gone root trees in
            (negb complete, trees)
        | _, _ => (false, trees)
        end
  end.

Definition action_result_is_dangling (k : Disk) (path : string) (gone : gset string) (walk_tree : bool)
    (trees : gmap Digest bool) : bool * gmap Digest bool :=
  match results k !! path with
  | None => (false, trees)
  | Some f => action_result_bytes_are_dangling k (bytes f) gone walk_tree trees
  end.

(** The removal of one dangling result: the slot is claimed, the record read
    again with no remembered verdicts, and removed; [None] is a record that
    turned out not to dangle. *)
Definition remove_result (k : Disk) (path : string) (gone : gset string) (walk_tree : bool)
    : result GcError (option (Removal * Disk)) :=
  match env_access env path with
  | Held => Ok (Some (Blocked, k))
  | Broken => Err (RemoveFailed path)
  | Free =>
      match results k !! path with
      | None => Ok (Some (Missing, k))
      | Some f =>
          if (action_result_bytes_are_dangling k (bytes f) gone walk_tree ∅).1
          then Ok (Some (Removed, set_results k (delete path (results k)))) else Ok None
      end
  end.

Fixpoint sweep_results (dry_run : bool) (gone : gset string) (walk_tree : bool) (entries : list Entry)
    (k : Disk) (trees : gmap Digest bool) (live_bytes : Z) (removed : Z * Z)
    : result GcError (Disk * Z * (Z * Z)) :=
  match entries with
  | [] => Ok (k, live_bytes, removed)
  | entry :: entries =>
      let '(dangling, trees) := action_result_is_dangling k (entry_path entry) gone walk_tree trees in
      if negb dangling then sweep_results dry_run gone walk_tree entries k trees live_bytes removed
      else
        match (if dry_run then Ok (Some (Removed, k))
               else remove_result k (entry_path entry) gone walk_tree) with
        | Err e => Err e
        | Ok None => sweep_results dry_run gone walk_tree entries k trees live_bytes removed
        | Ok (Some (Removed, k)) =>
            sweep_results dry_run gone walk_tree entries k trees
              (saturating_sub live_bytes (entry_size entry))
              (removed.1 + 1, removed.2 + entry_size entry)
        | Ok (Some (Missing, k)) =>
            sweep_results dry_run gone walk_tree entries k trees
              (saturating_sub live_bytes (entry_size entry)) removed
        | Ok (Some (Blocked, k)) => sweep_results dry_run gone walk_tree entries k trees live_bytes removed
        end
  end.

(** ** The whole collection *)

Definition drop_record (path : string) (d : CheckoutDir) : CheckoutDir :=
  mkCheckoutDir (dir_identity d) (checkout_is_dir d)
    (List.filter (fun r => negb (bool_decide (r.1 = path))) (records d)).

(** [remove] on a checkout record; the directory goes with its last record. *)
Definition remove_record (path : string) (dirs : list CheckoutDir)
    : result GcError (Removal * list CheckoutDir) :=
  let here d := existsb (fun r => bool_decide (r.1 = path)) (records d) in
  if negb (existsb here dirs) then Ok (Missing, dirs)
  else
    match env_access env path with
    | Free =>
        Ok (Removed,
            List.filter (fun d => negb (bool_decide (records d = [])))
              (map (fun d => if here d then drop_record path d else d) dirs))
    | Held => Ok (Blocked, dirs)
    | Broken => Err (RemoveFailed path)
    end.

Fixpoint drop_stale (dry_run : bool) (paths : list string) (dirs : list CheckoutDir) (n : Z)
    : result GcError (list CheckoutDir * Z) :=
  match paths with
  | [] => Ok (dirs, n)
  | path :: paths =>
      if dry_run then drop_stale dry_run paths dirs (n + 1)
      else
        match remove_record path dirs with
        | Err e => Err e
        | Ok (Removed, dirs) => drop_stale dry_run paths dirs (n + 1)
        | Ok (_, dirs) => drop_stale dry_run paths dirs n
        end
  end.

Definition sum_sizes (l : list Entry) : Z := sumZ (map entry_size l).

(** The eviction of a sweep: the disk and the paths it pretends to have
    removed. *)
Definition evict_file (dry_run : bool) (path : string) (st : Disk * gset string)
    : result GcError (Removal * (Disk * gset string)) :=
  let '(k, gone) := st in
  if dry_run then Ok (Removed, (k, {[ path ]} ∪ gone))
  else
    match remove (env_access env) path (cas k) with
    | Err e => Err e
    | Ok (r, m) => Ok (r, (set_cas k m, gone))
    end.

Definition evict_over_budget (s : Store) (dry_run : bool) (live : gset string) (objects : list Entry)
    (live_bytes max_bytes : Z) (gone : gset string)
    : result GcError (ObjectEvictions * (Disk * gset string)) :=
  if max_bytes <? live_bytes then
    let rooted := rooted_objects s live ∪
      rooted_action_objects (disk s) (elements (grouped_receipt_actions s)) in
    evict_objects (evict_file dry_run) (merge_sort (evict_before rooted) objects) rooted
      live_bytes max_bytes (disk s, gone)
  else Ok (mkEvictions 0 0 live_bytes, (disk s, gone)).

Definition set_manifests (s : Store) (m : Manifests) : Store :=
  mkStore (disk s) (checkout_dirs s) m (manifest_contents s) (group_receipts s) (sessions s) (staging s).

Definition gc_with_mode (s : Store) (max_bytes : Z) (dry_run : bool) (already_removed : gset string)
    (retention : SessionRetention) : result GcError (GcOutcome * Store) :=
  let keep e := negb (bool_decide (entry_path e ∈ already_removed)) in
  let objects := List.filter keep (walk_files env (cas (disk s))) in
  let found := List.filter keep (walk_files env (results (disk s))) in
  let live_bytes := sum_sizes (objects ++ found) in
  let scan := scan_checkouts (env_probe env) (env_now_secs env) (checkout_dirs s) in
  '(dirs, stale) ← drop_stale dry_run (stale_records scan) (checkout_dirs s) 0;
  let '(manifests, pruned) :=
    prune_task_manifests (env_access env) (env_now env) (live_identities scan) dry_run (manifest_files s) in
  '(evicted, (k, gone)) ←
    evict_over_budget (set_manifests s manifests) dry_run (live_identities scan) objects live_bytes max_bytes already_removed;
  '(k, remaining, (dropped, dropped_bytes)) ←
    sweep_results dry_run gone (0 <? ev_objects evicted) found k ∅ (ev_remaining evicted) (0, 0);
  '(sess, streams) ← prune_sessions (env_access env) (env_now env) dry_run retention (sessions s);
  Ok (mkOutcome (ev_objects evicted) dropped stale (removed_manifests pruned) (removed_streams streams)
        (pruned_bytes pruned + ev_bytes evicted + dropped_bytes + session_bytes streams) remaining,
      mkStore k dirs manifests (manifest_contents s) (group_receipts s) sess
        (prune_import_staging (env_access env) (env_now env) dry_run (staging s))).

Definition SESSION_RETENTION : Z := seconds (7 * 24 * 60 * 60).
Definition default_retention : SessionRetention := mkRetention (Some SESSION_RETENTION) (Some 256%nat).

Definition gc (s : Store) (max_bytes : Z) := gc_with_mode s max_bytes false ∅ default_retention.
Definition gc_dry_run (s : Store) (max_bytes : Z) := gc_with_mode s max_bytes true ∅ default_retention.
End collector.

(** ** Listings *)

Section listings.
Context (env : Env) (Hlisting : forall m, env_listing env m ≡ₚ map_to_list m).

Lemma NoDup_walk_files m : NoDup (map entry_path (walk_files env m)).
Proof.
  unfold walk_files. rewrite map_map. change (fun x => entry_path (to_entry x)) with (@fst string File).
  rewrite Hlisting. apply NoDup_fst_map_to_list.
Qed.

Lemma elem_of_walk_files m e : e ∈ walk_files env m <-> exists p f, m !! p = Some f /\ e = to_entry (p, f).
Proof.
  unfold walk_files. rewrite Hlisting, list_elem_of_In, in_map_iff. split.
  - intros ([p f] & <- & Hp%list_elem_of_In%elem_of_map_to_list). eauto.
  - intros (p & f & Hp & ->). exists (p, f). split; [done|]. by apply list_elem_of_In, elem_of_map_to_list.
Qed.
End listings.

(** ** What an action reaches *)

Section rooted.
Context `{Hashes} `{Codec} `{StoreCodec}.

(** A directory lists its files and subdirectories. *)
Definition lists (k : Disk) (x d : Digest) : Prop :=
  exists dir, directory_at k x = Some dir /\
    (d ∈ child_digests dir \/ d ∈ map file_digest (files dir)).

Definition under_root (k : Disk) (root d : Digest) : Prop :=
  d = root \/ exists x, rtc (child k) root x /\ lists k x d.

Lemma elem_of_root_digest rooted d p : p ∈ root_digest rooted d <-> p ∈ rooted \/ path_for d = Ok p.
Proof.
  unfold root_digest. destruct (path_for d) as [q|]; [|split; [auto|by intros [?|?]]].
  rewrite elem_of_union, elem_of_singleton. split; [intros [->|?]; auto|intros [?|[= ->]]; auto].
Qed.

Lemma elem_of_root_digests rooted l p :
  p ∈ fold_left root_digest l rooted <-> p ∈ rooted \/ exists d, d ∈ l /\ path_for d = Ok p.
Proof.
  revert rooted. induction l as [|d l IH]; intros rooted; simpl; [set_solver|].
  rewrite IH, elem_of_root_digest. set_solver.
Qed.

Lemma root_directory_pushes k d rooted : (root_directory k d rooted).2 = children_of k d.
Proof. unfold root_directory, children_of. by destruct (directory_at k d). Qed.

Lemma root_directory_adds k d rooted p :
  p ∈ (root_directory k d rooted).1 <-> p ∈ rooted \/ exists e, lists k d e /\ path_for e = Ok p.
Proof.
  unfold root_directory, lists. destruct (directory_at k d) as [dir|]; simpl; [|split; [auto|]].
  - rewrite !elem_of_root_digests. split.
    + intros [[?|(e & ? & ?)]|(e & ? & ?)]; eauto 10.
    + intros [?|(e & (dir' & [= <-] & [?|?]) & ?)]; eauto 10.
  - intros [?|(e & (dir' & ? & _) & _)]; done.
Qed.

Lemma root_walk_total k root visited rooted :
  is_Some (walk (root_directory k) (walk_fuel k [root]) [root] visited rooted).
Proof.
  apply (walk_total _ (children_of k) (root_directory_pushes k) ({[ root ]} ∪ referenced k)).
  - intros a b Hab. apply elem_of_union_r, (child_referenced k a). by apply child_children.
  - intros a ->%list_elem_of_singleton. set_solver.
  - unfold walk_fuel. simpl. apply le_n_S. fold (children_of k).
    replace (list_to_set [root] ∪ referenced k) with ({[root]} ∪ referenced k) by set_solver.
    apply weight_mono. set_solver.
Qed.

(** Everything a visited directory lists is rooted, and so is everything below
    it. *)
Definition rooting (k : Disk) (s : gset string * gset Digest) : Prop :=
  closed (children_of k) s.2 /\
  forall x d p, x ∈ s.2 -> lists k x d -> path_for d = Ok p -> p ∈ s.1.

Lemma root_tree_spec k root rooted visited :
  rooting k (rooted, visited) ->
  rooting k (root_tree k root rooted visited) /\
  forall p, p ∈ (root_tree k root rooted visited).1 <->
    p ∈ rooted \/ exists x d, rtc (child k) root x /\ lists k x d /\ path_for d = Ok p.
Proof.
  intros [Hc Hl]. simpl in *. unfold root_tree.
  destruct (root_walk_total k root visited rooted) as [[visited' rooted'] Hw]. rewrite Hw. simpl.
  destruct (walk_reaches _ (children_of k) (root_directory_pushes k) _ _ _ _ _ _ Hc Hw) as [Hc' Hv].
  assert (forall a b, rtc (edge (children_of k)) a b <-> rtc (child k) a b) as Hrtc.
  { intros a b. split; apply rtc_subrel; intros y z; rewrite child_children; done. }
  set (P := fun (_ : list Digest) (X : gset Digest) (r : gset string) =>
    forall p, p ∈ r <-> p ∈ rooted \/ exists x d, x ∈ X /\ lists k x d /\ path_for d = Ok p).
  assert (P [] visited' rooted') as HP.
  { eapply (walk_ind _ P); [..|exact Hw].
    - intros a todo X r HP _. exact HP.
    - intros a todo X r HP _ p. rewrite root_directory_adds, (HP p). split.
      + intros [[?|(x & d & ? & ? & ?)]|(d & ? & ?)]; [auto|right; exists x, d; set_solver|].
        right. exists a, d. set_solver.
      + intros [?|(x & d & [->%elem_of_singleton|?]%elem_of_union & ? & ?)]; eauto 10.
    - intros p. split; [auto|]. intros [?|(x & d & ? & ? & ?)]; [done|by eapply Hl]. }
  split; [split; [done|]|].
  - intros x d p Hx Hd Hp. apply HP. right. eauto.
  - intros p. rewrite (HP p). split.
    + intros [?|(x & d & Hx & ? & ?)]; [by left|].
      apply Hv in Hx as [Hx|(r & ->%list_elem_of_singleton & Hx)]; [left; by eapply Hl|right].
      exists x, d. by rewrite <- Hrtc.
    + intros [?|(x & d & Hx & ? & ?)]; [by left|right]. exists x, d. split; [|done]. apply Hv. right.
      exists root. split; [by apply list_elem_of_singleton|]. by apply Hrtc.
Qed.

(** What restoring a result reads: the action, the metadata and the output it
    records, and everything under the output root. *)
Definition restores (k : Disk) (r : ActionResult) (d : Digest) : Prop :=
  d = res_action r \/ res_metadata r = Some d \/
  (exists m c, res_metadata r = Some m /\ read_object k m ≫= parse_metadata = Some c /\
     (d = stdout c \/ d = stderr c)) \/
  exists root, res_output_root r = Some root /\ under_root k root d.

Lemma root_action_spec k s a :
  rooting k s ->
  rooting k (root_action k s a) /\
  forall p, p ∈ (root_action k s a).1 <->
    p ∈ s.1 \/ exists r d, read_action_result k a = Some r /\ restores k r d /\ path_for d = Ok p.
Proof.
  destruct s as [rooted visited]. intros Hs. unfold root_action.
  destruct (read_action_result k a) as [r|] eqn:Er.
  2: { split; [done|]. intros p. split; [auto|]. intros [?|(? & ? & ? & _)]; done. }
  set (base := match res_metadata r with None => _ | Some m => _ end).
  assert (forall p, p ∈ base <-> p ∈ rooted \/ path_for (res_action r) = Ok p \/
    exists m, res_metadata r = Some m /\ (path_for m = Ok p \/
      exists c, read_object k m ≫= parse_metadata = Some c /\ (path_for (stdout c) = Ok p \/ path_for (stderr c) = Ok p)))
    as Hbase.
  { intros p. unfold base. destruct (res_metadata r) as [m|]; [destruct (read_object k m ≫= parse_metadata) as [c|] eqn:Ec|];
      rewrite ?elem_of_root_digest.
    - split.
      + intros [[[[?|?]|?]|?]|?]; eauto 10.
      + intros [?|[?|(m' & [= <-] & [?|(c' & ? & [?|?])])]]; simplify_eq; auto.
    - split.
      + intros [[?|?]|?]; eauto 10.
      + intros [?|[?|(m' & [= <-] & [?|(c' & ? & _)])]]; simplify_eq; auto.
    - split.
      + intros [?|?]; auto.
      + intros [?|[?|(m' & ? & _)]]; auto; done. }
  assert (forall p, p ∈ base -> p ∈ rooted \/ exists r0 d, Some r = Some r0 /\ restores k r0 d /\ path_for d = Ok p) as Hb1.
  { intros p [?|[?|(m & Hm & [?|(c & Hc & [?|?])])]]%Hbase; [by left|right; exists r..].
    - exists (res_action r). split_and!; [done|by left|done].
    - exists m. split_and!; [done|right; by left|done].
    - exists (stdout c). split_and!; [done|right; right; left; exists m, c; auto|done].
    - exists (stderr c). split_and!; [done|right; right; left; exists m, c; auto|done]. }
  assert (forall p d, path_for d = Ok p -> restores k r d ->
    p ∈ base \/ exists root, res_output_root r = Some root /\ under_root k root d) as Hb2.
  { intros p d Hp [->|[Hm|[(m & c & Hm & Hc & [->| ->])|?]]]; [left; apply Hbase; right..|by right]; [by left|right..].
    - exists d. auto.
    - exists m. split; [done|]. right. exists c. auto.
    - exists m. split; [done|]. right. exists c. auto. }
  destruct (res_output_root r) as [root|] eqn:Eo.
  - assert (rooting k (root_digest base root, visited)) as Hs'.
    { destruct Hs as [Hc Hl]. split; [done|]. intros x d p Hx Hd Hp. apply elem_of_root_digest. left.
      apply Hbase. left. by eapply Hl. }
    destruct (root_tree_spec k root _ _ Hs') as [Hr Hp]. split; [done|]. intros p. rewrite Hp, elem_of_root_digest. split.
    + intros [[?|?]|(x & d & ? & ? & ?)]; [by apply Hb1|right; exists r, root|right; exists r, d];
        split_and!; try done; right; right; right; exists root; split; [done|by left|done|right; eauto].
    + intros [?|(r' & d & [= <-] & Hd & Hpd)]; [left; left; apply Hbase; by left|].
      destruct (Hb2 p d Hpd Hd) as [?|(root' & [= <-] & [->|(x & ? & ?)])]; eauto 10.
  - split.
    + destruct Hs as [Hc Hl]. split; [done|]. intros x d p Hx Hd Hp. apply Hbase. left. by eapply Hl.
    + intros p. simpl. split; [apply Hb1|]. intros [?|(r' & d & [= <-] & Hd & Hpd)]; [apply Hbase; by left|].
      by destruct (Hb2 p d Hpd Hd) as [?|(root' & ? & _)].
Qed.

Lemma rooted_action_objects_spec k actions p :
  p ∈ rooted_action_objects k actions <->
  exists a r d, a ∈ actions /\ read_action_result k a = Some r /\ restores k r d /\ path_for d = Ok p.
Proof.
  unfold rooted_action_objects.
  enough (forall s, rooting k s -> rooting k (fold_left (root_action k) actions s) /\
    forall p, p ∈ (fold_left (root_action k) actions s).1 <-> p ∈ s.1 \/
      exists a r d, a ∈ actions /\ read_action_result k a = Some r /\ restores k r d /\ path_for d = Ok p) as Hf.
  { destruct (Hf (∅, ∅)) as [_ Hp]; [split; [intros a b ?%not_elem_of_empty; done|set_solver]|].
    rewrite (Hp p). simpl. split; [intros [?%not_elem_of_empty|?]; done|auto]. }
  induction actions as [|a actions IH]; intros s Hs; simpl.
  { split; [done|]. intros q. split; [auto|]. intros [?|(? & ? & ? & ?%elem_of_nil & _)]; done. }
  destruct (root_action_spec k s a Hs) as [Hs' Ha]. destruct (IH _ Hs') as [Hs2 Hp]. split; [done|].
  intros q. rewrite Hp, Ha. setoid_rewrite elem_of_cons. split.
  - intros [[?|(r & d & ?)]|(a' & r & d & ? & ?)]; [auto|right; exists a, r, d; auto|right; exists a', r, d; auto].
  - intros [?|(a' & r & d & [->|?] & ?)]; [auto|left; right; eauto|right; eauto 10].
Qed.
End rooted.

(** ** Eviction *)

#[export] Instance sum_sizes_Permutation : Proper (Permutation ==> eq) sum_sizes.
Proof. intros l k Hlk. unfold sum_sizes. by rewrite Hlk. Qed.

Section eviction.
Context (env : Env) (rooted : gset string) (max_bytes : Z).

#[export] Instance evict_before_trans : Transitive (evict_before rooted).
Proof. intros a b c. unfold evict_before. intros [[? ?]|[? ?]] [[? ?]|[? ?]]; [left|left|left|right]; split; congruence || lia. Qed.

#[export] Instance evict_before_total : Total (evict_before rooted).
Proof.
  intros a b. unfold evict_before.
  destruct (bool_decide (entry_path a ∈ rooted)), (bool_decide (entry_path b ∈ rooted)); try naive_solver;
    destruct (Z.le_ge_cases (entry_used a) (entry_used b)); auto.
Qed.

(** The objects that go where nothing is in the way: those at the front, while
    the rest is over the budget. *)
Fixpoint victims (live_bytes : Z) (objects : list Entry) : list Entry :=
  match objects with
  | [] => []
  | e :: objects =>
      if live_bytes <=? max_bytes then []
      else e :: victims (saturating_sub live_bytes (entry_size e)) objects
  end.

Lemma evict_loop_victims {St} (remove_file : string -> St -> result GcError (Removal * St))
    (effect : string -> St -> St) (ready : list Entry -> St -> Prop) objects live removed st :
  (forall e l st, ready (e :: l) st ->
     remove_file (entry_path e) st = Ok (Removed, effect (entry_path e) st) /\ ready l (effect (entry_path e) st)) ->
  ready objects st ->
  let gone := victims live objects in
  evict_loop remove_file rooted max_bytes objects live false removed st =
  Ok (mkEvictions (removed.1 + Z.of_nat (length gone)) (removed.2 + sum_sizes gone)
        (fold_left saturating_sub (map entry_size gone) live),
      fold_left (fun st e => effect (entry_path e) st) gone st).
Proof.
  intros Hready. revert live removed st. induction objects as [|e l IH]; intros live removed st Hr.
  { destruct removed. simpl. unfold sum_sizes. simpl. by rewrite !Z.add_0_r. }
  cbn [evict_loop victims]. destruct (live <=? max_bytes) eqn:El.
  { destruct removed. simpl. unfold sum_sizes. simpl. by rewrite !Z.add_0_r. }
  rewrite andb_false_r. apply Hready in Hr as [-> Hr]. rewrite (IH _ _ _ Hr). unfold sum_sizes. simpl.
  do 3 f_equal; lia.
Qed.

(** The budget is what stops it: every victim but the last leaves more than the
    budget, and anything that stays is within it. *)
Lemma victims_spec live objects :
  sum_sizes objects <= live -> Forall (fun e => 0 <= entry_size e) objects ->
  exists kept, objects = victims live objects ++ kept /\
    fold_left saturating_sub (map entry_size (victims live objects)) live = live - sum_sizes (victims live objects) /\
    (kept <> [] -> live - sum_sizes (victims live objects) <= max_bytes) /\
    (forall before e after, victims live objects = before ++ e :: after -> max_bytes < live - sum_sizes before).
Proof.
  unfold sum_sizes. revert live. induction objects as [|e l IH]; intros live Hs Hn.
  { exists []. split_and!; [done|simpl; lia|done|]. by intros [] ? ?. }
  apply Forall_cons in Hn as [He Hn]. simpl in Hs. cbn [victims]. destruct (Z.leb_spec live max_bytes).
  { exists (e :: l). split_and!; [done|simpl; lia|simpl; lia|]. by intros [] ? ?. }
  pose proof (sumZ_nonneg (map entry_size l)) as Hp.
  assert (0 <= sumZ (map entry_size l)) by (apply Hp, Forall_fmap; done).
  assert (saturating_sub live (entry_size e) = live - entry_size e) as Hsub by (unfold saturating_sub; lia).
  rewrite Hsub. destruct (IH (live - entry_size e)) as (kept & H1 & H2 & H3 & H4); [lia|done|].
  exists kept. cbn [map fold_left app sumZ]. rewrite Hsub. split_and!.
  - by rewrite <- H1.
  - lia.
  - intros Hk. specialize (H3 Hk). lia.
  - intros [|x before] y after Heq; simpl in *; [lia|]. injection Heq as <- Heq. specialize (H4 _ _ _ Heq). lia.
Qed.

(** Real removals, whatever the operating system refuses. *)
Lemma evict_loop_real objects live blocked removed k gone ev k' gone' :
  StronglySorted (evict_before rooted) objects ->
  evict_loop (evict_file env false) rooted max_bytes objects live blocked removed (k, gone) = Ok (ev, (k', gone')) ->
  gone' = gone /\ results k' = results k /\ cas k' ⊆ cas k /\
  (forall p, p ∈ dom (cas k) -> p ∉ dom (cas k') -> p ∈ rooted ->
     blocked = false /\ forall e, e ∈ objects -> entry_path e ∈ rooted \/ entry_path e ∉ dom (cas k')).
Proof.
  intros Hs. revert live blocked removed k. induction Hs as [|x l Hs IH Hf]; intros live blocked removed k Hr.
  { simpl in Hr. simplify_eq. done. }
  cbn [evict_loop] in Hr. destruct (live <=? max_bytes); [by simplify_eq|].
  destruct (bool_decide (entry_path x ∈ rooted) && blocked) eqn:Eb; [by simplify_eq|].
  unfold evict_file at 1, remove in Hr.
  assert (forall y, y ∈ l -> entry_path x ∈ rooted -> entry_path y ∈ rooted) as Hsorted.
  { intros y Hy Hx. rewrite Forall_forall in Hf. specialize (Hf y Hy). unfold evict_before in Hf.
    rewrite (bool_decide_true _ Hx) in Hf. destruct Hf as [[? _]|[Hf _]]; [done|].
    by apply eq_sym, bool_decide_eq_true in Hf. }
  destruct (cas k !! entry_path x) as [f|] eqn:Ex; [destruct (env_access env (entry_path x)) eqn:Ea|];
    simpl in Hr; try done.
  - apply IH in Hr as (-> & Hres & Hsub & Hp). simpl in *. split_and!; [done|done| |].
    { etrans; [exact Hsub|apply delete_subseteq]. }
    intros p Hin Hout Hroot. destruct (decide (p = entry_path x)) as [->|Hne].
    + split; [destruct blocked; [rewrite bool_decide_true in Eb by done; done|done]|].
      intros e [->|He]%elem_of_cons; [by left|left; by apply Hsorted].
    + destruct (Hp p) as [? Hrest]; [set_solver|done|done|]. split; [done|].
      intros e [->|He]%elem_of_cons; [|by apply Hrest]. right. intros Hx. apply (subseteq_dom _ _ Hsub) in Hx. set_solver.
  - apply IH in Hr as (-> & Hres & Hsub & Hp). split_and!; [done..|]. intros p Hin Hout Hroot.
    destruct (Hp p Hin Hout Hroot) as [Hbl Hrest]. apply orb_false_elim in Hbl as [? Hx]. split; [done|].
    simp_bool. intros e [->|He]%elem_of_cons; [by left|by apply Hrest].
  - apply IH in Hr as (-> & Hres & Hsub & Hp). split_and!; [done..|]. intros p Hin Hout Hroot.
    destruct (Hp p Hin Hout Hroot) as [Hbl Hrest]. split; [done|].
    intros e [->|He]%elem_of_cons; [|by apply Hrest]. right. intros Hx. apply (subseteq_dom _ _ Hsub) in Hx.
    apply elem_of_dom in Hx as [? Hx]. simpl in Hx. by rewrite Ex in Hx.
Qed.
End eviction.

(** ** Collections *)

Section collections.
Context `{Hashes} `{Codec} `{StoreCodec} (is_json : string -> bool) (env : Env).

(** An action something still needs: the manifest of an identity a live
    checkout claims predicts it, or a pending export recorded it. *)
Definition needed (s : Store) (a : Digest) : Prop :=
  (exists i path c l, claims (checkout_dirs s) i path c /\ claim_is_live (env_probe env) (env_now_secs env) c = true /\
     task_manifest_actions is_json s i = Ok l /\ a ∈ l) \/
  a ∈ grouped_receipt_actions is_json s.

(** An object restoring a needed action reads. *)
Definition protected (s : Store) (p : string) : Prop :=
  exists a r d, needed s a /\ read_action_result (disk s) a = Some r /\ restores (disk s) r d /\ path_for d = Ok p.

Definition roots (s : Store) (live : gset string) : gset string :=
  rooted_objects is_json s live ∪
  rooted_action_objects (disk s) (elements (grouped_receipt_actions is_json s)).

Lemma elem_of_roots s p :
  p ∈ roots s (live_identities (scan_checkouts (env_probe env) (env_now_secs env) (checkout_dirs s))) <->
  protected s p.
Proof.
  destruct (scan_dirs_spec (env_probe env) (env_now_secs env) (checkout_dirs s) (mkScan ∅ 0 [])) as [Hlive _].
  fold (scan_checkouts (env_probe env) (env_now_secs env) (checkout_dirs s)) in Hlive.
  unfold roots, rooted_objects, protected, needed.
  rewrite elem_of_union, !rooted_action_objects_spec. setoid_rewrite elem_of_elements.
  setoid_rewrite elem_of_list_to_set. setoid_rewrite list_elem_of_In at 1. setoid_rewrite in_concat.
  setoid_rewrite in_map_iff. split.
  - intros [(a & r & d & (l & (i & <- & Hi) & Ha) & Hr)|(a & r & d & Ha & Hr)]; exists a, r, d; (split; [|done]); [left|by right].
    apply list_elem_of_In, elem_of_elements, Hlive in Hi as [?%elem_of_empty|(path & c & Hc & Hl)]; [done|].
    destruct (task_manifest_actions is_json s i) as [l|] eqn:E; [|done]. apply list_elem_of_In in Ha. eauto 10.
  - intros (a & r & d & [(i & path & c & l & Hc & Hl & Hm & Ha)|Ha] & Hr); [left|right]; exists a, r, d; (split; [|done]); [|done].
    exists l. split; [|by apply list_elem_of_In]. exists i. rewrite Hm. split; [done|].
    apply list_elem_of_In, elem_of_elements, Hlive. right. eauto.
Qed.

(** Pruning manifests keeps those of live identities. *)
Lemma pruning_keeps_live dry live s i :
  i ∈ live ->
  task_manifest_actions is_json (set_manifests s (prune_task_manifests (env_access env) (env_now env) live dry (manifest_files s)).1) i =
  task_manifest_actions is_json s i.
Proof.
  intros Hi. unfold task_manifest_actions. simpl.
  replace (manifests (prune_task_manifests _ _ live dry (manifest_files s)).1 !! (i ++ ".json")%string)
    with (manifests (manifest_files s) !! (i ++ ".json")%string); [done|].
  rewrite prune_task_manifests_eq. cbv zeta. simpl. destruct dry; [by rewrite prune_manifests_dry|].
  rewrite prune_locks_manifests. destruct (fold_left _ _ _) as [m' p'] eqn:E.
  apply prune_manifests_real in E as [Hkept _]; [|apply NoDup_fst_map_to_list|by intros [n e] ?%elem_of_map_to_list].
  simpl. destruct (Hkept (i ++ ".json")%string) as [->|(_ & e & _ & Hg)]; [done|]. exfalso.
  unfold goes, prunable_manifest in Hg. simpl in Hg.
  destruct (strip_suffix ".json" (i ++ ".json")) as [j|] eqn:Es; [|done]. simpl in Hg.
  apply strip_suffix_inv, app_inv_tail_string in Es as <-. rewrite (bool_decide_true (i ∈ live)), orb_true_r in Hg by done.
  done.
Qed.

Lemma roots_pruned dry live s :
  roots (set_manifests s (prune_task_manifests (env_access env) (env_now env) live dry (manifest_files s)).1) live =
  roots s live.
Proof.
  unfold roots, rooted_objects, grouped_receipt_actions. simpl. f_equal.
  do 4 f_equal. apply map_ext_in. intros i Hi%list_elem_of_In%elem_of_elements. by rewrite pruning_keeps_live.
Qed.
End collections.

(** ** Results that lost an object *)

Section sweeps.
Context `{Hashes} `{Codec} `{StoreCodec} (env : Env).

(** Restoring a record finds its objects: the top-level ones, and with
    [walk_tree] those of its tree. *)
Definition whole (k : Disk) (gone : gset string) (walk_tree : bool) (r : ActionResult) : Prop :=
  Forall (fun d => missing k gone d = false) (required_blobs r) /\
  (walk_tree = true -> forall root x d, res_output_root r = Some root -> rtc (child k) root x -> lists k x d ->
     missing k gone d = false).

(** Directories do not contain themselves. *)
Definition acyclic (k : Disk) (rank : Digest -> nat) : Prop := forall a b, child k a b -> (rank b < rank a)%nat.

Definition there (k : Disk) (gone : gset string) (d : Digest) : bool := negb (missing k gone d).

Lemma complete_directory_some k gone d next :
  complete_directory k gone d = Some next <->
  next = children_of k d /\ forall dir f, directory_at k d = Some dir -> f ∈ files dir -> missing k gone (file_digest f) = false.
Proof.
  unfold complete_directory, children_of. destruct (directory_at k d) as [dir|]; simpl; [|naive_solver].
  destruct (forallb _ _) eqn:Ef.
  - rewrite forallb_forall in Ef. split; [intros [= <-]|by intros [-> _]]. split; [done|].
    intros dir' f [= <-] Hf. apply negb_true_iff, Ef, list_elem_of_In, Hf.
  - split; [done|]. intros [_ Hall]. enough (forallb (fun f => negb (missing k gone (file_digest f))) (files dir) = true) by congruence.
    apply forallb_forall. intros f Hf%list_elem_of_In. by rewrite (Hall dir f).
Qed.

Lemma complete_refers_child k gone d e : refers (complete_directory k gone) d e -> child k d e.
Proof. intros (next & [-> _]%complete_directory_some & He). by apply child_children. Qed.

Lemma sound_tree k gone d :
  sound (there k gone) (complete_directory k gone) d <->
  forall x e, rtc (child k) d x -> lists k x e -> missing k gone e = false.
Proof.
  split.
  - intros Hs x e Hx He.
    assert (rtc (refers (complete_directory k gone)) d x) as Hr.
    { clear He. revert Hs. induction Hx as [|d y z Hdy _ IH]; intros Hs; [done|].
      destruct (Hs d) as (next & Hn & _); [done|].
      assert (refers (complete_directory k gone) d y) as Hr.
      { exists next. split; [done|]. apply complete_directory_some in Hn as [-> _]. by apply child_children. }
      eapply rtc_l; [exact Hr|]. apply IH. intros w Hw. apply Hs. by eapply rtc_l. }
    destruct (Hs x Hr) as (next & [-> Hf]%complete_directory_some & Hp).
    destruct He as (dir & Hdir & [He|He]).
    + rewrite Forall_forall in Hp. apply negb_true_iff, Hp. unfold children_of. by rewrite Hdir.
    + apply list_elem_of_fmap in He as (f & -> & Hin). by eapply Hf.
  - intros Hall x Hx. exists (children_of k x).
    assert (rtc (child k) d x) as Hx' by (eapply rtc_subrel, Hx; intros; by eapply complete_refers_child).
    rewrite complete_directory_some. split; [split; [done|]|].
    + intros dir f Hdir Hf. apply (Hall x); [done|]. exists dir. split; [done|right]. by apply list_elem_of_fmap_2.
    + apply Forall_forall. intros y Hy. apply negb_true_iff, (Hall x); [done|].
      unfold children_of in Hy. destruct (directory_at k x) as [dir|] eqn:Ed; [|by apply elem_of_nil in Hy].
      exists dir. split; [done|by left].
Qed.

Context (k : Disk) (gone : gset string) (walk_tree : bool) (rank : Digest -> nat) (Hrank : acyclic k rank).

(** Remembered verdicts are all right. *)
Definition remembers (k : Disk) (trees : gmap Digest bool) : Prop :=
  forall n, memo_ok (there k gone) (complete_directory k gone) rank n trees.

Lemma remembers_empty : remembers k ∅.
Proof. by intros n a b _ ?%lookup_empty_Some. Qed.

Lemma tree_is_complete_exact d trees :
  remembers k trees ->
  let '(b, trees') := tree_is_complete k gone d trees in
  (b = true <-> forall x e, rtc (child k) d x -> lists k x e -> missing k gone e = false) /\ remembers k trees'.
Proof.
  intros Hm. unfold tree_is_complete.
  destruct (verdict_total_universe (there k gone) (complete_directory k gone) ({[ d ]} ∪ referenced k)
    (S (base.size ({[ d ]} ∪ referenced k))) d trees) as [[b trees'] Hv].
  - intros a c Hac. apply elem_of_union_r, (child_referenced k a). by eapply complete_refers_child.
  - set_solver.
  - assert (base.size (({[d]} ∪ referenced k) ∖ dom trees) <= base.size ({[d]} ∪ referenced k))%nat
      by (apply subseteq_size; set_solver). lia.
  - unfold there in Hv. rewrite Hv. fold (there k gone) in Hv. rewrite <- sound_tree.
    eapply verdict_keeps; [|exact Hm|exact Hv]. intros a c Hac. apply Hrank. by eapply complete_refers_child.
Qed.

Lemma dangling_bytes_exact b trees :
  remembers k trees ->
  ((action_result_bytes_are_dangling k b gone walk_tree trees).1 = false <->
     forall r, parse_result b = Some r -> whole k gone walk_tree r) /\
  remembers k (action_result_bytes_are_dangling k b gone walk_tree trees).2.
Proof.
  intros Hm. unfold action_result_bytes_are_dangling.
  destruct (parse_result b) as [r|]; [|split; [split; [by intros _ ? ?|done]|done]].
  assert ((forall r0, Some r = Some r0 -> whole k gone walk_tree r0) <-> whole k gone walk_tree r) as -> by naive_solver.
  unfold whole. destruct (existsb (missing k gone) (required_blobs r)) eqn:Ex.
  { split; [|done]. split; [done|]. intros [Hall _]. apply existsb_exists in Ex as (d & Hd%list_elem_of_In & Hmiss).
    rewrite Forall_forall in Hall. by rewrite Hall in Hmiss. }
  assert (Forall (fun d => missing k gone d = false) (required_blobs r)) as Hall.
  { apply Forall_forall. intros d Hd%list_elem_of_In. destruct (missing k gone d) eqn:Ed; [|done].
    enough (existsb (missing k gone) (required_blobs r) = true) by congruence. apply existsb_exists. eauto. }
  destruct walk_tree; [|split; [|done]; split; [by intros _; split|done]].
  destruct (res_output_root r) as [root|]; [|split; [|done]; split; [intros _; by split; [|intros _ ? ? ? ?]|done]].
  pose proof (tree_is_complete_exact root trees Hm) as Ht. destruct (tree_is_complete k gone root trees) as [c trees'].
  destruct Ht as [Hc Hm']. simpl. split; [|done]. rewrite negb_false_iff, Hc. split.
  - intros Hx. split; [done|]. intros _ root' x d [= <-]. apply Hx.
  - intros [_ Hx] x e. by apply Hx.
Qed.

Definition dangles (path : string) : bool :=
  match results k !! path with
  | None => false
  | Some f => (action_result_bytes_are_dangling k (bytes f) gone walk_tree ∅).1
  end.

Lemma dangling_bytes_memo b trees :
  remembers k trees ->
  (action_result_bytes_are_dangling k b gone walk_tree trees).1 =
  (action_result_bytes_are_dangling k b gone walk_tree ∅).1.
Proof.
  intros Hm. destruct (dangling_bytes_exact b trees Hm) as [Hx _].
  destruct (dangling_bytes_exact b ∅ remembers_empty) as [Hy _]. rewrite <- Hy in Hx.
  destruct (action_result_bytes_are_dangling k b gone walk_tree trees).1,
    (action_result_bytes_are_dangling k b gone walk_tree ∅).1; naive_solver.
Qed.

Lemma dangles_exact path :
  dangles path = false <->
  forall f r, results k !! path = Some f -> parse_result (bytes f) = Some r -> whole k gone walk_tree r.
Proof.
  unfold dangles. destruct (results k !! path) as [f|]; [|naive_solver].
  rewrite (proj1 (dangling_bytes_exact (bytes f) ∅ remembers_empty)). naive_solver.
Qed.

(** A sweep takes exactly the records that dangle. *)
Lemma sweep_results_spec dry entries m trees live removed :
  (forall p, env_access env p = Free) -> NoDup (map entry_path entries) ->
  (forall e, e ∈ entries -> m !! entry_path e = results k !! entry_path e) -> remembers k trees ->
  let bad := List.filter (fun e => dangles (entry_path e)) entries in
  sweep_results env dry gone walk_tree entries (set_results k m) trees live removed =
  Ok (set_results k (if dry then m else foldr delete m (map entry_path bad)),
      fold_left saturating_sub (map entry_size bad) live,
      (removed.1 + Z.of_nat (length bad), removed.2 + sum_sizes bad)).
Proof.
  intros Hfree. revert m trees live removed. induction entries as [|e l IH]; intros m trees live [n b] Hnd Hm Hr.
  { simpl. unfold sum_sizes. simpl. rewrite !Z.add_0_r. by destruct dry. }
  cbn [map] in Hnd. apply NoDup_cons in Hnd as [Hne Hnd].
  assert (forall x, x ∈ l -> entry_path x <> entry_path e) as Hother.
  { intros x Hx Heq. apply Hne. rewrite <- Heq. by apply (list_elem_of_fmap_2 entry_path). }
  cbn [sweep_results List.filter]. cbv zeta in *. unfold action_result_is_dangling. simpl results.
  pose proof (eq_refl (dangles (entry_path e))) as Hd. unfold dangles at 2 in Hd. rewrite Hd. clear Hd.
  rewrite (Hm e) by left. destruct (results k !! entry_path e) as [f|] eqn:Ef.
  2: { cbn [negb]. apply IH; [done| |done]. intros x Hx. apply Hm. by right. }
  change (action_result_bytes_are_dangling (set_results k m)) with (action_result_bytes_are_dangling k).
  pose proof (dangling_bytes_memo (bytes f) trees Hr) as Hmemo.
  destruct (dangling_bytes_exact (bytes f) trees Hr) as [_ Hr'].
  destruct (action_result_bytes_are_dangling k (bytes f) gone walk_tree trees) as [d trees']. simpl in Hmemo, Hr'. subst d.
  destruct (action_result_bytes_are_dangling k (bytes f) gone walk_tree ∅).1 eqn:Ed; cbn [negb].
  2: { apply IH; [done| |done]. intros x Hx. apply Hm. by right. }
  destruct dry.
  - rewrite IH; [|done|intros x Hx; apply Hm; by right|done]. unfold sum_sizes. simpl.
    do 3 f_equal; lia.
  - unfold remove_result. rewrite Hfree. simpl results. rewrite (Hm e) by left. rewrite Ef.
    change (action_result_bytes_are_dangling (set_results k m)) with (action_result_bytes_are_dangling k).
    rewrite Ed. unfold set_results at 1. simpl. fold (set_results k (delete (entry_path e) m)).
    rewrite IH; [|done| |done].
    + rewrite foldr_delete_delete. unfold sum_sizes. simpl. do 3 f_equal; lia.
    + intros x Hx. rewrite lookup_delete_ne by (intros ?; by apply (Hother x)). apply Hm. by right.
Qed.
End sweeps.
