(* ===== verification/Sweep.v ===== *)
(** * What a collection guarantees

    The theorems about [gc_with_mode] of
    [src/crates/mbx-cache-store/src/lib.rs], which [Collector] models: a dry run
    predicts the real run, eviction is least recently used, minimal and
    accounted for, no result is left without its action, metadata and outputs
    (its captured output may be gone), and what a live checkout needs goes last.  All but the last are about runs in which the
    operating system refuses no removal; [acyclic] says that no directory
    object contains itself, and the listing of a directory is any permutation
    of its files. *)

From stdpp Require Import base list gmap sets strings sorting relations.
From Stdlib Require Import ZArith Lia.
From S2P Require Import Prelude Strings Protocol Walk Cas Housekeeping Collector.
Local Open Scope Z_scope.

(** ** Previewing a collection *)

Section previews.
Context `{Hashes} `{Codec} `{StoreCodec} (is_json : string -> bool) (env : Env).
Context (Hfree : forall p, env_access env p = Free).

Lemma remove_record_spec path dirs :
  path ∈ concat (map (fun d => (records d).*1) dirs) ->
  exists dirs', remove_record env path dirs = Ok (Removed, dirs') /\
    forall p, p ∈ concat (map (fun d => (records d).*1) dirs) -> p <> path ->
      p ∈ concat (map (fun d => (records d).*1) dirs').
Proof.
  intros Hin. unfold remove_record. rewrite Hfree.
  set (here := fun d => existsb (fun r => bool_decide (r.1 = path)) (records d)).
  assert (existsb here dirs = true) as ->.
  { apply list_elem_of_In, in_concat in Hin as (l & (d & <- & Hd)%in_map_iff & Hp).
    apply existsb_exists. exists d. split; [done|]. apply in_map_iff in Hp as ([q o] & Hq & Hr).
    apply existsb_exists. exists (q, o). split; [done|]. by apply bool_decide_eq_true. }
  simpl. eexists. split; [done|]. intros p Hp Hne. apply list_elem_of_In, in_concat.
  apply list_elem_of_In, in_concat in Hp as (l & (d & <- & Hd)%in_map_iff & Hp).
  set (d' := if here d then drop_record path d else d).
  assert (In p (records d').*1) as Hp'.
  { unfold d'. destruct (here d); [|done]. apply in_map_iff in Hp as ([q o] & Hq & Hr). apply in_map_iff.
    exists (q, o). split; [done|]. simpl. apply filter_In. split; [done|]. simpl in *. subst q.
    by apply negb_true_iff, bool_decide_eq_false. }
  exists (records d').*1. split; [|done]. apply in_map_iff. exists d'. split; [done|].
  apply filter_In. split.
  - apply in_map_iff. by exists d.
  - apply negb_true_iff, bool_decide_eq_false. intros Heq. by rewrite Heq in Hp'.
Qed.

Lemma drop_stale_spec dry paths dirs n :
  NoDup paths -> (forall p, p ∈ paths -> p ∈ concat (map (fun d => (records d).*1) dirs)) ->
  exists dirs', drop_stale env dry paths dirs n = Ok (dirs', n + Z.of_nat (length paths)) /\
    (dry = true -> dirs' = dirs).
Proof.
  intros Hnd. revert dirs n. induction Hnd as [|p l Hp Hnd IH]; intros dirs n Hin; cbn [drop_stale length].
  { exists dirs. split; [do 2 f_equal; lia|done]. }
  destruct dry.
  - destruct (IH dirs (n + 1)) as (dirs' & -> & Hd); [intros; apply Hin; by right|]. exists dirs'.
    split; [do 2 f_equal; lia|done].
  - destruct (remove_record_spec p dirs) as (dirs1 & -> & Hrest); [apply Hin; left|].
    destruct (IH dirs1 (n + 1)) as (dirs' & -> & _); [|exists dirs'; split; [do 2 f_equal; lia|done]].
    intros q Hq. apply Hrest; [apply Hin; by right|]. intros ->. done.
Qed.

(** Stale records in the order of the scan. *)
Lemma stale_records_sublist probe now dirs s :
  exists l, stale_records (fold_left (scan_dir probe now) dirs s) = stale_records s ++ l /\
    sublist l (concat (map (fun d => (records d).*1) dirs)).
Proof.
  assert (forall i rs s, exists l, stale_records (fold_left (scan_record probe now i) rs s) = stale_records s ++ l /\
    sublist l rs.*1) as Hrs.
  { intros i rs. induction rs as [|[p o] rs IH]; intros s0; simpl.
    { exists []. rewrite app_nil_r. by split. }
    destruct (IH (scan_record probe now i s0 (p, o))) as (l & -> & Hl).
    assert (stale_records (scan_record probe now i s0 (p, o)) = stale_records s0 \/
      stale_records (scan_record probe now i s0 (p, o)) = stale_records s0 ++ [p]) as [->| ->].
    { unfold scan_record. simpl. repeat case_match; auto. }
    - exists l. split; [done|]. by apply sublist_cons.
    - exists (p :: l). rewrite <- app_assoc. split; [done|]. by apply sublist_skip. }
  revert s. induction dirs as [|d dirs IH]; intros s; simpl.
  { exists []. rewrite app_nil_r. by split. }
  destruct (IH (scan_dir probe now s d)) as (l & -> & Hl).
  assert (exists l0, stale_records (scan_dir probe now s d) = stale_records s ++ l0 /\ sublist l0 (records d).*1)
    as (l0 & -> & Hl0).
  { unfold scan_dir. destruct (_ || _); [|apply Hrs]. exists []. rewrite app_nil_r. split; [done|]. apply sublist_nil_l. }
  exists (l0 ++ l). rewrite app_assoc. split; [done|]. by apply sublist_app.
Qed.

Lemma drop_stale_scan dry dirs :
  NoDup (concat (map (fun d => (records d).*1) dirs)) ->
  let stale := stale_records (scan_checkouts (env_probe env) (env_now_secs env) dirs) in
  exists dirs', drop_stale env dry stale dirs 0 = Ok (dirs', Z.of_nat (length stale)) /\
    (dry = true -> dirs' = dirs).
Proof.
  intros Hnd stale.
  destruct (stale_records_sublist (env_probe env) (env_now_secs env) dirs (mkScan ∅ 0 [])) as (l & Hl & Hsub).
  fold (scan_checkouts (env_probe env) (env_now_secs env) dirs) in Hl. fold stale in Hl. simpl in Hl. rewrite Hl.
  apply (drop_stale_spec dry l dirs 0).
  - by eapply sublist_NoDup.
  - intros p Hp. apply list_elem_of_In. eapply sublist_In; [exact Hsub|]. by apply list_elem_of_In.
Qed.

Lemma prune_task_manifests_counts live m dry :
  (prune_task_manifests (env_access env) (env_now env) live dry m).2 =
  (prune_task_manifests (env_access env) (env_now env) live true m).2.
Proof.
  destruct dry; [done|]. rewrite !prune_task_manifests_eq. cbv zeta. cbn [snd]. rewrite prune_manifests_dry.
  destruct (fold_left (prune_manifest _ _ _ false) _ _) as [m' p'] eqn:E.
  apply prune_manifests_real in E as [_ Hp]; [|apply NoDup_fst_map_to_list|by intros [n e] ?%elem_of_map_to_list].
  apply Hp, Hfree.
Qed.

Lemma prune_sessions_counts r s :
  exists p, forall dry, exists s', prune_sessions (env_access env) (env_now env) dry r s = Ok (s', p) /\
    (dry = true -> opens_locks s s').
Proof.
  exists (tally (mkSessionPrune 0 0) (doomed (env_now env) r s (surplus r (session_ids s)) (session_ids s))).
  intros dry. unfold prune_sessions.
  destruct (prune_session_loop_spec (env_access env) (env_now env) r dry (surplus r (session_ids s)) (session_ids s) s
    (mkSessionPrune 0 0) (NoDup_session_ids s) Hfree) as (s' & E & _).
  rewrite E. eexists. split; [done|]. intros ->. by eapply dry_run_opens_locks.
Qed.

(** What is left of a map of files. *)
Definition without_files (m : gmap string File) (l : list Entry) : gmap string File :=
  foldr delete m (map entry_path l).

Lemma evict_over_budget_spec dry s live objects live_bytes max_bytes :
  NoDup (map entry_path objects) -> (forall e, e ∈ objects -> is_Some (cas (disk s) !! entry_path e)) ->
  Forall (fun e => 0 <= entry_size e) objects -> sum_sizes objects <= live_bytes ->
  let rooted := roots is_json s live in
  let gone := if max_bytes <? live_bytes
    then victims max_bytes live_bytes (merge_sort (evict_before rooted) objects) else [] in
  evict_over_budget is_json env s dry live objects live_bytes max_bytes ∅ =
  Ok (mkEvictions (Z.of_nat (length gone)) (sum_sizes gone) (live_bytes - sum_sizes gone),
      if dry then (disk s, list_to_set (map entry_path gone))
      else (set_cas (disk s) (without_files (cas (disk s)) gone), ∅)).
Proof.
  intros Hnd Hin Hsize Hsum rooted. unfold evict_over_budget. fold (roots is_json s live). fold rooted.
  destruct (max_bytes <? live_bytes) eqn:Eb; cbv zeta.
  2: { unfold sum_sizes, without_files. simpl. rewrite Z.sub_0_r. by destruct dry, (disk s). }
  set (sorted := merge_sort (evict_before rooted) objects).
  assert (sorted ≡ₚ objects) as Hperm by apply merge_sort_Permutation.
  assert (Hsorted : sum_sizes sorted <= live_bytes) by (by rewrite Hperm).
  destruct (victims_spec max_bytes live_bytes sorted Hsorted) as (kept & Hsplit & Hfold & _ & _); [by rewrite Hperm|].
  set (gone := victims max_bytes live_bytes sorted) in *. unfold evict_objects.
  set (effect := fun p (st : Disk * gset string) =>
    if dry then (st.1, {[ p ]} ∪ st.2) else (set_cas st.1 (delete p (cas st.1)), st.2)).
  set (ready := fun l (st : Disk * gset string) =>
    NoDup (map entry_path l) /\ forall e, e ∈ l -> is_Some (cas st.1 !! entry_path e)).
  rewrite (evict_loop_victims rooted max_bytes _ effect ready).
  - fold gone. rewrite Hfold. simpl. do 2 f_equal.
    assert (forall l k g, fold_left (fun st e => effect (entry_path e) st) l (k, g) =
      if dry then (k, list_to_set (map entry_path l) ∪ g) else (set_cas k (without_files (cas k) l), g)) as Hl.
    { unfold effect, without_files. destruct dry; induction l as [|e l IH]; intros k g; simpl; try rewrite IH; simpl.
      - by rewrite union_empty_l_L.
      - f_equal. set_solver.
      - by destruct k.
      - unfold set_cas. simpl. by rewrite foldr_delete_delete. }
    rewrite Hl. by rewrite union_empty_r_L.
  - intros e l [k g] [Hnd' Hin']. cbn [map] in Hnd'. apply NoDup_cons in Hnd' as [He Hnd']. simpl in Hin'.
    unfold evict_file, effect, remove. destruct (Hin' e) as [f Hf]; [left|].
    destruct dry; [|rewrite Hf, Hfree]; (split; [done|]); (split; [done|]); simpl; intros x Hx.
    + apply Hin'. by right.
    + rewrite lookup_delete_ne; [apply Hin'; by right|]. intros Heq. apply He. rewrite Heq.
      by apply (list_elem_of_fmap_2 entry_path).
  - split; [by rewrite Hperm|]. intros e. rewrite Hperm. apply Hin.
Qed.

(** Evicting objects and pretending to leave the same results dangling. *)
Lemma lookup_without_files m l p :
  without_files m l !! p = if decide (p ∈ map entry_path l) then None else m !! p.
Proof. apply foldr_delete_lookup. Qed.

Lemma missing_without k l d :
  missing (set_cas k (without_files (cas k) l)) ∅ d = missing k (list_to_set (map entry_path l)) d.
Proof.
  unfold missing. destruct (path_for d) as [p|]; [|done]. simpl. rewrite lookup_without_files.
  rewrite (bool_decide_false (p ∈ ∅)) by set_solver. destruct (decide (p ∈ map entry_path l)) as [Hp|Hp].
  - by rewrite bool_decide_true by (by apply elem_of_list_to_set).
  - by rewrite bool_decide_false by (by rewrite elem_of_list_to_set).
Qed.

Lemma directory_at_without k l d :
  directory_at (set_cas k (without_files (cas k) l)) d = directory_at k d \/
  directory_at (set_cas k (without_files (cas k) l)) d = None /\ missing k (list_to_set (map entry_path l)) d = true.
Proof.
  unfold directory_at, read_object, missing. destruct (path_for d) as [p|]; [|by left]. simpl.
  rewrite lookup_without_files. destruct (decide (p ∈ map entry_path l)) as [Hp|Hp]; [right|by left].
  split; [done|]. by rewrite bool_decide_true by (by apply elem_of_list_to_set).
Qed.

Lemma acyclic_without k l rank : acyclic k rank -> acyclic (set_cas k (without_files (cas k) l)) rank.
Proof.
  intros Hr a b (dir & Hd & Hb). apply Hr. exists dir. split; [|done].
  destruct (directory_at_without k l a) as [<-|[? _]]; congruence.
Qed.

Lemma whole_without k l walk_tree r :
  whole (set_cas k (without_files (cas k) l)) ∅ walk_tree r <-> whole k (list_to_set (map entry_path l)) walk_tree r.
Proof.
  set (k' := set_cas k (without_files (cas k) l)). set (gone := list_to_set (map entry_path l)).
  assert (forall x d, lists k' x d -> lists k x d) as Hlists.
  { intros x d (dir & Hdir & Hd). exists dir. split; [|done].
    destruct (directory_at_without k l x) as [<-|[? _]]; [done|]. unfold k' in Hdir. congruence. }
  assert (forall a b, child k' a b -> child k a b) as Hchild.
  { intros a b (dir & Hdir & Hb). exists dir. split; [|done].
    destruct (directory_at_without k l a) as [<-|[? _]]; [done|]. unfold k' in Hdir. congruence. }
  assert (forall x dir, missing k gone x = false -> directory_at k x = Some dir -> directory_at k' x = Some dir) as Hback.
  { intros x dir Hx Hdir. destruct (directory_at_without k l x) as [Heq|[_ ?]]; unfold k', gone in *; congruence. }
  assert (forall d, missing k' ∅ d = missing k gone d) as Hmiss by (intros; apply missing_without).
  unfold whole. setoid_rewrite Hmiss. split; intros [Hreq Htree]; (split; [done|]).
  - intros Hw root x d Hroot Hx Hd.
    assert (missing k gone root = false) as Hm.
    { rewrite Forall_forall in Hreq. apply Hreq. unfold required_blobs. rewrite Hroot. right. apply elem_of_app. right. left. }
    assert (rtc (child k') root x /\ missing k gone x = false) as [Hx' Hmx].
    { clear Hd. specialize (Htree Hw root). clear Hreq. assert (forall y e, rtc (child k') root y -> lists k' y e -> missing k gone e = false) as Ht
        by (intros; by eapply Htree). clear Htree Hroot. induction Hx as [|root y z (dir & Hdir & Hy) _ IH]; [done|].
      assert (child k' root y) as Hc by (exists dir; split; [by apply Hback|done]).
      destruct IH as [IH1 IH2].
      - apply (Ht root); [done|]. exists dir. split; [by apply Hback|by left].
      - intros w e Hw' He. apply (Ht w); [by eapply rtc_l|done].
      - split; [by eapply rtc_l|done]. }
    apply (Htree Hw root x); [done|done|]. destruct Hd as (dir & Hdir & Hd). exists dir. split; [by apply Hback|done].
  - intros Hw root x d Hroot Hx Hd. apply (Htree Hw root x); [done| |by apply Hlists].
    eapply rtc_subrel; [|exact Hx]. done.
Qed.

Context (Hlisting : forall m, env_listing env m ≡ₚ map_to_list m).

Lemma walk_files_sizes m : Forall (fun e => 0 <= entry_size e) (walk_files env m).
Proof. apply Forall_forall. intros e (p & f & _ & ->)%(elem_of_walk_files env Hlisting). simpl. lia. Qed.

Context (s : Store) (rank : Digest -> nat) (Hrank : acyclic (disk s) rank).
Context (Hrecords : NoDup (concat (map (fun d => (records d).*1) (checkout_dirs s)))).
Context (max_bytes : Z) (retention : SessionRetention).

(** What a collection decides. *)
Definition listed_objects : list Entry := walk_files env (cas (disk s)).
Definition listed_results : list Entry := walk_files env (results (disk s)).
Definition listed_bytes : Z := sum_sizes (listed_objects ++ listed_results).
Definition the_scan : CheckoutScan := scan_checkouts (env_probe env) (env_now_secs env) (checkout_dirs s).
Definition the_roots : gset string := roots is_json s (live_identities the_scan).
Definition evicted_objects : list Entry :=
  if max_bytes <? listed_bytes
  then victims max_bytes listed_bytes (merge_sort (evict_before the_roots) listed_objects) else [].
Definition kept_disk : Disk := set_cas (disk s) (without_files (cas (disk s)) evicted_objects).
Definition walks : bool := 0 <? Z.of_nat (length evicted_objects).
Definition dropped_results : list Entry :=
  List.filter (fun e => dangles kept_disk ∅ walks (entry_path e)) listed_results.

Lemma dangles_without path :
  dangles (disk s) (list_to_set (map entry_path evicted_objects)) walks path = dangles kept_disk ∅ walks path.
Proof.
  pose proof (dangles_exact (disk s) (list_to_set (map entry_path evicted_objects)) walks rank Hrank path) as Hdry.
  pose proof (dangles_exact kept_disk ∅ walks rank (acyclic_without _ _ _ Hrank) path) as Hreal.
  unfold kept_disk in Hreal at 2 3. setoid_rewrite whole_without in Hreal. simpl in Hreal. rewrite <- Hdry in Hreal.
  destruct (dangles (disk s) _ walks path), (dangles kept_disk ∅ walks path); naive_solver.
Qed.

Lemma fold_saturating_sub l live :
  Forall (fun e => 0 <= entry_size e) l -> sum_sizes l <= live ->
  fold_left saturating_sub (map entry_size l) live = live - sum_sizes l.
Proof.
  unfold sum_sizes. revert live. induction l as [|e l IH]; intros live Hn Hs; simpl in *; [lia|].
  apply Forall_cons in Hn as [He Hn].
  assert (0 <= sumZ (map entry_size l)) by (apply sumZ_nonneg, Forall_fmap; done).
  assert (saturating_sub live (entry_size e) = live - entry_size e) as -> by (unfold saturating_sub; lia).
  rewrite IH by (done || lia). lia.
Qed.

Lemma sum_sizes_app l1 l2 : sum_sizes (l1 ++ l2) = sum_sizes l1 + sum_sizes l2.
Proof. unfold sum_sizes. by rewrite map_app, sumZ_app. Qed.

Lemma sum_sizes_nonneg l : Forall (fun e => 0 <= entry_size e) l -> 0 <= sum_sizes l.
Proof. intros Hl. apply sumZ_nonneg, Forall_fmap, Hl. Qed.

Lemma sum_sizes_filter p l : Forall (fun e => 0 <= entry_size e) l -> 0 <= sum_sizes (List.filter p l) <= sum_sizes l.
Proof. unfold sum_sizes. induction 1 as [|e l He _ IH]; simpl; [lia|]. destruct (p e); simpl; lia. Qed.

Lemma evicted_bytes : 0 <= sum_sizes evicted_objects <= sum_sizes listed_objects.
Proof.
  pose proof (walk_files_sizes (cas (disk s))) as Hn. fold listed_objects in Hn.
  pose proof (sum_sizes_nonneg _ Hn). unfold evicted_objects.
  destruct (max_bytes <? listed_bytes); [|unfold sum_sizes at 1 2; simpl; lia].
  set (sorted := merge_sort (evict_before the_roots) listed_objects).
  assert (sorted ≡ₚ listed_objects) as Hperm by apply merge_sort_Permutation.
  pose proof (sum_sizes_nonneg _ (walk_files_sizes (results (disk s)))) as Hr. fold listed_results in Hr.
  destruct (victims_spec max_bytes listed_bytes sorted) as (kept & Hsplit & _).
  { unfold listed_bytes. rewrite sum_sizes_app, Hperm. lia. }
  { by rewrite Hperm. }
  set (gone := victims max_bytes listed_bytes sorted) in *.
  assert (sum_sizes listed_objects = sum_sizes gone + sum_sizes kept) by (by rewrite <- Hperm, <- sum_sizes_app, <- Hsplit).
  rewrite <- Hperm, Hsplit in Hn. apply Forall_app in Hn as [Hn1 Hn2].
  pose proof (sum_sizes_nonneg _ Hn1). pose proof (sum_sizes_nonneg _ Hn2). lia.
Qed.

Lemma gc_spec :
  exists o, forall dry, exists s', gc_with_mode is_json env s max_bytes dry ∅ retention = Ok (o, s') /\
    removed_objects o = Z.of_nat (length evicted_objects) /\
    removed_action_results o = Z.of_nat (length dropped_results) /\
    remaining_bytes o = listed_bytes - sum_sizes evicted_objects - sum_sizes dropped_results /\
    disk s' = (if dry then disk s
               else set_results kept_disk (without_files (results (disk s)) dropped_results)) /\
    (dry = true -> checkout_dirs s' = checkout_dirs s /\ manifest_files s' = manifest_files s /\
       opens_locks (sessions s) (sessions s') /\ staging s' = staging s).
Proof.
  destruct (prune_sessions_counts retention (sessions s)) as [ps Hps].
  eexists. intros dry. unfold gc_with_mode.
  assert (forall l, List.filter (fun e => negb (bool_decide (entry_path e ∈ (∅ : gset string)))) l = l) as Hkeep.
  { induction l as [|e l IH]; [done|]. cbn [List.filter]. rewrite (bool_decide_false (_ ∈ ∅)) by set_solver. cbn [negb]. by rewrite IH. }
  rewrite !Hkeep. fold listed_objects listed_results listed_bytes the_scan.
  destruct (drop_stale_scan dry (checkout_dirs s) Hrecords) as (dirs & Hd & Hdirs). fold the_scan in Hd. rewrite Hd. cbn [mbind result_bind].
  destruct (prune_task_manifests (env_access env) (env_now env) (live_identities the_scan) dry (manifest_files s)) as [ms pm] eqn:Em.
  pose proof (prune_task_manifests_counts (live_identities the_scan) (manifest_files s) dry) as Hpm. rewrite Em in Hpm. simpl in Hpm.
  pose proof (roots_pruned is_json env dry (live_identities the_scan) s) as Hroots. rewrite Em in Hroots. simpl in Hroots.
  pose proof (sum_sizes_nonneg _ (walk_files_sizes (results (disk s)))) as Hrn. fold listed_results in Hrn.
  rewrite evict_over_budget_spec; [|apply (NoDup_walk_files env Hlisting)| |apply walk_files_sizes|].
  2: { intros e (p & f & Hp & ->)%(elem_of_walk_files env Hlisting). simpl. by eexists. }
  2: { unfold listed_bytes. rewrite sum_sizes_app. fold listed_objects. lia. }
  rewrite Hroots. fold the_roots. fold evicted_objects. simpl disk. cbn [mbind result_bind].
  pose proof evicted_bytes as Hev.
  assert (fold_left saturating_sub (map entry_size dropped_results) (listed_bytes - sum_sizes evicted_objects) =
    listed_bytes - sum_sizes evicted_objects - sum_sizes dropped_results) as Hdrop.
  { apply fold_saturating_sub; [apply Forall_forall; intros e He; unfold dropped_results in He|].
    - apply list_elem_of_In, filter_In in He as [He _]. apply (proj1 (Forall_forall _ _) (walk_files_sizes (results (disk s))) e). by apply list_elem_of_In.
    - unfold listed_bytes, dropped_results. rewrite sum_sizes_app.
      pose proof (sum_sizes_filter (fun e => dangles kept_disk ∅ walks (entry_path e)) listed_results (walk_files_sizes _)). lia. }
  assert (forall k gone, acyclic k rank -> results k = results (disk s) ->
    (forall p, dangles k gone walks p = dangles kept_disk ∅ walks p) ->
    sweep_results env dry gone walks listed_results k ∅ (listed_bytes - sum_sizes evicted_objects) (0, 0) =
    Ok (if dry then k else set_results k (without_files (results k) dropped_results),
        listed_bytes - sum_sizes evicted_objects - sum_sizes dropped_results,
        (Z.of_nat (length dropped_results), sum_sizes dropped_results))) as Hsweep.
  { intros k gone Hk Hres Hdang. replace k with (set_results k (results k)) at 1 by (by destruct k).
    rewrite (sweep_results_spec env k gone walks rank Hk dry listed_results (results k) ∅);
      [|done|apply (NoDup_walk_files env Hlisting)|done|apply remembers_empty].
    assert (List.filter (fun e => dangles k gone walks (entry_path e)) listed_results = dropped_results) as ->.
    { apply filter_ext. intros e. apply Hdang. }
    rewrite Hdrop. by destruct dry, k. }
  destruct (Hps dry) as (sess & Hsess & Hstreams). cbn [ev_objects]. fold walks.
  destruct dry; rewrite Hsweep; try done; try apply acyclic_without, Hrank; try apply dangles_without;
    cbn [mbind result_bind]; rewrite Hsess; cbn [mbind result_bind]; rewrite Hpm; eexists; split_and!; try done.
  intros _. simpl. split_and!; [by apply Hdirs| |by apply Hstreams|done].
  rewrite prune_task_manifests_eq in Em. cbv zeta in Em. rewrite prune_manifests_dry in Em. simpl in Em. congruence.
Qed.

(** What is left lists as what was not taken. *)
Lemma walk_files_without m gone kept :
  walk_files env m ≡ₚ gone ++ kept -> walk_files env (without_files m gone) ≡ₚ kept.
Proof.
  intros Hm. pose proof (NoDup_walk_files env Hlisting m) as Hnd. rewrite Hm, map_app in Hnd.
  apply NoDup_app in Hnd as (_ & Hdisj & Hkept). apply NoDup_Permutation.
  - apply (NoDup_fmap_1 entry_path), (NoDup_walk_files env Hlisting).
  - by apply (NoDup_fmap_1 entry_path).
  - intros e. rewrite (elem_of_walk_files env Hlisting). setoid_rewrite lookup_without_files. split.
    + intros (p & f & Hp & ->). destruct (decide (p ∈ map entry_path gone)) as [|Hng]; [done|].
      assert (to_entry (p, f) ∈ gone ++ kept) as [Hg|?]%elem_of_app; [|exfalso; apply Hng|done].
      * rewrite <- Hm. apply (elem_of_walk_files env Hlisting). eauto.
      * by apply (list_elem_of_fmap_2 entry_path gone (to_entry (p, f))).
    + intros He. assert (e ∈ walk_files env m) as (p & f & Hp & ->)%(elem_of_walk_files env Hlisting).
      { rewrite Hm. apply elem_of_app. by right. }
      exists p, f. split; [|done]. rewrite decide_False; [done|]. intros Hg. apply (Hdisj p Hg).
      by apply (list_elem_of_fmap_2 entry_path kept (to_entry (p, f))).
Qed.

(** The bytes a sweep accounts for. *)
Definition disk_bytes (k : Disk) : Z := sum_sizes (walk_files env (cas k) ++ walk_files env (results k)).

Lemma evicted_split :
  exists kept, merge_sort (evict_before the_roots) listed_objects = evicted_objects ++ kept /\
    (kept = [] \/ listed_bytes - sum_sizes evicted_objects <= max_bytes) /\
    (forall before e after, evicted_objects = before ++ e :: after -> max_bytes < listed_bytes - sum_sizes before).
Proof.
  unfold evicted_objects. set (sorted := merge_sort (evict_before the_roots) listed_objects).
  assert (sorted ≡ₚ listed_objects) as Hperm by apply merge_sort_Permutation.
  destruct (Z.ltb_spec max_bytes listed_bytes).
  2: { exists sorted. split_and!; [done|right; unfold sum_sizes; simpl; lia|]. by intros [] ? ?. }
  destruct (victims_spec max_bytes listed_bytes sorted) as (kept & Hsplit & _ & Hk & Hv).
  { unfold listed_bytes. rewrite sum_sizes_app, Hperm.
    pose proof (sum_sizes_nonneg _ (walk_files_sizes (results (disk s)))). unfold listed_results. lia. }
  { rewrite Hperm. apply walk_files_sizes. }
  exists kept. split_and!; [done| |done]. destruct kept; [by left|right]. by apply Hk.
Qed.

Lemma dropped_split : exists kept, listed_results ≡ₚ dropped_results ++ kept.
Proof.
  exists (List.filter (fun e => negb (dangles kept_disk ∅ walks (entry_path e))) listed_results).
  unfold dropped_results. induction listed_results as [|e l IH]; simpl; [done|].
  destruct (dangles kept_disk ∅ walks (entry_path e)); simpl; [by rewrite IH at 1|].
  rewrite IH at 1. apply Permutation_middle.
Qed.

Lemma kept_bytes :
  disk_bytes (set_results kept_disk (without_files (results (disk s)) dropped_results)) =
  listed_bytes - sum_sizes evicted_objects - sum_sizes dropped_results.
Proof.
  destruct evicted_split as (kept & Hk & _). destruct dropped_split as (kept' & Hk').
  assert (listed_objects ≡ₚ evicted_objects ++ kept) as Ho by (by rewrite <- Hk, merge_sort_Permutation).
  unfold disk_bytes, listed_bytes, kept_disk. simpl. rewrite !sum_sizes_app.
  rewrite (walk_files_without _ _ _ Ho), (walk_files_without _ _ _ Hk'), Ho, Hk', !sum_sizes_app. lia.
Qed.

(** C27: A dry run predicts the collection exactly: where the operating system
    refuses no removal, it reports the very outcome -- objects, results,
    records, manifests, streams and bytes -- of the real run on the same
    store.  It leaves every object, result, record, manifest, stream and staged
    import as it was; all it adds is empty, unheld lock files of streams it
    looked at that had none.  [rank] says that no directory object contains
    itself, which content addressing rules out. *)
Theorem dry_run_predicts_collection :
  exists o dry real,
    gc_with_mode is_json env s max_bytes true ∅ retention = Ok (o, dry) /\
    gc_with_mode is_json env s max_bytes false ∅ retention = Ok (o, real) /\
    disk dry = disk s /\ checkout_dirs dry = checkout_dirs s /\ manifest_files dry = manifest_files s /\
    opens_locks (sessions s) (sessions dry) /\ staging dry = staging s.
Proof.
  destruct gc_spec as [o Ho]. destruct (Ho true) as (dry & E & _ & _ & _ & Hd & Hsame).
  destruct (Ho false) as (real & E' & _). exists o, dry, real. by destruct (Hsame eq_refl) as (? & ? & ? & ?).
Qed.

(** The object a path in a map stands for was taken, or stayed. *)
Lemma evicted_elem p f kept :
  listed_objects ≡ₚ evicted_objects ++ kept ->
  cas (disk s) !! p = Some f -> without_files (cas (disk s)) evicted_objects !! p = None ->
  to_entry (p, f) ∈ evicted_objects.
Proof.
  intros Ho Hp. rewrite lookup_without_files. destruct (decide _) as [Hin|]; [intros _|congruence].
  apply list_elem_of_fmap in Hin as (e & -> & He).
  assert (e ∈ listed_objects) as (p' & f' & Hp' & ->)%(elem_of_walk_files env Hlisting) by (rewrite Ho; apply elem_of_app; by left).
  simpl in Hp. by simplify_eq.
Qed.

Lemma evicted_first p f q g :
  cas (disk s) !! p = Some f -> cas kept_disk !! p = None -> cas kept_disk !! q = Some g ->
  (~ protected is_json env s p /\ protected is_json env s q) \/
  ((protected is_json env s p <-> protected is_json env s q) /\ last_used f <= last_used g).
Proof.
  intros Hp Hgone Hq. destruct evicted_split as (kept & Hk & _).
  assert (listed_objects ≡ₚ evicted_objects ++ kept) as Ho by (by rewrite <- Hk, merge_sort_Permutation).
  rewrite <- !elem_of_roots. fold the_scan. fold the_roots.
  assert (to_entry (p, f) ∈ evicted_objects) as Hpe by (by eapply evicted_elem).
  assert (to_entry (q, g) ∈ kept) as Hqe.
  { rewrite <- (walk_files_without _ _ _ Ho). apply (elem_of_walk_files env Hlisting). eauto. }
  pose proof (StronglySorted_merge_sort (evict_before the_roots) listed_objects) as Hs. rewrite Hk in Hs.
  pose proof (StronglySorted_app_1_elem_of _ _ _ _ _ Hs Hpe Hqe) as Hle.
  unfold evict_before in Hle. simpl in Hle. destruct Hle as [[Hx Hy]|[Hx Hy]]; [left|right; split; [|done]].
  - by apply bool_decide_eq_false in Hx; apply bool_decide_eq_true in Hy.
  - by rewrite <- (bool_decide_eq_true (p ∈ the_roots)), <- (bool_decide_eq_true (q ∈ the_roots)), Hx.
Qed.

(** The budget holds, and the last object taken did not fit. *)
Lemma evicted_to_budget :
  let objects := sum_sizes (walk_files env (cas kept_disk)) in
  (cas kept_disk = ∅ \/ objects + sum_sizes listed_results <= max_bytes) /\
  (cas kept_disk = cas (disk s) \/
   exists p f, cas (disk s) !! p = Some f /\ cas kept_disk !! p = None /\
     max_bytes < objects + Z.of_nat (length (bytes f)) + sum_sizes listed_results).
Proof.
  destruct evicted_split as (kept & Hk & Hfit & Hmin).
  assert (listed_objects ≡ₚ evicted_objects ++ kept) as Ho by (by rewrite <- Hk, merge_sort_Permutation).
  assert (sum_sizes kept + sum_sizes listed_results = listed_bytes - sum_sizes evicted_objects) as Hsum
    by (unfold listed_bytes; rewrite sum_sizes_app, Ho, sum_sizes_app; lia).
  assert (sum_sizes (walk_files env (cas kept_disk)) = sum_sizes kept) as Hobj
    by (unfold kept_disk; simpl; by rewrite (walk_files_without _ _ _ Ho)).
  cbv zeta. rewrite Hobj. clear Hobj. split.
  - destruct Hfit as [->|?]; [left|right; lia]. apply map_empty. intros p. simpl.
    destruct (without_files _ _ !! p) as [f|] eqn:Ef; [|done]. exfalso.
    assert (to_entry (p, f) ∈ @nil Entry) as Hx%elem_of_nil; [|done].
    rewrite <- (walk_files_without _ _ _ Ho). apply (elem_of_walk_files env Hlisting). eauto.
  - unfold kept_disk. simpl. destruct evicted_objects as [|x before _] eqn:Ev using rev_ind; [by left|right].
    assert (x ∈ listed_objects) as (p & f & Hp & ->)%(elem_of_walk_files env Hlisting)
      by (rewrite Ho, !elem_of_app, list_elem_of_singleton; auto).
    exists p, f. split; [done|]. split.
    + rewrite lookup_without_files, decide_True; [done|]. rewrite map_app. apply elem_of_app. right. left.
    + specialize (Hmin before (to_entry (p, f)) [] eq_refl).
      assert (sum_sizes [to_entry (p, f)] = Z.of_nat (length (bytes f))) by (unfold sum_sizes; simpl; lia).
      rewrite sum_sizes_app in Hsum. lia.
Qed.

(** C28: Eviction is least recently used, minimal and accounted for to the byte:
    every object taken is unprotected while one kept is protected, or of the
    same class and no younger; what is left of the objects with the results
    fits the budget unless no object is left; the last object taken did not
    fit; and the remaining bytes reported are the bytes on disk.  The operating
    system refuses no removal here. *)
Theorem eviction_is_lru_and_exact :
  exists o s', gc_with_mode is_json env s max_bytes false ∅ retention = Ok (o, s') /\
    remaining_bytes o = disk_bytes (disk s') /\
    cas (disk s') ⊆ cas (disk s) /\
    (forall p f q g, cas (disk s) !! p = Some f -> cas (disk s') !! p = None -> cas (disk s') !! q = Some g ->
       (~ protected is_json env s p /\ protected is_json env s q) \/
       ((protected is_json env s p <-> protected is_json env s q) /\ last_used f <= last_used g)) /\
    (let objects k := sum_sizes (walk_files env (cas k)) in
     let others := sum_sizes (walk_files env (results (disk s))) in
     (cas (disk s') = ∅ \/ objects (disk s') + others <= max_bytes) /\
     (cas (disk s') = cas (disk s) \/
      exists p f, cas (disk s) !! p = Some f /\ cas (disk s') !! p = None /\
        max_bytes < objects (disk s') + Z.of_nat (length (bytes f)) + others)).
Proof.
  destruct gc_spec as [o Ho]. destruct (Ho false) as (s' & E & _ & _ & Hrem & Hd & _).
  exists o, s'. rewrite Hrem, Hd. split; [done|]. split; [by rewrite kept_bytes|].
  change (cas (set_results kept_disk _)) with (cas kept_disk). split_and!.
  - apply map_subseteq_spec. intros p f. simpl. rewrite lookup_without_files. by destruct (decide _).
  - intros p f q g. apply evicted_first.
  - apply evicted_to_budget.
Qed.

Lemma dropped_dangles path f :
  results (disk s) !! path = Some f ->
  path ∈ map entry_path dropped_results <-> dangles kept_disk ∅ walks path = true.
Proof.
  intros Hf. unfold dropped_results. rewrite list_elem_of_In, in_map_iff. setoid_rewrite filter_In. split.
  - by intros (e & <- & _ & ?).
  - intros Hd. exists (to_entry (path, f)). split; [done|]. split; [|done].
    apply list_elem_of_In, (elem_of_walk_files env Hlisting). eauto.
Qed.

(** C26: A collection leaves no result pointing at an object that is gone, as far
    as it looks: where no removal is refused, every readable record left has its
    action, metadata and output root in the store and, when the sweep evicted
    anything, every file and directory below the root; a record it removed
    lacked one of those, and every other record is as it was.  The captured
    output that the metadata names is not looked for
    ([captured_output_can_dangle]). *)
Theorem no_result_is_left_dangling :
  exists o s', gc_with_mode is_json env s max_bytes false ∅ retention = Ok (o, s') /\
    (forall path f r, results (disk s') !! path = Some f -> parse_result (bytes f) = Some r ->
       whole (disk s') ∅ (0 <? removed_objects o) r) /\
    (forall path f, results (disk s) !! path = Some f ->
       results (disk s') !! path = Some f \/
       results (disk s') !! path = None /\
       exists r, parse_result (bytes f) = Some r /\ ~ whole (disk s') ∅ (0 <? removed_objects o) r).
Proof.
  destruct gc_spec as [o Ho]. destruct (Ho false) as (s' & E & Hobj & _ & _ & Hd & _).
  exists o, s'. rewrite Hobj, Hd. fold walks. split; [done|].
  change (whole (set_results kept_disk _)) with (whole kept_disk). cbn [results set_results].
  setoid_rewrite lookup_without_files.
  pose proof (fun path => dangles_exact kept_disk ∅ walks rank (acyclic_without _ _ _ Hrank) path) as Hx. split.
  - intros path f r Hp Hr. destruct (decide _) as [|Hn]; [done|].
    rewrite (dropped_dangles path f Hp), not_true_iff_false in Hn. by apply (proj1 (Hx path) Hn f r).
  - intros path f Hp. destruct (decide _) as [Hin|Hn]; [right|by left]. split; [done|].
    rewrite (dropped_dangles path f Hp) in Hin. destruct (parse_result (bytes f)) as [r|] eqn:Er.
    + exists r. split; [done|]. intros Hw. apply not_false_iff_true in Hin. apply Hin, Hx. intros f' r' Hf' Hr'.
      simpl in Hf'. by simplify_eq.
    + unfold dangles in Hin. simpl in Hin. rewrite Hp in Hin. unfold action_result_bytes_are_dangling in Hin.
      by rewrite Er in Hin.
Qed.
End previews.

(** ** Protection *)

Section protection.
Context `{Hashes} `{Codec} `{StoreCodec} (is_json : string -> bool) (env : Env).

Lemma sweep_keeps_objects dry gone walk_tree entries k trees live removed k' out :
  sweep_results env dry gone walk_tree entries k trees live removed = Ok (k', out.1, out.2) -> cas k' = cas k.
Proof.
  revert k trees live removed. induction entries as [|e l IH]; intros k trees live removed; cbn [sweep_results].
  { by intros [= <- _ _]. }
  destruct (action_result_is_dangling k (entry_path e) gone walk_tree trees) as [[] trees']; cbn [negb]; [|apply IH].
  destruct dry; [apply IH|]. unfold remove_result.
  destruct (env_access env (entry_path e)), (results k !! entry_path e); try done; try apply IH.
  destruct (action_result_bytes_are_dangling _ _ _ _ _).1; [|apply IH]. intros Hk. by apply IH in Hk.
Qed.

(** C25: What a live checkout or a pending export needs goes last: whatever
    removals the operating system refuses, if a collection took an object that
    restoring a needed action reads, then no object nothing needs is left. *)
Theorem protected_objects_go_last s max_bytes retention o s' :
  (forall m, env_listing env m ≡ₚ map_to_list m) ->
  gc_with_mode is_json env s max_bytes false ∅ retention = Ok (o, s') ->
  cas (disk s') ⊆ cas (disk s) /\
  forall p, p ∈ dom (cas (disk s)) -> p ∉ dom (cas (disk s')) -> protected is_json env s p ->
  forall q, q ∈ dom (cas (disk s')) -> protected is_json env s q.
Proof.
  intros Hlisting. unfold gc_with_mode.
  set (objects := List.filter _ (walk_files env (cas (disk s)))).
  set (live := live_identities (scan_checkouts _ _ _)).
  destruct (drop_stale _ _ _ _ _) as [[dirs n]|]; [|done]. cbn [mbind result_bind].
  destruct (prune_task_manifests _ _ _ _ _) as [ms pm] eqn:Em.
  pose proof (roots_pruned is_json env false live s) as Hroots. rewrite Em in Hroots. cbn [fst] in Hroots.
  destruct (evict_over_budget _ _ _ _ _ _ _ _ _) as [[ev [k gone]]|] eqn:Eev; [|done]. cbn [mbind result_bind].
  destruct (sweep_results _ _ _ _ _ _ _ _ _) as [[[k' rem] [a b]]|] eqn:Esw; [|done]. cbn [mbind result_bind].
  apply (sweep_keeps_objects _ _ _ _ _ _ _ _ k' (rem, (a, b))) in Esw.
  destruct (prune_sessions _ _ _ _ _) as [[sess ps]|]; [|done]. cbn [mbind result_bind]. intros [= <- <-]. cbn [disk].
  rewrite Esw. unfold evict_over_budget in Eev. fold (roots is_json (set_manifests s ms) live) in Eev.
  destruct (_ <? _); [|by simplify_eq]. rewrite Hroots in Eev. unfold evict_objects in Eev.
  apply evict_loop_real in Eev as (-> & _ & Hsub & Hp); [|apply StronglySorted_merge_sort; apply _].
  split; [done|]. intros p Hin Hout Hprot q Hq. apply elem_of_roots in Hprot.
  destruct (Hp p Hin Hout Hprot) as [_ Hall].
  assert (q ∈ dom (cas (disk s))) as [f Hf]%elem_of_dom by (by apply (subseteq_dom _ _ Hsub)).
  apply elem_of_roots. destruct (Hall (to_entry (q, f))) as [?|?]; [|done|done].
  rewrite merge_sort_Permutation. apply list_elem_of_In, filter_In. split.
  - unfold walk_files. apply in_map. rewrite Hlisting. by apply list_elem_of_In, elem_of_map_to_list.
  - simpl. by rewrite (bool_decide_false (_ ∈ ∅)) by set_solver.
Qed.
End protection.

(** ** A concrete store *)

#[local] Existing Instances Demo.hashes Demo.codec Demo.codec_laws.

Module SweepDemo.
#[export] Instance store_codec : StoreCodec := {| parse_metadata := fun _ => None; parse_descriptor := fun _ => None |}.

Definition is_json (_ : string) : bool := true.
Definition env : Env :=
  mkEnv (seconds 100) (Some 100) (fun _ => mkProbes (Some true) (Found 1) []) (fun _ => Free) map_to_list.
Definition prediction : ActionPrediction := mkPrediction (Demo.digest 9) (Demo.digest 0) "rustc" "{}".
(** A live checkout predicts the stored result; object 3 belongs to nothing. *)
Definition store : Store :=
  mkStore
    (mkDisk (<[ Demo.path 3 := mkFile [1; 2; 3] (Some 50) None ]> (cas Demo.disk))
       {[ Demo.record := Demo.old (canonical_json Demo.the_result) ]})
    [mkCheckoutDir zeros true [("a"%string, Some (mkCheckout 1 "/w" "/w/target" 90)); ("b"%string, Some (mkCheckout 1 "/v" "/v/target" 90))]]
    (mkManifests {[ (zeros ++ ".json")%string := mkListed true 10 (Some 0) ]} ∅)
    {[ zeros := mkManifest 1 zeros [prediction] ]} [] (mkSessions ∅ ∅) ∅.

(** What a run reports and leaves. *)
Definition outcome (r : result GcError (GcOutcome * Store)) : GcOutcome :=
  match r with Ok (o, _) => o | Err _ => no_outcome end.
Definition left (r : result GcError (GcOutcome * Store)) : Disk :=
  match r with Ok (_, s) => disk s | Err _ => mkDisk ∅ ∅ end.

Lemma no_cycles : acyclic (disk store) (fun _ => 0%nat).
Proof.
  intros a b (dir & Hdir & Hb). exfalso. unfold directory_at in Hdir. destruct (read_object (disk store) a) as [c|]; [|done].
  simpl in Hdir. repeat case_match; simplify_eq. simpl in Hb. by apply elem_of_nil in Hb.
Qed.

Lemma distinct_records : NoDup (concat (map (fun d => (records d).*1) (checkout_dirs store))).
Proof. apply (bool_decide_eq_true_1 _). vm_compute. reflexivity. Qed.
End SweepDemo.

#[local] Existing Instances SweepDemo.store_codec.

(** A field of a result is found by running. *)
Ltac reads_off H f := apply (f_equal f) in H; cbn [SweepDemo.outcome SweepDemo.left] in H; rewrite <- H; vm_compute; reflexivity.

Lemma dry_run_predicts_collection_witness :
  exists o dry real,
    gc_with_mode SweepDemo.is_json SweepDemo.env SweepDemo.store 2 true ∅ default_retention = Ok (o, dry) /\
    gc_with_mode SweepDemo.is_json SweepDemo.env SweepDemo.store 2 false ∅ default_retention = Ok (o, real) /\
    removed_objects o = 3.
Proof.
  destruct (dry_run_predicts_collection SweepDemo.is_json SweepDemo.env (fun _ => eq_refl) (fun _ => reflexivity _)
    SweepDemo.store _ SweepDemo.no_cycles SweepDemo.distinct_records 2 default_retention)
    as (o & dry & real & H1 & H2 & _).
  exists o, dry, real. split; [done|]. split; [done|].
  reads_off H1 (fun r => removed_objects (SweepDemo.outcome r)).
Defined.

Lemma eviction_is_lru_and_exact_witness :
  exists o s', gc_with_mode SweepDemo.is_json SweepDemo.env SweepDemo.store 4 false ∅ default_retention = Ok (o, s') /\
    remaining_bytes o = 4 /\ disk_bytes SweepDemo.env (disk s') = 4 /\
    cas (disk s') !! Demo.path 3 = None /\ protected SweepDemo.is_json SweepDemo.env SweepDemo.store (Demo.path 1).
Proof.
  destruct (eviction_is_lru_and_exact SweepDemo.is_json SweepDemo.env (fun _ => eq_refl) (fun _ => reflexivity _)
    SweepDemo.store _ SweepDemo.no_cycles SweepDemo.distinct_records 4 default_retention)
    as (o & s' & Hgc & Hrem & _ & Hlru & _).
  assert (remaining_bytes o = 4) as Hfour.
  { reads_off Hgc (fun r => remaining_bytes (SweepDemo.outcome r)). }
  assert (cas (disk s') !! Demo.path 3 = None) as Hgone.
  { reads_off Hgc (fun r => cas (SweepDemo.left r) !! Demo.path 3). }
  assert (cas (disk s') !! Demo.path 1 = Some (Demo.old [7])) as Hkept.
  { reads_off Hgc (fun r => cas (SweepDemo.left r) !! Demo.path 1). }
  exists o, s'. split_and!; [done|done|congruence|done|].
  destruct (Hlru (Demo.path 3) (mkFile [1; 2; 3] (Some 50) None) (Demo.path 1) (Demo.old [7]))
    as [[_ ?]|[_ Hle]]; [vm_compute; reflexivity|done|done|done|].
  exfalso. vm_compute in Hle. by apply Hle.
Defined.

Lemma no_result_is_left_dangling_witness :
  exists o s', gc_with_mode SweepDemo.is_json SweepDemo.env SweepDemo.store 2 false ∅ default_retention = Ok (o, s') /\
    results (disk s') !! Demo.record = None /\ ~ whole (disk s') ∅ true Demo.the_result.
Proof.
  destruct (no_result_is_left_dangling SweepDemo.is_json SweepDemo.env (fun _ => eq_refl) (fun _ => reflexivity _)
    SweepDemo.store _ SweepDemo.no_cycles SweepDemo.distinct_records 2 default_retention)
    as (o & s' & Hgc & _ & Hgone).
  assert (0 <? removed_objects o = true /\ results (disk s') !! Demo.record = None) as [Hw Hrec].
  { split.
    - reads_off Hgc (fun r => 0 <? removed_objects (SweepDemo.outcome r)).
    - reads_off Hgc (fun r => results (SweepDemo.left r) !! Demo.record). }
  exists o, s'. split_and!; [done|done|]. rewrite Hw in Hgone.
  destruct (Hgone Demo.record (Demo.old (canonical_json Demo.the_result))) as [?|(_ & r & Hr & Hn)];
    [vm_compute; reflexivity|congruence|].
  pose proof (parse_canonical Demo.the_result) as Hp. change (parse_result (canonical_json Demo.the_result) = Some r) in Hr.
  rewrite Hp in Hr. by injection Hr as <-.
Defined.

Lemma protected_objects_go_last_witness :
  exists o s', gc_with_mode SweepDemo.is_json SweepDemo.env SweepDemo.store 2 false ∅ default_retention = Ok (o, s') /\
    cas (disk s') !! Demo.path 1 = None /\
    protected SweepDemo.is_json SweepDemo.env SweepDemo.store (Demo.path 0).
Proof.
  assert (is_ok (gc_with_mode SweepDemo.is_json SweepDemo.env SweepDemo.store 2 false ∅ default_retention) = true)
    as Hok by (vm_compute; reflexivity).
  destruct (gc_with_mode SweepDemo.is_json SweepDemo.env SweepDemo.store 2 false ∅ default_retention) as [[o s']|] eqn:E;
    [clear Hok|discriminate Hok].
  destruct (protected_objects_go_last SweepDemo.is_json SweepDemo.env SweepDemo.store 2 default_retention o s'
    (fun _ => reflexivity _) E) as [_ Hp].
  assert (cas (disk s') !! Demo.path 1 = None) as Hgone
    by reads_off E (fun r => cas (SweepDemo.left r) !! Demo.path 1).
  assert (cas (disk s') !! Demo.path 0 = Some (Demo.old [])) as Hkept
    by reads_off E (fun r => cas (SweepDemo.left r) !! Demo.path 0).
  exists o, s'. split_and!; [done|done|]. apply (Hp (Demo.path 1)).
  - apply elem_of_dom. eexists. vm_compute. reflexivity.
  - by apply not_elem_of_dom.
  - apply elem_of_roots, (bool_decide_eq_true_1 _). vm_compute. reflexivity.
  - apply elem_of_dom. by eexists.
Defined.

(** ** What a collection does not look for *)

Module SilentDemo.
(** Metadata whose output is object 3. *)
#[export] Instance store_codec : StoreCodec := {|
  parse_metadata := fun b => match b with [5] => Some (mkMetadata 1 "rustc" (Demo.digest 3) (Demo.digest 0)) | _ => None end;
  parse_descriptor := fun _ => None |}.

Definition listed : ActionResult := mkResult (Demo.digest 0) (Some (Demo.digest 1)) None 1.
(** The output is the object used longest ago. *)
Definition store : Store :=
  mkStore
    (mkDisk (<[ Demo.path 0 := mkFile [] (Some 50) None ]> (<[ Demo.path 1 := mkFile [5] (Some 50) None ]>
       {[ Demo.path 3 := mkFile [1; 2; 3] (Some 10) None ]}))
       {[ Demo.record := Demo.old (canonical_json listed) ]})
    [] (mkManifests ∅ ∅) ∅ [] (mkSessions {[ "1"%string := mkListed true 7 (Some 0) ]} ∅) ∅.

(** An evicted output leaves its result listed, and restoring it fails. *)
Example captured_output_can_dangle :
  exists o s', gc_with_mode SweepDemo.is_json SweepDemo.env store 4 false ∅ (mkRetention None None) = Ok (o, s') /\
    results (disk s') !! Demo.record = Some (Demo.old (canonical_json listed)) /\
    restores (disk s') listed (Demo.digest 3) /\ missing (disk s') ∅ (Demo.digest 3) = true.
Proof.
  assert (is_ok (gc_with_mode SweepDemo.is_json SweepDemo.env store 4 false ∅ (mkRetention None None)) = true)
    as Hok by (vm_compute; reflexivity).
  destruct (gc_with_mode SweepDemo.is_json SweepDemo.env store 4 false ∅ (mkRetention None None)) as [[o s']|] eqn:E;
    [clear Hok|discriminate Hok].
  exists o, s'. split_and!; [done|reads_off E (fun r => results (SweepDemo.left r) !! Demo.record)| |].
  - right. right. left. exists (Demo.digest 1), (mkMetadata 1 "rustc" (Demo.digest 3) (Demo.digest 0)).
    split_and!; [done| |by left].
    reads_off E (fun r => read_object (SweepDemo.left r) (Demo.digest 1) ≫= parse_metadata).
  - reads_off E (fun r => missing (SweepDemo.left r) ∅ (Demo.digest 3)).
Qed.

(** A dry run makes the lock file of a finished stream. *)
Example dry_run_makes_locks :
  exists o s', gc_with_mode SweepDemo.is_json SweepDemo.env store 9 true ∅ (mkRetention None (Some 0%nat)) = Ok (o, s') /\
    session_locks (sessions store) !! "1"%string = None /\ session_locks (sessions s') !! "1"%string = Some false.
Proof.
  assert (is_ok (gc_with_mode SweepDemo.is_json SweepDemo.env store 9 true ∅ (mkRetention None (Some 0%nat))) = true)
    as Hok by (vm_compute; reflexivity).
  destruct (gc_with_mode SweepDemo.is_json SweepDemo.env store 9 true ∅ (mkRetention None (Some 0%nat))) as [[o s']|] eqn:E;
    [clear Hok|discriminate Hok].
  exists o, s'. split_and!; [done|done|].
  reads_off E (fun r : result GcError (GcOutcome * Store) =>
    match r with Ok (_, s) => session_locks (sessions s) !! "1"%string | Err _ => None end).
Qed.

End SilentDemo.
