(* ===== verification/Compilers.v ===== *)
(** * Dropping the results of unused compilers

    Models, from [src/crates/mbx-cache-store/src/lib.rs], the pass that removes
    what compilers no longer in use cached: [rustc_version_of],
    [names_compiler], [stale_compilers_pass], [gc_compilers] and the preview
    [gc_dry_run_after_compilers_with_sessions] of that pass followed by a
    collection.  Whitespace is Unicode's, on UTF-8 bytes, as [str::trim] and
    [str::split_whitespace] have it.

    The theorems: only results of a compiler that is named or has gone unused
    are removed, the most recently used compiler is not among the unused, a
    result that is kept keeps every object it needs, and a dry run plans
    exactly what a real run removes. *)

From stdpp Require Import base list gmap sets strings sorting relations.
From Stdlib Require Import Ascii ZArith Lia.
From S2P Require Import Prelude Strings Protocol Walk Cas Housekeeping Collector.
Local Open Scope Z_scope.

(** ** Naming a compiler *)

(** The characters of UTF-8 text, each as its bytes. *)
Definition is_continuation (a : Ascii.ascii) : bool := (N.land (Ascii.N_of_ascii a) 192 =? 128)%N.

Fixpoint chars_from (s : string) : string * list string :=
  match s with
  | EmptyString => (EmptyString, [])
  | String a s =>
      let '(tail, l) := chars_from s in
      if is_continuation a then (String a tail, l) else (EmptyString, String a tail :: l)
  end.

Definition chars (s : string) : list string := (chars_from s).2.

Definition code_units (c : string) : list N := map Ascii.N_of_ascii (String.list_ascii_of_string c).

(** [char::is_whitespace]. *)
Definition is_whitespace (c : string) : bool :=
  match code_units c with
  | [a] => ((9 <=? a) && (a <=? 13) || (a =? 32))%N
  | [194; b] => ((b =? 133) || (b =? 160))%N
  | [225; b; c] => ((b =? 154) && (c =? 128))%N
  | [226; b; c] =>
      ((b =? 128) && ((128 <=? c) && (c <=? 138) || (c =? 168) || (c =? 169) || (c =? 175)) ||
       (b =? 129) && (c =? 159))%N
  | [227; b; c] => ((b =? 128) && (c =? 128))%N
  | _ => false
  end%N.

Fixpoint drop_white (l : list string) : list string :=
  match l with c :: r => if is_whitespace c then drop_white r else l | [] => [] end.

Fixpoint take_word (l : list string) : list string :=
  match l with c :: r => if is_whitespace c then [] else c :: take_word r | [] => [] end.

Definition text (l : list string) : string := fold_right String.append EmptyString l.

(** [str::trim]. *)
Definition trim (s : string) : string := text (reverse (drop_white (reverse (drop_white (chars s))))).

(** The first item of [str::split_whitespace]. *)
Definition first_word (s : string) : option string :=
  match take_word (drop_white (chars s)) with [] => None | w => Some (text w) end.

Definition names_compiler (wanted version : string) : bool :=
  let wanted := trim wanted in
  let wanted := default wanted (strip_prefix "rustc " wanted) in
  if bool_decide (wanted = EmptyString) then false
  else
    let line := trim (head_of_split ";"%char version) in
    let line := default line (strip_prefix "rustc " line) in
    bool_decide (line = wanted) || bool_decide (first_word line = Some wanted).

(** ** Attribution *)

Record CompilerSelection := mkSelection { selection_age : option Z; release : option string }.

Record Attributed := mkAttributed { att_entry : Entry; att_action : Digest }.

(** [max_by_key]: the last of the greatest. *)
Fixpoint max_by_key {A} (key : A -> option Z) (l : list A) : option A :=
  match l with
  | [] => None
  | x :: l =>
      match max_by_key key l with
      | None => Some x
      | Some y =>
          match key x, key y with
          | Some a, Some b => if b <? a then Some x else Some y
          | Some _, None => Some x
          | None, _ => Some y
          end
      end
  end.

Definition latest (l : list Attributed) : option Z :=
  match map (fun r => entry_used (att_entry r)) l with
  | [] => None
  | x :: l => Some (fold_left Z.max l x)
  end.

Section compilers.
Context `{Hashes} `{Codec} `{StoreCodec} (is_json : string -> bool) (env : Env).

Definition rustc_version_of (k : Disk) (a : Digest) : option string :=
  match path_for a with
  | Err _ => None
  | Ok p =>
      f ← cas k !! p;
      '(kind, version) ← parse_descriptor (bytes f);
      kind ← kind;
      if bool_decide (kind = "rustc"%string) then version else None
  end.

(** The first loop: results by compiler, and those of no compiler. *)
Definition attribute (k : Disk) (acc : gmap string (list Attributed) * list Digest) (e : Entry)
    : gmap string (list Attributed) * list Digest :=
  let '(by_version, unattributed) := acc in
  match f ← results k !! entry_path e; parse_result (bytes f) with
  | None => acc
  | Some r =>
      match rustc_version_of k (res_action r) with
      | Some v =>
          (<[ v := default [] (by_version !! v) ++ [mkAttributed e (res_action r)] ]> by_version, unattributed)
      | None => (by_version, unattributed ++ [res_action r])
      end
  end.

(** [SystemTime::now().checked_sub(max_age)], or the epoch. *)
Definition cutoff_of (now max_age : Z) : Z :=
  if now - max_age <? - seconds (2 ^ 63) then 0 else now - max_age.

Definition version_is_idle (sel : CompilerSelection) (newest : option string)
    (v : string) (l : list Attributed) : bool :=
  match selection_age sel, latest l with
  | Some age, Some used => (used <? cutoff_of (env_now env) age) && negb (bool_decide (newest = Some v))
  | _, _ => false
  end.

Definition version_is_named (sel : CompilerSelection) (v : string) : bool :=
  is_some_and (fun wanted => names_compiler wanted v) (release sel).

(** The second loop: what is stale, and the actions that are kept. *)
Definition sort_version (sel : CompilerSelection) (newest : option string)
    (acc : list Attributed * list Digest) (x : string * list Attributed) : list Attributed * list Digest :=
  if version_is_idle sel newest x.1 x.2 || version_is_named sel x.1
  then (acc.1 ++ x.2, acc.2) else (acc.1, acc.2 ++ map att_action x.2).

(** A removal that counts: the outcome, the planned paths and the disk. *)
Definition Pass : Type := GcOutcome * gset string * Disk.

Definition count_result (o : GcOutcome) (size : Z) : GcOutcome :=
  mkOutcome (removed_objects o) (removed_action_results o + 1) (removed_checkout_records o)
    (removed_task_manifests o) (removed_session_streams o) (removed_bytes o + size) (remaining_bytes o).
Definition count_object (o : GcOutcome) (size : Z) : GcOutcome :=
  mkOutcome (removed_objects o + 1) (removed_action_results o) (removed_checkout_records o)
    (removed_task_manifests o) (removed_session_streams o) (removed_bytes o + size) (remaining_bytes o).

Fixpoint drop_results (dry_run : bool) (stale : list Attributed) (st : Pass) : result GcError Pass :=
  let '(o, planned, k) := st in
  match stale with
  | [] => Ok st
  | r :: stale =>
      let path := entry_path (att_entry r) in
      let counted := (count_result o (entry_size (att_entry r)), {[ path ]} ∪ planned) in
      if dry_run then drop_results dry_run stale (counted, k)
      else
        match remove (env_access env) path (results k) with
        | Err e => Err e
        | Ok (Removed, m) => drop_results dry_run stale (counted, set_results k m)
        | Ok (_, m) => drop_results dry_run stale (o, planned, set_results k m)
        end
  end.

Fixpoint drop_objects (dry_run : bool) (paths : list string) (st : Pass) : result GcError Pass :=
  let '(o, planned, k) := st in
  match paths with
  | [] => Ok st
  | path :: paths =>
      match cas k !! path with
      | None => drop_objects dry_run paths st
      | Some f =>
          let counted := (count_object o (Z.of_nat (length (bytes f))), {[ path ]} ∪ planned) in
          if dry_run then drop_objects dry_run paths (counted, k)
          else
            match remove (env_access env) path (cas k) with
            | Err e => Err e
            | Ok (Removed, m) => drop_objects dry_run paths (counted, set_cas k m)
            | Ok (_, m) => drop_objects dry_run paths (o, planned, set_cas k m)
            end
      end
  end.

(** What a pass decides: the stale results, and the actions that keep theirs. *)
Definition decide_stale (s : Store) (sel : CompilerSelection) : list Attributed * list Digest :=
  let k := disk s in
  let '(by_version, unattributed) := fold_left (attribute k) (walk_files env (results k)) (∅, []) in
  let newest := fst <$> max_by_key (fun x => latest x.2) (entries by_version) in
  let '(stale, kept) := fold_left (sort_version sel newest) (entries by_version) ([], unattributed) in
  let pending := grouped_receipt_actions is_json s in
  let pinned := List.filter (fun r => bool_decide (att_action r ∈ pending)) stale in
  (List.filter (fun r => negb (bool_decide (att_action r ∈ pending))) stale, kept ++ map att_action pinned).

Definition stale_compilers_pass (s : Store) (sel : CompilerSelection) (dry_run : bool) : result GcError Pass :=
  let k := disk s in
  let '(stale, kept_actions) := decide_stale s sel in
  if bool_decide (stale = []) then Ok (no_outcome, ∅, k)
  else
    let doomed := rooted_action_objects k (map att_action stale) in
    let kept := rooted_action_objects k kept_actions in
    st ← drop_results dry_run stale (no_outcome, ∅, k);
    drop_objects dry_run (elements (doomed ∖ kept)) st.

Definition gc_compilers (s : Store) (sel : CompilerSelection) (dry_run : bool) : result GcError GcOutcome :=
  r ← stale_compilers_pass s sel dry_run; Ok r.1.1.

Definition gc_dry_run_after_compilers_with_sessions (s : Store) (max_bytes : Z) (sel : CompilerSelection)
    (retention : SessionRetention) : result GcError GcOutcome :=
  '(stale, planned, _) ← stale_compilers_pass s sel true;
  '(budget, _) ← gc_with_mode is_json env s max_bytes true planned retention;
  Ok (mkOutcome (removed_objects stale + removed_objects budget)
        (removed_action_results stale + removed_action_results budget)
        (removed_checkout_records stale + removed_checkout_records budget)
        (removed_task_manifests stale + removed_task_manifests budget)
        (removed_session_streams stale + removed_session_streams budget)
        (removed_bytes stale + removed_bytes budget) (remaining_bytes budget)).
End compilers.

(** ** Attribution, as a relation *)

Lemma max_by_key_spec {A} (key : A -> option Z) l y :
  max_by_key key l = Some y -> (forall x, x ∈ l -> is_Some (key x)) ->
  y ∈ l /\ forall x a b, x ∈ l -> key x = Some a -> key y = Some b -> a <= b.
Proof.
  revert y. induction l as [|x l IH]; intros y; simpl; [done|]. intros Hy Hsome.
  destruct (max_by_key key l) as [z|] eqn:Ez.
  - destruct (IH z eq_refl) as [Hz Hmax]; [intros w Hw; apply Hsome; by right|].
    destruct (Hsome x) as [a Ha]; [left|]. destruct (Hsome z) as [b Hb]; [by right|]. rewrite Ha, Hb in Hy.
    destruct (Z.ltb_spec b a); simplify_eq.
    + split; [left|]. intros w c d [->|Hw]%elem_of_cons Hc Hd; [by simplify_eq; lia|].
      specialize (Hmax w c b Hw Hc Hb). simplify_eq. lia.
    + split; [by right|]. intros w c d [->|Hw]%elem_of_cons Hc Hd; [simplify_eq; lia|by apply (Hmax w)].
  - simplify_eq. assert (l = []) as ->.
    { destruct l as [|w l]; [done|]. simpl in Ez. destruct (max_by_key key l); [|done]. by repeat case_match. }
    split; [left|]. intros w a b ->%list_elem_of_singleton Ha Hb. simplify_eq. lia.
Qed.

Lemma max_by_key_some {A} (key : A -> option Z) l : l <> [] -> is_Some (max_by_key key l).
Proof. destruct l as [|x l]; [done|]. intros _. simpl. destruct (max_by_key key l); repeat case_match; by eexists. Qed.

Lemma fold_max_spec l x : x <= fold_left Z.max l x /\ (forall y, y ∈ l -> y <= fold_left Z.max l x) /\
  (fold_left Z.max l x = x \/ fold_left Z.max l x ∈ l).
Proof.
  revert x. induction l as [|y l IH]; intros x; simpl; [split_and!; [lia|by intros ? ?%elem_of_nil|by left]|].
  destruct (IH (Z.max x y)) as (Hx & Hl & Hin). split_and!; [lia| |].
  - intros z [->|Hz]%elem_of_cons; [lia|by apply Hl].
  - destruct Hin as [->|?]; [|right; by right]. destruct (Z.max_spec x y) as [[_ ->]|[_ ->]]; [right; left|by left].
Qed.

Lemma latest_spec l m :
  latest l = Some m ->
  (exists r, r ∈ l /\ entry_used (att_entry r) = m) /\ forall r, r ∈ l -> entry_used (att_entry r) <= m.
Proof.
  unfold latest. destruct l as [|r l]; simpl; [done|]. intros [= <-].
  destruct (fold_max_spec (map (fun r => entry_used (att_entry r)) l) (entry_used (att_entry r))) as (Hx & Hl & Hin). split.
  - destruct Hin as [Heq|Hin]; [exists r; split; [left|done]|].
    apply list_elem_of_fmap in Hin as (q & Hq & Hin). exists q. split; [by right|done].
  - intros q [->|Hq]%elem_of_cons; [done|]. apply Hl. by apply (list_elem_of_fmap_2 (fun r => entry_used (att_entry r))).
Qed.

Section attribution.
Context `{Hashes} `{Codec} `{StoreCodec} (k : Disk).

Definition record_at (e : Entry) : option ActionResult := f ← results k !! entry_path e; parse_result (bytes f).

(** A listed record of a compiler. *)
Definition attributes (l : list Entry) (v : string) (a : Attributed) : Prop :=
  exists r, att_entry a ∈ l /\ record_at (att_entry a) = Some r /\ rustc_version_of k (res_action r) = Some v /\
    att_action a = res_action r.

Definition all_attributed (by_version : gmap string (list Attributed)) : list Attributed :=
  concat (map snd (map_to_list by_version)).

(** What the first loop has found after some entries. *)
Definition attributed (l : list Entry) (acc : gmap string (list Attributed) * list Digest) : Prop :=
  (forall v x, acc.1 !! v = Some x -> x <> []) /\
  (forall v a, a ∈ default [] (acc.1 !! v) <-> attributes l v a) /\
  (forall a, a ∈ acc.2 <-> exists e r, e ∈ l /\ record_at e = Some r /\ rustc_version_of k (res_action r) = None /\
     a = res_action r) /\
  all_attributed acc.1 ⊆+ omap (fun e => mkAttributed e ∘ res_action <$> record_at e) l.

Lemma all_attributed_push by_version v a :
  all_attributed (<[ v := default [] (by_version !! v) ++ [a] ]> by_version) ≡ₚ a :: all_attributed by_version.
Proof.
  unfold all_attributed. destruct (by_version !! v) as [x|] eqn:Ex; simpl.
  - rewrite <- (insert_delete_id by_version v x Ex) at 2. rewrite <- (insert_delete_eq by_version).
    rewrite !map_to_list_insert by apply lookup_delete_eq. simpl. rewrite <- app_assoc. simpl. by rewrite Permutation_middle.
  - rewrite map_to_list_insert by done. done.
Qed.

Lemma attribute_step l e acc :
  attributed l acc -> attributed (l ++ [e]) (attribute k acc e).
Proof.
  destruct acc as [bv un]. intros (Hne & Hbv & Hun & Hsub). simpl in *. unfold attribute. fold (record_at e).
  assert (forall v a, attributes (l ++ [e]) v a <-> attributes l v a \/
    exists r, att_entry a = e /\ record_at e = Some r /\ rustc_version_of k (res_action r) = Some v /\ att_action a = res_action r) as Hsplit.
  { intros v a. unfold attributes. setoid_rewrite elem_of_app. setoid_rewrite list_elem_of_singleton. split.
    - intros (r & [?| ->] & ?); [left; eauto|right; eauto].
    - intros [(r & ? & ?)|(r & <- & ?)]; eauto. }
  destruct (record_at e) as [r|] eqn:Er; [destruct (rustc_version_of k (res_action r)) as [v|] eqn:Ev|];
    unfold attributed; simpl; rewrite omap_app; simpl; rewrite Er; simpl; rewrite ?app_nil_r.
  - split_and!.
    + intros v' x. destruct (decide (v = v')) as [<-|Hn]; [rewrite lookup_insert_eq|rewrite lookup_insert_ne by done; apply Hne].
      intros [= <-] Hx. by destruct (default [] (bv !! v)).
    + intros v' a. rewrite Hsplit, <- Hbv. destruct (decide (v = v')) as [<-|Hn].
      * rewrite lookup_insert_eq. simpl. rewrite elem_of_app, list_elem_of_singleton. split.
        -- intros [?| ->]; [by left|right]. exists r. done.
        -- intros [?|(r' & <- & [= <-] & _ & ?)]; [by left|right]. destruct a. simpl in *. congruence.
      * rewrite lookup_insert_ne by done. split; [by left|]. intros [?|(r' & _ & [= <-] & ? & _)]; [done|congruence].
    + intros a. rewrite Hun. setoid_rewrite elem_of_app. setoid_rewrite list_elem_of_singleton. split.
      * intros (e' & r' & ? & ?). eauto 10.
      * intros (e' & r' & [?| ->] & ? & ? & ?); [eauto 10|congruence].
    + rewrite all_attributed_push, Permutation_app_comm. simpl. by apply submseteq_skip.
  - split_and!; [done| | |].
    + intros v' a. rewrite Hsplit, <- Hbv. split; [by left|]. intros [?|(r' & _ & [= <-] & ? & _)]; [done|congruence].
    + intros a. setoid_rewrite elem_of_app. setoid_rewrite list_elem_of_singleton. rewrite Hun. split.
      * intros [(e' & r' & ? & ?)| ->]; [eauto 10|]. exists e, r. auto.
      * intros (e' & r' & [?| ->] & ? & ? & ->); [left; eauto 10|right; congruence].
    + by apply submseteq_inserts_r.
  - split_and!; [done| | |done].
    + intros v' a. rewrite Hsplit, <- Hbv. split; [by left|]. intros [?|(r' & _ & ? & _)]; [done|congruence].
    + intros a. setoid_rewrite elem_of_app. setoid_rewrite list_elem_of_singleton. rewrite Hun. split.
      * intros (e' & r' & ? & ?). eauto 10.
      * intros (e' & r' & [?| ->] & ? & ? & ?); [eauto 10|congruence].
Qed.

Lemma attribute_all l : attributed l (fold_left (attribute k) l (∅, [])).
Proof.
  assert (forall l0 acc, attributed l0 acc -> attributed (l0 ++ l) (fold_left (attribute k) l acc)) as Hf.
  { induction l as [|e l IH]; intros l0 acc Ha; simpl; [by rewrite app_nil_r|].
    rewrite cons_middle, app_assoc. apply IH. by apply attribute_step. }
  apply (Hf []). split_and!; simpl; [by intros ? ? ?%lookup_empty_Some|..].
  - intros v a. rewrite lookup_empty. simpl. split; [by intros ?%elem_of_nil|]. by intros (r & ?%elem_of_nil & _).
  - intros a. split; [by intros ?%elem_of_nil|]. by intros (? & ? & ?%elem_of_nil & _).
  - done.
Qed.
End attribution.

(** ** What a pass decides *)

Lemma NoDup_of_submseteq {A} (l k : list A) : l ⊆+ k -> NoDup k -> NoDup l.
Proof. intros (l' & Hsub & Hp)%submseteq_sublist_l Hk. eapply sublist_NoDup; [|exact Hsub]. by rewrite Hp. Qed.

Section decisions.
Context `{Hashes} `{Codec} `{StoreCodec} (is_json : string -> bool) (env : Env) (s : Store) (sel : CompilerSelection).

Definition version_of (f : File) (v : string) : Prop :=
  exists r, parse_result (bytes f) = Some r /\ rustc_version_of (disk s) (res_action r) = Some v.

(** A compiler none of whose results was used since the cutoff, while another
    compiler has one used at least as recently as any of its own. *)
Definition unused (v : string) : Prop :=
  exists age, selection_age sel = Some age /\
    (forall p f, results (disk s) !! p = Some f -> version_of f v -> last_used f < cutoff_of (env_now env) age) /\
    exists v' p f, v' <> v /\ results (disk s) !! p = Some f /\ version_of f v' /\
      forall q g, results (disk s) !! q = Some g -> version_of g v -> last_used g <= last_used f.

(** A result the selection is for. *)
Definition condemned (r : ActionResult) : Prop :=
  exists v, rustc_version_of (disk s) (res_action r) = Some v /\
    res_action r ∉ grouped_receipt_actions is_json s /\ (version_is_named sel v = true \/ unused v).

Lemma sort_versions newest l acc :
  let out := fold_left (sort_version env sel newest) l acc in
  let chosen x := version_is_idle env sel newest x.1 x.2 || version_is_named sel x.1 in
  (forall a, a ∈ out.1 <-> a ∈ acc.1 \/ exists x, x ∈ l /\ chosen x = true /\ a ∈ x.2) /\
  (forall d, d ∈ out.2 <-> d ∈ acc.2 \/ exists x, x ∈ l /\ chosen x = false /\ d ∈ map att_action x.2) /\
  exists rest, out.1 = acc.1 ++ rest /\ sublist rest (concat (map snd l)).
Proof.
  revert acc. induction l as [|x l IH]; intros acc; simpl.
  { split_and!; [intros; split; [auto|intros [?|(? & ?%elem_of_nil & _)]; done].. |].
    exists []. by rewrite app_nil_r. }
  destruct (IH (sort_version env sel newest acc x)) as (H2 & H3 & rest & H4 & H5). unfold sort_version in *.
  destruct (version_is_idle env sel newest x.1 x.2 || version_is_named sel x.1) eqn:Ex; simpl in *; split_and!.
  - intros a. rewrite H2, elem_of_app. setoid_rewrite elem_of_cons. split.
    + intros [[?|?]|(y & ? & ?)]; [by left|right; exists x; auto|right; exists y; auto].
    + intros [?|(y & [->|?] & ? & ?)]; [auto|auto|right; exists y; auto].
  - intros d. rewrite H3. setoid_rewrite elem_of_cons. split.
    + intros [?|(y & ? & ?)]; [by left|right; exists y; auto].
    + intros [?|(y & [->|?] & ? & ?)]; [auto|congruence|right; exists y; auto].
  - exists (x.2 ++ rest). rewrite H4, app_assoc. split; [done|]. by apply sublist_app.
  - intros a. rewrite H2. setoid_rewrite elem_of_cons. split.
    + intros [?|(y & ? & ?)]; [by left|right; exists y; auto].
    + intros [?|(y & [->|?] & ? & ?)]; [auto|congruence|right; exists y; auto].
  - intros d. rewrite H3, elem_of_app. setoid_rewrite elem_of_cons. split.
    + intros [[?|?]|(y & ? & ?)]; [by left|right; exists x; auto|right; exists y; auto].
    + intros [?|(y & [->|?] & ? & ?)]; [auto|auto|right; exists y; auto].
  - exists rest. split; [done|]. by apply sublist_inserts_l.
Qed.

Context (Hlisting : forall m, env_listing env m ≡ₚ map_to_list m).

Definition listing : list Entry := walk_files env (results (disk s)).

Lemma attributes_record v p f r :
  results (disk s) !! p = Some f -> parse_result (bytes f) = Some r ->
  rustc_version_of (disk s) (res_action r) = Some v ->
  attributes (disk s) listing v (mkAttributed (to_entry (p, f)) (res_action r)).
Proof.
  intros Hp Hr Hv. exists r. simpl. split_and!; [apply (elem_of_walk_files env Hlisting); eauto| |done|done].
  unfold record_at. simpl. by rewrite Hp.
Qed.

Lemma attributes_inv v a :
  attributes (disk s) listing v a ->
  exists p f r, results (disk s) !! p = Some f /\ parse_result (bytes f) = Some r /\
    rustc_version_of (disk s) (res_action r) = Some v /\ a = mkAttributed (to_entry (p, f)) (res_action r).
Proof.
  destruct a as [e d]. intros (r & (p & f & Hp & He)%(elem_of_walk_files env Hlisting) & Hr & Hv & Hd). simpl in *. subst e d.
  exists p, f, r. unfold record_at in Hr. simpl in Hr. rewrite Hp in Hr. done.
Qed.

(** Selected by age means unused. *)
Lemma idle_unused bv v x :
  (forall v x, bv !! v = Some x -> x <> []) -> (forall v a, a ∈ default [] (bv !! v) <-> attributes (disk s) listing v a) ->
  bv !! v = Some x ->
  version_is_idle env sel (fst <$> max_by_key (fun x => latest x.2) (entries bv)) v x = true -> unused v.
Proof.
  intros Hne Hbv Hv. unfold version_is_idle. destruct (selection_age sel) as [age|] eqn:Ea; [|done].
  destruct (latest x) as [m|] eqn:Em; [|done]. intros [Hlt Hnew]%andb_prop. simp_bool.
  pose proof (latest_spec _ _ Em) as [_ Hmax].
  assert (forall y, y ∈ entries bv -> is_Some (latest y.2)) as Hsome.
  { intros [w y] Hy%list_elem_of_In%In_entries. simpl. destruct y; [by apply Hne in Hy|]. by eexists. }
  assert (forall y p f, bv !! v = Some y -> results (disk s) !! p = Some f -> version_of f v -> last_used f <= m) as Hv'.
  { intros y p f Hy Hp (r & Hr & Hver). pose proof (attributes_record v p f r Hp Hr Hver) as Ha.
    apply Hbv in Ha. rewrite Hv in Ha. by apply Hmax in Ha. }
  destruct (max_by_key_some (fun x => latest x.2) (entries bv)) as [[w y] Hy].
  { intros Hnil. assert (In (v, x) (entries bv)) as Hin by (by apply In_entries). by rewrite Hnil in Hin. }
  pose proof (max_by_key_spec _ _ _ Hy Hsome) as [Hin Hbest]. simpl in Hbest. rewrite Hy in Hnew. simpl in Hnew.
  destruct (Hsome _ Hin) as [b Hb]. simpl in Hb. pose proof (latest_spec _ _ Hb) as [(a & Ha & Hub) _].
  apply list_elem_of_In, In_entries in Hin.
  assert (attributes (disk s) listing w a) as (p & f & r & Hp & Hr & Hver & ->)%attributes_inv
    by (apply Hbv; by rewrite Hin).
  exists age. split; [done|]. split; [intros q g Hq Hg; specialize (Hv' x q g Hv Hq Hg); lia|].
  exists w, p, f. split_and!; [congruence|done|by exists r|]. intros q g Hq Hg. simpl in Hub. rewrite Hub.
  assert (m <= b) as Hmb; [|specialize (Hv' x q g Hv Hq Hg); lia].
  apply (Hbest (v, x) m b); [by apply list_elem_of_In, In_entries|done|done].
Qed.

Definition decided : list Attributed * list Digest := decide_stale is_json env s sel.

(** Every result is stale or keeps its action, and a stale one is condemned. *)
Lemma decided_spec :
  (forall a, a ∈ decided.1 -> exists p f r, results (disk s) !! p = Some f /\ parse_result (bytes f) = Some r /\
     condemned r /\ a = mkAttributed (to_entry (p, f)) (res_action r)) /\
  (forall p f r, results (disk s) !! p = Some f -> parse_result (bytes f) = Some r ->
     mkAttributed (to_entry (p, f)) (res_action r) ∈ decided.1 \/ res_action r ∈ decided.2) /\
  NoDup (map (fun a => entry_path (att_entry a)) decided.1).
Proof.
  unfold decided, decide_stale. pose proof (attribute_all (disk s) listing) as Hatt. unfold listing in Hatt.
  destruct (fold_left (attribute (disk s)) (walk_files env (results (disk s))) (∅, [])) as [bv un].
  destruct Hatt as (Hne & Hbv & Hun & Hall). simpl in Hne, Hbv, Hun, Hall. fold listing in *.
  set (newest := fst <$> max_by_key _ (entries bv)).
  destruct (sort_versions newest (entries bv) ([], un)) as (Hstale & Hkept & rest & Hrest & Hsub).
  destruct (fold_left (sort_version env sel newest) (entries bv) ([], un)) as [stale kept]. simpl in *. subst rest.
  split_and!.
  - intros a [Ha Hpin]%list_elem_of_In%filter_In. simp_bool.
    apply list_elem_of_In, Hstale in Ha as [?%elem_of_nil|([v x] & Hx & Hc & Ha)]; [done|]. simpl in *.
    apply list_elem_of_In, In_entries in Hx.
    assert (attributes (disk s) listing v a) as (p & f & r & Hp & Hr & Hv & ->)%attributes_inv by (apply Hbv; by rewrite Hx).
    exists p, f, r. split_and!; [done|done| |done]. exists v. split_and!; [done|done|].
    apply orb_prop in Hc as [Hc|Hc]; [right|by left]. by apply (idle_unused bv v x).
  - intros p f r Hp Hr. destruct (rustc_version_of (disk s) (res_action r)) as [v|] eqn:Ev.
    2: { right. apply elem_of_app. left. apply Hkept. left. apply Hun. exists (to_entry (p, f)), r.
         split_and!; [apply (elem_of_walk_files env Hlisting); eauto| |done|done]. unfold record_at. simpl. by rewrite Hp. }
    pose proof (attributes_record v p f r Hp Hr Ev) as Ha. apply Hbv in Ha.
    destruct (bv !! v) as [x|] eqn:Ex; [|by apply elem_of_nil in Ha]. simpl in Ha.
    assert ((v, x) ∈ entries bv) as Hin by (by apply list_elem_of_In, In_entries).
    destruct (version_is_idle env sel newest v x || version_is_named sel v) eqn:Ec.
    + assert (mkAttributed (to_entry (p, f)) (res_action r) ∈ stale) as Hs by (apply Hstale; right; exists (v, x); done).
      destruct (bool_decide (res_action r ∈ grouped_receipt_actions is_json s)) eqn:Ep; [right|left].
      * apply elem_of_app. right. apply list_elem_of_In, in_map_iff. eexists. split; [|apply filter_In; split; [by apply list_elem_of_In|done]]. done.
      * apply list_elem_of_In, filter_In. split; [by apply list_elem_of_In|]. simpl. by rewrite Ep.
    + right. apply elem_of_app. left. apply Hkept. right. exists (v, x). split_and!; [done|done|].
      by apply (list_elem_of_fmap_2 att_action x (mkAttributed (to_entry (p, f)) (res_action r))).
  - assert (NoDup (map (fun a => entry_path (att_entry a)) stale)) as Hnd.
    { eapply (sublist_NoDup _ _ ); [|apply (fmap_sublist (fun a => entry_path (att_entry a))), Hsub].
      unfold entries. rewrite merge_sort_Permutation. fold (all_attributed bv).
      eapply NoDup_of_submseteq; [apply (fmap_submseteq (fun a => entry_path (att_entry a))), Hall|].
      eapply sublist_NoDup; [apply (NoDup_walk_files env Hlisting (results (disk s)))|]. fold listing.
      clear. induction listing as [|e l IH]; simpl; [done|]. destruct (record_at (disk s) e); simpl.
      - by apply sublist_skip.
      - by apply sublist_cons. }
    clear - Hnd. induction stale as [|a l IH]; simpl in *; [done|]. apply NoDup_cons in Hnd as [Ha Hnd].
    destruct (negb _); simpl; [|by apply IH]. apply NoDup_cons. split; [|by apply IH].
    intros (b & Hb & Hin)%list_elem_of_fmap. apply Ha. rewrite Hb.
    apply (list_elem_of_fmap_2 (fun a => entry_path (att_entry a))). apply list_elem_of_In, filter_In in Hin as [? _].
    by apply list_elem_of_In.
Qed.

(** ** Removal *)

Lemma drop_results_keeps dry stale o planned k o' planned' k' :
  drop_results env dry stale (o, planned, k) = Ok (o', planned', k') ->
  cas k' = cas k /\ results k' ⊆ results k /\
  forall p, p ∉ map (fun a => entry_path (att_entry a)) stale -> results k' !! p = results k !! p.
Proof.
  revert o planned k. induction stale as [|a l IH]; intros o planned k; cbn [drop_results map].
  { by intros [= <- <- <-]. }
  destruct dry.
  { intros (? & ? & Hp)%IH. split_and!; [done|done|]. intros p Hn. apply Hp. by intros ?; apply Hn; right. }
  unfold remove. destruct (results k !! entry_path (att_entry a)) as [f|] eqn:Ef;
    [destruct (env_access env (entry_path (att_entry a)))|]; intros Hk; try done; apply IH in Hk as (Hc & Hsub & Hp);
    simpl in *; (split; [done|]).
  - split; [etrans; [exact Hsub|apply delete_subseteq]|]. intros p [Hne Hn]%not_elem_of_cons.
    by rewrite Hp, lookup_delete_ne.
  - split; [done|]. intros p [_ Hn]%not_elem_of_cons. by apply Hp.
  - split; [done|]. intros p [_ Hn]%not_elem_of_cons. by apply Hp.
Qed.

Lemma drop_objects_keeps dry paths o planned k o' planned' k' :
  drop_objects env dry paths (o, planned, k) = Ok (o', planned', k') ->
  results k' = results k /\ cas k' ⊆ cas k /\ forall p, p ∉ paths -> cas k' !! p = cas k !! p.
Proof.
  revert o planned k. induction paths as [|q l IH]; intros o planned k; cbn [drop_objects].
  { by intros [= <- <- <-]. }
  destruct (cas k !! q) as [f|] eqn:Ef.
  2: { intros (? & ? & Hp)%IH. split_and!; [done|done|]. intros p [_ Hn]%not_elem_of_cons. by apply Hp. }
  destruct dry.
  { intros (? & ? & Hp)%IH. split_and!; [done|done|]. intros p [_ Hn]%not_elem_of_cons. by apply Hp. }
  unfold remove. rewrite Ef.
  destruct (env_access env q); intros Hk; try done; apply IH in Hk as (Hc & Hsub & Hp); simpl in *; (split; [done|]).
  - split; [etrans; [exact Hsub|apply delete_subseteq]|]. intros p [Hne Hn]%not_elem_of_cons.
    by rewrite Hp, lookup_delete_ne.
  - split; [done|]. intros p [_ Hn]%not_elem_of_cons. by apply Hp.
Qed.

(** Every result is under the path of the action it names. *)
Definition filed : Prop :=
  forall p f r, results (disk s) !! p = Some f -> parse_result (bytes f) = Some r -> action_path (res_action r) = Ok p.

(** C31: Dropping compilers is safe, whatever removals the operating system
    refuses: a result disappears only if it is a Rust compilation of a
    compiler that was named, or that went unused while another compiler was
    used at least as recently, and no pending export holds it; and every
    other result stays together with each object restoring it reads, however
    many condemned results share them.  Each record is assumed to be filed under
    the path of its action ([filed]). *)
Theorem dropping_compilers_is_safe o planned k' :
  filed -> stale_compilers_pass is_json env s sel false = Ok (o, planned, k') ->
  cas k' ⊆ cas (disk s) /\ results k' ⊆ results (disk s) /\
  forall p f, results (disk s) !! p = Some f -> (forall r, parse_result (bytes f) = Some r -> ~ condemned r) ->
    results k' !! p = Some f /\
    forall r d q, parse_result (bytes f) = Some r -> restores (disk s) r d -> path_for d = Ok q ->
      cas k' !! q = cas (disk s) !! q.
Proof.
  intros Hfiled. unfold stale_compilers_pass. destruct decided_spec as (Hcond & Hsplit & _). unfold decided in *.
  destruct (decide_stale is_json env s sel) as [stale kept]. simpl in Hcond, Hsplit.
  destruct (bool_decide (stale = [])) eqn:En; [by intros [= <- <- <-]|].
  destruct (drop_results _ _ _ _) as [[[o1 pl1] k1]|] eqn:E1; [|done]. cbn [mbind result_bind]. intros E2.
  apply drop_results_keeps in E1 as (Hc1 & Hs1 & Hp1). apply drop_objects_keeps in E2 as (Hr2 & Hs2 & Hp2).
  rewrite Hr2, Hc1 in *. split_and!; [done|done|]. intros p f Hp Hn.
  assert (forall a, a ∈ stale -> entry_path (att_entry a) <> p) as Hother.
  { intros a (p' & f' & r & Hp' & Hr & Hcr & ->)%Hcond. simpl. intros ->. simplify_eq. by apply (Hn r Hr). }
  split.
  - rewrite Hp1; [done|]. intros (a & Heq & Ha)%list_elem_of_fmap. by apply (Hother a Ha).
  - intros r d q Hr Hd Hq. apply Hp2. rewrite elem_of_elements, elem_of_difference. intros [_ Hk]. apply Hk.
    apply rooted_action_objects_spec. exists (res_action r), r, d. split_and!; [|  |done|done].
    + destruct (Hsplit p f r Hp Hr) as [Hst|?]; [|done]. exfalso. by apply (Hother _ Hst).
    + unfold read_action_result. rewrite (Hfiled p f r Hp Hr), Hp. done.
Qed.

(** ** Previews *)

Context (Hfree : forall p, env_access env p = Free).

Definition result_path (a : Attributed) : string := entry_path (att_entry a).

Definition after_results (stale : list Attributed) (o : GcOutcome) : GcOutcome :=
  fold_left (fun o a => count_result o (entry_size (att_entry a))) stale o.

Lemma drop_results_free dry stale o planned k :
  NoDup (map result_path stale) -> (forall a, a ∈ stale -> is_Some (results k !! result_path a)) ->
  drop_results env dry stale (o, planned, k) =
  Ok (after_results stale o, list_to_set (map result_path stale) ∪ planned,
      if dry then k else set_results k (foldr delete (results k) (map result_path stale))).
Proof.
  revert o planned k. induction stale as [|a l IH]; intros o planned k Hnd Hin.
  { simpl. rewrite union_empty_l_L. by destruct dry, k. }
  cbn [map] in *. apply NoDup_cons in Hnd as [Ha Hnd]. cbn [drop_results]. fold (result_path a).
  assert (forall b, b ∈ l -> result_path b <> result_path a) as Hother.
  { intros b Hb Heq. apply Ha. rewrite <- Heq. by apply (list_elem_of_fmap_2 result_path). }
  destruct dry.
  - rewrite IH; [|done|intros b Hb; apply Hin; by right]. simpl. do 3 f_equal. set_solver.
  - unfold remove. destruct (Hin a) as [f ->]; [left|]. rewrite Hfree, IH; [|done|].
    + simpl. rewrite foldr_delete_delete. do 3 f_equal. set_solver.
    + intros b Hb. simpl. rewrite lookup_delete_ne by (intros ?; by apply (Hother b)). apply Hin. by right.
Qed.

(** The objects a pass counts: those still there. *)
Fixpoint after_objects (m : gmap string File) (paths : list string) (o : GcOutcome) : GcOutcome :=
  match paths with
  | [] => o
  | p :: paths =>
      after_objects m paths
        match m !! p with Some f => count_object o (Z.of_nat (length (bytes f))) | None => o end
  end.

Lemma drop_objects_free dry paths m o planned k :
  NoDup paths -> (forall p, p ∈ paths -> cas k !! p = m !! p) ->
  drop_objects env dry paths (o, planned, k) =
  Ok (after_objects m paths o, list_to_set (List.filter (fun p => is_some (m !! p)) paths) ∪ planned,
      if dry then k else set_cas k (foldr delete (cas k) paths)).
Proof.
  intros Hnd. revert o planned k. induction Hnd as [|q l Hq Hnd IH]; intros o planned k Hm.
  { simpl. rewrite union_empty_l_L. by destruct dry, k. }
  cbn [drop_objects after_objects List.filter]. rewrite (Hm q) by left. destruct (m !! q) as [f|] eqn:Ef; simpl.
  2: { rewrite IH by (intros; apply Hm; by right). destruct dry; [done|]. do 3 f_equal.
       rewrite <- foldr_delete_delete. rewrite delete_id; [done|]. rewrite Hm; [done|left]. }
  destruct dry.
  - rewrite IH by (intros; apply Hm; by right). do 3 f_equal. set_solver.
  - unfold remove. rewrite (Hm q), Ef, Hfree by left. rewrite IH.
    + simpl. rewrite foldr_delete_delete. do 3 f_equal. set_solver.
    + intros p Hp. simpl. rewrite lookup_delete_ne by congruence. apply Hm. by right.
Qed.

(** A dry run of the compiler pass plans what the real run does: where no
    removal is refused, both report the same outcome and the same paths, the
    dry run changes nothing, and the planned paths are exactly the objects and
    results the real run takes. *)
Lemma compiler_preview_is_exact :
  exists o planned k',
    stale_compilers_pass is_json env s sel true = Ok (o, planned, disk s) /\
    stale_compilers_pass is_json env s sel false = Ok (o, planned, k') /\
    forall p, p ∈ planned <->
      is_Some (cas (disk s) !! p) /\ cas k' !! p = None \/ is_Some (results (disk s) !! p) /\ results k' !! p = None.
Proof.
  destruct decided_spec as (Hcond & _ & Hnd). unfold decided in *. unfold stale_compilers_pass.
  destruct (decide_stale is_json env s sel) as [stale kept]. simpl in Hcond, Hnd.
  assert (forall a, a ∈ stale -> is_Some (results (disk s) !! result_path a)) as Hin.
  { intros a (p & f & r & Hp & _ & _ & ->)%Hcond. simpl. by eexists. }
  destruct (bool_decide (stale = [])).
  { exists no_outcome, ∅, (disk s). split_and!; [done|done|]. intros p. split; [by intros ?%elem_of_empty|].
    intros [[[? ?] ?]|[[? ?] ?]]; congruence. }
  set (paths := elements (rooted_action_objects (disk s) (map att_action stale) ∖ rooted_action_objects (disk s) kept)).
  assert (NoDup paths) as Hp by apply NoDup_elements.
  rewrite !drop_results_free by done. cbn [mbind result_bind].
  rewrite !(drop_objects_free _ paths (cas (disk s))) by done.
  do 3 eexists. split; [done|]. split; [done|]. intros p. simpl.
  rewrite !foldr_delete_lookup, union_empty_r_L, elem_of_union, !elem_of_list_to_set, list_elem_of_In, filter_In, <- list_elem_of_In.
  split.
  - intros [[Hpp Hs]|Hpp]; [left|right]; rewrite decide_True by done; (split; [|done]).
    + by destruct (cas (disk s) !! p).
    + apply list_elem_of_fmap in Hpp as (a & -> & Ha). by apply Hin.
  - intros [[[f Hf] Hn]|[[f Hf] Hn]]; destruct (decide _); [left; by rewrite Hf|congruence|by right|congruence].
Qed.
End decisions.

(** ** A concrete store *)

Module CompilersDemo.
Definition digest (n : Z) : Digest := mkDigest "blake3" zeros n.
Definition result_of (action object : Z) : ActionResult := mkResult (digest action) (Some (digest object)) None 1.

(** Two results, of two compilers; both need object 1. *)
#[export] Instance hashes : Hashes := {| blake3_hex := fun _ => zeros; sha256_hex := fun _ => zeros |}.
#[export] Instance codec : Codec := {|
  parse_result := fun b => match b with [100; n] => Some (result_of n 1) | _ => None end;
  canonical_json := fun r => [100; size (res_action r)];
  parse_directory := fun _ => None;
  parse_captured := fun _ => None
|}.
#[export] Instance store_codec : StoreCodec := {|
  parse_metadata := fun _ => None;
  parse_descriptor := fun b =>
    match b with
    | [21] => Some (Some "rustc"%string, Some "rustc 1.80.0 (abc 2024-07-21); host: x"%string)
    | [22] => Some (Some "rustc"%string, Some "rustc 1.90.0 (def 2025-09-14); host: x"%string)
    | _ => None
    end
|}.

Definition object (n : Z) : string := key_path (digest n) "".
Definition record (n : Z) : string := key_path (digest n) ".json".
Definition file (b : list Z) (used : Z) : File := mkFile b (Some used) None.
Definition env : Env :=
  mkEnv (seconds 1000) (Some 1000) (fun _ => mkProbes (Some true) (Found 1) []) (fun _ => Free) map_to_list.

(** Actions 10 and 11, the object they share, and one that nothing needs; a live
    checkout predicts the old compiler's result. *)
Definition store : Store :=
  mkStore
    (mkDisk
       (<[ object 10 := file [21] 5 ]> (<[ object 11 := file [22] 900 ]>
          (<[ object 1 := file [1] 10 ]> {[ object 2 := file [0; 0; 0; 0; 0] 20 ]})))
       (<[ record 10 := file [100; 10] 5 ]> {[ record 11 := file [100; 11] 900 ]}))
    [mkCheckoutDir zeros true [("a"%string, Some (mkCheckout 1 "/w" "/w/target" 990))]]
    (mkManifests {[ (zeros ++ ".json")%string := mkListed true 10 (Some 0) ]} ∅)
    {[ zeros := mkManifest 1 zeros [mkPrediction (digest 9) (digest 10) "rustc" "{}"] ]} []
    (mkSessions ∅ ∅) ∅.

Definition old : CompilerSelection := mkSelection None (Some " rustc 1.80.0 "%string).
End CompilersDemo.

#[local] Existing Instances CompilersDemo.hashes CompilersDemo.codec CompilersDemo.store_codec.

Example demo_names :
  names_compiler "1.80.0" "rustc 1.80.0 (abc 2024-07-21); host: x" = true /\
  names_compiler "rustc 1.80.0 (abc 2024-07-21)" "rustc 1.80.0 (abc 2024-07-21); host: x" = true /\
  names_compiler "1.80" "rustc 1.80.0 (abc 2024-07-21); host: x" = false /\
  names_compiler "rustc " "rustc 1.80.0 (abc 2024-07-21); host: x" = false.
Proof. split_and!; vm_compute; reflexivity. Qed.

Lemma demo_filed : filed CompilersDemo.store.
Proof.
  intros p f r Hp Hr. cbn [disk results CompilersDemo.store] in Hp.
  apply lookup_insert_Some in Hp as [[<- <-]|[_ [<- <-]%lookup_singleton_Some]]; vm_compute in Hr;
    injection Hr as <-; vm_compute; reflexivity.
Qed.

Lemma dropping_compilers_is_safe_witness :
  exists o planned k',
    stale_compilers_pass (fun _ => true) CompilersDemo.env CompilersDemo.store CompilersDemo.old false = Ok (o, planned, k') /\
    results k' !! CompilersDemo.record 10 = None /\
    cas k' !! CompilersDemo.object 1 = Some (CompilersDemo.file [1] 10).
Proof.
  assert (is_ok (stale_compilers_pass (fun _ => true) CompilersDemo.env CompilersDemo.store CompilersDemo.old false) = true)
    as Hok by (vm_compute; reflexivity).
  destruct (stale_compilers_pass (fun _ => true) CompilersDemo.env CompilersDemo.store CompilersDemo.old false)
    as [[[o planned] k']|] eqn:E; [clear Hok|discriminate Hok].
  destruct (dropping_compilers_is_safe (fun _ => true) CompilersDemo.env CompilersDemo.store CompilersDemo.old
    (fun _ => reflexivity _) o planned k' demo_filed E) as (_ & _ & Hkeep).
  exists o, planned, k'. split; [done|]. split.
  - apply (f_equal (fun r => match r with Ok (_, k) => results k !! CompilersDemo.record 10 | Err _ => None end)) in E.
    cbv beta iota in E. rewrite <- E. vm_compute. reflexivity.
  - destruct (Hkeep (CompilersDemo.record 11) (CompilersDemo.file [100; 11] 900)) as [_ Hobj].
    + vm_compute. reflexivity.
    + intros r [= <-] (v & Hv & _ & [Hn|(age & ? & _)]); [|done]. vm_compute in Hv. injection Hv as <-.
      vm_compute in Hn. discriminate.
    + rewrite (Hobj (CompilersDemo.result_of 11 1) (CompilersDemo.digest 1)).
      * vm_compute. reflexivity.
      * reflexivity.
      * right. by left.
      * vm_compute. reflexivity.
Defined.

Lemma compiler_preview_is_exact_witness :
  exists o planned k',
    stale_compilers_pass (fun _ => true) CompilersDemo.env CompilersDemo.store CompilersDemo.old true =
      Ok (o, planned, disk CompilersDemo.store) /\
    stale_compilers_pass (fun _ => true) CompilersDemo.env CompilersDemo.store CompilersDemo.old false =
      Ok (o, planned, k') /\ removed_objects o = 1 /\ removed_action_results o = 1.
Proof.
  destruct (compiler_preview_is_exact (fun _ => true) CompilersDemo.env CompilersDemo.store CompilersDemo.old
    (fun _ => reflexivity _) (fun _ => eq_refl)) as (o & planned & k' & H1 & H2 & _).
  exists o, planned, k'. split; [done|]. split; [done|].
  apply (f_equal (fun r => match r with Ok (o, _, _) => (removed_objects o, removed_action_results o) | Err _ => (0, 0) end)) in H1.
  assert ((removed_objects o, removed_action_results o) = (1, 1)) as Hx by (rewrite <- H1; vm_compute; reflexivity).
  injection Hx as Ha Hb. split; [exact Ha|exact Hb].
Defined.

(** What both passes really do, one after the other. *)
Definition both_passes (s : Store) (max_bytes : Z) (sel : CompilerSelection) : result GcError (GcOutcome * GcOutcome) :=
  r ← stale_compilers_pass (fun _ => true) CompilersDemo.env s sel false;
  r2 ← gc_with_mode (fun _ => true) CompilersDemo.env
    (mkStore r.2 (checkout_dirs s) (manifest_files s) (manifest_contents s) (group_receipts s) (sessions s) (staging s))
    max_bytes false ∅ default_retention;
  Ok (r.1.1, r2.1).

(** The preview of both passes is not always what both passes do.  The
    collection it plans reads reachability from the disk, where the results
    the compiler pass would have removed still are: an object that a live
    checkout needs only through such a result counts as protected in the
    preview and not in the run, so the two evict different objects. *)
Lemma combined_preview_differs :
  exists preview compilers budget,
    gc_dry_run_after_compilers_with_sessions (fun _ => true) CompilersDemo.env CompilersDemo.store 8
      CompilersDemo.old default_retention = Ok preview /\
    both_passes CompilersDemo.store 8 CompilersDemo.old = Ok (compilers, budget) /\
    removed_bytes preview = 8 /\ removed_bytes compilers + removed_bytes budget = 6 /\
    remaining_bytes preview = 4 /\ remaining_bytes budget = 6.
Proof. do 3 eexists. split_and!; vm_compute; reflexivity. Qed.
