(* ===== verification/FileDigest.v ===== *)
(** * File digests and the identities they are recorded under

    Models [src/crates/mbx-cache-core/src/agent/file_digest.rs]: reading and
    hashing a file while other processes may write it
    ([digest_file_validated]), the identity under which the digest may be used
    again ([FileIdentity], [identity_is_racy]), the snapshots that tell whether
    a file changed ([FileSnapshot]) and the scan for timestamp macros.

    The kernel is a class: a world answers system calls, and every call of a
    process may see a later world, in which anything else has happened.  What is
    known of worlds is [KernelLaws]: the clock does not go back, and whoever
    changes a file's contents leaves a change time no older than the
    filesystem's timestamp grain.

    The theorems: the scan in bounded chunks finds exactly what a search of the
    whole file finds and hashes all of it; a digest offered for reuse is the
    digest of the file's contents for as long as the identity still describes
    the file, whatever else is written meanwhile; and a settled snapshot that
    still matches proves that the contents never changed in between. *)

From stdpp Require Import base list gmap strings.
From Stdlib Require Import ZArith Lia.
From S2P Require Import Prelude Protocol Strings PathMap.
Local Open Scope Z_scope.

(** ** The kernel *)

Inductive IoError := NotFound | NotADirectory | InvalidInput | InvalidData | WouldBlock | Other (message : string).

Inductive Errno := ENOSYS | EINVAL | EOPNOTSUPP | OtherErrno (e : IoError).

(** A file object: its device and inode. *)
Definition Object : Type := Z * Z.

(** What [std::fs::Metadata] says; times are nanoseconds since the epoch. *)
Record Metadata := mkMetadata {
  m_is_file : bool;
  m_len : Z;
  m_modified : option Z;
  m_dev : Z;
  m_ino : Z;
  m_ctime : Z;
  m_ctime_nsec : Z
}.

Definition m_object (m : Metadata) : Object := (m_dev m, m_ino m).

(** The fields of [LinuxStatx] the code reads. *)
Record LinuxStatx := mkStatx {
  x_mask : Z;
  x_inode : Z;
  x_size : Z;
  x_seconds : Z;
  x_nanos : Z;
  x_device_major : Z;
  x_device_minor : Z;
  x_mount_id : Z
}.

Class Kernel := {
  World : Type;
  now : World -> Z;
  stat : World -> Path -> result IoError Metadata;
  open_file : World -> Path -> result IoError Object;
  fstat : World -> Object -> result IoError Metadata;
  read_at : World -> Object -> Z -> result IoError (list Z);
  statfs_type : World -> Path -> result IoError Z;
  statx : World -> Path -> result Errno LinuxStatx
}.

(** ** Identities *)

Record FileObjectIdentity := mkObject {
  device_major : Z;
  device_minor : Z;
  mount_id : Z;
  inode : Z
}.

Record FileIdentity := mkIdentity {
  path : Path;
  len : Z;
  modified : Z;
  changed : option (Z * Z);
  object : option FileObjectIdentity
}.

#[export] Instance FileObjectIdentity_eq_dec : EqDecision FileObjectIdentity.
Proof. solve_decision. Defined.
#[export] Instance FileIdentity_eq_dec : EqDecision FileIdentity.
Proof. solve_decision. Defined.

Definition change_token (m : Metadata) : option (Z * Z) := Some (m_ctime m, m_ctime_nsec m).

Definition metadata_object_identity (m : Metadata) : option FileObjectIdentity :=
  Some (mkObject (Z.shiftr (m_dev m) 32) (Z.land (m_dev m) 0xFFFFFFFF) 0 (m_ino m)).

Definition describe (p : Path) (m : Metadata) : option FileIdentity :=
  modified ← m_modified m;
  Some (mkIdentity p (m_len m) modified (change_token m) (metadata_object_identity m)).

Definition STATX_IDENTITY_MASK : Z := Z.lor (Z.lor 0x100 0x200) (Z.lor 0x40 0x1000).

Definition BILLION : Z := 1000000000.

(** A [SystemTime] holds the seconds in an [i64]. *)
Definition system_time (seconds nanos : Z) : result IoError Z :=
  if (- 9223372036854775808 <=? seconds) && (seconds <=? 9223372036854775807) then
    Ok (seconds * BILLION + nanos)
  else Err InvalidData.

Definition nfs_identity_from_statx (p : Path) (status : LinuxStatx) : result IoError (option FileIdentity) :=
  if negb (Z.land (x_mask status) STATX_IDENTITY_MASK =? STATX_IDENTITY_MASK) || (BILLION <=? x_nanos status)
  then Ok None
  else
    modified ← system_time (x_seconds status) (x_nanos status);
    Ok (Some (mkIdentity p (x_size status) modified None
          (Some (mkObject (x_device_major status) (x_device_minor status) (x_mount_id status) (x_inode status))))).

Definition NFS_SUPER_MAGIC : Z := 0x6969.
Definition has_nul (p : Path) : bool := contains_char (Ascii.ascii_of_N 0) (render p).

(** ** Digests *)

(** What a recorded digest may stand in for. *)
Inductive FileDigestScope := Content | CcInput.

Inductive FileDigestResolution :=
| FileDigest (d : Digest)
| EmbeddedTimestampMacro
| Unresolved.

Record RecordedFileDigest := mkRecorded { file : FileIdentity; digest : Digest }.

Record ValidatedFileDigest := mkValidated {
  resolution : FileDigestResolution;
  observed_identity : FileIdentity;
  cache_identity_of : option FileIdentity;
  racy : bool
}.

Record FileSnapshot := mkSnapshot {
  snapshot_identity : FileIdentity;
  content : option Digest;
  require_full_identity : bool
}.

Definition is_content (scope : FileDigestScope) : bool := match scope with Content => true | CcInput => false end.

Definition into_digest (r : FileDigestResolution) : option Digest :=
  match r with FileDigest d => Some d | _ => None end.

(** What the session's ledger answers: [FileDigestCache::resolve]. *)
Class DigestCache `{Kernel} := {
  resolve : World -> FileDigestScope -> list FileIdentity -> list FileDigestResolution
}.

(** ** A process among others *)

Section Process.
Context `{Kernel}.

(** The worlds its next calls will see, the devices it knows to be on NFS, and
    what it has recorded in the session's ledger. *)
Record Process := mkProcess {
  ahead : nat -> World;
  filesystems : gmap Z bool;
  ledger : list (FileDigestScope * RecordedFileDigest)
}.

Definition Io (A : Type) : Type := Process -> result IoError A * Process.

#[export] Instance Io_ret : MRet Io := fun A a s => (Ok a, s).
#[export] Instance Io_bind : MBind Io := fun A B f m s =>
  match m s with (Ok a, s) => f a s | (Err e, s) => (Err e, s) end.

Definition lift_io {A} (r : result IoError A) : Io A := fun s => (r, s).

(** A system call sees the world of its moment and leaves the later ones. *)
Definition call {A} (f : World -> result IoError A) : Io A := fun s =>
  (f (ahead s 0%nat), mkProcess (fun n => ahead s (S n)) (filesystems s) (ledger s)).

Definition system_now : Io Z := call (fun w => Ok (now w)).
Definition metadata (p : Path) : Io Metadata := call (fun w => stat w p).

(** [Result::unwrap_or]. *)
Definition or_else {A} (d : A) (m : Io A) : Io A := fun s =>
  match m s with (Ok a, s) => (Ok a, s) | (Err _, s) => (Ok d, s) end.

Definition metadata_identity_is_unreliable (p : Path) (m : Metadata) : Io bool := fun s =>
  match filesystems s !! m_dev m with
  | Some unreliable => (Ok unreliable, s)
  | None =>
      if has_nul p then (Err InvalidInput, s)
      else
        match call (fun w => statfs_type w p) s with
        | (Ok f_type, s) =>
            let unreliable := f_type =? NFS_SUPER_MAGIC in
            (Ok unreliable, mkProcess (ahead s) (<[m_dev m := unreliable]> (filesystems s)) (ledger s))
        | (Err e, s) => (Err e, s)
        end
  end.

Definition nfs_file_identity (p : Path) : Io (option FileIdentity) :=
  if has_nul p then lift_io (Err InvalidInput)
  else
    status ← call (fun w => Ok (statx w p));
    match status with
    | Ok status => lift_io (nfs_identity_from_statx p status)
    | Err (ENOSYS | EINVAL | EOPNOTSUPP) => mret None
    | Err (OtherErrno e) => lift_io (Err e)
    end.

Definition digest_cache_identity (p : Path) (m : Metadata) (unreliable : bool) : Io (option FileIdentity) :=
  if unreliable then nfs_file_identity p else mret (describe p m).

Definition for_digest_cache (p : Path) (m : Metadata) : Io (option FileIdentity) :=
  unreliable ← metadata_identity_is_unreliable p m;
  digest_cache_identity p m unreliable.

Definition still_describes (i : FileIdentity) : Io bool :=
  m ← metadata (path i);
  identity ← for_digest_cache (path i) m;
  mret (bool_decide (identity = Some i)).

Definition can_skip_content_verification (i : FileIdentity) : bool :=
  is_some (changed i) || is_some (object i).

(** ** Timestamp races *)

Definition FINE_TIMESTAMP_RACE_WINDOW : Z := 20 * 1000000.
Definition COARSE_TIMESTAMP_RACE_WINDOW : Z := 2 * BILLION.

(** The nanoseconds of a time after the epoch, zero before it. *)
Definition subsec_nanos (time : Z) : Z := if 0 <=? time then time mod BILLION else 0.

Definition identity_is_racy (i : FileIdentity) (observed_at : Z) : bool :=
  let coarse := (subsec_nanos (modified i) =? 0) &&
    is_none_or (fun c : Z * Z => c.2 =? 0) (changed i) in
  let window := if coarse then COARSE_TIMESTAMP_RACE_WINDOW else FINE_TIMESTAMP_RACE_WINDOW in
  let recent (time : Z) := (observed_at <? time) || (observed_at - time <? window) in
  recent (modified i) ||
  is_some_and (fun c : Z * Z =>
    if c.1 <? 0 then true
    else recent (c.1 * BILLION + (if (0 <=? c.2) && (c.2 <=? 4294967295) then c.2 else 0))) (changed i).

(** ** Reading *)

Definition DIGEST_BUFFER_BYTES : Z := 64 * 1024.

Definition ascii_bytes (s : string) : list Z := map (fun a => Z.of_N (Ascii.N_of_ascii a)) (String.list_ascii_of_string s).

Definition TIMESTAMP_MACROS : list (list Z) :=
  map ascii_bytes ["__DATE__"; "__TIME__"; "__TIMESTAMP__"]%string.

Definition longest_macro : nat := foldr Nat.max 0%nat (map length TIMESTAMP_MACROS).

(** [memchr::memmem::find] finds the needle somewhere. *)
Fixpoint begins (needle l : list Z) : bool :=
  match needle, l with
  | [], _ => true
  | a :: needle, b :: l => (a =? b) && begins needle l
  | _, [] => false
  end.
Fixpoint occurs (needle l : list Z) : bool :=
  begins needle l || match l with [] => false | _ :: l => occurs needle l end.

Definition finds_macro (l : list Z) : bool := existsb (fun m => occurs m l) TIMESTAMP_MACROS.

(** What the loop of [digest_reader] carries: the bytes given to the hasher,
    their number, the window of the scan and what it found. *)
Record Scan := mkScan { hashed : list Z; read_size : Z; window : list Z; found : bool }.

Definition scan_chunk (scope : FileDigestScope) (chunk : list Z) (s : Scan) : result IoError Scan :=
  size ← ok_or (Other "file length overflowed u64") (checked_add (read_size s) (Z.of_nat (length chunk)));
  if negb (is_content scope) && negb (found s) then
    let extended := (window s ++ chunk)%list in
    let keep := (length extended - (longest_macro - 1))%nat in
    Ok (mkScan (hashed s ++ chunk) size (drop keep extended) (finds_macro extended))
  else Ok (mkScan (hashed s ++ chunk) size (window s) (found s)).

Section Hashing.
Context `{Hashes}.

Definition scan_outcome (s : Scan) : FileDigestResolution * Z :=
  if found s then (EmbeddedTimestampMacro, read_size s)
  else (FileDigest (mkDigest "blake3" (blake3_hex (hashed s)) (read_size s)), read_size s).

(** The loop: each round reads on where the last one stopped, and an empty read
    is the end of the file.  A file that grows faster than it is read keeps the
    loop going, so the rounds are bounded by [fuel]. *)
Fixpoint digest_loop (fuel : nat) (scope : FileDigestScope) (handle : Object) (s : Scan)
    : Io (FileDigestResolution * Z) :=
  match fuel with
  | O => lift_io (Err (Other "still growing"))
  | S fuel =>
      chunk ← call (fun w => read_at w handle (read_size s));
      match chunk with
      | [] => mret (scan_outcome s)
      | _ => s ← lift_io (scan_chunk scope chunk s); digest_loop fuel scope handle s
      end
  end.

Definition digest_reader (fuel : nat) (scope : FileDigestScope) (handle : Object)
    : Io (FileDigestResolution * Z) :=
  digest_loop fuel scope handle (mkScan [] 0 [] false).

Definition digest_file (fuel : nat) (scope : FileDigestScope) (p : Path) : Io FileDigestResolution :=
  handle ← call (fun w => open_file w p);
  read ← digest_reader fuel scope handle;
  mret read.1.

Definition metadata_names_same_file (left right : Metadata) : bool :=
  (m_dev left =? m_dev right) && (m_ino left =? m_ino right).

Definition metadata_matches_object (m : Metadata) (o : FileObjectIdentity) : bool :=
  let device := m_dev m in
  let major := Z.lor (Z.land (Z.shiftr device 8) 0x0fff) (Z.land (Z.shiftr device 32) 0xfffff000) in
  let minor := Z.lor (Z.land device 0x00ff) (Z.land (Z.shiftr device 12) 0xffffff00) in
  (major =? device_major o) && (minor =? device_minor o) && (m_ino m =? inode o).

Definition modified_of (m : Metadata) : result IoError Z := ok_or (Other "modification time") (m_modified m).

Definition handle_and_path_are_stable (p : Path) (before after : Metadata) (current : FileIdentity)
    (unreliable : bool) (digest_size : Z) : result IoError bool :=
  if negb (m_len before =? m_len after) || negb (m_len after =? digest_size) || negb (len current =? digest_size)
  then Ok false
  else if negb (metadata_names_same_file before after) then Ok false
  else if unreliable then
    before_modified ← modified_of before;
    after_modified ← modified_of after;
    let object_matches :=
      is_none_or (fun o => metadata_matches_object before o && metadata_matches_object after o) (object current) in
    Ok ((before_modified =? after_modified) && (after_modified =? modified current) && object_matches)
  else
    let before := describe p before in
    let after := describe p after in
    Ok (is_some before && bool_decide (before = after) && bool_decide (after = Some current)).

Definition digest_file_validated (fuel : nat) (scope : FileDigestScope) (p : Path)
    : Io (option ValidatedFileDigest) :=
  started ← system_now;
  handle ← call (fun w => open_file w p);
  before ← call (fun w => fstat w handle);
  if negb (m_is_file before) then lift_io (Err InvalidInput)
  else
    '(resolution, size) ← digest_reader fuel scope handle;
    after ← call (fun w => fstat w handle);
    current_metadata ← metadata p;
    unreliable ← metadata_identity_is_unreliable p current_metadata;
    cache_identity ← digest_cache_identity p current_metadata unreliable;
    match option_or cache_identity (describe p current_metadata) with
    | None => mret None
    | Some identity =>
        if negb (metadata_names_same_file after current_metadata) then lift_io (Err WouldBlock)
        else
          stable ← lift_io (handle_and_path_are_stable p before after identity unreliable size);
          if negb stable then lift_io (Err WouldBlock)
          else
            let racy := is_some_and (fun i => identity_is_racy i started) cache_identity in
            mret (Some (mkValidated resolution identity
                    (option_filter (fun _ => negb racy) cache_identity) racy))
    end.

(** ** Snapshots *)

Section Capture.
Context `{!DigestCache}.

Definition record (scope : FileDigestScope) (entries : list RecordedFileDigest) : Io unit := fun s =>
  (Ok (), mkProcess (ahead s) (filesystems s) (ledger s ++ map (pair scope) entries)).

(** The ledger's answer, when it is a digest of the right length and the file
    still has the identity it was asked for. *)
Definition cached_digest (asked : option FileIdentity) (r : FileDigestResolution) : Io (option Digest) :=
  match r, asked with
  | FileDigest d, Some i =>
      if len i =? size d then
        described ← or_else false (still_describes i);
        mret (if described : bool then Some d else None)
      else mret None
  | _, _ => mret None
  end.

Definition capture_file_snapshot (fuel : nat) (p : Path) (unreliable content_identity : bool) (m : Metadata)
    (observed_at : Z) : Io (option FileSnapshot) :=
  cache_identity ← digest_cache_identity p m unreliable;
  match option_or cache_identity (describe p m) with
  | None => mret None
  | Some identity =>
      let racy := identity_is_racy identity observed_at in
      let cache_identity := option_filter (fun _ => negb racy) cache_identity in
      let full := negb unreliable && negb content_identity in
      if content_identity || racy then
        resolved ← match cache_identity with
                   | Some i =>
                       answers ← call (fun w => Ok (resolve w Content [i]));
                       mret (default Unresolved (last answers))
                   | None => mret Unresolved
                   end;
        cached ← cached_digest cache_identity resolved;
        match cached with
        | Some d => mret (Some (mkSnapshot identity (Some d) full))
        | None =>
            observed ← digest_file_validated fuel Content p;
            observed ← lift_io (ok_or (Other "could not establish a file digest identity") observed);
            d ← lift_io (ok_or (Other "content digest resolution returned no digest") (into_digest (resolution observed)));
            _ ← match cache_identity_of observed with
                | Some i => if len i =? size d then record Content [mkRecorded i d] else mret ()
                | None => mret ()
                end;
            mret (Some (mkSnapshot (observed_identity observed) (Some d) full))
        end
      else mret (Some (mkSnapshot identity None full))
  end.

(** [FileSnapshot::capture_with_cache] and [capture_content_with_cache]. *)
Definition capture_with_cache (fuel : nat) (p : Path) : Io (option FileSnapshot) :=
  observed_at ← system_now;
  m ← metadata p;
  unreliable ← metadata_identity_is_unreliable p m;
  capture_file_snapshot fuel p unreliable unreliable m observed_at.

Definition capture_content_with_cache (fuel : nat) (p : Path) : Io (option FileSnapshot) :=
  observed_at ← system_now;
  m ← metadata p;
  unreliable ← metadata_identity_is_unreliable p m;
  capture_file_snapshot fuel p unreliable true m observed_at.

End Capture.
End Hashing.
End Process.

Definition matches (s : FileSnapshot) (i : option FileIdentity) (d : Digest) : bool :=
  match content s with
  | None => bool_decide (i = Some (snapshot_identity s))
  | Some before =>
      bool_decide (before = d) &&
      is_some_and (fun after =>
        if require_full_identity s then bool_decide (snapshot_identity s = after)
        else bool_decide (path (snapshot_identity s) = path after) && (len (snapshot_identity s) =? len after) &&
             bool_decide (object (snapshot_identity s) = object after)) i
  end.

Definition differs_only_in_change_token (s : FileSnapshot) (i : option FileIdentity) : bool :=
  is_none (content s) &&
  is_some_and (fun after =>
    negb (bool_decide (changed after = changed (snapshot_identity s))) &&
    bool_decide (path after = path (snapshot_identity s)) && (len after =? len (snapshot_identity s)) &&
    (modified after =? modified (snapshot_identity s)) &&
    bool_decide (object after = object (snapshot_identity s))) i.

Definition proves_content_change (s : FileSnapshot) : bool :=
  is_some (content s) || is_some (changed (snapshot_identity s)).

(** [From<FileIdentity>]. *)
Definition snapshot_of (i : FileIdentity) : FileSnapshot := mkSnapshot i None true.

(** ** What is known of the kernel *)

Definition change_ns (m : Metadata) : Z := m_ctime m * BILLION + m_ctime_nsec m.

(** The metadata some call answers in a world. *)
Definition witnessed `{Kernel} (w : World) (m : Metadata) : Prop :=
  (exists p, stat w p = Ok m) \/ (exists h, fstat w h = Ok m).

Class KernelLaws `{Kernel} := {
  (* one world comes after another *)
  later : World -> World -> Prop;
  later_order : PreOrder later;
  clock_advances : forall w w', later w w' -> now w <= now w';
  (* the bytes of a file object, and reading on through them *)
  contents : World -> Object -> list Z;
  handle_is_object : forall w h m, fstat w h = Ok m -> m_object m = h;
  read_ends : forall w h i, 0 <= i -> read_at w h i = Ok [] -> Z.of_nat (length (contents w h)) <= i;
  read_reads : forall w h i c, 0 <= i -> read_at w h i = Ok c -> c <> [] ->
    exists rest, drop (Z.to_nat i) (contents w h) = (c ++ rest)%list;
  (* a change time is the clock's when the file was last changed, rounded down
     to the filesystem's grain; a filesystem whose grain is coarser than the
     clock's tick keeps whole seconds *)
  grain : Z -> Z;
  nanoseconds : forall w m, witnessed w m -> 0 <= m_ctime_nsec m < BILLION;
  grain_shows : forall w m, witnessed w m -> grain (m_dev m) <= FINE_TIMESTAMP_RACE_WINDOW \/
    (grain (m_dev m) <= COARSE_TIMESTAMP_RACE_WINDOW /\ m_ctime_nsec m = 0 /\
     forall t, m_modified m = Some t -> t mod BILLION = 0);
  changes_stamp : forall w w' m, later w w' -> witnessed w' m ->
    contents w (m_object m) <> contents w' (m_object m) -> now w < change_ns m + grain (m_dev m)
}.

#[export] Existing Instance later_order.

(** No file lies on NFS. *)
Definition no_nfs `{Kernel} : Prop := forall w p t, statfs_type w p = Ok t -> t <> NFS_SUPER_MAGIC.

(** ** The scan *)

Lemma begins_spec needle l : begins needle l = true <-> exists rest, l = (needle ++ rest)%list.
Proof.
  revert l. induction needle as [|a needle IH]; intros l; simpl; [split; eauto|].
  destruct l as [|b l]; [split; [done|by intros [? ?]]|]. rewrite andb_true_iff, IH, Z.eqb_eq.
  split; [intros [-> [rest ->]]; eauto|]. intros [rest [= -> ->]]. eauto.
Qed.

Lemma occurs_spec needle l : occurs needle l = true <-> exists before rest, l = (before ++ needle ++ rest)%list.
Proof.
  induction l as [|b l IH]; cbn [occurs]; rewrite orb_true_iff, begins_spec.
  - split; [intros [[rest ->]|]; [by exists [], rest|done]|]. intros (before & rest & He). left. exists rest.
    by destruct before.
  - rewrite IH. split.
    + intros [[rest ->]|(before & rest & ->)]; [by exists [], rest|by exists (b :: before), rest].
    + intros ([|c before] & rest & He); [by left; exists rest|]. right. injection He as _ ->. eauto.
Qed.

(** An occurrence reaches past [data] only from its last bytes, so the window
    is enough to see it. *)
Lemma occurs_window needle before window chunk n :
  (length needle <= S n)%nat -> before = [] \/ (n <= length window)%nat ->
  occurs needle (before ++ window ++ chunk) = occurs needle (before ++ window) || occurs needle (window ++ chunk).
Proof.
  intros Hn Hw. apply eq_true_iff_eq. rewrite orb_true_iff, !occurs_spec. split.
  - intros (a & rest & He). destruct Hw as [->|Hw]; [right; by exists a, rest|].
    destruct (decide (length before <= length a)%nat) as [Hl|Hl].
    + right. apply (f_equal (drop (length before))) in He. rewrite drop_app_length in He. rewrite (drop_app_le a _ _ Hl) in He.
      eauto.
    + left. pose proof (length_app before window) as Hk. apply (f_equal (take (length (before ++ window)))) in He.
      rewrite (assoc_L (++)%list), take_app_length, !take_app_ge in He by (rewrite ?Hk; lia). eauto.
  - intros [(a & rest & He)|(a & rest & He)].
    + exists a, (rest ++ chunk)%list. by rewrite (assoc_L (++)%list), He, <- !(assoc_L (++)%list).
    + exists (before ++ a)%list, rest. by rewrite He, <- !(assoc_L (++)%list).
Qed.

Lemma macros_are_short : Forall (fun m => (length m <= longest_macro)%nat) TIMESTAMP_MACROS.
Proof. by repeat constructor; vm_compute; lia. Qed.

Lemma finds_macro_window before window chunk :
  before = [] \/ (longest_macro - 1 <= length window)%nat ->
  finds_macro (before ++ window ++ chunk) = finds_macro (before ++ window) || finds_macro (window ++ chunk).
Proof.
  intros Hw. unfold finds_macro. pose proof macros_are_short as Hm.
  pose proof (eq_refl : longest_macro = 13%nat) as Hlong. induction Hm as [|m ms Hl Hm IH]; [done|].
  cbn [existsb]. rewrite IH, (occurs_window m before window chunk (longest_macro - 1) ltac:(lia) Hw).
  by destruct (occurs m (before ++ window)), (occurs m (window ++ chunk)), (existsb _ ms), (existsb _ ms).
Qed.

(** ** The reader *)

(** Searching and hashing the whole file. *)
Definition whole_file `{Hashes} (scope : FileDigestScope) (b : list Z) : FileDigestResolution :=
  if negb (is_content scope) && finds_macro b then EmbeddedTimestampMacro else FileDigest (blake3 blake3_hex b).

(** What the loop carries after reading [data]. *)
Record scans (scope : FileDigestScope) (data : list Z) (s : Scan) : Prop := {
  scans_hashed : hashed s = data;
  scans_size : read_size s = Z.of_nat (length data);
  scans_found : found s = negb (is_content scope) && finds_macro data;
  scans_window : is_content scope = false -> found s = false ->
    exists before, data = (before ++ window s)%list /\ (before = [] \/ (longest_macro - 1 <= length (window s))%nat)
}.

Lemma scans_start scope : scans scope [] (mkScan [] 0 [] false).
Proof. split; try done; [by destruct scope|]. exists []. split; [done|by left]. Qed.

Lemma finds_macro_app_l a b : finds_macro a = true -> finds_macro (a ++ b) = true.
Proof.
  unfold finds_macro. rewrite !existsb_exists. intros (m & Hm & (x & y & ->)%occurs_spec).
  exists m. split; [done|]. apply occurs_spec. exists x, (y ++ b)%list. by rewrite <- !(assoc_L (++)%list).
Qed.

Lemma scan_chunk_scans scope data chunk s s' :
  scans scope data s -> scan_chunk scope chunk s = Ok s' -> scans scope (data ++ chunk) s'.
Proof.
  intros [Hh Hs Hf Hw] H. unfold scan_chunk in H.
  destruct (checked_add _ _) as [size|] eqn:Hc; cbn [ok_or mbind result_bind] in H; [|done].
  assert (size = Z.of_nat (length (data ++ chunk))) as ->.
  { unfold checked_add in Hc. destruct (_ <=? _); [|done]. injection Hc as <-. rewrite length_app. lia. }
  destruct (is_content scope) eqn:Hsc; cbn [negb andb] in *.
  { injection H as <-. rewrite Hh. split; try done; by rewrite Hsc. }
  destruct (found s) eqn:Hfs; cbn [negb andb] in *; injection H as <-; rewrite Hh.
  { split; try done. cbn [found]. by rewrite Hsc, (finds_macro_app_l data chunk (eq_sym Hf)). }
  destruct (Hw eq_refl eq_refl) as (before & -> & Hb). split; try done; cbn [found window].
  - rewrite Hsc, <- (assoc_L (++)%list), finds_macro_window by done. by rewrite <- Hf.
  - intros _ _. set (e := (window s ++ chunk)%list). set (keep := (length e - (longest_macro - 1))%nat).
    pose proof (eq_refl : longest_macro = 13%nat) as Hlong. exists (before ++ take keep e)%list. split.
    + by rewrite <- !(assoc_L (++)%list), take_drop.
    + rewrite length_drop. destruct (decide (keep = 0%nat)) as [H0|H0]; unfold keep, e in *; rewrite length_app in *.
      * destruct Hb as [->|Hb]; [left; by rewrite H0|right; lia].
      * right. lia.
Qed.

Section Reader.
Context `{KernelLaws} `{Hashes}.

Lemma scan_outcome_whole scope data s : scans scope data s ->
  scan_outcome s = (whole_file scope data, Z.of_nat (length data)).
Proof.
  intros [Hh Hs Hf _]. unfold scan_outcome, whole_file, blake3. rewrite Hf, Hh, Hs. by destruct (_ && _).
Qed.

(** The worlds a process sees next are those it saw next before, but some. *)
Definition passed (k : nat) (s s' : Process) : Prop := forall n, ahead s' n = ahead s (k + n)%nat.

Lemma digest_loop_whole fuel scope h st s r s' data :
  scans scope data st -> digest_loop fuel scope h st s = (Ok r, s') ->
  exists k, passed (S k) s s' /\ filesystems s' = filesystems s /\
    forall b, (forall n, (n <= k)%nat -> contents (ahead s n) h = b) -> data `prefix_of` b ->
    r = (whole_file scope b, Z.of_nat (length b)).
Proof.
  revert st s data. induction fuel as [|fuel IH]; intros st s data Hst Hr; cbn [digest_loop] in Hr; [done|].
  unfold mbind, Io_bind, call at 1 in Hr.
  destruct (read_at _ _ _) as [[|c chunk]|e] eqn:Hread; [..|done].
  - injection Hr as <- <-. exists 0%nat. split; [done|]. split; [done|]. intros b Hb [rest ->].
    apply read_ends in Hread; [|rewrite (scans_size _ _ _ Hst); lia]. rewrite Hb, (scans_size _ _ _ Hst), length_app in Hread by lia.
    destruct rest; [|simpl in Hread; lia]. rewrite app_nil_r. by apply scan_outcome_whole.
  - unfold lift_io in Hr. destruct (scan_chunk scope (c :: chunk) st) as [st'|] eqn:Hscan; [|done].
    pose proof (scan_chunk_scans _ _ _ _ _ Hst Hscan) as Hst'.
    destruct (IH _ _ _ Hst' Hr) as (k & Hp & Hf & Hk). exists (S k). split; [intros n; by rewrite Hp|].
    split; [done|]. intros b Hb [rest ->]. apply Hk; [intros n Hn; apply Hb; lia|].
    apply read_reads in Hread as (rest' & He); [|rewrite (scans_size _ _ _ Hst); lia|done].
    rewrite Hb, (scans_size _ _ _ Hst), Nat2Z.id, drop_app_length in He by lia. rewrite He, (assoc_L (++)%list).
    by exists rest'.
Qed.

Lemma digest_loop_finishes fuel scope h st s data b :
  (forall n, contents (ahead s n) h = b) -> (forall n i, is_ok (read_at (ahead s n) h i) = true) ->
  Z.of_nat (length b) <= u64_max -> (length b - length data < fuel)%nat ->
  scans scope data st -> data `prefix_of` b ->
  fst (digest_loop fuel scope h st s) = Ok (whole_file scope b, Z.of_nat (length b)).
Proof.
  intros Hb Hok Hu. revert st s data Hb Hok. induction fuel as [|fuel IH]; intros st s data Hb Hok Hl Hst [rest He]; [lia|].
  cbn [digest_loop]. unfold mbind, Io_bind, call at 1.
  pose proof (Hok 0%nat (read_size st)) as Hread. destruct (read_at _ _ _) as [[|c chunk]|e] eqn:E; [..|done].
  - simpl. apply read_ends in E; [|rewrite (scans_size _ _ _ Hst); lia]. rewrite Hb, (scans_size _ _ _ Hst), He, length_app in E.
    destruct rest; [|simpl in E; lia]. rewrite He, app_nil_r. f_equal. by apply scan_outcome_whole.
  - apply read_reads in E as (rest' & Hr); [|rewrite (scans_size _ _ _ Hst); lia|done].
    rewrite Hb, (scans_size _ _ _ Hst), Nat2Z.id, He, drop_app_length in Hr.
    assert (Hc : is_ok (scan_chunk scope (c :: chunk) st) = true).
    { unfold scan_chunk, checked_add. rewrite (scans_size _ _ _ Hst).
      rewrite He, Hr, !length_app in Hu. rewrite (proj2 (Z.leb_le _ u64_max)) by lia. cbn [ok_or mbind result_bind].
      by destruct (negb (is_content scope) && negb (found st)). }
    unfold lift_io. destruct (scan_chunk scope (c :: chunk) st) as [st'|] eqn:Hscan; [|done].
    apply (IH st' _ (data ++ c :: chunk)%list); [intros n; apply (Hb (S n))|intros n; apply (Hok (S n))| |by eapply scan_chunk_scans|].
    + rewrite He, Hr, !length_app in *. simpl in *. lia.
    + exists rest'. by rewrite He, Hr, (assoc_L (++)%list).
Qed.

End Reader.

(** C16: Reading in bounded pieces, with a window carried from one to the next,
    finds a timestamp macro exactly when a search of the whole file does, and
    otherwise hashes the whole file, however the reads are cut; the loop ends. *)
Theorem timestamp_scan_exact `{KernelLaws} `{Hashes} fuel scope h s b :
  (forall n, contents (ahead s n) h = b) -> (forall n i, is_ok (read_at (ahead s n) h i) = true) ->
  Z.of_nat (length b) <= u64_max -> (length b < fuel)%nat ->
  fst (digest_reader fuel scope h s) = Ok (whole_file scope b, Z.of_nat (length b)).
Proof.
  intros Hb Hok Hu Hf. apply (digest_loop_finishes _ _ _ _ _ []); [done..|simpl; lia|apply scans_start|].
  by exists b.
Qed.

(** ** Running a process *)

Section Running.
Context `{KernelLaws} `{Hashes}.

(** The devices known so far are known rightly where nothing lies on NFS. *)
Definition local (s : Process) : Prop := forall d u, filesystems s !! d = Some u -> u = false.

(** What any part of a process does to its worlds and its memo. *)
Definition goes (s s' : Process) : Prop := (exists k, passed k s s') /\ (local s -> local s').

Definition chronological (s : Process) : Prop := forall n, later (ahead s n) (ahead s (S n)).

Lemma passed_trans k l s s1 s2 : passed k s s1 -> passed l s1 s2 -> passed (k + l) s s2.
Proof. intros Hk Hl n. rewrite Hl, Hk. f_equal. lia. Qed.

Lemma goes_refl s : goes s s.
Proof. split; [by exists 0%nat|done]. Qed.

Lemma goes_trans s s1 s2 : goes s s1 -> goes s1 s2 -> goes s s2.
Proof. intros [[k Hk] ?] [[l Hl] ?]. split; [|tauto]. exists (k + l)%nat. by eapply passed_trans. Qed.

Lemma goes_passed k s s' : passed k s s' -> filesystems s' = filesystems s -> goes s s'.
Proof. intros Hk Hf. split; [by exists k|]. unfold local. by rewrite Hf. Qed.

Lemma chronological_later s n m : chronological s -> (n <= m)%nat -> later (ahead s n) (ahead s m).
Proof. intros Hc. induction 1 as [|m Hm IH]; [done|]. by etrans. Qed.

Lemma chronological_goes s s' : chronological s -> goes s s' -> chronological s' /\ later (ahead s 0%nat) (ahead s' 0%nat).
Proof.
  intros Hc [[k Hk] _]. split.
  - intros n. rewrite !Hk, Nat.add_succ_r. apply Hc.
  - rewrite Hk. apply chronological_later; [done|lia].
Qed.

Lemma bind_ok {A B} (m : Io A) (f : A -> Io B) s b s' :
  (m ≫= f) s = (Ok b, s') -> exists a s1, m s = (Ok a, s1) /\ f a s1 = (Ok b, s').
Proof. unfold mbind, Io_bind. destruct (m s) as [[a|e] s1]; [|done]. intros Hf. eauto. Qed.

Lemma call_ok {A} (f : World -> result IoError A) s a s' :
  call f s = (Ok a, s') -> f (ahead s 0%nat) = Ok a /\ passed 1 s s' /\ filesystems s' = filesystems s.
Proof. unfold call. destruct (f _); [|done]. intros [= <- <-]. done. Qed.

Lemma lift_io_ok {A} (r : result IoError A) s a s' : lift_io r s = (Ok a, s') -> r = Ok a /\ s' = s.
Proof. unfold lift_io. by intros [= -> <-]. Qed.

Lemma call_goes {A} (f : World -> result IoError A) s r s' : call f s = (r, s') -> goes s s'.
Proof. unfold call. intros [= <- <-]. by apply (goes_passed 1). Qed.

Lemma unreliable_goes p m s r s' : metadata_identity_is_unreliable p m s = (r, s') ->
  no_nfs -> goes s s' /\ (local s -> r = Ok true -> False).
Proof.
  unfold metadata_identity_is_unreliable. intros Hr Hn.
  destruct (filesystems s !! m_dev m) as [u|] eqn:Hm.
  { injection Hr as <- <-. split; [apply goes_refl|]. intros Hl [= ->]. by apply Hl in Hm. }
  destruct (has_nul p); [injection Hr as <- <-; split; [apply goes_refl|done]|].
  destruct (call _ s) as [[t|e] s1] eqn:Hc; injection Hr as <- <-; [|split; [by eapply call_goes|done]].
  apply call_ok in Hc as (Ht & Hp & Hf). apply Hn, Z.eqb_neq in Ht. split; [|intros _; by rewrite Ht].
  split; [exists 1%nat; exact Hp|]. intros Hl d u. simpl. rewrite Hf, Ht. destruct (decide (d = m_dev m)) as [->|Hd].
  - rewrite lookup_insert_eq. by intros [= <-].
  - rewrite lookup_insert_ne by done. apply Hl.
Qed.

(** On a local filesystem the identity for the ledger is the one metadata give. *)
Lemma local_identity p m s i s' : no_nfs -> local s ->
  for_digest_cache p m s = (Ok i, s') -> i = describe p m /\ goes s s'.
Proof.
  intros Hn Hl Hi. unfold for_digest_cache in Hi. apply bind_ok in Hi as (u & s1 & Hu & Hi).
  destruct (unreliable_goes _ _ _ _ _ Hu Hn) as [Hg Hf]. destruct u; [by destruct Hf|].
  by injection Hi as <- <-.
Qed.

Lemma still_describes_ok i s b s' : no_nfs -> local s -> still_describes i s = (Ok b, s') ->
  goes s s' /\ exists m, stat (ahead s 0%nat) (path i) = Ok m /\ b = bool_decide (describe (path i) m = Some i).
Proof.
  intros Hn Hl Hb. unfold still_describes in Hb. apply bind_ok in Hb as (m & s1 & Hm & Hb).
  pose proof (call_goes _ _ _ _ Hm) as Hg. apply call_ok in Hm as (Hm & _ & _).
  apply bind_ok in Hb as (o & s2 & Ho & Hb). apply local_identity in Ho as [-> Hg']; [|done|by apply Hg].
  injection Hb as <- <-. split; [by eapply goes_trans|]. eauto.
Qed.

End Running.

(** ** Settled files *)

Lemma settled_before i t c n :
  changed i = Some (c, n) -> 0 <= n < BILLION -> identity_is_racy i t = false ->
  c * BILLION + n + FINE_TIMESTAMP_RACE_WINDOW <= t /\
  (n = 0 -> modified i mod BILLION = 0 -> c * BILLION + n + COARSE_TIMESTAMP_RACE_WINDOW <= t).
Proof.
  intros Hc Hn Hr. unfold identity_is_racy in Hr. rewrite Hc in Hr. cbn in Hr.
  apply orb_false_iff in Hr as [_ Hr]. destruct (c <? 0); [done|].
  assert ((0 <=? n) && (n <=? 4294967295) = true) as Hu by (unfold BILLION in Hn; lia). rewrite Hu in Hr.
  apply orb_false_iff in Hr as [Ht Hw]. unfold FINE_TIMESTAMP_RACE_WINDOW, COARSE_TIMESTAMP_RACE_WINDOW, BILLION in *.
  split.
  - destruct (_ && (n =? 0)); lia.
  - intros -> Hm. assert (subsec_nanos (modified i) = 0) as Hs by (unfold subsec_nanos; by destruct (0 <=? modified i)).
    rewrite Hs in Hw. simpl in Hw. lia.
Qed.

Section Settled.
Context `{KernelLaws} `{Hashes}.

(** A file that was settled at one moment and has the same identity at another
    had the same contents all along. *)
Lemma settled_is_constant w0 w m p i :
  witnessed w m -> describe p m = Some i -> identity_is_racy i (now w0) = false ->
  forall w', later w0 w' -> later w' w -> contents w' (m_object m) = contents w (m_object m).
Proof.
  intros Hw Hd Hr w' Hl0 Hl1. destruct (decide (contents w' (m_object m) = contents w (m_object m))) as [|Hne]; [done|].
  exfalso. pose proof (changes_stamp w' w m Hl1 Hw Hne) as Hs. pose proof (clock_advances _ _ Hl0).
  unfold describe in Hd. destruct (m_modified m) as [t|] eqn:Hm; [|done]. injection Hd as Hi.
  assert (changed i = change_token m) as Hc by (by rewrite <- Hi). assert (modified i = t) as Hmod by (by rewrite <- Hi).
  destruct (settled_before i _ (m_ctime m) (m_ctime_nsec m) Hc (nanoseconds _ _ Hw) Hr) as [Hfine Hcoarse].
  unfold change_ns in Hs. destruct (grain_shows _ _ Hw) as [?|(? & Hn & Ht)]; [lia|].
  rewrite Hmod in Hcoarse. specialize (Hcoarse Hn (Ht _ Hm)). lia.
Qed.

(** A device number is its two halves. *)
Lemma same_device d d' : Z.shiftr d 32 = Z.shiftr d' 32 -> Z.land d 0xFFFFFFFF = Z.land d' 0xFFFFFFFF -> d = d'.
Proof.
  change 0xFFFFFFFF with (Z.ones 32). rewrite !Z.shiftr_div_pow2, !Z.land_ones by lia. intros Hh Hl.
  rewrite (Z.div_mod d (2 ^ 32)), (Z.div_mod d' (2 ^ 32)) by lia. lia.
Qed.

Lemma described_object p m i : describe p m = Some i ->
  path i = p /\ forall m', describe p m' = Some i -> m_object m' = m_object m.
Proof.
  unfold describe. destruct (m_modified m) as [t|]; [|done]. intros [= <-]. split; [done|].
  intros m' Hm'. destruct (m_modified m') as [t'|]; [|done]. injection Hm' as _ _ _ _ Hh Hl Hi.
  unfold m_object. by rewrite (same_device _ _ Hh Hl), Hi.
Qed.

Lemma names_same_object a b : metadata_names_same_file a b = true -> m_object a = m_object b.
Proof. unfold metadata_names_same_file, m_object. intros [?%Z.eqb_eq ?%Z.eqb_eq]%andb_prop. by f_equal. Qed.
End Settled.

(** ** Validated digests *)

Section Validated.
Context `{KernelLaws} `{Hashes}.

(** What a validated read saw. *)
Lemma validated_saw fuel scope p s v s' :
  no_nfs -> local s -> digest_file_validated fuel scope p s = (Ok (Some v), s') ->
  exists k j current,
    passed k s s' /\ (local s -> local s') /\ (j < k)%nat /\
    stat (ahead s j) p = Ok current /\ describe p current = Some (observed_identity v) /\
    (forall i, cache_identity_of v = Some i ->
       i = observed_identity v /\ identity_is_racy i (now (ahead s 0%nat)) = false) /\
    (forall b, (forall n, (n < k)%nat -> contents (ahead s n) (m_object current) = b) -> resolution v = whole_file scope b).
Proof.
  intros Hn Hl Hv. unfold digest_file_validated in Hv.
  apply bind_ok in Hv as (started & s1 & [Hnow [Hp1 Hf1]]%call_ok & Hv). injection Hnow as <-.
  apply bind_ok in Hv as (h & s2 & [_ [Hp2 Hf2]]%call_ok & Hv).
  apply bind_ok in Hv as (before & s3 & [_ [Hp3 Hf3]]%call_ok & Hv).
  destruct (m_is_file before); [|done]. cbn [negb] in Hv.
  apply bind_ok in Hv as ([r size] & s4 & Hread & Hv).
  unfold digest_reader in Hread. apply (digest_loop_whole _ _ _ _ _ _ _ _ (scans_start scope)) in Hread as (k4 & Hp4 & Hf4 & Hr).
  apply bind_ok in Hv as (after & s5 & [Hafter [Hp5 Hf5]]%call_ok & Hv).
  apply bind_ok in Hv as (current & s6 & [Hcur [Hp6 Hf6]]%call_ok & Hv).
  assert (Hl6 : local s6) by (unfold local; by rewrite Hf6, Hf5, Hf4, Hf3, Hf2, Hf1).
  apply bind_ok in Hv as (u & s7 & Hu & Hv).
  destruct (unreliable_goes _ _ _ _ _ Hu Hn) as [Hg7 Hnot]. destruct u; [by destruct Hnot|]. clear Hu Hnot.
  apply bind_ok in Hv as (cache & s8 & [Hc ->]%lift_io_ok & Hv). injection Hc as <-.
  pose proof (passed_trans _ _ _ _ _ Hp1 Hp2) as H12. pose proof (passed_trans _ _ _ _ _ H12 Hp3) as H13.
  pose proof (passed_trans _ _ _ _ _ H13 Hp4) as H14. pose proof (passed_trans _ _ _ _ _ H14 Hp5) as H15.
  pose proof (passed_trans _ _ _ _ _ H15 Hp6) as H16.
  destruct (describe p current) as [identity|] eqn:Hd; cbn [option_or] in Hv; [|done].
  destruct (metadata_names_same_file after current) eqn:Hsame; [|done]. cbn [negb] in Hv.
  apply bind_ok in Hv as (stable & s9 & [_ ->]%lift_io_ok & Hv). destruct stable; [|done]. cbn [negb] in Hv.
  injection Hv as <- <-. destruct Hg7 as [[k7 Hp7] Hl7]. pose proof (passed_trans _ _ _ _ _ H16 Hp7) as H17.
  apply names_same_object in Hsame. apply handle_is_object in Hafter.
  eexists _, (1 + 1 + 1 + S k4 + 1)%nat, current. split; [exact H17|]. split; [intros _; by apply Hl7|]. split; [lia|].
  split; [by rewrite <- Hcur, (H15 0%nat), Nat.add_0_r|]. split; [exact Hd|]. split.
  - cbn. intros i. destruct (identity_is_racy identity _) eqn:Hracy; [done|]. by intros [= <-].
  - intros b Hb. cbn. assert ((r, size) = (whole_file scope b, Z.of_nat (length b))) as [= -> _]; [|done].
    apply Hr; [|by exists b]. intros n Hle. rewrite H13. rewrite <- Hsame, Hafter in Hb. apply Hb. lia.
Qed.
End Validated.

(** C15: A digest offered for reuse stays right where no file lies on NFS: as long
    as the file still has the identity the digest was recorded under, its
    contents are the ones that were hashed, whatever other processes wrote,
    replaced or touched during the read and since.  The identities taken on NFS
    leave the change time out and promise less. *)
Theorem recorded_digest_is_current `{KernelLaws} `{Hashes} fuel scope p s v s1 i s2 s3 :
  no_nfs -> chronological s -> local s ->
  digest_file_validated fuel scope p s = (Ok (Some v), s1) -> cache_identity_of v = Some i ->
  later (ahead s1 0%nat) (ahead s2 0%nat) -> local s2 -> still_describes i s2 = (Ok true, s3) ->
  exists m, stat (ahead s2 0%nat) p = Ok m /\
    resolution v = whole_file scope (contents (ahead s2 0%nat) (m_object m)).
Proof.
  intros Hn Hc Hl Hv Hi Hl12 Hl2 Hstill.
  destruct (validated_saw _ _ _ _ _ _ Hn Hl Hv) as (k & j & current & Hk & _ & Hj & Hstat & Hd & Hcache & Hr).
  destruct (Hcache _ Hi) as [-> Hracy]. destruct (described_object _ _ _ Hd) as [Hp Hsame].
  destruct (still_describes_ok _ _ _ _ Hn Hl2 Hstill) as (_ & m & Hm & Hb). rewrite Hp in Hm, Hb.
  symmetry in Hb. apply bool_decide_eq_true in Hb. exists m. split; [done|]. apply Hr. intros n Hlt.
  rewrite <- (Hsame m Hb).
  apply (settled_is_constant (ahead s 0%nat) _ m p (observed_identity v)); [left; eauto|done|done|..].
  - apply chronological_later; [done|lia].
  - etrans; [|exact Hl12]. rewrite (Hk 0%nat). apply chronological_later; [done|lia].
Qed.

(** A snapshot without a digest is the identity of a file found settled. *)
Lemma captured_settled `{KernelLaws} `{Hashes} `{!DigestCache} fuel p s snapshot s1 :
  no_nfs -> local s -> capture_with_cache fuel p s = (Ok (Some snapshot), s1) -> content snapshot = None ->
  exists m i, describe p m = Some i /\ identity_is_racy i (now (ahead s 0%nat)) = false /\
    snapshot = mkSnapshot i None true.
Proof.
  intros Hn Hl Hs Hnone. unfold capture_with_cache in Hs.
  apply bind_ok in Hs as (t & sa & [Ht [_ Hfa]]%call_ok & Hs). injection Ht as <-.
  apply bind_ok in Hs as (m0 & sb & [_ [_ Hfb]]%call_ok & Hs).
  assert (Hlb : local sb) by (unfold local; by rewrite Hfb, Hfa).
  apply bind_ok in Hs as (u & sc & Hu & Hs). destruct (unreliable_goes _ _ _ _ _ Hu Hn) as [_ Hnot].
  destruct u; [by destruct Hnot|]. unfold capture_file_snapshot in Hs.
  apply bind_ok in Hs as (cache & sd & [Hcache ->]%lift_io_ok & Hs). injection Hcache as <-.
  destruct (describe p m0) as [i|] eqn:Hd; cbn [option_or] in Hs; [|done]. cbn [orb] in Hs.
  destruct (identity_is_racy i (now (ahead s 0%nat))) eqn:Hracy.
  - exfalso. apply bind_ok in Hs as (resolved & se & _ & Hs). apply bind_ok in Hs as (cached & sf & _ & Hs).
    destruct cached; [by injection Hs as <- <-|].
    repeat apply bind_ok in Hs as (? & ? & _ & Hs). by injection Hs as <- <-.
  - injection Hs as <- <-. eauto.
Qed.

(** A settled snapshot pins the contents: if it holds no digest and still
    matches the identity found later, the file's contents were the same at
    every moment in between. *)
Lemma settled_snapshot_pins_contents `{KernelLaws} `{Hashes} `{!DigestCache} fuel p s snapshot s1 w m d :
  no_nfs -> local s -> capture_with_cache fuel p s = (Ok (Some snapshot), s1) -> content snapshot = None ->
  stat w p = Ok m -> matches snapshot (describe p m) d = true ->
  forall w', later (ahead s 0%nat) w' -> later w' w -> contents w' (m_object m) = contents w (m_object m).
Proof.
  intros Hn Hl Hs Hnone Hm Hmatch.
  destruct (captured_settled _ _ _ _ _ Hn Hl Hs Hnone) as (m0 & i & Hd & Hracy & ->).
  unfold matches in Hmatch. cbn in Hmatch. apply bool_decide_eq_true in Hmatch.
  intros w' Hl0 Hl1. apply (settled_is_constant (ahead s 0%nat) w m p i); [left; eauto|done..].
Qed.

(** ** A kernel with these laws

    Files in memory under named objects; anybody may write, touch, link and
    unlink, and the clock moves on.  Reads are short, three bytes at most. *)

Module Memory.

Record MemoryFile := mkFile { bytes : list Z; mtime : Z; ctime : Z }.
Record MemoryWorld := mkWorld { clock : Z; names : gmap string Object; files : gmap Object MemoryFile }.

Definition GRAIN : Z := 4 * 1000000.
Definition stamp (w : MemoryWorld) : Z := clock w - clock w mod GRAIN.

Definition put (w : MemoryWorld) (o : Object) (f : MemoryFile) : MemoryWorld :=
  mkWorld (clock w) (names w) (<[o := f]> (files w)).

Inductive step : MemoryWorld -> MemoryWorld -> Prop :=
| step_tick w d : 0 <= d -> step w (mkWorld (clock w + d) (names w) (files w))
| step_write w o b : step w (put w o (mkFile b (stamp w) (stamp w)))
| step_touch w o f t : files w !! o = Some f -> step w (put w o (mkFile (bytes f) t (stamp w)))
| step_link w p o : step w (mkWorld (clock w) (<[p := o]> (names w)) (files w))
| step_unlink w p : step w (mkWorld (clock w) (delete p (names w)) (files w)).

Definition metadata_of (o : Object) (f : MemoryFile) : Metadata :=
  mkMetadata true (Z.of_nat (length (bytes f))) (Some (mtime f)) o.1 o.2 (ctime f / BILLION) (ctime f mod BILLION).

Definition fstat_in (w : MemoryWorld) (o : Object) : result IoError Metadata :=
  f ← ok_or NotFound (files w !! o); Ok (metadata_of o f).

Definition open_in (w : MemoryWorld) (p : Path) : result IoError Object := ok_or NotFound (names w !! render p).

Definition bytes_in (w : MemoryWorld) (o : Object) : list Z := from_option bytes [] (files w !! o).

#[export] Instance memory : Kernel := {
  World := MemoryWorld;
  now := clock;
  stat w p := o ← open_in w p; fstat_in w o;
  open_file := open_in;
  fstat := fstat_in;
  read_at w o i := Ok (take 3 (drop (Z.to_nat i) (bytes_in w o)));
  statfs_type _ _ := Ok 0xEF53;
  statx _ _ := Err ENOSYS
}.

Lemma clock_step w w' : step w w' -> clock w <= clock w'.
Proof. destruct 1; simpl; lia. Qed.

Lemma clock_later w w' : rtc step w w' -> clock w <= clock w'.
Proof. induction 1 as [|w w1 w' Hs _ IH]; [lia|]. apply clock_step in Hs. lia. Qed.

(** A file is as it was, or was stamped since. *)
Lemma stamped w w' o f : rtc step w w' -> files w' !! o = Some f ->
  files w !! o = Some f \/ clock w < ctime f + GRAIN.
Proof.
  intros Hs. revert w' Hs f. refine (rtc_ind_r _ w _ _); [by left|]. intros w1 w2 Hs Hstep IH f Hf.
  apply clock_later in Hs.
  assert (clock w < stamp w1 + GRAIN) as Hnow.
  { unfold stamp. pose proof (Z.mod_pos_bound (clock w1) GRAIN ltac:(done)). lia. }
  destruct Hstep as [w1 d ?|w1 o' b|w1 o' g t Hg|w1 p o'|w1 p]; simpl in *; [by apply IH|..|by apply IH|by apply IH];
    (destruct (decide (o = o')) as [->|]; [rewrite lookup_insert_eq in Hf; injection Hf as <-; by right|]);
    (rewrite lookup_insert_ne in Hf by done; by apply IH).
Qed.

Lemma witnessed_in w m : witnessed w m -> exists f, files w !! m_object m = Some f /\ m = metadata_of (m_object m) f.
Proof.
  assert (forall o, fstat_in w o = Ok m -> exists f, files w !! m_object m = Some f /\ m = metadata_of (m_object m) f) as Hf.
  { intros o. unfold fstat_in. destruct (files w !! o) as [f|] eqn:Hf; [|done]. intros [= <-]. exists f.
    unfold m_object. cbn. by rewrite <- surjective_pairing. }
  intros [[p Hp]|[h Hh]]; [|by eapply Hf]. cbn in Hp. destruct (open_in w p) as [o|]; [|done]. by apply (Hf o).
Qed.

#[export, refine] Instance memory_laws : KernelLaws := {
  later := rtc step;
  contents := bytes_in;
  grain _ := GRAIN
}.
Proof.
  - intros w w'. apply clock_later.
  - intros w h m Hm. cbn in Hm. unfold fstat_in in Hm. destruct (files w !! h); [|done]. injection Hm as <-.
    by destruct h.
  - intros w h i Hi0. cbn. intros [= Hi]. assert (length (drop (Z.to_nat i) (bytes_in w h)) = 0%nat) as Hl.
    { by destruct (drop (Z.to_nat i) (bytes_in w h)). }
    rewrite length_drop in Hl. lia.
  - intros w h i c _ Hr _. cbn in Hr. injection Hr as <-. eexists. symmetry. apply take_drop.
  - intros w m (f & _ & ->)%witnessed_in. cbn. by apply Z.mod_pos_bound.
  - intros w m _. left. done.
  - intros w w' m Hl (f & Hf & Hm)%witnessed_in Hne. cbn in Hl.
    destruct (stamped _ _ _ _ Hl Hf) as [Hw|Hw].
    + destruct Hne. cbn. unfold bytes_in. by rewrite Hw, Hf.
    + rewrite Hm. unfold change_ns. cbn. pose proof (Z.div_mod (ctime f) BILLION ltac:(done)). lia.
Defined.

(** The bytes themselves for a hash. *)
Definition spell (b : list Z) : string :=
  String.string_of_list_ascii (map (fun z => Ascii.ascii_of_N (Z.to_N z)) b).
#[export] Instance toy_hashes : Hashes := { blake3_hex := spell; sha256_hex := spell }.

Definition source : Path := path_of "/work/src/main.c".
Definition text : list Z := ascii_bytes "int x = __TIME__;".

(** A file written long ago, and a world where it was edited since. *)
Definition quiet : MemoryWorld :=
  mkWorld 5000000000 {[ "/work/src/main.c"%string := (1, 7) ]} {[ (1, 7) := mkFile text 1004000000 1004000000 ]}.

Definition watching : Process := mkProcess (fun _ => quiet) ∅ [].

Lemma timestamp_scan_exact_witness :
  fst (digest_reader 20 CcInput (1, 7) watching) = Ok (EmbeddedTimestampMacro, 17).
Proof.
  exact (timestamp_scan_exact 20 CcInput (1, 7) watching text (fun _ => eq_refl) (fun _ _ => eq_refl)
    ltac:(vm_compute; discriminate) ltac:(vm_compute; lia)).
Defined.

(** The validated read, and looking again a minute later. *)
Definition reading := digest_file_validated 20 Content source watching.
Definition seen : ValidatedFileDigest := Eval vm_compute in
  match fst reading with Ok (Some v) => v | _ => mkValidated Unresolved (mkIdentity [] 0 0 None None) None true end.
Definition later_on : MemoryWorld := mkWorld 65000000000 (names quiet) (files quiet).
Definition looking_again : Process := mkProcess (fun _ => later_on) ∅ [].

Lemma quiet_is_local : no_nfs /\ local watching /\ local looking_again /\ chronological watching.
Proof.
  split; [by intros w p t [= <-]|]. split; [intros d u Hd; cbn in Hd; by rewrite lookup_empty in Hd|].
  split; [intros d u Hd; cbn in Hd; by rewrite lookup_empty in Hd|]. intros n. apply rtc_refl.
Qed.

Lemma a_minute_later : rtc step quiet later_on.
Proof. apply rtc_once. apply (step_tick quiet 60000000000). lia. Qed.

Lemma was_read : fst reading = Ok (Some seen).
Proof. vm_compute. reflexivity. Qed.

Lemma read_at_once : ahead (snd reading) 0%nat = quiet.
Proof. vm_compute. reflexivity. Qed.

Lemma still_there : fst (still_describes (observed_identity seen) looking_again) = Ok true.
Proof. vm_compute. reflexivity. Qed.

Lemma recorded_digest_is_current_witness :
  exists m, stat later_on source = Ok m /\
    resolution seen = whole_file Content (contents later_on (m_object m)) /\
    resolution seen = FileDigest (mkDigest "blake3" "int x = __TIME__;" 17).
Proof.
  destruct quiet_is_local as (Hn & Hl & Hl' & Hc).
  assert (Hv : reading = (Ok (Some seen), snd reading)) by (rewrite <- was_read; apply surjective_pairing).
  assert (Hlater : rtc step (ahead (snd reading) 0%nat) (ahead looking_again 0%nat))
    by (rewrite read_at_once; exact a_minute_later).
  assert (Hstill : still_describes (observed_identity seen) looking_again =
    (Ok true, snd (still_describes (observed_identity seen) looking_again)))
    by (rewrite <- still_there; apply surjective_pairing).
  pose proof (recorded_digest_is_current 20 Content source watching seen (snd reading) (observed_identity seen)
    looking_again) as Hm.
  specialize (Hm (snd (still_describes (observed_identity seen) looking_again)) Hn Hc Hl).
  specialize (Hm Hv). specialize (Hm eq_refl). specialize (Hm Hlater). specialize (Hm Hl'). specialize (Hm Hstill).
  destruct Hm as (m & Hm & Hr).
  exists m. split; [exact Hm|]. split; [exact Hr|reflexivity].
Defined.
End Memory.
