(* ===== verification/RustcAction.v ===== *)
(** * The key of a rustc action

    Models the action builder of [src/crates/mbx-cache-rustc/src/lib.rs]: the
    descriptor whose canonical JSON is hashed to the action's key, and the
    descriptor of an invocation before its inputs are known.  Serialization and
    the hash function are arguments ([Serializer]).

    A builder remembers the directories it resolved; its methods pass that memo
    along ([Build]).  The theorems: whatever the memo holds, a descriptor is
    exactly what its specification says, and there is none when a key could not
    support the claim; and the order inputs are listed in does not matter. *)

From stdpp Require Import base list gmap strings sorting pretty.
From Stdlib Require Import ZArith Lia Ascii.
From S2P Require Import Prelude Protocol Strings PathMap Naming RustcArgs.
Local Open Scope string_scope.

(** ** Data *)

Definition ACTION_SCHEMA_VERSION : Z := 1.
Definition ADAPTER_VERSION : Z := 2.

Record CompilerIdentity := mkCompiler {
  toolchain : string;
  rustc_version : string;
  host : string;
  driver : option string;
}.

Record ActionInput := mkInput { input_path : Path; input_digest : Digest }.

Record ActionContext := mkContext {
  compiler : CompilerIdentity;
  working_dir : Path;
  path_mappings : list PathMapping;
  environment : gmap string (option string);
  portable_environment : gset string;
  inputs : list ActionInput;
}.

Record LinkerIdentity := mkLinker {
  linker_driver : string;
  driver_version : string;
  linker_version : string;
  crt_objects : gmap string Digest;
  sdk : option string;
  deployment_target : option string;
}.

(** [CompilerDescriptor] has the fields of [CompilerIdentity]. *)
Record InvocationDescriptor := mkInvocationDescriptor {
  i_version : Z;
  i_kind : string;
  i_adapter_version : Z;
  i_compiler : CompilerIdentity;
  i_arguments : list string;
  i_required_inputs : list string;
}.

Record ActionDescriptor := mkActionDescriptor {
  d_version : Z;
  d_kind : string;
  d_adapter_version : Z;
  d_compiler : CompilerIdentity;
  d_arguments : list string;
  d_environment : gmap string (option string);
  d_inputs : list (string * Digest);
  d_linker : option LinkerIdentity;
}.

(** [canonical_json] of the two descriptors, and the hash of the bytes. *)
Class Serializer := {
  action_json : ActionDescriptor -> result string (list Z);
  invocation_json : InvocationDescriptor -> result string (list Z);
  hash_hex : list Z -> string;
}.

Record RustcAction := mkAction { action_digest : Digest; action_bytes : list Z }.

(** ** The builder *)

Record ActionBuilder := mkBuilder {
  invocation : RustcInvocation;
  context : ActionContext;
  mappings : list PathMapping;
  linker : option LinkerIdentity;
}.

(** [From<PathNormalizationError>]. *)
Definition bypass_of (e : PathNormalizationError) : BypassReason :=
  match e with
  | UnmappedAbsolutePath path => BypassUnmappedAbsolutePath path
  | NonUtf8Path path => BypassNonUtf8Path path
  end.

Section Builder.
Context `{Disk}.

Definition builder_new (i : RustcInvocation) (c : ActionContext) (l : option LinkerIdentity) : ActionBuilder :=
  let path_mappings := ordered (path_mappings c) in
  mkBuilder i
    (mkContext (compiler c) (working_dir c) path_mappings (environment c) (portable_environment c) (inputs c))
    (resolve_path_mappings path_mappings) l.

Definition normalize_path (b : ActionBuilder) (p : Path) : Build BypassReason string :=
  fun aliases =>
    let '(name, aliases) := normalize_resolved_mapped_path_with aliases p (working_dir (context b)) (mappings b) in
    (map_err bypass_of name, aliases).

Fixpoint component_texts (whole : Path) (p : Path) : result BypassReason (list string) :=
  match p with
  | [] => Ok []
  | c :: p =>
      text ← ok_or (BypassNonUtf8Path whole) (to_str (component_text c));
      texts ← component_texts whole p;
      Ok (text :: texts)
  end.

(** A file under a native search directory keeps the name it was searched by. *)
Fixpoint name_in_directories (b : ActionBuilder) (p absolute : Path) (directories : list Path) : Build BypassReason string :=
  match directories with
  | [] => normalize_path b p
  | d :: directories =>
      let directory := normalize_components (push (working_dir (context b)) d) in
      match strip_path directory absolute with
      | Some relative =>
          texts ← lift (component_texts p relative);
          let suffix := join "/" texts in
          if negb (String.eqb suffix "") then
            name ← normalize_path b directory;
            mret (name ++ "/" ++ suffix)
          else name_in_directories b p absolute directories
      | None => name_in_directories b p absolute directories
      end
  end.

Definition normalize_input_path (b : ActionBuilder) (p : Path) : Build BypassReason string :=
  name_in_directories b p (normalize_components (push (working_dir (context b)) p))
    (native_search_paths (invocation b)).

Definition normalize_emit (b : ActionBuilder) (e : Emit) : Build BypassReason string :=
  match emit_path e with
  | Some path => path ← normalize_path b path; mret (kind e ++ "=" ++ path)
  | None => mret (kind e)
  end.

Definition normalize_argument (b : ActionBuilder) (a : Argument) : Build BypassReason string :=
  match a with
  | Plain value => mret value
  | PathArgument flag path => path ← normalize_path b path; mret (flag ++ "=" ++ path)
  | SearchPath kind path => text ← normalize_path b path; mret ("-L" ++ kind ++ "=" ++ text)
  | Extern name (Some path) => path ← normalize_path b path; mret ("--extern=" ++ name ++ "=" ++ path)
  | Extern name None => mret ("--extern=" ++ name)
  | EmitArgument emits => emits ← each (normalize_emit b) emits; mret ("--emit=" ++ join "," emits)
  | RemapPath from to => from ← normalize_path b from; mret ("--remap-path-prefix=" ++ from ++ "=" ++ to)
  | InstallName name => mret ("--codegen=link-arg=-Wl,-install_name,@rpath/" ++ name)
  | OsoPrefix path trailing_slash =>
      path ← normalize_path b path;
      mret ("--codegen=link-arg=-Wl,-oso_prefix," ++ path ++ (if trailing_slash then "/" else ""))
  | FuseLd selection => mret ("--codegen=link-arg=-fuse-ld=" ++ selection)
  end.

Fixpoint check_mappings (ms : list PathMapping) (roots : gset Path) (placeholders : gset string)
    : result BypassReason unit :=
  match ms with
  | [] => Ok ()
  | m :: ms =>
      let r := normalize_components (root m) in
      if negb (is_absolute (root m)) then Err (RelativePathMapping (root m))
      else if negb (valid_placeholder (placeholder m)) || bool_decide (r ∈ roots) ||
              bool_decide (placeholder m ∈ placeholders)
      then Err (InvalidPathPlaceholder (placeholder m))
      else check_mappings ms ({[ r ]} ∪ roots) ({[ placeholder m ]} ∪ placeholders)
  end.

Definition validate_mappings (b : ActionBuilder) : result BypassReason unit :=
  if negb (is_absolute (working_dir (context b))) then Err (RelativeWorkingDirectory (working_dir (context b)))
  else check_mappings (mappings b) ∅ ∅.

Definition invocation_descriptor (b : ActionBuilder) : Build BypassReason InvocationDescriptor :=
  _ ← lift (validate_mappings b);
  arguments ← each (normalize_argument b) (arguments (invocation b));
  required ← each (normalize_path b) (required_inputs (invocation b));
  mret (mkInvocationDescriptor ACTION_SCHEMA_VERSION "rustc" ADAPTER_VERSION (compiler (context b))
          arguments (string_set required)).

Definition normalize_variable (b : ActionBuilder) (entry : string * option string) : Build BypassReason (string * option string) :=
  let '(name, value) := entry in
  match value with
  | Some value =>
      if bool_decide (name ∈ portable_environment (context b)) then
        value ← normalize_path b (path_of value);
        mret (name, Some value)
      else mret (name, Some value)
  | None => mret (name, None)
  end.

Definition environment_descriptor (b : ActionBuilder) : Build BypassReason (gmap string (option string)) :=
  variables ← each (normalize_variable b) (entries (environment (context b)));
  mret (list_to_map variables).

Fixpoint collect_inputs (b : ActionBuilder) (l : list ActionInput) (collected : gmap string Digest)
    : Build BypassReason (gmap string Digest) :=
  match l with
  | [] => mret collected
  | input :: l =>
      _ ← lift (map_err (fun _ => InvalidInputDigest (render (input_path input))) (validate_digest (input_digest input)));
      path ← normalize_input_path b (input_path input);
      if is_some_and (fun existing => negb (bool_decide (existing = input_digest input))) (collected !! path) then
        lift (Err (ConflictingInput path))
      else collect_inputs b l (<[path := input_digest input]> collected)
  end.

Definition build_descriptor (b : ActionBuilder) : Build BypassReason ActionDescriptor :=
  _ ← lift (validate_mappings b);
  described ← invocation_descriptor b;
  environment ← environment_descriptor b;
  collected ← collect_inputs b (inputs (context b)) ∅;
  required ← each (normalize_input_path b) (required_inputs (invocation b));
  match find (fun path => negb (bool_decide (is_Some (collected !! path)))) (string_set required) with
  | Some missing => lift (Err (MissingRequiredInput missing))
  | None =>
      if links_natively (invocation b) && is_none (linker b) then
        lift (Err (UnportableNativeLink "linker identity is unknown"))
      else
        mret (mkActionDescriptor ACTION_SCHEMA_VERSION "rustc" ADAPTER_VERSION (i_compiler described)
                (i_arguments described) environment (entries collected) (linker b))
  end.

Definition build `{Serializer} (b : ActionBuilder) : Build BypassReason RustcAction :=
  descriptor ← build_descriptor b;
  bytes ← lift (map_err Serialization (action_json descriptor));
  mret (mkAction (blake3 hash_hex bytes) bytes).

(** [RustcInvocation::action_linked_by] and [invocation_digest]. *)
Definition action_linked_by `{Serializer} (i : RustcInvocation) (c : ActionContext) (l : option LinkerIdentity)
    : result BypassReason RustcAction :=
  fst (build (builder_new i c l) ∅).

Definition invocation_digest `{Serializer} (i : RustcInvocation) (c : ActionContext) : result BypassReason Digest :=
  fst ((descriptor ← invocation_descriptor (builder_new i c None);
        bytes ← lift (map_err Serialization (invocation_json descriptor));
        mret (blake3 hash_hex bytes)) ∅).

End Builder.

(** ** What a descriptor says *)

Section Describes.
Context `{DiskLaws} (b : ActionBuilder).

(** The name the key has for a path. *)
Definition names (p : Path) (s : string) : Prop := name_of p (working_dir (context b)) (mappings b) = Ok s.

(** The first native directory a path is strictly beneath, and the rest. *)
Definition searched_in (absolute : Path) : option (Path * Path) :=
  find_map (fun d =>
    let directory := absolute_path d (working_dir (context b)) in
    match strip_path directory absolute with
    | Some (c :: relative) => Some (directory, c :: relative)
    | _ => None
    end) (native_search_paths (invocation b)).

(** The name the key has for an input. *)
Definition names_input (p : Path) (s : string) : Prop :=
  match searched_in (absolute_path p (working_dir (context b))) with
  | Some (directory, relative) =>
      exists name texts, names directory name /\ component_texts p relative = Ok texts /\
        s = name ++ "/" ++ join "/" texts
  | None => names p s
  end.

Definition emit_says (e : Emit) (s : string) : Prop :=
  match emit_path e with
  | Some p => exists name, names p name /\ s = kind e ++ "=" ++ name
  | None => s = kind e
  end.

(** The text the key has for an argument. *)
Definition argument_says (a : Argument) (s : string) : Prop :=
  match a with
  | Plain value => s = value
  | PathArgument flag p => exists name, names p name /\ s = flag ++ "=" ++ name
  | SearchPath kind p => exists name, names p name /\ s = "-L" ++ kind ++ "=" ++ name
  | Extern name (Some p) => exists n, names p n /\ s = "--extern=" ++ name ++ "=" ++ n
  | Extern name None => s = "--extern=" ++ name
  | EmitArgument emits => exists texts, Forall2 emit_says emits texts /\ s = "--emit=" ++ join "," texts
  | RemapPath from to => exists name, names from name /\ s = "--remap-path-prefix=" ++ name ++ "=" ++ to
  | InstallName name => s = "--codegen=link-arg=-Wl,-install_name,@rpath/" ++ name
  | OsoPrefix p trailing_slash =>
      exists name, names p name /\
        s = "--codegen=link-arg=-Wl,-oso_prefix," ++ name ++ (if trailing_slash then "/" else "")
  | FuseLd selection => s = "--codegen=link-arg=-fuse-ld=" ++ selection
  end.

(** The value the key has for a variable. *)
Definition variable_says (name : string) (value value' : option string) : Prop :=
  match value with
  | Some v =>
      if bool_decide (name ∈ portable_environment (context b)) then exists n, names (path_of v) n /\ value' = Some n
      else value' = Some v
  | None => value' = None
  end.

(** What the inputs' names map to. *)
Definition input_map (m : gmap string Digest) : Prop :=
  (forall input, In input (inputs (context b)) ->
     is_ok (validate_digest (input_digest input)) = true /\
     exists name, names_input (input_path input) name /\ m !! name = Some (input_digest input)) /\
  (forall name d, m !! name = Some d ->
     exists input, In input (inputs (context b)) /\ names_input (input_path input) name).

(** A descriptor of the builder's action. *)
Definition describes (d : ActionDescriptor) : Prop :=
  validate_mappings b = Ok () /\
  d_version d = ACTION_SCHEMA_VERSION /\ d_kind d = "rustc" /\ d_adapter_version d = ADAPTER_VERSION /\
  d_compiler d = compiler (context b) /\
  Forall2 argument_says (arguments (invocation b)) (d_arguments d) /\
  (forall p, In p (required_inputs (invocation b)) -> exists name, names p name) /\
  (forall name,
     match environment (context b) !! name with
     | Some value => exists value', variable_says name value value' /\ d_environment d !! name = Some value'
     | None => d_environment d !! name = None
     end) /\
  (exists m, input_map m /\ d_inputs d = entries m /\
     forall p, In p (required_inputs (invocation b)) -> exists name, names_input p name /\ is_Some (m !! name)) /\
  (links_natively (invocation b) = true -> is_Some (linker b)) /\ d_linker d = linker b.

End Describes.

(** Everything a builder names is a path. *)
Definition argument_paths (a : Argument) : list Path :=
  match a with
  | PathArgument _ p | SearchPath _ p | Extern _ (Some p) | RemapPath p _ | OsoPrefix p _ => [p]
  | EmitArgument emits => omap emit_path emits
  | _ => []
  end.

Definition builder_paths (b : ActionBuilder) : list Path :=
  (working_dir (context b) :: flat_map argument_paths (arguments (invocation b)) ++
   required_inputs (invocation b) ++ map input_path (inputs (context b)))%list.

Definition sound_builder (b : ActionBuilder) : Prop := Forall (fun p => well_formed p = true) (builder_paths b).

(** ** The methods *)

Section Methods.
Context `{DiskLaws} (b : ActionBuilder).
Hypothesis Hwd : well_formed (working_dir (context b)) = true.
Hypothesis Habs : is_absolute (working_dir (context b)) = true.

Lemma returns_path p : well_formed p = true -> returns (normalize_path b p) (names b p).
Proof.
  intros Hp aliases Hc. unfold normalize_path, names.
  destruct (memo_gives_plain_names aliases p _ (mappings b) Hc (conj Hp (conj Hwd Habs))) as [He Hc'].
  destruct (normalize_resolved_mapped_path_with _ _ _ _) as [name aliases']. simpl in *. subst name.
  split; [done|]. intros s. destruct (name_of _ _ _); simpl; naive_solver.
Qed.

Lemma returns_emit e :
  (forall p, emit_path e = Some p -> well_formed p = true) -> returns (normalize_emit b e) (emit_says b e).
Proof.
  intros He. unfold normalize_emit, emit_says. destruct (emit_path e) as [p|]; [|apply returns_ret].
  apply (returns_map _ (fun path => kind e ++ "=" ++ path)), returns_path. by apply He.
Qed.

Lemma returns_argument a :
  Forall (fun p => well_formed p = true) (argument_paths a) -> returns (normalize_argument b a) (argument_says b a).
Proof.
  intros Ha. destruct a as [|flag p|k p|name [p|]|es|from to| |p t| ]; simpl in *;
    try apply Forall_cons in Ha as [Ha _]; try apply returns_ret.
  - by apply (returns_map _ (fun path => flag ++ "=" ++ path)), returns_path.
  - by apply (returns_map _ (fun path => "-L" ++ k ++ "=" ++ path)), returns_path.
  - by apply (returns_map _ (fun path => "--extern=" ++ name ++ "=" ++ path)), returns_path.
  - apply (returns_map _ (fun texts => "--emit=" ++ join "," texts)), returns_each.
    intros e He. apply returns_emit. intros p Hp. rewrite Forall_forall in Ha. apply Ha, list_elem_of_omap.
    exists e. split; [by apply list_elem_of_In|done].
  - by apply (returns_map _ (fun path => "--remap-path-prefix=" ++ path ++ "=" ++ to)), returns_path.
  - by apply (returns_map _ (fun path => "--codegen=link-arg=-Wl,-oso_prefix," ++ path ++ (if t then "/" else ""))), returns_path.
Qed.

Lemma absolute_push p : normalize_components (push (working_dir (context b)) p) = absolute_path p (working_dir (context b)).
Proof. unfold absolute_path. destruct (is_absolute p) eqn:E; [|done]. unfold push. by rewrite E. Qed.

Lemma component_texts_names whole names texts : component_texts whole (map Normal names) = Ok texts -> texts = names.
Proof.
  revert texts. induction names as [|n names IH]; intros texts H'; simpl in H'; [by simplify_eq|].
  unfold to_str in H'. destruct (utf8_from [] n); [|done]. simpl in H'.
  destruct (component_texts whole (map Normal names)) as [l|] eqn:E; [|done]. simpl in H'. simplify_eq.
  by rewrite (IH l).
Qed.

(** What lies beneath a directory is given by names. *)
Lemma relative_names d p rel :
  canonical p = true -> is_absolute d = true -> strip_path d p = Some rel ->
  exists ns, rel = map Normal ns /\ Forall (fun n => good_name n = true) ns.
Proof.
  intros Hp Hd Hs%strip_path_inv. subst p. destruct (canonical_snoc _ _ Hp) as [_ Hf]; [by destruct d|].
  pose proof (proj1 (canonical_names (RootDir :: rel)) Hf) as (ns & He & Hn). exists ns. by injection He.
Qed.

Lemma returns_directories p absolute ds :
  well_formed p = true -> canonical absolute = true -> Forall (fun d => well_formed d = true) ds ->
  returns (name_in_directories b p absolute ds)
    (fun s => match find_map (fun d =>
                let directory := absolute_path d (working_dir (context b)) in
                match strip_path directory absolute with
                | Some (c :: relative) => Some (directory, c :: relative)
                | _ => None
                end) ds with
              | Some (directory, relative) =>
                  exists name texts, names b directory name /\ component_texts p relative = Ok texts /\
                    s = name ++ "/" ++ join "/" texts
              | None => names b p s
              end).
Proof.
  intros Hp Hc Hd. induction Hd as [|d ds Hd Hds IH]; cbn [name_in_directories find_map]; [by apply returns_path|].
  rewrite absolute_push. pose proof (absolute_path_canonical d _ Hd Hwd Habs) as Hcd.
  destruct (strip_path (absolute_path d (working_dir (context b))) absolute) as [rel|] eqn:Hs; [|done].
  destruct (relative_names _ _ _ Hc (canonical_absolute _ Hcd) Hs) as (ns & -> & Hns).
  destruct ns as [|n ns]; [exact IH|]. cbn [map].
  eapply returns_weaken.
  - eapply (returns_bind _ _ _ (fun texts s => exists name,
      names b (absolute_path d (working_dir (context b))) name /\ s = name ++ "/" ++ join "/" texts));
      [apply returns_lift|]. intros texts Ht.
    change (Normal n :: map Normal ns) with (map Normal (n :: ns)) in Ht. pose proof (component_texts_names _ _ _ Ht) as ->.
    assert (Hj : String.eqb (join "/" (n :: ns)) "" = false) by (by apply String.eqb_neq, join_nonempty).
    cbv zeta. rewrite Hj. cbn [negb].
    apply (returns_map _ (fun name => name ++ "/" ++ join "/" (n :: ns))), returns_path.
    by apply canonical_well_formed.
  - intros s. split.
    + intros (texts & Ht & name & Hname & ->).
      pose proof (component_texts_names p (n :: ns) _ Ht) as ->. eauto.
    + intros (name & texts & Hname & Ht & ->). exists texts. split; [done|]. exists name.
      by pose proof (component_texts_names p (n :: ns) _ Ht) as ->.
Qed.

Lemma returns_input p :
  well_formed p = true -> Forall (fun a => Forall (fun p => well_formed p = true) (argument_paths a)) (arguments (invocation b)) ->
  returns (normalize_input_path b p) (names_input b p).
Proof.
  intros Hp Ha. unfold normalize_input_path. rewrite absolute_push. apply returns_directories; [done|by apply absolute_path_canonical|].
  unfold native_search_paths. apply Forall_forall. intros d (a & Hin & Hd)%list_elem_of_omap.
  rewrite Forall_forall in Ha. specialize (Ha a Hin). destruct a; try done. simpl in *.
  destruct (String.eqb _ _); [|done]. injection Hd as <-. by apply Forall_cons in Ha as [Ha _].
Qed.

Lemma names_input_fun p s s' : names_input b p s -> names_input b p s' -> s = s'.
Proof.
  unfold names_input, names. destruct (searched_in b _) as [[d r]|]; [|congruence].
  intros (n & t & Hn & Ht & ->) (n' & t' & Hn' & Ht' & ->).
  rewrite Hn in Hn'. rewrite Ht in Ht'. injection Hn' as ->. by injection Ht' as ->.
Qed.

Lemma returns_variable entry :
  returns (normalize_variable b entry) (fun entry' => entry'.1 = entry.1 /\ variable_says b entry.1 entry.2 entry'.2).
Proof.
  destruct entry as [name [v|]]; simpl.
  - case_bool_decide as Hp; eapply returns_weaken.
    + apply (returns_map _ (fun v => (name, Some v))), returns_path, well_formed_path_of.
    + intros [n' v']. simpl. naive_solver.
    + apply returns_ret.
    + intros [n' v']. simpl. naive_solver.
  - eapply returns_weaken; [apply returns_ret|]. intros [n' v']. simpl. naive_solver.
Qed.

Lemma Forall2_keys {A B} (Q : string * A -> string * B -> Prop) l k :
  Forall2 (fun x y => y.1 = x.1 /\ Q x y) l k -> k.*1 = l.*1.
Proof. induction 1 as [|x y l k [Hx _] _ IH]; [done|]. cbn. by rewrite Hx, IH. Qed.

Lemma returns_environment :
  returns (environment_descriptor b) (fun e => forall name,
    match environment (context b) !! name with
    | Some value => exists value', variable_says b name value value' /\ e !! name = Some value'
    | None => e !! name = None
    end).
Proof.
  unfold environment_descriptor. eapply returns_weaken.
  { eapply (returns_map _ list_to_map), returns_each. intros entry _. apply returns_variable. }
  set (env := environment (context b)). intros e. split.
  - intros (vars & Hv & ->) name.
    assert (Hk : vars.*1 = (entries env).*1) by (by apply (Forall2_keys _ _ _ Hv)).
    assert (Hnd : NoDup vars.*1) by (rewrite Hk; apply NoDup_entries).
    destruct (env !! name) as [value|] eqn:Hn.
    + apply In_entries, list_elem_of_In, list_elem_of_lookup in Hn as [i Hi].
      destruct (Forall2_lookup_l _ _ _ _ _ Hv Hi) as ([n' v'] & Hi' & Hx & Hs). simpl in *. subst n'.
      exists v'. split; [done|]. apply elem_of_list_to_map_1; [done|]. by eapply list_elem_of_lookup_2.
    + apply not_elem_of_list_to_map_1. rewrite Hk. intros ([n' v'] & -> & Hin)%list_elem_of_fmap.
      apply list_elem_of_In, In_entries in Hin. simpl in Hn. congruence.
  - intros He. exists (map (fun entry => (entry.1, default None (e !! entry.1))) (entries env)). split.
    + assert (Hall : forall entry, entry ∈ entries env -> env !! entry.1 = Some entry.2)
        by (intros [n v] Hin; by apply In_entries, list_elem_of_In).
      revert Hall. generalize (entries env). induction l as [|[n v] l IH]; intros Hall; simpl; constructor.
      * simpl. specialize (He n). pose proof (Hall (n, v) ltac:(set_solver)) as Hl. simpl in Hl. rewrite Hl in He. destruct He as (v' & Hs & ->). done.
      * apply IH. intros entry Hin. apply Hall. set_solver.
    + apply map_eq. intros name. specialize (He name). set (vars := map _ _).
      assert (Hk : vars.*1 = (entries env).*1)
        by (unfold vars; clear; induction (entries env) as [|x l IH]; cbn; [done|by rewrite IH]).
      destruct (env !! name) as [value|] eqn:Hn.
      * destruct He as (v' & _ & Hv). rewrite Hv. symmetry. apply elem_of_list_to_map_1; [rewrite Hk; apply NoDup_entries|].
        apply list_elem_of_In, in_map_iff. exists (name, value). simpl. rewrite Hv. split; [done|]. by apply In_entries.
      * rewrite He. symmetry. apply not_elem_of_list_to_map_1. rewrite Hk. intros ([n' v'] & -> & Hin)%list_elem_of_fmap.
        apply list_elem_of_In, In_entries in Hin. simpl in Hn. congruence.
Qed.

(** The loop over the inputs is the one every builder has. *)
Lemma collect_inputs_into l collected aliases :
  collect_inputs b l collected aliases =
  collect_into (fun input => normalize_input_path b (input_path input)) input_digest
    (fun input => InvalidInputDigest (render (input_path input))) ConflictingInput l collected aliases.
Proof.
  revert collected aliases. induction l as [|input l IH]; intros collected aliases; [done|].
  cbn [collect_inputs collect_into]. unfold mbind, Build_bind, lift.
  destruct (map_err (fun _ => InvalidInputDigest (render (input_path input))) _) as [[]|]; [|done].
  destruct (normalize_input_path b (input_path input) aliases) as [[path|] aliases']; [|done]. case_match; [done|apply IH].
Qed.

Lemma returns_collect l collected :
  Forall (fun a => Forall (fun p => well_formed p = true) (argument_paths a)) (arguments (invocation b)) ->
  Forall (fun i => well_formed (input_path i) = true) l ->
  returns (collect_inputs b l collected) (collects input_digest (fun input => names_input b (input_path input)) l collected).
Proof.
  intros Ha Hl. eapply returns_ext; [intros aliases; apply collect_inputs_into|]. apply returns_collect_into.
  - intros input s s'. apply names_input_fun.
  - intros input Hin%list_elem_of_In. rewrite Forall_forall in Hl. specialize (Hl _ Hin). by apply returns_input.
Qed.

End Methods.

(** ** Descriptors *)

Section Exact.
Context `{DiskLaws} (b : ActionBuilder).
Hypothesis Hsound : sound_builder b.

Lemma sound_parts :
  well_formed (working_dir (context b)) = true /\
  Forall (fun a => Forall (fun p => well_formed p = true) (argument_paths a)) (arguments (invocation b)) /\
  Forall (fun p => well_formed p = true) (required_inputs (invocation b)) /\
  Forall (fun i => well_formed (input_path i) = true) (inputs (context b)).
Proof.
  unfold sound_builder, builder_paths in Hsound. apply Forall_cons in Hsound as [Hw Hr].
  apply Forall_app in Hr as [Ha [Hr Hi]%Forall_app]. split; [done|]. split; [|split; [done|by apply Forall_fmap in Hi]].
  clear -Ha. induction (arguments (invocation b)) as [|a l IH]; [constructor|].
  simpl in Ha. apply Forall_app in Ha as [Ha Hl]. constructor; auto.
Qed.

Lemma validate_absolute : validate_mappings b = Ok () -> is_absolute (working_dir (context b)) = true.
Proof. unfold validate_mappings. by destruct (is_absolute _). Qed.

Lemma returns_invocation :
  validate_mappings b = Ok () ->
  returns (invocation_descriptor b) (fun i =>
    Forall2 (argument_says b) (arguments (invocation b)) (i_arguments i) /\
    (exists required, Forall2 (names b) (required_inputs (invocation b)) required /\
       i = mkInvocationDescriptor ACTION_SCHEMA_VERSION "rustc" ADAPTER_VERSION (compiler (context b))
             (i_arguments i) (string_set required))).
Proof.
  intros Hv. pose proof (validate_absolute Hv) as Habs. destruct sound_parts as (Hw & Ha & Hr & _).
  unfold invocation_descriptor. eapply returns_weaken.
  - eapply returns_bind; [apply returns_lift|]. intros u _. eapply returns_bind.
    { apply returns_each. intros a Hin. apply returns_argument; [done..|]. rewrite Forall_forall in Ha. by apply Ha, list_elem_of_In. }
    intros args _. eapply (returns_map _ (fun required => mkInvocationDescriptor _ _ _ _ args (string_set required))), returns_each.
    intros p Hin. apply returns_path; [done..|]. rewrite Forall_forall in Hr. by apply Hr, list_elem_of_In.
  - intros i. split.
    + intros (u & _ & args & Hargs & required & Hreq & ->). simpl. eauto.
    + intros (Hargs & required & Hreq & ->). exists (). split; [done|]. exists (i_arguments i). eauto.
Qed.

(** The last step: what is missing, and the linker. *)
Lemma returns_checked described e m required :
  returns (match find (fun path => negb (bool_decide (is_Some (m !! path)))) (string_set required) with
           | Some missing => lift (Err (MissingRequiredInput missing))
           | None =>
               if links_natively (invocation b) && is_none (linker b) then
                 lift (Err (UnportableNativeLink "linker identity is unknown"))
               else
                 mret (mkActionDescriptor ACTION_SCHEMA_VERSION "rustc" ADAPTER_VERSION (i_compiler described)
                         (i_arguments described) e (entries m) (linker b))
           end)
    (fun d => (forall path, In path required -> is_Some (m !! path)) /\
      (links_natively (invocation b) = true -> is_Some (linker b)) /\
      d = mkActionDescriptor ACTION_SCHEMA_VERSION "rustc" ADAPTER_VERSION (i_compiler described)
            (i_arguments described) e (entries m) (linker b)).
Proof.
  destruct (find _ _) as [missing|] eqn:Hf.
  - eapply returns_weaken; [apply returns_lift|]. intros d. split; [done|]. intros (Hall & _).
    apply find_some in Hf as [Hin Hm]. rewrite In_string_set in Hin. apply negb_true_iff, bool_decide_eq_false in Hm. by apply Hall in Hin.
  - assert (Hall : forall path, In path required -> is_Some (m !! path)).
    { intros path Hin. eapply find_none in Hf; [|by apply In_string_set].
      by apply negb_false_iff, bool_decide_eq_true in Hf. }
    destruct (links_natively (invocation b)) eqn:El, (linker b) as [l|]; simpl.
    2: eapply returns_weaken; [apply returns_lift|]; intros d; split; [done|];
       intros (_ & Hl & _); destruct (Hl eq_refl); done.
    all: eapply returns_weaken; [apply returns_ret|]; intros d; split; [intros ->|by intros (_ & _ & ->)];
      split; [done|]; split; [done|done].
Qed.

Lemma returns_descriptor : returns (build_descriptor b) (describes b).
Proof.
  destruct sound_parts as (Hw & Ha & Hr & Hi). unfold build_descriptor. eapply returns_weaken.
  - eapply returns_bind; [apply returns_lift|]. intros u Hv.
    assert (Hok : validate_mappings b = Ok ()) by (rewrite Hv; by destruct u).
    pose proof (validate_absolute Hok) as Habs.
    eapply returns_bind; [by apply returns_invocation|]. intros i _.
    eapply returns_bind; [by apply returns_environment|]. intros e _.
    eapply returns_bind; [by apply returns_collect|]. intros m _.
    eapply returns_bind; [|intros required _; apply returns_checked].
    apply returns_each. intros p Hin. apply returns_input; [done..| |done]. rewrite Forall_forall in Hr. by apply Hr, list_elem_of_In.
  - intros d. split.
    + intros ([] & Hv & i & (Hargs & req & Hreq & Hid) & e & He & m & (Hm1 & Hm2 & _) & required & Hrequired & Hall & Hl & ->).
      unfold describes. simpl. rewrite Hid. simpl. repeat (split; [done|]). split; [|split; [done|split; [|done]]].
      * intros p Hp. destruct (Forall2_answer _ _ _ _ Hreq Hp) as (n & ? & _). eauto.
      * exists m. split; [|split; [done|]].
        -- split; [done|]. intros name dg Hn. destruct (Hm2 name dg Hn) as [Hx|?]; [by rewrite lookup_empty in Hx|done].
        -- intros p Hp. destruct (Forall2_answer _ _ _ _ Hrequired Hp) as (n & Hn & Hin). eauto.
    + intros (Hv & Hd1 & Hd2 & Hd3 & Hd4 & Hargs & Hreq & He & (m & (Hm1 & Hm2) & Hin & Hrequired) & Hl & Hdl).
      destruct (Forall2_total _ _ Hreq) as [req Hreq'].
      destruct (Forall2_total _ _ (fun p Hp => let (n, Hn) := Hrequired p Hp in ex_intro _ n (proj1 Hn))) as [required Hrequired'].
      exists (). split; [done|].
      exists (mkInvocationDescriptor ACTION_SCHEMA_VERSION "rustc" ADAPTER_VERSION (compiler (context b)) (d_arguments d) (string_set req)).
      split; [simpl; eauto|]. exists (d_environment d). split; [done|]. exists m.
      split; [split; [done|split; [|apply map_empty_subseteq]]|].
      { intros name dg Hn. right. eauto. }
      exists required. split; [done|]. split; [|split; [done|]].
      * intros path Hpath. apply list_elem_of_In, list_elem_of_lookup in Hpath as [k Hk].
        destruct (Forall2_lookup_r _ _ _ _ _ Hrequired' Hk) as (p & Hp & Hn).
        apply list_elem_of_lookup_2, list_elem_of_In in Hp. destruct (Hrequired p Hp) as (n' & Hn' & ?).
        by rewrite (names_input_fun _ _ _ _ Hn Hn').
      * destruct d. simpl in *. congruence.
Qed.

(** C5: A key says exactly what it has to.  Whatever the builder's memo
    holds, it answers a descriptor precisely when the mappings are valid, every
    path the arguments, the variables and the inputs name has a portable name,
    every digest is well formed, no two contents share a name, every required
    input is among the inputs and a native link comes with the identity of its
    linker; and the descriptor is then the one that says so.  In every other
    case it answers an error.  The linker the builder was given is in the
    descriptor whether or not the invocation links natively, although
    [action_linked_by] is documented to ignore one that is not needed
    ([unneeded_linker_is_keyed]). *)
Theorem descriptors_are_exact aliases d :
  consistent aliases -> fst (build_descriptor b aliases) = Ok d <-> describes b d.
Proof. intros Hc. by destruct (returns_descriptor aliases Hc) as [_ Hr]. Qed.

End Exact.

(** No two descriptors meet under one hash. *)
Class SerializerLaws `{Serializer} : Prop := {
  no_collision d d' x x' :
    action_json d = Ok x -> action_json d' = Ok x' -> hash_hex x = hash_hex x' -> d = d';
}.

(** ** Keys *)

Section Keys.
Context `{DiskLaws} `{Serializer}.

Definition sound_action (i : RustcInvocation) (c : ActionContext) : Prop := sound_builder (builder_new i c None).

Lemma sound_builder_new i c l : sound_action i c -> sound_builder (builder_new i c l).
Proof. done. Qed.

(** An action is the serialized descriptor of its builder. *)
Lemma action_exact i c l a :
  sound_action i c ->
  action_linked_by i c l = Ok a <->
  exists d, describes (builder_new i c l) d /\ action_json d = Ok (action_bytes a) /\
    action_digest a = blake3 hash_hex (action_bytes a).
Proof.
  intros Hs%(sound_builder_new _ _ l). unfold action_linked_by.
  assert (Hb : returns (build (builder_new i c l)) (fun a => exists d, describes (builder_new i c l) d /\
    exists bytes, map_err Serialization (action_json d) = Ok bytes /\ a = mkAction (blake3 hash_hex bytes) bytes)).
  { eapply returns_bind; [by apply returns_descriptor|]. intros d _.
    eapply returns_bind; [apply returns_lift|]. intros bytes _. apply returns_ret. }
  destruct (Hb ∅ consistent_empty) as [_ Hr]. rewrite Hr. split.
  - intros (d & Hd & bytes & Hbytes & ->). exists d. destruct (action_json d); simpl in *; by simplify_eq.
  - intros (d & Hd & Hj & Hx). exists d. split; [done|]. exists (action_bytes a). rewrite Hj. split; [done|].
    destruct a. simpl in *. by rewrite Hx.
Qed.

Definition with_inputs (c : ActionContext) (l : list ActionInput) : ActionContext :=
  mkContext (compiler c) (working_dir c) (path_mappings c) (environment c) (portable_environment c) l.

Lemma names_input_permuted i c l k p s :
  names_input (builder_new i (with_inputs c l) k) p s <-> names_input (builder_new i c k) p s.
Proof. done. Qed.

Lemma describes_permuted i c l k d :
  (forall x, In x (inputs c) <-> In x l) -> describes (builder_new i c k) d -> describes (builder_new i (with_inputs c l) k) d.
Proof.
  intros Hp (Hv & Hd1 & Hd2 & Hd3 & Hd4 & Hargs & Hreq & He & (m & (Hm1 & Hm2) & Hin & Hrequired) & Hl & Hdl).
  repeat (split; [done|]). split; [|done]. exists m. split; [|done]. split.
  - intros input Hx. by apply Hm1, Hp.
  - intros name dg Hn. destruct (Hm2 name dg Hn) as (input & Hx & Hname). exists input.
    split; [by apply Hp|done].
Qed.

(** The order in which discovery lists the inputs, and whether it lists
    one twice, is not in the key. *)
Lemma input_order_is_not_keyed i c l k a :
  sound_action i c -> (forall x, In x (inputs c) <-> In x l) ->
  action_linked_by i c k = Ok a <-> action_linked_by i (with_inputs c l) k = Ok a.
Proof.
  intros Hs Hp. assert (Hs' : sound_action i (with_inputs c l)).
  { unfold sound_action, sound_builder, builder_paths in *. simpl in *. rewrite Forall_forall in *.
    intros p Hin. apply Hs. rewrite !elem_of_cons, !elem_of_app in *. destruct Hin as [|[|[|Hin]]]; auto.
    right. right. right. apply list_elem_of_In, in_map_iff in Hin as (x & <- & Hx).
    by apply list_elem_of_In, in_map, Hp. }
  rewrite !action_exact by done. split; intros (d & Hd & Hj); exists d; (split; [|done]).
  - by apply describes_permuted.
  - replace c with (with_inputs (with_inputs c l) (inputs c)) by (by destruct c).
    apply describes_permuted; [by symmetry; apply Hp|done].
Qed.

(** C6: Equal keys stand for the same compilation: the same compiler and
    linker, the same argument texts, the same variables with the same values (a
    portable one by the portable name of its path), and for every input of one
    action an input of the other under the same name with the same
    contents. *)
Theorem equal_keys_agree `{!SerializerLaws} i c l a i' c' l' a' :
  sound_action i c -> sound_action i' c' ->
  action_linked_by i c l = Ok a -> action_linked_by i' c' l' = Ok a' ->
  action_digest a = action_digest a' ->
  let b := builder_new i c l in let b' := builder_new i' c' l' in
  compiler c = compiler c' /\ l = l' /\
  (exists texts, Forall2 (argument_says b) (arguments i) texts /\ Forall2 (argument_says b') (arguments i') texts) /\
  (forall name,
     match environment c !! name, environment c' !! name with
     | Some value, Some value' => exists said, variable_says b name value said /\ variable_says b' name value' said
     | None, None => True
     | _, _ => False
     end) /\
  (forall input, In input (inputs c) -> exists input' name, In input' (inputs c') /\
     names_input b (input_path input) name /\ names_input b' (input_path input') name /\
     input_digest input = input_digest input').
Proof.
  intros Hs Hs' (d & Hd & Hj & Ha)%action_exact (d' & Hd' & Hj' & Ha')%action_exact Heq b b'; [|done..].
  rewrite Ha, Ha' in Heq. injection Heq as Hh _.
  pose proof (no_collision _ _ _ _ Hj Hj' Hh) as <-.
  destruct Hd as (_ & _ & _ & _ & Hc & Hargs & _ & He & (m & (Hm1 & _) & Hin & _) & _ & Hl).
  destruct Hd' as (_ & _ & _ & _ & Hc' & Hargs' & _ & He' & (m' & (Hm1' & Hm2') & Hin' & _) & _ & Hl').
  simpl in *. split; [congruence|]. split; [congruence|]. split; [eauto|]. split.
  - intros name. specialize (He name). specialize (He' name).
    destruct (environment c !! name), (environment c' !! name);
      [|destruct He as (? & ? & ?); congruence|destruct He' as (? & ? & ?); congruence|done].
    destruct He as (said & Hv & Hd), He' as (said' & Hv' & Hd'). exists said. split; [done|]. by simplify_eq.
  - intros input Hx. destruct (Hm1 input Hx) as (_ & name & Hn & Hm).
    assert (Hmm : m = m').
    { apply map_eq. intros k. apply option_eq. intros dg. by rewrite <- !In_entries, <- Hin, <- Hin'. }
    subst m'. destruct (Hm2' name _ Hm) as (input' & Hx' & Hn'). exists input', name.
    split; [done|]. split; [done|]. split; [done|].
    destruct (Hm1' input' Hx') as (_ & name' & Hn'' & Hm'').
    pose proof (names_input_fun _ _ _ _ Hn' Hn'') as <-. congruence.
Qed.

End Keys.

#[export] Instance compiler_eq_dec : EqDecision CompilerIdentity.
Proof. solve_decision. Defined.
#[export] Instance linker_eq_dec : EqDecision LinkerIdentity.
Proof. solve_decision. Defined.
#[export] Instance descriptor_eq_dec : EqDecision ActionDescriptor.
Proof. solve_decision. Defined.
#[export] Instance compiler_countable : Countable CompilerIdentity.
Proof.
  refine (inj_countable' (fun c => (toolchain c, rustc_version c, host c, driver c))
    (fun t => mkCompiler t.1.1.1 t.1.1.2 t.1.2 t.2) _). by intros [].
Defined.
#[export] Instance linker_countable : Countable LinkerIdentity.
Proof.
  refine (inj_countable' (fun l => (linker_driver l, driver_version l, linker_version l, crt_objects l, sdk l, deployment_target l))
    (fun t => mkLinker t.1.1.1.1.1 t.1.1.1.1.2 t.1.1.1.2 t.1.1.2 t.1.2 t.2) _). by intros [].
Defined.
#[export] Instance descriptor_countable : Countable ActionDescriptor.
Proof.
  refine (inj_countable' (fun d => (d_version d, d_kind d, d_adapter_version d, d_compiler d, d_arguments d, d_environment d, d_inputs d, d_linker d))
    (fun t => mkActionDescriptor t.1.1.1.1.1.1.1 t.1.1.1.1.1.1.2 t.1.1.1.1.1.2 t.1.1.1.1.2 t.1.1.1.2 t.1.1.2 t.1.2 t.2) _). by intros [].
Defined.

(** ** An action *)

Module ActionDemo.
Import RustcDemo.

(** A serializer that keeps everything. *)
#[export] Instance serializer : Serializer := {|
  action_json d := Ok [Zpos (encode d)];
  invocation_json d := Ok [];
  hash_hex bytes := match bytes with [Zpos p] => pretty (Npos p) | _ => "" end;
|}.

#[export] Instance serializer_laws : SerializerLaws.
Proof.
  constructor. intros d d' x x' [= <-] [= <-] Hh. simpl in Hh.
  apply (inj pretty) in Hh. injection Hh as Hh. by apply (inj encode).
Qed.

Definition digest_of (c : Ascii.ascii) : Digest := mkDigest "blake3" (String.string_of_list_ascii (replicate 64 c)) 10.

Definition inputs_seen : list ActionInput :=
  [mkInput (path_of "/work/src/lib.rs") (digest_of "1"); mkInput (path_of "/work/native/libz.a") (digest_of "2");
   mkInput (path_of "libdep.rlib") (digest_of "3")].

Definition at_work (l : list ActionInput) : ActionContext :=
  mkContext (mkCompiler "stable" "rustc 1.90.0" "x86_64-unknown-linux-gnu" None) (path_of "/work")
    [mkMapping (path_of "/opt/rust") "RUST"; mkMapping (path_of "/work") "WORKSPACE"]
    (<["CARGO_PKG_NAME" := Some "demo"]> ∅) ∅ l.

Definition builder (i : RustcInvocation) (c : ActionContext) : ActionBuilder := builder_new i c None.

Definition described (b : ActionBuilder) : ActionDescriptor :=
  match fst (build_descriptor b ∅) with
  | Ok d => d
  | Err _ => mkActionDescriptor 0 "" 0 (mkCompiler "" "" "" None) [] ∅ [] None
  end.

Definition action_of (i : RustcInvocation) (c : ActionContext) : RustcAction :=
  let bytes := [Zpos (encode (described (builder i c)))] in mkAction (blake3 hash_hex bytes) bytes.

Lemma action_described i c :
  is_ok (fst (build_descriptor (builder i c) ∅)) = true -> action_linked_by i c None = Ok (action_of i c).
Proof.
  unfold action_linked_by, action_of, build, described, builder, mbind, Build_bind.
  destruct (build_descriptor _ ∅) as [[d|] aliases]; [|done]. done.
Qed.

Lemma action_of_described i c i' c' :
  described (builder i c) = described (builder i' c') -> action_of i c = action_of i' c'.
Proof. unfold action_of. by intros ->. Qed.

Definition here : ActionContext := at_work inputs_seen.
Definition shuffled : list ActionInput := (rev inputs_seen ++ inputs_seen)%list.

Lemma sound_here : sound_action (parsed on_terminal) here.
Proof. apply (bool_decide_eq_true_1 _). vm_compute. reflexivity. Qed.

Lemma built_here : is_ok (fst (build_descriptor (builder (parsed on_terminal) here) ∅)) = true.
Proof. vm_compute. reflexivity. Qed.

Lemma descriptors_are_exact_witness :
  describes (builder (parsed on_terminal) here) (described (builder (parsed on_terminal) here)).
Proof.
  apply (descriptors_are_exact (builder (parsed on_terminal) here) sound_here ∅); [apply consistent_empty|].
  pose proof built_here as Hb. unfold described. destruct (fst (build_descriptor _ ∅)); [reflexivity|discriminate].
Defined.

Lemma shuffled_same x : In x (inputs here) <-> In x shuffled.
Proof. unfold shuffled. rewrite in_app_iff, <- in_rev. change (inputs here) with inputs_seen. tauto. Qed.

Lemma input_order_is_not_keyed_witness :
  action_linked_by (parsed on_terminal) (with_inputs here shuffled) None = Ok (action_of (parsed on_terminal) here).
Proof.
  exact (proj1 (input_order_is_not_keyed (parsed on_terminal) here shuffled None (action_of (parsed on_terminal) here)
                  sound_here shuffled_same) (action_described (parsed on_terminal) here built_here)).
Defined.

Lemma equal_keys_agree_witness :
  (exists texts,
    Forall2 (argument_says (builder (parsed on_terminal) here)) (arguments (parsed on_terminal)) texts /\
    Forall2 (argument_says (builder (parsed by_hand) here)) (arguments (parsed by_hand)) texts) /\
  exists said, variable_says (builder (parsed on_terminal) here) "CARGO_PKG_NAME" (Some "demo") said /\
    variable_says (builder (parsed by_hand) here) "CARGO_PKG_NAME" (Some "demo") said.
Proof.
  assert (Hb : is_ok (fst (build_descriptor (builder (parsed by_hand) here) ∅)) = true) by (vm_compute; reflexivity).
  assert (Hd : described (builder (parsed on_terminal) here) = described (builder (parsed by_hand) here))
    by (vm_compute; reflexivity).
  pose proof (f_equal action_digest (action_of_described _ _ _ _ Hd)) as Ha.
  assert (Hs : sound_action (parsed by_hand) here) by (apply (bool_decide_eq_true_1 _); vm_compute; reflexivity).
  pose proof (equal_keys_agree (parsed on_terminal) here None (action_of (parsed on_terminal) here)
    (parsed by_hand) here None (action_of (parsed by_hand) here) sound_here Hs
    (action_described _ _ built_here) (action_described _ _ Hb)) as Hk.
  split; [exact (proj1 (proj2 (proj2 (Hk Ha))))|exact (proj1 (proj2 (proj2 (proj2 (Hk Ha)))) "CARGO_PKG_NAME")].
Defined.

(** A library is keyed by a linker it does not use. *)
Definition some_linker : LinkerIdentity := mkLinker "cc" "13" "2.42" ∅ None None.

Lemma unneeded_linker_is_keyed :
  links_natively (parsed on_terminal) = false /\
  is_ok (fst (build_descriptor (builder_new (parsed on_terminal) here (Some some_linker)) ∅)) = true /\
  fst (build_descriptor (builder_new (parsed on_terminal) here (Some some_linker)) ∅) <>
    fst (build_descriptor (builder (parsed on_terminal) here) ∅).
Proof.
  split; [vm_compute; reflexivity|]. split; [vm_compute; reflexivity|].
  intros He. apply (f_equal (fun r => match r with Ok d => is_some (d_linker d) | Err _ => true end)) in He.
  vm_compute in He. discriminate He.
Qed.

(** Which of two files is the crate's root is not in the key: both are inputs of
    either compilation, and the source is not among the arguments. *)
Definition both_read : ActionContext :=
  at_work [mkInput (path_of "/work/src/lib.rs") (digest_of "1"); mkInput (path_of "/work/native/libz.a") (digest_of "2")].

Definition rooted_here : RustcInvocation :=
  parsed ["--crate-name=demo"; "/work/src/lib.rs"; "--crate-type=lib"; "--emit=dep-info,metadata"].
Definition rooted_there : RustcInvocation :=
  parsed ["--crate-name=demo"; "/work/native/libz.a"; "--crate-type=lib"; "--emit=dep-info,metadata"].

Lemma key_omits_the_source :
  source rooted_here <> source rooted_there /\
  is_ok (fst (build_descriptor (builder rooted_here both_read) ∅)) = true /\
  action_linked_by rooted_here both_read None = action_linked_by rooted_there both_read None.
Proof.
  split; [vm_compute; discriminate|].
  assert (Hb : is_ok (fst (build_descriptor (builder rooted_here both_read) ∅)) = true) by (vm_compute; reflexivity).
  assert (Hb' : is_ok (fst (build_descriptor (builder rooted_there both_read) ∅)) = true) by (vm_compute; reflexivity).
  assert (Hd : described (builder rooted_here both_read) = described (builder rooted_there both_read))
    by (vm_compute; reflexivity).
  split; [exact Hb|].
  exact (eq_trans (action_described rooted_here both_read Hb)
    (eq_trans (f_equal Ok (action_of_described _ _ _ _ Hd)) (eq_sym (action_described rooted_there both_read Hb')))).
Qed.

End ActionDemo.
