(* ===== verification/DepInfo.v ===== *)
(** * The inputs of a compilation

    Models [src/crates/mbx-cache-rustc/src/dep_info.rs]: rustc's dep-info
    ([RustcDepInfo]), the discovery and hashing of a compilation's inputs with
    its native search directories ([discover], [collect_native_directory],
    [from_paths]) and the checks that they did not change
    ([verify_not_modified_since_with_snapshots], [verify]).  A method runs as a
    process of [FileDigest] among others; the walk of a directory tree is
    bounded by [fuel].

    The theorem: while a path keeps naming one file, an input with a settled
    snapshot that passes the check is keyed by the contents the file had at
    every moment from the snapshot on, so by what the compiler read. *)

From stdpp Require Import base list gmap strings.
From Stdlib Require Import ZArith Lia Ascii.
From S2P Require Import Prelude Protocol Strings PathMap RustcArgs FileDigest RustcAction.
Local Open Scope Z_scope.

Definition MAX_PREDICTED_INPUTS : Z := 16 * 1024.
Definition MAX_NATIVE_INPUT_BYTES : Z := 2 * 1024 * 1024 * 1024.

(** ** Dep-info *)

Record RustcDepInfo := mkDepInfo {
  dep_files : list Path;
  dep_environment : gmap string (option string)
}.

(** The message of an unknown escape shows the first byte of its character. *)
Fixpoint unescape_environment (value : string) : result BypassReason string :=
  match value with
  | EmptyString => Ok ""%string
  | String a value =>
      if negb (Ascii.eqb a "\") then
        rest ← unescape_environment value; Ok (String a rest)
      else
        match value with
        | EmptyString => Err (MalformedDepInfo "environment input ends with an unterminated escape")
        | String b value =>
            if Ascii.eqb b "\" then rest ← unescape_environment value; Ok (String "\" rest)
            else if Ascii.eqb b "n" then rest ← unescape_environment value; Ok (String (Ascii.ascii_of_N 10) rest)
            else if Ascii.eqb b "r" then rest ← unescape_environment value; Ok (String (Ascii.ascii_of_N 13) rest)
            else Err (MalformedDepInfo ("unknown environment escape \" ++ String b "")%string)
        end
  end.

(** [char::is_whitespace], on the bytes of a character. *)
Definition is_space (a : Ascii.ascii) : bool :=
  let n := Ascii.N_of_ascii a in ((9 <=? n) && (n <=? 13) || (n =? 32))%N.
Definition is_space_pair (a b : Ascii.ascii) : bool :=
  let n := Ascii.N_of_ascii in ((n a =? 0xC2) && ((n b =? 0x85) || (n b =? 0xA0)))%N.
Definition is_space_triple (a b c : Ascii.ascii) : bool :=
  let n := Ascii.N_of_ascii in
  ((n a =? 0xE1) && (n b =? 0x9A) && (n c =? 0x80) ||
   (n a =? 0xE2) && (n b =? 0x80) && ((0x80 <=? n c) && (n c <=? 0x8A) || (n c =? 0xA8) || (n c =? 0xA9) || (n c =? 0xAF)) ||
   (n a =? 0xE2) && (n b =? 0x81) && (n c =? 0x9F) ||
   (n a =? 0xE3) && (n b =? 0x80) && (n c =? 0x80))%N.

Definition flush (word : string) (words : list string) : list string :=
  if String.eqb word "" then words else word :: words.

(** [str::split_whitespace]. *)
Fixpoint words_from (word s : string) : list string :=
  match s with
  | EmptyString => flush word []
  | String a s =>
      if is_space a then flush word (words_from "" s)
      else
        match s with
        | String b s' =>
            if is_space_pair a b then flush word (words_from "" s')
            else
              match s' with
              | String c s'' =>
                  if is_space_triple a b c then flush word (words_from "" s'')
                  else words_from (word ++ String a "") s
              | EmptyString => words_from (word ++ String a "") s
              end
        | EmptyString => words_from (word ++ String a "") s
        end
  end.
Definition split_whitespace (s : string) : list string := words_from "" s.

(** What follows the first occurrence. *)
Fixpoint after_first (needle s : string) : option string :=
  match strip_prefix needle s with
  | Some rest => Some rest
  | None => match s with String _ s => after_first needle s | EmptyString => None end
  end.

Definition drop_last (s : string) : string := String.substring 0 (String.length s - 1) s.

(** The fragments after [file]: one that ends in a backslash goes on with the
    next, after a space. *)
Fixpoint dependency_files (file : string) (fragments : list string) : result BypassReason (list Path) :=
  if ends_in "\" file then
    match fragments with
    | [] => Err (MalformedDepInfo "dependency path ends with an unterminated escape")
    | continuation :: fragments => dependency_files (drop_last file ++ " " ++ continuation) fragments
    end
  else if String.eqb file "" then Err (MalformedDepInfo "dependency path is empty")
  else
    match fragments with
    | [] => Ok [path_of file]
    | fragment :: fragments => files ← dependency_files fragment fragments; Ok (path_of file :: files)
    end.

Definition dependency_rule (rule : string) : result BypassReason (list Path) :=
  match split_whitespace rule with
  | [] => Ok []
  | fragment :: fragments => dependency_files fragment fragments
  end.

Definition environment_record (record : string) : result BypassReason (string * option string) :=
  let '(name, value) :=
    match split_once "=" record with Some (name, value) => (name, Some value) | None => (record, None) end in
  name ← unescape_environment name;
  if String.eqb name "" then Err (MalformedDepInfo "environment input has an empty name")
  else
    match value with
    | Some value => value ← unescape_environment value; Ok (name, Some value)
    | None => Ok (name, None)
    end.

Fixpoint parse_lines (lines : list string) (files : option (gset Path)) (environment : gmap string (option string))
    : result BypassReason (option (gset Path) * gmap string (option string)) :=
  match lines with
  | [] => Ok (files, environment)
  | line :: lines =>
      match strip_prefix "# env-dep:" line with
      | Some record =>
          '(name, value) ← environment_record record;
          if is_some_and (fun previous => negb (bool_decide (previous = value))) (environment !! name) then
            Err (ConflictingEnvironment name)
          else parse_lines lines files (<[name := value]> environment)
      | None =>
          match after_first ": " line, files with
          | Some rule, None => found ← dependency_rule rule; parse_lines lines (Some (list_to_set found)) environment
          | _, _ => parse_lines lines files environment
          end
      end
  end.

(** [RustcDepInfo::parse]. *)
Definition parse_dep_info (contents : string) : result BypassReason RustcDepInfo :=
  '(files, environment) ← parse_lines (text_lines contents) None ∅;
  match files with
  | None => Err (MalformedDepInfo "dependency rule is missing")
  | Some files =>
      if bool_decide (files = ∅) then Err (MalformedDepInfo "dependency rule contains no inputs")
      else Ok (mkDepInfo (sorted_paths files) environment)
  end.

(** ** The discovery command *)

Record DepInfoCommand := mkCommand { command_arguments : list string; command_output : Path }.

(** [Path::to_str], or the bypass. *)
Definition path_text (p : Path) : result BypassReason string := ok_or (BypassNonUtf8Path p) (to_str (render p)).

(** Emits are removed before rendering. *)
Definition render_argument (a : Argument) : result BypassReason (option string) :=
  match a with
  | Plain value => Ok (Some value)
  | PathArgument flag p => text ← path_text p; Ok (Some (flag ++ "=" ++ text)%string)
  | SearchPath kind p => text ← path_text p; Ok (Some ("-L" ++ kind ++ "=" ++ text)%string)
  | Extern name (Some p) => text ← path_text p; Ok (Some ("--extern=" ++ name ++ "=" ++ text)%string)
  | Extern name None => Ok (Some ("--extern=" ++ name)%string)
  | EmitArgument _ => Ok None
  | RemapPath from to => text ← path_text from; Ok (Some ("--remap-path-prefix=" ++ text ++ "=" ++ to)%string)
  | OsoPrefix p trailing_slash =>
      text ← path_text p;
      Ok (Some ("--codegen=link-arg=-Wl,-oso_prefix," ++ text ++ (if trailing_slash then "/" else ""))%string)
  | InstallName name => Ok (Some ("--codegen=link-arg=-Wl,-install_name,@rpath/" ++ name)%string)
  | FuseLd selection => Ok (Some ("--codegen=link-arg=-fuse-ld=" ++ selection)%string)
  end.

Fixpoint command_of (l : list Argument) : result BypassReason (list string) :=
  match l with
  | [] => Ok []
  | EmitArgument _ :: l => command_of l
  | a :: l =>
      if (match a with PathArgument flag _ => String.eqb flag "--out-dir" || String.eqb flag "-o" | _ => false end)
      then command_of l
      else rendered ← render_argument a; rest ← command_of l; Ok (from_option (fun r => r :: rest) rest rendered)
  end.

Definition dep_info_command (i : RustcInvocation) (output : Path) : result BypassReason DepInfoCommand :=
  if negb (is_absolute output) then Err (RelativeDepInfoPath output)
  else
    output_text ← path_text output;
    if contains_char "," output_text then Err (UnsafeDepInfoPath output)
    else
      arguments ← command_of (arguments i);
      Ok (mkCommand (arguments ++ [("--emit=dep-info=" ++ output_text)%string; render (source i)]) output).

(** ** Discovered inputs *)

Record DiscoveredInputs := mkDiscovered {
  discovered_working_dir : Path;
  discovered_inputs : list ActionInput;
  discovered_environment : gmap string (option string);
  identities : list (option FileIdentity);
  native_only : gset Path
}.

Definition with_native_only (d : DiscoveredInputs) (paths : gset Path) : DiscoveredInputs :=
  mkDiscovered (discovered_working_dir d) (discovered_inputs d) (discovered_environment d) (identities d) paths.

Definition is_native_only (d : DiscoveredInputs) (p : Path) : bool := bool_decide (p ∈ native_only d).

(** [apply_to]. *)
Fixpoint environments_agree (l : list (string * option string)) (context : gmap string (option string))
    : result BypassReason unit :=
  match l with
  | [] => Ok ()
  | (name, value) :: l =>
      if is_some_and (fun previous => negb (bool_decide (previous = value))) (context !! name) then
        Err (ConflictingEnvironment name)
      else environments_agree l context
  end.

Definition apply_to (d : DiscoveredInputs) (c : ActionContext) : result BypassReason ActionContext :=
  if negb (bool_decide (normalize_components (working_dir c) = discovered_working_dir d)) then
    Err DiscoveryWorkingDirectory
  else
    _ ← environments_agree (entries (discovered_environment d)) (environment c);
    Ok (mkContext (compiler c) (working_dir c) (path_mappings c) (discovered_environment d ∪ environment c)
          (portable_environment c) (inputs c ++ discovered_inputs d)).

(** The digest of what a compilation owns. *)
Definition source_fingerprint `{Hashes} (i : RustcInvocation) (d : DiscoveredInputs) : Digest :=
  let linked := omap (fun a => match a with Extern _ (Some p) => Some p | _ => None end) (arguments i) in
  let owned := List.filter (fun input =>
    negb (bool_decide (input_path input ∈ linked)) && negb (is_native_only d (input_path input))) (discovered_inputs d) in
  let owned : gmap Path Digest :=
    fold_left (fun m input => <[input_path input := input_digest input]> m) owned ∅ in
  blake3 blake3_hex
    (flat_map (fun p =>
       from_option (fun d => ascii_bytes (render p) ++ [0] ++ ascii_bytes (digest_key d) ++ [0]) [] (owned !! p))
       (sorted_paths (dom owned))).

(** ** Files on disk *)

Inductive FileKind := Directory | Regular | Symlink | Special.

(** What the walk of a directory asks, and how errors read. *)
Class Directories `{Kernel} := {
  list_directory : World -> Path -> result IoError (list (result IoError (string * result IoError FileKind)));
  canonical_path : World -> Path -> result IoError Path;
  io_message : IoError -> string
}.

(** [symlink_metadata], of which the kind is asked. *)
Class Links `{Kernel} := link_kind : World -> Path -> result IoError FileKind.

Section Discovery.
Context `{Directories} `{Hashes} `{!DigestCache} (fuel : nat).

Definition Dis (A : Type) : Type := Process -> result BypassReason A * Process.

#[export] Instance Dis_ret : MRet Dis := fun A a s => (Ok a, s).
#[export] Instance Dis_bind : MBind Dis := fun A B f m s =>
  match m s with (Ok a, s) => f a s | (Err e, s) => (Err e, s) end.

Definition done {A} (r : result BypassReason A) : Dis A := fun s => (r, s).

(** An operation on a file whose errors name it. *)
Definition on {A} (p : Path) (m : Io A) : Dis A := fun s =>
  match m s with (Ok a, s) => (Ok a, s) | (Err e, s) => (Err (InputRead p (io_message e)), s) end.

(** A call that answers a result the caller inspects. *)
Definition plain {A} (m : Io A) : Dis A := on [] m.

(** [RustcDepInfo::read]; the text of the file is what reading it whole gives. *)
Definition read_dep_info (p : Path) (text : World -> result IoError string) : Dis RustcDepInfo := fun s =>
  match call text s with
  | (Ok contents, s) => (parse_dep_info contents, s)
  | (Err e, s) => (Err (DepInfoRead p (io_message e)), s)
  end.

(** ** Hashing *)

Fixpoint identify (paths : list Path) : Dis (list (Path * option FileIdentity)) :=
  match paths with
  | [] => mret []
  | p :: paths =>
      m ← on p (metadata p);
      if negb (m_is_file m) then done (Err (InputRead p "input is not a regular file"))
      else
        identity ← on p (for_digest_cache p m);
        identified ← identify paths;
        mret ((p, identity) :: identified)
  end.

(** The ledger's answers are for the files that have an identity, in order. *)
Definition next_resolution (identity : option FileIdentity) (recorded : list FileDigestResolution)
    : FileDigestResolution * list FileDigestResolution :=
  match identity, recorded with
  | Some _, r :: recorded => (r, recorded)
  | Some _, [] => (Unresolved, [])
  | None, recorded => (Unresolved, recorded)
  end.

Definition no_digest (p : Path) : BypassReason := InputRead p "content digest resolution returned no digest".

(** Read the file; what may be recorded comes with the digest. *)
Definition fresh_digest (p : Path) : Dis (Digest * option FileIdentity * list RecordedFileDigest) :=
  observed ← on p (digest_file_validated fuel Content p);
  match observed with
  | Some v =>
      d ← done (ok_or (no_digest p) (into_digest (resolution v)));
      let fresh := match cache_identity_of v with
                   | Some file => if len file =? size d then [mkRecorded file d] else []
                   | None => []
                   end in
      mret (d, cache_identity_of v, fresh)
  | None =>
      r ← on p (digest_file fuel Content p);
      d ← done (ok_or (no_digest p) (into_digest r));
      mret (d, None, [])
  end.

Definition digest_input (p : Path) (identity : option FileIdentity) (r : FileDigestResolution)
    : Dis (Digest * option FileIdentity * list RecordedFileDigest) :=
  cached ← on p (cached_digest identity r);
  match cached with
  | Some d => mret (d, identity, [])
  | None => fresh_digest p
  end.

Fixpoint digest_inputs (identified : list (Path * option FileIdentity)) (recorded : list FileDigestResolution)
    : Dis (list (ActionInput * option FileIdentity) * list RecordedFileDigest) :=
  match identified with
  | [] => mret ([], [])
  | (p, identity) :: identified =>
      let '(r, recorded) := next_resolution identity recorded in
      '(d, observed, fresh) ← digest_input p identity r;
      '(rest, more) ← digest_inputs identified recorded;
      mret ((mkInput p d, observed) :: rest, fresh ++ more)
  end.

Definition from_paths (working_dir : Path) (paths : gset Path) (environment : gmap string (option string))
    : Dis DiscoveredInputs :=
  if negb (is_absolute working_dir) then done (Err (RelativeWorkingDirectory working_dir))
  else
    identified ← identify (sorted_paths paths);
    let queries := omap snd identified in
    recorded ← on working_dir (call (fun w => Ok (resolve w Content queries)));
    '(inputs, fresh) ← digest_inputs identified recorded;
    _ ← (match fresh with [] => mret () | _ => on working_dir (record Content fresh) end);
    mret (mkDiscovered (normalize_components working_dir) (map fst inputs) environment (map snd inputs) ∅).

(** ** Checking *)

(** [verify_not_modified_since_with_snapshots]; the result carries the first
    input whose metadata alone changed. *)
Definition check_snapshot (input : ActionInput) (previous : FileSnapshot) : Dis bool :=
  let p := input_path input in
  m ← on p (metadata p);
  identity ← on p (for_digest_cache p m);
  let identity := option_or identity (describe p m) in
  if matches previous identity (input_digest input) then mret true
  else if differs_only_in_change_token previous identity then mret false
  else done (Err (InputModifiedDuringCompilation p)).

Fixpoint check_snapshots (started_at : Z) (before : gmap Path FileSnapshot) (l : list ActionInput)
    (metadata_changed : option Path) : Dis (option Path) :=
  match l with
  | [] => mret metadata_changed
  | input :: l =>
      let p := input_path input in
      match option_filter proves_content_change (before !! p) with
      | Some previous =>
          same ← check_snapshot input previous;
          check_snapshots started_at before l (if same : bool then metadata_changed else option_or metadata_changed (Some p))
      | None =>
          m ← on p (metadata p);
          modified ← on p (lift_io (modified_of m));
          if started_at <=? modified then done (Err (InputModifiedDuringCompilation p))
          else check_snapshots started_at before l metadata_changed
      end
  end.

Definition verify_not_modified_since_with_snapshots (d : DiscoveredInputs) (started_at : Z)
    (before : gmap Path FileSnapshot) : Dis unit :=
  changed ← check_snapshots started_at before (discovered_inputs d) None;
  match changed with
  | Some p => done (Err (InputMetadataChangedDuringCompilation p))
  | None => mret ()
  end.

Definition verify_not_modified_since (d : DiscoveredInputs) (started_at : Z) : Dis unit :=
  verify_not_modified_since_with_snapshots d started_at ∅.

Definition verify_not_modified_since_with_identities (d : DiscoveredInputs) (started_at : Z)
    (before : gmap Path FileIdentity) : Dis unit :=
  verify_not_modified_since_with_snapshots d started_at (snapshot_of <$> before).

(** [CacheDigest::matches_file]: stream the file. *)
Fixpoint hash_file (fuel : nat) (handle : Object) (bytes : list Z) : Io (list Z) :=
  match fuel with
  | O => lift_io (Err (Other "still growing"))
  | S fuel =>
      chunk ← call (fun w => read_at w handle (Z.of_nat (length bytes)));
      match chunk with [] => mret bytes | _ => hash_file fuel handle (bytes ++ chunk) end
  end.

Definition protocol_error {A} (r : result ProtocolError A) : Io A :=
  lift_io (match r with Ok a => Ok a | Err _ => Err InvalidData end).

Definition matches_file (d : Digest) (p : Path) : Io bool :=
  _ ← protocol_error (validate_digest d);
  a ← protocol_error (parse_algorithm (algorithm d));
  handle ← call (fun w => open_file w p);
  bytes ← hash_file fuel handle [];
  let h := match a with Blake3 => blake3_hex bytes | Sha256 => sha256_hex bytes end in
  mret ((size d =? Z.of_nat (length bytes)) && bool_decide (hash d = h)).

Fixpoint verify_inputs (l : list (ActionInput * option FileIdentity)) : Dis unit :=
  match l with
  | [] => mret ()
  | (input, identity) :: l =>
      let p := input_path input in
      still ← match identity with
              | Some i => if can_skip_content_verification i then on p (still_describes i) else mret false
              | None => mret false
              end;
      if still : bool then verify_inputs l
      else
        same ← on p (matches_file (input_digest input) p);
        if negb same then done (Err (InputChanged p)) else verify_inputs l
  end.

Definition verify (d : DiscoveredInputs) : Dis unit :=
  verify_inputs (zip (discovered_inputs d)
    (identities d ++ repeat None (length (discovered_inputs d) - length (identities d)))).

(** ** Native search directories *)

Definition native_input_roots (working_dir : Path) (path_mappings : list PathMapping) : list Path :=
  map normalize_components (working_dir :: map root path_mappings).

Definition is_linker_irrelevant_directory (p : Path) : bool :=
  match n ← file_name p; to_str n with
  | None => false
  | Some name => String.eqb name "pkgconfig" || String.eqb name "cmake" || ends_in ".dSYM" name
  end.

Definition is_linker_irrelevant_file (p : Path) : bool :=
  is_some_and (fun extension => existsb (fun ignored => eq_ignore_ascii_case extension ignored) ["pc"; "cmake"]%string)
    (e ← extension p; to_str e).

(** What a walk collects: the inputs so far, and which files are charged how
    many bytes. *)
Record Collected := mkCollected { paths : gset Path; native_bytes : Z; counted : gset Path }.

Definition unsupported : BypassReason := UnsupportedSearchPath "native".

Definition within_limits (c : Collected) : bool :=
  (Z.of_nat (length (elements (paths c))) <=? MAX_PREDICTED_INPUTS) && (native_bytes c <=? MAX_NATIVE_INPUT_BYTES).

Definition charge (p : Path) (length : Z) (c : Collected) : result BypassReason Collected :=
  let paths := {[ p ]} ∪ paths c in
  if bool_decide (p ∈ counted c) then Ok (mkCollected paths (native_bytes c) (counted c))
  else
    total ← ok_or unsupported (checked_add (native_bytes c) length);
    Ok (mkCollected paths total ({[ p ]} ∪ counted c)).

(** A link is followed to a file of the same tree only. *)
Definition check_link (canonical_root p : Path) : Dis unit :=
  resolved ← on p (call (fun w => canonical_path w p));
  is_file ← on p (or_else false (m ← metadata resolved; mret (m_is_file m)));
  if negb (starts_with resolved canonical_root) || negb (is_file : bool) then done (Err unsupported) else mret ().

Definition check_limits (c : Collected) : Dis unit :=
  if within_limits c then mret () else done (Err unsupported).

(** What one entry adds: a directory to walk, or a file. *)
Definition native_entry (canonical_root p : Path) (kind : FileKind) (pending : list Path) (c : Collected)
    : Dis (list Path * Collected) :=
  match kind with
  | Directory =>
      _ ← check_limits c;
      mret (if is_linker_irrelevant_directory p then pending else p :: pending, c)
  | _ =>
      if is_linker_irrelevant_file p then mret (pending, c)
      else
        match kind with
        | Special => done (Err unsupported)
        | _ =>
            _ ← match kind with Symlink => check_link canonical_root p | _ => mret () end;
            m ← on p (metadata p);
            c ← done (charge p (m_len m) c);
            _ ← check_limits c;
            mret (pending, c)
        end
  end.

Fixpoint native_entries (canonical_root directory : Path) (l : list (result IoError (string * result IoError FileKind)))
    (pending : list Path) (c : Collected) : Dis (list Path * Collected) :=
  match l with
  | [] => mret (pending, c)
  | entry :: l =>
      '(name, kind) ← on directory (lift_io entry);
      let p := push directory [Normal name] in
      kind ← on p (lift_io kind);
      '(pending, c) ← native_entry canonical_root p kind pending c;
      native_entries canonical_root directory l pending c
  end.

(** The [while] loop; [pending] is the [Vec] from its last element on. *)
Fixpoint native_walk (rounds : nat) (canonical_root : Path) (pending : list Path) (c : Collected) : Dis Collected :=
  match pending, rounds with
  | [], _ => mret c
  | directory :: _, O => done (Err (InputRead directory "still walking"))
  | directory :: pending, S rounds =>
      listing ← plain (call (fun w => Ok (list_directory w directory)));
      match listing with
      | Err NotFound => native_walk rounds canonical_root pending c
      | Err e => done (Err (InputRead directory (io_message e)))
      | Ok entries =>
          '(pending, c) ← native_entries canonical_root directory entries pending c;
          native_walk rounds canonical_root pending c
      end
  end.

Definition collect_native_directory (directory : Path) (admitted_roots : list Path) (c : Collected) : Dis Collected :=
  let directory := normalize_components directory in
  if negb (existsb (starts_with directory) admitted_roots) then done (Err unsupported)
  else
    canonical_root ← plain (call (fun w => Ok (canonical_path w directory)));
    match canonical_root with
    | Err NotFound => mret c
    | Err e => done (Err (InputRead directory (io_message e)))
    | Ok canonical_root => native_walk fuel canonical_root [directory] c
    end.

Fixpoint collect_native_directories (directories : list Path) (admitted_roots : list Path) (c : Collected) : Dis Collected :=
  match directories with
  | [] => mret c
  | directory :: directories =>
      c ← collect_native_directory directory admitted_roots c;
      collect_native_directories directories admitted_roots c
  end.

(** ** Discovery *)

(** [discover]; without mappings no native directory is walked. *)
Definition discover (i : RustcInvocation) (dep_info : RustcDepInfo) (working_dir : Path)
    (path_mappings : option (list PathMapping)) : Dis DiscoveredInputs :=
  if negb (is_absolute working_dir) then done (Err (RelativeWorkingDirectory working_dir))
  else
    let working_dir := normalize_components working_dir in
    let absolute p := normalize_components (if is_absolute p then p else push working_dir p) in
    let sources : gset Path := list_to_set (map absolute (dep_files dep_info)) in
    let paths0 := sources ∪ list_to_set (map absolute (required_inputs i)) in
    let admitted_roots := native_input_roots working_dir (default [] path_mappings) in
    let walked :=
      match path_mappings with
      | Some _ => map (fun p => if is_absolute p then p else push working_dir p) (native_search_paths i)
      | None => []
      end in
    c ← collect_native_directories walked admitted_roots (mkCollected paths0 0 ∅);
    let native_directories := map absolute (native_search_paths i) in
    let native_only :=
      filter (fun p => Is_true (existsb (starts_with p) native_directories)) (paths c ∖ sources) in
    d ← from_paths working_dir (paths c) (dep_environment dep_info);
    mret (with_native_only d native_only).

Definition discover_inputs_with_mappings (i : RustcInvocation) (dep_info : RustcDepInfo) (working_dir : Path)
    (path_mappings : list PathMapping) : Dis DiscoveredInputs :=
  discover i dep_info working_dir (Some path_mappings).

Definition discover_inputs (i : RustcInvocation) (dep_info : RustcDepInfo) (working_dir : Path) : Dis DiscoveredInputs :=
  discover_inputs_with_mappings i dep_info working_dir [].

Definition discover_source_inputs (i : RustcInvocation) (dep_info : RustcDepInfo) (working_dir : Path)
    : Dis DiscoveredInputs :=
  discover i dep_info working_dir None.

End Discovery.

(** ** Every method only moves on *)

Section Tidy.
Context `{KernelLaws} `{!Directories} `{Hashes} `{!DigestCache} (Hn : no_nfs).

(** Whatever a method answers, it has moved on through its worlds and keeps a
    right memo right. *)
Definition tidy {R} (m : Process -> R * Process) : Prop := forall s, goes s (snd (m s)).

Lemma tidy_ret {A} (a : A) : tidy (mret a : Io A).
Proof. intros s. apply goes_refl. Qed.
Lemma tidy_dis_ret {A} (a : A) : tidy (mret a : Dis A).
Proof. intros s. apply goes_refl. Qed.
Lemma tidy_lift {A} (r : result IoError A) : tidy (lift_io r).
Proof. intros s. apply goes_refl. Qed.
Lemma tidy_done {A} (r : result BypassReason A) : tidy (done r).
Proof. intros s. apply goes_refl. Qed.
Lemma tidy_call {A} (f : World -> result IoError A) : tidy (call f).
Proof. intros s. by apply (goes_passed 1). Qed.
Lemma tidy_record scope l : tidy (record scope l).
Proof. intros s. by apply (goes_passed 0). Qed.
Lemma tidy_metadata p : tidy (metadata p).
Proof. apply tidy_call. Qed.
Lemma tidy_now : tidy system_now.
Proof. apply tidy_call. Qed.

Lemma tidy_unreliable p m : tidy (metadata_identity_is_unreliable p m).
Proof. intros s. destruct (metadata_identity_is_unreliable p m s) as [r s'] eqn:E. by apply (unreliable_goes _ _ _ _ _ E). Qed.

Lemma tidy_bind {A B} (m : Io A) (f : A -> Io B) : tidy m -> (forall a, tidy (f a)) -> tidy (m ≫= f).
Proof.
  intros Hm Hf s. unfold mbind, Io_bind. specialize (Hm s). destruct (m s) as [[a|e] s1]; simpl in *; [|exact Hm].
  eapply goes_trans; [exact Hm|apply Hf].
Qed.

Lemma tidy_dis_bind {A B} (m : Dis A) (f : A -> Dis B) : tidy m -> (forall a, tidy (f a)) -> tidy (m ≫= f).
Proof.
  intros Hm Hf s. unfold mbind, Dis_bind. specialize (Hm s). destruct (m s) as [[a|e] s1]; simpl in *; [|exact Hm].
  eapply goes_trans; [exact Hm|apply Hf].
Qed.

Lemma tidy_or_else {A} (d : A) (m : Io A) : tidy m -> tidy (or_else d m).
Proof. intros Hm s. unfold or_else. specialize (Hm s). by destruct (m s) as [[a|e] s1]. Qed.

Lemma tidy_on {A} p (m : Io A) : tidy m -> tidy (on p m).
Proof. intros Hm s. unfold on. specialize (Hm s). by destruct (m s) as [[a|e] s1]. Qed.
End Tidy.

Create HintDb tidy.
#[export] Hint Resolve tidy_ret tidy_dis_ret tidy_lift tidy_done tidy_call tidy_record tidy_metadata tidy_now
  tidy_unreliable : tidy.

(** Take a method apart until the hints know its pieces. *)
Ltac tidy_up :=
  repeat first
    [ solve [auto 2 with tidy nocore]
    | match goal with
      | |- forall _, _ => intro
      | |- tidy (@mbind Io _ _ _ _ _) => apply tidy_bind
      | |- tidy (@mbind Dis _ _ _ _ _) => apply tidy_dis_bind
      | |- tidy (on _ _) => apply tidy_on
      | |- tidy (or_else _ _) => apply tidy_or_else
      | |- tidy (match ?x with _ => _ end) => destruct x
      end ].

Section TidyMethods.
Context `{KernelLaws} `{!Directories} `{Hashes} `{!DigestCache} (Hn : no_nfs) (fuel : nat).

#[local] Hint Extern 1 no_nfs => exact Hn : tidy.

Lemma tidy_identity p m : tidy (for_digest_cache p m).
Proof. unfold for_digest_cache, digest_cache_identity, nfs_file_identity. tidy_up. Qed.
#[local] Hint Resolve tidy_identity : tidy.

Lemma tidy_still i : tidy (still_describes i).
Proof. unfold still_describes. tidy_up. Qed.
#[local] Hint Resolve tidy_still : tidy.

Lemma tidy_reader rounds scope h st : tidy (digest_loop rounds scope h st).
Proof. revert st. induction rounds as [|rounds IH]; intros st; cbn [digest_loop]; tidy_up. Qed.
#[local] Hint Resolve tidy_reader : tidy.

Lemma tidy_validated rounds scope p : tidy (digest_file_validated rounds scope p).
Proof. unfold digest_file_validated, digest_cache_identity, nfs_file_identity, digest_reader. tidy_up. Qed.

Lemma tidy_digest_file rounds scope p : tidy (digest_file rounds scope p).
Proof. unfold digest_file, digest_reader. tidy_up. Qed.

Lemma tidy_cached asked r : tidy (cached_digest asked r).
Proof. unfold cached_digest. tidy_up. Qed.
#[local] Hint Resolve tidy_validated tidy_digest_file tidy_cached : tidy.

Lemma tidy_digest_input p identity r : tidy (digest_input fuel p identity r).
Proof. unfold digest_input, fresh_digest. tidy_up. Qed.
#[local] Hint Resolve tidy_digest_input : tidy.

Lemma tidy_digest_inputs identified recorded : tidy (digest_inputs fuel identified recorded).
Proof. revert recorded. induction identified as [|[p identity] l IH]; intros recorded; cbn [digest_inputs]; tidy_up. Qed.

Lemma tidy_identify l : tidy (identify l).
Proof. induction l as [|p l IH]; cbn [identify]; tidy_up. Qed.

#[local] Hint Resolve tidy_digest_inputs tidy_identify : tidy.

Lemma tidy_from_paths wd ps env : tidy (from_paths fuel wd ps env).
Proof. unfold from_paths. tidy_up. Qed.

Lemma tidy_check_snapshot input previous : tidy (check_snapshot input previous).
Proof. unfold check_snapshot. tidy_up. Qed.
End TidyMethods.

(** ** What is keyed *)

Section Keyed.
Context `{KernelLaws} `{!Directories} `{Hashes} `{!DigestCache} (Hn : no_nfs) (fuel : nat).

(** What happens, moment by moment. *)
Context (history : nat -> World) (Hh : forall n, later (history n) (history (S n))).

Lemma dis_bind_ok {A B} (m : Dis A) (f : A -> Dis B) s b s' :
  (m ≫= f) s = (Ok b, s') -> exists a s1, m s = (Ok a, s1) /\ f a s1 = (Ok b, s').
Proof. unfold mbind, Dis_bind. destruct (m s) as [[a|e] s1]; [|done]. intros Hf. eauto. Qed.

Lemma on_ok {A} p (m : Io A) s a s' : on p m s = (Ok a, s') -> m s = (Ok a, s').
Proof. unfold on. by destruct (m s) as [[?|?] ?]; intros [= -> ->] || done. Qed.

Lemma done_ok {A} (r : result BypassReason A) s a s' : done r s = (Ok a, s') -> r = Ok a /\ s' = s.
Proof. unfold done. by intros [= -> <-]. Qed.

Lemma tidy_goes {R} (m : Process -> R * Process) s r s' : tidy m -> m s = (r, s') -> goes s s'.
Proof. intros Ht Hm. specialize (Ht s). by rewrite Hm in Ht. Qed.

Lemma history_later j k : (j <= k)%nat -> later (history j) (history k).
Proof. induction 1 as [|k Hk IH]; [done|]. by etrans. Qed.

(** A process at a moment of the history. *)
Definition at_moment (j : nat) (s : Process) : Prop := (forall n, ahead s n = history (j + n)) /\ local s.

Lemma at_start j s : at_moment j s -> ahead s 0%nat = history j.
Proof. intros [Hs _]. by rewrite Hs, Nat.add_0_r. Qed.

Lemma at_goes j s s' : at_moment j s -> goes s s' -> exists j', (j <= j')%nat /\ at_moment j' s'.
Proof.
  intros [Hs Hl] [[k Hk] Hl']. exists (j + k)%nat. split; [lia|]. split; [|auto]. intros n. rewrite Hk, Hs. f_equal. lia.
Qed.

Lemma at_tidy {R} (m : Process -> R * Process) j s r s' : at_moment j s -> tidy m -> m s = (r, s') ->
  exists j', (j <= j')%nat /\ at_moment j' s'.
Proof. intros Hj Ht Hm. eapply at_goes; [done|by eapply tidy_goes]. Qed.

(** Between two moments a path names one file, and nobody changes it. *)
Definition steady (j k : nat) (p : Path) (o : Object) (b : list Z) : Prop :=
  forall n, (j <= n <= k)%nat -> contents (history n) o = b /\
    (forall m, stat (history n) p = Ok m -> m_object m = o) /\ (forall h, open_file (history n) p = Ok h -> h = o).

Lemma steady_within j k j' k' p o b : steady j k p o b -> (j <= j')%nat -> (k' <= k)%nat -> steady j' k' p o b.
Proof. intros Hs Hj Hk n Hn'. apply Hs. lia. Qed.

(** What a digest the ledger holds rests on: somebody found the file settled,
    and hashed what it had then. *)
Definition backed (w : World) (i : FileIdentity) (r : FileDigestResolution) : Prop :=
  forall d, r = FileDigest d -> exists w0 w1 m, later w0 w1 /\ later w1 w /\
    stat w1 (path i) = Ok m /\ describe (path i) m = Some i /\ identity_is_racy i (now w0) = false /\
    d = blake3 blake3_hex (contents w1 (m_object m)).

Definition truthful_ledger : Prop := forall w ids k i r,
  ids !! k = Some i -> resolve w Content ids !! k = Some r -> backed w i r.

Lemma cached_keyed j p o b identity r s d s' :
  at_moment j s -> steady j j p o b ->
  (forall i, identity = Some i -> path i = p /\ backed (history j) i r) ->
  cached_digest identity r s = (Ok (Some d), s') -> d = blake3 blake3_hex b.
Proof.
  intros Hj Hs Hi Hd. pose proof (at_start _ _ Hj) as H0'. unfold cached_digest in Hd. destruct r as [d'| |]; [|done..].
  destruct identity as [i|]; [|done]. destruct (Hi i eq_refl) as [<- Hb]. destruct (len i =? size d'); [|done].
  apply bind_ok in Hd as (t & s1 & Hstill & Hd). destruct t; [|done]. injection Hd as <- <-.
  unfold or_else in Hstill. destruct (still_describes i s) as [[t|e] s2] eqn:Et; [|done]. injection Hstill as -> ->.
  destruct (still_describes_ok _ _ _ _ Hn (proj2 Hj) Et) as (_ & m & Hm & Hdesc). rewrite H0' in Hm.
  symmetry in Hdesc. apply bool_decide_eq_true in Hdesc.
  destruct (Hb d' eq_refl) as (w0 & w1 & m1 & Hl0 & Hl1 & Hm1 & Hdesc1 & Hracy & ->).
  destruct (Hs j ltac:(lia)) as (Hcont & Hobj & _). rewrite <- Hcont, <- (Hobj _ Hm). f_equal.
  destruct (described_object _ _ _ Hdesc) as [_ Hsame]. rewrite (Hsame _ Hdesc1).
  apply (settled_is_constant w0 _ m (path i) i); [left; eauto|done..].
Qed.

Lemma fresh_keyed j p s d identity fresh s' :
  at_moment j s -> fresh_digest fuel p s = (Ok (d, identity, fresh), s') ->
  exists j', (j <= j')%nat /\ at_moment j' s' /\ forall o b, steady j j' p o b -> d = blake3 blake3_hex b.
Proof.
  intros Hj Hd. unfold fresh_digest in Hd. apply dis_bind_ok in Hd as (v & s1 & Hv%on_ok & Hd).
  destruct v as [v|].
  - apply dis_bind_ok in Hd as (d' & s2 & [Hr ->]%done_ok & Hd). injection Hd as -> _ _ ->.
    destruct (validated_saw _ _ _ _ _ _ Hn (proj2 Hj) Hv) as (k & i & current & Hk & Hl & Hi & Hstat & _ & _ & Hwhole).
    exists (j + k)%nat. split; [lia|]. split.
    { split; [|by apply Hl, Hj]. intros n. rewrite Hk, (proj1 Hj). f_equal. lia. }
    intros o b Hs. rewrite (Hwhole b) in Hr; [by injection Hr as <-|]. intros n Hlt.
    rewrite (proj1 Hj) in Hstat |- *. destruct (Hs (j + i)%nat ltac:(lia)) as (_ & Hobj & _). rewrite (Hobj _ Hstat).
    by apply (Hs (j + n)%nat); lia.
  - destruct (at_tidy _ _ _ _ _ Hj (tidy_validated Hn fuel Content p) Hv) as (j1 & Hle & Hj1).
    apply dis_bind_ok in Hd as (r & s2 & Hr%on_ok & Hd).
    apply dis_bind_ok in Hd as (d' & s3 & [Hd' ->]%done_ok & Hd). injection Hd as -> _ _ ->.
    unfold digest_file in Hr. apply bind_ok in Hr as (h & s3 & [Ho [Hp Hfs]]%call_ok & Hr).
    apply bind_ok in Hr as ([r' sz] & s4 & Hread & Hr). injection Hr as <- <-. cbn in Hd'.
    apply (digest_loop_whole _ _ _ _ _ _ _ _ (scans_start Content)) in Hread as (k & Hk & Hfs' & Hwhole).
    exists (j1 + S (S k))%nat. split; [lia|]. split.
    { split; [|unfold local; rewrite Hfs', Hfs; apply Hj1]. intros n. rewrite Hk, Hp, (proj1 Hj1). f_equal. lia. }
    intros o b Hs. rewrite (proj1 Hj1) in Ho. destruct (Hs (j1 + 0)%nat ltac:(lia)) as (_ & _ & Hobj).
    specialize (Hobj _ Ho) as ->.
    assert ((r', sz) = (whole_file Content b, Z.of_nat (length b))) as [= -> _]; [|by injection Hd' as <-].
    apply Hwhole; [|by exists b]. intros n Hlt. rewrite Hp, (proj1 Hj1). by apply (Hs (j1 + (1 + n))%nat); lia.
Qed.

Lemma digest_input_keyed j p identity r s d observed fresh s' :
  at_moment j s -> (forall i, identity = Some i -> path i = p /\ backed (history j) i r) ->
  digest_input fuel p identity r s = (Ok (d, observed, fresh), s') ->
  exists j', (j <= j')%nat /\ at_moment j' s' /\ forall o b, steady j j' p o b -> d = blake3 blake3_hex b.
Proof.
  intros Hj Hb Hd. unfold digest_input in Hd. apply dis_bind_ok in Hd as (c & s3 & Hc%on_ok & Hd).
  destruct (at_tidy _ _ _ _ _ Hj (tidy_cached Hn identity r) Hc) as (j3 & Hle & Hj3). destruct c as [d'|].
  - injection Hd as <- _ _ <-. exists j3. split; [done|]. split; [done|]. intros o b Hs.
    eapply (cached_keyed j p o b); [exact Hj|by eapply steady_within|exact Hb|exact Hc].
  - destruct (fresh_keyed _ _ _ _ _ _ _ Hj3 Hd) as (j' & Hle' & Hj' & Hkey). exists j'. split; [lia|]. split; [done|].
    intros o b Hs. apply (Hkey o). by eapply steady_within.
Qed.

Lemma backed_later w w' i r : later w w' -> backed w i r -> backed w' i r.
Proof.
  intros Hl Hb d Hd. destruct (Hb d Hd) as (w0 & w1 & m & ? & Hl1 & ?). exists w0, w1, m. split; [done|]. split; [by etrans|done].
Qed.

Lemma digest_inputs_keyed w j identified recorded s l fresh s' :
  at_moment j s -> later w (history j) ->
  Forall (fun x => forall i, snd x = Some i -> path i = fst x) identified ->
  (forall k i r, omap snd identified !! k = Some i -> recorded !! k = Some r -> backed w i r) ->
  digest_inputs fuel identified recorded s = (Ok (l, fresh), s') ->
  exists j', (j <= j')%nat /\ at_moment j' s' /\
    Forall (fun x => forall o b, steady j j' (input_path (fst x)) o b -> input_digest (fst x) = blake3 blake3_hex b) l.
Proof.
  revert recorded s l fresh j. induction identified as [|[p identity] identified IH];
    intros recorded s l fresh j Hj Hw Hp Hb Hr; cbn [digest_inputs] in Hr.
  { injection Hr as <- _ <-. exists j. split; [done|]. split; [done|constructor]. }
  apply Forall_cons in Hp as [Hp Hps]. destruct (next_resolution identity recorded) as [r recorded'] eqn:En.
  apply dis_bind_ok in Hr as ([[d observed] fr] & s1 & Hd & Hr).
  apply dis_bind_ok in Hr as ([rest more] & s2 & Hrest & Hr). injection Hr as <- _ <-.
  assert (Hbacked : forall i, identity = Some i -> path i = p /\ backed (history j) i r).
  { intros i ->. split; [by apply Hp|]. apply (backed_later w); [done|].
    destruct recorded as [|r0 recorded]; injection En as <- <-; [done|]. by apply (Hb 0%nat). }
  destruct (digest_input_keyed _ _ _ _ _ _ _ _ _ Hj Hbacked Hd) as (j1 & Hle1 & Hj1 & Hkey).
  destruct (IH recorded' s1 rest more j1 Hj1) as (j2 & Hle2 & Hj2 & Hkeys); [|done| |done|].
  - etrans; [exact Hw|by apply history_later].
  - intros k i r' Hi Hk. destruct identity as [i0|]; cbn in Hb.
    + destruct recorded as [|r0 recorded]; injection En as <- <-; [done|]. by apply (Hb (S k)).
    + injection En as <- <-. by apply (Hb k).
  - exists j2. split; [lia|]. split; [done|]. constructor.
    + intros o b Hs. cbn. apply (Hkey o). by eapply steady_within.
    + eapply Forall_impl; [exact Hkeys|]. intros x Hx o b Hs. apply (Hx o). by eapply steady_within.
Qed.

Lemma identify_ok l s ids s' : local s -> identify l s = (Ok ids, s') ->
  Forall (fun x => forall i, snd x = Some i -> path i = fst x) ids.
Proof.
  revert s ids. induction l as [|p l IH]; intros s ids Hl Hi; cbn [identify] in Hi; [injection Hi as <- _; constructor|].
  apply dis_bind_ok in Hi as (m & s1 & Hm%on_ok & Hi). pose proof (tidy_goes _ _ _ _ (tidy_metadata p) Hm) as Hg1.
  destruct (m_is_file m); [|done]. apply dis_bind_ok in Hi as (i & s2 & Hid%on_ok & Hi).
  apply local_identity in Hid as [-> Hg2]; [|done|by apply Hg1].
  apply dis_bind_ok in Hi as (rest & s3 & Hrest & Hi). injection Hi as <- <-. constructor.
  - intros i Hd. by apply described_object in Hd as [? _].
  - eapply IH; [|exact Hrest]. apply Hg2, Hg1, Hl.
Qed.

Lemma from_paths_keyed j wd ps env s d s' :
  truthful_ledger -> at_moment j s -> from_paths fuel wd ps env s = (Ok d, s') ->
  exists j', (j <= j')%nat /\ at_moment j' s' /\
    Forall (fun input => forall o b, steady j j' (input_path input) o b -> input_digest input = blake3 blake3_hex b)
      (discovered_inputs d).
Proof.
  intros Ht Hj Hd. unfold from_paths in Hd. destruct (is_absolute wd); [|done].
  apply dis_bind_ok in Hd as (ids & s1 & Hids & Hd). pose proof (identify_ok _ _ _ _ (proj2 Hj) Hids) as Hpaths.
  destruct (at_tidy _ _ _ _ _ Hj (tidy_identify Hn _) Hids) as (j1 & Hle1 & Hj1).
  apply dis_bind_ok in Hd as (recorded & s2 & Hrec%on_ok & Hd).
  destruct (at_tidy _ _ _ _ _ Hj1 (tidy_call _) Hrec) as (j2 & Hle2 & Hj2). apply call_ok in Hrec as ([= <-] & _ & _).
  apply dis_bind_ok in Hd as ([l fresh] & s3 & Hl & Hd). rewrite (at_start _ _ Hj1) in Hl.
  destruct (digest_inputs_keyed (history j1) j2 _ _ _ _ _ _ Hj2 (history_later _ _ Hle2) Hpaths (Ht _ _) Hl)
    as (j3 & Hle3 & Hj3 & Hkeys).
  apply dis_bind_ok in Hd as (u & s4 & Hu & Hd). injection Hd as <- <-.
  assert (exists j4, (j3 <= j4)%nat /\ at_moment j4 s4) as (j4 & Hle4 & Hj4).
  { destruct fresh; [injection Hu as _ <-; by exists j3|]. exact (at_tidy _ _ _ _ _ Hj3 (tidy_on _ _ (tidy_record _ _)) Hu). }
  exists j4. split; [lia|]. split; [done|]. cbn. apply Forall_fmap. eapply Forall_impl; [exact Hkeys|].
  intros x Hx o b Hs. apply (Hx o). eapply steady_within; [exact Hs|lia|lia].
Qed.

(** An input the check lets pass matched its snapshot as it was at the time. *)
Lemma check_snapshots_ok started before l mc j s s' :
  at_moment j s -> check_snapshots started before l mc s = (Ok None, s') ->
  mc = None /\ forall input previous, In input l ->
    before !! input_path input = Some previous -> proves_content_change previous = true ->
    exists k m, (j <= k)%nat /\ stat (history k) (input_path input) = Ok m /\
      matches previous (describe (input_path input) m) (input_digest input) = true.
Proof.
  revert mc j s. induction l as [|input l IH]; intros mc j s Hj Hs; cbn [check_snapshots] in Hs.
  { injection Hs as -> _. split; [done|]. by intros ? ? []. }
  destruct (option_filter proves_content_change (before !! input_path input)) as [previous|] eqn:Hb.
  - apply dis_bind_ok in Hs as (same & s1 & Hsame & Hs).
    destruct (at_tidy _ _ _ _ _ Hj (tidy_check_snapshot Hn input previous) Hsame) as (j1 & Hle & Hj1).
    destruct (IH _ _ _ Hj1 Hs) as [Hmc Hrest].
    destruct same; [|destruct mc; done]. split; [done|]. intros input' previous' Hin Hb' Hp.
    destruct Hin as [<-|Hin]; [|destruct (Hrest _ _ Hin Hb' Hp) as (k & m & Hk & ?); exists k, m; split; [lia|done]].
    rewrite Hb' in Hb. cbn in Hb. rewrite Hp in Hb. injection Hb as ->.
    unfold check_snapshot in Hsame. apply dis_bind_ok in Hsame as (m & s2 & Hm%on_ok & Hsame).
    pose proof (call_goes _ _ _ _ Hm) as Hg2. apply call_ok in Hm as (Hm & _ & _). rewrite (at_start _ _ Hj) in Hm.
    apply dis_bind_ok in Hsame as (i & s3 & Hi%on_ok & Hsame).
    apply local_identity in Hi as [-> _]; [|done|by apply Hg2, Hj]. exists j, m. split; [done|]. split; [done|].
    assert (option_or (describe (input_path input) m) (describe (input_path input) m) = describe (input_path input) m) as He
      by (by destruct (describe _ m)).
    rewrite He in Hsame. destruct (matches _ _ _); [done|]. by destruct (differs_only_in_change_token _ _).
  - apply dis_bind_ok in Hs as (m & s1 & Hm%on_ok & Hs). destruct (at_tidy _ _ _ _ _ Hj (tidy_metadata _) Hm) as (j1 & Hle & Hj1).
    apply dis_bind_ok in Hs as (t & s2 & [_ ->]%on_ok%lift_io_ok & Hs). destruct (started <=? t); [done|].
    destruct (IH _ _ _ Hj1 Hs) as [Hmc Hrest].
    split; [done|]. intros input' previous' Hin Hb' Hp.
    destruct Hin as [<-|Hin]; [rewrite Hb' in Hb; cbn in Hb; by rewrite Hp in Hb|].
    destruct (Hrest _ _ Hin Hb' Hp) as (k & m' & Hk & ?). exists k, m'. split; [lia|done].
Qed.
End Keyed.

(** A settled snapshot proves changes. *)
Lemma captured_proves `{KernelLaws} `{!Directories} `{Hashes} `{!DigestCache} fuel p s snapshot s' :
  no_nfs -> local s -> capture_with_cache fuel p s = (Ok (Some snapshot), s') -> content snapshot = None ->
  proves_content_change snapshot = true.
Proof.
  intros Hn Hl Hs Hnone. apply (captured_settled _ _ _ _ _ Hn Hl) in Hs as (m & i & Hd & _ & ->); [|done].
  unfold describe in Hd. destruct (m_modified m); [|done]. by injection Hd as <-.
Qed.

(** C14: An input is keyed by what the compiler read.  If the snapshot taken of
    it before the compilation was settled and the check after it passes, then
    at every moment from the snapshot to the check the file had the contents
    whose digest is in the key, however it was written meanwhile, provided its
    path kept naming one file, no file lies on NFS and the session's ledger
    holds digests somebody read. *)
Theorem keyed_inputs_are_what_was_compiled `{KernelLaws} `{!Directories} `{Hashes} `{!DigestCache}
    fuel p o s snapshot s1 wd ps env s2 d s3 started before s4 s5 input :
  no_nfs -> truthful_ledger -> chronological s -> local s ->
  (forall n, (forall m, stat (ahead s n) p = Ok m -> m_object m = o) /\
             (forall h, open_file (ahead s n) p = Ok h -> h = o)) ->
  capture_with_cache fuel p s = (Ok (Some snapshot), s1) -> content snapshot = None ->
  goes s s2 -> from_paths fuel wd ps env s2 = (Ok d, s3) ->
  goes s3 s4 -> verify_not_modified_since_with_snapshots d started before s4 = (Ok tt, s5) ->
  In input (discovered_inputs d) -> input_path input = p -> before !! p = Some snapshot ->
  exists k, passed k s s4 /\
    forall n, (n <= k)%nat -> input_digest input = blake3 blake3_hex (contents (ahead s n) o).
Proof.
  intros Hn Ht Hc Hl Hnames Hs Hnone H02 Hd H34 Hv Hin <- Hb.
  pose proof (captured_proves _ _ _ _ _ Hn Hl Hs Hnone) as Hproves.
  assert (Hj : at_moment (ahead s) 0 s) by (by split).
  destruct (at_goes _ _ _ _ Hj H02) as (j2 & _ & Hj2).
  destruct (from_paths_keyed Hn fuel _ Hc _ _ _ _ _ _ _ Ht Hj2 Hd) as (j3 & Hle3 & Hj3 & Hkeyed).
  destruct (at_goes _ _ _ _ Hj3 H34) as (j4 & Hle4 & Hj4).
  unfold verify_not_modified_since_with_snapshots in Hv. apply dis_bind_ok in Hv as ([q|] & s6 & Hv & Hend); [done|].
  destruct (check_snapshots_ok Hn _ _ _ _ _ _ _ _ Hj4 Hv) as [_ Hok].
  destruct (Hok _ _ Hin Hb Hproves) as (k & m & Hk & Hm & Hmatch).
  pose proof (settled_snapshot_pins_contents _ _ _ _ _ _ _ _ Hn Hl Hs Hnone Hm Hmatch) as Hpin.
  rewrite (proj1 (Hnames k) _ Hm) in Hpin.
  assert (Hcont : forall n, (n <= k)%nat -> contents (ahead s n) o = contents (ahead s k) o).
  { intros n Hle. apply Hpin; apply (history_later _ Hc); lia. }
  exists j4. split; [intros n; apply Hj4|]. intros n Hle. rewrite Hcont by lia.
  rewrite Forall_forall in Hkeyed. apply (Hkeyed input (proj2 (list_elem_of_In _ _) Hin) o).
  intros n' Hn'. split; [apply Hcont; lia|]. apply Hnames.
Qed.

(** ** A compilation watched in memory *)

Module CompileDemo.
Import Memory.

#[export] Instance memory_directories : Directories := {
  list_directory _ _ := Err NotFound;
  canonical_path _ p := Ok p;
  io_message _ := ""%string
}.

(** A ledger that remembers nothing: [NoFileDigestCache]. *)
#[export] Instance no_cache : DigestCache := { resolve _ _ ids := map (fun _ => Unresolved) ids }.

Lemma no_cache_is_truthful : truthful_ledger.
Proof.
  intros w ids k i r _ Hr d ->. cbn in Hr. rewrite list_lookup_fmap in Hr. by destruct (ids !! k).
Qed.

Definition captured := capture_with_cache 20 source watching.
Definition snapshot : FileSnapshot := Eval vm_compute in
  match fst captured with Ok (Some s) => s | _ => snapshot_of (mkIdentity [] 0 0 None None) end.
Definition found := from_paths 20 (path_of "/work") {[ source ]} ∅ watching.
Definition inputs_found : DiscoveredInputs := Eval vm_compute in
  match fst found with Ok d => d | _ => mkDiscovered [] [] ∅ [] ∅ end.
Definition before : gmap Path FileSnapshot := {[ source := snapshot ]}.
Definition checked := verify_not_modified_since_with_snapshots inputs_found 4000000000 before watching.
Definition keyed : ActionInput := mkInput source (mkDigest "blake3" "int x = __TIME__;" 17).

Lemma answers : fst captured = Ok (Some snapshot) /\ fst found = Ok inputs_found /\ fst checked = Ok tt.
Proof. split; [|split]; vm_compute; reflexivity. Qed.

(** Whatever part ran, the process is still in the quiet world. *)
Lemma goes_watching s : goes s watching <-> exists k, forall n, quiet = ahead s (k + n)%nat.
Proof.
  split; [by intros [H _]|]. intros H. split; [done|]. intros _ d u Hd. cbn in Hd. by rewrite lookup_empty in Hd.
Qed.

Lemma keyed_inputs_are_what_was_compiled_witness :
  exists k, passed k watching watching /\
    forall n, (n <= k)%nat -> input_digest keyed = blake3 blake3_hex (contents (ahead watching n) (1, 7)).
Proof.
  destruct quiet_is_local as (Hn & Hl & _ & Hc). destruct answers as (Hs & Hd & Hv).
  apply (keyed_inputs_are_what_was_compiled 20 source (1, 7) watching snapshot (snd captured) (path_of "/work")
    {[ source ]} ∅ watching inputs_found (snd found) 4000000000 before watching (snd checked) keyed
    Hn no_cache_is_truthful Hc Hl).
  - intros n. split; [intros m|intros h]; vm_compute; by intros [= <-].
  - rewrite <- Hs. apply surjective_pairing.
  - reflexivity.
  - apply goes_refl.
  - rewrite <- Hd. apply surjective_pairing.
  - apply goes_watching. exists 0%nat. intros n. vm_compute. reflexivity.
  - rewrite <- Hv. apply surjective_pairing.
  - by left.
  - reflexivity.
  - reflexivity.
Defined.
End CompileDemo.
