(* ===== verification/RustcPrediction.v ===== *)
(** * Predicted inputs

    Models the input prediction of [src/crates/mbx-cache-rustc/src/lib.rs]: the
    names a later run of an invocation will hash before it compiles
    ([RustcInvocation::prediction]), and their compact form on the wire
    ([compact_prediction_inputs], [expand_prediction_inputs]).

    The theorems: every discovered input is named by the prediction or lies
    beneath a native directory it names; and the compact form of UTF-8 names
    reads back as it was, within the decoder's limit. *)

From stdpp Require Import base list gmap strings sorting pretty.
From Stdlib Require Import ZArith Lia Ascii ZifyN ZifyBool.
From S2P Require Import Prelude Protocol Strings PathMap Naming RustcArgs FileDigest RustcAction DepInfo.
Local Open Scope string_scope.

Definition MAX_DECODED_PREDICTION_BYTES : Z := 16 * 1024 * 1024.
Definition NATIVE_DIRECTORY_PREDICTION_PREFIX : string := "@native-directory:".

(** ** Predictions *)

Section Predict.
Context `{Disk}.

Record RustcInputPrediction := mkPrediction {
  version : Z;
  predicted_inputs : list string;
  predicted_environment : list string;
  compiler_duration_ns : Z;
  predicted_crate_name : string;
}.

(** Strictly beneath one of the directories, by their names. *)
Definition under_any_directory (path : string) (directories : list string) : bool :=
  existsb (fun directory => is_some (strip_prefix (directory ++ "/") path)) directories.

Fixpoint keep_inputs (b : ActionBuilder) (directories : list string) (d : DiscoveredInputs)
    (l : list ActionInput) : Build BypassReason (list string) :=
  match l with
  | [] => mret []
  | input :: l =>
      normalized ← normalize_path b (input_path input);
      rest ← keep_inputs b directories d l;
      mret (if negb (under_any_directory normalized directories) ||
               negb (bool_decide (input_path input ∈ native_only d))
            then normalized :: rest else rest)
  end.

Definition predict (b : ActionBuilder) (d : DiscoveredInputs) : Build BypassReason RustcInputPrediction :=
  _ ← lift (validate_mappings b);
  directories ← each (normalize_path b) (native_search_paths (invocation b));
  let directories := string_set directories in
  inputs ← keep_inputs b directories d (discovered_inputs d);
  mret (mkPrediction 4
    (string_set (inputs ++ map (String.append NATIVE_DIRECTORY_PREDICTION_PREFIX) directories)%list)
    (map fst (entries (discovered_environment d))) 0 "").

Definition prediction (i : RustcInvocation) (c : ActionContext) (d : DiscoveredInputs)
    : result BypassReason RustcInputPrediction :=
  fst (predict (builder_new i c None) d ∅).

End Predict.

(** ** Discovery from a prediction *)

Section Rediscover.
Context `{Directories} `{Hashes} `{!DigestCache} (fuel : nat).

Definition denormalized (value : string) (mappings : list PathMapping) : result BypassReason Path :=
  ok_or (InvalidPredictedInput value) (denormalize_path value mappings).

Fixpoint predicted_paths (version : Z) (l : list string) (admitted_roots : list Path) (mappings : list PathMapping)
    (named : gset Path) (c : Collected) : Dis (gset Path * Collected) :=
  match l with
  | [] => mret (named, c)
  | value :: l =>
      match (if (3 <=? version)%Z then strip_prefix NATIVE_DIRECTORY_PREDICTION_PREFIX value else None) with
      | Some value =>
          directory ← done (denormalized value mappings);
          c ← collect_native_directory fuel directory admitted_roots c;
          predicted_paths version l admitted_roots mappings named c
      | None =>
          p ← done (denormalized value mappings);
          predicted_paths version l admitted_roots mappings ({[ p ]} ∪ named)
            (mkCollected ({[ p ]} ∪ paths c) (native_bytes c) (counted c))
      end
  end.

(** The variables, read from the environment as it is now. *)
Fixpoint read_variables (env : string -> option string) (names : list string)
    : result BypassReason (gmap string (option string)) :=
  match names with
  | [] => Ok ∅
  | name :: names =>
      if String.eqb name "" || contains_char "=" name || contains_char (ascii_of_N 0) name then Err UnsupportedPrediction
      else
        value ← match env name with
                | Some value => value ← ok_or UnsupportedPrediction (to_str value); Ok (Some value)
                | None => Ok None
                end;
        rest ← read_variables env names;
        Ok (<[name := value]> rest)
  end.

(** [RustcInputPrediction::discover]. *)
Definition rediscover (p : RustcInputPrediction) (working_dir : Path) (path_mappings : list PathMapping)
    (env : string -> option string) : Dis DiscoveredInputs :=
  if negb ((2 <=? version p)%Z && (version p <=? 4)%Z) then done (Err UnsupportedPrediction)
  else if (MAX_PREDICTED_INPUTS <? Z.of_nat (length (predicted_inputs p)))%Z ||
          (4 * 1024 <? Z.of_nat (length (predicted_environment p)))%Z
  then done (Err UnsupportedPrediction)
  else
    let admitted_roots := native_input_roots working_dir path_mappings in
    '(named, c) ← predicted_paths (version p) (predicted_inputs p) admitted_roots path_mappings ∅ (mkCollected ∅ 0 ∅);
    environment ← done (read_variables env (predicted_environment p));
    d ← from_paths fuel working_dir (paths c) environment;
    mret (with_native_only d (paths c ∖ named)).

End Rediscover.

(** ** The compact form *)

Fixpoint shared_bytes (previous input : string) : nat :=
  match previous, input with
  | String a previous, String b input => if Ascii.eqb a b then S (shared_bytes previous input) else O
  | _, _ => O
  end.

(** The first [n] bytes and what follows them. *)
Fixpoint take_bytes (n : nat) (s : string) : string :=
  match n, s with S n, String a s => String a (take_bytes n s) | _, _ => "" end.
Fixpoint drop_bytes (n : nat) (s : string) : string :=
  match n, s with S n, String _ s => drop_bytes n s | O, s => s | S _, EmptyString => "" end.

(** [str::is_char_boundary]. *)
Definition is_char_boundary (s : string) (n : nat) : bool :=
  (n =? 0)%nat ||
  match drop_bytes n s with
  | EmptyString => (n =? String.length s)%nat
  | String a _ => negb ((128 <=? N_of_ascii a) && (N_of_ascii a <? 192))%N
  end.

(** The [while] loop: zero is a boundary, so it ends. *)
Fixpoint boundary_before (s : string) (shared : nat) : nat :=
  if is_char_boundary s shared then shared
  else match shared with O => O | S shared => boundary_before s shared end.

Definition nat_text (n : nat) : string := pretty (N.of_nat n).

Fixpoint compact_from (previous : string) (inputs : list string) : list string :=
  match inputs with
  | [] => []
  | input :: inputs =>
      let shared := boundary_before input (shared_bytes previous input) in
      (nat_text shared ++ ":" ++ drop_bytes shared input) :: compact_from input inputs
  end.

Definition compact_prediction_inputs (inputs : list string) : list string := compact_from "" inputs.

Fixpoint expand_inputs_from (expanded : list string) (decoded_bytes : Z) (inputs : list string)
    : result string (list string) :=
  match inputs with
  | [] => Ok expanded
  | input :: inputs =>
      '(shared_text, suffix) ← ok_or "compact rustc prediction input has no prefix length" (split_once ":" input);
      shared ← ok_or "compact rustc prediction prefix length is invalid" (parse_usize shared_text);
      let shared_n := Z.to_nat shared in
      if negb (String.eqb (pretty (Z.to_N shared)) shared_text) ||
         (from_option String.length 0%nat (last expanded) <? shared_n)%nat ||
         is_some_and (fun previous => negb (is_char_boundary previous shared_n)) (last expanded)
      then Err "compact rustc prediction prefix is not canonical"
      else
        let path := from_option (take_bytes shared_n) "" (last expanded) ++ suffix in
        decoded_bytes ← ok_or "compact rustc prediction is too large"
                          (checked_add decoded_bytes (Z.of_nat (String.length path)));
        if (MAX_DECODED_PREDICTION_BYTES <? decoded_bytes)%Z then Err "compact rustc prediction is too large"
        else expand_inputs_from (expanded ++ [path]) decoded_bytes inputs
  end.

Definition expand_prediction_inputs (inputs : list string) : result string (list string) :=
  expand_inputs_from [] 0 inputs.

(** The wire form of the inputs, and what reading it gives. *)
Definition wire_inputs (p : RustcInputPrediction) : list string :=
  if (version p =? 4)%Z then compact_prediction_inputs (predicted_inputs p) else predicted_inputs p.

Definition read_inputs (version : Z) (wire : list string) : result string (list string) :=
  if (version =? 4)%Z then expand_prediction_inputs wire else Ok wire.

(** ** Decimal numbers *)

Lemma digit_char d : (d < 10)%N ->
  is_ascii_digit (pretty_N_char d) = true /\ Z.of_N (N_of_ascii (pretty_N_char d)) = (48 + Z.of_N d)%Z.
Proof.
  intros Hd. assert (d = 0 \/ d = 1 \/ d = 2 \/ d = 3 \/ d = 4 \/ d = 5 \/ d = 6 \/ d = 7 \/ d = 8 \/ d = 9)%N
    as Hc by lia.
  repeat destruct Hc as [->|Hc]; try subst; by vm_compute.
Qed.

Lemma digits_value_pretty x s : (Z.of_N x <= u64_max)%Z ->
  digits_value 0 (pretty_N_go x s) = digits_value (Z.of_N x) s.
Proof.
  revert s. induction (N.lt_wf_0 x) as [x _ IH]; intros s Hx.
  destruct (decide (x = 0)%N) as [->|Hn]; [by rewrite pretty_N_go_0|].
  rewrite pretty_N_go_step by lia.
  pose proof (N.div_lt x 10 ltac:(lia) ltac:(lia)). pose proof (N.div_mod x 10 ltac:(lia)) as Hdm.
  pose proof (N.mod_lt x 10 ltac:(lia)) as Hlt. rewrite IH by lia.
  destruct (digit_char (x `mod` 10)%N Hlt) as [Hd Hv]. cbn [digits_value]. rewrite Hd, Hv.
  set (q := (x `div` 10)%N) in *. set (r := (x `mod` 10)%N) in *. unfold checked_mul, checked_add.
  assert (Z.of_N q * 10 <=? u64_max = true)%Z as -> by lia. cbn.
  assert (Z.of_N q * 10 + (48 + Z.of_N r - 48) = Z.of_N x)%Z as -> by lia.
  by assert (Z.of_N x <=? u64_max = true)%Z as -> by lia.
Qed.

Lemma digits_pretty x s : all_chars is_ascii_digit s = true ->
  all_chars is_ascii_digit (pretty_N_go x s) = true.
Proof.
  revert s. induction (N.lt_wf_0 x) as [x _ IH]; intros s Hs.
  destruct (decide (x = 0)%N) as [->|Hn]; [by rewrite pretty_N_go_0|].
  rewrite pretty_N_go_step by lia. apply IH; [apply N.div_lt; lia|].
  cbn [all_chars]. rewrite Hs. by rewrite (proj1 (digit_char _ (N.mod_lt x 10 ltac:(lia)))).
Qed.

Lemma pretty_go_nonempty x s : s <> "" -> pretty_N_go x s <> "".
Proof.
  revert s. induction (N.lt_wf_0 x) as [x _ IH]; intros s Hs.
  destruct (decide (x = 0)%N) as [->|Hn]; [by rewrite pretty_N_go_0|].
  rewrite pretty_N_go_step by lia. apply IH; [apply N.div_lt; lia|done].
Qed.

Lemma digits_nat_text n : all_chars is_ascii_digit (nat_text n) = true.
Proof. unfold nat_text, pretty, pretty_N. case_decide; [done|]. by apply digits_pretty. Qed.

Lemma parse_nat_text n : (Z.of_nat n <= u64_max)%Z -> parse_usize (nat_text n) = Some (Z.of_nat n).
Proof.
  intros Hn. pose proof (digits_nat_text n) as Hd. unfold nat_text, pretty, pretty_N in *.
  destruct (decide (N.of_nat n = 0)%N) as [H0|H0]; [by assert (n = O) as -> by lia|].
  pose proof (digits_value_pretty (N.of_nat n) "" ltac:(lia)) as Hv.
  replace (Z.of_N (N.of_nat n)) with (Z.of_nat n) in Hv by lia.
  destruct (pretty_N_go (N.of_nat n) "") as [|a s] eqn:He.
  { rewrite pretty_N_go_step in He by lia. by apply pretty_go_nonempty in He. }
  unfold parse_usize. destruct (Ascii.eqb_spec a "+") as [->|_]; [by simpl in Hd|exact Hv].
Qed.

(** ** Character boundaries *)

(** What a prefix of a UTF-8 string leaves to be read of its last character. *)
Fixpoint utf8_state (pending : list (N * N)) (s : string) : option (list (N * N)) :=
  match s, pending with
  | EmptyString, _ => Some pending
  | String a s, [] => p ← continuation (N_of_ascii a); utf8_state p s
  | String a s, (lo, hi) :: pending =>
      if ((lo <=? N_of_ascii a) && (N_of_ascii a <=? hi))%N then utf8_state pending s else None
  end.

Lemma utf8_from_app pending a b :
  utf8_from pending (a ++ b) = from_option (fun p => utf8_from p b) false (utf8_state pending a).
Proof.
  revert pending. induction a as [|x a IH]; intros [|[lo hi] pending]; simpl; try done.
  - destruct (continuation _); simpl; [apply IH|done].
  - destruct ((lo <=? N_of_ascii x) && (N_of_ascii x <=? hi))%N; simpl; [apply IH|done].
Qed.

(** A byte inside a character, and bytes that may come there. *)
Definition is_tail (a : ascii) : bool := ((128 <=? N_of_ascii a) && (N_of_ascii a <? 192))%N.
Definition tails (pending : list (N * N)) : Prop := Forall (fun r => (128 <= r.1 /\ r.2 < 192)%N) pending.

Lemma continuation_spec b p : continuation b = Some p ->
  tails p /\ ((128 <=? b) && (b <? 192))%N = false.
Proof.
  unfold continuation, tails. intros H.
  repeat match type of H with (if ?c then _ else _) = _ => destruct c eqn:? end; simplify_eq;
    (split; [repeat constructor; simpl; lia|lia]).
Qed.

Lemma utf8_state_tails pending s p : tails pending -> utf8_state pending s = Some p -> tails p.
Proof.
  revert pending. induction s as [|x s IH]; intros [|[lo hi] pending] Hp H; simpl in H; simplify_eq; try done.
  - destruct (continuation _) as [q|] eqn:Hq; [|done]. exact (IH q (proj1 (continuation_spec _ _ Hq)) H).
  - destruct (_ && _)%N; [|done]. apply (IH pending); [by inversion Hp|done].
Qed.

Lemma take_drop_bytes n s : take_bytes n s ++ drop_bytes n s = s.
Proof. revert s. induction n as [|n IH]; intros [|a s]; try done. exact (f_equal (String a) (IH s)). Qed.

Lemma length_take_bytes n s : (n <= String.length s)%nat -> String.length (take_bytes n s) = n.
Proof. revert s. induction n as [|n IH]; intros [|a s] H; simpl in *; try lia. rewrite IH; lia. Qed.

Lemma drop_bytes_nil n s : (n <= String.length s)%nat -> drop_bytes n s = "" <-> n = String.length s.
Proof.
  revert s. induction n as [|n IH]; intros [|a s] H; simpl in *; try lia; try done.
  rewrite IH by lia. lia.
Qed.

(** A boundary of a UTF-8 string is where no character is open. *)
Lemma boundary_state s n : utf8_from [] s = true -> (n <= String.length s)%nat ->
  is_char_boundary s n = true <-> utf8_state [] (take_bytes n s) = Some [].
Proof.
  intros Hs Hn. pose proof (drop_bytes_nil n s Hn) as Hd.
  rewrite <- (take_drop_bytes n s), utf8_from_app in Hs. unfold is_char_boundary.
  destruct (Nat.eqb_spec n 0) as [->|H0]; [by destruct s|]. simpl.
  destruct (utf8_state [] _) as [p|] eqn:Hp; simpl in Hs; [|done].
  apply utf8_state_tails in Hp; [|by constructor].
  destruct (drop_bytes n s) as [|a rest]; simpl in Hs.
  - destruct p; [|done]. assert (n = String.length s) as <- by (by apply Hd). by rewrite Nat.eqb_refl.
  - destruct p as [|[lo hi] p].
    + destruct (continuation _) eqn:Hc; [|done]. apply continuation_spec in Hc as [_ Hc]. by rewrite Hc.
    + inversion_clear Hp as [|? ? [Hlo Hhi] _]. simpl in *. apply andb_prop in Hs as [Hr _].
      split; [|done]. lia.
Qed.

Lemma shared_take previous input n : (n <= shared_bytes previous input)%nat ->
  take_bytes n previous = take_bytes n input /\
  (n <= String.length previous)%nat /\ (n <= String.length input)%nat.
Proof.
  revert previous input. induction n as [|n IH]; intros [|a previous] [|b input] H; simpl in *;
    try (split; [done|lia]); try lia.
  destruct (Ascii.eqb_spec a b) as [->|]; [|lia].
  destruct (IH previous input ltac:(lia)) as (-> & ? & ?). split; [done|lia].
Qed.

Lemma boundary_before_spec s n :
  (boundary_before s n <= n)%nat /\ is_char_boundary s (boundary_before s n) = true.
Proof.
  induction n as [|n [IH1 IH2]]; cbn [boundary_before]; [by split|].
  destruct (is_char_boundary s (S n)) eqn:Hb; [by split|]. split; [lia|done].
Qed.

(** The prefix two names share, cut at a boundary of the second, is a prefix of
    the first that ends at a boundary. *)
Lemma shared_prefix previous input :
  utf8_from [] previous = true -> utf8_from [] input = true ->
  let n := boundary_before input (shared_bytes previous input) in
  (n <= String.length previous)%nat /\ is_char_boundary previous n = true /\
  take_bytes n previous ++ drop_bytes n input = input.
Proof.
  intros Hp Hi n. destruct (boundary_before_spec input (shared_bytes previous input)) as [Hn Hb].
  destruct (shared_take _ _ _ Hn) as (He & Hlp & Hli). split; [done|].
  apply boundary_state in Hb; [|done..]. split; [|unfold n; by rewrite He, take_drop_bytes].
  apply boundary_state; [done..|]. fold n in He. by rewrite He.
Qed.

(** ** Reading back *)

Definition total_length (l : list string) : Z := foldr (fun s n => (Z.of_nat (String.length s) + n)%Z) 0%Z l.
Definition is_utf8 (s : string) : bool := utf8_from [] s.

Lemma total_length_nonneg l : (0 <= total_length l)%Z.
Proof. induction l; simpl; lia. Qed.

Lemma colon_splits n s : split_once ":" (nat_text n ++ ":" ++ s) = Some (nat_text n, s).
Proof. apply split_once_app, (without_of is_ascii_digit); [done|apply digits_nat_text]. Qed.

(** One entry reads back after any list whose last name it was cut against. *)
Lemma expand_step expanded decoded input inputs :
  let previous := default "" (last expanded) in
  let shared := boundary_before input (shared_bytes previous input) in
  utf8_from [] previous = true -> utf8_from [] input = true -> (0 <= decoded)%Z ->
  (decoded + Z.of_nat (String.length input) <= MAX_DECODED_PREDICTION_BYTES)%Z ->
  expand_inputs_from expanded decoded ((nat_text shared ++ ":" ++ drop_bytes shared input) :: inputs) =
  expand_inputs_from (expanded ++ [input]) (decoded + Z.of_nat (String.length input)) inputs.
Proof.
  intros previous shared Hp Hi Hd Hmax. destruct (shared_prefix previous input Hp Hi) as (Hlen & Hb & Hcut).
  fold shared in Hlen, Hb, Hcut.
  assert (shared <= String.length input)%nat as Hli
    by (apply (shared_take previous), boundary_before_spec).
  unfold MAX_DECODED_PREDICTION_BYTES in *. cbn [expand_inputs_from]. rewrite colon_splits. cbn [ok_or mbind result_bind].
  rewrite parse_nat_text by (unfold u64_max; lia). cbn [ok_or mbind result_bind]. rewrite Nat2Z.id.
  replace (Z.to_N (Z.of_nat shared)) with (N.of_nat shared) by lia. fold (nat_text shared).
  rewrite String.eqb_refl. cbn [negb orb].
  assert (from_option String.length 0%nat (last expanded) <? shared = false)%nat as ->
    by (revert Hlen; unfold previous; destruct (last expanded); simpl; lia).
  assert (is_some_and (fun s => negb (is_char_boundary s shared)) (last expanded) = false) as ->
    by (revert Hb; unfold previous; destruct (last expanded); simpl; [by intros ->|done]).
  assert (from_option (take_bytes shared) "" (last expanded) ++ drop_bytes shared input = input) as ->.
  { rewrite <- Hcut at 2. f_equal. revert Hlen. unfold previous. destruct (last expanded); [done|]. simpl.
    by destruct shared. }
  cbn [ok_or mbind result_bind]. unfold checked_add. rewrite (proj2 (Z.leb_le _ u64_max)) by (unfold u64_max; lia). cbn [ok_or mbind result_bind].
  by rewrite (proj2 (Z.ltb_ge MAX_DECODED_PREDICTION_BYTES _) Hmax).
Qed.

Lemma expand_compact expanded decoded inputs :
  utf8_from [] (default "" (last expanded)) = true -> forallb is_utf8 inputs = true -> (0 <= decoded)%Z ->
  (decoded + total_length inputs <= MAX_DECODED_PREDICTION_BYTES)%Z ->
  expand_inputs_from expanded decoded (compact_from (default "" (last expanded)) inputs) =
  Ok (expanded ++ inputs)%list.
Proof.
  revert expanded decoded. induction inputs as [|input inputs IH]; intros expanded decoded Hp Hi Hd Hmax.
  { cbn. by rewrite app_nil_r. }
  simpl in Hi, Hmax. apply andb_prop in Hi as [Hi Hr]. pose proof (total_length_nonneg inputs).
  cbn [compact_from]. rewrite expand_step; [|done..|lia].
  pose proof (IH (expanded ++ [input])%list (decoded + Z.of_nat (String.length input))%Z) as He.
  rewrite last_snoc in He. cbn [default] in He. rewrite <- app_assoc in He. apply He; [done..|lia|lia].
Qed.

(** A prediction reads back as it was written: the compact form of UTF-8
    names, each cut where it departs from the one before it, expands to the
    names, as long as together they stay within the reader's limit. *)
Lemma predictions_read_back p :
  forallb is_utf8 (predicted_inputs p) = true ->
  (total_length (predicted_inputs p) <= MAX_DECODED_PREDICTION_BYTES)%Z ->
  read_inputs (version p) (wire_inputs p) = Ok (predicted_inputs p).
Proof.
  intros Hu Hmax. unfold read_inputs, wire_inputs. destruct (version p =? 4)%Z; [|done].
  exact (expand_compact [] 0 _ eq_refl Hu (Z.le_refl 0) Hmax).
Qed.

(** What the reader accepts from anyone stays within its limit, one name per entry. *)
Lemma expansion_is_bounded expanded decoded wire l :
  total_length expanded = decoded -> (decoded <= MAX_DECODED_PREDICTION_BYTES)%Z ->
  expand_inputs_from expanded decoded wire = Ok l ->
  (total_length l <= MAX_DECODED_PREDICTION_BYTES)%Z /\ length l = (length expanded + length wire)%nat.
Proof.
  assert (Happ : forall a b, total_length (a ++ b) = (total_length a + total_length b)%Z).
  { intros a b. induction a; simpl; lia. }
  revert expanded decoded. induction wire as [|w wire IH]; intros expanded decoded Ht Hd H.
  { cbn in H. simplify_eq. simpl. lia. }
  cbn [expand_inputs_from] in H.
  destruct (split_once _ _) as [[text suffix]|]; cbn [ok_or mbind result_bind] in H; [|done].
  destruct (parse_usize text) as [n|]; cbn [ok_or mbind result_bind] in H; [|done].
  match type of H with (if ?c then _ else _) = _ => destruct c end; [done|].
  destruct (checked_add _ _) as [total|] eqn:Hc; cbn [ok_or mbind result_bind] in H; [|done].
  unfold checked_add in Hc. destruct (_ <=? u64_max)%Z in Hc; [|done]. injection Hc as <-.
  destruct (Z.ltb_spec MAX_DECODED_PREDICTION_BYTES
    (decoded + Z.of_nat (String.length (from_option (take_bytes (Z.to_nat n)) "" (last expanded) ++ suffix)))) as [|Hm];
    [done|].
  apply IH in H; [|rewrite Happ, Ht; simpl; lia|exact Hm]. rewrite length_app in H. simpl in *. lia.
Qed.

Lemma predictions_read_back_witness :
  let p := mkPrediction 4 ["{workspace}/src/lib.rs"; "{workspace}/src/main.rs"; "{workspace}/src/" ++
             String (ascii_of_N 195) (String (ascii_of_N 169) ".rs"); "{workspace}/src/" ++
             String (ascii_of_N 195) (String (ascii_of_N 168) ".rs")] [] 0 "" in
  wire_inputs p = ["0:{workspace}/src/lib.rs"; "16:main.rs"; "16:" ++ String (ascii_of_N 195) (String (ascii_of_N 169) ".rs");
    "16:" ++ String (ascii_of_N 195) (String (ascii_of_N 168) ".rs")] /\
  read_inputs (version p) (wire_inputs p) = Ok (predicted_inputs p).
Proof.
  split; [vm_compute; reflexivity|].
  apply predictions_read_back; [vm_compute; reflexivity|vm_compute; discriminate].
Defined.
