(* ===== verification/Rediscovery.v ===== *)
(** * Discovering the inputs again

    A prediction replaces the compiler's dep-info: [RustcInputPrediction::discover]
    of [src/crates/mbx-cache-rustc/src/lib.rs], modelled in [RustcPrediction.v],
    must find what [RustcDepInfo]'s own discovery, modelled in [DepInfo.v], found
    when the prediction was made ([RustcInvocation::prediction]).  This file
    proves that it does, on a disk where nothing happens between the two, no file
    lies on NFS and the roots and the files are not reached through links.

    The logic is in three parts.  [Still]: in an unchanging world every method of
    discovery answers the same to every process ([answers], [settles]).  [Walks]:
    a walk of a native directory adds the same files to whatever was collected
    before it, as long as the limits allow ([adds], [shows]), every file its
    listings show among them ([in_tree]).  [Names]: what each
    name of a prediction stands for, a file or what a walk adds ([stands_for]).
    The demo runs a build twice on a disk in memory. *)

From stdpp Require Import base list gmap sets strings sorting.
From Stdlib Require Import ZArith Lia Ascii.
From S2P Require Import Prelude Protocol Strings PathMap Naming RustcArgs FileDigest RustcAction DepInfo RustcPrediction.
Local Open Scope Z_scope.

(** ** A world where nothing happens *)

Section Still.
Context `{Directories} `{Hashes} `{!DigestCache} (w : World).

(** Every call sees the same world. *)
Definition still (s : Process) : Prop :=
  (forall n, ahead s n = w) /\ forall d u, filesystems s !! d = Some u -> u = false.

(** What a method answers there, always. *)
Definition answers {R} (m : Process -> R * Process) (r : R) : Prop :=
  forall s, still s -> exists s', m s = (r, s') /\ still s'.

Definition settles {R} (m : Process -> R * Process) : Prop := exists r, answers m r.

Lemma answers_ret {A} (a : A) : answers (mret a : Io A) (Ok a).
Proof. intros s Hs. by exists s. Qed.
Lemma answers_dis_ret {A} (a : A) : answers (mret a : Dis A) (Ok a).
Proof. intros s Hs. by exists s. Qed.
Lemma answers_lift {A} (r : result IoError A) : answers (lift_io r) r.
Proof. intros s Hs. by exists s. Qed.
Lemma answers_done {A} (r : result BypassReason A) : answers (done r) r.
Proof. intros s Hs. by exists s. Qed.
Lemma answers_call {A} (f : World -> result IoError A) : answers (call f) (f w).
Proof. intros s [Hw Hf]. unfold call. rewrite Hw. eexists. split; [done|]. split; [intros n; apply Hw|done]. Qed.
Lemma answers_record scope l : answers (record scope l) (Ok tt).
Proof. intros s [Hw Hf]. eexists. split; [done|]. by split. Qed.

Lemma answers_bind {A B} (m : Io A) (f : A -> Io B) r r' :
  answers m r -> answers (match r with Ok a => f a | Err e => lift_io (Err e) end) r' -> answers (m ≫= f) r'.
Proof.
  intros Hm Hf s Hs. destruct (Hm s Hs) as (s1 & He & Hs1). unfold mbind, Io_bind. rewrite He.
  destruct r; apply (Hf s1 Hs1).
Qed.

Lemma answers_dis_bind {A B} (m : Dis A) (f : A -> Dis B) r r' :
  answers m r -> answers (match r with Ok a => f a | Err e => done (Err e) end) r' -> answers (m ≫= f) r'.
Proof.
  intros Hm Hf s Hs. destruct (Hm s Hs) as (s1 & He & Hs1). unfold mbind, Dis_bind. rewrite He.
  destruct r; apply (Hf s1 Hs1).
Qed.

(** A method settles when its parts do, each knowing what came before it. *)
Lemma settles_bind {A B} (m : Io A) (f : A -> Io B) r :
  answers m r -> (forall a, r = Ok a -> settles (f a)) -> settles (m ≫= f).
Proof.
  intros Hm Hf. destruct r as [a|e].
  - destruct (Hf a eq_refl) as [r Hr]. exists r. by eapply answers_bind.
  - exists (Err e). eapply answers_bind; [done|apply answers_lift].
Qed.

Lemma settles_then {A B} (m : Io A) (f : A -> Io B) : settles m -> (forall a, settles (f a)) -> settles (m ≫= f).
Proof. intros [r Hr] Hf. by eapply settles_bind. Qed.

Lemma settles_dis_bind {A B} (m : Dis A) (f : A -> Dis B) r :
  answers m r -> (forall a, r = Ok a -> settles (f a)) -> settles (m ≫= f).
Proof.
  intros Hm Hf. destruct r as [a|e].
  - destruct (Hf a eq_refl) as [r Hr]. exists r. by eapply answers_dis_bind.
  - exists (Err e). eapply answers_dis_bind; [done|apply answers_done].
Qed.

Lemma settles_dis_then {A B} (m : Dis A) (f : A -> Dis B) : settles m -> (forall a, settles (f a)) -> settles (m ≫= f).
Proof. intros [r Hr] Hf. by eapply settles_dis_bind. Qed.

Definition named_error {A} (p : Path) (r : result IoError A) : result BypassReason A :=
  match r with Ok a => Ok a | Err e => Err (InputRead p (io_message e)) end.

Lemma answers_on {A} p (m : Io A) r : answers m r -> answers (on p m) (named_error p r).
Proof. intros Hm s Hs. destruct (Hm s Hs) as (s' & He & Hs'). unfold on. rewrite He. exists s'. by destruct r. Qed.
Lemma settles_on {A} p (m : Io A) : settles m -> settles (on p m).
Proof. intros [r Hr]. eexists. by apply answers_on. Qed.
Lemma settles_or_else {A} (d : A) (m : Io A) : settles m -> settles (or_else d m).
Proof.
  intros [r Hr]. exists (Ok (match r with Ok a => a | Err _ => d end)). intros s Hs. destruct (Hr s Hs) as (s' & He & Hs').
  unfold or_else. rewrite He. exists s'. by destruct r.
Qed.

Lemma answers_agree {R} (m : Process -> R * Process) r s r' s' :
  answers m r -> still s -> m s = (r', s') -> r' = r /\ still s'.
Proof. intros Hm Hs He. destruct (Hm s Hs) as (s1 & He1 & Hs1). rewrite He in He1. by injection He1 as -> ->. Qed.

Lemma settled {R} (m : Process -> R * Process) s r s' : settles m -> still s -> m s = (r, s') -> answers m r /\ still s'.
Proof. intros [r0 Hr] Hs He. by destruct (answers_agree _ _ _ _ _ Hr Hs He) as [-> ?]. Qed.

(** What exists has a name without NUL on a filesystem that says it is not NFS. *)
Context (Hlocal : forall p m, stat w p = Ok m -> has_nul p = false /\ exists t, statfs_type w p = Ok t /\ t <> NFS_SUPER_MAGIC).

Lemma answers_unreliable p m : stat w p = Ok m -> answers (metadata_identity_is_unreliable p m) (Ok false).
Proof.
  intros Hm s Hs. destruct (Hlocal _ _ Hm) as (Hnul & t & Ht & Hnfs). unfold metadata_identity_is_unreliable.
  destruct (filesystems s !! m_dev m) as [u|] eqn:Hu; [exists s; by rewrite (proj2 Hs _ _ Hu)|].
  rewrite Hnul. destruct (answers_call (fun w => statfs_type w p) s Hs) as (s' & He & Hs').
  rewrite He, Ht. apply Z.eqb_neq in Hnfs. rewrite Hnfs. eexists. split; [done|]. split; [apply Hs'|].
  intros d u. simpl. destruct (decide (d = m_dev m)) as [->|Hd].
  - rewrite lookup_insert_eq. by intros [= <-].
  - rewrite lookup_insert_ne by done. apply Hs'.
Qed.

Lemma answers_identity p m : stat w p = Ok m -> answers (for_digest_cache p m) (Ok (describe p m)).
Proof. intros Hm. eapply answers_bind; [by apply answers_unreliable|]. apply answers_ret. Qed.

Lemma settles_metadata {B} p (f : Metadata -> Io B) :
  (forall m, stat w p = Ok m -> settles (f m)) -> settles (metadata p ≫= f).
Proof. intros Hf. by eapply settles_bind; [apply answers_call|]. Qed.

Lemma settles_ret {A} (a : A) : settles (mret a : Io A).
Proof. eexists. apply answers_ret. Qed.
Lemma settles_dis_ret {A} (a : A) : settles (mret a : Dis A).
Proof. eexists. apply answers_dis_ret. Qed.
Lemma settles_lift {A} (r : result IoError A) : settles (lift_io r).
Proof. eexists. apply answers_lift. Qed.
Lemma settles_done {A} (r : result BypassReason A) : settles (done r).
Proof. eexists. apply answers_done. Qed.
Lemma settles_call {A} (f : World -> result IoError A) : settles (call f).
Proof. eexists. apply answers_call. Qed.

Lemma settles_still i : settles (still_describes i).
Proof.
  apply settles_metadata. intros m Hm. eapply settles_bind; [by apply answers_identity|]. intros o _. apply settles_ret.
Qed.

Lemma settles_reader fuel scope h st : settles (digest_loop fuel scope h st).
Proof.
  revert st. induction fuel as [|fuel IH]; intros st; cbn [digest_loop]; [apply settles_lift|].
  apply settles_then; [apply settles_call|]. intros [|c chunk]; [apply settles_ret|].
  apply settles_then; [apply settles_lift|]. apply IH.
Qed.

Lemma settles_validated fuel scope p : settles (digest_file_validated fuel scope p).
Proof.
  unfold digest_file_validated.
  apply settles_then; [apply settles_call|intros started]. apply settles_then; [apply settles_call|intros h].
  apply settles_then; [apply settles_call|intros b]. destruct (negb (m_is_file b)); [apply settles_lift|].
  apply settles_then; [apply settles_reader|intros [r sz]]. apply settles_then; [apply settles_call|intros after].
  apply settles_metadata. intros current Hcur. eapply settles_bind; [by apply answers_unreliable|].
  intros u [= <-]. apply settles_then; [apply settles_ret|]. intros cache.
  destruct (option_or cache (describe p current)); [|apply settles_ret].
  destruct (negb _); [apply settles_lift|]. apply settles_then; [apply settles_lift|]. intros stable.
  destruct (negb stable); [apply settles_lift|apply settles_ret].
Qed.

Lemma settles_digest_input fuel p identity r : settles (digest_input fuel p identity r).
Proof.
  unfold digest_input. apply settles_dis_then.
  { apply settles_on. unfold cached_digest. destruct r, identity as [i|]; try apply settles_ret.
    destruct (_ =? _); [|apply settles_ret]. apply settles_then; [apply settles_or_else, settles_still|].
    intros ?. apply settles_ret. }
  intros [d|]; [apply settles_dis_ret|]. unfold fresh_digest.
  apply settles_dis_then; [apply settles_on, settles_validated|]. intros [v|].
  - apply settles_dis_then; [apply settles_done|]. intros ?. apply settles_dis_ret.
  - apply settles_dis_then.
    + apply settles_on. unfold digest_file. apply settles_then; [apply settles_call|]. intros h.
      apply settles_then; [apply settles_reader|]. intros ?. apply settles_ret.
    + intros ?. apply settles_dis_then; [apply settles_done|]. intros ?. apply settles_dis_ret.
Qed.

Lemma settles_digest_inputs fuel identified recorded : settles (digest_inputs fuel identified recorded).
Proof.
  revert recorded. induction identified as [|[p identity] l IH]; intros recorded; cbn [digest_inputs]; [apply settles_dis_ret|].
  destruct (next_resolution identity recorded). apply settles_dis_then; [apply settles_digest_input|]. intros [[d o] fr].
  apply settles_dis_then; [apply IH|]. intros [? ?]. apply settles_dis_ret.
Qed.

Lemma settles_identify l : settles (identify l).
Proof.
  induction l as [|p l IH]; cbn [identify]; [apply settles_dis_ret|].
  eapply settles_dis_bind; [apply answers_on, answers_call|]. intros m Hm. cbn in Hm.
  destruct (stat w p) as [m'|] eqn:Hs; [|done]. injection Hm as <-.
  destruct (negb (m_is_file m')); [apply settles_done|].
  eapply settles_dis_bind; [by apply answers_on, answers_identity|]. intros i _.
  apply settles_dis_then; [apply IH|]. intros ?. apply settles_dis_ret.
Qed.

(** The same paths have the same digests, whoever asks. *)
Lemma from_paths_again fuel wd wd' ps env env' s s' d s2 :
  is_absolute wd' = true -> still s -> still s2 -> from_paths fuel wd ps env s = (Ok d, s') ->
  exists d' s2', from_paths fuel wd' ps env' s2 = (Ok d', s2') /\ still s2' /\
    discovered_inputs d' = discovered_inputs d /\ discovered_environment d' = env'.
Proof.
  intros Hwd' Hs Hs2 Hd. unfold from_paths in *. destruct (is_absolute wd); [|done]. rewrite Hwd'. cbn [negb] in *.
  apply dis_bind_ok in Hd as (ids & sa & Hids & Hd).
  destruct (settled _ _ _ _ (settles_identify _) Hs Hids) as [Ha Hsa].
  destruct (Ha s2 Hs2) as (ta & Hea & Hta). unfold mbind at 1, Dis_bind at 1. rewrite Hea.
  apply dis_bind_ok in Hd as (rec & sb & Hrec%on_ok & Hd).
  destruct (answers_agree _ _ _ _ _ (answers_call _) Hsa Hrec) as [[= ->] Hsb].
  destruct (answers_call (fun w => Ok (resolve w Content (omap snd ids))) ta Hta) as (tb & Heb & Htb).
  unfold mbind at 1, Dis_bind at 1, on at 1. rewrite Heb.
  apply dis_bind_ok in Hd as ([l fresh] & sc & Hl & Hd).
  destruct (settled _ _ _ _ (settles_digest_inputs _ _ _) Hsb Hl) as [Hal Hsc].
  destruct (Hal tb Htb) as (tc & Hec & Htc). unfold mbind at 1, Dis_bind at 1. rewrite Hec.
  apply dis_bind_ok in Hd as (u & sd & Hu & Hd). injection Hd as <- <-. cbn.
  destruct fresh as [|x fresh]; (eexists _, _; split; [reflexivity|]); split; [done|by split| |by split].
  destruct (answers_record Content (x :: fresh) tc Htc) as (td & [= <-] & Htd). exact Htd.
Qed.
End Still.
(** ** What a walk adds *)

Section Walks.
Context `{Directories} `{Hashes} `{!DigestCache} (w : World).
Context (Hlength : forall p m, stat w p = Ok m -> 0 <= m_len m).

(** The bytes the files of a set hold. *)
Definition len_of (p : Path) : Z := match stat w p with Ok m => m_len m | Err _ => 0 end.
Definition bytes_of (X : gset Path) : Z := foldr (fun p n => len_of p + n) 0 (elements X).

Lemma len_of_nonneg p : 0 <= len_of p.
Proof. unfold len_of. destruct (stat w p) eqn:E; [by eapply Hlength|lia]. Qed.

Lemma bytes_of_insert p X : p ∉ X -> bytes_of ({[ p ]} ∪ X) = bytes_of X + len_of p.
Proof.
  intros Hp. unfold bytes_of.
  assert (Hperm : forall l l', l ≡ₚ l' -> foldr (fun p n => len_of p + n) 0 l = foldr (fun p n => len_of p + n) 0 l').
  { induction 1; simpl; lia. }
  rewrite (Hperm _ _ (elements_union_singleton X p Hp)). simpl. lia.
Qed.

Lemma bytes_of_subseteq X Y : X ⊆ Y -> bytes_of X <= bytes_of Y.
Proof.
  revert X. induction Y as [|p Y Hp IH] using set_ind_L; intros X HX.
  - assert (X = ∅) as -> by set_solver. done.
  - rewrite bytes_of_insert by done. pose proof (len_of_nonneg p). destruct (decide (p ∈ X)) as [Hin|Hin].
    + replace X with ({[ p ]} ∪ (X ∖ {[ p ]})) by (symmetry; apply union_difference_L; set_solver).
      rewrite bytes_of_insert by set_solver. specialize (IH (X ∖ {[ p ]}) ltac:(set_solver)). lia.
    + specialize (IH X ltac:(set_solver)). lia.
Qed.

(** The count of bytes is that of the counted files. *)
Definition sound (c : Collected) : Prop := native_bytes c = bytes_of (counted c).

Definition plus (c : Collected) (A : gset Path) : Collected :=
  mkCollected (paths c ∪ A) (bytes_of (counted c ∪ A)) (counted c ∪ A).

Lemma plus_empty c : sound c -> plus c ∅ = c.
Proof. intros Hs. unfold plus. rewrite !union_empty_r_L, <- Hs. by destruct c. Qed.

Lemma plus_plus c A B : plus (plus c A) B = plus c (A ∪ B).
Proof. unfold plus. simpl. by rewrite !(assoc_L (∪)). Qed.

Lemma sound_plus c A : sound (plus c A).
Proof. done. Qed.

Definition fits (c : Collected) : Prop := within_limits c = true.

Lemma fits_mono c c' : paths c ⊆ paths c' -> native_bytes c <= native_bytes c' -> fits c' -> fits c.
Proof.
  unfold fits, within_limits. rewrite !andb_true_iff, !Z.leb_le. intros Hs Hb [Hp Hb']. split; [|lia].
  pose proof (subseteq_size _ _ Hs) as Hle. unfold base.size, set_size in Hle. simpl in Hle. lia.
Qed.

Lemma fits_plus c A B : fits (plus c (A ∪ B)) -> fits (plus c A).
Proof. apply fits_mono; cbn; [set_solver|]. apply bytes_of_subseteq. set_solver. Qed.

Lemma fits_plus_empty c A : sound c -> fits (plus c A) -> fits c.
Proof. intros Hs Hf. rewrite <- (plus_empty c Hs). apply (fits_plus c ∅ A). by rewrite union_empty_l_L. Qed.

(** A method that adds the same files to whatever it is given, as long as the
    limits allow; [mk] is how its answer holds the collection. *)
Definition adds {X Y} (mk : X -> Collected -> Y) (m : Collected -> Dis Y) (x : X) (A : gset Path) : Prop :=
  forall c, sound c -> fits (plus c A) -> answers w (m c) (Ok (mk x (plus c A))).

(** What one run shows of all: what it added, and that it kept within the bytes. *)
Definition shows {X Y} (mk : X -> Collected -> Y) (m : Collected -> Dis Y) : Prop :=
  forall c s y s', sound c -> still w s -> m c s = (Ok y, s') ->
    still w s' /\ exists x A, y = mk x (plus c A) /\ adds mk m x A /\
      (native_bytes c <= MAX_NATIVE_INPUT_BYTES -> native_bytes (plus c A) <= MAX_NATIVE_INPUT_BYTES).

(** The answer is the collection itself. *)
Definition only (_ : unit) (c : Collected) : Collected := c.

Lemma shows_ret {X Y} (mk : X -> Collected -> Y) (x : X) : shows mk (fun c => mret (mk x c)).
Proof.
  intros c s y s' Hc Hs [= <- <-]. split; [done|]. exists x, ∅. rewrite plus_empty by done. split; [done|]. split; [|done].
  intros c2 Hc2 _. rewrite plus_empty by done. apply answers_dis_ret.
Qed.

Lemma shows_bind {X X' Y Y'} (mk : X -> Collected -> Y) (mk' : X' -> Collected -> Y')
    (m : Collected -> Dis Y) (k : Y -> Dis Y') (f : X -> Collected -> Dis Y') :
  (forall x c, k (mk x c) = f x c) -> shows mk m -> (forall x, shows mk' (f x)) -> shows mk' (fun c => m c ≫= k).
Proof.
  intros Hk Hm Hf c s y c' Hc Hs Hr. apply dis_bind_ok in Hr as (y1 & s1 & Hx & Hy).
  destruct (Hm c s y1 s1 Hc Hs Hx) as (Hs1 & x & A & -> & HA & Hb1). rewrite Hk in Hy.
  destruct (Hf x (plus c A) s1 y c' (sound_plus c A) Hs1 Hy) as (Hs' & x' & B & -> & HB & Hb2). split; [done|].
  exists x', (A ∪ B). rewrite plus_plus in *. split; [done|]. split; [|auto]. intros c2 Hc2 Hfit.
  apply (answers_dis_bind w _ _ (Ok (mk x (plus c2 A)))); [apply (HA c2 Hc2); by eapply fits_plus|].
  rewrite Hk, <- plus_plus in *. by apply HB.
Qed.

(** Asking something on the way. *)
Lemma shows_ask {R X Y} (mk : X -> Collected -> Y) (m : Dis R) r (f : R -> Collected -> Dis Y) :
  answers w m r -> (forall a, r = Ok a -> shows mk (f a)) -> shows mk (fun c => m ≫= fun a => f a c).
Proof.
  intros Hm Hf c s y c' Hc Hs Hr. apply dis_bind_ok in Hr as (a & s1 & Hx & Hy).
  destruct (answers_agree w _ _ _ _ _ Hm Hs Hx) as [<- Hs1].
  destruct (Hf a eq_refl c s1 y c' Hc Hs1 Hy) as (Hs' & x & A & -> & HA & Hb). split; [done|]. exists x, A. split; [done|].
  split; [|done]. intros c2 Hc2 Hfit. apply (answers_dis_bind w _ _ (Ok a)); [done|apply (HA c2 Hc2 Hfit)].
Qed.

Lemma shows_limits {X Y} (mk : X -> Collected -> Y) (f : Collected -> Dis Y) :
  shows mk f -> shows mk (fun c => check_limits c ≫= fun _ => f c).
Proof.
  intros Hf c s y c' Hc Hs Hr. apply dis_bind_ok in Hr as (u & s1 & Hu & Hr). unfold check_limits in Hu.
  destruct (within_limits c) eqn:Hw; [|done]. injection Hu as _ <-.
  destruct (Hf c s y c' Hc Hs Hr) as (Hs' & x & A & -> & HA & Hb). split; [done|]. exists x, A. split; [done|]. split; [|done].
  intros c2 Hc2 Hfit. apply (answers_dis_bind w _ _ (Ok tt)); [|apply (HA c2 Hc2 Hfit)]. unfold check_limits.
  rewrite (fits_plus_empty _ _ Hc2 Hfit). apply answers_dis_ret.
Qed.

Lemma shows_error {X Y} (mk : X -> Collected -> Y) (e : BypassReason) : shows mk (fun _ => done (Err e)).
Proof. by intros c s y s' _ _ Hr. Qed.

(** Charging a file and checking the limits. *)
Lemma shows_charge {X} (x : X) p m : stat w p = Ok m ->
  shows pair (fun c => c ← done (charge p (m_len m) c); _ ← check_limits c; mret (x, c)).
Proof.
  intros Hm. assert (Hlen : len_of p = m_len m) by (unfold len_of; by rewrite Hm).
  assert (Hcharge : forall c, sound c -> bytes_of (counted c ∪ {[ p ]}) <= MAX_NATIVE_INPUT_BYTES ->
    charge p (m_len m) c = Ok (plus c {[ p ]})).
  { intros c Hc Hb. unfold charge, plus. rewrite !(comm_L (∪) _ {[ p ]}) in *. case_bool_decide as Hp.
    - rewrite (subseteq_union_1_L {[ p ]} (counted c)) by set_solver. by rewrite <- Hc.
    - rewrite bytes_of_insert in * by done. rewrite Hlen in *. unfold checked_add. rewrite Hc.
      assert (bytes_of (counted c) + m_len m <=? u64_max = true) as -> by (unfold MAX_NATIVE_INPUT_BYTES, u64_max in *; lia).
      done. }
  intros c s y s' Hc Hs Hr. apply dis_bind_ok in Hr as (c1 & s1 & [Hc1 ->]%done_ok & Hr).
  apply dis_bind_ok in Hr as (u & s2 & Hu & Hr). unfold check_limits in Hu. destruct (within_limits c1) eqn:Hw; [|done].
  injection Hu as _ <-. injection Hr as <- <-. split; [done|]. exists x, {[ p ]}.
  assert (c1 = plus c {[ p ]}) as ->.
  { unfold charge in Hc1. unfold plus. rewrite !(comm_L (∪) _ {[ p ]}). case_bool_decide as Hp.
    - injection Hc1 as <-. rewrite (subseteq_union_1_L {[ p ]} (counted c)) by set_solver. by rewrite <- Hc.
    - unfold checked_add in Hc1. destruct (_ <=? u64_max); [|done]. injection Hc1 as <-.
      by rewrite bytes_of_insert, Hc, Hlen by done. }
  split; [done|]. unfold within_limits in Hw. apply andb_prop in Hw as [_ Hw]. apply Z.leb_le in Hw. split; [|by intros _].
  intros c2 Hc2 Hfit. pose proof Hfit as Hfit'. unfold fits, within_limits in Hfit'. apply andb_prop in Hfit' as [_ Hb].
  apply Z.leb_le in Hb. eapply answers_dis_bind; [apply answers_done|]. rewrite (Hcharge c2 Hc2 Hb).
  apply (answers_dis_bind w _ _ (Ok tt)); [|apply answers_dis_ret]. unfold check_limits. rewrite Hfit. apply answers_dis_ret.
Qed.

Lemma settles_link root p : settles w (check_link root p).
Proof.
  unfold check_link. apply settles_dis_then; [apply settles_on, settles_call|]. intros resolved.
  apply settles_dis_then; [apply settles_on, settles_or_else|].
  { apply settles_then; [apply settles_call|]. intros ?. apply settles_ret. }
  intros f. destruct (_ || _); [apply settles_done|apply settles_dis_ret].
Qed.

Lemma shows_entry root p kind pending : shows pair (native_entry root p kind pending).
Proof.
  assert (Hfile : forall pending : list Path, shows (@pair (list Path) Collected) (fun c => m ← on p (metadata p); c ← done (charge p (m_len m) c); _ ← check_limits c; mret (pending, c))).
  { intros pending'. eapply shows_ask; [apply answers_on, answers_call|]. intros m Hm. apply shows_charge.
    destruct (stat w p); [|done]. by injection Hm as ->. }
  destruct kind; unfold native_entry.
  - apply shows_limits, shows_ret.
  - destruct (is_linker_irrelevant_file p); [apply shows_ret|]. eapply shows_ask; [apply answers_dis_ret|]. intros _ _. apply Hfile.
  - destruct (is_linker_irrelevant_file p); [apply shows_ret|]. destruct (settles_link root p) as [r Hr].
    eapply shows_ask; [exact Hr|]. intros _ _. apply Hfile.
  - destruct (is_linker_irrelevant_file p); [apply shows_ret|]. apply shows_error.
Qed.

Lemma shows_entries root directory l pending : shows pair (native_entries root directory l pending).
Proof.
  revert pending. induction l as [|entry l IH]; intros pending; [apply shows_ret|].
  eapply (shows_ask pair _ _ (fun a c => let '(name, kind) := a in _)); [apply answers_on, answers_lift|]. intros [name kind] _.
  eapply shows_ask; [apply answers_on, answers_lift|]. intros k _.
  eapply (shows_bind pair); [|apply shows_entry|apply IH]. done.
Qed.

Lemma shows_walk rounds root pending : shows only (native_walk rounds root pending).
Proof.
  revert pending. induction rounds as [|rounds IH]; intros [|directory pending]; cbn [native_walk];
    try apply (shows_ret only tt); [apply shows_error|].
  eapply shows_ask; [apply answers_on, answers_call|]. intros [entries|[]] _; try apply shows_error; [|apply IH].
  eapply (shows_bind pair only); [|apply shows_entries|intros pending'; apply IH]. done.
Qed.

Lemma shows_collect fuel directory roots : shows only (collect_native_directory fuel directory roots).
Proof.
  unfold collect_native_directory. destruct (negb _); [apply shows_error|].
  eapply shows_ask; [apply answers_on, answers_call|].
  intros [root|[]] _; try apply shows_error; [apply shows_walk|apply (shows_ret only tt)].
Qed.
End Walks.
(** ** All directories, and all names *)

Section Names.
Context `{Directories} `{Hashes} `{!DigestCache} (w : World) (fuel : nat) (roots : list Path).
Context (Hlength : forall p m, stat w p = Ok m -> 0 <= m_len m).

(** What the walk of a directory adds, to anything. *)
Definition walk_adds (directory : Path) (A : gset Path) : Prop :=
  adds w only (collect_native_directory fuel directory roots) tt A.

Lemma collect_all dirs c s c' s' :
  sound w c -> still w s -> collect_native_directories fuel dirs roots c s = (Ok c', s') ->
  still w s' /\ exists As, Forall2 walk_adds dirs As /\ c' = plus w c (⋃ As) /\
    (native_bytes c <= MAX_NATIVE_INPUT_BYTES -> native_bytes c' <= MAX_NATIVE_INPUT_BYTES).
Proof.
  revert c s. induction dirs as [|d dirs IH]; intros c s Hc Hs Hr; cbn [collect_native_directories] in Hr.
  { injection Hr as <- <-. split; [done|]. exists []. split; [constructor|]. split; [|done]. cbn. by rewrite plus_empty. }
  apply dis_bind_ok in Hr as (c1 & s1 & H1' & Hr).
  destruct (shows_collect w Hlength fuel d roots c s c1 s1 Hc Hs H1') as (Hs1 & [] & A & -> & HA & Hb1).
  destruct (IH _ _ (sound_plus w c A) Hs1 Hr) as (Hs' & As & HAs & -> & Hb2). split; [done|]. exists (A :: As).
  split; [by constructor|]. split; [cbn; apply plus_plus|]. intros Hb. by apply Hb2, Hb1.
Qed.

(** What a name of a prediction stands for: a file, or what a walk adds. *)
Inductive stands_for (mappings : list PathMapping) (value : string) : gset Path -> gset Path -> Prop :=
| stands_for_file q :
    strip_prefix NATIVE_DIRECTORY_PREDICTION_PREFIX value = None -> denormalize_path value mappings = Some q ->
    stands_for mappings value {[ q ]} ∅
| stands_for_directory name directory A :
    strip_prefix NATIVE_DIRECTORY_PREDICTION_PREFIX value = Some name -> denormalize_path name mappings = Some directory ->
    walk_adds directory A -> stands_for mappings value ∅ A.

Definition plus_named (c : Collected) (N A : gset Path) : Collected :=
  mkCollected (paths c ∪ N ∪ A) (bytes_of w (counted c ∪ A)) (counted c ∪ A).

Lemma predicted_paths_ok mappings l Ns As :
  Forall3 (stands_for mappings) l Ns As ->
  forall named c, sound w c -> fits (plus_named c (⋃ Ns) (⋃ As)) ->
  answers w (predicted_paths fuel 4 l roots mappings named c) (Ok (named ∪ ⋃ Ns, plus_named c (⋃ Ns) (⋃ As))).
Proof.
  induction 1 as [|value N A l Ns As Hv Hl IH]; intros named c Hc Hfit; cbn [predicted_paths].
  { unfold plus_named. cbn. rewrite !union_empty_r_L, <- Hc. destruct c. apply answers_dis_ret. }
  assert (Hfits : forall c', sound w c' -> plus_named c' (⋃ Ns) (⋃ As) = plus_named c (⋃ (N :: Ns)) (⋃ (A :: As)) ->
    fits (plus_named c' (⋃ Ns) (⋃ As))) by (by intros c' _ ->).
  cbn [Z.leb Z.compare Pos.compare Pos.compare_cont]. destruct Hv as [q Hp Hq|name directory A Hp Hd HA]; rewrite Hp.
  - apply (answers_dis_bind w _ _ (Ok q)).
    { unfold denormalized. rewrite Hq. apply answers_done. }
    set (c1 := mkCollected ({[ q ]} ∪ paths c) (native_bytes c) (counted c)).
    assert (He : plus_named c1 (⋃ Ns) (⋃ As) = plus_named c (⋃ ({[ q ]} :: Ns)) (⋃ (∅ :: As))).
    { unfold plus_named, c1. cbn. rewrite !(union_empty_l_L (⋃ As)). f_equal. set_solver. }
    pose proof (IH ({[ q ]} ∪ named) c1 Hc (Hfits c1 Hc He)) as Ha. rewrite He in Ha.
    replace (named ∪ ⋃ ({[ q ]} :: Ns)) with ({[ q ]} ∪ named ∪ ⋃ Ns) by (cbn; set_solver). exact Ha.
  - apply (answers_dis_bind w _ _ (Ok directory)).
    { unfold denormalized. rewrite Hd. apply answers_done. }
    assert (He : plus_named (plus w c A) (⋃ Ns) (⋃ As) = plus_named c (⋃ (∅ :: Ns)) (⋃ (A :: As))).
    { unfold plus_named, plus. cbn. rewrite !(union_empty_l_L (⋃ Ns)), !(assoc_L (∪) (counted c)). f_equal. set_solver. }
    pose proof (Hfits _ (sound_plus w c A) He) as Hfit1.
    apply (answers_dis_bind w _ _ (Ok (plus w c A))).
    + apply (HA c Hc). eapply (fits_mono _ _); [| |exact Hfit1]; cbn; [set_solver|].
      apply bytes_of_subseteq; [done|set_solver].
    + pose proof (IH named _ (sound_plus w c A) Hfit1) as Ha. rewrite He in Ha.
      replace (named ∪ ⋃ (∅ :: Ns)) with (named ∪ ⋃ Ns) by (cbn; set_solver). exact Ha.
Qed.
End Names.

(** ** What a prediction names *)

Section Predicted.
Context `{DiskLaws}.

Lemma build_bind_ok {E A B} (m : Build E A) (f : A -> Build E B) aliases b aliases' :
  (m ≫= f) aliases = (Ok b, aliases') -> exists a aliases1, m aliases = (Ok a, aliases1) /\ f a aliases1 = (Ok b, aliases').
Proof. unfold mbind, Build_bind. destruct (m aliases) as [[a|e] aliases1]; [|done]. eauto. Qed.

Lemma returns_ok {E A} (m : Build E A) Q aliases a aliases' :
  returns m Q -> consistent aliases -> m aliases = (Ok a, aliases') -> Q a /\ consistent aliases'.
Proof. intros Hm Hc He. destruct (Hm aliases Hc) as [Hc' Hq]. rewrite He in *. split; [by apply Hq|done]. Qed.

Context (b : ActionBuilder) (Hwd : well_formed (working_dir (context b)) = true)
  (Habs : is_absolute (working_dir (context b)) = true).

Definition is_kept (directories : list string) (d : DiscoveredInputs) (x : ActionInput * string) : bool :=
  negb (under_any_directory x.2 directories) || negb (bool_decide (input_path x.1 ∈ native_only d)).

Lemma keep_inputs_ok directories d l aliases out aliases' :
  Forall (fun input => well_formed (input_path input) = true) l -> consistent aliases ->
  keep_inputs b directories d l aliases = (Ok out, aliases') ->
  exists ns, Forall2 (fun input n => names b (input_path input) n) l ns /\
    out = map snd (List.filter (is_kept directories d) (zip l ns)).
Proof.
  intros Hl. revert aliases out. induction Hl as [|input l Hi Hl IH]; intros aliases out Hc Hr; cbn [keep_inputs] in Hr.
  { injection Hr as <- <-. exists []. split; [constructor|done]. }
  apply build_bind_ok in Hr as (n & al1 & Hn & Hr).
  destruct (returns_ok _ _ _ _ _ (returns_path b Hwd Habs _ Hi) Hc Hn) as [Hname Hc1].
  apply build_bind_ok in Hr as (rest & al2 & Hrest & Hr). injection Hr as <- <-.
  destruct (IH _ _ Hc1 Hrest) as (ns & Hns & ->). exists (n :: ns). split; [by constructor|].
  cbn [zip zip_with List.filter]. change (is_kept directories d (input, n)) with (negb (under_any_directory n directories) || negb (bool_decide (input_path input ∈ native_only d))).
  by destruct (_ || _).
Qed.

Lemma predict_ok d p aliases' :
  Forall (fun input => well_formed (input_path input) = true) (discovered_inputs d) ->
  Forall (fun q => well_formed q = true) (native_search_paths (invocation b)) ->
  predict b d ∅ = (Ok p, aliases') ->
  exists directories ns, Forall2 (names b) (native_search_paths (invocation b)) directories /\
    Forall2 (fun input n => names b (input_path input) n) (discovered_inputs d) ns /\
    version p = 4 /\ predicted_environment p = map fst (entries (discovered_environment d)) /\
    predicted_inputs p = string_set (map snd (List.filter (is_kept (string_set directories) d) (zip (discovered_inputs d) ns)) ++
      map (String.append NATIVE_DIRECTORY_PREDICTION_PREFIX) (string_set directories))%list.
Proof.
  intros Hi Hn Hp. unfold predict in Hp.
  apply build_bind_ok in Hp as (u & al1 & Hu & Hp). unfold lift in Hu. injection Hu as _ <-.
  apply build_bind_ok in Hp as (directories & al2 & Hd & Hp).
  destruct (returns_ok _ _ _ _ _ (returns_each (normalize_path b) (names b) (native_search_paths (invocation b))
    (fun q Hin => returns_path b Hwd Habs q (proj1 (Forall_forall _ _) Hn q (proj2 (list_elem_of_In _ _) Hin)))) consistent_empty Hd) as [Hds Hc2].
  apply build_bind_ok in Hp as (out & al3 & Ho & Hp). injection Hp as <- _.
  destruct (keep_inputs_ok _ _ _ _ _ _ Hi Hc2 Ho) as (ns & Hns & ->).
  exists directories, ns. split; [done|]. split; [done|]. by split.
Qed.

End Predicted.

(** *** Where nothing is a link *)

Section Plain.
Context `{DiskLaws}.

(** A canonical path that resolves to itself and has no backslash. *)
Definition link_free (p : Path) : Prop :=
  canonical p = true /\ resolved p = p /\ Forall (fun n => without "\" n = true) (names_of p).

Lemma link_free_name_leads_back mappings p wd s :
  forallb usable mappings = true -> NoDup (map placeholder mappings) ->
  Forall (fun m => well_formed (root m) = true /\ link_free (normalize_components (root m))) mappings ->
  paths_ok p wd -> link_free (absolute_path p wd) ->
  name_of p wd (resolve_path_mappings (ordered mappings)) = Ok s ->
  denormalize_path s mappings = Some (absolute_path p wd) /\ strip_prefix NATIVE_DIRECTORY_PREDICTION_PREFIX s = None.
Proof.
  intros Hu Hd Hroots Hp (Hc & Hres & Hback) Hs.
  assert (Hu' : forallb usable (resolve_path_mappings (ordered mappings)) = true).
  { apply usable_resolved; [|apply Forall_forall; intros m Hm; rewrite ordered_permutation in Hm;
      rewrite Forall_forall in Hroots; by apply Hroots].
    apply forallb_forall. intros m Hm. apply list_elem_of_In in Hm. rewrite ordered_permutation in Hm.
    apply list_elem_of_In in Hm. by eapply forallb_forall in Hu. }
  destruct (name_of_ok _ _ _ _ Hp Hu' Hs) as (m' & names & Hin & Hn & He & ->).
  apply in_map_iff in Hin as (m & <- & Hin). apply list_elem_of_In in Hin. rewrite ordered_permutation in Hin.
  rewrite Forall_forall in Hroots. destruct (Hroots m Hin) as (Hwm & Hcm & Hrm & _). apply list_elem_of_In in Hin.
  assert (Hum : usable m = true) by (by eapply forallb_forall in Hu). apply andb_prop in Hum as [_ Ha].
  cbn [root placeholder] in He. rewrite resolve_mapping_root_spec, Hrm, Hres in He by done. split.
  - change (name_text (mkMapping (resolve_mapping_root (root m)) (placeholder m)) names) with (name_text m names).
    rewrite (denormalize_name mappings m names); [by rewrite He|done..|].
    rewrite He in Hback. unfold names_of in Hback. rewrite omap_app in Hback. apply Forall_app in Hback as [_ Hback].
    fold (names_of (map Normal names)) in Hback. by rewrite (names_of_under_root names : names_of (map Normal names) = names) in Hback.
  - reflexivity.
Qed.
End Plain.

(** ** The inputs found, found again *)

Section Found.
Context `{Directories} `{Hashes} `{!DigestCache} (fuel : nat).

Lemma identify_paths l s ids s' : identify l s = (Ok ids, s') -> map fst ids = l.
Proof.
  revert s ids. induction l as [|p l IH]; intros s ids Hi; cbn [identify] in Hi; [by injection Hi as <- <-|].
  apply dis_bind_ok in Hi as (m & s1 & _ & Hi). destruct (m_is_file m); [|done].
  apply dis_bind_ok in Hi as (i & s2 & _ & Hi). apply dis_bind_ok in Hi as (rest & s3 & Hrest & Hi).
  injection Hi as <- <-. cbn. f_equal. by eapply IH.
Qed.

Lemma digest_inputs_paths ids recorded s l fresh s' :
  digest_inputs fuel ids recorded s = (Ok (l, fresh), s') -> map (fun x => input_path (fst x)) l = map fst ids.
Proof.
  revert recorded s l fresh. induction ids as [|[p i] ids IH]; intros recorded s l fresh Hr; cbn [digest_inputs] in Hr.
  { by injection Hr as <- <- <-. }
  destruct (next_resolution i recorded) as [r recorded']. apply dis_bind_ok in Hr as ([[d o] fr] & s1 & _ & Hr).
  apply dis_bind_ok in Hr as ([rest more] & s2 & Hrest & Hr). injection Hr as <- <- <-. cbn. f_equal. by eapply IH.
Qed.

Lemma from_paths_ok wd ps env s d s' : from_paths fuel wd ps env s = (Ok d, s') ->
  map input_path (discovered_inputs d) = sorted_paths ps /\ discovered_environment d = env /\
  discovered_working_dir d = normalize_components wd.
Proof.
  intros Hd. unfold from_paths in Hd. destruct (is_absolute wd); [|done].
  apply dis_bind_ok in Hd as (ids & s1 & Hids & Hd). apply dis_bind_ok in Hd as (rec & s2 & _ & Hd).
  apply dis_bind_ok in Hd as ([l fresh] & s3 & Hl & Hd). apply dis_bind_ok in Hd as (u & s4 & _ & Hd).
  injection Hd as <- <-. cbn. split; [|done]. rewrite map_map. etrans; [by eapply digest_inputs_paths|].
  by eapply identify_paths.
Qed.
End Found.

(** The environment that the compilation saw. *)
Definition environment_as (env : string -> option string) (m : gmap string (option string)) : Prop :=
  forall name value, m !! name = Some value ->
    name <> "" /\ contains_char "=" name = false /\ contains_char (ascii_of_N 0) name = false /\ env name = value /\
    forall text, value = Some text -> to_str text = Some text.

Lemma read_variables_as env l :
  environment_as env (list_to_map l) -> NoDup l.*1 ->
  read_variables env (map fst l) = Ok (list_to_map l).
Proof.
  induction l as [|[name value] l IH]; intros Henv Hd; [done|]. cbn in Hd. apply NoDup_cons in Hd as [Hni Hd].
  destruct (Henv name value) as (Hne & He & Hz & Hv & Ht); [by rewrite list_to_map_cons, lookup_insert_eq|].
  cbn [map fst read_variables]. apply String.eqb_neq in Hne. rewrite Hne, He, Hz, Hv. cbn [orb].
  assert (Hrest : read_variables env (map fst l) = Ok (list_to_map l)).
  { apply IH; [|done]. intros name' value' Hin. apply Henv. rewrite list_to_map_cons, lookup_insert_ne; [done|].
    intros <-. apply not_elem_of_list_to_map_1 in Hni. by rewrite Hni in Hin. }
  rewrite Hrest. destruct value as [text|]; [|done]. by rewrite (Ht text eq_refl).
Qed.

Lemma read_entries env m : environment_as env m -> read_variables env (map fst (entries m)) = Ok m.
Proof.
  intros Henv. assert (He : list_to_map (entries m) = m).
  { unfold entries. rewrite (list_to_map_proper _ (map_to_list m)); [apply list_to_map_to_list| |].
    - rewrite merge_sort_Permutation. apply NoDup_fst_map_to_list.
    - apply merge_sort_Permutation. }
  rewrite <- He at 2. apply read_variables_as; [by rewrite He|apply NoDup_entries].
Qed.

(** A file that lies below a directory, as the listings say, with nothing on
    the way that the linker has no use for. *)
Inductive in_tree `{Directories} (w : World) : Path -> Path -> Prop :=
| in_tree_here directory l name kind :
    list_directory w directory = Ok l -> In (Ok (name, Ok kind)) l -> kind <> Directory ->
    is_linker_irrelevant_file (push directory [Normal name]) = false ->
    in_tree w directory (push directory [Normal name])
| in_tree_below directory l name q :
    list_directory w directory = Ok l -> In (Ok (name, Ok Directory)) l ->
    is_linker_irrelevant_directory (push directory [Normal name]) = false ->
    in_tree w (push directory [Normal name]) q -> in_tree w directory q.

Section Found_by_walks.
Context `{Directories} `{Hashes} `{!DigestCache} (w : World) (fuel : nat) (roots : list Path).
Context (Hlength : forall p m, stat w p = Ok m -> 0 <= m_len m).

Definition nothing : Collected := mkCollected ∅ 0 ∅.

(** What becomes of an entry: a directory is walked later, anything else is an
    input, but for what the linker has no use for. *)
Definition taken (p : Path) (kind : FileKind) (pending : list Path) (c : Collected) : Prop :=
  match kind with
  | Directory => is_linker_irrelevant_directory p = false -> In p pending
  | _ => is_linker_irrelevant_file p = false -> p ∈ paths c
  end.

Lemma charge_counts p n c c' : charge p n c = Ok c' -> p ∈ paths c'.
Proof. unfold charge. destruct (bool_decide _); [|destruct (checked_add _ n); [|done]]; intros [= <-]; cbn; set_solver. Qed.

Lemma entry_taken root p kind pending c s pending' c' s' :
  native_entry root p kind pending c s = (Ok (pending', c'), s') ->
  (forall q, In q pending -> In q pending') /\ taken p kind pending' c'.
Proof.
  assert (Hfile : forall s, (m ← on p (metadata p); c ← done (charge p (m_len m) c); _ ← check_limits c; mret (pending, c)) s
    = (Ok (pending', c'), s') -> pending' = pending /\ p ∈ paths c').
  { intros s1 Hr. apply dis_bind_ok in Hr as (m & s2 & _ & Hr). apply dis_bind_ok in Hr as (c1 & s3 & [Hc _]%done_ok & Hr).
    apply dis_bind_ok in Hr as (u & s4 & _ & Hr). injection Hr as <- <- _. split; [done|]. by eapply charge_counts. }
  unfold native_entry, taken. destruct kind.
  - intros Hr. apply dis_bind_ok in Hr as (u & s1 & _ & Hr). injection Hr as <- <- _.
    destruct (is_linker_irrelevant_directory p); [done|]. split; [by right|by left].
  - destruct (is_linker_irrelevant_file p) eqn:E; [by intros [= <- <- _]|]. intros Hr.
    apply dis_bind_ok in Hr as (u & s1 & _ & Hr). by destruct (Hfile _ Hr) as [-> ?].
  - destruct (is_linker_irrelevant_file p) eqn:E; [by intros [= <- <- _]|]. intros Hr.
    apply dis_bind_ok in Hr as (u & s1 & _ & Hr). by destruct (Hfile _ Hr) as [-> ?].
  - destruct (is_linker_irrelevant_file p) eqn:E; [by intros [= <- <- _]|]. by intros [Hr _]%done_ok.
Qed.

Lemma entry_grows root p kind pending c s pending' c' s' :
  sound w c -> still w s -> native_entry root p kind pending c s = (Ok (pending', c'), s') ->
  still w s' /\ sound w c' /\ paths c ⊆ paths c'.
Proof.
  intros Hc Hs Hr. destruct (shows_entry w Hlength root p kind pending c s _ s' Hc Hs Hr) as (Hs' & x & A & [= -> ->] & _).
  split; [done|]. split; [apply sound_plus|cbn; set_solver].
Qed.

Lemma entries_taken root directory l : forall pending c s pending' c' s',
  sound w c -> still w s -> native_entries root directory l pending c s = (Ok (pending', c'), s') ->
  still w s' /\ sound w c' /\ paths c ⊆ paths c' /\ (forall q, In q pending -> In q pending') /\
  forall name kind, In (Ok (name, Ok kind)) l -> taken (push directory [Normal name]) kind pending' c'.
Proof.
  induction l as [|entry l IH]; intros pending c s pending' c' s' Hc Hs Hr; cbn [native_entries] in Hr.
  { injection Hr as <- <- <-. split_and!; [done..|by intros ? ? []]. }
  apply dis_bind_ok in Hr as ([name kind] & s1 & Hx%on_ok & Hr).
  destruct (answers_agree w _ _ _ _ _ (answers_lift w _) Hs Hx) as [<- Hs1]. cbv zeta in Hr.
  apply dis_bind_ok in Hr as (k & s2 & Hx2%on_ok & Hr).
  destruct (answers_agree w _ _ _ _ _ (answers_lift w _) Hs1 Hx2) as [<- Hs2].
  apply dis_bind_ok in Hr as ([pending1 c1] & s3 & He & Hr).
  destruct (entry_grows _ _ _ _ _ _ _ _ _ Hc Hs2 He) as (Hs3 & Hc1 & Hgrow).
  destruct (entry_taken _ _ _ _ _ _ _ _ _ He) as [Hkeep Htaken].
  destruct (IH _ _ _ _ _ _ Hc1 Hs3 Hr) as (Hs' & Hc' & Hgrow' & Hkeep' & Hall).
  split; [done|]. split; [done|]. split; [by etrans|]. split; [auto|]. intros name' kind' [Heq|Hin]; [|by apply Hall].
  injection Heq as -> ->. unfold taken in *. destruct kind'; eauto.
Qed.

(** A walk that ends has come upon every file of the trees it was given. *)
Lemma walk_finds_trees root rounds : forall pending c s c' s',
  sound w c -> still w s -> native_walk rounds root pending c s = (Ok c', s') ->
  paths c ⊆ paths c' /\ forall directory q, In directory pending -> in_tree w directory q -> q ∈ paths c'.
Proof.
  induction rounds as [|rounds IH]; intros [|first pending] c s c' s' Hc Hs Hr; cbn [native_walk] in Hr;
    [by injection Hr as <- <-|done|by injection Hr as <- <-|].
  apply dis_bind_ok in Hr as (listing & s1 & Hx%on_ok & Hr).
  destruct (answers_agree w _ _ _ _ _ (answers_call w _) Hs Hx) as [[= ->] Hs1].
  assert (Hsub : forall d q, in_tree w d q -> exists l, list_directory w d = Ok l) by (by intros d q []; eauto).
  destruct (list_directory w first) as [l|[]] eqn:El; try (by apply done_ok in Hr as [[=] _]).
  - apply dis_bind_ok in Hr as ([pending1 c1] & s2 & He & Hr).
    destruct (entries_taken _ _ _ _ _ _ _ _ _ Hc Hs1 He) as (Hs2 & Hc1 & Hgrow & Hkeep & Htaken).
    destruct (IH _ _ _ _ _ Hc1 Hs2 Hr) as [Hgrow' Hin]. split; [by etrans|]. intros directory q [->|Hd] Hq; [|by eauto].
    destruct Hq as [d l' name kind Hl Hn Hk Hr'|d l' name q Hl Hn Hr' Hq]; rewrite El in Hl; injection Hl as <-;
      pose proof (Htaken _ _ Hn) as Ht; unfold taken in Ht.
    + destruct kind; [done|apply Hgrow', Ht; done..].
    + by eapply Hin; [apply Ht|].
  - destruct (IH _ _ _ _ _ Hc Hs1 Hr) as [Hgrow Hin]. split; [done|]. intros directory q [->|Hd] Hq; [|by eauto].
    destruct (Hsub _ _ Hq) as [l Hl]. congruence.
Qed.

Lemma walk_adds_normalize directory directory' A :
  normalize_components directory = normalize_components directory' ->
  walk_adds w fuel roots directory A -> walk_adds w fuel roots directory' A.
Proof. unfold walk_adds, adds, collect_native_directory. by intros ->. Qed.

(** So what walking a directory adds has every file of its tree. *)
Lemma walk_adds_tree directory A s q :
  still w s -> fits (plus w nothing A) -> canonical directory = true -> is_ok (canonical_path w directory) = true ->
  walk_adds w fuel roots directory A -> in_tree w directory q -> q ∈ A.
Proof.
  intros Hs Hfit Hcan Hok HA Hq. destruct (HA nothing eq_refl Hfit s Hs) as (s1 & Hr & _).
  unfold collect_native_directory in Hr. rewrite (normalize_canonical _ Hcan) in Hr.
  destruct (negb _); [by apply done_ok in Hr as [[=] _]|]. apply dis_bind_ok in Hr as (listing & s2 & Hx%on_ok & Hr).
  destruct (answers_agree w _ _ _ _ _ (answers_call w _) Hs Hx) as [[= ->] Hs2].
  destruct (canonical_path w directory) as [root|]; [|done].
  destruct (walk_finds_trees root fuel [directory] nothing s2 _ _ eq_refl Hs2 Hr) as [_ Hin].
  specialize (Hin directory q (or_introl eq_refl) Hq). cbn in Hin. by rewrite union_empty_l_L in Hin.
Qed.
End Found_by_walks.

(** ** A prediction, used *)

Section Used.
Context `{DiskLaws} `{Directories} `{Hashes} `{!DigestCache} (w : World) (fuel : nat).
Context (Hlength : forall p m, stat w p = Ok m -> 0 <= m_len m).
Context (Hlocal : forall p m, stat w p = Ok m -> has_nul p = false /\ exists t, statfs_type w p = Ok t /\ t <> NFS_SUPER_MAGIC).
Context (i : RustcInvocation) (c : ActionContext).
Context (Hwd : canonical (working_dir c) = true).

(** Where a path of the invocation lies. *)
Definition located (q : Path) : Path := absolute_path q (working_dir c).
Definition admitted : list Path := native_input_roots (working_dir c) (path_mappings c).
Definition located_set (l : list Path) : gset Path := list_to_set (map located l).

Lemma located_absolute q : normalize_components (if is_absolute q then q else push (working_dir c) q) = located q.
Proof. unfold located, absolute_path. by destruct (is_absolute q). Qed.

(** What discovery found: the sources, the files the command line requires and
    what walking each native directory adds. *)
Lemma discover_ok dep s d s1 :
  Forall (fun q => canonical (located q) = true) (native_search_paths i) ->
  still w s -> discover fuel i dep (working_dir c) (Some (path_mappings c)) s = (Ok d, s1) ->
  exists As s0 d0,
    let P := located_set (dep_files dep) ∪ located_set (required_inputs i) ∪ ⋃ As in
    Forall2 (fun q => walk_adds w fuel admitted (located q)) (native_search_paths i) As /\
    bytes_of w (⋃ As) <= MAX_NATIVE_INPUT_BYTES /\ still w s0 /\
    from_paths fuel (working_dir c) P (dep_environment dep) s0 = (Ok d0, s1) /\
    discovered_inputs d = discovered_inputs d0 /\ discovered_environment d = dep_environment dep /\
    native_only d ⊆ P ∖ located_set (dep_files dep) /\
    (forall q, q ∈ native_only d -> existsb (starts_with q) (map located (native_search_paths i)) = true).
Proof.
  intros Hc Hs Hd. unfold discover in Hd. rewrite (canonical_absolute _ Hwd) in Hd. cbn [negb] in Hd.
  rewrite (normalize_canonical _ Hwd) in Hd. cbn [default] in Hd.
  cbv zeta in Hd. rewrite !(map_ext _ _ located_absolute) in Hd. fold (located_set (dep_files dep)) (located_set (required_inputs i)) admitted in Hd.
  apply dis_bind_ok in Hd as (c1 & s2 & Hc1 & Hd). apply dis_bind_ok in Hd as (d0 & s3 & Hd0 & Hd). injection Hd as <- <-.
  set (start := mkCollected (located_set (dep_files dep) ∪ located_set (required_inputs i)) 0 ∅) in *.
  destruct (collect_all w fuel admitted Hlength _ start s c1 s2 eq_refl Hs Hc1) as (Hs2 & As & HAs & -> & Hb).
  exists As, s2, d0. cbn in Hb. rewrite union_empty_l_L in Hb.
  split; [|split; [by apply Hb|]].
  - clear -Hc HAs. revert As HAs. induction Hc as [|q l Hq Hl IH]; intros As HAs; inversion HAs; subst; constructor; [|by apply IH].
    eapply walk_adds_normalize; [|eassumption]. by rewrite (normalize_canonical _ Hq), located_absolute.
  - split; [done|]. split; [exact Hd0|]. split; [done|]. split; [by apply (from_paths_ok _ _ _ _ _ _ _ Hd0)|].
    split; intros q [Hq' Hq]%elem_of_filter; [exact Hq|by apply Is_true_true].
Qed.
End Used.

(** Each member of a list has its pair. *)
Lemma Forall3_choose {X Y Z} (R : X -> Y -> Z -> Prop) (Q : Y -> Z -> Prop) l :
  (forall x, In x l -> exists y z, R x y z /\ Q y z) ->
  exists ys zs, Forall3 R l ys zs /\ Forall2 Q ys zs.
Proof.
  induction l as [|x l IH]; intros Hl; [exists [], []; split; constructor|].
  destruct (Hl x (or_introl eq_refl)) as (y & z & Hr & Hq).
  destruct IH as (ys & zs & Hrs & Hqs); [intros x' Hx; apply Hl; by right|].
  exists (y :: ys), (z :: zs). split; by constructor.
Qed.

Lemma Forall3_in {X Y Z} (R : X -> Y -> Z -> Prop) l ys zs x :
  Forall3 R l ys zs -> In x l -> exists y z, R x y z /\ y ∈ ys /\ z ∈ zs.
Proof.
  induction 1 as [|x' y z l ys zs Hr _ IH]; [done|]. intros [->|Hx]; [exists y, z; split; [done|]; split; by left|].
  destruct (IH Hx) as (y' & z' & ? & ? & ?). exists y', z'. split; [done|]. split; by right.
Qed.

Lemma Forall2_zip_in {X Y} (R : X -> Y -> Prop) l k x y : Forall2 R l k -> In (x, y) (zip l k) -> In x l /\ R x y.
Proof.
  induction 1 as [|a b l k Hr _ IH]; [done|]. cbn. intros [[= -> ->]|Hin]; [auto|]. destruct (IH Hin). auto.
Qed.

Lemma Forall2_in_zip {X Y} (R : X -> Y -> Prop) l k x : Forall2 R l k -> In x l -> exists y, In (x, y) (zip l k).
Proof.
  induction 1 as [|a b l k Hr _ IH]; [done|]. cbn. intros [->|Hin]; [eauto|]. destruct (IH Hin) as [y ?]. eauto.
Qed.

Lemma member_of_union (A : gset Path) As : A ∈ As -> A ⊆ ⋃ As.
Proof. intros HA x Hx. apply elem_of_union_list. by exists A. Qed.

Section Names_found.
Context `{DiskLaws} `{Directories} `{Hashes} `{!DigestCache} (w : World) (fuel : nat).
Context (Hlength : forall p m, stat w p = Ok m -> 0 <= m_len m).
Context (i : RustcInvocation) (c : ActionContext) (d : DiscoveredInputs) (p : RustcInputPrediction).
Context (Hwd : canonical (working_dir c) = true).
Context (Hu : forallb usable (path_mappings c) = true) (Hd : NoDup (map placeholder (path_mappings c))).
Context (Hroots : Forall (fun m => well_formed (root m) = true /\ link_free (normalize_components (root m))) (path_mappings c)).

Let Hwf : well_formed (working_dir c) = true := canonical_well_formed _ Hwd.

Lemma name_leads_back q n : well_formed q = true -> link_free (located c q) -> names (builder_new i c None) q n ->
  denormalize_path n (path_mappings c) = Some (located c q) /\ strip_prefix NATIVE_DIRECTORY_PREDICTION_PREFIX n = None.
Proof.
  intros Hq Hlf Hn. apply link_free_name_leads_back; [done..| |done|exact Hn].
  split; [done|]. split; [done|by apply canonical_absolute].
Qed.

Context (As : list (gset Path)) (P : gset Path).
Context (HAs : Forall2 (fun q => walk_adds w fuel (admitted c) (located c q)) (native_search_paths i) As) (HAP : ⋃ As ⊆ P).
Context (HP : map input_path (discovered_inputs d) = sorted_paths P).
Context (Hpaths : Forall (fun input => link_free (input_path input)) (discovered_inputs d)).
Context (Hdirs : Forall (fun q => well_formed q = true /\ link_free (located c q)) (native_search_paths i)).
(** What the prediction leaves out, a walk adds. *)
Context (Hnative : native_only d ∩ P ⊆ ⋃ As).
Context (Hfits : fits (plus w nothing (⋃ As))) (s0 : Process) (Hs0 : still w s0).

Lemma walks_agree q A A' : walk_adds w fuel (admitted c) q A -> walk_adds w fuel (admitted c) q A' ->
  A ⊆ ⋃ As -> A' ⊆ ⋃ As -> A = A'.
Proof.
  assert (Hfit : forall A, A ⊆ ⋃ As -> fits (plus w nothing A)).
  { intros B HB. apply (fits_plus w Hlength nothing B (⋃ As)). by rewrite (subseteq_union_1_L B (⋃ As) HB). }
  intros HA HA' Hsub Hsub'. destruct (HA nothing eq_refl (Hfit _ Hsub) s0 Hs0) as (s1 & He & _).
  destruct (HA' nothing eq_refl (Hfit _ Hsub') s0 Hs0) as (s2 & He' & _). rewrite He in He'. injection He' as He' _.
  by rewrite !(union_empty_l_L _) in He'.
Qed.

Lemma link_free_located q : link_free q -> well_formed q = true /\ located c q = q.
Proof.
  intros (Hc & _). split; [by apply canonical_well_formed|]. unfold located, absolute_path.
  by rewrite (canonical_absolute _ Hc), (normalize_canonical _ Hc).
Qed.

(** The names the prediction was made with. *)
Context (ds ns : list string) (Hds : Forall2 (names (builder_new i c None)) (native_search_paths i) ds)
  (Hns : Forall2 (fun input n => names (builder_new i c None) (input_path input) n) (discovered_inputs d) ns)
  (Hl : predicted_inputs p =
    string_set (map snd (List.filter (is_kept (string_set ds) d) (zip (discovered_inputs d) ns)) ++
      map (String.append NATIVE_DIRECTORY_PREDICTION_PREFIX) (string_set ds))%list).

Notation stands := (stands_for w fuel (admitted c) (path_mappings c)).

Lemma input_in input : In input (discovered_inputs d) -> input_path input ∈ P.
Proof. intros Hin. rewrite <- elem_of_sorted_paths, <- HP. apply list_elem_of_In. by apply in_map. Qed.

Lemma file_stands input n : In (input, n) (zip (discovered_inputs d) ns) ->
  strip_prefix NATIVE_DIRECTORY_PREDICTION_PREFIX n = None /\ denormalize_path n (path_mappings c) = Some (input_path input).
Proof.
  intros Hin. destruct (Forall2_zip_in _ _ _ _ _ Hns Hin) as [Hi Hn].
  rewrite Forall_forall in Hpaths. pose proof (Hpaths input (proj2 (list_elem_of_In _ _) Hi)) as Hlf.
  destruct (link_free_located _ Hlf) as [Hw Hloc].
  destruct (name_leads_back (input_path input) n) as [Hden Hpre]; [done|by rewrite Hloc|done|].
  by rewrite Hden, Hloc.
Qed.

Lemma directory_stands q n : In q (native_search_paths i) -> names (builder_new i c None) q n ->
  strip_prefix NATIVE_DIRECTORY_PREDICTION_PREFIX (NATIVE_DIRECTORY_PREDICTION_PREFIX ++ n)%string = Some n /\
  denormalize_path n (path_mappings c) = Some (located c q).
Proof.
  intros Hi Hn. rewrite Forall_forall in Hdirs.
  destruct (Hdirs q (proj2 (list_elem_of_In _ _) Hi)) as [Hw Hlf]. split; [apply strip_prefix_app|].
  by apply name_leads_back.
Qed.

Lemma predicted_input input n : In (input, n) (zip (discovered_inputs d) ns) ->
  is_kept (string_set ds) d (input, n) = true -> In n (predicted_inputs p).
Proof.
  intros Hin Hk. rewrite Hl, In_string_set, in_app_iff. left. apply (in_map snd _ (input, n)). by apply filter_In.
Qed.

Lemma predicted_directory n : In n ds -> In (NATIVE_DIRECTORY_PREDICTION_PREFIX ++ n)%string (predicted_inputs p).
Proof. intros Hin. rewrite Hl, In_string_set, in_app_iff. right. apply in_map. by apply In_string_set. Qed.

Lemma every_name_stands v : In v (predicted_inputs p) -> exists N A, stands v N A /\ N ⊆ P /\ A ⊆ ⋃ As.
Proof.
  rewrite Hl, In_string_set, in_app_iff, !in_map_iff. intros [([input n] & <- & Hin)|(n & <- & Hin)].
  - apply filter_In in Hin as [Hin _]. destruct (file_stands input n Hin) as [Hpre Hden].
    exists {[ input_path input ]}, ∅. split; [by apply stands_for_file|].
    split; [|apply empty_subseteq]. apply singleton_subseteq_l, input_in, (Forall2_zip_in _ _ _ _ _ Hns Hin).
  - rewrite In_string_set in Hin.
    destruct (Forall2_answer _ _ _ _ (proj2 (Forall2_flip _ _ _) Hds) Hin) as (q & Hq & Hiq).
    destruct (Forall2_answer _ _ _ _ HAs Hiq) as (A & HA & HinA). destruct (directory_stands q n Hiq Hq) as [Hpre Hden].
    exists ∅, A. split; [by eapply stands_for_directory|].
    split; [apply empty_subseteq|by apply member_of_union, list_elem_of_In].
Qed.

Context (Ns As' : list (gset Path)) (Hst : Forall3 stands (predicted_inputs p) Ns As')
  (HNs : ⋃ Ns ⊆ P) (HAs' : ⋃ As' ⊆ ⋃ As).

Lemma unnamed_is_native q : q ∈ P -> q ∉ ⋃ Ns -> q ∈ native_only d.
Proof.
  intros Hq Hno. rewrite <- elem_of_sorted_paths, <- HP, list_elem_of_In, in_map_iff in Hq.
  destruct Hq as (input & <- & Hin). destruct (Forall2_in_zip _ _ _ _ Hns Hin) as [n Hn].
  destruct (is_kept (string_set ds) d (input, n)) eqn:Ek.
  - destruct Hno. destruct (Forall3_in _ _ _ _ _ Hst (predicted_input _ _ Hn Ek)) as (N & A & Hv & HN & _).
    apply elem_of_union_list. exists N. split; [done|].
    destruct (file_stands input n Hn) as [Hpre Hden]. inversion Hv; subst; [|congruence].
    apply elem_of_singleton. congruence.
  - apply orb_false_iff in Ek as [_ Ek]. by apply negb_false_iff, bool_decide_eq_true in Ek.
Qed.

Lemma walked_again q : q ∈ ⋃ As -> q ∈ ⋃ As'.
Proof.
  intros (A & HA%list_elem_of_In & Hq)%elem_of_union_list.
  destruct (Forall2_answer _ _ _ _ (proj2 (Forall2_flip _ _ _) HAs) HA) as (dir & Hadd & Hdin). unfold flip in Hadd.
  destruct (Forall2_answer _ _ _ _ Hds Hdin) as (n & Hn & Hnin). destruct (directory_stands dir n Hdin Hn) as [Hpre Hden].
  destruct (Forall3_in _ _ _ _ _ Hst (predicted_directory n Hnin)) as (N & A' & Hv & _ & HA').
  apply elem_of_union_list. exists A'. split; [done|].
  inversion Hv as [|? ? ? Hpre' Hden' Hadd']; subst; [congruence|]. rewrite Hpre in Hpre'. injection Hpre' as <-.
  rewrite Hden in Hden'. injection Hden' as <-. rewrite <- (walks_agree _ _ _ Hadd Hadd'); [done| |].
  - by apply member_of_union, list_elem_of_In.
  - etrans; [by apply member_of_union|done].
Qed.

Lemma all_found : ⋃ Ns ∪ ⋃ As' = P.
Proof.
  apply set_eq. intros q. split; [intros [Hq|Hq]%elem_of_union; [by apply HNs|by apply HAP, HAs']|]. intros Hq.
  apply elem_of_union. destruct (decide (q ∈ ⋃ Ns)) as [Hin|Hno]; [by left|right].
  apply walked_again, Hnative, elem_of_intersection. split; [by apply unnamed_is_native|done].
Qed.
End Names_found.

Lemma unions_within (P Q : gset Path) Ns As :
  Forall2 (fun N A => N ⊆ P /\ A ⊆ Q) Ns As -> ⋃ Ns ⊆ P /\ ⋃ As ⊆ Q.
Proof.
  induction 1 as [|N A Ns As [HN HA] _ [IH1 IH2]]; [split; apply empty_subseteq|].
  split; by apply union_least.
Qed.

Lemma length_sorted_paths P : length (sorted_paths P) = length (elements P).
Proof. unfold sorted_paths. by rewrite merge_sort_Permutation. Qed.

Lemma within_fits `{Directories} `{Hashes} `{!DigestCache} (w : World) A P :
  A ⊆ P -> Z.of_nat (length (elements P)) <= MAX_PREDICTED_INPUTS -> bytes_of w A <= MAX_NATIVE_INPUT_BYTES ->
  fits (plus w nothing A).
Proof.
  intros HAP HP Hb. unfold fits, within_limits, plus. cbn. rewrite !(union_empty_l_L A). apply andb_true_iff.
  split; apply Z.leb_le; [|exact Hb]. pose proof (subseteq_size _ _ HAP) as Hle. unfold base.size, set_size in Hle. simpl in Hle. lia.
Qed.

Section Left_out.
Context `{DiskLaws} `{Directories} `{Hashes} `{!DigestCache} (w : World) (fuel : nat) (i : RustcInvocation) (c : ActionContext).
Context (Hlength : forall p m, stat w p = Ok m -> 0 <= m_len m).

(** What the command line requires below a native directory, and is not among
    the sources, lies in the tree of a native directory that exists. *)
Definition required_are_listed (sources : gset Path) : Prop :=
  forall r, In r (required_inputs i) -> located c r ∉ sources ->
    existsb (starts_with (located c r)) (map (located c) (native_search_paths i)) = true ->
    exists q, In q (native_search_paths i) /\ is_ok (canonical_path w (located c q)) = true /\
      in_tree w (located c q) (located c r).

Lemma left_out_is_walked sources d As s :
  still w s -> Forall2 (fun q => walk_adds w fuel (admitted c) (located c q)) (native_search_paths i) As ->
  Forall (fun q => canonical (located c q) = true) (native_search_paths i) ->
  fits (plus w nothing (⋃ As)) -> required_are_listed sources ->
  let P := sources ∪ located_set c (required_inputs i) ∪ ⋃ As in
  native_only d ⊆ P ∖ sources ->
  (forall q, q ∈ native_only d -> existsb (starts_with q) (map (located c) (native_search_paths i)) = true) ->
  native_only d ∩ P ⊆ ⋃ As.
Proof.
  intros Hs HAs Hcan Hfits Hreq P Hno Hunder q [Hq HqP]%elem_of_intersection. pose proof (Hno q Hq) as [_ Hns]%elem_of_difference.
  apply elem_of_union in HqP as [[?|Hr]%elem_of_union|]; [done| |done].
  apply elem_of_list_to_set, list_elem_of_In, in_map_iff in Hr as (r & <- & Hr).
  destruct (Hreq r Hr Hns (Hunder _ Hq)) as (dir & Hdin & Hok & Htree).
  destruct (Forall2_answer _ _ _ _ HAs Hdin) as (A & HA & HinA). apply list_elem_of_In, member_of_union in HinA.
  apply HinA, (walk_adds_tree w fuel (admitted c) Hlength (located c dir) A s); [done| | |done..].
  2: { rewrite Forall_forall in Hcan. by apply Hcan, list_elem_of_In. }
  apply (fits_plus w Hlength nothing A (⋃ As)). by rewrite (subseteq_union_1_L A (⋃ As) HinA).
Qed.

Lemma predicted_ok d p :
  canonical (working_dir c) = true ->
  Forall (fun input => link_free (input_path input)) (discovered_inputs d) ->
  Forall (fun q => well_formed q = true /\ link_free (located c q)) (native_search_paths i) ->
  prediction i c d = Ok p ->
  version p = 4 /\ predicted_environment p = map fst (entries (discovered_environment d)) /\
  exists ds ns, Forall2 (names (builder_new i c None)) (native_search_paths i) ds /\
    Forall2 (fun input n => names (builder_new i c None) (input_path input) n) (discovered_inputs d) ns /\
    predicted_inputs p = string_set (map snd (List.filter (is_kept (string_set ds) d) (zip (discovered_inputs d) ns)) ++
      map (String.append NATIVE_DIRECTORY_PREDICTION_PREFIX) (string_set ds))%list.
Proof.
  intros Hwd Hpaths Hdirs Hp. unfold prediction in Hp.
  destruct (predict (builder_new i c None) d ∅) as [r aliases] eqn:Epr. cbn in Hp. subst r.
  destruct (predict_ok (builder_new i c None) (canonical_well_formed _ Hwd) (canonical_absolute _ Hwd) d p aliases) as (ds & ns & ? & ? & ? & ? & ?).
  - eapply Forall_impl; [exact Hpaths|]. intros x Hx. by apply (link_free_located c).
  - exact (Forall_impl _ _ _ Hdirs (fun q Hq => proj1 Hq)).
  - done.
  - split; [done|]. split; [done|]. by exists ds, ns.
Qed.
End Left_out.

(** Once all names stand for what was found, discovery finds it. *)
Lemma rediscover_answers `{Directories} `{Hashes} `{!DigestCache} (w : World) fuel p wd mappings env s Ns As m P d0 s1 s2 wd0 env0 :
  (forall p m, stat w p = Ok m -> 0 <= m_len m) ->
  (forall p m, stat w p = Ok m -> has_nul p = false /\ exists t, statfs_type w p = Ok t /\ t <> NFS_SUPER_MAGIC) ->
  still w s -> is_absolute wd = true -> version p = 4 ->
  Z.of_nat (length (predicted_inputs p)) <= MAX_PREDICTED_INPUTS ->
  Z.of_nat (length (predicted_environment p)) <= 4 * 1024 ->
  Forall3 (stands_for w fuel (native_input_roots wd mappings) mappings) (predicted_inputs p) Ns As ->
  ⋃ Ns ∪ ⋃ As = P -> Z.of_nat (length (elements P)) <= MAX_PREDICTED_INPUTS ->
  bytes_of w (⋃ As) <= MAX_NATIVE_INPUT_BYTES ->
  read_variables env (predicted_environment p) = Ok m ->
  still w s1 -> from_paths fuel wd0 P env0 s1 = (Ok d0, s2) ->
  exists d s', rediscover fuel p wd mappings env s = (Ok d, s') /\ still w s' /\
    discovered_inputs d = discovered_inputs d0 /\ discovered_environment d = m /\ native_only d = P ∖ ⋃ Ns.
Proof.
  intros Hlength Hlocal Hs Hwd Hver Hni Hne Hst HP HPn HPb Henv Hs1 Hd0.
  assert (Hfit : fits (plus_named w nothing (⋃ Ns) (⋃ As))).
  { unfold fits, within_limits, plus_named. cbn. rewrite !(union_empty_l_L (⋃ _)), HP. apply andb_true_iff.
    split; by apply Z.leb_le. }
  destruct (predicted_paths_ok w fuel _ Hlength mappings _ Ns As Hst ∅ nothing eq_refl Hfit s Hs) as (sa & Hea & Hsa).
  unfold rediscover. rewrite Hver. cbn [Z.leb Z.compare Pos.compare Pos.compare_cont andb negb].
  assert (Hlimits : (MAX_PREDICTED_INPUTS <? Z.of_nat (length (predicted_inputs p))) ||
    (4 * 1024 <? Z.of_nat (length (predicted_environment p))) = false) by (apply orb_false_iff; split; by apply Z.ltb_ge).
  rewrite Hlimits. fold nothing. unfold mbind at 1, Dis_bind at 1. rewrite Hea. rewrite Henv.
  unfold mbind at 1, Dis_bind at 1, done at 1.
  destruct (from_paths_again w Hlocal fuel wd0 wd P env0 m s1 s2 d0 sa Hwd Hs1 Hsa Hd0) as (d1 & sb & Heb & Hsb & Hi & He).
  assert (Hpaths : paths (plus_named w nothing (⋃ Ns) (⋃ As)) = P) by (cbn; by rewrite union_empty_l_L).
  rewrite Hpaths, (union_empty_l_L (⋃ Ns)). unfold mbind, Dis_bind. rewrite Heb. by eexists _, _.
Qed.

(** C17: A prediction finds what the compilation's own discovery found.  On a
    disk where nothing happens and no file lies on NFS, if the inputs of a
    compilation were discovered from its dep-info and predicted, discovery from
    the prediction, with the same roots and variables, succeeds with the same
    inputs, digests and environment, although the prediction does not name what
    lies in native directories and the names of the rest went through portable
    names and back.  The roots, the inputs and the native directories are
    reached without links, the inputs and the prediction keep within the limits
    of a prediction, and a library the command line requires below a native
    directory is a file the directories' listings show. *)
Theorem predictions_rediscover `{DiskLaws} `{Directories} `{Hashes} `{!DigestCache} (w : World) fuel i dep c env s d s1 p s2 :
  (* the disk *)
  (forall p m, stat w p = Ok m -> 0 <= m_len m) ->
  (forall p m, stat w p = Ok m -> has_nul p = false /\ exists t, statfs_type w p = Ok t /\ t <> NFS_SUPER_MAGIC) ->
  still w s -> still w s2 ->
  (* the roots *)
  canonical (working_dir c) = true ->
  forallb usable (path_mappings c) = true -> NoDup (map placeholder (path_mappings c)) ->
  Forall (fun m => well_formed (root m) = true /\ link_free (normalize_components (root m))) (path_mappings c) ->
  (* the discovery and its prediction *)
  discover fuel i dep (working_dir c) (Some (path_mappings c)) s = (Ok d, s1) ->
  prediction i c d = Ok p ->
  Forall (fun input => link_free (input_path input)) (discovered_inputs d) ->
  Forall (fun q => well_formed q = true /\ link_free (located c q)) (native_search_paths i) ->
  required_are_listed w i c (located_set c (dep_files dep)) ->
  Z.of_nat (length (discovered_inputs d)) <= MAX_PREDICTED_INPUTS ->
  Z.of_nat (length (predicted_inputs p)) <= MAX_PREDICTED_INPUTS ->
  Z.of_nat (length (predicted_environment p)) <= 4 * 1024 ->
  environment_as env (discovered_environment d) ->
  exists d' s', rediscover fuel p (working_dir c) (path_mappings c) env s2 = (Ok d', s') /\
    discovered_inputs d' = discovered_inputs d /\ discovered_environment d' = discovered_environment d /\
    native_only d' ⊆ native_only d.
Proof.
  intros Hlength Hlocal Hs Hs2 Hwd Hu Hd Hroots Hdis Hp Hpaths Hdirs Hreq Hn Hni Hne Henv.
  assert (Hcan : Forall (fun q => canonical (located c q) = true) (native_search_paths i))
    by (eapply Forall_impl; [exact Hdirs|]; by intros q (_ & Hc & _)).
  destruct (discover_ok w fuel Hlength i c Hwd dep s d s1 Hcan Hs Hdis)
    as (As & s0 & d0 & HAs & Hb & Hs0 & Hfrom & Hi & He & Hno & Hunder).
  set (P := located_set c (dep_files dep) ∪ located_set c (required_inputs i) ∪ ⋃ As) in *.
  destruct (from_paths_ok _ _ _ _ _ _ _ Hfrom) as (HP & _ & _). rewrite <- Hi in HP.
  assert (HPn : Z.of_nat (length (elements P)) <= MAX_PREDICTED_INPUTS)
    by (rewrite <- length_sorted_paths, <- HP, length_map; exact Hn).
  assert (HAP : ⋃ As ⊆ P) by (apply union_subseteq_r).
  pose proof (within_fits w _ _ HAP HPn Hb) as Hfits.
  pose proof (left_out_is_walked w fuel i c Hlength _ d As s Hs HAs Hcan Hfits Hreq Hno Hunder) as Hnative. fold P in Hnative.
  destruct (predicted_ok i c d p Hwd Hpaths Hdirs Hp) as (Hver & Hpenv & ds & ns & Hds & Hns & Hl).
  destruct (Forall3_choose (stands_for w fuel (admitted c) (path_mappings c)) (fun N A => N ⊆ P /\ A ⊆ ⋃ As)
    (predicted_inputs p)) as (Ns & As' & Hst & [HNs HAs']%unions_within).
  { intros v. by apply (every_name_stands w fuel i c d p Hwd Hu Hd Hroots As P HAs HP Hpaths Hdirs ds ns). }
  pose proof (all_found w fuel Hlength i c d p Hwd Hu Hd Hroots As P HAs HAP HP Hpaths Hdirs Hnative Hfits s Hs ds ns Hds Hns Hl Ns As' Hst HNs HAs') as Hall.
  destruct (rediscover_answers w fuel p (working_dir c) (path_mappings c) env s2 Ns As' (discovered_environment d) P d0 s0 s1
    (working_dir c) (dep_environment dep)) as (d' & s' & Hr & _ & Hri & Hre & Hrn); try done.
  - by apply canonical_absolute.
  - etrans; [|exact Hb]. by apply bytes_of_subseteq.
  - rewrite Hpenv. by apply read_entries.
  - exists d', s'. split; [done|]. split; [by rewrite Hri|]. split; [done|]. rewrite Hrn.
    intros q [HqP Hq]%elem_of_difference.
    by apply (unnamed_is_native w fuel i c d p Hwd Hu Hd Hroots P HP Hpaths ds ns Hns Hl Ns As' Hst).
Qed.

(** ** A build run again *)

Module RediscoveryDemo.
Import Memory.

Definition tree : Tree := mkTree
  (map path_of ["/w"; "/w/src"; "/w/src/lib.rs"; "/w/native"; "/w/native/libz.a"; "/w/native/z.h"]%string) []
  [("/w/native/libz.a", ""); ("/w/src/lib.rs", "")]%string.

#[export] Instance disk : Disk := tree_disk tree.
#[export] Instance laws : DiskLaws := tree_laws tree eq_refl.

(** The entries of a directory are the files whose parent it is. *)
Definition children (w : MemoryWorld) (directory : Path) : list (result IoError (string * result IoError FileKind)) :=
  omap (fun '(name, _) =>
    if bool_decide (parent (path_of name) = Some directory) then n ← file_name (path_of name); Some (Ok (n, Ok Regular)) else None)
    (entries (names w)).

#[export] Instance directories : Directories := {
  list_directory w p := match children w p with [] => Err NotFound | l => Ok l end;
  canonical_path _ p := Ok p;
  io_message _ := ""%string
}.
#[export] Instance no_cache : DigestCache := { resolve _ _ ids := map (fun _ => Unresolved) ids }.

Definition file (text : string) : MemoryFile := mkFile (ascii_bytes text) 1004000000 1004000000.
Definition world : MemoryWorld := mkWorld 5000000000
  (list_to_map [("/w/src/lib.rs", (1, 1)); ("/w/native/libz.a", (1, 2)); ("/w/native/z.h", (1, 3))]%string)
  (list_to_map [((1, 1), file "mod a;"%string); ((1, 2), file "!<arch>"%string); ((1, 3), file ""%string)]).

(** Two processes: the one that compiled, and a later build. *)
Definition compiling : Process := mkProcess (fun _ => world) ∅ [].
Definition building : Process := mkProcess (fun _ => world) ∅ [].

Definition invocation : RustcInvocation := Eval vm_compute in
  match @parse RustcDemo.platform disk
    ["--crate-name=z"; "--crate-type=lib"; "--emit=dep-info,metadata"; "-Lnative=/w/native"; "-lstatic=z"; "/w/src/lib.rs"]%string RustcDemo.options
  with Ok i => i | Err _ => mkInvocation [] [] [] "" "" None None [] None Library end.

Definition context : ActionContext :=
  mkContext (mkCompiler "stable" "rustc 1.90.0" "x86_64-unknown-linux-gnu" None) (path_of "/w")
    [mkMapping (path_of "/w") "WORKSPACE"] ∅ ∅ [].
Definition dep_info : RustcDepInfo := mkDepInfo [path_of "src/lib.rs"] {[ "PROFILE"%string := Some "debug"%string ]}.
Definition environment (name : string) : option string := if String.eqb name "PROFILE" then Some "debug"%string else None.

#[local] Notation discovery := (discover 20 invocation dep_info (working_dir context) (Some (path_mappings context)) compiling).
Definition found : DiscoveredInputs := Eval vm_compute in
  match fst discovery with Ok d => d | Err _ => mkDiscovered [] [] ∅ [] ∅ end.
Definition predicted : RustcInputPrediction := Eval vm_compute in
  match prediction invocation context found with Ok p => p | Err _ => mkPrediction 0 [] [] 0 "" end.
#[local] Notation again := (rediscover 20 predicted (working_dir context) (path_mappings context) environment building).

Lemma paired {A B} (x : A * B) a : fst x = a -> x = (a, snd x).
Proof. intros <-. apply surjective_pairing. Qed.

Lemma both_still : still world compiling /\ still world building.
Proof. split; (split; [done|]); intros d u Hu; cbn in Hu; by rewrite lookup_empty in Hu. Qed.

Lemma files_are_local p m : stat world p = Ok m ->
  0 <= m_len m /\ has_nul p = false /\ exists t, statfs_type world p = Ok t /\ t <> NFS_SUPER_MAGIC.
Proof.
  cbn. unfold open_in. intros Hm. assert (Hn : is_Some (names world !! render p)) by (by destruct (names world !! render p)).
  split; [|split; [|by exists 0xEF53]].
  - destruct (ok_or NotFound _) as [o|]; [|done]. cbn in Hm. unfold fstat_in in Hm.
    destruct (files world !! o); [|done]. injection Hm as <-. cbn. lia.
  - unfold has_nul. destruct Hn as [o Ho]. cbn in Ho.
    repeat (apply lookup_insert_Some in Ho as [[<- _]|[_ Ho]]; [done|]). by rewrite lookup_empty in Ho.
Qed.

Lemma runs : fst discovery = Ok found /\ prediction invocation context found = Ok predicted.
Proof. split; vm_compute; reflexivity. Qed.

Lemma paths_are_plain :
  forallb (fun q => well_formed q && canonical q && bool_decide (resolved q = q) && forallb (without "\") (names_of q))
    (path_of "/w" :: map input_path (discovered_inputs found) ++ native_search_paths invocation)%list = true.
Proof. vm_compute. reflexivity. Qed.

Lemma plain_link_free q :
  In q (path_of "/w" :: map input_path (discovered_inputs found) ++ native_search_paths invocation)%list ->
  well_formed q = true /\ link_free q.
Proof.
  intros Hq. pose proof (proj1 (forallb_forall _ _) paths_are_plain q Hq) as Hp.
  apply andb_prop in Hp as [[[Hw Hc]%andb_prop Hr%bool_decide_eq_true]%andb_prop Hn].
  split; [done|]. split; [done|]. split; [done|]. rewrite forallb_forall in Hn. apply Forall_forall. intros n Hin.
  by apply Hn, list_elem_of_In.
Qed.

Lemma environment_is_same : environment_as environment (discovered_environment found).
Proof.
  intros name value Hn. change (discovered_environment found) with ({[ "PROFILE"%string := Some "debug"%string ]} : gmap string (option string)) in Hn.
  apply lookup_singleton_Some in Hn as [<- <-]. repeat split; try done. by intros text [= <-].
Qed.

(** The library the command line names is a file the listing shows. *)
Lemma library_is_listed : in_tree (world : @World memory) (path_of "/w/native") (path_of "/w/native/libz.a").
Proof.
  apply (in_tree_here (world : @World memory) (path_of "/w/native") (children world (path_of "/w/native")) "libz.a" Regular); [reflexivity| |done|reflexivity].
  vm_compute. auto.
Qed.

Lemma predictions_rediscover_witness :
  exists d' s', again = (Ok d', s') /\ discovered_inputs d' = discovered_inputs found /\
    length (discovered_inputs d') = 3%nat /\ length (predicted_inputs predicted) = 2%nat.
Proof.
  destruct both_still as [Hs Hs2]. destruct runs as [Hr Hp].
  destruct (predictions_rediscover (world : @World memory) 20 invocation dep_info context environment compiling found (snd discovery) predicted building)
    as (d' & s' & He & Hi & _ & _).
  - intros p m Hm. apply (files_are_local p m Hm).
  - intros p m Hm. apply (files_are_local p m Hm).
  - exact Hs.
  - exact Hs2.
  - reflexivity.
  - reflexivity.
  - apply (bool_decide_eq_true_1 _). vm_compute. reflexivity.
  - constructor; [|constructor]. split; [reflexivity|]. apply plain_link_free. by left.
  - exact (paired _ _ Hr).
  - exact Hp.
  - apply Forall_forall. intros input Hin. apply plain_link_free. right. apply in_app_iff. left.
    apply in_map. by apply list_elem_of_In.
  - constructor; [|constructor]. apply plain_link_free. vm_compute. auto 10.
  - intros r Hr' Hn _. exists (path_of "/w/native"). split; [vm_compute; by left|]. split; [reflexivity|].
    destruct Hr' as [<-|[<-|[]]]; [exact library_is_listed|]. destruct Hn. apply (bool_decide_eq_true_1 _). vm_compute. reflexivity.
  - vm_compute. discriminate.
  - vm_compute. discriminate.
  - vm_compute. discriminate.
  - exact environment_is_same.
  - exists d', s'. split; [exact He|]. split; [exact Hi|]. rewrite Hi. split; reflexivity.
Defined.
End RediscoveryDemo.
