(* ===== verification/HardLinks.v ===== *)
(** * Files with several names

    The part of a Unix filesystem that learned incremental state rests on: a
    tree of directories, whose files are inodes that may have several names
    (hard links), and the calls [mbx/src/incremental.rs], [retired.rs] and
    [disk_usage.rs] make about it.  What the operating system decides is the
    class [Os]: the order of a listing, which renames it refuses and what a
    recursive removal leaves behind when it fails.

    The lemmas: the loop over a tree visits exactly its nodes, and what renames
    and removals do to the names of a file. *)

From stdpp Require Import base list gmap sets strings sorting.
From Stdlib Require Import ZArith Lia.
From S2P Require Import Prelude Strings PathMap RustcArgs.
Local Open Scope Z_scope.

(** ** The tree *)

(** Device and inode: [FileKey::Object]. *)
Definition FileKey : Type := Z * Z.

(** Times are nanoseconds since the epoch. *)
Inductive Node := Folder (mtime : Z) | File (key : FileKey) | SymbolicLink (target : Path) (mtime : Z).

#[export] Instance Node_eq_dec : EqDecision Node.
Proof. solve_decision. Defined.

Record Inode := mkInode { text : string; mtime : Z }.

#[export] Instance Inode_eq_dec : EqDecision Inode.
Proof. solve_decision. Defined.

Record Files := mkFiles { tree : gmap Path Node; inodes : gmap FileKey Inode }.

Definition child (directory : Path) (name : string) : Path := (directory ++ [Normal name])%list.

(** [symlink_metadata] and [metadata]. *)
Definition symlink_metadata (f : Files) (p : Path) : option Node := tree f !! p.

Definition metadata (f : Files) (p : Path) : option Node :=
  match tree f !! p with
  | Some (SymbolicLink target _) =>
      match tree f !! target with Some (SymbolicLink _ _) => None | node => node end
  | node => node
  end.

Definition is_folder (n : Node) : bool := match n with Folder _ => true | _ => false end.
Definition is_regular (n : Node) : bool := match n with File _ => true | _ => false end.

Definition inode (f : Files) (k : FileKey) : Inode := default (mkInode "" 0) (inodes f !! k).
Definition length_of (f : Files) (k : FileKey) : Z := Z.of_nat (String.length (text (inode f k))).
Definition modified (f : Files) (n : Node) : Z :=
  match n with Folder t => t | SymbolicLink _ t => t | File k => mtime (inode f k) end.

(** The names of an inode, and how many there are. *)
Definition names_of_file (f : Files) (k : FileKey) : gset Path :=
  dom (filter (fun x : Path * Node => x.2 = File k) (tree f)).
Definition nlink (f : Files) (k : FileKey) : Z := Z.of_nat (length (elements (names_of_file f k))).

(** The name an entry of a directory has. *)
Definition entry_name (directory p : Path) : option string :=
  match strip_path directory p with Some [Normal n] => Some n | _ => None end.
Definition child_names (f : Files) (directory : Path) : list string :=
  omap (entry_name directory) (map_to_list (tree f)).*1.

Definition has_children (f : Files) (directory : Path) : bool :=
  match child_names f directory with [] => false | _ => true end.

(** ** The operating system *)

Class Os := {
  (* the order a directory is listed in *)
  arrange : Files -> Path -> list string -> list string;
  (* a rename the system refuses, other than for a name that is missing *)
  refuses : Files -> Path -> Path -> bool;
  (* what a recursive removal leaves *)
  left_behind : Files -> Path -> gset Path;
  (* the process and the random part of a retired name *)
  retired_suffix : Files -> Path -> string * string
}.

Inductive FileError := Missing | Refused.

Section Calls.
Context `{Os}.

(** [read_dir], collected; links are not entered. *)
Definition read_directory (f : Files) (p : Path) : result FileError (list string) :=
  match tree f !! p with
  | Some (Folder _) => Ok (arrange f p (child_names f p))
  | Some _ => Err Refused
  | None => Err Missing
  end.

(** [nested_entries] and [disk_usage::entries]: an error is an empty listing. *)
Definition nested_entries (f : Files) (p : Path) : list Path :=
  match read_directory f p with Ok names => map (child p) names | Err _ => [] end.

(** Take what lies at or beneath [from] to [to]. *)
Definition moved (from to p : Path) : Path :=
  match strip_path from p with Some rest => (to ++ rest)%list | None => p end.

Definition without_subtree (f : Files) (p : Path) : Files :=
  mkFiles (filter (fun x => starts_with x.1 p = false) (tree f)) (inodes f).

Definition move (f : Files) (from to : Path) : Files :=
  mkFiles (kmap (moved from to) (tree f)) (inodes f).

(** [std::fs::rename]: what it replaces must be of its kind, and empty. *)
Definition rename (f : Files) (from to : Path) : result FileError Files :=
  match tree f !! from, tree f !! to with
  | None, _ => Err Missing
  | Some _, None => if refuses f from to then Err Refused else Ok (move f from to)
  | Some n, Some m =>
      if refuses f from to || negb (eqb (is_folder n) (is_folder m)) || (is_folder m && has_children f to) then Err Refused
      else Ok (move (without_subtree f to) from to)
  end.

(** [std::fs::remove_file]. *)
Definition remove_file (f : Files) (p : Path) : result FileError Files :=
  match tree f !! p with
  | None => Err Missing
  | Some (Folder _) => Err Refused
  | Some _ =>
      if bool_decide (p ∈ left_behind f p) then Err Refused
      else Ok (mkFiles (delete p (tree f)) (inodes f))
  end.

(** [remove_dir_all], or [remove_file] on what is no directory: what is left
    keeps the directories it lies in. *)
Definition survives (left : gset Path) (root p : Path) : bool :=
  negb (starts_with p root) || existsb (fun q => starts_with q p) (elements left).

Definition remove_all (f : Files) (root : Path) : result FileError unit * Files :=
  match tree f !! root with
  | None => (Err Missing, f)
  | Some _ =>
      let left := filter (fun q => starts_with q root = true /\ is_Some (tree f !! q)) (left_behind f root) in
      (if bool_decide (left = ∅) then Ok tt else Err Refused,
       mkFiles (filter (fun x => survives left root x.1 = true) (tree f)) (inodes f))
  end.

(** ** Walking a tree *)

(** The [while] loop with a stack: each path not excluded is looked at, and a
    directory's entries are pushed. *)
Fixpoint visit_tree {S} (fuel : nat) (f : Files) (excluded : Path -> bool) (step : Path -> Node -> S -> S)
    (pending : list Path) (s : S) : S :=
  match pending, fuel with
  | [], _ => s
  | _, O => s
  | p :: pending, S fuel =>
      match (if excluded p then None else symlink_metadata f p) with
      | None => visit_tree fuel f excluded step pending s
      | Some n =>
          visit_tree fuel f excluded step
            (if is_folder n then (rev (nested_entries f p) ++ pending)%list else pending) (step p n s)
      end
  end.

(** One round per node, and one for a root that is missing. *)
Definition rounds (f : Files) : nat := S (size (tree f)).

End Calls.

(** ** What the system promises *)

(** A listing is all of the entries, and the name a tree is retired to is new. *)
Class OsLaws `{Os} : Prop := {
  arranged f p l : Permutation (arrange f p l) l;
  suffix_is_fresh f d n :
    let '(pid, random) := retired_suffix f (child d n) in
    pid <> ""%string /\ all_chars is_ascii_digit pid = true /\
    random <> ""%string /\ all_chars is_ascii_alphanumeric random = true /\
    tree f !! child d (n ++ ".retired-" ++ pid ++ "-" ++ random)%string = None
}.

(** Every name lies in a directory. *)
Definition well_founded (f : Files) : Prop :=
  forall (p : Path) c, is_Some (tree f !! (p ++ [c])%list) -> p <> [] ->
    (exists n, c = Normal n) /\ exists t, tree f !! p = Some (Folder t).

(** ** Paths *)

Lemma starts_with_spec p base : starts_with p base = true <-> exists rest, p = (base ++ rest)%list.
Proof.
  unfold starts_with. split.
  - destruct (strip_path base p) as [rest|] eqn:E; [|done]. intros _. exists rest. by apply strip_path_inv.
  - intros [rest ->]. by rewrite strip_path_app.
Qed.

Lemma starts_with_refl p : starts_with p p = true.
Proof. apply starts_with_spec. exists []. by rewrite app_nil_r. Qed.

Lemma starts_with_trans p q r : starts_with p q = true -> starts_with q r = true -> starts_with p r = true.
Proof. rewrite !starts_with_spec. intros [a ->] [b ->]. exists (b ++ a)%list. by rewrite app_assoc. Qed.

Lemma starts_with_false p base : starts_with p base = false <-> strip_path base p = None.
Proof. unfold starts_with. by destruct (strip_path base p). Qed.

(** Two paths above one path are above one another. *)
Lemma starts_with_linear p q r : starts_with p q = true -> starts_with p r = true ->
  starts_with q r = true \/ starts_with r q = true.
Proof.
  rewrite !starts_with_spec. intros [a ->] [b Hb]. revert r Hb. induction q as [|c q IH]; intros [|d r] Hb; simpl in *.
  - left. by exists [].
  - right. by exists (d :: r).
  - left. by exists (c :: q).
  - injection Hb as <- Hb. destruct (IH r Hb) as [[x ->]|[x ->]]; [left|right]; by exists x.
Qed.

Lemma strip_child p n : strip_path p (child p n) = Some [Normal n].
Proof. apply strip_path_app. Qed.

Lemma entry_name_spec d p n : entry_name d p = Some n <-> p = child d n.
Proof.
  unfold entry_name. split.
  - destruct (strip_path d p) as [[|[| | |m] [|? ?]]|] eqn:E; try done. intros [= <-]. by apply strip_path_inv in E.
  - intros ->. by rewrite strip_child.
Qed.

Lemma child_inj d n m : child d n = child d m -> n = m.
Proof. intros He. apply app_inv_head in He. by injection He. Qed.

Lemma child_not_under d n : starts_with d (child d n) = false.
Proof.
  apply not_true_iff_false. rewrite starts_with_spec. intros [rest He]. apply (f_equal length) in He.
  unfold child in He. rewrite !length_app in He. simpl in He. lia.
Qed.

Lemma child_under d n : starts_with (child d n) d = true.
Proof. apply starts_with_spec. by eexists. Qed.

(** Different entries have nothing in common. *)
Lemma children_apart d n m p : starts_with p (child d n) = true -> starts_with p (child d m) = true -> n = m.
Proof.
  rewrite !starts_with_spec. intros [a ->] [b Hb]. unfold child in Hb. rewrite <- !app_assoc in Hb.
  apply app_inv_head in Hb. by injection Hb.
Qed.

(** ** Listings *)

Lemma elem_of_child_names f d n : n ∈ child_names f d <-> is_Some (tree f !! child d n).
Proof.
  unfold child_names. rewrite list_elem_of_omap. split.
  - intros (p & Hp & He). apply entry_name_spec in He as ->. apply list_elem_of_fmap in Hp as ([q x] & -> & Hin).
    apply elem_of_map_to_list in Hin. by exists x.
  - intros [x Hx]. exists (child d n). split; [|by apply entry_name_spec]. apply list_elem_of_fmap.
    exists (child d n, x). split; [done|]. by apply elem_of_map_to_list.
Qed.

Lemma NoDup_child_names f d : NoDup (child_names f d).
Proof.
  unfold child_names. pose proof (NoDup_fst_map_to_list (tree f)) as Hd. revert Hd.
  generalize (map_to_list (tree f)).*1 as l. induction l as [|p l IH]; intros Hd; simpl; [constructor|].
  apply NoDup_cons in Hd as [Hp Hd]. destruct (entry_name d p) as [n|] eqn:E; [|by apply IH]. constructor; [|by apply IH].
  intros (q & Hq & Hn)%list_elem_of_omap. apply entry_name_spec in E as ->. apply entry_name_spec in Hn as ->. done.
Qed.

Section Walked.
Context `{OsLaws}.

Lemma nested_entries_spec f d p t : tree f !! d = Some (Folder t) ->
  p ∈ nested_entries f d <-> is_Some (tree f !! p) /\ exists n, p = child d n.
Proof.
  intros Hd. unfold nested_entries, read_directory. rewrite Hd, list_elem_of_fmap. split.
  - intros (n & -> & Hn). rewrite arranged in Hn. apply elem_of_child_names in Hn. eauto.
  - intros [Hp [n ->]]. exists n. split; [done|]. rewrite arranged. by apply elem_of_child_names.
Qed.

Lemma NoDup_nested_entries f d : NoDup (nested_entries f d).
Proof.
  unfold nested_entries, read_directory. destruct (tree f !! d) as [[]|]; try constructor.
  apply (NoDup_fmap_2_strong (child d)).
  - intros n m _ _. apply child_inj.
  - rewrite arranged. apply NoDup_child_names.
Qed.

(** *** What a walk visits *)

(** The path and all between it and where the walk began are let in. *)
Fixpoint let_in (excluded : Path -> bool) (from : Path) (rest : Path) : bool :=
  negb (excluded from) && match rest with [] => true | c :: rest => let_in excluded (from ++ [c])%list rest end.

Definition visited (excluded : Path -> bool) (root p : Path) : bool :=
  match strip_path root p with Some rest => let_in excluded root rest | None => false end.

Definition visited_from (excluded : Path -> bool) (roots : list Path) (p : Path) : bool :=
  existsb (fun root => visited excluded root p) roots.

Definition part (f : Files) (excluded : Path -> bool) (roots : list Path) : gmap Path Node :=
  filter (fun x => visited_from excluded roots x.1 = true) (tree f).

Lemma well_founded_folder f (p rest : Path) : well_founded f -> p <> [] -> rest <> [] ->
  is_Some (tree f !! (p ++ rest)%list) -> exists t, tree f !! p = Some (Folder t).
Proof.
  intros Hf Hp. induction rest as [|c rest IH] using rev_ind; [done|]. intros _ Hs. rewrite app_assoc in Hs.
  destruct (Hf _ _ Hs) as (_ & t & Ht); [by destruct p|].
  destruct rest as [|c' rest]; [rewrite app_nil_r in Ht; eauto|]. apply IH; [done|eauto].
Qed.

Lemma well_founded_step f (p : Path) c rest : well_founded f -> p <> [] -> is_Some (tree f !! (p ++ c :: rest)%list) ->
  exists n, c = Normal n /\ is_Some (tree f !! child p n).
Proof.
  intros Hf Hp Hs. assert (Hc : is_Some (tree f !! (p ++ [c])%list)).
  { destruct rest as [|c' rest]; [done|]. change (p ++ c :: c' :: rest)%list with (p ++ [c] ++ c' :: rest)%list in Hs.
    rewrite app_assoc in Hs. destruct (well_founded_folder f (p ++ [c]) (c' :: rest) Hf ltac:(by destruct p) ltac:(done) Hs) as [t Ht].
    by exists (Folder t). }
  destruct (Hf _ _ Hc Hp) as [[n ->] _]. by exists n.
Qed.

Lemma visited_step f excluded (p q : Path) : well_founded f -> p <> [] -> is_Some (tree f !! q) ->
  visited excluded p q = true <->
    excluded p = false /\ (q = p \/ exists n, is_Some (tree f !! child p n) /\ visited excluded (child p n) q = true).
Proof.
  intros Hf Hp Hq. unfold visited. split.
  - destruct (strip_path p q) as [rest|] eqn:E; [|done]. apply strip_path_inv in E as ->.
    destruct rest as [|c rest]; cbn [let_in]; rewrite andb_true_iff, negb_true_iff; intros [He Hr].
    + split; [done|]. left. apply app_nil_r.
    + split; [done|]. right. destruct (well_founded_step f p c rest Hf Hp Hq) as (n & -> & Hn). exists n. split; [done|].
      unfold child. replace (p ++ Normal n :: rest)%list with ((p ++ [Normal n]) ++ rest)%list by (by rewrite <- app_assoc).
      by rewrite strip_path_app.
  - intros [He [->|(n & _ & Hn)]].
    + rewrite <- (app_nil_r p) at 2. rewrite strip_path_app. cbn [let_in]. by rewrite He.
    + destruct (strip_path (child p n) q) as [rest|] eqn:E; [|done]. apply strip_path_inv in E as ->.
      unfold child. rewrite <- app_assoc, strip_path_app. cbn [app let_in]. rewrite He. exact Hn.
Qed.

Lemma visited_under excluded p q : visited excluded p q = true -> starts_with q p = true.
Proof. unfold visited, starts_with. by destruct (strip_path p q). Qed.

(** The nodes a walk steps on. *)
Definition reached (fuel : nat) (f : Files) (excluded : Path -> bool) (pending : list Path) : list (Path * Node) :=
  rev (visit_tree fuel f excluded (fun p n l => (p, n) :: l) pending []).

Lemma visit_tree_fold {S} fuel f excluded (step : Path -> Node -> S -> S) pending s l0 s0 :
  s = fold_right (fun x s => step x.1 x.2 s) s0 l0 ->
  visit_tree fuel f excluded step pending s =
    fold_right (fun x s => step x.1 x.2 s) s0 (visit_tree fuel f excluded (fun p n l => (p, n) :: l) pending l0).
Proof.
  revert pending s l0. induction fuel as [|fuel IH]; intros [|p pending] s l0 Hs; simpl; try done.
  destruct (if excluded p then None else symlink_metadata f p) as [n|]; apply IH; [|done]. simpl. by rewrite Hs.
Qed.

(** A walk is a fold over the nodes it steps on. *)
Lemma visit_tree_spec {S} fuel f excluded (step : Path -> Node -> S -> S) pending s :
  visit_tree fuel f excluded step pending s =
    fold_left (fun s x => step x.1 x.2 s) (reached fuel f excluded pending) s.
Proof.
  rewrite (visit_tree_fold fuel f excluded step pending s [] s eq_refl). unfold reached.
  by rewrite <- fold_left_rev_right, rev_involutive.
Qed.

(** Paths none of which lies above another. *)
Definition apart (l : list Path) : Prop :=
  NoDup l /\ (forall p q, p ∈ l -> q ∈ l -> starts_with q p = true -> p = q) /\ Forall (fun p => p <> []) l.

(** What is left to visit. *)
Definition left_to_visit (f : Files) (pending : list Path) : gset Path :=
  filter (fun q => existsb (starts_with q) pending = true) (dom (tree f)).
Definition missing (f : Files) (pending : list Path) : nat :=
  length (List.filter (fun p => is_none (tree f !! p)) pending).

Lemma elem_of_left f pending q : q ∈ left_to_visit f pending <-> is_Some (tree f !! q) /\ exists p, p ∈ pending /\ starts_with q p = true.
Proof.
  unfold left_to_visit. rewrite elem_of_filter, elem_of_dom, existsb_exists. setoid_rewrite list_elem_of_In. tauto.
Qed.

Lemma part_cons f excluded p pending q n :
  part f excluded (p :: pending) !! q = Some n <->
  tree f !! q = Some n /\ (visited excluded p q = true \/ visited_from excluded pending q = true).
Proof. unfold part. rewrite map_lookup_filter_Some. simpl. by rewrite orb_true_iff. Qed.

Lemma visited_from_app excluded l k q : visited_from excluded (l ++ k) q = visited_from excluded l q || visited_from excluded k q.
Proof. apply existsb_app. Qed.

Lemma visited_from_exists excluded l q : visited_from excluded l q = true <-> exists p, p ∈ l /\ visited excluded p q = true.
Proof. unfold visited_from. rewrite existsb_exists. by setoid_rewrite list_elem_of_In. Qed.

(** Skipping what is excluded or missing. *)
Lemma part_skip f (excluded : Path -> bool) (p : Path) pending : well_founded f -> p <> [] ->
  (if excluded p then None else symlink_metadata f p) = None ->
  part f excluded (p :: pending) = part f excluded pending.
Proof.
  intros Hf Hp He. apply map_eq. intros q. apply option_eq. intros n. rewrite part_cons.
  unfold part. rewrite map_lookup_filter_Some. simpl. split; [|tauto]. intros [Hq [Hv|Hv]]; [|done].
  apply (visited_step f) in Hv as [Hex Hv]; [|done..|by exists n]. rewrite Hex in He. unfold symlink_metadata in He.
  destruct Hv as [->|(m & Hm & _)]; [by rewrite Hq in He|].
  apply (well_founded_folder f p [Normal m] Hf Hp ltac:(done)) in Hm as [t Ht]. by rewrite Ht in He.
Qed.

(** Stepping on a node leaves its entries to visit. *)
Lemma part_step f (excluded : Path -> bool) (p : Path) n pending : well_founded f -> p <> [] -> excluded p = false -> tree f !! p = Some n ->
  part f excluded (p :: pending) =
    <[p := n]> (part f excluded (if is_folder n then rev (nested_entries f p) ++ pending else pending)%list).
Proof.
  intros Hf Hp He Hn. apply map_eq. intros q. apply option_eq. intros m. rewrite part_cons, lookup_insert_Some.
  assert (Hpart : part f excluded (if is_folder n then rev (nested_entries f p) ++ pending else pending)%list !! q = Some m <->
    tree f !! q = Some m /\ ((exists k, is_Some (tree f !! child p k) /\ visited excluded (child p k) q = true) \/
      visited_from excluded pending q = true)).
  { unfold part. rewrite map_lookup_filter_Some. simpl. destruct n as [t|k|target t]; simpl.
    - rewrite visited_from_app, orb_true_iff, visited_from_exists. setoid_rewrite list_elem_of_In. setoid_rewrite <- in_rev.
      setoid_rewrite <- list_elem_of_In. setoid_rewrite (nested_entries_spec f p _ t Hn). naive_solver.
    - split; [tauto|]. intros [Hq [(k' & Hk & _)|]]; [|done].
      apply (well_founded_folder f p [Normal k'] Hf Hp) in Hk as [t Ht]; [congruence|done].
    - split; [tauto|]. intros [Hq [(k' & Hk & _)|]]; [|done].
      apply (well_founded_folder f p [Normal k'] Hf Hp) in Hk as [t' Ht]; [congruence|done]. }
  rewrite Hpart. split.
  - intros [Hq Hv]. destruct (decide (p = q)) as [->|Hne]; [left; split; congruence|right]. split; [done|]. split; [done|].
    destruct Hv as [Hv|Hv]; [|by right]. apply (visited_step f) in Hv as [_ [->|Hv]]; [done|by left|done..|by exists m].
  - intros [[<- <-]|[Hne [Hq Hv]]]; (split; [done|]).
    + left. apply (visited_step f); [done..|by exists n|]. split; [done|by left].
    + destruct Hv as [Hv|Hv]; [left|by right]. apply (visited_step f); [done..|by exists m|]. split; [done|by right].
Qed.

(** What is stepped on is not visited again. *)
Lemma part_fresh f excluded (p : Path) n pending : well_founded f -> apart (p :: pending) -> tree f !! p = Some n ->
  part f excluded (if is_folder n then rev (nested_entries f p) ++ pending else pending)%list !! p = None.
Proof.
  intros Hf (Hnd & Hap & _) Hn. apply map_lookup_filter_None. right. intros m _ Hv. simpl in Hv.
  apply visited_from_exists in Hv as (q & Hq & Hv%visited_under).
  assert (q ∈ pending -> False).
  { intros Hin. apply NoDup_cons in Hnd as [Hni _]. apply Hni. assert (q = p) as <-; [|done]. apply Hap; [by right|by left|done]. }
  destruct n as [t| |]; simpl in Hq; try tauto. apply elem_of_app in Hq as [Hq|]; [|tauto].
  apply list_elem_of_In in Hq. rewrite <- in_rev in Hq. apply list_elem_of_In in Hq.
  apply (nested_entries_spec f p q t Hn) in Hq as [_ [k ->]]. by rewrite child_not_under in Hv.
Qed.

Lemma apart_step f (p : Path) n pending : well_founded f -> apart (p :: pending) -> tree f !! p = Some n ->
  apart (if is_folder n then rev (nested_entries f p) ++ pending else pending)%list.
Proof.
  intros Hf (Hnd & Hap & Hne) Hn. apply NoDup_cons in Hnd as [Hni Hnd]. apply Forall_cons in Hne as [Hp Hne].
  assert (Hpend : forall q r, q ∈ pending -> r ∈ pending -> starts_with r q = true -> q = r)
    by (intros q r Hq Hr; apply Hap; by right).
  destruct n as [t| |]; simpl; try by split.
  assert (Hin : forall q, q ∈ rev (nested_entries f p) <-> is_Some (tree f !! q) /\ exists k, q = child p k).
  { intros q. rewrite <- (nested_entries_spec f p q t Hn), !list_elem_of_In. symmetry. apply in_rev. }
  assert (Hno : forall q k, q ∈ pending -> starts_with q (child p k) = true \/ starts_with (child p k) q = true -> False).
  { intros q k Hq [Hs|Hs].
    - apply Hni. rewrite (Hap p q); [done|by left|by right|]. eapply starts_with_trans; [exact Hs|apply child_under].
    - destruct (starts_with_linear _ _ _ Hs (child_under p k)) as [Hs'|Hs'].
      + apply Hni. rewrite (Hap p q); [done|by left|by right|done].
      + apply Hni. rewrite <- (Hap q p); [done|by right|by left|done]. }
  split; [|split].
  - apply NoDup_app. split; [rewrite NoDup_ListNoDup; apply NoDup_rev, NoDup_ListNoDup, NoDup_nested_entries|].
    split; [|done]. intros q [_ [k ->]]%Hin Hq. apply (Hno _ k Hq). left. apply starts_with_refl.
  - intros q r [[_ [k ->]]%Hin|Hq]%elem_of_app [[_ [k' ->]]%Hin|Hr]%elem_of_app Hs.
    + by rewrite (children_apart p k k' (child p k') Hs (starts_with_refl _)).
    + destruct (Hno r k Hr). by left.
    + destruct (Hno q k' Hq). by right.
    + by apply Hpend.
  - apply Forall_app. split; [|done]. apply Forall_forall. intros q [_ [k ->]]%Hin. by destruct p.
Qed.

Lemma missing_step f (p : Path) n : tree f !! p = Some n -> missing f (if is_folder n then rev (nested_entries f p) else []) = 0%nat.
Proof.
  intros Hn. destruct n as [t| |]; try done. simpl. unfold missing.
  assert (Hall : forall l, (forall q, In q l -> is_Some (tree f !! q)) -> List.filter (fun p => is_none (tree f !! p)) l = []).
  { induction l as [|q l IH]; intros Hl; [done|]. simpl. destruct (Hl q (or_introl eq_refl)) as [x ->]. simpl. apply IH.
    intros r Hr. apply Hl. by right. }
  rewrite Hall; [done|]. intros q Hq. rewrite <- in_rev in Hq. apply list_elem_of_In in Hq. by apply (nested_entries_spec f p q t Hn).
Qed.

Lemma missing_app f l k : missing f (l ++ k) = (missing f l + missing f k)%nat.
Proof. unfold missing. by rewrite List.filter_app, length_app. Qed.

(** What is stepped on is left behind for good. *)
Lemma left_step f (p : Path) n pending : well_founded f -> apart (p :: pending) -> tree f !! p = Some n ->
  left_to_visit f (if is_folder n then rev (nested_entries f p) ++ pending else pending)%list ⊆ left_to_visit f (p :: pending) ∖ {[ p ]}.
Proof.
  intros Hf (Hnd & Hap & _) Hn q (Hq & r & Hr & Hs)%elem_of_left. apply NoDup_cons in Hnd as [Hni _].
  assert (Hpend : r ∈ pending -> q ∈ left_to_visit f (p :: pending) ∖ {[ p ]}).
  { intros Hin. apply elem_of_difference. split; [apply elem_of_left; split; [done|]; exists r; split; [by right|done]|].
    intros ->%elem_of_singleton. apply Hni. rewrite <- (Hap r p); [done|by right|by left|done]. }
  destruct n as [t| |]; simpl in Hr; try by apply Hpend. apply elem_of_app in Hr as [Hr|]; [|by apply Hpend].
  apply list_elem_of_In in Hr. rewrite <- in_rev in Hr. apply list_elem_of_In in Hr.
  apply (nested_entries_spec f p r t Hn) in Hr as [_ [k ->]]. apply elem_of_difference. split.
  - apply elem_of_left. split; [done|]. exists p. split; [by left|]. eapply starts_with_trans; [exact Hs|apply child_under].
  - intros ->%elem_of_singleton. by rewrite child_not_under in Hs.
Qed.

Lemma apart_tail p pending : apart (p :: pending) -> apart pending.
Proof.
  intros (Hnd & Hap & Hne). apply NoDup_cons in Hnd as [_ Hnd]. apply Forall_cons in Hne as [_ Hne].
  split; [done|]. split; [|done]. intros q r Hq Hr. apply Hap; by right.
Qed.

Lemma smaller (X Y : gset Path) p : p ∈ Y -> X ⊆ Y ∖ {[ p ]} -> (size X < size Y)%nat.
Proof.
  intros Hp Hs. pose proof (subseteq_size _ _ Hs) as Hle. rewrite size_difference, size_singleton in Hle by set_solver.
  destruct (decide (size Y = 0%nat)) as [H0'|]; [|lia]. apply size_empty_inv in H0'. set_solver.
Qed.

Lemma head_is_left f (p : Path) n pending : tree f !! p = Some n -> p ∈ left_to_visit f (p :: pending).
Proof. intros Hn. apply elem_of_left. split; [by exists n|]. exists p. split; [by left|apply starts_with_refl]. Qed.

Lemma missing_cons f (p : Path) pending : missing f (p :: pending) = ((if tree f !! p then 0 else 1) + missing f pending)%nat.
Proof. unfold missing. simpl. by destruct (tree f !! p). Qed.

Lemma left_tail f (p : Path) pending : apart (p :: pending) -> left_to_visit f pending ⊆ left_to_visit f (p :: pending) ∖ {[ p ]}.
Proof.
  intros (Hnd & Hap & _) q (Hq & r & Hr & Hs)%elem_of_left. apply elem_of_difference.
  split; [apply elem_of_left; split; [done|]; exists r; split; [by right|done]|].
  intros ->%elem_of_singleton. apply NoDup_cons in Hnd as [Hni _]. apply Hni. rewrite <- (Hap r p); [done|by right|by left|done].
Qed.

(** A walk steps on each node it is let into, once. *)
Lemma reached_perm fuel f excluded pending :
  well_founded f -> apart pending -> (size (left_to_visit f pending) + missing f pending <= fuel)%nat ->
  Permutation (reached fuel f excluded pending) (map_to_list (part f excluded pending)).
Proof.
  intros Hf Hap Hfuel. unfold reached. rewrite <- Permutation_rev.
  assert (Hgo : forall out, Permutation (visit_tree fuel f excluded (fun p n l => (p, n) :: l) pending out)
    (map_to_list (part f excluded pending) ++ out)); [|rewrite Hgo; by rewrite app_nil_r].
  assert (Hnil : part f excluded [] = ∅).
  { apply map_eq. intros q. rewrite lookup_empty. apply map_lookup_filter_None. right. by intros ? _ ?. }
  revert pending Hap Hfuel. induction fuel as [|fuel IH]; intros [|p pending] Hap Hfuel out; simpl;
    try by rewrite Hnil, map_to_list_empty.
  { rewrite missing_cons in Hfuel. destruct (tree f !! p) as [n|] eqn:Hn; [|lia].
    pose proof (smaller _ _ _ (head_is_left f p n pending Hn) (left_tail f p pending Hap)). lia. }
  rewrite missing_cons in Hfuel. pose proof Hap as (_ & _ & [Hp _]%Forall_cons).
  destruct (if excluded p then None else symlink_metadata f p) as [n|] eqn:E.
  - destruct (excluded p) eqn:He; [done|]. unfold symlink_metadata in E. rewrite E in Hfuel. rewrite IH.
    + rewrite (part_step f excluded p n pending Hf Hp He E), (map_to_list_insert _ _ _ (part_fresh f excluded p n pending Hf Hap E)).
      by rewrite <- Permutation_middle.
    + by apply (apart_step f p n).
    + pose proof (smaller _ _ _ (head_is_left f p n pending E) (left_step f p n pending Hf Hap E)).
      pose proof (missing_step f p n E). destruct (is_folder n); [rewrite missing_app|]; lia.
  - rewrite (part_skip f excluded p pending Hf Hp E). apply IH; [by eapply apart_tail|].
    destruct (tree f !! p) as [n|] eqn:Hn.
    + pose proof (smaller _ _ _ (head_is_left f p n pending Hn) (left_tail f p pending Hap)). lia.
    + assert (left_to_visit f pending ⊆ left_to_visit f (p :: pending)) as Hle%subseteq_size; [|lia].
      etrans; [by apply left_tail|]. intros q [Hq _]%elem_of_difference. exact Hq.
Qed.

(** [rounds] are enough for one tree. *)
Lemma walk_of_one f excluded root : well_founded f -> root <> [] ->
  Permutation (reached (rounds f) f excluded [root]) (map_to_list (part f excluded [root])).
Proof.
  intros Hf Hr. apply reached_perm; [done| |].
  - split; [apply NoDup_singleton|]. split; [|apply Forall_cons; split; [done|apply Forall_nil_2]]. intros p q Hp Hq _. apply list_elem_of_singleton in Hp, Hq. congruence.
  - unfold rounds. assert (left_to_visit f [root] ⊆ dom (tree f)) as Hle%subseteq_size.
    { intros q (Hq & _)%elem_of_left. by apply elem_of_dom. }
    rewrite size_dom in Hle. unfold missing. simpl. destruct (is_none _); simpl; lia.
Qed.

Lemma elem_of_reached f excluded root p n : well_founded f -> root <> [] ->
  (p, n) ∈ reached (rounds f) f excluded [root] <-> tree f !! p = Some n /\ visited excluded root p = true.
Proof.
  intros Hf Hr. rewrite walk_of_one by done. rewrite elem_of_map_to_list. unfold part. rewrite map_lookup_filter_Some.
  simpl. by rewrite orb_false_r.
Qed.

Lemma NoDup_reached f excluded root : well_founded f -> root <> [] -> NoDup (reached (rounds f) f excluded [root]).*1.
Proof. intros Hf Hr. rewrite walk_of_one by done. apply NoDup_fst_map_to_list. Qed.
End Walked.

(** ** Names of a file *)

Lemma elem_of_names f k (p : Path) : p ∈ names_of_file f k <-> tree f !! p = Some (File k).
Proof.
  unfold names_of_file. rewrite elem_of_dom. split.
  - intros [n Hn]. apply map_lookup_filter_Some in Hn as [Hn He]. simpl in He. by rewrite <- He.
  - intros Hp. exists (File k). by apply map_lookup_filter_Some.
Qed.

(** The data of a file is there as long as it has a name. *)
Definition on_disk (f : Files) (k : FileKey) : Prop := exists p : Path, tree f !! p = Some (File k).

#[export] Instance on_disk_dec f k : Decision (on_disk f k).
Proof.
  refine (cast_if (decide (names_of_file f k <> ∅))).
  - apply set_choose_L in n as [p Hp]. exists p. by apply elem_of_names.
  - intros [p Hp]. apply n. intros He. apply elem_of_names in Hp. rewrite He in Hp. by apply elem_of_empty in Hp.
Defined.

Lemma lookup_kmap_dom (g : Path -> Path) (m : gmap Path Node) (q : Path) x :
  (forall p p' : Path, is_Some (m !! p) -> is_Some (m !! p') -> g p = g p' -> p = p') ->
  (kmap g m : gmap Path Node) !! q = Some x <-> exists p : Path, q = g p /\ m !! p = Some x.
Proof.
  intros Hg. unfold kmap. rewrite <- elem_of_list_to_map.
  - rewrite list_elem_of_fmap. split.
    + intros ([p y] & [= -> ->] & Hin). exists p. split; [done|]. by apply elem_of_map_to_list in Hin.
    + intros (p & -> & Hp). exists (p, x). split; [done|]. by apply elem_of_map_to_list.
  - rewrite <- list_fmap_compose. change (fst ∘ prod_map g id) with (fun x : Path * Node => g x.1).
    assert (Hd := NoDup_fst_map_to_list m). revert Hd.
    assert (Hin : forall y, y ∈ map_to_list m -> is_Some (m !! y.1)) by (intros [p y] Hp; exists y; by apply elem_of_map_to_list in Hp).
    revert Hin. generalize (map_to_list m) as l. induction l as [|[p y] l IH]; intros Hin Hd; [constructor|].
    simpl in *. apply NoDup_cons in Hd as [Hni Hd]. constructor; [|apply IH; [|done]; intros z Hz; apply Hin; by right].
    intros ([p' y'] & He & Hp')%list_elem_of_fmap. apply Hni. simpl in He.
    rewrite (Hg p p'); [|apply (Hin (p, y)); by left|apply (Hin (p', y')); by right|done].
    apply list_elem_of_fmap. by exists (p', y').
Qed.

(** Renaming to a name that is free. *)
Definition free (f : Files) (from to : Path) : Prop :=
  starts_with to from = false /\ starts_with from to = false /\
  forall p, is_Some (tree f !! p) -> starts_with p to = false.

Lemma lookup_move f from to (q : Path) x : free f from to ->
  tree (move f from to) !! q = Some x <->
  exists p : Path, tree f !! p = Some x /\ q = moved from to p.
Proof.
  intros (_ & _ & Hto). unfold move. cbn [tree]. rewrite lookup_kmap_dom; [naive_solver|].
  intros p p' Hp Hp' He. unfold moved in He.
  destruct (strip_path from p) as [rest|] eqn:E, (strip_path from p') as [rest'|] eqn:E'.
  - apply app_inv_head in He as ->. apply strip_path_inv in E, E'. congruence.
  - apply Hto in Hp'. rewrite <- He in Hp'. apply starts_with_false in Hp'. by rewrite strip_path_app in Hp'.
  - apply Hto in Hp. rewrite He in Hp. apply starts_with_false in Hp. by rewrite strip_path_app in Hp.
  - done.
Qed.

Lemma on_disk_move f from to k : free f from to -> on_disk (move f from to) k <-> on_disk f k.
Proof.
  intros Hf. split; intros [p Hp].
  - apply (lookup_move f from to p _ Hf) in Hp as (q & Hq & _). by exists q.
  - exists (moved from to p). apply (lookup_move f from to _ _ Hf). eauto.
Qed.

Lemma moved_snoc from to (p : Path) c : p <> [] ->
  moved from to (p ++ [c])%list = (moved from to p ++ [c])%list \/ (p ++ [c])%list = from.
Proof.
  intros Hp. unfold moved. destruct (strip_path from p) as [rest|] eqn:E.
  - apply strip_path_inv in E as ->. left. by rewrite <- app_assoc, strip_path_app, app_assoc.
  - destruct (strip_path from (p ++ [c])%list) as [rest|] eqn:E'; [|by left]. right. apply strip_path_inv in E'.
    destruct rest as [|d rest _] using rev_ind; [by rewrite app_nil_r in E'|].
    rewrite app_assoc in E'. apply app_inj_tail in E' as [-> _]. by rewrite strip_path_app in E.
Qed.

(** A tree stays one when a part of it gets another name in the same directory. *)
Lemma well_founded_move f directory n m :
  well_founded f -> directory <> [] -> free f (child directory n) (child directory m) ->
  well_founded (move f (child directory n) (child directory m)).
Proof.
  intros Hf Hd Hfree q c [x Hx] Hq. apply (lookup_move _ _ _ _ _ Hfree) in Hx as (p & Hp & He).
  destruct p as [|a p0] using rev_ind.
  { exfalso. unfold moved in He. destruct (strip_path _ []) eqn:E; [|by destruct q].
    apply strip_path_inv in E. by destruct directory. }
  clear IHp0.
  destruct (decide (p0 = [])) as [->|Hp0].
  { exfalso. unfold moved in He. simpl in He. destruct (strip_path (child directory n) [a]) as [rest|] eqn:E.
    - apply strip_path_inv in E. apply (f_equal length) in E. unfold child in E. rewrite !length_app in E.
      destruct directory; [done|simpl in E; lia].
    - apply (f_equal length) in He. rewrite length_app in He. simpl in He. destruct q; [done|simpl in He; lia]. }
  destruct (Hf p0 a (ltac:(by exists x)) Hp0) as [[k ->] [t Ht]].
  destruct (moved_snoc (child directory n) (child directory m) p0 (Normal k) Hp0) as [Hm|Hm].
  - rewrite Hm in He. apply app_inj_tail in He as [-> ->]. split; [by eexists|]. exists t.
    apply (lookup_move _ _ _ _ _ Hfree). eauto.
  - rewrite Hm in He. unfold moved in He. replace (strip_path (child directory n) (child directory n)) with (Some [] : option Path) in He
      by (symmetry; rewrite <- (app_nil_r (child directory n)) at 2; apply strip_path_app).
    rewrite app_nil_r in He. apply app_inj_tail in He as [-> ->]. split; [by eexists|].
    apply app_inj_tail in Hm as [-> [= ->]]. exists t. apply (lookup_move _ _ _ _ _ Hfree). exists directory. split; [done|].
    unfold moved. destruct (strip_path (child directory n) directory) as [r|] eqn:E; [|done].
    apply strip_path_inv in E. apply (f_equal length) in E. unfold child in E. rewrite !length_app in E. simpl in E. lia.
Qed.

(** ** Removals *)

Section Removed.
Context `{Os}.

Lemma lookup_remove_all f root r f' (p : Path) x : remove_all f root = (r, f') ->
  tree f' !! p = Some x -> tree f !! p = Some x.
Proof.
  unfold remove_all. destruct (tree f !! root); intros [= _ <-]; [|done]. cbn [tree].
  rewrite map_lookup_filter_Some. by intros [? _].
Qed.

(** Nothing outside the tree is removed, and nothing of it is left on success. *)
Lemma remove_all_ok f root r f' : remove_all f root = (r, f') ->
  (forall p : Path, starts_with p root = false -> tree f' !! p = tree f !! p) /\
  (r <> Err Refused -> forall p : Path, starts_with p root = true -> well_founded f -> root <> [] -> tree f' !! p = None) /\
  inodes f' = inodes f.
Proof.
  unfold remove_all. destruct (tree f !! root) as [n|] eqn:E; intros [= <- <-].
  2: { split; [done|]. split; [|done]. intros _ p [rest ->]%starts_with_spec Hw Hr.
    destruct (tree f !! (root ++ rest : Path)) eqn:Ep; [|done]. destruct rest as [|c rest]; [rewrite app_nil_r in Ep; congruence|].
    destruct (well_founded_folder f root (c :: rest) Hw Hr ltac:(done)) as [t Ht]; [by eexists|congruence]. }
  cbn [tree inodes]. split; [|split; [|done]].
  - intros p Hp. apply option_eq. intros x. rewrite map_lookup_filter_Some. simpl. unfold survives. rewrite Hp. simpl. tauto.
  - intros Hr p Hp _ _. case_bool_decide as Hl; [|done]. apply map_lookup_filter_None. right. intros x _. simpl.
    unfold survives. rewrite Hp, Hl, elements_empty. done.
Qed.

Lemma well_founded_remove_all f root r f' : well_founded f -> remove_all f root = (r, f') -> well_founded f'.
Proof.
  intros Hf. unfold remove_all. destruct (tree f !! root); intros [= _ <-]; [|done].
  intros p c [x Hx] Hp. cbn [tree] in *. apply map_lookup_filter_Some in Hx as [Hx Hs]. simpl in Hs.
  destruct (Hf p c ltac:(by exists x) Hp) as [Hc [t Ht]]. split; [done|]. exists t. apply map_lookup_filter_Some. split; [done|].
  simpl. unfold survives in *. apply orb_true_iff in Hs as [Hs|Hs]; apply orb_true_iff.
  - left. apply negb_true_iff in Hs. apply negb_true_iff. apply not_true_iff_false. intros Hpr. apply not_true_iff_false in Hs.
    apply Hs. eapply starts_with_trans; [|exact Hpr]. apply starts_with_spec. by eexists.
  - right. apply existsb_exists in Hs as (q & Hq & Hs). apply existsb_exists. exists q. split; [done|].
    eapply starts_with_trans; [exact Hs|]. apply starts_with_spec. by eexists.
Qed.
End Removed.

(** ** Renames *)

Lemma sibling_apart d n m : n <> m -> starts_with (child d m) (child d n) = false.
Proof.
  intros Hne. apply not_true_iff_false. rewrite starts_with_spec. intros [rest He]. unfold child in He.
  rewrite <- app_assoc in He. apply app_inv_head in He. injection He as Hm _. by subst.
Qed.

Lemma free_sibling f d n m : n <> m -> (forall p, is_Some (tree f !! p) -> starts_with p (child d m) = false) ->
  free f (child d n) (child d m).
Proof. intros Hne Hf. split; [by apply sibling_apart|]. split; [by apply sibling_apart|done]. Qed.

Lemma nothing_under f (p : Path) : well_founded f -> p <> [] -> tree f !! p = None ->
  forall q, is_Some (tree f !! q) -> starts_with q p = false.
Proof.
  intros Hf Hp Hn q Hq. apply not_true_iff_false. rewrite starts_with_spec. intros [rest ->].
  destruct rest as [|c rest]; [rewrite app_nil_r in Hq; rewrite Hn in Hq; by destruct Hq|].
  destruct (well_founded_folder f p (c :: rest) Hf Hp ltac:(done) Hq) as [t Ht]. by rewrite Hn in Ht.
Qed.

Lemma childless f (d p : Path) : well_founded f -> d <> [] -> has_children f d = false -> is_Some (tree f !! p) ->
  starts_with p d = true -> p = d.
Proof.
  intros Hf Hd Hc Hp [rest ->]%starts_with_spec. destruct rest as [|c rest]; [apply app_nil_r|]. exfalso.
  destruct (well_founded_step f d c rest Hf Hd Hp) as (n & -> & Hn). apply elem_of_child_names in Hn.
  unfold has_children in Hc. destruct (child_names f d); [by apply elem_of_nil in Hn|done].
Qed.

Lemma without_childless f (d : Path) t : well_founded f -> d <> [] -> tree f !! d = Some (Folder t) -> has_children f d = false ->
  (forall k, on_disk (without_subtree f d) k <-> on_disk f k) /\ well_founded (without_subtree f d) /\
  forall p, is_Some (tree (without_subtree f d) !! p) -> starts_with p d = false.
Proof.
  intros Hf Hd Ht Hc.
  assert (Hl : forall (p : Path) x, tree (without_subtree f d) !! p = Some x <-> tree f !! p = Some x /\ starts_with p d = false).
  { intros p x. cbn. by rewrite map_lookup_filter_Some. }
  split; [|split].
  - intros k. split; intros [p Hp].
    + apply Hl in Hp as [Hp _]. by exists p.
    + exists p. apply Hl. split; [done|]. apply not_true_iff_false. intros Hs.
      rewrite (childless f d p Hf Hd Hc ltac:(by eexists) Hs) in Hp. congruence.
  - intros p c [x Hx] Hp. apply Hl in Hx as [Hx Hs]. destruct (Hf p c ltac:(by eexists) Hp) as [Hn [t' Ht']]. split; [done|].
    exists t'. apply Hl. split; [done|]. apply not_true_iff_false. intros Hpd. apply not_true_iff_false in Hs. apply Hs.
    eapply starts_with_trans; [|exact Hpd]. apply starts_with_spec. by eexists.
  - intros p [x Hx]. by apply Hl in Hx as [_ Hx].
Qed.

(** A rename within a directory that overwrites no file changes what no file
    has: each keeps a name. *)
Lemma rename_keeps_files `{Os} f d n m f' : well_founded f -> d <> [] -> n <> m ->
  (forall x, tree f !! child d m = Some x -> is_folder x = true) -> rename f (child d n) (child d m) = Ok f' ->
  (forall k, on_disk f' k <-> on_disk f k) /\ well_founded f' /\ inodes f' = inodes f.
Proof.
  intros Hf Hd Hne Hto. unfold rename. destruct (tree f !! child d n) as [x|] eqn:Ex; [|done].
  destruct (tree f !! child d m) as [y|] eqn:Ey.
  - destruct (refuses f _ _); [done|]. cbn [orb]. destruct (eqb (is_folder x) (is_folder y)) eqn:Eb; [|done]. cbn [negb orb].
    destruct y as [t|k|target t]; [|by specialize (Hto _ eq_refl)..].
    destruct (is_folder (Folder t) && has_children f (child d m)) eqn:Ec; [done|]. simpl in Ec. intros [= <-].
    destruct (without_childless f (child d m) t Hf ltac:(by destruct d) Ey Ec) as (Hon & Hw & Hfree).
    pose proof (free_sibling _ d n m Hne Hfree) as Hfr. split; [|split; [by apply well_founded_move|done]].
    intros k. by rewrite on_disk_move, Hon.
  - destruct (refuses f _ _); [done|]. intros [= <-].
    pose proof (free_sibling f d n m Hne (nothing_under f (child d m) Hf ltac:(by destruct d) Ey)) as Hfr.
    split; [|split; [by apply well_founded_move|done]]. intros k. by apply on_disk_move.
Qed.

(** ** A system that keeps its promises *)

(** Names are listed as they come and no rename is refused; what a removal
    leaves is given; a retired name is longer than any other. *)
Module PlainDisk.
Definition name_length (p : Path) : nat := match last p with Some (Normal n) => String.length n | _ => 0%nat end.
Definition longest (f : Files) : nat := fold_right Nat.max 0%nat (map name_length (elements (dom (tree f)))).
Fixpoint run_of (n : nat) : string := match n with O => "a"%string | S n => ("a" ++ run_of n)%string end.

Definition plain (leaves : Files -> Path -> gset Path) : Os := {|
  arrange := fun _ _ names => names;
  refuses := fun _ _ _ => false;
  left_behind := leaves;
  retired_suffix := fun f _ => ("7"%string, run_of (longest f))
|}.

Lemma run_of_alphanumeric n : all_chars is_ascii_alphanumeric (run_of n) = true.
Proof. induction n as [|n IH]; [done|]. exact IH. Qed.

Lemma run_of_length n : String.length (run_of n) = S n.
Proof. induction n as [|n IH]; [done|]. change (S (String.length (run_of n)) = S (S n)). by rewrite IH. Qed.

Lemma name_at_most f (p : Path) : is_Some (tree f !! p) -> (name_length p <= longest f)%nat.
Proof.
  intros Hp. apply elem_of_dom, elem_of_elements in Hp. unfold longest. revert Hp. generalize (elements (dom (tree f))) as l.
  induction l as [|q l IH]; [by intros ?%elem_of_nil|]. intros [->|Hq]%elem_of_cons; simpl; [lia|]. specialize (IH Hq). lia.
Qed.

Lemma plain_laws leaves : @OsLaws (plain leaves).
Proof.
  split; [done|]. intros f d n. cbn. split; [done|]. split; [done|]. split; [by destruct (longest f)|].
  split; [apply run_of_alphanumeric|]. destruct (tree f !! _) eqn:E; [|done]. exfalso.
  pose proof (name_at_most f _ (ltac:(by eexists) : is_Some (tree f !! child d (n ++ ".retired-" ++ "7" ++ "-" ++ run_of (longest f))%string))) as Hl.
  unfold name_length, child in Hl. rewrite last_snoc, !length_app_string, run_of_length in Hl. simpl in Hl. lia.
Qed.
End PlainDisk.
