(* ===== verification/TreeRemoval.v ===== *)
(** * Listing and removing a tree

    [list_tree] and [remove_tree_reporting] of [mbx/src/disk_usage.rs], which
    both ledgers of disk usage rest on: every file of a tree is identified,
    the tree is removed, and when the removal stops half way what survived is
    taken off the list again.

    A listing has each file of the tree once for each of its names in it, and
    what is reported of a removal is each file as often as it lost a name. *)

From stdpp Require Import base list gmap sets strings sorting.
From Stdlib Require Import ZArith Lia.
From S2P Require Import Prelude Strings PathMap RustcArgs HardLinks.
Local Open Scope Z_scope.

Section Listing.
Context `{Os}.

(** One round of the loop: the entries of a directory.  Directories go on the
    stack, anything else is looked at. *)
Fixpoint list_entries {S} (f : Files) (excluded : Path -> bool) (step : Path -> Node -> S -> S)
    (entries pending : list Path) (s : S) : list Path * S :=
  match entries with
  | [] => (pending, s)
  | p :: entries =>
      match symlink_metadata f p with
      | None => list_entries f excluded step entries pending s
      | Some n =>
          if is_folder n then list_entries f excluded step entries (if excluded p then pending else p :: pending) s
          else list_entries f excluded step entries pending (if excluded p then s else step p n s)
      end
  end.

(** The [while] loop over the directories. *)
Fixpoint walk_directories {S} (fuel : nat) (f : Files) (excluded : Path -> bool) (step : Path -> Node -> S -> S)
    (pending : list Path) (s : S) : S :=
  match pending, fuel with
  | [], _ => s
  | _, O => s
  | directory :: pending, S fuel =>
      let '(pending, s) := list_entries f excluded step (nested_entries f directory) pending s in
      walk_directories fuel f excluded step pending s
  end.

(** A walk over a root, which may be a file. *)
Definition walk_root {S} (f : Files) (excluded : Path -> bool) (step : Path -> Node -> S -> S) (root : Path) (s : S) : S :=
  match symlink_metadata f root with
  | None => s
  | Some n => if is_folder n then walk_directories (rounds f) f excluded step [root] s else step root n s
  end.

Context {T K : Type} `{Countable K} (identify : Files -> Path -> Node -> option T) (key : T -> K).

(** [list_tree]: the account of each file, and how many entries are no directory. *)
Definition list_tree (f : Files) (root : Path) : list T * Z :=
  walk_root f (fun _ => false)
    (fun p n s => (match identify f p n with Some t => (s.1 ++ [t])%list | None => s.1 end, s.2 + 1)) root ([], 0).

Definition count_key (counts : gmap K Z) (k : K) : gmap K Z := <[k := default 0 (counts !! k) + 1]> counts.

(** What did not survive, each survivor taken off once. *)
Fixpoint retain (surviving : gmap K Z) (listed : list T) : list T :=
  match listed with
  | [] => []
  | t :: listed =>
      let count := default 0 (surviving !! key t) in
      if 0 <? count then retain (<[key t := count - 1]> surviving) listed else t :: retain surviving listed
  end.

Record TreeRemoval := mkTreeRemoval { files_gone : list T; entries : Z; outcome : result FileError unit }.

Definition remove_tree_reporting (f : Files) (root : Path) : TreeRemoval * Files :=
  let '(listed, count) := list_tree f root in
  let '(r, f') := remove_all f root in
  match r with
  | Err Refused =>
      let '(survivors, surviving) := list_tree f' root in
      (mkTreeRemoval (retain (fold_left count_key (map key survivors) ∅) listed) (saturating_sub count surviving) (Err Refused), f')
  | _ => (mkTreeRemoval listed count (Ok tt), f')
  end.
End Listing.

(** ** What a walk looks at *)

Definition is_leaf (x : Path * Node) : bool := negb (is_folder x.2).

Section Walked.
Context `{OsLaws}.

(** What the walk steps on, in the order of its steps. *)
Definition leaves (f : Files) (excluded : Path -> bool) (root : Path) : list (Path * Node) :=
  rev (walk_root f excluded (fun p n l => (p, n) :: l) root []).

Lemma list_entries_fold {S} f excluded (step : Path -> Node -> S -> S) l pending s l0 s0 :
  s = fold_right (fun x s => step x.1 x.2 s) s0 l0 ->
  list_entries f excluded step l pending s =
    (let '(pending, l1) := list_entries f excluded (fun p n l => (p, n) :: l) l pending l0 in
     (pending, fold_right (fun x s => step x.1 x.2 s) s0 l1)).
Proof.
  revert pending s l0. induction l as [|p l IH]; intros pending s l0 Hs; cbn [list_entries]; [by subst|].
  destruct (symlink_metadata f p) as [n|]; [|by apply IH]. destruct (is_folder n); [by apply IH|].
  destruct (excluded p); [by apply IH|]. apply IH. by subst.
Qed.

Lemma walk_directories_fold {S} fuel f excluded (step : Path -> Node -> S -> S) pending s l0 s0 :
  s = fold_right (fun x s => step x.1 x.2 s) s0 l0 ->
  walk_directories fuel f excluded step pending s =
    fold_right (fun x s => step x.1 x.2 s) s0 (walk_directories fuel f excluded (fun p n l => (p, n) :: l) pending l0).
Proof.
  revert pending s l0. induction fuel as [|fuel IH]; intros [|d pending] s l0 Hs; cbn [walk_directories]; try done.
  rewrite (list_entries_fold f excluded step _ _ _ l0 s0 Hs). destruct (list_entries f excluded _ _ _ l0) as [pending' l1].
  by apply IH.
Qed.

Lemma walk_root_spec {S} f excluded (step : Path -> Node -> S -> S) root s :
  walk_root f excluded step root s = fold_left (fun s x => step x.1 x.2 s) (leaves f excluded root) s.
Proof.
  unfold leaves. rewrite <- fold_left_rev_right, rev_involutive. unfold walk_root. destruct (symlink_metadata f root) as [n|]; [|done].
  destruct (is_folder n); [|done]. by apply walk_directories_fold.
Qed.

#[export] Instance filter_Permutation_proper {A} (P : A -> bool) : Proper (Permutation ==> Permutation) (List.filter P).
Proof.
  intros l l' Hl. induction Hl as [|x l l' _ IH|x y l|l l' l'' _ IH1 _ IH2]; simpl; [done| | |by etrans].
  - destruct (P x); by rewrite IH.
  - destruct (P x), (P y); try done. apply Permutation_swap.
Qed.

(** Lists of paths that visit the same. *)
Lemma part_perm f excluded l l' : Permutation l l' -> part f excluded l = part f excluded l'.
Proof.
  intros Hl. apply map_eq. intros q. apply option_eq. intros n. unfold part. rewrite !map_lookup_filter_Some. cbn.
  unfold visited_from. rewrite !existsb_exists. split; intros [Hq (p & Hp & Hv)]; (split; [done|]); exists p; (split; [|done]);
    apply list_elem_of_In; apply list_elem_of_In in Hp; by rewrite Hl in Hp || rewrite <- Hl in Hp.
Qed.

Lemma apart_perm l l' : Permutation l l' -> apart l -> apart l'.
Proof.
  intros Hl (Hnd & Hap & Hne). split; [by rewrite <- Hl|]. split; [|by rewrite <- Hl].
  intros p q Hp Hq. rewrite <- Hl in Hp, Hq. by apply Hap.
Qed.

Lemma part_folder f excluded l p n : part f excluded l !! p = Some n -> tree f !! p = Some n.
Proof. unfold part. rewrite map_lookup_filter_Some. by intros [? _]. Qed.

(** The files of a part, each once. *)
Definition files_of (f : Files) (excluded : Path -> bool) (l : list Path) : list (Path * Node) :=
  List.filter is_leaf (map_to_list (part f excluded l)).

Lemma files_of_leaf f excluded (p : Path) n l : well_founded f -> apart (p :: l) -> tree f !! p = Some n -> is_folder n = false -> excluded p = false ->
  Permutation (files_of f excluded (p :: l)) ((p, n) :: files_of f excluded l).
Proof.
  intros Hf Hap Hn Hl He. unfold files_of. pose proof Hap as (_ & _ & [Hp _]%Forall_cons).
  pose proof (part_step f excluded p n l Hf Hp He Hn) as Hs. pose proof (part_fresh f excluded p n l Hf Hap Hn) as Hfr.
  rewrite Hl in Hs, Hfr. rewrite Hs, (map_to_list_insert _ _ _ Hfr). simpl. unfold is_leaf at 1. cbn [snd]. by rewrite Hl.
Qed.

Lemma files_of_folder f excluded (p : Path) n l : well_founded f -> apart (p :: l) -> tree f !! p = Some n -> is_folder n = true -> excluded p = false ->
  Permutation (files_of f excluded (p :: l)) (files_of f excluded (nested_entries f p ++ l)).
Proof.
  intros Hf Hap Hn Hl He. unfold files_of. pose proof Hap as (_ & _ & [Hp _]%Forall_cons).
  pose proof (part_step f excluded p n l Hf Hp He Hn) as Hs. pose proof (part_fresh f excluded p n l Hf Hap Hn) as Hfr.
  rewrite Hl in Hs, Hfr. rewrite Hs, (map_to_list_insert _ _ _ Hfr). simpl. unfold is_leaf at 1. cbn [snd]. rewrite Hl. simpl.
  by rewrite (part_perm f excluded (rev (nested_entries f p) ++ l) (nested_entries f p ++ l)) by (by rewrite <- Permutation_rev).
Qed.

Lemma files_of_skip f (excluded : Path -> bool) (p : Path) l : well_founded f -> p <> [] -> (if excluded p then None else symlink_metadata f p) = None ->
  files_of f excluded (p :: l) = files_of f excluded l.
Proof. intros Hf Hp Hs. unfold files_of. by rewrite (part_skip f excluded p l Hf Hp Hs). Qed.

(** Directories that are still to be entered. *)
Definition enterable (f : Files) (excluded : Path -> bool) (l : list Path) : Prop :=
  Forall (fun p => excluded p = false /\ exists t, tree f !! p = Some (Folder t)) l.

Lemma left_mono f l l' : (forall p, p ∈ l -> p ∈ l') -> left_to_visit f l ⊆ left_to_visit f l'.
Proof. intros Hl q (Hq & p & Hp & Hs)%elem_of_left. apply elem_of_left. eauto. Qed.

Lemma list_entries_perm f (excluded : Path -> bool) (l : list Path) pending out pending' out' : well_founded f -> apart (l ++ pending) -> enterable f excluded pending ->
  list_entries f excluded (fun p n l => (p, n) :: l) l pending out = (pending', out') ->
  apart pending' /\ enterable f excluded pending' /\ left_to_visit f pending' ⊆ left_to_visit f (l ++ pending) /\
  Permutation (files_of f excluded (l ++ pending) ++ out) (files_of f excluded pending' ++ out').
Proof.
  intros Hf. revert pending out. induction l as [|p l IH]; intros pending out Hap Hen; cbn [list_entries]; [by intros [= <- <-]|].
  pose proof Hap as (_ & _ & [Hp _]%Forall_cons). pose proof (apart_tail p (l ++ pending) Hap) as Hap'.
  assert (Hmore : left_to_visit f (l ++ pending) ⊆ left_to_visit f ((p :: l) ++ pending)) by (apply left_mono; intros q Hq; by right).
  assert (Hkeep : forall out0, (if excluded p then None else symlink_metadata f p) = None ->
    list_entries f excluded (fun p n l => (p, n) :: l) l pending out0 = (pending', out') ->
    apart pending' /\ enterable f excluded pending' /\ left_to_visit f pending' ⊆ left_to_visit f ((p :: l) ++ pending) /\
    Permutation (files_of f excluded ((p :: l) ++ pending) ++ out0) (files_of f excluded pending' ++ out')).
  { intros out0 Hskip Hgo. destruct (IH pending out0 Hap' Hen Hgo) as (? & ? & ? & Hperm).
    split; [done|]. split; [done|]. split; [by etrans|]. cbn [app]. by rewrite (files_of_skip f excluded p). }
  destruct (symlink_metadata f p) as [n|] eqn:En; [|by apply Hkeep; destruct (excluded p)].
  destruct (is_folder n) eqn:Efo; destruct (excluded p) eqn:Eex; [by apply Hkeep| |by apply Hkeep|].
  - intros Hgo. assert (Hswap : Permutation (l ++ p :: pending) (p :: l ++ pending)) by (by rewrite Permutation_middle).
    destruct (IH (p :: pending) out) as (? & ? & Hleft & Hperm); [by apply (apart_perm (p :: l ++ pending))| |done|].
    { constructor; [|done]. split; [done|]. destruct n; try done. by eexists. }
    split; [done|]. split; [done|]. split; [etrans; [exact Hleft|]; apply left_mono; intros q; by rewrite Hswap|].
    rewrite <- Hperm. cbn [app]. unfold files_of. by rewrite (part_perm f excluded _ _ Hswap).
  - intros Hgo. destruct (IH pending ((p, n) :: out) Hap' Hen Hgo) as (? & ? & ? & Hperm).
    split; [done|]. split; [done|]. split; [by etrans|]. rewrite <- Hperm. cbn [app].
    rewrite (files_of_leaf f excluded p n (l ++ pending)) by done. by rewrite <- Permutation_middle.
Qed.

Lemma files_of_nil f excluded : files_of f excluded [] = [].
Proof.
  unfold files_of. assert (part f excluded [] = ∅) as ->; [|by rewrite map_to_list_empty].
  apply map_eq. intros q. rewrite lookup_empty. apply map_lookup_filter_None. right. by intros ? _ ?.
Qed.

Lemma walk_directories_perm fuel f excluded pending out : well_founded f -> apart pending -> enterable f excluded pending ->
  (size (left_to_visit f pending) <= fuel)%nat ->
  Permutation (walk_directories fuel f excluded (fun p n l => (p, n) :: l) pending out) (files_of f excluded pending ++ out).
Proof.
  intros Hf. revert pending out. induction fuel as [|fuel IH]; intros [|d pending] out Hap Hen Hfuel; cbn [walk_directories];
    try by rewrite files_of_nil.
  - exfalso. apply Forall_cons in Hen as [[_ [t Ht]] _]. pose proof (smaller _ _ _ (head_is_left f d (Folder t) pending Ht) (left_tail f d pending Hap)). lia.
  - apply Forall_cons in Hen as [[He [t Ht]] Hen]. destruct (list_entries f excluded _ _ pending out) as [pending' out'] eqn:E.
    pose proof (apart_step f d (Folder t) pending Hf Hap Ht) as Hap'. cbn [is_folder] in Hap'.
    assert (Hrev : Permutation (rev (nested_entries f d) ++ pending) (nested_entries f d ++ pending)) by (by rewrite <- Permutation_rev).
    destruct (list_entries_perm f excluded (nested_entries f d) pending out pending' out' Hf) as (Ha & Hen' & Hleft & Hperm); [by eapply apart_perm|done..|].
    rewrite IH; [|done..|].
    + rewrite <- Hperm. by rewrite (files_of_folder f excluded d (Folder t) pending).
    + pose proof (left_step f d (Folder t) pending Hf Hap Ht) as Hstep. cbn [is_folder] in Hstep.
      assert (left_to_visit f pending' ⊆ left_to_visit f (rev (nested_entries f d) ++ pending)) as Hle%subseteq_size.
      { etrans; [exact Hleft|]. apply left_mono. intros q. by rewrite Hrev. }
      pose proof (smaller _ _ _ (head_is_left f d (Folder t) pending Ht) Hstep). lia.
Qed.

Lemma apart_one (p : Path) : p <> [] -> apart [p].
Proof.
  intros Hp. split; [apply NoDup_singleton|]. split; [|by apply Forall_singleton].
  intros q r Hq Hr _. apply list_elem_of_singleton in Hq, Hr. congruence.
Qed.

(** The loop ends within [rounds], having looked once at each node that is no
    directory and lies beneath the root and nothing excluded. *)
Lemma leaves_perm f excluded (root : Path) : well_founded f -> root <> [] -> excluded root = false ->
  Permutation (leaves f excluded root) (files_of f excluded [root]).
Proof.
  intros Hf Hr He. unfold leaves. rewrite <- Permutation_rev. unfold walk_root.
  destruct (symlink_metadata f root) as [n|] eqn:En.
  - destruct (is_folder n) eqn:Ef.
    + rewrite walk_directories_perm; [by rewrite app_nil_r|done|by apply apart_one| |].
      * constructor; [|constructor]. split; [done|]. destruct n; try done. by eexists.
      * unfold rounds. assert (left_to_visit f [root] ⊆ dom (tree f)) as Hle%subseteq_size.
        { intros q (Hq & _)%elem_of_left. by apply elem_of_dom. }
        rewrite size_dom in Hle. lia.
    + rewrite (files_of_leaf f excluded root n []) by (done || by apply apart_one). by rewrite files_of_nil.
  - rewrite files_of_skip; [by rewrite files_of_nil|done..|]. by rewrite He.
Qed.

Lemma elem_of_leaves f excluded (root p : Path) n : well_founded f -> root <> [] -> excluded root = false ->
  (p, n) ∈ leaves f excluded root <-> tree f !! p = Some n /\ is_folder n = false /\ visited excluded root p = true.
Proof.
  intros Hf Hr He. rewrite leaves_perm by done. unfold files_of. rewrite list_elem_of_In, filter_In, <- list_elem_of_In, elem_of_map_to_list.
  unfold part, is_leaf. rewrite map_lookup_filter_Some, negb_true_iff. cbn. rewrite orb_false_r. tauto.
Qed.

Lemma filter_fst_sublist {X Y} (P : X * Y -> bool) l : sublist (List.filter P l).*1 l.*1.
Proof. induction l as [|x l IH]; simpl; [constructor|]. destruct (P x); simpl; by constructor. Qed.

Lemma NoDup_leaves f excluded (root : Path) : well_founded f -> root <> [] -> excluded root = false -> NoDup (leaves f excluded root).*1.
Proof.
  intros Hf Hr He. rewrite leaves_perm by done. eapply sublist_NoDup; [|apply filter_fst_sublist]. apply NoDup_fst_map_to_list.
Qed.
End Walked.

(** ** What a removal takes *)

Definition option_list {A} (o : option A) : list A := match o with Some a => [a] | None => [] end.

(** How often a key is listed. *)
Definition occurrences {K} `{EqDecision K} (k : K) (l : list K) : nat := length (List.filter (fun k' => bool_decide (k' = k)) l).

(** The names of a file at or beneath a path. *)
Definition names_under (f : Files) (root : Path) (k : FileKey) : gset Path :=
  filter (fun p => starts_with p root = true) (names_of_file f k).

Lemma occurrences_app {K} `{EqDecision K} (k : K) l l' : occurrences k (l ++ l')%list = (occurrences k l + occurrences k l')%nat.
Proof. unfold occurrences. by rewrite List.filter_app, length_app. Qed.

Lemma occurrences_in {K} `{EqDecision K} (k : K) l : (0 < occurrences k l)%nat <-> k ∈ l.
Proof.
  unfold occurrences. induction l as [|k' l IH]; simpl; [split; [lia|by intros ?%elem_of_nil]|].
  rewrite elem_of_cons. case_bool_decide as Hk; simpl; [subst; split; [by left|lia]|]. rewrite IH. naive_solver.
Qed.

Lemma occurrences_counts {K} `{Countable K} l (counts : gmap K Z) k :
  default 0 (fold_left count_key l counts !! k) = default 0 (counts !! k) + Z.of_nat (occurrences k l).
Proof.
  revert counts. induction l as [|k' l IH]; intros counts; simpl; [unfold occurrences; simpl; lia|].
  rewrite IH. unfold count_key, occurrences. simpl. case_bool_decide as Hk.
  - subst. rewrite lookup_insert_eq. simpl. lia.
  - by rewrite lookup_insert_ne.
Qed.

Lemma visited_all root p : visited (fun _ => false) root p = starts_with p root.
Proof.
  unfold visited, starts_with. destruct (strip_path root p) as [rest|]; [|done]. simpl.
  revert root. induction rest as [|c rest IH]; intros root; [done|]. simpl. apply IH.
Qed.

Section Retained.
Context {T K : Type} `{Countable K} (key : T -> K).

Lemma occurrences_retain surviving l k : (forall k, 0 <= default 0 (surviving !! k)) ->
  Z.of_nat (occurrences k (map key (retain key surviving l))) =
    Z.max 0 (Z.of_nat (occurrences k (map key l)) - default 0 (surviving !! k)).
Proof.
  revert surviving. induction l as [|t l IH]; intros surviving Hs; cbn [retain map].
  { specialize (Hs k). unfold occurrences. simpl. lia. }
  destruct (Z.ltb_spec 0 (default 0 (surviving !! key t))) as [Hpos|Hzero].
  - rewrite IH.
    + unfold occurrences. simpl. case_bool_decide as Hk.
      * subst. rewrite lookup_insert_eq. simpl. lia.
      * by rewrite lookup_insert_ne.
    + intros k0. destruct (decide (k0 = key t)) as [->|Hne]; [rewrite lookup_insert_eq; simpl; lia|].
      rewrite lookup_insert_ne by done. apply Hs.
  - cbn [map]. pose proof (Hs (key t)) as Hk'. unfold occurrences in *. simpl. specialize (IH surviving Hs). case_bool_decide as Hk; simpl; [|exact IH].
    subst. lia.
Qed.

Lemma retain_sublist surviving l t : In t (retain key surviving l) -> In t l.
Proof.
  revert surviving. induction l as [|t' l IH]; intros surviving; [done|]. cbn [retain].
  destruct (0 <? _); [intros Hx; right; by eapply IH|]. intros [<-|Hx]; [by left|right; by eapply IH].
Qed.
End Retained.

(** An account of the files, and of nothing else. *)
Record accounts_files {T} (identify : Files -> Path -> Node -> option T) (key : T -> FileKey) (account : Files -> FileKey -> T) : Prop := {
  of_file f p k : identify f p (File k) = Some (account f k);
  of_others f p n : (forall k, n <> File k) -> identify f p n = None;
  keyed f k : key (account f k) = k
}.

Section Account.
Context `{OsLaws} {T : Type} {identify : Files -> Path -> Node -> option T} {key : T -> FileKey} {account : Files -> FileKey -> T}
  (Hid : accounts_files identify key account).

Definition account_of (f : Files) (x : Path * Node) : option T := identify f x.1 x.2.

Lemma list_tree_spec f root : (list_tree identify f root).1 = omap (account_of f) (leaves f (fun _ => false) root).
Proof.
  unfold list_tree. rewrite walk_root_spec. generalize (leaves f (fun _ => false) root) as l. intros l.
  assert (Hgo : forall acc n, (fold_left (fun s x => ((match identify f x.1 x.2 with Some t => (s.1 ++ [t])%list | None => s.1 end), s.2 + 1)) l (acc, n)).1 =
    (acc ++ omap (account_of f) l)%list); [|apply (Hgo [])].
  induction l as [|x l IH]; intros acc n; cbn [fold_left omap list_omap]; [by rewrite app_nil_r|]. rewrite IH. unfold account_of.
  cbn [fst]. destruct (identify f x.1 x.2); [by rewrite <- app_assoc|done].
Qed.

Lemma elem_of_list_tree f (root : Path) t : well_founded f -> root <> [] -> t ∈ (list_tree identify f root).1 ->
  exists p k, tree f !! p = Some (File k) /\ starts_with p root = true /\ t = account f k.
Proof.
  intros Hf Hr. rewrite list_tree_spec. intros ([p n] & Hin & Ht)%list_elem_of_omap.
  apply elem_of_leaves in Hin as (Hp & Hl & Hv); [|done..]. rewrite visited_all in Hv. unfold account_of in Ht. cbn [fst snd] in Ht.
  destruct n as [m|k|target m]; [done| |by rewrite (of_others _ _ _ Hid) in Ht].
  rewrite (of_file _ _ _ Hid) in Ht. injection Ht as <-. eauto.
Qed.

(** A file is listed once for each of its names. *)
Lemma occurrences_list_tree f (root : Path) k : well_founded f -> root <> [] ->
  occurrences k (map key (list_tree identify f root).1) = size (names_under f root k).
Proof.
  intros Hf Hr. assert (Ho : occurrences k (map key (list_tree identify f root).1) =
    length (List.filter (fun x => bool_decide (x.2 = File k)) (leaves f (fun _ => false) root)).*1).
  { rewrite list_tree_spec. unfold occurrences. rewrite length_fmap. induction (leaves f (fun _ => false) root) as [|[p n] l IH]; [done|]. simpl.
    unfold account_of at 1. cbn [fst snd]. destruct n as [t|k'|target t].
    - rewrite (of_others _ _ _ Hid) by done. rewrite bool_decide_false by done. exact IH.
    - rewrite (of_file _ _ _ Hid). simpl. rewrite (keyed _ _ _ Hid).
      rewrite (bool_decide_ext (k' = k) (File k' = File k)) by naive_solver. destruct (bool_decide (File k' = File k)); simpl; [f_equal|]; exact IH.
    - rewrite (of_others _ _ _ Hid) by done. rewrite bool_decide_false by done. exact IH. }
  rewrite Ho. unfold base.size, set_size. simpl. apply Permutation_length, NoDup_Permutation; [|apply NoDup_elements|].
  - eapply sublist_NoDup; [exact (NoDup_leaves f (fun _ => false) root Hf Hr eq_refl)|]. apply filter_fst_sublist.
  - intros p. rewrite elem_of_elements. unfold names_under. rewrite elem_of_filter, elem_of_names, list_elem_of_fmap. split.
    + intros ([q n] & -> & Hin). apply list_elem_of_In, filter_In in Hin as [Hin Hn]. apply list_elem_of_In in Hin.
      simpl in Hn. apply bool_decide_eq_true in Hn as ->. apply elem_of_leaves in Hin as (Ht & _ & Hv); [|done..]. by rewrite visited_all in Hv.
    + intros [Hs Ht]. exists (p, File k). split; [done|]. apply list_elem_of_In, filter_In. split; [|by apply bool_decide_eq_true].
      apply list_elem_of_In, elem_of_leaves; [done..|]. by rewrite visited_all.
Qed.

(** The names a removal takes are those beneath the root. *)
Lemma names_split f f' (root : Path) k : (forall p : Path, starts_with p root = false -> tree f' !! p = tree f !! p) ->
  (forall (p : Path) n, tree f' !! p = Some n -> tree f !! p = Some n) ->
  Z.of_nat (size (names_of_file f k)) - Z.of_nat (size (names_of_file f' k)) =
    Z.of_nat (size (names_under f root k)) - Z.of_nat (size (names_under f' root k)) /\
  (size (names_under f' root k) <= size (names_under f root k))%nat.
Proof.
  intros Hout Hsub.
  assert (Hparts : forall g, size (names_of_file g k) =
    (size (names_under g root k) + size (filter (fun p => starts_with p root = false) (names_of_file g k)))%nat).
  { intros g. rewrite <- size_union.
    - f_equal. apply set_eq. intros p. unfold names_under. rewrite elem_of_union, !elem_of_filter.
      destruct (starts_with p root); naive_solver.
    - intros p. unfold names_under. rewrite !elem_of_filter. destruct (starts_with p root); naive_solver. }
  rewrite !Hparts. assert (filter (fun p => starts_with p root = false) (names_of_file f' k) =
    filter (fun p => starts_with p root = false) (names_of_file f k)) as ->.
  { apply set_eq. intros p. rewrite !elem_of_filter, !elem_of_names. split; intros [Hp Ht]; (split; [done|]); [by rewrite <- Hout|by rewrite Hout]. }
  split; [lia|]. apply subseteq_size. intros p. unfold names_under. rewrite !elem_of_filter, !elem_of_names. naive_solver.
Qed.

(** The account of a removal: each file as it was, once for each of its names
    that went. *)
Lemma removal_account f (root : Path) removal f' : well_founded f -> root <> [] ->
  remove_tree_reporting identify key f root = (removal, f') ->
  well_founded f' /\ inodes f' = inodes f /\ (forall p : Path, starts_with p root = false -> tree f' !! p = tree f !! p) /\
  (forall (p : Path) n, tree f' !! p = Some n -> tree f !! p = Some n) /\
  (forall t, t ∈ files_gone removal -> exists p k, tree f !! p = Some (File k) /\ starts_with p root = true /\ t = account f k) /\
  (forall k, Z.of_nat (occurrences k (map key (files_gone removal))) = Z.of_nat (size (names_of_file f k)) - Z.of_nat (size (names_of_file f' k))) /\
  (outcome removal = Ok tt -> forall p : Path, starts_with p root = true -> tree f' !! p = None).
Proof.
  intros Hf Hr. unfold remove_tree_reporting. destruct (list_tree identify f root) as [listed count] eqn:El.
  assert (Hlisted : listed = (list_tree identify f root).1) by by rewrite El. destruct (remove_all f root) as [r0 f0] eqn:E.
  pose proof (remove_all_ok f root r0 f0 E) as (Hout & Hall & Hin). pose proof (well_founded_remove_all f root r0 f0 Hf E) as Hf0.
  pose proof (fun p n => lookup_remove_all f root r0 f0 p n E) as Hsub.
  pose proof (fun k => names_split f f0 root k Hout Hsub) as Hsplit.
  destruct r0 as [u|[|]]; [| |destruct (list_tree identify f0 root) as [survivors surviving] eqn:E0];
    intros [= <- <-]; cbn [files_gone outcome]; (do 4 (split; [done|])).
  1, 2: (split; [intros t Ht; apply elem_of_list_tree; [done..|by rewrite <- Hlisted]|]); split; [|by intros _ p Hp; apply (Hall ltac:(done) p Hp)];
    intros k; destruct (Hsplit k) as [-> _]; rewrite Hlisted, occurrences_list_tree by done;
    assert (names_under f0 root k = ∅) as ->;
    [apply set_eq; intros p; unfold names_under; rewrite elem_of_filter, elem_of_names; split; [|by intros ?%elem_of_empty];
     intros [Hs Ht]; rewrite (Hall ltac:(done) p Hs Hf Hr) in Ht; done|rewrite size_empty; lia].
  assert (Hs0 : survivors = (list_tree identify f0 root).1) by by rewrite E0. split; [|split; [|done]].
  - intros t Ht. apply elem_of_list_tree; [done..|]. rewrite <- Hlisted. apply list_elem_of_In. eapply retain_sublist. by apply list_elem_of_In.
  - intros k. destruct (Hsplit k) as [-> Hle]. rewrite occurrences_retain.
    + rewrite occurrences_counts, lookup_empty, Hlisted, Hs0, !occurrences_list_tree by done. simpl. lia.
    + intros k0. rewrite occurrences_counts, lookup_empty. simpl. lia.
Qed.
End Account.
