(* ===== verification/Incremental.v ===== *)
(** * Learned incremental state

    The directories rustc keeps incremental state in and their collection:
    [mbx/src/incremental.rs], with what it uses of [retired.rs] and
    [disk_usage.rs], on the filesystem of HardLinks.v.

    [root]/[checkout]/blake3/[unit]/[crate]/s-... are the sessions of a unit of
    a checkout.  [Inodes] weighs each file once however many names it has;
    [snapshot] measures everything, each session, unit and record as an owner
    of its own; [collect] retires and removes units nobody uses, oldest first,
    trims finished sessions of units in use, and drops the checkouts whose
    workspace is gone, crediting only files whose last name went.

    The class [Machine] holds what others decide: the JSON of a checkout record,
    whether a workspace is still there, which lock files cannot be opened, and
    what other processes do before the collection turns to a unit.  Locks are
    taken and dropped within a step of the collection, so they are sets in
    [World], not steps; the lock directory is not part of the tree. *)

From stdpp Require Import base list gmap sets strings sorting.
From Stdlib Require Import ZArith Lia Ascii.
From S2P Require Import Prelude Strings PathMap RustcArgs HardLinks TreeRemoval.
Local Open Scope Z_scope.

Definition SESSION_START_GRACE_SECS : Z := 60.
Definition USE_STAMP_EXTENSION : string := "use".
Definition HOT_FLOOR_SECS : Z := 60 * 60.
Definition RECORD_FILE : string := "checkout.json".
Definition RECORD_VERSION : Z := 1.
Definition LOCKS_DIR : string := ".locks".

(** ** Which bytes are held *)

(** Of each file measured, its length and how many owners hold it; and the
    bytes of the files some owner holds. *)
Record Inodes := mkInodes { files : gmap FileKey (Z * Z); bytes : Z }.

Definition no_inodes : Inodes := mkInodes ∅ 0.

(** A file a walk comes upon. *)
Definition meet (f : Files) (p : Path) (n : Node) (s : gmap FileKey (Z * Z) * gset FileKey)
    : gmap FileKey (Z * Z) * gset FileKey :=
  match n with
  | File k => (match s.1 !! k with Some _ => s.1 | None => <[k := (length_of f k, 0)]> s.1 end, {[ k ]} ∪ s.2)
  | _ => s
  end.

(** One more owner; the file was measured. *)
Definition reference (i : Inodes) (k : FileKey) : Inodes :=
  match files i !! k with
  | Some (length, references) =>
      mkInodes (<[k := (length, references + 1)]> (files i))
        (if references =? 0 then saturating_add (bytes i) length else bytes i)
  | None => i
  end.

Definition measure `{Os} (f : Files) (i : Inodes) (root : Path) (excluded : gset Path) : list FileKey * Inodes :=
  let '(met, keys) :=
    visit_tree (rounds f) f (fun p => bool_decide (p ∈ excluded)) (meet f) [root] (files i, ∅) in
  (elements keys, fold_left reference (elements keys) (mkInodes met (bytes i))).

Definition release_one (i : Inodes) (k : FileKey) : Inodes :=
  match files i !! k with
  | Some (length, references) =>
      if references =? 0 then i
      else mkInodes (<[k := (length, references - 1)]> (files i))
             (if references - 1 =? 0 then saturating_sub (bytes i) length else bytes i)
  | None => i
  end.

Definition release (i : Inodes) (keys : list FileKey) : Inodes := fold_left release_one keys i.

Definition forget (i : Inodes) (k : FileKey) : Inodes :=
  match files i !! k with
  | Some (length, references) =>
      if 0 <? references then mkInodes (<[k := (length, 0)]> (files i)) (saturating_sub (bytes i) length) else i
  | None => i
  end.

(** ** Trees *)

Section Trees.
Context `{Os}.

(** The size of a tree, each file once. *)
Definition tree_bytes (f : Files) (root : Path) : Z := bytes (measure f no_inodes root ∅).2.

(** The sizes of every file, each link counted. *)
Definition listed_bytes (f : Files) (root : Path) : Z :=
  visit_tree (rounds f) f (fun _ => false)
    (fun _ n total => match n with File k => saturating_add total (length_of f k) | _ => total end) [root] 0.

Definition exceeds_backstop (f : Files) (unit : Path) (budget : option Z) : bool :=
  is_some_and (fun budget => (budget / 2 <? listed_bytes f unit) && (budget / 2 <? tree_bytes f unit)) budget.

(** [file_identity], of a file: its key and how many links it has. *)
Definition file_identity (f : Files) (p : Path) (n : Node) : option (FileKey * Z) :=
  match n with File k => Some (k, nlink f k) | _ => None end.

(** The links a removal took, and how many there were. *)
Definition tally (removed : gmap FileKey (Z * Z)) (x : FileKey * Z) : gmap FileKey (Z * Z) :=
  let '(paths, links) := default (0, x.2) (removed !! x.1) in <[x.1 := (paths + 1, links)]> removed.

(** [incremental::remove_tree]. *)
Definition remove_tree (f : Files) (directory : Path) (dry_run : bool) (i : Inodes) : bool * Files * Inodes :=
  if dry_run then (true, f, i)
  else
    let '(removal, f) := remove_tree_reporting file_identity fst f directory in
    let removed := fold_left tally (files_gone removal) ∅ in
    let i := fold_left (fun i x => if (x.2.2 <=? x.2.1) then forget i x.1 else i) (map_to_list removed) i in
    (is_ok (outcome removal), f, i).

(** ** Retired trees *)

Definition is_retired_name (name : string) : bool :=
  match to_str name with
  | None => false
  | Some name =>
      is_some_and (fun '(live, suffix) =>
        negb (String.eqb live "") &&
        is_some_and (fun '(pid, random) =>
          negb (String.eqb pid "") && all_chars is_ascii_digit pid &&
          negb (String.eqb random "") && all_chars is_ascii_alphanumeric random)
          (split_once "-"%char suffix))
        (rsplit_str ".retired-" name)
  end.

Definition retired_at (p : Path) : bool := is_some_and is_retired_name (file_name p).

Definition with_file_name (p : Path) (name : string) : Path :=
  match file_name p with Some _ => child (removelast p) name | None => child p name end.

(** [RetiredTree::retire]; the modes of files are not modelled. *)
Definition retire (f : Files) (live : Path) : result FileError (option Path) * Files :=
  match file_name live with
  | None => (Err Refused, f)
  | Some name =>
      let '(pid, random) := retired_suffix f live in
      let retired := with_file_name live (name ++ ".retired-" ++ pid ++ "-" ++ random)%string in
      match rename f live retired with
      | Ok f' => (Ok (Some retired), f')
      | Err Missing => (Ok None, f)
      | Err Refused => (Err Refused, f)
      end
  end.

Definition retired_children (f : Files) (parent : Path) : list Path :=
  List.filter retired_at (nested_entries f parent).

Definition at_locks (p : Path) : bool := bool_decide (file_name p = Some LOCKS_DIR).

(** The directory entries of the root that are checkouts. *)
Definition is_checkout (f : Files) (p : Path) : bool :=
  is_some_and is_folder (symlink_metadata f p) && negb (at_locks p) && negb (retired_at p).

Definition retired_trees (f : Files) (root : Path) : list Path :=
  (retired_children f root ++
   flat_map (fun p => if is_checkout f p then retired_children f (child p "blake3") else [])
     (nested_entries f root))%list.

(** Per file: its length, the links seen and the links there are. *)
Definition see (f : Files) (p : Path) (n : Node) (seen : gmap FileKey (Z * Z * Z)) : gmap FileKey (Z * Z * Z) :=
  match n with
  | File k =>
      let '(length, count, links) := default (length_of f k, 0, nlink f k) (seen !! k) in
      <[k := (length, count + 1, links)]> seen
  | _ => seen
  end.

Definition reclaimable (f : Files) (trees : list Path) : Z :=
  let seen := fold_left (fun seen t => visit_tree (rounds f) f (fun _ => false) (see f) [t] seen) trees ∅ in
  sumZ (map (fun x => x.2.1.1) (List.filter (fun x => x.2.2 <=? x.2.1.2) (map_to_list seen))).

Definition sweep_retired (f : Files) (root : Path) (dry_run : bool) : Z * Files :=
  let trees := retired_trees f root in
  if dry_run then (reclaimable f trees, f)
  else
    let i := fold_left (fun i t => (measure f i t ∅).2) trees no_inodes in
    let '(f, remaining) := fold_left (fun '(f, i) t => let '(_, f, i) := remove_tree f t false i in (f, i)) trees (f, i) in
    (saturating_sub (bytes i) (bytes remaining), f).

(** ** Units and sessions *)

Record Session := mkSession { s_directory : Path; s_lock : Path; s_files : list FileKey }.

Record Unit := mkUnit {
  u_directory : Path;
  u_files : list FileKey;
  last_used : Z;
  sessions : list Session;
  records : list Path;
  record_files : list FileKey
}.

Definition BILLION : Z := 1000000000.
(** [duration_since(UNIX_EPOCH)] in seconds, if it is after. *)
Definition since_epoch (t : Z) : option Z := if 0 <=? t then Some (t / BILLION) else None.

Definition is_seeding (directory : Path) : bool := is_some_and (contains ".seeding-") (file_name directory).
Definition use_stamp_path (unit : Path) : Path := with_extension unit USE_STAMP_EXTENSION.

Definition is_unfinished_session (name : string) : bool :=
  is_some_and (fun name => is_some (strip_prefix "s-" name) && ends_in "-working" name) (to_str name).

(** The name up to its third dash. *)
Definition session_lock_name (session : string) : option string :=
  name ← to_str session;
  '(a, rest) ← split_once "-"%char name;
  '(b, rest) ← split_once "-"%char rest;
  '(c, _) ← split_once "-"%char rest;
  Some (a ++ "-" ++ b ++ "-" ++ c ++ ".lock")%string.

Definition option_max (a b : option Z) : option Z :=
  match a, b with Some a, Some b => Some (Z.max a b) | Some a, None => Some a | None, b => b end.

Definition max_of (l : list Z) : option Z := fold_left (fun m t => option_max m (Some t)) l None.

Definition file_name_of (p : Path) : string := default "" (file_name p).

(** [last_used], of a directory. *)
Definition unit_last_used (f : Files) (directory : Path) : option Z :=
  n ← metadata f directory;
  if negb (is_folder n) then None
  else
    let stamp := if is_seeding directory then None else modified f <$> metadata f (use_stamp_path directory) in
    let krates := List.filter (fun p => is_some_and is_folder (symlink_metadata f p)) (nested_entries f directory) in
    let found := List.filter (fun p => is_some (strip_prefix "s-" (file_name_of p))) (flat_map (nested_entries f) krates) in
    let times := omap (fun p => n ← symlink_metadata f p; if is_folder n then Some (modified f n) else None) found in
    let used := option_max (option_or (max_of times) (Some (modified f n))) stamp in
    Some (default 0 (used ≫= since_epoch)).

Definition session_before (a b : Z * Path * Path) : Prop :=
  if a.1.1 =? b.1.1 then
    if bool_decide (a.1.2 = b.1.2) then path_le a.2 b.2 = true else path_le a.1.2 b.1.2 = true
  else a.1.1 <= b.1.1.
#[export] Instance session_before_dec : RelDecision session_before.
Proof. intros a b. unfold session_before. repeat case_match; apply _. Defined.

(** The finished sessions of a crate's directory. *)
Definition crate_sessions (f : Files) (krate : Path) : list (Z * Path * Path) :=
  omap (fun session =>
    lock ← session_lock_name (file_name_of session);
    if negb (is_some (strip_prefix "s-" (file_name_of session))) || is_unfinished_session (file_name_of session) then None
    else
      n ← symlink_metadata f session;
      if is_folder n then Some (modified f n, session, child krate lock) else None) (nested_entries f krate).

Definition finished_sessions (f : Files) (unit : Path) : list (Path * Path) :=
  let krates := List.filter (fun p => is_some_and is_folder (symlink_metadata f p)) (nested_entries f unit) in
  map (fun x => (x.1.2, x.2)) (merge_sort session_before (flat_map (crate_sessions f) krates)).

Fixpoint measure_sessions (f : Files) (i : Inodes) (l : list (Path * Path)) : list Session * Inodes :=
  match l with
  | [] => ([], i)
  | (session, lock) :: l =>
      let '(keys, i) := measure f i session ∅ in
      let '(rest, i) := measure_sessions f i l in
      (mkSession session lock keys :: rest, i)
  end.

Fixpoint measure_records (f : Files) (i : Inodes) (l : list Path) : list FileKey * Inodes :=
  match l with
  | [] => ([], i)
  | record :: l =>
      let '(keys, i) := measure f i record ∅ in
      let '(rest, i) := measure_records f i l in
      ((keys ++ rest)%list, i)
  end.

Definition measure_unit (f : Files) (i : Inodes) (directory : Path) : option Unit * Inodes :=
  match unit_last_used f directory with
  | None => (None, i)
  | Some used =>
      let records := if is_seeding directory then [] else [with_extension directory "json"; use_stamp_path directory] in
      let '(found, i) := measure_sessions f i (finished_sessions f directory) in
      let '(keys, i) := measure f i directory (list_to_set (map s_directory found)) in
      let '(record_keys, i) := measure_records f i records in
      (Some (mkUnit directory (keys ++ flat_map s_files found) used found records record_keys), i)
  end.

(** A checkout's units, and the last-use stamps whose unit is gone. *)
Fixpoint units_of (f : Files) (i : Inodes) (l : list Path) : list Unit * list (Path * list FileKey) * Inodes :=
  match l with
  | [] => ([], [], i)
  | p :: l =>
      if retired_at p then units_of f i l
      else
        match symlink_metadata f p with
        | Some (Folder _) =>
            let '(unit, i) := measure_unit f i p in
            let '(units, orphans, i) := units_of f i l in
            (match unit with Some unit => unit :: units | None => units end, orphans, i)
        | Some (File _) =>
            if bool_decide (extension p = Some USE_STAMP_EXTENSION) && negb (is_some (metadata f (with_extension p ""))) then
              let '(keys, i) := measure f i p ∅ in
              let '(units, orphans, i) := units_of f i l in
              (units, (p, keys) :: orphans, i)
            else units_of f i l
        | _ => units_of f i l
        end
  end.

Definition units (f : Files) (i : Inodes) (directory : Path) : list Unit * list (Path * list FileKey) * Inodes :=
  units_of f i (nested_entries f (child directory "blake3")).

End Trees.

(** ** The machine *)

(** The files of the root (but for its lock directory), the checkouts other
    processes and this one hold leases on, by key, whether a lease was ever
    registered, the lock files compilers and seeds hold, and the time in
    seconds. *)
Record World := mkWorld {
  fs : Files;
  leases : gset string;
  own_leases : gset string;
  registrar : bool;
  held : gset Path;
  seconds : Z
}.

(** The machine a collection runs on, and what others do before it turns to a
    unit. *)
Class Machine `{Os} := {
  parse_record : string -> option (Z * Path);
  checkout_is_live_on : World -> Path -> bool;
  guard_fails : World -> string -> bool;
  lease_fails : World -> string -> bool;
  lock_fails : World -> Path -> bool;
  meanwhile : Path -> World -> World
}.

Definition with_fs (w : World) (f : Files) : World := mkWorld f (leases w) (own_leases w) (registrar w) (held w) (seconds w).
Definition with_lease (w : World) (key : string) : World :=
  mkWorld (fs w) (leases w) ({[ key ]} ∪ own_leases w) true (held w) (seconds w).
(** The leases are dropped. *)
Definition without_leases (w : World) : World :=
  mkWorld (fs w) (leases w) ∅ (registrar w) (held w) (seconds w).

Section Collect.
Context `{Machine} (root : Path).

Definition read_record (f : Files) (p : Path) : option Path :=
  match metadata f p with
  | Some (File k) =>
      '(version, workspace) ← parse_record (text (inode f k));
      if version =? RECORD_VERSION then Some workspace else None
  | _ => None
  end.

(** ** The snapshot *)

Record Entry := mkEntry {
  key : string;
  directory : Path;
  e_units : list Unit;
  orphan_stamps : list (Path * list FileKey);
  e_files : list FileKey;
  workspace_root : option Path
}.

Definition entry_of (f : Files) (i : Inodes) (p : Path) : Entry * Inodes :=
  let record := read_record f (child p RECORD_FILE) in
  let '(found, orphans, i) := units f i p in
  let excluded : gset Path :=
    list_to_set (map u_directory found ++ flat_map records found ++ map fst orphans ++ retired_children f (child p "blake3")) in
  let '(keys, i) := measure f i p excluded in
  (mkEntry (file_name_of p) p found orphans keys record, i).

Fixpoint entries_of (f : Files) (i : Inodes) (l : list Path) : list Entry * Inodes :=
  match l with
  | [] => ([], i)
  | p :: l =>
      if is_checkout f p then
        let '(entry, i) := entry_of f i p in
        let '(rest, i) := entries_of f i l in
        (entry :: rest, i)
      else entries_of f i l
  end.

(** [entries]; a root that is missing holds nothing. *)
Definition snapshot (f : Files) (include_retired : bool) : result FileError (list Entry * Inodes) :=
  match read_directory f root with
  | Err Missing => Ok ([], no_inodes)
  | Err e => Err e
  | Ok names =>
      let '(found, i) := entries_of f no_inodes (map (child root) names) in
      Ok (found, if include_retired then fold_left (fun i t => (measure f i t ∅).2) (retired_trees f root) i else i)
  end.

(** ** Who uses what *)

(** [deletion_guard]: whether some process may be using the checkout. *)
Definition deletion_guard (w : World) (key : string) (cleanup : bool) : option bool :=
  if negb cleanup && negb (registrar w) then Some false
  else if guard_fails w key then None
  else Some (bool_decide (key ∈ leases w ∪ own_leases w)).

Definition age_of (now : Z) (f : Files) (n : Node) : Z := saturating_sub now (default now (since_epoch (modified f n))).

(** What one entry beneath a unit says: a session or a lock made in the last
    minute, and the lock files. *)
Definition inspect (now : Z) (f : Files) (unit p : Path) (n : Node) (s : bool * list Path) : bool * list Path :=
  if bool_decide (p = unit) then s
  else
    let name := file_name_of p in
    let session := is_folder n && is_some (strip_prefix "s-" name) in
    let lock := is_regular n && is_some (strip_prefix "s-" name) && ends_in ".lock" name in
    (s.1 || ((session || lock) && (age_of now f n <=? SESSION_START_GRACE_SECS)),
     if lock then (s.2 ++ [p])%list else s.2).

(** [unit_locks]: whether every lock beneath the unit could be taken. *)
Definition unit_locks (w : World) (unit : Path) (dry_run : bool) : bool :=
  if is_seeding unit &&
     is_some_and (fun n => age_of (seconds w) (fs w) n <=? SESSION_START_GRACE_SECS) (metadata (fs w) unit)
  then false
  else
    let '(recent, locks) :=
      visit_tree (rounds (fs w)) (fs w) (fun _ => false) (inspect (seconds w) (fs w) unit) [unit] (false, []) in
    negb recent &&
    (dry_run || forallb (fun lock => negb (lock_fails w lock) && negb (bool_decide (lock ∈ held w))) locks).

(** Past the grace a starting compiler gets. *)
Definition session_is_settled (w : World) (session : Session) (now : Z) : bool :=
  forallb (fun p =>
    is_some_and (fun n => SESSION_START_GRACE_SECS <? age_of now (fs w) n) (symlink_metadata (fs w) p))
    [s_directory session; s_lock session].

Definition unfinished_name (lock : Path) : Path :=
  with_file_name (with_extension lock "") (file_name_of (with_extension lock "") ++ "-working")%string.

(** [evict_session]. *)
Definition evict_session (w : World) (session : Session) (i : Inodes) : option bool * World * Inodes :=
  let f := fs w in
  if negb (is_some_and is_regular (symlink_metadata f (s_lock session))) then (None, w, i)
  else if lock_fails w (s_lock session) || bool_decide (s_lock session ∈ held w) then (None, w, i)
  else if negb (is_some_and is_folder (symlink_metadata f (s_directory session))) then (None, w, i)
  else
    let unfinished := unfinished_name (s_lock session) in
    let '(renamed, f, i) :=
      match rename f (s_directory session) unfinished with
      | Ok f => (true, f, i)
      | Err _ =>
          if is_some_and is_folder (symlink_metadata f unfinished) then
            let '(removed, f, i) := remove_tree f unfinished false i in
            if removed : bool then
              match rename f (s_directory session) unfinished with Ok f => (true, f, i) | Err _ => (false, f, i) end
            else (false, f, i)
          else (false, f, i)
      end in
    if negb renamed then (None, with_fs w f, i)
    else
      let '(removed, f, i) := remove_tree f unfinished false i in
      let f := if removed : bool then match remove_file f (s_lock session) with Ok f => f | Err _ => f end else f in
      (Some removed, with_fs w f, i).

(** ** The collection *)

Record PruneOutcome := mkOutcome {
  removed_units : Z;
  remaining_units : Z;
  skipped_active_units : Z;
  removed_directories : Z;
  removed_bytes : Z;
  remaining_directories : Z;
  remaining_bytes : Z;
  skipped_active_directories : Z;
  untracked_directories : Z;
  removed_sessions : Z;
  session_units : gset Path;
  kept_hot_units : Z
}.

(** What the loops change. *)
Record Sweep := mkSweep {
  world : World;
  ledger : Inodes;
  remaining : gmap nat Z;
  active : gset nat;
  removed : gset Path;
  kept_records : gset nat;
  trimming : gset string;
  n_units : Z;
  n_skipped : Z;
  n_sessions : Z;
  trimmed : gset Path;
  n_hot : Z;
  n_directories : Z
}.

Definition set_world (s : Sweep) (w : World) : Sweep :=
  mkSweep w (ledger s) (remaining s) (active s) (removed s) (kept_records s) (trimming s)
    (n_units s) (n_skipped s) (n_sessions s) (trimmed s) (n_hot s) (n_directories s).
Definition set_ledger (s : Sweep) (i : Inodes) : Sweep :=
  mkSweep (world s) i (remaining s) (active s) (removed s) (kept_records s) (trimming s)
    (n_units s) (n_skipped s) (n_sessions s) (trimmed s) (n_hot s) (n_directories s).
Definition set_fs (s : Sweep) (f : Files) : Sweep := set_world s (with_fs (world s) f).
Definition mark_active (s : Sweep) (index : nat) : Sweep :=
  mkSweep (world s) (ledger s) (remaining s) ({[ index ]} ∪ active s) (removed s) (kept_records s) (trimming s)
    (n_units s) (n_skipped s) (n_sessions s) (trimmed s) (n_hot s) (n_directories s).
Definition keep_record (s : Sweep) (index : nat) : Sweep :=
  mkSweep (world s) (ledger s) (remaining s) (active s) (removed s) ({[ index ]} ∪ kept_records s) (trimming s)
    (n_units s) (n_skipped s) (n_sessions s) (trimmed s) (n_hot s) (n_directories s).
Definition lease_taken (s : Sweep) (k : string) : Sweep :=
  mkSweep (with_lease (world s) k) (ledger s) (remaining s) (active s) (removed s) (kept_records s) ({[ k ]} ∪ trimming s)
    (n_units s) (n_skipped s) (n_sessions s) (trimmed s) (n_hot s) (n_directories s).
Definition skip_unit (s : Sweep) : Sweep :=
  mkSweep (world s) (ledger s) (remaining s) (active s) (removed s) (kept_records s) (trimming s)
    (n_units s) (n_skipped s + 1) (n_sessions s) (trimmed s) (n_hot s) (n_directories s).
Definition keep_hot (s : Sweep) : Sweep :=
  mkSweep (world s) (ledger s) (remaining s) (active s) (removed s) (kept_records s) (trimming s)
    (n_units s) (n_skipped s) (n_sessions s) (trimmed s) (n_hot s + 1) (n_directories s).
Definition session_gone (s : Sweep) : Sweep :=
  mkSweep (world s) (ledger s) (remaining s) (active s) (removed s) (kept_records s) (trimming s)
    (n_units s) (n_skipped s) (n_sessions s + 1) (trimmed s) (n_hot s) (n_directories s).
Definition unit_trimmed (s : Sweep) (unit : Path) : Sweep :=
  mkSweep (world s) (ledger s) (remaining s) (active s) (removed s) (kept_records s) (trimming s)
    (n_units s) (n_skipped s) (n_sessions s) ({[ unit ]} ∪ trimmed s) (n_hot s) (n_directories s).
Definition unit_gone (s : Sweep) (index : nat) (unit : Path) : Sweep :=
  mkSweep (world s) (ledger s) (<[index := default 0 (remaining s !! index) - 1]> (remaining s)) (active s)
    ({[ unit ]} ∪ removed s) (kept_records s) (trimming s)
    (n_units s + 1) (n_skipped s) (n_sessions s) (trimmed s) (n_hot s) (n_directories s).
Definition directory_gone (s : Sweep) : Sweep :=
  mkSweep (world s) (ledger s) (remaining s) (active s) (removed s) (kept_records s) (trimming s)
    (n_units s) (n_skipped s) (n_sessions s) (trimmed s) (n_hot s) (n_directories s + 1).

Context (max_bytes max_age : option Z) (dry_run hot_floor : bool) (backstop_budget : option Z) (now : Z).

Definition expired (u : Unit) : bool :=
  is_some_and (fun age => age <? saturating_sub now (last_used u)) max_age.
Definition satisfied (u : Unit) (bytes : Z) : bool :=
  negb (expired u) && is_none_or (fun budget => bytes <=? budget) max_bytes.

(** The order of collection: expired first, then by last use, then by name. *)
Definition unit_before (a b : nat * Unit) : Prop :=
  if Bool.eqb (expired a.2) (expired b.2) then
    if last_used a.2 =? last_used b.2 then path_le (u_directory a.2) (u_directory b.2) = true
    else last_used a.2 <= last_used b.2
  else expired a.2 = true.
#[export] Instance unit_before_dec : RelDecision unit_before.
Proof. intros a b. unfold unit_before. repeat case_match; apply _. Defined.

(** The sessions of a unit in use, oldest first, until the budget is met. *)
Fixpoint trim_sessions (u : Unit) (l : list Session) (s : Sweep) (evicted : bool) : Sweep * bool :=
  match l with
  | [] => (s, evicted)
  | session :: l =>
      if satisfied u (bytes (ledger s)) then (s, evicted)
      else if negb (session_is_settled (world s) session now) then trim_sessions u l s evicted
      else if dry_run then
        trim_sessions u l (session_gone (set_ledger s (release (ledger s) (s_files session)))) true
      else
        let '(r, w, i) := evict_session (world s) session (ledger s) in
        let s := set_ledger (set_world s w) i in
        match r with
        | Some true => trim_sessions u l (session_gone s) true
        | Some false => trim_sessions u l s true
        | None => trim_sessions u l s evicted
        end
  end.

Definition is_hot (w : World) (u : Unit) : bool :=
  hot_floor && negb (expired u) && (saturating_sub now (last_used u) <? HOT_FLOOR_SECS) &&
  negb (exceeds_backstop (fs w) (u_directory u) backstop_budget).

(** [lease_for_trimming]. *)
Definition lease_for_trimming (s : Sweep) (k : string) : option Sweep :=
  if bool_decide (k ∈ trimming s) then Some s
  else if lease_fails (world s) k then None else Some (lease_taken s k).

(** A unit of a checkout in use. *)
Definition trim_unit (e : Entry) (u : Unit) (s : Sweep) : Sweep :=
  if is_hot (world s) u then keep_hot s
  else
    match (if dry_run then Some s else lease_for_trimming s (key e)) with
    | None => skip_unit s
    | Some s =>
        let '(s, evicted) := trim_sessions u (if is_seeding (u_directory u) then [] else sessions u) s false in
        if evicted : bool then unit_trimmed s (u_directory u) else skip_unit s
    end.

(** The records beside a unit, until one cannot be retired. *)
Fixpoint retire_records (f : Files) (l : list Path) (retired : list (Path * Path)) : bool * list (Path * Path) * Files :=
  match l with
  | [] => (true, retired, f)
  | record :: l =>
      match retire f record with
      | (Ok (Some tree), f) => retire_records f l (retired ++ [(record, tree)])%list
      | (Ok None, f) => retire_records f l retired
      | (Err _, f) => (false, retired, f)
      end
  end.

Definition restore_unit_records (f : Files) (l : list (Path * Path)) : Files :=
  fold_left (fun f x => match rename f x.2 x.1 with Ok f => f | Err _ => f end) l f.

Fixpoint remove_trees (f : Files) (i : Inodes) (l : list Path) : bool * Files * Inodes :=
  match l with
  | [] => (true, f, i)
  | p :: l =>
      let '(gone, f, i) := remove_tree f p false i in
      let '(rest, f, i) := remove_trees f i l in
      (gone && rest, f, i)
  end.

(** A unit nobody uses: retired and then removed. *)
Definition remove_unit (index : nat) (u : Unit) (s : Sweep) : Sweep :=
  if dry_run then
    unit_gone (set_ledger s (release (release (ledger s) (u_files u)) (record_files u))) index (u_directory u)
  else
    let '(ok, retired, f) := retire_records (fs (world s)) (records u) [] in
    if negb ok then keep_record (set_fs s (restore_unit_records f retired)) index
    else
      match retire f (u_directory u) with
      | (Err _, f) => keep_record (set_fs s (restore_unit_records f retired)) index
      | (Ok tree, f) =>
          let '(gone, f, i) :=
            match tree with Some tree => remove_tree f tree false (ledger s) | None => (true, f, ledger s) end in
          if negb gone then set_ledger (set_fs s f) i
          else
            let '(all, f, i) := remove_trees f i (map snd retired) in
            let s := set_ledger (set_fs s f) i in
            unit_gone (if all : bool then s else keep_record s index) index (u_directory u)
      end.

Definition collect_unit (e : Entry) (index : nat) (u : Unit) (s : Sweep) : Sweep :=
  match deletion_guard (world s) (key e) (negb dry_run) with
  | None => s
  | Some true => trim_unit e u (mark_active s index)
  | Some false =>
      if unit_locks (world s) (u_directory u) dry_run then remove_unit index u s
      else skip_unit (mark_active s index)
  end.

Fixpoint collect_units (found : list Entry) (l : list (nat * Unit)) (s : Sweep) : Sweep :=
  match l with
  | [] => s
  | (index, u) :: l =>
      if satisfied u (bytes (ledger s)) then s
      else
        let s := set_world s (meanwhile (u_directory u) (world s)) in
        collect_units found l
          (match found !! index with Some e => collect_unit e index u s | None => s end)
  end.

(** ** After the units *)

Fixpoint remove_stamps (l : list (Path * list FileKey)) (s : Sweep) : Sweep :=
  match l with
  | [] => s
  | (stamp, keys) :: l =>
      let '(gone, f, i) := remove_tree (fs (world s)) stamp dry_run (ledger s) in
      remove_stamps l (set_ledger (set_fs s f) (if gone && dry_run then release i keys else i))
  end.

(** The stamps whose unit is gone. *)
Fixpoint collect_stamps (found : list Entry) (s : Sweep) : Sweep :=
  match found with
  | [] => s
  | e :: found =>
      collect_stamps found
        (if is_none (workspace_root e) then s
         else match orphan_stamps e with
              | [] => s
              | stamps =>
                  match deletion_guard (world s) (key e) (negb dry_run) with
                  | Some false => remove_stamps stamps s
                  | _ => s
                  end
              end)
  end.

(** [unlink_retired_checkout_record]. *)
Definition unlink_retired_checkout_record (f : Files) (tree : Path) (i : Inodes)
    : result FileError unit * Files * Inodes :=
  let p := child tree RECORD_FILE in
  match symlink_metadata f p with
  | None => (Ok tt, f, i)
  | Some n =>
      match remove_file f p with
      | Err Missing => (Ok tt, f, i)
      | Err Refused => (Err Refused, f, i)
      | Ok f' =>
          (Ok tt, f',
           match n with File k => if nlink f k =? 1 then forget i k else i | _ => i end)
      end
  end.

(** A unit another process added since the snapshot. *)
Definition has_new_unit (s : Sweep) (e : Entry) : bool :=
  existsb (fun p =>
    is_some_and is_folder (symlink_metadata (fs (world s)) p) && negb (retired_at p) &&
    (negb dry_run || negb (bool_decide (p ∈ removed s))))
    (nested_entries (fs (world s)) (child (directory e) "blake3")).

Inductive CollectError := CannotList | CannotRestore (directory : Path).

(** An empty checkout whose workspace is deleted. *)
Definition remove_checkout (e : Entry) (s : Sweep) : result CollectError Sweep :=
  if dry_run then Ok (directory_gone (set_ledger s (release (ledger s) (e_files e))))
  else
    match retire (fs (world s)) (directory e) with
    | (Err _, _) => Ok s
    | (Ok None, f) => Ok (directory_gone (set_fs s f))
    | (Ok (Some tree), f) =>
        match unlink_retired_checkout_record f tree (ledger s) with
        | (Err _, f, i) =>
            match rename f tree (directory e) with
            | Ok f => Ok (set_ledger (set_fs s f) i)
            | Err _ => Err (CannotRestore (directory e))
            end
        | (Ok _, f, i) =>
            let '(gone, f, i) := remove_tree f tree false i in
            let s := set_ledger (set_fs s f) i in
            Ok (if gone : bool then directory_gone s else s)
        end
    end.

Fixpoint collect_checkouts (found : list Entry) (index : nat) (s : Sweep) : result CollectError Sweep :=
  match found with
  | [] => Ok s
  | e :: found =>
      s ← match workspace_root e with
          | None => Ok s
          | Some workspace =>
              if negb (default 0 (remaining s !! index) =? 0) || bool_decide (index ∈ kept_records s) ||
                 checkout_is_live_on (world s) workspace then Ok s
              else
                match deletion_guard (world s) (key e) (negb dry_run) with
                | None => Ok s
                | Some true => Ok (mark_active s index)
                | Some false => if has_new_unit s e then Ok s else remove_checkout e s
                end
          end;
      collect_checkouts found (S index) s
  end.

End Collect.

Section Collection.
Context `{Machine} (root : Path).

(** The units of tracked checkouts, with the index of their checkout. *)
Definition candidates (found : list Entry) : list (nat * Unit) :=
  flat_map (fun x => if is_none (workspace_root x.2) then [] else map (pair x.1) (e_units x.2))
    (zip (seq 0 (length found)) found).

Definition unit_counts (found : list Entry) : gmap nat Z :=
  list_to_map (zip (seq 0 (length found)) (map (fun e => Z.of_nat (length (e_units e))) found)).

Definition start_sweep (w : World) (i : Inodes) (found : list Entry) : Sweep :=
  mkSweep w i (unit_counts found) ∅ ∅ ∅ ∅ 0 0 0 ∅ 0 0.

(** What is reported, of the sweep as it began and as it ended. *)
Definition report (found : list Entry) (swept : Z) (before : Inodes) (s : Sweep) : PruneOutcome :=
  mkOutcome (n_units s)
    (sumZ (map (fun e => Z.of_nat (length (e_units e))) found) - n_units s)
    (n_skipped s) (n_directories s)
    (saturating_add (saturating_sub (bytes before) (bytes (ledger s))) swept)
    (Z.of_nat (length found) - n_directories s)
    (bytes (ledger s))
    (Z.of_nat (size (active s)))
    (Z.of_nat (length (List.filter (fun e => is_none (workspace_root e)) found)))
    (n_sessions s) (trimmed s) (n_hot s).

(** [collect]. *)
Definition collect (max_bytes max_age : option Z) (dry_run hot_floor : bool) (backstop_budget : option Z) (w : World)
    : result CollectError (PruneOutcome * World) :=
  let '(swept, f) := sweep_retired (fs w) root dry_run in
  let w := with_fs w f in
  let now := seconds w in
  match snapshot root f (negb dry_run) with
  | Err _ => Err CannotList
  | Ok (found, i) =>
      let order := merge_sort (unit_before max_age now) (candidates found) in
      let s := collect_units max_bytes max_age dry_run hot_floor backstop_budget now found order (start_sweep w i found) in
      let s := collect_stamps dry_run found s in
      s ← collect_checkouts dry_run found 0 s;
      Ok (report found swept i s, without_leases (world s))
  end.
End Collection.
