(* ===== verification/IncrementalLedger.v ===== *)
(** * The ledger of learned incremental state

    What a removal and a rename do to the names of files, and the invariant of
    [Incremental.Inodes] through them: the files it says have an owner are those
    that still have a name, and their bytes are what it reports. *)

From stdpp Require Import base list gmap sets strings sorting.
From Stdlib Require Import ZArith Lia Ascii.
From S2P Require Import Prelude Strings PathMap RustcArgs HardLinks TreeRemoval Incremental.
Local Open Scope Z_scope.

(** ** The ledger *)

(** The bytes of the files with an owner. *)
Definition held_bytes (m : gmap FileKey (Z * Z)) : Z :=
  sumZ (map (fun x => if 0 <? x.2.2 then x.2.1 else 0) (map_to_list m)).

(** The bytes of some files. *)
Definition weigh (f : Files) (keys : gset FileKey) : Z := sumZ (map (length_of f) (elements keys)).

Lemma length_of_nonneg f k : 0 <= length_of f k.
Proof. unfold length_of. lia. Qed.

Lemma held_insert m (k : FileKey) len r r' : m !! k = Some (len, r) ->
  held_bytes (<[k := (len, r')]> m) = held_bytes m - (if 0 <? r then len else 0) + (if 0 <? r' then len else 0).
Proof.
  intros Hk. unfold held_bytes. rewrite <- insert_delete_eq.
  rewrite (map_to_list_insert (delete k m) k (len, r')) by apply lookup_delete_eq.
  rewrite <- (map_to_list_delete m k (len, r) Hk). simpl. lia.
Qed.

Lemma held_fresh m (k : FileKey) len : m !! k = None -> held_bytes (<[k := (len, 0)]> m) = held_bytes m.
Proof. intros Hk. unfold held_bytes. rewrite map_to_list_insert by done. done. Qed.

Lemma weigh_insert f k keys : k ∉ keys -> weigh f ({[ k ]} ∪ keys) = length_of f k + weigh f keys.
Proof. intros Hk. unfold weigh. rewrite elements_union_singleton by done. done. Qed.

Lemma weigh_mono f X Y : X ⊆ Y -> weigh f X <= weigh f Y.
Proof.
  revert X. induction Y as [|k Y Hk IH] using set_ind_L; intros X HX.
  - assert (X = ∅) as -> by set_solver. done.
  - rewrite weigh_insert by done. pose proof (length_of_nonneg f k). destruct (decide (k ∈ X)) as [Hin|Hin].
    + replace X with ({[ k ]} ∪ (X ∖ {[ k ]})) by (symmetry; apply union_difference_L; set_solver).
      rewrite weigh_insert by set_solver. specialize (IH (X ∖ {[ k ]}) ltac:(set_solver)). lia.
    + specialize (IH X ltac:(set_solver)). lia.
Qed.

Lemma weigh_nonneg f X : 0 <= weigh f X.
Proof. apply sumZ_nonneg, Forall_forall. intros x (k & <- & _)%list_elem_of_In%in_map_iff. apply length_of_nonneg. Qed.

Lemma weigh_split f (P : FileKey -> Prop) `{!forall k, Decision (P k)} X :
  weigh f X = weigh f (filter P X) + weigh f (filter (fun k => ~ P k) X).
Proof.
  induction X as [|k X Hk IH] using set_ind_L.
  { assert (filter P (∅ : gset FileKey) = ∅) as -> by set_solver. by assert (filter (fun k => ~ P k) (∅ : gset FileKey) = ∅) as -> by set_solver. }
  rewrite weigh_insert, IH by done. destruct (decide (P k)) as [Hp|Hp].
  - assert (filter P ({[ k ]} ∪ X) = {[ k ]} ∪ filter P X) as -> by (apply set_eq; intros x; set_solver).
    assert (filter (fun k => ~ P k) ({[ k ]} ∪ X) = filter (fun k => ~ P k) X) as -> by (apply set_eq; intros x; set_solver).
    rewrite weigh_insert by set_solver. lia.
  - assert (filter P ({[ k ]} ∪ X) = filter P X) as -> by (apply set_eq; intros x; set_solver).
    assert (filter (fun k => ~ P k) ({[ k ]} ∪ X) = {[ k ]} ∪ filter (fun k => ~ P k) X) as -> by (apply set_eq; intros x; set_solver).
    rewrite weigh_insert by set_solver. lia.
Qed.

Lemma weigh_same f f' X : (forall k, k ∈ X -> length_of f' k = length_of f k) -> weigh f' X = weigh f X.
Proof.
  intros Hl. unfold weigh. f_equal. apply map_ext_in. intros k Hk. apply Hl, elem_of_elements. by apply list_elem_of_In.
Qed.

Lemma weigh_union f X Y : X ## Y -> weigh f (X ∪ Y) = weigh f X + weigh f Y.
Proof.
  intros Hd. rewrite (weigh_split f (fun k => k ∈ X) (X ∪ Y)). f_equal; f_equal; apply set_eq; intros k; rewrite elem_of_filter; set_solver.
Qed.

(** When exactly some files have an owner, their bytes are held. *)
Lemma held_weigh (f : Files) (m : gmap FileKey (Z * Z)) (P : FileKey -> Prop) `{!forall k, Decision (P k)} :
  (forall k len r, m !! k = Some (len, r) -> len = length_of f k /\ (0 < r -> P k \/ len = 0) /\ (P k -> 0 < r)) ->
  held_bytes m = weigh f (filter P (dom m)).
Proof.
  induction m as [|k [len r] m Hk IH] using map_ind; intros Hm.
  { rewrite dom_empty_L. unfold held_bytes. rewrite map_to_list_empty.
    assert (filter P (∅ : gset FileKey) = ∅) as -> by set_solver. done. }
  rewrite dom_insert_L. unfold held_bytes. rewrite map_to_list_insert by done. simpl. fold (held_bytes m). rewrite IH.
  2: { intros k' len' r' Hk'. apply Hm. rewrite lookup_insert_ne; [done|]. intros ->. by rewrite Hk in Hk'. }
  destruct (Hm k len r) as (-> & Hr & HP); [apply lookup_insert_eq|].
  assert (k ∉ dom m) by (by apply not_elem_of_dom). destruct (decide (P k)) as [Hp|Hp].
  - assert (filter P ({[ k ]} ∪ dom m) = {[ k ]} ∪ filter P (dom m)) as -> by (apply set_eq; intros x; set_solver).
    rewrite weigh_insert by set_solver. specialize (HP Hp). destruct (Z.ltb_spec 0 r); lia.
  - assert (filter P ({[ k ]} ∪ dom m) = filter P (dom m)) as -> by (apply set_eq; intros x; set_solver).
    destruct (Z.ltb_spec 0 r) as [Hpos|]; [|done]. destruct (Hr Hpos) as [Hp2|Hz]; [done|lia].
Qed.

Lemma held_one m (k : FileKey) len r : (forall k len r, m !! k = Some (len, r) -> 0 <= len) -> m !! k = Some (len, r) -> 0 < r ->
  len <= held_bytes m.
Proof.
  intros Hm Hk Hr. unfold held_bytes. rewrite <- (map_to_list_delete m k (len, r) Hk). simpl.
  destruct (Z.ltb_spec 0 r); [|lia]. assert (0 <= sumZ (map (fun x : FileKey * (Z * Z) => if 0 <? x.2.2 then x.2.1 else 0) (map_to_list (delete k m)))); [|lia].
  apply sumZ_nonneg, Forall_forall. intros x Hx. apply list_elem_of_In, in_map_iff in Hx as ([k' [len' r']] & <- & Hin).
  apply list_elem_of_In, elem_of_map_to_list, lookup_delete_Some in Hin as [_ Hin]. simpl. destruct (0 <? r'); [by eapply Hm|lia].
Qed.

(** What the ledger says of files [f]. *)
Definition lengths_right (f : Files) (i : Inodes) : Prop :=
  forall k len r, files i !! k = Some (len, r) -> len = length_of f k /\ 0 <= r.

Definition zeroed (x : Z * Z) : Z * Z := (x.1, 0).

Lemma forget_spec f i k : lengths_right f i -> bytes i = held_bytes (files i) ->
  files (forget i k) = alter zeroed k (files i) /\ bytes (forget i k) = held_bytes (files (forget i k)).
Proof.
  intros Hl Hb. unfold forget. destruct (files i !! k) as [[len r]|] eqn:Hk.
  - destruct (Hl _ _ _ Hk) as [Hlen Hr]. destruct (Z.ltb_spec 0 r) as [Hpos|Hz]; cbn [files bytes].
    + split; [apply map_eq; intros k'; destruct (decide (k = k')) as [<-|Hne];
        [by rewrite lookup_insert_eq, lookup_alter_eq, Hk|by rewrite lookup_insert_ne, lookup_alter_ne]|].
      rewrite (held_insert _ _ _ _ 0 Hk), Hb. unfold saturating_sub.
      assert (len <= held_bytes (files i)).
      { eapply held_one; [|exact Hk|done]. intros k' len' r' Hk'. destruct (Hl _ _ _ Hk') as [-> _]. apply length_of_nonneg. }
      destruct (Z.ltb_spec 0 r); [|lia]. simpl. lia.
    + split; [|done]. assert (r = 0) as -> by lia. apply map_eq. intros k'. destruct (decide (k = k')) as [<-|Hne];
        [by rewrite lookup_alter_eq, Hk|by rewrite lookup_alter_ne].
  - split; [|done]. apply map_eq. intros k'. destruct (decide (k = k')) as [<-|Hne];
      [by rewrite lookup_alter_eq, Hk|by rewrite lookup_alter_ne].
Qed.

Lemma lengths_forget f i k : lengths_right f i -> lengths_right f (forget i k).
Proof.
  intros Hl k' len r. unfold forget. destruct (files i !! k) as [[len0 r0]|] eqn:Hk; [|apply Hl].
  destruct (0 <? r0); [|apply Hl]. cbn [files]. intros [[<- [= <- <-]]|[_ Hk']]%lookup_insert_Some; [|by apply Hl].
  split; [by apply (Hl _ _ _ Hk)|done].
Qed.

(** Forgetting the files a test picks out. *)
Lemma forget_picked f {X} (pick : X -> bool) (name : X -> FileKey) l i :
  lengths_right f i -> bytes i = held_bytes (files i) ->
  let i' := fold_left (fun i x => if pick x then forget i (name x) else i) l i in
  lengths_right f i' /\ bytes i' = held_bytes (files i') /\
  forall k, files i' !! k = if existsb (fun x => pick x && bool_decide (name x = k)) l then zeroed <$> files i !! k else files i !! k.
Proof.
  revert i. induction l as [|x l IH]; intros i Hl Hb; [by split|]. cbn [fold_left existsb].
  destruct (pick x); simpl.
  - destruct (forget_spec f i (name x) Hl Hb) as [Hf Hb']. destruct (IH _ (lengths_forget f i (name x) Hl) Hb') as (Hl2 & Hb2 & Hk).
    split; [done|]. split; [done|]. intros k. rewrite Hk, Hf. case_bool_decide as Heq.
    + subst. rewrite lookup_alter_eq. cbn [orb]. destruct (files i !! name x) as [[len r]|]; simpl; by destruct (existsb _ l).
    + by rewrite lookup_alter_ne.
  - destruct (IH i Hl Hb) as (Hl2 & Hb2 & Hk). done.
Qed.

(** ** The ledger while files go *)

Section Kept.
Context `{OsLaws}.

Lemma tally_spec (links_of : FileKey -> Z) l m k :
  (forall k n, (k, n) ∈ l -> n = links_of k) ->
  fold_left tally l m !! k =
    match m !! k with
    | Some (paths, links) => Some (paths + Z.of_nat (occurrences k (map fst l)), links)
    | None => if (occurrences k (map fst l) =? 0)%nat then None else Some (Z.of_nat (occurrences k (map fst l)), links_of k)
    end.
Proof.
  revert m. induction l as [|[k' n] l IH]; intros m Hl; cbn [fold_left map fst].
  { unfold occurrences. simpl. destruct (m !! k) as [[paths links]|]; [|done]. by rewrite Z.add_0_r. }
  rewrite IH by (intros k0 n0 Hin; apply Hl; by right). specialize (Hl k' n ltac:(by left)) as ->.
  unfold tally at 1. cbn [fst snd]. unfold occurrences. simpl. case_bool_decide as Hk.
  - subst. destruct (m !! k) as [[paths links]|] eqn:E; simpl; rewrite lookup_insert_eq; f_equal; f_equal; lia.
  - destruct (default _ (m !! k')) as [paths links]. by rewrite lookup_insert_ne.
Qed.

(** The ledger counts each measured file that is on disk, and no other. *)
Record inv (f : Files) (i : Inodes) : Prop := {
  inv_tree : well_founded f;
  inv_lengths : lengths_right f i;
  inv_held : bytes i = held_bytes (files i);
  inv_exact : forall k len r, files i !! k = Some (len, r) -> (0 < r -> on_disk f k \/ len = 0) /\ (on_disk f k -> 0 < r);
  inv_known : forall k, is_Some (files i !! k) -> is_Some (inodes f !! k)
}.

Lemma inv_bytes f i : inv f i -> bytes i = weigh f (filter (on_disk f) (dom (files i))).
Proof.
  intros [_ Hl -> He _]. apply held_weigh. intros k len r Hk. destruct (Hl _ _ _ Hk) as [-> _].
  destruct (He _ _ _ Hk). done.
Qed.

Lemma names_on_disk f k : on_disk f k <-> (0 < size (names_of_file f k))%nat.
Proof.
  split.
  - intros [p Hp]. apply elem_of_names in Hp. destruct (decide (size (names_of_file f k) = 0%nat)) as [Hz|]; [|lia].
    apply size_empty_inv in Hz. set_solver.
  - intros Hs. destruct (set_choose_or_empty (names_of_file f k)) as [[p Hp]|He].
    + exists p. by apply elem_of_names.
    + rewrite He, size_empty in Hs. lia.
Qed.

Lemma nlink_size f k : nlink f k = Z.of_nat (size (names_of_file f k)).
Proof. done. Qed.

(** What is reported of a file. *)
Lemma file_identity_accounts : accounts_files file_identity fst (fun f k => (k, nlink f k)).
Proof. split; [done| |done]. intros f p [] Hn; try done. by destruct (Hn key). Qed.

(** Removing a tree: a file is forgotten exactly when its last name went. *)
Lemma remove_tree_spec f (root : Path) i gone f' i' :
  well_founded f -> root <> [] -> lengths_right f i -> bytes i = held_bytes (files i) ->
  remove_tree f root false i = (gone, f', i') ->
  well_founded f' /\ inodes f' = inodes f /\
  (forall p : Path, starts_with p root = false -> tree f' !! p = tree f !! p) /\
  (forall (p : Path) n, tree f' !! p = Some n -> tree f !! p = Some n) /\
  lengths_right f' i' /\ bytes i' = held_bytes (files i') /\
  forall k, files i' !! k = if decide (on_disk f k /\ ~ on_disk f' k) then zeroed <$> files i !! k else files i !! k.
Proof.
  intros Hf Hr Hl Hb. unfold remove_tree. destruct (remove_tree_reporting _ _ f root) as [removal f0] eqn:E.
  destruct (removal_account file_identity_accounts f root removal f0 Hf Hr E) as (Hf0 & Hin & Hout & Hsub & Hgone & Hcount & _).
  set (lost := files_gone removal) in *.
  assert (Hlinks : forall k n, (k, n) ∈ lost -> n = nlink f k) by (intros k n (p & k' & _ & _ & [= -> ->])%Hgone; done).
  intros [= <- <- <-]. split; [done|]. split; [done|]. split; [done|]. split; [done|].
  destruct (forget_picked f (fun x : FileKey * (Z * Z) => x.2.2 <=? x.2.1) fst (map_to_list (fold_left tally lost ∅)) i Hl Hb)
    as (Hl' & Hb' & Hk).
  split; [|split; [exact Hb'|]].
  { intros k len n Hk'. destruct (Hl' k len n Hk') as [-> Hn]. split; [|done]. unfold length_of, inode. by rewrite Hin. }
  intros k. rewrite Hk. set (b := existsb _ _).
  assert (Hpick : b = true <-> on_disk f k /\ ~ on_disk f0 k).
  { unfold b. rewrite existsb_exists, !names_on_disk. specialize (Hcount k). split.
    - intros ([k' [paths links]] & Hin' & [Hle Heq]%andb_prop). apply bool_decide_eq_true in Heq. simpl in *. subst k'.
      apply list_elem_of_In, elem_of_map_to_list in Hin'. rewrite (tally_spec (nlink f)), lookup_empty in Hin' by exact Hlinks.
      destruct (Nat.eqb_spec (occurrences k (map fst lost)) 0) as [|Hne]; [done|]. injection Hin' as <- <-.
      apply Z.leb_le in Hle. rewrite nlink_size in Hle. lia.
    - intros [Hon Hoff]. exists (k, (Z.of_nat (occurrences k (map fst lost)), nlink f k)). split.
      + apply list_elem_of_In, elem_of_map_to_list. rewrite (tally_spec (nlink f)), lookup_empty by exact Hlinks.
        destruct (Nat.eqb_spec (occurrences k (map fst lost)) 0) as [Hz|]; [|done]. rewrite Hz in Hcount. lia.
      + simpl. rewrite bool_decide_true, andb_true_r by done. apply Z.leb_le. rewrite nlink_size. lia. }
  clearbody b. destruct (decide _) as [Hd|Hd]; [by rewrite (proj2 Hpick Hd)|].
  destruct b; [|done]. destruct Hd. by apply Hpick.
Qed.

(** What an operation does to the ledger when it only takes names away. *)
Lemma inv_names_gone f i f' i' :
  inv f i -> well_founded f' -> inodes f' = inodes f -> (forall k, on_disk f' k -> on_disk f k) ->
  lengths_right f' i' -> bytes i' = held_bytes (files i') ->
  (forall k, files i' !! k = if decide (on_disk f k /\ ~ on_disk f' k) then zeroed <$> files i !! k else files i !! k) ->
  inv f' i' /\ dom (files i') = dom (files i).
Proof.
  intros Hi Hf' Hin Hon Hl Hb Hk. split.
  - constructor; [done..| |].
    + intros k len r Hk'. rewrite Hk in Hk'. destruct (decide _) as [[Hd1 Hd2]|Hd].
      * destruct (files i !! k) as [[len0 r0]|]; [|done]. injection Hk' as <- <-. split; [lia|done].
      * destruct (inv_exact _ _ Hi _ _ _ Hk') as [H1 H2]. split; [|intros Hd'; apply H2, Hon, Hd'].
        intros Hr. destruct (H1 Hr) as [Hd'|]; [|by right]. left. destruct (decide (on_disk f' k)); [done|]. by destruct Hd.
    + intros k Hs. rewrite Hin. apply (inv_known _ _ Hi). rewrite Hk in Hs. destruct (decide _); [|done]. by apply fmap_is_Some in Hs.
  - apply set_eq. intros k. rewrite !elem_of_dom, Hk. destruct (decide _); [|done]. apply fmap_is_Some.
Qed.

Lemma inv_remove_tree f (root : Path) i gone f' i' : inv f i -> root <> [] ->
  remove_tree f root false i = (gone, f', i') ->
  inv f' i' /\ dom (files i') = dom (files i) /\ inodes f' = inodes f /\
  (forall p : Path, starts_with p root = false -> tree f' !! p = tree f !! p) /\
  (forall (p : Path) n, tree f' !! p = Some n -> tree f !! p = Some n).
Proof.
  intros Hi Hr E. destruct (remove_tree_spec f root i gone f' i' (inv_tree _ _ Hi) Hr (inv_lengths _ _ Hi) (inv_held _ _ Hi) E)
    as (Hf' & Hin & Hout & Hsub & Hl & Hb & Hk).
  destruct (inv_names_gone f i f' i' Hi Hf' Hin) as [Hi' Hd]; [|done..|done].
  intros k [p Hp]. exists p. by apply Hsub.
Qed.

(** The ledger knows the files it did by their inodes. *)
Lemma inv_same f i f' : inv f i -> well_founded f' ->
  (forall k, is_Some (inodes f !! k) -> inodes f' !! k = inodes f !! k /\ (on_disk f' k <-> on_disk f k)) -> inv f' i.
Proof.
  intros [Ht Hl Hb He Hk] Hf' Hs. constructor; [done| |done| |].
  - intros k len r Hi. destruct (Hl k len r Hi) as [-> Hr]. split; [|done]. unfold length_of, inode.
    by rewrite (proj1 (Hs k (Hk k ltac:(by eexists)))).
  - intros k len r Hi. rewrite (proj2 (Hs k (Hk k ltac:(by eexists)))). by eapply He.
  - intros k Hi. rewrite (proj1 (Hs k (Hk k Hi))). by apply Hk.
Qed.

Lemma inv_rename f i d n m f' : inv f i -> d <> [] -> n <> m ->
  (forall x, tree f !! child d m = Some x -> is_folder x = true) -> rename f (child d n) (child d m) = Ok f' ->
  inv f' i /\ inodes f' = inodes f.
Proof.
  intros Hi Hd Hne Hto Hr. destruct (rename_keeps_files f d n m f' (inv_tree _ _ Hi) Hd Hne Hto Hr) as (Hon & Hf' & Hin).
  split; [|done]. apply (inv_same f); [done..|]. intros k _. by rewrite Hin.
Qed.
End Kept.

(** ** Names *)

Lemma ends_in_spec suffix s : ends_in suffix s = true <-> exists x, s = (x ++ suffix)%string.
Proof.
  split.
  - induction s as [|a s IH]; cbn [ends_in]; intros [He|Hs]%orb_prop.
    + apply String.eqb_eq in He. by exists "".
    + done.
    + apply String.eqb_eq in He. by exists "".
    + destruct (IH Hs) as [x ->]. by exists (String a x).
  - intros [x ->]. induction x as [|a x IH].
    + change ("" ++ suffix)%string with suffix. destruct suffix; cbn [ends_in]; [done|]. by rewrite (String.eqb_refl (String _ _)).
    + change (String a x ++ suffix)%string with (String a (x ++ suffix)). cbn [ends_in]. by rewrite IH, orb_true_r.
Qed.

(** What follows the last dot. *)
Definition after_dot (s : string) : option string := snd <$> rsplit_once "."%char s.

Lemma after_dot_app x r : without "."%char r = true -> after_dot (x ++ String "." r)%string = Some r.
Proof. intros Hr. unfold after_dot. by rewrite rsplit_once_app. Qed.

Lemma without_alphanumeric s : all_chars is_ascii_alphanumeric s = true -> without "."%char s = true.
Proof. intros Hs. by apply (without_of is_ascii_alphanumeric). Qed.

Lemma without_digits s : all_chars is_ascii_digit s = true -> without "."%char s = true.
Proof. intros Hs. by apply (without_of is_ascii_digit). Qed.

Definition retired_name (name pid random : string) : string := (name ++ ".retired-" ++ pid ++ "-" ++ random)%string.

Lemma retired_after_dot name pid random :
  all_chars is_ascii_digit pid = true -> all_chars is_ascii_alphanumeric random = true ->
  after_dot (retired_name name pid random) = Some ("retired-" ++ pid ++ "-" ++ random)%string.
Proof.
  intros Hp Hr. unfold retired_name. change (".retired-" ++ pid ++ "-" ++ random)%string with (String "." ("retired-" ++ pid ++ "-" ++ random)).
  apply after_dot_app. unfold without. rewrite !all_chars_app. fold (without "."%char pid) (without "."%char random).
  by rewrite without_digits, without_alphanumeric.
Qed.

Lemma lock_after_dot s : ends_in ".lock" s = true -> after_dot s = Some "lock".
Proof. intros [x ->]%ends_in_spec. by apply (after_dot_app x "lock"). Qed.

Lemma retired_is_no_lock name pid random :
  all_chars is_ascii_digit pid = true -> all_chars is_ascii_alphanumeric random = true ->
  ends_in ".lock" (retired_name name pid random) = false.
Proof.
  intros Hp Hr. apply not_true_iff_false. intros Hl%lock_after_dot. rewrite retired_after_dot in Hl by done.
  injection Hl as Hl. by simpl in Hl.
Qed.

Lemma retired_longer name pid random : retired_name name pid random <> name.
Proof.
  intros He. apply (f_equal String.length) in He. unfold retired_name in He. rewrite !length_app_string in He. simpl in He. lia.
Qed.

Lemma file_name_child d n : file_name (child d n) = Some n.
Proof. apply file_name_app. Qed.

Lemma file_name_of_child d n : file_name_of (child d n) = n.
Proof. unfold file_name_of. by rewrite file_name_child. Qed.

Lemma removelast_child d n : removelast (child d n) = d.
Proof. apply removelast_last. Qed.

Lemma with_file_name_child d n m : with_file_name (child d n) m = child d m.
Proof. unfold with_file_name. by rewrite file_name_child, removelast_child. Qed.

Lemma with_extension_child d n ext : exists stem, at_dot n = (Some stem, (at_dot n).2) /\
  with_extension (child d n) ext = child d (if String.eqb ext "" then stem else stem ++ "." ++ ext)%string.
Proof.
  assert (Hs : exists stem, (at_dot n).1 = Some stem).
  { unfold at_dot. destruct (String.eqb n ".."); [eauto|]. destruct (rsplit_once "."%char n) as [[b a]|]; [|eauto].
    destruct (String.eqb b ""); eauto. }
  destruct Hs as [stem Hs]. exists stem. split; [by destruct (at_dot n); simpl in *; subst|].
  unfold with_extension, file_stem. rewrite file_name_child. simpl. by rewrite Hs, removelast_child.
Qed.

(** *** Lock files are empty *)

Definition empty_locks (f : Files) : Prop :=
  forall (p : Path) k, tree f !! p = Some (File k) -> ends_in ".lock" (file_name_of p) = true -> length_of f k = 0.

Lemma empty_locks_fewer f f' : inodes f' = inodes f -> (forall (p : Path) n, tree f' !! p = Some n -> tree f !! p = Some n) ->
  empty_locks f -> empty_locks f'.
Proof.
  intros Hin Hsub He p k Hp Hn. unfold length_of, inode. rewrite Hin. apply (He p k); [by apply Hsub|done].
Qed.

Lemma empty_locks_move f from to : well_founded f -> free f from to -> from <> [] ->
  (forall k, tree f !! from = Some (File k) -> ends_in ".lock" (file_name_of to) = false) ->
  empty_locks f -> empty_locks (move f from to).
Proof.
  intros Hf Hfree Hne Hto He q k Hq Hn. apply (lookup_move f from to q _ Hfree) in Hq as (p & Hp & ->).
  change (length_of (move f from to) k) with (length_of f k).
  destruct (decide (p = from)) as [->|Hpf].
  { unfold moved in Hn. replace (strip_path from from) with (Some [] : option Path) in Hn
      by (symmetry; rewrite <- (app_nil_r from) at 2; apply strip_path_app).
    rewrite app_nil_r, (Hto k Hp) in Hn. done. }
  apply (He p k Hp). unfold moved in Hn. destruct (strip_path from p) as [rest|] eqn:E; [|done].
  apply strip_path_inv in E as ->. destruct rest as [|c rest _] using rev_ind; [by rewrite app_nil_r in Hpf|].
  rewrite app_assoc in Hn |- *. unfold file_name_of, file_name in *. by rewrite last_snoc in Hn |- *.
Qed.

(** ** What each operation keeps *)

Section Operations.
Context `{OsLaws}.

(** The ledger is right, and lock files hold nothing. *)
Record good (f : Files) (i : Inodes) : Prop := {
  good_inv : inv f i;
  good_locks : empty_locks f
}.

Lemma good_remove_tree f (root : Path) i gone f' i' : good f i -> root <> [] ->
  remove_tree f root false i = (gone, f', i') ->
  good f' i' /\ dom (files i') = dom (files i) /\ inodes f' = inodes f /\
  (forall (p : Path) n, tree f' !! p = Some n -> tree f !! p = Some n).
Proof.
  intros [Hi Hl] Hr E. destruct (inv_remove_tree f root i gone f' i' Hi Hr E) as (Hi' & Hd & Hin & _ & Hsub).
  split; [|done]. constructor; [done|]. by apply (empty_locks_fewer f).
Qed.

Lemma good_rename f i d n m f' : good f i -> d <> [] -> n <> m ->
  (forall x, tree f !! child d m = Some x -> is_folder x = true) ->
  (forall k, tree f !! child d n = Some (File k) -> ends_in ".lock" m = false) ->
  rename f (child d n) (child d m) = Ok f' -> good f' i /\ inodes f' = inodes f.
Proof.
  intros [Hi Hl] Hd Hne Hto Hlock Hr. destruct (inv_rename f i d n m f' Hi Hd Hne Hto Hr) as [Hi' Hin].
  split; [|done]. constructor; [done|]. pose proof (inv_tree _ _ Hi) as Hf. revert Hr. unfold rename.
  destruct (tree f !! child d n) as [x|] eqn:Ex; [|done].
  destruct (tree f !! child d m) as [y|] eqn:Ey; (destruct (refuses f _ _); [done|]).
  - cbn [orb]. destruct (Bool.eqb (is_folder x) (is_folder y)); [|done]. cbn [negb orb].
    destruct y as [t|k|target t]; [|by specialize (Hto _ eq_refl)..].
    destruct (is_folder (Folder t) && has_children f (child d m)) eqn:Ec; [done|]. simpl in Ec. intros [= <-].
    destruct (without_childless f (child d m) t Hf ltac:(by destruct d) Ey Ec) as (_ & Hw & Hfree).
    apply empty_locks_move; [done|by apply free_sibling|by destruct d| |].
    + intros k Hk. rewrite file_name_of_child. apply (Hlock k). cbn in Hk. apply map_lookup_filter_Some in Hk as [Hk _]. congruence.
    + apply (empty_locks_fewer f); [done| |done]. intros p x0. cbn. rewrite map_lookup_filter_Some. tauto.
  - intros [= <-]. apply empty_locks_move; [done| |by destruct d| |done].
    + apply free_sibling; [done|]. apply (nothing_under f (child d m)); [done|by destruct d|done].
    + intros k Hk. rewrite file_name_of_child. apply (Hlock k). congruence.
Qed.

(** What appears under a new name, and what leaves its old one. *)
Lemma rename_names f d n m f' : well_founded f -> d <> [] -> n <> m -> tree f !! child d m = None ->
  rename f (child d n) (child d m) = Ok f' ->
  tree f' !! child d n = None /\ forall b, b <> m -> tree f !! child d b = None -> tree f' !! child d b = None.
Proof.
  intros Hf Hd Hne Hm. unfold rename. destruct (tree f !! child d n) as [x|] eqn:Ex; [|done]. rewrite Hm.
  destruct (refuses f _ _); [done|]. intros [= <-].
  assert (Hfree : free f (child d n) (child d m)).
  { apply free_sibling; [done|]. apply (nothing_under f (child d m)); [done|by destruct d|done]. }
  assert (Hgo : forall b, b <> m -> (b = n \/ tree f !! child d b = None) -> tree (move f (child d n) (child d m)) !! child d b = None).
  { intros b Hb Hor. destruct (tree (move f _ _) !! child d b) as [y|] eqn:Ey; [|done]. exfalso.
    apply (lookup_move _ _ _ _ _ Hfree) in Ey as (p & Hp & He). unfold moved in He.
    destruct (strip_path (child d n) p) as [rest|] eqn:E.
    - apply Hb. eapply (children_apart d b m (child d b)); [apply starts_with_refl|]. rewrite He. apply starts_with_spec. by eexists.
    - subst p. destruct Hor as [->|Hn]; [|congruence].
      replace (strip_path (child d n) (child d n)) with (Some [] : option Path) in E; [done|].
      symmetry. rewrite <- (app_nil_r (child d n)) at 2. apply strip_path_app. }
  split; [apply Hgo; auto|]. intros b Hb Hn. apply Hgo; auto.
Qed.

Lemma retire_child f d n : retire f (child d n) =
  let '(pid, random) := retired_suffix f (child d n) in
  match rename f (child d n) (child d (retired_name n pid random)) with
  | Ok f' => (Ok (Some (child d (retired_name n pid random))), f')
  | Err Missing => (Ok None, f)
  | Err Refused => (Err Refused, f)
  end.
Proof. unfold retire. rewrite file_name_child. destruct (retired_suffix f (child d n)). by rewrite with_file_name_child. Qed.

(** The names of a record and of what it is retired to are told apart by what
    follows their last dots. *)
Definition retired_tail (n : string) : Prop := exists pid random, after_dot n = Some ("retired-" ++ pid ++ "-" ++ random)%string.
Definition record_tail (n : string) : Prop := after_dot n = Some "json" \/ after_dot n = Some "use".

Lemma tails_differ n m : record_tail n -> retired_tail m -> n <> m.
Proof. intros [Hn|Hn] (pid & random & Hm) ->; rewrite Hm in Hn; injection Hn as Hn; by simpl in Hn. Qed.

Lemma record_is_no_lock n : record_tail n -> ends_in ".lock" n = false.
Proof. intros Hn. apply not_true_iff_false. intros Hl%lock_after_dot. destruct Hn as [Hn|Hn]; congruence. Qed.

Lemma good_retire f i d n r f' : good f i -> d <> [] -> retire f (child d n) = (r, f') ->
  good f' i /\ inodes f' = inodes f /\
  match r with
  | Ok (Some t) => exists m, t = child d m /\ retired_tail m /\ n <> m /\ tree f' !! child d n = None /\
      forall b, b <> m -> tree f !! child d b = None -> tree f' !! child d b = None
  | _ => f' = f
  end.
Proof.
  intros Hg Hd. rewrite retire_child. pose proof (suffix_is_fresh f d n) as Hfresh.
  destruct (retired_suffix f (child d n)) as [pid random]. destruct Hfresh as (_ & Hpid & _ & Hrand & Hnone).
  fold (retired_name n pid random) in Hnone.
  assert (Hne : n <> retired_name n pid random) by (intros He; exact (retired_longer n pid random (eq_sym He))).
  destruct (rename f _ _) as [f1|[]] eqn:Er; intros [= <- <-]; try by split.
  destruct (good_rename f i d n (retired_name n pid random) f1 Hg Hd Hne) as [Hg' Hin]; [| |done|].
  - intros x Hx. by rewrite Hnone in Hx.
  - intros k _. by apply retired_is_no_lock.
  - split; [done|]. split; [done|]. exists (retired_name n pid random). split; [done|].
    split; [exists pid, random; by apply retired_after_dot|]. split; [done|].
    by apply (rename_names f d n (retired_name n pid random)); [apply (inv_tree _ _ (good_inv _ _ Hg))|..].
Qed.

(** Records that can be taken back: their names are free. *)
Definition restorable (d : Path) (f : Files) (l : list (Path * Path)) : Prop :=
  exists names, l = map (fun x => (child d x.1, child d x.2)) names /\ NoDup (map fst names) /\
    Forall (fun x => record_tail x.1 /\ retired_tail x.2 /\ tree f !! child d x.1 = None) names.

Lemma good_retire_records f i d names retired ok retired' f' :
  good f i -> d <> [] -> restorable d f retired -> Forall record_tail names ->
  NoDup (map fst retired ++ map (child d) names) ->
  retire_records f (map (child d) names) retired = (ok, retired', f') ->
  good f' i /\ inodes f' = inodes f /\ restorable d f' retired'.
Proof.
  revert f retired. induction names as [|n names IH]; intros f retired Hg Hd Hres Hrec Hnd; cbn [map retire_records].
  { intros [= <- <- <-]. by split. }
  apply Forall_cons in Hrec as [Hn Hrec]. destruct (retire f (child d n)) as [r f1] eqn:Er.
  destruct (good_retire f i d n r f1 Hg Hd Er) as (Hg1 & Hin & Hr). destruct r as [[t|]|e].
  - destruct Hr as (m & -> & Hm & Hne & Hgone & Hfree). intros Hgo.
    destruct (IH f1 (retired ++ [(child d n, child d m)])%list Hg1 Hd) as (? & Hin' & ?); [|done| |done|].
    + destruct Hres as (l & -> & Hl & Hall). exists (l ++ [(n, m)])%list. split; [by rewrite map_app|].
      rewrite map_map in Hnd. simpl in Hnd. rewrite map_app. simpl.
      apply NoDup_app in Hnd as (_ & Hap & _). split.
      * apply NoDup_app. split; [done|]. split; [|apply NoDup_singleton]. intros x Hx ->%list_elem_of_singleton.
        apply (Hap (child d n)); [|by left]. apply list_elem_of_In, in_map_iff in Hx as (y & <- & Hy).
        apply list_elem_of_In, in_map_iff. by exists y.
      * apply Forall_app. split; [|by apply Forall_singleton]. eapply Forall_impl; [exact Hall|]. intros [a b] (Ha & Hb & Hab).
        split; [done|]. split; [done|]. simpl in *. apply Hfree; [|done]. by apply tails_differ.
    + rewrite map_app, <- app_assoc. done.
    + split; [done|]. split; [by rewrite Hin', Hin|done].
  - subst f1. intros Hgo. apply (IH f retired); try done. cbn in Hnd. rewrite NoDup_app in Hnd |- *.
    destruct Hnd as (? & Hap & [_ ?]%NoDup_cons). split; [done|]. split; [|done]. intros x Hx Hx'. apply (Hap x Hx). by right.
  - subst f1. intros [= <- <- <-]. by split.
Qed.

Lemma good_restore f i d l : good f i -> d <> [] -> restorable d f l ->
  good (restore_unit_records f l) i /\ inodes (restore_unit_records f l) = inodes f.
Proof.
  intros Hg Hd (names & -> & Hnd & Hall). revert f Hg Hall. induction names as [|[n m] names IH]; intros f Hg Hall; [by split|].
  cbn [map] in Hnd. apply NoDup_cons in Hnd as [Hni Hnd]. apply Forall_cons in Hall as [(Hn & Hm & Hfree) Hall].
  change (restore_unit_records f (map (fun x => (child d x.1, child d x.2)) ((n, m) :: names)))
    with (restore_unit_records (match rename f (child d m) (child d n) with Ok f => f | Err _ => f end)
            (map (fun x => (child d x.1, child d x.2)) names)).
  simpl in Hn, Hm, Hfree. pose proof (tails_differ n m Hn Hm) as Hne.
  destruct (rename f (child d m) (child d n)) as [f1|e] eqn:Er; [|by apply IH].
  destruct (good_rename f i d m n f1 Hg Hd) as [Hg1 Hin]; [done|intros x Hx; by rewrite Hfree in Hx|intros k _; by apply record_is_no_lock|done|].
  rewrite <- Hin. apply IH; [done|done|].
  destruct (rename_names f d m n f1 (inv_tree _ _ (good_inv _ _ Hg)) Hd (fun e => Hne (eq_sym e)) Hfree Er) as [_ Hother].
  apply Forall_forall. intros [a b] Hin'. rewrite Forall_forall in Hall. destruct (Hall _ Hin') as (Ha & Hb & Hab).
  split; [done|]. split; [done|]. simpl in *. apply Hother; [|done]. intros ->. apply Hni.
  apply list_elem_of_In, in_map_iff. exists (n, b). split; [done|]. by apply list_elem_of_In.
Qed.

Lemma good_remove_trees f i l gone f' i' : good f i -> Forall (fun p => p <> []) l ->
  remove_trees f i l = (gone, f', i') -> good f' i' /\ dom (files i') = dom (files i) /\ inodes f' = inodes f.
Proof.
  intros Hg Hl. revert f i gone f' i' Hg. induction Hl as [|p l Hp Hl IH]; intros f i gone f' i' Hg; cbn [remove_trees]; [by intros [= _ <- <-]|].
  destruct (remove_tree f p false i) as [[g1 f1] i1] eqn:E1. destruct (remove_trees f1 i1 l) as [[g2 f2] i2] eqn:E2. intros [= _ <- <-].
  destruct (good_remove_tree f p i g1 f1 i1 Hg Hp E1) as (Hg1 & Hd1 & Hin1 & _).
  destruct (IH f1 i1 g2 f2 i2 Hg1 E2) as (Hg2 & Hd2 & Hin2). split; [done|]. split; congruence.
Qed.
End Operations.
