(* ===== verification/IncrementalSteps.v ===== *)
(** * The steps of a collection keep its account

    Eviction of a session, removal of a unit with its records and their
    restoration on failure, the removal of stamps and of checkouts, and the
    three loops of [Incremental.collect]: each keeps the ledger right, whatever
    fails half way and whatever files others add. *)

From stdpp Require Import base list gmap sets strings sorting.
From Stdlib Require Import ZArith Lia Ascii.
From S2P Require Import Prelude Strings PathMap RustcArgs HardLinks TreeRemoval Incremental IncrementalLedger.
Local Open Scope Z_scope.

(** ** Removing one file *)

Section OneFile.
Context `{OsLaws}.

Lemma remove_file_spec f (p : Path) f' : well_founded f -> p <> [] -> remove_file f p = Ok f' ->
  tree f' = delete p (tree f) /\ inodes f' = inodes f /\ well_founded f' /\
  exists n, tree f !! p = Some n /\ is_folder n = false.
Proof.
  intros Hf Hp. unfold remove_file. destruct (tree f !! p) as [n|] eqn:E; [|done].
  assert (Hgo : is_folder n = false -> tree (mkFiles (delete p (tree f)) (inodes f)) = delete p (tree f) /\
    inodes f = inodes f /\ well_founded (mkFiles (delete p (tree f)) (inodes f)) /\
    exists n0, Some n = Some n0 /\ is_folder n0 = false).
  { intros Hn. split; [done|]. split; [done|]. split; [|by exists n]. intros q c [x Hx] Hq. cbn [tree] in Hx. apply lookup_delete_Some in Hx as [_ Hx].
    destruct (Hf q c ltac:(by eexists) Hq) as [Hc [t Ht]]. split; [done|]. exists t. cbn [tree].
    rewrite lookup_delete_ne; [done|]. intros <-. rewrite E in Ht. injection Ht as ->. done. }
  destruct n as [t|k|target t]; [done| |]; case_bool_decide; try done; intros [= <-]; by apply Hgo.
Qed.

(** A file keeps its data unless the name removed was its last. *)
Lemma on_disk_delete f (p : Path) n f' k : tree f !! p = Some n -> tree f' = delete p (tree f) ->
  on_disk f' k <-> on_disk f k /\ ~ (n = File k /\ nlink f k = 1).
Proof.
  intros Hn Ht. rewrite nlink_size. split.
  - intros [q Hq]. rewrite Ht in Hq. apply lookup_delete_Some in Hq as [Hne Hq]. split; [by exists q|].
    intros [-> Hone]. assert (Hs : size (names_of_file f k) = 1%nat) by lia. apply size_1_elem_of in Hs as [r Hr].
    assert (Hall : forall q : Path, tree f !! q = Some (File k) -> q = r) by (intros q' Hq'%elem_of_names; by apply Hr, elem_of_singleton in Hq').
    apply Hne. by rewrite (Hall p Hn), (Hall q Hq).
  - intros [[q Hq] Hnot]. destruct (decide (p = q)) as [<-|Hne].
    2: { exists q. rewrite Ht. by apply lookup_delete_Some. }
    rewrite Hn in Hq. injection Hq as ->. destruct (set_choose_or_empty (names_of_file f k ∖ {[ p ]})) as [[q Hq]|He].
    + apply elem_of_difference in Hq as [Hq Hne]. rewrite elem_of_singleton in Hne. exists q. rewrite Ht. apply lookup_delete_Some. split; [congruence|by apply elem_of_names].
    + exfalso. apply Hnot. split; [done|]. replace (names_of_file f k) with ({[ p ]} : gset Path).
      { by rewrite size_singleton. }
      apply set_eq. intros q. rewrite elem_of_singleton. split; [intros ->; by apply elem_of_names|].
      intros Hq. destruct (decide (q = p)) as [|Hne]; [done|]. exfalso. apply (elem_of_empty (C := gset Path) q). rewrite <- He.
      apply elem_of_difference. by rewrite elem_of_singleton.
Qed.

(** A lock that is removed held nothing. *)
Lemma good_unlock f i krate l f' : good f i -> ends_in ".lock" l = true -> krate <> [] ->
  remove_file f (child krate l) = Ok f' -> good f' i /\ inodes f' = inodes f.
Proof.
  intros [Hi Hl] Hlock Hk Hr. destruct (remove_file_spec f (child krate l) f' (inv_tree _ _ Hi) ltac:(by destruct krate) Hr)
    as (Ht & Hin & Hf' & n & Hn & _). split; [|done].
  assert (Hsub : forall (p : Path) x, tree f' !! p = Some x -> tree f !! p = Some x)
    by (intros p x; rewrite Ht; by intros [_ ?]%lookup_delete_Some).
  constructor; [|by apply (empty_locks_fewer f)]. destruct Hi as [_ Hlen Hh He Hkn]. constructor; [done| |done| |].
  - intros k len r Hik. destruct (Hlen k len r Hik) as [-> ?]. split; [|done]. unfold length_of, inode. by rewrite Hin.
  - intros k len r Hik. destruct (He k len r Hik) as [H1 H2]. rewrite (on_disk_delete f _ n f' k Hn Ht).
    split; [|tauto]. intros Hpos. destruct (H1 Hpos) as [Hon|]; [|by right]. destruct (decide (n = File k)) as [->|Hne]; [right|left; tauto].
    destruct (Hlen k len r Hik) as [-> _]. apply (Hl _ k Hn). by rewrite file_name_of_child.
  - intros k Hs. rewrite Hin. by apply Hkn.
Qed.

(** What is owed to a name that is removed. *)
Definition after_unlink (f : Files) (n : Node) (i : Inodes) : Inodes :=
  match n with File k => if nlink f k =? 1 then forget i k else i | _ => i end.

Lemma after_unlink_spec f n i : inv f i ->
  lengths_right f (after_unlink f n i) /\ bytes (after_unlink f n i) = held_bytes (files (after_unlink f n i)) /\
  forall k, (n = File k /\ nlink f k = 1 -> files (after_unlink f n i) !! k = zeroed <$> files i !! k) /\
    (~ (n = File k /\ nlink f k = 1) -> files (after_unlink f n i) !! k = files i !! k).
Proof.
  intros Hi. pose proof (inv_lengths _ _ Hi) as Hl. pose proof (inv_held _ _ Hi) as Hb.
  destruct n as [t|k|target t]; try (split; [done|]; split; [done|]; intros k; split; [by intros [? _]|done]).
  unfold after_unlink. destruct (Z.eqb_spec (nlink f k) 1) as [Hone|Hno].
  2: { split; [done|]. split; [done|]. intros k'. split; [intros [[= ->] ?]; done|done]. }
  destruct (forget_spec f i k Hl Hb) as [Hf Hb']. split; [by apply lengths_forget|]. split; [done|]. intros k'. rewrite Hf. split.
  - intros [[= <-] _]. apply lookup_alter_eq.
  - intros Hne. apply lookup_alter_ne. intros <-. by apply Hne.
Qed.

(** The record of a retired checkout. *)
Lemma good_unlink_record f (t : Path) i r f' i' : good f i -> t <> [] -> unlink_retired_checkout_record f t i = (r, f', i') ->
  good f' i' /\ inodes f' = inodes f /\ dom (files i') = dom (files i) /\ (forall (p : Path) x, tree f' !! p = Some x -> tree f !! p = Some x).
Proof.
  intros [Hi Hl] Ht. unfold unlink_retired_checkout_record. destruct (symlink_metadata f _) as [n|] eqn:En; [|by intros [= <- <- <-]].
  destruct (remove_file f _) as [f1|[]] eqn:Er; intros [= <- <- <-]; try done. fold (after_unlink f n i).
  destruct (remove_file_spec f (child t RECORD_FILE) f1 (inv_tree _ _ Hi) ltac:(by destruct t) Er) as (Htree & Hin & Hf' & n' & Hn & _).
  assert (n' = n) as -> by (unfold symlink_metadata in En; congruence).
  assert (Hsub : forall (p : Path) x, tree f1 !! p = Some x -> tree f !! p = Some x)
    by (intros p x; rewrite Htree; by intros [_ ?]%lookup_delete_Some).
  assert (Hon := fun k => on_disk_delete f _ n f1 k Hn Htree).
  destruct (after_unlink_spec f n i Hi) as (Hlen & Hb & Hfiles).
  destruct (inv_names_gone f i f1 (after_unlink f n i) Hi Hf' Hin) as [Hinv Hd]; [by intros k [? _]%Hon| |done| |].
  - intros k len r Hk. destruct (Hlen k len r Hk) as [-> ?]. split; [|done]. unfold length_of, inode. by rewrite Hin.
  - intros k. destruct (decide _) as [[Hod Hd]|Hd]; rewrite Hon in Hd; apply Hfiles.
    + destruct (decide (n = File k)) as [He|He]; [|destruct Hd; tauto]. destruct (decide (nlink f k = 1)); [done|destruct Hd; tauto].
    + intros [-> Hone]. apply Hd. split; [by eexists|tauto].
  - split; [constructor; [done|by apply (empty_locks_fewer f)]|]. done.
Qed.
End OneFile.

(** ** The account *)

(** The ledger is right about the files it measured, whose data nobody changed. *)
Record accounts (measured : gset FileKey) (before f : Files) (i : Inodes) : Prop := {
  accounts_good : good f i;
  accounts_dom : dom (files i) = measured;
  accounts_same : forall k, k ∈ measured -> inodes f !! k = inodes before !! k
}.

Lemma accounts_step m f0 f i f' i' : accounts m f0 f i -> good f' i' -> dom (files i') = dom (files i) -> inodes f' = inodes f ->
  accounts m f0 f' i'.
Proof. intros [_ Hd Hs] Hg Hd' Hin. constructor; [done|by rewrite Hd'|]. intros k Hk. rewrite Hin. by apply Hs. Qed.

(** A session and its lock lie in one directory. *)
Definition session_shaped (s : Session) : Prop := exists krate n l,
  krate <> [] /\ s_directory s = child krate n /\ s_lock s = child krate l /\
  ends_in "-working" n = false /\ ends_in ".lock" l = true.

Section Steps.
Context `{OsLaws} {M : Machine}.
Context (measured : gset FileKey) (before : Files).
Notation accounted := (accounts measured before).

Lemma good_rename_folder f i d n m f' : good f i -> d <> [] -> n <> m ->
  (forall x, tree f !! child d n = Some x -> is_folder x = true) ->
  rename f (child d n) (child d m) = Ok f' -> good f' i /\ inodes f' = inodes f.
Proof.
  intros Hg Hd Hne Hfrom Hr. apply (good_rename f i d n m f'); try done.
  - intros y Hy. unfold rename in Hr. rewrite Hy in Hr. destruct (tree f !! child d n) as [x|]; [|done].
    specialize (Hfrom x eq_refl). rewrite Hfrom in Hr. destruct (is_folder y); [done|]. by rewrite orb_true_r in Hr.
  - intros k Hk. by specialize (Hfrom _ Hk).
Qed.

Lemma accounts_remove_tree f i (p : Path) gone f' i' : accounted f i -> p <> [] -> remove_tree f p false i = (gone, f', i') -> accounted f' i'.
Proof.
  intros Ha Hp E. destruct (good_remove_tree f p i gone f' i' (accounts_good _ _ _ _ Ha) Hp E) as (? & ? & ? & _).
  by apply (accounts_step _ _ f i).
Qed.

Lemma unfinished_name_spec krate l : exists stem, unfinished_name (child krate l) = child krate (stem ++ "-working")%string.
Proof.
  destruct (with_extension_child krate l "") as (stem & _ & He). exists stem. unfold unfinished_name. rewrite He. cbn [String.eqb].
  by rewrite file_name_of_child, with_file_name_child.
Qed.

(** Evicting a session. *)
Lemma accounts_evict w s i r w' i' : session_shaped s -> accounted (fs w) i -> evict_session w s i = (r, w', i') -> accounted (fs w') i'.
Proof.
  intros (krate & n & l & Hk & Hd & Hl & Hn & Hlock) Ha. unfold evict_session.
  destruct (negb _); [by intros [= _ <- <-]|]. destruct (_ || _); [by intros [= _ <- <-]|].
  destruct (is_some_and is_folder (symlink_metadata (fs w) (s_directory s))) eqn:Hfolder; cbn [negb]; [|by intros [= _ <- <-]].
  rewrite Hl, Hd in *. destruct (unfinished_name_spec krate l) as [stem ->]. set (u := (stem ++ "-working")%string).
  assert (Hne : n <> u).
  { intros ->. apply not_true_iff_false in Hn. apply Hn, ends_in_spec. by exists stem. }
  assert (Hsrc : forall x, tree (fs w) !! child krate n = Some x -> is_folder x = true)
    by (intros x Hx; unfold symlink_metadata in Hfolder; by rewrite Hx in Hfolder).
  assert (Hu : child krate u <> []) by (by destruct krate).
  assert (Hgo : forall (b : bool) f i1, accounted f i1 ->
    (if negb b then (None, with_fs w f, i1)
     else let '(removed, f, i) := remove_tree f (child krate u) false i1 in
          let f := if removed : bool then match remove_file f (child krate l) with Ok f => f | Err _ => f end else f in
          (Some removed, with_fs w f, i)) = (r, w', i') -> accounted (fs w') i').
  { intros b f i1 Ha1. destruct b; cbn [negb]; [|by intros [= _ <- <-]]. destruct (remove_tree f _ false i1) as [[gone f2] i2] eqn:E2.
    pose proof (accounts_remove_tree _ _ _ _ _ _ Ha1 Hu E2) as Ha2. intros [= _ <- <-]. cbn [fs with_fs].
    destruct gone; [|done]. destruct (remove_file f2 _) as [f3|] eqn:E3; [|done].
    destruct (good_unlock f2 i2 krate l f3 (accounts_good _ _ _ _ Ha2) Hlock Hk E3) as [? ?]. by apply (accounts_step _ _ f2 i2). }
  assert (Hren : forall f i1 f', accounted f i1 -> (forall x, tree f !! child krate n = Some x -> is_folder x = true) ->
    rename f (child krate n) (child krate u) = Ok f' -> accounted f' i1).
  { intros f i1 f' Ha1 Hx Hr. destruct (good_rename_folder f i1 krate n u f' (accounts_good _ _ _ _ Ha1) Hk Hne Hx Hr).
    by apply (accounts_step _ _ f i1). }
  destruct (rename (fs w) _ _) as [f1|e] eqn:Er; [by apply (Hgo true f1 i), (Hren (fs w))|].
  destruct (is_some_and is_folder (symlink_metadata (fs w) (child krate u))); [|by apply (Hgo false (fs w) i)]. destruct (remove_tree (fs w) _ false i) as [[gone f1] i1] eqn:E1.
  pose proof (accounts_remove_tree _ _ _ _ _ _ Ha Hu E1) as Ha1. destruct gone; [|by apply (Hgo false f1 i1)].
  destruct (good_remove_tree (fs w) _ i _ f1 i1 (accounts_good _ _ _ _ Ha) Hu E1) as (_ & _ & _ & Hsub).
  destruct (rename f1 _ _) as [f2|] eqn:Er2; [|by apply (Hgo false f1 i1)]. apply (Hgo true f2 i1), (Hren f1); [done| |done].
  intros x Hx. by apply Hsrc, Hsub.
Qed.

(** A unit, its records and its sessions. *)
Definition unit_shaped (u : Unit) : Prop := exists d n names,
  d <> [] /\ u_directory u = child d n /\ records u = map (child d) names /\ NoDup names /\ Forall record_tail names /\
  Forall session_shaped (sessions u).

(** A sweep whose ledger is right. *)
Definition kept (s : Sweep) : Prop := accounted (fs (world s)) (ledger s).

Lemma kept_trim_sessions max_bytes max_age now u l s evicted s' e : Forall session_shaped l -> kept s ->
  trim_sessions max_bytes max_age false now u l s evicted = (s', e) -> kept s'.
Proof.
  intros Hl. revert s evicted. induction Hl as [|x l Hx Hl IH]; intros s evicted Hs; cbn [trim_sessions]; [by intros [= <- _]|].
  destruct (satisfied _ _ _ _ _); [by intros [= <- _]|]. destruct (negb _); [by apply IH|].
  destruct (evict_session _ _ _) as [[r w] i] eqn:E. pose proof (accounts_evict _ _ _ _ _ _ Hx Hs E) as Hw.
  destruct r as [[]|]; apply IH; done.
Qed.

Lemma kept_trim_unit max_bytes max_age hot backstop now e u s : unit_shaped u -> kept s ->
  kept (trim_unit max_bytes max_age false hot backstop now e u s).
Proof.
  intros (d & n & names & _ & _ & _ & _ & _ & Hl) Hs. unfold trim_unit. destruct (is_hot _ _ _ _ _ _); [done|].
  destruct (lease_for_trimming s (key e)) as [s0|] eqn:E; [|done].
  assert (Hs0 : kept s0). { unfold lease_for_trimming in E. destruct (bool_decide _); [by injection E as <-|]. destruct (lease_fails _ _); [done|by injection E as <-]. }
  destruct (trim_sessions _ _ _ _ _ _ s0 false) as [s1 b] eqn:E1.
  assert (Hs1 : kept s1) by (eapply kept_trim_sessions; [|exact Hs0|exact E1]; by destruct (is_seeding _)).
  by destruct b.
Qed.

Lemma accounts_restore f i d l : d <> [] -> restorable d f l -> accounted f i -> accounted (restore_unit_records f l) i.
Proof. intros Hd Hl Ha. destruct (good_restore f i d l (accounts_good _ _ _ _ Ha) Hd Hl). by apply (accounts_step _ _ f i). Qed.

Lemma restorable_nonempty d f l : d <> [] -> restorable d f l -> Forall (fun p => p <> []) (map snd l).
Proof.
  intros Hd (names & -> & _). rewrite map_map. apply Forall_forall. intros p (x & <- & _)%list_elem_of_In%in_map_iff. by destruct d.
Qed.

Lemma kept_remove_unit index u s : unit_shaped u -> kept s -> kept (remove_unit false index u s).
Proof.
  intros (d & n & names & Hd & Hu & Hrec & Hnd & Htails & _) Ha. unfold remove_unit. rewrite Hrec, Hu.
  destruct (retire_records _ _ _) as [[ok retired] f] eqn:E.
  destruct (good_retire_records (fs (world s)) (ledger s) d names [] ok retired f (accounts_good _ _ _ _ Ha) Hd) as (Hg & Hin & Hres); try done.
  { exists []. split; [done|]. split; constructor. }
  { simpl. apply NoDup_fmap_2; [|done]. intros ???. by eapply child_inj. }
  assert (Haf : accounted f (ledger s)) by by apply (accounts_step _ _ (fs (world s)) (ledger s)).
  destruct ok; cbn [negb]; [|by apply (accounts_restore _ _ d)].
  destruct (retire f (child d n)) as [r f1] eqn:E1.
  destruct (good_retire f (ledger s) d n r f1 Hg Hd E1) as (Hg1 & Hin1 & Hr).
  assert (Ha1 : accounted f1 (ledger s)) by by apply (accounts_step _ _ f (ledger s)).
  destruct r as [t|x]; [|subst f1; by apply (accounts_restore _ _ d)].
  assert (Hfin : forall gone f2 i2, accounted f2 i2 -> kept
    (if negb gone then set_ledger (set_fs s f2) i2
     else let '(all, f, i) := remove_trees f2 i2 (map snd retired) in
          let s := set_ledger (set_fs s f) i in
          unit_gone (if all : bool then s else keep_record s index) index (child d n))).
  { intros gone f2 i2 Ha2. destruct gone; cbn [negb]; [|exact Ha2]. destruct (remove_trees f2 i2 _) as [[all f3] i3] eqn:E3.
    destruct (good_remove_trees f2 i2 _ all f3 i3 (accounts_good _ _ _ _ Ha2) (restorable_nonempty d f retired Hd Hres) E3) as (? & ? & ?).
    assert (accounted f3 i3) by by apply (accounts_step _ _ f2 i2). by destruct all. }
  destruct t as [t|]; [|by apply (Hfin true f1 (ledger s))].
  destruct (remove_tree f1 t false (ledger s)) as [[gone f2] i2] eqn:E2. apply (Hfin gone f2 i2).
  apply (accounts_remove_tree f1 (ledger s) t gone f2 i2); [done| |done]. destruct Hr as (m & -> & _). by destruct d.
Qed.

Lemma kept_collect_unit max_bytes max_age hot backstop now e index u s : unit_shaped u -> kept s ->
  kept (collect_unit max_bytes max_age false hot backstop now e index u s).
Proof.
  intros Hu Hs. unfold collect_unit. destruct (deletion_guard _ _ _) as [[]|]; [by apply kept_trim_unit| |done].
  destruct (unit_locks _ _ _); [by apply kept_remove_unit|done].
Qed.

(** Others may add files, take locks and leases and let time pass; they leave
    the files there are. *)
Definition considerate : Prop := forall p w,
  (well_founded (fs w) -> well_founded (fs (meanwhile p w))) /\ (empty_locks (fs w) -> empty_locks (fs (meanwhile p w))) /\
  forall k, is_Some (inodes (fs w) !! k) ->
    inodes (fs (meanwhile p w)) !! k = inodes (fs w) !! k /\ (on_disk (fs (meanwhile p w)) k <-> on_disk (fs w) k).

Lemma kept_meanwhile p s : considerate -> kept s -> kept (set_world s (meanwhile p (world s))).
Proof.
  intros Hc [[Hi Hl] Hd Hs]. destruct (Hc p (world s)) as (Hf & Hlocks & Hk). constructor.
  - constructor; [|by apply Hlocks]. apply (inv_same (fs (world s))); [done| |done]. apply Hf, (inv_tree _ _ Hi).
  - done.
  - intros k Hin. cbn. rewrite <- Hs by done. apply Hk, (inv_known _ _ Hi). apply elem_of_dom. by rewrite Hd.
Qed.

Lemma kept_collect_units max_bytes max_age hot backstop now found l s : considerate ->
  Forall (fun x => unit_shaped x.2) l -> kept s ->
  kept (collect_units max_bytes max_age false hot backstop now found l s).
Proof.
  intros Hc Hl. revert s. induction Hl as [|[index u] l Hu Hl IH]; intros s Hs; [done|]. cbn [collect_units].
  destruct (satisfied _ _ _ _ _); [done|]. apply IH. pose proof (kept_meanwhile (u_directory u) s Hc Hs) as Hs'.
  destruct (found !! index); [by apply kept_collect_unit|done].
Qed.

Lemma kept_remove_stamps l s : Forall (fun x => x.1 <> []) l -> kept s -> kept (remove_stamps false l s).
Proof.
  intros Hl. revert s. induction Hl as [|[stamp keys] l Hx Hl IH]; intros s Hs; [done|]. cbn [remove_stamps].
  destruct (remove_tree _ stamp false _) as [[gone f] i] eqn:E. apply IH. rewrite andb_false_r.
  by apply (accounts_remove_tree _ _ _ _ _ _ Hs Hx E).
Qed.

Lemma kept_collect_stamps found s : Forall (fun e => Forall (fun x => x.1 <> []) (orphan_stamps e)) found -> kept s ->
  kept (collect_stamps false found s).
Proof.
  intros Hl. revert s. induction Hl as [|e found He Hl IH]; intros s Hs; [done|]. cbn [collect_stamps]. apply IH.
  destruct (is_none _); [done|]. destruct (orphan_stamps e) as [|x l]; [done|].
  destruct (deletion_guard _ _ _) as [[]|]; [done|by apply kept_remove_stamps|done].
Qed.

(** Only what lies in a directory can fail to be removed. *)
Lemma unlink_record_refused f (t : Path) i e f' i' : well_founded f -> t <> [] ->
  unlink_retired_checkout_record f t i = (Err e, f', i') -> f' = f /\ i' = i /\ exists x, tree f !! t = Some (Folder x).
Proof.
  intros Hf Ht. unfold unlink_retired_checkout_record. destruct (symlink_metadata f _) as [n|] eqn:En; [|done].
  destruct (remove_file f _) as [f1|[]]; [done|done|]. intros [= _ <- <-]. split; [done|]. split; [done|].
  destruct (Hf t (Normal RECORD_FILE) ltac:(by exists n) Ht) as [_ ?]. done.
Qed.

(** A checkout is an entry of the root. *)
Lemma kept_remove_checkout (root : Path) n e s s' : root <> [] -> directory e = child root n -> kept s ->
  remove_checkout false e s = Ok s' -> kept s'.
Proof.
  intros Hr He Ha. unfold remove_checkout. rewrite He. destruct (retire _ _) as [r f] eqn:E.
  destruct (good_retire _ (ledger s) root n r f (accounts_good _ _ _ _ Ha) Hr E) as (Hg & Hin & Hres).
  assert (Haf : accounted f (ledger s)) by by apply (accounts_step _ _ (fs (world s)) (ledger s)).
  destruct r as [[t|]|x]; [|by intros [= <-]..]. destruct Hres as (m & -> & _ & Hne & Hgone & _).
  destruct (unlink_retired_checkout_record _ _ _) as [[r f1] i1] eqn:E1.
  destruct (good_unlink_record f (child root m) (ledger s) r f1 i1 Hg ltac:(by destruct root) E1) as (Hg1 & Hin1 & Hd1 & Hsub).
  assert (Ha1 : accounted f1 i1) by by apply (accounts_step _ _ f (ledger s)).
  destruct r as [|x].
  - destruct (remove_tree f1 _ false i1) as [[gone f2] i2] eqn:E2. intros [= <-].
    assert (accounted f2 i2) by (apply (accounts_remove_tree f1 i1 (child root m) gone f2 i2); [done|by destruct root|done]).
    by destruct gone.
  - destruct (unlink_record_refused f (child root m) (ledger s) x f1 i1 (inv_tree _ _ (good_inv _ _ Hg)) ltac:(by destruct root) E1)
      as (-> & -> & y & Hy).
    destruct (rename f _ _) as [f2|] eqn:E2; [|done]. intros [= <-].
    destruct (good_rename_folder f (ledger s) root m n f2 Hg Hr (not_eq_sym Hne)) as [Hg2 Hin2]; [|done|].
    + intros z Hz. rewrite Hy in Hz. by injection Hz as <-.
    + by apply (accounts_step _ _ f (ledger s)).
Qed.

Lemma kept_collect_checkouts (root : Path) found index s s' : root <> [] ->
  Forall (fun e => exists n, directory e = child root n) found -> kept s ->
  collect_checkouts false found index s = Ok s' -> kept s'.
Proof.
  intros Hr Hl. revert index s. induction Hl as [|e found [n He] Hl IH]; intros index s Hs; cbn [collect_checkouts]; [by intros [= <-]|].
  set (r := match workspace_root e with None => _ | Some _ => _ end). intros Hgo.
  assert (Hr1 : forall s1, r = Ok s1 -> kept s1).
  { intros s1. unfold r. destruct (workspace_root e); [|by intros [= <-]]. destruct (_ || _); [by intros [= <-]|].
    destruct (deletion_guard _ _ _) as [[]|]; [by intros [= <-]| |by intros [= <-]].
    destruct (has_new_unit _ _ _); [by intros [= <-]|]. by apply (kept_remove_checkout root n). }
  clearbody r. destruct r as [s1|]; [|done]. apply (IH (S index) s1); [by apply Hr1|exact Hgo].
Qed.
End Steps.
