(* ===== verification/IncrementalAccount.v ===== *)
(** * What a collection reports is what it did

    A measurement finds exactly the files its walk reaches; a snapshot measures
    exactly the files beneath checkouts and retired trees; and the figures of a
    collection are the sizes of those that are left and of those whose last
    name went.  [IncrementalDemo] runs one on a small disk on which a removal
    fails half way. *)

From stdpp Require Import base list gmap sets strings sorting.
From Stdlib Require Import ZArith Lia Ascii.
From S2P Require Import Prelude Strings PathMap RustcArgs HardLinks TreeRemoval Incremental IncrementalLedger IncrementalSteps.
Local Open Scope Z_scope.

(** ** What a measurement finds *)

(** A filesystem as the cache leaves it: the locks are empty, every file is
    there, and all of them fit in a counter. *)
Record sound (f : Files) : Prop := {
  sound_tree : well_founded f;
  sound_locks : empty_locks f;
  sound_backed : forall (p : Path) k, tree f !! p = Some (File k) -> is_Some (inodes f !! k);
  sound_fits : weigh f (dom (inodes f)) <= u64_max
}.

(** The files measured are there, and each has an owner. *)
Record measuring (f : Files) (i : Inodes) : Prop := {
  measuring_held : bytes i = held_bytes (files i);
  measuring_files : forall k len r, files i !! k = Some (len, r) -> len = length_of f k /\ 0 < r /\ on_disk f k
}.

Lemma measuring_nothing f : measuring f no_inodes.
Proof. constructor; [done|]. by intros k len r. Qed.

(** The files a walk comes upon. *)
Definition file_of (x : Path * Node) : option FileKey := match x.2 with File k => Some k | _ => None end.

Lemma meet_files (f : Files) (l : list (Path * Node)) (m : gmap FileKey (Z * Z)) (keys : gset FileKey) :
  let '(m', keys') := fold_left (fun s x => meet f x.1 x.2 s) l (m, keys) in
  (forall k, m' !! k = match m !! k with Some x => Some x | None => if decide (k ∈ omap file_of l) then Some (length_of f k, 0) else None end) /\
  (forall k, k ∈ keys' <-> k ∈ keys \/ k ∈ omap file_of l).
Proof.
  revert m keys. induction l as [|[p n] l IH]; intros m keys.
  { simpl. split; intros k; [by destruct (m !! k)|]. rewrite elem_of_nil. tauto. }
  destruct n as [t|k0|target t]; [apply IH| |apply IH]. cbn [fold_left fst snd meet].
  specialize (IH (match m !! k0 with Some _ => m | None => <[k0 := (length_of f k0, 0)]> m end) ({[ k0 ]} ∪ keys)).
  destruct (fold_left _ l _) as [m' keys']. destruct IH as [Hm Hk]. split; intros k.
  - rewrite Hm. cbn [omap list_omap file_of snd]. destruct (decide (k = k0)) as [->|Hne].
    + destruct (m !! k0) as [x|] eqn:E; [by rewrite E|]. rewrite lookup_insert_eq, decide_True; [done|by left].
    + replace ((match m !! k0 with Some _ => m | None => <[k0 := (length_of f k0, 0)]> m end) !! k) with (m !! k)
        by (destruct (m !! k0); [done|by rewrite lookup_insert_ne]).
      destruct (m !! k); [done|]. destruct (decide (k ∈ omap file_of l)), (decide (k ∈ _)) as [Hd|Hd]; try done.
      * exfalso. apply Hd. by right.
      * apply elem_of_cons in Hd as [|]; done.
  - rewrite Hk. cbn [omap list_omap file_of snd]. rewrite elem_of_union, elem_of_singleton, elem_of_cons. tauto.
Qed.

Lemma held_at_most (f : Files) (m : gmap FileKey (Z * Z)) : (forall k len r, m !! k = Some (len, r) -> len = length_of f k) -> held_bytes m <= weigh f (dom m).
Proof.
  intros Hm. rewrite (held_weigh f m (fun k => is_some_and (fun x => 0 <? x.2) (m !! k) = true)).
  - apply weigh_mono. intros k Hk. by apply elem_of_filter in Hk as [_ Hk].
  - intros k len r Hk. split; [by eapply Hm|]. rewrite Hk. cbn. rewrite Z.ltb_lt. tauto.
Qed.

(** One more owner each. *)
Lemma reference_spec (f : Files) i k len r : lengths_right f i -> bytes i = held_bytes (files i) -> weigh f (dom (files i)) <= u64_max ->
  files i !! k = Some (len, r) ->
  files (reference i k) = <[k := (len, r + 1)]> (files i) /\ bytes (reference i k) = held_bytes (files (reference i k)).
Proof.
  intros Hl Hb Hfit Hk. unfold reference. rewrite Hk. cbn [files bytes]. split; [done|].
  destruct (Hl _ _ _ Hk) as [Hlen Hr]. rewrite (held_insert _ _ len r (r + 1) Hk), <- Hb.
  destruct (Z.eqb_spec r 0) as [Hz|Hne]; destruct (Z.ltb_spec 0 r), (Z.ltb_spec 0 (r + 1)); try lia.
  - subst r. unfold saturating_add. rewrite Z.min_r; [lia|].
    assert (Hle : held_bytes (<[k := (len, 0 + 1)]> (files i)) <= weigh f (dom (<[k := (len, 0 + 1)]> (files i)))).
    { apply held_at_most. intros k' len' r' [[<- [= <- <-]]|[_ Hk']]%lookup_insert_Some; [done|by apply (Hl k' len' r')]. }
    rewrite dom_insert_lookup_L in Hle by by eexists. rewrite (held_insert _ _ len 0 (0 + 1) Hk), <- Hb in Hle. change (0 <? 0) with false in Hle. change (0 <? 0 + 1) with true in Hle. cbv iota in Hle. lia.
Qed.

Lemma references_spec (f : Files) l i : lengths_right f i -> bytes i = held_bytes (files i) -> weigh f (dom (files i)) <= u64_max ->
  NoDup l -> (forall k, k ∈ l -> is_Some (files i !! k)) ->
  let i' := fold_left reference l i in
  bytes i' = held_bytes (files i') /\
  forall k, files i' !! k = if decide (k ∈ l) then (fun x => (x.1, x.2 + 1)) <$> files i !! k else files i !! k.
Proof.
  intros Hl Hb Hfit Hnd Hall. revert i Hl Hb Hfit Hall. induction Hnd as [|k l Hni Hnd IH]; intros i Hl Hb Hfit Hall.
  { split; [done|]. intros k. by rewrite decide_False by apply not_elem_of_nil. }
  cbn [fold_left]. destruct (Hall k ltac:(by left)) as [[len r] Hk].
  destruct (reference_spec f i k len r Hl Hb Hfit Hk) as [Hf Hb'].
  destruct (IH (reference i k)) as [Hb2 Hk2].
  - intros k' len' r'. rewrite Hf. intros [[<- [= <- <-]]|[_ Hk']]%lookup_insert_Some; [|by apply Hl].
    destruct (Hl _ _ _ Hk). lia.
  - done.
  - rewrite Hf, dom_insert_lookup_L; [done|by eexists].
  - intros k' Hk'. rewrite Hf. rewrite lookup_insert_ne; [apply Hall; by right|]. by intros <-.
  - split; [done|]. intros k'. rewrite Hk2, Hf. destruct (decide (k' = k)) as [->|Hne].
    + rewrite decide_False, decide_True, lookup_insert_eq, Hk by (done || by left). done.
    + rewrite lookup_insert_ne by done. destruct (decide (k' ∈ l)) as [H1|H1], (decide (k' ∈ k :: l)) as [H2|H2]; try done.
      * exfalso. apply H2. by right.
      * apply elem_of_cons in H2 as [|]; done.
Qed.

(** The bytes of the files that have an owner. *)
Lemma held_owned (f : Files) (m : gmap FileKey (Z * Z)) (owned : gset FileKey) :
  (forall k len r, m !! k = Some (len, r) -> len = length_of f k /\ (0 < r <-> k ∈ owned)) -> owned ⊆ dom m ->
  held_bytes m = weigh f owned.
Proof.
  intros Hm Hsub. rewrite (held_weigh f m (fun k => k ∈ owned)).
  - f_equal. apply set_eq. intros k. rewrite elem_of_filter. split; [by intros [? _]|]. intros Hk. split; [done|by apply Hsub].
  - intros k len r Hk. destruct (Hm _ _ _ Hk) as [-> Hr]. split; [done|]. rewrite Hr. tauto.
Qed.

Section Measured.
Context `{OsLaws}.

(** The files beneath [root] that a walk that leaves out [excluded] finds. *)
Definition found_at (f : Files) (excluded : gset Path) (root : Path) (k : FileKey) : Prop :=
  exists p : Path, tree f !! p = Some (File k) /\ visited (fun p => bool_decide (p ∈ excluded)) root p = true.

Lemma walk_finds (f : Files) (excluded : gset Path) (root : Path) (k : FileKey) : well_founded f -> root <> [] ->
  k ∈ omap file_of (reached (rounds f) f (fun p => bool_decide (p ∈ excluded)) [root]) <-> found_at f excluded root k.
Proof.
  intros Hf Hr. rewrite list_elem_of_omap. unfold found_at. split.
  - intros ([p n] & Hin & Hn). apply elem_of_reached in Hin as [Hp Hv]; [|done|done]. exists p. split; [|done].
    destruct n; try done. by injection Hn as ->.
  - intros (p & Hp & Hv). exists (p, File k). split; [|done]. by apply elem_of_reached.
Qed.

(** The walk gives what it finds no owner yet. *)
Lemma met_spec (f : Files) (i : Inodes) (found : list FileKey) (m : gmap FileKey (Z * Z)) : sound f -> measuring f i ->
  (forall k, k ∈ found -> on_disk f k) ->
  (forall k, m !! k = match files i !! k with Some x => Some x | None => if decide (k ∈ found) then Some (length_of f k, 0) else None end) ->
  (forall k, k ∈ dom m <-> k ∈ dom (files i) \/ k ∈ found) /\
  lengths_right f (mkInodes m (bytes i)) /\ bytes i = held_bytes m /\ weigh f (dom m) <= u64_max /\
  (forall k len r, m !! k = Some (len, r) -> len = length_of f k /\ on_disk f k /\ ((0 < r) \/ (r = 0 /\ k ∈ found))).
Proof.
  intros Hs [Hb Hi] Hon Hm.
  assert (Hfresh : forall k len r, m !! k = Some (len, r) -> len = length_of f k /\ on_disk f k /\
    ((0 < r /\ files i !! k = Some (len, r)) \/ (r = 0 /\ files i !! k = None /\ k ∈ found))).
  { intros k len r Hmk. rewrite Hm in Hmk. destruct (files i !! k) as [x|] eqn:E.
    - injection Hmk as ->. destruct (Hi k len r E) as (? & ? & ?). auto.
    - destruct (decide _) as [Hd|]; [|done]. injection Hmk as <- <-. split; [done|]. split; [by apply Hon|auto]. }
  assert (Hdom : forall k, k ∈ dom m <-> k ∈ dom (files i) \/ k ∈ found).
  { intros k. rewrite !elem_of_dom, Hm. destruct (files i !! k) as [x|]; [split; [left|]; by eexists|].
    destruct (decide _); split; try (intros [? ?]; done); [by right|by eexists|intros [[? ?]|?]; done]. }
  split; [done|]. split; [|split; [|split]].
  - intros k len r Hmk. destruct (Hfresh k len r Hmk) as (? & ? & Hor). split; [done|]. destruct Hor as [[? _]|[? _]]; lia.
  - rewrite Hb, (held_owned f (files i) (dom (files i))); [rewrite (held_owned f m (dom (files i)))|..]; try done.
    + intros k len r Hmk. destruct (Hfresh k len r Hmk) as (? & _ & Hor). split; [done|]. rewrite elem_of_dom.
      destruct Hor as [[? E]|(? & E & _)]; rewrite E; split; [by eexists|done|lia|by intros [? ?]].
    + intros k Hin. rewrite Hdom. by left.
    + intros k len r Hik. destruct (Hi _ _ _ Hik) as (? & ? & _). split; [done|]. split; [|done]. intros _. rewrite elem_of_dom. by eexists.
  - etrans; [|apply Hs]. apply weigh_mono. intros k Hin. apply elem_of_dom in Hin as [[len r] Hmk].
    destruct (Hfresh k len r Hmk) as (_ & [p Hp] & _). apply elem_of_dom. by apply (sound_backed _ Hs p).
  - intros k len r Hmk. destruct (Hfresh k len r Hmk) as (? & ? & [[? _]|(? & _ & ?)]); auto.
Qed.

Lemma measure_spec (f : Files) (i : Inodes) (root : Path) (excluded : gset Path) keys i' : sound f -> measuring f i -> root <> [] ->
  measure f i root excluded = (keys, i') ->
  measuring f i' /\ forall k, k ∈ dom (files i') <-> k ∈ dom (files i) \/ found_at f excluded root k.
Proof.
  intros Hs Hi Hr. unfold measure. rewrite visit_tree_spec. set (l := reached _ _ _ _).
  assert (Hfound : forall k, k ∈ omap file_of l <-> found_at f excluded root k) by (intros k; apply walk_finds; [apply Hs|done]).
  clearbody l. pose proof (meet_files f l (files i) ∅) as Hmeet. destruct (fold_left _ l _) as [m seen]. destruct Hmeet as [Hm Hk].
  intros [= <- <-]. destruct (met_spec f i (omap file_of l) m Hs Hi) as (Hdom & Hlr & Hheld & Hfit & Hfresh); [|done|].
  { intros k Hin. apply Hfound in Hin as (p & Hp & _). by exists p. }
  assert (Hseen : forall k, k ∈ elements seen <-> k ∈ omap file_of l).
  { intros k. rewrite elem_of_elements, Hk, elem_of_empty. tauto. }
  destruct (references_spec f (elements seen) (mkInodes m (bytes i)) Hlr Hheld Hfit (NoDup_elements _)) as [Hb' Hf'].
  { intros k Hin. apply elem_of_dom, Hdom. right. by apply Hseen. }
  split.
  - constructor; [done|]. intros k len r. rewrite Hf'. cbn [files]. destruct (decide _) as [Hd|Hd].
    + destruct (m !! k) as [[len0 r0]|] eqn:E; [|done]. intros [= <- <-].
      destruct (Hfresh k _ _ E) as (? & ? & [?|[? _]]); repeat split; try done; simpl; lia.
    + intros E. destruct (Hfresh k _ _ E) as (? & ? & [?|[_ Hbad]]); [done|]. destruct Hd. by apply Hseen.
  - intros k. rewrite <- Hfound, <- Hdom, !elem_of_dom, Hf'. cbn [files]. destruct (decide _); [|done]. apply fmap_is_Some.
Qed.
End Measured.

(** ** What a snapshot holds *)

Section Snapshot.
Context `{OsLaws}.
Context {M : Machine} (f : Files) (Hsound : sound f).

(** A measurement beneath [d]: whatever is new has a name there. *)
Record grows (d : Path) (i i' : Inodes) : Prop := {
  grows_measuring : measuring f i';
  grows_more : dom (files i) ⊆ dom (files i');
  grows_within : forall k, k ∈ dom (files i') -> k ∈ dom (files i) \/ exists p : Path, tree f !! p = Some (File k) /\ starts_with p d = true
}.

Lemma grows_refl d i : measuring f i -> grows d i i.
Proof. intros Hi. constructor; [done|done|]. by left. Qed.

Lemma grows_trans d i1 i2 i3 : grows d i1 i2 -> grows d i2 i3 -> grows d i1 i3.
Proof.
  intros [H1 S1 W1] [H2 S2 W2]. constructor; [done|by etrans|]. intros k Hk. destruct (W2 k Hk) as [Hk2|?]; [by apply W1|by right].
Qed.

Lemma grows_above d d' i i' : starts_with d d' = true -> grows d i i' -> grows d' i i'.
Proof.
  intros Hd [Hm Hs Hw]. constructor; [done|done|]. intros k Hk. destruct (Hw k Hk) as [?|(p & Hp & Hpd)]; [by left|].
  right. exists p. split; [done|]. by apply (starts_with_trans p d d').
Qed.

(** Every file beneath a path is measured. *)
Definition covers (i : Inodes) (x : Path) : Prop :=
  forall (p : Path) k, tree f !! p = Some (File k) -> starts_with p x = true -> k ∈ dom (files i).

Lemma covers_more d i i' x : grows d i i' -> covers i x -> covers i' x.
Proof. intros Hg Hc p k Hp Hx. apply (grows_more _ _ _ Hg). by apply (Hc p). Qed.

Lemma let_in_stops excluded (from rest : Path) : let_in excluded from rest = false ->
  exists x : Path, excluded x = true /\ starts_with (from ++ rest)%list x = true.
Proof.
  revert from. induction rest as [|c rest IH]; intros from; cbn [let_in]; rewrite andb_false_iff, negb_false_iff.
  - intros [He|]; [|done]. exists from. split; [done|]. apply starts_with_spec. by eexists.
  - intros [He|Hr]; [exists from; split; [done|]; apply starts_with_spec; by eexists|].
    destruct (IH _ Hr) as (x & Hx & Hs). exists x. split; [done|]. by rewrite <- app_assoc in Hs.
Qed.

(** What a walk left out lies beneath what it was told to leave out. *)
Lemma left_out excluded (p q : Path) : starts_with q p = true ->
  visited excluded p q = true \/ exists x : Path, excluded x = true /\ starts_with q x = true.
Proof.
  intros [rest ->]%starts_with_spec. unfold visited. rewrite strip_path_app.
  destruct (let_in excluded p rest) eqn:E; [by left|]. right. by apply let_in_stops.
Qed.

Lemma measure_grows (root : Path) (excluded : gset Path) i keys i' : measuring f i -> root <> [] ->
  measure f i root excluded = (keys, i') ->
  grows root i i' /\ ((forall x, x ∈ excluded -> covers i' x) -> covers i' root).
Proof.
  intros Hi Hr E. destruct (measure_spec f i root excluded keys i' Hsound Hi Hr E) as [Hm Hd]. split.
  - constructor; [done| |].
    + intros k Hk. apply Hd. by left.
    + intros k [?|(p & Hp & Hv)]%Hd; [by left|]. right. exists p. split; [done|]. by eapply visited_under.
  - intros Hx p k Hp Hs. destruct (left_out (fun p => bool_decide (p ∈ excluded)) root p Hs) as [Hv|(x & Hex & Hpx)].
    + apply Hd. right. by exists p.
    + apply bool_decide_eq_true in Hex. by apply (Hx x Hex p).
Qed.

Lemma measure_all_grows (root : Path) i keys i' : measuring f i -> root <> [] -> measure f i root ∅ = (keys, i') ->
  grows root i i' /\ covers i' root.
Proof.
  intros Hi Hr E. destruct (measure_grows root ∅ i keys i' Hi Hr E) as [Hg Hc]. split; [done|]. apply Hc. by intros x ?%elem_of_empty.
Qed.

Lemma nested_entries_child (d p : Path) : p ∈ nested_entries f d -> exists n, p = child d n.
Proof.
  unfold nested_entries. destruct (read_directory f d); [|by intros ?%elem_of_nil]. intros (n & -> & _)%list_elem_of_fmap. by exists n.
Qed.

Lemma session_lock_is_lock n l : session_lock_name n = Some l -> ends_in ".lock" l = true.
Proof.
  unfold session_lock_name. intros (s & _ & Hs)%bind_Some. apply bind_Some in Hs as ([a r1] & _ & Hs).
  apply bind_Some in Hs as ([b r2] & _ & Hs). apply bind_Some in Hs as ([c r3] & _ & [= <-]).
  apply ends_in_spec. exists (a ++ "-" ++ b ++ "-" ++ c)%string. by rewrite !app_assoc_string.
Qed.

(** The finished sessions of a unit, each beside its lock. *)
Lemma finished_sessions_shaped (unit : Path) s l : (s, l) ∈ finished_sessions f unit ->
  starts_with s unit = true /\ forall keys, session_shaped (mkSession s l keys).
Proof.
  unfold finished_sessions. intros ([[t s'] l'] & [= -> ->] & Hin)%list_elem_of_fmap.
  rewrite merge_sort_Permutation in Hin. apply list_elem_of_In, in_flat_map in Hin as (krate & Hk & Hin).
  apply filter_In in Hk as [Hk _]. apply list_elem_of_In, nested_entries_child in Hk as [kn ->].
  apply list_elem_of_In, list_elem_of_omap in Hin as (x & Hx & Hs).
  apply nested_entries_child in Hx as [n ->]. rewrite file_name_of_child in Hs.
  apply bind_Some in Hs as (lock & Hlock & Hs). destruct (_ || _) eqn:Eb; [done|]. apply orb_false_iff in Eb as [Hpre Hun].
  apply negb_false_iff in Hpre. apply bind_Some in Hs as (nd & _ & Hs). destruct (is_folder nd); [|done]. injection Hs as <- <- <-.
  split.
  { apply starts_with_spec. exists [Normal kn; Normal n]. unfold child. by rewrite <- !app_assoc. }
  intros keys. exists (child unit kn), n, lock. split; [by destruct unit|]. split; [done|]. split; [done|].
  split; [|by eapply session_lock_is_lock]. unfold is_unfinished_session, session_lock_name in *.
  destruct (to_str n) as [m|] eqn:Em; [|done]. change (is_some (strip_prefix "s-" m) && ends_in "-working" m = false) in Hun. assert (m = n) as -> by (unfold to_str in Em; destruct (utf8_from [] n); [by injection Em|done]).
  by rewrite Hpre in Hun.
Qed.

Lemma child_nonempty (d : Path) n : child d n <> [].
Proof. by destruct d. Qed.

Lemma measure_sessions_grows (unit : Path) l i found i' : measuring f i ->
  (forall s k, (s, k) ∈ l -> starts_with s unit = true /\ (forall keys, session_shaped (mkSession s k keys))) ->
  measure_sessions f i l = (found, i') ->
  grows unit i i' /\ Forall session_shaped found /\ Forall (fun s => covers i' (s_directory s)) found.
Proof.
  revert i found i'. induction l as [|[s k] l IH]; intros i found i' Hi Hl; cbn [measure_sessions].
  { intros [= <- <-]. split; [by apply grows_refl|]. split; constructor. }
  destruct (measure f i s ∅) as [keys i1] eqn:E1. destruct (measure_sessions f i1 l) as [rest i2] eqn:E2. intros [= <- <-].
  destruct (Hl s k ltac:(by left)) as [Hs Hshape]. assert (Hs0 : s <> []) by (destruct (Hshape []) as (d & n & ? & _ & He & _); cbn in He; subst s; apply child_nonempty).
  destruct (measure_all_grows s i keys i1 Hi Hs0 E1) as [Hg1 Hc1]. apply (grows_above _ unit _ _ Hs) in Hg1.
  destruct (IH i1 rest i2 (grows_measuring _ _ _ Hg1)) as (Hg2 & Hsh & Hc2); [|done|].
  { intros s' k' Hin. apply (Hl s' k'). by right. }
  split; [by apply (grows_trans _ _ i1)|]. split; constructor; [apply Hshape|done| |done]. cbn. by apply (covers_more unit i1).
Qed.

Lemma measure_records_grows (d : Path) names i keys i' : measuring f i ->
  measure_records f i (map (child d) names) = (keys, i') ->
  grows d i i' /\ Forall (covers i') (map (child d) names).
Proof.
  revert i keys i'. induction names as [|n names IH]; intros i keys i' Hi; cbn [map measure_records].
  { intros [= <- <-]. split; [by apply grows_refl|constructor]. }
  destruct (measure f i (child d n) ∅) as [ks i1] eqn:E1. destruct (measure_records f i1 _) as [rest i2] eqn:E2. intros [= <- <-].
  destruct (measure_all_grows (child d n) i ks i1 Hi (child_nonempty d n) E1) as [Hg1 Hc1].
  apply (grows_above _ d _ _ (child_under d n)) in Hg1.
  destruct (IH i1 rest i2 (grows_measuring _ _ _ Hg1) E2) as [Hg2 Hc2].
  split; [by apply (grows_trans _ _ i1)|]. constructor; [by apply (covers_more d i1)|done].
Qed.

(** A unit beside its records. *)
Lemma measure_unit_grows (d : Path) n i u i' : d <> [] -> measuring f i -> measure_unit f i (child d n) = (u, i') ->
  grows d i i' /\ forall u', u = Some u' -> u_directory u' = child d n /\ unit_shaped u' /\ Forall (covers i') (child d n :: records u').
Proof.
  intros Hd Hi. unfold measure_unit. destruct (unit_last_used f _) as [used|]; [|intros [= <- <-]; split; [by apply grows_refl|done]].
  destruct (measure_sessions f i _) as [found i1] eqn:E1.
  destruct (measure_sessions_grows (child d n) _ i found i1 Hi (fun s k => finished_sessions_shaped (child d n) s k) E1) as (Hg1 & Hsh & Hc1).
  destruct (measure f i1 (child d n) _) as [keys i2] eqn:E2.
  destruct (measure_grows _ _ i1 keys i2 (grows_measuring _ _ _ Hg1) (child_nonempty d n) E2) as [Hg2 Hc2].
  destruct (with_extension_child d n "json") as (stem & _ & Hj). destruct (with_extension_child d n "use") as (stem' & Hst & Hu).
  set (names := if is_seeding (child d n) then [] else [stem ++ ".json"; stem' ++ ".use"]%string).
  assert (Hrec : (if is_seeding (child d n) then [] else [with_extension (child d n) "json"; use_stamp_path (child d n)]) = map (child d) names).
  { unfold names, use_stamp_path. destruct (is_seeding _); [done|]. rewrite Hj. by setoid_rewrite Hu. }
  rewrite Hrec. destruct (measure_records f i2 (map (child d) names)) as [rkeys i3] eqn:E3. intros [= <- <-].
  destruct (measure_records_grows d names i2 rkeys i3 (grows_measuring _ _ _ Hg2) E3) as [Hg3 Hc3].
  pose proof (grows_above _ d _ _ (child_under d n) Hg1) as Hd1. pose proof (grows_above _ d _ _ (child_under d n) Hg2) as Hd2.
  split; [apply (grows_trans _ _ i1); [done|]; by apply (grows_trans _ _ i2)|]. intros u' [= <-]. cbn. split; [done|]. split.
  - exists d, n, names. cbn. split; [done|]. split; [done|]. split; [done|]. split; [|split; [|done]].
    + unfold names. destruct (is_seeding _); [constructor|]. apply NoDup_cons. split; [|apply NoDup_singleton].
      intros He%list_elem_of_singleton. apply (f_equal after_dot) in He.
      pose proof (after_dot_app stem "json" eq_refl). pose proof (after_dot_app stem' "use" eq_refl). simpl in *. congruence.
    + unfold names. destruct (is_seeding _); [by constructor|]. apply Forall_cons. split; [left; by apply after_dot_app|].
      apply Forall_singleton. right. by apply after_dot_app.
  - constructor; [|done]. apply (covers_more d i2); [done|]. apply Hc2. intros x Hx%elem_of_list_to_set.
    apply list_elem_of_In, in_map_iff in Hx as (s & <- & Hs). apply (covers_more (child d n) i1); [done|].
    rewrite Forall_forall in Hc1. by apply Hc1, list_elem_of_In.
Qed.

Lemma covers_all_more d i i' (l : list Path) : grows d i i' -> Forall (covers i) l -> Forall (covers i') l.
Proof. intros Hg Hl. eapply Forall_impl; [exact Hl|]. intros x. by apply covers_more with d. Qed.

Lemma units_of_grows (b : Path) l i us os i' : b <> [] -> measuring f i -> (forall p, p ∈ l -> exists n, p = child b n) ->
  units_of f i l = (us, os, i') ->
  grows b i i' /\ Forall unit_shaped us /\ Forall (fun u => Forall (covers i') (u_directory u :: records u)) us /\
  Forall (fun o => o.1 <> [] /\ covers i' o.1) os.
Proof.
  intros Hb. revert i us os i'. induction l as [|p l IH]; intros i us os i' Hi Hl; cbn [units_of].
  { intros [= <- <- <-]. split; [by apply grows_refl|]. repeat split; constructor. }
  destruct (Hl p ltac:(by left)) as [n ->]. assert (Hl' : forall q, q ∈ l -> exists n, q = child b n) by (intros q Hq; apply Hl; by right).
  destruct (retired_at _); [by apply IH|]. destruct (symlink_metadata f _) as [[t|k|target t]|]; [| |by apply IH..].
  - destruct (measure_unit f i _) as [u i1] eqn:E1. destruct (units_of f i1 l) as [[us1 os1] i2] eqn:E2. intros [= <- <- <-].
    destruct (measure_unit_grows b n i u i1 Hb Hi E1) as [Hg1 Hu].
    destruct (IH i1 us1 os1 i2 (grows_measuring _ _ _ Hg1) Hl' E2) as (Hg2 & Hsh & Hc & Ho).
    split; [by apply (grows_trans _ _ i1)|]. destruct u as [u|]; [|done]. destruct (Hu u eq_refl) as (Hd & Hs & Hcu).
    split; [by constructor|]. split; [|done]. constructor; [|done]. rewrite Hd. by apply (covers_all_more b i1).
  - destruct (_ && _); [|by apply IH]. destruct (measure f i _ ∅) as [keys i1] eqn:E1.
    destruct (units_of f i1 l) as [[us1 os1] i2] eqn:E2. intros [= <- <- <-].
    destruct (measure_all_grows (child b n) i keys i1 Hi (child_nonempty b n) E1) as [Hg1 Hc1].
    apply (grows_above _ b _ _ (child_under b n)) in Hg1.
    destruct (IH i1 us1 os1 i2 (grows_measuring _ _ _ Hg1) Hl' E2) as (Hg2 & Hsh & Hc & Ho).
    split; [by apply (grows_trans _ _ i1)|]. split; [done|]. split; [done|]. constructor; [|done]. cbn.
    split; [apply child_nonempty|by apply (covers_more b i1)].
Qed.

(** The files beneath some paths. *)
Definition beneath (l : list Path) : gset FileKey :=
  list_to_set (omap (fun x => match x.2 with File k => if existsb (starts_with x.1) l then Some k else None | _ => None end)
    (map_to_list (tree f))).

Lemma elem_of_beneath l k : k ∈ beneath l <-> exists p x : Path, tree f !! p = Some (File k) /\ x ∈ l /\ starts_with p x = true.
Proof.
  unfold beneath. rewrite elem_of_list_to_set, list_elem_of_omap. split.
  - intros ([p n] & Hin%elem_of_map_to_list & Hs). cbn in Hs. destruct n as [|k0|]; [done| |done].
    destruct (existsb _ l) eqn:E; [|done]. injection Hs as ->. apply existsb_exists in E as (x & Hx & Hpx).
    exists p, x. split; [done|]. split; [by apply list_elem_of_In|done].
  - intros (p & x & Hp & Hx & Hpx). exists (p, File k). split; [by apply elem_of_map_to_list|]. cbn.
    replace (existsb (starts_with p) l) with true; [done|]. symmetry. apply existsb_exists. exists x. by rewrite <- list_elem_of_In.
Qed.

(** Measurements beneath some paths. *)
Record spreads (l : list Path) (i i' : Inodes) : Prop := {
  spreads_measuring : measuring f i';
  spreads_more : dom (files i) ⊆ dom (files i');
  spreads_within : dom (files i') ⊆ dom (files i) ∪ beneath l
}.

Lemma spreads_refl l i : measuring f i -> spreads l i i.
Proof. intros Hi. constructor; [done..|]. intros k Hk. apply elem_of_union. by left. Qed.

Lemma spreads_trans l i1 i2 i3 : spreads l i1 i2 -> spreads l i2 i3 -> spreads l i1 i3.
Proof.
  intros [H1 S1 W1] [H2 S2 W2]. constructor; [done|by etrans|]. intros k [Hk|?]%W2%elem_of_union; [by apply W1|apply elem_of_union; by right].
Qed.

Lemma grows_spreads d l i i' : d ∈ l -> grows d i i' -> spreads l i i'.
Proof.
  intros Hd [Hm Hs Hw]. constructor; [done..|]. intros k Hk. apply elem_of_union. destruct (Hw k Hk) as [?|(p & Hp & Hpd)]; [by left|].
  right. apply elem_of_beneath. eauto.
Qed.

(** Every file beneath a path is measured, but for those beneath some others. *)
Definition covers_but (others : list Path) (i : Inodes) (x : Path) : Prop :=
  forall (p : Path) k, tree f !! p = Some (File k) -> starts_with p x = true ->
    k ∈ dom (files i) \/ exists t, t ∈ others /\ starts_with p t = true.

Lemma entry_of_grows (root : Path) n i e i' : measuring f i -> entry_of f i (child root n) = (e, i') ->
  grows (child root n) i i' /\ directory e = child root n /\ Forall unit_shaped (e_units e) /\
  Forall (fun o => o.1 <> []) (orphan_stamps e) /\
  covers_but (retired_children f (child (child root n) "blake3")) i' (child root n).
Proof.
  intros Hi. unfold entry_of, units. set (p := child root n). set (b := child p "blake3").
  destruct (units_of f i (nested_entries f b)) as [[us os] i1] eqn:E1.
  destruct (units_of_grows b _ i us os i1 (child_nonempty p _) Hi (nested_entries_child b) E1) as (Hg1 & Hsh & Hc1 & Ho).
  apply (grows_above b p _ _ (child_under p _)) in Hg1. set (excl := list_to_set _).
  destruct (measure f i1 p excl) as [keys i2] eqn:E2. intros [= <- <-].
  assert (Hp : p <> []) by apply child_nonempty.
  destruct (measure_spec f i1 p excl keys i2 Hsound (grows_measuring _ _ _ Hg1) Hp E2) as [_ Hd].
  destruct (measure_grows p excl i1 keys i2 (grows_measuring _ _ _ Hg1) Hp E2) as [Hg2 _].
  split; [by apply (grows_trans _ _ i1)|]. split; [done|]. split; [done|]. split.
  { eapply Forall_impl; [exact Ho|]. by intros o [? _]. }
  intros q k Hq Hqp. destruct (left_out (fun x => bool_decide (x ∈ excl)) p q Hqp) as [Hv|(x & Hx & Hqx)].
  { left. apply Hd. right. by exists q. }
  apply bool_decide_eq_true in Hx. unfold excl in Hx. rewrite elem_of_list_to_set, !elem_of_app in Hx.
  assert (Hcov : forall y, covers i1 y -> starts_with q y = true -> k ∈ dom (files i2))
    by (intros y Hy Hqy; apply (covers_more p i1 i2 y Hg2 Hy q k Hq Hqy)).
  rewrite Forall_forall in Hc1. rewrite Forall_forall in Ho. destruct Hx as [Hx|[Hx|[Hx|Hx]]]; [left..|right; eauto].
  - apply list_elem_of_In, in_map_iff in Hx as (u & <- & Hu). apply (Hcov (u_directory u)); [|done].
    by apply list_elem_of_In, Hc1, Forall_cons in Hu as [? _].
  - apply list_elem_of_In, in_flat_map in Hx as (u & Hu & Hr). apply (Hcov x); [|done].
    apply list_elem_of_In, Hc1, Forall_cons in Hu as [_ Hall]. rewrite Forall_forall in Hall. by apply Hall, list_elem_of_In.
  - apply list_elem_of_In, in_map_iff in Hx as (o & <- & Hin). apply (Hcov o.1); [|done]. by apply list_elem_of_In, Ho in Hin as [_ ?].
Qed.

Definition entry_shaped (root : Path) (e : Entry) : Prop :=
  (exists n, directory e = child root n) /\ Forall unit_shaped (e_units e) /\ Forall (fun o => o.1 <> []) (orphan_stamps e).

Lemma covers_but_more l others i i' x : spreads l i i' -> covers_but others i x -> covers_but others i' x.
Proof. intros Hs Hc p k Hp Hx. destruct (Hc p k Hp Hx) as [?|?]; [left; by apply (spreads_more _ _ _ Hs)|by right]. Qed.

Lemma entries_of_spec (root : Path) all l i found i' : measuring f i -> (forall p, p ∈ l -> exists n, p = child root n) ->
  (forall p, p ∈ l -> is_checkout f p = true -> p ∈ all) -> entries_of f i l = (found, i') ->
  spreads all i i' /\ Forall (entry_shaped root) found /\
  forall p, p ∈ l -> is_checkout f p = true -> covers_but (retired_children f (child p "blake3")) i' p.
Proof.
  revert i found i'. induction l as [|p l IH]; intros i found i' Hi Hl Hall; cbn [entries_of].
  { intros [= <- <-]. split; [by apply spreads_refl|]. split; [constructor|]. by intros p ?%elem_of_nil. }
  assert (Hl' : forall q, q ∈ l -> exists n, q = child root n) by (intros q Hq; apply Hl; by right).
  assert (Hall' : forall q, q ∈ l -> is_checkout f q = true -> q ∈ all) by (intros q Hq; apply Hall; by right).
  destruct (is_checkout f p) eqn:Ep.
  2: { intros E. destruct (IH i found i' Hi Hl' Hall' E) as (? & ? & Hc). split; [done|]. split; [done|].
       intros q [->|Hq]%elem_of_cons Hq'; [congruence|by apply Hc]. }
  destruct (Hl p ltac:(by left)) as [n ->]. destruct (entry_of f i _) as [e i1] eqn:E1. destruct (entries_of f i1 l) as [rest i2] eqn:E2.
  intros [= <- <-]. destruct (entry_of_grows root n i e i1 Hi E1) as (Hg & Hd & Hu & Ho & Hc).
  destruct (IH i1 rest i2 (grows_measuring _ _ _ Hg) Hl' Hall' E2) as (Hs & Hsh & Hcov).
  split; [apply (spreads_trans _ _ i1); [|done]; apply (grows_spreads (child root n)); [|done]; apply Hall; [by left|done]|].
  split; [constructor; [|done]; split; [by exists n|done]|].
  intros q [->|Hq]%elem_of_cons Hq'; [by apply (covers_but_more all _ i1)|by apply Hcov].
Qed.

(** Measuring some trees, one after the other. *)
Lemma measure_trees_spec all l i : measuring f i -> (forall t, t ∈ l -> t ∈ all /\ t <> []) ->
  let i' := fold_left (fun i t => (measure f i t ∅).2) l i in spreads all i i' /\ forall t, t ∈ l -> covers i' t.
Proof.
  revert i. induction l as [|t l IH]; intros i Hi Hl; [split; [by apply spreads_refl|by intros t ?%elem_of_nil]|].
  cbn [fold_left]. destruct (measure f i t ∅) as [keys i1] eqn:E. destruct (Hl t ltac:(by left)) as [Hin Ht].
  destruct (measure_all_grows t i keys i1 Hi Ht E) as [Hg Hc]. cbn [snd].
  destruct (IH i1 (grows_measuring _ _ _ Hg)) as [Hs Hcov]; [intros t' Ht'; apply Hl; by right|].
  split; [apply (spreads_trans _ _ i1); [by apply (grows_spreads t)|done]|].
  intros t' [->|Ht']%elem_of_cons; [|by apply Hcov]. intros p k Hp Hpt. apply (spreads_more _ _ _ Hs). by apply (Hc p).
Qed.

Lemma covered_beneath l i : spreads l no_inodes i -> (forall p k x, tree f !! p = Some (File k) -> x ∈ l -> starts_with p x = true -> k ∈ dom (files i)) ->
  dom (files i) = beneath l.
Proof.
  intros [_ _ Hw] Hc. apply set_eq. intros k. split.
  - intros [Hk|?]%Hw%elem_of_union; [by apply elem_of_empty in Hk|done].
  - intros (p & x & Hp & Hx & Hpx)%elem_of_beneath. by apply (Hc p k x).
Qed.

(** The directories of a root that are collected. *)
Definition collected (root : Path) : list Path :=
  (List.filter (is_checkout f) (nested_entries f root) ++ retired_trees f root)%list.

Lemma retired_trees_nonempty root t : t ∈ retired_trees f root -> t <> [].
Proof.
  unfold retired_trees. intros [Hr|Hr]%elem_of_app.
  - apply list_elem_of_In, filter_In in Hr as [Hr _]. apply list_elem_of_In, nested_entries_child in Hr as [n ->]. apply child_nonempty.
  - apply list_elem_of_In, in_flat_map in Hr as (p & _ & Hr). destruct (is_checkout f p); [|done].
    apply filter_In in Hr as [Hr _]. apply list_elem_of_In, nested_entries_child in Hr as [n ->]. apply child_nonempty.
Qed.

(** A snapshot measures every file beneath the checkouts and the retired trees,
    and nothing else. *)
Lemma snapshot_spec root found i : root <> [] -> snapshot root f true = Ok (found, i) ->
  measuring f i /\ dom (files i) = beneath (collected root) /\ Forall (entry_shaped root) found.
Proof.
  intros Hr. unfold snapshot. destruct (read_directory f root) as [names|[]] eqn:Er; [| |done].
  - assert (Hn : map (child root) names = nested_entries f root) by (unfold nested_entries; by rewrite Er). rewrite Hn.
    destruct (entries_of f no_inodes _) as [es i1] eqn:E1. intros [= <- <-].
    destruct (entries_of_spec root (collected root) (nested_entries f root) no_inodes es i1 (measuring_nothing f)) as (Hs1 & Hsh & Hc1); [| |done|].
    { intros p Hp. by apply nested_entries_child in Hp. }
    { intros p Hp Hch. apply elem_of_app. left. by apply list_elem_of_In, filter_In; rewrite <- list_elem_of_In. }
    destruct (measure_trees_spec (collected root) (retired_trees f root) i1 (spreads_measuring _ _ _ Hs1)) as [Hs2 Hc2].
    { intros t Ht. split; [apply elem_of_app; by right|by apply (retired_trees_nonempty root)]. }
    set (i2 := fold_left _ _ _) in *. split; [by apply (spreads_measuring _ _ _ Hs2)|]. split; [|done].
    apply covered_beneath; [by apply (spreads_trans _ _ i1)|]. intros p k x Hp [Hx|Hx]%elem_of_app Hpx; [|by apply (Hc2 x Hx p)].
    apply list_elem_of_In, filter_In in Hx as [Hx Hch]. apply list_elem_of_In in Hx.
    destruct (Hc1 x Hx Hch p k Hp Hpx) as [?|(t & Ht & Hpt)]; [by apply (spreads_more _ _ _ Hs2)|].
    refine (Hc2 t _ p k Hp Hpt). apply elem_of_app. right. apply list_elem_of_In, in_flat_map. exists x.
    rewrite Hch, <- !list_elem_of_In. done.
  - intros [= <- <-]. split; [apply measuring_nothing|]. split; [|constructor].
    assert (Hno : nested_entries f root = []) by (unfold nested_entries; by rewrite Er).
    unfold collected, retired_trees, retired_children. rewrite Hno. cbn. apply set_eq. intros k. rewrite elem_of_beneath. split.
    + intros Hk. by apply elem_of_empty in Hk.
    + intros (p & x & _ & Hx & _). by apply elem_of_nil in Hx.
Qed.
End Snapshot.

(** ** The account of a collection *)

Section Account.
Context `{OsLaws} {M : Machine}.

Lemma measuring_good f i : sound f -> measuring f i -> good f i.
Proof.
  intros Hs [Hb Hi]. constructor; [|apply Hs]. constructor; [apply Hs| |done| |].
  - intros k len r Hk. destruct (Hi k len r Hk) as (? & ? & _). split; [done|lia].
  - intros k len r Hk. destruct (Hi k len r Hk) as (_ & ? & ?). auto.
  - intros k [[len r] Hk]. destruct (Hi k len r Hk) as (_ & _ & p & Hp). by apply (sound_backed _ Hs p).
Qed.

(** What a ledger that was right before and after says. *)
Lemma account_settled measured before f i : accounts measured before f i ->
  bytes i = weigh before (filter (on_disk f) measured) /\ forall k, k ∈ measured -> length_of f k = length_of before k.
Proof.
  intros [[Hi _] <- Hs]. assert (Hl : forall k, k ∈ dom (files i) -> length_of f k = length_of before k)
    by (intros k Hk; unfold length_of, inode; by rewrite Hs).
  split; [|done]. rewrite (inv_bytes f i Hi). apply weigh_same. intros k [_ Hk]%elem_of_filter. by apply Hl.
Qed.

(** The account at the start: every file is there. *)
Lemma account_opened f i : sound f -> measuring f i ->
  accounts (dom (files i)) f f i /\ bytes i = weigh f (dom (files i)) /\ weigh f (dom (files i)) <= weigh f (dom (inodes f)).
Proof.
  intros Hs Hi. split; [constructor; [by apply measuring_good|done|done]|]. destruct Hi as [Hb Hi]. split.
  - rewrite Hb. apply held_owned; [|done]. intros k len r Hk. destruct (Hi k len r Hk) as (? & ? & _). split; [done|].
    rewrite elem_of_dom, Hk. split; [by eexists|done].
  - apply weigh_mono. intros k [[len r] Hk]%elem_of_dom. destruct (Hi k len r Hk) as (_ & _ & p & Hp).
    apply elem_of_dom. by apply (sound_backed _ Hs p).
Qed.

Definition gone_from (f : Files) (X : gset FileKey) : gset FileKey := filter (fun k => ~ on_disk f k) X.
Definition still_in (f : Files) (X : gset FileKey) : gset FileKey := filter (on_disk f) X.

Lemma accounts_remove_all_trees m f0 l f i f' i' : accounts m f0 f i -> (forall t, t ∈ l -> t <> []) ->
  fold_left (fun '(f, i) t => let '(_, f, i) := remove_tree f t false i in (f, i)) l (f, i) = (f', i') ->
  accounts m f0 f' i' /\ inodes f' = inodes f /\ forall (p : Path) n, tree f' !! p = Some n -> tree f !! p = Some n.
Proof.
  revert f i. induction l as [|t l IH]; intros f i Ha Hl; cbn [fold_left]; [by intros [= <- <-]|].
  destruct (remove_tree f t false i) as [[g f1] i1] eqn:E. intros Hfold. assert (Ht : t <> []) by (apply Hl; by left).
  destruct (good_remove_tree f t i g f1 i1 (accounts_good _ _ _ _ Ha) Ht E) as (Hg & Hd & Hin & Hsub).
  destruct (IH f1 i1) as (Ha' & Hin' & Hsub'); [by apply (accounts_step _ _ f i)|intros t' Ht'; apply Hl; by right|done|].
  split; [done|]. split; [by rewrite Hin'|]. intros p n Hp. by apply Hsub, Hsub'.
Qed.

Lemma retired_sweep_spec f (root : Path) swept f' : sound f -> sweep_retired f root false = (swept, f') ->
  sound f' /\ inodes f' = inodes f /\ swept = weigh f (gone_from f' (beneath f (retired_trees f root))).
Proof.
  intros Hs. unfold sweep_retired. set (l := retired_trees f root). set (i := fold_left _ l no_inodes).
  destruct (fold_left _ l (f, i)) as [f1 i1] eqn:E. intros [= <- <-].
  destruct (measure_trees_spec f Hs l l no_inodes (measuring_nothing f)) as [Hsp Hc].
  { intros t Ht. split; [done|by apply (retired_trees_nonempty f root)]. }
  fold i in Hsp, Hc. destruct (account_opened f i Hs (spreads_measuring _ _ _ _ Hsp)) as (Ha & Hb & _).
  rewrite (covered_beneath f l i Hsp) in Ha, Hb by (intros p k x Hp Hx Hpx; by apply (Hc x Hx p)).
  destruct (accounts_remove_all_trees _ f l f i f1 i1 Ha) as (Ha' & Hin & Hsub); [intros t Ht; by apply (retired_trees_nonempty f root)|done|].
  destruct (account_settled _ _ _ _ Ha') as [Hb' _]. split; [|split; [done|]].
  - destruct Ha' as [[Hi Hlocks] _ _]. constructor; [apply (inv_tree _ _ Hi)|done| |].
    + intros p k Hp. rewrite Hin. by apply (sound_backed _ Hs p), Hsub.
    + rewrite Hin. rewrite (weigh_same f f1); [apply Hs|]. intros k _. unfold length_of, inode. by rewrite Hin.
  - rewrite Hb, Hb'. rewrite (weigh_split f (on_disk f1) (beneath f l)). unfold gone_from, saturating_sub. rewrite Z.max_r; [lia|].
    match goal with |- _ <= _ + ?x - _ => assert (0 <= x); [|lia] end.
    apply sumZ_nonneg, Forall_forall. intros x (k & <- & _)%list_elem_of_In%in_map_iff. apply length_of_nonneg.
Qed.

Lemma candidates_shaped root found : Forall (entry_shaped root) found -> Forall (fun x => unit_shaped x.2) (candidates found).
Proof.
  intros Hf. apply Forall_forall. intros [n u] (x & Hx & Hu)%list_elem_of_In%in_flat_map. destruct x as [m e]. cbn in Hu.
  destruct (is_none _); [done|]. apply in_map_iff in Hu as (u' & [= _ ->] & Hu). apply in_combine_r in Hx.
  rewrite Forall_forall in Hf. destruct (Hf e) as (_ & Hs & _); [by apply list_elem_of_In|].
  rewrite Forall_forall in Hs. by apply Hs, list_elem_of_In.
Qed.

(** The three loops keep the account. *)
Lemma kept_loops (root : Path) max_bytes max_age hot backstop now measured before w i found order s' :
  considerate -> root <> [] -> Forall (entry_shaped root) found -> Forall (fun x => unit_shaped x.2) order ->
  accounts measured before (fs w) i ->
  collect_checkouts false found 0
    (collect_stamps false found
      (collect_units max_bytes max_age false hot backstop now found order (start_sweep w i found))) = Ok s' ->
  accounts measured before (fs (world s')) (ledger s').
Proof.
  intros Hc Hr Hsh Hord Ha. apply (kept_collect_checkouts measured before root); [done| |].
  - eapply Forall_impl; [exact Hsh|]. by intros e (? & _).
  - apply kept_collect_stamps; [eapply Forall_impl; [exact Hsh|]; by intros e (_ & _ & ?)|].
    by apply kept_collect_units.
Qed.

Lemma beneath_known f l k : sound f -> k ∈ beneath f l -> on_disk f k /\ k ∈ dom (inodes f).
Proof.
  intros Hs (p & x & Hp & _)%elem_of_beneath. split; [by exists p|]. apply elem_of_dom. by apply (sound_backed _ Hs p).
Qed.

(** C22: The account of a collection is right.  A real collection of a root in
    which other processes only add files reports as [remaining_bytes] the sizes
    of the files beneath checkouts and retired trees that are still on disk
    afterwards, each file once however many names it has, and as
    [removed_bytes] the sizes of those whose last name it took away, by the
    sweep of retired trees or by the collection proper; whatever order units
    went in, whichever removals and renames failed half way, and whoever held
    a lease or a lock. *)
Theorem collection_accounts (root : Path) max_bytes max_age hot_floor backstop_budget w outcome w' :
  sound (fs w) -> root <> [] -> considerate ->
  collect root max_bytes max_age false hot_floor backstop_budget w = Ok (outcome, w') ->
  let f := (sweep_retired (fs w) root false).2 in
  let retired := beneath (fs w) (retired_trees (fs w) root) in
  let measured := beneath f (collected f root) in
  remaining_bytes outcome = weigh (fs w) (still_in (fs w') measured) /\
  removed_bytes outcome = weigh (fs w) (gone_from f retired ∪ gone_from (fs w') measured) /\
  forall k, k ∈ measured -> length_of (fs w') k = length_of (fs w) k.
Proof.
  intros Hs Hr Hc. unfold collect. destruct (sweep_retired (fs w) root false) as [swept f] eqn:Esw. cbn [snd].
  destruct (retired_sweep_spec (fs w) root swept f Hs Esw) as (Hsf & Hin & Hswept). cbn [with_fs fs seconds negb].
  destruct (snapshot root f true) as [[found i]|] eqn:Esn; [|done].
  destruct (snapshot_spec f Hsf root found i Hr Esn) as (Hm & Hd & Hsh). set (order := merge_sort _ _).
  assert (Hord : Forall (fun x => unit_shaped x.2) order)
    by (unfold order; rewrite merge_sort_Permutation; by apply (candidates_shaped root)).
  destruct (account_opened f i Hsf Hm) as (Ha & Hb & Hfit). rewrite Hd in Ha, Hb, Hfit.
  set (measured := beneath f (collected f root)) in *.
  destruct (collect_checkouts _ _ _ _) as [s|] eqn:Eloop; [|done]. intros [= <- <-].
  change (fs (without_leases (world s))) with (fs (world s)).
  pose proof (kept_loops root _ _ _ _ _ measured f (with_fs w f) i found order s Hc Hr Hsh Hord Ha Eloop) as Hk.
  destruct (account_settled _ _ _ _ Hk) as [Hled Hlen]. cbn [report remaining_bytes removed_bytes].
  assert (Hw : forall X, weigh f X = weigh (fs w) X) by (intros X; apply weigh_same; intros k _; unfold length_of, inode; by rewrite Hin).
  split; [by rewrite Hled, Hw|]. split; [|intros k Hk'; rewrite Hlen by done; unfold length_of, inode; by rewrite Hin].
  assert (Hdisj : gone_from f (beneath (fs w) (retired_trees (fs w) root)) ## gone_from (fs (world s)) measured)
    by (intros k [Hno _]%elem_of_filter [_ Hk']%elem_of_filter; by apply Hno, (beneath_known f (collected f root))).
  rewrite Hled, Hb, Hswept, (weigh_split f (on_disk (fs (world s))) measured), weigh_union, <- !(Hw (gone_from _ measured)) by done.
  assert (Hfits : weigh (fs w) (gone_from f (beneath (fs w) (retired_trees (fs w) root)) ∪ gone_from (fs (world s)) measured) <= u64_max).
  { etrans; [|apply Hs]. apply weigh_mono. intros k [[_ Hk']%elem_of_filter|[_ Hk']%elem_of_filter]%elem_of_union.
    - by apply beneath_known in Hk' as [_ ?].
    - rewrite <- Hin. by apply (beneath_known f (collected f root)) in Hk' as [_ ?]. }
  rewrite weigh_union, <- !(Hw (gone_from _ measured)) in Hfits by done.
  unfold gone_from, still_in, saturating_add, saturating_sub in *.
  pose proof (weigh_nonneg f (filter (fun k => ~ on_disk (fs (world s)) k) measured)). rewrite Z.max_r, Z.min_r by lia. lia.
Qed.
End Account.

(** ** A small disk *)

Module IncrementalDemo.
Open Scope string_scope.

(** A system that fails to remove one file. *)
#[local] Instance disk : Os :=
  PlainDisk.plain (fun f p => if is_some (strip_prefix "u2." (file_name_of p)) then {[ child p "stuck" ]} else ∅).
#[local] Instance disk_laws : OsLaws := PlainDisk.plain_laws _.

#[local] Instance machine : Machine := {
  parse_record := fun s => if String.eqb s "" then None else Some (1, [RootDir; Normal s]);
  checkout_is_live_on := fun _ p => bool_decide (p = [RootDir; Normal "work"]);
  guard_fails := fun _ _ => false;
  lease_fails := fun _ _ => false;
  lock_fails := fun _ _ => false;
  meanwhile := fun _ w => mkWorld (fs w) ({[ "two" ]} ∪ leases w) (own_leases w) true (held w) (seconds w)
}.

Lemma machine_considerate : considerate.
Proof. intros p w. cbn. auto. Qed.

(** A checkout [one] that is deleted, with two units that share a file, and one
    that is in use, with a finished session; a tree left by a crash. *)
Definition at_root (names : list string) : Path := RootDir :: map Normal ("learned" :: names).
Definition nanoseconds (s : Z) : Z := s * BILLION.
Definition shared : FileKey := (1, 1).
Definition nodes : list (Path * Node) := [
  ([RootDir], Folder 0);
  (at_root [], Folder 0);
  (at_root [".locks"], Folder 0);
  (at_root ["one"], Folder 0);
  (at_root ["one"; "checkout.json"], File (1, 2));
  (at_root ["one"; "blake3"], Folder 0);
  (at_root ["one"; "blake3"; "u1"], Folder (nanoseconds 10));
  (at_root ["one"; "blake3"; "u1"; "data"], File shared);
  (at_root ["one"; "blake3"; "u1"; "own"], File (1, 3));
  (at_root ["one"; "blake3"; "u1.json"], File (1, 4));
  (at_root ["one"; "blake3"; "u2"], Folder (nanoseconds 20));
  (at_root ["one"; "blake3"; "u2"; "data"], File shared);
  (at_root ["one"; "blake3"; "u2"; "stuck"], File (1, 5));
  (at_root ["two"], Folder 0);
  (at_root ["two"; "checkout.json"], File (1, 6));
  (at_root ["two"; "blake3"], Folder 0);
  (at_root ["two"; "blake3"; "u3"], Folder 0);
  (at_root ["two"; "blake3"; "u3"; "c-1"], Folder 0);
  (at_root ["two"; "blake3"; "u3"; "c-1"; "s-a-b-hash"], Folder (nanoseconds 15));
  (at_root ["two"; "blake3"; "u3"; "c-1"; "s-a-b-hash"; "dep"], File (1, 7));
  (at_root ["two"; "blake3"; "u3"; "c-1"; "s-a-b.lock"], File (1, 8));
  (at_root ["two"; "blake3"; "u3"; "keep"], File (1, 9));
  (at_root ["old.retired-3-zz"], Folder 0);
  (at_root ["old.retired-3-zz"; "junk"], File (1, 10));
  (at_root ["old.retired-3-zz"; "data"], File shared)
].

Definition contents : list (FileKey * Inode) := [
  (shared, mkInode "sharedfile" 0); ((1, 2), mkInode "gone" 0); ((1, 3), mkInode "xyz" 0); ((1, 4), mkInode "{}" 0);
  ((1, 5), mkInode "stuckfile" 0); ((1, 6), mkInode "work" 0); ((1, 7), mkInode "dependencies" 0); ((1, 8), mkInode "" 0);
  ((1, 9), mkInode "kept" 0); ((1, 10), mkInode "leftovers" 0)
].

Definition before : World := mkWorld (mkFiles (list_to_map nodes) (list_to_map contents)) ∅ ∅ true ∅ 1000.

Definition run : result CollectError (PruneOutcome * World) :=
  collect (at_root []) (Some 0) None false false None before.

(** The disk is sound. *)
Definition node_is_right (f : Files) (x : Path * Node) : bool :=
  match last x.1 with
  | Some c => bool_decide (removelast x.1 = []) ||
      match c with Normal _ => is_some_and is_folder (tree f !! (removelast x.1 : Path)) | _ => false end
  | None => true
  end &&
  match x.2 with
  | File k => is_some (inodes f !! k) && (negb (ends_in ".lock" (file_name_of x.1)) || (length_of f k =? 0)%Z)
  | _ => true
  end.

Lemma check_sound f : forallb (node_is_right f) (map_to_list (tree f)) = true ->
  weigh f (dom (inodes f)) <= u64_max -> sound f.
Proof.
  intros Hall Hfit. assert (Hn : forall (p : Path) n, tree f !! p = Some n -> node_is_right f (p, n) = true).
  { intros p n Hp. rewrite forallb_forall in Hall. apply Hall, list_elem_of_In. by apply elem_of_map_to_list. }
  constructor; [| | |done].
  - intros p c [x Hx] Hp. apply Hn in Hx. unfold node_is_right in Hx. cbn [fst snd] in Hx. rewrite last_snoc, removelast_last in Hx.
    apply andb_prop in Hx as [Hx _]. rewrite bool_decide_false in Hx by done. destruct c as [| | |n]; try done. split; [by exists n|].
    cbn [orb] in Hx. destruct (tree f !! p) as [[t| |]|]; try done. by exists t.
  - intros p k Hp Hlock. apply Hn in Hp. unfold node_is_right in Hp. cbn [fst snd] in Hp. rewrite Hlock in Hp.
    apply andb_prop in Hp as [_ [_ Hp]%andb_prop]. by apply Z.eqb_eq in Hp.
  - intros p k Hp. apply Hn in Hp. unfold node_is_right in Hp. cbn [fst snd] in Hp.
    apply andb_prop in Hp as [_ [Hp _]%andb_prop]. by destruct (inodes f !! k).
Qed.

Lemma collection_accounts_witness :
  match run with
  | Ok (outcome, after) =>
      remaining_bytes outcome = 21 /\ removed_bytes outcome = 36 /\
      remaining_bytes outcome =
        weigh (fs before) (still_in (fs after) (beneath (sweep_retired (fs before) (at_root []) false).2
          (collected (sweep_retired (fs before) (at_root []) false).2 (at_root []))))
  | Err _ => False
  end.
Proof.
  assert (Hs : sound (fs before)).
  { apply check_sound; [vm_compute; reflexivity|]. apply Z.leb_le. vm_compute. reflexivity. }
  destruct run as [[outcome after]|e] eqn:E.
  - assert (Hn : (remaining_bytes outcome, removed_bytes outcome) = (21, 36)).
    { transitivity (match run with Ok (o, _) => (remaining_bytes o, removed_bytes o) | Err _ => (0, 0) end).
      - by rewrite E.
      - vm_compute. reflexivity. }
    injection Hn as Hr Hg. split; [exact Hr|]. split; [exact Hg|].
    exact (proj1 (collection_accounts (at_root []) (Some 0) None false None before outcome after Hs ltac:(done) machine_considerate E)).
  - exfalso. assert (Hb : (match run with Ok _ => true | Err _ => false end) = true) by (vm_compute; reflexivity).
    rewrite E in Hb. discriminate Hb.
Defined.
End IncrementalDemo.
