(* ===== verification/DiskUsage.v ===== *)
(** * Disk usage, each file once

    The ledger of [mbx/src/disk_usage.rs], which the collection of target
    directories and views weighs what it keeps and frees with: [measure] counts
    the files beneath a root, keeping by key only those with several names,
    [release] takes a measure back, [merge] joins ledgers measured apart, and
    the removals account for what they delete. *)

From stdpp Require Import base list gmap sets strings sorting.
From Stdlib Require Import ZArith Lia.
From S2P Require Import Prelude Strings PathMap RustcArgs HardLinks TreeRemoval Incremental IncrementalLedger.
Local Open Scope Z_scope.

Definition u32_max : Z := 4294967295.
Definition UNKNOWN_LINKS : Z := u64_max.

(** A file with several links. *)
Record Counted := mkCounted { len : Z; links : Z; refs : Z; seen : Z }.

(** What a deletion freed. *)
Record Release := mkRelease { logical : Z; physical : Z }.
Definition no_release : Release := mkRelease 0 0.
Definition add_release (a b : Release) : Release :=
  mkRelease (saturating_add (logical a) (logical b)) (saturating_add (physical a) (physical b)).

Record Measured := mkMeasured { unshared : Z; unknown : Z; shared : list FileKey }.
Definition no_measured : Measured := mkMeasured 0 0 [].

Record Ledger := mkLedger { counted : gmap FileKey Counted; shared_bytes : Z; unshared_bytes : Z }.
Definition no_ledger : Ledger := mkLedger ∅ 0 0.

Definition total (l : Ledger) : Z := saturating_add (shared_bytes l) (unshared_bytes l).

Definition saturating_add32 (a b : Z) : Z := Z.min u32_max (a + b).

(** [count_key]: one path to a file; the key when it is kept by it. *)
Definition count_key (l : Ledger) (k : FileKey) (nlink length : Z) : option FileKey * Ledger :=
  if ((nlink <=? 1) || (nlink =? UNKNOWN_LINKS)) && negb (is_some (counted l !! k)) then
    (None, mkLedger (counted l) (shared_bytes l) (saturating_add (unshared_bytes l) length))
  else
    let nlink := Z.min u32_max nlink in
    let c := default (mkCounted length nlink 0 0) (counted l !! k) in
    (Some k,
     mkLedger (<[k := mkCounted (len c) (Z.max (links c) nlink) (saturating_add32 (refs c) 1) (saturating_add32 (seen c) 1)]> (counted l))
       (if refs c =? 0 then saturating_add (shared_bytes l) (len c) else shared_bytes l) (unshared_bytes l)).

(** [Ledger::add]. *)
Definition add_file (f : Files) (k : FileKey) (s : Measured * Ledger) : Measured * Ledger :=
  let '(measured, l) := s in
  match count_key l k (nlink f k) (length_of f k) with
  | (Some k, l) => (mkMeasured (unshared measured) (unknown measured) (shared measured ++ [k])%list, l)
  | (None, l) =>
      (mkMeasured (saturating_add (unshared measured) (length_of f k))
         (if nlink f k =? UNKNOWN_LINKS then saturating_add (unknown measured) (length_of f k) else unknown measured)
         (shared measured), l)
  end.

Definition add_node (f : Files) (p : Path) (n : Node) (s : Measured * Ledger) : Measured * Ledger :=
  match n with File k => add_file f k s | _ => s end.

(** [release_one]. *)
Definition release_one (l : Ledger) (k : FileKey) : Release * Ledger :=
  match counted l !! k with
  | None => (no_release, l)
  | Some c =>
      if refs c =? 0 then (no_release, l)
      else
        let kept := <[k := mkCounted (len c) (links c) (refs c - 1) (seen c)]> (counted l) in
        if 0 <? refs c - 1 then (no_release, mkLedger kept (shared_bytes l) (unshared_bytes l))
        else
          (mkRelease (len c) (if links c <=? seen c then len c else 0),
           mkLedger kept (saturating_sub (shared_bytes l) (len c)) (unshared_bytes l))
  end.

Definition release_keys (keys : list FileKey) (s : Release * Ledger) : Release * Ledger :=
  fold_left (fun '(release, l) k => let '(r, l) := release_one l k in (add_release release r, l)) keys s.

Definition release (l : Ledger) (measured : Measured) : Release * Ledger :=
  release_keys (shared measured)
    (mkRelease (unshared measured) (saturating_sub (unshared measured) (unknown measured)),
     mkLedger (counted l) (shared_bytes l) (saturating_sub (unshared_bytes l) (unshared measured))).

(** What a counted removal did. *)
Record Removal := mkRemoval { r_release : Release; deleted_files : Z; r_unshared : Z; r_unknown : Z; r_gone : list FileKey }.
Definition no_removal : Removal := mkRemoval no_release 0 0 0 [].
Definition add_removal (a b : Removal) : Removal :=
  mkRemoval (add_release (r_release a) (r_release b)) (deleted_files a + deleted_files b)
    (saturating_add (r_unshared a) (r_unshared b)) (saturating_add (r_unknown a) (r_unknown b)) (r_gone a ++ r_gone b)%list.

(** [Measured::forget]. *)
Definition forget_removal (m : Measured) (removal : Removal) : Measured :=
  mkMeasured (saturating_sub (unshared m) (r_unshared removal)) (saturating_sub (unknown m) (r_unknown removal))
    (match r_gone removal with [] => shared m | gone => retain id (fold_left TreeRemoval.count_key gone ∅) (shared m) end).

(** [release_path]: by its key when the ledger keeps the file, and by its
    length otherwise; [freed] is what a real removal found. *)
Definition release_path (k : FileKey) (length links : Z) (freed : option bool) (s : Removal * Ledger) : Removal * Ledger :=
  let '(removal, l) := s in
  let '(r, removal, l) :=
    if is_some (counted l !! k) then
      let '(r, l) := release_one l k in
      (r, mkRemoval (r_release removal) (deleted_files removal) (r_unshared removal) (r_unknown removal) (r_gone removal ++ [k])%list, l)
    else
      (mkRelease length (if links <=? 1 then length else 0),
       mkRemoval (r_release removal) (deleted_files removal) (saturating_add (r_unshared removal) length)
         (if links =? UNKNOWN_LINKS then saturating_add (r_unknown removal) length else r_unknown removal) (r_gone removal),
       mkLedger (counted l) (shared_bytes l) (saturating_sub (unshared_bytes l) length)) in
  let r := match freed with Some freed => mkRelease (logical r) (if freed : bool then logical r else 0) | None => r end in
  (mkRemoval (add_release (r_release removal) r) (deleted_files removal) (r_unshared removal) (r_unknown removal) (r_gone removal), l).

(** [merge]. *)
Definition merge_file (l : Ledger) (x : FileKey * Counted) : Ledger :=
  let '(k, theirs) := x in
  match counted l !! k with
  | Some ours =>
      mkLedger
        (<[k := mkCounted (len ours) (Z.max (links ours) (links theirs)) (saturating_add32 (refs ours) (refs theirs))
                 (saturating_add32 (seen ours) (seen theirs))]> (counted l))
        (if (refs ours =? 0) && (0 <? refs theirs) then saturating_add (shared_bytes l) (len ours) else shared_bytes l)
        (unshared_bytes l)
  | None =>
      mkLedger (<[k := theirs]> (counted l))
        (if 0 <? refs theirs then saturating_add (shared_bytes l) (len theirs) else shared_bytes l) (unshared_bytes l)
  end.

Definition merge (l other : Ledger) : Ledger :=
  fold_left merge_file (map_to_list (counted other))
    (mkLedger (counted l) (shared_bytes l) (saturating_add (unshared_bytes l) (unshared_bytes other))).

Section Trees.
Context `{Os}.

Definition measure (f : Files) (l : Ledger) (root : Path) (excluded : gset Path) : Measured * Ledger :=
  if bool_decide (root ∈ excluded) then (no_measured, l)
  else walk_root f (fun p => bool_decide (p ∈ excluded)) (add_node f) root (no_measured, l).

Definition tree_bytes (f : Files) (root : Path) : Z := total (measure f no_ledger root ∅).2.

(** A file's key, length and links. *)
Definition identify_file (f : Files) (p : Path) (n : Node) : option (FileKey * Z * Z) :=
  match n with File k => Some (k, length_of f k, nlink f k) | _ => None end.

(** [links_gone]: how many paths to each file went. *)
Definition links_gone (l : list (FileKey * Z * Z)) : gmap FileKey Z := fold_left TreeRemoval.count_key (map (fun x => x.1.1) l) ∅.

(** The length of each file whose every link went, once. *)
Fixpoint freed_bytes (paths : gmap FileKey Z) (l : list (FileKey * Z * Z)) (freed : gset FileKey) : Z :=
  match l with
  | [] => 0
  | (k, length, links) :: l =>
      if (links <=? default 0 (paths !! k)) && negb (bool_decide (k ∈ freed)) then length + freed_bytes paths l ({[ k ]} ∪ freed)
      else freed_bytes paths l freed
  end.

Definition remove_measured_tree (f : Files) (root : Path) (l : Ledger) (measured : Measured) : Removal * Files * Ledger :=
  let '(removed, f') := remove_tree_reporting identify_file (fun x => x.1.1) f root in
  let before := total l in
  let '(_, l) := release l measured in
  let l := if is_ok (outcome removed) then l else (measure f' l root ∅).2 in
  let logical := saturating_sub before (total l) in
  let physical := freed_bytes (links_gone (files_gone removed)) (files_gone removed) ∅ in
  (mkRemoval (mkRelease logical (Z.min physical logical)) (entries removed) 0 0 [], f', l).

(** [walk_tree], with the keys kept as [remove_tree_counting_with_keys] does. *)
Definition walk_tree (f : Files) (root : Path) (l : Ledger) (delete keys : bool) : Removal * Files * Ledger :=
  let '(removal, f', l) :=
    if delete then
      let '(removed, f') := remove_tree_reporting identify_file (fun x => x.1.1) f root in
      let paths := links_gone (files_gone removed) in
      let '(removal, l) :=
        fold_left (fun s x => release_path x.1.1 x.1.2 x.2 (Some (is_some_and (fun paths => x.2 <=? paths) (paths !! x.1.1))) s)
          (files_gone removed) (mkRemoval no_release (entries removed) 0 0 [], l) in
      (removal, f', l)
    else
      let '(removal, l) := fold_left (fun s x => release_path x.1.1 x.1.2 x.2 None s) (list_tree identify_file f root).1 (no_removal, l) in
      (removal, f, l) in
  (if keys then removal else mkRemoval (r_release removal) (deleted_files removal) (r_unshared removal) (r_unknown removal) [], f', l).

Definition remove_tree_counting_with_keys (f : Files) (root : Path) (l : Ledger) (delete : bool) : Removal * Files * Ledger :=
  walk_tree f root l delete true.
End Trees.
