(* ===== verification/DiskUsageLedger.v ===== *)
(** * What a disk usage ledger weighs

    The invariant of [DiskUsage.Ledger]: it weighs the files that the names
    counted and not yet released reach, each once, through counting, measuring,
    releasing and removals that may stop half way; and the theorem on
    collections of measured trees.  [DiskUsageDemo] is a disk with two views and
    a store. *)

From stdpp Require Import base list gmap sets strings sorting.
From Stdlib Require Import ZArith Lia.
From S2P Require Import Prelude Strings PathMap RustcArgs HardLinks TreeRemoval Incremental IncrementalLedger DiskUsage.
Local Open Scope Z_scope.

(** ** The files some names reach *)

Definition key_at (f : Files) (p : Path) : option FileKey := match tree f !! p with Some (File k) => Some k | _ => None end.

Lemma key_at_spec f p k : key_at f p = Some k <-> tree f !! p = Some (File k).
Proof. unfold key_at. destruct (tree f !! p) as [[]|]; naive_solver. Qed.

(** The names of a file among some, and the files that have any. *)
Definition held (f : Files) (names : gset Path) (k : FileKey) : gset Path := filter (fun p => key_at f p = Some k) names.
Definition live (f : Files) (names : gset Path) : gset FileKey := list_to_set (omap (key_at f) (elements names)).

Lemma elem_of_live f names k : k ∈ live f names <-> exists p, p ∈ names /\ key_at f p = Some k.
Proof. unfold live. rewrite elem_of_list_to_set, list_elem_of_omap. by setoid_rewrite elem_of_elements. Qed.

Lemma elem_of_held f names k p : p ∈ held f names k <-> key_at f p = Some k /\ p ∈ names.
Proof. unfold held. by rewrite elem_of_filter. Qed.

Lemma live_held f names k : k ∈ live f names <-> (0 < size (held f names k))%nat.
Proof.
  rewrite elem_of_live. split.
  - intros (p & Hp & Hk). destruct (decide (size (held f names k) = 0%nat)) as [Hz|]; [|lia]. apply size_empty_inv in Hz.
    exfalso. assert (Hin : p ∈ held f names k) by by apply elem_of_held. by apply Hz, elem_of_empty in Hin.
  - intros Hs. destruct (set_choose_or_empty (held f names k)) as [[p Hp]|He].
    + apply elem_of_held in Hp as [? ?]. by exists p.
    + rewrite He, size_empty in Hs. lia.
Qed.

Lemma held_names f names k : held f names k ⊆ names_of_file f k.
Proof. intros p [Hp _]%elem_of_held. by apply elem_of_names, key_at_spec. Qed.

Lemma held_at_most_links f names k : Z.of_nat (size (held f names k)) <= nlink f k.
Proof. rewrite nlink_size. apply inj_le, subseteq_size, held_names. Qed.

Lemma live_union f X Y : live f (X ∪ Y) = live f X ∪ live f Y.
Proof. apply set_eq. intros k. rewrite elem_of_union, !elem_of_live. setoid_rewrite elem_of_union. naive_solver. Qed.

Lemma live_empty f : live f ∅ = ∅.
Proof. apply set_eq. intros k. rewrite elem_of_live. split; [intros (p & Hp & _); by apply elem_of_empty in Hp|by intros ?%elem_of_empty]. Qed.

Lemma live_one f p k : key_at f p = Some k -> live f {[ p ]} = {[ k ]}.
Proof.
  intros Hk. apply set_eq. intros k'. rewrite elem_of_live, elem_of_singleton. split.
  - intros (q & Hq & Hk'). apply elem_of_singleton in Hq as ->. congruence.
  - intros ->. exists p. by rewrite elem_of_singleton.
Qed.

Lemma held_insert_name f (p : Path) names k k' : key_at f p = Some k -> p ∉ names ->
  Z.of_nat (size (held f ({[ p ]} ∪ names) k')) = Z.of_nat (size (held f names k')) + (if decide (k' = k) then 1 else 0).
Proof.
  intros Hk Hp. destruct (decide (k' = k)) as [->|Hne].
  - assert (held f ({[ p ]} ∪ names) k = {[ p ]} ∪ held f names k) as ->.
    { apply set_eq. intros q. rewrite elem_of_union, !elem_of_held, elem_of_union, elem_of_singleton. naive_solver. }
    rewrite size_union, size_singleton; [lia|]. intros q Hq [_ Hq']%elem_of_held. apply elem_of_singleton in Hq as ->. done.
  - assert (held f ({[ p ]} ∪ names) k' = held f names k') as ->; [|lia].
    apply set_eq. intros q. rewrite !elem_of_held, elem_of_union, elem_of_singleton. naive_solver.
Qed.

(** ** What the ledger holds *)

(** A disk whose files a counter can hold. *)
Record fits (f : Files) : Prop := {
  fits_tree : well_founded f;
  fits_known : forall (p : Path) k, tree f !! p = Some (File k) -> is_Some (inodes f !! k);
  fits_bytes : weigh f (dom (inodes f)) <= u64_max;
  fits_links : Z.of_nat (size (tree f)) <= u32_max
}.

Lemma nlink_fits f k : fits f -> 0 <= nlink f k <= u32_max.
Proof.
  intros Hf. rewrite nlink_size. split; [lia|]. etrans; [|apply (fits_links _ Hf)]. apply inj_le. rewrite <- size_dom.
  apply subseteq_size. intros p Hp. apply elem_of_names in Hp. apply elem_of_dom. by eexists.
Qed.

Lemma live_fits f names : fits f -> weigh f (live f names) <= u64_max.
Proof.
  intros Hf. etrans; [|apply (fits_bytes _ Hf)]. apply weigh_mono. intros k (p & _ & Hp)%elem_of_live.
  apply key_at_spec in Hp. apply elem_of_dom. by apply (fits_known _ Hf p).
Qed.

(** The ledger weighs the files that some names reach. *)
Record weighs (f : Files) (names : gset Path) (l : Ledger) : Prop := {
  weighs_names : forall p, p ∈ names -> is_Some (key_at f p);
  weighs_counted : forall k c, counted l !! k = Some c -> len c = length_of f k /\ refs c = Z.of_nat (size (held f names k));
  weighs_other : forall k, counted l !! k = None -> k ∈ live f names -> nlink f k <= 1;
  weighs_shared : shared_bytes l = weigh f (filter (fun k => k ∈ dom (counted l)) (live f names));
  weighs_unshared : unshared_bytes l = weigh f (filter (fun k => k ∉ dom (counted l)) (live f names))
}.

(** *** Counting a name *)

Lemma filter_dom_insert (m : gmap FileKey Counted) (k : FileKey) (c : Counted) (X : gset FileKey) : k ∉ X \/ k ∈ dom m ->
  filter (fun k' => k' ∉ dom (<[k := c]> m)) ({[ k ]} ∪ X) = filter (fun k' => k' ∉ dom m) X.
Proof.
  intros Hk. apply set_eq. intros k'. rewrite !elem_of_filter, elem_of_union, elem_of_singleton, dom_insert_L, elem_of_union, elem_of_singleton.
  destruct (decide (k' = k)) as [->|]; tauto.
Qed.

Lemma count_single f names l (p : Path) k : fits f -> weighs f names l -> p ∉ names -> key_at f p = Some k ->
  nlink f k <= 1 -> counted l !! k = None ->
  weighs f ({[ p ]} ∪ names) (mkLedger (counted l) (shared_bytes l) (saturating_add (unshared_bytes l) (length_of f k))).
Proof.
  intros Hf Hw Hp Hk Hone Hnone. pose proof (held_at_most_links f ({[ p ]} ∪ names) k) as Hlinks.
  rewrite (held_insert_name f p names k k Hk Hp), decide_True in Hlinks by done.
  assert (Hnl : k ∉ live f names) by (rewrite live_held; lia).
  assert (Hlive : live f ({[ p ]} ∪ names) = {[ k ]} ∪ live f names) by (by rewrite live_union, (live_one f p k Hk)).
  destruct Hw as [Hn Hc Ho Hs Hu]. constructor; cbn [counted shared_bytes unshared_bytes].
  - intros q [->%elem_of_singleton|Hq]%elem_of_union; [by eexists|by apply Hn].
  - intros k' c Hk'. destruct (Hc k' c Hk') as [? Hr]. split; [done|]. rewrite (held_insert_name f p names k k' Hk Hp).
    rewrite decide_False; [lia|]. congruence.
  - intros k' Hk' Hin. rewrite Hlive in Hin. apply elem_of_union in Hin as [->%elem_of_singleton|]; [done|by apply Ho].
  - rewrite Hs, Hlive. f_equal. apply set_eq. intros k'. rewrite !elem_of_filter, elem_of_union, elem_of_singleton, elem_of_dom.
    split; [tauto|]. intros [Hd [->|?]]; [by rewrite Hnone in Hd; destruct Hd|done].
  - assert (Hset : filter (fun k' => k' ∉ dom (counted l)) (live f ({[ p ]} ∪ names)) =
      {[ k ]} ∪ filter (fun k' => k' ∉ dom (counted l)) (live f names)).
    { apply set_eq. intros k'. rewrite Hlive, elem_of_union, !elem_of_filter, elem_of_union, elem_of_singleton, elem_of_dom.
      destruct (decide (k' = k)) as [->|]; [rewrite Hnone; split; [tauto|]; intros _; split; [by intros [? ?]|tauto]|tauto]. }
    rewrite Hset, weigh_insert, <- Hu; [|rewrite elem_of_filter; tauto]. unfold saturating_add. rewrite Z.min_r; [lia|].
    assert (Hle : weigh f (filter (fun k' => k' ∉ dom (counted l)) (live f ({[ p ]} ∪ names))) <= u64_max).
    { etrans; [|apply (live_fits f ({[ p ]} ∪ names) Hf)]. apply weigh_mono. intros x Hx. by apply elem_of_filter in Hx as [_ ?]. }
    rewrite Hset, weigh_insert, <- Hu in Hle; [|rewrite elem_of_filter; tauto]. lia.
Qed.

Lemma count_shared f names l (p : Path) k links' seen' : fits f -> weighs f names l -> p ∉ names -> key_at f p = Some k ->
  (counted l !! k = None -> 1 < nlink f k) ->
  let r := from_option refs 0 (counted l !! k) in
  weighs f ({[ p ]} ∪ names)
    (mkLedger (<[k := mkCounted (length_of f k) links' (saturating_add32 r 1) seen']> (counted l))
       (if r =? 0 then saturating_add (shared_bytes l) (length_of f k) else shared_bytes l) (unshared_bytes l)).
Proof.
  intros Hf Hw Hp Hk Hmany r. pose proof (held_at_most_links f ({[ p ]} ∪ names) k) as Hlinks.
  rewrite (held_insert_name f p names k k Hk Hp), decide_True in Hlinks by done. pose proof (nlink_fits f k Hf) as Hnf.
  assert (Hlive : live f ({[ p ]} ∪ names) = {[ k ]} ∪ live f names) by (by rewrite live_union, (live_one f p k Hk)).
  destruct Hw as [Hn Hc Ho Hs Hu].
  assert (Hr : r = Z.of_nat (size (held f names k))).
  { unfold r. destruct (counted l !! k) as [c|] eqn:E; [apply (Hc k c E)|]. cbn. destruct (decide (k ∈ live f names)) as [Hin|Hin].
    - specialize (Ho k E Hin). specialize (Hmany eq_refl). lia.
    - rewrite live_held in Hin. lia. }
  assert (Hnotin : k ∈ live f names <-> 0 < r) by (rewrite live_held, Hr; lia).
  assert (Hdom : k ∉ live f names \/ k ∈ dom (counted l)).
  { rewrite elem_of_dom. destruct (counted l !! k) as [c|] eqn:E; [right; by eexists|left]. rewrite Hnotin. unfold r. simpl. lia. }
  constructor; cbn [counted shared_bytes unshared_bytes].
  - intros q [->%elem_of_singleton|Hq]%elem_of_union; [by eexists|by apply Hn].
  - intros k' c [[<- <-]|[Hne Hk']]%lookup_insert_Some.
    + split; [done|]. cbn [refs]. rewrite (held_insert_name f p names k k Hk Hp), decide_True, <- Hr by done.
      unfold saturating_add32. apply Z.min_r. lia.
    + destruct (Hc k' c Hk') as [? ?]. split; [done|]. rewrite (held_insert_name f p names k k' Hk Hp), decide_False by congruence. lia.
  - intros k' [Hk' Hne]%lookup_insert_None Hin. apply Ho; [done|]. rewrite Hlive in Hin.
    apply elem_of_union in Hin as [->%elem_of_singleton|]; done.
  - assert (Hset : filter (fun k' => k' ∈ dom (<[k := mkCounted (length_of f k) links' (saturating_add32 r 1) seen']> (counted l))) (live f ({[ p ]} ∪ names)) =
      {[ k ]} ∪ filter (fun k' => k' ∈ dom (counted l)) (live f names)).
    { apply set_eq. intros k'. rewrite Hlive, elem_of_union, !elem_of_filter, elem_of_union, elem_of_singleton, dom_insert_L, elem_of_union, elem_of_singleton.
      tauto. }
    rewrite Hset. destruct (Z.eqb_spec r 0) as [Hz|Hz].
    + assert (Hni : k ∉ filter (fun k' => k' ∈ dom (counted l)) (live f names)) by (rewrite elem_of_filter, Hnotin; lia).
      rewrite weigh_insert, <- Hs by done. unfold saturating_add. rewrite Z.min_r; [lia|].
      assert (Hle : weigh f ({[ k ]} ∪ filter (fun k' => k' ∈ dom (counted l)) (live f names)) <= u64_max).
      { etrans; [|apply (live_fits f ({[ p ]} ∪ names) Hf)]. apply weigh_mono. rewrite Hlive. intros x. rewrite !elem_of_union, elem_of_filter. tauto. }
      rewrite weigh_insert, <- Hs in Hle by done. lia.
    + rewrite Hs. f_equal. apply set_eq. intros k'. rewrite elem_of_union, elem_of_filter, elem_of_singleton. split; [tauto|].
      intros [->|?]; [|done]. split; [|apply Hnotin; lia]. destruct Hdom as [Hd|]; [|done]. exfalso. apply Hd, Hnotin. unfold r in *.
      destruct (counted l !! k) as [c|] eqn:E; simpl in *; [destruct (Hc k c E); lia|lia].
  - rewrite Hlive, (filter_dom_insert _ _ _ _ Hdom). done.
Qed.

(** What [count_key] does to one name. *)
Lemma count_key_spec f names l (p : Path) k o l' : fits f -> weighs f names l -> p ∉ names -> key_at f p = Some k ->
  count_key l k (nlink f k) (length_of f k) = (o, l') ->
  weighs f ({[ p ]} ∪ names) l' /\
  ((o = None /\ counted l' = counted l /\ k ∉ dom (counted l)) \/
   (o = Some k /\ dom (counted l') = {[ k ]} ∪ dom (counted l) /\ (k ∈ dom (counted l) \/ k ∉ live f names))).
Proof.
  intros Hf Hw Hp Hk. pose proof (nlink_fits f k Hf) as Hnf. unfold count_key.
  assert (nlink f k =? UNKNOWN_LINKS = false) as -> by (apply Z.eqb_neq; unfold UNKNOWN_LINKS, u64_max, u32_max in *; lia).
  rewrite orb_false_r. destruct (Z.leb_spec (nlink f k) 1) as [Hone|Hmany]; cbn [andb].
  - destruct (counted l !! k) as [c|] eqn:E; cbn [negb is_some].
    + intros [= <- <-]. split.
      * pose proof (count_shared f names l p k (Z.max (links c) (Z.min u32_max (nlink f k))) (saturating_add32 (seen c) 1) Hf Hw Hp Hk) as Hgo.
        rewrite E in Hgo. cbn in Hgo. destruct (weighs_counted _ _ _ Hw k c E) as [-> _]. by apply Hgo.
      * right. cbn [counted]. rewrite dom_insert_L. split; [done|]. split; [done|]. left. apply elem_of_dom. by eexists.
    + intros [= <- <-]. split; [by apply count_single|]. left. split; [done|]. split; [done|]. by apply not_elem_of_dom.
  - intros [= <- <-]. split.
    + pose proof (count_shared f names l p k (Z.max (links (default (mkCounted (length_of f k) (Z.min u32_max (nlink f k)) 0 0) (counted l !! k))) (Z.min u32_max (nlink f k)))
        (saturating_add32 (seen (default (mkCounted (length_of f k) (Z.min u32_max (nlink f k)) 0 0) (counted l !! k))) 1) Hf Hw Hp Hk (fun _ => Hmany)) as Hgo.
      destruct (counted l !! k) as [c|] eqn:E; cbn in Hgo |- *; [|exact Hgo]. destruct (weighs_counted _ _ _ Hw k c E) as [-> _]. exact Hgo.
    + right. cbn [counted]. rewrite dom_insert_L. split; [done|]. split; [done|]. destruct (counted l !! k) as [c|] eqn:E; [left; apply elem_of_dom; by eexists|].
      right. intros Hin. pose proof (weighs_other _ _ _ Hw k E Hin). lia.
Qed.

(** A measure lists the files some names reach: those the ledger keeps by key
    once for each name, and the others by their bytes. *)
Record measures (f : Files) (kept : gset FileKey) (names : gset Path) (m : Measured) : Prop := {
  measures_shared : forall k, occurrences k (shared m) = if decide (k ∈ kept) then size (held f names k) else 0%nat;
  measures_unshared : unshared m = weigh f (filter (fun k => k ∉ kept) (live f names));
  measures_unknown : unknown m = 0
}.

Lemma measures_nothing f kept : measures f kept ∅ no_measured.
Proof.
  constructor; [|by rewrite live_empty|done]. intros k. assert (held f ∅ k = ∅) as ->; [|by destruct (decide _)].
  apply set_eq. intros p. rewrite elem_of_held. split; [by intros [_ ?%elem_of_empty]|by intros ?%elem_of_empty].
Qed.

Lemma held_live_empty f names k : k ∉ live f names -> size (held f names k) = 0%nat.
Proof. rewrite live_held. lia. Qed.

(** It stays one when the ledger keeps more. *)
Lemma measures_more f kept kept' names m : kept ⊆ kept' -> (forall k, k ∈ kept' -> k ∈ live f names -> k ∈ kept) ->
  measures f kept names m -> measures f kept' names m.
Proof.
  intros Hsub Hnew [Hs Hu Hk]. constructor; [| |done].
  - intros k. rewrite Hs. destruct (decide (k ∈ kept)) as [H1|H1], (decide (k ∈ kept')) as [H2|H2]; try done.
    + exfalso. by apply H2, Hsub.
    + symmetry. apply held_live_empty. intros Hin. by apply H1, Hnew.
  - rewrite Hu. f_equal. apply set_eq. intros k. rewrite !elem_of_filter. split; intros [Hn Hin]; (split; [|done]); intros Hk'; apply Hn; auto.
Qed.

Lemma add_file_spec f names l m P (p : Path) k m' l' : fits f -> weighs f names l -> measures f (dom (counted l)) P m -> P ⊆ names ->
  p ∉ names -> key_at f p = Some k -> add_file f k (m, l) = (m', l') ->
  weighs f ({[ p ]} ∪ names) l' /\ measures f (dom (counted l')) ({[ p ]} ∪ P) m' /\
  dom (counted l) ⊆ dom (counted l') /\ (forall k', k' ∈ dom (counted l') -> k' ∈ live f names -> k' ∈ dom (counted l)).
Proof.
  intros Hf Hw Hm HP Hp Hk. unfold add_file. destruct (count_key l k _ _) as [o l1] eqn:E.
  destruct (count_key_spec f names l p k o l1 Hf Hw Hp Hk E) as [Hw' Ho].
  assert (HpP : p ∉ P) by (intros Hin; by apply Hp, HP).
  assert (Hsubl : live f P ⊆ live f names) by (intros x (q & Hq & Hx)%elem_of_live; apply elem_of_live; exists q; split; [by apply HP|done]).
  assert (Hlive : live f ({[ p ]} ∪ P) = {[ k ]} ∪ live f P) by (by rewrite live_union, (live_one f p k Hk)).
  destruct Ho as [(-> & Hc & Hni)|(-> & Hd & Hor)]; intros [= <- <-].
  - rewrite Hc in *. split; [done|]. split; [|split; [done|tauto]]. destruct Hm as [Hs Hu Hkn].
    assert (Hone : nlink f k <= 1).
    { apply not_elem_of_dom in Hni. apply (weighs_other _ _ _ Hw' k); [by rewrite Hc|]. rewrite live_union, (live_one f p k Hk).
      apply elem_of_union. left. by apply elem_of_singleton. }
    pose proof (held_at_most_links f ({[ p ]} ∪ P) k) as Hlinks. rewrite (held_insert_name f p P k k Hk HpP), decide_True in Hlinks by done.
    assert (Hnl : k ∉ live f P) by (rewrite live_held; lia). constructor; cbn [shared unshared unknown].
    + intros k'. rewrite Hs. destruct (decide (k' ∈ _)) as [Hin|]; [|done]. pose proof (held_insert_name f p P k k' Hk HpP) as Hh.
      rewrite decide_False in Hh by congruence. lia.
    + assert (Hset : filter (fun k' => k' ∉ dom (counted l)) (live f ({[ p ]} ∪ P)) = {[ k ]} ∪ filter (fun k' => k' ∉ dom (counted l)) (live f P)).
      { apply set_eq. intros x. rewrite Hlive, elem_of_union, !elem_of_filter, elem_of_union, elem_of_singleton.
        destruct (decide (x = k)) as [->|]; tauto. }
      rewrite Hset, weigh_insert by (rewrite elem_of_filter; tauto). rewrite Hu. unfold saturating_add. rewrite Z.min_r; [lia|].
      assert (Hle : weigh f (filter (fun k' => k' ∉ dom (counted l)) (live f ({[ p ]} ∪ P))) <= u64_max).
      { etrans; [|apply (live_fits f ({[ p ]} ∪ P) Hf)]. apply weigh_mono. intros x Hx. by apply elem_of_filter in Hx as [_ ?]. }
      rewrite Hset, weigh_insert in Hle by (rewrite elem_of_filter; tauto). lia.
    + rewrite Hkn. pose proof (nlink_fits f k Hf). destruct (Z.eqb_spec (nlink f k) UNKNOWN_LINKS); [|done].
      unfold UNKNOWN_LINKS, u64_max, u32_max in *. lia.
  - assert (Hkept : forall k', k' ∈ dom (counted l1) -> k' ∈ live f names -> k' ∈ dom (counted l)).
    { intros k'. rewrite Hd. intros [->%elem_of_singleton|?]%elem_of_union Hin; [tauto|done]. }
    assert (Hmore : dom (counted l) ⊆ dom (counted l1)) by (rewrite Hd; intros x Hx; apply elem_of_union; by right).
    split; [done|]. split; [|done]. apply (measures_more f _ (dom (counted l1))) in Hm; [|done|intros k' Hk' Hin; apply Hkept, Hsubl; done].
    destruct Hm as [Hs Hu Hkn]. constructor; cbn [shared unshared unknown]; [| |done].
    + intros k'. rewrite occurrences_app, Hs. unfold occurrences at 1. simpl. pose proof (held_insert_name f p P k k' Hk HpP) as Hh.
      destruct (decide (k' ∈ dom (counted l1))) as [Hin|Hin].
      * destruct (decide (k' = k)) as [->|Hne]; [rewrite bool_decide_true by done; simpl; lia|rewrite bool_decide_false by congruence; simpl; lia].
      * rewrite bool_decide_false; [done|]. intros <-. apply Hin. rewrite Hd. apply elem_of_union. left. by apply elem_of_singleton.
    + rewrite Hu, Hlive. f_equal. apply set_eq. intros x. rewrite !elem_of_filter, elem_of_union, elem_of_singleton. split; [tauto|].
      intros [Hx [->|?]]; [|done]. destruct Hx. rewrite Hd. apply elem_of_union. left. by apply elem_of_singleton.
Qed.

(** *** Measuring a tree *)

Section Measuring.
Context `{OsLaws}.

Definition files_under (f : Files) (root : Path) : gset Path :=
  filter (fun p => starts_with p root = true /\ is_Some (key_at f p)) (dom (tree f)).

Lemma elem_of_files_under f root p : p ∈ files_under f root <-> starts_with p root = true /\ is_Some (key_at f p).
Proof.
  unfold files_under. rewrite elem_of_filter, elem_of_dom. split; [tauto|]. intros [Hs [k Hk]]. split; [split; [done|by eexists]|].
  apply key_at_spec in Hk. by eexists.
Qed.

(** The names of files on a list of nodes. *)
Definition files_on (f : Files) (l : list (Path * Node)) : gset Path := filter (fun p => is_Some (key_at f p)) (list_to_set l.*1).

Lemma elem_of_files_on f l p : p ∈ files_on f l <-> is_Some (key_at f p) /\ p ∈ l.*1.
Proof. unfold files_on. by rewrite elem_of_filter, elem_of_list_to_set. Qed.

Lemma add_nodes_spec f nodes : fits f -> NoDup nodes.*1 -> (forall p n, (p, n) ∈ nodes -> tree f !! p = Some n) ->
  forall names l m P m' l', weighs f names l -> measures f (dom (counted l)) P m -> P ⊆ names -> files_on f nodes ## names ->
  fold_left (fun s x => add_node f x.1 x.2 s) nodes (m, l) = (m', l') ->
  weighs f (files_on f nodes ∪ names) l' /\ measures f (dom (counted l')) (files_on f nodes ∪ P) m' /\
  dom (counted l) ⊆ dom (counted l') /\ (forall k, k ∈ dom (counted l') -> k ∈ live f names -> k ∈ dom (counted l)).
Proof.
  intros Hf. induction nodes as [|[p n] nodes IH]; intros Hnd Hnodes names l m P m' l' Hw Hm HP Hdisj; cbn [fold_left fst snd].
  { intros [= <- <-]. assert (files_on f [] = ∅) as ->; [|rewrite !(left_id_L ∅ (∪)); split; [done|]; split; [done|]; split; [done|tauto]].
    apply set_eq. intros q. rewrite elem_of_files_on. split; [by intros [_ ?%elem_of_nil]|by intros ?%elem_of_empty]. }
  cbn [fmap list_fmap fst] in Hnd. apply NoDup_cons in Hnd as [Hni Hnd].
  assert (Hnodes' : forall q x, (q, x) ∈ nodes -> tree f !! q = Some x) by (intros q x Hq; apply Hnodes; by right).
  pose proof (Hnodes p n ltac:(by left)) as Hp.
  assert (Hskip : key_at f p = None -> files_on f ((p, n) :: nodes) = files_on f nodes).
  { intros Hk. apply set_eq. intros q. rewrite !elem_of_files_on. cbn [fmap list_fmap fst]. rewrite elem_of_cons.
    split; [|tauto]. intros [[k Hq] [->|?]]; [congruence|split; [by eexists|done]]. }
  destruct n as [t|k|target t]; cbn [add_node].
  - assert (Hk : key_at f p = None) by (unfold key_at; by rewrite Hp). rewrite (Hskip Hk) in *. by apply (IH Hnd Hnodes').
  - assert (Hk : key_at f p = Some k) by by apply key_at_spec.
    assert (Hset : files_on f ((p, File k) :: nodes) = {[ p ]} ∪ files_on f nodes).
    { apply set_eq. intros q. rewrite elem_of_union, elem_of_singleton, !elem_of_files_on. cbn [fmap list_fmap fst]. rewrite elem_of_cons.
      split; [tauto|]. intros [->|?]; [split; [by eexists|by left]|tauto]. }
    assert (Hpn : p ∉ names). { intros Hin. apply (Hdisj p); [|done]. rewrite Hset. apply elem_of_union. left. by apply elem_of_singleton. }
    destruct (add_file f k (m, l)) as [m1 l1] eqn:E1.
    destruct (add_file_spec f names l m P p k m1 l1 Hf Hw Hm HP Hpn Hk E1) as (Hw1 & Hm1 & Hd1 & Hst1). intros Hgo.
    destruct (IH Hnd Hnodes' _ l1 m1 ({[ p ]} ∪ P) m' l' Hw1 Hm1) as (Hw' & Hm' & Hd' & Hst'); [| |done|].
    + intros q [?|Hq]%elem_of_union; apply elem_of_union; [by left|right; by apply HP].
    + intros q Hq [->%elem_of_singleton|Hin]%elem_of_union; [apply elem_of_files_on in Hq as [_ Hq]; done|].
      apply (Hdisj q); [|done]. rewrite Hset. apply elem_of_union. by right.
    + rewrite Hset. replace ({[ p ]} ∪ files_on f nodes ∪ names) with (files_on f nodes ∪ ({[ p ]} ∪ names)) by (apply set_eq; intros q; rewrite !elem_of_union; tauto).
      replace ({[ p ]} ∪ files_on f nodes ∪ P) with (files_on f nodes ∪ ({[ p ]} ∪ P)) by (apply set_eq; intros q; rewrite !elem_of_union; tauto).
      split; [done|]. split; [done|]. split; [by etrans|]. intros k' Hk' Hin. apply Hst1; [|done]. apply Hst'; [done|].
      rewrite live_union. apply elem_of_union. by right.
  - assert (Hk : key_at f p = None) by (unfold key_at; by rewrite Hp). rewrite (Hskip Hk) in *. by apply (IH Hnd Hnodes').
Qed.

Lemma visited_none excluded (root p : Path) : (forall q, excluded q = false) -> visited excluded root p = starts_with p root.
Proof.
  intros He. unfold visited, starts_with. destruct (strip_path root p) as [rest|]; [|done]. simpl.
  revert root. induction rest as [|c rest IH]; intros root; cbn [let_in]; rewrite He; [done|]. apply IH.
Qed.

Lemma files_on_leaves f (excluded : Path -> bool) (root : Path) : (forall q, excluded q = false) -> well_founded f -> root <> [] ->
  files_on f (leaves f excluded root) = files_under f root.
Proof.
  intros He Hf Hr. apply set_eq. intros p. rewrite elem_of_files_on, elem_of_files_under, list_elem_of_fmap. split.
  - intros [Hk ([q n] & -> & Hin)]. apply elem_of_leaves in Hin as (_ & _ & Hv); [|by rewrite ?He..]. by rewrite visited_none in Hv.
  - intros [Hs [k Hk]]. split; [by eexists|]. apply key_at_spec in Hk. exists (p, File k). split; [done|].
    apply elem_of_leaves; [by rewrite ?He..|]. by rewrite visited_none.
Qed.

Lemma measure_weighs f names l (root : Path) m l' : fits f -> root <> [] -> weighs f names l -> files_under f root ## names ->
  measure f l root ∅ = (m, l') ->
  weighs f (files_under f root ∪ names) l' /\ measures f (dom (counted l')) (files_under f root) m /\
  dom (counted l) ⊆ dom (counted l') /\ (forall k, k ∈ dom (counted l') -> k ∈ live f names -> k ∈ dom (counted l)).
Proof.
  intros Hf Hr Hw Hdisj. unfold measure. rewrite bool_decide_false by apply not_elem_of_empty. rewrite walk_root_spec.
  set (excluded := fun p : Path => bool_decide (p ∈ (∅ : gset Path))).
  assert (He : forall q, excluded q = false) by (intros q; apply bool_decide_eq_false, not_elem_of_empty).
  pose proof (files_on_leaves f excluded root He (fits_tree _ Hf) Hr) as Hset.
  pose proof (NoDup_leaves f excluded root (fits_tree _ Hf) Hr (He root)) as Hnd.
  assert (Hnodes : forall p n, (p, n) ∈ leaves f excluded root -> tree f !! p = Some n).
  { intros p n Hin. by apply elem_of_leaves in Hin as (? & _ & _); [|apply Hf|..]. }
  intros E. destruct (add_nodes_spec f _ Hf Hnd Hnodes names l no_measured ∅ m l' Hw (measures_nothing f _)) as (Hw' & Hm' & Hd & Hst).
  - intros q Hq. by apply elem_of_empty in Hq.
  - by rewrite Hset.
  - exact E.
  - rewrite Hset, (right_id_L ∅ (∪)) in Hm'. rewrite Hset in Hw'. done.
Qed.
End Measuring.

(** *** Releasing a measure *)

(** Part of the way: the names of [rest] are owned, and some keys are still to
    be released. *)
Record releasing (f : Files) (kept : gset FileKey) (rest : gset Path) (keys : list FileKey) (l : Ledger) : Prop := {
  releasing_dom : dom (counted l) = kept;
  releasing_counted : forall k c, counted l !! k = Some c ->
    len c = length_of f k /\ refs c = Z.of_nat (size (held f rest k)) + Z.of_nat (occurrences k keys);
  releasing_shared : shared_bytes l = weigh f (filter (fun k => k ∈ live f rest \/ k ∈ keys) kept)
}.

Lemma release_one_spec f kept rest k keys l r l' : releasing f kept rest (k :: keys) l -> k ∈ kept -> release_one l k = (r, l') ->
  releasing f kept rest keys l' /\ unshared_bytes l' = unshared_bytes l.
Proof.
  intros [Hd Hc Hs] Hk. unfold release_one. destruct (counted l !! k) as [c|] eqn:E.
  2: { apply not_elem_of_dom in E. by rewrite Hd in E. }
  destruct (Hc k c E) as [Hl Hr]. assert (Hocc : occurrences k (k :: keys) = S (occurrences k keys)).
  { unfold occurrences. simpl. by rewrite bool_decide_true. }
  rewrite Hocc in Hr. destruct (Z.eqb_spec (refs c) 0); [lia|].
  assert (Hcount : forall k' c', <[k := mkCounted (len c) (links c) (refs c - 1) (seen c)]> (counted l) !! k' = Some c' ->
    len c' = length_of f k' /\ refs c' = Z.of_nat (size (held f rest k')) + Z.of_nat (occurrences k' keys)).
  { intros k' c' [[<- <-]|[Hne Hk']]%lookup_insert_Some; [split; [done|]; cbn [refs]; lia|].
    destruct (Hc k' c' Hk') as [? Hr']. split; [done|]. rewrite Hr'. unfold occurrences. simpl. by rewrite bool_decide_false. }
  assert (Hdom : dom (<[k := mkCounted (len c) (links c) (refs c - 1) (seen c)]> (counted l)) = kept).
  { rewrite dom_insert_L, Hd. apply set_eq. intros x. rewrite elem_of_union, elem_of_singleton. naive_solver. }
  assert (Hleft : 0 < refs c - 1 <-> k ∈ live f rest \/ k ∈ keys).
  { rewrite live_held, <- (occurrences_in k keys). lia. }
  destruct (Z.ltb_spec 0 (refs c - 1)) as [Hpos|Hz]; intros [= <- <-]; (split; [|done]); constructor; cbn [counted shared_bytes]; try done.
  - rewrite Hs. f_equal. apply set_eq. intros x. rewrite !elem_of_filter, elem_of_cons. apply Hleft in Hpos. naive_solver.
  - assert (Hset : filter (fun x => x ∈ live f rest \/ x ∈ k :: keys) kept = {[ k ]} ∪ filter (fun x => x ∈ live f rest \/ x ∈ keys) kept).
    { apply set_eq. intros x. rewrite elem_of_union, !elem_of_filter, elem_of_singleton, elem_of_cons. naive_solver. }
    assert (Hni : k ∉ filter (fun x => x ∈ live f rest \/ x ∈ keys) kept) by (rewrite elem_of_filter; intros [Hor _]; apply Hleft in Hor; lia).
    rewrite Hs, Hset, weigh_insert, Hl by done. unfold saturating_sub. pose proof (weigh_nonneg f (filter (fun x => x ∈ live f rest \/ x ∈ keys) kept)).
    rewrite Z.max_r; lia.
Qed.

Lemma release_keys_spec f kept rest keys s r' l' : releasing f kept rest keys s.2 -> (forall k, k ∈ keys -> k ∈ kept) ->
  release_keys keys s = (r', l') -> releasing f kept rest [] l' /\ unshared_bytes l' = unshared_bytes s.2.
Proof.
  unfold release_keys. revert s. induction keys as [|k keys IH]; intros [r l] Hr Hin; cbn [fold_left snd]; [by intros [= <- <-]|].
  cbn [snd] in Hr. destruct (release_one l k) as [r1 l1] eqn:E. intros Hgo.
  destruct (release_one_spec f kept rest k keys l r1 l1 Hr ltac:(apply Hin; by left) E) as [Hr1 Hu1].
  destruct (IH (add_release r r1, l1)) as [? Hu]; [done|intros x Hx; apply Hin; by right|done|]. split; [done|]. by rewrite Hu, <- Hu1.
Qed.

Lemma held_split (f : Files) (N P : gset Path) (k : FileKey) : P ⊆ N -> size (held f N k) = (size (held f (N ∖ P) k) + size (held f P k))%nat.
Proof.
  intros HP. rewrite <- size_union.
  - f_equal. apply set_eq. intros p. rewrite elem_of_union, !elem_of_held, elem_of_difference. destruct (decide (p ∈ P)); [|tauto].
    assert (p ∈ N) by by apply HP. tauto.
  - intros p [_ [_ Hn]%elem_of_difference]%elem_of_held [_ Hp]%elem_of_held. done.
Qed.

(** Releasing a measure leaves what the other names reach. *)
Lemma release_weighs f N P m l r l' : fits f -> weighs f N l -> P ⊆ N -> measures f (dom (counted l)) P m ->
  release l m = (r, l') -> weighs f (N ∖ P) l' /\ dom (counted l') = dom (counted l).
Proof.
  intros Hf Hw HP [Hs Hu _]. unfold release.
  assert (Hlive : live f N = live f (N ∖ P) ∪ live f P).
  { rewrite <- live_union. f_equal. apply set_eq. intros p. rewrite elem_of_union, elem_of_difference.
    destruct (decide (p ∈ P)); [|tauto]. assert (p ∈ N) by by apply HP. tauto. }
  assert (Hkeys : forall k, k ∈ shared m <-> k ∈ dom (counted l) /\ k ∈ live f P).
  { intros k. rewrite <- occurrences_in, Hs, live_held. destruct (decide _); [tauto|]. split; [lia|tauto]. }
  set (l0 := mkLedger (counted l) (shared_bytes l) _). intros E.
  pose proof (fun Ha Hb => release_keys_spec f (dom (counted l)) (N ∖ P) _ _ r l' Ha Hb E) as Hgo. destruct Hgo as [[Hd Hc Hsh] Hun].
  - subst l0. cbn [snd]. constructor; cbn [counted shared_bytes]; [done| |].
    + intros k c Hk. destruct (weighs_counted _ _ _ Hw k c Hk) as [? ->]. split; [done|]. rewrite (held_split f N P k HP), Hs, decide_True; [lia|].
      apply elem_of_dom. by eexists.
    + rewrite (weighs_shared _ _ _ Hw). f_equal. apply set_eq. intros k. rewrite !elem_of_filter, Hkeys, Hlive, elem_of_union. tauto.
  - intros k Hk. by apply Hkeys in Hk as [? _].
  - split; [|done]. constructor.
    + intros p [Hp _]%elem_of_difference. by apply (weighs_names _ _ _ Hw).
    + intros k c Hk. destruct (Hc k c Hk) as [? ->]. split; [done|]. unfold occurrences. simpl. lia.
    + intros k Hk Hin. apply (weighs_other _ _ _ Hw); [|rewrite Hlive; apply elem_of_union; by left].
      apply not_elem_of_dom. rewrite <- Hd. by apply not_elem_of_dom.
    + rewrite Hsh, Hd. f_equal. apply set_eq. intros k. rewrite !elem_of_filter, elem_of_nil. tauto.
    + rewrite Hun. subst l0. cbn [snd unshared_bytes]. rewrite Hd, (weighs_unshared _ _ _ Hw), Hu, Hlive.
      assert (Hset : filter (fun k => k ∉ dom (counted l)) (live f (N ∖ P) ∪ live f P) =
        filter (fun k => k ∉ dom (counted l)) (live f (N ∖ P)) ∪ filter (fun k => k ∉ dom (counted l)) (live f P))
        by (apply set_eq; intros k; rewrite elem_of_union, !elem_of_filter, elem_of_union; tauto).
      rewrite Hset, weigh_union; [unfold saturating_sub; pose proof (weigh_nonneg f (filter (fun k => k ∉ dom (counted l)) (live f (N ∖ P)))); rewrite Z.max_r; lia|].
      intros k [Hnk H1]%elem_of_filter [_ H2]%elem_of_filter. apply not_elem_of_dom in Hnk.
      pose proof (weighs_other _ _ _ Hw k Hnk) as Hone. rewrite Hlive in Hone. specialize (Hone ltac:(apply elem_of_union; by left)).
      pose proof (held_at_most_links f N k) as Hle. rewrite (held_split f N P k HP) in Hle. rewrite live_held in H1, H2. lia.
Qed.

(** The total is the size of the files that are reached. *)
Lemma weighs_total f N l : fits f -> weighs f N l -> total l = weigh f (live f N).
Proof.
  intros Hf Hw. unfold total. rewrite (weighs_shared _ _ _ Hw), (weighs_unshared _ _ _ Hw).
  pose proof (weigh_split f (fun k => k ∈ dom (counted l)) (live f N)) as Hs. pose proof (live_fits f N Hf) as Hle. unfold saturating_add. rewrite <- Hs. rewrite Z.min_r; [done|exact Hle].
Qed.

(** ** Removing measured trees *)

Section Removing.
Context `{OsLaws}.

(** A disk that lost names. *)
Record shrunk (f f' : Files) : Prop := {
  shrunk_inodes : inodes f' = inodes f;
  shrunk_tree : forall (p : Path) n, tree f' !! p = Some n -> tree f !! p = Some n;
  shrunk_well : well_founded f'
}.

Lemma shrunk_length f f' k : shrunk f f' -> length_of f' k = length_of f k.
Proof. intros Hs. unfold length_of, inode. by rewrite (shrunk_inodes _ _ Hs). Qed.

Lemma weigh_shrunk f f' X : shrunk f f' -> weigh f' X = weigh f X.
Proof. intros Hs. apply weigh_same. intros k _. by apply shrunk_length. Qed.

Lemma shrunk_nlink f f' k : shrunk f f' -> nlink f' k <= nlink f k.
Proof.
  intros Hs. rewrite !nlink_size. apply inj_le, subseteq_size. intros p Hp%elem_of_names. apply elem_of_names. by apply (shrunk_tree _ _ Hs).
Qed.

Lemma shrunk_fits f f' : fits f -> shrunk f f' -> fits f'.
Proof.
  intros Hf Hs. constructor; [apply Hs| | |].
  - intros p k Hp. rewrite (shrunk_inodes _ _ Hs). by apply (fits_known _ Hf p), (shrunk_tree _ _ Hs).
  - rewrite (shrunk_inodes _ _ Hs), (weigh_shrunk f f') by done. apply (fits_bytes _ Hf).
  - etrans; [|apply (fits_links _ Hf)]. apply inj_le. rewrite <- !size_dom. apply subseteq_size. intros p Hp.
    apply elem_of_dom in Hp as [n Hp]. apply elem_of_dom. exists n. by apply (shrunk_tree _ _ Hs).
Qed.

Lemma shrunk_trans f f' f'' : shrunk f f' -> shrunk f' f'' -> shrunk f f''.
Proof. intros [Hi Ht _] [Hi' Ht' Hw]. constructor; [by rewrite Hi'|intros p n Hp; by apply Ht, Ht'|done]. Qed.

Lemma key_at_shrunk f f' p k : shrunk f f' -> key_at f' p = Some k -> key_at f p = Some k.
Proof. intros Hs. rewrite !key_at_spec. apply Hs. Qed.

Lemma held_same f f' names k : (forall p, p ∈ names -> key_at f' p = key_at f p) -> held f' names k = held f names k.
Proof. intros Hn. apply set_eq. intros p. rewrite !elem_of_held. split; intros [Hk Hp]; (split; [|done]); [by rewrite <- Hn|by rewrite Hn]. Qed.

Lemma live_same f f' names : (forall p, p ∈ names -> key_at f' p = key_at f p) -> live f' names = live f names.
Proof. intros Hn. apply set_eq. intros k. by rewrite !live_held, (held_same f f' names k Hn). Qed.

Lemma weighs_shrunk f f' names l : shrunk f f' -> (forall p, p ∈ names -> key_at f' p = key_at f p) -> weighs f names l -> weighs f' names l.
Proof.
  intros Hs Hn [Hna Hc Ho Hsh Hu]. pose proof (live_same f f' names Hn) as Hl. constructor.
  - intros p Hp. rewrite Hn by done. by apply Hna.
  - intros k c Hk. rewrite (shrunk_length f f' k Hs), (held_same f f' names k Hn). by apply Hc.
  - intros k Hk Hin. rewrite Hl in Hin. etrans; [by apply (shrunk_nlink f f')|by apply Ho].
  - by rewrite Hl, (weigh_shrunk f f').
  - by rewrite Hl, (weigh_shrunk f f').
Qed.

Lemma measures_shrunk f f' kept names m : shrunk f f' -> (forall p, p ∈ names -> key_at f' p = key_at f p) ->
  measures f kept names m -> measures f' kept names m.
Proof.
  intros Hs Hn [Hsh Hu Hk]. constructor; [| |done].
  - intros k. by rewrite (held_same f f' names k Hn).
  - by rewrite (live_same f f' names Hn), (weigh_shrunk f f').
Qed.

(** The files that have no name any more. *)
Definition lost (f f' : Files) : gset FileKey := filter (fun k => on_disk f k /\ ~ on_disk f' k) (dom (inodes f)).

Lemma freed_bytes_spec f paths l freed :
  (forall x, x ∈ l -> x.1.2 = length_of f x.1.1 /\ x.2 = nlink f x.1.1) ->
  freed_bytes paths l freed =
    weigh f (filter (fun k => nlink f k <= default 0 (paths !! k)) (list_to_set (map (fun x => x.1.1) l)) ∖ freed).
Proof.
  revert freed. induction l as [|[[k length] links] l IH]; intros freed Hl; cbn [freed_bytes map list_to_set foldr].
  { symmetry. apply Z.le_antisymm; [|apply weigh_nonneg]. assert (filter (fun k => nlink f k <= default 0 (paths !! k)) (∅ : gset FileKey) ∖ freed ⊆ ∅) as Hs
      by (intros k [[_ Hk]%elem_of_filter _]%elem_of_difference; by apply elem_of_empty in Hk).
    etrans; [by apply weigh_mono|]. done. }
  destruct (Hl (k, length, links) ltac:(by left)) as [Hlen Hlinks]. cbn [fst snd] in Hlen, Hlinks. subst length links.
  assert (Hl' : forall x, x ∈ l -> x.1.2 = length_of f x.1.1 /\ x.2 = nlink f x.1.1) by (intros x Hx; apply Hl; by right).
  rewrite !IH by done. cbn [fst snd].
  destruct (Z.leb_spec (nlink f k) (default 0 (paths !! k))) as [Hle|Hgt]; cbn [andb].
  - case_bool_decide as Hin; cbn [negb].
    + f_equal. apply set_eq. intros x. rewrite !elem_of_difference, !elem_of_filter, elem_of_union, elem_of_singleton. naive_solver.
    + rewrite <- weigh_insert by (rewrite elem_of_difference, elem_of_union, elem_of_singleton; tauto). f_equal. apply set_eq. intros x.
      rewrite elem_of_union, !elem_of_difference, !elem_of_filter, !elem_of_union, !elem_of_singleton.
      destruct (decide (x = k)) as [->|]; tauto.
  - f_equal. apply set_eq. intros x. rewrite !elem_of_difference, !elem_of_filter, elem_of_union, elem_of_singleton.
    destruct (decide (x = k)) as [->|]; [split; [intros [[? _] _]; lia|intros [[? _] _]; lia]|tauto].
Qed.

Lemma identify_file_accounts : accounts_files identify_file (fun x => x.1.1) (fun f k => (k, length_of f k, nlink f k)).
Proof. split; [done| |done]. intros f p [] Hn; try done. by destruct (Hn key). Qed.

(** What a removal reports as freed are the files that have no name any more. *)
Lemma reported_freed f (root : Path) removed f' : fits f -> root <> [] ->
  remove_tree_reporting identify_file (fun x => x.1.1) f root = (removed, f') ->
  shrunk f f' /\ (forall p : Path, starts_with p root = false -> tree f' !! p = tree f !! p) /\
  (outcome removed = Ok tt -> forall p : Path, starts_with p root = true -> tree f' !! p = None) /\
  freed_bytes (links_gone (files_gone removed)) (files_gone removed) ∅ = weigh f (lost f f') /\
  (forall k, k ∈ lost f f' -> exists p, p ∈ files_under f root /\ key_at f p = Some k).
Proof.
  intros Hf Hr E. destruct (removal_account identify_file_accounts f root removed f' (fits_tree _ Hf) Hr E) as (Hw & Hin & Hout & Hsub & Hgone & Hcount & Hok).
  assert (Hsh : shrunk f f') by by constructor. split; [done|]. split; [done|]. split; [done|].
  set (l := files_gone removed) in *.
  assert (Hl : forall x, x ∈ l -> x.1.2 = length_of f x.1.1 /\ x.2 = nlink f x.1.1) by (intros x (p & k & _ & _ & ->)%Hgone; done).
  assert (Hlost : forall k, k ∈ lost f f' <-> nlink f k <= default 0 (links_gone l !! k) /\ k ∈ map (fun x => x.1.1) l).
  { intros k. unfold lost, links_gone. rewrite elem_of_filter, elem_of_dom, occurrences_counts, lookup_empty, !names_on_disk, nlink_size, <- (occurrences_in k (map _ l)).
    specialize (Hcount k). cbn [default]. split; [lia|]. intros [Hle Hpos]. split; [lia|].
    assert (Hon : on_disk f k) by (apply names_on_disk; lia). destruct Hon as [p Hp]. by apply (fits_known _ Hf p). }
  split.
  - rewrite (freed_bytes_spec f _ l ∅ Hl). f_equal. apply set_eq. intros k.
    rewrite elem_of_difference, elem_of_filter, elem_of_list_to_set, Hlost. split; [tauto|]. intros ?. split; [done|apply not_elem_of_empty].
  - intros k [_ Hk]%Hlost. apply list_elem_of_In, in_map_iff in Hk as (x & <- & Hx). apply list_elem_of_In, Hgone in Hx as (p & k & Hp & Hs & ->).
    apply key_at_spec in Hp. exists p. split; [|done]. apply elem_of_files_under. split; [done|by eexists].
Qed.

Lemma files_under_out f f' (root p : Path) : (forall q : Path, starts_with q root = false -> tree f' !! q = tree f !! q) ->
  starts_with p root = false -> key_at f' p = key_at f p.
Proof. intros Hout Hp. unfold key_at. by rewrite Hout. Qed.

Lemma live_mono (f : Files) (X Y : gset Path) : X ⊆ Y -> live f X ⊆ live f Y.
Proof. intros Hs k (p & Hp & Hk)%elem_of_live. apply elem_of_live. exists p. split; [by apply Hs|done]. Qed.

Lemma weigh_difference (f : Files) (X Y : gset FileKey) : Y ⊆ X -> weigh f (X ∖ Y) = weigh f X - weigh f Y.
Proof.
  intros HY. rewrite (weigh_split f (fun k => k ∈ Y) X).
  assert (filter (fun k => k ∈ Y) X = Y) as -> by (apply set_eq; intros k; rewrite elem_of_filter; split; [by intros [? _]|intros Hk; split; [done|by apply HY]]).
  assert (filter (fun k => k ∉ Y) X = X ∖ Y) as -> by (apply set_eq; intros k; rewrite elem_of_filter, elem_of_difference; tauto). lia.
Qed.

(** One removal, whether or not it stops half way. *)
Lemma remove_measured_spec f names l (root : Path) m removal f' l' : fits f -> root <> [] -> weighs f names l ->
  files_under f root ⊆ names -> measures f (dom (counted l)) (files_under f root) m ->
  remove_measured_tree f root l m = (removal, f', l') ->
  let names' := names ∖ files_under f root ∪ files_under f' root in
  shrunk f f' /\ (forall p : Path, starts_with p root = false -> tree f' !! p = tree f !! p) /\ weighs f' names' l' /\
  dom (counted l) ⊆ dom (counted l') /\ (forall k, k ∈ dom (counted l') -> k ∈ live f (names ∖ files_under f root) -> k ∈ dom (counted l)) /\
  r_release removal = mkRelease (total l - total l') (weigh f (lost f f')).
Proof.
  intros Hf Hr Hw HP Hm. unfold remove_measured_tree. destruct (remove_tree_reporting _ _ f root) as [removed f1] eqn:E.
  destruct (reported_freed f root removed f1 Hf Hr E) as (Hsh & Hout & Hok & Hfreed & Hlost).
  destruct (release l m) as [r l1] eqn:El. destruct (release_weighs f names _ m l r l1 Hf Hw HP Hm El) as [Hw1 Hd1].
  set (rest := names ∖ files_under f root) in *.
  assert (Hrest : forall p, p ∈ rest -> key_at f1 p = key_at f p).
  { intros p [Hp Hn]%elem_of_difference. apply (files_under_out f f1 root); [done|]. apply not_true_iff_false. intros Hs. apply Hn.
    apply elem_of_files_under. split; [done|]. by apply (weighs_names _ _ _ Hw). }
  pose proof (weighs_shrunk f f1 rest l1 Hsh Hrest Hw1) as Hw1'. pose proof (shrunk_fits f f1 Hf Hsh) as Hf1.
  assert (Hafter : exists l2, l2 = (if is_ok (outcome removed) then l1 else (measure f1 l1 root ∅).2) /\ weighs f1 (rest ∪ files_under f1 root) l2 /\
    dom (counted l1) ⊆ dom (counted l2) /\ (forall k, k ∈ dom (counted l2) -> k ∈ live f1 rest -> k ∈ dom (counted l1))).
  { eexists. split; [reflexivity|]. destruct (outcome removed) as [[]|e] eqn:Eo; cbn [is_ok].
    - assert (files_under f1 root = ∅) as ->; [|by rewrite (right_id_L ∅ (∪))]. apply set_eq. intros p. rewrite elem_of_files_under.
      split; [|by intros ?%elem_of_empty]. intros [Hs [k Hk%key_at_spec]]. by rewrite (Hok eq_refl p Hs) in Hk.
    - destruct (measure f1 l1 root ∅) as [m2 l2] eqn:Em. cbn [snd]. rewrite (union_comm_L rest).
      destruct (measure_weighs f1 rest l1 root m2 l2 Hf1 Hr Hw1') as (? & _ & ? & ?); [|done|done].
      intros p [Hs [k Hk]]%elem_of_files_under [Hpn Hpu]%elem_of_difference. apply Hpu, elem_of_files_under. split; [done|].
      exists k. by apply (key_at_shrunk f f1). }
  destruct Hafter as (l2 & <- & Hw2 & Hd2 & Hst). intros [= <- <- <-]. cbn [r_release]. split; [done|]. split; [done|]. split; [done|].
  split; [by rewrite <- Hd1|]. split; [intros k Hk Hin; rewrite <- Hd1; apply Hst; [done|by rewrite (live_same f f1 rest Hrest)]|].
  set (names' := rest ∪ files_under f1 root) in *. pose proof (weighs_total f names l Hf Hw) as Ht. pose proof (weighs_total f1 names' l2 Hf1 Hw2) as Ht'.
  rewrite (weigh_shrunk f f1 _ Hsh) in Ht'.
  assert (Hkeys : live f1 names' ⊆ live f names).
  { intros k (p & Hp & Hk)%elem_of_live. apply (key_at_shrunk f f1) in Hk; [|done]. apply elem_of_live. exists p. split; [|done].
    apply elem_of_union in Hp as [Hp|Hp]; [by apply elem_of_difference in Hp as [? _]|]. apply HP, elem_of_files_under.
    apply elem_of_files_under in Hp as [? _]. split; [done|by eexists]. }
  assert (Hgone : lost f f1 ⊆ live f names ∖ live f1 names').
  { intros k Hk. destruct (Hlost k Hk) as (p & Hp & Hpk). apply elem_of_difference. split; [apply elem_of_live; exists p; split; [by apply HP|done]|].
    intros (q & _ & Hq%key_at_spec)%elem_of_live. unfold lost in Hk. apply elem_of_filter in Hk as [[_ Hno] _]. apply Hno. by exists q. }
  pose proof (weigh_mono f _ _ Hgone) as Hle. rewrite (weigh_difference f _ _ Hkeys) in Hle. rewrite Hfreed, Ht, Ht'.
  unfold saturating_sub. pose proof (weigh_mono f _ _ Hkeys). rewrite Z.max_r by lia. f_equal. lia.
Qed.

(** ** A collection of measured trees *)

(** Each root measured in turn. *)
Fixpoint measure_roots (f : Files) (l : Ledger) (roots : list Path) : list (Path * Measured) * Ledger :=
  match roots with
  | [] => ([], l)
  | root :: roots =>
      let '(m, l) := measure f l root ∅ in
      let '(rest, l) := measure_roots f l roots in
      ((root, m) :: rest, l)
  end.

(** Some of them removed, one after the other. *)
Fixpoint remove_roots (f : Files) (l : Ledger) (doomed : list (Path * Measured)) : Release * Files * Ledger :=
  match doomed with
  | [] => (no_release, f, l)
  | (root, m) :: doomed =>
      let '(removal, f, l) := remove_measured_tree f root l m in
      let '(rest, f, l) := remove_roots f l doomed in
      (add_release (r_release removal) rest, f, l)
  end.

(** The files beneath some roots. *)
Definition files_beneath (f : Files) (roots : list Path) : gset Path := ⋃ (map (files_under f) roots).

Lemma elem_of_files_beneath f roots p : p ∈ files_beneath f roots <-> exists root, root ∈ roots /\ p ∈ files_under f root.
Proof.
  unfold files_beneath. rewrite elem_of_union_list. split.
  - intros (X & HX & Hp). apply list_elem_of_In, in_map_iff in HX as (root & <- & Hr). exists root. by rewrite list_elem_of_In.
  - intros (root & Hr & Hp). exists (files_under f root). split; [|done]. apply list_elem_of_In, in_map_iff. exists root. by rewrite <- list_elem_of_In.
Qed.

(** Trees apart share no names. *)
Lemma apart_files f roots root root' p : apart roots -> root ∈ roots -> root' ∈ roots -> p ∈ files_under f root -> p ∈ files_under f root' -> root = root'.
Proof.
  intros (_ & Hap & _) Hr Hr' [Hp _]%elem_of_files_under [Hp' _]%elem_of_files_under.
  destruct (starts_with_linear p root root' Hp Hp') as [Hs|Hs]; [symmetry|]; by apply Hap.
Qed.

Lemma measure_roots_spec f roots : fits f -> apart roots -> forall names l ms l', weighs f names l -> files_beneath f roots ## names ->
  measure_roots f l roots = (ms, l') ->
  map fst ms = roots /\ weighs f (files_beneath f roots ∪ names) l' /\ dom (counted l) ⊆ dom (counted l') /\
  (forall k, k ∈ dom (counted l') -> k ∈ live f names -> k ∈ dom (counted l)) /\
  forall root m, (root, m) ∈ ms -> measures f (dom (counted l')) (files_under f root) m.
Proof.
  intros Hf. induction roots as [|root roots IH]; intros Hap names l ms l' Hw Hdisj; cbn [measure_roots].
  { intros [= <- <-]. split; [done|]. assert (files_beneath f [] = ∅) as -> by done. rewrite (left_id_L ∅ (∪)). split; [done|]. split; [done|].
    split; [tauto|]. by intros root m ?%elem_of_nil. }
  destruct (measure f l root ∅) as [m l1] eqn:E1. destruct (measure_roots f l1 roots) as [ms1 l2] eqn:E2. intros [= <- <-].
  pose proof Hap as (Hnd & _ & [Hr _]%Forall_cons). apply NoDup_cons in Hnd as [Hni _].
  assert (Hset : files_beneath f (root :: roots) = files_under f root ∪ files_beneath f roots) by done.
  destruct (measure_weighs f names l root m l1 Hf Hr Hw) as (Hw1 & Hm1 & Hd1 & Hs1); [|done|].
  { intros p Hp. apply Hdisj. rewrite Hset. apply elem_of_union. by left. }
  assert (Hother : forall p, p ∈ files_beneath f roots -> p ∉ files_under f root).
  { intros p (root' & Hr' & Hp')%elem_of_files_beneath Hp. apply Hni. rewrite (apart_files f (root :: roots) root root' p); [done|done|by left|by right|done..]. }
  destruct (IH (apart_tail _ _ Hap) _ l1 ms1 l2 Hw1) as (Hfst & Hw2 & Hd2 & Hs2 & Hms); [|done|].
  { intros p Hp [Hu|Hn]%elem_of_union; [by apply (Hother p)|]. apply (Hdisj p); [|done]. rewrite Hset. apply elem_of_union. by right. }
  split; [cbn; by rewrite Hfst|]. split; [|split; [by etrans|split]].
  - rewrite Hset. replace (files_under f root ∪ files_beneath f roots ∪ names) with (files_beneath f roots ∪ (files_under f root ∪ names)); [done|].
    apply set_eq. intros p. rewrite !elem_of_union. tauto.
  - intros k Hk Hin. apply Hs1; [|done]. apply Hs2; [done|]. rewrite live_union. apply elem_of_union. by right.
  - intros root' m' [[= -> ->]|Hin]%elem_of_cons; [|by apply Hms]. apply (measures_more f (dom (counted l1))); [done| |done].
    intros k Hk Hin. apply Hs2; [done|]. rewrite live_union. apply elem_of_union. by left.
Qed.

Lemma beneath_after f f' roots root : apart roots -> root ∈ roots -> well_founded f -> (forall r, r ∈ roots -> r <> []) ->
  shrunk f f' -> (forall p : Path, starts_with p root = false -> tree f' !! p = tree f !! p) ->
  files_beneath f roots ∖ files_under f root ∪ files_under f' root = files_beneath f' roots.
Proof.
  intros Hap Hr Hf Hne Hs Hout. apply set_eq. intros p. rewrite elem_of_union, elem_of_difference, !elem_of_files_beneath. split.
  - intros [[(r & Hr' & Hp) Hn]|Hp]; [|by exists root]. exists r. split; [done|]. apply elem_of_files_under in Hp as [Hs' Hk].
    apply elem_of_files_under. split; [done|]. rewrite (files_under_out f f' root p Hout); [done|]. apply not_true_iff_false. intros Hs''.
    apply Hn, elem_of_files_under. done.
  - intros (r & Hr' & Hp). destruct (decide (r = root)) as [->|Hner]; [by right|left]. apply elem_of_files_under in Hp as [Hs' [k Hk]].
    apply (key_at_shrunk f f') in Hk; [|done]. assert (Hp' : p ∈ files_under f r) by (apply elem_of_files_under; split; [done|by eexists]).
    split; [by exists r|]. intros Hp''. apply Hner. by apply (apart_files f roots r root p).
Qed.

(** The bytes that left the disk in two goes. *)
Lemma lost_trans f f' f'' : shrunk f f' -> shrunk f' f'' -> lost f f'' = lost f f' ∪ lost f' f'' /\ lost f f' ## lost f' f''.
Proof.
  intros Hs Hs'. assert (Hd : forall k, on_disk f' k -> on_disk f k) by (intros k [p Hp]; exists p; by apply (shrunk_tree _ _ Hs)).
  assert (Hd' : forall k, on_disk f'' k -> on_disk f' k) by (intros k [p Hp]; exists p; by apply (shrunk_tree _ _ Hs')).
  unfold lost. rewrite (shrunk_inodes _ _ Hs). split.
  - apply set_eq. intros k. rewrite elem_of_union, !elem_of_filter. specialize (Hd k). specialize (Hd' k). destruct (decide (on_disk f' k)); tauto.
  - intros k [[_ H1] _]%elem_of_filter [[H2 _] _]%elem_of_filter. done.
Qed.

Lemma lost_fits f f' : fits f -> weigh f (lost f f') <= u64_max.
Proof. intros Hf. etrans; [|apply (fits_bytes _ Hf)]. apply weigh_mono. intros k. unfold lost. by intros [_ ?]%elem_of_filter. Qed.

Lemma remove_roots_spec roots doomed : apart roots -> NoDup (map fst doomed) -> forall f l released f' l', fits f ->
  weighs f (files_beneath f roots) l ->
  (forall root m, (root, m) ∈ doomed -> root ∈ roots /\ measures f (dom (counted l)) (files_under f root) m) ->
  remove_roots f l doomed = (released, f', l') ->
  shrunk f f' /\ weighs f' (files_beneath f' roots) l' /\ total l' <= total l /\
  released = mkRelease (total l - total l') (weigh f (lost f f')) /\
  forall p : Path, (forall x, x ∈ doomed -> starts_with p x.1 = false) -> tree f' !! p = tree f !! p.
Proof.
  intros Hap. assert (Hne : forall r, r ∈ roots -> r <> []) by (destruct Hap as (_ & _ & Hne); by apply Forall_forall).
  induction doomed as [|[root m] doomed IH]; intros Hnd f l released f' l' Hf Hw Hms; cbn [remove_roots].
  { intros [= <- <- <-]. assert (lost f f = ∅) as -> by (apply set_eq; intros k; unfold lost; rewrite elem_of_filter; split; [tauto|by intros ?%elem_of_empty]).
    split; [constructor; [done|done|apply Hf]|]. split; [done|]. split; [done|]. split; [unfold no_release; f_equal; lia|done]. }
  destruct (remove_measured_tree f root l m) as [[removal f1] l1] eqn:E1. destruct (remove_roots f1 l1 doomed) as [[rest f2] l2] eqn:E2.
  intros [= <- <- <-]. destruct (Hms root m ltac:(by left)) as [Hr Hm]. cbn [map] in Hnd. apply NoDup_cons in Hnd as [Hni Hnd].
  assert (Hsub : files_under f root ⊆ files_beneath f roots) by (intros p Hp; apply elem_of_files_beneath; by exists root).
  destruct (remove_measured_spec f _ l root m removal f1 l1 Hf (Hne root Hr) Hw Hsub Hm E1) as (Hs1 & Hout1 & Hw1 & Hd1 & Hst1 & Hrel1).
  rewrite (beneath_after f f1 roots root) in Hw1 by (done || apply Hf).
  destruct (IH Hnd f1 l1 rest f2 l2 (shrunk_fits _ _ Hf Hs1) Hw1) as (Hs2 & Hw2 & Hle2 & Hrel2 & Hout2); [|done|].
  - intros root' m' Hin. destruct (Hms root' m' ltac:(by right)) as [Hr' Hm']. split; [exact Hr'|].
    assert (Hne' : root' <> root) by (intros ->; apply Hni, list_elem_of_In, in_map_iff; exists (root, m'); by rewrite <- list_elem_of_In).
    assert (Hkeep : forall p, p ∈ files_under f root' -> p ∉ files_under f root) by (intros p Hp Hp'; by apply Hne', (apart_files f roots root' root p)).
    assert (Hsame : forall p, starts_with p root' = true -> starts_with p root = false).
    { intros p Hp. apply not_true_iff_false. intros Hp'. apply Hne'. destruct Hap as (_ & Ha & _).
      destruct (starts_with_linear p root' root Hp Hp') as [Hs|Hs]; [symmetry|]; by apply Ha. }
    assert (files_under f1 root' = files_under f root') as ->.
    { apply set_eq. intros p. rewrite !elem_of_files_under. split; intros [Hs Hk]; (split; [done|]); [by rewrite <- (files_under_out f f1 root p Hout1 (Hsame p Hs))|
        by rewrite (files_under_out f f1 root p Hout1 (Hsame p Hs))]. }
    apply (measures_shrunk f f1); [done| |].
    + intros p [Hs _]%elem_of_files_under. apply (files_under_out f f1 root p Hout1), Hsame, Hs.
    + apply (measures_more f (dom (counted l))); [done| |done]. intros k Hk Hin'. apply Hst1; [done|]. revert Hin'. apply live_mono.
      intros p Hp. apply elem_of_difference. split; [|by apply Hkeep]. apply elem_of_files_beneath. by exists root'.
  - split; [by eapply shrunk_trans|]. split; [done|].
    pose proof (weighs_total f _ l Hf Hw) as Ht. pose proof (live_fits f (files_beneath f roots) Hf) as Hfit.
    assert (Hle1 : total l1 <= total l).
    { rewrite Ht, (weighs_total f1 _ l1 (shrunk_fits _ _ Hf Hs1) Hw1), (weigh_shrunk f f1 _ Hs1). apply weigh_mono.
      intros k (p & Hp & Hk)%elem_of_live. apply elem_of_live. apply (key_at_shrunk f f1) in Hk; [|done]. exists p. split; [|done].
      apply elem_of_files_beneath in Hp as (r & Hr' & [Hs _]%elem_of_files_under). apply elem_of_files_beneath. exists r. split; [done|].
      apply elem_of_files_under. split; [done|by eexists]. }
    assert (Hpos : 0 <= total l2).
    { rewrite (weighs_total f2 _ l2 (shrunk_fits _ _ (shrunk_fits _ _ Hf Hs1) Hs2) Hw2). apply weigh_nonneg. }
    split; [lia|]. split.
    + destruct (lost_trans f f1 f2 Hs1 Hs2) as [Hl Hdisj]. pose proof (lost_fits f f2 Hf) as Hlf. rewrite Hl, (weigh_union f _ _ Hdisj) in Hlf |- *.
      rewrite Hrel1, Hrel2. unfold add_release. cbn [logical physical]. rewrite (weigh_shrunk f f1 _ Hs1). unfold saturating_add. f_equal; lia.
    + intros p Hp. rewrite Hout2 by (intros x Hx; apply Hp; by right). apply Hout1. apply (Hp (root, m)). by left.
Qed.

(** C23: Removing measured trees is accounted for exactly.  Measure some trees
    that lie apart into one ledger and remove any of them, in any order and
    whether or not a removal stops half way: the total is then the size of
    the files beneath the trees that are left, each once however many names
    reach it; the logical figures add up to what the total dropped by, and the
    physical ones to the sizes of the files that left the disk, so a file
    linked from elsewhere is never claimed to have been freed. *)
Theorem removals_are_exact f roots ms l doomed released f' l' :
  fits f -> apart roots -> measure_roots f no_ledger roots = (ms, l) ->
  (forall x, x ∈ doomed -> x ∈ ms) -> NoDup (map fst doomed) ->
  remove_roots f l doomed = (released, f', l') ->
  total l = weigh f (live f (files_beneath f roots)) /\
  total l' = weigh f (live f' (files_beneath f' roots)) /\
  released = mkRelease (total l - total l') (weigh f (lost f f')) /\
  (forall p : Path, (forall x, x ∈ doomed -> starts_with p x.1 = false) -> tree f' !! p = tree f !! p).
Proof.
  intros Hf Hap Em Hsub Hnd Er.
  assert (Hw0 : weighs f ∅ no_ledger).
  { constructor; cbn; rewrite ?live_empty; done. }
  destruct (measure_roots_spec f roots Hf Hap ∅ no_ledger ms l Hw0 ltac:(intros p _ Hp; by apply elem_of_empty in Hp) Em) as (Hfst & Hw & _ & _ & Hms).
  rewrite (right_id_L ∅ (∪)) in Hw.
  destruct (remove_roots_spec roots doomed Hap Hnd f l released f' l' Hf Hw) as (Hs & Hw' & _ & Hrel & Hout); [|done|].
  - intros root m Hin. apply Hsub in Hin. split; [|by apply Hms]. rewrite <- Hfst. apply list_elem_of_In, in_map_iff. exists (root, m).
    by rewrite <- list_elem_of_In.
  - split; [by apply weighs_total|]. split; [|done]. rewrite <- (weigh_shrunk f f' _ Hs). apply weighs_total; [by apply (shrunk_fits f)|done].
Qed.
End Removing.

(** ** Two views and a store *)

Module DiskUsageDemo.
Open Scope string_scope.

(** A system that fails to remove one file. *)
#[local] Instance disk : Os := PlainDisk.plain (fun f p => if bool_decide (file_name p = Some "new") then {[ child p "busy" ]} else ∅).
#[local] Instance disk_laws : OsLaws := PlainDisk.plain_laws _.

Definition at_root (names : list string) : Path := RootDir :: map Normal names.

(** A file linked in both views, one linked from a store that nobody measures,
    and files of their own. *)
Definition nodes : list (Path * Node) := [
  ([RootDir], Folder 0);
  (at_root ["store"], Folder 0);
  (at_root ["store"; "object"], File (1, 1));
  (at_root ["old"], Folder 0);
  (at_root ["old"; "object"], File (1, 1));
  (at_root ["old"; "deps"], Folder 0);
  (at_root ["old"; "deps"; "both"], File (1, 2));
  (at_root ["old"; "deps"; "twice"], File (1, 3));
  (at_root ["old"; "twice"], File (1, 3));
  (at_root ["old"; "own"], File (1, 4));
  (at_root ["new"], Folder 0);
  (at_root ["new"; "both"], File (1, 2));
  (at_root ["new"; "busy"], File (1, 5));
  (at_root ["new"; "own"], File (1, 6))
].

Definition contents : list (FileKey * Inode) := [
  ((1, 1), mkInode "object" 0); ((1, 2), mkInode "in both" 0); ((1, 3), mkInode "two links" 0);
  ((1, 4), mkInode "own" 0); ((1, 5), mkInode "busy" 0); ((1, 6), mkInode "mine" 0)
].

Definition before : Files := mkFiles (list_to_map nodes) (list_to_map contents).
Definition views : list Path := [at_root ["old"]; at_root ["new"]].
Definition scan : list (Path * Measured) * Ledger := measure_roots before no_ledger views.

(** The disk fits. *)
Definition node_is_right (f : Files) (x : Path * Node) : bool :=
  match last x.1 with
  | Some c => bool_decide (removelast x.1 = []) ||
      match c with Normal _ => is_some_and is_folder (tree f !! (removelast x.1 : Path)) | _ => false end
  | None => true
  end &&
  match x.2 with File k => is_some (inodes f !! k) | _ => true end.

Lemma check_fits f : forallb (node_is_right f) (map_to_list (tree f)) = true ->
  weigh f (dom (inodes f)) <= u64_max -> Z.of_nat (base.size (tree f)) <= u32_max -> fits f.
Proof.
  intros Hall Hfit Hsize. assert (Hn : forall (p : Path) n, tree f !! p = Some n -> node_is_right f (p, n) = true).
  { intros p n Hp. rewrite forallb_forall in Hall. apply Hall, list_elem_of_In. by apply elem_of_map_to_list. }
  constructor; [| |done|done].
  - intros p c [x Hx] Hp. apply Hn in Hx. unfold node_is_right in Hx. cbn [fst snd] in Hx. rewrite last_snoc, removelast_last in Hx.
    apply andb_prop in Hx as [Hx _]. rewrite bool_decide_false in Hx by done. destruct c as [| | |n]; try done. split; [by exists n|].
    cbn [orb] in Hx. destruct (tree f !! p) as [[t| |]|]; try done. by exists t.
  - intros p k Hp. apply Hn in Hp. unfold node_is_right in Hp. cbn [fst snd] in Hp. apply andb_prop in Hp as [_ Hp].
    by destruct (inodes f !! k).
Qed.

Lemma before_fits : fits before.
Proof. apply check_fits; [vm_compute; reflexivity|apply Z.leb_le; vm_compute; reflexivity..]. Qed.

Lemma views_apart : apart views.
Proof.
  split; [|split].
  - apply NoDup_cons. split; [|apply NoDup_singleton]. by intros ?%list_elem_of_singleton.
  - intros p q Hp Hq. unfold views in *. rewrite !elem_of_cons, elem_of_nil in Hp, Hq. destruct Hp as [->|[->|[]]], Hq as [->|[->|[]]]; done.
  - repeat (apply Forall_cons; split; [done|]). apply Forall_nil_2.
Qed.

(** Removing both: [new] only loses what it can, and the object stays in the store. *)
Lemma removals_are_exact_witness :
  let '(released, after, l) := remove_roots before scan.2 scan.1 in
  released = mkRelease 29 23 /\ total l = 4 /\
  (total l = weigh before (live after (files_beneath after views))) /\ released = mkRelease (total scan.2 - total l) (weigh before (lost before after)).
Proof.
  destruct (remove_roots before scan.2 scan.1) as [[released after] l] eqn:E.
  assert (Hnd : NoDup (map fst scan.1)).
  { assert (map fst scan.1 = views) as -> by (vm_compute; reflexivity). apply views_apart. }
  destruct (removals_are_exact before views scan.1 scan.2 scan.1 released after l before_fits views_apart
    (surjective_pairing scan) (fun x Hx => Hx) Hnd E) as (_ & Ht & Hr & _).
  assert (Hv : (released, total l) = (mkRelease 29 23, 4)).
  { transitivity (let '(r, _, l) := remove_roots before scan.2 scan.1 in (r, total l)); [by rewrite E|vm_compute; reflexivity]. }
  injection Hv as Hv1 Hv2. split; [exact Hv1|]. split; [exact Hv2|]. split; [exact Ht|exact Hr].
Defined.
End DiskUsageDemo.
