(* ===== verification/DiskUsageMerge.v ===== *)
(** * Ledgers measured apart

    [DiskUsage.merge] joins the ledgers that scans built apart: a ledger nothing
    was released from is told by the names it saw, and merging two is counting
    the names of both. *)

From stdpp Require Import base list gmap sets strings sorting.
From Stdlib Require Import ZArith Lia.
From S2P Require Import Prelude Strings PathMap RustcArgs HardLinks TreeRemoval Incremental IncrementalLedger DiskUsage DiskUsageLedger.
Local Open Scope Z_scope.

(** ** Ledgers measured apart *)

Section Merging.
Context `{OsLaws}.

(** Nothing was released yet: what the ledger keeps is told by the names it saw. *)
Record fresh (f : Files) (names : gset Path) (l : Ledger) : Prop := {
  fresh_weighs : weighs f names l;
  fresh_kept : forall k, k ∈ dom (counted l) <-> 1 < nlink f k /\ k ∈ live f names;
  fresh_counted : forall k c, counted l !! k = Some c -> links c = nlink f k /\ seen c = Z.of_nat (size (held f names k))
}.

(** Such a ledger is the only one. *)
Lemma fresh_unique f names l l' : fresh f names l -> fresh f names l' -> l = l'.
Proof.
  intros [Hw Hk Hc] [Hw' Hk' Hc']. assert (Hd : dom (counted l) = dom (counted l')) by (apply set_eq; intros k; by rewrite Hk, Hk').
  assert (Hm : counted l = counted l').
  { apply map_eq. intros k. destruct (counted l !! k) as [c|] eqn:E.
    - assert (Hin : k ∈ dom (counted l')) by (rewrite <- Hd; apply elem_of_dom; by eexists). apply elem_of_dom in Hin as [c' E']. rewrite E'.
      destruct (weighs_counted _ _ _ Hw k c E), (weighs_counted _ _ _ Hw' k c' E'), (Hc k c E), (Hc' k c' E').
      destruct c, c'. cbn in *. f_equal. congruence.
    - symmetry. apply not_elem_of_dom. rewrite <- Hd. by apply not_elem_of_dom. }
  pose proof (weighs_shared _ _ _ Hw) as H1. pose proof (weighs_shared _ _ _ Hw') as H2. pose proof (weighs_unshared _ _ _ Hw) as H3.
  pose proof (weighs_unshared _ _ _ Hw') as H4. rewrite <- Hd in H2, H4. destruct l, l'. cbn in *. congruence.
Qed.

Lemma fresh_nothing f : fresh f ∅ no_ledger.
Proof.
  constructor; [constructor; cbn; rewrite ?live_empty; done| |done]. intros k. cbn. rewrite live_empty. split; [by intros ?%elem_of_empty|by intros [_ ?%elem_of_empty]].
Qed.

Lemma count_key_fresh f names l (p : Path) k o l' : fits f -> fresh f names l -> p ∉ names -> key_at f p = Some k ->
  count_key l k (nlink f k) (length_of f k) = (o, l') -> fresh f ({[ p ]} ∪ names) l'.
Proof.
  intros Hf [Hw Hkept Hc] Hp Hk E. destruct (count_key_spec f names l p k o l' Hf Hw Hp Hk E) as [Hw' Ho].
  pose proof (nlink_fits f k Hf) as Hnf. pose proof (held_at_most_links f ({[ p ]} ∪ names) k) as Hlinks.
  rewrite (held_insert_name f p names k k Hk Hp), decide_True in Hlinks by done.
  assert (Hlive : live f ({[ p ]} ∪ names) = {[ k ]} ∪ live f names) by (by rewrite live_union, (live_one f p k Hk)).
  revert E. unfold count_key. assert (nlink f k =? UNKNOWN_LINKS = false) as -> by (apply Z.eqb_neq; unfold UNKNOWN_LINKS, u64_max, u32_max in *; lia).
  rewrite orb_false_r. assert (Hnone : counted l !! k = None -> 1 < nlink f k -> k ∉ live f names).
  { intros Hn Hm Hin. apply not_elem_of_dom in Hn. apply Hn, Hkept. done. }
  destruct (Z.leb_spec (nlink f k) 1) as [Hone|Hmany]; cbn [andb].
  - destruct (counted l !! k) as [c|] eqn:Ek; cbn [negb is_some].
    { assert (Hin : k ∈ dom (counted l)) by (apply elem_of_dom; by eexists). apply Hkept in Hin. lia. }
    intros [= <- <-]. constructor; [done| |]; cbn [counted].
    + intros k'. rewrite Hkept, Hlive, elem_of_union, elem_of_singleton. split; [tauto|]. intros [? [->|?]]; [lia|done].
    + intros k' c Hk'. destruct (Hc k' c Hk') as [? ->]. split; [done|]. rewrite (held_insert_name f p names k k' Hk Hp), decide_False; [lia|congruence].
  - intros [= <- <-]. constructor; [done| |]; cbn [counted].
    + intros k'. rewrite dom_insert_L, elem_of_union, elem_of_singleton, Hkept, Hlive, elem_of_union, elem_of_singleton. split; [|tauto].
      intros [->|?]; [split; [done|by left]|tauto].
    + intros k' c [[<- <-]|[Hne Hk']]%lookup_insert_Some.
      * cbn [links seen]. rewrite (held_insert_name f p names k k Hk Hp), decide_True by done.
        destruct (counted l !! k) as [c|] eqn:Ek; cbn [default from_option id links seen].
        -- destruct (Hc k c Ek) as [-> ->]. unfold saturating_add32. split; lia.
        -- pose proof (Hnone eq_refl Hmany) as Hni. rewrite live_held in Hni. unfold saturating_add32. split; lia.
      * destruct (Hc k' c Hk') as [? ->]. split; [done|]. rewrite (held_insert_name f p names k k' Hk Hp), decide_False by congruence. lia.
Qed.

Lemma add_nodes_fresh f nodes : fits f -> NoDup nodes.*1 -> (forall p n, (p, n) ∈ nodes -> tree f !! p = Some n) ->
  forall names l m m' l', fresh f names l -> files_on f nodes ## names ->
  fold_left (fun s x => add_node f x.1 x.2 s) nodes (m, l) = (m', l') -> fresh f (files_on f nodes ∪ names) l'.
Proof.
  intros Hf. induction nodes as [|[p n] nodes IH]; intros Hnd Hnodes names l m m' l' Hw Hdisj; cbn [fold_left fst snd].
  { intros [= <- <-]. assert (files_on f [] = ∅) as ->; [|by rewrite (left_id_L ∅ (∪))].
    apply set_eq. intros q. rewrite elem_of_files_on. split; [by intros [_ ?%elem_of_nil]|by intros ?%elem_of_empty]. }
  cbn [fmap list_fmap fst] in Hnd. apply NoDup_cons in Hnd as [Hni Hnd].
  assert (Hnodes' : forall q x, (q, x) ∈ nodes -> tree f !! q = Some x) by (intros q x Hq; apply Hnodes; by right).
  pose proof (Hnodes p n ltac:(by left)) as Hp.
  assert (Hset : files_on f ((p, n) :: nodes) = (match key_at f p with Some _ => {[ p ]} | None => ∅ end) ∪ files_on f nodes).
  { apply set_eq. intros q. rewrite elem_of_union, !elem_of_files_on. cbn [fmap list_fmap fst]. rewrite elem_of_cons.
    destruct (key_at f p) as [k|] eqn:Hk; [rewrite elem_of_singleton|rewrite elem_of_empty]; split.
    - tauto.
    - intros [->|?]; [split; [by eexists|by left]|tauto].
    - intros [[k Hq] [->|?]]; [congruence|right; split; [by eexists|done]].
    - tauto. }
  rewrite Hset in *. unfold key_at in *. rewrite Hp in *. destruct n as [t|k|target t]; cbn [add_node]; rewrite ?(left_id_L ∅ (∪)) in *; [by apply IH| |by apply IH].
  assert (Hk : key_at f p = Some k) by by apply key_at_spec.
  assert (Hpn : p ∉ names) by (intros Hin; apply (Hdisj p); [apply elem_of_union; left; by apply elem_of_singleton|done]).
  unfold add_file. destruct (count_key l k _ _) as [o l1] eqn:E. pose proof (count_key_fresh f names l p k o l1 Hf Hw Hpn Hk E) as Hw1.
  replace ({[ p ]} ∪ files_on f nodes ∪ names) with (files_on f nodes ∪ ({[ p ]} ∪ names)) by (apply set_eq; intros q; rewrite !elem_of_union; tauto).
  assert (Hd1 : files_on f nodes ## {[ p ]} ∪ names).
  { intros q Hq [->%elem_of_singleton|Hin]%elem_of_union; [apply elem_of_files_on in Hq as [_ Hq]; done|].
    apply (Hdisj q); [|done]. apply elem_of_union. by right. }
  destruct o as [k0|]; by apply IH.
Qed.

Lemma measure_fresh f names l (root : Path) m l' : fits f -> root <> [] -> fresh f names l -> files_under f root ## names ->
  measure f l root ∅ = (m, l') -> fresh f (files_under f root ∪ names) l'.
Proof.
  intros Hf Hr Hw Hdisj. unfold measure. rewrite bool_decide_false by apply not_elem_of_empty. rewrite walk_root_spec.
  set (excluded := fun p : Path => bool_decide (p ∈ (∅ : gset Path))).
  assert (He : forall q, excluded q = false) by (intros q; apply bool_decide_eq_false, not_elem_of_empty).
  pose proof (files_on_leaves f excluded root He (fits_tree _ Hf) Hr) as Hset. rewrite <- Hset in *.
  apply add_nodes_fresh; [done|by apply NoDup_leaves; [apply Hf|..]| |done|done].
  intros p n Hin. by apply elem_of_leaves in Hin as (? & _ & _); [|apply Hf|..].
Qed.

Lemma measure_roots_fresh f roots : fits f -> apart roots -> forall names l ms l', fresh f names l -> files_beneath f roots ## names ->
  measure_roots f l roots = (ms, l') -> fresh f (files_beneath f roots ∪ names) l'.
Proof.
  intros Hf. induction roots as [|root roots IH]; intros Hap names l ms l' Hw Hdisj; cbn [measure_roots].
  { intros [= <- <-]. assert (files_beneath f [] = ∅) as -> by done. by rewrite (left_id_L ∅ (∪)). }
  destruct (measure f l root ∅) as [m l1] eqn:E1. destruct (measure_roots f l1 roots) as [ms1 l2] eqn:E2. intros [= <- <-].
  pose proof Hap as (Hnd & _ & [Hr _]%Forall_cons). apply NoDup_cons in Hnd as [Hni _].
  assert (Hset : files_beneath f (root :: roots) = files_under f root ∪ files_beneath f roots) by done. rewrite Hset in *.
  assert (Hw1 : fresh f (files_under f root ∪ names) l1).
  { apply (measure_fresh f names l root m); try done. intros p Hp. apply Hdisj. apply elem_of_union. by left. }
  replace (files_under f root ∪ files_beneath f roots ∪ names) with (files_beneath f roots ∪ (files_under f root ∪ names)) by (apply set_eq; intros p; rewrite !elem_of_union; tauto).
  apply (IH (apart_tail _ _ Hap) _ l1 ms1); [done| |done].
  intros p Hp [Hu|Hn]%elem_of_union; [|apply (Hdisj p); [apply elem_of_union; by right|done]].
  apply elem_of_files_beneath in Hp as (root' & Hr' & Hp'). apply Hni.
  rewrite (apart_files f (root :: roots) root root' p); [done|done|by left|by right|done..].
Qed.

(** Part of the way through [merge]: the keys of [done] are in. *)
Record merging (f : Files) (l1 l2 : Ledger) (merged : gset FileKey) (l : Ledger) : Prop := {
  merging_old : forall k, k ∉ merged -> counted l !! k = counted l1 !! k;
  merging_new : forall k, k ∈ merged -> exists theirs, counted l2 !! k = Some theirs /\
    counted l !! k = Some (match counted l1 !! k with
      | Some ours => mkCounted (len ours) (Z.max (links ours) (links theirs)) (saturating_add32 (refs ours) (refs theirs)) (saturating_add32 (seen ours) (seen theirs))
      | None => theirs end);
  merging_shared : shared_bytes l = weigh f (dom (counted l1) ∪ merged)
}.

Lemma fresh_refs f names l k c : fresh f names l -> counted l !! k = Some c -> 0 < refs c /\ len c = length_of f k.
Proof.
  intros Hw Hk. destruct (weighs_counted _ _ _ (fresh_weighs _ _ _ Hw) k c Hk) as [Hl Hr]. split; [|done].
  assert (Hin : k ∈ dom (counted l)) by (apply elem_of_dom; by eexists). apply (fresh_kept _ _ _ Hw) in Hin as [_ Hin].
  rewrite live_held in Hin. lia.
Qed.

Lemma fresh_dom_known f names l : fits f -> fresh f names l -> dom (counted l) ⊆ dom (inodes f).
Proof.
  intros Hf Hw k Hk. apply (fresh_kept _ _ _ Hw) in Hk as [_ (p & _ & Hp%key_at_spec)%elem_of_live]. apply elem_of_dom. by apply (fits_known _ Hf p).
Qed.

Lemma merge_file_spec f K1 K2 l1 l2 merged l k theirs : fits f -> fresh f K1 l1 -> fresh f K2 l2 -> merging f l1 l2 merged l -> merged ⊆ dom (counted l2) ->
  k ∉ merged -> counted l2 !! k = Some theirs ->
  merging f l1 l2 ({[ k ]} ∪ merged) (merge_file l (k, theirs)) /\ unshared_bytes (merge_file l (k, theirs)) = unshared_bytes l.
Proof.
  intros Hf Hw1 Hw2 [Ho Hn Hs] Hsub Hk Ht. destruct (fresh_refs f K2 l2 k theirs Hw2 Ht) as [Hpos Hlen].
  assert (Hfit : weigh f (dom (counted l1) ∪ ({[ k ]} ∪ merged)) <= u64_max).
  { etrans; [|apply (fits_bytes _ Hf)]. apply weigh_mono. intros x [Hx|[->%elem_of_singleton|Hx]%elem_of_union]%elem_of_union;
      [by apply (fresh_dom_known f K1 l1)|..]; apply (fresh_dom_known f K2 l2); try done; [apply elem_of_dom; by eexists|by apply Hsub]. }
  unfold merge_file. rewrite (Ho k Hk). split; [|by destruct (counted l1 !! k)].
  destruct (counted l1 !! k) as [ours|] eqn:E.
  - destruct (fresh_refs f K1 l1 k ours Hw1 E) as [Hpos1 _]. destruct (Z.eqb_spec (refs ours) 0); [lia|]. cbn [andb].
    constructor; cbn [counted shared_bytes].
    + intros k' Hk'. rewrite lookup_insert_ne; [apply Ho|]; intros Hx; apply Hk', elem_of_union; [by right|left; by apply elem_of_singleton].
    + intros k' [->%elem_of_singleton|Hk']%elem_of_union; [exists theirs; rewrite lookup_insert_eq, E; done|].
      rewrite lookup_insert_ne by (intros ->; done). by apply Hn.
    + rewrite Hs. f_equal. apply set_eq. intros x. rewrite !elem_of_union, elem_of_singleton. split; [tauto|].
      intros [?|[->|?]]; [by left|left; apply elem_of_dom; by eexists|by right].
  - destruct (Z.ltb_spec 0 (refs theirs)); [|lia]. constructor; cbn [counted shared_bytes].
    + intros k' Hk'. rewrite lookup_insert_ne; [apply Ho|]; intros Hx; apply Hk', elem_of_union; [by right|left; by apply elem_of_singleton].
    + intros k' [->%elem_of_singleton|Hk']%elem_of_union; [exists theirs; rewrite lookup_insert_eq, E; done|].
      rewrite lookup_insert_ne by (intros ->; done). by apply Hn.
    + assert (Hset : dom (counted l1) ∪ ({[ k ]} ∪ merged) = {[ k ]} ∪ (dom (counted l1) ∪ merged)) by (apply set_eq; intros x; rewrite !elem_of_union; tauto).
      assert (Hni : k ∉ dom (counted l1) ∪ merged) by (rewrite elem_of_union; intros [Hx|?]; [by apply not_elem_of_dom in E|done]).
      rewrite Hset, (weigh_insert f k _ Hni), <- Hs, <- Hlen in Hfit |- *. unfold saturating_add. rewrite Z.min_r; lia.
Qed.

Lemma merge_files_spec f K1 K2 l1 l2 xs : fits f -> fresh f K1 l1 -> fresh f K2 l2 -> NoDup xs.*1 -> (forall x, x ∈ xs -> counted l2 !! x.1 = Some x.2) ->
  forall merged l, merging f l1 l2 merged l -> merged ⊆ dom (counted l2) -> (forall x, x ∈ xs -> x.1 ∉ merged) ->
  merging f l1 l2 (list_to_set xs.*1 ∪ merged) (fold_left merge_file xs l) /\ unshared_bytes (fold_left merge_file xs l) = unshared_bytes l.
Proof.
  intros Hf Hw1 Hw2. induction xs as [|[k c] xs IH]; intros Hnd Hxs merged l Hm Hsub Hnew; cbn [fold_left].
  { split; [|done]. assert (list_to_set ([] : list (FileKey * Counted)).*1 = (∅ : gset FileKey)) as -> by done. by rewrite (left_id_L ∅ (∪)). }
  cbn [fmap list_fmap fst] in Hnd |- *. apply NoDup_cons in Hnd as [Hni Hnd]. pose proof (Hxs (k, c) ltac:(by left)) as Hk. cbn [fst snd] in Hk.
  destruct (merge_file_spec f K1 K2 l1 l2 merged l k c Hf Hw1 Hw2 Hm Hsub) as [Hm1 Hu1]; [apply (Hnew (k, c)); by left|done|].
  destruct (IH Hnd ltac:(intros x Hx; apply Hxs; by right) _ _ Hm1) as [Hm' Hu'].
  - intros x [->%elem_of_singleton|Hx]%elem_of_union; [apply elem_of_dom; by eexists|by apply Hsub].
  - intros x Hx [He%elem_of_singleton|Hx']%elem_of_union; [|by apply (Hnew x); [right|]].
    apply Hni. apply list_elem_of_fmap. by exists x.
  - split; [|by rewrite Hu']. rewrite list_to_set_cons. replace ({[ k ]} ∪ list_to_set xs.*1 ∪ merged) with (list_to_set xs.*1 ∪ ({[ k ]} ∪ merged)); [done|].
    apply set_eq. intros x. rewrite !elem_of_union. tauto.
Qed.

Lemma fresh_unshared f names l : fresh f names l -> unshared_bytes l = weigh f (filter (fun k => nlink f k <= 1) (live f names)).
Proof.
  intros Hw. rewrite (weighs_unshared _ _ _ (fresh_weighs _ _ _ Hw)). f_equal. apply set_eq. intros k. rewrite !elem_of_filter, (fresh_kept _ _ _ Hw).
  split; intros [Hn Hin]; (split; [|done]); [destruct (Z.leb_spec (nlink f k) 1); [done|tauto]|lia].
Qed.

Lemma held_union f K1 K2 k : K1 ## K2 -> size (held f (K1 ∪ K2) k) = (size (held f K1 k) + size (held f K2 k))%nat.
Proof.
  intros Hd. rewrite <- size_union.
  - f_equal. apply set_eq. intros p. rewrite elem_of_union, !elem_of_held, elem_of_union. tauto.
  - intros p [_ H1]%elem_of_held [_ H2]%elem_of_held. by apply (Hd p).
Qed.

(** What is kept after a merge. *)
Lemma merged_kept f K1 K2 l1 l2 l k : fresh f K1 l1 -> fresh f K2 l2 -> merging f l1 l2 (dom (counted l2)) l ->
  (k ∈ dom (counted l) <-> k ∈ dom (counted l1) \/ k ∈ dom (counted l2)) /\
  (k ∈ dom (counted l) <-> 1 < nlink f k /\ k ∈ live f (K1 ∪ K2)).
Proof.
  intros Hw1 Hw2 [Ho Hn _]. assert (Hd : k ∈ dom (counted l) <-> k ∈ dom (counted l1) \/ k ∈ dom (counted l2)).
  { destruct (decide (k ∈ dom (counted l2))) as [Hin|Hin]; [|rewrite elem_of_dom, (Ho k Hin), elem_of_dom; tauto].
    destruct (Hn k Hin) as (c & _ & Hk). rewrite elem_of_dom, Hk. split; [by right|by eexists]. }
  split; [done|]. rewrite Hd, (fresh_kept _ _ _ Hw1), (fresh_kept _ _ _ Hw2), live_union, elem_of_union. tauto.
Qed.

Lemma fresh_entry f names l k c : fresh f names l -> counted l !! k = Some c ->
  len c = length_of f k /\ refs c = Z.of_nat (size (held f names k)) /\ links c = nlink f k /\ seen c = Z.of_nat (size (held f names k)).
Proof.
  intros Hw Hc. destruct (weighs_counted _ _ _ (fresh_weighs _ _ _ Hw) k c Hc), (fresh_counted _ _ _ Hw k c Hc). done.
Qed.

Lemma fresh_unseen f names l k : fresh f names l -> 1 < nlink f k -> counted l !! k = None -> size (held f names k) = 0%nat.
Proof.
  intros Hw Hm Hnone. apply held_live_empty. intros Hin. apply not_elem_of_dom in Hnone. apply Hnone, (fresh_kept _ _ _ Hw). done.
Qed.

Lemma merged_entry f K1 K2 l1 l2 l k c : fits f -> K1 ## K2 -> fresh f K1 l1 -> fresh f K2 l2 -> merging f l1 l2 (dom (counted l2)) l ->
  counted l !! k = Some c ->
  len c = length_of f k /\ refs c = Z.of_nat (size (held f (K1 ∪ K2) k)) /\ links c = nlink f k /\ seen c = Z.of_nat (size (held f (K1 ∪ K2) k)).
Proof.
  intros Hf Hd Hw1 Hw2 Hm Hk. destruct (merged_kept f K1 K2 l1 l2 l k Hw1 Hw2 Hm) as [_ Hkept]. destruct Hm as [Ho Hn _].
  pose proof (held_union f K1 K2 k Hd) as Hsz. pose proof (held_at_most_links f (K1 ∪ K2) k) as Hle. pose proof (nlink_fits f k Hf) as Hnf.
  assert (Hmany : 1 < nlink f k) by (apply Hkept, elem_of_dom; by eexists).
  destruct (decide (k ∈ dom (counted l2))) as [Hin|Hin].
  - destruct (Hn k Hin) as (c2 & Hc2 & Hk'). rewrite Hk in Hk'. injection Hk' as ->. destruct (fresh_entry f K2 l2 k c2 Hw2 Hc2) as (? & ? & ? & ?).
    destruct (counted l1 !! k) as [c1|] eqn:E1; cbn [len refs links seen].
    + destruct (fresh_entry f K1 l1 k c1 Hw1 E1) as (? & ? & ? & ?). unfold saturating_add32. split; [done|]. split; [lia|]. split; lia.
    + pose proof (fresh_unseen f K1 l1 k Hw1 Hmany E1). split; [done|]. split; [lia|]. split; lia.
  - rewrite (Ho k Hin) in Hk. destruct (fresh_entry f K1 l1 k c Hw1 Hk) as (? & ? & ? & ?).
    pose proof (fresh_unseen f K2 l2 k Hw2 Hmany ltac:(by apply not_elem_of_dom)). split; [done|]. split; [lia|]. split; lia.
Qed.

(** The files with a single name do not meet. *)
Lemma single_apart f K1 K2 : K1 ## K2 ->
  filter (fun k => nlink f k <= 1) (live f K1) ## filter (fun k => nlink f k <= 1) (live f K2).
Proof.
  intros Hd k [H1 Hin1]%elem_of_filter [_ Hin2]%elem_of_filter. rewrite live_held in Hin1, Hin2.
  pose proof (held_at_most_links f (K1 ∪ K2) k). rewrite (held_union f K1 K2 k Hd) in *. lia.
Qed.

(** Merging is counting the names of both. *)
Lemma merge_fresh f K1 K2 l1 l2 : fits f -> K1 ## K2 -> fresh f K1 l1 -> fresh f K2 l2 -> fresh f (K1 ∪ K2) (merge l1 l2).
Proof.
  intros Hf Hd Hw1 Hw2. unfold merge. set (l0 := mkLedger _ _ _).
  destruct (merge_files_spec f K1 K2 l1 l2 (map_to_list (counted l2)) Hf Hw1 Hw2 (NoDup_fst_map_to_list _)) with (merged := (∅ : gset FileKey)) (l := l0) as [Hm Hu].
  { intros [k c] Hx. by apply elem_of_map_to_list in Hx. }
  { constructor; [done|by intros k ?%elem_of_empty|]. subst l0. cbn [shared_bytes]. rewrite (right_id_L ∅ (∪)), (weighs_shared _ _ _ (fresh_weighs _ _ _ Hw1)).
    f_equal. apply set_eq. intros k. rewrite elem_of_filter, (fresh_kept _ _ _ Hw1). tauto. }
  { intros k ?%elem_of_empty. done. }
  { intros x _. apply not_elem_of_empty. }
  rewrite (right_id_L ∅ (∪)) in Hm. assert (Hdl : list_to_set (map_to_list (counted l2)).*1 = dom (counted l2)).
  { apply set_eq. intros k. rewrite elem_of_list_to_set, list_elem_of_fmap, elem_of_dom. split.
    - intros ([k' c] & -> & Hin%elem_of_map_to_list). by eexists.
    - intros [c Hk]. exists (k, c). split; [done|]. by apply elem_of_map_to_list. }
  rewrite Hdl in Hm. set (l := fold_left merge_file _ l0) in *. pose proof (fun k => proj1 (merged_kept f K1 K2 l1 l2 l k Hw1 Hw2 Hm)) as Hdom.
  pose proof (fun k => proj2 (merged_kept f K1 K2 l1 l2 l k Hw1 Hw2 Hm)) as Hkept. pose proof (fun k c => merged_entry f K1 K2 l1 l2 l k c Hf Hd Hw1 Hw2 Hm) as Hentry.
  constructor; [|done|intros k c Hk; by destruct (Hentry k c Hk) as (_ & _ & ? & ?)]. constructor.
  - intros p [Hp|Hp]%elem_of_union; [by apply (weighs_names _ _ _ (fresh_weighs _ _ _ Hw1))|by apply (weighs_names _ _ _ (fresh_weighs _ _ _ Hw2))].
  - intros k c Hk. by destruct (Hentry k c Hk) as (? & ? & _).
  - intros k Hk%not_elem_of_dom Hin. rewrite Hkept in Hk. destruct (Z.leb_spec (nlink f k) 1); [done|tauto].
  - rewrite (merging_shared _ _ _ _ _ Hm). f_equal. apply set_eq. intros k. rewrite elem_of_union, elem_of_filter, <- Hdom, Hkept. tauto.
  - rewrite Hu. subst l0. cbn [unshared_bytes]. rewrite (fresh_unshared f K1 l1 Hw1), (fresh_unshared f K2 l2 Hw2).
    assert (Hset : filter (fun k => k ∉ dom (counted l)) (live f (K1 ∪ K2)) =
      filter (fun k => nlink f k <= 1) (live f K1) ∪ filter (fun k => nlink f k <= 1) (live f K2)).
    { apply set_eq. intros k. rewrite elem_of_union, !elem_of_filter, Hkept, live_union, elem_of_union.
      destruct (Z.leb_spec (nlink f k) 1); [split; [tauto|]; intros Hx; split; [lia|tauto]|split; [tauto|lia]]. }
    pose proof (single_apart f K1 K2 Hd) as Hdj. rewrite Hset, (weigh_union f _ _ Hdj). unfold saturating_add. rewrite Z.min_r; [done|].
    rewrite <- (weigh_union f _ _ Hdj). etrans; [|apply (live_fits f (K1 ∪ K2) Hf)]. apply weigh_mono. rewrite live_union. intros k.
    rewrite !elem_of_union, !elem_of_filter. tauto.
Qed.

(** C24: Ledgers that measured apart merge into the one that measured all.
    Whichever trees two scans took, with files linked within a tree, between
    the trees of one scan or across both, [merge] gives the very ledger one
    scan over all of them builds: a file both reached counts once, and the
    links seen of it add up. *)
Theorem merging_is_measuring_both f roots roots' ms ms' all l l' joint :
  fits f -> apart (roots ++ roots')%list ->
  measure_roots f no_ledger roots = (ms, l) -> measure_roots f no_ledger roots' = (ms', l') ->
  measure_roots f no_ledger (roots ++ roots')%list = (all, joint) -> merge l l' = joint.
Proof.
  intros Hf Hap E E' Ej. assert (Hnone : forall X : gset Path, X ## ∅) by (intros X p _ Hp; by apply elem_of_empty in Hp).
  assert (Hsub : forall l0, (forall r, r ∈ l0 -> r ∈ roots ++ roots')%list -> NoDup l0 -> apart l0).
  { intros l0 Hin Hnd. destruct Hap as (_ & Ha & Hne). split; [done|]. split; [intros p q Hp Hq; apply Ha; by apply Hin|].
    apply Forall_forall. intros p Hp. rewrite Forall_forall in Hne. by apply Hne, Hin. }
  pose proof Hap as (Hnd & _ & _). apply NoDup_app in Hnd as (Hnd & Hd & Hnd').
  pose proof (measure_roots_fresh f roots Hf (Hsub roots ltac:(intros r Hr; apply elem_of_app; by left) Hnd) ∅ no_ledger ms l (fresh_nothing f) (Hnone _) E) as H1.
  pose proof (measure_roots_fresh f roots' Hf (Hsub roots' ltac:(intros r Hr; apply elem_of_app; by right) Hnd') ∅ no_ledger ms' l' (fresh_nothing f) (Hnone _) E') as H2.
  pose proof (measure_roots_fresh f _ Hf Hap ∅ no_ledger all joint (fresh_nothing f) (Hnone _) Ej) as H3.
  rewrite (right_id_L ∅ (∪)) in H1, H2, H3. apply (fresh_unique f (files_beneath f (roots ++ roots')%list)); [|done].
  replace (files_beneath f (roots ++ roots')%list) with (files_beneath f roots ∪ files_beneath f roots').
  - apply merge_fresh; [done| |done|done]. intros p (r & Hr & Hp)%elem_of_files_beneath (r' & Hr' & Hp')%elem_of_files_beneath.
    apply (Hd r Hr). rewrite (apart_files f _ r r' p Hap); [done|apply elem_of_app; by left|apply elem_of_app; by right|done..].
  - apply set_eq. intros p. rewrite elem_of_union, !elem_of_files_beneath. setoid_rewrite elem_of_app. naive_solver.
Qed.
End Merging.

(** The views of [DiskUsageDemo], each measured apart. *)
Module MergeDemo.
Import DiskUsageDemo.
Open Scope string_scope.
#[local] Existing Instance disk.
#[local] Existing Instance disk_laws.

Lemma merging_is_measuring_both_witness :
  merge (measure_roots before no_ledger [at_root ["old"]]).2 (measure_roots before no_ledger [at_root ["new"]]).2 = scan.2 /\ total scan.2 = 33.
Proof.
  split; [|vm_compute; reflexivity].
  refine (merging_is_measuring_both before [at_root ["old"]] [at_root ["new"]] _ _ scan.1 _ _ scan.2 before_fits views_apart _ _ _);
    [apply surjective_pairing|apply surjective_pairing|apply surjective_pairing].
Defined.
End MergeDemo.
