(* ===== verification/CcArgs.v ===== *)
(** * C and C++ command lines

    Models the parsers of [src/crates/mbx-cache-cc/src/lib.rs]: the gcc-style
    driver's ([Parser]) and [cl.exe]'s ([MsvcParser]), the environment that
    enters a key and the identity of a compiler.  A flag is admitted when its
    text says all it does, bypasses the cache otherwise, and is kept as an
    [Argument]; the dependency-list flags of a caller are admitted and left out.
    [CcReading.v] has the theorems. *)

From stdpp Require Import base list gmap strings sorting.
From Stdlib Require Import ZArith Lia Ascii.
From S2P Require Import Prelude Strings PathMap RustcArgs.
Local Open Scope string_scope.

(** ** Data *)

Inductive CcBypassReason :=
| NonUtf8Argument (index : nat)
| ResponseFile (file : string)
| UnknownFlag (flag : string)
| MissingValue (flag : string)
| CompilerQuery | NotACompile
| NonObjectOutput (flag : string)
| StandardInput | MissingInput | MultipleInputs | MissingOutput
| UnsupportedLanguage (language : string)
| CallerDependencyFlags (flag : string)
| PrecompiledHeader (flag : string)
| CoverageInstrumentation (flag : string)
| SplitDebugOutput (flag : string)
| SaveTemps (flag : string)
| ToolPassthrough (flag : string)
| Plugin (flag : string)
| SearchPathModifiedDuringCompilation (path : Path)
| UnportableOutput (path : Path)
| PathSpecificStorageDisabled
| LocalCpuTarget (flag : string)
| UnsupportedCompilerDriver (driver : string)
| CompilerIdentityUnavailable (message : string)
| UnsupportedEnvironment (name : string)
| RealCompilerUnpinned
| BypassEmbeddedTimestampMacro (path : Path)
| AssemblerInputDirective (path : Path)
| MalformedDepfile (message : string)
| DepfileRead (path : Path) (message : string)
| TooManyInputs
| BypassUnmappedAbsolutePath (path : Path)
| BypassNonUtf8Path (path : Path)
| RelativeWorkingDirectory (path : Path)
| RelativePathMapping (path : Path)
| InvalidPathPlaceholder (placeholder : string)
| MissingRequiredInput (name : string)
| InvalidInputDigest (path : string)
| ConflictingInput (name : string)
| InputRead (path : Path) (message : string)
| InputChanged (path : Path)
| InputModifiedDuringCompilation (path : Path)
| DiscoveryWorkingDirectory
| UnsupportedPrediction
| InvalidPredictedInput (value : string)
| Serialization (message : string).

Inductive CcLanguage := C | Cxx.

(** [Msvc] exists where the adapter is built for Windows. *)
Inductive CcCompilerFamily := Gcc | Clang | AppleClang | Msvc.

#[export] Instance CcLanguage_eq_dec : EqDecision CcLanguage.
Proof. solve_decision. Defined.
#[export] Instance CcCompilerFamily_eq_dec : EqDecision CcCompilerFamily.
Proof. solve_decision. Defined.

(** A [PathBuf] of a command line is its text; [path_of] has its components. *)
Inductive Argument :=
| Plain (value : string)
| PathArgument (flag path : string)
| PrefixMap (flag from to : string)
| Source (path : string).

#[export] Instance Argument_eq_dec : EqDecision Argument.
Proof. solve_decision. Defined.

Record DepfileTarget := mkTarget { target_name : string; quoted : bool }.

Record CallerDepfile := mkCallerDepfile {
  depfile_path : Path;
  depfile_targets : list DepfileTarget;
  user_headers_only : bool;
  phony_targets : bool
}.

Record CcInvocation := mkInvocation {
  arguments : list Argument;
  source : string;
  output : string;
  include_dirs : list string;
  required_inputs : list string;
  language : CcLanguage;
  preprocessed_assembly : bool;
  preprocessing_arguments : option (list string);
  sysroot : option string;
  caller_depfile : option CallerDepfile;
  dependency_argument_indices : list nat
}.

Definition has_prefix (p s : string) : bool := is_some (strip_prefix p s).

Definition SUPPORTED_F_FLAGS : list string :=
  ["PIC"; "PIE"; "asynchronous-unwind-tables"; "cf-protection"; "color-diagnostics"; "data-sections";
   "diagnostics-color"; "exceptions"; "fast-math"; "finite-math-only"; "function-sections"; "lto";
   "math-errno"; "merge-all-constants"; "no-asynchronous-unwind-tables"; "no-builtin"; "no-common";
   "no-exceptions"; "no-fast-math"; "no-finite-math-only"; "no-lto"; "no-math-errno";
   "no-omit-frame-pointer"; "no-plt"; "no-reciprocal-math"; "no-rtti"; "no-semantic-interposition";
   "no-stack-protector"; "no-strict-aliasing"; "no-tree-vectorize"; "no-unroll-loops"; "no-unwind-tables";
   "omit-frame-pointer"; "pic"; "pie"; "reciprocal-math"; "rtti"; "sanitize-undefined-strip-path-components";
   "short-enums"; "signed-char"; "stack-clash-protection"; "stack-protector"; "stack-protector-all";
   "stack-protector-strong"; "strict-aliasing"; "tls-model"; "tree-vectorize"; "unroll-loops";
   "unsigned-char"; "unwind-tables"; "visibility"; "visibility-inlines-hidden"; "wrapv"].

Definition SUPPORTED_M_FLAGS : list string :=
  ["32"; "64"; "adx"; "aes"; "arch"; "arm"; "avx"; "avx2"; "avx512bf16"; "avx512bitalg"; "avx512bw"; "avx512cd";
   "avx512dq"; "avx512f"; "avx512fp16"; "avx512ifma"; "avx512vbmi"; "avx512vbmi2"; "avx512vl"; "avx512vnni";
   "avx512vpopcntdq"; "avxvnni"; "bmi"; "bmi2"; "cpu"; "crc"; "crypto"; "dotprod"; "f16c"; "float-abi"; "fma";
   "fpu"; "gfni"; "iphoneos-version-min"; "lse"; "lzcnt"; "macosx-version-min"; "movbe"; "no-avx"; "no-avx2";
   "no-avx512f"; "no-omit-leaf-frame-pointer"; "no-outline-atomics"; "no-red-zone"; "no-sse"; "no-sse2";
   "omit-leaf-frame-pointer"; "outline-atomics"; "pclmul"; "popcnt"; "rdrnd"; "rdseed"; "red-zone"; "sha";
   "sha512"; "soft-float"; "sse"; "sse2"; "sse3"; "sse4.1"; "sse4.2"; "sse4a"; "ssse3"; "sve"; "sve2"; "thumb";
   "tune"; "vaes"; "vpclmulqdq"; "xsave"; "xsavec"; "xsaveopt"; "xsaves"].

Definition SUPPORTED_O_FLAGS : list string := ["-O"; "-O0"; "-O1"; "-O2"; "-O3"; "-Ofast"; "-Og"; "-Os"; "-Oz"].

Definition SUPPORTED_G_FLAGS : list string :=
  ["-g"; "-g0"; "-g1"; "-g2"; "-g3"; "-gdwarf-2"; "-gdwarf-3"; "-gdwarf-4"; "-gdwarf-5"; "-gfull"; "-ggdb";
   "-ggdb0"; "-ggdb1"; "-ggdb2"; "-ggdb3"].

Definition SUPPORTED_BARE_FLAGS : list string :=
  ["-P"; "-ansi"; "-nostdinc"; "-nostdinc++"; "-pedantic"; "-pedantic-errors"; "-pipe"; "-pthread"; "-w"].

Definition SEPARATE_PATH_FLAGS : list string :=
  ["-idirafter"; "-imacros"; "-include"; "-iquote"; "-isysroot"; "-isystem"].

Definition TOOL_PASSTHROUGH_FLAGS : list string := ["-Xassembler"; "-Xclang"; "-Xlinker"; "-Xpreprocessor"].

Definition SUPPORTED_ASSEMBLER_OPTIONS : list string := ["--noexecstack"].

Definition COMPILER_QUERY_FLAGS : list string :=
  ["--help"; "--version"; "-###"; "-?"; "-dumpmachine"; "-dumpversion"; "-v"].

Definition PREFIX_MAP_FLAGS : list string := ["-fdebug-prefix-map"; "-ffile-prefix-map"; "-fmacro-prefix-map"].

Definition SOURCE_EXTENSIONS : list string := ["c"; "S"; "cc"; "cpp"; "cxx"; "c++"].

(** [slice::binary_search] answers by comparison on the sorted tables. *)
Fixpoint ascending (l : list string) : bool :=
  match l with
  | a :: (b :: _) as l => String.ltb a b && ascending l
  | _ => true
  end.

(** ** The parser's state *)

Record DependencyRequest := mkRequest {
  d_user_headers_only : option bool;
  d_file : option string;
  d_targets : list DepfileTarget;
  d_phony_targets : bool;
  d_modifier : option string;
  d_indices : list nat
}.

Definition no_request : DependencyRequest := mkRequest None None [] false None [].

(** The arguments not read yet are the tail from [index].  [MsvcParser] has
    the fields of the plain compilation. *)
Record Parser := mkParser {
  p_arguments : list string;
  p_index : nat;
  p_parsed : list Argument;
  p_source : option string;
  p_output : option string;
  p_include_dirs : list string;
  p_sysroot : option string;
  p_explicit_language : option CcLanguage;
  p_preprocessed_assembly : bool;
  p_compiling : bool;
  p_preprocessing : bool;
  p_dependency : DependencyRequest
}.

Definition parser_new (arguments : list string) : Parser :=
  mkParser arguments 0 [] None None [] None None false false false no_request.

Definition advance (p : Parser) : Parser :=
  let '(mkParser a i ps s o id sr el pa c pp d) := p in mkParser (tail a) (S i) ps s o id sr el pa c pp d.
Definition push_parsed (x : Argument) (p : Parser) : Parser :=
  let '(mkParser a i ps s o id sr el pa c pp d) := p in mkParser a i (ps ++ [x]) s o id sr el pa c pp d.
Definition set_source (x : string) (p : Parser) : Parser :=
  let '(mkParser a i ps s o id sr el pa c pp d) := p in mkParser a i ps (Some x) o id sr el pa c pp d.
Definition set_output (x : string) (p : Parser) : Parser :=
  let '(mkParser a i ps s o id sr el pa c pp d) := p in mkParser a i ps s (Some x) id sr el pa c pp d.
Definition push_include_dir (x : string) (p : Parser) : Parser :=
  let '(mkParser a i ps s o id sr el pa c pp d) := p in mkParser a i ps s o (id ++ [x]) sr el pa c pp d.
Definition set_sysroot (x : string) (p : Parser) : Parser :=
  let '(mkParser a i ps s o id sr el pa c pp d) := p in mkParser a i ps s o id (Some x) el pa c pp d.
Definition set_explicit_language (x : CcLanguage) (p : Parser) : Parser :=
  let '(mkParser a i ps s o id sr el pa c pp d) := p in mkParser a i ps s o id sr (Some x) pa c pp d.
Definition set_preprocessed_assembly (p : Parser) : Parser :=
  let '(mkParser a i ps s o id sr el pa c pp d) := p in mkParser a i ps s o id sr el true c pp d.
Definition set_compiling (p : Parser) : Parser :=
  let '(mkParser a i ps s o id sr el pa c pp d) := p in mkParser a i ps s o id sr el pa true pp d.
Definition set_preprocessing (p : Parser) : Parser :=
  let '(mkParser a i ps s o id sr el pa c pp d) := p in mkParser a i ps s o id sr el pa c true d.
Definition set_dependency (f : DependencyRequest -> DependencyRequest) (p : Parser) : Parser :=
  let '(mkParser a i ps s o id sr el pa c pp d) := p in mkParser a i ps s o id sr el pa c pp (f d).

Definition set_headers (user : bool) (d : DependencyRequest) : DependencyRequest :=
  let '(mkRequest u f t ph m ix) := d in mkRequest (Some user) f t ph m ix.
Definition set_phony (d : DependencyRequest) : DependencyRequest :=
  let '(mkRequest u f t ph m ix) := d in mkRequest u f t true m ix.
Definition set_file (x : string) (d : DependencyRequest) : DependencyRequest :=
  let '(mkRequest u f t ph m ix) := d in mkRequest u (Some x) t ph m ix.
Definition push_target (x : DepfileTarget) (d : DependencyRequest) : DependencyRequest :=
  let '(mkRequest u f t ph m ix) := d in mkRequest u f (t ++ [x]) ph m ix.
Definition set_modifier (x : string) (d : DependencyRequest) : DependencyRequest :=
  let '(mkRequest u f t ph m ix) := d in mkRequest u f t ph (Some x) ix.
Definition extend_indices (x : list nat) (d : DependencyRequest) : DependencyRequest :=
  let '(mkRequest u f t ph m ix) := d in mkRequest u f t ph m (ix ++ x).

(** What a handler does: fail, or answer and leave a state. *)
Definition Parse (A : Type) : Type := Parser -> result CcBypassReason (A * Parser).

#[export] Instance Parse_ret : MRet Parse := fun _ a p => Ok (a, p).
#[export] Instance Parse_bind : MBind Parse :=
  fun _ _ f m p => match m p with Ok (a, p) => f a p | Err e => Err e end.
Definition fail {A} (e : CcBypassReason) : Parse A := fun _ => Err e.
Definition modify (f : Parser -> Parser) : Parse unit := fun p => Ok ((), f p).
Definition get : Parse Parser := fun p => Ok (p, p).

Definition keep (x : Argument) : Parse unit := modify (push_parsed x).

Definition current : Parse string :=
  fun p => match p_arguments p with
           | value :: _ => value ← ok_or (NonUtf8Argument (p_index p)) (to_str value); Ok (value, p)
           | [] => Err (NonUtf8Argument (p_index p))
           end.

(** [MsvcParser::value] is the same with the attached text. *)
Definition take_value (flag : string) (inline : option string) : Parse string :=
  match inline with
  | Some (String _ _ as value) => mret value
  | _ =>
      p ← get;
      match p_arguments p with
      | [] => fail (MissingValue flag)
      | _ => value ← current; _ ← modify advance; mret value
      end
  end.

(** ** Flags of a gcc-style driver *)

Definition parse_dependency_flag (value option : string) : Parse unit :=
  p ← get;
  let start := (p_index p - 1)%nat in
  _ ← (if String.eqb option "D" then modify (set_dependency (set_headers false))
       else if String.eqb option "MD" then modify (set_dependency (set_headers true))
       else if String.eqb option "P" then
         _ ← modify (set_dependency set_phony);
         modify (set_dependency (set_modifier value))
       else
         match option with
         | String "F" rest =>
             file ← take_value "-MF" (Some rest);
             _ ← modify (set_dependency (set_file file));
             modify (set_dependency (set_modifier "-MF"))
         | String "T" rest =>
             name ← take_value "-MT" (Some rest);
             _ ← modify (set_dependency (push_target (mkTarget name false)));
             modify (set_dependency (set_modifier "-MT"))
         | String "Q" rest =>
             name ← take_value "-MQ" (Some rest);
             _ ← modify (set_dependency (push_target (mkTarget name true)));
             modify (set_dependency (set_modifier "-MQ"))
         | _ => fail (CallerDependencyFlags value)
         end);
  p ← get;
  modify (set_dependency (extend_indices (seq start (p_index p - start)))).

Definition flag_name (option : string) : string := head_of_split "=" option.

Definition parse_f_flag (value option : string) : Parse unit :=
  if has_prefix "plugin" option || has_prefix "pass-plugin" option then fail (Plugin value)
  else if has_prefix "profile-" option || String.eqb option "test-coverage" then fail (CoverageInstrumentation value)
  else if negb (one_of (flag_name option) SUPPORTED_F_FLAGS) then fail (UnknownFlag value)
  else keep (Plain value).

Definition parse_m_flag (value option : string) : Parse unit :=
  if String.eqb option "llvm" then fail (ToolPassthrough value)
  else if is_some_and (fun x : string * string => one_of x.1 ["arch"; "cpu"; "tune"] && one_of x.2 ["native"; "host"])
            (split_once "=" option)
  then fail (LocalCpuTarget value)
  else if negb (one_of (flag_name option) SUPPORTED_M_FLAGS) then fail (UnknownFlag value)
  else keep (Plain value).

Definition find_prefix_map (value : string) : option (string * string) :=
  find_map (fun flag => pair flag <$> strip_prefix (flag ++ "=") value) PREFIX_MAP_FLAGS.

(** The end of [parse_flag], from the targets on. *)
Definition parse_machine_flag (value : string) : Parse unit :=
  match strip_prefix "--target=" value with
  | Some target => keep (Plain ("--target=" ++ target))
  | None =>
  if String.eqb value "-target" then
    target ← take_value "-target" None;
    keep (Plain ("--target=" ++ target))
  else if String.eqb value "-arch" then
    arch ← take_value "-arch" None;
    keep (Plain ("-arch=" ++ arch))
  else
  match strip_prefix "-f" value with
  | Some option => parse_f_flag value option
  | None =>
  match strip_prefix "-m" value with
  | Some option => parse_m_flag value option
  | None =>
  if has_prefix "-g" value then
    fail (if has_prefix "-gsplit-dwarf" value then SplitDebugOutput value else UnknownFlag value)
  else if has_prefix "-W" value then keep (Plain value)
  else fail (UnknownFlag value)
  end end end.

Definition parse_language (language : string) : Parse unit :=
  _ ← (if String.eqb language "c" then modify (set_explicit_language C)
       else if String.eqb language "assembler-with-cpp" then
         _ ← modify set_preprocessed_assembly;
         modify (set_explicit_language C)
       else if String.eqb language "c++" then modify (set_explicit_language Cxx)
       else fail (UnsupportedLanguage language));
  keep (Plain ("-x" ++ language)).

(** The definitions and the language. *)
Definition parse_text_flag (value : string) : Parse unit :=
  if String.eqb value "--param" then
    parameter ← take_value "--param" None;
    keep (Plain ("--param=" ++ parameter))
  else
  match strip_prefix "--param=" value with
  | Some parameter => keep (Plain ("--param=" ++ parameter))
  | None =>
  match strip_prefix "--sysroot=" value with
  | Some path =>
      _ ← modify (set_sysroot path);
      keep (PathArgument "--sysroot" path)
  | None =>
  match strip_prefix "-D" value with
  | Some rest =>
      definition ← take_value "-D" (Some rest);
      keep (Plain ("-D" ++ definition))
  | None =>
  match strip_prefix "-U" value with
  | Some rest =>
      definition ← take_value "-U" (Some rest);
      keep (Plain ("-U" ++ definition))
  | None =>
  match strip_prefix "-x" value with
  | Some rest =>
      language ← take_value "-x" (Some rest);
      parse_language language
  | None => parse_machine_flag value
  end end end end end.

Definition parse_separate_path (value : string) : Parse unit :=
  path ← take_value value None;
  _ ← (if one_of value ["-isystem"; "-iquote"; "-idirafter"] then modify (push_include_dir path)
       else if String.eqb value "-isysroot" then modify (set_sysroot path)
       else mret ());
  keep (PathArgument value path).

(** The flags that name paths. *)
Definition parse_path_flag (value : string) : Parse unit :=
  match strip_prefix "-o" value with
  | Some rest =>
      path ← take_value "-o" (Some rest);
      _ ← modify (set_output path);
      keep (PathArgument "-o" path)
  | None =>
  match strip_prefix "-I" value with
  | Some rest =>
      path ← take_value "-I" (Some rest);
      _ ← modify (push_include_dir path);
      keep (PathArgument "-I" path)
  | None =>
  if one_of value SEPARATE_PATH_FLAGS then parse_separate_path value
  else
  match strip_prefix "--include=" value with
  | Some rest => keep (PathArgument "-include" rest)
  | None =>
  match find_prefix_map value with
  | Some (flag, rest) =>
      let '(from, to) := default (rest, "") (split_once "=" rest) in
      keep (PrefixMap flag from to)
  | None => parse_text_flag value
  end end end end.

Definition supported_assembler_options (options : string) : bool :=
  negb (String.eqb options "") && forallb (fun option => one_of option SUPPORTED_ASSEMBLER_OPTIONS) (split "," options).

(** Text that is admitted as it is, after what the key cannot describe. *)
Definition parse_plain_flag (value : string) : Parse unit :=
  if is_some_and supported_assembler_options (strip_prefix "-Wa," value) then keep (Plain value)
  else if one_of value TOOL_PASSTHROUGH_FLAGS || has_prefix "-Wp," value || has_prefix "-Wa," value || has_prefix "-Wl," value
  then fail (ToolPassthrough value)
  else if has_prefix "-include-pch" value || String.eqb value "-emit-pch" then fail (PrecompiledHeader value)
  else if String.eqb value "-c" then
    _ ← modify set_compiling;
    keep (Plain value)
  else if one_of value SUPPORTED_BARE_FLAGS || one_of value SUPPORTED_O_FLAGS || one_of value SUPPORTED_G_FLAGS ||
          has_prefix "-std=" value
  then keep (Plain value)
  else parse_path_flag value.

Definition parse_flag (value : string) : Parse unit :=
  if one_of value COMPILER_QUERY_FLAGS || has_prefix "-print" value then fail CompilerQuery
  else if String.eqb value "-E" then
    _ ← modify set_preprocessing;
    keep (Plain value)
  else if String.eqb value "-S" then fail (NonObjectOutput value)
  else
  match strip_prefix "-M" value with
  | Some option => parse_dependency_flag value option
  | None =>
  if has_prefix "-save-temps" value then fail (SaveTemps value)
  else if String.eqb value "--coverage" then fail (CoverageInstrumentation value)
  else parse_plain_flag value
  end.

Definition extension_of (path : string) : string := default "" (extension (path_of path) ≫= to_str).

Definition parse_input (value : string) : Parse unit :=
  p ← get;
  if is_some (p_source p) then fail MultipleInputs
  else if is_none (p_explicit_language p) && negb (one_of (extension_of value) SOURCE_EXTENSIONS) then
    fail (UnsupportedLanguage value)
  else
    _ ← modify (set_source value);
    keep (Source value).

Definition parse_one : Parse unit :=
  value ← current;
  _ ← modify advance;
  if String.eqb value "-" then fail StandardInput
  else
    match strip_prefix "@" value with
    | Some argfile => fail (ResponseFile argfile)
    | None => if has_prefix "-" value then parse_flag value else parse_input value
    end.

(** The loop over the command line; every round reads an argument. *)
Fixpoint parse_loop (one : Parse unit) (fuel : nat) : Parse unit :=
  match fuel with
  | O => mret ()
  | S fuel =>
      p ← get;
      match p_arguments p with
      | [] => mret ()
      | _ => _ ← one; parse_loop one fuel
      end
  end.

Definition language_of (p : Parser) (source : string) : result CcBypassReason CcLanguage :=
  match p_explicit_language p with
  | Some language => Ok language
  | None =>
      let extension := extension_of source in
      if one_of extension ["c"; "S"] then Ok C
      else if one_of extension ["cc"; "cpp"; "cxx"; "c++"] then Ok Cxx
      else Err (UnsupportedLanguage source)
  end.

Definition depfile_target (p : Parser) (family : CcCompilerFamily) (source output : string)
    : result CcBypassReason string :=
  if p_preprocessing p && bool_decide (family = Gcc) then
    name ← ok_or MissingInput (file_name (path_of source));
    Ok (render (with_extension [Normal name] "o"))
  else Ok output.

Definition caller_depfile_of (p : Parser) (family : CcCompilerFamily) (source output : string)
    : result CcBypassReason (option CallerDepfile) :=
  let d := p_dependency p in
  match d_user_headers_only d with
  | Some user_headers_only =>
      targets ← match d_targets d with
                | [] => name ← depfile_target p family source output; Ok [mkTarget name true]
                | targets => Ok targets
                end;
      Ok (Some (mkCallerDepfile
            (match d_file d with Some file => path_of file | None => with_extension (path_of output) "d" end)
            targets user_headers_only (d_phony_targets d)))
  | None =>
      match d_modifier d with
      | Some modifier => Err (CallerDependencyFlags modifier)
      | None => Ok None
      end
  end.

Definition is_dash (path : string) : bool := bool_decide (path_of path = path_of "-").

(** What becomes of the state at the end of the command line. *)
Definition finish (all : list string) (family : CcCompilerFamily) (p : Parser) : result CcBypassReason CcInvocation :=
  if negb (p_compiling p) && negb (p_preprocessing p) then Err NotACompile
  else
    source ← ok_or MissingInput (p_source p);
    output ← ok_or MissingOutput (p_output p);
    let d := p_dependency p in
    if p_preprocessing p && is_dash output then Err (NonObjectOutput "-E -o -")
    else if p_preprocessing p && is_some (d_user_headers_only d) && is_none (d_file d) then
      Err (CallerDependencyFlags "-E -MD/-MMD without -MF")
    else if p_preprocessing p && is_some_and is_dash (d_file d) then Err (CallerDependencyFlags "-E -MF -")
    else
      language ← language_of p source;
      let assembly := p_preprocessed_assembly p ||
        (is_none (p_explicit_language p) && String.eqb (extension_of source) "S") in
      caller_depfile ← caller_depfile_of p family source output;
      Ok (mkInvocation (p_parsed p) source output (p_include_dirs p) [source] language assembly
            (then_some (p_preprocessing p) all) (p_sysroot p) caller_depfile (d_indices d)).

Definition parse_as (family : CcCompilerFamily) (arguments : list string) : result CcBypassReason CcInvocation :=
  '(_, p) ← parse_loop parse_one (length arguments) (parser_new arguments);
  finish arguments family p.

(** [CcInvocation::parse]. *)
Definition parse (arguments : list string) : result CcBypassReason CcInvocation := parse_as Gcc arguments.

(** [CcInvocation::compiler_arguments]. *)
Definition compiler_arguments (i : CcInvocation) (arguments : list string) : list string :=
  omap (fun x => if bool_decide (x.1 ∈ dependency_argument_indices i) then None else Some x.2)
    (imap pair arguments).

(** ** Flags of [cl.exe] *)

Fixpoint skip (n : nat) (s : string) : string :=
  match n, s with
  | S n, String _ s => skip n s
  | _, _ => s
  end.

(** [str::trim_start_matches] of ['/'] and ['-']. *)
Fixpoint trim_marks (s : string) : string :=
  match s with
  | String a rest => if Ascii.eqb a "/" || Ascii.eqb a "-" then trim_marks rest else s
  | EmptyString => s
  end.

Definition all_digits : string -> bool := all_chars is_ascii_digit.

Definition msvc_add_source (value : string) : Parse unit :=
  p ← get;
  if is_some (p_source p) then fail MultipleInputs
  else if is_none (p_explicit_language p) &&
          negb (is_some_and (fun e => one_of (to_ascii_lowercase e) ["c"; "cc"; "cpp"; "cxx"])
                  (extension (path_of value) ≫= to_str))
  then fail (UnsupportedLanguage value)
  else
    _ ← modify (set_source value);
    keep (Source value).

(** What the cache does not model, by the lower-case option. *)
Definition msvc_refusal (value lower : string) : option CcBypassReason :=
  if one_of lower ["?"; "help"] then Some CompilerQuery
  else if String.eqb lower "showincludes" || has_prefix "sourcedependencies" lower then Some (CallerDependencyFlags value)
  else if one_of lower ["e"; "ep"; "p"] then Some (NonObjectOutput value)
  else if (has_prefix "fa" lower && negb (has_prefix "favor:" lower)) || has_prefix "fd" lower || has_prefix "zi" lower
  then Some (SplitDebugOutput value)
  else if has_prefix "yc" lower || has_prefix "yu" lower || (has_prefix "fp" lower && negb (has_prefix "fp:" lower))
  then Some (PrecompiledHeader value)
  else if String.eqb lower "link" || has_prefix "bt+" lower || has_prefix "analyze" lower then Some (ToolPassthrough value)
  else if one_of lower ["ld"; "ldd"] then Some NotACompile
  else None.

Definition msvc_admitted (option lower : string) : bool :=
  let definition := has_prefix "D" option || has_prefix "U" option in
  let warning := one_of lower ["wall"; "wx"; "wx-"] ||
    is_some_and all_digits (strip_prefix "w" lower) ||
    existsb (fun prefix => is_some_and all_digits (strip_prefix prefix lower)) ["wd"; "we"; "wo"] in
  definition || warning ||
  existsb (fun prefix => has_prefix prefix lower)
    ["std:"; "arch:"; "favor:"; "volatile:"; "fp:"; "eh"; "o"; "ob"; "oi"; "ot"; "oy"; "gs"; "gr"; "gy"; "gw"; "gl";
     "zc:"; "diagnostics:"] ||
  one_of lower ["nologo"; "brepro"; "bigobj"; "utf-8"; "permissive-"; "z7"; "md"; "mdd"; "mt"; "mtd"].

(** The end of [MsvcParser::parse_flag], from [/external:I] on. *)
Definition msvc_text_flag (value option lower : string) : Parse unit :=
  if has_prefix "external:i" lower then
    path ← take_value "/external:I" (Some (skip 10 option));
    _ ← modify (push_include_dir path);
    keep (PathArgument "/external:I" path)
  else if has_prefix "Tc" option || has_prefix "Tp" option then
    let c := has_prefix "Tc" option in
    path ← take_value (if c then "/Tc" else "/Tp") (Some (skip 2 option));
    _ ← modify (set_explicit_language (if c then C else Cxx));
    msvc_add_source path
  else if has_prefix "pathmap:" lower then
    let rest := skip 8 option in
    let '(from, to) := default (rest, "") (split_once "=" rest) in
    keep (PrefixMap "/pathmap" from to)
  else if one_of option ["D"; "U"] then
    definition ← take_value value (Some "");
    keep (Plain ("/" ++ option ++ definition))
  else if msvc_admitted option lower then keep (Plain value)
  else fail (UnknownFlag value).

Definition msvc_parse_flag (value : string) : Parse unit :=
  let option := trim_marks value in
  let lower := to_ascii_lowercase option in
  match msvc_refusal value lower with
  | Some reason => fail reason
  | None =>
  if String.eqb lower "c" then
    _ ← modify set_compiling;
    keep (Plain "/c")
  else
  match strip_prefix "Fo" option with
  | Some attached =>
      path ← take_value "/Fo" (Some attached);
      _ ← modify (set_output path);
      keep (PathArgument "/Fo" path)
  | None =>
  match strip_prefix "I" option with
  | Some attached =>
      path ← take_value "/I" (Some attached);
      _ ← modify (push_include_dir path);
      keep (PathArgument "/I" path)
  | None =>
  match strip_prefix "FI" option with
  | Some attached =>
      path ← take_value "/FI" (Some attached);
      keep (PathArgument "/FI" path)
  | None => msvc_text_flag value option lower
  end end end end.

Definition msvc_parse_one : Parse unit :=
  value ← current;
  _ ← modify advance;
  match strip_prefix "@" value with
  | Some file => fail (ResponseFile file)
  | None =>
      if has_prefix "/" value || has_prefix "-" value then msvc_parse_flag value else msvc_add_source value
  end.

Definition msvc_language (p : Parser) (source : string) : CcLanguage :=
  match p_explicit_language p with
  | Some language => language
  | None =>
      if is_some_and (fun value => eq_ignore_ascii_case value "c") (extension (path_of source) ≫= to_str) then C else Cxx
  end.

(** [CcInvocation::parse_msvc]. *)
Definition parse_msvc (arguments : list string) : result CcBypassReason CcInvocation :=
  '(_, p) ← parse_loop msvc_parse_one (length arguments) (parser_new arguments);
  if negb (p_compiling p) then Err NotACompile
  else
    source ← ok_or MissingInput (p_source p);
    output ← ok_or MissingOutput (p_output p);
    Ok (mkInvocation (p_parsed p) source output (p_include_dirs p) [source] (msvc_language p source) false None None None []).

Definition is_msvc (family : CcCompilerFamily) : bool := bool_decide (family = Msvc).

Definition parse_for (arguments : list string) (family : CcCompilerFamily) : result CcBypassReason CcInvocation :=
  if is_msvc family then parse_msvc arguments else parse_as family arguments.

(** ** What an invocation answers *)

Definition is_preprocessing (i : CcInvocation) : bool := is_some (preprocessing_arguments i).

Definition output_in (i : CcInvocation) (working_dir : Path) : Path := absolute_path (path_of (output i)) working_dir.

(** [source_name]; the lossy conversion leaves UTF-8 as it is. *)
Definition source_name (i : CcInvocation) : string := default "" (file_name (path_of (source i))).

Definition dependency_arguments (depfile : string) : list string := ["-MD"; "-MF"; depfile].
Definition msvc_dependency_arguments (depfile : string) : list string := ["/sourceDependencies"; depfile].
Definition dependency_arguments_for (depfile : string) (family : CcCompilerFamily) : list string :=
  if is_msvc family then msvc_dependency_arguments depfile else dependency_arguments depfile.

(** [validate_discovered_inputs], given what the scan of a file finds. *)
Fixpoint scan_inputs (directive : Path -> result CcBypassReason bool) (paths : list Path) : result CcBypassReason unit :=
  match paths with
  | [] => Ok ()
  | path :: paths =>
      found ← directive path;
      if found : bool then Err (AssemblerInputDirective path) else scan_inputs directive paths
  end.
Definition validate_discovered_inputs (directive : Path -> result CcBypassReason bool) (i : CcInvocation) (paths : list Path)
    : result CcBypassReason unit :=
  if negb (preprocessed_assembly i) then Ok () else scan_inputs directive paths.

(** ** The compiler and its environment *)

Definition family_name (family : CcCompilerFamily) : string :=
  match family with Gcc => "gcc" | Clang => "clang" | AppleClang => "apple-clang" | Msvc => "msvc" end.

Definition uses_external_assembler (family : CcCompilerFamily) : bool := bool_decide (family = Gcc).

Definition shim_stem (language : CcLanguage) : string := match language with C => "mbx-c" | Cxx => "mbx-cxx" end.
Definition default_driver `{Platform} (language : CcLanguage) : string :=
  if windows then "cl.exe" else match language with C => "cc" | Cxx => "c++" end.

Definition MSVC_IDENTITY_PREFIX : string := "mbx-msvc-identity".

(** [CcCompilerFamily::classify]. *)
Definition classify `{Platform} (probe : string) : result CcBypassReason CcCompilerFamily :=
  if windows && has_prefix MSVC_IDENTITY_PREFIX probe then Ok Msvc
  else if contains "Apple clang version" probe then Ok AppleClang
  else if contains "clang version" probe then Ok Clang
  else if contains "gcc version" probe then Ok Gcc
  else Err (UnsupportedCompilerDriver (default "" (head (text_lines probe)))).

Definition KEYED_ENVIRONMENT : list string :=
  ["IPHONEOS_DEPLOYMENT_TARGET"; "LANG"; "LC_ALL"; "LC_MESSAGES"; "MACOSX_DEPLOYMENT_TARGET"; "SDKROOT";
   "SOURCE_DATE_EPOCH"; "TVOS_DEPLOYMENT_TARGET"; "WATCHOS_DEPLOYMENT_TARGET"; "XROS_DEPLOYMENT_TARGET"].

Definition BYPASS_ENVIRONMENT : list string :=
  ["CPATH"; "COMPILER_PATH"; "CPLUS_INCLUDE_PATH"; "C_INCLUDE_PATH"; "DEPENDENCIES_OUTPUT"; "GCC_EXEC_PREFIX";
   "OBJC_INCLUDE_PATH"; "SUNPRO_DEPENDENCIES"].

Definition MSVC_BYPASS_ENVIRONMENT : list string := ["CL"; "_CL_"].
Definition MSVC_ENVIRONMENT : list string := ["INCLUDE"; "VCToolsVersion"; "WindowsSDKVersion"; "UCRTVersion"].

Section Environment.
Context (lookup : string -> option string).

Definition first_set (names : list string) : result CcBypassReason unit :=
  match find (fun name => is_some (lookup name)) names with
  | Some name => Err (UnsupportedEnvironment name)
  | None => Ok ()
  end.

Definition insert_all (names : list string) (environment : gmap string (option string)) : gmap string (option string) :=
  fold_left (fun m name => <[name := lookup name]> m) names environment.

Definition environment_inputs_for (sysroot : option string) (family : CcCompilerFamily)
    : result CcBypassReason (gmap string (option string)) :=
  _ ← first_set BYPASS_ENVIRONMENT;
  let keyed := List.filter (fun name => negb (String.eqb name "SDKROOT" && is_some sysroot)) KEYED_ENVIRONMENT in
  let environment := insert_all keyed ∅ in
  if is_msvc family then
    let environment := insert_all MSVC_ENVIRONMENT environment in
    _ ← first_set MSVC_BYPASS_ENVIRONMENT;
    Ok environment
  else Ok environment.

Definition environment_inputs (sysroot : option string) : result CcBypassReason (gmap string (option string)) :=
  environment_inputs_for sysroot Clang.

End Environment.
