(* ===== verification/CcReading.v ===== *)
(** * What a C command line says

    The theorems on the parsers of [CcArgs]: the arguments an invocation keeps
    are themselves a command line of the same compilation, so nothing it says is
    lost from them; and a command line without its dependency-list flags, which
    the compiler is run with, is the same compilation, but for the key of a
    preprocessor run.

    A handler reads a flag and perhaps its value, and either makes one argument
    known ([learn]) or notes where a dependency flag stood ([outcome]).  An
    argument is [spelled] by a text that makes it known wherever it may come. *)

From stdpp Require Import base list gmap strings sorting.
From Stdlib Require Import ZArith Lia Ascii.
From S2P Require Import Prelude Strings PathMap RustcArgs CcArgs.
Local Open Scope string_scope.

(** ** What an argument makes known *)

(** The tables are sorted, as binary search needs. *)
Lemma flag_tables_ascend : ascending SUPPORTED_F_FLAGS = true /\ ascending SUPPORTED_M_FLAGS = true.
Proof. split; vm_compute; reflexivity. Qed.

(** What a driver learns from an argument besides keeping it. *)
Definition learn_text (v : string) : Parser -> Parser :=
  if String.eqb v "-E" then set_preprocessing
  else if String.eqb v "-c" then set_compiling
  else if String.eqb v "-xc" then set_explicit_language C
  else if String.eqb v "-xassembler-with-cpp" then fun p => set_explicit_language C (set_preprocessed_assembly p)
  else if String.eqb v "-xc++" then set_explicit_language Cxx
  else id.

Definition learn_path (flag path : string) : Parser -> Parser :=
  if String.eqb flag "-o" then set_output path
  else if one_of flag ["-I"; "-isystem"; "-iquote"; "-idirafter"] then push_include_dir path
  else if one_of flag ["-isysroot"; "--sysroot"] then set_sysroot path
  else id.

Definition learn (x : Argument) (p : Parser) : Parser :=
  push_parsed x
    (match x with
     | Plain v => learn_text v p
     | PathArgument flag path => learn_path flag path p
     | PrefixMap _ _ _ => p
     | Source path => set_source path p
     end).

(** The state some arguments further on. *)
Definition advance_by (n : nat) (p : Parser) : Parser :=
  let '(mkParser a i ps s o id sr el pa c pp d) := p in mkParser (drop n a) (n + i) ps s o id sr el pa c pp d.

(** Whether an argument may come here. *)
Definition fits_here (x : Argument) (p : Parser) : Prop :=
  match x with
  | Source path =>
      p_source p = None /\ (is_none (p_explicit_language p) && negb (one_of (extension_of path) SOURCE_EXTENSIONS)) = false
  | _ => True
  end.

(** Reading this text wherever it may come makes the argument known. *)
Definition spelled (x : Argument) (l : list string) : Prop :=
  l <> [] /\
  forall p rest, fits_here x p -> p_arguments p = (l ++ rest)%list ->
    parse_one p = Ok ((), learn x (advance_by (length l) p)).

(** The text of an argument, as a driver would read it. *)
Definition spell (x : Argument) : list string :=
  match x with
  | Plain v =>
      match strip_prefix "-arch=" v with
      | Some arch => ["-arch"; arch]
      | None => if one_of v ["-D"; "-U"] then [v; ""] else [v]
      end
  | PathArgument flag path => if String.eqb flag "--sysroot" then ["--sysroot=" ++ path] else [flag; path]
  | PrefixMap flag from to => [flag ++ "=" ++ from ++ "=" ++ to]
  | Source path => [path]
  end.

(** *** Valid text *)

Lemma utf8_valid_app pending a b : utf8_from pending a = true -> utf8_from pending (a ++ b) = utf8_from [] b.
Proof.
  revert pending. induction a as [|x a IH]; intros pending Ha.
  - by destruct pending.
  - change (String x a ++ b) with (String x (a ++ b)). destruct pending as [|[lo hi] pending]; cbn [utf8_from] in *.
    + destruct (continuation (N_of_ascii x)) as [t|]; [|done]. by apply IH.
    + apply andb_prop in Ha as [-> Ha]. by apply IH.
Qed.

Definition valid (s : string) : bool := utf8_from [] s.

Lemma to_str_valid s t : to_str s = Some t <-> valid s = true /\ t = s.
Proof. unfold to_str, valid. destruct (utf8_from [] s); naive_solver. Qed.

Lemma valid_app a b : valid a = true -> valid (a ++ b) = valid b.
Proof. apply utf8_valid_app. Qed.

Lemma valid_strip p s r : valid p = true -> strip_prefix p s = Some r -> valid s = valid r.
Proof. intros Hp ->%strip_prefix_inv. by apply valid_app. Qed.

(** *** Steps *)

Lemma advance_once p : advance p = advance_by 1 p.
Proof. by destruct p as [[|] ]. Qed.

Lemma current_head p value rest : p_arguments p = value :: rest -> valid value = true -> current p = Ok (value, p).
Proof. intros Hp Hv. unfold current. rewrite Hp. unfold to_str, valid in *. by rewrite Hv. Qed.

(** A flag that is read alone. *)
Lemma read_flag p value rest :
  p_arguments p = value :: rest -> valid value = true -> has_prefix "-" value = true -> value <> "-" ->
  parse_one p = parse_flag value (advance_by 1 p).
Proof.
  intros Hp Hv Hd Hne. unfold parse_one, mbind, Parse_bind, modify. rewrite (current_head _ _ _ Hp Hv), advance_once.
  apply String.eqb_neq in Hne. rewrite Hne, Hd. unfold has_prefix in Hd. destruct value as [|a value]; [done|].
  cbn [strip_prefix] in *. by destruct (Ascii.eqb_spec "-" a) as [<-|].
Qed.

Lemma read_value p flag inline value p' :
  take_value flag inline p = Ok (value, p') ->
  (exists a s, inline = Some (String a s) /\ value = String a s /\ p' = p) \/
  (inline = None \/ inline = Some "") /\ valid value = true /\ (exists rest, p_arguments p = value :: rest) /\ p' = advance_by 1 p.
Proof.
  unfold take_value. assert (Hgo : (inline = None \/ inline = Some "") ->
    mbind (M := Parse) (fun p => match p_arguments p with
      | [] => fail (MissingValue flag) | _ => value ← current; _ ← modify advance; mret value end) get p = Ok (value, p') ->
    (inline = None \/ inline = Some "") /\ valid value = true /\ (exists rest, p_arguments p = value :: rest) /\ p' = advance_by 1 p).
  { intros Hi. unfold mbind, Parse_bind, get, modify, current. destruct (p_arguments p) as [|v rest] eqn:E; [done|].
    rewrite E. destruct (to_str v) as [w|] eqn:Ev; [|done]. apply to_str_valid in Ev as [Ev ->].
    intros Hm. injection Hm as <- <-. rewrite advance_once. eauto. }
  destruct inline as [[|a s]|]; intros Hm.
  - right. apply Hgo; [by right|exact Hm].
  - left. injection Hm as <- <-. eauto.
  - right. apply Hgo; [by left|exact Hm].
Qed.

Lemma take_next p flag inline value rest :
  inline = None \/ inline = Some "" -> valid value = true -> p_arguments p = value :: rest ->
  take_value flag inline p = Ok (value, advance_by 1 p).
Proof.
  intros Hi Hv Hp. unfold take_value. destruct Hi as [-> | ->]; unfold mbind, Parse_bind, get, modify; rewrite Hp;
    by rewrite (current_head _ _ _ Hp Hv), advance_once.
Qed.

(** *** Handlers *)

(** What reading some arguments comes to: one is kept, or a dependency flag is
    noted with the places it takes. *)
Definition outcome (p p' : Parser) : Prop :=
  exists n, (1 <= n <= length (p_arguments p))%nat /\
    ((exists x, p' = learn x (advance_by n p) /\ fits_here x p /\
        spelled x (take n (p_arguments p)) /\ spelled x (spell x)) \/
     (exists f, (forall d, d_indices (f d) = d_indices d) /\
        p' = set_dependency (fun d => extend_indices (seq (p_index p) n) (f d)) (advance_by n p))).

(** A flag's handler reads it and its value, and only that. *)
Definition handles (value : string) (m : Parse unit) : Prop :=
  parse_flag value = m ->
  forall p rest p', p_arguments p = value :: rest -> valid value = true -> has_prefix "-" value = true -> value <> "-" ->
    m (advance_by 1 p) = Ok ((), p') -> outcome p p'.

Lemma advance_twice p : advance_by 1 (advance_by 1 p) = advance_by 2 p.
Proof. destruct p. simpl. by rewrite drop_drop. Qed.

Lemma advance_arguments n p : p_arguments (advance_by n p) = drop n (p_arguments p).
Proof. by destruct p. Qed.

Lemma spelled_alone x value :
  valid value = true -> has_prefix "-" value = true -> value <> "-" -> fits_here x = (fun _ => True) ->
  (forall q, parse_flag value q = Ok ((), learn x q)) -> spelled x [value].
Proof. intros Hv Hd Hne _ Hf. split; [done|]. intros p rest _ Hp. by rewrite (read_flag p value rest), Hf. Qed.

Lemma spelled_pair x F v :
  valid F = true -> has_prefix "-" F = true -> F <> "-" -> valid v = true ->
  (forall q rest, p_arguments q = v :: rest -> parse_flag F q = Ok ((), learn x (advance_by 1 q))) -> spelled x [F; v].
Proof.
  intros Hv Hd Hne Hvv Hf. split; [done|]. intros p rest _ Hp. rewrite (read_flag p F (v :: rest)) by done.
  rewrite (Hf _ rest); [|by rewrite advance_arguments, Hp]. by rewrite advance_twice.
Qed.

Lemma handles_keep value : handles value (keep (Plain value)).
Proof.
  intros Hm p rest p' Hp Hv Hd Hne Hk.
  assert (Hsame : forall f : Parse unit, parse_flag value = f -> f (parser_new []) = Ok ((), push_parsed (Plain value) (parser_new []))).
  { intros f <-. by rewrite Hm. }
  assert (Hl : forall q, learn_text value q = q).
  { intros q. unfold learn_text.
    repeat match goal with
    | |- context [String.eqb value ?k] => destruct (String.eqb_spec value k) as [->|]; [specialize (Hsame _ eq_refl); discriminate|]
    end. done. }
  assert (Hs : spelled (Plain value) [value]).
  { apply spelled_alone; [done..|]. intros q. rewrite Hm. unfold learn. by rewrite Hl. }
  exists 1%nat. rewrite Hp. split; [simpl; lia|]. left. exists (Plain value). split; [|split; [done|split; [done|]]].
  - unfold learn. rewrite Hl. by injection Hk as <-.
  - unfold spell. destruct (strip_prefix "-arch=" value) as [a|] eqn:Ea.
    + apply strip_prefix_inv in Ea as ->. specialize (Hsame _ eq_refl). discriminate.
    + unfold one_of. cbn [existsb].
      destruct (String.eqb_spec value "-D") as [->|]; [specialize (Hsame _ eq_refl); discriminate|].
      destruct (String.eqb_spec value "-U") as [->|]; [specialize (Hsame _ eq_refl); discriminate|]. done.
Qed.

Section Taking.
Context (F : string) (make : string -> Argument) (K : string -> Parse unit).
Hypothesis Hvalid : valid F = true.
Hypothesis Hdash : has_prefix "-" F = true.
Hypothesis Hlong : F <> "-".
Hypothesis Hplain : forall v, fits_here (make v) = fun _ => True.
Hypothesis Hkeeps : forall v q p', K v q = Ok ((), p') ->
  p' = learn (make v) q /\ forall q', K v q' = Ok ((), learn (make v) q').

(** The value follows the flag in an argument of its own. *)
Lemma handles_apart :
  (forall v q p', K v q = Ok ((), p') -> valid v = true -> spelled (make v) (spell (make v))) ->
  handles F (v ← take_value F None; K v).
Proof.
  intros Hspell Hm p rest p' Hp _ _ _ Hk. unfold mbind, Parse_bind in Hk.
  destruct (take_value F None (advance_by 1 p)) as [[v q]|] eqn:Et; [|done].
  apply read_value in Et as [(a & s & Hi & _)|(_ & Hv & (rest' & Ha) & ->)]; [done|].
  destruct (Hkeeps _ _ _ Hk) as [-> Hall]. rewrite advance_arguments, Hp in Ha. simpl in Ha. rewrite drop_0 in Ha. subst rest.
  rewrite advance_twice. exists 2%nat. rewrite Hp. split; [simpl; lia|]. left. exists (make v). split; [done|].
  split; [by rewrite Hplain|]. split; [|by eapply Hspell].
  cbn [take]. apply spelled_pair; [done..|]. intros q rest Hq. rewrite Hm. unfold mbind, Parse_bind.
  rewrite (take_next q F None v rest (or_introl eq_refl) Hv Hq). by apply Hall.
Qed.

(** The value may be attached. *)
Hypothesis Hflag : forall r, parse_flag (F ++ r) = (v ← take_value F (Some r); K v).

Lemma spelled_apart v q p' : K v q = Ok ((), p') -> valid v = true -> spelled (make v) [F; v].
Proof.
  intros [_ Hall]%Hkeeps Hv. apply spelled_pair; [done..|]. intros q0 rest Hq.
  rewrite <- (app_nil_string F), Hflag. unfold mbind, Parse_bind.
  rewrite (take_next q0 F (Some "") v rest (or_intror eq_refl) Hv Hq). apply Hall.
Qed.

Lemma spelled_attached v q p' : K v q = Ok ((), p') -> valid v = true -> v <> "" -> spelled (make v) [F ++ v].
Proof.
  intros [_ Hall]%Hkeeps Hv Hne. destruct v as [|a s]; [done|]. apply spelled_alone.
  - by rewrite valid_app.
  - unfold has_prefix in *. destruct F as [|b F']; [done|]. cbn [strip_prefix] in Hdash. change (String b F' ++ String a s) with (String b (F' ++ String a s)).
    cbn [strip_prefix]. by destruct (Ascii.eqb "-" b).
  - intros He. apply (f_equal String.length) in He. rewrite length_app_string in He. simpl in He.
    destruct F; [done|]. simpl in He. lia.
  - apply Hplain.
  - intros q0. rewrite Hflag. unfold mbind, Parse_bind, take_value. apply Hall.
Qed.

Lemma handles_attached r :
  (forall v, spell (make v) = [F; v] \/ spell (make v) = [F ++ v] /\ v <> "" \/ forall q p', K v q <> Ok ((), p')) ->
  handles (F ++ r) (v ← take_value F (Some r); K v).
Proof.
  intros Hspell Hm p rest p' Hp Hv _ _ Hk. unfold mbind, Parse_bind in Hk.
  destruct (take_value F (Some r) (advance_by 1 p)) as [[v q]|] eqn:Et; [|done].
  destruct (Hkeeps _ _ _ Hk) as [-> _].
  assert (Hsp : valid v = true -> spelled (make v) (spell (make v))).
  { intros Hvv. destruct (Hspell v) as [->|[[-> Hne]|Hno]]; [by eapply spelled_apart|by eapply spelled_attached|].
    by apply Hno in Hk. }
  rewrite valid_app in Hv by done.
  apply read_value in Et as [(a & s & [= ->] & -> & ->)|([|[= ->]] & Hvv & (rest' & Ha) & ->)]; [| done |].
  - exists 1%nat. rewrite Hp. split; [simpl; lia|]. left. exists (make (String a s)). split; [done|].
    split; [by rewrite Hplain|]. split; [by eapply spelled_attached|by apply Hsp].
  - rewrite advance_twice. rewrite advance_arguments, Hp in Ha. simpl in Ha. rewrite drop_0 in Ha. subst rest.
    exists 2%nat. rewrite Hp. split; [simpl; lia|]. left. exists (make v). split; [done|]. split; [by rewrite Hplain|].
    split; [|by apply Hsp]. cbn [take]. rewrite app_nil_string. by eapply spelled_apart.
Qed.
End Taking.

(** *** The flags *)

Lemma handles_fail value e : handles value (fail e).
Proof. by intros Hm p rest p' _ _ _ _ Hk. Qed.

Ltac handle_tests :=
  repeat match goal with
  | |- handles _ (if ?b then _ else _) => destruct b eqn:?
  | |- handles _ (match ?o with Some _ => _ | None => _ end) => destruct o eqn:?
  | |- handles _ (fail _) => apply handles_fail
  | |- handles _ (keep (Plain _)) => apply handles_keep
  end.

Lemma keep_learns x q p' : (forall p, learn x p = push_parsed x p) -> keep x q = Ok ((), p') ->
  p' = learn x q /\ forall q', keep x q' = Ok ((), learn x q').
Proof. intros Hl. unfold keep, modify. intros [= <-]. split; [by rewrite Hl|]. intros q'. by rewrite Hl. Qed.

(** A state change and the argument that records it. *)
Lemma noted_learns (f : Parser -> Parser) x q p' : (forall p, learn x p = push_parsed x (f p)) ->
  (_ ← modify f; keep x) q = Ok ((), p') -> p' = learn x q /\ forall q', (_ ← modify f; keep x) q' = Ok ((), learn x q').
Proof.
  intros Hl. unfold mbind, Parse_bind, keep, modify. intros [= <-]. split; [by rewrite Hl|]. intros q'. by rewrite Hl.
Qed.

Lemma spelled_text k v :
  valid k = true -> has_prefix "-" k = true -> k <> "-" -> valid v = true ->
  (forall v q, parse_flag (k ++ v) q = Ok ((), learn (Plain (k ++ v)) q)) -> spelled (Plain (k ++ v)) [k ++ v].
Proof.
  intros Hk Hd Hne Hv Hf. apply spelled_alone; [by rewrite valid_app| | |done|by intros].
  - unfold has_prefix in *. destruct k as [|a k]; [done|]. change (String a k ++ v) with (String a (k ++ v)).
    cbn [strip_prefix] in *. by destruct (Ascii.eqb "-" a).
  - destruct k as [|a [|b k]]; [done| |done]. exfalso. apply Hne. unfold has_prefix in Hd. cbn [strip_prefix] in Hd.
    by destruct (Ascii.eqb_spec "-" a) as [<-|].
Qed.

Lemma handles_f_flag value option : handles value (parse_f_flag value option).
Proof. unfold parse_f_flag. handle_tests. Qed.

Lemma handles_m_flag value option : handles value (parse_m_flag value option).
Proof. unfold parse_m_flag. handle_tests. Qed.

Lemma spelled_arch v : valid v = true -> spelled (Plain ("-arch=" ++ v)) (spell (Plain ("-arch=" ++ v))).
Proof.
  intros Hv. unfold spell. rewrite strip_prefix_app. apply spelled_pair; [done..|]. intros q rest Hq.
  change (parse_flag "-arch" q) with ((arch ← take_value "-arch" None; keep (Plain ("-arch=" ++ arch))) q).
  unfold mbind, Parse_bind. rewrite (take_next q "-arch" None v rest (or_introl eq_refl) Hv Hq). done.
Qed.

Lemma handles_machine_flag value : handles value (parse_machine_flag value).
Proof.
  unfold parse_machine_flag. destruct (strip_prefix "--target=" value) as [t|] eqn:Et.
  { apply strip_prefix_inv in Et as ->. apply handles_keep. }
  destruct (String.eqb_spec value "-target") as [->|].
  { apply (handles_apart "-target" (fun v => Plain ("--target=" ++ v)) (fun v => keep (Plain ("--target=" ++ v)))); try done.
    - intros v q p'. by apply keep_learns.
    - intros v q p' _ Hv. by apply (spelled_text "--target="). }
  destruct (String.eqb_spec value "-arch") as [->|].
  { apply (handles_apart "-arch" (fun v => Plain ("-arch=" ++ v)) (fun v => keep (Plain ("-arch=" ++ v)))); try done.
    - intros v q p'. by apply keep_learns.
    - intros v q p' _. apply spelled_arch. }
  handle_tests; [apply handles_f_flag|apply handles_m_flag].
Qed.

Lemma language_learns v q p' : parse_language v q = Ok ((), p') ->
  p' = learn (Plain ("-x" ++ v)) q /\ forall q', parse_language v q' = Ok ((), learn (Plain ("-x" ++ v)) q').
Proof.
  unfold parse_language.
  destruct (String.eqb_spec v "c") as [->|]; [apply (noted_learns (set_explicit_language C)); by intros []|].
  destruct (String.eqb_spec v "assembler-with-cpp") as [->|].
  { intros [= <-]. split; [by destruct q|]. intros q'. by destruct q'. }
  destruct (String.eqb_spec v "c++") as [->|]; [apply (noted_learns (set_explicit_language Cxx)); by intros []|done].
Qed.

Lemma handles_text_flag value : handles value (parse_text_flag value).
Proof.
  unfold parse_text_flag. destruct (String.eqb_spec value "--param") as [->|].
  { apply (handles_apart "--param" (fun v => Plain ("--param=" ++ v)) (fun v => keep (Plain ("--param=" ++ v)))); try done.
    - intros v q p'. by apply keep_learns.
    - intros v q p' _ Hv. by apply (spelled_text "--param="). }
  destruct (strip_prefix "--param=" value) as [r|] eqn:E1; [apply strip_prefix_inv in E1 as ->; apply handles_keep|].
  destruct (strip_prefix "--sysroot=" value) as [r|] eqn:E2.
  { apply strip_prefix_inv in E2 as ->. intros Hm p rest p' Hp Hv Hd Hne Hk. exists 1%nat. rewrite Hp. split; [simpl; lia|].
    assert (Hs : spelled (PathArgument "--sysroot" r) ["--sysroot=" ++ r]) by (by apply spelled_alone).
    left. exists (PathArgument "--sysroot" r). split; [by injection Hk as <-|]. by repeat split; try apply Hs. }
  destruct (strip_prefix "-D" value) as [r|] eqn:E3.
  { apply strip_prefix_inv in E3 as ->.
    apply (handles_attached "-D" (fun v => Plain ("-D" ++ v)) (fun v => keep (Plain ("-D" ++ v)))); try done.
    - intros v q p'. by apply keep_learns.
    - intros [|a v]; [by left|]. right. left. done. }
  destruct (strip_prefix "-U" value) as [r|] eqn:E4.
  { apply strip_prefix_inv in E4 as ->.
    apply (handles_attached "-U" (fun v => Plain ("-U" ++ v)) (fun v => keep (Plain ("-U" ++ v)))); try done.
    - intros v q p'. by apply keep_learns.
    - intros [|a v]; [by left|]. right. left. done. }
  destruct (strip_prefix "-x" value) as [r|] eqn:E5; [|apply handles_machine_flag].
  apply strip_prefix_inv in E5 as ->. apply (handles_attached "-x" (fun v => Plain ("-x" ++ v)) parse_language); try done.
  - apply language_learns.
  - intros [|a v]; [by right; right|]. right. left. done.
Qed.

(** A flag whose value is a path in the next argument. *)
Lemma handles_separate flag : In flag SEPARATE_PATH_FLAGS -> handles flag (parse_separate_path flag).
Proof.
  intros Hin.
  assert (Hflags : valid flag = true /\ has_prefix "-" flag = true /\ flag <> "-" /\ (flag =? "--sysroot") = false /\
    parse_flag flag = parse_separate_path flag /\
    forall v q, (_ ← (if one_of flag ["-isystem"; "-iquote"; "-idirafter"] then modify (push_include_dir v)
                      else if (flag =? "-isysroot") then modify (set_sysroot v) else mret ());
                 keep (PathArgument flag v)) q = Ok ((), learn (PathArgument flag v) q)).
  { simpl in Hin. by repeat destruct Hin as [<-|Hin]. }
  destruct Hflags as (Hv & Hd & Hne & Hs & Hflag & Hl).
  apply (handles_apart flag (PathArgument flag)); try done.
  - intros v q p'. rewrite Hl. intros [= <-]. split; [done|]. apply Hl.
  - intros v q p' _ Hvv. unfold spell. rewrite Hs. apply spelled_pair; [done..|]. intros q0 rest Hq. rewrite Hflag.
    unfold parse_separate_path, mbind at 1, Parse_bind at 1.
    rewrite (take_next q0 flag None v rest (or_introl eq_refl) Hvv Hq). apply Hl.
Qed.

Lemma handles_include r : handles ("--include=" ++ r) (keep (PathArgument "-include" r)).
Proof.
  intros Hm p rest p' Hp Hv Hd Hne Hk. exists 1%nat. rewrite Hp. split; [simpl; lia|]. left. exists (PathArgument "-include" r).
  split; [by injection Hk as <-|]. split; [done|]. split; [by apply spelled_alone|].
  rewrite valid_app in Hv by done. apply spelled_pair; [done..|]. intros q rest' Hq.
  change (parse_flag "-include" q) with (parse_separate_path "-include" q). unfold parse_separate_path, mbind at 1, Parse_bind at 1.
  by rewrite (take_next q "-include" None r rest' (or_introl eq_refl) Hv Hq).
Qed.

Lemma split_once_spec c s l r : split_once c s = Some (l, r) -> s = l ++ String c r /\ without c l = true.
Proof.
  revert l. induction s as [|a s IH]; intros l; cbn [split_once]; [done|]. destruct (Ascii.eqb_spec a c) as [->|Hne].
  - intros [= <- <-]. done.
  - destruct (split_once c s) as [[l' r']|] eqn:E; [|done]. intros [= <- <-]. destruct (IH l' eq_refl) as [-> Hw].
    split; [done|]. unfold without in *. cbn [all_chars]. apply Ascii.eqb_neq in Hne. by rewrite Hne.
Qed.

Lemma split_once_none c s : split_once c s = None -> without c s = true.
Proof.
  unfold without. induction s as [|a s IH]; cbn [split_once all_chars]; [done|]. destruct (Ascii.eqb a c); [done|].
  destruct (split_once c s) as [[]|]; [done|]. intros _. by rewrite IH.
Qed.

Lemma prefix_map_flag flag r : In flag PREFIX_MAP_FLAGS ->
  valid flag = true /\
  parse_flag (flag ++ "=" ++ r) = (let '(from, to) := default (r, "") (split_once "=" r) in keep (PrefixMap flag from to)).
Proof. intros Hin. simpl in Hin. by repeat destruct Hin as [<-|Hin]. Qed.

Lemma handles_prefix_map flag r : In flag PREFIX_MAP_FLAGS ->
  handles (flag ++ "=" ++ r) (let '(from, to) := default (r, "") (split_once "=" r) in keep (PrefixMap flag from to)).
Proof.
  intros Hin Hm p rest p' Hp Hv Hd Hne Hk. destruct (prefix_map_flag flag r Hin) as [Hvf _].
  destruct (default (r, "") (split_once "=" r)) as [from to] eqn:E.
  assert (Hone : spelled (PrefixMap flag from to) [flag ++ "=" ++ r]).
  { apply spelled_alone; [done..|]. intros q. by rewrite Hm. }
  exists 1%nat. rewrite Hp. split; [simpl; lia|]. left. exists (PrefixMap flag from to). split; [by injection Hk as <-|].
  split; [done|]. split; [done|]. unfold spell. destruct (split_once "=" r) as [[l t]|] eqn:Es; simpl in E; injection E as <- <-.
  - apply split_once_spec in Es as [-> _]. done.
  - apply split_once_none in Es. apply spelled_alone; [| |clear; by destruct flag as [|? [|]]|done|].
    + rewrite !valid_app in Hv |- * by done. by rewrite valid_app.
    + clear -Hin. simpl in Hin. by repeat destruct Hin as [<-|Hin].
    + intros q. destruct (prefix_map_flag flag (r ++ "=" ++ "") Hin) as [_ ->]. change (r ++ "=" ++ "") with (r ++ String "=" "").
      by rewrite (split_once_app _ _ _ Es).
Qed.

Lemma find_prefix_map_spec value flag r : find_prefix_map value = Some (flag, r) -> In flag PREFIX_MAP_FLAGS /\ value = flag ++ "=" ++ r.
Proof.
  unfold find_prefix_map. generalize PREFIX_MAP_FLAGS. intros l. induction l as [|x l IH]; [done|]. cbn [find_map].
  destruct (strip_prefix (x ++ "=") value) as [s|] eqn:E; simpl.
  - intros [= -> ->]. apply strip_prefix_inv in E. rewrite app_assoc_string in E. auto.
  - intros [? ?]%IH. auto.
Qed.

Lemma one_of_in s l : one_of s l = true -> In s l.
Proof. unfold one_of. intros (x & Hin & ->%String.eqb_eq)%existsb_exists. done. Qed.

Lemma handles_path_flag value : handles value (parse_path_flag value).
Proof.
  unfold parse_path_flag. destruct (strip_prefix "-o" value) as [r|] eqn:E1.
  { apply strip_prefix_inv in E1 as ->.
    apply (handles_attached "-o" (PathArgument "-o") (fun v => _ ← modify (set_output v); keep (PathArgument "-o" v))); try done.
    - intros v q p'. by apply noted_learns.
    - by left. }
  destruct (strip_prefix "-I" value) as [r|] eqn:E2.
  { apply strip_prefix_inv in E2 as ->.
    apply (handles_attached "-I" (PathArgument "-I") (fun v => _ ← modify (push_include_dir v); keep (PathArgument "-I" v))); try done.
    - intros v q p'. by apply noted_learns.
    - by left. }
  destruct (one_of value SEPARATE_PATH_FLAGS) eqn:E3; [by apply handles_separate, one_of_in|].
  destruct (strip_prefix "--include=" value) as [r|] eqn:E4; [apply strip_prefix_inv in E4 as ->; apply handles_include|].
  destruct (find_prefix_map value) as [[flag r]|] eqn:E5; [|apply handles_text_flag].
  apply find_prefix_map_spec in E5 as [Hin ->]. by apply handles_prefix_map.
Qed.

(** A flag whose whole effect is the state it sets. *)
Lemma handles_noted value f : (forall p, learn (Plain value) p = push_parsed (Plain value) (f p)) -> spell (Plain value) = [value] ->
  handles value (_ ← modify f; keep (Plain value)).
Proof.
  intros Hl Hs Hm p rest p' Hp Hv Hd Hne Hk. exists 1%nat. rewrite Hp. split; [simpl; lia|]. left. exists (Plain value).
  destruct (noted_learns f (Plain value) _ _ Hl Hk) as [-> Hall]. split; [done|]. split; [done|]. rewrite Hs.
  assert (Ha : spelled (Plain value) [value]) by (apply spelled_alone; [done..|]; intros q; by rewrite Hm, Hall). by split.
Qed.

Lemma handles_plain_flag value : handles value (parse_plain_flag value).
Proof.
  unfold parse_plain_flag. destruct (is_some_and _ _); [apply handles_keep|].
  destruct (_ || _ || _ || _); [apply handles_fail|]. destruct (_ || _); [apply handles_fail|].
  destruct (String.eqb_spec value "-c") as [->|]; [apply handles_noted; [by intros []|done]|].
  destruct (_ || _ || _ || _); [apply handles_keep|apply handles_path_flag].
Qed.

(** *** Dependency flags *)

(** What a dependency flag does to the request besides its places. *)
Definition requests (m : Parse unit) : Prop :=
  forall p p', m p = Ok ((), p') ->
    exists n f, (n <= length (p_arguments p))%nat /\ (forall d, d_indices (f d) = d_indices d) /\ p' = set_dependency f (advance_by n p).

Lemma requests_modify f : (forall d, d_indices (f d) = d_indices d) -> requests (modify (set_dependency f)).
Proof. intros Hf p p' [= <-]. exists 0%nat, f. split; [lia|]. split; [done|]. by destruct p. Qed.

Lemma requests_then m f : requests m -> (forall d, d_indices (f d) = d_indices d) -> requests (_ ← m; modify (set_dependency f)).
Proof.
  intros Hm Hf p p' Hr. unfold mbind, Parse_bind, modify in Hr. destruct (m p) as [[[] q]|] eqn:E; [|done].
  injection Hr as <-. destruct (Hm _ _ E) as (n & g & Hn & Hg & ->). exists n, (fun d => f (g d)). split; [done|].
  split; [intros d; by rewrite Hf|by destruct p].
Qed.

Lemma requests_take flag inline (K : string -> DependencyRequest -> DependencyRequest) modifier :
  (forall v d, d_indices (K v d) = d_indices d) ->
  requests (v ← take_value flag inline; _ ← modify (set_dependency (K v)); modify (set_dependency (set_modifier modifier))).
Proof.
  intros HK p p' Hr. unfold mbind, Parse_bind, modify in Hr. destruct (take_value flag inline p) as [[v q]|] eqn:E; [|done].
  injection Hr as <-. assert (Hq : exists n, (n <= length (p_arguments p))%nat /\ q = advance_by n p).
  { apply read_value in E as [(a & s & _ & _ & ->)|(_ & _ & (rest & Hp) & ->)].
    - exists 0%nat. split; [lia|by destruct p].
    - exists 1%nat. rewrite Hp. split; [simpl; lia|done]. }
  destruct Hq as (n & Hn & ->). exists n, (fun d => set_modifier modifier (K v d)). split; [done|].
  split; [|by destruct p]. intros d. rewrite <- (HK v d). by destruct (K v d).
Qed.

Lemma dependency_outcome value option p rest p' :
  p_arguments p = value :: rest -> parse_dependency_flag value option (advance_by 1 p) = Ok ((), p') -> outcome p p'.
Proof.
  intros Hp. unfold parse_dependency_flag. set (m := if String.eqb option "D" then _ else _). intros Hk.
  assert (Hm : requests m).
  { unfold m. repeat case_match; try (by intros ?? [=]); try (by apply requests_modify; intros []);
      [apply requests_then; [by apply requests_modify; intros []|by intros []]| | |];
      apply requests_take; by intros ? []. }
  unfold mbind, Parse_bind, get, modify in Hk. destruct (m (advance_by 1 p)) as [[[] q]|] eqn:E; [|done].
  destruct (Hm _ _ E) as (n & f & Hn & Hf & ->). injection Hk as <-. rewrite advance_arguments, Hp in Hn. simpl in Hn.
  rewrite drop_0 in Hn. exists (S n). rewrite Hp. split; [simpl; lia|]. right. exists f. split; [done|].
  destruct p. simpl in *. subst. simpl. rewrite drop_0. f_equal; [lia|].
  match goal with |- extend_indices (seq ?a ?k) _ = extend_indices (?i :: seq _ ?n) _ => change (i :: seq (S i) n) with (seq i (S n)); replace k with (S n) by lia; by replace a with i by lia end.
Qed.

Lemma handles_flag value : handles value (parse_flag value).
Proof.
  unfold parse_flag. destruct (_ || _); [apply handles_fail|].
  destruct (String.eqb_spec value "-E") as [->|]; [apply handles_noted; [by intros []|done]|].
  destruct (value =? "-S"); [apply handles_fail|]. destruct (strip_prefix "-M" value) as [option|].
  { intros _ p rest p' Hp _ _ _. by apply (dependency_outcome value option p rest). }
  destruct (has_prefix "-save-temps" value); [apply handles_fail|]. destruct (value =? "--coverage"); [apply handles_fail|].
  apply handles_plain_flag.
Qed.

Lemma parse_one_outcome p p' : parse_one p = Ok ((), p') -> outcome p p'.
Proof.
  intros Hk. unfold parse_one, mbind, Parse_bind, modify in Hk. destruct (p_arguments p) as [|value rest] eqn:Hp.
  { unfold current in Hk. by rewrite Hp in Hk. }
  destruct (valid value) eqn:Hv; cycle 1.
  { unfold current in Hk. rewrite Hp in Hk. unfold to_str, valid in *. by rewrite Hv in Hk. }
  rewrite (current_head _ _ _ Hp Hv), advance_once in Hk. destruct (String.eqb_spec value "-") as [|Hne]; [done|].
  destruct (strip_prefix "@" value) eqn:Hat; [done|]. destruct (has_prefix "-" value) eqn:Hd.
  - by eapply handles_flag.
  - unfold parse_input, mbind, Parse_bind, get in Hk. destruct (is_some _) eqn:Hs; [done|].
    destruct (is_none _ && _) eqn:He; [done|]. injection Hk as <-. exists 1%nat. rewrite Hp. split; [simpl; lia|]. left.
    exists (Source value). assert (Hfit : fits_here (Source value) p).
    { destruct p as [? ? ? []]; [done|]. by split. }
    assert (Hsp : spelled (Source value) [value]).
    { split; [done|]. intros q rest' [Hn Hx] Hq. unfold parse_one, mbind, Parse_bind, modify.
      rewrite (current_head _ _ _ Hq Hv), advance_once. apply String.eqb_neq in Hne. rewrite Hne, Hat, Hd.
      unfold parse_input, mbind, Parse_bind, get. destruct q. simpl in *. by rewrite Hn, Hx. }
    repeat split; done || apply Hfit || apply Hsp.
Qed.

(** ** Command lines *)

(** The state but for what is still to be read and the dependency request. *)
Definition known (p : Parser) : Parser :=
  let '(mkParser a i ps s o id sr el pa c pp d) := p in mkParser [] 0 ps s o id sr el pa c pp no_request.

Definition learn_all (xs : list Argument) (p : Parser) : Parser := fold_left (fun p x => learn x p) xs p.

Fixpoint fitting (xs : list Argument) (p : Parser) : Prop :=
  match xs with [] => True | x :: xs => fits_here x p /\ fitting xs (learn x p) end.

Lemma known_learn x p : known (learn x p) = learn x (known p).
Proof.
  destruct p, x as [v|flag path| |]; try done; unfold learn, learn_text, learn_path; repeat case_match; done.
Qed.

Lemma known_advance n p : known (advance_by n p) = known p.
Proof. by destruct p. Qed.

Lemma known_request f p : known (set_dependency f p) = known p.
Proof. by destruct p. Qed.

Lemma known_fits x p : fits_here x p <-> fits_here x (known p).
Proof. by destruct p, x. Qed.

Lemma known_learn_all xs p : known (learn_all xs p) = learn_all xs (known p).
Proof. revert p. induction xs as [|x xs IH]; intros p; [done|]. cbn. by rewrite <- known_learn, <- IH. Qed.

Lemma known_fitting xs p : fitting xs p <-> fitting xs (known p).
Proof. revert p. induction xs as [|x xs IH]; intros p; [done|]. cbn. by rewrite known_fits, IH, known_learn. Qed.

Lemma fitting_same xs p q : known p = known q -> fitting xs p -> fitting xs q.
Proof. intros He. rewrite (known_fitting xs p), (known_fitting xs q). by rewrite He. Qed.

Lemma learn_all_same xs p q : known p = known q -> known (learn_all xs p) = known (learn_all xs q).
Proof. intros He. by rewrite !known_learn_all, He. Qed.

Lemma learn_arguments x n p : p_arguments (learn x (advance_by n p)) = drop n (p_arguments p) /\
  p_index (learn x (advance_by n p)) = (n + p_index p)%nat /\ p_dependency (learn x (advance_by n p)) = p_dependency p.
Proof.
  destruct p, x as [v|flag path| |]; try done; unfold learn, learn_text, learn_path; repeat case_match; done.
Qed.

Lemma learn_parsed x p : p_parsed (learn x p) = (p_parsed p ++ [x])%list.
Proof. destruct p, x as [v|flag path| |]; try done; unfold learn, learn_text, learn_path; repeat case_match; done. Qed.

Lemma learn_all_parsed xs p : p_parsed (learn_all xs p) = (p_parsed p ++ xs)%list.
Proof.
  revert p. induction xs as [|x xs IH]; intros p; cbn; [by rewrite app_nil_r|].
  change (p_parsed (learn_all xs (learn x p)) = (p_parsed p ++ x :: xs)%list). rewrite IH, learn_parsed, <- app_assoc. done.
Qed.

(** *** Reading what was kept *)

(** Any text of the arguments makes them known again. *)
Lemma replays xs ls q m :
  Forall2 spelled xs ls -> fitting xs q -> p_arguments q = concat ls -> (length (concat ls) <= m)%nat ->
  exists q', parse_loop parse_one m q = Ok ((), q') /\ known q' = known (learn_all xs q) /\ p_dependency q' = p_dependency q.
Proof.
  intros Hs. revert q m. induction Hs as [|x l xs ls [Hne Hx] Hs IH]; intros q m Hf Hq Hm.
  - exists q. split; [|done]. destruct m as [|m]; [done|]. cbn [parse_loop]. unfold mbind, Parse_bind, get. by rewrite Hq.
  - destruct Hf as [Hf1 Hf2]. cbn [concat] in *. rewrite length_app in Hm. assert (0 < length l)%nat by (destruct l; [done|simpl; lia]).
    destruct m as [|m]; [lia|]. cbn [parse_loop]. unfold mbind, Parse_bind, get. rewrite Hq.
    destruct (learn_arguments x (length l) q) as (Ha & _ & Hd). rewrite Hq, drop_app_length in Ha.
    destruct (IH (learn x (advance_by (length l) q)) m) as (q' & Hl & Hk & Hd').
    + eapply fitting_same; [|exact Hf2]. by rewrite !known_learn, known_advance.
    + done.
    + lia.
    + exists q'. destruct l as [|a l]; [done|]. cbn [app]. rewrite (Hx q (concat ls)) by done. split; [exact Hl|]. split; [|congruence].
      rewrite Hk. apply (learn_all_same xs). by rewrite !known_learn, known_advance.
Qed.

(** *** What reading a command line comes to *)

Fixpoint without_places (places : list nat) (i : nat) (l : list string) : list string :=
  match l with
  | [] => []
  | a :: l => if bool_decide (i ∈ places) then without_places places (S i) l else a :: without_places places (S i) l
  end.

Lemma compiler_arguments_places i args :
  compiler_arguments i args = without_places (dependency_argument_indices i) 0 args.
Proof.
  unfold compiler_arguments. set (f := fun x : nat * string => _).
  enough (H : forall g k, (forall n, g n = (k + n)%nat) ->
    omap f (imap (fun n a => (g n, a)) args) = without_places (dependency_argument_indices i) k args) by (by apply H).
  induction args as [|a args IH]; intros g k Hg; [done|]. simpl. rewrite Hg, Nat.add_0_r.
  rewrite <- (IH (g ∘ S) (S k)) by (intros n; simpl; rewrite Hg; lia). unfold f at 1. cbn [fst snd]. by case_bool_decide.
Qed.

Lemma without_places_app places i a b :
  without_places places i (a ++ b) = (without_places places i a ++ without_places places (i + length a) b)%list.
Proof.
  revert i. induction a as [|x a IH]; intros i; simpl; [by rewrite Nat.add_0_r|]. rewrite IH, Nat.add_succ_r. by case_bool_decide.
Qed.

Lemma without_places_none places i a : (forall k, k ∈ places -> (i + length a <= k)%nat) -> without_places places i a = a.
Proof.
  revert i. induction a as [|x a IH]; intros i Hp; simpl in *; [done|]. rewrite bool_decide_false.
  - f_equal. apply IH. intros k Hk. specialize (Hp k Hk). lia.
  - intros Hi. specialize (Hp i Hi). lia.
Qed.

Lemma without_places_all places i a : (forall k, (i <= k < i + length a)%nat -> k ∈ places) -> without_places places i a = [].
Proof.
  revert i. induction a as [|x a IH]; intros i Hp; simpl in *; [done|]. rewrite bool_decide_true by (apply Hp; lia).
  apply IH. intros k Hk. apply Hp. lia.
Qed.

Lemma without_places_same places places' i a :
  (forall k, (i <= k)%nat -> k ∈ places <-> k ∈ places') -> without_places places i a = without_places places' i a.
Proof.
  revert i. induction a as [|x a IH]; intros i Hp; simpl; [done|]. rewrite (bool_decide_ext _ _ (Hp i (le_n i))).
  rewrite (IH (S i)) by (intros k Hk; apply Hp; lia). done.
Qed.

(** Each argument a read command line keeps, with the text it was kept from. *)
Lemma reading fuel p p' :
  parse_loop parse_one fuel p = Ok ((), p') -> (length (p_arguments p) <= fuel)%nat ->
  exists trace places,
    fitting (map fst trace) p /\ known p' = known (learn_all (map fst trace) p) /\
    Forall (fun t => spelled t.1 t.2 /\ spelled t.1 (spell t.1)) trace /\
    d_indices (p_dependency p') = (d_indices (p_dependency p) ++ places)%list /\
    (forall k, k ∈ places -> (p_index p <= k)%nat) /\
    without_places places (p_index p) (p_arguments p) = concat (map snd trace).
Proof.
  revert p. induction fuel as [|fuel IH]; intros p Hl Hlen.
  - injection Hl as <-. exists [], []. rewrite app_nil_r. destruct (p_arguments p) eqn:E; [|simpl in Hlen; lia].
    repeat split; try done. by intros k ?%elem_of_nil.
  - cbn [parse_loop] in Hl. unfold mbind, Parse_bind, get in Hl. destruct (p_arguments p) as [|value rest] eqn:Hp.
    { injection Hl as <-. exists [], []. rewrite app_nil_r. repeat split; try done. by intros k ?%elem_of_nil. }
    destruct (parse_one p) as [[[] q]|] eqn:E; [|done].
    apply parse_one_outcome in E as (n & [Hn Hn'] & Ho). rewrite <- Hp in Hlen |- *. destruct Ho as [(x & -> & Hfit & Ht & Hs)|(f & Hf & ->)].
    + destruct (learn_arguments x n p) as (Ha & Hi & Hd).
      destruct (IH _ Hl) as (trace & places & Hfits & Hk & Hall & Hix & Hge & Hw); [rewrite Ha, length_drop; lia|].
      exists ((x, take n (p_arguments p)) :: trace), places. rewrite Hi, Ha in Hw. rewrite Hd in Hix. rewrite Hi in Hge.
      split; [split; [done|]; eapply fitting_same; [|exact Hfits]; by rewrite !known_learn, known_advance|].
      split; [rewrite Hk; apply (learn_all_same (map fst trace)); by rewrite !known_learn, known_advance|].
      split; [by constructor|]. split; [done|]. split; [intros k Hk'; specialize (Hge k Hk'); lia|].
      rewrite <- (take_drop n (p_arguments p)) at 1. rewrite without_places_app, length_take_le, (Nat.add_comm _ n), Hw by done. cbn. f_equal.
      apply without_places_none. intros k Hk'. rewrite length_take_le by done. specialize (Hge k Hk'). lia.
    + set (g := fun d => extend_indices _ _) in *.
      assert (Hq : p_arguments (set_dependency g (advance_by n p)) = drop n (p_arguments p) /\ p_index (set_dependency g (advance_by n p)) = (n + p_index p)%nat /\
        d_indices (p_dependency (set_dependency g (advance_by n p))) = (d_indices (p_dependency p) ++ seq (p_index p) n)%list).
      { destruct p as [? ? ? ? ? ? ? ? ? ? ? d]. simpl. split; [done|]. split; [done|]. unfold g. rewrite <- (Hf d). by destruct (f d). }
      destruct Hq as (Ha & Hi & Hd).
      destruct (IH _ Hl) as (trace & places & Hfits & Hk & Hall & Hix & Hge & Hw); [rewrite Ha, length_drop; lia|].
      exists trace, (seq (p_index p) n ++ places)%list. rewrite Hi, Ha in Hw. rewrite Hd in Hix. rewrite Hi in Hge.
      assert (Hkn : known (set_dependency g (advance_by n p)) = known p) by (by rewrite known_request, known_advance).
      split; [by eapply fitting_same|]. split; [rewrite Hk; by apply learn_all_same|]. split; [done|].
      split; [by rewrite app_assoc|]. split.
      { intros k [Hk'%elem_of_seq|Hk']%elem_of_app; [lia|]. specialize (Hge k Hk'). lia. }
      rewrite <- (take_drop n (p_arguments p)) at 1. rewrite without_places_app, length_take_le by done.
      rewrite without_places_all; [|intros k; rewrite length_take_le, elem_of_app, elem_of_seq by done; lia]. cbn.
      rewrite <- Hw, (Nat.add_comm (p_index p)). apply without_places_same. intros k Hk'. rewrite elem_of_app, elem_of_seq.
      split; [intros [|]; [lia|done]|by right].
Qed.

(** The same compilation, run as [all] says, with no dependency list for the
    caller. *)
Definition on_its_own (i : CcInvocation) (all : list string) : CcInvocation :=
  mkInvocation (arguments i) (source i) (output i) (include_dirs i) (required_inputs i) (language i)
    (preprocessed_assembly i) (then_some (is_preprocessing i) all) (sysroot i) None [].

Lemma finish_alone family args p i all q :
  finish args family p = Ok i -> known q = known p -> p_dependency q = no_request ->
  finish all family q = Ok (on_its_own i all) /\ arguments i = p_parsed p /\
  dependency_argument_indices i = d_indices (p_dependency p).
Proof.
  destruct p as [a n ps s o id sr el pa c pp d], q as [a' n' ps' s' o' id' sr' el' pa' c' pp' d']. cbn [known p_dependency].
  intros Hf [= -> -> -> -> -> -> -> -> ->] ->. unfold finish, caller_depfile_of, language_of, mbind, result_bind in *. cbn in *.
  destruct (negb c && negb pp); [done|]. destruct s as [s|]; [|done]. destruct o as [o|]; [|done]. cbn in *.
  destruct (pp && is_dash o); [done|]. destruct (pp && is_some (d_user_headers_only d) && is_none (d_file d)); [done|].
  destruct (pp && is_some_and is_dash (d_file d)); [done|]. rewrite !andb_false_r.
  destruct (match el with Some language => _ | None => _ end) as [l|]; [|done].
  assert (Hi : exists depfile, Ok i = @Ok CcBypassReason _ (mkInvocation ps s o id [s] l (pa || (is_none el && String.eqb (extension_of s) "S"))
    (then_some pp args) sr depfile (d_indices d))).
  { destruct (d_user_headers_only d); [|destruct (d_modifier d); [done|]].
    - destruct (match d_targets d with [] => _ | _ :: _ => _ end); [|done]. by eexists.
    - by eexists. }
  destruct Hi as [depfile [= ->]]. unfold on_its_own, is_preprocessing. cbn. by destruct pp.
Qed.

(** What a successful parse read. *)
Lemma parse_as_reading family args i :
  parse_as family args = Ok i ->
  exists trace, arguments i = map fst trace /\
    Forall (fun t => spelled t.1 t.2 /\ spelled t.1 (spell t.1)) trace /\
    compiler_arguments i args = concat (map snd trace) /\
    forall ls, Forall2 spelled (arguments i) ls -> parse_as family (concat ls) = Ok (on_its_own i (concat ls)).
Proof.
  unfold parse_as at 1. intros Hp. destruct (parse_loop parse_one (length args) (parser_new args)) as [[[] p]|] eqn:El; [|done].
  change (finish args family p = Ok i) in Hp.
  destruct (reading _ _ _ El ltac:(done)) as (trace & places & Hfits & Hk & Hall & Hix & _ & Hw).
  destruct (finish_alone family args p i [] (set_dependency (fun _ => no_request) p) Hp (known_request _ _)) as (_ & Ha & Hi); [by destruct p|].
  assert (Hparsed : arguments i = map fst trace).
  { transitivity (p_parsed (known p)); [rewrite Ha; by destruct p|]. rewrite Hk.
    transitivity (p_parsed (learn_all (map fst trace) (parser_new args))); [by destruct (learn_all _ _)|]. by rewrite learn_all_parsed. }
  exists trace. split; [done|]. split; [done|]. split; [by rewrite compiler_arguments_places, Hi, Hix|].
  intros ls Hls. rewrite Hparsed in Hls. unfold parse_as.
  destruct (replays (map fst trace) ls (parser_new (concat ls)) (length (concat ls)) Hls) as (q & Hq & Hkq & Hd); [|done..|].
  { eapply fitting_same; [|exact Hfits]. done. }
  rewrite Hq. apply (finish_alone family args p i (concat ls) q Hp); [|done]. rewrite Hkq, Hk. by apply learn_all_same.
Qed.

(** C10: The arguments an invocation keeps for its key are themselves a command
    line of the same compilation: read again, they keep the same arguments and
    give the same source, output, include directories, language, sysroot and
    kind of input.  Whatever the caller's spelling, nothing the parser of
    gcc-style command lines found out of the compilation is lost from the key;
    the list the caller asked for and the command line of a preprocessor run
    are no part of it. *)
Theorem kept_arguments_are_the_compilation family args i :
  parse_as family args = Ok i ->
  let spelling := flat_map spell (arguments i) in parse_as family spelling = Ok (on_its_own i spelling).
Proof.
  intros (trace & Ha & Hall & _ & Hr)%parse_as_reading. cbv zeta. rewrite flat_map_concat_map. apply Hr. rewrite Ha.
  clear -Hall. induction Hall as [|t trace [_ Ht] Hall IH]; constructor; done.
Qed.

(** C11: The dependency-list flags of a caller stand apart: the command line
    without them, which is what the compiler is run with, parses to a
    compilation with the same kept arguments, source, output, search
    directories, language and sysroot that asks for no list, whatever flags were
    attached, repeated or mixed in between.  A run of the preprocessor, which is
    keyed by its whole command line, has the shorter one in its place. *)
Theorem dependency_flags_stand_apart family args i :
  parse_as family args = Ok i ->
  let line := compiler_arguments i args in
  exists j, parse_as family line = Ok j /\
    arguments j = arguments i /\ source j = source i /\ output j = output i /\ include_dirs j = include_dirs i /\
    required_inputs j = required_inputs i /\ language j = language i /\
    preprocessed_assembly j = preprocessed_assembly i /\ sysroot j = sysroot i /\
    caller_depfile j = None /\ dependency_argument_indices j = [] /\
    preprocessing_arguments j = (if is_preprocessing i then Some line else preprocessing_arguments i).
Proof.
  intros (trace & Ha & Hall & Hc & Hr)%parse_as_reading. cbv zeta. exists (on_its_own i (compiler_arguments i args)).
  split.
  - rewrite Hc. apply Hr. rewrite Ha. clear -Hall. induction Hall as [|t trace [Ht _] Hall IH]; constructor; done.
  - split_and!; try done. unfold on_its_own, is_preprocessing. simpl. by destruct (preprocessing_arguments i).
Qed.

(** ** Some compilations *)

Module CcDemo.

(** A makefile's command line, its flags attached and apart. *)
Definition by_make : list string :=
  ["-MMD"; "-MF"; "deps/a.d"; "-O2"; "-Wall"; "-D"; "NAME=1"; "-Iinclude"; "-isystem"; "/usr/include/x"; "-c"; "-MP";
   "--sysroot=/sdk"; "-ffile-prefix-map=/work=."; "src/a.c"; "-MTa.o"; "-arch"; "arm64"; "-oout/a.o"].

Definition parsed (args : list string) : CcInvocation :=
  match parse args with Ok i => i | Err _ => mkInvocation [] "" "" [] [] C false None None None [] end.

Lemma kept_arguments_are_the_compilation_witness :
  let spelling := flat_map spell (arguments (parsed by_make)) in
  spelling = ["-O2"; "-Wall"; "-DNAME=1"; "-I"; "include"; "-isystem"; "/usr/include/x"; "-c"; "--sysroot=/sdk";
              "-ffile-prefix-map=/work=."; "src/a.c"; "-arch"; "arm64"; "-o"; "out/a.o"] /\
  parse_as Gcc spelling = Ok (on_its_own (parsed by_make) spelling).
Proof.
  split; [vm_compute; reflexivity|].
  exact (kept_arguments_are_the_compilation Gcc by_make (parsed by_make) ltac:(vm_compute; reflexivity)).
Defined.

Lemma dependency_flags_stand_apart_witness :
  let line := compiler_arguments (parsed by_make) by_make in
  line = ["-O2"; "-Wall"; "-D"; "NAME=1"; "-Iinclude"; "-isystem"; "/usr/include/x"; "-c"; "--sysroot=/sdk";
          "-ffile-prefix-map=/work=."; "src/a.c"; "-arch"; "arm64"; "-oout/a.o"] /\
  exists j, parse_as Gcc line = Ok j /\ arguments j = arguments (parsed by_make) /\ caller_depfile j = None.
Proof.
  split; [vm_compute; reflexivity|].
  destruct (dependency_flags_stand_apart Gcc by_make (parsed by_make) ltac:(vm_compute; reflexivity))
    as (j & Hj & Ha & _ & _ & _ & _ & _ & _ & _ & Hc & _).
  by exists j.
Defined.

(** The whole command line of a preprocessor's run is in its key, the flags of
    the caller's list with it. *)
Lemma preprocessing_keys_dependency_flags :
  exists i j, parse ["-E"; "a.c"; "-o"; "a.i"; "-MD"; "-MF"; "a.d"] = Ok i /\ parse ["-E"; "a.c"; "-o"; "a.i"] = Ok j /\
    arguments i = arguments j /\ preprocessing_arguments i <> preprocessing_arguments j.
Proof. do 2 eexists. split; [vm_compute; reflexivity|]. by split; [vm_compute; reflexivity|]. Qed.

(** A driver takes [-x] to be about the inputs after it; the parser takes one
    at the end to be about the source before it.  Preprocessed assembly is then
    not known as such, and its assembler inputs are not looked for. *)
Lemma trailing_language_hides_assembly :
  exists i, parse ["-c"; "a.S"; "-o"; "a.o"; "-xc"] = Ok i /\ preprocessed_assembly i = false /\
    forall directive paths, validate_discovered_inputs directive i paths = Ok ().
Proof. eexists. split; [vm_compute; reflexivity|]. done. Qed.

(** With [cl.exe], the language [/Tc] and [/Tp] select is not among the
    arguments that are kept. *)
Lemma msvc_language_is_not_kept :
  exists i j, parse_msvc ["/c"; "/Tca.cpp"; "/Foa.obj"] = Ok i /\ parse_msvc ["/c"; "a.cpp"; "/Foa.obj"] = Ok j /\
    arguments i = arguments j /\ language i <> language j.
Proof. do 2 eexists. split; [vm_compute; reflexivity|]. by split; [vm_compute; reflexivity|]. Qed.

End CcDemo.
