(* ===== verification/CcAction.v ===== *)
(** * The key of a C action

    Models the action builder of [src/crates/mbx-cache-cc/src/lib.rs]
    ([ActionBuilder]), the prediction of a compilation's inputs ([prediction],
    [discover]) and the way back from names to files ([denormalize_path]).  A
    path beneath a mapped root gets a portable name, one beneath a system root
    keeps its own.  Serialization is an argument ([CcSerializer]), and so are the
    roots of the developer tools the machine selected ([Developer]).

    A text of a command line and of an input is the text; a working directory
    and a root are their components. *)

From stdpp Require Import base list gmap strings sorting pretty.
From Stdlib Require Import ZArith Lia Ascii.
From S2P Require Import Prelude Protocol Strings PathMap Naming RustcArgs CcArgs.
Local Open Scope string_scope.

(** ** Data *)

Definition ACTION_SCHEMA_VERSION : Z := 1.
Definition ADAPTER_VERSION : Z := 1.
Definition MAX_PREDICTED_INPUTS : Z := 16 * 1024.
Definition INCLUDE_MANIFEST_PREFIX : string := "@include-manifest:".

Record CcCompilerIdentity := mkCompiler {
  family : CcCompilerFamily;
  version_text : string;
  target : string;
  assembler : string
}.

Record CcActionInput := mkInput { input_path : string; input_digest : Digest }.

Record CcActionContext := mkContext {
  compiler : CcCompilerIdentity;
  working_dir : Path;
  path_mappings : list PathMapping;
  environment : gmap string (option string);
  inputs : list CcActionInput
}.

Record CcAction := mkAction { action_digest : Digest; action_bytes : list Z }.

Record CcCompilerDescriptor := mkCompilerDescriptor {
  d_assembler : string;
  d_family : string;
  d_target : string;
  d_version_text : string
}.

Record PreprocessingContext := mkPreprocessing {
  pre_working_dir : Path;
  pre_arguments : list string;
  pre_roots : gmap string Path
}.

Record CcPathBinding := mkBinding {
  bound_working_dir : Path;
  bound_arguments : list Argument;
  bound_roots : gmap string Path
}.

Record CcActionDescriptor := mkDescriptor {
  path_binding : option CcPathBinding;
  d_version : Z;
  d_kind : string;
  d_adapter_version : Z;
  assembly_input_model : option Z;
  preprocessing : option PreprocessingContext;
  d_compiler : CcCompilerDescriptor;
  d_arguments : list string;
  d_environment : gmap string (option string);
  d_inputs : list (string * Digest)
}.

Record CcInvocationDescriptor := mkInvocationDescriptor {
  i_version : Z;
  i_kind : string;
  i_adapter_version : Z;
  i_assembly_input_model : option Z;
  i_preprocessing : option PreprocessingContext;
  i_compiler : CcCompilerDescriptor;
  i_arguments : list string;
  i_required_inputs : list string
}.

Record CcInputPrediction := mkPrediction {
  path_specific : bool;
  prediction_version : Z;
  predicted_inputs : list string;
  predicted_environment : list string;
  compiler_duration_ns : Z;
  predicted_source : string
}.

(** [canonical_json] of the two descriptors, and the hash of the bytes. *)
Class CcSerializer := {
  cc_action_json : CcActionDescriptor -> result string (list Z);
  cc_invocation_json : CcInvocationDescriptor -> result string (list Z);
  cc_hash_hex : list Z -> string;
}.

(** [developer_roots]: what [DEVELOPER_DIR] or [xcode-select] names on macOS,
    and nothing elsewhere. *)
Class Developer := developer_roots : list Path.

Definition SYSTEM_ROOTS : list string :=
  ["/Applications/Xcode.app"; "/Library/Developer"; "/nix/store"; "/usr/include"; "/usr/lib"; "/usr/local/include"].

Definition is_system_path `{Developer} (p : Path) : bool :=
  existsb (fun root => starts_with p (path_of root)) SYSTEM_ROOTS || existsb (starts_with p) developer_roots.

(** ** The builder *)

Record ActionBuilder := mkBuilder {
  invocation : CcInvocation;
  context : CcActionContext;
  mappings : list PathMapping;
}.

Definition bypass_of (e : PathNormalizationError) : CcBypassReason :=
  match e with
  | UnmappedAbsolutePath path => BypassUnmappedAbsolutePath path
  | NonUtf8Path path => BypassNonUtf8Path path
  end.

Section Builder.
Context `{Disk} `{Developer}.

Definition builder_new (i : CcInvocation) (c : CcActionContext) : ActionBuilder :=
  let path_mappings := ordered (path_mappings c) in
  mkBuilder i (mkContext (compiler c) (working_dir c) path_mappings (environment c) (inputs c))
    (resolve_path_mappings path_mappings).

(** A system path keeps its name when no root has it. *)
Definition system_name (p working_dir : Path) (reason : PathNormalizationError) : result CcBypassReason string :=
  let absolute := absolute_path p working_dir in
  if is_system_path absolute then ok_or (BypassNonUtf8Path absolute) (to_str (render absolute))
  else Err (bypass_of reason).

Definition normalize_path (b : ActionBuilder) (p : Path) : Build CcBypassReason string :=
  fun aliases =>
    let '(name, aliases) := normalize_resolved_mapped_path_with aliases p (working_dir (context b)) (mappings b) in
    (match name with Ok normalized => Ok normalized | Err reason => system_name p (working_dir (context b)) reason end,
     aliases).

Definition manifest_directory (path : string) : option string := to_str path ≫= strip_prefix INCLUDE_MANIFEST_PREFIX.

Definition normalize_input_path (b : ActionBuilder) (path : string) : Build CcBypassReason string :=
  match manifest_directory path with
  | Some directory => name ← normalize_path b (path_of directory); mret (INCLUDE_MANIFEST_PREFIX ++ name)
  | None => normalize_path b (path_of path)
  end.

Definition normalize_argument (b : ActionBuilder) (a : Argument) : Build CcBypassReason string :=
  match a with
  | Plain value => mret value
  | PathArgument flag path => name ← normalize_path b (path_of path); mret (flag ++ "=" ++ name)
  | PrefixMap flag from to => name ← normalize_path b (path_of from); mret (flag ++ "=" ++ name ++ "=" ++ to)
  | Source path => normalize_path b (path_of path)
  end.

Fixpoint check_mappings (ms : list PathMapping) (roots : gset Path) (placeholders : gset string)
    : result CcBypassReason unit :=
  match ms with
  | [] => Ok ()
  | m :: ms =>
      let r := normalize_components (root m) in
      if negb (is_absolute (root m)) then Err (RelativePathMapping (root m))
      else if negb (valid_placeholder (placeholder m)) || bool_decide (r ∈ roots) ||
              bool_decide (placeholder m ∈ placeholders)
      then Err (InvalidPathPlaceholder (placeholder m))
      else check_mappings ms ({[ r ]} ∪ roots) ({[ placeholder m ]} ∪ placeholders)
  end.

Definition validate_mappings (b : ActionBuilder) : result CcBypassReason unit :=
  if negb (is_absolute (working_dir (context b))) then Err (RelativeWorkingDirectory (working_dir (context b)))
  else check_mappings (path_mappings (context b)) ∅ ∅.

Definition compiler_descriptor (c : CcCompilerIdentity) : CcCompilerDescriptor :=
  mkCompilerDescriptor (assembler c) (family_name (family c)) (target c) (version_text c).

(** A [BTreeMap] of the roots by placeholder. *)
Definition roots_of (ms : list PathMapping) : gmap string Path :=
  fold_left (fun m mapping => <[placeholder mapping := root mapping]> m) ms ∅.

Definition preprocessing_of (b : ActionBuilder) : option PreprocessingContext :=
  (fun arguments => mkPreprocessing (working_dir (context b)) arguments (roots_of (mappings b)))
    <$> preprocessing_arguments (invocation b).

Definition invocation_descriptor (b : ActionBuilder) : Build CcBypassReason CcInvocationDescriptor :=
  _ ← lift (validate_mappings b);
  arguments ← each (normalize_argument b) (arguments (invocation b));
  required ← each (fun path => normalize_path b (path_of path)) (required_inputs (invocation b));
  mret (mkInvocationDescriptor ACTION_SCHEMA_VERSION "cc" ADAPTER_VERSION
          (then_some (preprocessed_assembly (invocation b)) 1%Z) (preprocessing_of b)
          (compiler_descriptor (compiler (context b))) arguments (string_set required)).

Fixpoint collect_inputs (b : ActionBuilder) (l : list CcActionInput) (collected : gmap string Digest)
    : Build CcBypassReason (gmap string Digest) :=
  match l with
  | [] => mret collected
  | input :: l =>
      _ ← lift (map_err (fun _ => InvalidInputDigest (input_path input)) (validate_digest (input_digest input)));
      path ← normalize_input_path b (input_path input);
      if is_some_and (fun existing => negb (bool_decide (existing = input_digest input))) (collected !! path) then
        lift (Err (ConflictingInput path))
      else collect_inputs b l (<[path := input_digest input]> collected)
  end.

Definition binding_of (b : ActionBuilder) (path_specific : bool) : option CcPathBinding :=
  then_some path_specific
    (mkBinding (working_dir (context b)) (arguments (invocation b)) (roots_of (path_mappings (context b)))).

Definition build_descriptor (b : ActionBuilder) (path_specific : bool) : Build CcBypassReason CcActionDescriptor :=
  _ ← lift (validate_mappings b);
  described ← invocation_descriptor b;
  collected ← collect_inputs b (inputs (context b)) ∅;
  required ← each (fun path => normalize_path b (path_of path)) (required_inputs (invocation b));
  match find (fun path => negb (bool_decide (is_Some (collected !! path)))) (string_set required) with
  | Some missing => lift (Err (MissingRequiredInput missing))
  | None =>
      mret (mkDescriptor (binding_of b path_specific) ACTION_SCHEMA_VERSION "cc" ADAPTER_VERSION
              (i_assembly_input_model described) (i_preprocessing described) (i_compiler described)
              (i_arguments described) (environment (context b)) (entries collected))
  end.

Definition build `{CcSerializer} (b : ActionBuilder) (path_specific : bool) : Build CcBypassReason CcAction :=
  descriptor ← build_descriptor b path_specific;
  bytes ← lift (map_err Serialization (cc_action_json descriptor));
  mret (mkAction (blake3 cc_hash_hex bytes) bytes).

Definition action_with_path_binding `{CcSerializer} (i : CcInvocation) (c : CcActionContext) (path_specific : bool)
    : result CcBypassReason CcAction :=
  fst (build (builder_new i c) path_specific ∅).

(** [CcInvocation::action]. *)
Definition action `{CcSerializer} (i : CcInvocation) (c : CcActionContext) : result CcBypassReason CcAction :=
  action_with_path_binding i c false.

Definition invocation_digest `{CcSerializer} (i : CcInvocation) (c : CcActionContext) : result CcBypassReason Digest :=
  fst ((descriptor ← invocation_descriptor (builder_new i c);
        bytes ← lift (map_err Serialization (cc_invocation_json descriptor));
        mret (blake3 cc_hash_hex bytes)) ∅).

(** ** Predictions *)

Definition predict (b : ActionBuilder) : Build CcBypassReason (list string) :=
  names ← each (fun input => normalize_input_path b (input_path input)) (inputs (context b));
  mret (string_set names).

Definition prediction (i : CcInvocation) (c : CcActionContext) (compiler_duration_ns : Z)
    : result CcBypassReason CcInputPrediction :=
  inputs ← fst (predict (builder_new i c) ∅);
  Ok (mkPrediction false 1 inputs (map fst (entries (environment c))) compiler_duration_ns (source_name i)).

(** A verbatim name is a machine path, spelled literally. *)
Definition verbatim_path (value : string) : option Path :=
  let path := path_of value in
  if is_absolute path && is_system_path path && bool_decide (normalize_components path = path) then Some path else None.

Fixpoint denormalize_path (value : string) (ms : list PathMapping) : result CcBypassReason Path :=
  match ms with
  | [] => ok_or (InvalidPredictedInput value) (verbatim_path value)
  | m :: ms =>
      let prefix := placeholder_text m in
      match (if String.eqb value prefix then Some "" else strip_prefix (prefix ++ "/") value) with
      | None => denormalize_path value ms
      | Some suffix =>
          if negb (is_absolute (root m)) ||
             (negb (String.eqb suffix "") && existsb bad_component (split "/" suffix))
          then Err (InvalidPredictedInput value)
          else Ok (fold_left push
                 (map path_of (List.filter (fun c => negb (String.eqb c "")) (split "/" suffix)))
                 (normalize_components (root m)))
      end
  end.

(** The files and the directories a prediction names: the beginning of
    [discover], which goes on to [collect]. *)
Fixpoint predicted_paths (ms : list PathMapping) (entries : list string) (files directories : gset Path)
    : result CcBypassReason (gset Path * gset Path) :=
  match entries with
  | [] => Ok (files, directories)
  | entry :: entries =>
      match strip_prefix INCLUDE_MANIFEST_PREFIX entry with
      | Some directory => p ← denormalize_path directory ms; predicted_paths ms entries files ({[ p ]} ∪ directories)
      | None => p ← denormalize_path entry ms; predicted_paths ms entries ({[ p ]} ∪ files) directories
      end
  end.

Definition read_prediction (p : CcInputPrediction) (ms : list PathMapping) : result CcBypassReason (gset Path * gset Path) :=
  if negb (prediction_version p =? 1)%Z then Err UnsupportedPrediction
  else if (MAX_PREDICTED_INPUTS <? Z.of_nat (length (predicted_inputs p)))%Z ||
          (4 * 1024 <? Z.of_nat (length (predicted_environment p)))%Z
  then Err UnsupportedPrediction
  else predicted_paths (ordered ms) (predicted_inputs p) ∅ ∅.

End Builder.
