(* ===== verification/CcKeys.v ===== *)
(** * What the key of a C action says

    The theorems on the builder of [CcAction]: equal keys are the same
    compilation, of the same files where the roots are the same; and the names
    a prediction records lead back to the inputs they were made from. *)

From stdpp Require Import base list gmap strings sorting pretty.
From Stdlib Require Import ZArith Lia Ascii.
From S2P Require Import Prelude Protocol Strings PathMap Naming RustcArgs CcArgs CcAction.
Local Open Scope string_scope.

(** ** Names *)

Lemma path_of_render p : canonical p = true -> path_of (render p) = p.
Proof.
  intros (names & -> & Hn)%canonical_names. destruct names as [|n names]; [done|].
  change (render (under_root (n :: names))) with (join "/" (map component_text (RootDir :: map Normal (n :: names)))).
  assert (He : map component_text (RootDir :: map Normal (n :: names)) = "" :: n :: names).
  { clear Hn. simpl. f_equal. f_equal. induction names as [|m names IH]; [done|]. simpl. by f_equal. }
  rewrite He. change (join "/" ("" :: n :: names)) with (String "/" (join "/" (n :: names))).
  assert (Hs : split "/" (String "/" (join "/" (n :: names))) = "" :: n :: names).
  { change (split "/" (String "/" (join "/" (n :: names)))) with ("" :: split "/" (join "/" (n :: names))). rewrite split_join; [done|done|]. eapply Forall_impl; [exact Hn|]. by intros ? (_ & _ & _ & ?)%good_name_parts. }
  assert (Hp : flat_map (piece false) (n :: names) = map Normal (n :: names)).
  { clear He Hs. induction Hn as [|m l Hm _ IH]; [done|]. simpl. rewrite IH. apply good_name_parts in Hm as (H1 & H2 & H3 & _).
    apply String.eqb_neq in H1, H2, H3. unfold piece. by rewrite H1, H2, H3. }
  unfold path_of. rewrite Hs. unfold under_root. rewrite <- Hp. done.
Qed.

Section Names.
Context `{DiskLaws} `{Developer}.

(** The name a path has in a key. *)
Definition cc_name_of (p working_dir : Path) (ms : list PathMapping) : result CcBypassReason string :=
  match name_of p working_dir ms with Ok name => Ok name | Err reason => system_name p working_dir reason end.

Lemma system_name_ok p working_dir reason s : system_name p working_dir reason = Ok s ->
  is_system_path (absolute_path p working_dir) = true /\ s = render (absolute_path p working_dir).
Proof.
  unfold system_name. destruct (is_system_path _); [|done]. destruct (to_str _) as [t|] eqn:E; [|done].
  unfold to_str in E. destruct (utf8_from [] _); [|done]. intros [= <-]. by injection E as <-.
Qed.

(** A name is that of a root and the file beneath it, or a system path. *)
Lemma cc_name_cases p working_dir ms s :
  cc_name_of p working_dir ms = Ok s ->
  name_of p working_dir ms = Ok s \/
  is_system_path (absolute_path p working_dir) = true /\ s = render (absolute_path p working_dir).
Proof.
  unfold cc_name_of. destruct (name_of p working_dir ms) as [n|r]; [by intros [= ->]; left|]. intros Hs%system_name_ok. by right.
Qed.

Lemma name_text_starts m names : exists rest, name_text m names = String "$" rest.
Proof. eexists. reflexivity. Qed.

Lemma render_starts p : canonical p = true -> exists rest, render p = String "/" rest.
Proof. intros (names & -> & _)%canonical_names. destruct names as [|n names]; eexists; reflexivity. Qed.

(** Two paths with one name are one file. *)
Lemma cc_names_agree ms s p working_dir q working_dir' :
  forallb usable ms = true -> NoDup (map placeholder ms) -> paths_ok p working_dir -> paths_ok q working_dir' ->
  cc_name_of p working_dir ms = Ok s -> cc_name_of q working_dir' ms = Ok s ->
  resolved (absolute_path p working_dir) = resolved (absolute_path q working_dir').
Proof.
  intros Hu Hd Hp Hq Hs Hs'. pose proof Hp as (Hp1 & Hp2 & Hp3). pose proof Hq as (Hq1 & Hq2 & Hq3).
  pose proof (absolute_path_canonical _ _ Hp1 Hp2 Hp3) as Hcp. pose proof (absolute_path_canonical _ _ Hq1 Hq2 Hq3) as Hcq.
  destruct (render_starts _ Hcp) as [x Hx]. destruct (render_starts _ Hcq) as [y Hy].
  apply cc_name_cases in Hs as [Hs|[_ Hs]], Hs' as [Hs'|[_ Hs']].
  - destruct (name_of_ok _ _ _ _ Hp Hu Hs) as (m & names & Hin & Hn & -> & ->).
    destruct (name_of_ok _ _ _ _ Hq Hu Hs') as (m' & names' & Hin' & Hn' & -> & He).
    assert (usable m = true /\ usable m' = true) as [Hm Hm'] by (by split; eapply forallb_forall in Hu).
    apply name_text_inj in He as [He ->]; [|done..]. by rewrite (placeholder_inj ms m m').
  - destruct (name_of_ok _ _ _ _ Hp Hu Hs) as (m & names & _ & _ & _ & ->). destruct (name_text_starts m names). congruence.
  - destruct (name_of_ok _ _ _ _ Hq Hu Hs') as (m & names & _ & _ & _ & ->). destruct (name_text_starts m names). congruence.
  - f_equal. rewrite <- (path_of_render _ Hcp), <- (path_of_render _ Hcq). congruence.
Qed.
End Names.

(** ** What the methods answer *)

Section Methods.
Context `{DiskLaws} `{Developer} (b : ActionBuilder).
Hypothesis Hwd : well_formed (working_dir (context b)) = true.
Hypothesis Habs : is_absolute (working_dir (context b)) = true.

Definition names (p : Path) (s : string) : Prop := cc_name_of p (working_dir (context b)) (mappings b) = Ok s.

Lemma cc_returns_path p : well_formed p = true -> returns (normalize_path b p) (names p).
Proof.
  intros Hp aliases Hc. unfold normalize_path, names, cc_name_of.
  destruct (memo_gives_plain_names aliases p _ (mappings b) Hc (conj Hp (conj Hwd Habs))) as [He Hc'].
  destruct (normalize_resolved_mapped_path_with _ _ _ _) as [name aliases']. simpl in *. by subst name.
Qed.

Definition names_input (path s : string) : Prop :=
  match manifest_directory path with
  | Some directory => exists name, names (path_of directory) name /\ s = INCLUDE_MANIFEST_PREFIX ++ name
  | None => names (path_of path) s
  end.

Lemma cc_returns_input path : returns (normalize_input_path b path) (names_input path).
Proof.
  unfold normalize_input_path, names_input. destruct (manifest_directory path) as [directory|].
  - apply (returns_map _ (fun name => INCLUDE_MANIFEST_PREFIX ++ name)), cc_returns_path, well_formed_path_of.
  - apply cc_returns_path, well_formed_path_of.
Qed.

Lemma cc_names_input_fun path s s' : names_input path s -> names_input path s' -> s = s'.
Proof.
  unfold names_input, names. destruct (manifest_directory path) as [directory|]; [|congruence].
  intros (n & Hn & ->) (n' & Hn' & ->). congruence.
Qed.

(** The text the key has for an argument. *)
Definition argument_says (a : Argument) (s : string) : Prop :=
  match a with
  | Plain value => s = value
  | PathArgument flag path => exists name, names (path_of path) name /\ s = flag ++ "=" ++ name
  | PrefixMap flag from to => exists name, names (path_of from) name /\ s = flag ++ "=" ++ name ++ "=" ++ to
  | Source path => names (path_of path) s
  end.

Lemma cc_returns_argument a : returns (normalize_argument b a) (argument_says a).
Proof.
  destruct a as [v|flag path|flag from to|path]; simpl.
  - apply returns_ret.
  - apply (returns_map _ (fun name => flag ++ "=" ++ name)), cc_returns_path, well_formed_path_of.
  - apply (returns_map _ (fun name => flag ++ "=" ++ name ++ "=" ++ to)), cc_returns_path, well_formed_path_of.
  - apply cc_returns_path, well_formed_path_of.
Qed.

(** The loop over the inputs is the one every builder has. *)
Lemma cc_collect_into l collected aliases :
  collect_inputs b l collected aliases =
  collect_into (fun input => normalize_input_path b (input_path input)) input_digest
    (fun input => InvalidInputDigest (input_path input)) ConflictingInput l collected aliases.
Proof.
  revert collected aliases. induction l as [|input l IH]; intros collected aliases; [done|].
  cbn [collect_inputs collect_into]. unfold mbind, Build_bind, lift.
  destruct (map_err (fun _ => InvalidInputDigest (input_path input)) _) as [[]|]; [|done].
  destruct (normalize_input_path b (input_path input) aliases) as [[path|] aliases']; [|done]. case_match; [done|apply IH].
Qed.

Definition collected (l : list CcActionInput) (m : gmap string Digest) : Prop :=
  collects input_digest (fun input => names_input (input_path input)) l ∅ m.

Lemma returns_collected l : returns (collect_inputs b l ∅) (collected l).
Proof.
  eapply returns_ext; [intros aliases; apply cc_collect_into|]. apply returns_collect_into.
  - intros input s s'. apply cc_names_input_fun.
  - intros input _. apply cc_returns_input.
Qed.

Lemma returns_required :
  returns (each (fun path => normalize_path b (path_of path)) (required_inputs (invocation b)))
    (Forall2 (fun path => names (path_of path)) (required_inputs (invocation b))).
Proof. apply returns_each. intros path _. apply cc_returns_path, well_formed_path_of. Qed.
End Methods.

(** ** Descriptors *)

Section Describes.
Context `{DiskLaws} `{Developer} (b : ActionBuilder) (specific : bool).

(** A descriptor of the builder's action. *)
Definition describes (d : CcActionDescriptor) : Prop :=
  validate_mappings b = Ok () /\ path_binding d = binding_of b specific /\
  assembly_input_model d = then_some (preprocessed_assembly (invocation b)) 1%Z /\
  preprocessing d = preprocessing_of b /\ d_compiler d = compiler_descriptor (compiler (context b)) /\
  Forall2 (argument_says b) (arguments (invocation b)) (d_arguments d) /\
  d_environment d = environment (context b) /\
  exists m, collected b (inputs (context b)) m /\ d_inputs d = entries m.

Hypothesis Hwd : well_formed (working_dir (context b)) = true.

Lemma cc_validate_absolute : validate_mappings b = Ok () -> is_absolute (working_dir (context b)) = true.
Proof. unfold validate_mappings. by destruct (is_absolute _). Qed.

Lemma cc_returns_invocation :
  validate_mappings b = Ok () ->
  returns (invocation_descriptor b) (fun i => exists texts required,
    Forall2 (argument_says b) (arguments (invocation b)) texts /\
    Forall2 (fun path => names b (path_of path)) (required_inputs (invocation b)) required /\
    i = mkInvocationDescriptor ACTION_SCHEMA_VERSION "cc" ADAPTER_VERSION
          (then_some (preprocessed_assembly (invocation b)) 1%Z) (preprocessing_of b)
          (compiler_descriptor (compiler (context b))) texts (string_set required)).
Proof.
  intros Hv. pose proof (cc_validate_absolute Hv) as Habs. unfold invocation_descriptor. eapply returns_weaken.
  - eapply returns_bind; [apply returns_lift|]. intros u _. eapply returns_bind.
    { apply returns_each. intros a _. by apply cc_returns_argument. }
    intros texts _. eapply (returns_map _ (fun required => mkInvocationDescriptor _ _ _ _ _ _ texts (string_set required))).
    by apply returns_required.
  - intros i. split; [|naive_solver]. intros (u & _ & texts & Ht & required & Hr & ->). eauto.
Qed.

(** What is described is described so. *)
Lemma described_so aliases d :
  consistent aliases -> fst (build_descriptor b specific aliases) = Ok d -> describes d.
Proof.
  intros Hc Hd. assert (Hret : returns (build_descriptor b specific) (fun d => exists u : unit, validate_mappings b = Ok u /\
    exists i, (exists texts required, Forall2 (argument_says b) (arguments (invocation b)) texts /\
      Forall2 (fun path => names b (path_of path)) (required_inputs (invocation b)) required /\
      i = mkInvocationDescriptor ACTION_SCHEMA_VERSION "cc" ADAPTER_VERSION
        (then_some (preprocessed_assembly (invocation b)) 1%Z) (preprocessing_of b)
        (compiler_descriptor (compiler (context b))) texts (string_set required)) /\
    exists m, collected b (inputs (context b)) m /\ exists required, Forall2 (fun path => names b (path_of path)) (required_inputs (invocation b)) required /\
      match find (fun path => negb (bool_decide (is_Some (m !! path)))) (string_set required) with
      | Some missing => Err (MissingRequiredInput missing)
      | None => Ok (mkDescriptor (binding_of b specific) ACTION_SCHEMA_VERSION "cc" ADAPTER_VERSION
          (i_assembly_input_model i) (i_preprocessing i) (i_compiler i) (i_arguments i) (environment (context b)) (entries m))
      end = Ok d)).
  { unfold build_descriptor. eapply returns_bind; [apply returns_lift|]. intros [] Hv. pose proof (cc_validate_absolute Hv) as Habs.
    eapply returns_bind; [by apply cc_returns_invocation|]. intros i _. eapply returns_bind; [by apply returns_collected|]. intros m _.
    eapply returns_bind; [by apply returns_required|]. intros required _.
    destruct (find _ _); [apply returns_lift|]. eapply returns_weaken; [apply returns_ret|]. intros a. naive_solver. }
  destruct (Hret aliases Hc) as [_ Hr]. apply Hr in Hd.
  destruct Hd as ([] & Hv & i & (texts & required & Ht & _ & ->) & m & Hm & required' & _ & Hd).
  destruct (find _ _); [done|]. injection Hd as <-. unfold describes. cbn. eauto 10.
Qed.
End Describes.

(** ** Keys *)

(** No two descriptors meet under one hash. *)
Class CcSerializerLaws `{CcSerializer} : Prop := {
  cc_no_collision d d' x x' :
    cc_action_json d = Ok x -> cc_action_json d' = Ok x' -> cc_hash_hex x = cc_hash_hex x' -> d = d';
}.

Lemma check_mappings_ok ms roots placeholders :
  check_mappings ms roots placeholders = Ok () ->
  forallb usable ms = true /\ NoDup (map placeholder ms) /\ forall m, In m ms -> placeholder m ∉ placeholders.
Proof.
  revert roots placeholders. induction ms as [|m ms IH]; intros roots placeholders; cbn [check_mappings].
  { intros _. split; [done|]. by split; [apply NoDup_nil|]. }
  destruct (is_absolute (root m)) eqn:Ha; [|done]. destruct (valid_placeholder (placeholder m)) eqn:Hv; [|done].
  cbn [negb orb]. destruct (bool_decide (_ ∈ roots)); [done|]. case_bool_decide as Hp; [done|].
  intros (Hu & Hd & Hnot)%IH. simpl. unfold usable at 1. rewrite Hv, Ha, Hu. split; [done|]. split.
  - apply NoDup_cons. split; [|done]. intros (m' & He & Hin)%list_elem_of_fmap. apply list_elem_of_In in Hin.
    apply (Hnot m' Hin). rewrite <- He. set_solver.
  - intros m' [<-|Hin]; [done|]. specialize (Hnot m' Hin). set_solver.
Qed.

Section Keys.
Context `{DiskLaws} `{Developer} `{CcSerializer}.

(** An action is the serialized descriptor of its builder. *)
Lemma cc_action_described i c specific a :
  well_formed (working_dir c) = true -> action_with_path_binding i c specific = Ok a ->
  exists d, describes (builder_new i c) specific d /\ cc_action_json d = Ok (action_bytes a) /\
    action_digest a = blake3 cc_hash_hex (action_bytes a).
Proof.
  unfold action_with_path_binding, build, mbind, Build_bind. intros Hw.
  destruct (build_descriptor _ _ ∅) as [[d|] aliases] eqn:Ed; [|done]. unfold lift.
  destruct (cc_action_json d) as [bytes|] eqn:Ej; [|done]. cbn. intros [= <-]. exists d. split; [|done].
  apply (described_so (builder_new i c) specific Hw ∅); [apply consistent_empty|]. by rewrite Ed.
Qed.

(** The file or the directory an input stands for. *)
Definition place (c : CcActionContext) (path : string) : bool * Path :=
  match manifest_directory path with
  | Some directory => (true, resolved (absolute_path (path_of directory) (working_dir c)))
  | None => (false, resolved (absolute_path (path_of path) (working_dir c)))
  end.

(** The roots of a builder whose mappings are valid. *)
Lemma builder_roots i c :
  validate_mappings (builder_new i c) = Ok () -> Forall (fun m => well_formed (root m) = true) (path_mappings c) ->
  is_absolute (working_dir c) = true /\ forallb usable (ordered (path_mappings c)) = true /\
  NoDup (map placeholder (ordered (path_mappings c))) /\
  Forall (fun m => well_formed (root m) = true) (ordered (path_mappings c)) /\
  forallb usable (mappings (builder_new i c)) = true /\ NoDup (map placeholder (mappings (builder_new i c))).
Proof.
  unfold validate_mappings. cbn. destruct (is_absolute (working_dir c)); [|done]. intros (Hu & Hd & _)%check_mappings_ok Hw.
  assert (Hw' : Forall (fun m => well_formed (root m) = true) (ordered (path_mappings c))) by (by rewrite ordered_permutation).
  split; [done|]. split; [done|]. split; [done|]. split; [done|]. split; [by apply usable_resolved|].
  unfold resolve_path_mappings. by rewrite map_map.
Qed.

Lemma manifest_name_apart b path s : names b path s -> well_formed path = true -> well_formed (working_dir (context b)) = true ->
  is_absolute (working_dir (context b)) = true -> forallb usable (mappings b) = true -> strip_prefix INCLUDE_MANIFEST_PREFIX s = None.
Proof.
  intros Hs Hp Hw Ha Hu. apply cc_name_cases in Hs as [Hs|[_ ->]].
  - destruct (name_of_ok _ _ _ _ (conj Hp (conj Hw Ha)) Hu Hs) as (m & ns & _ & _ & _ & ->).
    destruct (name_text_starts m ns) as [r ->]. done.
  - destruct (render_starts _ (absolute_path_canonical _ _ Hp Hw Ha)) as [r ->]. done.
Qed.

(** One name under the same roots is one place. *)
Lemma names_input_place i c i' c' p q s :
  validate_mappings (builder_new i c) = Ok () -> validate_mappings (builder_new i' c') = Ok () ->
  path_mappings c = path_mappings c' -> Forall (fun m => well_formed (root m) = true) (path_mappings c) ->
  well_formed (working_dir c) = true -> well_formed (working_dir c') = true ->
  names_input (builder_new i c) p s -> names_input (builder_new i' c') q s -> place c p = place c' q.
Proof.
  intros Hv Hv' Hm Hroots Hw Hw' Hp Hq. destruct (builder_roots i c Hv Hroots) as (Ha & _ & _ & _ & Hu & Hd).
  destruct (builder_roots i' c' Hv') as (Ha' & _ & _ & _ & Hu' & _); [by rewrite <- Hm|].
  assert (Hms : mappings (builder_new i c) = mappings (builder_new i' c')) by (cbn; by rewrite Hm).
  assert (Hone : forall x y n, names (builder_new i c) (path_of x) n -> names (builder_new i' c') (path_of y) n ->
    resolved (absolute_path (path_of x) (working_dir c)) = resolved (absolute_path (path_of y) (working_dir c'))).
  { intros x y n Hx Hy. unfold names in Hx, Hy. rewrite <- Hms in Hy.
    apply (cc_names_agree (mappings (builder_new i c)) n); [done|done| | |exact Hx|exact Hy];
      (split; [apply well_formed_path_of|done]). }
  assert (Hno : forall j e x n, names (builder_new j e) (path_of x) n -> well_formed (working_dir e) = true ->
    is_absolute (working_dir e) = true -> forallb usable (mappings (builder_new j e)) = true -> n <> s \/ strip_prefix INCLUDE_MANIFEST_PREFIX s = None).
  { intros j e x n Hx He Hae Hue. destruct (decide (n = s)) as [->|]; [right|by left].
    eapply manifest_name_apart; [exact Hx|apply well_formed_path_of|done..]. }
  unfold names_input, place in *. destruct (manifest_directory p) as [x|], (manifest_directory q) as [y|].
  - destruct Hp as (n & Hn & ->), Hq as (n' & Hn' & He). apply (inj (String.append INCLUDE_MANIFEST_PREFIX)) in He as <-.
    f_equal. by eapply Hone.
  - destruct Hp as (n & Hn & ->). destruct (Hno _ _ _ _ Hq Hw' Ha' Hu'); [done|by rewrite strip_prefix_app in *].
  - destruct Hq as (n & Hn & ->). destruct (Hno _ _ _ _ Hp Hw Ha Hu); [done|by rewrite strip_prefix_app in *].
  - f_equal. by eapply Hone.
Qed.

Lemma compiler_descriptor_inj c c' : compiler_descriptor c = compiler_descriptor c' -> c = c'.
Proof. destruct c as [f v t a], c' as [f' v' t' a']. intros [= -> Hf -> ->]. by destruct f, f'. Qed.

(** C9: Equal keys stand for the same C compilation: the same compiler, the
    same environment, the same texts of the arguments and kind of input; when
    preprocessed text or retained paths tie an output to its directory, the
    same directory and the arguments literally; and for every input an input of
    the other under the same name with the same contents, which is the same
    file or the same searched directory when the two have the same roots. *)
Theorem cc_equal_keys_agree `{!CcSerializerLaws} i c s a i' c' s' a' :
  well_formed (working_dir c) = true -> well_formed (working_dir c') = true ->
  action_with_path_binding i c s = Ok a -> action_with_path_binding i' c' s' = Ok a' ->
  action_digest a = action_digest a' ->
  compiler c = compiler c' /\ environment c = environment c' /\ preprocessed_assembly i = preprocessed_assembly i' /\
  (exists texts, Forall2 (argument_says (builder_new i c)) (arguments i) texts /\
     Forall2 (argument_says (builder_new i' c')) (arguments i') texts) /\
  preprocessing_arguments i = preprocessing_arguments i' /\ (is_preprocessing i = true -> working_dir c = working_dir c') /\
  s = s' /\ (s = true -> working_dir c = working_dir c' /\ arguments i = arguments i') /\
  (forall input, In input (inputs c) -> exists input', In input' (inputs c') /\ input_digest input = input_digest input' /\
     (exists name, names_input (builder_new i c) (input_path input) name /\ names_input (builder_new i' c') (input_path input') name) /\
     (path_mappings c = path_mappings c' -> Forall (fun m => well_formed (root m) = true) (path_mappings c) ->
      place c (input_path input) = place c' (input_path input'))).
Proof.
  intros Hw Hw' (d & Hd & Hj & Ha)%cc_action_described (d' & Hd' & Hj' & Ha')%cc_action_described Heq; [|done..].
  rewrite Ha, Ha' in Heq. injection Heq as Hh _. pose proof (cc_no_collision _ _ _ _ Hj Hj' Hh) as <-.
  destruct Hd as (Hv & Hb & Hasm & Hpre & Hc & Hargs & He & m & Hm & Hin).
  destruct Hd' as (Hv' & Hb' & Hasm' & Hpre' & Hc' & Hargs' & He' & m' & Hm' & Hin').
  assert (Hmm : m = m').
  { apply map_eq. intros k. apply option_eq. intros dg. by rewrite <- !In_entries, <- Hin, <- Hin'. }
  subst m'. unfold binding_of in Hb, Hb'. unfold preprocessing_of in Hpre, Hpre'. cbn in *.
  split; [apply compiler_descriptor_inj; congruence|]. split; [congruence|].
  split; [rewrite Hasm in Hasm'; by destruct (preprocessed_assembly i), (preprocessed_assembly i')|]. split; [eauto|].
  rewrite Hpre in Hpre'. rewrite Hb in Hb'.
  split; [by destruct (preprocessing_arguments i), (preprocessing_arguments i'); simplify_eq/=|].
  split; [unfold is_preprocessing; by destruct (preprocessing_arguments i), (preprocessing_arguments i'); simplify_eq/=|].
  split; [by destruct s, s'|]. split; [intros ->; destruct s'; by simplify_eq/=|].
  intros input Hi. destruct Hm as (Hm & _). destruct Hm' as (Hm' & Hback & _). destruct (Hm input Hi) as (_ & name & Hn & Hl).
  destruct (Hback name _ Hl) as [Hx|(input' & Hi' & Hn')]; [by rewrite lookup_empty in Hx|].
  exists input'. split; [done|]. destruct (Hm' input' Hi') as (_ & name' & Hn'' & Hl').
  pose proof (cc_names_input_fun _ _ _ _ Hn' Hn'') as <-. split; [congruence|]. split; [eauto|]. intros Hms Hroots.
  by eapply names_input_place.
Qed.
End Keys.

(** ** Predictions *)

Section Predictions.
Context `{DiskLaws} `{Developer}.

Lemma denormalize_named value ms p : PathMap.denormalize_path value ms = Some p -> denormalize_path value ms = Ok p.
Proof.
  induction ms as [|m ms IH]; [done|]. cbn [PathMap.denormalize_path denormalize_path]. destruct (if String.eqb value (placeholder_text m) then _ else _) as [suffix|]; [|done].
  destruct (_ || _); [done|]. by intros [= ->].
Qed.

Lemma denormalize_verbatim value rest ms : value = String "/" rest ->
  denormalize_path value ms = ok_or (InvalidPredictedInput value) (verbatim_path value).
Proof. intros ->. induction ms as [|m ms IH]; [done|]. exact IH. Qed.

(** A name leads back to the file it was made from. *)
Lemma cc_name_leads_back i c p s :
  validate_mappings (builder_new i c) = Ok () -> Forall (fun m => well_formed (root m) = true) (path_mappings c) ->
  well_formed p = true -> well_formed (working_dir c) = true ->
  Forall (fun n => without "\" n = true) (names_of (resolved (absolute_path p (working_dir c)))) ->
  names (builder_new i c) p s ->
  exists q, denormalize_path s (ordered (path_mappings c)) = Ok q /\ resolved q = resolved (absolute_path p (working_dir c)).
Proof.
  intros Hv Hroots Hp Hw Hb Hs. destruct (builder_roots i c Hv Hroots) as (Ha & Hu & Hd & Hwo & _ & _).
  apply cc_name_cases in Hs as [Hs|[Hsys ->]].
  - destruct (named_path_leads_back _ _ _ _ Hu Hwo (conj Hp (conj Hw Ha)) Hs) as (m & ns & Hin & Hwm & -> & Hn & [top Ht] & He).
    cbn in Ht, He. rewrite Ht in Hb. apply Forall_app in Hb as [_ Hb]. eexists. split; [|exact He].
    by apply denormalize_named, denormalize_name.
  - pose proof (absolute_path_canonical _ _ Hp Hw Ha) as Hc. cbn in Hc. destruct (render_starts _ Hc) as [r Hr]. cbn in Hr |- *.
    exists (absolute_path p (working_dir c)). split; [|done]. rewrite (denormalize_verbatim _ _ _ Hr). unfold verbatim_path.
    cbn in Hsys. rewrite (path_of_render _ Hc), (canonical_absolute _ Hc), Hsys. by rewrite bool_decide_true by (by apply normalize_canonical).
Qed.

(** The files among some names, or the directories, and what they stand for. *)
Definition stands_for (ms : list PathMapping) (l : list string) (directory : bool) (q : Path) : Prop :=
  exists e, In e l /\ is_some (strip_prefix INCLUDE_MANIFEST_PREFIX e) = directory /\
    denormalize_path (default e (strip_prefix INCLUDE_MANIFEST_PREFIX e)) ms = Ok q.

Lemma stands_for_cons ms e l directory q : stands_for ms (e :: l) directory q <->
  (is_some (strip_prefix INCLUDE_MANIFEST_PREFIX e) = directory /\
   denormalize_path (default e (strip_prefix INCLUDE_MANIFEST_PREFIX e)) ms = Ok q) \/ stands_for ms l directory q.
Proof.
  unfold stands_for. split.
  - intros (x & [<-|Hx] & Hrest); [by left|right; eauto].
  - intros [Hrest|(x & Hx & Hrest)]; [exists e; split; [by left|done]|exists x; split; [by right|done]].
Qed.

Lemma predicted_paths_spec ms (l : list string) files directories :
  (forall e, In e l -> exists q, denormalize_path (default e (strip_prefix INCLUDE_MANIFEST_PREFIX e)) ms = Ok q) ->
  exists files' directories', predicted_paths ms l files directories = Ok (files', directories') /\
    (forall q, q ∈ files' <-> q ∈ files \/ stands_for ms l false q) /\
    (forall q, q ∈ directories' <-> q ∈ directories \/ stands_for ms l true q).
Proof.
  revert files directories. induction l as [|e l IH]; intros files directories Hl.
  { exists files, directories. split; [done|]. by split; intros q; (split; [by left|intros [|(x & [] & _)]]). }
  cbn [predicted_paths]. destruct (Hl e (or_introl eq_refl)) as [q0 Hq0]. setoid_rewrite stands_for_cons.
  assert (Hl' : forall e, In e l -> exists q, denormalize_path (default e (strip_prefix INCLUDE_MANIFEST_PREFIX e)) ms = Ok q)
    by (intros x Hx; apply Hl; by right).
  destruct (strip_prefix INCLUDE_MANIFEST_PREFIX e) as [d|] eqn:Ed; cbn [default from_option is_some] in *; unfold id in *;
    rewrite Hq0; unfold mbind, result_bind; cbv beta iota.
  - destruct (IH files ({[q0]} ∪ directories) Hl') as (fs & ds & -> & Hf & Hd).
    exists fs, ds. split; [done|]. split; intros q; [rewrite Hf|rewrite Hd, elem_of_union, elem_of_singleton]; naive_solver.
  - destruct (IH ({[q0]} ∪ files) directories Hl') as (fs & ds & -> & Hf & Hd).
    exists fs, ds. split; [done|]. split; intros q; [rewrite Hf, elem_of_union, elem_of_singleton|rewrite Hd]; naive_solver.
Qed.

(** An input and its name, read back. *)
Lemma input_reads_back i c input n :
  validate_mappings (builder_new i c) = Ok () -> Forall (fun m => well_formed (root m) = true) (path_mappings c) ->
  well_formed (working_dir c) = true ->
  Forall (fun n => without "\" n = true) (names_of (snd (place c (input_path input)))) ->
  names_input (builder_new i c) (input_path input) n ->
  exists q, denormalize_path (default n (strip_prefix INCLUDE_MANIFEST_PREFIX n)) (ordered (path_mappings c)) = Ok q /\
    place c (input_path input) = (is_some (strip_prefix INCLUDE_MANIFEST_PREFIX n), resolved q).
Proof.
  intros Hv Hroots Hw Hb Hn. unfold names_input, place in *. destruct (manifest_directory _) as [d|].
  - destruct Hn as (n' & Hn & ->). rewrite strip_prefix_app. cbn in *.
    destruct (cc_name_leads_back i c _ _ Hv Hroots (well_formed_path_of d) Hw Hb Hn) as (q & Hq & He). exists q. by rewrite He.
  - destruct (builder_roots i c Hv Hroots) as (Ha & _ & _ & _ & Hu & _).
    rewrite (manifest_name_apart _ _ _ Hn (well_formed_path_of _) Hw Ha Hu). cbn in *.
    destruct (cc_name_leads_back i c _ _ Hv Hroots (well_formed_path_of _) Hw Hb Hn) as (q & Hq & He). exists q. by rewrite He.
Qed.

(** C12: A prediction leads back to the inputs it was made from: on the same
    roots it is read, the files it names are exactly those that were inputs, and
    the directories exactly those whose names were summarized, wherever links
    lead and whether a root or the system holds them. *)
Theorem cc_predictions_lead_back i c duration p :
  validate_mappings (builder_new i c) = Ok () -> Forall (fun m => well_formed (root m) = true) (path_mappings c) ->
  well_formed (working_dir c) = true -> prediction i c duration = Ok p ->
  (Z.of_nat (length (predicted_inputs p)) <= MAX_PREDICTED_INPUTS)%Z -> (Z.of_nat (length (predicted_environment p)) <= 4 * 1024)%Z ->
  Forall (fun input => Forall (fun n => without "\" n = true) (names_of (snd (place c (input_path input))))) (inputs c) ->
  exists files directories, read_prediction p (path_mappings c) = Ok (files, directories) /\
    (forall r, (exists q, q ∈ files /\ resolved q = r) <-> exists input, In input (inputs c) /\ place c (input_path input) = (false, r)) /\
    (forall r, (exists q, q ∈ directories /\ resolved q = r) <-> exists input, In input (inputs c) /\ place c (input_path input) = (true, r)).
Proof.
  intros Hv Hroots Hw Hp Hlen Henv Hback. destruct (builder_roots i c Hv Hroots) as (Ha & _).
  unfold prediction in Hp. destruct (fst (predict (builder_new i c) ∅)) as [l|] eqn:El; [|done]. injection Hp as <-.
  assert (Hr : returns (predict (builder_new i c)) (fun l => exists ns, Forall2 (fun input => names_input (builder_new i c) (input_path input)) (inputs c) ns /\ l = string_set ns)).
  { apply (returns_map _ string_set), returns_each. intros input _. by apply cc_returns_input. }
  destruct (Hr ∅ consistent_empty) as [_ Hret]. apply Hret in El as (ns & Hns & ->). cbn [predicted_inputs predicted_environment] in *.
  assert (Hfrom : forall n, In n (string_set ns) -> exists input, In input (inputs c) /\ names_input (builder_new i c) (input_path input) n).
  { intros n Hn. rewrite In_string_set in Hn. apply list_elem_of_In, list_elem_of_lookup in Hn as [k Hk].
    destruct (Forall2_lookup_r _ _ _ _ _ Hns Hk) as (input & Hi & Hx). exists input. split; [|done]. by eapply list_elem_of_In, list_elem_of_lookup_2. }
  assert (Hto : forall input, In input (inputs c) -> exists n, In n (string_set ns) /\ names_input (builder_new i c) (input_path input) n).
  { intros input Hi. destruct (Forall2_answer _ _ _ _ Hns Hi) as (n & Hx & Hin). exists n. by rewrite In_string_set. }
  assert (Hread : forall input n, In input (inputs c) -> names_input (builder_new i c) (input_path input) n -> exists q,
    denormalize_path (default n (strip_prefix INCLUDE_MANIFEST_PREFIX n)) (ordered (path_mappings c)) = Ok q /\
    place c (input_path input) = (is_some (strip_prefix INCLUDE_MANIFEST_PREFIX n), resolved q)).
  { intros input n Hi Hx. rewrite Forall_forall in Hback. eapply input_reads_back; [done..| |exact Hx]. by apply Hback, list_elem_of_In. }
  destruct (predicted_paths_spec (ordered (path_mappings c)) (string_set ns) ∅ ∅) as (fs & ds & Hpp & Hf & Hd).
  { intros n Hn. destruct (Hfrom n Hn) as (input & Hi & Hx). destruct (Hread input n Hi Hx) as (q & Hq & _). eauto. }
  assert (Hset : forall (directory : bool) (S : gset Path), (forall q, q ∈ S <-> q ∈ (∅ : gset Path) \/ stands_for (ordered (path_mappings c)) (string_set ns) directory q) ->
    forall r, (exists q, q ∈ S /\ resolved q = r) <-> exists input, In input (inputs c) /\ place c (input_path input) = (directory, r)).
  { intros directory S HS r. split.
    - intros (q & [Hq|(n & Hn & Hdir & Hq)]%HS & <-); [set_solver|]. destruct (Hfrom n Hn) as (input & Hi & Hx).
      destruct (Hread input n Hi Hx) as (q' & Hq' & Hpl). exists input. split; [done|]. congruence.
    - intros (input & Hi & Hpl). destruct (Hto input Hi) as (n & Hn & Hx). destruct (Hread input n Hi Hx) as (q & Hq & Hpl').
      exists q. rewrite Hpl in Hpl'. injection Hpl' as Hdir ->. split; [|done]. apply HS. right. exists n. done. }
  exists fs, ds. split; [|split; by apply Hset].
  unfold read_prediction. cbn. apply Z.leb_le in Hlen, Henv. rewrite Z.leb_antisym in Hlen, Henv. apply negb_true_iff in Hlen, Henv.
  by rewrite Hlen, Henv.
Qed.
End Predictions.

(** ** Some compilations *)

#[export] Instance cc_compiler_eq_dec : EqDecision CcCompilerDescriptor.
Proof. solve_decision. Defined.
#[export] Instance preprocessing_eq_dec : EqDecision PreprocessingContext.
Proof. solve_decision. Defined.
#[export] Instance cc_binding_eq_dec : EqDecision CcPathBinding.
Proof. solve_decision. Defined.
#[export] Instance cc_descriptor_eq_dec : EqDecision CcActionDescriptor.
Proof. solve_decision. Defined.
#[export] Instance cc_argument_countable : Countable Argument.
Proof.
  refine (inj_countable'
    (fun a => match a with
              | Plain v => inl (inl v) | PathArgument f p => inl (inr (f, p))
              | PrefixMap f x y => inr (inl (f, x, y)) | Source p => inr (inr p) end)
    (fun s => match s with
              | inl (inl v) => Plain v | inl (inr (f, p)) => PathArgument f p
              | inr (inl (f, x, y)) => PrefixMap f x y | inr (inr p) => Source p end) _).
  by intros [].
Defined.
#[export] Instance cc_compiler_countable : Countable CcCompilerDescriptor.
Proof.
  refine (inj_countable' (fun c => (d_assembler c, d_family c, d_target c, d_version_text c))
    (fun t => mkCompilerDescriptor t.1.1.1 t.1.1.2 t.1.2 t.2) _). by intros [].
Defined.
#[export] Instance preprocessing_countable : Countable PreprocessingContext.
Proof.
  refine (inj_countable' (fun c => (pre_working_dir c, pre_arguments c, pre_roots c)) (fun t => mkPreprocessing t.1.1 t.1.2 t.2) _).
  by intros [].
Defined.
#[export] Instance cc_binding_countable : Countable CcPathBinding.
Proof.
  refine (inj_countable' (fun c => (bound_working_dir c, bound_arguments c, bound_roots c)) (fun t => mkBinding t.1.1 t.1.2 t.2) _).
  by intros [].
Defined.
#[export] Instance cc_descriptor_countable : Countable CcActionDescriptor.
Proof.
  refine (inj_countable'
    (fun d => (path_binding d, d_version d, d_kind d, d_adapter_version d, assembly_input_model d, preprocessing d, d_compiler d,
               d_arguments d, d_environment d, d_inputs d))
    (fun t => mkDescriptor t.1.1.1.1.1.1.1.1.1 t.1.1.1.1.1.1.1.1.2 t.1.1.1.1.1.1.1.2 t.1.1.1.1.1.1.2 t.1.1.1.1.1.2 t.1.1.1.1.2
                t.1.1.1.2 t.1.1.2 t.1.2 t.2) _). by intros [].
Defined.

Module CcActionDemo.

(** A workspace reached through a link, beside system headers. *)
Definition tree : Tree := mkTree
  (map path_of ["/home"; "/home/me"; "/home/me/a=b"; "/home/me/a=b/x"; "/home/me/src"; "/home/me/src/a.c"; "/home/me/src/a.h";
                "/usr"; "/usr/include"; "/usr/include/stdio.h"])
  [(path_of "/work", path_of "/home/me")] [].

#[export] Instance disk : Disk := tree_disk tree.
#[export] Instance laws : DiskLaws := tree_laws tree eq_refl.
#[export] Instance no_developer : Developer := [].

(** A serializer that keeps everything. *)
#[export] Instance serializer : CcSerializer := {|
  cc_action_json d := Ok [Zpos (encode d)];
  cc_invocation_json d := Ok [];
  cc_hash_hex bytes := match bytes with [Zpos p] => pretty (Npos p) | _ => "" end;
|}.

#[export] Instance serializer_laws : CcSerializerLaws.
Proof.
  constructor. intros d d' x x' [= <-] [= <-] Hh. simpl in Hh.
  apply (inj pretty) in Hh. injection Hh as Hh. by apply (inj encode).
Qed.

Definition digest_of (c : Ascii.ascii) : Digest := mkDigest "blake3" (String.string_of_list_ascii (replicate 64 c)) 10.

Definition gcc : CcCompilerIdentity := mkCompiler Gcc "gcc version 14" "x86_64-linux-gnu" "GNU assembler 2.42".

Definition at_dir (dir : string) (inputs : list CcActionInput) : CcActionContext :=
  mkContext gcc (path_of dir) [mkMapping (path_of "/work") "WORKSPACE"] (<["LANG" := None]> ∅) inputs.

Definition parsed (args : list string) : CcInvocation :=
  match parse args with Ok i => i | Err _ => mkInvocation [] "" "" [] [] C false None None None [] end.

Definition described (i : CcInvocation) (c : CcActionContext) : CcActionDescriptor :=
  match fst (build_descriptor (builder_new i c) false ∅) with
  | Ok d => d
  | Err _ => mkDescriptor None 0 "" 0 None None (mkCompilerDescriptor "" "" "" "") [] ∅ []
  end.

Definition action_of (i : CcInvocation) (c : CcActionContext) : CcAction :=
  let bytes := [Zpos (encode (described i c))] in mkAction (blake3 cc_hash_hex bytes) bytes.

Lemma action_built i c : is_ok (fst (build_descriptor (builder_new i c) false ∅)) = true -> action i c = Ok (action_of i c).
Proof.
  unfold action, action_with_path_binding, action_of, build, described, mbind, Build_bind.
  by destruct (build_descriptor _ false ∅) as [[d|] aliases].
Qed.

Lemma action_of_same i c i' c' : described i c = described i' c' -> action_of i c = action_of i' c'.
Proof. unfold action_of. by intros ->. Qed.

(** One compilation seen from two directories. *)
Definition from_root : CcActionContext := at_dir "/work"
  [mkInput "/work/src/a.c" (digest_of "1"); mkInput "src/a.h" (digest_of "2"); mkInput "/usr/include/stdio.h" (digest_of "3");
   mkInput "@include-manifest:/work/src" (digest_of "4")].
Definition from_source : CcActionContext := at_dir "/home/me/src"
  [mkInput "@include-manifest:../src" (digest_of "4"); mkInput "/usr/include/stdio.h" (digest_of "3"); mkInput "a.c" (digest_of "1");
   mkInput "/home/me/src/a.h" (digest_of "2")].
Definition by_root : CcInvocation := parsed ["-c"; "-Isrc"; "src/a.c"; "-o"; "a.o"; "-MD"].
Definition by_source : CcInvocation := parsed ["-c"; "-I"; "."; "a.c"; "-o../a.o"].

Lemma same_descriptor : described by_root from_root = described by_source from_source.
Proof. vm_compute. reflexivity. Qed.

Lemma cc_equal_keys_agree_witness :
  exists input, In input (inputs from_source) /\ place from_root "src/a.h" = place from_source (input_path input).
Proof.
  pose proof (action_built by_root from_root ltac:(vm_compute; reflexivity)) as Ha.
  pose proof (action_built by_source from_source ltac:(vm_compute; reflexivity)) as Ha'.
  destruct (cc_equal_keys_agree by_root from_root false (action_of by_root from_root) by_source from_source false
    (action_of by_source from_source) eq_refl eq_refl Ha Ha' (f_equal action_digest (action_of_same _ _ _ _ same_descriptor)))
    as (_ & _ & _ & _ & _ & _ & _ & _ & Hin).
  destruct (Hin (mkInput "src/a.h" (digest_of "2"))) as (input & Hi & _ & _ & Hp); [vm_compute; auto 10|].
  exists input. split; [exact Hi|]. apply Hp; [reflexivity|by repeat constructor].
Defined.

Definition recorded : CcInputPrediction :=
  match prediction by_root from_root 5 with Ok p => p | Err _ => mkPrediction false 0 [] [] 0 "" end.

Lemma cc_predictions_lead_back_witness :
  predicted_inputs recorded = ["${WORKSPACE}/src/a.c"; "${WORKSPACE}/src/a.h"; "/usr/include/stdio.h"; "@include-manifest:${WORKSPACE}/src"] /\
  exists files directories, read_prediction recorded (path_mappings from_root) = Ok (files, directories) /\
    exists q, q ∈ directories /\ resolved q = path_of "/home/me/src".
Proof.
  split; [vm_compute; reflexivity|].
  destruct (cc_predictions_lead_back by_root from_root 5 recorded) as (files & directories & Hr & _ & Hd).
  - vm_compute. reflexivity.
  - by repeat constructor.
  - reflexivity.
  - vm_compute. reflexivity.
  - apply Z.leb_le. vm_compute. reflexivity.
  - apply Z.leb_le. vm_compute. reflexivity.
  - apply (bool_decide_eq_true_1 _). vm_compute. reflexivity.
  - exists files, directories. split; [exact Hr|]. apply Hd. exists (mkInput "@include-manifest:/work/src" (digest_of "4")).
    split; [vm_compute; auto 10|]. vm_compute. reflexivity.
Defined.

(** The text of a prefix map does not say where its source ends: in a directory
    whose name has an equals sign, a relative prefix and a longer one are keyed
    alike though the compiler rewrites other paths. *)
Definition in_odd : CcActionContext := at_dir "/work/a=b" [mkInput "/work/src/a.c" (digest_of "1")].
Definition maps_relative : CcInvocation := parsed ["-c"; "/work/src/a.c"; "-o"; "a.o"; "-ffile-prefix-map=x=t"].
Definition maps_absolute : CcInvocation := parsed ["-c"; "/work/src/a.c"; "-o"; "a.o"; "-ffile-prefix-map=/work/a=b/x=t"].

Lemma prefix_maps_collide :
  arguments maps_relative <> arguments maps_absolute /\ is_ok (action maps_relative in_odd) = true /\
  action maps_relative in_odd = action maps_absolute in_odd.
Proof.
  split; [vm_compute; discriminate|].
  pose proof (action_built maps_relative in_odd ltac:(vm_compute; reflexivity)) as Ha.
  pose proof (action_built maps_absolute in_odd ltac:(vm_compute; reflexivity)) as Ha'.
  assert (Hd : described maps_relative in_odd = described maps_absolute in_odd) by (vm_compute; reflexivity).
  rewrite Ha, Ha'. split; [reflexivity|exact (f_equal Ok (action_of_same _ _ _ _ Hd))].
Qed.

End CcActionDemo.
