(* ===== verification/CcInputs.v ===== *)
(** * The inputs of a C compilation

    Models the rest of [src/crates/mbx-cache-cc/src/depfile.rs] and the checks
    of [src/crates/mbx/src/cc.rs] around it.  [collect] hashes the files a
    compilation read, and summarizes the directories it searched by the names
    beneath them a directive could include ([include_manifest]), so that a header
    appearing where it would shadow another changes the key.  The same summaries
    are taken before and after the compiler runs ([manifest_snapshot]), and a
    difference keeps the result out of the cache ([verify_search_path_unchanged]).

    System calls answer as in [FileDigest.v] and [DepInfo.v]: each may see a
    later world.  The files a compiler lists, and the roots of Microsoft's
    tools, are arguments.  [CcShadow.v] has the theorems. *)

From stdpp Require Import base list gmap strings sorting.
From Stdlib Require Import ZArith Lia Ascii.
From S2P Require Import Prelude Protocol Strings PathMap RustcArgs FileDigest DepInfo CcArgs CcAction.
Local Open Scope Z_scope.

Definition MAX_INPUT_BYTES : Z := 2 * 1024 * 1024 * 1024.
Definition MAX_MANIFEST_ENTRIES : Z := 16 * 1024.

Definition INCLUDABLE_EXTENSIONS : list string :=
  ["c"; "c++"; "cc"; "cpp"; "cxx"; "def"; "gch"; "h"; "h++"; "hh"; "hpp"; "hxx"; "inc"; "inl"; "ipp"; "pch"; "s"; "tcc"]%string.

Definition hidden (name : string) : bool := has_prefix "." name.

(** Whether a directive could include a file of this name. *)
Definition is_includable (name : string) : bool :=
  match rsplit_once "." name with
  | Some (stem, extension) =>
      if String.eqb stem "" then negb (hidden name) else one_of (to_ascii_lowercase extension) INCLUDABLE_EXTENSIONS
  | None => negb (hidden name)
  end.

Section Inputs.
Context `{Directories} `{!Links} `{Hashes} `{!DigestCache}.

(** What an operation on files does. *)
Definition Look (A : Type) : Type := Process -> result CcBypassReason A * Process.

#[export] Instance Look_ret : MRet Look := fun A a s => (Ok a, s).
#[export] Instance Look_bind : MBind Look := fun A B f m s =>
  match m s with (Ok a, s) => f a s | (Err e, s) => (Err e, s) end.

Definition answer {A} (r : result CcBypassReason A) : Look A := fun s => (r, s).

(** A call whose error bypasses the cache and names the file. *)
Definition reading {A} (p : Path) (m : Io A) : Look A := fun s =>
  match m s with (Ok a, s) => (Ok a, s) | (Err e, s) => (Err (InputRead p (io_message e)), s) end.

(** A call whose result is looked at. *)
Definition asking {A} (m : Io A) : Look (result IoError A) := fun s =>
  let '(r, s) := m s in (Ok r, s).

Definition kind_of (p : Path) : Look (result IoError FileKind) := asking (call (fun w => link_kind w p)).

(** ** The directories searched *)

Fixpoint identity_from (components normalized : Path) : Look (option Path) :=
  match components with
  | [] => mret (Some normalized)
  | CurDir :: components => identity_from components normalized
  | ParentDir :: components =>
      kind ← kind_of normalized;
      match kind with
      | Ok Directory => identity_from components (pop normalized)
      | _ => mret None
      end
  | component :: components => identity_from components (push normalized [component])
  end.

(** The directory without [..], where what it leaves is a directory and no link. *)
Definition manifest_directory_identity (directory : Path) : Look (option Path) := identity_from directory [].

Fixpoint covers_from (current relative : Path) : Look bool :=
  match relative with
  | [] => mret true
  | component :: relative =>
      let current := push current [component] in
      kind ← kind_of current;
      match kind with
      | Ok Directory => covers_from current relative
      | _ => mret false
      end
  end.

(** Whether the walk of [ancestor] comes to [descendant]. *)
Definition manifest_covers (ancestor descendant : Path) : Look bool :=
  match strip_path ancestor descendant with
  | None => mret false
  | Some relative => covers_from ancestor relative
  end.

Definition option_path_le (p q : option Path) : bool :=
  match p, q with None, _ => true | Some _, None => false | Some p, Some q => path_le p q end.

(** The order of the directories: by depth, then by identity, then by spelling. *)
Definition depth (x : Path * option Path) : nat := length (default x.1 x.2).
Definition directory_le (x y : Path * option Path) : bool :=
  (depth x <? depth y)%nat ||
  ((depth x =? depth y)%nat &&
   if bool_decide (x.2 = y.2) then path_le x.1 y.1 else option_path_le x.2 y.2).
Definition directory_before (x y : Path * option Path) : Prop := directory_le x y = true.
#[export] Instance directory_before_dec : RelDecision directory_before.
Proof. intros x y. unfold directory_before. apply _. Defined.

Fixpoint identify_directories (l : list Path) : Look (list (Path * option Path)) :=
  match l with
  | [] => mret []
  | directory :: l =>
      normalized ← manifest_directory_identity directory;
      identified ← identify_directories l;
      mret ((directory, normalized) :: identified)
  end.

Fixpoint any_covers (minimal : list (Path * option Path)) (normalized : option Path) : Look bool :=
  match minimal with
  | [] => mret false
  | (_, ancestor) :: minimal =>
      covered ← match ancestor, normalized with
                | Some ancestor, Some normalized => manifest_covers ancestor normalized
                | _, _ => mret false
                end;
      if covered : bool then mret true else any_covers minimal normalized
  end.

Fixpoint keep_minimal (minimal l : list (Path * option Path)) : Look (list (Path * option Path)) :=
  match l with
  | [] => mret minimal
  | (directory, normalized) :: l =>
      covered ← any_covers minimal normalized;
      keep_minimal (if covered : bool then minimal else (minimal ++ [(directory, normalized)])%list) l
  end.

Definition minimal_manifest_directories (directories : gset Path) : Look (list Path) :=
  identified ← identify_directories (sorted_paths directories);
  minimal ← keep_minimal [] (merge_sort directory_before identified);
  mret (map fst minimal).

(** ** The names beneath a directory *)

(** The loop over a listing: directories wait with the prefix of their names,
    and includable names are counted against the budget. *)
Fixpoint manifest_entries (current : Path) (prefix : string) (entries : list (result IoError (string * result IoError FileKind)))
    (pending : list (Path * string)) (names : list string) (budget : Z)
    : result CcBypassReason (list (Path * string) * list string * Z) :=
  match entries with
  | [] => Ok (pending, names, budget)
  | Err e :: _ => Err (InputRead current (io_message e))
  | Ok (name, kind) :: entries =>
      let path := push current [Normal name] in
      _ ← ok_or (BypassNonUtf8Path path) (to_str name);
      let relative := if String.eqb prefix "" then name else (prefix ++ "/" ++ name)%string in
      match kind with
      | Err e => Err (InputRead path (io_message e))
      | Ok Directory => manifest_entries current prefix entries ((path, relative) :: pending) names budget
      | Ok _ =>
          if negb (is_includable name) then manifest_entries current prefix entries pending names budget
          else if MAX_MANIFEST_ENTRIES <? budget + 1 then Err TooManyInputs
          else manifest_entries current prefix entries pending (names ++ [relative]) (budget + 1)
      end
  end.

(** The walk: [rounds] bounds the directories it enters. *)
Fixpoint manifest_walk (rounds : nat) (pending : list (Path * string)) (names : list string) (budget : Z)
    : Look (list string * Z) :=
  match pending with
  | [] => mret (names, budget)
  | (current, prefix) :: pending =>
      match rounds with
      | O => answer (Err (InputRead current "too many directories"))
      | S rounds =>
          listing ← asking (call (fun w => list_directory w current));
          match listing with
          | Err NotFound => manifest_walk rounds pending names budget
          | Err e => answer (Err (InputRead current (io_message e)))
          | Ok entries =>
              '(pending, names, budget) ← answer (manifest_entries current prefix entries pending names budget);
              manifest_walk rounds pending names budget
          end
      end
  end.

Definition newline : string := String line_feed "".

Definition manifest_digest (names : list string) : Digest :=
  blake3 blake3_hex (ascii_bytes (join newline (merge_sort string_le names))).

(** The digest, and the entries counted so far. *)
Definition include_manifest (rounds : nat) (directory : Path) (budget : Z) : Look (Digest * Z) :=
  '(names, budget) ← manifest_walk rounds [(directory, ""%string)] [] budget;
  mret (manifest_digest names, budget).

Fixpoint include_manifests (rounds : nat) (directories : list Path) (budget : Z) : Look (list (Path * Digest)) :=
  match directories with
  | [] => mret []
  | directory :: directories =>
      '(digest, budget) ← include_manifest rounds directory budget;
      manifests ← include_manifests rounds directories budget;
      mret ((directory, digest) :: manifests)
  end.

Definition manifest_snapshot (rounds : nat) (directories : gset Path) : Look (gmap Path Digest) :=
  minimal ← minimal_manifest_directories directories;
  manifests ← include_manifests rounds minimal 0;
  mret (list_to_map manifests).

(** ** Hashing the files *)

Record CcDiscoveredInputs := mkCcDiscovered {
  cc_working_dir : Path;
  cc_inputs : list CcActionInput;
  cc_identities : list (option FileIdentity)
}.

Fixpoint identify_files (files : list Path) (total_bytes : Z) : Look (list (Path * option FileIdentity)) :=
  match files with
  | [] => mret []
  | path :: files =>
      m ← reading path (metadata path);
      if negb (m_is_file m) then answer (Err (InputRead path "input is not a regular file"))
      else
        let total_bytes := saturating_add total_bytes (m_len m) in
        if MAX_INPUT_BYTES <? total_bytes then answer (Err TooManyInputs)
        else
          identity ← reading path (for_digest_cache path m);
          identified ← identify_files files total_bytes;
          mret ((path, identity) :: identified)
  end.

(** What the ledger knows of a file that is still as it was: its digest, or
    that it has a timestamp macro. *)
Definition cached_input (path : Path) (identity : option FileIdentity) (r : FileDigestResolution)
    : Look (option (result CcBypassReason Digest)) :=
  match r, identity with
  | FileDigest digest, Some i =>
      if len i =? size digest then
        described ← reading path (or_else false (still_describes i));
        mret (if described : bool then Some (Ok digest) else None)
      else mret None
  | EmbeddedTimestampMacro, Some i =>
      described ← reading path (or_else false (still_describes i));
      mret (if described : bool then Some (Err (BypassEmbeddedTimestampMacro path)) else None)
  | _, _ => mret None
  end.

Definition resolved_digest (path : Path) (r : FileDigestResolution) : result CcBypassReason Digest :=
  match r with FileDigest digest => Ok digest | _ => Err (BypassEmbeddedTimestampMacro path) end.

(** What may be recorded of a file that was read. *)
Definition worth_recording (r : FileDigestResolution) (identity : option FileIdentity) : list RecordedFileDigest :=
  match r, identity with
  | FileDigest digest, Some file => if len file =? size digest then [mkRecorded file digest] else []
  | _, _ => []
  end.

Definition read_input (fuel : nat) (path : Path) : Look (Digest * option FileIdentity * list RecordedFileDigest) :=
  observed ← reading path (digest_file_validated fuel CcInput path);
  match observed with
  | Some v =>
      digest ← answer (resolved_digest path (resolution v));
      mret (digest, cache_identity_of v, worth_recording (resolution v) (cache_identity_of v))
  | None =>
      r ← reading path (digest_file fuel CcInput path);
      digest ← answer (resolved_digest path r);
      mret (digest, None, [])
  end.

Fixpoint digest_files (fuel : nat) (identified : list (Path * option FileIdentity)) (recorded : list FileDigestResolution)
    : Look (list (CcActionInput * option FileIdentity) * list RecordedFileDigest) :=
  match identified with
  | [] => mret ([], [])
  | (path, identity) :: identified =>
      let '(r, recorded) := next_resolution identity recorded in
      cached ← cached_input path identity r;
      '(digest, observed, fresh) ← match cached with
        | Some cached => digest ← answer cached; mret (digest, identity, [])
        | None => read_input fuel path
        end;
      '(rest, more) ← digest_files fuel identified recorded;
      mret ((mkInput (render path) digest, observed) :: rest, (fresh ++ more)%list)
  end.

(** [CcDiscoveredInputs::collect]. *)
Definition collect (fuel rounds : nat) (working_dir : Path) (files directories : gset Path) : Look CcDiscoveredInputs :=
  if negb (is_absolute working_dir) then answer (Err (RelativeWorkingDirectory working_dir))
  else
    directories ← minimal_manifest_directories directories;
    if MAX_PREDICTED_INPUTS <? Z.of_nat (Datatypes.length (elements files) + Datatypes.length directories) then
      answer (Err TooManyInputs)
    else
      identified ← identify_files (sorted_paths files) 0;
      let queries := omap snd identified in
      recorded ← reading working_dir (call (fun w => Ok (resolve w CcInput queries)));
      '(inputs, fresh) ← digest_files fuel identified recorded;
      _ ← match fresh with [] => mret () | _ => reading working_dir (record CcInput fresh) end;
      manifests ← include_manifests rounds directories 0;
      mret (mkCcDiscovered (normalize_components working_dir)
              (map fst inputs ++ map (fun m => mkInput (INCLUDE_MANIFEST_PREFIX ++ render m.1) m.2) manifests)
              (map snd inputs ++ map (fun _ => None) manifests)).

(** [CcInputPrediction::discover]. *)
Definition discover_predicted `{Developer} (fuel rounds : nat) (p : CcInputPrediction) (working_dir : Path)
    (path_mappings : list PathMapping) : Look CcDiscoveredInputs :=
  '(files, directories) ← answer (read_prediction p path_mappings);
  collect fuel rounds working_dir files directories.

(** ** Checking the files *)

Definition is_manifest_input (path : string) : bool := is_some (manifest_directory path).

(** [CcDiscoveredInputs::files]. *)
Definition discovered_files (d : CcDiscoveredInputs) : list CcActionInput :=
  List.filter (fun input => negb (is_manifest_input (input_path input))) (cc_inputs d).

Fixpoint check_files (started_at : Z) (before : gmap Path FileSnapshot) (l : list CcActionInput) : Look unit :=
  match l with
  | [] => mret ()
  | input :: l =>
      let p := path_of (input_path input) in
      match option_filter proves_content_change (before !! p) with
      | Some previous =>
          m ← reading p (metadata p);
          identity ← reading p (for_digest_cache p m);
          if matches previous (option_or identity (describe p m)) (input_digest input) then check_files started_at before l
          else answer (Err (InputModifiedDuringCompilation p))
      | None =>
          m ← reading p (metadata p);
          modified ← reading p (lift_io (modified_of m));
          if started_at <=? modified then answer (Err (InputModifiedDuringCompilation p))
          else check_files started_at before l
      end
  end.

Definition cc_verify_not_modified_since_with_snapshots (d : CcDiscoveredInputs) (started_at : Z)
    (before : gmap Path FileSnapshot) : Look unit := check_files started_at before (discovered_files d).

Definition cc_verify_not_modified_since (d : CcDiscoveredInputs) (started_at : Z) : Look unit :=
  cc_verify_not_modified_since_with_snapshots d started_at ∅.

Definition cc_verify_not_modified_since_with_identities (d : CcDiscoveredInputs) (started_at : Z)
    (before : gmap Path FileIdentity) : Look unit :=
  cc_verify_not_modified_since_with_snapshots d started_at (snapshot_of <$> before).

Fixpoint verify_files (fuel : nat) (l : list (CcActionInput * option FileIdentity)) : Look unit :=
  match l with
  | [] => mret ()
  | (input, identity) :: l =>
      if is_manifest_input (input_path input) then verify_files fuel l
      else
        let p := path_of (input_path input) in
        still ← match identity with
                | Some i => if can_skip_content_verification i then reading p (still_describes i) else mret false
                | None => mret false
                end;
        if still : bool then verify_files fuel l
        else
          same ← reading p (matches_file fuel (input_digest input) p);
          if negb same then answer (Err (InputChanged p)) else verify_files fuel l
  end.

(** [CcDiscoveredInputs::verify]. *)
Definition cc_verify (fuel : nat) (d : CcDiscoveredInputs) : Look unit :=
  verify_files fuel (zip (cc_inputs d)
    (cc_identities d ++ repeat None (Datatypes.length (cc_inputs d) - Datatypes.length (cc_identities d)))).

(** [CcDiscoveredInputs::apply_to]. *)
Definition cc_apply_to (d : CcDiscoveredInputs) (c : CcActionContext) : result CcBypassReason CcActionContext :=
  if negb (bool_decide (normalize_components (working_dir c) = cc_working_dir d)) then Err DiscoveryWorkingDirectory
  else Ok (mkContext (compiler c) (working_dir c) (path_mappings c) (environment c) (inputs c ++ cc_inputs d)).

(** ** Directives of the assembler *)

Definition ASSEMBLER_INPUT_DIRECTIVES : list (list Z) := map ascii_bytes [".include"; ".incbin"; ".sinclude"]%string.

Definition longest_directive : nat := foldr Nat.max 0%nat (map (Datatypes.length (A := Z)) ASSEMBLER_INPUT_DIRECTIVES).

Definition upper_byte (b : Z) : Z := if (97 <=? b) && (b <=? 122) then b - 32 else b.
Definition lower_byte (b : Z) : Z := if (65 <=? b) && (b <=? 90) then b + 32 else b.

(** The candidate a window has at [start], when it is long enough. *)
Definition candidate_at (needle window : list Z) (start : nat) : bool :=
  let candidate := take (Datatypes.length needle) (drop start window) in
  (Datatypes.length candidate =? Datatypes.length needle)%nat &&
  bool_decide (map lower_byte candidate = map lower_byte needle).

(** The offsets of the needle's second byte, in either case, and the needle
    around it. *)
Definition directive_in (needle window : list Z) : bool :=
  let letter := nth 1 needle 0 in
  existsb (fun offset =>
      let byte := nth offset window 0 in
      ((byte =? letter) || (byte =? upper_byte letter)) &&
      match offset with O => false | S start => candidate_at needle window start end)
    (seq 0 (Datatypes.length window)).

Definition finds_directive (window : list Z) : bool := existsb (fun needle => directive_in needle window) ASSEMBLER_INPUT_DIRECTIVES.

(** The loop, from the bytes read so far and the window carried over. *)
Fixpoint directive_loop (fuel : nat) (path : Path) (handle : Object) (position : Z) (window : list Z) : Look bool :=
  match fuel with
  | O => answer (Err (InputRead path "still growing"))
  | S fuel =>
      chunk ← reading path (call (fun w => read_at w handle position));
      match chunk with
      | [] => mret false
      | _ =>
          let window := (window ++ chunk)%list in
          if finds_directive window then mret true
          else
            let keep := (Datatypes.length window - (longest_directive - 1))%nat in
            directive_loop fuel path handle (position + Z.of_nat (Datatypes.length chunk)) (drop keep window)
      end
  end.

Definition contains_assembler_input_directive (fuel : nat) (path : Path) : Look bool :=
  handle ← reading path (call (fun w => open_file w path));
  directive_loop fuel path handle 0 [].

(** [CcInvocation::validate_discovered_inputs], reading the files. *)
Fixpoint scan_files (fuel : nat) (paths : list Path) : Look unit :=
  match paths with
  | [] => mret ()
  | path :: paths =>
      found ← contains_assembler_input_directive fuel path;
      if found : bool then answer (Err (AssemblerInputDirective path)) else scan_files fuel paths
  end.

Definition validate_files (fuel : nat) (i : CcInvocation) (paths : list Path) : Look unit :=
  if negb (preprocessed_assembly i) then mret () else scan_files fuel paths.

(** ** Around one compilation *)

Section Compile.
Context `{Developer}.
(** The directories [VCINSTALLDIR], [WindowsSdkDir] and [UniversalCRTSdkDir] name. *)
Context (toolkits : list Path).

Definition is_system_include_path (path : Path) : bool := is_system_path path || existsb (starts_with path) toolkits.

(** A path of the command line, where the compiler runs. *)
Definition absolute (path : string) (working_dir : Path) : Path :=
  if is_absolute (path_of path) then path_of path else push working_dir (path_of path).

Definition not_system (directories : list Path) : gset Path :=
  list_to_set (List.filter (fun directory => negb (is_system_include_path directory)) directories).

Definition searchable_directories (i : CcInvocation) (working_dir : Path) : gset Path :=
  not_system
    (map (fun directory => absolute directory working_dir) (include_dirs i) ++
     match parent (path_of (source i)) with
     | Some parent => [if is_absolute parent then parent else push working_dir parent]
     | None => []
     end).

Definition manifest_directories (i : CcInvocation) (working_dir : Path) (files : gset Path) : gset Path :=
  not_system
    (map (fun directory => absolute directory working_dir) (include_dirs i) ++ omap parent (elements files)).

Fixpoint first_changed (after : gmap Path Digest) (before : list (Path * Digest)) : result CcBypassReason unit :=
  match before with
  | [] => Ok ()
  | (directory, digest) :: before =>
      if bool_decide (after !! directory = Some digest) then first_changed after before
      else Err (SearchPathModifiedDuringCompilation directory)
  end.

(** The entries of a snapshot in the order of their directories. *)
Definition snapshot_entries (m : gmap Path Digest) : list (Path * Digest) :=
  omap (fun directory => pair directory <$> m !! directory) (sorted_paths (dom m)).

Definition verify_search_path_unchanged (rounds : nat) (searchable : gset Path) (before : result CcBypassReason (gmap Path Digest))
    : Look unit :=
  before ← answer before;
  after ← manifest_snapshot rounds searchable;
  answer (first_changed after (snapshot_entries before)).

(** [discover], given the files the compiler listed. *)
Definition cc_discover (fuel rounds : nat) (i : CcInvocation) (c : CcActionContext)
    (dependencies : result CcBypassReason (list string)) : Look CcDiscoveredInputs :=
  listed ← answer dependencies;
  let files : gset Path := list_to_set (map (fun path => absolute path (working_dir c)) (listed ++ required_inputs i)) in
  _ ← validate_files fuel i (sorted_paths files);
  collect fuel rounds (working_dir c) files (manifest_directories i (working_dir c) files).

(** What [publish] finds out before it makes the key. *)
Definition confirmed_context (fuel rounds : nat) (i : CcInvocation) (c : CcActionContext)
    (dependencies : result CcBypassReason (list string)) (compilation_started : Z) (input_snapshots : gmap Path FileSnapshot)
    (searchable : gset Path) (before : result CcBypassReason (gmap Path Digest)) : Look CcActionContext :=
  discovered ← cc_discover fuel rounds i c dependencies;
  _ ← cc_verify_not_modified_since_with_snapshots discovered compilation_started input_snapshots;
  _ ← verify_search_path_unchanged rounds searchable before;
  _ ← cc_verify fuel discovered;
  answer (cc_apply_to discovered c).

End Compile.
End Inputs.
