(* ===== verification/CcDirectives.v ===== *)
(** * Preprocessed assembly that reads other files

    [contains_assembler_input_directive] of [CcInputs.v] reads a file in pieces
    and looks for [.include], [.incbin] and [.sinclude] in a window carried from
    one piece to the next.  It finds exactly what a search of the whole file
    would, whatever the case of the letters and however the reads are cut. *)

From stdpp Require Import base list gmap strings sorting.
From Stdlib Require Import ZArith Lia Ascii.
From S2P Require Import Prelude Protocol Strings PathMap RustcArgs FileDigest DepInfo CcArgs CcAction CcInputs.
Local Open Scope string_scope.

(** ** The scan for directives *)

(** The file names a directive, in any case. *)
Definition names_directive (b : list Z) : bool :=
  existsb (fun needle => occurs needle (map lower_byte b)) ASSEMBLER_INPUT_DIRECTIVES.

(** A directive is a dot and lower-case letters. *)
Definition plain_needle (needle : list Z) : Prop :=
  map lower_byte needle = needle /\ exists dot letter rest, needle = dot :: letter :: rest /\ (97 <= letter <= 122)%Z.

Lemma directives_are_plain : Forall (fun needle => plain_needle needle /\ (length needle <= longest_directive)%nat) ASSEMBLER_INPUT_DIRECTIVES.
Proof.
  repeat constructor; try (vm_compute; reflexivity || lia); cbn; try (do 3 eexists; split; [reflexivity|lia]).
Qed.

Lemma candidate_at_spec needle window start : map lower_byte needle = needle ->
  candidate_at needle window start = true <->
  take (length needle) (drop start (map lower_byte window)) = needle.
Proof.
  intros Hn. unfold candidate_at. rewrite andb_true_iff, Nat.eqb_eq, bool_decide_eq_true, Hn.
  rewrite skipn_map, firstn_map. split; [by intros []|]. intros He. split; [|done].
  apply (f_equal length) in He. by rewrite length_map in He.
Qed.

Lemma lower_letter b letter : (97 <= letter <= 122)%Z -> lower_byte b = letter ->
  (b =? letter)%Z || (b =? upper_byte letter)%Z = true.
Proof. unfold lower_byte, upper_byte. intros Hl. repeat case_match; intros; apply orb_true_iff; rewrite !Z.eqb_eq; lia. Qed.

Lemma directive_in_occurs needle window : plain_needle needle ->
  directive_in needle window = occurs needle (map lower_byte window).
Proof.
  intros (Hn & dot & letter & rest & He & Hl). apply eq_true_iff_eq. unfold directive_in.
  rewrite existsb_exists, occurs_spec. split.
  - intros ([|start] & _ & [_ Hc]%andb_prop); [done|]. apply candidate_at_spec in Hc; [|done].
    exists (take start (map lower_byte window)), (drop (length needle) (drop start (map lower_byte window))).
    rewrite <- Hc at 1. by rewrite take_drop, take_drop.
  - intros (before & after & Hb). exists (S (length before)).
    assert (Hlen : (S (length before) < length window)%nat).
    { apply (f_equal length) in Hb. rewrite length_map, !length_app, He in Hb. cbn in Hb. lia. }
    split; [apply in_seq; lia|]. apply andb_true_intro. split.
    + rewrite He. cbn [nth]. apply lower_letter; [done|].
      change 0%Z with (lower_byte 0). rewrite <- map_nth, Hb, He.
      rewrite app_nth2 by lia. by replace (S (length before) - length before)%nat with 1%nat by lia.
    + apply candidate_at_spec; [done|]. by rewrite Hb, drop_app_length, take_app_length.
Qed.

Lemma finds_directive_names window : finds_directive window = names_directive window.
Proof.
  unfold finds_directive, names_directive. induction directives_are_plain as [|needle l [Hp _] _ IH]; [done|].
  cbn [existsb]. by rewrite directive_in_occurs, IH.
Qed.

Lemma names_directive_window before window chunk :
  before = [] \/ (longest_directive - 1 <= length window)%nat ->
  names_directive (before ++ window ++ chunk)%list =
  names_directive (before ++ window)%list || names_directive (window ++ chunk)%list.
Proof.
  intros Hw. unfold names_directive. rewrite !map_app. pose proof (eq_refl : longest_directive = 9%nat) as Hlong.
  induction directives_are_plain as [|needle l [_ Hl] _ IH]; [done|].
  cbn [existsb]. rewrite IH, (occurs_window needle (map lower_byte before) (map lower_byte window) (map lower_byte chunk) (longest_directive - 1)).
  - by destruct (occurs needle (_ ++ map lower_byte window)), (occurs needle (map lower_byte window ++ _)), (existsb _ l), (existsb _ l).
  - lia.
  - rewrite length_map. destruct Hw as [->|Hw]; [by left|by right].
Qed.

Lemma names_directive_app a b : names_directive a = true -> names_directive (a ++ b)%list = true.
Proof.
  unfold names_directive. rewrite !existsb_exists. intros (needle & Hin & (l & r & Ha)%occurs_spec). exists needle.
  split; [done|]. apply occurs_spec. exists l, (r ++ map lower_byte b)%list. by rewrite map_app, Ha, <- !(assoc_L (++)%list).
Qed.

Section Directives.
Context `{KernelLaws} `{!Directories}.

Lemma directive_loop_finishes fuel path h s before window b :
  (forall n, contents (ahead s n) h = b) -> (forall n i, is_ok (read_at (ahead s n) h i) = true) ->
  (length b - length (before ++ window) < fuel)%nat ->
  before = [] \/ (longest_directive - 1 <= length window)%nat -> names_directive (before ++ window)%list = false ->
  (before ++ window)%list `prefix_of` b ->
  fst (directive_loop fuel path h (Z.of_nat (length (before ++ window))) window s) = Ok (names_directive b).
Proof.
  revert s before window. induction fuel as [|fuel IH]; intros s before window Hb Hok Hl Hw Hno [rest He]; [lia|].
  cbn [directive_loop]. unfold mbind, Look_bind, reading at 1, call at 1.
  pose proof (Hok 0%nat (Z.of_nat (length (before ++ window)))) as Hread.
  destruct (read_at _ _ _) as [[|c chunk]|e] eqn:E; [..|done].
  - apply read_ends in E; [|lia]. rewrite Hb, He, length_app in E. destruct rest; [|simpl in E; lia].
    rewrite He, app_nil_r, Hno. done.
  - apply read_reads in E as (rest' & Hr); [|lia|done]. rewrite Hb, Nat2Z.id, He, drop_app_length in Hr.
    pose proof (names_directive_window before window (c :: chunk) Hw) as Hn. rewrite Hno, orb_false_l in Hn.
    rewrite finds_directive_names, <- Hn. destruct (names_directive (before ++ window ++ c :: chunk)) eqn:Hd.
    + rewrite He, Hr, (assoc_L (++)%list), <- (assoc_L (++)%list before). by rewrite names_directive_app.
    + set (keep := (length (window ++ c :: chunk) - (longest_directive - 1))%nat).
      assert (Hdata : ((before ++ take keep (window ++ c :: chunk)) ++ drop keep (window ++ c :: chunk) = before ++ window ++ c :: chunk)%list)
        by (by rewrite <- (assoc_L (++)%list), take_drop).
      replace (Z.of_nat (length (before ++ window)) + Z.of_nat (length (c :: chunk)))%Z
        with (Z.of_nat (length ((before ++ take keep (window ++ c :: chunk)) ++ drop keep (window ++ c :: chunk))))
        by (rewrite Hdata, !length_app; lia).
      apply IH; [intros n; apply (Hb (S n))|intros n; apply (Hok (S n))|..]; rewrite ?Hdata.
      * rewrite He, Hr, !length_app in *. simpl in *. lia.
      * destruct (decide (length (window ++ c :: chunk) <= longest_directive - 1)%nat) as [Hk|Hk].
        { destruct Hw as [->|Hw]; [left|].
          - subst keep. by replace (_ - _)%nat with 0%nat by lia.
          - rewrite length_app in Hk. cbn [length] in Hk. lia. }
        right. rewrite length_drop. subst keep. lia.
      * done.
      * exists rest'. by rewrite He, Hr, <- !(assoc_L (++)%list).
Qed.

(** Reading in pieces finds a directive of the assembler, in any case of its
    letters, exactly when a search of the whole file does; the loop ends. *)
Lemma directive_scan_exact fuel path h s b :
  (forall n, open_file (ahead s n) path = Ok h) ->
  (forall n, contents (ahead s n) h = b) -> (forall n i, is_ok (read_at (ahead s n) h i) = true) ->
  (length b < fuel)%nat ->
  fst (contains_assembler_input_directive fuel path s) = Ok (names_directive b).
Proof.
  intros Ho Hb Hok Hf. unfold contains_assembler_input_directive, mbind, Look_bind, reading, call. rewrite Ho.
  apply (directive_loop_finishes fuel path h _ [] []); [intros n; apply (Hb (S n))|intros n; apply (Hok (S n))|cbn; lia|by left|done|].
  by exists b.
Qed.

End Directives.
