(* ===== verification/CcShadow.v ===== *)
(** * Headers that appear while a compiler runs

    The theorem about include manifests ([CcInputs.v]): when the snapshots taken
    before and after a compilation agree as [verify_search_path_unchanged] asks,
    every searched directory has the same includable names beneath it at both
    moments, though directories nested in others are walked only once and
    spellings with [..] are resolved on the disk.  [LinksLaws] is what it needs of
    the filesystem, and [TextHash] of the hash.  The module [FolderDemo] has a
    filesystem that obeys the laws, and two cases the check does not see. *)

From stdpp Require Import base list gmap strings sorting.
From Stdlib Require Import ZArith Lia Ascii.
From S2P Require Import Prelude Protocol Strings PathMap RustcArgs FileDigest DepInfo CcArgs CcAction CcInputs.
Local Open Scope string_scope.

(** ** What is relied on *)

(** A name whose metadata is that of a directory is listed as one, [..] leads
    out of a directory that is no link, and a listing has names of files. *)
Class LinksLaws `{Directories} `{!Links} : Prop := {
  listed_directory w p n l :
    canonical (p ++ [Normal n])%list = true -> link_kind w (p ++ [Normal n])%list = Ok Directory -> list_directory w p = Ok l ->
    In (Ok (n, Ok Directory)) l;
  directory_has_place w p n :
    canonical (p ++ [Normal n])%list = true -> link_kind w (p ++ [Normal n])%list = Ok Directory -> list_directory w p <> Err NotFound;
  back_out w p q :
    canonical p = true -> link_kind w p = Ok Directory ->
    list_directory w (p ++ ParentDir :: q)%list = list_directory w (pop p ++ q)%list;
  entry_names w p l n k : list_directory w p = Ok l -> In (Ok (n, k)) l -> good_name n = true;
}.

(** No two texts the manifests hash have one hash. *)
Class TextHash `{Hashes} : Prop :=
  no_text_collision a b : blake3_hex (ascii_bytes a) = blake3_hex (ascii_bytes b) -> a = b.

(** An absolute path as it is split into components. *)
Definition searched (p : Path) : bool :=
  match p with
  | RootDir :: q => forallb (fun c => match c with Normal n => good_name n | ParentDir => true | _ => false end) q
  | _ => false
  end.

#[local] Instance FileKind_eq_dec : EqDecision FileKind.
Proof. solve_decision. Defined.

Section Shadow.
Context `{LinksLaws} `{TextHash} `{!DigestCache}.

(** The includable names beneath a directory; links are not followed. *)
Inductive beneath (w : World) : Path -> list string -> Prop :=
| beneath_here d l name kind :
    list_directory w d = Ok l -> In (Ok (name, Ok kind)) l -> kind <> Directory -> is_includable name = true ->
    beneath w d [name]
| beneath_under d l name rest :
    list_directory w d = Ok l -> In (Ok (name, Ok Directory)) l -> beneath w (push d [Normal name]) rest ->
    beneath w d (name :: rest).

(** No directory goes away or becomes something else. *)
Definition directories_stay (w w' : World) : Prop :=
  forall p, link_kind w p = Ok Directory -> link_kind w' p = Ok Directory.

Definition no_newlines (w : World) : Prop :=
  forall p l n k, list_directory w p = Ok l -> In (Ok (n, k)) l -> without line_feed n = true.

(** ** Operations in a world that stands still *)

Definition still (w : World) (s : Process) : Prop := forall n, ahead s n = w.

Definition yields {A} (w : World) (m : Look A) (Q : A -> Prop) : Prop :=
  forall s a s', still w s -> m s = (Ok a, s') -> still w s' /\ Q a.

Lemma yields_ret {A} w (a : A) (Q : A -> Prop) : Q a -> yields w (mret a) Q.
Proof. intros HQ s b s' Hs [= <- <-]. done. Qed.

Lemma yields_answer {A} w (r : result CcBypassReason A) : yields w (answer r) (fun a => r = Ok a).
Proof. intros s b s' Hs [= -> <-]. done. Qed.

Lemma yields_call {A} w (f : World -> result IoError A) : yields w (asking (call f)) (fun r => r = f w).
Proof.
  intros s b s' Hs. unfold asking, call. intros [= <- <-]. rewrite (Hs 0%nat). split; [|done].
  intros n. apply (Hs (S n)).
Qed.

Lemma yields_bind {A B} w (m : Look A) (f : A -> Look B) Q R :
  yields w m Q -> (forall a, Q a -> yields w (f a) R) -> yields w (m ≫= f) R.
Proof.
  intros Hm Hf s b s' Hs. unfold mbind, Look_bind. destruct (m s) as [[a|e] s1] eqn:E; [|done].
  destruct (Hm _ _ _ Hs E) as [Hs1 Ha]. by apply Hf.
Qed.

Lemma yields_mono {A} w (m : Look A) (Q R : A -> Prop) : yields w m Q -> (forall a, Q a -> R a) -> yields w m R.
Proof. intros Hm HQ s a s' Hs E. destruct (Hm _ _ _ Hs E). auto. Qed.

Ltac look :=
  repeat match goal with
  | |- yields _ (mret _) _ => apply yields_ret
  | |- yields _ (_ ≫= _) _ => eapply yields_bind; [first [apply yields_call | apply yields_answer]|cbn beta; intros ? ?]
  end.

(** ** Identities of directories *)

(** What [identity_from] answers in a world that stands still. *)
Fixpoint identity_in (w : World) (components normalized : Path) : option Path :=
  match components with
  | [] => Some normalized
  | CurDir :: components => identity_in w components normalized
  | ParentDir :: components =>
      match link_kind w normalized with
      | Ok Directory => identity_in w components (pop normalized)
      | _ => None
      end
  | component :: components => identity_in w components (push normalized [component])
  end.

Lemma identity_yields w l n : yields w (identity_from l n) (fun r => r = identity_in w l n).
Proof.
  revert n. induction l as [|c l IH]; intros n; cbn [identity_from identity_in]; [by look|].
  destruct c; try apply IH. unfold kind_of. look. subst. by destruct (link_kind w n) as [[]|]; try (by look).
Qed.

Lemma identity_stays w w' l n m : directories_stay w w' -> identity_in w l n = Some m -> identity_in w' l n = Some m.
Proof.
  intros Hd. revert n. induction l as [|c l IH]; intros n; cbn [identity_in]; [done|]. destruct c; try apply IH.
  destruct (link_kind w n) as [[]|] eqn:E; try done. rewrite (Hd _ E). apply IH.
Qed.

Definition same_listings (w : World) (d e : Path) : Prop :=
  d <> [] /\ e <> [] /\ forall q, list_directory w (d ++ q)%list = list_directory w (e ++ q)%list.

Lemma canonical_nonempty p : canonical p = true -> p <> [].
Proof. by destruct p. Qed.

Lemma identity_of_canonical w l n m :
  canonical n = true -> forallb (fun c => match c with Normal n => good_name n | ParentDir => true | _ => false end) l = true ->
  identity_in w l n = Some m ->
  canonical m = true /\ forall q, list_directory w (n ++ l ++ q)%list = list_directory w (m ++ q)%list.
Proof.
  revert n. induction l as [|c l IH]; intros n Hn Hl; cbn [identity_in].
  { intros [= <-]. done. }
  cbn in Hl. apply andb_prop in Hl as [Hc Hl]. destruct c as [| | |x]; try done.
  - destruct (link_kind w n) as [[]|] eqn:E; try done. intros Hm.
    destruct (IH (pop n) (canonical_pop _ Hn) Hl Hm) as [Hcm Hq]. split; [done|]. intros q.
    cbn. rewrite (back_out w n (l ++ q)%list Hn E). apply Hq.
  - rewrite push_normal by (by apply canonical_nonempty). intros Hm.
    destruct (IH _ (canonical_app _ _ Hn Hc) Hl Hm) as [Hcm Hq]. split; [done|]. intros q.
    rewrite <- Hq, <- app_assoc. done.
Qed.

Lemma identity_lists w d n : searched d = true -> identity_in w d [] = Some n -> canonical n = true /\ same_listings w d n.
Proof.
  destruct d as [|[] d]; try done. intros Hd Hn. cbn in Hd, Hn.
  destruct (identity_of_canonical w d [RootDir] n eq_refl Hd Hn) as [Hc Hq].
  split; [done|]. split; [done|]. split; [by apply canonical_nonempty|]. intros q. apply (Hq q).
Qed.

Lemma same_listings_sym w d e : same_listings w d e -> same_listings w e d.
Proof. intros (Hd & He & Hq). split; [done|]. split; [done|]. intros q. by rewrite Hq. Qed.

Lemma same_listings_push w d e n : same_listings w d e -> same_listings w (push d [Normal n]) (push e [Normal n]).
Proof.
  intros (Hd & He & Hq). rewrite !push_normal by done. split; [by destruct d|]. split; [by destruct e|].
  intros q. rewrite <- !app_assoc. apply Hq.
Qed.

Lemma same_listings_here w d e : same_listings w d e -> list_directory w d = list_directory w e.
Proof. intros (_ & _ & Hq). specialize (Hq []). by rewrite !app_nil_r in Hq. Qed.

Lemma beneath_same w d e rel : same_listings w d e -> beneath w d rel -> beneath w e rel.
Proof.
  intros Hs Hb. revert e Hs. induction Hb as [d l name kind Hl Hin Hk Hi|d l name rest Hl Hin _ IH]; intros e Hs;
    rewrite (same_listings_here _ _ _ Hs) in Hl.
  - by eapply beneath_here.
  - eapply beneath_under; [done..|]. by apply IH, same_listings_push.
Qed.

(** ** Directories walked with an ancestor *)

(** From [current] down [names], every name is a directory and no link. *)
Fixpoint real (w : World) (current : Path) (names : list string) : Prop :=
  match names with
  | [] => True
  | n :: names => link_kind w (current ++ [Normal n])%list = Ok Directory /\ real w (current ++ [Normal n])%list names
  end.

Definition covers (w : World) (ancestor descendant : Path) : Prop :=
  exists names, descendant = (ancestor ++ map Normal names)%list /\ real w ancestor names.

Lemma real_stays w w' p names : directories_stay w w' -> real w p names -> real w' p names.
Proof.
  intros Hd. revert p. induction names as [|n names IH]; intros p; [done|]. intros [Hk Hr]. split; [by apply Hd|by apply IH].
Qed.

Lemma covers_stays w w' a d : directories_stay w w' -> covers w a d -> covers w' a d.
Proof. intros Hd (names & -> & Hr). exists names. split; [done|by eapply real_stays]. Qed.

Lemma canonical_rest p q : canonical (p ++ q)%list = true -> canonical p = true ->
  exists names, q = map Normal names /\ Forall (fun n => good_name n = true) names.
Proof.
  intros (names & He & Hf)%canonical_names (ps & -> & _)%canonical_names. unfold under_root in He. cbn in He.
  injection He as He. symmetry in He. apply map_eq_app in He as (l1 & l2 & -> & _ & <-). apply Forall_app in Hf as [_ Hf]. by exists l2.
Qed.

Lemma covers_from_yields w current names : current <> [] ->
  yields w (covers_from current (map Normal names)) (fun b => b = true -> real w current names).
Proof.
  revert current. induction names as [|n names IH]; intros current Hc; cbn [map covers_from]; [by look|].
  unfold kind_of. look. subst. rewrite push_normal by done.
  destruct (link_kind w (current ++ [Normal n])%list) as [[]|] eqn:E; try (by look).
  eapply yields_mono; [apply IH; by destruct current|]. intros b Hb Ht. split; [exact E|exact (Hb Ht)].
Qed.

Lemma manifest_covers_yields w a d : canonical a = true -> canonical d = true ->
  yields w (manifest_covers a d) (fun b => b = true -> covers w a d).
Proof.
  intros Ha Hd. unfold manifest_covers. destruct (strip_path a d) as [q|] eqn:E; [|by look].
  apply strip_path_inv in E as ->. destruct (canonical_rest _ _ Hd Ha) as (names & -> & _).
  eapply yields_mono; [by apply covers_from_yields, canonical_nonempty|]. intros b Hb Ht. exists names. split; [done|auto].
Qed.

(** A directory with its identity in the world [w]. *)
Definition identified (w : World) (x : Path * option Path) : Prop :=
  searched x.1 = true /\ x.2 = identity_in w x.1 [].

Definition served (w : World) (minimal : list (Path * option Path)) (x : Path * option Path) : Prop :=
  In x minimal \/
  exists y a n, In y minimal /\ y.2 = Some a /\ x.2 = Some n /\ covers w a n.

Lemma served_more w minimal more x : served w minimal x -> served w (minimal ++ more)%list x.
Proof.
  intros [Hx|(y & a & n & Hy & Hrest)]; [left; apply in_or_app; by left|]. right. exists y, a, n.
  split; [apply in_or_app; by left|done].
Qed.

Lemma identified_canonical w x n : identified w x -> x.2 = Some n -> canonical n = true.
Proof. intros [Hs Hi] Hn. rewrite Hn in Hi. symmetry in Hi. by apply identity_lists in Hi as [Hc _]. Qed.

Lemma any_covers_yields w minimal x : Forall (identified w) minimal -> identified w x ->
  yields w (any_covers minimal x.2) (fun b => b = true -> served w minimal x).
Proof.
  intros Hm Hx. induction Hm as [|[d ancestor] minimal Hy Hm IH]; cbn [any_covers]; [by look|].
  assert (Hrest : yields w (any_covers minimal x.2) (fun b => b = true -> served w ((d, ancestor) :: minimal) x)).
  { eapply yields_mono; [exact IH|]. intros b Hb Ht. destruct (Hb Ht) as [Hin|(y & a & n & Hin & Ha)]; [by left; right|].
    right. exists y, a, n. split; [by right|done]. }
  destruct ancestor as [a|], (x.2) as [n|] eqn:Hn; try (eapply yields_bind; [by apply (yields_ret _ false (fun b => b = false))|by intros b ->]).
  eapply yields_bind; [apply manifest_covers_yields; eapply identified_canonical; [exact Hy|done|exact Hx|exact Hn]|].
  intros [] Hc; [|done]. look. intros _. right. exists (d, Some a), a, n. split; [by left|]. auto.
Qed.

Lemma keep_minimal_yields w minimal l : Forall (identified w) minimal -> Forall (identified w) l ->
  yields w (keep_minimal minimal l)
    (fun r => Forall (identified w) r /\ (forall x, served w minimal x \/ In x l -> served w r x)).
Proof.
  intros Hm Hl. revert minimal Hm. induction Hl as [|x l Hx Hl IH]; intros minimal Hm; cbn [keep_minimal].
  { look. split; [done|]. by intros x [?|[]]. }
  destruct x as [d normalized]. eapply yields_bind; [exact (any_covers_yields w minimal (d, normalized) Hm Hx)|].
  intros [] Hc.
  - eapply yields_mono; [by apply IH|]. intros r [Hr Hs]. split; [done|].
    intros x [Hin|[<-|Hin]]; apply Hs; [by left| |by right]. left. by apply Hc.
  - eapply yields_mono; [apply IH, Forall_app; split; [done|by constructor]|]. intros r [Hr Hs]. split; [done|].
    intros x [Hin|[<-|Hin]]; apply Hs; [left; by apply served_more| |by right]. left. left. apply in_or_app. right. by left.
Qed.

Lemma identify_yields w l : Forall (fun d => searched d = true) l ->
  yields w (identify_directories l) (fun r => Forall (identified w) r /\ map fst r = l).
Proof.
  intros Hl. induction Hl as [|d l Hd Hl IH]; cbn [identify_directories]; [by look|].
  eapply yields_bind; [apply identity_yields|]. intros n Hn. eapply yields_bind; [exact IH|]. intros r [Hr Hf].
  look. split; [constructor; [by split|done]|]. cbn. by rewrite Hf.
Qed.

(** Every directory is walked, or beneath one that is. *)
Lemma minimal_yields w ds : (forall d, d ∈ ds -> searched d = true) ->
  yields w (minimal_manifest_directories ds)
    (fun r => forall d, d ∈ ds -> exists a, In a r /\ searched a = true /\
      (a = d \/ exists n m, identity_in w a [] = Some n /\ identity_in w d [] = Some m /\ covers w n m)).
Proof.
  intros Hds. unfold minimal_manifest_directories.
  eapply yields_bind; [apply identify_yields, Forall_forall; intros d Hd; apply Hds; by rewrite elem_of_sorted_paths in Hd|].
  intros l [Hl Hf]. eapply yields_bind.
  { apply (keep_minimal_yields w [] (merge_sort directory_before l)); [done|]. by rewrite merge_sort_Permutation. }
  intros r [Hr Hs]. look. intros d Hd. rewrite <- elem_of_sorted_paths, <- Hf, list_elem_of_In, in_map_iff in Hd.
  destruct Hd as (x & <- & Hx).
  assert (Hix : identified w x) by (rewrite Forall_forall in Hl; by apply Hl, list_elem_of_In).
  rewrite Forall_forall in Hr. destruct (Hs x) as [Hin|(y & a & n & Hy & Ha & Hn & Hc)].
  - right. apply list_elem_of_In. rewrite merge_sort_Permutation. by apply list_elem_of_In.
  - exists x.1. split; [by apply in_map|]. split; [by apply Hix|by left].
  - destruct (Hr y) as [Hys Hyi]; [by apply list_elem_of_In|]. exists y.1. split; [by apply in_map|]. split; [done|].
    right. exists a, n. rewrite <- Hyi, Ha. split; [done|]. destruct Hix as [_ Hxi]. rewrite <- Hxi. done.
Qed.

(** ** The walk of a manifest *)

(** The name of a file in the manifest of a directory reached under [prefix]. *)
Definition under_prefix (prefix name : string) : string :=
  if String.eqb prefix "" then name else prefix ++ "/" ++ name.
Definition text_of (prefix : string) (names : list string) : string := under_prefix prefix (join "/" names).

Lemma text_of_cons prefix n names : names <> [] -> good_name n = true ->
  text_of prefix (n :: names) = text_of (under_prefix prefix n) names.
Proof.
  intros Hne (Hn & _)%good_name_parts. destruct names as [|x names]; [done|]. unfold text_of.
  change (join "/" (n :: x :: names)) with (n ++ "/" ++ join "/" (x :: names)). unfold under_prefix.
  destruct (String.eqb prefix "") eqn:Hp.
  - assert (Hf : String.eqb n "" = false) by (by apply String.eqb_neq). by rewrite Hf.
  - assert (Hf : String.eqb (prefix ++ "/" ++ n) "" = false) by (by destruct prefix). rewrite Hf.
    by rewrite !app_assoc_string.
Qed.

Lemma beneath_nonempty w d rel : beneath w d rel -> rel <> [].
Proof. by destruct 1. Qed.

(** A directory is there to list or is not there. *)
Definition met (w : World) (d : Path) : Prop :=
  (exists l, list_directory w d = Ok l) \/ list_directory w d = Err NotFound.

(** So are those on the way down [names]. *)
Fixpoint listable (w : World) (names : list string) (d : Path) : Prop :=
  met w d /\
  match names with
  | [] => True
  | n :: names => forall l, list_directory w d = Ok l -> In (Ok (n, Ok Directory)) l -> listable w names (push d [Normal n])
  end.

Lemma manifest_entries_ok current prefix l pending names budget pending' names' budget' :
  manifest_entries current prefix l pending names budget = Ok (pending', names', budget') ->
  (forall s, In s names' <-> In s names \/
     exists n k, In (Ok (n, Ok k)) l /\ k <> Directory /\ is_includable n = true /\ s = under_prefix prefix n) /\
  (forall x, In x pending' <-> In x pending \/
     exists n, In (Ok (n, Ok Directory)) l /\ x = (push current [Normal n], under_prefix prefix n)).
Proof.
  revert pending names budget. induction l as [|[[n kind]|e] l IH]; intros pending names budget; cbn [manifest_entries].
  - intros [= -> -> ->]. split; intros x; (split; [by left|]); intros [?|Hx]; try done; by destruct Hx as (? & Hx); decompose [ex and] Hx.
  - destruct (to_str n) as [valid|]; [cbn|done]. fold (under_prefix prefix n). destruct kind as [kind|]; [|done].
    destruct (decide (kind = Directory)) as [->|Hk].
    + intros [Hn Hp]%IH. split; intros x; [rewrite Hn|rewrite Hp]; cbn [In].
      * split; (intros [?|(n' & k & Hin & Hk & Hrest)]; [by left|right]; exists n', k); [by auto|].
        by destruct Hin as [[= <- <-]|Hin].
      * split; [intros [[<-|?]|(n' & Hin & ->)]; eauto 6|]. intros [?|(n' & [[= <-]|Hin] & ->)]; eauto 6.
    + intros Hm. assert (Hx : exists names1 budget1, manifest_entries current prefix l pending names1 budget1 = Ok (pending', names', budget') /\
        forall s, In s names1 <-> In s names \/ (is_includable n = true /\ s = under_prefix prefix n)).
      { destruct kind; [done|..]; (destruct (is_includable n); [destruct (_ <? _)%Z; [done|]|];
          (do 2 eexists; split; [exact Hm|]; intros s; rewrite ?in_app_iff; cbn; naive_solver)). }
      destruct Hx as (names1 & budget1 & [Hn Hp]%IH & Hn1). split; intros x; [rewrite Hn, Hn1|rewrite Hp]; cbn [In].
      * split.
        { intros [[?|[? ->]]|(n' & k & ? & ? & ? & ->)]; [by left|right; exists n, kind|right; exists n', k]; auto. }
        intros [?|(n' & k & [[= <- <-]|Hin] & ? & ? & ->)]; [by left; left|left; by right|right; exists n', k]; auto.
      * split; (intros [?|(n' & Hin & ->)]; [by left|right]; exists n'); [by auto|]. by destruct Hin as [[= -> ->]|Hin].
  - done.
Qed.

(** The names found from what is pending. *)
Definition found_from (w : World) (pending : list (Path * string)) (s : string) : Prop :=
  exists d prefix rel, In (d, prefix) pending /\ beneath w d rel /\ s = text_of prefix rel.

Lemma found_from_entries w current prefix l pending pending' s :
  list_directory w current = Ok l ->
  (forall x, In x pending' <-> In x pending \/
     exists n, In (Ok (n, Ok Directory)) l /\ x = (push current [Normal n], under_prefix prefix n)) ->
  found_from w ((current, prefix) :: pending) s <->
  found_from w pending' s \/
  exists n k, In (Ok (n, Ok k)) l /\ k <> Directory /\ is_includable n = true /\ s = under_prefix prefix n.
Proof.
  intros Hl Hp. split.
  - intros (d & pre & rel & [[= <- <-]|Hin] & Hb & ->).
    + inversion Hb as [? l' n k Hl' Hin Hk Hi|? l' n rest Hl' Hin Hr]; subst; rewrite Hl in Hl'; injection Hl' as <-.
      * right. by exists n, k.
      * left. exists (push current [Normal n]), (under_prefix prefix n), rest. rewrite Hp. split; [by right; exists n|].
        split; [done|]. apply text_of_cons; [by eapply beneath_nonempty|by eapply entry_names].
    + left. exists d, pre, rel. rewrite Hp. by split; [left|].
  - intros [(d & pre & rel & Hin & Hb & ->)|(n & k & Hin & Hk & Hi & ->)].
    + rewrite Hp in Hin. destruct Hin as [Hin|(n & Hin & [= -> ->])]; [exists d, pre, rel; split; [by right|done]|].
      exists current, prefix, (n :: rel). split; [by left|]. split; [by eapply beneath_under|].
      symmetry. apply text_of_cons; [by eapply beneath_nonempty|by eapply entry_names].
    + exists current, prefix, [n]. split; [by left|]. split; [by eapply beneath_here|done].
Qed.

Lemma manifest_walk_yields w rounds pending names budget :
  yields w (manifest_walk rounds pending names budget)
    (fun r => (forall s, In s r.1 <-> In s names \/ found_from w pending s) /\
              forall d prefix ns, In (d, prefix) pending -> listable w ns d).
Proof.
  revert pending names budget. induction rounds as [|rounds IH]; intros [|[current prefix] pending] names budget; cbn [manifest_walk];
    try (look; split; [|done]; intros s; split; [by left|]; intros [?|(? & ? & ? & [] & _)]; done).
  { intros s a s' _ [=]. }
  look. subst. destruct (list_directory w current) as [l|e] eqn:Hl.
  - eapply yields_bind; [apply yields_answer|]. intros [[pending' names'] budget'] [Hn Hp]%manifest_entries_ok.
    eapply yields_mono; [apply IH|]. intros r [Hr Hw]. split.
    + intros s. rewrite Hr, Hn, (found_from_entries w current prefix l pending pending' s Hl Hp). tauto.
    + intros d pre ns [[= <- <-]|Hin]; [|apply (Hw d pre), Hp; by left].
      destruct ns as [|n ns]; (split; [left; by exists l|]); [done|]. intros l' Hl' Hin. rewrite Hl in Hl'. injection Hl' as <-.
      eapply (Hw _ (under_prefix prefix n)). apply Hp. right. by exists n.
  - destruct e; try (by intros s a s' _ [=]). eapply yields_mono; [apply IH|]. intros r [Hr Hw]. split.
    + intros s. rewrite Hr. split; (intros [?|(d & pre & rel & Hin & Hb & ->)]; [by left|]).
      * right. exists d, pre, rel. by split; [right|].
      * destruct Hin as [[= <- <-]|Hin]; [|right; by exists d, pre, rel]. exfalso. by destruct Hb; rewrite Hl in *.
    + intros d pre ns [[= <- <-]|Hin]; [|by eapply Hw].
      destruct ns; (split; [by right|]); [done|]. intros l' Hl'. by rewrite Hl in Hl'.
Qed.

(** ** Snapshots *)

(** A digest tells the names beneath a directory that could be walked. *)
Definition summary (w : World) (d : Path) (digest : Digest) : Prop :=
  exists names, digest = manifest_digest names /\
    (forall s, In s names <-> exists rel, beneath w d rel /\ s = join "/" rel) /\
    forall ns, listable w ns d.

Lemma include_manifest_yields w rounds d budget :
  yields w (include_manifest rounds d budget) (fun r => summary w d r.1).
Proof.
  unfold include_manifest. eapply yields_bind; [apply manifest_walk_yields|]. intros [names budget'] [Hn Hw]. look.
  exists names. split; [done|]. split; [|intros ns; apply (Hw d ""); by left]. intros s. cbn in Hn. rewrite Hn. split.
  - intros [[]|(d' & prefix & rel & [[= <- <-]|[]] & Hb & ->)]. by exists rel.
  - intros (rel & Hb & ->). right. exists d, "", rel. by split; [left|].
Qed.

Lemma include_manifests_yields w rounds l budget :
  yields w (include_manifests rounds l budget) (fun r => map fst r = l /\ Forall (fun x => summary w x.1 x.2) r).
Proof.
  revert budget. induction l as [|d l IH]; intros budget; cbn [include_manifests]; [by look|].
  eapply yields_bind; [apply include_manifest_yields|]. intros [digest budget'] Hd.
  eapply yields_bind; [apply IH|]. intros r [Hf Hr]. look. cbn. rewrite Hf. split; [done|by constructor].
Qed.

Definition summed (w : World) (ds : gset Path) (m : gmap Path Digest) : Prop :=
  (forall a digest, m !! a = Some digest -> summary w a digest) /\
  forall d, d ∈ ds -> exists a digest, m !! a = Some digest /\ searched a = true /\
    (a = d \/ exists n m, identity_in w a [] = Some n /\ identity_in w d [] = Some m /\ covers w n m).

Lemma manifest_snapshot_yields w rounds ds : (forall d, d ∈ ds -> searched d = true) ->
  yields w (manifest_snapshot rounds ds) (summed w ds).
Proof.
  intros Hds. unfold manifest_snapshot. eapply yields_bind; [by apply minimal_yields|]. intros l Hl.
  eapply yields_bind; [apply include_manifests_yields|]. intros r [Hf Hr]. look. split.
  - intros a digest Ha%elem_of_list_to_map_2. rewrite Forall_forall in Hr. exact (Hr _ Ha).
  - intros d Hd. destruct (Hl d Hd) as (a & Ha & Hs & Hc). exists a.
    destruct (list_to_map (M := gmap Path Digest) r !! a) as [digest|] eqn:E; [by exists digest|].
    apply not_elem_of_list_to_map in E. destruct E. unfold fmap. rewrite <- list_elem_of_In, <- Hf in Ha. exact Ha.
Qed.

Lemma first_changed_ok after l d digest : first_changed after l = Ok () -> In (d, digest) l -> after !! d = Some digest.
Proof.
  induction l as [|[d' digest'] l IH]; [done|]. cbn [first_changed]. case_bool_decide as Hd; [|done].
  intros Hl [[= <- <-]|Hin]; [done|by apply IH].
Qed.

Lemma in_snapshot_entries m d digest : m !! d = Some digest -> In (d, digest) (snapshot_entries m).
Proof.
  intros Hd. unfold snapshot_entries. rewrite <- list_elem_of_In, list_elem_of_omap. exists d.
  rewrite Hd, elem_of_sorted_paths, elem_of_dom. split; [by exists digest|done].
Qed.

(** ** What a digest says *)

Lemma beneath_names w d rel : no_newlines w -> beneath w d rel ->
  Forall (fun n => good_name n = true) rel /\ Forall (fun n => without line_feed n = true) rel.
Proof.
  intros Hw. induction 1 as [d l n k Hl Hin|d l n rest Hl Hin _ [IH1 IH2]];
    (split; (constructor; [|done]); [by eapply entry_names|by eapply Hw]).
Qed.

Lemma join_without c names : Ascii.eqb "/" c = false -> Forall (fun n => without c n = true) names -> without c (join "/" names) = true.
Proof.
  intros Hc Hn. induction Hn as [|n names Hw Hn IH]; [done|]. destruct names as [|x names]; [done|].
  change (join "/" (n :: x :: names)) with (n ++ "/" ++ join "/" (x :: names)). unfold without in *.
  rewrite !all_chars_app, Hw, IH. cbn [all_chars]. by rewrite Hc.
Qed.

Lemma join_inj c l l' :
  Forall (fun n => n <> "" /\ without c n = true) l -> Forall (fun n => n <> "" /\ without c n = true) l' ->
  join (String c "") l = join (String c "") l' -> l = l'.
Proof.
  assert (Hne : forall n l, n <> "" -> join (String c "") (n :: l) <> "") by (intros [|? ?] []; done).
  assert (Hw : forall l, Forall (fun n => n <> "" /\ without c n = true) l -> Forall (fun n => without c n = true) l)
    by (intros ? Hf; eapply Forall_impl; [exact Hf|]; by intros ? []).
  intros Hl Hl' Hj. destruct l as [|n l], l' as [|n' l']; [done|..].
  - apply Forall_cons in Hl' as [[Hn _] _]. by destruct (Hne n' l' Hn).
  - apply Forall_cons in Hl as [[Hn _] _]. by destruct (Hne n l Hn).
  - apply (f_equal (split c)) in Hj. rewrite !split_join in Hj by (done || by apply Hw). done.
Qed.

Lemma beneath_text_inj w w' d rel rel' : no_newlines w -> no_newlines w' -> beneath w d rel -> beneath w' d rel' ->
  join "/" rel = join "/" rel' -> rel = rel'.
Proof.
  intros Hw Hw' [Hg _]%beneath_names [Hg' _]%beneath_names; [|done..].
  apply join_inj; [eapply Forall_impl; [exact Hg|]|eapply Forall_impl; [exact Hg'|]]; by intros ? (? & _ & _ & ?)%good_name_parts.
Qed.

Lemma summary_texts w d names : no_newlines w -> (forall s, In s names <-> exists rel, beneath w d rel /\ s = join "/" rel) ->
  Forall (fun s => s <> "" /\ without line_feed s = true) (merge_sort string_le names).
Proof.
  intros Hw Hn. rewrite merge_sort_Permutation. apply Forall_forall. intros s Hs%list_elem_of_In.
  apply Hn in Hs as (rel & Hb & ->). pose proof (beneath_nonempty _ _ _ Hb). apply beneath_names in Hb as [Hg Hl]; [|done].
  split; [by apply join_nonempty|by apply join_without].
Qed.

Lemma same_digest_same_names w w' d digest rel : no_newlines w -> no_newlines w' ->
  summary w d digest -> summary w' d digest -> beneath w d rel -> beneath w' d rel.
Proof.
  intros Hw Hw' (names & -> & Hn & _) (names' & Hd & Hn' & _) Hb.
  assert (Hj : join newline (merge_sort string_le names) = join newline (merge_sort string_le names'))
    by (apply no_text_collision; exact (f_equal hash Hd)).
  apply join_inj in Hj; [|exact (summary_texts w d _ Hw Hn)|exact (summary_texts w' d _ Hw' Hn')].
  assert (Hin : In (join "/" rel) names') by (rewrite <- list_elem_of_In, <- (merge_sort_Permutation string_le names'), <- Hj,
    merge_sort_Permutation; apply list_elem_of_In, Hn; by exists rel).
  apply Hn' in Hin as (rel' & Hb' & He). by rewrite (beneath_text_inj w w' d rel rel').
Qed.

(** ** Directories beneath directories *)

Lemma listable_same w ns d e : same_listings w d e -> listable w ns d -> listable w ns e.
Proof.
  revert d e. induction ns as [|n ns IH]; intros d e Hs [Hm Hr]; pose proof (same_listings_here _ _ _ Hs) as He;
    (split; [unfold met in *; by rewrite <- He|]); [done|].
  intros l Hl Hin. rewrite <- He in Hl. eapply IH; [by apply same_listings_push|]. by eapply Hr.
Qed.

Lemma beneath_through w p ns rel : canonical p = true -> Forall (fun n => good_name n = true) ns -> rel <> [] ->
  real w p ns -> listable w ns p -> beneath w p (ns ++ rel)%list <-> beneath w (p ++ map Normal ns)%list rel.
Proof.
  intros Hp Hg Hrel. revert p Hp. induction Hg as [|n ns Hn Hg IH]; intros p Hp; cbn [real listable map].
  { intros _ _. by rewrite app_nil_r. }
  intros [Hk Hr] [Hm Hl]. assert (Hlist : exists l, list_directory w p = Ok l).
  { destruct Hm as [?|Hm]; [done|]. by destruct (directory_has_place w p n (canonical_app _ _ Hp Hn) Hk). }
  destruct Hlist as [l Hlp]. pose proof (listed_directory w p n l (canonical_app _ _ Hp Hn) Hk Hlp) as Hin.
  specialize (Hl l Hlp Hin). rewrite push_normal in Hl by (by apply canonical_nonempty).
  specialize (IH (p ++ [Normal n])%list (canonical_app _ _ Hp Hn) Hr Hl). rewrite <- app_assoc in IH. cbn in IH. rewrite <- IH.
  split.
  - cbn. inversion 1 as [|? ? ? ? _ _ Hb]; subst; [by destruct ns, rel|]. by rewrite push_normal in Hb by (by apply canonical_nonempty).
  - intros Hb. cbn. eapply beneath_under; [exact Hlp|exact Hin|]. by rewrite push_normal by (by apply canonical_nonempty).
Qed.

Lemma good_names p ns : canonical (p ++ map Normal ns)%list = true -> Forall (fun n => good_name n = true) ns.
Proof.
  destruct p as [|[] p]; [by destruct ns|..|done]; try done. cbn. rewrite forallb_app. intros [_ Hf]%andb_prop.
  induction ns as [|n ns IH]; [done|]. cbn in Hf. apply andb_prop in Hf as [Hn Hf]. constructor; [done|by apply IH].
Qed.

Lemma beneath_ancestor w a d n m ns digest rel : searched a = true -> searched d = true ->
  identity_in w a [] = Some n -> identity_in w d [] = Some m -> m = (n ++ map Normal ns)%list -> real w n ns ->
  summary w a digest -> rel <> [] -> beneath w d rel <-> beneath w a (ns ++ rel)%list.
Proof.
  intros Ha Hd [Hcn Hsn]%identity_lists [Hcm Hsm]%identity_lists -> Hr (names & _ & _ & Hl) Hrel; [|done..].
  pose proof (beneath_through w n ns rel Hcn (good_names _ _ Hcm) Hrel Hr (listable_same _ _ _ _ Hsn (Hl ns))) as Ht.
  split; intros Hb.
  - apply (beneath_same _ _ _ _ (same_listings_sym _ _ _ Hsn)), Ht. by apply (beneath_same _ _ _ _ Hsm).
  - apply (beneath_same _ _ _ _ (same_listings_sym _ _ _ Hsm)), Ht. by apply (beneath_same _ _ _ _ Hsn).
Qed.

End Shadow.

(** C13: When the check of the search path passes, no header appeared or went
    while the compiler ran: whatever directories were searched, nested in one
    another or spelled with [..], the includable names beneath each are the same
    in the world of the snapshot before and in the world of the snapshot after,
    provided each snapshot is taken while nothing moves, no directory goes away
    in between and no name has a line break. *)
Theorem search_path_holds `{LinksLaws} `{TextHash} rounds ds before s s1 t t1 w w' d rel :
  still w s -> manifest_snapshot rounds ds s = (Ok before, s1) ->
  still w' t -> verify_search_path_unchanged rounds ds (Ok before) t = (Ok (), t1) ->
  directories_stay w w' -> no_newlines w -> no_newlines w' ->
  (forall d, d ∈ ds -> searched d = true) -> d ∈ ds ->
  beneath w d rel <-> beneath w' d rel.
Proof.
  intros Hs Hb Ht Hv Hstay Hw Hw' Hds Hd.
  destruct (manifest_snapshot_yields w rounds ds Hds _ _ _ Hs Hb) as (_ & Hsum & Hcov).
  unfold verify_search_path_unchanged, mbind, Look_bind in Hv. cbn in Hv.
  destruct (manifest_snapshot rounds ds t) as [[after|e] t2] eqn:Ha; [|done]. injection Hv as Hv _.
  destruct (manifest_snapshot_yields w' rounds ds Hds _ _ _ Ht Ha) as (_ & Hsum' & _).
  destruct (Hcov d Hd) as (a & digest & Hbefore & Hsa & Hc).
  pose proof (Hsum' a digest (first_changed_ok _ _ _ _ Hv (in_snapshot_entries _ _ _ Hbefore))) as Hsa'.
  specialize (Hsum a digest Hbefore).
  assert (Hsame : forall rel, beneath w a rel <-> beneath w' a rel) by (intros r; split; by apply (same_digest_same_names _ _ a digest)).
  destruct Hc as [->|(n & m & Hn & Hm & ns & He & Hr)]; [apply Hsame|].
  assert (Hne : forall P Q : Prop, (P -> rel <> []) -> (Q -> rel <> []) -> (rel <> [] -> P <-> Q) -> P <-> Q) by tauto.
  apply Hne; [by apply beneath_nonempty..|]. intros Hrel.
  rewrite (beneath_ancestor w a d n m ns digest rel Hsa (Hds d Hd) Hn Hm He Hr Hsum Hrel).
  rewrite (beneath_ancestor w' a d n m ns digest rel Hsa (Hds d Hd) (identity_stays _ _ _ _ _ Hstay Hn)
    (identity_stays _ _ _ _ _ Hstay Hm) He (real_stays _ _ _ _ Hstay Hr) Hsa' Hrel).
  apply Hsame.
Qed.

(** ** A filesystem of folders *)

Module FolderDemo.

(** What a name stands for; a link leads to a folder by its full path. *)
Inductive Entry := Folder | Plain | Link (target : Path).
Definition Folders : Type := list (Path * Entry).

Fixpoint entry_at (w : Folders) (p : Path) : option Entry :=
  match w with
  | [] => None
  | (q, e) :: w => if bool_decide (q = p) then Some e else entry_at w p
  end.

(** One step of a path from a folder that has been reached. *)
Definition enter (w : Folders) (c : Path) (component : Component) : option Path :=
  match component with
  | RootDir => Some [RootDir]
  | CurDir => Some c
  | ParentDir => Some (pop c)
  | Normal n =>
      match entry_at w (c ++ [Normal n])%list with
      | Some Folder => Some (c ++ [Normal n])%list
      | Some (Link target) => Some target
      | _ => None
      end
  end.

Fixpoint reach (w : Folders) (c : Path) (p : Path) : option Path :=
  match p with
  | [] => Some c
  | component :: p => c ← enter w c component; reach w c p
  end.

Definition kind_of_entry (e : Entry) : FileKind :=
  match e with Folder => Directory | Plain => Regular | Link _ => Symlink end.

Definition child_of (c : Path) (x : Path * Entry) : option (result IoError (string * result IoError FileKind)) :=
  match strip_path c x.1 with
  | Some [Normal n] => if good_name n then Some (Ok (n, Ok (kind_of_entry x.2))) else None
  | _ => None
  end.

Definition kind_in (w : Folders) (p : Path) : result IoError FileKind :=
  match rev p with
  | Normal n :: q => c ← ok_or NotFound (reach w [] (rev q)); ok_or NotFound (kind_of_entry <$> entry_at w (c ++ [Normal n])%list)
  | _ => ok_or NotFound ((fun _ => Directory) <$> reach w [] p)
  end.

Definition list_in (w : Folders) (p : Path) : result IoError (list (result IoError (string * result IoError FileKind))) :=
  c ← ok_or NotFound (reach w [] p); Ok (omap (child_of c) w).

#[export] Instance folder_kernel : Kernel := {
  World := Folders;
  now _ := 0%Z;
  stat _ _ := Err NotFound;
  open_file _ _ := Err NotFound;
  fstat _ _ := Err NotFound;
  read_at _ _ _ := Err NotFound;
  statfs_type _ _ := Ok 0xEF53%Z;
  statx _ _ := Err ENOSYS
}.
#[export] Instance folder_directories : Directories := {
  list_directory := list_in;
  canonical_path _ p := Ok p;
  io_message _ := ""
}.
#[export] Instance folder_links : Links := kind_in.

Lemma reach_app w c p q : reach w c (p ++ q)%list = (c ← reach w c p; reach w c q).
Proof. revert c. induction p as [|x p IH]; intros c; [done|]. cbn. destruct (enter w c x); [apply IH|done]. Qed.

Lemma kind_child w p n : kind_in w (p ++ [Normal n])%list = Ok Directory ->
  exists c, reach w [] p = Some c /\ entry_at w (c ++ [Normal n])%list = Some Folder.
Proof.
  unfold kind_in. rewrite rev_app_distr. cbn. rewrite rev_involutive. destruct (reach w [] p) as [c|]; [|done]. cbn.
  destruct (entry_at w _) as [[]|] eqn:E; [|done..]. intros _. by exists c.
Qed.

Lemma entry_at_in w p e : entry_at w p = Some e -> In (p, e) w.
Proof.
  induction w as [|[q e'] w IH]; [done|]. cbn. case_bool_decide as Hq; [intros [= ->]; subst; by left|]. intros He. right. by apply IH.
Qed.

Lemma canonical_last p n : canonical (p ++ [Normal n])%list = true -> good_name n = true.
Proof. destruct p as [|[] p]; try done. cbn. rewrite forallb_app. intros [_ H]%andb_prop. cbn in H. by destruct (good_name n). Qed.

(** Out of a folder that is no link leads where it was entered from. *)
Lemma leave_folder w names q : kind_in w (under_root names) = Ok Directory ->
  reach w [] (under_root names ++ ParentDir :: q)%list = reach w [] (pop (under_root names) ++ q)%list.
Proof.
  destruct names as [|n names _] using rev_ind; [done|]. rewrite under_root_snoc. intros (c & Hc & He)%kind_child.
  assert (Hp : forall p, pop (p ++ [Normal n])%list = p) by (intros p; unfold pop; by rewrite parent_app).
  rewrite Hp, <- app_assoc, !reach_app, Hc. cbn [reach app mbind option_bind enter]. rewrite He.
  cbn [mbind option_bind]. by rewrite Hp.
Qed.

#[export, refine] Instance folder_laws : LinksLaws := {}.
Proof.
  - intros w p n l Hp (c & Hc & He)%kind_child. cbn. unfold list_in. rewrite Hc. intros [= <-].
    rewrite <- list_elem_of_In, list_elem_of_omap. exists ((c ++ [Normal n])%list, Folder).
    split; [by apply list_elem_of_In, entry_at_in|]. unfold child_of. cbn. rewrite strip_path_app. cbn.
    apply canonical_last in Hp. by rewrite Hp.
  - intros w p n _ (c & Hc & _)%kind_child. cbn. unfold list_in. by rewrite Hc.
  - intros w p q (names & -> & _)%canonical_names Hk. cbn [list_directory folder_directories]. unfold list_in.
    by rewrite leave_folder.
  - intros w p l n k. cbn. unfold list_in. destruct (reach w [] p) as [c|]; [|done]. intros [= <-].
    rewrite <- list_elem_of_In, list_elem_of_omap. intros ([x e] & _ & Hx). unfold child_of in Hx. cbn in Hx.
    destruct (strip_path c x) as [[|[| | |m] []]|]; try done. destruct (good_name m) eqn:Hg; [|done]. injection Hx as <- _. done.
Defined.

#[export] Instance spelled : Hashes := Memory.toy_hashes.

#[export] Instance spelled_hash : TextHash.
Proof.
  intros a b. cbn. unfold spelled, Memory.toy_hashes, Memory.spell, ascii_bytes; cbn. rewrite !map_map.
  assert (Hm : forall s, map (fun x : Ascii.ascii => Ascii.ascii_of_N (Z.to_N (Z.of_N (Ascii.N_of_ascii x)))) s = s).
  { induction s as [|x s IH]; [done|]. cbn. by rewrite IH, N2Z.id, Ascii.ascii_N_embedding. }
  rewrite !Hm, !String.string_of_list_ascii_of_string. done.
Qed.

Definition at_rest (w : Folders) : Process := mkProcess (fun _ => w) ∅ [].
Definition folder (s : string) : Path * Entry := (path_of s, Folder).
Definition file_at (s : string) : Path * Entry := (path_of s, Plain).

(** A source tree in which the compiler leaves an object, and a directory no
    compilation searched. *)
Definition tree_before : Folders :=
  [folder "/w"; folder "/w/src"; file_at "/w/src/a.c"; folder "/w/inc"; folder "/w/inc/sys"; file_at "/w/inc/sys/types.h"].
Definition tree_after : Folders := (tree_before ++ [file_at "/w/src/a.o"; folder "/w/out"])%list.
Definition searching : gset Path := list_to_set (map path_of ["/w/inc"; "/w/inc/sys"; "/w/src/../inc"; "/w/gone"]).
Definition rounds : nat := 8.

(** What a snapshot answers, when it does. *)
Definition answered (x : result CcBypassReason (gmap Path Digest) * Process) : gmap Path Digest :=
  match x.1 with Ok m => m | Err _ => ∅ end.

Lemma answered_ok x : is_ok x.1 = true -> x = (Ok (answered x), x.2).
Proof. by destruct x as [[] ?]. Qed.

Lemma answered_fst x : is_ok x.1 = true -> x.1 = Ok (answered x).
Proof. by destruct x as [[] ?]. Qed.

Lemma passed_ok (x : result CcBypassReason unit * Process) : is_ok x.1 = true -> x = (Ok (), x.2).
Proof. by destruct x as [[[]|] ?]. Qed.

Definition first_snapshot : gmap Path Digest := answered (manifest_snapshot rounds searching (at_rest tree_before)).

(** Every name of a listing is one of the tree. *)
Lemma no_newlines_in w : forallb (fun x => forallb (fun c => match c with Normal n => without line_feed n | _ => true end) x.1) w = true ->
  no_newlines (H := folder_kernel) w.
Proof.
  intros Hw p l n k. cbn. unfold list_in. destruct (reach w [] p) as [c|]; [|done]. intros [= <-].
  rewrite <- list_elem_of_In, list_elem_of_omap. intros ([x e] & Hx & He). unfold child_of in He. cbn in He.
  destruct (strip_path c x) as [[|[| | |m] []]|] eqn:Hs; try done. destruct (good_name m); [|done]. injection He as <- _.
  apply strip_path_inv in Hs. rewrite forallb_forall in Hw. specialize (Hw _ (proj1 (list_elem_of_In _ _) Hx)). cbn in Hw.
  rewrite Hs, forallb_app in Hw. apply andb_prop in Hw as [_ Hw]. by apply andb_prop in Hw as [Hw _].
Qed.

(** More entries leave the directories that were there. *)
Lemma directories_stay_more w more : directories_stay (H := folder_kernel) w (w ++ more)%list.
Proof.
  assert (He : forall p e, entry_at w p = Some e -> entry_at (w ++ more)%list p = Some e).
  { intros p e. induction w as [|[q e'] w' IH]; [done|]. cbn. by case_bool_decide; [|apply IH]. }
  assert (Hr : forall p c d, reach w c p = Some d -> reach (w ++ more)%list c p = Some d).
  { induction p as [|x p IH]; intros c d; [done|]. cbn. destruct (enter w c x) as [c'|] eqn:E; [|done]. cbn. intros Hp.
    assert (Hx : enter (w ++ more)%list c x = Some c') by (destruct x as [| | |n]; [done..|]; cbn in *;
      destruct (entry_at w (c ++ [Normal n])%list) as [e|] eqn:E'; [by rewrite (He _ _ E')|done]).
    rewrite Hx. by apply IH. }
  intros p. change (kind_in w p = Ok Directory -> kind_in (w ++ more)%list p = Ok Directory). unfold kind_in.
  destruct (rev p) as [|[| | |n] q]; try (destruct (reach w [] p) eqn:E; [by rewrite (Hr _ _ _ E)|done]).
  destruct (reach w [] (rev q)) as [c|] eqn:E; [|done]. rewrite (Hr _ _ _ E). cbn.
  destruct (entry_at w _) as [e|] eqn:E'; [by rewrite (He _ _ E')|done].
Qed.

Lemma search_path_holds_witness :
  size <$> first_snapshot !! path_of "/w/inc" = Some 11%Z /\ first_snapshot !! path_of "/w/inc/sys" = None /\
  (beneath (H := folder_kernel) tree_before (path_of "/w/src/../inc") ["sys"; "types.h"] <->
   beneath (H := folder_kernel) tree_after (path_of "/w/src/../inc") ["sys"; "types.h"]).
Proof.
  split; [vm_compute; reflexivity|]. split; [vm_compute; reflexivity|].
  apply (search_path_holds rounds searching first_snapshot (at_rest tree_before)
    (snd (manifest_snapshot rounds searching (at_rest tree_before))) (at_rest tree_after)
    (snd (verify_search_path_unchanged rounds searching (Ok first_snapshot) (at_rest tree_after)))).
  - intros n. reflexivity.
  - apply answered_ok. vm_compute. reflexivity.
  - intros n. reflexivity.
  - apply passed_ok. vm_compute. reflexivity.
  - apply directories_stay_more.
  - apply no_newlines_in. vm_compute. reflexivity.
  - apply no_newlines_in. vm_compute. reflexivity.
  - intros d Hd%elem_of_list_to_set%list_elem_of_In. cbn in Hd. by destruct Hd as [<-|[<-|[<-|[<-|[]]]]].
  - apply elem_of_list_to_set. vm_compute. do 2 right. left.
Defined.

(** The check compares what the first snapshot has.  A searched directory walked
    with its parent, and replaced by a link to one with a header, has an entry of
    its own only in the second: the check passes, and the header is there. *)
Definition plain_directory : Folders := [folder "/s"; folder "/s/b.d"; folder "/else"; file_at "/else/x.h"].
Definition link_instead : Folders := [folder "/s"; (path_of "/s/b.d", Link (path_of "/else")); folder "/else"; file_at "/else/x.h"].
Definition both : gset Path := list_to_set (map path_of ["/s"; "/s/b.d"]).

Lemma replaced_directory_is_missed :
  exists before, fst (manifest_snapshot rounds both (at_rest plain_directory)) = Ok before /\
    fst (verify_search_path_unchanged rounds both (Ok before) (at_rest link_instead)) = Ok () /\
    ~ beneath (H := folder_kernel) plain_directory (path_of "/s/b.d") ["x.h"] /\
    beneath (H := folder_kernel) link_instead (path_of "/s/b.d") ["x.h"].
Proof.
  exists (answered (manifest_snapshot rounds both (at_rest plain_directory))).
  split; [apply answered_fst; vm_compute; reflexivity|]. split; [vm_compute; reflexivity|]. split.
  - intros Hb. inversion Hb as [? l n k Hl Hin|? l n rest Hl Hin Hr]; subst; vm_compute in Hl; injection Hl as <-; destruct Hin.
  - eapply (beneath_here (H := folder_kernel) _ _ _ "x.h" Regular); [vm_compute; reflexivity|by left|done|reflexivity].
Qed.

(** Names are joined by line breaks and not escaped: one name with a line break
    has the digest of two names. *)
Lemma names_with_line_breaks_collide :
  let broken := ("a" ++ newline ++ "b.h")%string in
  is_includable broken = true /\ manifest_digest [broken] = manifest_digest ["a"; "b.h"].
Proof. split; vm_compute; reflexivity. Qed.

End FolderDemo.
